(* ===== verification/_CoqProject ===== *)
-Q . S2P
Prelude.v
Effects.v
Machines.v
Kv.v
Async.v
Claims.v
Agents.v
ChannelState.v
CallState.v
HangupCauses.v
Bridge.v
Transfer.v
Park.v
ParkRegistry.v
ParkRuns.v
ConferenceRegistry.v
ConferenceRuns.v
Dtmf.v
MidCall.v
Channel.v
Cdr.v
Patterns.v
TimeConditions.v
FeatureCodes.v
Plan.v
Snapshot.v
Json.v
SnapshotValue.v
Sha256.v
Cache.v
PinHash.v
MediaRefs.v
Dial.v
DialFacts.v
RaceFacts.v
Queue.v
QueueSession.v
Trunks.v
Resolve.v
Compile.v
CompileTables.v
CompileLogic.v
CompileFacts.v
TableFacts.v
IvrCycles.v
RunFacts.v
Compiled.v
PlanWalker.v
WalkDemo.v
WalkLogic.v
WalkSteps.v
PlanWalks.v
WalkDials.v
WalkGates.v
CompiledWalks.v
CallControl.v
CallControlFacts.v
HandoverFacts.v
ControlRuns.v
MidCallRuntime.v
MidCallRuntimeFacts.v
MidCallRuns.v
