(* ===== verification/Prelude.v ===== *)
(** * Optimiq Voice: a verification development

    Optimiq Voice is a cloud telephone exchange. Its TypeScript core has three
    layers. [packages/telephony] is the domain of a call: state machines, hangup
    causes, digits, parking, mid-call feature codes. [packages/routing] is the
    dial plan: a snapshot of an organization's configuration is compiled into an
    artifact, and pure resolvers turn a dialled string into an execution plan.
    [apps/engine] runs calls: it keeps a registry of live legs, asks the resolvers
    where a call goes, walks the plan against a media server, distributes queued
    callers to agents, picks trunks, and writes call detail records. Instances of
    the engine and the control plane ([apps/api]) share key-value buckets. This
    library models the decisions of those layers and proves what they promise.

    ** Files

    - [Prelude]: exceptions as values, strings and arrays of the language, stable
      sorting, the tactics and the hint database [voice].
    - [Machines]: the interface every lifecycle implements (a table of edges, a
      guard that throws before the write), with runs, closed sets and a checker.
    - [ChannelState], [CallState], [Bridge], [Transfer], [Park]: the lifecycles of
      [packages/telephony/src] as instances of it; [CallState] adds the
      aggregation of calls into a busy-lamp state, [Park] the slot arithmetic.
    - [HangupCauses]: the causes, their codes and derived sets.
    - [Dtmf]: digit strings ([dtmf.ts]) and the collection of a gather verb
      ([apps/engine/src/verbs/dtmf-accumulator.ts]).
    - [MidCall]: the capture of feature codes during a call
      ([mid-call-features.ts]) with its timers.
    - [Channel]: the leg aggregate, its recovery in another process and the
      registry's four indexes ([apps/engine/src/calls]).
    - [Cdr]: the mapping from media events and the record of a leg.
    - [Patterns], [TimeConditions], [FeatureCodes], [Plan]: the parts of
      [packages/routing/src] with the same names; [FeatureCodes] also holds the
      emergency numbers.
    - [Snapshot]: the rows of an organization ([snapshot.ts]) and destinations
      ([destinations.ts]).
    - [Json], [SnapshotValue], [Sha256], [Cache], [PinHash]: canonical JSON
      ([canonical-json.ts]), the JavaScript value of each row, SHA-256 on machine
      words ([sha256.ts]), the content hash of a snapshot with freshness and eviction
      ([cache.ts]), and the PIN digest format ([voicemail-pin.ts]).
    - [Effects]: methods that change an object and may throw, as a monad.
    - [Compile], [CompileTables]: the compiler from a snapshot to an artifact
      ([compile.ts]): node builders, then tables and whole-graph checks.
    - [CompileLogic]: a program logic for its methods; [CompileFacts], [TableFacts],
      [IvrCycles], [RunFacts]: what each builder, table and check guarantees;
      [Compiled]: what that means for the artifact and the resolvers.
    - [Resolve]: the artifact, the inbound, internal and outbound resolvers and
      the planning of an originated call
      ([apps/engine/src/calls/originate-plan.ts]).
    - [Kv]: the shared bucket as an interface with laws, and its keys.
    - [Async]: methods that wait as programs, the system of all instances that
      interleaves, crashes and resumes them, and a program logic for one method in
      the presence of all the others, with its soundness.
    - [Claims]: the compare-and-set claim store ([nats/claim-store.ts],
      [schemas/claims.ts], [routing/claim-timing.ts]) over [Kv], and what all its
      users may know of the bucket.
    - [ParkRegistry], [ConferenceRegistry]: which call is on which orbit and which
      bridge a room uses, across instances ([apps/engine/src/routing]); [ParkRuns]
      and [ConferenceRuns]: concrete schedules of them.
    - [Agents]: the agent machine, the engine's compare-and-set writer and the
      control plane's write as calls that interleave over the bucket.
    - [Queue]: which agents a waiting caller reaches, the lines and the cursors
      ([apps/engine/src/queue]).
    - [QueueSession]: one caller's stay in a queue ([queue-session.ts]): the
      waiting loop, offers, answers, releases and after-call work, over the ports
      as an interface whose calls may answer anything or throw.
    - [Trunks]: the order of a trunk chain and the ceiling on channels
      ([apps/engine/src/routing]).
    - [MediaRefs]: the helpers of the walker for audio references ([media-refs.ts]),
      destinations ([plan-destination.ts]) and PINs ([voicemail-pin.ts]).
    - [Dial]: the dial of one leg, the race of several and the question a leg is
      asked before it is connected, as machines over the events of a dial (the dial
      half of [plan-walker.ts]); [DialFacts], [RaceFacts]: how they end.
    - [PlanWalker]: the walk of a plan on a live call ([plan-walker.ts]): every node,
      bridging, conferences, voicemail, the queue session inside the walk, the loop
      over the plan. Its ports are a class over an arbitrary world.
    - [WalkLogic]: a program logic for the walker: which steps can follow, what a body
      writes, what it emits and which errors it throws; [WalkSteps]: those facts for
      every node; [PlanWalks]: the whole walk; [WalkDials]: trunk chains and emergency
      calls; [WalkGates]: conferences, mailboxes, messages, menus; [CompiledWalks]:
      walks of the plans the compiler and the resolver give. [WalkDemo] is a scripted
      world for examples.
    - [CallControl]: hold, park, transfer, pickup and recording on a call that is up
      ([call-control.ts]), as methods that wait, over the maps of the class, the legs of
      [Channel] and the park registry; [CallControlFacts]: what holds in every
      interleaving; [HandoverFacts]: what undisturbed methods leave behind;
      [ControlRuns]: concrete calls and schedules.
    - [MidCallRuntime]: the runtime around the machine of [MidCall]
      ([apps/engine/src/calls/mid-call-features.ts]): the captures of the legs, the
      digits in flight, timers, cancel keys and the drain, as a machine over events;
      [MidCallRuntimeFacts]: what holds of every run; [MidCallRuns]: concrete runs.

    Every definition carries the name of the function or type it translates, or
    the name of the function whose loop or branch it is. An object that is
    mutated is a record threaded through the operations; a method is a function
    from the record to the record and its answer; [throw] is [Throw] of the
    type [result]. A JavaScript [Map] is a finite map, or an association list
    where its insertion order is read; [Array.prototype.sort] is a stable sort.

    ** What the theorems show

    Resolution: emergency numbers pass every gate; an outbound call leaves only
    through a route the caller's toll class covers; a refusal says why;
    click-to-call cannot out-dial its extension. Compilation: it always returns;
    the node table is closed whatever the rows say; on an artifact it makes, no
    resolver throws or leaves the plan; emergency numbers lead to a node that
    tries every trunk; a follow-me ladder dials nothing its owner may not; every
    enabled entity is found at its number; menus that loop are reported, and only
    those. Hashing: canonical JSON separates values exactly by content, SHA-256 is
    the published function, a cached artifact is fresh exactly for the same rows,
    writes evict exactly the organizations they touch, and a snapshot that omits
    its emergency addresses hashes like one that lists none but compiles
    differently. PIN digests round-trip and bound the work they cost. Compiled
    parts: time predicates and feature codes mean what they say; the
    reachability walk ends and is exact. Legs: a record is never rewritten, a leg
    is never in an impossible state, survives its process, and the registry
    implements a set of live legs. Mid-call codes: the machine never gets stuck,
    executes only what is configured and everything that is configured, once.
    Agents: the engine's read, guard and write are atomic in every interleaving,
    and an agent on a call belongs to that call. Queue: the selection is exactly
    the agents who can be rung, in the strategy's order, independent of the
    roster's order, and round-robin is fair; a session reports
    a caller's fate once and truthfully, rings nobody past the deadline and leaves
    no agent ringing, and a sequential queue that was busy when the caller came
    never offers the call. Claims, for any number of instances that interleave, lose
    requests and answers, and crash: a live claim on an orbit is taken by nobody but
    its owner, one instance holds an orbit's current claim, an answer is about the
    orbit asked for, and no instance loses or invents what another contributes to a
    room; undisturbed, a park takes the lowest open orbit, a retrieval collects the
    call or changes nothing, and every joiner is told the bridge of the claim. Trunks: failover is never reordered,
    and the ceiling is exact and leaks nothing. Dials, for every order of signals,
    timers and answers: a dial comes back; a leg it names answered and accepted the
    call; every other leg ended, was refused or was hung up; the winner of a race is
    not. Walks, for every behaviour of the ports: a walk ends within its steps, hangs
    the caller up at most once and last, and stays in the plan, which for a compiled
    artifact never lacks a node; a trunk chain returns every channel it reserves and
    leaves no leg up outside a bridge; an emergency call is announced before it is
    dialled and shows the number of its location; nobody enters a room or reads a
    mailbox without the PIN it has; only what was recorded is filed; a menu ends.
    Call control: in every interleaving a consultation is watched and its key armed for
    no longer than it lasts; undisturbed, a hold and its end leave no trace, a completed
    transfer connects the two parties without the transferor, and a consultation that
    does not connect gives the call back.
    Machines: a committed transfer
    does not come back. Records: nothing unanswered is
    billed.

    ** Bounds

    Recursion is structural except where a counter is passed: [followGates]
    follows at most [MAX_GATE_DEPTH] gates, as the source does; the reachability
    walk is given two more than the number of references in the table, proved
    enough ([reachableNodeIds_spec]); the slot scan gets the capacity of the lot;
    [open_staffed] the number of levels not yet open; the weighted sample the
    length of the group; [replaceAll] the length of the template. The compiler's
    extension builder is given one more than the number of extensions, its
    destination builder two more than the number of rows a destination can name,
    the menu search two more than the number of menus: each claims an unclaimed id
    or marks an unmarked menu before it recurs, and [tryCompile_total] shows that
    none runs out. The queue
    session waits forever by design: [loop] is observed after any number of
    passes, and its theorems hold for every number. The conference heartbeat iterates
    live maps, so its fuel bounds the rooms of one pass; its theorems hold for every
    fuel, and one more than the number of rooms is enough ([heartbeat_ends]). The other
    loops of the registries are bounded by the source itself. The walk takes at most
    [maxPlanSteps] steps, as the source does, and observes a queue for any number of
    passes. A menu is given one turn for every failure and timeout it allows
    ([ivr_fuel], enough by [ivr_menu_ends]) and the playing of messages one turn for
    every message and replay ([messages_fuel], enough by [messages_fuel_enough]). A
    dial is run over any list of events followed by those that always come: the ring
    timer, the answers of awaited calls, the timers of a question.

    ** Limits

    Numbers are integers, or rationals where the code accepts any finite number:
    times in milliseconds, weights, counts; [NaN] is [None]
    where the code tests for it, and infinities do not occur. A draw of
    [Math.random] is a numerator over [2^53] and products of it are exact. Strings
    are sequences of code units below 256. A [Record] indexed by a dialled string
    has own properties only, so keys that name a member of [Object.prototype] are
    outside the model. The prose of diagnostics and log lines is left out; their
    codes and severities are kept. Regular expressions, [Intl], the locale
    collation, identifier generation, the text of a number in JSON, [Date.parse]
    and [toISOString] are parameters, as is the key-value server; what a theorem needs of them is a
    hypothesis or a law, with an instance that satisfies it.

    ** Not modelled

    The HTTP control plane and the web application, the Go daemons, database access,
    messaging and media I/O: they are calls on frameworks and services. In the engine:
    the orchestration of legs around a walk (channel-orchestrator.service.ts), which
    reacts to media events and calls the parts modelled here; in [CallControl] what it
    does to a leg is any step of the leg's aggregate, and the walk a call is routed
    through is an answer, since the walks have a model of their own;
    the execution of a verb against the media port; the bus behind the signals of a
    dial, whose deliveries are the event lists of [Dial]; the timer around the claim
    heartbeats; the sources that cache an artifact or a roster. *)

From stdpp Require Export base prelude gmap strings list sorting relations.
From Stdlib Require Export ZArith Lia.
From Stdlib Require Import OrderedTypeEx.

Abbreviation ascii := Ascii.ascii.

Declare Scope js_scope.
Delimit Scope js_scope with js.
Create HintDb voice.

(** ** Exceptions

    A function that may [throw] returns a [result]; the error type is the
    source's error class with its fields. *)
Inductive result (E A : Type) : Type :=
| Ok (a : A)
| Throw (e : E).
Arguments Ok {E A} _.
Arguments Throw {E A} _.

Definition result_bind {E A B} (m : result E A) (k : A → result E B) : result E B :=
  match m with
  | Ok a => k a
  | Throw e => Throw e
  end.

Notation "'let!' x := m 'in' k" := (result_bind m (λ x, k))
  (at level 10, x pattern, m at level 100, k at level 200) : js_scope.

Lemma result_bind_Ok {E A B} (m : result E A) (k : A → result E B) b :
  result_bind m k = Ok b ↔ ∃ a, m = Ok a ∧ k a = Ok b.
Proof. destruct m; simpl; naive_solver. Qed.

Definition is_ok {E A} (m : result E A) : bool :=
  match m with Ok _ => true | Throw _ => false end.

(** ** Strings

    A JavaScript string is a sequence of code units; [string] holds the code
    units below 256, one per character, which contains every dialable string. *)
Definition startsWith (s p : string) : bool := String.prefix p s.

(** [s.endsWith(p)] *)
Definition endsWith (s p : string) : bool :=
  (String.length p <=? String.length s) &&
  bool_decide (String.substring (String.length s - String.length p) (String.length p) s = p).

Fixpoint sdrop (n : nat) (s : string) : string :=
  match n, s with
  | O, _ => s
  | S n', String _ s' => sdrop n' s'
  | S _, EmptyString => EmptyString
  end.

(** [s.slice(start)]: a negative start counts from the end of the string. *)
Definition slice (start : Z) (s : string) : string :=
  let len := Z.of_nat (String.length s) in
  sdrop (Z.to_nat (if start <? 0 then Z.max 0 (len + start) else start))%Z s.

(** [c.toUpperCase()] on ASCII letters. Characters above 127 are left alone:
    neither they nor their upper-case forms are letters any caller tests for. *)
Definition upper_ascii (c : ascii) : ascii :=
  let n := Ascii.nat_of_ascii c in
  if (97 <=? n) && (n <=? 122) then Ascii.ascii_of_nat (n - 32) else c.

Fixpoint toUpperCase (s : string) : string :=
  match s with
  | EmptyString => EmptyString
  | String c s' => String (upper_ascii c) (toUpperCase s')
  end.

(** [s.toLowerCase()] on ASCII letters; the same remark applies. *)
Definition lower_ascii (c : ascii) : ascii :=
  let n := Ascii.nat_of_ascii c in
  if (65 <=? n) && (n <=? 90) then Ascii.ascii_of_nat (n + 32) else c.

Fixpoint toLowerCase (s : string) : string :=
  match s with
  | EmptyString => EmptyString
  | String c s' => String (lower_ascii c) (toLowerCase s')
  end.

Fixpoint string_forallb (p : ascii → bool) (s : string) : bool :=
  match s with
  | EmptyString => true
  | String c s' => p c && string_forallb p s'
  end.

Definition is_digit (c : ascii) : bool :=
  (48 <=? Ascii.nat_of_ascii c) && (Ascii.nat_of_ascii c <=? 57).

(** The white space of [trim] among code units below 256. *)
Definition is_space (c : ascii) : bool :=
  let n := Ascii.nat_of_ascii c in
  ((9 <=? n) && (n <=? 13)) || (n =? 32) || (n =? 160).

Fixpoint trimStart (s : string) : string :=
  match s with
  | String c s' => if is_space c then trimStart s' else s
  | EmptyString => EmptyString
  end.

Fixpoint trimEnd (s : string) : string :=
  match s with
  | EmptyString => EmptyString
  | String c s' =>
      match trimEnd s' with
      | EmptyString => if is_space c then EmptyString else String c EmptyString
      | t => String c t
      end
  end.

Definition trim (s : string) : string := trimEnd (trimStart s).

(** ** Array.prototype.sort

    The language specifies a stable sort. For a consistent comparator the
    stable sorted permutation is unique, so insertion sort computes it. *)
Section Sort.
Context {A : Type}.
Implicit Types (cmp : A → A → Z) (l : list A).

Fixpoint insert_by cmp (x : A) l : list A :=
  match l with
  | [] => [x]
  | y :: l' => if (cmp x y <=? 0)%Z then x :: l else y :: insert_by cmp x l'
  end.

Definition js_sort cmp l : list A := foldr (insert_by cmp) [] l.

Definition cmp_le cmp (x y : A) : Prop := (cmp x y <= 0)%Z.

Lemma insert_by_Permutation cmp x l : insert_by cmp x l ≡ₚ x :: l.
Proof.
  induction l as [|y l IH]; simpl; [done|].
  case_match; [done|]. rewrite IH. apply Permutation_swap.
Qed.

Lemma js_sort_Permutation cmp l : js_sort cmp l ≡ₚ l.
Proof.
  induction l as [|x l IH]; simpl; [done|].
  by rewrite insert_by_Permutation, IH.
Qed.

Lemma elem_of_js_sort cmp l x : x ∈ js_sort cmp l ↔ x ∈ l.
Proof. by rewrite js_sort_Permutation. Qed.

Lemma js_sort_length cmp l : length (js_sort cmp l) = length l.
Proof. by rewrite js_sort_Permutation. Qed.

(** Sortedness is asked only of a comparator that is consistent on the
    elements at hand, which is all the callers can promise. *)
Record consistent_on (P : A → Prop) cmp : Prop := {
  consistent_total : ∀ x y, P x → P y → cmp_le cmp x y ∨ cmp_le cmp y x;
  consistent_trans : ∀ x y z, P x → P y → P z →
    cmp_le cmp x y → cmp_le cmp y z → cmp_le cmp x z }.

Lemma insert_by_sorted (P : A → Prop) cmp x l :
  consistent_on P cmp → P x → Forall P l →
  StronglySorted (cmp_le cmp) l → StronglySorted (cmp_le cmp) (insert_by cmp x l).
Proof.
  intros [Htot Htr] Hx Hl Hs. induction Hs as [|y l Hs IH Hy]; simpl.
  { repeat constructor. }
  apply Forall_cons in Hl as [Py Hl].
  destruct (Z.leb_spec (cmp x y) 0) as [Hle|Hgt].
  - constructor; [by constructor|]. constructor; [done|].
    rewrite Forall_forall in *. intros z Hz. apply (Htr x y z); auto.
  - assert (cmp_le cmp y x) as Hyx by (destruct (Htot x y); unfold cmp_le in *; auto; lia).
    constructor; [by apply IH|].
    rewrite insert_by_Permutation. by constructor.
Qed.

Lemma js_sort_sorted (P : A → Prop) cmp l :
  consistent_on P cmp → Forall P l → StronglySorted (cmp_le cmp) (js_sort cmp l).
Proof.
  intros Hc. induction 1 as [|x l Hx Hl IH]; simpl; [constructor|].
  apply (insert_by_sorted P); auto. rewrite js_sort_Permutation. done.
Qed.

(** Two arrays with the same elements sort to the same array when the
    comparator never ties on distinct elements. *)
Lemma js_sort_unique (P : A → Prop) cmp l1 l2 :
  consistent_on P cmp →
  (∀ x y, P x → P y → cmp_le cmp x y → cmp_le cmp y x → x = y) →
  Forall P l1 → l1 ≡ₚ l2 → js_sort cmp l1 = js_sort cmp l2.
Proof.
  intros Hc Hanti Hl Hp.
  apply (StronglySorted_unique_strong (cmp_le cmp)).
  - intros x y Hx Hy. rewrite elem_of_js_sort in Hx. rewrite elem_of_js_sort, <- Hp in Hy.
    rewrite Forall_forall in Hl. apply Hanti; auto.
  - by apply (js_sort_sorted P).
  - apply (js_sort_sorted P); [done|]. by rewrite <- Hp.
  - by rewrite !js_sort_Permutation.
Qed.

(** A comparator that agrees with an order [R] on the distinct elements at hand
    sorts by [R]; what it answers for an element and itself does not matter. *)
Definition sorts_by (R : relation A) cmp l : Prop :=
  ∀ x y, x ∈ l → y ∈ l → x ≠ y →
    ((cmp x y <= 0)%Z → R x y) ∧ ((0 < cmp x y)%Z → R y x).

Lemma insert_by_sorts (R : relation A) `{!Transitive R} cmp x l :
  sorts_by R cmp (x :: l) → x ∉ l → StronglySorted R l → StronglySorted R (insert_by cmp x l).
Proof.
  intros Hc Hx Hs. induction Hs as [|y l Hs IH Hy]; simpl.
  { repeat constructor. }
  assert (x ≠ y) as Hxy. { intros ->. destruct Hx. apply list_elem_of_here. }
  destruct (Hc x y) as [Hle Hgt]; [set_solver|set_solver|done|].
  destruct (Z.leb_spec (cmp x y) 0) as [H0|H0].
  - constructor; [by constructor|]. constructor; [auto|].
    eapply Forall_impl; [exact Hy|]. intros z Hz. simpl in Hz. etrans; eauto.
  - constructor.
    + apply IH; [|set_solver]. intros a b Ha Hb. apply Hc; set_solver.
    + rewrite insert_by_Permutation. constructor; auto.
Qed.

Lemma js_sort_by (R : relation A) `{!Transitive R} cmp l :
  NoDup l → sorts_by R cmp l → StronglySorted R (js_sort cmp l).
Proof.
  induction 1 as [|x l Hx Hnd IH]; intros Hc; simpl; [constructor|].
  apply insert_by_sorts; [done| | |].
  - intros a b Ha Hb. apply Hc; rewrite ?elem_of_cons, ?elem_of_js_sort in *; done.
  - by rewrite elem_of_js_sort.
  - apply IH. intros a b Ha Hb. apply Hc; set_solver.
Qed.

(** Two arrays with the same elements sort to the same array. *)
Lemma js_sort_by_unique (R : relation A) `{!Transitive R} cmp l1 l2 :
  NoDup l1 → sorts_by R cmp l1 →
  (∀ x y, x ∈ l1 → y ∈ l1 → R x y → R y x → x = y) →
  l1 ≡ₚ l2 → js_sort cmp l1 = js_sort cmp l2.
Proof.
  intros Hnd Hc Hanti Hp. apply (StronglySorted_unique_strong R).
  - intros x y Hx Hy. rewrite elem_of_js_sort in Hx. rewrite elem_of_js_sort, <- Hp in Hy.
    by apply Hanti.
  - by apply js_sort_by.
  - apply js_sort_by; [done| |].
    + by rewrite <- Hp.
    + intros a b Ha Hb. rewrite <- Hp in Ha, Hb. by apply Hc.
  - by rewrite !js_sort_Permutation.
Qed.

(** An already sorted array is left alone: stability on ties. *)
Lemma js_sort_id cmp l : StronglySorted (cmp_le cmp) l → js_sort cmp l = l.
Proof.
  induction 1 as [|x l Hs IH Hx]; simpl; [done|]. rewrite IH.
  destruct Hx as [|y l Hxy]; simpl; [done|].
  destruct (Z.leb_spec (cmp x y) 0); [done|]. unfold cmp_le in Hxy. lia.
Qed.
End Sort.

(** [Array.prototype.includes] and [Set.prototype.has] on values with
    decidable equality. *)
Definition includes {A} `{EqDecision A} (l : list A) (x : A) : bool := bool_decide (x ∈ l).

Lemma includes_spec {A} `{EqDecision A} (l : list A) x : includes l x = true ↔ x ∈ l.
Proof. unfold includes. apply bool_decide_eq_true. Qed.

Lemma includes_false {A} `{EqDecision A} (l : list A) x : includes l x = false ↔ x ∉ l.
Proof. unfold includes. apply bool_decide_eq_false. Qed.

(** [Array.prototype.find]. *)
Fixpoint find_first {A} (p : A → bool) (l : list A) : option A :=
  match l with
  | [] => None
  | x :: l' => if p x then Some x else find_first p l'
  end.

Lemma find_first_Some {A} (p : A → bool) l x :
  find_first p l = Some x → x ∈ l ∧ p x = true.
Proof.
  induction l as [|y l IH]; simpl; [done|].
  destruct (p y) eqn:E; intros H; simplify_eq.
  - split; [apply list_elem_of_here|done].
  - destruct (IH H). split; [by apply list_elem_of_further|done].
Qed.

Lemma find_first_None {A} (p : A → bool) l :
  find_first p l = None ↔ ∀ x, x ∈ l → p x = false.
Proof.
  induction l as [|y l IH]; simpl.
  - split; [|done]. intros _ x Hx. by apply elem_of_nil in Hx.
  - destruct (p y) eqn:E.
    + split; [done|]. intros H. specialize (H y (list_elem_of_here _ _)). congruence.
    + rewrite IH. setoid_rewrite elem_of_cons. naive_solver.
Qed.

(** The first element that passes, with the failing elements before it. *)
Lemma find_first_split {A} (p : A → bool) l x :
  find_first p l = Some x ↔
  ∃ l1 l2, l = l1 ++ x :: l2 ∧ p x = true ∧ Forall (λ y, p y = false) l1.
Proof.
  split.
  - induction l as [|y l IH]; simpl; [done|].
    destruct (p y) eqn:E; intros H; simplify_eq.
    + exists [], l. done.
    + destruct (IH H) as (l1 & l2 & -> & Hp & Hl). exists (y :: l1), l2.
      repeat split; auto.
  - intros (l1 & l2 & -> & Hp & Hl). induction Hl as [|y l1 Hy Hl IH]; simpl.
    + by rewrite Hp.
    + by rewrite Hy.
Qed.

Lemma NoDup_fmap_inj_on {A B} (f : A → B) (l : list A) x y :
  NoDup (f <$> l) → x ∈ l → y ∈ l → f x = f y → x = y.
Proof.
  induction l as [|z l IH]; intros Hnd Hx Hy Heq; [by apply elem_of_nil in Hx|].
  apply NoDup_cons in Hnd as [Hz Hnd]. apply elem_of_cons in Hx, Hy.
  destruct Hx as [->|Hx], Hy as [->|Hy]; auto.
  - destruct Hz. rewrite Heq. by apply list_elem_of_fmap_2.
  - destruct Hz. rewrite <- Heq. by apply list_elem_of_fmap_2.
Qed.

(** [new Set(l)], as its elements in insertion order. *)
Definition js_set {A} `{EqDecision A} (l : list A) : list A :=
  foldl (λ s x, if includes s x then s else s ++ [x]) [] l.

Lemma js_set_spec {A} `{EqDecision A} (l : list A) :
  NoDup (js_set l) ∧ ∀ x, x ∈ js_set l ↔ x ∈ l.
Proof.
  unfold js_set. induction l as [|y l [Hnd IH]] using rev_ind; simpl.
  { split; [constructor|done]. }
  rewrite foldl_app. simpl. destruct (includes _ y) eqn:E;
    [apply includes_spec in E|apply includes_false in E].
  - split; [done|]. intros x. rewrite elem_of_app, list_elem_of_singleton, IH.
    split; [auto|]. intros [?| ->]; [done|]. by apply IH.
  - split; [|intros x; by rewrite !elem_of_app, IH].
    apply NoDup_app. split_and!; [done| |apply NoDup_singleton].
    intros x Hx ->%list_elem_of_singleton. done.
Qed.

(** Code-unit order on strings: [s < t]. *)
Lemma ltb_lt (s t : string) : String.ltb s t = true ↔ String_as_OT.lt s t.
Proof.
  rewrite <- String_as_OT.cmp_lt. unfold String_as_OT.cmp, String.ltb.
  destruct (String.compare s t); split; done.
Qed.

Lemma ltb_irrefl (s : string) : String.ltb s s = false.
Proof.
  destruct (String.ltb s s) eqn:E; [|done]. apply ltb_lt in E.
  by destruct (String_as_OT.lt_not_eq _ _ E).
Qed.

Lemma ltb_trans (s t u : string) :
  String.ltb s t = true → String.ltb t u = true → String.ltb s u = true.
Proof. rewrite !ltb_lt. apply String_as_OT.lt_trans. Qed.

Lemma ltb_total (s t : string) : s ≠ t → String.ltb s t = false → String.ltb t s = true.
Proof.
  intros Hne Hlt. apply ltb_lt, String_as_OT.cmp_lt. rewrite String_as_OT.cmp_antisym.
  unfold String.ltb, String_as_OT.cmp in *. destruct (String.compare s t) eqn:E; try done.
  by apply String.compare_eq_iff in E.
Qed.

(** ** Tactics *)

(** Case split on every [match]/[if] of the goal and hypotheses whose scrutinee
    is not a variable bound deeper, then simplify equations. *)
Ltac js_cases :=
  repeat (case_match || simplify_eq/=).

Ltac bool_simpl :=
  repeat match goal with
  | H : _ && _ = true |- _ => apply andb_true_iff in H as [? ?]
  | H : _ || _ = false |- _ => apply orb_false_iff in H as [? ?]
  | H : negb _ = true |- _ => apply negb_true_iff in H
  | H : negb _ = false |- _ => apply negb_false_iff in H
  | H : bool_decide _ = true |- _ => apply bool_decide_eq_true in H
  | H : bool_decide _ = false |- _ => apply bool_decide_eq_false in H
  | H : includes _ _ = true |- _ => apply includes_spec in H
  | H : includes _ _ = false |- _ => apply includes_false in H
  end.

(** String facts shared by the matchers. *)
Lemma startsWith_spec s p : startsWith s p = true ↔ ∃ r, s = p +:+ r.
Proof.
  unfold startsWith. revert s. induction p as [|c p IH]; intros s; simpl.
  - split; [|by destruct s]. intros _. by exists s.
  - destruct s as [|d s]; simpl.
    + split; [done|]. intros [r Hr]. by inversion Hr.
    + destruct (Ascii.ascii_dec c d) as [->|Hne].
      * rewrite IH. split; intros [r Hr]; exists r; [by rewrite Hr|by inversion Hr].
      * split; [done|]. intros [r Hr]. inversion Hr. congruence.
Qed.

Lemma append_assoc (s1 s2 s3 : string) : (s1 +:+ s2) +:+ s3 = s1 +:+ (s2 +:+ s3).
Proof. induction s1; simpl; [done|]. unfold String.append; fold String.append. by f_equal. Qed.

Lemma append_nil_r (s : string) : s +:+ "" = s.
Proof. induction s; [done|]. unfold String.append; fold String.append. by f_equal. Qed.

Lemma startsWith_refl s : startsWith s s = true.
Proof. apply startsWith_spec. exists "". by rewrite append_nil_r. Qed.

Lemma append_length (s1 s2 : string) :
  String.length (s1 +:+ s2) = String.length s1 + String.length s2.
Proof. induction s1; [done|]. unfold String.append; fold String.append. simpl. by f_equal. Qed.

Lemma startsWith_trans s p q :
  startsWith s p = true → startsWith p q = true → startsWith s q = true.
Proof.
  rewrite !startsWith_spec. intros [r ->] [r' ->]. exists (r' +:+ r).
  apply append_assoc.
Qed.

(** Two prefixes of one string are comparable. *)
Lemma startsWith_comparable x l r :
  startsWith x l = true → startsWith x r = true →
  startsWith l r = true ∨ startsWith r l = true.
Proof.
  rewrite !startsWith_spec. revert l r.
  induction x as [|c x IH]; intros l r [l' Hl] [r' Hr].
  - destruct l; [|done]. right. by exists r.
  - destruct l as [|cl l]; [right; by exists r|]. destruct r as [|cr r]; [left; by exists (String cl l)|].
    injection Hl as <- Hl. injection Hr as <- Hr.
    destruct (IH l r) as [[z ->]|[z ->]]; [eauto|eauto|left|right]; by exists z.
Qed.

Lemma sdrop_append (p r : string) : sdrop (String.length p) (p +:+ r) = r.
Proof. induction p; [done|]. done. Qed.

Lemma sdrop_split n s : n <= String.length s → ∃ p, String.length p = n ∧ s = p +:+ sdrop n s.
Proof.
  revert s. induction n as [|n IH]; intros s Hn; [by exists ""|].
  destruct s as [|c s]; simpl in Hn; [lia|].
  destruct (IH s) as (p & Hp & Hs); [lia|]. exists (String c p). simpl. split; [by rewrite Hp|].
  change (String c s = String c (p +:+ sdrop n s)). by rewrite <- Hs.
Qed.

Lemma string_forallb_append p s1 s2 :
  string_forallb p (s1 +:+ s2) = string_forallb p s1 && string_forallb p s2.
Proof. induction s1 as [|c s1 IH]; [done|]. simpl. by rewrite IH, andb_assoc. Qed.

Lemma string_forallb_impl (f g : ascii → bool) s :
  (∀ c, f c = true → g c = true) → string_forallb f s = true → string_forallb g s = true.
Proof.
  intros Hfg. induction s as [|c s IH]; [done|]. simpl. rewrite !andb_true_iff. naive_solver.
Qed.

Lemma append_inj_length (p1 p2 r1 r2 : string) :
  String.length p1 = String.length p2 → p1 +:+ r1 = p2 +:+ r2 → p1 = p2 ∧ r1 = r2.
Proof.
  revert p2. induction p1 as [|c p1 IH]; intros [|c2 p2] Hl Heq; try done.
  injection Heq as <- Heq. injection Hl as Hl. destruct (IH _ Hl Heq) as [-> ->]. done.
Qed.

Lemma sdrop_length n s : String.length (sdrop n s) = String.length s - n.
Proof. revert s. induction n as [|n IH]; intros [|c s]; simpl; auto. Qed.

#[export] Hint Resolve startsWith_refl js_sort_Permutation : voice.
