(* ===== verification/Effects.v ===== *)
(** * Methods of an object that may throw

    A method that mutates its object and may throw is a function from the object
    to the object and a [result]; the object keeps what was written before the
    throw. The loops of the source are [for_each] and [collect]. *)

From S2P Require Import Prelude.

Definition method (S E A : Type) : Type := S → S * result E A.

#[global] Instance method_ret S E : MRet (method S E) := λ A a s, (s, Ok a).

#[global] Instance method_bind S E : MBind (method S E) := λ A B k m s,
  match m s with
  | (s', Ok a) => k a s'
  | (s', Throw e) => (s', Throw e)
  end.

Section Methods.
Context {S E : Type}.

Definition get : method S E S := λ s, (s, Ok s).
Definition gets {A} (f : S → A) : method S E A := λ s, (s, Ok (f s)).
Definition modify (f : S → S) : method S E unit := λ s, (f s, Ok tt).
Definition throw {A} (e : E) : method S E A := λ s, (s, Throw e).

(** A computation that may throw and reads nothing. *)
Definition lift {A} (r : result E A) : method S E A := λ s, (s, r).

(** [for (const x of l) { f(x) }] *)
Fixpoint for_each {A} (f : A → method S E unit) (l : list A) : method S E unit :=
  match l with
  | [] => mret tt
  | x :: rest => _ ← f x; for_each f rest
  end.

(** A loop that pushes at most one element per turn: [None] is [continue]. *)
Fixpoint collect {A B} (f : A → method S E (option B)) (l : list A) : method S E (list B) :=
  match l with
  | [] => mret []
  | x :: rest =>
      y ← f x;
      ys ← collect f rest;
      mret (match y with Some y => y :: ys | None => ys end)
  end.

(** ** What a method does when it returns

    [returns m Q]: from any object, if [m] returns [a] leaving [s'], then
    [Q s a s']. *)
Definition returns {A} (m : method S E A) (Q : S → A → S → Prop) : Prop :=
  ∀ s s' a, m s = (s', Ok a) → Q s a s'.

Lemma bind_Ok {A B} (m : method S E A) (k : A → method S E B) s s' b :
  (m ≫= k) s = (s', Ok b) ↔ ∃ s1 a, m s = (s1, Ok a) ∧ k a s1 = (s', Ok b).
Proof.
  unfold mbind, method_bind. destruct (m s) as [s1 [a|e]]; naive_solver.
Qed.

Lemma returns_weaken {A} (m : method S E A) (Q Q' : S → A → S → Prop) :
  returns m Q → (∀ s a s', Q s a s' → Q' s a s') → returns m Q'.
Proof. intros Hm HQ s s' a Hs. apply HQ, Hm, Hs. Qed.

(** ** Methods that always return *)
Definition succeeds {A} (m : method S E A) (s : S) : Prop := ∃ s' a, m s = (s', Ok a).

Lemma succeeds_bind {A B} (m : method S E A) (k : A → method S E B) s :
  succeeds m s → (∀ s' a, m s = (s', Ok a) → succeeds (k a) s') → succeeds (m ≫= k) s.
Proof.
  intros (s1 & a & Hm) Hk. destruct (Hk s1 a Hm) as (s2 & b & Hb). exists s2, b.
  apply bind_Ok. eauto.
Qed.

Lemma succeeds_ret {A} (a : A) s : succeeds (mret a) s.
Proof. by exists s, a. Qed.
End Methods.
