(* ===== verification/Machines.v ===== *)
(** * State machines as adjacency tables

    Every lifecycle of the telephony domain (channel, call, bridge, transfer,
    park, mid-call capture, agent) is written the same way in the source: a
    [VALID_..._TRANSITIONS] table, an [isValid...Transition] test and an
    [assert...Transition] guard that throws before the write. This file is the
    interface they share: the class [Machine], guard-then-execute runs, the laws
    the source's comments promise of every table and a checker that proves them. *)

From S2P Require Import Prelude.

(** The table of one machine: its states in canonical order, where it starts
    and the states one step away. *)
Class Machine (S : Type) `{EqDecision S} := {
  machine_states : list S;
  machine_initial : S;
  machine_next : S → list S }.

(** What every table promises: it covers the vocabulary, lists no state after
    itself and leaves no state unreachable. *)
Class MachineLaws (S : Type) `{Machine S} := {
  law_complete : ∀ s : S, s ∈ machine_states;
  law_no_self : ∀ s : S, s ∉ machine_next s;
  law_reachable : ∀ s : S, rtc (λ x y, y ∈ machine_next x) machine_initial s }.

Section Machine.
Context {S : Type} `{Machine S}.
Implicit Types (s t : S) (ts l : list S).

Definition step s t : Prop := t ∈ machine_next s.

#[global] Instance step_dec : RelDecision step.
Proof. intros s t. unfold step. apply _. Defined.

(** Guard-then-execute: move along [ts], stopping at the first edge the table
    does not have. *)
Fixpoint run s ts : result (S * S) S :=
  match ts with
  | [] => Ok s
  | t :: ts' => if includes (machine_next s) t then run t ts' else Throw (s, t)
  end.

(** The states reachable in at most [n] steps, as a list. *)
Definition expand l : list S := remove_dups (l ++ mjoin (machine_next <$> l)).

Fixpoint reach (n : nat) l : list S :=
  match n with
  | O => l
  | Datatypes.S n' => reach n' (expand l)
  end.

Definition check_machine : bool :=
  forallb (λ s, negb (includes (machine_next s) s)) machine_states &&
  forallb (λ s, includes (reach (length machine_states) [machine_initial]) s) machine_states.

(** A set of states is closed when no edge leaves it. *)
Definition closed_under (P : S → bool) : bool :=
  forallb (λ s, negb (P s) || forallb P (machine_next s)) machine_states.

(** The only states with an edge into [t] are those of [ps]. *)
Definition preds_within (t : S) (ps : list S) : bool :=
  forallb (λ s, negb (includes (machine_next s) t) || includes ps s) machine_states.

Lemma elem_of_expand s l : s ∈ expand l ↔ s ∈ l ∨ ∃ x, x ∈ l ∧ step x s.
Proof.
  unfold expand, step. rewrite elem_of_remove_dups, elem_of_app, list_elem_of_join.
  setoid_rewrite list_elem_of_fmap. naive_solver.
Qed.

Lemma reach_sound n l t : t ∈ reach n l → ∃ s, s ∈ l ∧ rtc step s t.
Proof.
  revert l. induction n as [|n IH]; simpl; intros l Ht.
  - exists t. split; [done|constructor].
  - destruct (IH _ Ht) as (s & Hs & Hr). apply elem_of_expand in Hs as [Hs|(x & Hx & Hst)].
    + by exists s.
    + exists x. split; [done|]. by eapply rtc_l.
Qed.

Lemma check_machine_sound :
  (∀ s, s ∈ machine_states) → check_machine = true → MachineLaws S.
Proof.
  intros Hall Hc. unfold check_machine in Hc.
  apply andb_true_iff in Hc as [Hself Hreach].
  rewrite forallb_forall in Hself, Hreach. setoid_rewrite <- list_elem_of_In in Hself.
  setoid_rewrite <- list_elem_of_In in Hreach.
  constructor.
  - done.
  - intros s. specialize (Hself s (Hall s)). by bool_simpl.
  - intros s. specialize (Hreach s (Hall s)). bool_simpl.
    apply reach_sound in Hreach as (x & Hx & Hr). apply list_elem_of_singleton in Hx as ->. done.
Qed.

Lemma run_app s ts1 ts2 u :
  run s (ts1 ++ ts2) = Ok u ↔ ∃ m, run s ts1 = Ok m ∧ run m ts2 = Ok u.
Proof.
  revert s. induction ts1 as [|t ts1 IH]; intros s; simpl; [naive_solver|].
  destruct (includes _ _); [apply IH|naive_solver].
Qed.

Lemma run_snoc s ts t u :
  run s (ts ++ [t]) = Ok u ↔ u = t ∧ ∃ m, run s ts = Ok m ∧ step m t.
Proof.
  rewrite run_app. simpl. unfold step. setoid_rewrite <- includes_spec.
  split.
  - intros (m & Hm & Hu). destruct (includes _ _) eqn:E; naive_solver.
  - intros (-> & m & Hm & E). exists m. by rewrite E.
Qed.

(** A run that succeeds is a path of the table, and ends where it says. *)
Lemma run_rtc s ts u : run s ts = Ok u → rtc step s u.
Proof.
  revert u. induction ts as [|t ts IH] using rev_ind; intros u Hr; simpl in *.
  - simplify_eq. constructor.
  - apply run_snoc in Hr as (-> & m & Hm & Hst). eapply rtc_r; eauto.
Qed.

Lemma run_last s ts u : run s ts = Ok u → u = default s (last ts).
Proof.
  destruct ts as [|t ts _] using rev_ind; simpl; intros Hr; [naive_solver|].
  apply run_snoc in Hr as [-> _]. by rewrite last_snoc.
Qed.

(** A refused edge is reported with both of its ends, and nothing after it runs. *)
Lemma run_throw s ts f t :
  run s ts = Throw (f, t) ↔
  ∃ ts1 ts2, ts = ts1 ++ t :: ts2 ∧ run s ts1 = Ok f ∧ ¬ step f t.
Proof.
  unfold step. setoid_rewrite <- (includes_false (machine_next f) t) .
  revert s. induction ts as [|x ts IH]; intros s; simpl.
  - split; [done|]. intros (ts1 & ts2 & Hts & _). by destruct ts1.
  - destruct (includes _ x) eqn:E.
    + rewrite IH. split.
      * intros (ts1 & ts2 & -> & Hr & Hn). exists (x :: ts1), ts2. simpl. by rewrite E.
      * intros ([|y ts1] & ts2 & Hts & Hr & Hn); simplify_eq/=; [congruence|].
        rewrite E in Hr. eauto.
    + split.
      * intros [= <- <-]. by exists [], ts.
      * intros ([|y ts1] & ts2 & Hts & Hr & Hn); simplify_eq/=; [done|]. by rewrite E in Hr.
Qed.

Context `{!MachineLaws S}.

Lemma closed_under_step P s t :
  closed_under P = true → P s = true → step s t → P t = true.
Proof.
  unfold closed_under. rewrite forallb_forall. setoid_rewrite <- list_elem_of_In.
  intros Hc Hs Ht. specialize (Hc s (law_complete s)). rewrite Hs in Hc. simpl in Hc.
  rewrite forallb_forall in Hc. apply Hc. by apply list_elem_of_In.
Qed.

Lemma closed_under_rtc P s t :
  closed_under P = true → P s = true → rtc step s t → P t = true.
Proof. intros Hc Hs Hr. induction Hr; eauto using closed_under_step. Qed.

Lemma preds_within_spec t ps s :
  preds_within t ps = true → step s t → s ∈ ps.
Proof.
  unfold preds_within. rewrite forallb_forall. setoid_rewrite <- list_elem_of_In.
  intros Hp Hst. specialize (Hp s (law_complete s)). unfold step in Hst.
  apply includes_spec in Hst. rewrite Hst in Hp. simpl in Hp. by apply includes_spec.
Qed.

(** A non-empty run into [t] has one of [t]'s predecessors just before it. *)
Lemma run_pred s ts t ps :
  preds_within t ps = true → run s ts = Ok t → s ≠ t →
  ∃ ts' p, ts = ts' ++ [t] ∧ run s ts' = Ok p ∧ p ∈ ps.
Proof.
  intros Hp Hr Hne. destruct ts as [|x ts _] using rev_ind; simpl in Hr; [congruence|].
  apply run_snoc in Hr as (-> & m & Hm & Hst). exists ts, m.
  split_and!; auto. by eapply preds_within_spec.
Qed.
End Machine.

(** Proves the laws of a concrete table by evaluating the checker. *)
Ltac solve_machine :=
  apply check_machine_sound; [intros []; compute_done | vm_compute; reflexivity].
