(* ===== verification/Kv.v ===== *)
(** * The shared key-value bucket

    The engine's instances share state through JetStream key-value buckets. The
    server is not part of the repository: its bucket is the class [KvBucket],
    with the documented behaviour of [get], [create], [update] and [delete] at a
    revision as the laws [KvLaws]; [MapBucket] is a bucket that satisfies them.
    The keys are those of [kvKeyFor] in [packages/events/src/streams.ts], and a
    [Fault] is what the network may do to one request. *)

From S2P Require Import Prelude.

(** ** Keys *)
Definition token_char (c : ascii) : bool :=
  let n := Ascii.nat_of_ascii c in
  ((65 <=? n) && (n <=? 90)) || ((97 <=? n) && (n <=? 122)) || is_digit c ||
  (n =? 95) || (n =? 45).

(** [TOKEN_PATTERN.test(value)] *)
Definition isSubjectToken (value : string) : bool :=
  negb (bool_decide (value = "")) && string_forallb token_char value.

(** Throws [SubjectTokenError(role, value)]. *)
Definition assertKeyToken (role value : string) : result (string * string) string :=
  if negb (isSubjectToken value) then Throw (role, value) else Ok value.

Section Keys.
Local Open Scope js_scope.

Definition kvKeyFor_agentState (orgId agentId : string) : result (string * string) string :=
  let! o := assertKeyToken "orgId" orgId in
  let! a := assertKeyToken "agentId" agentId in
  Ok (o +:+ "." +:+ a).
End Keys.

Lemma assertKeyToken_Ok role v k : assertKeyToken role v = Ok k → k = v ∧ isSubjectToken v = true.
Proof. unfold assertKeyToken. destruct (isSubjectToken v); naive_solver. Qed.

Lemma token_no_dot v : isSubjectToken v = true → string_forallb token_char v = true.
Proof. unfold isSubjectToken. intros H. by bool_simpl. Qed.

Definition dot_char : ascii := Ascii.ascii_of_nat 46.

(** Dotted keys split in one way: a token holds no dot. *)
Lemma dotted_inj p1 p2 r1 r2 :
  string_forallb token_char p1 = true → string_forallb token_char p2 = true →
  p1 +:+ String dot_char r1 = p2 +:+ String dot_char r2 → p1 = p2 ∧ r1 = r2.
Proof.
  revert p2. induction p1 as [|c p1 IH]; intros [|c2 p2] H1 H2 Heq;
    unfold String.append in Heq; fold String.append in Heq; simpl in H1, H2.
  - by injection Heq as Heq.
  - injection Heq as Hc _. by subst c2.
  - injection Heq as Hc _. by subst c.
  - injection Heq as Hc Heq. subst c2. bool_simpl. destruct (IH p2); auto; by subst.
Qed.

(** ** The bucket *)

(** What a key may hold: a value its schema accepts, or bytes it does not. *)
Inductive Stored (T : Type) := Parsed (v : T) | Unparsable.
Arguments Parsed {T} _.
Arguments Unparsable {T}.

Class KvBucket (B T : Type) := {
  kv_get : B → string → option (Stored T * Z);
  kv_seq : B → Z;
  kv_create : B → string → T → option B;
  kv_put : B → string → T → B;
  kv_update : B → string → T → Z → option B;
  kv_delete : B → string → Z → option B }.

(** [create] takes a key nobody holds, [update] and [delete] a key still at the
    revision quoted, [put] always writes; each write gets a sequence number never used before, and no
    write touches another key. *)
Class KvLaws (B T : Type) `{KvBucket B T} := {
  kv_get_seq : ∀ b k v r, kv_get b k = Some (v, r) → (r <= kv_seq b)%Z;
  kv_create_free : ∀ b k v, is_Some (kv_create b k v) ↔ kv_get b k = None;
  kv_create_writes : ∀ b k v b', kv_create b k v = Some b' →
    (kv_seq b < kv_seq b')%Z ∧ kv_get b' k = Some (Parsed v, kv_seq b') ∧
    ∀ k', k' ≠ k → kv_get b' k' = kv_get b k';
  kv_put_writes : ∀ b k v,
    (kv_seq b < kv_seq (kv_put b k v))%Z ∧
    kv_get (kv_put b k v) k = Some (Parsed v, kv_seq (kv_put b k v)) ∧
    ∀ k', k' ≠ k → kv_get (kv_put b k v) k' = kv_get b k';
  kv_update_at : ∀ b k v r, is_Some (kv_update b k v r) ↔ ∃ w, kv_get b k = Some (w, r);
  kv_update_writes : ∀ b k v r b', kv_update b k v r = Some b' →
    (kv_seq b < kv_seq b')%Z ∧ kv_get b' k = Some (Parsed v, kv_seq b') ∧
    ∀ k', k' ≠ k → kv_get b' k' = kv_get b k';
  kv_delete_at : ∀ b k r, is_Some (kv_delete b k r) ↔ ∃ w, kv_get b k = Some (w, r);
  kv_delete_writes : ∀ b k r b', kv_delete b k r = Some b' →
    (kv_seq b < kv_seq b')%Z ∧ kv_get b' k = None ∧
    ∀ k', k' ≠ k → kv_get b' k' = kv_get b k' }.

(** ** Requests over a network *)
Inductive Fault := NoFault | Unreachable | AckLost.

Inductive WriteResult := Written | Conflict | Failed.

(** A write through the network: it may not arrive, or its answer may be lost
    after it took effect. *)
Definition kv_write {B} (f : Fault) (b : B) (op : option B) : B * WriteResult :=
  match f, op with
  | NoFault, Some b' => (b', Written)
  | NoFault, None => (b, Conflict)
  | Unreachable, _ => (b, Failed)
  | AckLost, Some b' => (b', Failed)
  | AckLost, None => (b, Failed)
  end.

Lemma kv_write_spec {B} f (b b' : B) op w :
  kv_write f b op = (b', w) → b' = b ∨ op = Some b'.
Proof. destruct f, op; simpl; naive_solver. Qed.

Lemma kv_write_Written {B} f (b b' : B) op : kv_write f b op = (b', Written) → op = Some b'.
Proof. destruct f, op; simpl; naive_solver. Qed.

(** ** A bucket in memory *)
Module MapBucket.
Section MapBucket.
Context {T : Type}.

Record MapBucket := { contents : gmap string (Stored T * Z); sequence : Z }.

Definition wf (b : MapBucket) : Prop := map_Forall (λ _ x, (x.2 <= sequence b)%Z) (contents b).

#[global] Instance wf_dec b : Decision (wf b).
Proof. unfold wf. apply _. Defined.

Definition bucket : Type := { b : MapBucket | bool_decide (wf b) }.

Definition put_raw (b : MapBucket) (k : string) (v : Stored T) : MapBucket :=
  {| contents := <[k := (v, sequence b + 1)%Z]> (contents b); sequence := sequence b + 1 |}.

Definition del_raw (b : MapBucket) (k : string) : MapBucket :=
  {| contents := delete k (contents b); sequence := sequence b + 1 |}.

Lemma put_raw_wf b k v : wf b → wf (put_raw b k v).
Proof.
  intros Hw. unfold wf, put_raw; simpl. apply map_Forall_insert_2; [simpl; lia|].
  eapply map_Forall_impl; [exact Hw|]. intros ? [? ?]; simpl; lia.
Qed.

Lemma del_raw_wf b k : wf b → wf (del_raw b k).
Proof.
  intros Hw. unfold wf, del_raw; simpl. apply map_Forall_delete.
  eapply map_Forall_impl; [exact Hw|]. intros ? [? ?]; simpl; lia.
Qed.

Definition get_in (b : bucket) (k : string) : option (Stored T * Z) := contents (proj1_sig b) !! k.

Definition put_in (b : bucket) (k : string) (v : Stored T) : bucket :=
  put_raw (proj1_sig b) k v ↾ bool_decide_pack _ (put_raw_wf _ k v (bool_decide_unpack _ (proj2_sig b))).

Definition del_in (b : bucket) (k : string) : bucket :=
  del_raw (proj1_sig b) k ↾ bool_decide_pack _ (del_raw_wf _ k (bool_decide_unpack _ (proj2_sig b))).

Definition at_revision (b : bucket) (k : string) (r : Z) : bool :=
  match get_in b k with Some (_, r') => bool_decide (r = r') | None => false end.

#[global] Instance map_kv : KvBucket bucket T := {
  kv_get := get_in;
  kv_seq b := sequence (proj1_sig b);
  kv_create b k v :=
    match get_in b k with None => Some (put_in b k (Parsed v)) | Some _ => None end;
  kv_put b k v := put_in b k (Parsed v);
  kv_update b k v r := if at_revision b k r then Some (put_in b k (Parsed v)) else None;
  kv_delete b k r := if at_revision b k r then Some (del_in b k) else None }.

Lemma at_revision_spec b k r : at_revision b k r = true ↔ ∃ w, get_in b k = Some (w, r).
Proof.
  unfold at_revision. destruct (get_in b k) as [[w r']|]; [|naive_solver].
  rewrite bool_decide_eq_true. naive_solver.
Qed.

Lemma put_in_writes b k v :
  (sequence (proj1_sig b) < sequence (proj1_sig (put_in b k v)))%Z ∧
  get_in (put_in b k v) k = Some (v, sequence (proj1_sig (put_in b k v))) ∧
  ∀ k', k' ≠ k → get_in (put_in b k v) k' = get_in b k'.
Proof.
  unfold get_in, put_in, put_raw; simpl. split_and!; [lia|by rewrite lookup_insert_eq|].
  intros k' Hk. by rewrite lookup_insert_ne.
Qed.

Lemma del_in_writes b k :
  (sequence (proj1_sig b) < sequence (proj1_sig (del_in b k)))%Z ∧
  get_in (del_in b k) k = None ∧ ∀ k', k' ≠ k → get_in (del_in b k) k' = get_in b k'.
Proof.
  unfold get_in, del_in, del_raw; simpl. split_and!; [lia|by rewrite lookup_delete_eq|].
  intros k' Hk. by rewrite lookup_delete_ne.
Qed.

#[global] Instance map_kv_laws : KvLaws bucket T.
Proof.
  split; simpl.
  - intros b k v r Hg. exact (bool_decide_unpack _ (proj2_sig b) k _ Hg).
  - intros b k v. destruct (get_in b k); split; eauto; try done; by intros [].
  - intros b k v b'. destruct (get_in b k); [done|]. intros [= <-]. apply put_in_writes.
  - intros b k v. apply put_in_writes.
  - intros b k v r. rewrite <- at_revision_spec. destruct (at_revision b k r); split; eauto; try done;
      by intros [].
  - intros b k v r b'. destruct (at_revision b k r); [|done]. intros [= <-]. apply put_in_writes.
  - intros b k r. rewrite <- at_revision_spec. destruct (at_revision b k r); split; eauto; try done;
      by intros [].
  - intros b k r b'. destruct (at_revision b k r); [|done]. intros [= <-]. apply del_in_writes.
Qed.

Definition empty_bucket : bucket :=
  {| contents := ∅; sequence := 0 |} ↾ bool_decide_pack _ (map_Forall_empty _).
End MapBucket.
Arguments bucket : clear implicits.
End MapBucket.
