(* ===== verification/Async.v ===== *)
(** * Methods that wait

    An [async] method alternates stretches of synchronous code, which read the clock
    and change the object, with requests to a server. Between a request being served
    and the method going on, anything else may run: other methods of the same object,
    other instances, a crash. [prog] is such a method, [step] interleaves any number
    of them, and [ok] is a program logic for one method in the presence of all the
    others: what it knows is about a world that only grows, and what it guarantees is
    a condition on every request it makes. [run_inv] is its soundness. *)

From S2P Require Import Prelude.

(** ** Programs *)
Section Prog.
Context {S Q A : Type}.

Inductive prog (R : Type) : Type :=
| Done (r : R)
| Local (f : Z → S → S * prog R)
| Ask (q : Q) (k : A → prog R).
Arguments Done {R} _.
Arguments Local {R} _.
Arguments Ask {R} _ _.

Fixpoint prog_bind {R R'} (g : R → prog R') (p : prog R) : prog R' :=
  match p with
  | Done r => g r
  | Local f => Local (λ now s, let '(s', p') := f now s in (s', prog_bind g p'))
  | Ask q k => Ask q (λ a, prog_bind g (k a))
  end.

#[global] Instance prog_mret : MRet prog := λ R r, Done r.
#[global] Instance prog_mbind : MBind prog := λ R R' g p, prog_bind g p.

(** [await] of a request, a look at the object, a change to it, [Date.now()] *)
Definition ask (q : Q) : prog A := Ask q (λ a, Done a).
Definition look {X} (f : S → X) : prog X := Local (λ _ s, (s, Done (f s))).
Definition change (f : S → S) : prog unit := Local (λ _ s, (f s, Done tt)).
Definition act {X} (f : S → S * X) : prog X := Local (λ _ s, let '(s', x) := f s in (s', Done x)).
Definition clock : prog Z := Local (λ now s, (s, Done now)).

(** [for (const x of l) { acc = await step(acc, x) }] *)
Fixpoint each {X R} (f : R → X → prog R) (acc : R) (l : list X) : prog R :=
  match l with
  | [] => mret acc
  | x :: l => r ← f acc x; each f r l
  end.

(** The code up to the next request. *)
Fixpoint advance {R} (now : Z) (p : prog R) (s : S) : S * (R + Q * (A → prog R)) :=
  match p with
  | Done r => (s, inl r)
  | Local f => let '(s', p') := f now s in advance now p' s'
  | Ask q k => (s, inr (q, k))
  end.

(** The whole method with nothing else running, its requests answered by [serve]. *)
Fixpoint exec {B R} (serve : B → Q → B * A) (now : Z) (p : prog R) (b : B) (s : S) : B * S * R :=
  match p with
  | Done r => (b, s, r)
  | Local f => let '(s', p') := f now s in exec serve now p' b s'
  | Ask q k => let '(b', a) := serve b q in exec serve now (k a) b' s
  end.

Lemma exec_bind {B R R'} (serve : B → Q → B * A) now (p : prog R) (g : R → prog R') b s :
  exec serve now (p ≫= g) b s = let '(b', s', r) := exec serve now p b s in exec serve now (g r) b' s'.
Proof.
  unfold mbind, prog_mbind. revert p b s. fix IH 1. intros [r|f|q k] b s; simpl.
  - done.
  - destruct (f now s) as [s' p']. apply IH.
  - destruct (serve b q) as [b' a]. apply IH.
Qed.

Section Exec.
Context {B X R : Type} (serve : B → Q → B * A) (now : Z) (b : B) (s : S).

Lemma exec_ret (r : R) : exec serve now (mret r) b s = (b, s, r).
Proof. done. Qed.

Lemma exec_look (f : S → X) (g : X → prog R) :
  exec serve now (look f ≫= g) b s = exec serve now (g (f s)) b s.
Proof. done. Qed.

Lemma exec_clock (g : Z → prog R) : exec serve now (clock ≫= g) b s = exec serve now (g now) b s.
Proof. done. Qed.

Lemma exec_change (f : S → S) (g : unit → prog R) :
  exec serve now (change f ≫= g) b s = exec serve now (g tt) b (f s).
Proof. done. Qed.

Lemma exec_act (f : S → S * X) (g : X → prog R) :
  exec serve now (act f ≫= g) b s = exec serve now (g (f s).2) b (f s).1.
Proof. rewrite exec_bind. simpl. by destruct (f s). Qed.
End Exec.
End Prog.

(** Synchronous steps of an undisturbed run. *)
Ltac exec_steps :=
  repeat first [rewrite exec_look | rewrite exec_clock | rewrite exec_change | rewrite exec_act
               | rewrite exec_ret].

Arguments prog : clear implicits.
Arguments Done {S Q A R} _.
Arguments Local {S Q A R} _.
Arguments Ask {S Q A R} _ _.

(** The principle for [prog], which recurs below the answer of a local step. *)
Lemma prog_ind' {S Q A R} (P : prog S Q A R → Prop) :
  (∀ r, P (Done r)) →
  (∀ f, (∀ now s, P (f now s).2) → P (Local f)) →
  (∀ q k, (∀ a, P (k a)) → P (Ask q k)) → ∀ p, P p.
Proof.
  intros HD HL HA. fix IH 1. intros [r|f|q k].
  - apply HD.
  - apply HL. intros now s. destruct (f now s) as [s' p]. apply IH.
  - apply HA. intros a. apply IH.
Qed.

(** ** Interleaving *)
Section System.
Context {B S Q A F Op R : Type}.
Context (serve : B → Q → F → B * A).
Context (body : Op → prog S Q A R).
Context (fresh : string → S).

(** A task waits for its request to be served, or for its turn to go on; the request
    of a crashed instance may still be served. *)
Inductive status : Type :=
| Waiting (q : Q) (k : A → prog S Q A R)
| Answered (a : A) (k : A → prog S Q A R)
| Orphaned (q : Q).

Record system := {
  server : B;
  states : gmap string S;
  tasks : gmap nat (string * Op * status);
  replies : list (string * Op * R);
  (* the times each instance's clock has shown *)
  shown : list (string * Z) }.

Inductive label : Type :=
| Start (t : nat) (i : string) (now : Z) (op : Op)
| Serve (t : nat) (f : F)
| Resume (t : nat) (now : Z)
| Crash (i : string).

(** The instance [i] runs [p], the rest of the task [t], up to the next request. *)
Definition run_segment (sys : system) (t : nat) (i : string) (op : Op) (now : Z) (p : prog S Q A R) : system :=
  let '(s, out) := advance now p (default (fresh i) (states sys !! i)) in
  match out with
  | inl r => {| server := server sys; states := <[i := s]> (states sys);
                tasks := delete t (tasks sys); replies := replies sys ++ [(i, op, r)];
                shown := shown sys ++ [(i, now)] |}
  | inr (q, k) => {| server := server sys; states := <[i := s]> (states sys);
                     tasks := <[t := (i, op, Waiting q k)]> (tasks sys); replies := replies sys;
                     shown := shown sys ++ [(i, now)] |}
  end.

Definition orphan (i : string) (task : string * Op * status) : option (string * Op * status) :=
  if bool_decide (task.1.1 = i)
  then match task.2 with
       | Waiting q _ | Orphaned q => Some (task.1, Orphaned q)
       | Answered _ _ => None
       end
  else Some task.

Definition step (sys : system) (l : label) : option system :=
  match l with
  | Start t i now op =>
      match tasks sys !! t with
      | Some _ => None
      | None => Some (run_segment sys t i op now (body op))
      end
  | Serve t f =>
      match tasks sys !! t with
      | Some (i, op, Waiting q k) =>
          let '(b, a) := serve (server sys) q f in
          Some {| server := b; states := states sys;
                  tasks := <[t := (i, op, Answered a k)]> (tasks sys); replies := replies sys;
                  shown := shown sys |}
      | Some (_, Orphaned q) =>
          let '(b, a) := serve (server sys) q f in
          Some {| server := b; states := states sys; tasks := delete t (tasks sys);
                  replies := replies sys; shown := shown sys |}
      | _ => None
      end
  | Resume t now =>
      match tasks sys !! t with
      | Some (i, op, Answered a k) => Some (run_segment sys t i op now (k a))
      | _ => None
      end
  | Crash i =>
      Some {| server := server sys; states := delete i (states sys);
              tasks := omap (orphan i) (tasks sys); replies := replies sys; shown := shown sys |}
  end.

Fixpoint run (sys : system) (ls : list label) : option system :=
  match ls with
  | [] => Some sys
  | l :: ls => match step sys l with Some sys' => run sys' ls | None => None end
  end.

Definition boot (b : B) : system :=
  {| server := b; states := ∅; tasks := ∅; replies := []; shown := [] |}.

(** ** The logic *)
Section Logic.
(** What is known of the past, and only grows; what holds of a state, of the server,
    of a request an instance may make, and of the answer to a request. *)
Context {W : Type} (le : W → W → Prop) `{!PreOrder le}.
Context (seen : W → string → Z → Prop).
Context (inv : W → string → S → Prop) (srv : W → B → Prop).
Context (may : W → string → Q → Prop) (fits : W → Q → A → Prop).

Fixpoint ok {X} (i : string) (w : W) (p : prog S Q A X) (post : W → X → Prop) : Prop :=
  match p with
  | Done r => post w r
  | Local f => ∀ w' now s, le w w' → seen w' i now → inv w' i s →
      inv w' i (f now s).1 ∧ ok i w' (f now s).2 post
  | Ask q k => may w i q ∧ ∀ w' a, le w w' → fits w' q a → ok i w' (k a) post
  end.

Context (inv_mono : ∀ w w' i s, le w w' → inv w i s → inv w' i s).
Context (may_mono : ∀ w w' i q, le w w' → may w i q → may w' i q).
Context (seen_mono : ∀ w w' i now, le w w' → seen w i now → seen w' i now).

Lemma ok_mono {X} i w w' (p : prog S Q A X) post :
  (∀ v v' r, le v v' → post v r → post v' r) → le w w' → ok i w p post → ok i w' p post.
Proof.
  intros Hpost Hle. destruct p; simpl.
  - by apply Hpost.
  - intros H v now s Hv. apply H. by etrans.
  - intros [Hm H]. split; [by eapply may_mono|]. intros v a Hv. apply H. by etrans.
Qed.

Lemma ok_weaken {X} i w (p : prog S Q A X) (post post' : W → X → Prop) :
  ok i w p post → (∀ w' r, le w w' → post w' r → post' w' r) → ok i w p post'.
Proof.
  revert w. induction p as [r|f IH|q k IH] using prog_ind'; intros w; simpl.
  - intros H Hp. by apply Hp.
  - intros H Hp w' now s Hle Hseen Hinv. destruct (H w' now s Hle Hseen Hinv) as [H1 H2].
    split; [done|]. eapply IH; [exact H2|]. intros v r Hv. apply Hp. by etrans.
  - intros [Hm H] Hp. split; [done|]. intros w' a Hle Ha. eapply IH; [by apply H|].
    intros v r Hv. apply Hp. by etrans.
Qed.

Lemma ok_bind {X Y} i w (p : prog S Q A X) (g : X → prog S Q A Y) post :
  ok i w p (λ w' r, ok i w' (g r) post) → ok i w (p ≫= g) post.
Proof.
  unfold mbind, prog_mbind. revert w.
  induction p as [r|f IH|q k IH] using prog_ind'; intros w; simpl; [done| |].
  - intros H w' now s Hle Hseen Hinv. destruct (H w' now s Hle Hseen Hinv) as [H1 H2].
    specialize (IH now s w' H2). by destruct (f now s).
  - intros [Hm H]. split; [done|]. intros w' a Hle Ha. by apply IH, H.
Qed.

Lemma ok_each {X Y} i w (f : Y → X → prog S Q A Y) acc l (I : W → Y → Prop) post :
  I w acc →
  (∀ w' acc' x, le w w' → x ∈ l → I w' acc' → ok i w' (f acc' x) I) →
  (∀ w' acc', le w w' → I w' acc' → post w' acc') →
  ok i w (each f acc l) post.
Proof.
  revert w acc. induction l as [|x l IH]; intros w acc HI Hf Hp; simpl; [by apply Hp|].
  apply ok_bind. eapply ok_weaken; [by apply Hf; [|apply list_elem_of_here|]|].
  intros w' acc' Hle HI'. apply IH; [done| |].
  - intros v a y Hv Hy. apply Hf; [by etrans|by apply list_elem_of_further].
  - intros v a Hv. apply Hp. by etrans.
Qed.

Lemma ok_look {X Y} i w (f : S → X) (g : X → prog S Q A Y) post :
  (∀ w' s, le w w' → inv w' i s → ok i w' (g (f s)) post) → ok i w (look f ≫= g) post.
Proof. intros H w' now s Hle _ Hinv. split; [done|]. by apply H. Qed.

Lemma ok_act {X Y} i w (f : S → S * X) (g : X → prog S Q A Y) post :
  (∀ w' s, le w w' → inv w' i s → inv w' i (f s).1 ∧ ok i w' (g (f s).2) post) →
  ok i w (act f ≫= g) post.
Proof. intros H w' now s Hle _ Hinv. destruct (H w' s Hle Hinv). by destruct (f s). Qed.

Lemma ok_change {Y} i w (f : S → S) (g : unit → prog S Q A Y) post :
  (∀ w' s, le w w' → inv w' i s → inv w' i (f s)) →
  (∀ w', le w w' → ok i w' (g tt) post) → ok i w (change f ≫= g) post.
Proof. intros H1 H2 w' now s Hle _ Hinv. split; [by apply H1|by apply H2]. Qed.

Lemma ok_clock {Y} i w (g : Z → prog S Q A Y) post :
  (∀ w' now, le w w' → seen w' i now → ok i w' (g now) post) → ok i w (clock ≫= g) post.
Proof. intros H w' now s Hle Hs Hinv. split; [done|]. by apply H. Qed.

(** A stretch of synchronous code keeps the invariant and ends in its postcondition, or
    in a request it may make. *)
Lemma ok_advance {X} i w now (p : prog S Q A X) s s' out post :
  ok i w p post → seen w i now → inv w i s → advance now p s = (s', out) →
  inv w i s' ∧ match out with inl r => post w r | inr (q, k) => ok i w (Ask q k) post end.
Proof.
  revert s. induction p as [r|f IH|q k IH] using prog_ind'; intros s Hok Hseen Hinv; simpl.
  - by intros [= <- <-].
  - destruct (Hok w now s (reflexivity w) Hseen Hinv) as [H1 H2]. specialize (IH now s (f now s).1).
    destruct (f now s) as [s1 p1]. by apply IH.
  - by intros [= <- <-].
Qed.

(** *** Soundness *)
Context (post : string → Op → W → R → Prop).
Context (post_mono : ∀ i op w w' r, le w w' → post i op w r → post i op w' r).
Context (serve_ok : ∀ w b i q f b' a, srv w b → may w i q → serve b q f = (b', a) →
  ∃ w', le w w' ∧ srv w' b' ∧ fits w' q a ∧ ∀ j now, seen w' j now → seen w j now).
Context (tick : ∀ w b i now, srv w b → ∃ w', le w w' ∧ srv w' b ∧ seen w' i now ∧
  ∀ j t, seen w' j t → seen w j t ∨ (j = i ∧ t = now)).
Context (fresh_inv : ∀ w i, inv w i (fresh i)).
Context (body_ok : ∀ w i op, ok i w (body op) (post i op)).

Definition status_ok (w : W) (i : string) (op : Op) (st : status) : Prop :=
  match st with
  | Waiting q k => ok i w (Ask q k) (post i op)
  | Answered a k => ok i w (k a) (post i op)
  | Orphaned q => may w i q
  end.

Record valid (w : W) (sys : system) : Prop := {
  valid_server : srv w (server sys);
  valid_states : map_Forall (λ i s, inv w i s) (states sys);
  valid_tasks : map_Forall (λ _ task, status_ok w task.1.1 task.1.2 task.2) (tasks sys);
  valid_replies : Forall (λ x, post x.1.1 x.1.2 w x.2) (replies sys);
  valid_seen : ∀ i now, seen w i now → (i, now) ∈ shown sys }.

Lemma status_ok_mono w w' i op st : le w w' → status_ok w i op st → status_ok w' i op st.
Proof.
  intros Hle. destruct st; simpl.
  - intros [Hm H]. split; [by eapply may_mono|]. intros v a Hv. apply H. by etrans.
  - apply ok_mono; [|done]. intros v v' r Hv. by apply post_mono.
  - by apply may_mono.
Qed.

Lemma states_mono w w' (m : gmap string S) :
  le w w' → map_Forall (λ i s, inv w i s) m → map_Forall (λ i s, inv w' i s) m.
Proof. intros Hle H i s Hi. eapply inv_mono; [done|]. by apply H. Qed.

Lemma tasks_mono w w' (m : gmap nat (string * Op * status)) :
  le w w' → map_Forall (λ _ task, status_ok w task.1.1 task.1.2 task.2) m →
  map_Forall (λ _ task, status_ok w' task.1.1 task.1.2 task.2) m.
Proof. intros Hle H t task Ht. eapply status_ok_mono; [done|]. by eapply H. Qed.

Lemma replies_mono w w' (l : list (string * Op * R)) :
  le w w' → Forall (λ x, post x.1.1 x.1.2 w x.2) l → Forall (λ x, post x.1.1 x.1.2 w' x.2) l.
Proof. intros Hle H. eapply Forall_impl; [exact H|]. intros x. by apply post_mono. Qed.

Lemma run_segment_valid w sys t i op now p :
  valid w sys → ok i w p (post i op) → ∃ w', le w w' ∧ valid w' (run_segment sys t i op now p).
Proof.
  intros [Hsrv Hst Hta Hre Hse] Hok.
  destruct (tick w (server sys) i now Hsrv) as (w' & Hle & Hsrv' & Hnow & Hseen).
  exists w'. split; [done|]. unfold run_segment.
  assert (Hinv : inv w' i (default (fresh i) (states sys !! i))).
  { destruct (states sys !! i) as [s|] eqn:Hi; [|apply fresh_inv]. eapply inv_mono; [done|]. by apply Hst. }
  destruct (advance now p _) as [s out] eqn:Hadv.
  eapply ok_advance in Hadv as [Hs Hout]; [|by eapply ok_mono; [intros ???; apply (post_mono i op)|exact Hle|exact Hok]|done|done].
  assert (Hshown : ∀ j u, seen w' j u → (j, u) ∈ shown sys ++ [(i, now)]).
  { intros j u [Hj| [-> ->]]%Hseen; apply elem_of_app; [left; by apply Hse|right; by apply list_elem_of_singleton]. }
  assert (Hstates : map_Forall (λ i s, inv w' i s) (<[i:=s]> (states sys))).
  { apply map_Forall_insert_2; [done|]. by eapply states_mono. }
  destruct out as [r|[q k]]; split; try done; simpl.
  - apply map_Forall_delete. by eapply tasks_mono.
  - apply Forall_app. split; [by eapply replies_mono|by apply Forall_singleton].
  - apply map_Forall_insert_2; [done|]. by eapply tasks_mono.
  - by eapply replies_mono.
Qed.

Lemma serve_valid w sys i q f b a st' :
  valid w sys → may w i q → serve (server sys) q f = (b, a) →
  (∀ w', le w w' → fits w' q a →
     map_Forall (λ _ task, status_ok w' task.1.1 task.1.2 task.2) (tasks sys) →
     map_Forall (λ _ task, status_ok w' task.1.1 task.1.2 task.2) st') →
  ∃ w', le w w' ∧ valid w' {| server := b; states := states sys; tasks := st'; replies := replies sys; shown := shown sys |}.
Proof.
  intros [Hsrv Hst Hta Hre Hse] Hmay Hs Htasks.
  destruct (serve_ok w (server sys) i q f b a Hsrv Hmay Hs) as (w' & Hle & Hsrv' & Hfit & Hseen).
  exists w'. split; [done|]. split; simpl; [done|by eapply states_mono| |by eapply replies_mono|].
  - apply Htasks; [done..|]. by eapply tasks_mono.
  - intros j u Hj. by apply Hse, Hseen.
Qed.

Lemma step_valid w sys l sys' :
  valid w sys → step sys l = Some sys' → ∃ w', le w w' ∧ valid w' sys'.
Proof.
  intros Hv Hstep. destruct l as [t i now op|t f|t now|i]; simpl in Hstep.
  - destruct (tasks sys !! t); [done|]. injection Hstep as <-. by apply run_segment_valid.
  - destruct (tasks sys !! t) as [[[i op] [q k|a k|q]]|] eqn:Ht; try done;
      destruct (serve (server sys) q f) as [b a] eqn:Hs; injection Hstep as <-;
      pose proof (valid_tasks _ _ Hv t _ Ht) as Hok; simpl in Hok.
    + destruct Hok as [Hmay Hk]. eapply serve_valid; [done..|]. intros w' Hle Hfit Hta.
      apply map_Forall_insert_2; [by apply Hk|done].
    + eapply serve_valid; [done..|]. intros w' _ _ Hta. by apply map_Forall_delete.
  - destruct (tasks sys !! t) as [[[i op] [q k|a k|q]]|] eqn:Ht; try done. injection Hstep as <-.
    apply run_segment_valid; [done|]. exact (valid_tasks _ _ Hv t _ Ht).
  - injection Hstep as <-. exists w. split; [done|]. destruct Hv as [Hsrv Hst Hta Hre Hse].
    split; simpl; [done|by apply map_Forall_delete| |done|done].
    intros t [[j op] st]. rewrite lookup_omap. intros (task & Ht & Ho)%bind_Some.
    specialize (Hta t task Ht). unfold orphan in Ho. case_bool_decide as Hi; [|by injection Ho as <-].
    subst i. destruct task as [[i o] [q k|a k|q]]; simpl in *; try done; injection Ho as <- <- <-; [apply Hta|done].
Qed.

(** Whatever the schedule, what holds at the start is kept. *)
Lemma run_inv w sys ls sys' :
  valid w sys → run sys ls = Some sys' → ∃ w', le w w' ∧ valid w' sys'.
Proof.
  revert w sys. induction ls as [|l ls IH]; intros w sys Hv Hr; simpl in Hr.
  - injection Hr as <-. by exists w.
  - destruct (step sys l) as [sys1|] eqn:Hs; [|done].
    destruct (step_valid _ _ _ _ Hv Hs) as (w1 & Hle1 & Hv1).
    destruct (IH w1 sys1 Hv1 Hr) as (w2 & Hle2 & Hv2). exists w2. split; [by etrans|done].
Qed.

Lemma boot_valid w b : srv w b → (∀ i now, ¬ seen w i now) → valid w (boot b).
Proof.
  intros Hb Hs. split; simpl; [done|apply map_Forall_empty|apply map_Forall_empty|constructor|].
  intros i now H. by apply Hs in H.
Qed.
End Logic.
End System.
