(* ===== verification/Claims.v ===== *)
(** * Claims over a shared bucket

    [apps/engine/src/nats/claim-store.ts]: the compare-and-set claims an engine
    instance takes in a key-value bucket, as programs of [Async.v]; the contracts of
    [packages/events/src/schemas/claims.ts] and the lease of
    [routing/claim-timing.ts]. [serve] is the bucket behind a network that may lose
    the request or the answer. [Log] is the knowledge all users of one bucket share:
    what was ever written, at which revision, and which times the clocks have shown. *)

From stdpp Require Import pretty.
From S2P Require Import Prelude Kv Async.

(** ** Keys *)
Section Keys.
Local Open Scope js_scope.

Definition kvKeyFor_parkClaim (orgId parkLotId : string) (slot : Z) : result (string * string) string :=
  let! o := assertKeyToken "orgId" orgId in
  let! l := assertKeyToken "parkLotId" parkLotId in
  let! s := assertKeyToken "slot" (pretty slot) in
  Ok (o +:+ "." +:+ l +:+ "." +:+ s).

Definition kvKeyFor_conferenceClaim (orgId conferenceId : string) : result (string * string) string :=
  let! o := assertKeyToken "orgId" orgId in
  let! c := assertKeyToken "conferenceId" conferenceId in
  Ok (o +:+ "." +:+ c).
End Keys.

Lemma append_dot p r : p +:+ "." +:+ r = p +:+ String dot_char r.
Proof. by unfold String.append; fold String.append. Qed.

Lemma kvKeyFor_parkClaim_Ok o l s k :
  kvKeyFor_parkClaim o l s = Ok k →
  k = o +:+ String dot_char (l +:+ String dot_char (pretty s)) ∧
  isSubjectToken o = true ∧ isSubjectToken l = true.
Proof.
  unfold kvKeyFor_parkClaim. rewrite !result_bind_Ok.
  intros (o' & [-> Ho]%assertKeyToken_Ok & H). rewrite result_bind_Ok in H.
  destruct H as (l' & [-> Hl]%assertKeyToken_Ok & H). rewrite result_bind_Ok in H.
  destruct H as (s' & [-> Hs]%assertKeyToken_Ok & [= <-]). by rewrite !append_dot.
Qed.

Lemma kvKeyFor_conferenceClaim_Ok o c k :
  kvKeyFor_conferenceClaim o c = Ok k →
  k = o +:+ String dot_char c ∧ isSubjectToken o = true ∧ isSubjectToken c = true.
Proof.
  unfold kvKeyFor_conferenceClaim. rewrite !result_bind_Ok.
  intros (o' & [-> Ho]%assertKeyToken_Ok & H). rewrite result_bind_Ok in H.
  destruct H as (c' & [-> Hc]%assertKeyToken_Ok & [= <-]). by rewrite append_dot.
Qed.

(** One key, one orbit. *)
Lemma kvKeyFor_parkClaim_inj o l s o' l' s' k :
  kvKeyFor_parkClaim o l s = Ok k → kvKeyFor_parkClaim o' l' s' = Ok k → o = o' ∧ l = l' ∧ s = s'.
Proof.
  intros (-> & Ho & Hl)%kvKeyFor_parkClaim_Ok (Heq & Ho' & Hl')%kvKeyFor_parkClaim_Ok.
  apply dotted_inj in Heq as [-> Heq]; [|by apply token_no_dot..].
  apply dotted_inj in Heq as [-> Heq]; [|by apply token_no_dot..].
  by apply (inj pretty) in Heq as ->.
Qed.

Lemma kvKeyFor_conferenceClaim_inj o c o' c' k :
  kvKeyFor_conferenceClaim o c = Ok k → kvKeyFor_conferenceClaim o' c' = Ok k → o = o' ∧ c = c'.
Proof.
  intros (-> & Ho & Hl)%kvKeyFor_conferenceClaim_Ok (Heq & Ho' & Hl')%kvKeyFor_conferenceClaim_Ok.
  by apply dotted_inj in Heq as [-> ->]; [|by apply token_no_dot..].
Qed.

(** ** The lease *)
Definition CLAIM_LEASE_MS : Z := 90000.

Definition MAX_CLAIM_HEARTBEAT_INTERVAL_MS : Z := (CLAIM_LEASE_MS - 1) / 3.

Definition CLAIM_HEARTBEAT_INTERVAL_MS : Z := MAX_CLAIM_HEARTBEAT_INTERVAL_MS.

Definition isClaimExpired (expiresAt nowMs : Z) : bool := (expiresAt <=? nowMs)%Z.

Definition isClaimOwnedBy (claimant instanceId : string) : bool := bool_decide (claimant = instanceId).

(** The largest interval that leaves three heartbeats strictly inside one lease. *)
Lemma three_heartbeats_fit n :
  (∀ k : Z, 1 <= k <= 3 → isClaimExpired CLAIM_LEASE_MS (k * n) = false)%Z ↔
  (n <= MAX_CLAIM_HEARTBEAT_INTERVAL_MS)%Z.
Proof.
  unfold isClaimExpired, CLAIM_LEASE_MS, MAX_CLAIM_HEARTBEAT_INTERVAL_MS, CLAIM_LEASE_MS.
  change ((90000 - 1) / 3)%Z with 29999%Z. split.
  - intros H. specialize (H 3%Z). apply Z.leb_gt in H; lia.
  - intros Hn k Hk. apply Z.leb_gt. nia.
Qed.

(** ** Errors *)

(** What the client library throws: the server's code, and [message] or the text of
    the error. *)
Record KvError := { err_code : option Z; message : string }.

Fixpoint text_includes (needle s : string) : bool :=
  startsWith s needle || match s with String _ s' => text_includes needle s' | EmptyString => false end.

Definition isConflict (error : KvError) : bool :=
  if bool_decide (err_code error = Some 10071%Z) then true
  else
    let text := toLowerCase (message error) in
    text_includes "wrong last sequence" text || text_includes "key exists" text ||
    text_includes "already exists" text.

(** ** Requests and answers *)
Inductive request (T : Type) : Type :=
| QGet (key : string)
| QCreate (key : string) (value : T)
| QUpdate (key : string) (value : T) (revision : Z)
| QDelete (key : string) (revision : Z)
(* a turn of the event loop, with no server involved *)
| QYield.
Arguments QGet {T} _.
Arguments QCreate {T} _ _.
Arguments QUpdate {T} _ _ _.
Arguments QDelete {T} _ _.
Arguments QYield {T}.

Inductive answer (T : Type) : Type :=
| AEntry (entry : option (Stored T * Z))
| ARevision (revision : Z)
| ADone
| AError (error : KvError).
Arguments AEntry {T} _.
Arguments ARevision {T} _.
Arguments ADone {T}.
Arguments AError {T} _.

Inductive fault : Type :=
| Delivered
(* the request is lost, or its answer is; the client throws what it likes *)
| Unreached (error : KvError)
| Unanswered (error : KvError).

Definition conflict : KvError := {| err_code := Some 10071%Z; message := "wrong last sequence" |}.

Section Serve.
Context {B T : Type} `{!KvBucket B T}.

Definition written (b : B) (op : option B) (ok : B → answer T) : B * answer T :=
  match op with
  | Some b' => (b', ok b')
  | None => (b, AError conflict)
  end.

Definition serve_now (b : B) (q : request T) : B * answer T :=
  match q with
  | QGet k => (b, AEntry (kv_get b k))
  | QCreate k v => written b (kv_create b k v) (λ b', ARevision (kv_seq b'))
  | QUpdate k v r => written b (kv_update b k v r) (λ b', ARevision (kv_seq b'))
  | QDelete k r => written b (kv_delete b k r) (λ _, ADone)
  | QYield => (b, ADone)
  end.

Definition serve (b : B) (q : request T) (f : fault) : B * answer T :=
  match q, f with
  | QYield, _ | _, Delivered => serve_now b q
  | _, Unreached e => (b, AError e)
  | _, Unanswered e => ((serve_now b q).1, AError e)
  end.
End Serve.

Section ServeFacts.
Context {B T : Type} `{!KvBucket B T} `{!KvLaws B T}.

Lemma serve_cases (b : B) (q : request T) f b' a :
  serve b q f = (b', a) →
  serve_now b q = (b', a) ∨ ∃ e, a = AError e ∧ (b' = b ∨ b' = (serve_now b q).1).
Proof. destruct q, f; simpl; naive_solver. Qed.

(** What takes an entry from its key: an update or a deletion at its revision. *)
Lemma serve_takes (b b' : B) (q : request T) f a key x r :
  serve b q f = (b', a) → kv_get b key = Some (x, r) → kv_get b' key ≠ Some (x, r) →
  (∃ v, q = QUpdate key v r) ∨ q = QDelete key r.
Proof.
  intros Hs Hg Hch. assert (Hb : b' = b ∨ b' = (serve_now b q).1).
  { apply serve_cases in Hs as [Hs|(e & _ & H)]; [right; by rewrite Hs|done]. }
  destruct Hb as [->|Hb]; [done|]. rewrite Hb in Hch. clear Hb.
  destruct q as [k|k v|k v r'|k r'|]; simpl in Hch; try done.
  - destruct (kv_create b k v) as [b1|] eqn:Hc; [|done]. exfalso. apply Hch. simpl.
    assert (kv_get b k = None) by (apply (kv_create_free b k v); by rewrite Hc).
    apply kv_create_writes in Hc as (_ & _ & Ho). rewrite Ho; [done|]. by intros <-; simplify_eq.
  - destruct (kv_update b k v r') as [b1|] eqn:Hc; [|done]. left.
    assert (is_Some (kv_update b k v r')) as (y & Hy)%kv_update_at by (by rewrite Hc).
    apply kv_update_writes in Hc as (_ & _ & Ho).
    destruct (decide (k = key)) as [->|Hk]; [rewrite Hy in Hg; injection Hg as _ <-; by exists v|].
    exfalso. apply Hch. simpl. by rewrite Ho.
  - destruct (kv_delete b k r') as [b1|] eqn:Hc; [|done]. right.
    assert (is_Some (kv_delete b k r')) as (y & Hy)%kv_delete_at by (by rewrite Hc).
    apply kv_delete_writes in Hc as (_ & _ & Ho).
    destruct (decide (k = key)) as [->|Hk]; [by rewrite Hy in Hg; injection Hg as _ <-|].
    exfalso. apply Hch. simpl. by rewrite Ho.
Qed.
End ServeFacts.

(** ** The claim store *)
Record Claimed (T : Type) := { value : T; revision : Z }.
Arguments value {T} _.
Arguments revision {T} _.
Arguments Build_Claimed {T} _ _.

Inductive ClaimRead (T : Type) : Type :=
| present (claim : Claimed T)
| absent
| read_unavailable.
Arguments present {T} _.
Arguments absent {T}.
Arguments read_unavailable {T}.

Inductive ClaimWrite (T : Type) : Type :=
| write_written (revision : Z)
| write_lost (current : option (Claimed T))
| write_unavailable.
Arguments write_written {T} _.
Arguments write_lost {T} _.
Arguments write_unavailable {T}.

Module KvClaimBucket.
Section KvClaimBucket.
Context {S T : Type} (schema : T → bool).
Abbreviation io := (prog S (request T) (answer T)).

(** [get]: bytes the schema rejects are not a free key. *)
Definition get (key : string) : io (ClaimRead T) :=
  a ← ask (QGet key);
  mret match a with
       | AEntry None => absent
       | AEntry (Some (Parsed v, r)) => if schema v then present (Build_Claimed v r) else read_unavailable
       | _ => read_unavailable
       end.

(** The [catch] of [create] and [update]. *)
Definition lost_or_unavailable (key : string) (error : KvError) : io (ClaimWrite T) :=
  if negb (isConflict error) then mret write_unavailable
  else
    current ← get key;
    mret match current with
         | read_unavailable => write_unavailable
         | present claim => write_lost (Some claim)
         | absent => write_lost None
         end.

Definition create (key : string) (value : T) : io (ClaimWrite T) :=
  a ← ask (QCreate key value);
  match a with
  | ARevision r => mret (write_written r)
  | AError e => lost_or_unavailable key e
  | _ => mret write_unavailable
  end.

Definition update (key : string) (value : T) (revision : Z) : io (ClaimWrite T) :=
  a ← ask (QUpdate key value revision);
  match a with
  | ARevision r => mret (write_written r)
  | AError e => lost_or_unavailable key e
  | _ => mret write_unavailable
  end.

(** Whether the bucket confirmed it; a conflict and an outage differ in the log only. *)
Definition release (key : string) (revision : Z) : io bool :=
  a ← ask (QDelete key revision);
  mret match a with ADone => true | _ => false end.
End KvClaimBucket.
End KvClaimBucket.

(** *** Undisturbed, on a network that delivers *)
Section Exec.
Context {B S T : Type} `{!KvBucket B T} (schema : T → bool).

Definition read_of (b : B) (key : string) : ClaimRead T :=
  match kv_get b key with
  | None => absent
  | Some (Parsed v, r) => if schema v then present (Build_Claimed v r) else read_unavailable
  | Some (Unparsable, _) => read_unavailable
  end.

(** The answer to a compare-and-set: the new revision, or whose claim it is. *)
Definition outcome_of (b : B) (key : string) (op : option B) : B * ClaimWrite T :=
  match op with
  | Some b' => (b', write_written (kv_seq b'))
  | None => (b, match read_of b key with
                | read_unavailable => write_unavailable
                | present claim => write_lost (Some claim)
                | absent => write_lost None
                end)
  end.

Lemma exec_get now (b : B) (s : S) key :
  exec serve_now now (KvClaimBucket.get schema key) b s = (b, s, read_of b key).
Proof. unfold read_of. simpl. by destruct (kv_get b key) as [[[v|] r]|]; simpl; try destruct (schema v). Qed.

Lemma exec_lost now (b : B) (s : S) key :
  exec serve_now now (KvClaimBucket.lost_or_unavailable schema key conflict) b s =
  (b, s, match read_of b key with
         | read_unavailable => write_unavailable
         | present claim => write_lost (Some claim)
         | absent => write_lost None
         end).
Proof.
  unfold KvClaimBucket.lost_or_unavailable. change (isConflict conflict) with true. cbv [negb].
  rewrite exec_bind, exec_get. by destruct (read_of b key).
Qed.

Lemma exec_create now (b : B) (s : S) key v :
  exec serve_now now (KvClaimBucket.create schema key v) b s =
  let '(b', x) := outcome_of b key (kv_create b key v) in (b', s, x).
Proof.
  unfold KvClaimBucket.create. rewrite exec_bind. cbn [exec ask serve_now written].
  destruct (kv_create b key v) as [b1|]; [done|]. apply exec_lost.
Qed.

Lemma exec_update now (b : B) (s : S) key v r :
  exec serve_now now (KvClaimBucket.update schema key v r) b s =
  let '(b', x) := outcome_of b key (kv_update b key v r) in (b', s, x).
Proof.
  unfold KvClaimBucket.update. rewrite exec_bind. cbn [exec ask serve_now written].
  destruct (kv_update b key v r) as [b1|]; [done|]. apply exec_lost.
Qed.

Lemma exec_release now (b : B) (s : S) key r :
  exec serve_now now (KvClaimBucket.release (T := T) key r) b s =
  match kv_delete b key r with Some b' => (b', s, true) | None => (b, s, false) end.
Proof. unfold KvClaimBucket.release. rewrite exec_bind. simpl. by destruct (kv_delete b key r). Qed.
End Exec.

(** ** What everybody knows *)
Module Log.
Section Log.
Context {B T : Type} `{!KvBucket B T} `{!KvLaws B T}.
(* what the users of the bucket write under a key *)
Context (good : string → T → Prop).

(** The values ever written, each at its key and revision, and the times the clock of
    each instance has shown. *)
Record world := { entries : list (string * Z * T); times : list (string * Z) }.

Definition logged (w : world) (k : string) (r : Z) (v : T) : Prop := (k, r, v) ∈ entries w.

Definition seen (w : world) (i : string) (now : Z) : Prop := (i, now) ∈ times w.

Definition le (w w' : world) : Prop := entries w ⊆ entries w' ∧ times w ⊆ times w'.

#[global] Instance le_preorder : PreOrder le.
Proof. split; [by intros w; split|]. intros w1 w2 w3 [? ?] [? ?]. split; by etrans. Qed.

(** The log is complete, holds good values, one per revision, none of the future; the
    bucket holds nothing else at a revision that was logged. *)
Record srv (w : world) (b : B) : Prop := {
  srv_entry : ∀ k v r, kv_get b k = Some (Parsed v, r) → logged w k r v;
  srv_good : ∀ k r v, logged w k r v → good k v;
  srv_past : ∀ k r v, logged w k r v → (r <= kv_seq b)%Z;
  srv_once : ∀ k r v v', logged w k r v → logged w k r v' → v = v';
  srv_same : ∀ k r v x, logged w k r v → kv_get b k = Some (x, r) → x = Parsed v }.

(** What an answer tells. *)
Definition fits (w : world) (q : request T) (a : answer T) : Prop :=
  match q, a with
  | QGet k, AEntry (Some (Parsed v, r)) => logged w k r v ∧ good k v
  | QCreate k v, ARevision r | QUpdate k v _, ARevision r => logged w k r v
  | _, _ => True
  end.

Lemma logged_mono w w' k r v : le w w' → logged w k r v → logged w' k r v.
Proof. intros [H _]. apply H. Qed.

Lemma seen_mono w w' i now : le w w' → seen w i now → seen w' i now.
Proof. intros [_ H]. apply H. Qed.

Definition note (w : world) (k : string) (r : Z) (v : T) : world :=
  {| entries := (k, r, v) :: entries w; times := times w |}.

Lemma note_le w k r v : le w (note w k r v).
Proof. split; [|done]. intros x Hx. by apply list_elem_of_further. Qed.

Lemma srv_write w b b' k v :
  srv w b → good k v → (kv_seq b < kv_seq b')%Z → kv_get b' k = Some (Parsed v, kv_seq b') →
  (∀ k', k' ≠ k → kv_get b' k' = kv_get b k') → srv (note w k (kv_seq b') v) b'.
Proof.
  intros [He Hg Hp Ho Hs] Hgood Hseq Hk Hother.
  assert (Hnote : ∀ k' r v', logged (note w k (kv_seq b') v) k' r v' →
    (k' = k ∧ r = kv_seq b' ∧ v' = v) ∨ (logged w k' r v' ∧ (r <= kv_seq b)%Z)).
  { intros k' r v' [H|H]%elem_of_cons; [left; by simplify_eq|right; split; [done|by eapply Hp]]. }
  split.
  - intros k' v' r Hg'. destruct (decide (k' = k)) as [->|Hne].
    + rewrite Hk in Hg'. injection Hg' as <- <-. apply list_elem_of_here.
    + apply list_elem_of_further, He. by rewrite <- Hother.
  - intros k' r v' [(-> & _ & ->)|[H _]]%Hnote; [done|]. by eapply Hg.
  - intros k' r v' [(_ & -> & _)|[_ H]]%Hnote; lia.
  - intros k' r v1 v2 [(? & ? & ?)|[? ?]]%Hnote [(? & ? & ?)|[? ?]]%Hnote; subst; try done; try lia.
    by eapply Ho.
  - intros k' r v' x [(-> & -> & ->)|[H Hr]]%Hnote Hx; [by rewrite Hk in Hx; injection Hx|].
    destruct (decide (k' = k)) as [->|Hne].
    + rewrite Hk in Hx. injection Hx as _ <-. lia.
    + eapply Hs; [done|]. by rewrite <- Hother.
Qed.

Lemma srv_drop w b b' k :
  srv w b → (kv_seq b < kv_seq b')%Z → kv_get b' k = None →
  (∀ k', k' ≠ k → kv_get b' k' = kv_get b k') → srv w b'.
Proof.
  intros [He Hg Hp Ho Hs] Hseq Hk Hother. split; try done.
  - intros k' v' r Hg'. destruct (decide (k' = k)) as [->|Hne]; [by rewrite Hk in Hg'|].
    apply He. by rewrite <- Hother.
  - intros k' r v' H%Hp. lia.
  - intros k' r v' x H Hx. destruct (decide (k' = k)) as [->|Hne]; [by rewrite Hk in Hx|].
    eapply Hs; [done|]. by rewrite <- Hother.
Qed.

(** Only good values are written. *)
Definition writes_good (q : request T) : Prop :=
  match q with QCreate k v | QUpdate k v _ => good k v | _ => True end.

Lemma serve_now_ok w b q b' a :
  srv w b → writes_good q → serve_now b q = (b', a) →
  ∃ w', le w w' ∧ srv w' b' ∧ fits w' q a ∧ times w' = times w.
Proof.
  intros Hs Hq. destruct q as [k|k v|k v r|k r|]; simpl in *.
  - intros [= <- <-]. exists w. split_and!; try done.
    destruct (kv_get b k) as [[[v|] r]|] eqn:Hk; simpl; try done.
    pose proof (srv_entry _ _ Hs _ _ _ Hk). split; [done|]. by eapply srv_good.
  - destruct (kv_create b k v) as [b1|] eqn:Hc; intros [= <- <-].
    + apply kv_create_writes in Hc as (H1 & H2 & H3). exists (note w k (kv_seq b1) v).
      split_and!; [apply note_le|by eapply srv_write|apply list_elem_of_here|done].
    + by exists w.
  - destruct (kv_update b k v r) as [b1|] eqn:Hc; intros [= <- <-].
    + apply kv_update_writes in Hc as (H1 & H2 & H3). exists (note w k (kv_seq b1) v).
      split_and!; [apply note_le|by eapply srv_write|apply list_elem_of_here|done].
    + by exists w.
  - destruct (kv_delete b k r) as [b1|] eqn:Hc; intros [= <- <-]; exists w; [|done].
    apply kv_delete_writes in Hc as (H1 & H2 & H3). split_and!; [done|by eapply srv_drop|done|done].
  - intros [= <- <-]. by exists w.
Qed.

Lemma log_serve_ok w b q f b' a :
  srv w b → writes_good q → serve b q f = (b', a) →
  ∃ w', le w w' ∧ srv w' b' ∧ fits w' q a ∧ ∀ j now, seen w' j now → seen w j now.
Proof.
  assert (Hfe : ∀ w' e, fits w' q (AError e)) by (intros; by destruct q).
  intros Hs Hq [H|(e & -> & [->| ->])]%serve_cases; [| |destruct (serve_now b q) as [b1 a1] eqn:H].
  - destruct (serve_now_ok w b q b' a Hs Hq H) as (w' & ? & ? & ? & Ht).
    exists w'. split_and!; try done. unfold seen. by rewrite Ht.
  - exists w. by split_and!.
  - destruct (serve_now_ok w b q b1 a1 Hs Hq H) as (w' & ? & ? & ? & Ht).
    exists w'. split_and!; try done. unfold seen. by rewrite Ht.
Qed.

Lemma log_tick w b i now :
  srv w b → ∃ w', le w w' ∧ srv w' b ∧ seen w' i now ∧
    ∀ j t, seen w' j t → seen w j t ∨ (j = i ∧ t = now).
Proof.
  intros [He Hg Hp Ho Hs]. exists {| entries := entries w; times := (i, now) :: times w |}. split_and!.
  - split; [done|]. intros x Hx. by apply list_elem_of_further.
  - by split.
  - apply list_elem_of_here.
  - intros j t [H|H]%elem_of_cons; [right; by simplify_eq|by left].
Qed.

Definition genesis : world := {| entries := []; times := [] |}.

(** A bucket nobody has claimed anything in. *)
Definition unclaimed (b : B) : Prop := ∀ k v r, kv_get b k ≠ Some (Parsed v, r).

Lemma genesis_srv b : unclaimed b → srv genesis b.
Proof.
  intros Hb. split; try by (intros ??? H; inversion H).
  - intros k v r H. by apply Hb in H.
  - intros k r v v' H. inversion H.
  - intros k r v x H. inversion H.
Qed.
End Log.
End Log.

(** ** What a claim operation may rely on *)
Section Rules.
Context {S T : Type} (schema : T → bool) (good : string → T → Prop).
Context (inv : Log.world (T := T) → string → S → Prop).
Context (may : Log.world (T := T) → string → request T → Prop).
Context (may_get : ∀ w i k, may w i (QGet k)).

Abbreviation okay := (ok Log.le Log.seen inv may (Log.fits good)).
Abbreviation world := (Log.world (T := T)).

Definition knows_read (w : world) (k : string) (x : ClaimRead T) : Prop :=
  match x with
  | present c => Log.logged w k (revision c) (value c) ∧ good k (value c) ∧ schema (value c) = true
  | _ => True
  end.

Definition knows_write (w : world) (k : string) (v : T) (x : ClaimWrite T) : Prop :=
  match x with
  | write_written r => Log.logged w k r v
  | write_lost (Some c) =>
      Log.logged w k (revision c) (value c) ∧ good k (value c) ∧ schema (value c) = true
  | _ => True
  end.

Lemma ok_get i w k (post : world → ClaimRead T → Prop) :
  (∀ w' x, Log.le w w' → knows_read w' k x → post w' x) → okay i w (KvClaimBucket.get schema k) post.
Proof.
  intros Hp. split; [apply may_get|]. intros w' a Hle Ha. simpl. apply Hp; [done|].
  destruct a as [[[[v|] r]|]| | |]; simpl in *; try done. destruct Ha. by destruct (schema v) eqn:Hv.
Qed.

Lemma ok_lost i w k v e (post : world → ClaimWrite T → Prop) :
  (∀ w' x, Log.le w w' → knows_write w' k v x → post w' x) →
  okay i w (KvClaimBucket.lost_or_unavailable schema k e) post.
Proof.
  intros Hp. unfold KvClaimBucket.lost_or_unavailable.
  destruct (isConflict e); cbv [negb]; [|by apply Hp].
  apply ok_bind, ok_get. intros w' [c| |] Hle Hx; simpl; by apply Hp.
Qed.

Lemma ok_create i w k v (post : world → ClaimWrite T → Prop) :
  may w i (QCreate k v) →
  (∀ w' x, Log.le w w' → knows_write w' k v x → post w' x) →
  okay i w (KvClaimBucket.create schema k v) post.
Proof.
  intros Hm Hp. split; [done|]. intros w' a Hle Ha. simpl.
  destruct a as [x|r| |e]; simpl in *; try (by apply Hp).
  apply (ok_lost i w' k v). intros w'' y Hle' Hy. apply Hp; [by etrans|done].
Qed.

Lemma ok_update i w k v r (post : world → ClaimWrite T → Prop) :
  may w i (QUpdate k v r) →
  (∀ w' x, Log.le w w' → knows_write w' k v x → post w' x) →
  okay i w (KvClaimBucket.update schema k v r) post.
Proof.
  intros Hm Hp. split; [done|]. intros w' a Hle Ha. simpl.
  destruct a as [x|r'| |e]; simpl in *; try (by apply Hp).
  apply (ok_lost i w' k v). intros w'' y Hle' Hy. apply Hp; [by etrans|done].
Qed.

Lemma ok_release i w k r (post : world → bool → Prop) :
  may w i (QDelete k r) →
  (∀ w' b, Log.le w w' → post w' b) → okay i w (KvClaimBucket.release k r) post.
Proof. intros Hm Hp. split; [done|]. intros w' a Hle _. simpl. by apply Hp. Qed.
End Rules.
