(* ===== verification/Agents.v ===== *)
(** * Queue agents

    [packages/events/src/schemas/agent-state-machine.ts] (the machine both
    writers share), [apps/engine/src/queue/agent-state.ts] (eligibility),
    [apps/engine/src/queue/agent-state.store.ts] (the engine's compare-and-set
    writer) and the write of a shift action by
    [apps/api/src/pbx/queues]. [Date.parse] and [toISOString] are parameters. *)

From S2P Require Import Prelude Machines Kv.

Module Agents.
Local Open Scope js_scope.

(** ** The machine *)
Inductive AgentStatus : Set :=
| logged_out | available | ringing | on_call | wrap_up | on_break | unavailable.

#[global] Instance AgentStatus_eq_dec : EqDecision AgentStatus.
Proof. solve_decision. Defined.

Definition AGENT_STATUSES : list AgentStatus :=
  [logged_out; available; ringing; on_call; wrap_up; on_break; unavailable].

Definition agent_status_name (s : AgentStatus) : string :=
  match s with
  | logged_out => "logged-out"
  | available => "available"
  | ringing => "ringing"
  | on_call => "on-call"
  | wrap_up => "wrap-up"
  | on_break => "on-break"
  | unavailable => "unavailable"
  end.

Definition VALID_AGENT_TRANSITIONS (s : AgentStatus) : list AgentStatus :=
  match s with
  | logged_out => [available; on_break; unavailable]
  | available => [ringing; wrap_up; on_break; unavailable; logged_out]
  | ringing => [on_call; available; unavailable; on_break; logged_out]
  | on_call => [wrap_up; available; unavailable; logged_out]
  | wrap_up => [available; on_break; unavailable; logged_out]
  | on_break => [available; unavailable; logged_out]
  | unavailable => [available; on_break; logged_out]
  end.

Definition AgentTransition : Type := AgentStatus * AgentStatus.

Definition ENGINE_DRIVEN_TRANSITIONS : list AgentTransition :=
  [(available, ringing); (ringing, on_call); (ringing, available); (ringing, unavailable);
   (on_call, wrap_up); (on_call, available); (wrap_up, available)].

Inductive AgentSessionAction : Set := login | logout | pause | resume.

Definition AGENT_SESSION_ACTIONS : list AgentSessionAction := [login; logout; pause; resume].

Definition AGENT_SESSION_ACTION_TARGET (a : AgentSessionAction) : AgentStatus :=
  match a with
  | login => available
  | logout => logged_out
  | pause => on_break
  | resume => available
  end.

Definition AGENT_SESSION_ACTION_SOURCES (a : AgentSessionAction) : list AgentStatus :=
  match a with
  | login => [logged_out; on_break; unavailable]
  | logout => [logged_out; available; ringing; on_call; wrap_up; on_break; unavailable]
  | pause => [logged_out; available; ringing; wrap_up; unavailable]
  | resume => [on_break; unavailable]
  end.

Definition API_DRIVEN_TRANSITIONS : list AgentTransition :=
  mjoin ((λ action,
    (λ from, (from, AGENT_SESSION_ACTION_TARGET action)) <$>
      List.filter (λ from, negb (bool_decide (from = AGENT_SESSION_ACTION_TARGET action)))
        (AGENT_SESSION_ACTION_SOURCES action)) <$> AGENT_SESSION_ACTIONS).

Inductive AgentTransitionRefusal : Set :=
| not_adjacent | not_engine_driven | not_api_driven | not_this_action.

Record InvalidAgentTransitionError := {
  err_from : AgentStatus;
  err_to : AgentStatus;
  err_reason : AgentTransitionRefusal }.

Definition refuse (from to : AgentStatus) (why : AgentTransitionRefusal)
    : InvalidAgentTransitionError :=
  {| err_from := from; err_to := to; err_reason := why |}.

Definition canAgentTransition (from to : AgentStatus) : bool :=
  includes (VALID_AGENT_TRANSITIONS from) to.

Definition isEngineDrivenTransition (from to : AgentStatus) : bool :=
  existsb (λ '(start, end_), bool_decide (start = from) && bool_decide (end_ = to))
    ENGINE_DRIVEN_TRANSITIONS.

Definition isApiDrivenTransition (from to : AgentStatus) : bool :=
  existsb (λ '(start, end_), bool_decide (start = from) && bool_decide (end_ = to))
    API_DRIVEN_TRANSITIONS.

Definition assertEngineAgentTransition (from to : AgentStatus)
    : result InvalidAgentTransitionError unit :=
  if negb (canAgentTransition from to) then Throw (refuse from to not_adjacent)
  else if negb (isEngineDrivenTransition from to) then Throw (refuse from to not_engine_driven)
  else Ok tt.

Definition assertApiAgentTransition (from to : AgentStatus)
    : result InvalidAgentTransitionError unit :=
  if negb (canAgentTransition from to) then Throw (refuse from to not_adjacent)
  else if negb (isApiDrivenTransition from to) then Throw (refuse from to not_api_driven)
  else Ok tt.

Inductive AgentSessionPlan :=
| PlanNoOp (to : AgentStatus)
| PlanApply (to : AgentStatus)
| PlanRefused (to : AgentStatus) (error : InvalidAgentTransitionError).

Definition planAgentSessionAction (action : AgentSessionAction) (from : AgentStatus)
    : AgentSessionPlan :=
  let to := AGENT_SESSION_ACTION_TARGET action in
  if bool_decide (from = to) then PlanNoOp to
  else if negb (includes (AGENT_SESSION_ACTION_SOURCES action) from) then
    PlanRefused to (refuse from to
      (if negb (canAgentTransition from to) then not_adjacent
       else if isApiDrivenTransition from to then not_this_action else not_api_driven))
  else PlanApply to.

Definition ABSENT_AGENT_STATUS : AgentStatus := logged_out.

#[global] Instance agent_machine : Machine AgentStatus := {
  machine_states := AGENT_STATUSES;
  machine_initial := ABSENT_AGENT_STATUS;
  machine_next := VALID_AGENT_TRANSITIONS }.

#[global] Instance agent_laws : MachineLaws AgentStatus.
Proof. solve_machine. Qed.

(** The engine's own guard in [agent-state.ts]. *)
Definition canTransition (from to : AgentStatus) : bool := includes (VALID_AGENT_TRANSITIONS from) to.

Definition isEngineDriven (from to : AgentStatus) : bool :=
  existsb (λ '(start, end_), bool_decide (start = from) && bool_decide (end_ = to))
    ENGINE_DRIVEN_TRANSITIONS.

Definition assertAgentTransition (from to : AgentStatus) : result InvalidAgentTransitionError unit :=
  if negb (canTransition from to) then Throw (refuse from to not_adjacent)
  else if negb (isEngineDriven from to) then Throw (refuse from to not_engine_driven)
  else Ok tt.

(** ** An agent's entry *)
Inductive EntrySource : Set := from_engine | from_api.

Record AgentStateEntry := {
  entry_orgId : string;
  entry_agentId : string;
  status : AgentStatus;
  since : string;
  previousStatus : option AgentStatus;
  availableAt : option string;
  noAnswerCount : option Z;
  entry_callId : option string;
  entry_legId : option string;
  entry_queueId : option string;
  entry_reason : option string;
  source : option EntrySource }.

Record AgentTransitionRequest := {
  req_orgId : string;
  req_agentId : string;
  req_to : AgentStatus;
  req_queueId : string;
  req_callId : string;
  req_legId : option string;
  req_availableAt : option Z;
  req_noAnswerCount : option Z;
  req_reason : option string }.

Section Entry.
Context (dateParse : string → option Z) (toISOString : Z → string).

Definition idleMsOf (entry : AgentStateEntry) (now : Z) : Z :=
  match dateParse (since entry) with
  | None => 0
  | Some t => Z.max 0 (now - t)
  end.

Definition isPastDeadline (entry : AgentStateEntry) (now : Z) : bool :=
  match availableAt entry with
  | None => true
  | Some deadline =>
      match dateParse deadline with None => true | Some t => (t <=? now)%Z end
  end.

Definition isEligibleForDistribution (entry : option AgentStateEntry) (now : Z) : bool :=
  match entry with
  | None => false
  | Some e =>
      if negb (bool_decide (status e = available)) && negb (bool_decide (status e = wrap_up))
      then false else isPastDeadline e now
  end.

Definition isStaffing (entry : option AgentStateEntry) : bool :=
  match entry with
  | None => false
  | Some e => negb (bool_decide (status e = logged_out))
  end.

Definition absentAgentState (orgId agentId : string) (now : Z) : AgentStateEntry :=
  {| entry_orgId := orgId; entry_agentId := agentId; status := ABSENT_AGENT_STATUS;
     since := toISOString now; previousStatus := None; availableAt := None;
     noAnswerCount := None; entry_callId := None; entry_legId := None; entry_queueId := None;
     entry_reason := None; source := None |}.
End Entry.

(** ** The engine's writer *)
Inductive VersionedAgentStateRead :=
| ReadFound (value : AgentStateEntry) (revision : Z)
| ReadAbsent
| ReadUnavailable.

(** [{ writes, refusals, failures }]: the counter one call advances. *)
Inductive Counter := count_none | count_write | count_refusal | count_failure.

(** The payload of an [agent.state] event. *)
Record AgentStateEvent := {
  evt_orgId : string;
  evt_queueId : option string;
  evt_agentId : string;
  evt_status : AgentStatus;
  evt_previousStatus : option AgentStatus;
  evt_reason : option string }.

(** What a call to the writer leaves behind: the answer, the counter it
    advanced and the event it published. *)
Record StoreAnswer := {
  ans_entry : option AgentStateEntry;
  ans_counter : Counter;
  ans_event : option AgentStateEvent }.

Definition no_answer (c : Counter) : StoreAnswer :=
  {| ans_entry := None; ans_counter := c; ans_event := None |}.

Section Store.
Context (dateParse : string → option Z) (toISOString : Z → string).
Context {B : Type} `{KvBucket B AgentStateEntry}.

Definition noAnswerCountOf (requested current : option Z) : option Z :=
  match requested with Some n => Some n | None => current end.

(** [reached] is whether the request to the broker came back. *)
Definition readVersioned (reached : bool) (b : B) (key : string) : VersionedAgentStateRead :=
  if negb reached then ReadUnavailable
  else
    match kv_get b key with
    | None => ReadAbsent
    | Some (Parsed value, revision) => ReadFound value revision
    | Some (Unparsable, _) => ReadUnavailable
    end.

(** [reserve] up to its write: the entry to write and the revision to quote. *)
Definition reserve_prepare (read : VersionedAgentStateRead) (request : AgentTransitionRequest)
    (now : Z) : option (AgentStateEntry * Z) :=
  match read with
  | ReadFound value revision =>
      if negb (isEligibleForDistribution dateParse (Some value) now) then None
      else
        Some ({| entry_orgId := req_orgId request; entry_agentId := req_agentId request;
                 status := ringing; since := toISOString now;
                 previousStatus := Some (status value); availableAt := None;
                 noAnswerCount := noAnswerCountOf (req_noAnswerCount request) (noAnswerCount value);
                 entry_callId := Some (req_callId request); entry_legId := req_legId request;
                 entry_queueId := Some (req_queueId request); entry_reason := None;
                 source := Some from_engine |}, revision)
  | ReadAbsent | ReadUnavailable => None
  end.

(** The write of [reserve] and what follows it. *)
Definition reserve_commit (f : Fault) (b : B) (key : string) (request : AgentTransitionRequest)
    (next : AgentStateEntry) (revision : Z) : B * StoreAnswer :=
  let '(b', w) := kv_write f b (kv_update b key next revision) in
  (b', match w with
       | Written =>
           {| ans_entry := Some next; ans_counter := count_write;
              ans_event := Some {| evt_orgId := req_orgId request;
                                   evt_queueId := Some (req_queueId request);
                                   evt_agentId := req_agentId request;
                                   evt_status := status next;
                                   evt_previousStatus := previousStatus next;
                                   evt_reason := None |} |}
       | Conflict => no_answer count_refusal
       | Failed => no_answer count_failure
       end).

Definition reserve (reached : bool) (f : Fault) (b : B) (request : AgentTransitionRequest)
    (now : Z) : B * StoreAnswer :=
  match kvKeyFor_agentState (req_orgId request) (req_agentId request) with
  | Throw _ => (b, no_answer count_none)
  | Ok key =>
      match reserve_prepare (readVersioned reached b key) request now with
      | None => (b, no_answer count_none)
      | Some (next, revision) => reserve_commit f b key request next revision
      end
  end.

(** The states a call owns. *)
Definition call_state (s : AgentStatus) : bool :=
  bool_decide (s = ringing) || bool_decide (s = on_call) || bool_decide (s = wrap_up).

(** [transition] up to its write. *)
Inductive Prepared :=
| PrepRefused
| PrepUnchanged (current : AgentStateEntry)
| PrepWrite (previous : AgentStatus) (next : AgentStateEntry) (revision : option Z).

Definition transition_prepare (read : VersionedAgentStateRead) (request : AgentTransitionRequest)
    (now : Z) : Prepared :=
  let stored := match read with ReadFound v r => Some (v, r) | _ => None end in
  let current := default (absentAgentState toISOString (req_orgId request) (req_agentId request) now)
                         (fst <$> stored) in
  if call_state (status current) && negb (bool_decide (entry_callId current = Some (req_callId request)))
  then PrepRefused
  else if bool_decide (status current = req_to request) then PrepUnchanged current
  else
    match assertAgentTransition (status current) (req_to request) with
    | Throw _ => PrepRefused
    | Ok _ =>
        PrepWrite (status current)
          {| entry_orgId := req_orgId request; entry_agentId := req_agentId request;
             status := req_to request; since := toISOString now;
             previousStatus := Some (status current);
             availableAt := toISOString <$> req_availableAt request;
             noAnswerCount := noAnswerCountOf (req_noAnswerCount request) (noAnswerCount current);
             entry_callId := if call_state (req_to request) then Some (req_callId request) else None;
             entry_legId := req_legId request; entry_queueId := Some (req_queueId request);
             entry_reason := req_reason request; source := Some from_engine |}
          (snd <$> stored)
    end.

(** The write of [transition] and what follows it. *)
Definition transition_commit (f : Fault) (b : B) (key : string) (request : AgentTransitionRequest)
    (previous : AgentStatus) (next : AgentStateEntry) (revision : option Z) : B * StoreAnswer :=
  let '(b', w) :=
    kv_write f b (match revision with
                  | None => kv_create b key next
                  | Some r => kv_update b key next r
                  end) in
  (b', match w with
       | Written =>
           {| ans_entry := Some next; ans_counter := count_write;
              ans_event := Some {| evt_orgId := req_orgId request;
                                   evt_queueId := Some (req_queueId request);
                                   evt_agentId := req_agentId request;
                                   evt_status := status next;
                                   evt_previousStatus := Some previous;
                                   evt_reason := req_reason request |} |}
       | Conflict => no_answer count_refusal
       | Failed => no_answer count_failure
       end).

Definition transition (reached : bool) (f : Fault) (b : B) (request : AgentTransitionRequest)
    (now : Z) : B * StoreAnswer :=
  match kvKeyFor_agentState (req_orgId request) (req_agentId request) with
  | Throw _ => (b, no_answer count_none)
  | Ok key =>
      match transition_prepare (readVersioned reached b key) request now with
      | PrepRefused => (b, no_answer count_refusal)
      | PrepUnchanged current =>
          (b, {| ans_entry := Some current; ans_counter := count_none; ans_event := None |})
      | PrepWrite previous next revision =>
          transition_commit f b key request previous next revision
      end
  end.

Definition readState (reached : bool) (b : B) (orgId agentId : string) : VersionedAgentStateRead :=
  match kvKeyFor_agentState orgId agentId with
  | Throw _ => ReadUnavailable
  | Ok key => readVersioned reached b key
  end.

(** [readStates]: agents whose entry cannot be read are absent. *)
Definition readStates (reached : string → bool) (b : B) (orgId : string) (agentIds : list string)
    : gmap string AgentStateEntry :=
  foldl (λ states agentId,
           match readState (reached agentId) b orgId agentId with
           | ReadFound entry _ => <[agentId := entry]> states
           | ReadAbsent | ReadUnavailable => states
           end) ∅ agentIds.

(** ** The control plane's writer

    [apply] of the session service: the live status (or the stored column when
    the bucket has no usable entry), the plan, and a [put]. *)
Definition statusOf (entry : option AgentStateEntry) (stored : string) : AgentStatus :=
  match entry with
  | Some e => status e
  | None =>
      default ABSENT_AGENT_STATUS
        (find_first (λ s, bool_decide (agent_status_name s = stored)) AGENT_STATUSES)
  end.

(** [AgentStatePublisher.read]: an entry filed under another agent's key is
    discarded. *)
Definition publisher_read (reached : bool) (b : B) (orgId agentId : string)
    : option AgentStateEntry :=
  match readState reached b orgId agentId with
  | ReadFound e _ =>
      if bool_decide (entry_orgId e = orgId) && bool_decide (entry_agentId e = agentId)
      then Some e else None
  | ReadAbsent | ReadUnavailable => None
  end.

Definition api_entry (orgId agentId : string) (to from : AgentStatus) (reason : option string)
    (at_ : Z) : AgentStateEntry :=
  {| entry_orgId := orgId; entry_agentId := agentId; status := to; since := toISOString at_;
     previousStatus := Some from; availableAt := None; noAnswerCount := None;
     entry_callId := None; entry_legId := None; entry_queueId := None;
     entry_reason := match reason with
                     | Some r => if String.length r =? 0 then None else Some r
                     | None => None
                     end;
     source := Some from_api |}.

(** [apply] up to the [put]: [None] when it is refused or nothing changes. *)
Definition api_prepare (current : option AgentStateEntry) (column : string)
    (action : AgentSessionAction) (orgId agentId : string) (reason : option string) (at_ : Z)
    : option AgentStateEntry :=
  let from := statusOf current column in
  match planAgentSessionAction action from with
  | PlanApply to =>
      Some (api_entry orgId agentId to from
              (match action with pause => reason | _ => None end) at_)
  | PlanNoOp _ | PlanRefused _ _ => None
  end.
End Store.

(** ** The machine's two writers *)

(** What the two lists promise: every edge either writer may write is an edge
    of the machine, no edge belongs to both, the guards of both writers accept
    exactly their own list, and every plan the console is given is one the
    control plane may write. *)
Definition writers_check : bool :=
  forallb (λ from, forallb (λ to,
    implb (isEngineDrivenTransition from to || isApiDrivenTransition from to)
          (canAgentTransition from to) &&
    negb (isEngineDrivenTransition from to && isApiDrivenTransition from to) &&
    eqb (is_ok (assertEngineAgentTransition from to)) (isEngineDrivenTransition from to) &&
    eqb (is_ok (assertAgentTransition from to)) (isEngineDrivenTransition from to) &&
    eqb (is_ok (assertApiAgentTransition from to)) (isApiDrivenTransition from to))
    AGENT_STATUSES) AGENT_STATUSES &&
  forallb (λ action, forallb (λ from,
    match planAgentSessionAction action from with
    | PlanNoOp to => bool_decide (from = to)
    | PlanApply to => isApiDrivenTransition from to
    | PlanRefused to e =>
        negb (bool_decide (from = to)) && negb (includes (AGENT_SESSION_ACTION_SOURCES action) from)
    end) AGENT_STATUSES) AGENT_SESSION_ACTIONS.

Lemma writers_checked : writers_check = true.
Proof. vm_compute. reflexivity. Qed.

(** An engine write never takes an agent out of a state only a person sets. *)
Lemma engine_edge_source from to :
  assertAgentTransition from to = Ok tt →
  from = available ∨ from = ringing ∨ from = on_call ∨ from = wrap_up.
Proof. destruct from, to; vm_compute; naive_solver. Qed.

(** ** Interleavings of the writers *)
Section System.
Context (dateParse : string → option Z) (toISOString : Z → string).
Context {B : Type} `{KvLaws B AgentStateEntry}.

(** A call of one of the writers between its read and its write. *)
Inductive Pending :=
| PendReserve (key : string) (request : AgentTransitionRequest) (now : Z)
    (next : AgentStateEntry) (revision : Z)
| PendTransition (key : string) (request : AgentTransitionRequest) (now : Z)
    (previous : AgentStatus) (next : AgentStateEntry) (revision : option Z)
| PendApi (key : string) (entry : AgentStateEntry).

Record System := { sys_bucket : B; inflight : gmap nat Pending }.

(** Each [pid] is one call, in any engine instance or in the control plane. *)
Inductive sys_op :=
| OpReserve (pid : nat) (reached : bool) (request : AgentTransitionRequest) (now : Z)
| OpTransition (pid : nat) (reached : bool) (request : AgentTransitionRequest) (now : Z)
| OpApi (pid : nat) (reached : bool) (column : string) (action : AgentSessionAction)
    (orgId agentId : string) (reason : option string) (at_ : Z)
| OpCommit (pid : nat) (f : Fault)
| OpExpire (key : string) (revision : Z).

Definition begin_reserve (b : B) (reached : bool) (request : AgentTransitionRequest) (now : Z)
    : option Pending :=
  match kvKeyFor_agentState (req_orgId request) (req_agentId request) with
  | Throw _ => None
  | Ok key =>
      '(next, revision) ← reserve_prepare dateParse toISOString (readVersioned reached b key) request now;
      Some (PendReserve key request now next revision)
  end.

Definition begin_transition (b : B) (reached : bool) (request : AgentTransitionRequest) (now : Z)
    : option Pending :=
  match kvKeyFor_agentState (req_orgId request) (req_agentId request) with
  | Throw _ => None
  | Ok key =>
      match transition_prepare toISOString (readVersioned reached b key) request now with
      | PrepWrite previous next revision => Some (PendTransition key request now previous next revision)
      | PrepRefused | PrepUnchanged _ => None
      end
  end.

Definition begin_api (b : B) (reached : bool) (column : string) (action : AgentSessionAction)
    (orgId agentId : string) (reason : option string) (at_ : Z) : option Pending :=
  match kvKeyFor_agentState orgId agentId with
  | Throw _ => None
  | Ok key =>
      PendApi key <$> api_prepare toISOString (publisher_read reached b orgId agentId) column action
                        orgId agentId reason at_
  end.

Definition begin (s : System) (pid : nat) (p : option Pending) : System :=
  match inflight s !! pid, p with
  | None, Some p => {| sys_bucket := sys_bucket s; inflight := <[pid := p]> (inflight s) |}
  | _, _ => s
  end.

Definition commit (f : Fault) (b : B) (p : Pending) : B * StoreAnswer :=
  match p with
  | PendReserve key request _ next revision => reserve_commit f b key request next revision
  | PendTransition key request _ previous next revision =>
      transition_commit f b key request previous next revision
  | PendApi key entry =>
      let '(b', w) := kv_write f b (Some (kv_put b key entry)) in
      (b', match w with
           | Written => {| ans_entry := Some entry; ans_counter := count_write; ans_event := None |}
           | _ => no_answer count_failure
           end)
  end.

Definition sys_step (s : System) (op : sys_op) : System * StoreAnswer :=
  match op with
  | OpReserve pid reached request now =>
      (begin s pid (begin_reserve (sys_bucket s) reached request now), no_answer count_none)
  | OpTransition pid reached request now =>
      (begin s pid (begin_transition (sys_bucket s) reached request now), no_answer count_none)
  | OpApi pid reached column action orgId agentId reason at_ =>
      (begin s pid (begin_api (sys_bucket s) reached column action orgId agentId reason at_),
       no_answer count_none)
  | OpCommit pid f =>
      match inflight s !! pid with
      | None => (s, no_answer count_none)
      | Some p =>
          let '(b', ans) := commit f (sys_bucket s) p in
          ({| sys_bucket := b'; inflight := delete pid (inflight s) |}, ans)
      end
  | OpExpire key revision =>
      ({| sys_bucket := default (sys_bucket s) (kv_delete (sys_bucket s) key revision);
          inflight := inflight s |}, no_answer count_none)
  end.

Definition sys_run (s : System) (ops : list sys_op) : System :=
  foldl (λ s op, (sys_step s op).1) s ops.

(** A pending engine write was prepared from the value its revision names. *)
Definition pending_ok (b : B) (p : Pending) : Prop :=
  match p with
  | PendReserve key request now next revision =>
      kvKeyFor_agentState (req_orgId request) (req_agentId request) = Ok key ∧
      (revision <= kv_seq b)%Z ∧
      ∃ v, reserve_prepare dateParse toISOString (ReadFound v revision) request now =
             Some (next, revision) ∧
           ∀ w, kv_get b key = Some (w, revision) → w = Parsed v
  | PendTransition key request now previous next revision =>
      kvKeyFor_agentState (req_orgId request) (req_agentId request) = Ok key ∧
      ∃ v r, revision = Some r ∧ (r <= kv_seq b)%Z ∧
             transition_prepare toISOString (ReadFound v r) request now =
               PrepWrite previous next (Some r) ∧
             ∀ w, kv_get b key = Some (w, r) → w = Parsed v
  | PendApi _ _ => True
  end.

Definition sys_inv (s : System) : Prop := map_Forall (λ _ p, pending_ok (sys_bucket s) p) (inflight s).

(** Any write moves the sequence past every revision in use. *)
Definition bucket_step (b b' : B) : Prop :=
  b' = b ∨
  ∃ k, (kv_seq b < kv_seq b')%Z ∧ (∀ w r, kv_get b' k = Some (w, r) → r = kv_seq b') ∧
       ∀ k', k' ≠ k → kv_get b' k' = kv_get b k'.

Lemma bucket_step_seq b b' : bucket_step b b' → (kv_seq b <= kv_seq b')%Z.
Proof. intros [->|(k & ? & _)]; lia. Qed.

Lemma bucket_step_get b b' k w r :
  bucket_step b b' → (r <= kv_seq b)%Z → kv_get b' k = Some (w, r) → kv_get b k = Some (w, r).
Proof.
  intros [->|(k0 & Hseq & Hk & Hf)] Hr Hg; [done|].
  destruct (decide (k = k0)) as [->|Hne]; [|by rewrite <- Hf].
  apply Hk in Hg. lia.
Qed.

Lemma put_bucket_step b k v : bucket_step b (kv_put b k v).
Proof.
  destruct (kv_put_writes b k v) as (Hs & Hg & Hf). right. exists k.
  split_and!; [done|congruence|done].
Qed.

Lemma create_bucket_step b k v b' : kv_create b k v = Some b' → bucket_step b b'.
Proof.
  intros Hw. destruct (kv_create_writes _ _ _ _ Hw) as (Hs & Hg & Hf). right. exists k.
  split_and!; [done|congruence|done].
Qed.

Lemma update_bucket_step b k v r b' : kv_update b k v r = Some b' → bucket_step b b'.
Proof.
  intros Hw. destruct (kv_update_writes _ _ _ _ _ Hw) as (Hs & Hg & Hf). right. exists k.
  split_and!; [done|congruence|done].
Qed.

Lemma delete_bucket_step b k r b' : kv_delete b k r = Some b' → bucket_step b b'.
Proof.
  intros Hw. destruct (kv_delete_writes _ _ _ _ Hw) as (Hs & Hg & Hf). right. exists k.
  split_and!; [done|congruence|done].
Qed.

Hint Resolve put_bucket_step create_bucket_step update_bucket_step delete_bucket_step : voice.

Lemma commit_bucket_step f b p b' ans : commit f b p = (b', ans) → bucket_step b b'.
Proof.
  destruct p as [key req now next r|key req now prev next [r|]|key e]; simpl;
    unfold reserve_commit, transition_commit;
    match goal with |- context [kv_write f b ?op] => destruct (kv_write f b op) as [b0 w] eqn:Hw end;
    intros [= <- _]; apply kv_write_spec in Hw as [->|Hw]; simplify_eq; eauto with voice; by left.
Qed.

Lemma pending_ok_step b b' p : bucket_step b b' → pending_ok b p → pending_ok b' p.
Proof.
  intros Hb. pose proof (bucket_step_seq _ _ Hb) as Hs. destruct p; simpl; [| |done].
  - intros (Hk & Hr & v & Hp & Hv). split_and!; [done|lia|]. exists v. split; [done|].
    intros w Hg. eapply Hv, bucket_step_get; eauto.
  - intros (Hk & v & r & -> & Hr & Hp & Hv). split; [done|]. exists v, r.
    split_and!; [done|lia|done|]. intros w Hg. eapply Hv, bucket_step_get; eauto.
Qed.

Lemma sys_inv_step b fl b' :
  bucket_step b b' → sys_inv {| sys_bucket := b; inflight := fl |} →
  sys_inv {| sys_bucket := b'; inflight := fl |}.
Proof.
  intros Hb Hi. eapply map_Forall_impl; [exact Hi|]. intros pid p Hp. simpl in *.
  by eapply pending_ok_step.
Qed.

(** The engine never creates an entry: with nothing to read the agent counts as
    logged out, and no engine edge leaves that state. *)
Lemma transition_prepare_found read request now previous next revision :
  transition_prepare toISOString read request now = PrepWrite previous next revision →
  ∃ v r, read = ReadFound v r ∧ revision = Some r.
Proof.
  unfold transition_prepare. destruct read as [v r| |]; simpl.
  1: { intros Hp. exists v, r. split; [done|]. by js_cases. }
  all: by destruct (req_to request).
Qed.

Lemma readVersioned_Found reached (b : B) key v r :
  readVersioned reached b key = ReadFound v r → kv_get b key = Some (Parsed v, r).
Proof. unfold readVersioned. intros Hr. by js_cases. Qed.

Lemma readVersioned_at (b : B) key v r :
  kv_get b key = Some (Parsed v, r) → readVersioned true b key = ReadFound v r.
Proof. unfold readVersioned. intros Hg. simpl. by rewrite Hg. Qed.

Lemma begin_reserve_ok b reached request now p :
  begin_reserve b reached request now = Some p → pending_ok b p.
Proof.
  unfold begin_reserve. destruct (kvKeyFor_agentState _ _) as [key|] eqn:Hk; [|done].
  destruct (reserve_prepare _ _ _ _ _) as [[next rev]|] eqn:Hp; simpl; [|done]. intros [= <-]. simpl.
  destruct (readVersioned reached b key) as [v r| |] eqn:Hr; [|done|done].
  apply readVersioned_Found in Hr.
  assert (rev = r) as ->. { unfold reserve_prepare in Hp. by js_cases. }
  split_and!; [done|by eapply kv_get_seq|]. exists v. split; [done|]. intros w Hw. by simplify_eq.
Qed.

Lemma begin_transition_ok b reached request now p :
  begin_transition b reached request now = Some p → pending_ok b p.
Proof.
  unfold begin_transition. destruct (kvKeyFor_agentState _ _) as [key|] eqn:Hk; [|done].
  destruct (transition_prepare _ _ _ _) as [| |prev next rev] eqn:Hp; [done|done|]. intros [= <-].
  destruct (transition_prepare_found _ _ _ _ _ _ Hp) as (v & r & Hr & ->). rewrite Hr in Hp.
  apply readVersioned_Found in Hr. split; [done|]. exists v, r.
  split_and!; [done|by eapply kv_get_seq|done|]. intros w Hw. by simplify_eq.
Qed.

Lemma begin_inv s pid p :
  sys_inv s → (∀ q, p = Some q → pending_ok (sys_bucket s) q) → sys_inv (begin s pid p).
Proof.
  intros Hi Hp. unfold begin. destruct (inflight s !! pid), p as [q|]; try done.
  apply map_Forall_insert_2; [by apply Hp|]. exact Hi.
Qed.

Lemma sys_step_inv s op : sys_inv s → sys_inv (sys_step s op).1.
Proof.
  intros Hi. destruct op as [pid reached req now|pid reached req now
    |pid reached column action org agent reason at_|pid f|key r]; simpl.
  - apply begin_inv; [done|]. intros q. apply begin_reserve_ok.
  - apply begin_inv; [done|]. intros q. apply begin_transition_ok.
  - apply begin_inv; [done|]. intros q. unfold begin_api.
    destruct (kvKeyFor_agentState _ _); [|done].
    destruct (api_prepare _ _ _ _ _ _ _ _); simpl; [|done]. by intros [= <-].
  - destruct (inflight s !! pid) as [p|] eqn:Hp; [|done].
    destruct (commit f (sys_bucket s) p) as [b' ans] eqn:Hc. simpl.
    eapply sys_inv_step; [by eapply commit_bucket_step|]. apply map_Forall_delete. exact Hi.
  - destruct (kv_delete (sys_bucket s) key r) as [b'|] eqn:Hd; simpl.
    + eapply sys_inv_step; [by eapply delete_bucket_step|]. by destruct s.
    + by destruct s.
Qed.

Lemma sys_run_inv s ops : inflight s = ∅ → sys_inv (sys_run s ops).
Proof.
  intros He. assert (sys_inv s) as Hi. { unfold sys_inv. rewrite He. apply map_Forall_empty. }
  clear He. revert s Hi. induction ops as [|op ops IH]; intros s Hi; simpl; [done|].
  apply IH. by apply sys_step_inv.
Qed.

(** A quoted revision that still holds names the value the write was prepared
    from. *)
Lemma pending_reserve_current b key request now next revision b' :
  pending_ok b (PendReserve key request now next revision) →
  kv_update b key next revision = Some b' →
  ∃ v, kv_get b key = Some (Parsed v, revision) ∧
       reserve_prepare dateParse toISOString (ReadFound v revision) request now =
         Some (next, revision).
Proof.
  intros (_ & _ & v & Hp & Hv) Hu. destruct (proj1 (kv_update_at b key next revision)) as [w Hw]; [eauto|].
  exists v. by rewrite Hw, (Hv w Hw).
Qed.

Lemma pending_transition_current b key request now previous next revision b' :
  pending_ok b (PendTransition key request now previous next revision) →
  match revision with None => kv_create b key next | Some r => kv_update b key next r end = Some b' →
  ∃ v r, revision = Some r ∧ kv_get b key = Some (Parsed v, r) ∧
       transition_prepare toISOString (ReadFound v r) request now =
         PrepWrite previous next (Some r).
Proof.
  intros (_ & v & r & -> & _ & Hp & Hv) Hu.
  destruct (proj1 (kv_update_at b key next r)) as [w Hw]; [eauto|].
  exists v, r. by rewrite Hw, (Hv w Hw).
Qed.

Lemma reserve_commit_lost f b key request next revision :
  kv_update b key next revision = None →
  ∃ c, reserve_commit f b key request next revision = (b, no_answer c).
Proof. intros Hu. unfold reserve_commit. rewrite Hu. destruct f; simpl; eauto. Qed.

Lemma transition_commit_lost f b key request previous next r :
  kv_update b key next r = None →
  ∃ c, transition_commit f b key request previous next (Some r) = (b, no_answer c).
Proof. intros Hu. unfold transition_commit. rewrite Hu. destruct f; simpl; eauto. Qed.

(** C22. Reading, guarding and writing are one step: in every interleaving of
    engine instances, shift actions of the control plane, expiries, lost requests
    and lost answers, a write of the engine's that reaches the bucket does exactly
    what the whole operation would do if it ran alone at that instant; a write
    whose entry has changed since it was read changes nothing and answers
    nothing. *)
Theorem agent_writes_atomic (s0 : System) (ops : list sys_op) (pid : nat) (f : Fault)
    (p : Pending) :
  inflight s0 = ∅ →
  let s := sys_run s0 ops in
  inflight s !! pid = Some p →
  let s' := (sys_step s (OpCommit pid f)).1 in
  let ans := (sys_step s (OpCommit pid f)).2 in
  match p with
  | PendReserve _ request now _ _ =>
      (sys_bucket s' = sys_bucket s ∧ ans_entry ans = None ∧ ans_event ans = None) ∨
      reserve dateParse toISOString true f (sys_bucket s) request now = (sys_bucket s', ans)
  | PendTransition _ request now _ _ _ =>
      (sys_bucket s' = sys_bucket s ∧ ans_entry ans = None ∧ ans_event ans = None) ∨
      transition toISOString true f (sys_bucket s) request now = (sys_bucket s', ans)
  | PendApi _ _ => True
  end.
Proof.
  intros He s Hp. pose proof (sys_run_inv s0 ops He) as Hi. fold s in Hi.
  pose proof (Hi pid p Hp) as Hok. simpl. rewrite Hp.
  destruct p as [key req now next r|key req now prev next r|key e]; simpl in Hok |- *; [| |done].
  - destruct (kv_update (sys_bucket s) key next r) as [b'|] eqn:Hu.
    + right. destruct (pending_reserve_current _ _ _ _ _ _ _ Hok Hu) as (v & Hg & Hprep).
      destruct Hok as [Hk _]. unfold reserve. rewrite Hk, (readVersioned_at _ _ _ _ Hg), Hprep.
      by destruct (reserve_commit _ _ _ _ _ _).
    + left. destruct (reserve_commit_lost f _ _ req _ _ Hu) as [c ->]. done.
  - destruct Hok as (Hk & v0 & r0 & -> & Hr & Hprep0 & Hv).
    destruct (kv_update (sys_bucket s) key next r0) as [b'|] eqn:Hu.
    + right. destruct (pending_transition_current (sys_bucket s) key req now prev next (Some r0) b')
        as (v & r & [= <-] & Hg & Hprep); [split; eauto 10|done|].
      unfold transition. rewrite Hk, (readVersioned_at _ _ _ _ Hg), Hprep.
      by destruct (transition_commit _ _ _ _ _ _ _).
    + left. destruct (transition_commit_lost f _ _ req prev _ _ Hu) as [c ->]. done.
Qed.

(** An agent the switch has given to call [c]. *)
Definition owned (e : AgentStateEntry) (c : string) : Prop :=
  (status e = ringing ∨ status e = on_call) ∧ entry_callId e = Some c.

Lemma owned_not_eligible e c now :
  owned e c → isEligibleForDistribution dateParse (Some e) now = false.
Proof. intros [[Hs|Hs] _]; simpl; by rewrite Hs. Qed.

Lemma owned_transition e c r request now previous next revision :
  owned e c →
  transition_prepare toISOString (ReadFound e r) request now = PrepWrite previous next revision →
  req_callId request = c ∧ assertAgentTransition (status e) (status next) = Ok tt.
Proof.
  intros [Hs Hc] Hp. unfold transition_prepare in Hp. simpl in Hp. rewrite Hc in Hp.
  assert (call_state (status e) = true) as Hcs by (destruct Hs as [-> | ->]; done).
  rewrite Hcs in Hp. simpl in Hp.
  destruct (bool_decide (Some c = Some (req_callId request))) eqn:Hb; [|done]. bool_simpl.
  simpl in Hp. destruct (bool_decide (status e = req_to request)); [done|].
  destruct (assertAgentTransition (status e) (req_to request)) as [[]|] eqn:Ha; [|done].
  injection Hp as <- <- <-. simpl. by simplify_eq.
Qed.

(** C23. One call per agent: in every interleaving, once an agent is ringing for
    or talking to one call, the only writes that change the entry are transitions
    requested by that very call, along an edge the engine may write, a shift
    action of the control plane, and the entry's expiry; in particular no other
    caller can reserve the agent. *)
Theorem agent_owned_by_one_call (s0 : System) (ops : list sys_op) (op : sys_op) (key c : string)
    (e : AgentStateEntry) (r : Z) :
  inflight s0 = ∅ →
  let s := sys_run s0 ops in
  kv_get (sys_bucket s) key = Some (Parsed e, r) → owned e c →
  kv_get (sys_bucket (sys_step s op).1) key = kv_get (sys_bucket s) key ∨
  (∃ pid f request now previous next revision,
     op = OpCommit pid f ∧
     inflight s !! pid = Some (PendTransition key request now previous next revision) ∧
     req_callId request = c ∧ assertAgentTransition (status e) (status next) = Ok tt) ∨
  (∃ pid f entry, op = OpCommit pid f ∧ inflight s !! pid = Some (PendApi key entry)) ∨
  (∃ revision, op = OpExpire key revision).
Proof.
  intros He s Hg Ho. pose proof (sys_run_inv s0 ops He) as Hi. fold s in Hi.
  assert (∀ pid q, sys_bucket (begin s pid q) = sys_bucket s) as Hbegin.
  { intros pid q. unfold begin. by destruct (inflight s !! pid), q. }
  destruct op as [pid reached req now|pid reached req now
    |pid reached column action org agent reason at_|pid f|k rv]; simpl;
    try (left; by rewrite Hbegin).
  - destruct (inflight s !! pid) as [p|] eqn:Hp; [|by left]. pose proof (Hi pid p Hp) as Hok.
    destruct (commit f (sys_bucket s) p) as [b' ans] eqn:Hc. simpl.
    destruct p as [k req now next rv|k req now prev next rv|k e']; simpl in Hc.
    + left. unfold reserve_commit in Hc. destruct (kv_write _ _ _) as [b0 w] eqn:Hw.
      injection Hc as <- _. apply kv_write_spec in Hw as [->|Hu]; [done|].
      destruct (pending_reserve_current _ _ _ _ _ _ _ Hok Hu) as (v & Hgv & Hprep).
      destruct (decide (k = key)) as [->|Hne].
      * exfalso. simplify_eq. unfold reserve_prepare in Hprep.
        by rewrite (owned_not_eligible e c) in Hprep.
      * destruct (kv_update_writes _ _ _ _ _ Hu) as (_ & _ & Hf). auto.
    + unfold transition_commit in Hc. destruct (kv_write _ _ _) as [b0 w] eqn:Hw.
      injection Hc as <- _. apply kv_write_spec in Hw as [->|Hu]; [by left|].
      destruct (pending_transition_current _ _ _ _ _ _ _ _ Hok Hu) as (v & r' & -> & Hgv & Hprep).
      destruct (decide (k = key)) as [->|Hne].
      * right. left. simplify_eq. destruct (owned_transition _ _ _ _ _ _ _ _ Ho Hprep).
        eauto 12.
      * left. destruct (kv_update_writes _ _ _ _ _ Hu) as (_ & _ & Hf). auto.
    + destruct (decide (k = key)) as [->|Hne]; [right; right; left; by eauto|]. left.
      destruct (kv_write _ _ _) as [b0 w] eqn:Hw. injection Hc as <- _.
      apply kv_write_spec in Hw as [->|[= <-]]; [done|].
      destruct (kv_put_writes (sys_bucket s) k e') as (_ & _ & Hf). auto.
  - destruct (decide (k = key)) as [->|Hne]; [right; right; right; by eauto|]. left.
    destruct (kv_delete (sys_bucket s) k rv) as [b'|] eqn:Hd; simpl; [|done].
    destruct (kv_delete_writes _ _ _ _ Hd) as (_ & _ & Hf). auto.
Qed.
End System.

(** ** A run of the three writers *)
Definition demo_entry : AgentStateEntry :=
  {| entry_orgId := "org"; entry_agentId := "a1"; status := available; since := "";
     previousStatus := None; availableAt := None; noAnswerCount := None; entry_callId := None;
     entry_legId := None; entry_queueId := None; entry_reason := None; source := Some from_api |}.

Definition demo_request (to : AgentStatus) (call : string) : AgentTransitionRequest :=
  {| req_orgId := "org"; req_agentId := "a1"; req_to := to; req_queueId := "q";
     req_callId := call; req_legId := None; req_availableAt := None; req_noAnswerCount := None;
     req_reason := None |}.

Definition demo_system : System (B := MapBucket.bucket AgentStateEntry) :=
  {| sys_bucket := kv_put MapBucket.empty_bucket "org.a1" demo_entry; inflight := ∅ |}.

(** Two callers read the available agent; the first to write gets it. *)
Definition demo_race : list sys_op :=
  [OpReserve 0 true (demo_request ringing "call-1") 10;
   OpReserve 1 true (demo_request ringing "call-2") 11;
   OpCommit 0 NoFault].

Definition no_date : string → option Z := λ _, None.
Definition no_iso : Z → string := λ _, "".

Definition demo_ringing (call : string) : AgentStateEntry :=
  {| entry_orgId := "org"; entry_agentId := "a1"; status := ringing; since := "";
     previousStatus := Some available; availableAt := None; noAnswerCount := None;
     entry_callId := Some call; entry_legId := None; entry_queueId := Some "q";
     entry_reason := None; source := Some from_engine |}.

Definition demo_loser : Pending :=
  PendReserve "org.a1" (demo_request ringing "call-2") 11 (demo_ringing "call-2") 1.

Definition demo_mid : System := sys_run no_date no_iso demo_system demo_race.

Lemma demo_mid_inflight : inflight demo_mid !! 1 = Some demo_loser.
Proof. vm_compute. reflexivity. Qed.

Lemma demo_mid_entry : kv_get (sys_bucket demo_mid) "org.a1" = Some (Parsed (demo_ringing "call-1"), 2%Z).
Proof. vm_compute. reflexivity. Qed.

Lemma agent_writes_atomic_witness :
  inflight demo_mid !! 1 = Some demo_loser ∧
  ((sys_bucket (sys_step no_date no_iso demo_mid (OpCommit 1 NoFault)).1 = sys_bucket demo_mid ∧
    ans_entry (sys_step no_date no_iso demo_mid (OpCommit 1 NoFault)).2 = None ∧
    ans_event (sys_step no_date no_iso demo_mid (OpCommit 1 NoFault)).2 = None) ∨
   reserve no_date no_iso true NoFault (sys_bucket demo_mid) (demo_request ringing "call-2") 11 =
   (sys_bucket (sys_step no_date no_iso demo_mid (OpCommit 1 NoFault)).1,
    (sys_step no_date no_iso demo_mid (OpCommit 1 NoFault)).2)).
Proof.
  split; [exact demo_mid_inflight|].
  exact (agent_writes_atomic no_date no_iso demo_system demo_race 1 NoFault demo_loser
           eq_refl demo_mid_inflight).
Defined.

Lemma demo_ringing_owned : owned (demo_ringing "call-1") "call-1".
Proof. split; [left|]; reflexivity. Qed.

Lemma agent_owned_witness :
  kv_get (sys_bucket (sys_step no_date no_iso demo_mid (OpCommit 1 NoFault)).1) "org.a1" =
  kv_get (sys_bucket demo_mid) "org.a1".
Proof.
  destruct (agent_owned_by_one_call no_date no_iso demo_system demo_race (OpCommit 1 NoFault)
              "org.a1" "call-1" _ _ eq_refl demo_mid_entry demo_ringing_owned)
    as [Hs|[(pid & f & req & now & prev & next & rev & Hop & Hp & _)
           |[(pid & f & e & Hop & Hp)|(rev & Hop)]]].
  - exact Hs.
  - injection Hop as <- <-. fold demo_mid in Hp. rewrite demo_mid_inflight in Hp. discriminate Hp.
  - injection Hop as <- <-. fold demo_mid in Hp. rewrite demo_mid_inflight in Hp. discriminate Hp.
  - discriminate Hop.
Defined.

(** The control plane writes with [put], so its guard is not atomic: a pause
    planned while the agent was available lands after the agent took a call, and
    the bucket moves from [on_call] to [on_break], an edge the machine does not
    have. *)
Lemma api_write_not_atomic :
  let s := sys_run no_date no_iso demo_system
             [OpApi 9 true "available" pause "org" "a1" None 5;
              OpReserve 0 true (demo_request ringing "call-1") 10; OpCommit 0 NoFault;
              OpTransition 0 true (demo_request on_call "call-1") 12; OpCommit 0 NoFault] in
  let s' := (sys_step no_date no_iso s (OpCommit 9 NoFault)).1 in
  (∃ e r, kv_get (sys_bucket s) "org.a1" = Some (Parsed e, r) ∧ status e = on_call) ∧
  (∃ e r, kv_get (sys_bucket s') "org.a1" = Some (Parsed e, r) ∧ status e = on_break) ∧
  canAgentTransition on_call on_break = false.
Proof.
  split_and!; [| |reflexivity]; (do 2 eexists; split; [vm_compute; reflexivity|reflexivity]).
Qed.
End Agents.
