(* ===== verification/ChannelState.v ===== *)
(** * The channel state machine

    [packages/telephony/src/channel-state.ts]: the engine-internal lifecycle of
    one call leg. *)

From S2P Require Import Prelude Machines.

Inductive ChannelState : Set :=
| created | initializing | routing | executing | exchanging_media | parked
| consuming_media | soft_executing | hibernating | hangup | reporting | destroyed.

#[global] Instance ChannelState_eq_dec : EqDecision ChannelState.
Proof. solve_decision. Defined.

(** The wire spelling of a state. *)
Definition channel_state_name (s : ChannelState) : string :=
  match s with
  | created => "created"
  | initializing => "initializing"
  | routing => "routing"
  | executing => "executing"
  | exchanging_media => "exchanging-media"
  | parked => "parked"
  | consuming_media => "consuming-media"
  | soft_executing => "soft-executing"
  | hibernating => "hibernating"
  | hangup => "hangup"
  | reporting => "reporting"
  | destroyed => "destroyed"
  end.

Definition CHANNEL_STATES : list ChannelState :=
  [created; initializing; routing; executing; exchanging_media; parked;
   consuming_media; soft_executing; hibernating; hangup; reporting; destroyed].

Definition INITIAL_CHANNEL_STATE : ChannelState := created.

Definition CHANNEL_TEARDOWN_STATES : list ChannelState := [hangup; reporting; destroyed].

Definition VALID_CHANNEL_TRANSITIONS (s : ChannelState) : list ChannelState :=
  match s with
  | created => [initializing; hangup]
  | initializing => [routing; executing; parked; consuming_media; hibernating; hangup]
  | routing =>
      [executing; exchanging_media; parked; consuming_media; soft_executing; hibernating; hangup]
  | executing =>
      [routing; exchanging_media; parked; consuming_media; soft_executing; hibernating; hangup]
  | exchanging_media =>
      [routing; executing; parked; consuming_media; soft_executing; hibernating; hangup]
  | parked => [routing; executing; exchanging_media; consuming_media; hibernating; hangup]
  | consuming_media =>
      [routing; executing; exchanging_media; parked; soft_executing; hibernating; hangup]
  | soft_executing =>
      [routing; executing; exchanging_media; parked; consuming_media; hibernating; hangup]
  | hibernating =>
      [routing; executing; exchanging_media; parked; consuming_media; soft_executing; hangup]
  | hangup => [reporting]
  | reporting => [destroyed]
  | destroyed => []
  end.

#[global] Instance channel_machine : Machine ChannelState := {
  machine_states := CHANNEL_STATES;
  machine_initial := INITIAL_CHANNEL_STATE;
  machine_next := VALID_CHANNEL_TRANSITIONS }.

Definition isChannelState (value : string) : bool :=
  includes (channel_state_name <$> CHANNEL_STATES) value.

Definition channelTransitionsFrom (state : ChannelState) : list ChannelState :=
  VALID_CHANNEL_TRANSITIONS state.

Definition isValidChannelTransition (from to : ChannelState) : bool :=
  includes (VALID_CHANNEL_TRANSITIONS from) to.

(** Throws [InvalidChannelTransitionError(from, to)]. *)
Definition assertChannelTransition (from to : ChannelState)
    : result (ChannelState * ChannelState) unit :=
  if negb (isValidChannelTransition from to) then Throw (from, to) else Ok tt.

Definition isTerminalChannelState (state : ChannelState) : bool :=
  length (VALID_CHANNEL_TRANSITIONS state) =? 0.

Definition isTeardownChannelState (state : ChannelState) : bool :=
  includes CHANNEL_TEARDOWN_STATES state.

Definition isLiveChannelState (state : ChannelState) : bool :=
  negb (includes CHANNEL_TEARDOWN_STATES state).

#[global] Instance channel_laws : MachineLaws ChannelState.
Proof. solve_machine. Qed.

(** A leg can always be torn down: every live state has the edge to [hangup]. *)
Lemma channel_live_can_hangup s :
  isLiveChannelState s = true → isValidChannelTransition s hangup = true.
Proof. by destruct s. Qed.

Lemma channel_teardown_closed : closed_under isTeardownChannelState = true.
Proof. reflexivity. Qed.

(** The tail a teardown state still has to go through. *)
Lemma channel_teardown_run s ts :
  isTeardownChannelState s = true → is_ok (run s ts) = true →
  match s with
  | hangup => ts `prefix_of` [reporting; destroyed]
  | reporting => ts `prefix_of` [destroyed]
  | _ => ts = []
  end.
Proof.
  intros Hs Hr. destruct s; try done.
  all: repeat (destruct ts as [|[] ts]; simplify_eq/=; try done;
    try (eexists; reflexivity)).
Qed.

(** A run that stays live up to a state, or goes through the whole tail. *)
Lemma channel_run_split s ts u :
  isLiveChannelState s = true → run s ts = Ok u →
  (Forall (λ x, isLiveChannelState x = true) ts) ∨
  ∃ live tail, ts = live ++ hangup :: tail ∧
    Forall (λ x, isLiveChannelState x = true) live ∧
    tail `prefix_of` [reporting; destroyed].
Proof.
  revert s. induction ts as [|t ts IH]; intros s Hs Hr; simpl in Hr; [by left|].
  destruct (includes _ t) eqn:E; [|done].
  destruct (isLiveChannelState t) eqn:Ht.
  - destruct (IH t Ht Hr) as [Hall|(live & tail & -> & Hl & Htail)].
    + left. by constructor.
    + right. exists (t :: live), tail. split_and!; auto.
  - right. assert (t = hangup) as ->.
    { unfold isLiveChannelState in Hs. bool_simpl.
      destruct s, t; simpl in *; try done; set_solver. }
    exists [], ts. split_and!; auto.
    apply (channel_teardown_run hangup); [done|]. by rewrite Hr.
Qed.

(** Teardown is one-way and ordered. Whatever sequence of guarded moves a
    leg makes from [created], the moves stay in live states until [hangup] and
    then follow the fixed tail [reporting], [destroyed]: a leg ends [destroyed]
    exactly when its moves are live moves followed by the whole tail. *)
Theorem channel_destroyed_iff_full_teardown (ts : list ChannelState) :
  is_ok (run INITIAL_CHANNEL_STATE ts) = true →
  (run INITIAL_CHANNEL_STATE ts = Ok destroyed ↔
   ∃ live, ts = live ++ [hangup; reporting; destroyed] ∧
           Forall (λ x, isLiveChannelState x = true) live).
Proof.
  destruct (run _ ts) as [u|] eqn:Hr; [|done]. intros _.
  assert (u = default created (last ts)) as Hu by (by apply run_last).
  destruct (channel_run_split created ts u eq_refl Hr) as [Hall|(live & tail & -> & Hl & Ht)].
  - split.
    + intros [= ->]. destruct ts as [|x ts _] using rev_ind; [done|].
      rewrite last_snoc in Hu. simpl in Hu. subst x.
      apply Forall_app in Hall as [_ Hx]. rewrite Forall_singleton in Hx. done.
    + intros (live & -> & _). rewrite last_app in Hu. simpl in Hu. by subst.
  - split.
    + intros [= ->]. exists live. split; [|done].
      destruct Ht as [k Hk].
      destruct tail as [|a [|b [|]]]; simpl in *;
        rewrite ?last_app in Hu; simplify_eq/=; done.
    + intros (live' & Heq & _). rewrite Heq, last_app in Hu. simpl in Hu. by subst.
Qed.

Lemma channel_destroyed_witness :
  is_ok (run INITIAL_CHANNEL_STATE [initializing; hangup; reporting; destroyed]) = true ∧
  (run INITIAL_CHANNEL_STATE [initializing; hangup; reporting; destroyed] = Ok destroyed ↔
   ∃ live, [initializing; hangup; reporting; destroyed] = live ++ [hangup; reporting; destroyed] ∧
           Forall (λ x, isLiveChannelState x = true) live).
Proof.
  split; [reflexivity|].
  apply (channel_destroyed_iff_full_teardown [initializing; hangup; reporting; destroyed]).
  reflexivity.
Defined.
