(* ===== verification/CallState.v ===== *)
(** * User-visible call states and device-state aggregation

    [packages/telephony/src/call-state.ts]: what a busy-lamp subscriber sees. *)

From S2P Require Import Prelude Machines.

Module CallState.
Inductive CallState : Set :=
| down | dialing | ring_wait | ringing | early | active | held | unheld | hangup.

#[global] Instance CallState_eq_dec : EqDecision CallState.
Proof. solve_decision. Defined.

Inductive DeviceState : Set :=
| dev_down | dev_ringing | dev_active | dev_active_multi | dev_held | dev_unheld | dev_hangup.

#[global] Instance DeviceState_eq_dec : EqDecision DeviceState.
Proof. solve_decision. Defined.

Definition call_state_name (s : CallState) : string :=
  match s with
  | down => "down"
  | dialing => "dialing"
  | ring_wait => "ring-wait"
  | ringing => "ringing"
  | early => "early"
  | active => "active"
  | held => "held"
  | unheld => "unheld"
  | hangup => "hangup"
  end.

Definition device_state_name (s : DeviceState) : string :=
  match s with
  | dev_down => "down"
  | dev_ringing => "ringing"
  | dev_active => "active"
  | dev_active_multi => "active-multi"
  | dev_held => "held"
  | dev_unheld => "unheld"
  | dev_hangup => "hangup"
  end.

Definition CALL_STATES : list CallState :=
  [down; dialing; ring_wait; ringing; early; active; held; unheld; hangup].

Definition INITIAL_CALL_STATE : CallState := down.

Definition VALID_CALL_STATE_TRANSITIONS (s : CallState) : list CallState :=
  match s with
  | down => [dialing; ring_wait; ringing; early; active; hangup]
  | dialing => [ring_wait; ringing; early; active; hangup]
  | ring_wait => [ringing; early; active; hangup]
  | ringing => [early; active; hangup]
  | early => [ringing; active; hangup]
  | active => [held; hangup]
  | held => [unheld; hangup]
  | unheld => [active; held; hangup]
  | hangup => []
  end.

Definition DEVICE_STATES : list DeviceState :=
  [dev_down; dev_ringing; dev_active; dev_active_multi; dev_held; dev_unheld; dev_hangup].

Definition ALERTING_CALL_STATES : list CallState := [dialing; ring_wait; ringing; early].

Definition ON_CALL_CALL_STATES : list CallState := [active; unheld].

#[global] Instance call_machine : Machine CallState := {
  machine_states := CALL_STATES;
  machine_initial := INITIAL_CALL_STATE;
  machine_next := VALID_CALL_STATE_TRANSITIONS }.

Definition isCallState (value : string) : bool := includes (call_state_name <$> CALL_STATES) value.

Definition isDeviceState (value : string) : bool :=
  includes (device_state_name <$> DEVICE_STATES) value.

Definition callStateTransitionsFrom (state : CallState) : list CallState :=
  VALID_CALL_STATE_TRANSITIONS state.

Definition isValidCallStateTransition (from to : CallState) : bool :=
  includes (VALID_CALL_STATE_TRANSITIONS from) to.

(** Throws [InvalidCallStateTransitionError(from, to)]. *)
Definition assertCallStateTransition (from to : CallState)
    : result (CallState * CallState) unit :=
  if negb (isValidCallStateTransition from to) then Throw (from, to) else Ok tt.

Definition isTerminalCallState (state : CallState) : bool :=
  length (VALID_CALL_STATE_TRANSITIONS state) =? 0.

Definition isAnsweredCallState (state : CallState) : bool :=
  includes ON_CALL_CALL_STATES state || bool_decide (state = held).

Definition isAlertingCallState (state : CallState) : bool :=
  includes ALERTING_CALL_STATES state.

(** The five counters of the aggregation loop. *)
Record Tally := { alerting : nat; onCall : nat; resuming : nat; heldCount : nat; hungUp : nat }.

Definition tally_zero : Tally :=
  {| alerting := 0; onCall := 0; resuming := 0; heldCount := 0; hungUp := 0 |}.

(** One iteration of the loop, branch by branch. *)
Definition tally_step (t : Tally) (state : CallState) : Tally :=
  if bool_decide (state = hangup) then
    {| alerting := alerting t; onCall := onCall t; resuming := resuming t;
       heldCount := heldCount t; hungUp := hungUp t + 1 |}
  else if bool_decide (state = held) then
    {| alerting := alerting t; onCall := onCall t; resuming := resuming t;
       heldCount := heldCount t + 1; hungUp := hungUp t |}
  else if bool_decide (state = unheld) then
    {| alerting := alerting t; onCall := onCall t + 1; resuming := resuming t + 1;
       heldCount := heldCount t; hungUp := hungUp t |}
  else if bool_decide (state = active) then
    {| alerting := alerting t; onCall := onCall t + 1; resuming := resuming t;
       heldCount := heldCount t; hungUp := hungUp t |}
  else if includes ALERTING_CALL_STATES state then
    {| alerting := alerting t + 1; onCall := onCall t; resuming := resuming t;
       heldCount := heldCount t; hungUp := hungUp t |}
  else t.

Definition aggregateDeviceState (callStates : list CallState) : DeviceState :=
  if length callStates =? 0 then dev_down
  else
    let t := foldl tally_step tally_zero callStates in
    if hungUp t =? length callStates then dev_hangup
    else if 1 <? onCall t then dev_active_multi
    else if onCall t =? 1 then (if resuming t =? 1 then dev_unheld else dev_active)
    else if 0 <? heldCount t then dev_held
    else if 0 <? alerting t then dev_ringing
    else dev_down.

#[global] Instance call_laws : MachineLaws CallState.
Proof. solve_machine. Qed.

(** How many channels satisfy a test, the specification's view of a counter. *)
Definition count (p : CallState → bool) (l : list CallState) : nat := length (filter p l).

Definition answered_not_held (s : CallState) : bool := includes ON_CALL_CALL_STATES s.

Definition is_state (x s : CallState) : bool := bool_decide (s = x).

Lemma count_cons p x l : count p (x :: l) = (if p x then 1 else 0) + count p l.
Proof. unfold count. rewrite filter_cons. by destruct (p x). Qed.

Lemma count_Permutation p l1 l2 : l1 ≡ₚ l2 → count p l1 = count p l2.
Proof. unfold count. intros Hp. by rewrite Hp. Qed.

Lemma count_zero p l : count p l = 0 ↔ Forall (λ s, p s = false) l.
Proof.
  induction l as [|x l IH]; [done|]. rewrite count_cons, Forall_cons, <- IH.
  destruct (p x); naive_solver lia.
Qed.

Lemma count_pos p l : 0 < count p l ↔ ∃ s, s ∈ l ∧ p s = true.
Proof.
  induction l as [|x l IH].
  - unfold count; simpl. split; [lia|]. intros (s & Hs & _). by apply elem_of_nil in Hs.
  - rewrite count_cons. setoid_rewrite elem_of_cons. destruct (p x) eqn:E; [naive_solver lia|].
    change (0 + count p l) with (count p l). rewrite IH.
    split; intros (s & Hs & Hp); exists s; split; auto.
    destruct Hs as [->|]; [congruence|done].
Qed.

Lemma count_le p l : count p l ≤ length l.
Proof. unfold count. apply length_filter. Qed.

Lemma count_all p l : count p l = length l ↔ Forall (λ s, p s = true) l.
Proof.
  pose proof (count_le p) as Hle.
  induction l as [|x l IH]; [done|]. rewrite count_cons, Forall_cons, <- IH. simpl.
  specialize (Hle l). destruct (p x); naive_solver lia.
Qed.

(** The loop computes the five counts. *)
Lemma tally_counts l t :
  foldl tally_step t l =
  {| alerting := alerting t + count isAlertingCallState l;
     onCall := onCall t + count answered_not_held l;
     resuming := resuming t + count (is_state unheld) l;
     heldCount := heldCount t + count (is_state held) l;
     hungUp := hungUp t + count (is_state hangup) l |}.
Proof.
  revert t. induction l as [|x l IH]; intros t; simpl.
  - destruct t. unfold count. simpl. f_equal; lia.
  - rewrite IH, !count_cons. destruct x; lazy -[count Nat.add]; f_equal; lia.
Qed.

Lemma aggregate_counts l :
  aggregateDeviceState l =
  if length l =? 0 then dev_down
  else if count (is_state hangup) l =? length l then dev_hangup
  else if 1 <? count answered_not_held l then dev_active_multi
  else if count answered_not_held l =? 1 then
    (if count (is_state unheld) l =? 1 then dev_unheld else dev_active)
  else if 0 <? count (is_state held) l then dev_held
  else if 0 <? count isAlertingCallState l then dev_ringing
  else dev_down.
Proof. unfold aggregateDeviceState. by rewrite tally_counts. Qed.

(** The precedence the source documents, rule by rule. *)
Inductive device_spec (l : list CallState) : DeviceState → Prop :=
| spec_no_channel : l = [] → device_spec l dev_down
| spec_hangup : l ≠ [] → Forall (eq hangup) l → device_spec l dev_hangup
| spec_multi : 1 < count answered_not_held l → device_spec l dev_active_multi
| spec_unheld : count answered_not_held l = 1 → unheld ∈ l → device_spec l dev_unheld
| spec_active : count answered_not_held l = 1 → unheld ∉ l → device_spec l dev_active
| spec_held : count answered_not_held l = 0 → held ∈ l → device_spec l dev_held
| spec_ringing : count answered_not_held l = 0 → held ∉ l →
    (∃ s, s ∈ l ∧ isAlertingCallState s = true) → device_spec l dev_ringing
| spec_down : l ≠ [] → Exists (λ s, s ≠ hangup) l →
    Forall (λ s, s = down ∨ s = hangup) l → device_spec l dev_down.

Lemma is_state_elem x l : 0 < count (is_state x) l ↔ x ∈ l.
Proof.
  rewrite count_pos. unfold is_state. setoid_rewrite bool_decide_eq_true. naive_solver.
Qed.

Lemma is_state_absent x l : count (is_state x) l = 0 ↔ x ∉ l.
Proof. rewrite <- is_state_elem. lia. Qed.

Lemma all_hangup l : count (is_state hangup) l = length l ↔ Forall (eq hangup) l.
Proof.
  rewrite count_all. unfold is_state.
  split; intros Hl; (eapply Forall_impl; [exact Hl|]); intros s; simpl.
  - rewrite bool_decide_eq_true. congruence.
  - intros <-. by rewrite bool_decide_eq_true.
Qed.

(** An all-hung-up device has no other count. *)
Lemma hangup_excludes p l :
  p hangup = false → count (is_state hangup) l = length l → count p l = 0.
Proof.
  rewrite all_hangup, count_zero. intros Hp Hl. eapply Forall_impl; [exact Hl|]. by intros ? <-.
Qed.

Lemma resuming_le_onCall l : count (is_state unheld) l ≤ count answered_not_held l.
Proof.
  induction l as [|x l IH]; [done|]. rewrite !count_cons. revert IH. destruct x; lazy -[count Nat.add]; lia.
Qed.

Lemma only_down l :
  count answered_not_held l = 0 → count (is_state held) l = 0 →
  count isAlertingCallState l = 0 → Forall (λ s, s = down ∨ s = hangup) l.
Proof.
  rewrite !count_zero, !Forall_forall. intros H1 H2 H3 s Hs.
  specialize (H1 s Hs). specialize (H2 s Hs). specialize (H3 s Hs).
  destruct s; auto; discriminate.
Qed.

Lemma down_counts l :
  Forall (λ s, s = down ∨ s = hangup) l →
  count answered_not_held l = 0 ∧ count (is_state held) l = 0 ∧ count isAlertingCallState l = 0.
Proof.
  intros Hl. rewrite !count_zero. split_and!; eapply Forall_impl; try exact Hl;
    by intros ? [-> | ->].
Qed.

Lemma some_not_hangup l :
  Exists (λ s, s ≠ hangup) l ↔ count (is_state hangup) l ≠ length l.
Proof.
  rewrite all_hangup. split.
  - rewrite Exists_exists. intros (s & Hs & Hne) Hall. rewrite Forall_forall in Hall.
    by specialize (Hall s Hs).
  - intros Hn. destruct (decide (Exists (λ s, s ≠ hangup) l)) as [|Hne]; [done|].
    destruct Hn. apply Forall_forall. intros s Hs. destruct (decide (s = hangup)); [done|].
    destruct Hne. apply Exists_exists. eauto.
Qed.

(** The arithmetic shared by both directions: the facts about the counts that
    make the tests of the code mutually exclusive. *)
Ltac tally_facts l :=
  pose proof (hangup_excludes answered_not_held l eq_refl);
  pose proof (hangup_excludes (is_state held) l eq_refl);
  pose proof (hangup_excludes isAlertingCallState l eq_refl);
  pose proof (count_le answered_not_held l);
  pose proof (count_le (is_state held) l);
  pose proof (count_le isAlertingCallState l);
  pose proof (resuming_le_onCall l).

Ltac split_tests :=
  repeat match goal with
  | |- device_spec _ (if ?a =? ?b then _ else _) => destruct (Nat.eqb_spec a b)
  | |- device_spec _ (if ?a <? ?b then _ else _) => destruct (Nat.ltb_spec a b)
  | |- (if ?a =? ?b then _ else _) = _ => destruct (Nat.eqb_spec a b)
  | |- (if ?a <? ?b then _ else _) = _ => destruct (Nat.ltb_spec a b)
  end.

Lemma aggregate_meets_spec l : device_spec l (aggregateDeviceState l).
Proof.
  rewrite aggregate_counts.
  tally_facts l. split_tests.
  - apply spec_no_channel. by apply nil_length_inv.
  - apply spec_hangup; [by intros ->|]. by apply all_hangup.
  - by apply spec_multi.
  - apply spec_unheld; [done|]. apply is_state_elem. lia.
  - apply spec_active; [done|]. apply is_state_absent. lia.
  - apply spec_held; [lia|]. by apply is_state_elem.
  - apply spec_ringing; [lia| |by apply count_pos]. apply is_state_absent. lia.
  - apply spec_down; [by intros ->|by apply some_not_hangup|]. apply only_down; lia.
Qed.

Lemma spec_determines l d : device_spec l d → aggregateDeviceState l = d.
Proof.
  rewrite aggregate_counts. tally_facts l.
  destruct 1 as [->|Hne Hall|HA|HA HU|HA HU|HA HH|HA HH HR|Hne Hex Hall]; [done|..].
  all: rewrite <- ?is_state_elem, <- ?is_state_absent, <- ?count_pos, <- ?all_hangup,
         ?some_not_hangup in *.
  all: try (apply down_counts in Hall as (? & ? & ?)).
  all: try (assert (length l ≠ 0) by (by destruct l)).
  all: split_tests; try done; try lia.
Qed.

(** What a busy-lamp key shows is the documented precedence and nothing
    else: [aggregateDeviceState] returns a device state exactly when the rule for
    that state applies to the device's channels, so the seven rules are
    exhaustive, mutually exclusive and read by the code in the stated order. *)
Theorem aggregateDeviceState_spec (l : list CallState) (d : DeviceState) :
  aggregateDeviceState l = d ↔ device_spec l d.
Proof.
  split; [intros <-; apply aggregate_meets_spec|apply spec_determines].
Qed.

(** The lamp never flickers with the order in which channels are listed:
    the aggregate of a device is a function of the multiset of its channels. *)
Theorem aggregateDeviceState_order_irrelevant (l1 l2 : list CallState) :
  l1 ≡ₚ l2 → aggregateDeviceState l1 = aggregateDeviceState l2.
Proof.
  intros Hp. rewrite !aggregate_counts.
  by rewrite !(count_Permutation _ _ _ Hp), !(Permutation_length Hp).
Qed.

Lemma aggregateDeviceState_order_witness :
  [held; active] ≡ₚ [active; held] ∧
  aggregateDeviceState [held; active] = aggregateDeviceState [active; held].
Proof.
  assert ([held; active] ≡ₚ [active; held]) as Hp by apply Permutation_swap.
  split; [exact Hp|]. exact (aggregateDeviceState_order_irrelevant [held; active] [active; held] Hp).
Defined.

(** A call is never held before it was answered: some earlier move was to [active]. *)
Lemma unanswered_closed_until_active s t :
  step s t → t ≠ active →
  (s = down ∨ isAlertingCallState s = true ∨ s = hangup) →
  t = down ∨ isAlertingCallState t = true ∨ t = hangup.
Proof.
  intros Hst Hne Hs.
  destruct s; cbn in Hs; try (exfalso; naive_solver);
    unfold step in Hst; cbn in Hst; rewrite ?elem_of_cons, ?elem_of_nil in Hst;
    destruct_or?; subst; cbn; auto; done.
Qed.

Lemma unanswered_run ts u :
  run down ts = Ok u → active ∉ ts →
  u = down ∨ isAlertingCallState u = true ∨ u = hangup.
Proof.
  revert u. induction ts as [|t ts IH] using rev_ind; intros u Hr Hn; simpl in Hr.
  { simplify_eq. auto. }
  apply run_snoc in Hr as (-> & m & Hm & Hst).
  apply unanswered_closed_until_active in Hst; [done|set_solver|apply IH; set_solver].
Qed.

(** You cannot hold a leg that was never answered: along any sequence of
    guarded moves from [down], reaching an answered state ([active], [held] or
    [unheld]) requires an earlier or equal move to [active]. *)
Theorem answered_only_after_active (ts : list CallState) (u : CallState) :
  run INITIAL_CALL_STATE ts = Ok u → isAnsweredCallState u = true → active ∈ ts.
Proof.
  intros Hr Hu. destruct (decide (active ∈ ts)) as [|Hn]; [done|].
  destruct (unanswered_run ts u Hr Hn) as [->|[Ha| ->]]; [done| |done].
  destruct u; cbn in *; done.
Qed.

Lemma answered_only_after_active_witness :
  run INITIAL_CALL_STATE [ringing; active; held] = Ok held ∧
  isAnsweredCallState held = true ∧ active ∈ [ringing; active; held].
Proof.
  assert (run INITIAL_CALL_STATE [ringing; active; held] = Ok held) as Hr by reflexivity.
  assert (isAnsweredCallState held = true) as Ha by reflexivity.
  split_and!; [exact Hr|exact Ha|].
  exact (answered_only_after_active [ringing; active; held] held Hr Ha).
Defined.
End CallState.
