(* ===== verification/HangupCauses.v ===== *)
(** * Hangup causes

    [packages/telephony/src/hangup-causes.ts]: the Q.850 subset and the
    FreeSWITCH extensions, their codes and the sets the failover rules key off. *)

From S2P Require Import Prelude.

Inductive HangupCause : Set :=
| NONE | UNALLOCATED_NUMBER | NO_ROUTE_TRANSIT_NET | NO_ROUTE_DESTINATION
| CHANNEL_UNACCEPTABLE | CALL_AWARDED_DELIVERED | NORMAL_CLEARING | USER_BUSY
| NO_USER_RESPONSE | NO_ANSWER | SUBSCRIBER_ABSENT | CALL_REJECTED | NUMBER_CHANGED
| REDIRECTION_TO_NEW_DESTINATION | EXCHANGE_ROUTING_ERROR
| DESTINATION_OUT_OF_ORDER | INVALID_NUMBER_FORMAT | FACILITY_REJECTED
| RESPONSE_TO_STATUS_ENQUIRY | NORMAL_UNSPECIFIED | NORMAL_CIRCUIT_CONGESTION
| NETWORK_OUT_OF_ORDER | NORMAL_TEMPORARY_FAILURE | SWITCH_CONGESTION
| ACCESS_INFO_DISCARDED | REQUESTED_CHAN_UNAVAIL | PRE_EMPTED
| FACILITY_NOT_SUBSCRIBED | OUTGOING_CALL_BARRED | INCOMING_CALL_BARRED
| BEARERCAPABILITY_NOTAUTH | BEARERCAPABILITY_NOTAVAIL | SERVICE_UNAVAILABLE
| BEARERCAPABILITY_NOTIMPL | CHAN_NOT_IMPLEMENTED | FACILITY_NOT_IMPLEMENTED
| SERVICE_NOT_IMPLEMENTED | INVALID_CALL_REFERENCE | INCOMPATIBLE_DESTINATION
| INVALID_MSG_UNSPECIFIED | MANDATORY_IE_MISSING | MESSAGE_TYPE_NONEXIST
| WRONG_MESSAGE | IE_NONEXIST | INVALID_IE_CONTENTS | WRONG_CALL_STATE
| RECOVERY_ON_TIMER_EXPIRE | MANDATORY_IE_LENGTH_ERROR | PROTOCOL_ERROR
| INTERWORKING | ORIGINATOR_CANCEL | LOSE_RACE | BLIND_TRANSFER | ATTENDED_TRANSFER
| ALLOTTED_TIMEOUT | USER_CHALLENGE | MEDIA_TIMEOUT | PICKED_OFF
| USER_NOT_REGISTERED | PROGRESS_TIMEOUT | INVALID_GATEWAY | GATEWAY_DOWN
| INVALID_URL | INVALID_PROFILE | NO_PICKUP | SRTP_READ_ERROR.

#[global] Instance HangupCause_eq_dec : EqDecision HangupCause.
Proof. solve_decision. Defined.

Definition Q850_HANGUP_CAUSES : list HangupCause :=
  [NONE; UNALLOCATED_NUMBER; NO_ROUTE_TRANSIT_NET; NO_ROUTE_DESTINATION;
   CHANNEL_UNACCEPTABLE; CALL_AWARDED_DELIVERED; NORMAL_CLEARING; USER_BUSY;
   NO_USER_RESPONSE; NO_ANSWER; SUBSCRIBER_ABSENT; CALL_REJECTED; NUMBER_CHANGED;
   REDIRECTION_TO_NEW_DESTINATION; EXCHANGE_ROUTING_ERROR; DESTINATION_OUT_OF_ORDER;
   INVALID_NUMBER_FORMAT; FACILITY_REJECTED; RESPONSE_TO_STATUS_ENQUIRY;
   NORMAL_UNSPECIFIED; NORMAL_CIRCUIT_CONGESTION; NETWORK_OUT_OF_ORDER;
   NORMAL_TEMPORARY_FAILURE; SWITCH_CONGESTION; ACCESS_INFO_DISCARDED;
   REQUESTED_CHAN_UNAVAIL; PRE_EMPTED; FACILITY_NOT_SUBSCRIBED; OUTGOING_CALL_BARRED;
   INCOMING_CALL_BARRED; BEARERCAPABILITY_NOTAUTH; BEARERCAPABILITY_NOTAVAIL;
   SERVICE_UNAVAILABLE; BEARERCAPABILITY_NOTIMPL; CHAN_NOT_IMPLEMENTED;
   FACILITY_NOT_IMPLEMENTED; SERVICE_NOT_IMPLEMENTED; INVALID_CALL_REFERENCE;
   INCOMPATIBLE_DESTINATION; INVALID_MSG_UNSPECIFIED; MANDATORY_IE_MISSING;
   MESSAGE_TYPE_NONEXIST; WRONG_MESSAGE; IE_NONEXIST; INVALID_IE_CONTENTS;
   WRONG_CALL_STATE; RECOVERY_ON_TIMER_EXPIRE; MANDATORY_IE_LENGTH_ERROR; PROTOCOL_ERROR;
   INTERWORKING].

Definition EXTENDED_HANGUP_CAUSES : list HangupCause :=
  [ORIGINATOR_CANCEL; LOSE_RACE; BLIND_TRANSFER; ATTENDED_TRANSFER; ALLOTTED_TIMEOUT;
   USER_CHALLENGE; MEDIA_TIMEOUT; PICKED_OFF; USER_NOT_REGISTERED; PROGRESS_TIMEOUT;
   INVALID_GATEWAY; GATEWAY_DOWN; INVALID_URL; INVALID_PROFILE; NO_PICKUP; SRTP_READ_ERROR].

Definition HANGUP_CAUSES : list HangupCause := Q850_HANGUP_CAUSES ++ EXTENDED_HANGUP_CAUSES.

(** The name a cause has on the wire and in a record. *)
Definition hangup_cause_name (c : HangupCause) : string :=
  match c with
  | NONE => "NONE"
  | UNALLOCATED_NUMBER => "UNALLOCATED_NUMBER"
  | NO_ROUTE_TRANSIT_NET => "NO_ROUTE_TRANSIT_NET"
  | NO_ROUTE_DESTINATION => "NO_ROUTE_DESTINATION"
  | CHANNEL_UNACCEPTABLE => "CHANNEL_UNACCEPTABLE"
  | CALL_AWARDED_DELIVERED => "CALL_AWARDED_DELIVERED"
  | NORMAL_CLEARING => "NORMAL_CLEARING"
  | USER_BUSY => "USER_BUSY"
  | NO_USER_RESPONSE => "NO_USER_RESPONSE"
  | NO_ANSWER => "NO_ANSWER"
  | SUBSCRIBER_ABSENT => "SUBSCRIBER_ABSENT"
  | CALL_REJECTED => "CALL_REJECTED"
  | NUMBER_CHANGED => "NUMBER_CHANGED"
  | REDIRECTION_TO_NEW_DESTINATION => "REDIRECTION_TO_NEW_DESTINATION"
  | EXCHANGE_ROUTING_ERROR => "EXCHANGE_ROUTING_ERROR"
  | DESTINATION_OUT_OF_ORDER => "DESTINATION_OUT_OF_ORDER"
  | INVALID_NUMBER_FORMAT => "INVALID_NUMBER_FORMAT"
  | FACILITY_REJECTED => "FACILITY_REJECTED"
  | RESPONSE_TO_STATUS_ENQUIRY => "RESPONSE_TO_STATUS_ENQUIRY"
  | NORMAL_UNSPECIFIED => "NORMAL_UNSPECIFIED"
  | NORMAL_CIRCUIT_CONGESTION => "NORMAL_CIRCUIT_CONGESTION"
  | NETWORK_OUT_OF_ORDER => "NETWORK_OUT_OF_ORDER"
  | NORMAL_TEMPORARY_FAILURE => "NORMAL_TEMPORARY_FAILURE"
  | SWITCH_CONGESTION => "SWITCH_CONGESTION"
  | ACCESS_INFO_DISCARDED => "ACCESS_INFO_DISCARDED"
  | REQUESTED_CHAN_UNAVAIL => "REQUESTED_CHAN_UNAVAIL"
  | PRE_EMPTED => "PRE_EMPTED"
  | FACILITY_NOT_SUBSCRIBED => "FACILITY_NOT_SUBSCRIBED"
  | OUTGOING_CALL_BARRED => "OUTGOING_CALL_BARRED"
  | INCOMING_CALL_BARRED => "INCOMING_CALL_BARRED"
  | BEARERCAPABILITY_NOTAUTH => "BEARERCAPABILITY_NOTAUTH"
  | BEARERCAPABILITY_NOTAVAIL => "BEARERCAPABILITY_NOTAVAIL"
  | SERVICE_UNAVAILABLE => "SERVICE_UNAVAILABLE"
  | BEARERCAPABILITY_NOTIMPL => "BEARERCAPABILITY_NOTIMPL"
  | CHAN_NOT_IMPLEMENTED => "CHAN_NOT_IMPLEMENTED"
  | FACILITY_NOT_IMPLEMENTED => "FACILITY_NOT_IMPLEMENTED"
  | SERVICE_NOT_IMPLEMENTED => "SERVICE_NOT_IMPLEMENTED"
  | INVALID_CALL_REFERENCE => "INVALID_CALL_REFERENCE"
  | INCOMPATIBLE_DESTINATION => "INCOMPATIBLE_DESTINATION"
  | INVALID_MSG_UNSPECIFIED => "INVALID_MSG_UNSPECIFIED"
  | MANDATORY_IE_MISSING => "MANDATORY_IE_MISSING"
  | MESSAGE_TYPE_NONEXIST => "MESSAGE_TYPE_NONEXIST"
  | WRONG_MESSAGE => "WRONG_MESSAGE"
  | IE_NONEXIST => "IE_NONEXIST"
  | INVALID_IE_CONTENTS => "INVALID_IE_CONTENTS"
  | WRONG_CALL_STATE => "WRONG_CALL_STATE"
  | RECOVERY_ON_TIMER_EXPIRE => "RECOVERY_ON_TIMER_EXPIRE"
  | MANDATORY_IE_LENGTH_ERROR => "MANDATORY_IE_LENGTH_ERROR"
  | PROTOCOL_ERROR => "PROTOCOL_ERROR"
  | INTERWORKING => "INTERWORKING"
  | ORIGINATOR_CANCEL => "ORIGINATOR_CANCEL"
  | LOSE_RACE => "LOSE_RACE"
  | BLIND_TRANSFER => "BLIND_TRANSFER"
  | ATTENDED_TRANSFER => "ATTENDED_TRANSFER"
  | ALLOTTED_TIMEOUT => "ALLOTTED_TIMEOUT"
  | USER_CHALLENGE => "USER_CHALLENGE"
  | MEDIA_TIMEOUT => "MEDIA_TIMEOUT"
  | PICKED_OFF => "PICKED_OFF"
  | USER_NOT_REGISTERED => "USER_NOT_REGISTERED"
  | PROGRESS_TIMEOUT => "PROGRESS_TIMEOUT"
  | INVALID_GATEWAY => "INVALID_GATEWAY"
  | GATEWAY_DOWN => "GATEWAY_DOWN"
  | INVALID_URL => "INVALID_URL"
  | INVALID_PROFILE => "INVALID_PROFILE"
  | NO_PICKUP => "NO_PICKUP"
  | SRTP_READ_ERROR => "SRTP_READ_ERROR"
  end.

Definition HANGUP_CAUSE_CODES (c : HangupCause) : Z :=
  match c with
  | NONE => 0
  | UNALLOCATED_NUMBER => 1
  | NO_ROUTE_TRANSIT_NET => 2
  | NO_ROUTE_DESTINATION => 3
  | CHANNEL_UNACCEPTABLE => 6
  | CALL_AWARDED_DELIVERED => 7
  | NORMAL_CLEARING => 16
  | USER_BUSY => 17
  | NO_USER_RESPONSE => 18
  | NO_ANSWER => 19
  | SUBSCRIBER_ABSENT => 20
  | CALL_REJECTED => 21
  | NUMBER_CHANGED => 22
  | REDIRECTION_TO_NEW_DESTINATION => 23
  | EXCHANGE_ROUTING_ERROR => 25
  | DESTINATION_OUT_OF_ORDER => 27
  | INVALID_NUMBER_FORMAT => 28
  | FACILITY_REJECTED => 29
  | RESPONSE_TO_STATUS_ENQUIRY => 30
  | NORMAL_UNSPECIFIED => 31
  | NORMAL_CIRCUIT_CONGESTION => 34
  | NETWORK_OUT_OF_ORDER => 38
  | NORMAL_TEMPORARY_FAILURE => 41
  | SWITCH_CONGESTION => 42
  | ACCESS_INFO_DISCARDED => 43
  | REQUESTED_CHAN_UNAVAIL => 44
  | PRE_EMPTED => 45
  | FACILITY_NOT_SUBSCRIBED => 50
  | OUTGOING_CALL_BARRED => 52
  | INCOMING_CALL_BARRED => 54
  | BEARERCAPABILITY_NOTAUTH => 57
  | BEARERCAPABILITY_NOTAVAIL => 58
  | SERVICE_UNAVAILABLE => 63
  | BEARERCAPABILITY_NOTIMPL => 65
  | CHAN_NOT_IMPLEMENTED => 66
  | FACILITY_NOT_IMPLEMENTED => 69
  | SERVICE_NOT_IMPLEMENTED => 79
  | INVALID_CALL_REFERENCE => 81
  | INCOMPATIBLE_DESTINATION => 88
  | INVALID_MSG_UNSPECIFIED => 95
  | MANDATORY_IE_MISSING => 96
  | MESSAGE_TYPE_NONEXIST => 97
  | WRONG_MESSAGE => 98
  | IE_NONEXIST => 99
  | INVALID_IE_CONTENTS => 100
  | WRONG_CALL_STATE => 101
  | RECOVERY_ON_TIMER_EXPIRE => 102
  | MANDATORY_IE_LENGTH_ERROR => 103
  | PROTOCOL_ERROR => 111
  | INTERWORKING => 127
  | ORIGINATOR_CANCEL => 487
  | LOSE_RACE => 702
  | BLIND_TRANSFER => 800
  | ATTENDED_TRANSFER => 801
  | ALLOTTED_TIMEOUT => 802
  | USER_CHALLENGE => 803
  | MEDIA_TIMEOUT => 804
  | PICKED_OFF => 805
  | USER_NOT_REGISTERED => 806
  | PROGRESS_TIMEOUT => 807
  | INVALID_GATEWAY => 808
  | GATEWAY_DOWN => 809
  | INVALID_URL => 810
  | INVALID_PROFILE => 811
  | NO_PICKUP => 812
  | SRTP_READ_ERROR => 813
  end%Z.

(** [Object.fromEntries] over the entries of the code table: a later entry with
    the same code would overwrite an earlier one. *)
Definition HANGUP_CAUSE_NAMES : gmap Z HangupCause :=
  foldl (λ m c, <[HANGUP_CAUSE_CODES c := c]> m) ∅ HANGUP_CAUSES.

Definition isHangupCause (value : string) : bool :=
  includes (hangup_cause_name <$> HANGUP_CAUSES) value.

Definition hangupCauseCode (cause : HangupCause) : Z := HANGUP_CAUSE_CODES cause.

Definition hangupCauseFromCode (code : Z) : option HangupCause := HANGUP_CAUSE_NAMES !! code.

Definition RETRYABLE_HANGUP_CAUSES : list HangupCause :=
  [NO_ROUTE_TRANSIT_NET; NO_ROUTE_DESTINATION; CHANNEL_UNACCEPTABLE;
   DESTINATION_OUT_OF_ORDER; NORMAL_CIRCUIT_CONGESTION; NETWORK_OUT_OF_ORDER;
   NORMAL_TEMPORARY_FAILURE; SWITCH_CONGESTION; REQUESTED_CHAN_UNAVAIL;
   SERVICE_UNAVAILABLE; RECOVERY_ON_TIMER_EXPIRE; PROTOCOL_ERROR; INTERWORKING;
   NO_USER_RESPONSE; MEDIA_TIMEOUT; PROGRESS_TIMEOUT; INVALID_GATEWAY; GATEWAY_DOWN;
   SRTP_READ_ERROR].

Definition isRetryableCause (cause : HangupCause) : bool := includes RETRYABLE_HANGUP_CAUSES cause.

Definition ANSWERED_HANGUP_CAUSES : list HangupCause :=
  [NORMAL_CLEARING; BLIND_TRANSFER; ATTENDED_TRANSFER; ALLOTTED_TIMEOUT; MEDIA_TIMEOUT;
   PICKED_OFF].

Definition isAnsweredCause (cause : HangupCause) : bool := includes ANSWERED_HANGUP_CAUSES cause.

Lemma HANGUP_CAUSES_complete c : c ∈ HANGUP_CAUSES.
Proof. destruct c; apply (bool_decide_unpack _); vm_compute; exact I. Qed.

(** No two causes share a code, so the inverse table loses nothing. *)
Lemma codes_distinct : NoDup (HANGUP_CAUSE_CODES <$> HANGUP_CAUSES).
Proof. apply (bool_decide_unpack _). vm_compute. exact I. Qed.

Lemma fold_codes_lookup l (m : gmap Z HangupCause) code :
  NoDup (HANGUP_CAUSE_CODES <$> l) →
  foldl (λ m c, <[HANGUP_CAUSE_CODES c := c]> m) m l !! code =
  match find_first (λ c, (HANGUP_CAUSE_CODES c =? code)%Z) l with
  | Some c => Some c
  | None => m !! code
  end.
Proof.
  revert m. induction l as [|c l IH]; intros m Hnd; simpl; [done|].
  apply NoDup_cons in Hnd as [Hc Hnd]. rewrite IH by done.
  destruct (Z.eqb_spec (HANGUP_CAUSE_CODES c) code) as [<-|Hne].
  - replace (find_first _ l) with (@None HangupCause).
    + by rewrite lookup_insert_eq.
    + symmetry. apply find_first_None. intros x Hx. apply Z.eqb_neq. intros Heq.
      apply Hc. rewrite <- Heq. by apply list_elem_of_fmap_2.
  - case_match; [done|]. by rewrite lookup_insert_ne.
Qed.

Lemma hangupCauseFromCode_find code :
  hangupCauseFromCode code = find_first (λ c, (HANGUP_CAUSE_CODES c =? code)%Z) HANGUP_CAUSES.
Proof.
  unfold hangupCauseFromCode, HANGUP_CAUSE_NAMES.
  rewrite fold_codes_lookup by apply codes_distinct. case_match; [done|]. apply lookup_empty.
Qed.

(** Names and codes are in bijection: reading a stored numeric code back
    gives a name exactly when that code is the name's own, so no cause is
    re-coded by the inverse table and an unnamed Q.850 point has no name. *)
Theorem hangupCauseFromCode_roundtrip (code : Z) (c : HangupCause) :
  hangupCauseFromCode code = Some c ↔ hangupCauseCode c = code.
Proof.
  rewrite hangupCauseFromCode_find. unfold hangupCauseCode. split.
  - intros Hf. apply find_first_Some in Hf as [_ Hc]. by apply Z.eqb_eq in Hc.
  - intros <-. destruct (find_first _ _) as [d|] eqn:Hf.
    + apply find_first_Some in Hf as [_ Hd]. apply Z.eqb_eq in Hd. f_equal.
      apply (NoDup_fmap_inj_on HANGUP_CAUSE_CODES HANGUP_CAUSES);
        auto using codes_distinct, HANGUP_CAUSES_complete.
    + rewrite find_first_None in Hf. specialize (Hf c (HANGUP_CAUSES_complete c)).
      by rewrite Z.eqb_refl in Hf.
Qed.
