(* ===== verification/Bridge.v ===== *)
(** * Bridges

    [packages/telephony/src/bridge.ts]: how two legs are joined, which media path
    a mode leaves with the switch and which features that permits. *)

From S2P Require Import Prelude Machines.

Module Bridge.
Inductive BridgeMode : Set := media | proxy_media | signal_only | bypass.
Inductive LegRole : Set := leg_a | leg_b.
Inductive BridgeState : Set := pending | bridged | unbridged.
Inductive UnbridgeReason : Set :=
| leg_hangup | transfer | park | replaced | engine_request | media_timeout.

#[global] Instance BridgeMode_eq_dec : EqDecision BridgeMode.
Proof. solve_decision. Defined.
#[global] Instance LegRole_eq_dec : EqDecision LegRole.
Proof. solve_decision. Defined.
#[global] Instance BridgeState_eq_dec : EqDecision BridgeState.
Proof. solve_decision. Defined.
#[global] Instance UnbridgeReason_eq_dec : EqDecision UnbridgeReason.
Proof. solve_decision. Defined.

Definition BRIDGE_MODES : list BridgeMode := [media; proxy_media; signal_only; bypass].
Definition DEFAULT_BRIDGE_MODE : BridgeMode := media.
Definition LEG_ROLES : list LegRole := [leg_a; leg_b].
Definition BRIDGE_STATES : list BridgeState := [pending; bridged; unbridged].
Definition INITIAL_BRIDGE_STATE : BridgeState := pending.

Definition VALID_BRIDGE_TRANSITIONS (s : BridgeState) : list BridgeState :=
  match s with
  | pending => [bridged; unbridged]
  | bridged => [unbridged]
  | unbridged => []
  end.

Definition bridge_mode_name (m : BridgeMode) : string :=
  match m with
  | media => "media"
  | proxy_media => "proxy-media"
  | signal_only => "signal-only"
  | bypass => "bypass"
  end.

Definition bridge_state_name (s : BridgeState) : string :=
  match s with
  | pending => "pending"
  | bridged => "bridged"
  | unbridged => "unbridged"
  end.

Definition leg_role_name (r : LegRole) : string :=
  match r with leg_a => "a" | leg_b => "b" end.

(** One leg's side of a bridge. *)
Record BridgeLeg := { leg_channelId : string; leg_role : LegRole }.

(** A bridge as the engine holds it; instants are epoch milliseconds. *)
Record BridgeRecord := {
  bridgeId : string;
  bridge_callId : string;
  mode : BridgeMode;
  state : BridgeState;
  legs : BridgeLeg * BridgeLeg;
  bridge_createdAt : Z;
  bridgedAt : option Z;
  unbridgedAt : option Z;
  unbridgeReason : option UnbridgeReason }.

#[global] Instance bridge_machine : Machine BridgeState := {
  machine_states := BRIDGE_STATES;
  machine_initial := INITIAL_BRIDGE_STATE;
  machine_next := VALID_BRIDGE_TRANSITIONS }.

Definition RELAYING_MODES : list BridgeMode := [media; proxy_media].

Definition isBridgeMode (value : string) : bool := includes (bridge_mode_name <$> BRIDGE_MODES) value.
Definition isBridgeState (value : string) : bool :=
  includes (bridge_state_name <$> BRIDGE_STATES) value.
Definition isLegRole (value : string) : bool := includes (leg_role_name <$> LEG_ROLES) value.

Definition oppositeLegRole (role : LegRole) : LegRole :=
  if bool_decide (role = leg_a) then leg_b else leg_a.

Definition bridgeTransitionsFrom (s : BridgeState) : list BridgeState := VALID_BRIDGE_TRANSITIONS s.

Definition isValidBridgeTransition (from to : BridgeState) : bool :=
  includes (VALID_BRIDGE_TRANSITIONS from) to.

(** Throws [InvalidBridgeTransitionError(from, to)]. *)
Definition assertBridgeTransition (from to : BridgeState) : result (BridgeState * BridgeState) unit :=
  if negb (isValidBridgeTransition from to) then Throw (from, to) else Ok tt.

Definition isTerminalBridgeState (s : BridgeState) : bool :=
  length (VALID_BRIDGE_TRANSITIONS s) =? 0.

Definition bridgeModeRelaysMedia (m : BridgeMode) : bool := includes RELAYING_MODES m.
Definition bridgeModeDecodesMedia (m : BridgeMode) : bool := bool_decide (m = media).
Definition supportsMediaBug (m : BridgeMode) : bool := bridgeModeDecodesMedia m.
Definition supportsRecording (m : BridgeMode) : bool := bridgeModeDecodesMedia m.
Definition requiresRenegotiation (from to : BridgeMode) : bool := bool_decide (from ≠ to).

#[global] Instance bridge_laws : MachineLaws BridgeState.
Proof. solve_machine. Qed.

(** Samples exist only where packets pass through: nothing that decodes media
    works on a mode that does not relay it. *)
Lemma decodes_implies_relays m :
  bridgeModeDecodesMedia m = true → bridgeModeRelaysMedia m = true.
Proof. by destruct m. Qed.

(** A bridge is never re-entered: after [unbridged] no move succeeds. *)
Lemma unbridged_final ts u : run unbridged ts = Ok u → ts = [] ∧ u = unbridged.
Proof. destruct ts as [|[] ts]; simpl; intros; by simplify_eq. Qed.
End Bridge.
