(* ===== verification/Transfer.v ===== *)
(** * Transfers

    [packages/telephony/src/transfer.ts]: one machine for blind and attended
    transfers; the two kinds differ only in the path they take through it. *)

From S2P Require Import Prelude Machines HangupCauses.

Module Transfer.
Inductive TransferKind : Set := blind | attended.

Inductive TransferState : Set :=
| initiated | held | consulting | completing | completed | cancelled | failed.

#[global] Instance TransferKind_eq_dec : EqDecision TransferKind.
Proof. solve_decision. Defined.
#[global] Instance TransferState_eq_dec : EqDecision TransferState.
Proof. solve_decision. Defined.

Definition transfer_state_name (s : TransferState) : string :=
  match s with
  | initiated => "initiated"
  | held => "held"
  | consulting => "consulting"
  | completing => "completing"
  | completed => "completed"
  | cancelled => "cancelled"
  | failed => "failed"
  end.

Definition TRANSFER_STATES : list TransferState :=
  [initiated; held; consulting; completing; completed; cancelled; failed].

Definition INITIAL_TRANSFER_STATE : TransferState := initiated.

Definition TRANSFER_TERMINAL_STATES : list TransferState := [completed; cancelled; failed].

Definition VALID_TRANSFER_TRANSITIONS (s : TransferState) : list TransferState :=
  match s with
  | initiated => [held; consulting; completing; cancelled; failed]
  | held => [consulting; completing; cancelled; failed]
  | consulting => [held; completing; cancelled; failed]
  | completing => [completed; failed]
  | completed => []
  | cancelled => []
  | failed => []
  end.

#[global] Instance transfer_machine : Machine TransferState := {
  machine_states := TRANSFER_STATES;
  machine_initial := INITIAL_TRANSFER_STATE;
  machine_next := VALID_TRANSFER_TRANSITIONS }.

Definition isTransferState (value : string) : bool :=
  includes (transfer_state_name <$> TRANSFER_STATES) value.

Definition transferTransitionsFrom (s : TransferState) : list TransferState :=
  VALID_TRANSFER_TRANSITIONS s.

Definition isValidTransferTransition (from to : TransferState) : bool :=
  includes (VALID_TRANSFER_TRANSITIONS from) to.

(** Throws [InvalidTransferTransitionError(from, to)]. *)
Definition assertTransferTransition (from to : TransferState)
    : result (TransferState * TransferState) unit :=
  if negb (isValidTransferTransition from to) then Throw (from, to) else Ok tt.

Definition isTerminalTransferState (s : TransferState) : bool :=
  includes TRANSFER_TERMINAL_STATES s.

Definition FIRST_TRANSFER_STATE_BY_KIND (kind : TransferKind) : TransferState :=
  match kind with
  | blind => completing
  | attended => held
  end.

Definition hangupCauseForTransfer (kind : TransferKind) : HangupCause :=
  if bool_decide (kind = attended) then ATTENDED_TRANSFER else BLIND_TRANSFER.

#[global] Instance transfer_laws : MachineLaws TransferState.
Proof. solve_machine. Qed.

(** The states from which the join can no longer be undone. *)
Definition committed (s : TransferState) : bool := includes [completing; completed; failed] s.

Lemma committed_closed : closed_under committed = true.
Proof. reflexivity. Qed.

Lemma completed_preds : preds_within completed [completing] = true.
Proof. reflexivity. Qed.

(** Both kinds enter the table on an existing edge and leave the transferor's
    leg with a cause that counts as answered. *)
Lemma transfer_kinds_enter kind :
  isValidTransferTransition INITIAL_TRANSFER_STATE (FIRST_TRANSFER_STATE_BY_KIND kind) = true ∧
  isAnsweredCause (hangupCauseForTransfer kind) = true.
Proof. by destruct kind. Qed.

(** The join is the point of no return: a transfer that completes went
    through [completing] immediately before, and once it is [completing] no
    sequence of guarded moves leads to [cancelled] or back to the consultation:
    it can only complete or fail. *)
Theorem transfer_commit_irreversible (ts : list TransferState) (u : TransferState) :
  run INITIAL_TRANSFER_STATE ts = Ok u →
  (u = completed → ∃ ts', ts = ts' ++ [completing; completed]) ∧
  (completing ∈ ts → u = completing ∨ u = completed ∨ u = failed).
Proof.
  intros Hr. split.
  - intros ->. destruct (run_pred initiated ts completed [completing] completed_preds Hr)
      as (ts' & p & -> & Hp & Hin); [done|].
    apply list_elem_of_singleton in Hin as ->.
    assert (completing = default initiated (last ts')) as Hl by (by apply run_last).
    destruct ts' as [|x ts' _] using rev_ind; [done|].
    rewrite last_snoc in Hl. simpl in Hl. subst x. exists ts'. by rewrite <- app_assoc.
  - intros Hin. apply list_elem_of_split in Hin as (ts1 & ts2 & ->).
    rewrite cons_middle, app_assoc in Hr. apply run_app in Hr as (m & Hm & Hu).
    apply run_snoc in Hm as [-> _]. apply run_rtc in Hu.
    assert (committed u = true) as Hc by (eapply closed_under_rtc; eauto; reflexivity).
    destruct u; try discriminate; auto.
Qed.

Lemma transfer_commit_witness :
  run INITIAL_TRANSFER_STATE [held; consulting; completing; completed] = Ok completed ∧
  ((completed = completed →
    ∃ ts', [held; consulting; completing; completed] = ts' ++ [completing; completed]) ∧
   (completing ∈ [held; consulting; completing; completed] →
    completed = completing ∨ completed = completed ∨ completed = failed)).
Proof.
  assert (run INITIAL_TRANSFER_STATE [held; consulting; completing; completed] = Ok completed)
    as Hr by reflexivity.
  split; [exact Hr|].
  exact (transfer_commit_irreversible [held; consulting; completing; completed] completed Hr).
Defined.
End Transfer.
