(* ===== verification/Park.v ===== *)
(** * Parking

    [packages/telephony/src/park.ts]: the stages of a parked call and the
    arithmetic that picks an orbit slot. Slot numbers are integers; a JavaScript
    number that is an integer is a [Z], and [Number.isSafeInteger] is its bound. *)

From S2P Require Import Prelude Machines.

Module Park.
Inductive ParkState : Set :=
| parking | parked | retrieving | retrieved | timed_out | abandoned | failed.

Inductive ParkEndReason : Set := end_retrieved | end_timeout | end_abandoned.

#[global] Instance ParkState_eq_dec : EqDecision ParkState.
Proof. solve_decision. Defined.
#[global] Instance ParkEndReason_eq_dec : EqDecision ParkEndReason.
Proof. solve_decision. Defined.

Definition park_state_name (s : ParkState) : string :=
  match s with
  | parking => "parking"
  | parked => "parked"
  | retrieving => "retrieving"
  | retrieved => "retrieved"
  | timed_out => "timed-out"
  | abandoned => "abandoned"
  | failed => "failed"
  end.

Definition PARK_STATES : list ParkState :=
  [parking; parked; retrieving; retrieved; timed_out; abandoned; failed].

Definition INITIAL_PARK_STATE : ParkState := parking.

Definition PARK_TERMINAL_STATES : list ParkState := [retrieved; timed_out; abandoned; failed].

Definition VALID_PARK_TRANSITIONS (s : ParkState) : list ParkState :=
  match s with
  | parking => [parked; abandoned; failed]
  | parked => [retrieving; timed_out; abandoned]
  | retrieving => [retrieved; parked; abandoned; failed]
  | retrieved => []
  | timed_out => []
  | abandoned => []
  | failed => []
  end.

#[global] Instance park_machine : Machine ParkState := {
  machine_states := PARK_STATES;
  machine_initial := INITIAL_PARK_STATE;
  machine_next := VALID_PARK_TRANSITIONS }.

Definition PARK_END_REASONS : list ParkEndReason := [end_retrieved; end_timeout; end_abandoned].

Definition park_end_reason_name (r : ParkEndReason) : string :=
  match r with
  | end_retrieved => "retrieved"
  | end_timeout => "timeout"
  | end_abandoned => "abandoned"
  end.

Definition isParkState (value : string) : bool := includes (park_state_name <$> PARK_STATES) value.

Definition isParkEndReason (value : string) : bool :=
  includes (park_end_reason_name <$> PARK_END_REASONS) value.

Definition parkTransitionsFrom (s : ParkState) : list ParkState := VALID_PARK_TRANSITIONS s.

Definition isValidParkTransition (from to : ParkState) : bool :=
  includes (VALID_PARK_TRANSITIONS from) to.

(** Throws [InvalidParkTransitionError(from, to)]. *)
Definition assertParkTransition (from to : ParkState) : result (ParkState * ParkState) unit :=
  if negb (isValidParkTransition from to) then Throw (from, to) else Ok tt.

Definition isTerminalParkState (s : ParkState) : bool := includes PARK_TERMINAL_STATES s.

Definition parkEndReasonFor (s : ParkState) : option ParkEndReason :=
  match s with
  | retrieved => Some end_retrieved
  | timed_out => Some end_timeout
  | abandoned => Some end_abandoned
  | _ => None
  end.

Open Scope Z_scope.

Definition MAX_SAFE_INTEGER : Z := 9007199254740991.

Definition isSafeInteger (n : Z) : bool := Z.abs n <=? MAX_SAFE_INTEGER.

Record ParkSlotRangeBounds := { slotStart : Z; slotEnd : Z }.

Definition isUsableParkSlotRange (range : ParkSlotRangeBounds) : bool :=
  isSafeInteger (slotStart range) && isSafeInteger (slotEnd range) &&
  (slotStart range <=? slotEnd range).

Definition parkSlotCapacity (range : ParkSlotRangeBounds) : Z :=
  if isUsableParkSlotRange range then slotEnd range - slotStart range + 1 else 0.

Definition isParkSlotInRange (range : ParkSlotRangeBounds) (slot : Z) : bool :=
  isUsableParkSlotRange range && (slotStart range <=? slot) && (slot <=? slotEnd range).

(** The decimal value of a digit string, as [Number.parseInt(value, 10)] reads it. *)
Fixpoint digits_value (acc : Z) (s : string) : Z :=
  match s with
  | EmptyString => acc
  | String c s' => digits_value (10 * acc + (Z.of_nat (Ascii.nat_of_ascii c) - 48)) s'
  end.

(** [/^[0-9]+$/] *)
Definition all_digits (s : string) : bool :=
  negb (bool_decide (s = "")) && string_forallb is_digit s.

Definition parseParkSlot (value : string) : option Z :=
  if negb (all_digits value) then None
  else
    let slot := digits_value 0 value in
    if isSafeInteger slot then Some slot else None.

(** The [for] loop over the lot's orbits; [fuel] bounds the iterations. *)
Fixpoint scan_slots (fuel : nat) (slot last : Z) (taken : list Z) : option Z :=
  match fuel with
  | O => None
  | S fuel' =>
      if slot <=? last then
        if negb (includes taken slot) then Some slot else scan_slots fuel' (slot + 1) last taken
      else None
  end.

Definition nextFreeParkSlot (range : ParkSlotRangeBounds) (occupied : list Z)
    (preferred : option Z) : option Z :=
  if negb (isUsableParkSlotRange range) then None
  else
    match preferred with
    | Some p => if isParkSlotInRange range p && negb (includes occupied p) then Some p else None
    | None =>
        scan_slots (Z.to_nat (parkSlotCapacity range)) (slotStart range) (slotEnd range) occupied
    end.

#[global] Instance park_laws : MachineLaws ParkState.
Proof. solve_machine. Qed.

Lemma retrieved_preds : preds_within retrieved [retrieving] = true.
Proof. reflexivity. Qed.

Lemma retrieving_preds : preds_within retrieving [parked] = true.
Proof. reflexivity. Qed.

(** A retrieval is always claimed first: a park that ends [retrieved] was
    [parked], then [retrieving], then [retrieved], in that order and with nothing
    between, so two extensions dialling one slot cannot both have won by skipping
    the claim. *)
Theorem park_retrieved_only_through_claim (ts : list ParkState) :
  run INITIAL_PARK_STATE ts = Ok retrieved →
  ∃ ts', ts = ts' ++ [parked; retrieving; retrieved].
Proof.
  intros Hr.
  destruct (run_pred parking ts retrieved [retrieving] retrieved_preds Hr)
    as (ts1 & p & -> & Hp & Hin); [done|]. apply list_elem_of_singleton in Hin as ->.
  destruct (run_pred parking ts1 retrieving [parked] retrieving_preds Hp)
    as (ts2 & q & -> & Hq & Hin); [done|]. apply list_elem_of_singleton in Hin as ->.
  assert (parked = default parking (last ts2)) as Hl by (by apply run_last).
  destruct ts2 as [|x ts2 _] using rev_ind; [done|].
  rewrite last_snoc in Hl. simpl in Hl. subst x. exists ts2. by rewrite <- !app_assoc.
Qed.

Lemma park_retrieved_witness :
  run INITIAL_PARK_STATE [parked; retrieving; parked; retrieving; retrieved] = Ok retrieved ∧
  ∃ ts', [parked; retrieving; parked; retrieving; retrieved] = ts' ++ [parked; retrieving; retrieved].
Proof.
  assert (run INITIAL_PARK_STATE [parked; retrieving; parked; retrieving; retrieved] = Ok retrieved)
    as Hr by reflexivity.
  split; [exact Hr|].
  exact (park_retrieved_only_through_claim [parked; retrieving; parked; retrieving; retrieved] Hr).
Defined.

(** An orbit of the lot that nobody is in. *)
Definition free_slot (range : ParkSlotRangeBounds) (occupied : list Z) (s : Z) : Prop :=
  isParkSlotInRange range s = true ∧ s ∉ occupied.

Lemma isParkSlotInRange_spec range s :
  isParkSlotInRange range s = true ↔
  isUsableParkSlotRange range = true ∧ slotStart range <= s <= slotEnd range.
Proof. unfold isParkSlotInRange. rewrite !andb_true_iff, !Z.leb_le. tauto. Qed.

(** The loop returns the lowest orbit at or after [slot] that is not taken. *)
Lemma scan_slots_Some fuel slot last taken s :
  scan_slots fuel slot last taken = Some s →
  (slot <= s <= last) ∧ (s ∉ taken) ∧ ∀ s', slot <= s' < s → s' ∈ taken.
Proof.
  revert slot. induction fuel as [|fuel IH]; intros slot; simpl; [done|].
  destruct (Z.leb_spec slot last) as [Hle|]; [|done].
  destruct (includes taken slot) eqn:Ht; simpl; intros Hs; bool_simpl; simplify_eq.
  - apply IH in Hs as (Hr & Hn & Hall). split_and!; [lia..|done|].
    intros s' Hs'. destruct (decide (s' = slot)) as [->|]; [done|]. apply Hall. lia.
  - split_and!; [lia..|done|]. lia.
Qed.

Lemma scan_slots_None fuel slot last taken :
  last - slot + 1 <= Z.of_nat fuel → scan_slots fuel slot last taken = None →
  ∀ s, slot <= s <= last → s ∈ taken.
Proof.
  revert slot. induction fuel as [|fuel IH]; intros slot Hf; simpl; [lia|].
  destruct (Z.leb_spec slot last) as [Hle|]; [|lia].
  destruct (includes taken slot) eqn:Ht; simpl; intros Hs; bool_simpl; [|done].
  intros s Hr. destruct (decide (s = slot)) as [->|]; [done|]. eapply IH; eauto; lia.
Qed.

Lemma parkSlotCapacity_usable range :
  isUsableParkSlotRange range = true →
  parkSlotCapacity range = slotEnd range - slotStart range + 1 ∧ 1 <= parkSlotCapacity range.
Proof.
  intros Hu. unfold parkSlotCapacity. rewrite Hu. unfold isUsableParkSlotRange in Hu.
  bool_simpl. rewrite Z.leb_le in *. lia.
Qed.

(** Slot allocation is exact. With no preference the answer is the lowest
    free orbit of the lot; with a preference it is that orbit or a refusal, never a
    silent reassignment. A slot is returned exactly in those two cases, so the
    answer is always in range and never occupied. *)
Theorem nextFreeParkSlot_spec (range : ParkSlotRangeBounds) (occupied : list Z)
    (preferred : option Z) (s : Z) :
  nextFreeParkSlot range occupied preferred = Some s ↔
  free_slot range occupied s ∧
  match preferred with
  | Some p => s = p
  | None => ∀ s', slotStart range <= s' < s → s' ∈ occupied
  end.
Proof.
  unfold nextFreeParkSlot, free_slot.
  destruct (isUsableParkSlotRange range) eqn:Hu; simpl.
  2:{ split; [done|]. intros [[Hr _] _]. apply isParkSlotInRange_spec in Hr as [? _]. congruence. }
  destruct preferred as [p|].
  - destruct (isParkSlotInRange range p) eqn:Hp, (includes occupied p) eqn:Ho;
      simpl; bool_simpl; naive_solver congruence.
  - rewrite isParkSlotInRange_spec. split.
    + intros (Hr & Hn & Hall)%scan_slots_Some. done.
    + intros [[[_ Hr] Hn] Hall].
      destruct (parkSlotCapacity_usable range Hu) as [Hcap Hpos].
      destruct (scan_slots _ _ _ _) as [s'|] eqn:Hs.
      * apply scan_slots_Some in Hs as (Hr' & Hn' & Hall'). f_equal.
        destruct (Z.lt_trichotomy s s') as [Hlt|[Heq|Hgt]]; [|done|].
        -- destruct Hn. apply Hall'. lia.
        -- destruct Hn'. apply Hall. lia.
      * destruct Hn. eapply scan_slots_None; eauto; lia.
Qed.

(** With nobody preferred, no answer means no orbit. *)
Lemma nextFree_None range occupied n :
  nextFreeParkSlot range occupied None = None → isParkSlotInRange range n = true → n ∈ occupied.
Proof.
  intros Hn [Hu Hr]%isParkSlotInRange_spec. destruct (parkSlotCapacity_usable range Hu) as [Hcap Hpos].
  unfold nextFreeParkSlot in Hn. rewrite Hu in Hn. simpl in Hn. eapply scan_slots_None; eauto. lia.
Qed.

(** The orbits of a lot, as a list. *)
Lemma slots_submseteq range occupied :
  isUsableParkSlotRange range = true →
  (∀ s, slotStart range <= s <= slotEnd range → s ∈ occupied) →
  parkSlotCapacity range <= Z.of_nat (length occupied).
Proof.
  intros Hu Hall. destruct (parkSlotCapacity_usable range Hu) as [Hcap Hpos].
  assert (seqZ (slotStart range) (parkSlotCapacity range) ⊆+ occupied) as Hsub.
  { apply NoDup_submseteq; [apply NoDup_seqZ|].
    intros s Hs%elem_of_seqZ. apply Hall. lia. }
  apply submseteq_length in Hsub. rewrite length_seqZ in Hsub. lia.
Qed.

(** A lot refuses only when it has to: an automatic assignment in a usable
    lot fails only if at least as many slots are reported taken as the lot has
    orbits, so a lot with fewer parked calls than orbits always has one to give. *)
Theorem nextFreeParkSlot_full_only (range : ParkSlotRangeBounds) (occupied : list Z) :
  isUsableParkSlotRange range = true →
  nextFreeParkSlot range occupied None = None →
  parkSlotCapacity range <= Z.of_nat (length occupied).
Proof.
  intros Hu Hn. apply slots_submseteq; [done|]. intros s Hs.
  destruct (parkSlotCapacity_usable range Hu) as [Hcap Hpos].
  unfold nextFreeParkSlot in Hn. rewrite Hu in Hn. simpl in Hn.
  eapply scan_slots_None; eauto. lia.
Qed.

Lemma nextFreeParkSlot_full_witness :
  isUsableParkSlotRange {| slotStart := 401; slotEnd := 402 |} = true ∧
  nextFreeParkSlot {| slotStart := 401; slotEnd := 402 |} [402; 401] None = None ∧
  parkSlotCapacity {| slotStart := 401; slotEnd := 402 |} <= Z.of_nat (length [402; 401]).
Proof.
  set (lot := {| slotStart := 401; slotEnd := 402 |}).
  assert (isUsableParkSlotRange lot = true) as Hu by reflexivity.
  assert (nextFreeParkSlot lot [402; 401] None = None) as Hn by reflexivity.
  split_and!; [exact Hu|exact Hn|].
  exact (nextFreeParkSlot_full_only lot [402; 401] Hu Hn).
Defined.
End Park.
