(* ===== verification/ParkRegistry.v ===== *)
(** * The park registry

    [apps/engine/src/routing/park-registry.ts]: which call sits on which orbit, on
    this instance and, through claims, on every other. The lots, the channel index
    and the claims are the maps of the class; a [HeldClaim] is an object whose revision a
    heartbeat updates while the maps may already hold another, so revisions live in a heap.
    Each method is a program of [Async.v] that waits where the source awaits. *)

From stdpp Require Import pretty.
From S2P Require Import Prelude Kv Async Claims.
From S2P Require Park.

Module ParkRegistry.
Import Park.Park.

(** ** Data *)

(** A call about to be parked: [Omit<ParkedCall, "slot">]. *)
Record Parking := {
  parkLotId : string;
  mediaChannelId : string;
  legId : string;
  callId : string;
  organizationId : string;
  parkedByLegId : option string;
  parkedByNumber : option string;
  parkedAtMs : Z;
  mohClass : option string }.

Record ParkedCall := { parking :> Parking; slot : Z }.

(** [parkClaimSchema] *)
Record ParkClaim := {
  pc_orgId : string;
  pc_instanceId : string;
  pc_claimedAt : Z;
  pc_heartbeatAt : Z;
  pc_expiresAt : Z;
  pc_parkLotId : string;
  pc_slot : Z;
  pc_mediaChannelId : string;
  pc_legId : string;
  pc_callId : string;
  pc_parkedByLegId : option string;
  pc_parkedByNumber : option string;
  pc_parkedAtMs : Z;
  pc_mohClass : option string }.

(** [z.string().min(lo).max(hi)] *)
Definition string_between (lo hi : nat) (v : string) : bool :=
  (lo <=? String.length v)%nat && (String.length v <=? hi)%nat.

Definition optional {X} (p : X → bool) (o : option X) : bool :=
  match o with Some x => p x | None => true end.

Definition parkClaimSchema (c : ParkClaim) : bool :=
  negb (bool_decide (pc_orgId c = "")) && string_between 1 128 (pc_instanceId c) &&
  negb (bool_decide (pc_parkLotId c = "")) && (0 <=? pc_slot c) &&
  string_between 1 256 (pc_mediaChannelId c) && string_between 1 128 (pc_legId c) &&
  string_between 1 128 (pc_callId c) && optional (string_between 0 128) (pc_parkedByLegId c) &&
  optional (string_between 0 128) (pc_parkedByNumber c) && optional (string_between 0 128) (pc_mohClass c).

#[global] Instance ParkedCall_eq_dec : EqDecision ParkedCall.
Proof. assert (EqDecision Parking) by solve_decision. solve_decision. Defined.
#[global] Instance ParkClaim_eq_dec : EqDecision ParkClaim.
Proof. solve_decision. Defined.

Inductive ParkResult : Type :=
| Parked (entry : ParkedCall)
| LotFull (capacity : Z)
| SlotUnavailable (slot : Z)
| ClaimsUnavailable.

Inductive ParkClaimResult : Type :=
| Claimed (entry : ParkedCall)
| Absent
| ClaimUnavailable
| Elsewhere (instanceId : string) (entry : ParkedCall)
| Stale (instanceId : string) (entry : ParkedCall).

(** A claim object: its identity and its readonly fields. The revision is mutable and
    kept in [revisions], under the object's key and identity. *)
Record HeldClaim := { held_id : nat; held_entry : ParkedCall; held_key : string }.

Record Registry := {
  lots : gmap string (gmap string (gmap Z ParkedCall));
  byChannel : gmap string ParkedCall;
  (* in insertion order *)
  claims : list (string * HeldClaim);
  revisions : gmap (string * nat) Z;
  takeovers : gmap string Z;
  retrieving : gset string;
  isConfigured : bool;
  instance : string }.

(** ** Records of a claim *)
Definition claimRecord (instanceId : string) (entry : ParkedCall) (nowMs : Z) : ParkClaim := {|
  pc_orgId := organizationId entry;
  pc_instanceId := instanceId;
  pc_claimedAt := parkedAtMs entry;
  pc_heartbeatAt := nowMs;
  pc_expiresAt := nowMs + CLAIM_LEASE_MS;
  pc_parkLotId := parkLotId entry;
  pc_slot := slot entry;
  pc_mediaChannelId := mediaChannelId entry;
  pc_legId := legId entry;
  pc_callId := callId entry;
  pc_parkedByLegId := parkedByLegId entry;
  pc_parkedByNumber := parkedByNumber entry;
  pc_parkedAtMs := parkedAtMs entry;
  pc_mohClass := mohClass entry |}.

Definition entryFromClaim (claim : ParkClaim) : ParkedCall := {|
  parking := {|
    parkLotId := pc_parkLotId claim;
    mediaChannelId := pc_mediaChannelId claim;
    legId := pc_legId claim;
    callId := pc_callId claim;
    organizationId := pc_orgId claim;
    parkedByLegId := pc_parkedByLegId claim;
    parkedByNumber := pc_parkedByNumber claim;
    parkedAtMs := pc_parkedAtMs claim;
    mohClass := pc_mohClass claim |};
  slot := pc_slot claim |}.

Definition parkSlotFor (range : ParkSlotRangeBounds) (dialed : string) : option Z :=
  match parseParkSlot dialed with
  | Some slot => if isParkSlotInRange range slot then Some slot else None
  | None => None
  end.

(** ** The maps *)

(** [localLot]: the lot of the tenant, or the only lot of that name; with the tenant
    whose map holds it. *)
Definition localLot (s : Registry) (lot : string) (org : option string)
    : option (string * gmap Z ParkedCall) :=
  match org with
  | Some o => slots ← (lots s !! o) ≫= (.!! lot); Some (o, slots)
  | None =>
      match omap (λ '(o, organizationLots), slots ← organizationLots !! lot; Some (o, slots))
                 (map_to_list (lots s)) with
      | [found] => Some found
      | _ => None
      end
  end.

Definition at_ (s : Registry) (lot : string) (slot : Z) (org : option string) : option ParkedCall :=
  found ← localLot s lot org; found.2 !! slot.

Definition by_slot (left right : ParkedCall) : Z := slot left - slot right.

Definition lot (s : Registry) (lotId : string) (org : option string) : list ParkedCall :=
  match localLot s lotId org with
  | None => []
  | Some (_, slots) => js_sort by_slot (map_to_list slots).*2
  end.

Definition forChannel (s : Registry) (channel : string) : option ParkedCall := byChannel s !! channel.

Definition parkedCount (s : Registry) : nat := size (byChannel s).

(** [Map.set] and [Map.delete] on [claims] *)
Fixpoint claims_set (channel : string) (held : HeldClaim) (l : list (string * HeldClaim))
    : list (string * HeldClaim) :=
  match l with
  | [] => [(channel, held)]
  | (c, h) :: l => if bool_decide (c = channel) then (c, held) :: l else (c, h) :: claims_set channel held l
  end.

Definition claims_delete (channel : string) (l : list (string * HeldClaim)) : list (string * HeldClaim) :=
  base.filter (λ x, x.1 ≠ channel) l.

Definition held_at (held : HeldClaim) : string * nat := (held_key held, held_id held).

(** [held.revision]; every object has one. *)
Definition held_revision (s : Registry) (held : HeldClaim) : option Z := revisions s !! held_at held.

(** [this.claims.get(channel)], with the object's revision. *)
Definition claim_of (s : Registry) (channel : string) : option (HeldClaim * Z) :=
  found ← find_first (λ x, bool_decide (x.1 = channel)) (claims s);
  r ← held_revision s found.2; Some (found.2, r).

Definition with_slots (org lotId : string) (slots : gmap Z ParkedCall) (s : Registry) :=
  <[org := <[lotId := slots]> (default ∅ (lots s !! org))]> (lots s).

Definition record (entry : ParkedCall) (revision : Z) (key : string) (s : Registry) : Registry :=
  let slots := default ∅ ((lots s !! organizationId entry) ≫= (.!! parkLotId entry)) in
  let held := {| held_id := fresh (set_map snd (dom (revisions s)) : gset nat);
                 held_entry := entry; held_key := key |} in
  {| lots := with_slots (organizationId entry) (parkLotId entry) (<[slot entry := entry]> slots) s;
     byChannel := <[mediaChannelId entry := entry]> (byChannel s);
     claims := if isConfigured s then claims_set (mediaChannelId entry) held (claims s) else claims s;
     revisions := if isConfigured s then <[held_at held := revision]> (revisions s) else revisions s;
     takeovers := takeovers s; retrieving := retrieving s;
     isConfigured := isConfigured s; instance := instance s |}.

(** The lot without the slot; an empty lot goes, and a tenant with no lot. *)
Definition without_slot (o entry_org lotId : string) (slots : gmap Z ParkedCall) (n : Z)
    (all : gmap string (gmap string (gmap Z ParkedCall))) :=
  let slots := delete n slots in
  let all := <[o := <[lotId := slots]> (default ∅ (all !! o))]> all in
  if bool_decide (slots = ∅)
  then
    match all !! entry_org with
    | None => all
    | Some organizationLots =>
        let organizationLots := delete lotId organizationLots in
        if bool_decide (organizationLots = ∅) then delete entry_org all
        else <[entry_org := organizationLots]> all
    end
  else all.

Definition removeLocal (lotId : string) (n : Z) (org : option string) (s : Registry)
    : Registry * option ParkedCall :=
  match localLot s lotId org with
  | None => (s, None)
  | Some (o, slots) =>
      match (slots !! n : option ParkedCall) with
      | None => (s, None)
      | Some entry =>
          ({| lots := without_slot o (organizationId entry) lotId slots n (lots s);
              byChannel := delete (mediaChannelId entry) (byChannel s);
              claims := claims_delete (mediaChannelId entry) (claims s);
              revisions := revisions s; takeovers := takeovers s; retrieving := retrieving s;
              isConfigured := isConfigured s; instance := instance s |}, Some entry)
      end
  end.

Definition set_retrieving (f : gset string → gset string) (s : Registry) : Registry :=
  {| lots := lots s; byChannel := byChannel s; claims := claims s; revisions := revisions s;
     takeovers := takeovers s; retrieving := f (retrieving s);
     isConfigured := isConfigured s; instance := instance s |}.

Definition set_takeovers (f : gmap string Z → gmap string Z) (s : Registry) : Registry :=
  {| lots := lots s; byChannel := byChannel s; claims := claims s; revisions := revisions s;
     takeovers := f (takeovers s); retrieving := retrieving s;
     isConfigured := isConfigured s; instance := instance s |}.

(** [held.revision = revision] *)
Definition set_revision (held : HeldClaim) (revision : Z) (s : Registry) : Registry :=
  {| lots := lots s; byChannel := byChannel s; claims := claims s;
     revisions := <[held_at held := revision]> (revisions s);
     takeovers := takeovers s; retrieving := retrieving s;
     isConfigured := isConfigured s; instance := instance s |}.

Definition drop_claim (channel : string) (s : Registry) : Registry :=
  {| lots := lots s; byChannel := byChannel s; claims := claims_delete channel (claims s);
     revisions := revisions s; takeovers := takeovers s; retrieving := retrieving s;
     isConfigured := isConfigured s; instance := instance s |}.

(** [this.claims.delete(channel)], then the entry itself *)
Definition lapse (channel : string) (entry : ParkedCall) (s : Registry) : Registry :=
  (removeLocal (parkLotId entry) (slot entry) (Some (organizationId entry)) (drop_claim channel s)).1.

Definition clear (s : Registry) : Registry :=
  {| lots := ∅; byChannel := ∅; claims := []; revisions := revisions s; takeovers := ∅; retrieving := ∅;
     isConfigured := isConfigured s; instance := instance s |}.

(** A new registry, and [bindClaims]. *)
Definition empty_registry : Registry :=
  {| lots := ∅; byChannel := ∅; claims := []; revisions := ∅; takeovers := ∅; retrieving := ∅;
     isConfigured := false; instance := "engine-local" |}.

Definition bindClaims (bucket_configured : bool) (instanceId : string) (s : Registry) : Registry :=
  {| lots := lots s; byChannel := byChannel s; claims := claims s; revisions := revisions s;
     takeovers := takeovers s; retrieving := retrieving s;
     isConfigured := bucket_configured; instance := instanceId |}.

(** ** Methods *)
Abbreviation io := (prog Registry (request ParkClaim) (answer ParkClaim)).

Inductive Taken : Type :=
| taken (revision : Z) (key : string)
| lost
| unavailable.

(** Without a bucket the promise is resolved already, and its continuation runs in a
    later turn of the event loop. *)
Definition takeClaim (entry : ParkedCall) : io Taken :=
  shared ← look isConfigured;
  if negb shared then _ ← ask QYield; mret (taken 0 "")
  else
    match kvKeyFor_parkClaim (organizationId entry) (parkLotId entry) (slot entry) with
    | Throw _ => mret unavailable
    | Ok key =>
        now ← clock;
        self ← look instance;
        created ← KvClaimBucket.create parkClaimSchema key (claimRecord self entry now);
        match created with
        | write_written r => mret (taken r key)
        | write_unavailable => mret unavailable
        | write_lost None => mret lost
        | write_lost (Some current) =>
            if negb (isClaimExpired (pc_expiresAt (value current)) now) then mret lost
            else
              self ← look instance;
              reaped ← KvClaimBucket.update parkClaimSchema key (claimRecord self entry now) (revision current);
              mret match reaped with
                   | write_written r => taken r key
                   | write_unavailable => unavailable
                   | write_lost _ => lost
                   end
        end
    end.

(** The orbits a parker may not have: those on this instance, and those already tried. *)
Definition taken_slots (entry : Parking) (attempted : list Z) (s : Registry) : list Z :=
  js_set (match localLot s (parkLotId entry) (Some (organizationId entry)) with
          | Some (_, slots) => (map_to_list slots).*1
          | None => []
          end ++ attempted).

Fixpoint park_loop (attempts : nat) (range : ParkSlotRangeBounds) (entry : Parking)
    (preferredSlot : option Z) (attempted : list Z) : io ParkResult :=
  match attempts with
  | O => mret (LotFull (Z.of_nat (length attempted)))
  | S attempts =>
      occupied ← look (taken_slots entry attempted);
      match nextFreeParkSlot range occupied preferredSlot with
      | None =>
          mret match preferredSlot with
               | None => LotFull (Z.of_nat (length occupied))
               | Some p => SlotUnavailable p
               end
      | Some chosen =>
          if negb (isParkSlotInRange range chosen) then mret (SlotUnavailable chosen)
          else
            let parked := {| parking := entry; slot := chosen |} in
            outcome ← takeClaim parked;
            match outcome with
            | taken revision key => _ ← change (record parked revision key); mret (Parked parked)
            | unavailable => mret ClaimsUnavailable
            | lost =>
                match preferredSlot with
                | Some _ => mret (SlotUnavailable chosen)
                | None => park_loop attempts range entry preferredSlot (js_set (attempted ++ [chosen]))
                end
            end
      end
  end.

Definition park (range : ParkSlotRangeBounds) (entry : Parking) (preferredSlot : option Z) : io ParkResult :=
  let capacity := Z.max 1 (parkSlotCapacity range) in
  let maxAttempts := match preferredSlot with None => capacity | Some _ => 1 end in
  park_loop (Z.to_nat maxAttempts) range entry preferredSlot [].

Definition readClaim (orgId parkLotId : string) (slot : Z) : io (ClaimRead ParkClaim) :=
  match kvKeyFor_parkClaim orgId parkLotId slot with
  | Ok key => KvClaimBucket.get parkClaimSchema key
  | Throw _ => mret read_unavailable
  end.

(** The half of [claim] that answers for an orbit of this instance. *)
Definition claim_local (occupant : ParkedCall) (parkLotId : string) (slot : Z) (org : option string)
    : io ParkClaimResult :=
  busy ← look (λ s, bool_decide (mediaChannelId occupant ∈ retrieving s));
  if (busy : bool) then mret ClaimUnavailable
  else
    held ← look (λ s, claim_of s (mediaChannelId occupant));
    match held with
    | None =>
        removed ← act (removeLocal parkLotId slot org);
        mret match removed with None => Absent | Some e => Claimed e end
    | Some (held, at_revision) =>
        _ ← change (set_retrieving (λ r, {[mediaChannelId occupant]} ∪ r));
        released ← KvClaimBucket.release (held_key held) at_revision;
        result ←
          (if negb released then mret ClaimUnavailable
           else
             removed ← act (removeLocal parkLotId slot org);
             mret match removed with None => ClaimUnavailable | Some e => Claimed e end);
        _ ← change (set_retrieving (λ r, r ∖ {[mediaChannelId occupant]}));
        mret result
    end.

(** The half that looks the orbit up in the bucket. *)
Definition claim_shared (parkLotId : string) (slot : Z) (org : option string) : io ParkClaimResult :=
  shared ← look isConfigured;
  if negb shared then mret Absent
  else
    match org with
    | None => mret Absent
    | Some orgId =>
        remote ← readClaim orgId parkLotId slot;
        match remote with
        | read_unavailable => mret ClaimUnavailable
        | absent => mret Absent
        | present c =>
            now ← clock;
            mret (if isClaimExpired (pc_expiresAt (value c)) now
                  then Stale (pc_instanceId (value c)) (entryFromClaim (value c))
                  else Elsewhere (pc_instanceId (value c)) (entryFromClaim (value c)))
        end
    end.

Definition claim (parkLotId : string) (slot : Z) (org : option string) : io ParkClaimResult :=
  occupant ← look (λ s, at_ s parkLotId slot org);
  match occupant with
  | Some occupant => claim_local occupant parkLotId slot org
  | None => claim_shared parkLotId slot org
  end.

Definition takeOverStale (entry : ParkedCall) : io bool :=
  shared ← look isConfigured;
  if negb shared then mret false
  else
    match kvKeyFor_parkClaim (organizationId entry) (parkLotId entry) (slot entry) with
    | Throw _ => mret false
    | Ok key =>
        read ← KvClaimBucket.get parkClaimSchema key;
        now ← clock;
        match read with
        | present current =>
            if negb (isClaimExpired (pc_expiresAt (value current)) now) then mret false
            else
              self ← look instance;
              won ← KvClaimBucket.update parkClaimSchema key (claimRecord self entry now) (revision current);
              match won with
              | write_written r => _ ← change (set_takeovers (insert key r)); mret true
              | _ => mret false
              end
        | _ => mret false
        end
    end.

Definition discard (orgId parkLotId : string) (slot : Z) : io unit :=
  shared ← look isConfigured;
  if negb shared then mret tt
  else
    match kvKeyFor_parkClaim orgId parkLotId slot with
    | Throw _ => mret tt
    | Ok key =>
        won ← look (λ s, takeovers s !! key);
        match won with
        | None => mret tt
        | Some revision =>
            _ ← change (set_takeovers (delete key));
            _ ← KvClaimBucket.release key revision;
            mret tt
        end
    end.

Definition restore (entry : ParkedCall) : io bool :=
  here ← look (λ s, bool_decide (is_Some (at_ s (parkLotId entry) (slot entry) (Some (organizationId entry)))));
  if (here : bool) then mret false
  else
    outcome ← takeClaim entry;
    match outcome with
    | taken revision key => _ ← change (record entry revision key); mret true
    | _ => mret false
    end.

Definition release (channel : string) : io (option ParkedCall) :=
  entry ← look (λ s, forChannel s channel);
  match (entry : option ParkedCall) with
  | None => mret None
  | Some entry =>
      result ← claim (parkLotId entry) (slot entry) (Some (organizationId entry));
      mret match result with Claimed e => Some e | _ => None end
  end.

Definition forgetEnded (channel : string) : io (option ParkedCall) :=
  entry ← look (λ s, forChannel s channel);
  match (entry : option ParkedCall) with
  | None => mret None
  | Some entry => act (removeLocal (parkLotId entry) (slot entry) (Some (organizationId entry)))
  end.

(** The revision a lost renewal goes on with: this instance wrote it itself. *)
Definition adopted (self : string) (current : option (Claims.Claimed ParkClaim)) : option Z :=
  match current with
  | Some c => if bool_decide (pc_instanceId (value c) = self) then Some (revision c) else None
  | None => None
  end.

(** One claim of a heartbeat's snapshot. *)
Definition renew (now : Z) (renewed : Z) (claim : string * HeldClaim) : io Z :=
  let '(channel, held) := claim in
  busy ← look (λ s, bool_decide (channel ∈ retrieving s));
  if (busy : bool) then mret renewed
  else
    self ← look instance;
    current ← look (λ s, held_revision s held);
    match current with
    | None => mret renewed
    | Some at_revision =>
        outcome ← KvClaimBucket.update parkClaimSchema (held_key held) (claimRecord self (held_entry held) now) at_revision;
        match outcome with
        | write_written r => _ ← change (set_revision held r); mret (renewed + 1)
        | write_unavailable => mret renewed
        | write_lost current =>
            busy ← look (λ s, bool_decide (channel ∈ retrieving s));
            if (busy : bool) then mret renewed
            else
              self ← look instance;
              match adopted self current with
              | Some r => _ ← change (set_revision held r); mret renewed
              | None => _ ← change (lapse channel (held_entry held)); mret renewed
              end
        end
    end.

Definition heartbeat : io Z :=
  held ← look (λ s, if negb (isConfigured s) then [] else claims s);
  if bool_decide (held = []) then mret 0
  else now ← clock; each (renew now) 0 held.

(** ** The registry as a whole *)
Inductive Op : Type :=
| OPark (range : ParkSlotRangeBounds) (entry : Parking) (preferredSlot : option Z)
| OClaim (parkLotId : string) (slot : Z) (org : option string)
| OTakeOverStale (entry : ParkedCall)
| ODiscard (orgId parkLotId : string) (slot : Z)
| ORestore (entry : ParkedCall)
| ORelease (channel : string)
| OForgetEnded (channel : string)
| OHeartbeat
| OClear.

Inductive Reply : Type :=
| RPark (result : ParkResult)
| RClaim (result : ParkClaimResult)
| RBool (result : bool)
| REntry (entry : option ParkedCall)
| RCount (renewed : Z)
| RVoid.

Definition body (op : Op) : io Reply :=
  match op with
  | OPark range entry p => r ← park range entry p; mret (RPark r)
  | OClaim l n o => r ← claim l n o; mret (RClaim r)
  | OTakeOverStale e => r ← takeOverStale e; mret (RBool r)
  | ODiscard o l n => _ ← discard o l n; mret RVoid
  | ORestore e => r ← restore e; mret (RBool r)
  | ORelease c => r ← release c; mret (REntry r)
  | OForgetEnded c => r ← forgetEnded c; mret (REntry r)
  | OHeartbeat => r ← heartbeat; mret (RCount r)
  | OClear => _ ← change clear; mret RVoid
  end.

(** ** What the registry keeps to *)

(** A claim lies under the key of its orbit. *)
Definition good (key : string) (v : ParkClaim) : Prop :=
  kvKeyFor_parkClaim (pc_orgId v) (pc_parkLotId v) (pc_slot v) = Ok key.

Abbreviation world := (Log.world (T := ParkClaim)).

Definition expired_for (w : world) (i : string) (v : ParkClaim) : Prop :=
  ∃ now, Log.seen w i now ∧ isClaimExpired (pc_expiresAt v) now = true.

(** An instance writes its own name, over its own claim or one it saw expire; it
    deletes its own claims only. *)
Definition may (w : world) (i : string) (q : request ParkClaim) : Prop :=
  match q with
  | QGet _ | QYield => True
  | QCreate k v => pc_instanceId v = i ∧ good k v
  | QUpdate k v r =>
      pc_instanceId v = i ∧ good k v ∧
      ∃ old, Log.logged w k r old ∧ (pc_instanceId old = i ∨ expired_for w i old)
  | QDelete k r => ∃ old, Log.logged w k r old ∧ pc_instanceId old = i
  end.

(** It wrote a claim under this key at this revision. *)
Definition wrote (w : world) (i key : string) (r : Z) : Prop :=
  ∃ v, Log.logged w key r v ∧ pc_instanceId v = i.

Definition placed (s : Registry) : Prop :=
  ∀ o l n m slots e, lots s !! o = Some m → m !! l = Some slots → slots !! n = Some e →
    organizationId (parking e) = o ∧ parkLotId (parking e) = l ∧ slot e = n.

Record inv (w : world) (i : string) (s : Registry) : Prop := {
  inv_instance : instance s = i;
  inv_shared : isConfigured s = true;
  inv_claims : ∀ c h, (c, h) ∈ claims s →
    kvKeyFor_parkClaim (organizationId (held_entry h)) (parkLotId (held_entry h))
      (slot (held_entry h)) = Ok (held_key h);
  inv_revisions : ∀ key id r, revisions s !! (key, id) = Some r → wrote w i key r;
  inv_takeovers : ∀ key r, takeovers s !! key = Some r → wrote w i key r;
  inv_placed : placed s }.

(** What a reply says. *)
Definition about_orbit (l : string) (n : Z) (o : option string) (e : ParkedCall) : Prop :=
  parkLotId e = l ∧ slot e = n ∧ ∀ org, o = Some org → organizationId e = org.

Definition claim_post (l : string) (n : Z) (o : option string) (r : ParkClaimResult) : Prop :=
  match r with
  | Claimed e | Elsewhere _ e | Stale _ e => about_orbit l n o e
  | Absent | ClaimUnavailable => True
  end.

Definition park_post (i : string) (range : ParkSlotRangeBounds) (entry : Parking) (p : option Z)
    (w : world) (r : ParkResult) : Prop :=
  match r with
  | Parked e =>
      parking e = entry ∧ isParkSlotInRange range (slot e) = true ∧ (∀ n, p = Some n → slot e = n) ∧
      ∃ key rev now, good key (claimRecord i e now) ∧ Log.logged w key rev (claimRecord i e now)
  | _ => True
  end.

Definition post (i : string) (op : Op) (w : world) (r : Reply) : Prop :=
  match op, r with
  | OPark range entry p, RPark r => park_post i range entry p w r
  | OClaim l n o, RClaim r => claim_post l n o r
  | _, _ => True
  end.

Lemma wrote_mono w w' i k r : Log.le w w' → wrote w i k r → wrote w' i k r.
Proof. intros Hle (v & Hv & Hi). exists v. split; [by eapply Log.logged_mono|done]. Qed.

Lemma expired_for_mono w w' i v : Log.le w w' → expired_for w i v → expired_for w' i v.
Proof. intros Hle (now & Hn & He). exists now. split; [by eapply Log.seen_mono|done]. Qed.

Lemma inv_mono w w' i s : Log.le w w' → inv w i s → inv w' i s.
Proof.
  intros Hle [H1 H2 H3 H4 H5 H6]. split; try done.
  - intros key id r Hr. eapply wrote_mono; eauto.
  - intros key r Hr. eapply wrote_mono; eauto.
Qed.

Lemma may_mono w w' i q : Log.le w w' → may w i q → may w' i q.
Proof.
  intros Hle. destruct q; simpl; try done.
  - intros (H1 & H2 & old & Ho & H3). split_and!; try done. exists old.
    split; [by eapply Log.logged_mono|]. destruct H3; [by left|right; by eapply expired_for_mono].
  - intros (old & Ho & H). exists old. split; [by eapply Log.logged_mono|done].
Qed.

Lemma post_mono i op w w' r : Log.le w w' → post i op w r → post i op w' r.
Proof.
  intros Hle. destruct op, r; try done. destruct result; try done. simpl.
  intros (H1 & H2 & H3 & key & rev & now & Hg & Hl). split_and!; try done.
  exists key, rev, now. split; [done|by eapply Log.logged_mono].
Qed.

Lemma good_record i (e : ParkedCall) now key :
  kvKeyFor_parkClaim (organizationId e) (parkLotId e) (slot e) = Ok key → good key (claimRecord i e now).
Proof. done. Qed.

Lemma wrote_record w i (e : ParkedCall) now key r :
  Log.logged w key r (claimRecord i e now) → wrote w i key r.
Proof. intros H. by eexists. Qed.

(** A claim says everything about the call it stands for. *)
Lemma entryFromClaim_claimRecord i e now : entryFromClaim (claimRecord i e now) = e.
Proof. by destruct e as [[] ]. Qed.

(** *** The maps *)
Lemma localLot_Some s l o x slots :
  localLot s l o = Some (x, slots) →
  (∃ m, lots s !! x = Some m ∧ m !! l = Some slots) ∧ ∀ org, o = Some org → x = org.
Proof.
  unfold localLot. destruct o as [o|].
  - intros H. apply bind_Some in H as (slots' & (m & Hm & Hl)%bind_Some & [= <- <-]).
    split; [by exists m|by intros ? [= <-]].
  - destruct (omap _ _) as [|[y z] [|]] eqn:Ho; try done. intros [= -> ->]. split; [|done].
    assert ((x, slots) ∈ [(x, slots)]) as Hin by apply list_elem_of_here. rewrite <- Ho in Hin.
    apply list_elem_of_omap in Hin as ([o m] & Hm & Hs). apply elem_of_map_to_list in Hm.
    apply bind_Some in Hs as (sl & Hsl & [= <- <-]). by exists m.
Qed.

Lemma at_placed s l n o (e : ParkedCall) : placed s → at_ s l n o = Some e → about_orbit l n o e.
Proof.
  intros Hp H. unfold at_ in H. apply bind_Some in H as ([x slots] & Hl & He).
  apply localLot_Some in Hl as [(m & Hm & Hs) Hx]. destruct (Hp x l n m slots e Hm Hs He) as (H1 & H2 & H3).
  split_and!; [done..|]. intros org Ho. rewrite H1. by apply Hx.
Qed.

(** A place in a lot that one update wrote. *)
Lemma placed_insert s o l (slots : gmap Z ParkedCall) org' (all : gmap string (gmap string (gmap Z ParkedCall))) s' :
  lots s' = <[o := <[l := slots]> (default ∅ (all !! o))]> all →
  all = lots s → org' = o → placed s →
  (∀ n (e : ParkedCall), slots !! n = Some e → organizationId e = o ∧ parkLotId e = l ∧ slot e = n) → placed s'.
Proof.
  intros Hs' -> -> Hp Hslots o' l' n m sl e Hm Hl He. rewrite Hs' in Hm.
  destruct (decide (o' = o)) as [->|Ho].
  - rewrite lookup_insert_eq in Hm. injection Hm as <-. destruct (decide (l' = l)) as [->|Hl'].
    + rewrite lookup_insert_eq in Hl. injection Hl as <-. by apply Hslots.
    + rewrite lookup_insert_ne in Hl by done. destruct (lots s !! o) as [m|] eqn:Hm; [by eapply Hp|done].
  - rewrite lookup_insert_ne in Hm by done. by eapply Hp.
Qed.

Lemma placed_record s (e : ParkedCall) r k : placed s → placed (record e r k s).
Proof.
  intros Hp. eapply placed_insert; [reflexivity|done|done|exact Hp|].
  intros n x Hx. destruct (decide (n = slot e)) as [->|Hn].
  - rewrite lookup_insert_eq in Hx. by injection Hx as <-.
  - rewrite lookup_insert_ne in Hx by done.
    destruct (lots s !! organizationId e) as [m|] eqn:Hm; simpl in Hx; [|done].
    destruct (m !! parkLotId e) as [sl|] eqn:Hl; simpl in Hx; [|done]. by eapply Hp.
Qed.

(** Part of a placed map of lots is placed. *)
Lemma without_slot_sub o o' l (slots : gmap Z ParkedCall) n (all : gmap string (gmap string (gmap Z ParkedCall))) a b c m sl e :
  (∃ m, all !! o = Some m ∧ m !! l = Some slots) →
  without_slot o o' l slots n all !! a = Some m → m !! b = Some sl → sl !! c = Some e →
  ∃ m' sl', all !! a = Some m' ∧ m' !! b = Some sl' ∧ sl' !! c = Some e.
Proof.
  intros (m0 & Hm0 & Hl0). unfold without_slot. rewrite Hm0. simpl.
  assert (Hin : ∀ m, <[o := <[l := delete n slots]> m0]> all !! a = Some m → m !! b = Some sl →
    sl !! c = Some e → ∃ m' sl', all !! a = Some m' ∧ m' !! b = Some sl' ∧ sl' !! c = Some e).
  { clear m. intros m Hm Hb Hc. destruct (decide (a = o)) as [->|Ha].
    - rewrite lookup_insert_eq in Hm. injection Hm as <-. exists m0. destruct (decide (b = l)) as [->|Hbl].
      + rewrite lookup_insert_eq in Hb. injection Hb as <-. exists slots.
        apply lookup_delete_Some in Hc as [_ Hc]. done.
      + rewrite lookup_insert_ne in Hb by done. by exists sl.
    - rewrite lookup_insert_ne in Hm by done. by exists m, sl. }
  case_bool_decide; [|apply Hin].
  destruct (<[o := _]> all !! o') as [om|] eqn:Hom; [|apply Hin].
  case_bool_decide.
  - intros [_ Hm]%lookup_delete_Some. by eapply Hin.
  - intros [(<- & <-)|(_ & Hm)]%lookup_insert_Some; [|by eapply Hin].
    intros [_ Hb]%lookup_delete_Some. by eapply Hin.
Qed.

Lemma placed_removeLocal s l n o :
  placed s → placed (removeLocal l n o s).1 ∧
  ∀ e, (removeLocal l n o s).2 = Some e → about_orbit l n o e.
Proof.
  intros Hp. unfold removeLocal. destruct (localLot s l o) as [[x slots]|] eqn:Hl; [|done].
  destruct (slots !! n) as [e|] eqn:He; [|done]. simpl. split.
  - intros a b c m sl e' Hm Hb Hc. apply localLot_Some in Hl as [Hx _].
    destruct (without_slot_sub _ _ _ _ _ _ _ _ _ _ _ _ Hx Hm Hb Hc) as (m' & sl' & H1 & H2 & H3).
    by eapply Hp.
  - intros e' [= <-]. apply (at_placed s); [done|]. unfold at_. by rewrite Hl.
Qed.

Lemma removeLocal_rest s l n o :
  let s' := (removeLocal l n o s).1 in
  instance s' = instance s ∧ isConfigured s' = isConfigured s ∧ revisions s' = revisions s ∧
  takeovers s' = takeovers s ∧ retrieving s' = retrieving s ∧ claims s' ⊆ claims s.
Proof.
  unfold removeLocal. destruct (localLot s l o) as [[x sl]|]; [|done]. destruct (sl !! n); [|done].
  simpl. split_and!; try done. intros y [_ Hy]%list_elem_of_filter. done.
Qed.

Lemma claims_set_sub c h l : claims_set c h l ⊆ (c, h) :: l.
Proof.
  induction l as [|[c' h'] l IH]; simpl; [done|]. case_bool_decide as Hc; [subst; set_solver|]. set_solver.
Qed.

(** *** The operations on the state keep the invariant *)
Lemma inv_record w i s (e : ParkedCall) r k :
  inv w i s → wrote w i k r → kvKeyFor_parkClaim (organizationId e) (parkLotId e) (slot e) = Ok k →
  inv w i (record e r k s).
Proof.
  intros [H1 H2 H3 H4 H5 H6] Hw Hk. split; simpl; try done; [| |by apply placed_record]; rewrite H2.
  - intros c h [[= -> ->]|Hin]%claims_set_sub%elem_of_cons; [done|by eapply H3].
  - intros key id r' [(Hat & <-)|[_ Hr]]%lookup_insert_Some; [by injection Hat as <- _|by eapply H4].
Qed.

Lemma inv_removeLocal w i s l n o :
  inv w i s → inv w i (removeLocal l n o s).1 ∧ ∀ e, (removeLocal l n o s).2 = Some e → about_orbit l n o e.
Proof.
  intros [H1 H2 H3 H4 H5 H6]. destruct (placed_removeLocal s l n o H6) as [Hp He].
  destruct (removeLocal_rest s l n o) as (R1 & R2 & R3 & R4 & _ & R5).
  split; [|done]. split; rewrite ?R1, ?R2, ?R3, ?R4; try done. intros c h Hin. by eapply H3, R5.
Qed.

Lemma inv_set_retrieving w i s f : inv w i s → inv w i (set_retrieving f s).
Proof. by intros []. Qed.

Lemma inv_set_takeovers w i s f :
  inv w i s → (∀ key r, f (takeovers s) !! key = Some r → wrote w i key r) → inv w i (set_takeovers f s).
Proof. by intros []. Qed.

Lemma inv_set_revision w i s h r : inv w i s → wrote w i (held_key h) r → inv w i (set_revision h r s).
Proof.
  intros [H1 H2 H3 H4 H5 H6] Hr. split; simpl; try done.
  intros key id r' [(Hat & <-)|[_ Hl]]%lookup_insert_Some; [by injection Hat as <- _|by eapply H4].
Qed.

Lemma inv_lapse w i s c (e : ParkedCall) : inv w i s → inv w i (lapse c e s).
Proof.
  intros [H1 H2 H3 H4 H5 H6]. apply inv_removeLocal. split; try done.
  intros c' h [_ Hin]%list_elem_of_filter. by eapply H3.
Qed.

Lemma inv_clear w i s : inv w i s → inv w i (clear s).
Proof. intros []. split; try done. intros c h Hin. inversion Hin. Qed.

Lemma inv_fresh w i : inv w i (bindClaims true i empty_registry).
Proof. split; try done. intros c h Hin. inversion Hin. Qed.

Lemma inv_claim_of w i s c h r :
  inv w i s → claim_of s c = Some (h, r) → wrote w i (held_key h) r.
Proof.
  intros Hinv H. apply bind_Some in H as ([c' h'] & _ & (r' & Hr & [= <- <-])%bind_Some).
  by eapply inv_revisions.
Qed.

(** *** The methods are within the logic *)
Abbreviation okay := (ok Log.le Log.seen inv may (Log.fits good)).

Lemma may_get w i k : may w i (QGet k).
Proof. done. Qed.

Definition taken_post (i : string) (e : ParkedCall) (w : world) (x : Taken) : Prop :=
  match x with
  | taken r key =>
      kvKeyFor_parkClaim (organizationId e) (parkLotId e) (slot e) = Ok key ∧
      ∃ now, Log.logged w key r (claimRecord i e now)
  | _ => True
  end.

Lemma ok_takeClaim i w e (post : world → Taken → Prop) :
  (∀ w' x, Log.le w w' → taken_post i e w' x → post w' x) → okay i w (takeClaim e) post.
Proof.
  intros Hp. apply ok_look. intros w1 s1 Hle1 [Hi1 -> _ _ _ _]. cbv [negb].
  destruct (kvKeyFor_parkClaim _ _ _) as [key|] eqn:Hk; [|by apply Hp].
  apply ok_clock. intros w2 now Hle2 Hnow. apply ok_look. intros w3 s3 Hle3 [-> _ _ _ _ _].
  assert (Hle : Log.le w w3) by (do 2 (etrans; [eassumption|]); done).
  apply ok_bind, (ok_create parkClaimSchema good); [apply may_get|by split|].
  intros w4 [r|[c|]|] Hle4 Hx; simpl in Hx; try (by apply Hp; [etrans|]).
  - apply Hp; [by etrans|]. split; [done|by exists now].
  - destruct (isClaimExpired _ now) eqn:Hexp; cbv [negb]; [|by apply Hp; [etrans|]].
    apply ok_look. intros w5 s5 Hle5 [-> _ _ _ _ _]. destruct Hx as [Hlog _].
    assert (Hseen : Log.seen w5 i now) by (eapply Log.seen_mono; [|exact Hnow]; do 2 (etrans; [eassumption|]); done).
    apply ok_bind, (ok_update parkClaimSchema good); [apply may_get| |].
    + split_and!; [done..|]. exists (value c). split; [by eapply Log.logged_mono|]. right. by exists now.
    + intros w6 y Hle6 Hy. assert (Log.le w w6) by (do 2 (etrans; [eassumption|]); by etrans).
      destruct y as [r|x|]; simpl; apply Hp; try done. split; [done|by exists now].
Qed.

Lemma nextFreeParkSlot_preferred range taken p n :
  nextFreeParkSlot range taken p = Some n → ∀ m, p = Some m → n = m.
Proof.
  unfold nextFreeParkSlot. destruct (isUsableParkSlotRange range); [|done]. intros H m ->.
  simpl in H. destruct (_ && _); [by injection H|done].
Qed.

Lemma ok_park_loop i w attempts range entry p attempted :
  okay i w (park_loop attempts range entry p attempted) (park_post i range entry p).
Proof.
  revert w attempted. induction attempts as [|attempts IH]; intros w attempted; [done|].
  apply ok_look. intros w1 s1 Hle1 _.
  destruct (nextFreeParkSlot _ _ _) as [chosen|] eqn:Hn; [|by destruct p].
  destruct (isParkSlotInRange range chosen) eqn:Hr; cbv [negb]; [|done].
  apply ok_bind, ok_takeClaim. intros w2 [rev key| |] Hle2 Hx; [| |done].
  - destruct Hx as [Hk (now & Hl)]. apply ok_change.
    + intros w3 s3 Hle3 Hinv. apply inv_record; [done| |done]. eapply wrote_record.
      by eapply Log.logged_mono.
    + intros w3 Hle3. simpl. split_and!; [done|done|by eapply nextFreeParkSlot_preferred|].
      exists key, rev, now. split; [by apply good_record|by eapply Log.logged_mono].
  - destruct p; [done|]. apply IH.
Qed.

Lemma ok_claim_local i w e l n o : okay i w (claim_local e l n o) (λ _ r, claim_post l n o r).
Proof.
  apply ok_look. intros w1 s1 Hle1 _. case_bool_decide; [done|].
  apply ok_look. intros w2 s2 Hle2 Hinv. destruct (claim_of s2 _) as [[held r]|] eqn:Hc.
  - apply ok_change; [intros; by apply inv_set_retrieving|]. intros w3 Hle3.
    apply (inv_claim_of _ _ _ _ _ _ Hinv) in Hc as (v & Hv & Hi).
    apply ok_bind, (ok_release good); [exists v; split; [by eapply Log.logged_mono|done]|].
    intros w4 released Hle4. destruct released; cbv [negb].
    + apply ok_bind, ok_act. intros w5 s5 Hle5 Hinv5.
      destruct (inv_removeLocal w5 i s5 l n o Hinv5) as [Hr He]. split; [done|].
      destruct (removeLocal l n o s5).2; simpl; intros w6 now s6 _ _ H6;
        (split; [by apply inv_set_retrieving|]); [by apply He|done].
    + apply ok_bind. simpl. intros w5 now s5 _ _ H5. split; [by apply inv_set_retrieving|done].
  - apply ok_act. intros w3 s3 Hle3 Hinv3. destruct (inv_removeLocal w3 i s3 l n o Hinv3) as [Hr He].
    split; [done|]. destruct (removeLocal l n o s3).2; simpl; [by apply He|done].
Qed.

Lemma good_about l n o v key :
  kvKeyFor_parkClaim o l n = Ok key → good key v → about_orbit l n (Some o) (entryFromClaim v).
Proof.
  intros H1 H2. destruct (kvKeyFor_parkClaim_inj _ _ _ _ _ _ _ H2 H1) as (H3 & H4 & H5).
  split_and!; try done. by intros ? [= <-].
Qed.

Lemma ok_claim_shared i w l n o : okay i w (claim_shared l n o) (λ _ r, claim_post l n o r).
Proof.
  apply ok_look. intros w1 s1 Hle1 [_ -> _ _ _ _]. cbv [negb]. destruct o as [o|]; [|done].
  apply ok_bind. unfold readClaim. destruct (kvKeyFor_parkClaim o l n) as [key|] eqn:Hk; [|done].
  apply (ok_get parkClaimSchema good); [apply may_get|]. intros w2 [c| |] Hle2 Hx; [|done..].
  destruct Hx as (_ & Hg & _). apply ok_clock. intros w3 now Hle3 _.
  destruct (isClaimExpired _ now); by eapply good_about.
Qed.

Lemma ok_claim i w l n o : okay i w (claim l n o) (λ _ r, claim_post l n o r).
Proof.
  apply ok_look. intros w1 s1 Hle1 _.
  destruct (at_ s1 l n o); [apply ok_claim_local|apply ok_claim_shared].
Qed.

Lemma ok_takeOverStale i w e : okay i w (takeOverStale e) (λ _ _, True).
Proof.
  apply ok_look. intros w1 s1 Hle1 [_ -> _ _ _ _]. cbv [negb].
  destruct (kvKeyFor_parkClaim _ _ _) as [key|] eqn:Hk; [|done].
  apply ok_bind, (ok_get parkClaimSchema good); [apply may_get|]. intros w2 x Hle2 Hx.
  apply ok_clock. intros w3 now Hle3 Hnow. destruct x as [c| |]; [|done..].
  destruct (isClaimExpired _ now) eqn:Hexp; cbv [negb]; [|done].
  apply ok_look. intros w4 s4 Hle4 [-> _ _ _ _ _]. destruct Hx as [Hlog _].
  apply ok_bind, (ok_update parkClaimSchema good); [apply may_get| |].
  - split_and!; [done..|]. exists (value c). split; [eapply Log.logged_mono; [|exact Hlog]; by etrans|].
    right. exists now. split; [by eapply Log.seen_mono|done].
  - intros w5 [r|y|] Hle5 Hy; [|done..]. apply ok_change; [|done].
    intros w6 s6 Hle6 Hinv. apply inv_set_takeovers; [done|].
    intros k r' [(<- & <-)|[_ Hr]]%lookup_insert_Some.
    + eapply wrote_record. by eapply Log.logged_mono.
    + by eapply inv_takeovers.
Qed.

Lemma ok_discard i w o l n : okay i w (discard o l n) (λ _ _, True).
Proof.
  apply ok_look. intros w1 s1 Hle1 [_ -> _ _ _ _]. cbv [negb].
  destruct (kvKeyFor_parkClaim o l n) as [key|]; [|done].
  apply ok_look. intros w2 s2 Hle2 Hinv. destruct (takeovers s2 !! key) as [r|] eqn:Hr; [|done].
  apply (inv_takeovers _ _ _ Hinv) in Hr as (v & Hv & Hi). apply ok_change.
  - intros w3 s3 Hle3 Hinv3. apply inv_set_takeovers; [done|]. intros k r' [_ Hk]%lookup_delete_Some.
    by eapply inv_takeovers.
  - intros w3 Hle3. apply ok_bind, (ok_release good); [exists v; split; [by eapply Log.logged_mono|done]|done].
Qed.

Lemma ok_restore i w e : okay i w (restore e) (λ _ _, True).
Proof.
  apply ok_look. intros w1 s1 Hle1 _. case_bool_decide; [done|].
  apply ok_bind, ok_takeClaim. intros w2 [r key| |] Hle2 Hx; [|done..]. destruct Hx as [Hk (now & Hl)].
  apply ok_change; [|done]. intros w3 s3 Hle3 Hinv. apply inv_record; [done| |done].
  eapply wrote_record. by eapply Log.logged_mono.
Qed.

Lemma ok_release_call i w c : okay i w (release c) (λ _ _, True).
Proof.
  apply ok_look. intros w1 s1 Hle1 _. destruct (forChannel s1 c) as [e|]; [|done].
  apply ok_bind. refine (ok_weaken Log.le _ _ _ _ _ _ _ _ _ (ok_claim i w1 _ _ _) _). done.
Qed.

Lemma ok_forgetEnded i w c : okay i w (forgetEnded c) (λ _ _, True).
Proof.
  apply ok_look. intros w1 s1 Hle1 _. destruct (forChannel s1 c) as [e|]; [|done].
  intros w2 now s2 Hle2 _ Hinv.
  destruct (inv_removeLocal w2 i s2 (parkLotId e) (slot e) (Some (organizationId e)) Hinv) as [Hr _].
  by destruct (removeLocal _ _ _ s2).
Qed.

Lemma ok_renew i w now n (x : string * HeldClaim) :
  kvKeyFor_parkClaim (organizationId (held_entry x.2)) (parkLotId (held_entry x.2))
    (slot (held_entry x.2)) = Ok (held_key x.2) →
  okay i w (renew now n x) (λ _ _, True).
Proof.
  destruct x as [channel held]. intros Hk. simpl in Hk.
  apply ok_look. intros w1 s1 Hle1 _. case_bool_decide; [done|].
  apply ok_look. intros w2 s2 Hle2 [-> _ _ _ _ _].
  apply ok_look. intros w3 s3 Hle3 Hinv. destruct (held_revision s3 held) as [r0|] eqn:Hr; [|done].
  apply (inv_revisions _ _ _ Hinv) in Hr as (v & Hv & Hi).
  apply ok_bind, (ok_update parkClaimSchema good); [apply may_get| |].
  { split_and!; [done..|]. exists v. split; [done|by left]. }
  intros w4 [r|cur|] Hle4 Hx; [| |done].
  - apply ok_change; [|done]. intros w5 s5 Hle5 H5. apply inv_set_revision; [done|].
    eapply wrote_record. by eapply Log.logged_mono.
  - apply ok_look. intros w5 s5 Hle5 _. case_bool_decide; [done|].
    apply ok_look. intros w6 s6 Hle6 [-> _ _ _ _ _]. destruct (adopted i cur) as [r|] eqn:Ha.
    + apply ok_change; [|done]. intros w7 s7 Hle7 H7. apply inv_set_revision; [done|].
      destruct cur as [c|]; [|done]. simpl in Ha. case_bool_decide as Hc; [|done]. injection Ha as <-.
      exists (value c). split; [|done]. destruct Hx as [Hx _]. eapply Log.logged_mono; [|exact Hx].
      etrans; [eassumption|]. by etrans.
    + apply ok_change; [|done]. intros w7 s7 Hle7 H7. by apply inv_lapse.
Qed.

Lemma ok_heartbeat i w : okay i w heartbeat (λ _ _, True).
Proof.
  apply ok_look. intros w1 s1 Hle1 [_ -> Hc _ _ _]. cbv [negb]. case_bool_decide; [done|].
  apply ok_clock. intros w2 now Hle2 Hnow. refine (ok_each Log.le _ _ _ _ _ _ _ _ _ (λ _ _, True) _ I _ _); [|done].
  intros w3 n [c h] Hle3 Hin _. by eapply ok_renew, Hc.
Qed.

Lemma body_ok w i op : okay i w (body op) (post i op).
Proof.
  destruct op; cbv [body]; apply ok_bind.
  - apply ok_park_loop.
  - apply ok_claim.
  - apply ok_takeOverStale.
  - apply ok_discard.
  - apply ok_restore.
  - apply ok_release_call.
  - apply ok_forgetEnded.
  - apply ok_heartbeat.
  - intros w1 now s Hle Hs Hinv. split; [by apply inv_clear|done].
Qed.

(** ** Every instance of a cluster *)
Section Cluster.
Context {B : Type} `{!KvBucket B ParkClaim} `{!KvLaws B ParkClaim}.

Definition boot_instance (i : string) : Registry := bindClaims true i empty_registry.

Abbreviation cluster := (system (B := B) (S := Registry) (Q := request ParkClaim)
                           (A := answer ParkClaim) (Op := Op) (R := Reply)).

Definition cluster_step : cluster → label → option cluster := step serve body boot_instance.

Definition cluster_run : cluster → list label → option cluster := run serve body boot_instance.


Lemma may_writes_good w i q : may w i q → Log.writes_good good q.
Proof. destruct q; simpl; naive_solver. Qed.

Lemma cluster_reachable b ls sys :
  Log.unclaimed b → cluster_run (boot b) ls = Some sys →
  ∃ w, valid Log.le Log.seen inv (Log.srv good) may (Log.fits good) post w sys.
Proof.
  intros Hb Hr. apply (run_inv serve body boot_instance Log.le Log.seen inv (Log.srv good) may
    (Log.fits good) inv_mono may_mono post post_mono) with (w := Log.genesis) in Hr.
  - destruct Hr as (w & _ & Hv). by exists w.
  - intros w b0 i q f b' a Hs Hm. apply Log.log_serve_ok; [done|by eapply may_writes_good].
  - intros w b0 i now. apply Log.log_tick.
  - intros w i. apply inv_fresh.
  - intros w i op. apply body_ok.
  - apply boot_valid; [by apply Log.genesis_srv|]. intros i now H. inversion H.
Qed.


(** ** One call to [park], undisturbed *)
Section Undisturbed.
Context (now : Z) (range : ParkSlotRangeBounds) (e : Parking).

Abbreviation orbit_key := (kvKeyFor_parkClaim (organizationId e) (parkLotId e)).

(** The bucket holds a claim on the orbit that has not expired. *)
Definition live_claim (b : B) (n : Z) : bool :=
  match orbit_key n with
  | Ok key =>
      match kv_get b key with
      | Some (Parsed v, _) => negb (isClaimExpired (pc_expiresAt v) now)
      | Some (Unparsable, _) => true
      | None => false
      end
  | Throw _ => false
  end.

(** An orbit of the lot with no call on it, here or elsewhere. *)
Definition open_orbit (b : B) (s : Registry) (n : Z) : Prop :=
  isParkSlotInRange range n = true ∧ at_ s (parkLotId e) n (Some (organizationId e)) = None ∧
  live_claim b n = false.

Definition readable (b : B) (n : Z) : Prop :=
  ∃ key, orbit_key n = Ok key ∧ ∀ x r, kv_get b key = Some (x, r) →
    match x with Parsed v => parkClaimSchema v = true | Unparsable => False end.

Lemma exec_takeClaim b s n :
  isConfigured s = true → readable b n →
  ∃ b' x, exec serve_now now (takeClaim {| parking := e; slot := n |}) b s = (b', s, x) ∧
    match x with
    | taken r key => orbit_key n = Ok key ∧ live_claim b n = false ∧
        kv_get b' key = Some (Parsed (claimRecord (instance s) {| parking := e; slot := n |} now), r)
    | lost => b' = b ∧ live_claim b n = true
    | unavailable => False
    end.
Proof.
  intros Hs (key & Hk & Hr). unfold takeClaim, live_claim. exec_steps. rewrite Hs. cbv [negb].
  cbn [parking slot]. rewrite Hk. exec_steps. rewrite exec_bind, exec_create.
  set (rec := claimRecord _ _ _). unfold outcome_of, read_of.
  destruct (kv_get b key) as [[[v|] r]|] eqn:Hg; [|by destruct (Hr _ _ eq_refl)|].
  1: specialize (Hr _ _ eq_refl); simpl in Hr; rewrite Hr.
  - destruct (kv_create b key rec) as [b1|] eqn:Hc.
    { assert (kv_get b key = None) by (apply (kv_create_free b key rec); by rewrite Hc). congruence. }
    cbn [value revision]. destruct (isClaimExpired (pc_expiresAt v) now); cbv [negb].
    + exec_steps. rewrite exec_bind, exec_update. fold rec.
      destruct (proj2 (kv_update_at b key rec r)) as [b1 Hu]; [by eexists|]. rewrite Hu. simpl.
      exists b1, (taken (kv_seq b1) key). split_and!; try done.
      by apply kv_update_writes in Hu as (_ & Hget & _).
    + by exists b, lost.
  - destruct (proj2 (kv_create_free b key rec) Hg) as [b1 Hc]. rewrite Hc. simpl.
    exists b1, (taken (kv_seq b1) key). split_and!; try done.
    by apply kv_create_writes in Hc as (_ & Hget & _).
Qed.

(** What [park] with no orbit asked for owes its caller. *)
Definition park_spec (b : B) (s : Registry) (b' : B) (s' : Registry) (r : ParkResult) : Prop :=
  match r with
  | Parked p =>
      parking p = e ∧ open_orbit b s (slot p) ∧ (∀ n, open_orbit b s n → slot p <= n) ∧
      at_ s' (parkLotId e) (slot p) (Some (organizationId e)) = Some p ∧
      ∃ key rev, orbit_key (slot p) = Ok key ∧
        kv_get b' key = Some (Parsed (claimRecord (instance s) p now), rev)
  | LotFull _ => (∀ n, ¬ open_orbit b s n) ∧ b' = b ∧ s' = s
  | SlotUnavailable _ | ClaimsUnavailable => False
  end.

Lemma at_record s (p : ParkedCall) r k :
  at_ (record p r k s) (parkLotId p) (slot p) (Some (organizationId p)) = Some p.
Proof.
  unfold at_, localLot, record, with_slots. cbn [lots]. rewrite lookup_insert_eq. cbn.
  rewrite lookup_insert_eq. cbn. by rewrite lookup_insert_eq.
Qed.

Lemma taken_slots_spec s attempted n :
  n ∈ taken_slots e attempted s ↔
  is_Some (at_ s (parkLotId e) n (Some (organizationId e))) ∨ n ∈ attempted.
Proof.
  unfold taken_slots, at_. destruct (js_set_spec (match localLot s (parkLotId e) (Some (organizationId e)) with
    | Some (_, slots) => (map_to_list slots).*1 | None => [] end ++ attempted)) as [_ Hin].
  rewrite Hin, elem_of_app. clear Hin. destruct (localLot _ _ _) as [[o slots]|]; simpl.
  - rewrite list_elem_of_fmap. split; (intros [H|H]; [left|by right]).
    + destruct H as ([m p] & -> & H%elem_of_map_to_list). by exists p.
    + destruct H as [p H]. exists (n, p). split; [done|]. by apply elem_of_map_to_list.
  - split; (intros [H|H]; [|by right]); [inversion H|by destruct H].
Qed.

(** Distinct orbits of the lot are no more than its capacity. *)
Lemma slots_bounded (l : list Z) :
  NoDup l → (∀ n, n ∈ l → isParkSlotInRange range n = true) →
  Z.of_nat (length l) <= Z.max 0 (parkSlotCapacity range).
Proof.
  intros Hd Hr. destruct l as [|n l]; [simpl; lia|].
  assert (isUsableParkSlotRange range = true) as Hu.
  { specialize (Hr n (list_elem_of_here _ _)). by apply isParkSlotInRange_spec in Hr as [? _]. }
  destruct (parkSlotCapacity_usable range Hu) as [Hcap Hpos].
  assert (n :: l ⊆+ seqZ (slotStart range) (parkSlotCapacity range)) as Hsub.
  { apply NoDup_submseteq; [done|]. intros m Hm. apply elem_of_seqZ.
    apply Hr, isParkSlotInRange_spec in Hm as [_ ?]. lia. }
  apply submseteq_length in Hsub. rewrite length_seqZ in Hsub. lia.
Qed.

(** The orbits tried so far are others' and all different. *)
Definition tried (b : B) (attempted : list Z) : Prop :=
  NoDup attempted ∧ ∀ n, n ∈ attempted → isParkSlotInRange range n = true ∧ live_claim b n = true.

Lemma tried_next b attempted n :
  tried b attempted → n ∉ attempted → isParkSlotInRange range n = true → live_claim b n = true →
  tried b (js_set (attempted ++ [n])) ∧ length (js_set (attempted ++ [n])) = S (length attempted).
Proof.
  intros [Hd Ht] Hn Hr Hl. destruct (js_set_spec (attempted ++ [n])) as [Hd' Hin]. split.
  - split; [done|]. intros m [Hm| ->%list_elem_of_singleton]%Hin%elem_of_app; [by apply Ht|done].
  - assert (js_set (attempted ++ [n]) ≡ₚ n :: attempted) as Hp.
    { apply NoDup_Permutation; [done|by constructor|]. intros m. rewrite Hin. set_solver. }
    by rewrite Hp.
Qed.

Lemma park_loop_spec attempts b s attempted b' s' r :
  isConfigured s = true → (∀ n, isParkSlotInRange range n = true → readable b n) → tried b attempted →
  parkSlotCapacity range <= Z.of_nat (attempts + length attempted) →
  1 <= Z.of_nat (attempts + length attempted) →
  exec serve_now now (park_loop attempts range e None attempted) b s = (b', s', r) →
  park_spec b s b' s' r.
Proof.
  intros Hs Hread. revert attempted.
  induction attempts as [|attempts IH]; intros attempted Ht Hcap Hone; cbn [park_loop].
  - rewrite exec_ret. intros [= <- <- <-]. split; [|done]. intros n (Hr & Ho & Hl).
    destruct Ht as [Hd Ht]. assert (n ∉ attempted) by (intros [_ ?]%Ht; congruence).
    assert (Z.of_nat (length (n :: attempted)) <= Z.max 0 (parkSlotCapacity range)) as Hb.
    { apply slots_bounded; [by constructor|]. intros m [->|Hm]%elem_of_cons; [done|by apply Ht]. }
    simpl in Hb, Hcap, Hone. lia.
  - exec_steps. pose proof (nextFreeParkSlot_spec range (taken_slots e attempted s) None) as Hspec.
    assert (Hopen : ∀ n, open_orbit b s n → n ∉ taken_slots e attempted s).
    { intros n (_ & Ho & Hl) [Hat|Hat]%taken_slots_spec; [by rewrite Ho in Hat; destruct Hat|].
      apply (proj2 Ht) in Hat as [_ ?]. congruence. }
    destruct (nextFreeParkSlot _ _ _) as [chosen|] eqn:Hn.
    2:{ rewrite exec_ret. intros [= <- <- <-]. split; [|done]. intros n Ho.
        eapply Hopen; [done|]. eapply nextFree_None; [done|apply Ho]. }
    destruct (proj1 (Hspec chosen) eq_refl) as [[Hr Hfree] Hlow]. rewrite Hr. cbv [negb].
    destruct (exec_takeClaim b s chosen Hs (Hread chosen Hr)) as (b1 & x & Hx & Hres).
    rewrite exec_bind, Hx. destruct x as [rev key| |]; [|destruct Hres as [-> Hlive]|done].
    + exec_steps. intros [= <- <- <-]. destruct Hres as (Hk & Hl & Hg). split_and!; try done.
      * split_and!; try done. destruct (at_ s _ _ _) eqn:Hat; [|done]. destruct Hfree.
        apply taken_slots_spec. left. cbn [slot] in Hat. rewrite Hat. by eexists.
      * intros n Ho. destruct (decide (chosen <= n)); [done|]. apply Hopen in Ho as Hno.
        destruct Hno. apply Hlow. destruct Ho as (Hr' & _ & _).
        apply isParkSlotInRange_spec in Hr' as [_ ?]. simpl in *. lia.
      * by apply (at_record s {| parking := e; slot := chosen |}).
      * by exists key, rev.
    + destruct (tried_next b attempted chosen) as [Ht' Hlen]; try done.
      { intros Hin. apply Hfree, taken_slots_spec. by right. }
      apply IH; [done|rewrite Hlen; lia|rewrite Hlen; lia].
Qed.

(** C27. A park that asks for no orbit in particular, with shared claims configured and
    undisturbed, in a lot every orbit of which has a key that can be built and a record,
    if any, that can be parsed, takes the lowest orbit on which no call waits, neither
    here nor, by a claim that still counts, on another instance; an orbit whose claim has
    expired is taken over. It leaves the claim in the bucket and the call on the orbit,
    and it finds the lot full only when no orbit is open, in which case nothing has
    changed. It always answers. *)
Theorem park_takes_lowest_open_orbit b s :
  isConfigured s = true → (∀ n, isParkSlotInRange range n = true → readable b n) →
  ∃ b' s' r, exec serve_now now (park range e None) b s = (b', s', r) ∧ park_spec b s b' s' r.
Proof.
  intros Hs Hread. destruct (exec serve_now now (park range e None) b s) as [[b' s'] r] eqn:Hx.
  exists b', s', r. split; [done|]. eapply park_loop_spec; [done|done| | | |exact Hx].
  - split; [constructor|]. intros n Hn. inversion Hn.
  - simpl. lia.
  - simpl. lia.
Qed.
End Undisturbed.

Lemma at_removeLocal s l n org e :
  placed s → at_ s l n (Some org) = Some e → at_ (removeLocal l n (Some org) s).1 l n (Some org) = None.
Proof.
  intros Hp Hat. pose proof (at_placed _ _ _ _ _ Hp Hat) as (_ & _ & Ho). specialize (Ho org eq_refl).
  unfold at_ in Hat. apply bind_Some in Hat as ([o slots] & Hl & He). simpl in He.
  unfold removeLocal. rewrite Hl, He. simpl. rewrite Ho.
  apply localLot_Some in Hl as [(m & Hm & Hs) Heq]. specialize (Heq org eq_refl) as ->.
  unfold at_, localLot, without_slot. cbn [lots]. rewrite Hm. cbn [default]. rewrite lookup_insert_eq.
  case_bool_decide; [case_bool_decide|].
  - by rewrite lookup_delete_eq.
  - rewrite lookup_insert_eq. cbn. by rewrite lookup_delete_eq.
  - rewrite lookup_insert_eq. cbn. rewrite lookup_insert_eq. cbn. by rewrite lookup_delete_eq.
Qed.

Lemma removeLocal_at s l n o : (removeLocal l n o s).2 = at_ s l n o.
Proof.
  unfold removeLocal, at_. destruct (localLot s l o) as [[x slots]|]; [|done]. simpl.
  by destruct (slots !! n).
Qed.

Lemma set_retrieving_back s c :
  c ∉ retrieving s →
  set_retrieving (λ r, r ∖ {[c]}) (set_retrieving (λ r, {[c]} ∪ r) s) = s.
Proof.
  intros Hc. destruct s as [l bc cl rv tk rt cf ins]. unfold set_retrieving. simpl in *. f_equal. set_solver.
Qed.

(** C28. Retrieval is exclusive and loses nothing. Undisturbed, a retrieval of a call
    this instance parked collects it exactly when the bucket still holds the claim at
    the revision on record: then the claim is gone and the orbit is empty. Otherwise
    it is refused, and neither the bucket nor the registry has changed, so the call
    can still be collected. *)
Theorem claim_collects_or_keeps now b s l n org e h r :
  placed s → at_ s l n (Some org) = Some e → mediaChannelId e ∉ retrieving s →
  claim_of s (mediaChannelId e) = Some (h, r) →
  ∃ b' s' x, exec serve_now now (claim l n (Some org)) b s = (b', s', x) ∧
    ((∃ y, kv_get b (held_key h) = Some (y, r)) ∧ x = Claimed e ∧ kv_get b' (held_key h) = None ∧
       at_ s' l n (Some org) = None ∧ retrieving s' = retrieving s ∨
     (¬ ∃ y, kv_get b (held_key h) = Some (y, r)) ∧ x = ClaimUnavailable ∧ b' = b ∧ s' = s).
Proof.
  intros Hp Hat Hbusy Hh. unfold claim. exec_steps. rewrite Hat. unfold claim_local. exec_steps.
  rewrite bool_decide_false by done. exec_steps. rewrite Hh. exec_steps.
  rewrite exec_bind, exec_release. destruct (kv_delete b (held_key h) r) as [b1|] eqn:Hd; cbv [negb].
  - set (s1 := set_retrieving _ s). rewrite exec_bind. exec_steps. rewrite removeLocal_at.
    assert (at_ s1 l n (Some org) = Some e) as Hat1 by done. rewrite Hat1. exec_steps.
    assert (placed s1) as Hp1 by done. eexists b1, _, _. split; [reflexivity|]. left. split_and!.
    + apply kv_delete_at. by eexists.
    + done.
    + by apply kv_delete_writes in Hd as (_ & ? & _).
    + by apply (at_removeLocal s1 l n org e).
    + unfold set_retrieving at 1. cbn [retrieving].
      destruct (removeLocal_rest s1 l n (Some org)) as (_ & _ & _ & _ & Hr & _). simpl in Hr. rewrite Hr.
      unfold s1. simpl. set_solver +Hbusy.
  - rewrite exec_bind. exec_steps. rewrite set_retrieving_back by done. eexists b, s, _. split; [done|].
    right. split_and!; try done. intros (y & Hy). assert (is_Some (kv_delete b (held_key h) r)) as [? ?]; [|congruence].
    apply kv_delete_at. by exists y.
Qed.

(** *** Any number of instances, any schedule *)

(** C24. A live claim is taken by nobody else. In every run of any number of instances,
    with methods interleaved at every wait, requests and answers lost and instances
    crashing at any point, a request that changes or removes the claim an orbit holds
    was made by the instance the claim names, or by one whose own clock had shown the
    claim to be expired. *)
Theorem park_claim_fenced b ls sys t f sys' key v r :
  Log.unclaimed b → cluster_run (boot b) ls = Some sys → cluster_step sys (Serve t f) = Some sys' →
  kv_get (server sys) key = Some (Parsed v, r) → kv_get (server sys') key ≠ Some (Parsed v, r) →
  ∃ i op st, tasks sys !! t = Some (i, op, st) ∧
    (pc_instanceId v = i ∨ ∃ now, (i, now) ∈ shown sys ∧ isClaimExpired (pc_expiresAt v) now = true).
Proof.
  intros Hb Hr Hstep Hg Hch. destruct (cluster_reachable b ls sys Hb Hr) as (w & [Hsrv _ Hta _ Hseen]).
  simpl in Hstep. destruct (tasks sys !! t) as [[[i op] st]|] eqn:Ht; [|done].
  exists i, op, st. split; [done|]. specialize (Hta t _ Ht). simpl in Hta.
  assert (∃ q, may w i q ∧ ∃ b' a, serve (server sys) q f = (b', a) ∧ server sys' = b') as (q & Hm & b' & a & Hs & Hs').
  { destruct st as [q k|a k|q]; [|done|]; exists q; (split; [by try apply Hta|]);
      destruct (serve (server sys) q f) as [b' a]; injection Hstep as <-; by exists b', a. }
  rewrite Hs' in Hch. destruct (serve_takes _ _ _ _ _ _ _ _ Hs Hg Hch) as [[v' ->]| ->]; simpl in Hm.
  - destruct Hm as (_ & _ & old & Ho & H). pose proof (Log.srv_same _ _ _ Hsrv _ _ _ _ Ho Hg) as [= ->].
    destruct H as [H|(now & Hn & He)]; [by left|right]. exists now. split; [by apply Hseen|done].
  - destruct Hm as (old & Ho & H). pose proof (Log.srv_same _ _ _ Hsrv _ _ _ _ Ho Hg) as [= ->]. by left.
Qed.

(** C26. One instance holds an orbit. When the claim in the bucket is the one an instance
    holds for a parked call, it names that instance and that orbit, and no other
    instance holds it; so of two instances that both have a call on the orbit, at
    most one can renew or release the claim. *)
Theorem park_one_holder b ls sys i s c h v r :
  Log.unclaimed b → cluster_run (boot b) ls = Some sys →
  states sys !! i = Some s → (c, h) ∈ claims s → held_revision s h = Some r →
  kv_get (server sys) (held_key h) = Some (Parsed v, r) →
  pc_instanceId v = i ∧
  about_orbit (parkLotId (held_entry h)) (slot (held_entry h)) (Some (organizationId (held_entry h)))
    (entryFromClaim v) ∧
  ∀ j s' c' h', j ≠ i → states sys !! j = Some s' → (c', h') ∈ claims s' →
    held_key h' = held_key h → held_revision s' h' ≠ Some r.
Proof.
  intros Hb Hr Hi Hc Hrev Hg. destruct (cluster_reachable b ls sys Hb Hr) as (w & [Hsrv Hst _ _ _]).
  pose proof (Hst i s Hi) as Hinv. destruct (inv_revisions _ _ _ Hinv _ _ _ Hrev) as (v0 & Hv0 & Hi0).
  pose proof (Log.srv_same _ _ _ Hsrv _ _ _ _ Hv0 Hg) as [= ->]. split_and!; [done| |].
  - eapply good_about; [by eapply inv_claims|]. by eapply Log.srv_good.
  - intros j s' c' h' Hne Hj _ Hk Hrev'. unfold held_revision, held_at in Hrev'. rewrite Hk in Hrev'.
    destruct (inv_revisions _ _ _ (Hst j s' Hj) _ _ _ Hrev') as (v1 & Hv1 & Hj1).
    pose proof (Log.srv_once _ _ _ Hsrv _ _ _ _ Hv0 Hv1). by subst.
Qed.

(** Answers are about the orbit that was asked for. In every run, a park that
    reports success reports the call it was given, on an orbit of the lot, the one
    asked for if one was; a retrieval that finds a call, here, on another instance or
    behind an expired claim, names the tenant, the lot and the slot it was asked
    for. *)
Theorem park_replies_right b ls sys i op r :
  Log.unclaimed b → cluster_run (boot b) ls = Some sys → (i, op, r) ∈ replies sys →
  match op, r with
  | OPark range entry p, RPark (Parked e) =>
      parking e = entry ∧ isParkSlotInRange range (slot e) = true ∧ ∀ n, p = Some n → slot e = n
  | OClaim l n o, RClaim r => claim_post l n o r
  | _, _ => True
  end.
Proof.
  intros Hb Hr Hin. destruct (cluster_reachable b ls sys Hb Hr) as (w & [_ _ _ Hre _]).
  rewrite Forall_forall in Hre. specialize (Hre _ Hin). simpl in Hre.
  destruct op, r; try done. destruct result; try done. simpl in Hre. naive_solver.
Qed.
End Cluster.
End ParkRegistry.
