(* ===== verification/ParkRuns.v ===== *)
(** * Runs of the park registry

    Concrete schedules of [ParkRegistry.v] on the bucket in memory: an instance parks a
    call and dies, another takes the orbit over; and, without shared claims, two parks
    that meet. *)

From S2P Require Import Prelude Kv Async Claims.
From S2P Require Import ParkRegistry.
From S2P Require Park.

Module ParkRuns.
Import Park.Park ParkRegistry.ParkRegistry.

Definition lot_401_402 : ParkSlotRangeBounds := {| slotStart := 401; slotEnd := 402 |}.

Definition call (name : string) : Parking := {|
  parkLotId := "main"; mediaChannelId := name; legId := name; callId := name;
  organizationId := "acme"; parkedByLegId := None; parkedByNumber := None;
  parkedAtMs := 0; mohClass := None |}.

Definition bucket : Type := MapBucket.bucket ParkClaim.

Definition empty : bucket := MapBucket.empty_bucket.

Definition cluster : Type :=
  system (B := bucket) (S := Registry) (Q := request ParkClaim) (A := answer ParkClaim) (Op := Op) (R := Reply).

Definition after (ls : list label) : cluster := default (boot empty) (cluster_run (boot empty) ls).

Lemma run_after ls :
  match cluster_run (boot empty) ls with Some _ => true | None => false end = true →
  cluster_run (boot empty) ls = Some (after ls).
Proof. unfold after. by destruct (cluster_run _ ls). Qed.

Definition next (sys : cluster) (l : label) : cluster := default sys (cluster_step sys l).

Lemma step_next sys l :
  match cluster_step sys l with Some _ => true | None => false end = true →
  cluster_step sys l = Some (next sys l).
Proof. unfold next. by destruct (cluster_step sys l). Qed.

Lemma empty_unclaimed : Log.unclaimed empty.
Proof. intros k v r H. done. Qed.

(** [a] parks on 401 and dies; [b] asks for 401 when the lease has run out. *)
Definition orphaned_orbit : list (label (Op := Op) (F := fault)) := [
  Start 1 "a" 0 (OPark lot_401_402 (call "alice") None); Serve 1 Delivered; Resume 1 1;
  Crash "a";
  Start 2 "b" 90000 (OPark lot_401_402 (call "bob") (Some 401)); Serve 2 Delivered; Resume 2 90001;
  Serve 2 Delivered; Resume 2 90002 ].

Definition first_claim : ParkClaim := claimRecord "a" {| parking := call "alice"; slot := 401 |} 0.

Lemma park_claim_fenced_witness :
  ∃ i op st, tasks (after orphaned_orbit) !! 2%nat = Some (i, op, st) ∧
    (pc_instanceId first_claim = i ∨
     ∃ now, (i, now) ∈ shown (after orphaned_orbit) ∧ isClaimExpired (pc_expiresAt first_claim) now = true).
Proof.
  apply (park_claim_fenced empty orphaned_orbit (after orphaned_orbit) 2 Delivered
           (next (after orphaned_orbit) (Serve 2 Delivered)) "acme.main.401" first_claim 1).
  - exact empty_unclaimed.
  - apply run_after. vm_compute. reflexivity.
  - apply step_next. vm_compute. reflexivity.
  - vm_compute. reflexivity.
  - vm_compute. discriminate.
Defined.

Definition handed_over : list (label (Op := Op) (F := fault)) :=
  orphaned_orbit ++ [Serve 2 Delivered; Resume 2 90003].

Lemma state_after ls i :
  match states (after ls) !! i with Some _ => true | None => false end = true →
  states (after ls) !! i = Some (default empty_registry (states (after ls) !! i)).
Proof. by destruct (states (after ls) !! i). Qed.

Definition bob_held : HeldClaim :=
  {| held_id := 0; held_entry := {| parking := call "bob"; slot := 401 |}; held_key := "acme.main.401" |}.

Definition second_claim : ParkClaim := claimRecord "b" {| parking := call "bob"; slot := 401 |} 90000.

Lemma park_one_holder_witness :
  pc_instanceId second_claim = "b" ∧
  about_orbit "main" 401 (Some "acme") (entryFromClaim second_claim) ∧
  ∀ j s' c' h', j ≠ "b" → states (after handed_over) !! j = Some s' → (c', h') ∈ claims s' →
    held_key h' = "acme.main.401" → held_revision s' h' ≠ Some 2.
Proof.
  apply (park_one_holder empty handed_over (after handed_over) "b"
           (default empty_registry (states (after handed_over) !! "b")) "bob" bob_held second_claim 2).
  - exact empty_unclaimed.
  - apply run_after. vm_compute. reflexivity.
  - apply state_after; vm_compute; reflexivity.
  - vm_compute. apply list_elem_of_here.
  - vm_compute. reflexivity.
  - vm_compute. reflexivity.
Defined.

Lemma park_replies_right_witness :
  parking {| parking := call "bob"; slot := 401 |} = call "bob" ∧
  isParkSlotInRange lot_401_402 401 = true ∧ ∀ n, Some 401 = Some n → 401 = n.
Proof.
  apply (park_replies_right empty handed_over (after handed_over) "b"
           (OPark lot_401_402 (call "bob") (Some 401)) (RPark (Parked {| parking := call "bob"; slot := 401 |}))).
  - exact empty_unclaimed.
  - apply run_after. vm_compute. reflexivity.
  - vm_compute. apply list_elem_of_further, list_elem_of_here.
Defined.

(** The bucket once [b] has the orbit, and an instance with nothing parked. *)
Lemma park_takes_lowest_witness :
  ∃ b' s' r,
    exec serve_now 100000 (park lot_401_402 (call "carol") None) (server (after handed_over))
      (boot_instance "c") = (b', s', r) ∧
    park_spec 100000 lot_401_402 (call "carol") (server (after handed_over)) (boot_instance "c") b' s' r ∧
    r = Parked {| parking := call "carol"; slot := 402 |}.
Proof.
  destruct (park_takes_lowest_open_orbit 100000 lot_401_402 (call "carol")
              (server (after handed_over)) (boot_instance "c")) as (b' & s' & r & Hx & Hp).
  - reflexivity.
  - intros n [_ Hn]%isParkSlotInRange_spec. simpl in Hn.
    assert (n = 401 ∨ n = 402) as [-> | ->] by lia;
      eexists; (split; [vm_compute; reflexivity|]); intros x r H; vm_compute in H;
      [by injection H as <- <-|done].
  - exists b', s', r. split; [exact Hx|]. split; [exact Hp|]. apply (f_equal snd) in Hx. vm_compute in Hx. exact (eq_sym Hx).
Defined.

Lemma placed_after ls i :
  match cluster_run (boot empty) ls with Some _ => true | None => false end = true →
  match states (after ls) !! i with Some _ => true | None => false end = true →
  placed (default empty_registry (states (after ls) !! i)).
Proof.
  intros Hr Hi. destruct (cluster_reachable empty ls (after ls)) as (w & Hv).
  - apply empty_unclaimed.
  - by apply run_after.
  - destruct (states (after ls) !! i) as [s|] eqn:Hs; [|done].
    exact (inv_placed _ _ _ (valid_states _ _ _ _ _ _ _ _ _ Hv i s Hs)).
Qed.

Lemma claim_collects_or_keeps_witness :
  let s := default empty_registry (states (after handed_over) !! "b") in
  ∃ b' s' x,
    exec serve_now 100000 (claim "main" 401 (Some "acme")) (server (after handed_over)) s = (b', s', x) ∧
    x = Claimed {| parking := call "bob"; slot := 401 |}.
Proof.
  intros s.
  destruct (claim_collects_or_keeps 100000 (server (after handed_over)) s "main" 401 "acme"
              {| parking := call "bob"; slot := 401 |} bob_held 2) as (b' & s' & x & Hx & Hor).
  - apply (placed_after handed_over "b"); vm_compute; reflexivity.
  - vm_compute. reflexivity.
  - intros H. vm_compute in H. inversion H.
  - vm_compute. reflexivity.
  - exists b', s', x. split; [exact Hx|]. apply (f_equal snd) in Hx. vm_compute in Hx. exact (eq_sym Hx).
Defined.

(** *** Without shared claims

    A single instance decides alone, but it awaits between picking a slot and
    recording it, so two parks that start in one turn of the event loop are both told
    "401"; the second overwrites the first, which no extension can collect. *)
Definition alone : cluster → label → option cluster :=
  step serve body (λ i, bindClaims false i empty_registry).

Definition two_parks : list (label (Op := Op) (F := fault)) := [
  Start 1 "a" 0 (OPark lot_401_402 (call "alice") None);
  Start 2 "a" 0 (OPark lot_401_402 (call "bob") None);
  Serve 1 Delivered; Serve 2 Delivered; Resume 1 0; Resume 2 0 ].

(** Without shared claims two calls can be told the same orbit. *)
Theorem unshared_parks_collide :
  match run serve body (λ i, bindClaims false i empty_registry) (boot empty) two_parks with
  | Some sys =>
      (replies sys).*2 = [RPark (Parked {| parking := call "alice"; slot := 401 |});
                          RPark (Parked {| parking := call "bob"; slot := 401 |})] ∧
      match states sys !! "a" with
      | Some s => at_ s "main" 401 (Some "acme") = Some {| parking := call "bob"; slot := 401 |} ∧
                  forChannel s "alice" = Some {| parking := call "alice"; slot := 401 |}
      | None => False
      end
  | None => False
  end.
Proof. vm_compute. split_and!; reflexivity. Qed.
End ParkRuns.
