(* ===== verification/ConferenceRegistry.v ===== *)
(** * The conference registry

    [apps/engine/src/routing/conference-registry.ts]: the rooms of one instance and the
    claim that makes every instance use one bridge. A [MutableRoom] is an object that
    outlives its place in the maps while a method waits, so rooms are references; a
    reference carries the readonly fields and the heap the others. Methods are programs
    of [Async.v]. *)

From S2P Require Import Prelude Kv Async Claims.

Module ConferenceRegistry.

(** ** Data *)
Record ConferenceMember := {
  mediaChannelId : string;
  legId : string;
  moderator : bool;
  joinedAtMs : Z }.

(** [conferenceContributionSchema], [conferenceClaimSchema] *)
Record ConferenceContribution := {
  co_memberCount : Z;
  co_moderatorPresent : bool;
  co_expiresAt : Z }.

Record ConferenceClaim := {
  cc_orgId : string;
  cc_claimedAt : Z;
  cc_conferenceId : string;
  cc_bridgeId : string;
  contributions : gmap string ConferenceContribution }.

#[global] Instance ConferenceContribution_eq_dec : EqDecision ConferenceContribution.
Proof. solve_decision. Defined.
#[global] Instance ConferenceClaim_eq_dec : EqDecision ConferenceClaim.
Proof. solve_decision. Defined.

Definition string_between (lo hi : nat) (v : string) : bool :=
  (lo <=? String.length v)%nat && (String.length v <=? hi)%nat.

(** A claim nobody contributes to is rejected. *)
Definition conferenceClaimSchema (c : ConferenceClaim) : bool :=
  negb (bool_decide (cc_orgId c = "")) && negb (bool_decide (cc_conferenceId c = "")) &&
  string_between 1 256 (cc_bridgeId c) &&
  forallb (λ '(i, x), string_between 1 128 i && (0 <? co_memberCount x)%Z) (map_to_list (contributions c)) &&
  negb (bool_decide (contributions c = ∅)).

Record ConferenceRoom := {
  cr_conferenceId : string;
  cr_bridgeId : string;
  cr_members : list ConferenceMember;
  cr_moderatorPresent : bool;
  cr_memberCount : Z }.

Inductive ConferenceJoinResult : Type :=
| Joined (room : ConferenceRoom) (created : bool)
| Full (memberCount : Z)
| ClaimsUnavailable.

Record ConferenceDeparture := {
  departed : option ConferenceMember;
  d_memberCount : Z;
  emptied : bool }.

Definition CAS_ATTEMPTS : nat := 4.

(** An object's identity and its readonly [organizationId] and [conferenceId]. *)
Definition RoomRef : Type := nat * option string * string.

Record Room := {
  bridgeId : string;
  (* a [Map], in insertion order *)
  members : list (string * ConferenceMember);
  (* the pending promises of [awaitModerator], by number *)
  moderatorWaiters : gset nat;
  claim : option (Claimed ConferenceClaim);
  memberCount : Z;
  moderatorPresent : bool }.

Record Registry := {
  (* the outer [Map] and the inner ones, in insertion order; each map has a number *)
  rooms : list (nat * option string * list RoomRef);
  heap : gmap RoomRef Room;
  next : nat;
  (* the promises that have been resolved *)
  resolved : gset nat;
  isConfigured : bool;
  instance : string }.

Definition new_room (bridge : string) : Room := {|
  bridgeId := bridge; members := []; moderatorWaiters := ∅; claim := None;
  memberCount := 0; moderatorPresent := false |}.

(** The object behind a reference; every reference has one. *)
Definition deref (s : Registry) (ref : RoomRef) : Room := default (new_room "") (heap s !! ref).

Definition set_rooms f (s : Registry) : Registry :=
  {| rooms := f (rooms s); heap := heap s; next := next s; resolved := resolved s;
     isConfigured := isConfigured s; instance := instance s |}.

Definition set_room (ref : RoomRef) (f : Room → Room) (s : Registry) : Registry :=
  {| rooms := rooms s; heap := <[ref := f (deref s ref)]> (heap s); next := next s;
     resolved := resolved s; isConfigured := isConfigured s; instance := instance s |}.

(** [Map.set] and [Map.delete] on [members] *)
Fixpoint member_set (channel : string) (m : ConferenceMember) l : list (string * ConferenceMember) :=
  match l with
  | [] => [(channel, m)]
  | (c, x) :: l => if bool_decide (c = channel) then (c, m) :: l else (c, x) :: member_set channel m l
  end.

Definition member_delete (channel : string) (l : list (string * ConferenceMember)) :=
  base.filter (λ x, x.1 ≠ channel) l.

Definition member_get (channel : string) (l : list (string * ConferenceMember)) : option ConferenceMember :=
  x ← find_first (λ x, bool_decide (x.1 = channel)) l; Some x.2.

(** [this.rooms.get(organizationId)?.get(conferenceId)] *)
Definition org_rooms (s : Registry) (org : option string) : option (nat * option string * list RoomRef) :=
  find_first (λ m, bool_decide (m.1.2 = org)) (rooms s).

Definition room_in (refs : list RoomRef) (conferenceId : string) : option RoomRef :=
  find_first (λ ref, bool_decide (ref.2 = conferenceId)) refs.

Definition room_at (s : Registry) (org : option string) (conferenceId : string) : option RoomRef :=
  m ← org_rooms s org; room_in m.2 conferenceId.

Definition localRoomIfUnambiguous (s : Registry) (conferenceId : string) (org : option string)
    : option RoomRef :=
  match org with
  | Some _ => room_at s org conferenceId
  | None =>
      match omap (λ m, room_in m.2 conferenceId) (rooms s) with
      | [ref] => Some ref
      | _ => None
      end
  end.

Definition localRoom (conferenceId bridge : string) (org : option string) (s : Registry)
    : Registry * RoomRef :=
  match room_at s org conferenceId with
  | Some ref => (s, ref)
  | None =>
      let ref := (next s, org, conferenceId) in
      ({| rooms :=
            match org_rooms s org with
            | None => rooms s ++ [(S (next s), org, [ref])]
            | Some _ =>
                map (λ m, if bool_decide (m.1.2 = org) then (m.1, m.2 ++ [ref]) else m) (rooms s)
            end;
          heap := <[ref := new_room bridge]> (heap s);
          next := S (S (next s)); resolved := resolved s;
          isConfigured := isConfigured s; instance := instance s |}, ref)
  end.

(** By name: the room of that name, whichever object it now is. *)
Definition deleteLocalRoom (ref : RoomRef) (s : Registry) : Registry :=
  set_rooms (λ l,
    base.filter (λ m, m.1.2 ≠ ref.1.2 ∨ m.2 ≠ [])
      (map (λ m, if bool_decide (m.1.2 = ref.1.2)
                 then (m.1, base.filter (λ r : RoomRef, r.2 ≠ ref.2) m.2) else m) l)) s.

Definition releaseModeratorWaiters (ref : RoomRef) (s : Registry) : Registry :=
  let waiters := moderatorWaiters (deref s ref) in
  let s := set_room ref (λ r, {| bridgeId := bridgeId r; members := members r; moderatorWaiters := ∅;
                                 claim := claim r; memberCount := memberCount r;
                                 moderatorPresent := moderatorPresent r |}) s in
  {| rooms := rooms s; heap := heap s; next := next s; resolved := waiters ∪ resolved s;
     isConfigured := isConfigured s; instance := instance s |}.

Definition snapshot (conferenceId : string) (room : Room) : ConferenceRoom :=
  let members := (members room).*2 in {|
  cr_conferenceId := conferenceId;
  cr_bridgeId := bridgeId room;
  cr_members := members;
  cr_moderatorPresent := moderatorPresent room || existsb moderator members;
  cr_memberCount := Z.max (memberCount room) (Z.of_nat (length members)) |}.

Definition room (s : Registry) (conferenceId : string) (org : option string) : option ConferenceRoom :=
  ref ← localRoomIfUnambiguous s conferenceId org; Some (snapshot ref.2 (deref s ref)).

Definition roomCount (s : Registry) : nat := sum_list_with (λ m, length m.2) (rooms s).

(** ** Claims *)

(** [claimState]: the contributions that still count. *)
Definition live_at (nowMs : Z) (c : ConferenceContribution) : bool := negb (isClaimExpired (co_expiresAt c) nowMs).

Definition live (claim : ConferenceClaim) (nowMs : Z) : gmap string ConferenceContribution :=
  base.filter (λ x, live_at nowMs x.2 = true) (contributions claim).

Definition state_memberCount (live : gmap string ConferenceContribution) : Z :=
  foldr Z.add 0%Z (map (λ x, co_memberCount x.2) (map_to_list live)).

Definition state_moderatorPresent (live : gmap string ConferenceContribution) : bool :=
  existsb (λ x, co_moderatorPresent x.2) (map_to_list live).

Definition claimRecord (self orgId conferenceId bridge : string) (claimedAt nowMs : Z)
    (current : option ConferenceClaim) (localMemberCount : Z) (localModeratorPresent : bool)
    : ConferenceClaim :=
  let others := delete self (match current with None => ∅ | Some c => live c nowMs end) in {|
  cc_orgId := orgId;
  cc_claimedAt := claimedAt;
  cc_conferenceId := conferenceId;
  cc_bridgeId := bridge;
  contributions :=
    if (0 <? localMemberCount)%Z
    then <[self := {| co_memberCount := localMemberCount; co_moderatorPresent := localModeratorPresent;
                      co_expiresAt := nowMs + CLAIM_LEASE_MS |}]> others
    else others |}.

Definition empty_registry : Registry :=
  {| rooms := []; heap := ∅; next := 0; resolved := ∅; isConfigured := false; instance := "engine-local" |}.

Definition bindClaims (bucket_configured : bool) (instanceId : string) (s : Registry) : Registry :=
  {| rooms := rooms s; heap := heap s; next := next s; resolved := resolved s;
     isConfigured := bucket_configured; instance := instanceId |}.

(** ** Methods *)
Abbreviation io := (prog Registry (request ConferenceClaim) (answer ConferenceClaim)).

Definition add_member (m : ConferenceMember) (r : Room) : Room :=
  {| bridgeId := bridgeId r; members := member_set (mediaChannelId m) m (members r);
     moderatorWaiters := moderatorWaiters r; claim := claim r;
     memberCount := memberCount r; moderatorPresent := moderatorPresent r |}.

Definition remove_member (channel : string) (r : Room) : Room :=
  {| bridgeId := bridgeId r; members := member_delete channel (members r);
     moderatorWaiters := moderatorWaiters r; claim := claim r;
     memberCount := memberCount r; moderatorPresent := moderatorPresent r |}.

Definition set_bridge (bridge : string) (r : Room) : Room :=
  {| bridgeId := bridge; members := members r; moderatorWaiters := moderatorWaiters r; claim := claim r;
     memberCount := memberCount r; moderatorPresent := moderatorPresent r |}.

Definition set_claim (c : option (Claimed ConferenceClaim)) (r : Room) : Room :=
  {| bridgeId := bridgeId r; members := members r; moderatorWaiters := moderatorWaiters r; claim := c;
     memberCount := memberCount r; moderatorPresent := moderatorPresent r |}.

Definition set_counts (count : Z) (hosted : bool) (r : Room) : Room :=
  {| bridgeId := bridgeId r; members := members r; moderatorWaiters := moderatorWaiters r; claim := claim r;
     memberCount := count; moderatorPresent := hosted |}.

Definition set_waiters (f : gset nat → gset nat) (r : Room) : Room :=
  {| bridgeId := bridgeId r; members := members r; moderatorWaiters := f (moderatorWaiters r); claim := claim r;
     memberCount := memberCount r; moderatorPresent := moderatorPresent r |}.

Record JoinOptions := { newBridgeId : string; maxMembers : Z; jo_organizationId : option string }.

Definition joinLocal (conferenceId : string) (member : ConferenceMember) (options : JoinOptions)
    (s : Registry) : Registry * ConferenceJoinResult :=
  match room_at s (jo_organizationId options) conferenceId with
  | None =>
      let '(s, ref) := localRoom conferenceId (newBridgeId options) (jo_organizationId options) s in
      let s := set_room ref (λ r, set_counts 1 (moderator member) (add_member member r)) s in
      (s, Joined (snapshot conferenceId (deref s ref)) true)
  | Some ref =>
      let size := Z.of_nat (length (members (deref s ref))) in
      if (0 <? maxMembers options)%Z && (maxMembers options <=? size)%Z then (s, Full size)
      else
        let s := set_room ref (λ r, let r := add_member member r in
                   set_counts (Z.of_nat (length (members r)))
                     (moderator member || moderatorPresent r) r) s in
        let s := if moderator member then releaseModeratorWaiters ref s else s in
        (s, Joined (snapshot conferenceId (deref s ref)) false)
  end.

(** The room of a joiner who is the first one in, once the claim is written. *)
Definition enter_first (conferenceId orgId : string) (member : ConferenceMember) (bridge : string)
    (c : Claimed ConferenceClaim) (s : Registry) : Registry * ConferenceJoinResult :=
  let '(s, ref) := localRoom conferenceId bridge (Some orgId) s in
  let s := set_room ref (λ r, set_counts 1 (moderator member) (set_claim (Some c) (add_member member r))) s in
  (s, Joined (snapshot conferenceId (deref s ref)) true).

(** The room of a joiner somebody was there before. *)
Definition enter_held (conferenceId orgId : string) (member : ConferenceMember) (bridge : string)
    (c : Claimed ConferenceClaim) (now : Z) (created : bool) (s : Registry) : Registry * ConferenceJoinResult :=
  let '(s, ref) := localRoom conferenceId bridge (Some orgId) s in
  let next := live (value c) now in
  let s := set_room ref (λ r, set_counts (state_memberCount next) (state_moderatorPresent next)
             (set_claim (Some c) (add_member member (set_bridge bridge r)))) s in
  let s := if state_moderatorPresent next then releaseModeratorWaiters ref s else s in
  (s, Joined (snapshot conferenceId (deref s ref)) created).

(** What this instance already contributes, as a joiner finds it. *)
Definition contribution_of (s : Registry) (conferenceId : string) (org : option string) : bool * Z * bool :=
  match localRoomIfUnambiguous s conferenceId org with
  | None => (false, 0, false)
  | Some ref => (true, Z.of_nat (length (members (deref s ref))), moderatorPresent (deref s ref))
  end%Z.

(** One round of the compare-and-set; [None] is [continue]. *)
Definition join_attempt (key conferenceId orgId : string) (member : ConferenceMember) (options : JoinOptions)
    : io (option ConferenceJoinResult) :=
  now ← clock;
  read ← KvClaimBucket.get conferenceClaimSchema key;
  self ← look instance;
  match read with
  | read_unavailable => mret (Some ClaimsUnavailable)
  | absent =>
      let record := claimRecord self orgId conferenceId (newBridgeId options) now now None 1 (moderator member) in
      written ← KvClaimBucket.create conferenceClaimSchema key record;
      match written with
      | write_unavailable => mret (Some ClaimsUnavailable)
      | write_lost _ => mret None
      | write_written r =>
          joined ← act (enter_first conferenceId orgId member (newBridgeId options) (Build_Claimed record r));
          mret (Some joined)
      end
  | present current =>
      let state := live (value current) now in
      if (state_memberCount state =? 0)%Z then
        let record := claimRecord self orgId conferenceId (newBridgeId options) now now None 1 (moderator member) in
        written ← KvClaimBucket.update conferenceClaimSchema key record (revision current);
        match written with
        | write_unavailable => mret (Some ClaimsUnavailable)
        | write_lost _ => mret None
        | write_written r =>
            joined ← act (enter_first conferenceId orgId member (newBridgeId options) (Build_Claimed record r));
            mret (Some joined)
        end
      else if (0 <? maxMembers options)%Z && (maxMembers options <=? state_memberCount state)%Z
      then mret (Some (Full (state_memberCount state)))
      else
        mine ← look (λ s, contribution_of s conferenceId (Some orgId));
        let '(existing, size, hosted) := (mine : bool * Z * bool) in
        let record := claimRecord self orgId conferenceId (cc_bridgeId (value current))
                        (cc_claimedAt (value current)) now (Some (value current)) (size + 1)
                        (hosted || moderator member) in
        written ← KvClaimBucket.update conferenceClaimSchema key record (revision current);
        match written with
        | write_unavailable => mret (Some ClaimsUnavailable)
        | write_lost _ => mret None
        | write_written r =>
            joined ← act (enter_held conferenceId orgId member (cc_bridgeId (value current))
                            (Build_Claimed record r) now (negb existing));
            mret (Some joined)
        end
  end.

Fixpoint join_loop (attempts : nat) (key conferenceId orgId : string) (member : ConferenceMember)
    (options : JoinOptions) : io ConferenceJoinResult :=
  match attempts with
  | O => mret ClaimsUnavailable
  | S attempts =>
      result ← join_attempt key conferenceId orgId member options;
      match result with
      | Some r => mret r
      | None => join_loop attempts key conferenceId orgId member options
      end
  end.

Definition join (conferenceId : string) (member : ConferenceMember) (options : JoinOptions)
    : io ConferenceJoinResult :=
  shared ← look isConfigured;
  if negb shared then act (joinLocal conferenceId member options)
  else
    match jo_organizationId options with
    | None => mret ClaimsUnavailable
    | Some orgId =>
        match kvKeyFor_conferenceClaim orgId conferenceId with
        | Throw _ => mret ClaimsUnavailable
        | Ok key => join_loop CAS_ATTEMPTS key conferenceId orgId member options
        end
    end.

(** What a room of this instance counts for, from its members alone. *)
Definition local_size (ref : RoomRef) (s : Registry) : Z := Z.of_nat (length (members (deref s ref))).

Definition local_moderator (ref : RoomRef) (s : Registry) : bool :=
  existsb moderator (members (deref s ref)).*2.

(** One round of [decrement]: [Some count] returns it. *)
Definition decrement_attempt (key orgId : string) (ref : RoomRef) : io (option Z) :=
  read ← KvClaimBucket.get conferenceClaimSchema key;
  match read with
  | present current =>
      now ← clock;
      self ← look instance;
      size ← look (local_size ref);
      hosted ← look (local_moderator ref);
      let record := claimRecord self orgId ref.2 (cc_bridgeId (value current)) (cc_claimedAt (value current))
                      now (Some (value current)) size hosted in
      let count := state_memberCount (live record now) in
      if (count =? 0)%Z then
        released ← KvClaimBucket.release key (revision current);
        if (released : bool) then _ ← change (set_room ref (set_claim None)); mret (Some 0%Z)
        else mret None
      else
        written ← KvClaimBucket.update conferenceClaimSchema key record (revision current);
        match written with
        | write_written r =>
            _ ← change (set_room ref (set_claim (Some (Build_Claimed record r))));
            mret (Some count)
        | write_unavailable => size ← look (local_size ref); mret (Some size)
        | write_lost _ => mret None
        end
  | _ => size ← look (local_size ref); mret (Some size)
  end.

Fixpoint decrement_loop (attempts : nat) (key orgId : string) (ref : RoomRef) : io Z :=
  match attempts with
  | O => look (local_size ref)
  | S attempts =>
      result ← decrement_attempt key orgId ref;
      match result with
      | Some count => mret count
      | None => decrement_loop attempts key orgId ref
      end
  end.

(** Without a bucket [await] still gives the event loop a turn. *)
Definition decrement (ref : RoomRef) : io (result (string * string) Z) :=
  shared ← look isConfigured;
  match ref.1.2, shared with
  | Some orgId, true =>
      match kvKeyFor_conferenceClaim orgId ref.2 with
      | Throw e => mret (Throw e)
      | Ok key => count ← decrement_loop CAS_ATTEMPTS key orgId ref; mret (Ok count)
      end
  | _, _ => size ← look (local_size ref); _ ← ask QYield; mret (Ok size)
  end.

(** What [leave] does once the cluster has been told. *)
Definition settle_departure (ref : RoomRef) (member : option ConferenceMember) (clusterCount : Z)
    (s : Registry) : Registry * ConferenceDeparture :=
  let s := set_room ref (λ r, set_counts clusterCount (moderatorPresent r) r) s in
  if bool_decide (members (deref s ref) = []) then
    (deleteLocalRoom ref (releaseModeratorWaiters ref s),
     {| departed := member; d_memberCount := clusterCount; emptied := (clusterCount <=? 0)%Z |})
  else (s, {| departed := member; d_memberCount := clusterCount; emptied := false |}).

Definition leave (conferenceId channel : string) (org : option string)
    : io (result (string * string) ConferenceDeparture) :=
  found ← look (λ s, localRoomIfUnambiguous s conferenceId org);
  match (found : option RoomRef) with
  | None => mret (Ok {| departed := None; d_memberCount := 0; emptied := false |})
  | Some ref =>
      member ← look (λ s, member_get channel (members (deref s ref)));
      _ ← change (set_room ref (remove_member channel));
      match member with
      | None =>
          departure ← act (λ s, settle_departure ref None (memberCount (deref s ref)) s);
          mret (Ok departure)
      | Some m =>
          count ← decrement ref;
          match count with
          | Throw e => mret (Throw e)
          | Ok count => departure ← act (settle_departure ref (Some m) count); mret (Ok departure)
          end
      end
  end.

(** A promise that is already resolved, or the number of one that is not. *)
Definition awaitModerator (conferenceId : string) (org : option string) (s : Registry)
    : Registry * option (RoomRef * nat) :=
  match localRoomIfUnambiguous s conferenceId org with
  | None => (s, None)
  | Some ref =>
      if moderatorPresent (deref s ref) then (s, None)
      else
        let s' := set_room ref (set_waiters (λ w, {[next s]} ∪ w)) s in
        ({| rooms := rooms s'; heap := heap s'; next := S (next s'); resolved := resolved s';
            isConfigured := isConfigured s'; instance := instance s' |}, Some (ref, next s))
  end.

Definition cancel (ref : RoomRef) (waiter : nat) (s : Registry) : Registry :=
  let s := set_room ref (set_waiters (λ w, w ∖ {[waiter]})) s in
  {| rooms := rooms s; heap := heap s; next := next s; resolved := {[waiter]} ∪ resolved s;
     isConfigured := isConfigured s; instance := instance s |}.

Definition refresh_with (ref : RoomRef) (current : Claimed ConferenceClaim) (now : Z) (s : Registry)
    : Registry * bool :=
  let state := live (value current) now in
  let had := moderatorPresent (deref s ref) in
  let s := set_room ref (λ r, set_counts (state_memberCount state) had (set_claim (Some current) r)) s in
  if state_moderatorPresent state && negb had then
    (releaseModeratorWaiters ref (set_room ref (λ r, set_counts (memberCount r) true r) s), true)
  else (s, had).

Definition refresh (conferenceId : string) (org : option string) : io (result (string * string) bool) :=
  found ← look (λ s, localRoomIfUnambiguous s conferenceId org);
  match (found : option RoomRef) with
  | None => mret (Ok false)
  | Some ref =>
      shared ← look isConfigured;
      match ref.1.2, shared with
      | Some orgId, true =>
          match kvKeyFor_conferenceClaim orgId conferenceId with
          | Throw e => mret (Throw e)
          | Ok key =>
              read ← KvClaimBucket.get conferenceClaimSchema key;
              match read with
              | present current =>
                  now ← clock;
                  here ← act (refresh_with ref current now);
                  mret (Ok here)
              | _ => here ← look (λ s, moderatorPresent (deref s ref)); mret (Ok here)
              end
          end
      | _, _ => here ← look (λ s, moderatorPresent (deref s ref)); mret (Ok here)
      end
  end.

(** Where a live iteration over the maps stands: the map it is in, the room it was at. *)
Definition position : Type := nat * nat.

Definition after (p q : position) : Prop := (p.1 < q.1 ∨ p.1 = q.1 ∧ p.2 < q.2)%nat.

#[global] Instance after_dec p q : Decision (after p q).
Proof. unfold after. apply _. Defined.

(** The rooms with their places; numbers grow in the order of insertion. *)
Definition placed (s : Registry) : list (position * RoomRef) :=
  concat (map (λ m, map (λ ref : RoomRef, ((m.1.1, ref.1.1), ref)) m.2) (rooms s)).

Definition rooms_after (p : position) (s : Registry) : list (position * RoomRef) :=
  base.filter (λ x, after p x.1) (placed s).

(** One room of a heartbeat. *)
Definition renew_written (ref : RoomRef) (record : ConferenceClaim) (r : Z) (now : Z) (s : Registry) : Registry :=
  set_room ref (λ x, set_counts (state_memberCount (live record now))
    (state_moderatorPresent (live record now)) (set_claim (Some (Build_Claimed record r)) x)) s.

Definition renew_room (ref : RoomRef) : io (result (string * string) Z) :=
  held ← look (λ s, claim (deref s ref));
  match held, ref.1.2 with
  | Some held, Some orgId =>
      match kvKeyFor_conferenceClaim orgId ref.2 with
      | Throw e => mret (Throw e)
      | Ok key =>
          now ← clock;
          self ← look instance;
          bridge ← look (λ s, bridgeId (deref s ref));
          size ← look (local_size ref);
          hosted ← look (local_moderator ref);
          let record := claimRecord self orgId ref.2 bridge (cc_claimedAt (value held)) now
                          (Some (value held)) size hosted in
          written ← KvClaimBucket.update conferenceClaimSchema key record (revision held);
          match written with
          | write_written r => _ ← change (renew_written ref record r now); mret (Ok 1%Z)
          | write_lost (Some current) =>
              _ ← change (renew_written ref (value current) (revision current) now); mret (Ok 0%Z)
          | _ => mret (Ok 0%Z)
          end
      end
  | _, _ => mret (Ok 0%Z)
  end.

(** [None] when [fuel] runs out before the rooms do. *)
Fixpoint heartbeat_loop (fuel : nat) (at_ : position) (renewed : Z)
    : io (option (result (string * string) Z)) :=
  match fuel with
  | O => mret None
  | S fuel =>
      rest ← look (rooms_after at_);
      match rest with
      | [] => mret (Some (Ok renewed))
      | (p, ref) :: _ =>
          one ← renew_room ref;
          match one with
          | Throw e => mret (Some (Throw e))
          | Ok n => heartbeat_loop fuel p (renewed + n)
          end
      end
  end.

Definition heartbeat (fuel : nat) : io (option (result (string * string) Z)) :=
  shared ← look isConfigured;
  if negb shared then mret (Some (Ok 0%Z)) else heartbeat_loop fuel (0, 0) 0.

Definition allRooms (s : Registry) : list RoomRef := concat (map snd (rooms s)).

Definition clear (s : Registry) : Registry :=
  set_rooms (λ _, []) (foldl (λ s ref, releaseModeratorWaiters ref s) s (allRooms s)).

(** ** The registry as a whole *)
Inductive Op : Type :=
| OJoin (conferenceId : string) (member : ConferenceMember) (options : JoinOptions)
| OLeave (conferenceId channel : string) (org : option string)
| OAwaitModerator (conferenceId : string) (org : option string)
| OCancel (ref : RoomRef) (waiter : nat)
| ORefresh (conferenceId : string) (org : option string)
| OHeartbeat (fuel : nat)
| OClear.

Inductive Reply : Type :=
| RJoin (r : ConferenceJoinResult)
| RLeave (r : result (string * string) ConferenceDeparture)
| RWaiter (w : option (RoomRef * nat))
| RRefresh (r : result (string * string) bool)
| RHeartbeat (r : option (result (string * string) Z))
| RVoid.

Definition body (op : Op) : io Reply :=
  match op with
  | OJoin c m o => r ← join c m o; mret (RJoin r)
  | OLeave c ch o => r ← leave c ch o; mret (RLeave r)
  | OAwaitModerator c o => r ← act (awaitModerator c o); mret (RWaiter r)
  | OCancel ref w => _ ← change (cancel ref w); mret RVoid
  | ORefresh c o => r ← refresh c o; mret (RRefresh r)
  | OHeartbeat fuel => r ← heartbeat fuel; mret (RHeartbeat r)
  | OClear => _ ← change clear; mret RVoid
  end.

(** ** What the registry keeps to *)
Definition good (key : string) (v : ConferenceClaim) : Prop :=
  kvKeyFor_conferenceClaim (cc_orgId v) (cc_conferenceId v) = Ok key.

Abbreviation world := (Log.world (T := ConferenceClaim)).

Definition expired_for (w : world) (i : string) (c : ConferenceContribution) : Prop :=
  ∃ now, Log.seen w i now ∧ live_at now c = false.

(** A write of [i] leaves what the others contribute, or drops what [i] saw expire. *)
Definition respects (w : world) (i : string) (old new : gmap string ConferenceContribution) : Prop :=
  ∀ j, j ≠ i → new !! j = old !! j ∨ (new !! j = None ∧ ∃ c, old !! j = Some c ∧ expired_for w i c).

Definition may (w : world) (i : string) (q : request ConferenceClaim) : Prop :=
  match q with
  | QGet _ | QYield => True
  | QCreate k v => good k v ∧ respects w i ∅ (contributions v)
  | QUpdate k v r => good k v ∧ ∃ old, Log.logged w k r old ∧ respects w i (contributions old) (contributions v)
  | QDelete k r => ∃ old, Log.logged w k r old ∧ respects w i (contributions old) ∅
  end.

(** The claim a room of a tenant quotes was written under the room's key. *)
Definition known (w : world) (ref : RoomRef) (c : Claimed ConferenceClaim) : Prop :=
  ∀ org key, ref.1.2 = Some org → kvKeyFor_conferenceClaim org ref.2 = Ok key →
    Log.logged w key (revision c) (value c).

Definition filed (s : Registry) : Prop :=
  ∀ m ref, m ∈ rooms s → ref ∈ m.2 → ref.1.2 = m.1.2.

Record inv (w : world) (i : string) (s : Registry) : Prop := {
  inv_instance : instance s = i;
  inv_shared : isConfigured s = true;
  inv_filed : filed s;
  inv_claim : ∀ ref c, claim (deref s ref) = Some c → known w ref c }.

Lemma rooms_expired_for_mono w w' i c : Log.le w w' → expired_for w i c → expired_for w' i c.
Proof. intros Hle (now & Hn & He). exists now. split; [by eapply Log.seen_mono|done]. Qed.

Lemma respects_mono w w' i old new : Log.le w w' → respects w i old new → respects w' i old new.
Proof.
  intros Hle H j Hj. destruct (H j Hj) as [?|(? & c & ? & ?)]; [by left|right]. split; [done|].
  exists c. split; [done|by eapply rooms_expired_for_mono].
Qed.

Lemma known_mono w w' ref c : Log.le w w' → known w ref c → known w' ref c.
Proof. intros Hle H org key Ho Hk. eapply Log.logged_mono; eauto. Qed.

Lemma rooms_inv_mono w w' i s : Log.le w w' → inv w i s → inv w' i s.
Proof. intros Hle [H1 H2 H3 H4]. split; try done. intros ref c Hc. eapply known_mono; eauto. Qed.

Lemma rooms_may_mono w w' i q : Log.le w w' → may w i q → may w' i q.
Proof.
  intros Hle. destruct q; simpl; try done.
  - intros [H1 H2]. split; [done|by eapply respects_mono].
  - intros (H1 & old & Ho & H). split; [done|]. exists old.
    split; [by eapply Log.logged_mono|by eapply respects_mono].
  - intros (old & Ho & H). exists old. split; [by eapply Log.logged_mono|by eapply respects_mono].
Qed.

(** *** Counting contributions *)
Definition all_positive (m : gmap string ConferenceContribution) : Prop :=
  map_Forall (λ _ c, (0 < co_memberCount c)%Z) m.

Lemma schema_positive v : conferenceClaimSchema v = true → all_positive (contributions v).
Proof.
  unfold conferenceClaimSchema. intros H. bool_simpl. intros i c Hc.
  match goal with H : forallb _ _ = true |- _ => rewrite forallb_forall in H; rename H into Hall end.
  assert (In (i, c) (map_to_list (contributions v))) as Hin by (by apply list_elem_of_In, elem_of_map_to_list).
  specialize (Hall _ Hin). simpl in Hall. bool_simpl. lia.
Qed.

Lemma sum_positive (l : list (string * ConferenceContribution)) :
  Forall (λ x, (0 < co_memberCount x.2)%Z) l →
  (0 <= foldr Z.add 0 (map (λ x, co_memberCount x.2) l))%Z ∧
  (foldr Z.add 0 (map (λ x, co_memberCount x.2) l) = 0 → l = [])%Z.
Proof. induction 1 as [|x l Hx _ [IH1 IH2]]; simpl; [by split|]. split; [lia|]. intros. lia. Qed.

(** Nobody counts only where nobody contributes. *)
Lemma state_zero (m : gmap string ConferenceContribution) :
  all_positive m → state_memberCount m = 0%Z → m = ∅.
Proof.
  intros Hp H0. apply map_to_list_empty_iff. apply sum_positive; [|exact H0].
  apply Forall_forall. intros [i c] Hin%elem_of_map_to_list. by eapply Hp.
Qed.

Lemma live_lookup v now j :
  live v now !! j = match contributions v !! j with
                    | Some c => if live_at now c then Some c else None
                    | None => None
                    end.
Proof.
  unfold live. destruct (contributions v !! j) as [c|] eqn:Hc.
  - destruct (live_at now c) eqn:Hl.
    + apply map_lookup_filter_Some. by split.
    + apply map_lookup_filter_None. right. intros x Hx. simpl. congruence.
  - apply map_lookup_filter_None. by left.
Qed.

Lemma live_positive v now : all_positive (contributions v) → all_positive (live v now).
Proof. intros H i c [Hc _]%map_lookup_filter_Some. by eapply H. Qed.

(** What an expiry at a time the clock has shown lets an instance do. *)
Lemma respects_live w i v now (new : gmap string ConferenceContribution) :
  Log.seen w i now → (∀ j, j ≠ i → new !! j = live v now !! j) → respects w i (contributions v) new.
Proof.
  intros Hn H j Hj. rewrite (H j Hj), live_lookup. destruct (contributions v !! j) as [c|] eqn:Hc; [|by left].
  destruct (live_at now c) eqn:Hl; [by left|]. right. split; [done|]. exists c. split; [done|by exists now].
Qed.

Lemma claimRecord_others self o c b at_ now cur n m j :
  j ≠ self →
  contributions (claimRecord self o c b at_ now cur n m) !! j =
  match cur with None => ∅ | Some v => live v now end !! j.
Proof.
  intros Hj. unfold claimRecord. cbn [contributions].
  destruct (0 <? n)%Z; rewrite ?lookup_insert_ne by done; by rewrite lookup_delete_ne.
Qed.

Lemma respects_record w self o c b at_ now v n m :
  Log.seen w self now →
  respects w self (contributions v) (contributions (claimRecord self o c b at_ now (Some v) n m)).
Proof. intros Hn. eapply respects_live; [exact Hn|]. intros j Hj. by apply claimRecord_others. Qed.

Lemma respects_first w self o c b at_ now n m :
  respects w self ∅ (contributions (claimRecord self o c b at_ now None n m)).
Proof. intros j Hj. left. by rewrite claimRecord_others. Qed.

(** The claim this instance is the last to leave is held by nobody else. *)
Lemma last_record w i o c b at_ now v n m :
  Log.seen w i now → conferenceClaimSchema v = true →
  state_memberCount (live (claimRecord i o c b at_ now (Some v) n m) now) = 0%Z →
  respects w i (contributions v) ∅.
Proof.
  intros Hn Hv H0. set (rec := claimRecord _ _ _ _ _ _ _ _ _) in *. assert (all_positive (contributions rec)) as Hp.
  { intros j x Hx. pose proof (live_positive v now (schema_positive v Hv)) as Hl. unfold rec, claimRecord in Hx.
    cbn [contributions] in Hx. destruct (0 <? n)%Z eqn:Hpos; [|by apply lookup_delete_Some in Hx as [_ Hx]; eapply Hl].
    apply lookup_insert_Some in Hx as [[_ <-]|[_ [_ Hx]%lookup_delete_Some]]; [simpl; lia|by eapply Hl]. }
  apply state_zero in H0; [|by apply live_positive]. eapply respects_live; [exact Hn|].
  intros j Hj. rewrite lookup_empty. assert (live rec now !! j = None) as Hj' by (by rewrite H0).
  rewrite live_lookup in Hj'. unfold rec in Hj'. rewrite claimRecord_others in Hj' by done.
  destruct (live v now !! j) as [x|] eqn:Hx; [|done]. rewrite live_lookup in Hx.
  destruct (contributions v !! j) as [y|]; [|done]. destruct (live_at now y) eqn:Hy; [|done].
  injection Hx as ->. by rewrite Hy in Hj'.
Qed.

(** *** The operations on the state *)

(** Steps that take no new claim. *)
Record keeps (s s' : Registry) : Prop := {
  keeps_instance : instance s' = instance s;
  keeps_shared : isConfigured s' = isConfigured s;
  keeps_filed : filed s → filed s';
  keeps_claim : ∀ ref c, claim (deref s' ref) = Some c → claim (deref s ref) = Some c }.

#[global] Instance keeps_preorder : PreOrder keeps.
Proof.
  split; [by intros s; split|]. intros s1 s2 s3 [A1 A2 A3 A4] [B1 B2 B3 B4].
  split; [congruence|congruence|auto|auto].
Qed.

Lemma inv_keeps w i s s' : keeps s s' → inv w i s → inv w i s'.
Proof.
  intros [K1 K2 K3 K4] [H1 H2 H3 H4]. split; [congruence|congruence|auto|].
  intros ref c Hc. by apply H4, K4.
Qed.

Lemma deref_set_room ref f s ref' :
  deref (set_room ref f s) ref' = if decide (ref' = ref) then f (deref s ref) else deref s ref'.
Proof.
  unfold deref at 1. simpl. destruct (decide (ref' = ref)) as [->|Hne].
  - by rewrite lookup_insert_eq.
  - by rewrite lookup_insert_ne.
Qed.

Lemma keeps_set_room ref f s : (∀ r, claim (f r) = claim r) → keeps s (set_room ref f s).
Proof.
  intros Hf. split; try done. intros ref' c. rewrite deref_set_room.
  destruct (decide _) as [->|]; [by rewrite Hf|done].
Qed.

Lemma keeps_same_heap s s' :
  instance s' = instance s → isConfigured s' = isConfigured s → (filed s → filed s') →
  heap s' = heap s → keeps s s'.
Proof. intros H1 H2 H3 H4. split; try done. intros ref c. unfold deref. by rewrite H4. Qed.

Lemma keeps_release ref s : keeps s (releaseModeratorWaiters ref s).
Proof.
  unfold releaseModeratorWaiters. set (s1 := set_room ref _ s).
  assert (keeps s s1) as H1 by (by apply keeps_set_room). etrans; [exact H1|by apply keeps_same_heap].
Qed.

Lemma room_at_Some s org conf ref :
  filed s → room_at s org conf = Some ref → ref.1.2 = org ∧ ref.2 = conf.
Proof.
  intros Hf H. apply bind_Some in H as (m & Hm & Hr).
  apply find_first_Some in Hm as [Hm Ho]. apply find_first_Some in Hr as [Hr Hc].
  apply bool_decide_eq_true in Ho, Hc. by rewrite (Hf m ref Hm Hr).
Qed.

Lemma localRoomIfUnambiguous_Some s conf org ref :
  filed s → localRoomIfUnambiguous s conf org = Some ref →
  ref.2 = conf ∧ ∀ o, org = Some o → ref.1.2 = Some o.
Proof.
  intros Hf H. unfold localRoomIfUnambiguous in H. destruct org as [o|].
  - apply room_at_Some in H as [H1 H2]; [|done]. split; [done|by intros ? [= <-]].
  - destruct (omap _ _) as [|ref' [|]] eqn:Ho; try done. injection H as ->. split; [|done].
    assert (ref ∈ [ref]) as Hin by apply list_elem_of_here. rewrite <- Ho in Hin.
    apply list_elem_of_omap in Hin as (m & _ & Hr). apply find_first_Some in Hr as [_ Hc].
    by apply bool_decide_eq_true in Hc.
Qed.

Lemma keeps_localRoom conf bridge org s : keeps s (localRoom conf bridge org s).1.
Proof.
  unfold localRoom. destruct (room_at s org conf); [done|]. split; simpl; try done.
  - intros Hf m ref Hm Hr. destruct (org_rooms s org) as [x|] eqn:Hx.
    + apply list_elem_of_fmap in Hm as (m0 & -> & Hm0). case_bool_decide as Ho; [|by eapply Hf].
      simpl in *. apply elem_of_app in Hr as [Hr|Hr]; [by eapply Hf|].
      apply list_elem_of_singleton in Hr as ->. by symmetry.
    + apply elem_of_app in Hm as [Hm|Hm]; [by eapply Hf|]. apply list_elem_of_singleton in Hm as ->.
      simpl in *. by apply list_elem_of_singleton in Hr as ->.
  - intros ref c. unfold deref. simpl. destruct (decide (ref = (next s, org, conf))) as [->|Hne].
    + by rewrite lookup_insert_eq.
    + by rewrite lookup_insert_ne.
Qed.

Lemma localRoom_ref conf bridge org s :
  filed s → (localRoom conf bridge org s).2.1.2 = org ∧ (localRoom conf bridge org s).2.2 = conf.
Proof.
  intros Hf. unfold localRoom. destruct (room_at s org conf) as [ref|] eqn:Hr; [|done].
  by eapply room_at_Some.
Qed.

Lemma keeps_delete ref s : keeps s (deleteLocalRoom ref s).
Proof.
  apply keeps_same_heap; try done. intros Hf m r Hm Hr.
  apply list_elem_of_filter in Hm as [_ Hm]. apply list_elem_of_fmap in Hm as (m0 & -> & Hm0).
  case_bool_decide; [|by eapply Hf]. simpl in *. apply list_elem_of_filter in Hr as [_ Hr]. by eapply Hf.
Qed.

Lemma keeps_clear s : keeps s (clear s).
Proof.
  unfold clear. set (l := allRooms s). clearbody l. etrans.
  { instantiate (1 := foldl (λ s ref, releaseModeratorWaiters ref s) s l). revert s.
    induction l as [|ref l IH]; intros s; simpl; [done|]. etrans; [apply keeps_release|apply IH]. }
  apply keeps_same_heap; try done. intros _ m ref Hm. inversion Hm.
Qed.

Lemma keeps_await conf org s : keeps s (awaitModerator conf org s).1.
Proof.
  unfold awaitModerator. destruct (localRoomIfUnambiguous s conf org) as [ref|]; [|done].
  destruct (moderatorPresent _); [done|]. set (s1 := set_room ref _ s). simpl.
  assert (keeps s s1) as H1 by (by apply keeps_set_room). etrans; [exact H1|by apply keeps_same_heap].
Qed.

Lemma keeps_cancel ref waiter s : keeps s (cancel ref waiter s).
Proof.
  unfold cancel. set (s1 := set_room ref _ s).
  assert (keeps s s1) as H1 by (by apply keeps_set_room). etrans; [exact H1|by apply keeps_same_heap].
Qed.

Lemma inv_set_claim w i s ref f :
  inv w i s → (∀ r c, claim (f r) = Some c → known w ref c) → inv w i (set_room ref f s).
Proof.
  intros [H1 H2 H3 H4] Hf. split; try done. intros ref' c. rewrite deref_set_room.
  destruct (decide (ref' = ref)) as [->|]; [apply Hf|apply H4].
Qed.

Lemma rooms_inv_fresh w i : inv w i (bindClaims true i empty_registry).
Proof. split; try done. intros m ref Hm. inversion Hm. Qed.

(** The key a claim was logged under is the key of the room that quotes it. *)
Lemma known_at w (ref : RoomRef) org conf key (c : Claimed ConferenceClaim) :
  ref.1.2 = Some org → ref.2 = conf → kvKeyFor_conferenceClaim org conf = Ok key →
  Log.logged w key (revision c) (value c) → known w ref c.
Proof. intros H1 H2 Hk Hl org' key'. rewrite H1, H2. intros [= <-]. rewrite Hk. by intros [= <-]. Qed.

Lemma inv_enter_first w i s conf org m bridge c key :
  inv w i s → kvKeyFor_conferenceClaim org conf = Ok key → Log.logged w key (revision c) (value c) →
  inv w i (enter_first conf org m bridge c s).1.
Proof.
  intros Hinv Hk Hl. unfold enter_first. pose proof (keeps_localRoom conf bridge (Some org) s) as Hkeep.
  pose proof (localRoom_ref conf bridge (Some org) s (inv_filed _ _ _ Hinv)) as [Hr1 Hr2].
  destruct (localRoom conf bridge (Some org) s) as [s1 ref]. simpl in *.
  apply inv_set_claim; [by eapply inv_keeps|]. intros r c' [= <-]. by eapply known_at.
Qed.

Lemma inv_enter_held w i s conf org m bridge c now created key :
  inv w i s → kvKeyFor_conferenceClaim org conf = Ok key → Log.logged w key (revision c) (value c) →
  inv w i (enter_held conf org m bridge c now created s).1.
Proof.
  intros Hinv Hk Hl. unfold enter_held. pose proof (keeps_localRoom conf bridge (Some org) s) as Hkeep.
  pose proof (localRoom_ref conf bridge (Some org) s (inv_filed _ _ _ Hinv)) as [Hr1 Hr2].
  destruct (localRoom conf bridge (Some org) s) as [s1 ref]. simpl in *.
  assert (Hset : ∀ f, (∀ r, claim (f r) = Some c) → inv w i (set_room ref f s1)).
  { intros f Hf. apply inv_set_claim; [by eapply inv_keeps|]. intros r c'. rewrite Hf. intros [= <-]. by eapply known_at. }
  destruct (state_moderatorPresent _); [eapply inv_keeps; [apply keeps_release|]|]; by apply Hset.
Qed.

Lemma inv_settle w i s ref m n : inv w i s → inv w i (settle_departure ref m n s).1.
Proof.
  intros Hinv. unfold settle_departure. eapply inv_keeps; [|exact Hinv].
  set (s1 := set_room ref _ s). assert (keeps s s1) as H1 by (by apply keeps_set_room).
  case_bool_decide; simpl; [|done]. etrans; [exact H1|]. etrans; [apply keeps_release|apply keeps_delete].
Qed.

Lemma inv_refresh_with w i s ref c now :
  inv w i s → known w ref c → inv w i (refresh_with ref c now s).1.
Proof.
  intros Hinv Hk. unfold refresh_with. set (s1 := set_room ref _ s).
  assert (inv w i s1) as H1 by (apply inv_set_claim; [done|by intros r c' [= <-]]).
  destruct (_ && _); simpl; [|done]. eapply inv_keeps; [|exact H1].
  etrans; [|apply keeps_release]. by apply keeps_set_room.
Qed.

(** *** The methods are within the logic *)
Abbreviation okay := (ok Log.le Log.seen inv may (Log.fits good)).
Abbreviation anything := (λ _ _, True).

Lemma rooms_may_get w i k : may w i (QGet k).
Proof. done. Qed.

Ltac le_chain := solve [repeat (first [eassumption | reflexivity | etrans; [eassumption|]])].

Lemma ok_first i w key conf org m bridge (written : io (ClaimWrite ConferenceClaim)) record :
  kvKeyFor_conferenceClaim org conf = Ok key →
  (∀ post : world → ClaimWrite ConferenceClaim → Prop,
     (∀ w' x, Log.le w w' → knows_write conferenceClaimSchema good w' key record x → post w' x) →
     okay i w written post) →
  okay i w (written ≫= λ x,
    match x with
    | write_unavailable => mret (Some ClaimsUnavailable)
    | write_lost _ => mret None
    | write_written r =>
        joined ← act (enter_first conf org m bridge (Build_Claimed record r)); mret (Some joined)
    end) anything.
Proof.
  intros Hk Hw. apply ok_bind, Hw. intros w1 [r|c|] Hle Hx; [|done..].
  apply ok_act. intros w2 s2 Hle2 Hinv. split; [|done].
  eapply inv_enter_first; [done|done|]. by eapply Log.logged_mono.
Qed.

Lemma rooms_good_record self org conf bridge at_ now cur n m key :
  kvKeyFor_conferenceClaim org conf = Ok key → good key (claimRecord self org conf bridge at_ now cur n m).
Proof. done. Qed.

Lemma ok_join_attempt i w key conf org m options :
  kvKeyFor_conferenceClaim org conf = Ok key →
  okay i w (join_attempt key conf org m options) anything.
Proof.
  intros Hk. apply ok_clock. intros w1 now Hle1 Hnow.
  apply ok_bind, (ok_get conferenceClaimSchema good); [apply rooms_may_get|]. intros w2 x Hle2 Hx.
  apply ok_look. intros w3 s3 Hle3 [-> _ _ _].
  assert (Hnow3 : Log.seen w3 i now) by (eapply Log.seen_mono; [|exact Hnow]; le_chain).
  destruct x as [current| |]; [|..].
  - destruct Hx as (Hl & _ & Hs). assert (Hl3 : Log.logged w3 key (revision current) (value current)).
    { eapply Log.logged_mono; [|exact Hl]. le_chain. }
    cbv zeta. destruct (state_memberCount (live (value current) now) =? 0)%Z eqn:H0.
    + apply (ok_first _ _ key); [done|]. intros post Hp.
      apply (ok_update conferenceClaimSchema good); [apply rooms_may_get| |done].
      split; [by apply rooms_good_record|]. exists (value current). split; [done|].
      eapply respects_live; [done|]. intros j Hj. rewrite claimRecord_others by done.
      apply Z.eqb_eq, state_zero in H0; [by rewrite H0|]. by apply live_positive, schema_positive.
    + destruct (_ && _); [done|]. apply ok_look. intros w4 s4 Hle4 _.
      destruct (contribution_of s4 conf (Some org)) as [[existing size] hosted].
      apply ok_bind, (ok_update conferenceClaimSchema good); [apply rooms_may_get| |].
      * split; [by apply rooms_good_record|]. exists (value current). split; [by eapply Log.logged_mono|].
        apply respects_record. by eapply Log.seen_mono.
      * intros w5 [r|c|] Hle5 Hy; [|done..]. apply ok_act. intros w6 s6 Hle6 Hinv. split; [|done].
        eapply inv_enter_held; [done|done|]. by eapply Log.logged_mono.
  - apply (ok_first _ _ key); [done|]. intros post Hp.
    apply (ok_create conferenceClaimSchema good); [apply rooms_may_get| |done].
    split; [by apply rooms_good_record|apply respects_first].
  - done.
Qed.

Lemma ok_join i w conf m options : okay i w (join conf m options) anything.
Proof.
  apply ok_look. intros w1 s1 Hle1 [_ -> _ _]. cbv [negb].
  destruct (jo_organizationId options) as [org|]; [|done].
  destruct (kvKeyFor_conferenceClaim org conf) as [key|] eqn:Hk; [|done].
  generalize CAS_ATTEMPTS. intros attempts. clear Hle1. revert w1.
  induction attempts as [|attempts IH]; intros w1; [done|]. cbn [join_loop]. apply ok_bind.
  refine (ok_weaken Log.le _ _ _ _ _ _ _ _ _ (ok_join_attempt i w1 key conf org m options Hk) _).
  intros w2 [r|] _ _; [done|apply IH].
Qed.

Lemma ok_decrement_attempt i w key org ref :
  ref.1.2 = Some org → kvKeyFor_conferenceClaim org ref.2 = Ok key →
  okay i w (decrement_attempt key org ref) anything.
Proof.
  intros Ho Hk. apply ok_bind, (ok_get conferenceClaimSchema good); [apply rooms_may_get|].
  intros w1 x Hle1 Hx. destruct x as [current| |]; [|by apply ok_look; intros..].
  destruct Hx as (Hl & _ & Hs). apply ok_clock. intros w2 now Hle2 Hnow.
  apply ok_look. intros w3 s3 Hle3 [-> _ _ _]. apply ok_look. intros w4 s4 Hle4 _.
  apply ok_look. intros w5 s5 Hle5 _. cbv zeta. set (rec := claimRecord _ _ _ _ _ _ _ _ _).
  assert (Hl5 : Log.logged w5 key (revision current) (value current)).
  { eapply Log.logged_mono; [|exact Hl]. le_chain. }
  assert (Hnow5 : Log.seen w5 i now) by (eapply Log.seen_mono; [|exact Hnow]; le_chain).
  destruct (state_memberCount (live rec now) =? 0)%Z eqn:H0.
  - apply Z.eqb_eq in H0. apply ok_bind, (ok_release good).
    + exists (value current). split; [done|]. by eapply last_record.
    + intros w6 [|] Hle6; [|done]. apply ok_change; [|done]. intros w7 s7 Hle7 Hinv.
      by apply inv_set_claim.
  - apply ok_bind, (ok_update conferenceClaimSchema good); [apply rooms_may_get| |].
    + split; [by apply rooms_good_record|]. exists (value current). split; [done|by apply respects_record].
    + intros w6 [r|c|] Hle6 Hy; [|done|by apply ok_look; intros]. apply ok_change; [|done].
      intros w7 s7 Hle7 Hinv. apply inv_set_claim; [done|]. intros r' c [= <-].
      eapply known_at; [done|done|done|]. by eapply Log.logged_mono.
Qed.

Lemma ok_decrement i w ref : okay i w (decrement ref) anything.
Proof.
  apply ok_look. intros w1 s1 Hle1 [_ -> _ _]. destruct (ref.1.2) as [org|] eqn:Ho.
  - destruct (kvKeyFor_conferenceClaim org ref.2) as [key|] eqn:Hk; [|done]. apply ok_bind.
    generalize CAS_ATTEMPTS. intros attempts. clear Hle1. revert w1.
    induction attempts as [|attempts IH]; intros w1; [by intros ??????|]. cbn [decrement_loop]. apply ok_bind.
    refine (ok_weaken Log.le _ _ _ _ _ _ _ _ _ (ok_decrement_attempt i w1 key org ref Ho Hk) _).
    intros w2 [r|] _ _; [done|apply IH].
  - apply ok_look. intros w2 s2 _ _. split; [done|]. by intros.
Qed.

Lemma ok_leave i w conf channel org : okay i w (leave conf channel org) anything.
Proof.
  apply ok_look. intros w1 s1 Hle1 _. destruct (localRoomIfUnambiguous s1 conf org) as [ref|]; [|done].
  apply ok_look. intros w2 s2 Hle2 _. apply ok_change.
  { intros w3 s3 _ Hinv. eapply inv_keeps; [|done]. by apply keeps_set_room. }
  intros w3 Hle3. destruct (member_get _ _) as [m|].
  - apply ok_bind. refine (ok_weaken Log.le _ _ _ _ _ _ _ _ _ (ok_decrement i w3 ref) _).
    intros w4 [n|e] _ _; [|done]. apply ok_act. intros w5 s5 _ Hinv. split; [by apply inv_settle|done].
  - apply ok_act. intros w4 s4 _ Hinv. split; [by apply inv_settle|done].
Qed.

Lemma ok_refresh i w conf org : okay i w (refresh conf org) anything.
Proof.
  apply ok_look. intros w1 s1 Hle1 Hinv1. destruct (localRoomIfUnambiguous s1 conf org) as [ref|] eqn:Hr; [|done].
  apply localRoomIfUnambiguous_Some in Hr as [Hc _]; [|by eapply inv_filed].
  apply ok_look. intros w2 s2 Hle2 [_ -> _ _].
  destruct (ref.1.2) as [o|] eqn:Ho; [|by apply ok_look; intros].
  destruct (kvKeyFor_conferenceClaim o conf) as [key|] eqn:Hk; [|done].
  apply ok_bind, (ok_get conferenceClaimSchema good); [apply rooms_may_get|].
  intros w3 [c| |] Hle3 Hx; [|by apply ok_look; intros..]. destruct Hx as (Hl & _ & _).
  apply ok_clock. intros w4 now Hle4 _. apply ok_act. intros w5 s5 Hle5 Hinv. split; [|done].
  apply inv_refresh_with; [done|]. eapply known_at; [done|done|done|].
  eapply Log.logged_mono; [|exact Hl]. le_chain.
Qed.

Lemma ok_renew_room i w ref : okay i w (renew_room ref) anything.
Proof.
  apply ok_look. intros w1 s1 Hle1 Hinv1. destruct (claim (deref s1 ref)) as [held|] eqn:Hh; [|done].
  apply (inv_claim _ _ _ Hinv1) in Hh. destruct (ref.1.2) as [o|] eqn:Ho; [|done].
  destruct (kvKeyFor_conferenceClaim o ref.2) as [key|] eqn:Hk; [|done]. specialize (Hh o key Ho Hk).
  apply ok_clock. intros w2 now Hle2 Hnow. apply ok_look. intros w3 s3 Hle3 [-> _ _ _].
  apply ok_look. intros w4 s4 Hle4 _. apply ok_look. intros w5 s5 Hle5 _.
  apply ok_look. intros w6 s6 Hle6 _.
  apply ok_bind, (ok_update conferenceClaimSchema good); [apply rooms_may_get| |].
  - split; [by apply rooms_good_record|]. exists (value held). split; [eapply Log.logged_mono; [|exact Hh]; le_chain|].
    apply respects_record. eapply Log.seen_mono; [|exact Hnow]. le_chain.
  - assert (Hset : ∀ w7 w8 s r v, Log.logged w7 key r v → Log.le w7 w8 → inv w8 i s → inv w8 i (renew_written ref v r now s)).
    { intros w7 w8 s r v Hl Hle Hinv. apply inv_set_claim; [done|]. intros x c [= <-].
      eapply known_at; [done|done|done|]. by eapply Log.logged_mono. }
    intros w7 [r|[c|]|] Hle7 Hx; [| |done..].
    + apply ok_change; [|done]. intros w8 s8 Hle8 Hinv. by eapply Hset.
    + apply ok_change; [|done]. intros w8 s8 Hle8 Hinv. eapply Hset; [apply Hx|done..].
Qed.

Lemma rooms_ok_heartbeat i w fuel : okay i w (heartbeat fuel) anything.
Proof.
  apply ok_look. intros w1 s1 _ [_ -> _ _]. cbv [negb]. generalize (0, 0)%nat, 0%Z.
  revert w1. induction fuel as [|fuel IH]; intros w1 p n; [done|]. cbn [heartbeat_loop].
  apply ok_look. intros w2 s2 _ _. destruct (rooms_after p s2) as [|[p' ref] rest]; [done|].
  apply ok_bind. refine (ok_weaken Log.le _ _ _ _ _ _ _ _ _ (ok_renew_room i w2 ref) _).
  intros w3 [k|e] _ _; [apply IH|done].
Qed.

Lemma rooms_body_ok w i op : okay i w (body op) anything.
Proof.
  destruct op; cbv [body].
  - apply ok_bind. refine (ok_weaken Log.le _ _ _ _ _ _ _ _ _ (ok_join i w _ _ _) _). done.
  - apply ok_bind. refine (ok_weaken Log.le _ _ _ _ _ _ _ _ _ (ok_leave i w _ _ _) _). done.
  - apply ok_act. intros w1 s1 _ Hinv. split; [|done]. eapply inv_keeps; [apply keeps_await|done].
  - apply ok_change; [|done]. intros w1 s1 _ Hinv. eapply inv_keeps; [apply keeps_cancel|done].
  - apply ok_bind. refine (ok_weaken Log.le _ _ _ _ _ _ _ _ _ (ok_refresh i w _ _) _). done.
  - apply ok_bind. refine (ok_weaken Log.le _ _ _ _ _ _ _ _ _ (rooms_ok_heartbeat i w _) _). done.
  - apply ok_change; [|done]. intros w1 s1 _ Hinv. eapply inv_keeps; [apply keeps_clear|done].
Qed.

(** ** Every instance of a cluster *)
Section Cluster.
Context {B : Type} `{!KvBucket B ConferenceClaim} `{!KvLaws B ConferenceClaim}.

Definition boot_instance (i : string) : Registry := bindClaims true i empty_registry.

Abbreviation cluster := (system (B := B) (S := Registry) (Q := request ConferenceClaim)
                           (A := answer ConferenceClaim) (Op := Op) (R := Reply)).

Definition cluster_step : cluster → label → option cluster := step serve body boot_instance.

Definition cluster_run : cluster → list label → option cluster := run serve body boot_instance.

Lemma rooms_may_writes_good w i q : may w i q → Log.writes_good good q.
Proof. destruct q; simpl; naive_solver. Qed.

Lemma rooms_cluster_reachable b ls sys :
  Log.unclaimed b → cluster_run (boot b) ls = Some sys →
  ∃ w, valid Log.le Log.seen inv (Log.srv good) may (Log.fits good) (λ _ _ _ _, True) w sys.
Proof.
  intros Hb Hr. apply (run_inv serve body boot_instance Log.le Log.seen inv (Log.srv good) may
    (Log.fits good) rooms_inv_mono rooms_may_mono (λ _ _ _ _, True)) with (w := Log.genesis) in Hr.
  - destruct Hr as (w & _ & Hv). by exists w.
  - done.
  - intros w b0 i q f b' a Hs Hm. apply Log.log_serve_ok; [done|by eapply rooms_may_writes_good].
  - intros w b0 i now. apply Log.log_tick.
  - intros w i. apply rooms_inv_fresh.
  - intros w i op. apply rooms_body_ok.
  - apply boot_valid; [by apply Log.genesis_srv|]. intros i now H. inversion H.
Qed.

(** Who contributes to a room, as the bucket has it. *)
Definition contributions_at (b : B) (key : string) : gmap string ConferenceContribution :=
  match kv_get b key with
  | Some (Parsed v, _) => contributions v
  | _ => ∅
  end.

(** What one request does to them. *)
Lemma serve_contributions (b b' : B) w i q f a key :
  Log.srv good w b → may w i q → serve b q f = (b', a) →
  contributions_at b' key = contributions_at b key ∨
  respects w i (contributions_at b key) (contributions_at b' key).
Proof.
  intros Hsrv Hm Hs. assert (Hb : b' = b ∨ b' = (serve_now b q).1).
  { apply serve_cases in Hs as [Hs|(e & _ & H)]; [right; by rewrite Hs|done]. }
  destruct Hb as [->|Hb]; [by left|]. clear Hs a. unfold contributions_at.
  destruct q as [k|k v|k v r|k r|]; simpl in Hb; try (by left; rewrite Hb).
  - destruct (kv_create b k v) as [b1|] eqn:Hc; simpl in Hb; subst b'; [|by left].
    assert (kv_get b k = None) as Hn by (apply (kv_create_free b k v); by rewrite Hc).
    apply kv_create_writes in Hc as (_ & Hg & Ho).
    destruct (decide (key = k)) as [->|Hk]; [|left; by rewrite Ho]. right. rewrite Hg, Hn. apply Hm.
  - destruct (kv_update b k v r) as [b1|] eqn:Hc; simpl in Hb; subst b'; [|by left].
    assert (is_Some (kv_update b k v r)) as (y & Hy)%kv_update_at by (by rewrite Hc).
    apply kv_update_writes in Hc as (_ & Hg & Ho).
    destruct (decide (key = k)) as [->|Hk]; [|left; by rewrite Ho]. right. rewrite Hg, Hy.
    destruct Hm as (_ & old & Hold & Hr). by rewrite (Log.srv_same _ _ _ Hsrv _ _ _ _ Hold Hy).
  - destruct (kv_delete b k r) as [b1|] eqn:Hc; simpl in Hb; subst b'; [|by left].
    assert (is_Some (kv_delete b k r)) as (y & Hy)%kv_delete_at by (by rewrite Hc).
    apply kv_delete_writes in Hc as (_ & Hg & Ho).
    destruct (decide (key = k)) as [->|Hk]; [|left; by rewrite Ho]. right. rewrite Hg, Hy.
    destruct Hm as (old & Hold & Hr). by rewrite (Log.srv_same _ _ _ Hsrv _ _ _ _ Hold Hy).
Qed.

(** C25. A seat is given and taken by its own instance. In every run of any number of
    instances, with methods interleaved at every wait, requests and answers lost and
    instances crashing at any point, a request changes what an instance contributes to
    a room only if it is that instance's own request, or if it removes a contribution
    that the clock of the instance making it had shown to be expired. So no write of
    one instance loses, invents or revives the members of another. *)
Theorem conference_contributions_own b ls sys t f sys' key j :
  Log.unclaimed b → cluster_run (boot b) ls = Some sys → cluster_step sys (Serve t f) = Some sys' →
  contributions_at (server sys') key !! j = contributions_at (server sys) key !! j ∨
  ∃ i op st, tasks sys !! t = Some (i, op, st) ∧
    (i = j ∨
     contributions_at (server sys') key !! j = None ∧
     ∃ c now, contributions_at (server sys) key !! j = Some c ∧ (i, now) ∈ shown sys ∧
       isClaimExpired (co_expiresAt c) now = true).
Proof.
  intros Hb Hr Hstep. destruct (rooms_cluster_reachable b ls sys Hb Hr) as (w & [Hsrv _ Hta _ Hseen]).
  simpl in Hstep. destruct (tasks sys !! t) as [[[i op] st]|] eqn:Ht; [|done].
  specialize (Hta t _ Ht). simpl in Hta.
  assert (∃ q, may w i q ∧ ∃ b' a, serve (server sys) q f = (b', a) ∧ server sys' = b') as (q & Hm & b' & a & Hs & ->).
  { destruct st as [q k|a k|q]; [|done|]; exists q; (split; [by try apply Hta|]);
      destruct (serve (server sys) q f) as [b' a]; injection Hstep as <-; by exists b', a. }
  destruct (serve_contributions _ _ w i q f a key Hsrv Hm Hs) as [->|Hresp]; [by left|].
  destruct (decide (j = i)) as [->|Hj]; [right; exists i, op, st; by split; [|left]|].
  destruct (Hresp j Hj) as [Heq|(Hnone & c & Hc & now & Hn & He)]; [by left|right].
  exists i, op, st. split; [done|right]. split; [done|]. exists c, now. split_and!; [done|by apply Hseen|].
  unfold live_at in He. by destruct (isClaimExpired _ _).
Qed.

(** *** Undisturbed *)

Lemma enter_held_bridge conf org m bridge c now created s :
  ∃ room, (enter_held conf org m bridge c now created s).2 = Joined room created ∧ cr_bridgeId room = bridge.
Proof.
  unfold enter_held. destruct (localRoom conf bridge (Some org) s) as [s1 ref]. simpl. eexists. split; [done|].
  unfold snapshot. cbn [cr_bridgeId]. destruct (state_moderatorPresent _).
  - unfold releaseModeratorWaiters, deref at 1. cbn [heap set_room]. rewrite lookup_insert_eq. simpl.
    rewrite deref_set_room. by rewrite decide_True.
  - rewrite deref_set_room. by rewrite decide_True.
Qed.

(** One room, one bridge. A joiner who is not disturbed, of a room in which the
    claim still counts members anywhere, is refused when that many already fill the
    room; otherwise it is told the bridge of the claim, on whatever instance it calls,
    and the claim it leaves behind keeps that bridge and every live contribution of
    the other instances, with its own counting one member more. *)
Theorem join_agrees_on_bridge now b s conf org key m options v r :
  isConfigured s = true → jo_organizationId options = Some org →
  kvKeyFor_conferenceClaim org conf = Ok key → kv_get b key = Some (Parsed v, r) →
  conferenceClaimSchema v = true → state_memberCount (live v now) ≠ 0%Z →
  let count := state_memberCount (live v now) in
  ∃ b' s' x, exec serve_now now (join conf m options) b s = (b', s', x) ∧
    if (0 <? maxMembers options)%Z && (maxMembers options <=? count)%Z
    then x = Full count ∧ b' = b ∧ s' = s
    else
      ∃ room created v', x = Joined room created ∧ cr_bridgeId room = cc_bridgeId v ∧
        kv_get b' key = Some (Parsed v', kv_seq b') ∧ cc_bridgeId v' = cc_bridgeId v ∧
        (∀ j, j ≠ instance s → contributions v' !! j = live v now !! j) ∧
        option_map co_memberCount (contributions v' !! instance s) =
          Some (match room_at s (Some org) conf with
                | Some ref => Z.of_nat (length (members (deref s ref)))
                | None => 0
                end + 1)%Z.
Proof.
  intros Hs Ho Hk Hg Hv Hcount count. unfold join. exec_steps. rewrite Hs. cbv [negb]. rewrite Ho, Hk.
  unfold CAS_ATTEMPTS. cbn [join_loop]. rewrite exec_bind. unfold join_attempt at 1. exec_steps.
  rewrite exec_bind, exec_get. unfold read_of. rewrite Hg, Hv. exec_steps. cbn [value revision]. cbv zeta.
  rewrite (proj2 (Z.eqb_neq _ _) Hcount). fold count. destruct (_ && _).
  { exec_steps. eexists b, s, _. by split_and!. }
  exec_steps. unfold contribution_of, localRoomIfUnambiguous.
  set (mine := match room_at s (Some org) conf with Some ref => _ | None => _ end).
  destruct mine as [[existing size] hosted] eqn:Hmine. rewrite exec_bind, exec_update.
  set (rec := claimRecord _ _ _ _ _ _ _ _ _).
  destruct (proj2 (kv_update_at b key rec r)) as [b1 Hu]; [by eexists|]. rewrite Hu. cbn [outcome_of].
  apply kv_update_writes in Hu as (_ & Hget & _).
  rewrite exec_act, exec_ret. cbn [value].
  destruct (enter_held_bridge conf org m (cc_bridgeId v) (Build_Claimed rec (kv_seq b1)) now (negb existing) s)
    as (room & Hroom & Hbridge).
  eexists b1, _, _. split; [rewrite exec_ret; reflexivity|]. exists room, (negb existing), rec.
  split_and!; [done|done|done|done| |].
  - intros j Hj. unfold rec. by rewrite claimRecord_others.
  - unfold rec, claimRecord. cbn [contributions].
    assert (size = match room_at s (Some org) conf with
                   | Some ref => Z.of_nat (length (members (deref s ref))) | None => 0 end)%Z as Hsize.
    { unfold mine in Hmine. destruct (room_at s (Some org) conf); by injection Hmine as _ <- _. }
    rewrite <- Hsize. assert (0 <= size)%Z by (rewrite Hsize; destruct (room_at _ _ _); lia).
    rewrite (proj2 (Z.ltb_lt 0 (size + 1))) by lia. by rewrite lookup_insert_eq.
Qed.

(** A heartbeat gets to the end: each room it turns to is one fewer ahead of it. *)
Lemma rooms_after_shrinks p s q ref rest :
  rooms_after p s = (q, ref) :: rest → (length (rooms_after q s) < length (rooms_after p s))%nat.
Proof.
  unfold rooms_after. intros H. assert ((q, ref) ∈ base.filter (λ x, after p x.1) (placed s)) as Hin.
  { rewrite H. apply list_elem_of_here. }
  apply list_elem_of_filter in Hin as [Hq Hin]. clear H rest.
  assert (Hmono : ∀ l : list (position * RoomRef),
    (length (base.filter (λ x, after q x.1) l) <= length (base.filter (λ x, after p x.1) l))%nat).
  { induction l as [|x l IH]; [done|]. rewrite !filter_cons. simpl in Hq.
    destruct (decide (after q x.1)) as [H1|H1], (decide (after p x.1)) as [H2|H2]; simpl; try lia.
    destruct H2. unfold after in *. lia. }
  apply elem_of_Permutation in Hin as [l Hl]. rewrite Hl, !filter_cons. simpl in Hq |- *.
  destruct (decide (after q q)) as [H|_]; [unfold after in H; lia|].
  destruct (decide (after p q)) as [_|H]; [|done]. simpl. specialize (Hmono l). lia.
Qed.

Lemma renew_room_rooms now b s ref :
  rooms (exec serve_now now (renew_room ref) b s).1.2 = rooms s.
Proof.
  unfold renew_room. exec_steps. destruct (claim (deref s ref)) as [held|]; [|done].
  destruct (ref.1.2) as [o|]; [|done]. destruct (kvKeyFor_conferenceClaim o ref.2) as [key|]; [|done].
  exec_steps. rewrite exec_bind, exec_update. unfold outcome_of. destruct (kv_update _ _ _ _); [done|].
  by destruct (read_of _ b key).
Qed.

(** An undisturbed heartbeat ends: fuel for one room more than there are is enough. *)
Theorem heartbeat_ends now b s fuel :
  (length (allRooms s) < fuel)%nat → ∃ b' s' x, exec serve_now now (heartbeat fuel) b s = (b', s', Some x).
Proof.
  intros Hf. unfold heartbeat. exec_steps. destruct (isConfigured s); cbv [negb]; [|by eexists _, _, _].
  assert (Hlen : (length (rooms_after (0, 0)%nat s) < fuel)%nat).
  { eapply Nat.le_lt_trans; [|exact Hf]. etrans; [apply length_filter|]. unfold placed, allRooms.
    induction (rooms s) as [|m l IH]; [done|]. simpl. rewrite !length_app, length_map.
    apply Nat.add_le_mono_l, IH. }
  clear Hf. revert Hlen. generalize (0, 0)%nat, 0%Z. revert b s.
  induction fuel as [|fuel IH]; intros b s p n Hlen; [lia|]. cbn [heartbeat_loop]. exec_steps.
  destruct (rooms_after p s) as [|[q ref] rest] eqn:Hr; [by eexists _, _, _|].
  rewrite exec_bind. pose proof (renew_room_rooms now b s ref) as Hrooms.
  destruct (exec serve_now now (renew_room ref) b s) as [[b1 s1] [k|e]]; [|by eexists _, _, _].
  simpl in Hrooms. apply IH. unfold rooms_after, placed. rewrite Hrooms. fold (placed s) (rooms_after q s).
  pose proof (rooms_after_shrinks p s q ref rest Hr) as Hlt. rewrite Hr in Hlt. simpl in Hlen, Hlt.
  unfold rooms_after, placed in *. lia.
Qed.
End Cluster.
End ConferenceRegistry.
