(* ===== verification/ConferenceRuns.v ===== *)
(** * Runs of the conference registry

    Concrete schedules of [ConferenceRegistry.v] on the bucket in memory. The first is
    ordinary: two instances in one room. The others are schedules in which what the
    source promises for a room does not come about. *)

From S2P Require Import Prelude Kv Async Claims.
From S2P Require Import ConferenceRegistry.

Module ConferenceRuns.
Import ConferenceRegistry.ConferenceRegistry.

Definition bucket : Type := MapBucket.bucket ConferenceClaim.

Definition empty : bucket := MapBucket.empty_bucket.

Definition cluster : Type :=
  system (B := bucket) (S := Registry) (Q := request ConferenceClaim) (A := answer ConferenceClaim)
    (Op := Op) (R := Reply).

Definition schedule : Type := list (label (Op := Op) (F := fault)).

Definition after (ls : schedule) : cluster := default (boot empty) (cluster_run (boot empty) ls).

Definition runs (ls : schedule) : bool :=
  match cluster_run (boot empty) ls with Some _ => true | None => false end.

Lemma rooms_run_after ls : runs ls = true → cluster_run (boot empty) ls = Some (after ls).
Proof. unfold runs, after. by destruct (cluster_run _ ls). Qed.

Definition next (sys : cluster) (l : label) : cluster := default sys (cluster_step sys l).

Lemma rooms_step_next sys l :
  match cluster_step sys l with Some _ => true | None => false end = true →
  cluster_step sys l = Some (next sys l).
Proof. unfold next. by destruct (cluster_step sys l). Qed.

Lemma rooms_empty_unclaimed : Log.unclaimed empty.
Proof. intros k v r H. done. Qed.

Definition caller (name : string) (mod_ : bool) : ConferenceMember :=
  {| mediaChannelId := name; legId := name; moderator := mod_; joinedAtMs := 0 |}.

Definition options (bridge : string) : JoinOptions :=
  {| newBridgeId := bridge; maxMembers := 0; jo_organizationId := Some "acme" |}.

Definition joins (t : nat) (i : string) (now : Z) (name : string) (mod_ : bool) (bridge : string)
    : label (Op := Op) (F := fault) :=
  Start t i now (OJoin "3001" (caller name mod_) (options bridge)).

(** A request served and its method resumed. *)
Definition go (t : nat) (now : Z) : schedule := [Serve t Delivered; Resume t now].

(** What happened: the answers, and the bridge and the seats the bucket has. *)
Definition answers (sys : cluster) : list Reply := (replies sys).*2.

Definition agreed (sys : cluster) : option (string * list (string * Z)) :=
  match kv_get (server sys) "acme.3001" with
  | Some (Parsed v, _) =>
      Some (cc_bridgeId v, map (λ x, (x.1, co_memberCount x.2)) (map_to_list (contributions v)))
  | _ => None
  end.

(** [a] opens the room, [b] joins it. *)
Definition two_instances : schedule :=
  joins 1 "a" 0 "ann" false "bridge-a" :: go 1 1 ++ go 1 2 ++
  joins 2 "b" 10 "bob" true "bridge-b" :: go 2 11 ++ go 2 12.

(** The room of a joiner: its bridge and how many it counts. *)
Definition joined_bridge (r : Reply) : option (string * Z) :=
  match r with
  | RJoin (Joined room _) => Some (cr_bridgeId room, cr_memberCount room)
  | _ => None
  end.

Lemma two_instances_meet :
  map joined_bridge (answers (after two_instances)) = [Some ("bridge-a", 1%Z); Some ("bridge-a", 2%Z)] ∧
  agreed (after two_instances) = Some ("bridge-a", [("a", 1%Z); ("b", 1%Z)]).
Proof. vm_compute. by split. Qed.

(** *** Witnesses *)
Lemma conference_contributions_own_witness :
  let sys := after (two_instances ++ [Start 3 "b" 20 (OLeave "3001" "bob" (Some "acme"))] ++ go 3 21) in
  contributions_at (server (next sys (Serve 3 Delivered))) "acme.3001" !! "b" =
    contributions_at (server sys) "acme.3001" !! "b" ∨
  ∃ i op st, tasks sys !! 3 = Some (i, op, st) ∧
    (i = "b" ∨
     contributions_at (server (next sys (Serve 3 Delivered))) "acme.3001" !! "b" = None ∧
     ∃ c now, contributions_at (server sys) "acme.3001" !! "b" = Some c ∧ (i, now) ∈ shown sys ∧
       isClaimExpired (co_expiresAt c) now = true).
Proof.
  intros sys.
  apply (conference_contributions_own empty
           (two_instances ++ [Start 3 "b" 20 (OLeave "3001" "bob" (Some "acme"))] ++ go 3 21) sys 3 Delivered).
  - exact rooms_empty_unclaimed.
  - apply rooms_run_after. vm_compute. reflexivity.
  - apply rooms_step_next. vm_compute. reflexivity.
Defined.

Definition shared_claim : ConferenceClaim := {|
  cc_orgId := "acme"; cc_claimedAt := 0; cc_conferenceId := "3001"; cc_bridgeId := "bridge-a";
  contributions :=
    {["a" := {| co_memberCount := 1; co_moderatorPresent := false; co_expiresAt := 90000 |};
      "b" := {| co_memberCount := 1; co_moderatorPresent := true; co_expiresAt := 90010 |}]} |}.

Lemma join_agrees_on_bridge_witness :
  let b := server (after two_instances) in
  ∃ b' s' x,
    exec serve_now 100 (join "3001" (caller "cat" false) (options "bridge-c")) b (boot_instance "c") = (b', s', x) ∧
    if (0 <? 0)%Z && (0 <=? 2)%Z then x = Full 2 ∧ b' = b ∧ s' = boot_instance "c"
    else
      ∃ room created v', x = Joined room created ∧ cr_bridgeId room = "bridge-a" ∧
        kv_get b' "acme.3001" = Some (Parsed v', kv_seq b') ∧ cc_bridgeId v' = "bridge-a" ∧
        (∀ j, j ≠ "c" → contributions v' !! j = live shared_claim 100 !! j) ∧
        option_map co_memberCount (contributions v' !! "c") = Some (0 + 1)%Z.
Proof.
  apply (join_agrees_on_bridge 100 (server (after two_instances)) (boot_instance "c") "3001" "acme" "acme.3001"
           (caller "cat" false) (options "bridge-c") shared_claim 2).
  - reflexivity.
  - reflexivity.
  - vm_compute. reflexivity.
  - vm_compute. reflexivity.
  - vm_compute. reflexivity.
  - vm_compute. discriminate.
Defined.

(** *** Schedules that go wrong *)

(** [a]'s caller holds for a moderator, who joins on [b]. [a]'s heartbeat loses to that
    write and adopts it, which sets [moderatorPresent] and wakes nobody; the poll then
    finds nothing new and answers [true], and the promise is still pending. *)
Definition moderator_elsewhere : schedule :=
  joins 1 "a" 0 "ann" false "bridge-a" :: go 1 1 ++ go 1 2 ++
  Start 3 "a" 5 (OAwaitModerator "3001" (Some "acme")) ::
  joins 2 "b" 10 "bob" true "bridge-b" :: go 2 11 ++ go 2 12 ++
  Start 4 "a" 20 (OHeartbeat 2) :: go 4 21 ++ go 4 22 ++
  Start 5 "a" 30 (ORefresh "3001" (Some "acme")) :: go 5 31.

Lemma moderator_wait_not_woken :
  runs moderator_elsewhere = true ∧
  last (answers (after moderator_elsewhere)) = Some (RRefresh (Ok true)) ∧
  RWaiter (Some ((0, Some "acme", "3001"), 2)) ∈ answers (after moderator_elsewhere) ∧
  (λ s, bool_decide (2 ∈ resolved s)) <$> (states (after moderator_elsewhere) !! "a") = Some false.
Proof.
  split_and!; [vm_compute; reflexivity..| |vm_compute; reflexivity].
  vm_compute. apply list_elem_of_further, list_elem_of_here.
Qed.

(** The bucket cannot be reached when [a]'s last member leaves: [leave] answers that
    the room is empty everywhere, while [b]'s member is in it. *)
Definition leaving_in_outage : schedule :=
  two_instances ++ Start 3 "a" 20 (OLeave "3001" "ann" (Some "acme")) ::
  [Serve 3 (Unreached {| err_code := None; message := "timeout" |}); Resume 3 21].

Lemma leave_empties_occupied_room :
  last (answers (after leaving_in_outage)) =
    Some (RLeave (Ok {| departed := Some (caller "ann" false); d_memberCount := 0; emptied := true |})) ∧
  agreed (after leaving_in_outage) = Some ("bridge-a", [("a", 1%Z); ("b", 1%Z)]).
Proof. vm_compute. by split. Qed.

(** A heartbeat between the read and the release of the last [leave] writes a claim
    with no contributions, which the schema rejects; whoever joins next is refused. *)
Definition heartbeat_in_last_leave : schedule :=
  joins 1 "a" 0 "ann" false "bridge-a" :: go 1 1 ++ go 1 2 ++
  Start 2 "a" 10 (OLeave "3001" "ann" (Some "acme")) :: go 2 11 ++
  Start 3 "a" 12 (OHeartbeat 2) :: go 3 13 ++ go 2 14 ++ go 2 15 ++
  joins 4 "a" 200000 "amy" false "bridge-2" :: go 4 200001.

Lemma room_barred_by_heartbeat :
  last (answers (after heartbeat_in_last_leave)) = Some (RJoin ClaimsUnavailable) ∧
  agreed (after heartbeat_in_last_leave) = Some ("bridge-a", []).
Proof. vm_compute. by split. Qed.

(** Two members leave at once; the first departure deletes the room, a caller opens it
    anew, and the second departure deletes that one too. *)
Definition two_leave_one_joins : schedule :=
  joins 1 "a" 0 "ann" false "bridge-a" :: go 1 1 ++ go 1 2 ++
  joins 2 "a" 3 "abe" false "bridge-x" :: go 2 4 ++ go 2 5 ++
  Start 3 "a" 10 (OLeave "3001" "ann" (Some "acme")) ::
  Start 4 "a" 10 (OLeave "3001" "abe" (Some "acme")) ::
  go 3 11 ++ Serve 3 Delivered :: Serve 4 Delivered :: Resume 3 12 ::
  joins 5 "a" 13 "amy" false "bridge-2" :: go 5 14 ++ go 5 15 ++ [Resume 4 16].

Lemma late_leave_deletes_new_room :
  joined_bridge <$> (answers (after two_leave_one_joins) !! 3) = Some (Some ("bridge-2", 1%Z)) ∧
  agreed (after two_leave_one_joins) = Some ("bridge-2", [("a", 1%Z)]) ∧
  roomCount <$> (states (after two_leave_one_joins) !! "a") = Some 0.
Proof. vm_compute. by split_and!. Qed.

(** [a]'s lease runs out with a caller in the room. The next joiner on [a] is the first
    one in as far as the claim goes, which gets the new bridge, and is put on the old
    one; [b]'s caller is alone on the new one. *)
Definition lease_ran_out : schedule :=
  joins 1 "a" 0 "ann" false "bridge-a" :: go 1 1 ++ go 1 2 ++
  joins 2 "a" 90000 "abe" false "bridge-2" :: go 2 90001 ++ go 2 90002 ++
  joins 3 "b" 90010 "bob" false "bridge-3" :: go 3 90011 ++ go 3 90012.

Lemma room_split_after_expiry :
  map joined_bridge (answers (after lease_ran_out)) =
    [Some ("bridge-a", 1%Z); Some ("bridge-a", 2%Z); Some ("bridge-2", 2%Z)].
Proof. vm_compute. reflexivity. Qed.
End ConferenceRuns.
