(* ===== verification/Dtmf.v ===== *)
(** * DTMF digits and digit collection

    [packages/telephony/src/dtmf.ts] (symbols, parsing and printing) and
    [apps/engine/src/verbs/dtmf-accumulator.ts] (the collection behind the
    [gather] verb). A digit is the one-character string the source uses. *)

From S2P Require Import Prelude.

Module Dtmf.
Definition DTMF_DIGITS : list string :=
  ["0"; "1"; "2"; "3"; "4"; "5"; "6"; "7"; "8"; "9"; "*"; "#"; "A"; "B"; "C"; "D"].

Inductive DtmfSource : Set := rfc2833 | info | inband | application.

Definition DEFAULT_DTMF_DURATION_MS : Z := 100.

Record DtmfEvent := { digit : string; durationMs : Z; source : DtmfSource }.

Inductive DtmfCollectionEndReason : Set :=
| max_digits | by_terminator | timed_out | inter_digit_timeout | by_pattern | cancelled | hung_up.

#[global] Instance DtmfCollectionEndReason_eq_dec : EqDecision DtmfCollectionEndReason.
Proof. solve_decision. Defined.

Record DtmfCollection := {
  coll_digits : list string;
  endReason : DtmfCollectionEndReason;
  coll_terminator : option string }.

Definition isDtmfDigit (value : string) : bool := includes DTMF_DIGITS value.

(** The loop of [parseDtmfDigits], one character at a time. *)
Fixpoint parseDtmfDigits (value : string) : option (list string) :=
  match value with
  | EmptyString => Some []
  | String c rest =>
      let normalised := toUpperCase (String c EmptyString) in
      if negb (isDtmfDigit normalised) then None
      else
        match parseDtmfDigits rest with
        | Some digits => Some (normalised :: digits)
        | None => None
        end
  end.

(** [digits.join("")] *)
Definition formatDtmfDigits (digits : list string) : string := foldr String.append "" digits.

(** ** The accumulator

    [regexTest source] is the platform's regular expression engine: [None] when
    [new RegExp(source, "u")] throws, otherwise the test of the compiled
    expression. *)
Section Accumulator.
Context (regexTest : string → option (string → bool)).

Record GatherVerb := { maxDigits : Z; terminators : list string; regex : option string }.

(** [compilePattern]: anchored at both ends; an invalid pattern is no pattern. *)
Definition compileGatherPattern (r : option string) : option (string → bool) :=
  match r with
  | None => None
  | Some r => if bool_decide (r = "") then None else regexTest ("^(?:" +:+ r +:+ ")$")
  end.

Record Accumulator := { acc_digits : list string; finished : option DtmfCollection }.

Definition acc_init : Accumulator := {| acc_digits := []; finished := None |}.

Definition isDone (a : Accumulator) : bool := bool_decide (is_Some (finished a)).

Definition finish (a : Accumulator) (c : DtmfCollection) : Accumulator :=
  {| acc_digits := acc_digits a; finished := Some c |}.

(** [push]: the step is [Some collection] when it is done. *)
Definition acc_push (verb : GatherVerb) (a : Accumulator) (raw : string)
    : Accumulator * option DtmfCollection :=
  match finished a with
  | Some c => (a, Some c)
  | None =>
      let d := toUpperCase raw in
      if negb (isDtmfDigit d) then (a, None)
      else if includes (terminators verb) d then
        let c := {| coll_digits := acc_digits a; endReason := by_terminator;
                    coll_terminator := Some d |} in
        (finish a c, Some c)
      else
        let a := {| acc_digits := acc_digits a ++ [d]; finished := None |} in
        let matches :=
          match compileGatherPattern (regex verb) with
          | Some test => test (formatDtmfDigits (acc_digits a))
          | None => false
          end in
        if matches then
          let c := {| coll_digits := acc_digits a; endReason := by_pattern;
                      coll_terminator := None |} in
          (finish a c, Some c)
        else if (maxDigits verb <=? Z.of_nat (length (acc_digits a)))%Z then
          let c := {| coll_digits := acc_digits a; endReason := max_digits;
                      coll_terminator := None |} in
          (finish a c, Some c)
        else (a, None)
  end.

(** [end]: the shared tail of the four externally driven endings. *)
Definition acc_end (a : Accumulator) (reason : DtmfCollectionEndReason)
    : Accumulator * DtmfCollection :=
  match finished a with
  | Some c => (a, c)
  | None =>
      let c := {| coll_digits := acc_digits a; endReason := reason; coll_terminator := None |} in
      (finish a c, c)
  end.

Definition acc_timeout (a : Accumulator) : Accumulator * DtmfCollection :=
  acc_end a (if length (acc_digits a) =? 0 then timed_out else inter_digit_timeout).
Definition acc_interDigitTimeout (a : Accumulator) : Accumulator * DtmfCollection :=
  acc_end a inter_digit_timeout.
Definition acc_cancel (a : Accumulator) : Accumulator * DtmfCollection := acc_end a cancelled.
Definition acc_hangup (a : Accumulator) : Accumulator * DtmfCollection := acc_end a hung_up.

(** What the driver may do to an accumulator. *)
Inductive acc_op :=
| OpPush (raw : string) | OpTimeout | OpInterDigitTimeout | OpCancel | OpHangup.

Definition acc_apply (verb : GatherVerb) (a : Accumulator) (op : acc_op)
    : Accumulator * option DtmfCollection :=
  match op with
  | OpPush raw => acc_push verb a raw
  | OpTimeout => prod_map id Some (acc_timeout a)
  | OpInterDigitTimeout => prod_map id Some (acc_interDigitTimeout a)
  | OpCancel => prod_map id Some (acc_cancel a)
  | OpHangup => prod_map id Some (acc_hangup a)
  end.

Definition acc_run (verb : GatherVerb) (ops : list acc_op) : Accumulator :=
  foldl (λ a op, (acc_apply verb a op).1) acc_init ops.
End Accumulator.

(** ** Symbols: parsing and printing *)

Lemma dtmf_singleton d : isDtmfDigit d = true → ∃ c, d = String c "" ∧ toUpperCase d = d.
Proof.
  intros Hd. unfold isDtmfDigit in Hd. bool_simpl. unfold DTMF_DIGITS in Hd.
  rewrite !elem_of_cons in Hd. destruct_or! Hd; subst; try (by eexists).
  by apply elem_of_nil in Hd.
Qed.

Lemma formatDtmfDigits_app ds1 ds2 :
  formatDtmfDigits (ds1 ++ ds2) = formatDtmfDigits ds1 +:+ formatDtmfDigits ds2.
Proof.
  induction ds1 as [|d ds1 IH]; simpl; [done|]. by rewrite IH, append_assoc.
Qed.

(** Digit strings round-trip: printing typed digits and parsing them back
    gives the same digits, and a string parses to digits exactly when its
    upper-cased form is the printed form of a sequence of DTMF symbols, so a
    single foreign character makes the whole string invalid. *)
Theorem parseDtmfDigits_spec (s : string) (ds : list string) :
  parseDtmfDigits s = Some ds ↔
  Forall (λ d, isDtmfDigit d = true) ds ∧ formatDtmfDigits ds = toUpperCase s.
Proof.
  revert ds. induction s as [|c s IH]; intros ds; cbn [parseDtmfDigits toUpperCase].
  - split; [by intros [= <-]|]. intros [Hall Hf]. destruct ds as [|d ds]; [done|].
    apply Forall_cons in Hall as [Hd _]. apply dtmf_singleton in Hd as (c & -> & _). done.
  - destruct (isDtmfDigit (String (upper_ascii c) "")) eqn:Hd; cbn [negb].
    + split.
      * destruct (parseDtmfDigits s) as [ds'|]; [|done]. intros [= <-].
        destruct (proj1 (IH ds') eq_refl) as [Hall Hf]. split; [by constructor|].
        simpl. by rewrite Hf.
      * intros [Hall Hf]. destruct ds as [|d ds]; [done|].
        apply Forall_cons in Hall as [Hd' Hall]. apply dtmf_singleton in Hd' as (c' & -> & _).
        injection Hf as -> Hf. by rewrite (proj2 (IH ds) (conj Hall Hf)).
    + split; [done|]. intros [Hall Hf]. destruct ds as [|d ds]; [done|].
      apply Forall_cons in Hall as [Hd' _].
      pose proof Hd' as Hd''. apply dtmf_singleton in Hd'' as (c' & -> & _).
      injection Hf as -> _. congruence.
Qed.

(** ** The accumulator: one outcome, bounded, never a terminator *)
Section AccumulatorFacts.
Context (regexTest : string → option (string → bool)) (verb : GatherVerb).
Implicit Types (a : Accumulator) (ops : list acc_op).

(** The invariant of every reachable accumulator. *)
Record acc_inv a : Prop := {
  inv_symbols : Forall (λ d, isDtmfDigit d = true ∧ d ∉ terminators verb) (acc_digits a);
  inv_bound : (Z.of_nat (length (acc_digits a)) <= Z.max 1 (maxDigits verb))%Z;
  inv_running : finished a = None →
    acc_digits a ≠ [] → (Z.of_nat (length (acc_digits a)) < maxDigits verb)%Z;
  inv_outcome : ∀ c, finished a = Some c →
    coll_digits c = acc_digits a ∧
    (endReason c = timed_out → acc_digits a = []) ∧
    (endReason c = by_terminator ↔ is_Some (coll_terminator c)) ∧
    (∀ t, coll_terminator c = Some t → t ∈ terminators verb) }.

Lemma acc_inv_init : acc_inv acc_init.
Proof. split; simpl; try done; lia. Qed.

Lemma acc_inv_finish a reason :
  Forall (λ d, isDtmfDigit d = true ∧ d ∉ terminators verb) (acc_digits a) →
  (Z.of_nat (length (acc_digits a)) <= Z.max 1 (maxDigits verb))%Z →
  reason ≠ by_terminator → (reason = timed_out → acc_digits a = []) →
  acc_inv (finish a {| coll_digits := acc_digits a; endReason := reason;
                       coll_terminator := None |}).
Proof.
  intros Hs Hb Hnt Ht. split; simpl; try done.
  intros c [= <-]; simpl. split_and!; auto; [|done]. split; [done|]. by intros [].
Qed.

Lemma acc_inv_end a reason :
  acc_inv a → reason ≠ by_terminator → (reason = timed_out → acc_digits a = []) →
  acc_inv (acc_end a reason).1.
Proof.
  intros Hi Hnt Ht. unfold acc_end. destruct (finished a) as [c|] eqn:Hf; [done|].
  destruct Hi. by apply acc_inv_finish.
Qed.

Lemma acc_inv_push a raw : acc_inv a → acc_inv (acc_push regexTest verb a raw).1.
Proof.
  intros Hi. pose proof Hi as [Hs Hb Hr Ho]. unfold acc_push.
  destruct (finished a) as [c|] eqn:Hf; [done|].
  destruct (isDtmfDigit (toUpperCase raw)) eqn:Hd; [|done]. cbn [negb].
  destruct (includes (terminators verb) (toUpperCase raw)) eqn:Ht; bool_simpl.
  { split; simpl; try done. intros c [= <-]; simpl. split_and!; auto; try done.
    intros t [= <-]. done. }
  assert (Forall (λ d, isDtmfDigit d = true ∧ d ∉ terminators verb)
            (acc_digits a ++ [toUpperCase raw])) as Hs'.
  { apply Forall_app. split; [done|]. by apply Forall_singleton. }
  assert (Z.of_nat (length (acc_digits a ++ [toUpperCase raw])) <= Z.max 1 (maxDigits verb))%Z
    as Hb'.
  { rewrite length_app. simpl. destruct (acc_digits a) as [|x l] eqn:Hl; simpl in *; [lia|].
    specialize (Hr eq_refl). assert (x :: l ≠ []) by done. specialize (Hr H). simpl in Hr. lia. }
  destruct (match compileGatherPattern _ _ with Some _ => _ | None => _ end);
    [by apply acc_inv_finish|].
  destruct (Z.leb_spec (maxDigits verb)
    (Z.of_nat (length (acc_digits a ++ [toUpperCase raw])))) as [|Hlt]; cbn -[Z.leb].
  - rewrite (proj2 (Z.leb_le _ _)) by done. by apply acc_inv_finish.
  - rewrite (proj2 (Z.leb_gt _ _)) by done. by split.
Qed.

Lemma acc_inv_apply a op : acc_inv a → acc_inv (acc_apply regexTest verb a op).1.
Proof.
  intros Hi. destruct op; simpl; [by apply acc_inv_push|..]; apply acc_inv_end; try done.
  - by case_match.
  - case_match eqn:E; [|done]. intros _. apply Nat.eqb_eq in E. by apply nil_length_inv.
Qed.

Lemma acc_inv_run ops : acc_inv (acc_run regexTest verb ops).
Proof.
  unfold acc_run. generalize acc_inv_init. generalize acc_init.
  induction ops as [|op ops IH]; intros a Ha; simpl; [done|]. by apply IH, acc_inv_apply.
Qed.

(** Once ended, nothing changes the accumulator and every call repeats the
    recorded outcome. *)
Lemma acc_apply_finished a op c :
  finished a = Some c → acc_apply regexTest verb a op = (a, Some c).
Proof.
  intros Hf. destruct op; simpl;
    unfold acc_push, acc_timeout, acc_interDigitTimeout, acc_cancel, acc_hangup, acc_end;
    by rewrite Hf.
Qed.

Lemma acc_finished_stable ops a c :
  finished a = Some c → foldl (λ a op, (acc_apply regexTest verb a op).1) a ops = a.
Proof.
  intros Hf. induction ops as [|op ops IH]; simpl; [done|].
  by rewrite (acc_apply_finished a op c Hf).
Qed.

(** A collection ends once: whatever the driver does after a collection
    has ended (digits, either timer, a cancel, a hangup), the recorded outcome is
    the one returned and the accumulator is unchanged. *)
Theorem collection_outcome_final (ops1 ops2 : list acc_op) (op : acc_op) (c : DtmfCollection) :
  finished (acc_run regexTest verb ops1) = Some c →
  acc_run regexTest verb (ops1 ++ ops2) = acc_run regexTest verb ops1 ∧
  (acc_apply regexTest verb (acc_run regexTest verb (ops1 ++ ops2)) op).2 = Some c.
Proof.
  intros Hf. assert (acc_run regexTest verb (ops1 ++ ops2) = acc_run regexTest verb ops1) as Heq.
  { unfold acc_run. rewrite foldl_app. by eapply acc_finished_stable. }
  split; [done|]. by rewrite Heq, (acc_apply_finished _ op c Hf).
Qed.

(** What a collection reports is what was pressed: in every reachable
    state the outcome's digits are the collected ones, all of them DTMF symbols and
    none of them a terminator, no more than the digit cap (or one, when the cap is
    smaller), [timeout] is reported only when nothing was pressed, and a terminator
    is named exactly when one ended the collection. *)
Theorem collection_outcome_sound (ops : list acc_op) (c : DtmfCollection) :
  finished (acc_run regexTest verb ops) = Some c →
  Forall (λ d, isDtmfDigit d = true ∧ d ∉ terminators verb) (coll_digits c) ∧
  (Z.of_nat (length (coll_digits c)) <= Z.max 1 (maxDigits verb))%Z ∧
  (endReason c = timed_out → coll_digits c = []) ∧
  (endReason c = by_terminator ↔ ∃ t, coll_terminator c = Some t ∧ t ∈ terminators verb).
Proof.
  intros Hf. destruct (acc_inv_run ops) as [Hs Hb _ Ho].
  destruct (Ho c Hf) as (-> & Ht & Hterm & Hin). split_and!; auto.
  rewrite Hterm. split.
  - intros [t Ht']. exists t. auto.
  - intros (t & -> & _). eauto.
Qed.
End AccumulatorFacts.

(** A four-digit verb ended by a hash, with no pattern. *)
Definition gather4 : GatherVerb := {| maxDigits := 4; terminators := ["#"]; regex := None |}.

Lemma collection_outcome_final_witness :
  finished (acc_run (λ _, None) gather4 [OpPush "1"; OpPush "#"]) =
    Some {| coll_digits := ["1"]; endReason := by_terminator; coll_terminator := Some "#" |} ∧
  acc_run (λ _, None) gather4 ([OpPush "1"; OpPush "#"] ++ [OpTimeout]) =
    acc_run (λ _, None) gather4 [OpPush "1"; OpPush "#"].
Proof.
  assert (finished (acc_run (λ _, None) gather4 [OpPush "1"; OpPush "#"]) =
    Some {| coll_digits := ["1"]; endReason := by_terminator; coll_terminator := Some "#" |})
    as Hf by reflexivity.
  split; [exact Hf|].
  exact (proj1 (collection_outcome_final (λ _, None) gather4 [OpPush "1"; OpPush "#"]
                  [OpTimeout] OpHangup _ Hf)).
Defined.

Lemma collection_outcome_sound_witness :
  finished (acc_run (λ _, None) gather4 [OpPush "d"; OpPush "2"; OpHangup]) =
    Some {| coll_digits := ["D"; "2"]; endReason := hung_up; coll_terminator := None |} ∧
  (Z.of_nat (length ["D"; "2"]) <= Z.max 1 (maxDigits gather4))%Z.
Proof.
  assert (finished (acc_run (λ _, None) gather4 [OpPush "d"; OpPush "2"; OpHangup]) =
    Some {| coll_digits := ["D"; "2"]; endReason := hung_up; coll_terminator := None |})
    as Hf by reflexivity.
  split; [exact Hf|].
  exact (proj1 (proj2 (collection_outcome_sound (λ _, None) gather4 _ _ Hf))).
Defined.
End Dtmf.
