(* ===== verification/MidCall.v ===== *)
(** * Mid-call feature codes

    [packages/telephony/src/mid-call-features.ts]: the machine that decides, one
    digit at a time, whether a key pressed during a call is for the far end or is
    the start of a feature code. Instants and durations are integers of
    milliseconds. *)

From S2P Require Import Prelude Machines Dtmf.

Module MidCall.
Import Dtmf.

Inductive MidCallFeatureAction : Set := blind_transfer | record_toggle | act_park | act_cancel.

Definition MID_CALL_FEATURE_ACTIONS : list MidCallFeatureAction :=
  [blind_transfer; record_toggle; act_park; act_cancel].

Definition action_name (a : MidCallFeatureAction) : string :=
  match a with
  | blind_transfer => "blind-transfer"
  | record_toggle => "record-toggle"
  | act_park => "park"
  | act_cancel => "cancel"
  end.

Inductive MidCallArgumentMode : Set := mode_none | mode_optional | mode_required.

Definition MID_CALL_ARGUMENT_MODE (a : MidCallFeatureAction) : MidCallArgumentMode :=
  match a with
  | blind_transfer => mode_required
  | record_toggle => mode_none
  | act_park => mode_optional
  | act_cancel => mode_none
  end.

Record MidCallFeatureCode := {
  code : string;
  action : MidCallFeatureAction;
  argumentMode : option MidCallArgumentMode }.

Inductive MidCallFeatureState : Set := idle | armed | collecting | executing.

#[global] Instance MidCallFeatureAction_eq_dec : EqDecision MidCallFeatureAction.
Proof. solve_decision. Defined.
#[global] Instance MidCallArgumentMode_eq_dec : EqDecision MidCallArgumentMode.
Proof. solve_decision. Defined.
#[global] Instance MidCallFeatureState_eq_dec : EqDecision MidCallFeatureState.
Proof. solve_decision. Defined.

Definition mid_call_state_name (s : MidCallFeatureState) : string :=
  match s with
  | idle => "idle"
  | armed => "armed"
  | collecting => "collecting"
  | executing => "executing"
  end.

Definition MID_CALL_FEATURE_STATES : list MidCallFeatureState :=
  [idle; armed; collecting; executing].

Definition INITIAL_MID_CALL_FEATURE_STATE : MidCallFeatureState := idle.

Definition VALID_MID_CALL_FEATURE_TRANSITIONS (s : MidCallFeatureState)
    : list MidCallFeatureState :=
  match s with
  | idle => [armed]
  | armed => [collecting; executing; idle]
  | collecting => [executing; idle]
  | executing => [idle]
  end.

#[global] Instance mid_call_machine : Machine MidCallFeatureState := {
  machine_states := MID_CALL_FEATURE_STATES;
  machine_initial := INITIAL_MID_CALL_FEATURE_STATE;
  machine_next := VALID_MID_CALL_FEATURE_TRANSITIONS }.

#[global] Instance mid_call_machine_laws : MachineLaws MidCallFeatureState.
Proof. solve_machine. Qed.

Definition isMidCallFeatureState (value : string) : bool :=
  includes (mid_call_state_name <$> MID_CALL_FEATURE_STATES) value.

Definition midCallFeatureTransitionsFrom (s : MidCallFeatureState) : list MidCallFeatureState :=
  VALID_MID_CALL_FEATURE_TRANSITIONS s.

Definition isValidMidCallFeatureTransition (from to : MidCallFeatureState) : bool :=
  includes (VALID_MID_CALL_FEATURE_TRANSITIONS from) to.

(** Throws [InvalidMidCallFeatureTransitionError(from, to)]. *)
Definition assertMidCallFeatureTransition (from to : MidCallFeatureState)
    : result (MidCallFeatureState * MidCallFeatureState) unit :=
  if negb (isValidMidCallFeatureTransition from to) then Throw (from, to) else Ok tt.

Record MidCallFeatureSettings := {
  codeTimeoutMs : Z;
  interDigitTimeoutMs : Z;
  terminator : string;
  maxArgumentDigits : Z }.

Definition DEFAULT_MID_CALL_FEATURE_SETTINGS : MidCallFeatureSettings :=
  {| codeTimeoutMs := 1500; interDigitTimeoutMs := 4000; terminator := "#";
     maxArgumentDigits := 16 |}.

Inductive MidCallFeatureStepKind : Set := pass_through | captured | execute | step_abandoned.

#[global] Instance MidCallFeatureStepKind_eq_dec : EqDecision MidCallFeatureStepKind.
Proof. solve_decision. Defined.

Record MidCallFeatureExecution := {
  exec_action : MidCallFeatureAction;
  exec_code : string;
  exec_argument : string }.

Record MidCallFeatureStep := {
  kind : MidCallFeatureStepKind;
  step_state : MidCallFeatureState;
  execution : option MidCallFeatureExecution;
  swallowed : option string;
  wakeAtMs : option Z }.

Definition argumentModeOf (e : MidCallFeatureCode) : MidCallArgumentMode :=
  default (MID_CALL_ARGUMENT_MODE (action e)) (argumentMode e).

(** [a || b] on numbers. *)
Definition num_or (a b : Z) : Z := if (a =? 0)%Z then b else a.

(** The comparator and the filter of [orderMidCallFeatureCodes];
    [localeCompare] is the platform's collation. *)
Definition dialable (e : MidCallFeatureCode) : bool :=
  negb (bool_decide (code e = "")) && string_forallb (λ c, isDtmfDigit (String c "")) (code e).

Definition orderMidCallFeatureCodes (localeCompare : string → string → Z)
    (table : list MidCallFeatureCode) : list MidCallFeatureCode :=
  js_sort (λ l r,
      num_or (Z.of_nat (String.length (code r)) - Z.of_nat (String.length (code l)))
        (num_or (localeCompare (code l) (code r))
           (localeCompare (action_name (action l)) (action_name (action r)))))
    (filter (λ e, dialable e = true) table).

(** ** The machine

    The private fields of [MidCallFeatureMachine]; the constructor's table and
    settings do not change over its life. *)
Record Capture := {
  current : MidCallFeatureState;
  cap_code : string;
  argument : string;
  matched : option MidCallFeatureCode;
  deadlineMs : option Z }.

Definition capture_init : Capture :=
  {| current := INITIAL_MID_CALL_FEATURE_STATE; cap_code := ""; argument := "";
     matched := None; deadlineMs := None |}.

Definition isCapturing (m : Capture) : bool :=
  negb (bool_decide (current m = INITIAL_MID_CALL_FEATURE_STATE)).

Local Open Scope js_scope.

Section MidCallFeatureMachine.
Context (table : list MidCallFeatureCode) (settings : MidCallFeatureSettings).

Definition outcome : Type :=
  result (MidCallFeatureState * MidCallFeatureState) (Capture * MidCallFeatureStep).

Definition leadDigits : list string := (λ e, String.substring 0 1 (code e)) <$> table.

Definition plain_step (m : Capture) (k : MidCallFeatureStepKind) : Capture * MidCallFeatureStep :=
  (m, {| kind := k; step_state := current m; execution := None; swallowed := None;
         wakeAtMs := deadlineMs m |}).

Definition arm (m : Capture) (k : MidCallFeatureStepKind) (deadline : Z)
    : Capture * MidCallFeatureStep :=
  ({| current := current m; cap_code := cap_code m; argument := argument m;
      matched := matched m; deadlineMs := Some deadline |},
   {| kind := k; step_state := current m; execution := None; swallowed := None;
      wakeAtMs := Some deadline |}).

Definition reset (m : Capture) : Capture * MidCallFeatureStep :=
  (capture_init,
   {| kind := captured; step_state := idle; execution := None; swallowed := None;
      wakeAtMs := None |}).

Definition abandon (m : Capture) : outcome :=
  let sw := cap_code m +:+ argument m in
  let! _ := (if bool_decide (current m = idle) then Ok tt
             else assertMidCallFeatureTransition (current m) idle) in
  let '(m', st) := reset m in
  Ok (m', {| kind := step_abandoned; step_state := step_state st; execution := execution st;
             swallowed := Some sw; wakeAtMs := wakeAtMs st |}).

Definition beginExecuting (m : Capture) (e : MidCallFeatureCode) (arg : string) : outcome :=
  let! _ := assertMidCallFeatureTransition (current m) executing in
  Ok ({| current := executing; cap_code := ""; argument := ""; matched := None;
         deadlineMs := None |},
      {| kind := execute; step_state := executing;
         execution := Some {| exec_action := action e; exec_code := code e;
                              exec_argument := arg |};
         swallowed := None; wakeAtMs := None |}).

Definition extends_code (c : string) (e : MidCallFeatureCode) : bool :=
  (String.length c <? String.length (code e)) && startsWith (code e) c.

Definition find_code (c : string) : option MidCallFeatureCode :=
  find_first (λ e, bool_decide (code e = c)) table.

Definition resolveCode (m : Capture) (nowMs : Z) : outcome :=
  let extendable := existsb (extends_code (cap_code m)) table in
  match find_code (cap_code m), extendable with
  | Some exact, false =>
      match argumentModeOf exact with
      | mode_none => beginExecuting m exact ""
      | _ =>
          let! _ := assertMidCallFeatureTransition armed collecting in
          Ok (arm {| current := collecting; cap_code := cap_code m; argument := "";
                     matched := Some exact; deadlineMs := deadlineMs m |}
                captured (nowMs + interDigitTimeoutMs settings))
      end
  | Some _, true | None, true => Ok (arm m captured (nowMs + codeTimeoutMs settings))
  | None, false => abandon m
  end.

Definition pushIdle (m : Capture) (symbol : string) (nowMs : Z) : outcome :=
  if negb (includes leadDigits symbol) then Ok (plain_step m pass_through)
  else
    let! _ := assertMidCallFeatureTransition idle armed in
    resolveCode {| current := armed; cap_code := symbol; argument := ""; matched := None;
                   deadlineMs := deadlineMs m |} nowMs.

Definition pushArmed (m : Capture) (symbol : string) (nowMs : Z) : outcome :=
  resolveCode {| current := current m; cap_code := cap_code m +:+ symbol;
                 argument := argument m; matched := matched m; deadlineMs := deadlineMs m |} nowMs.

Definition pushCollecting (m : Capture) (symbol : string) (nowMs : Z) : outcome :=
  match matched m with
  | None => abandon m
  | Some entry =>
      if bool_decide (symbol = terminator settings) then
        if (String.length (argument m) =? 0) && bool_decide (argumentModeOf entry = mode_required)
        then abandon m
        else beginExecuting m entry (argument m)
      else
        let m := {| current := current m; cap_code := cap_code m;
                    argument := argument m +:+ symbol; matched := matched m;
                    deadlineMs := deadlineMs m |} in
        if (maxArgumentDigits settings <=? Z.of_nat (String.length (argument m)))%Z
        then beginExecuting m entry (argument m)
        else Ok (arm m captured (nowMs + interDigitTimeoutMs settings))
  end.

Definition push (m : Capture) (digit : string) (nowMs : Z) : outcome :=
  let symbol := toUpperCase digit in
  if negb (isDtmfDigit symbol) then Ok (plain_step m pass_through)
  else
    match current m with
    | idle => pushIdle m symbol nowMs
    | armed => pushArmed m symbol nowMs
    | collecting => pushCollecting m symbol nowMs
    | executing => Ok (plain_step m captured)
    end.

(** The answer of a call that has nothing to do. *)
Definition untouched (m : Capture) : outcome :=
  Ok (plain_step m (if bool_decide (current m = idle) then pass_through else captured)).

Definition expire (m : Capture) (nowMs : Z) : outcome :=
  if match deadlineMs m with None => true | Some d => (nowMs <? d)%Z end then untouched m
  else
    match current m with
    | armed =>
        match find_code (cap_code m) with
        | Some exact =>
            if negb (bool_decide (argumentModeOf exact = mode_required))
            then beginExecuting m exact ""
            else abandon m
        | None => abandon m
        end
    | collecting =>
        match matched m with
        | None => abandon m
        | Some entry =>
            if (String.length (argument m) =? 0) &&
               bool_decide (argumentModeOf entry = mode_required)
            then abandon m
            else beginExecuting m entry (argument m)
        end
    | _ => untouched m
    end.

Definition settle (m : Capture) : outcome :=
  if negb (bool_decide (current m = executing)) then untouched m
  else
    let! _ := assertMidCallFeatureTransition executing idle in
    Ok (reset m).

Definition cancel (m : Capture) : outcome :=
  if bool_decide (current m = idle) then Ok (plain_step m pass_through) else abandon m.

Inductive mc_op :=
| McPush (digit : string) (nowMs : Z) | McExpire (nowMs : Z) | McSettle | McCancel.

Definition mc_apply (m : Capture) (op : mc_op) : outcome :=
  match op with
  | McPush d t => push m d t
  | McExpire t => expire m t
  | McSettle => settle m
  | McCancel => cancel m
  end.

(** A sequence of calls, with the step each returned. *)
Fixpoint mc_run (m : Capture) (ops : list mc_op)
    : result (MidCallFeatureState * MidCallFeatureState) (Capture * list MidCallFeatureStep) :=
  match ops with
  | [] => Ok (m, [])
  | op :: ops' =>
      let! (m', st) := mc_apply m op in
      let! (m'', sts) := mc_run m' ops' in
      Ok (m'', st :: sts)
  end.

(** The same with the caller's timer: when a call is made at or after the deadline of the
    capture, the timer has fired at the deadline. *)
Definition op_at (op : mc_op) : option Z :=
  match op with McPush _ t | McExpire t => Some t | McSettle | McCancel => None end.

Definition fired (m : Capture) (op : mc_op)
    : result (MidCallFeatureState * MidCallFeatureState) (Capture * list MidCallFeatureStep) :=
  match op_at op, deadlineMs m with
  | Some t, Some d =>
      if (d <=? t)%Z then let! (m', st) := expire m d in Ok (m', [st]) else Ok (m, [])
  | _, _ => Ok (m, [])
  end.

Fixpoint mc_timed (m : Capture) (ops : list mc_op)
    : result (MidCallFeatureState * MidCallFeatureState) (Capture * list MidCallFeatureStep) :=
  match ops with
  | [] => Ok (m, [])
  | op :: ops' =>
      let! (m0, early) := fired m op in
      let! (m', st) := mc_apply m0 op in
      let! (m'', sts) := mc_timed m' ops' in
      Ok (m'', early ++ st :: sts)
  end.
End MidCallFeatureMachine.

(** ** The invariant of every reachable capture *)
Section CaptureFacts.
Context (table : list MidCallFeatureCode) (settings : MidCallFeatureSettings).
Implicit Types (m : Capture) (e : MidCallFeatureCode).

(** No row of the table properly extends the code [c]. *)
Definition maximal_code (c : string) : Prop := Forall (λ e, extends_code c e = false) table.

Definition argument_bounded (arg : string) : Prop :=
  arg = "" ∨ (Z.of_nat (String.length arg) < maxArgumentDigits settings)%Z.

(** What each state promises about the fields. *)
Definition capture_inv m : Prop :=
  match current m with
  | idle | executing => m = {| current := current m; cap_code := ""; argument := "";
                               matched := None; deadlineMs := None |}
  | armed => argument m = "" ∧ matched m = None ∧ is_Some (deadlineMs m)
  | collecting =>
      is_Some (deadlineMs m) ∧ argument_bounded (argument m) ∧
      ∃ e, matched m = Some e ∧ e ∈ table ∧ cap_code m = code e ∧
           argumentModeOf e ≠ mode_none ∧ maximal_code (code e)
  end.

(** An execution handed to the engine is a row of the table with an argument
    its mode admits, and only a code nothing extends carries an argument. *)
Definition execution_ok (x : MidCallFeatureExecution) : Prop :=
  (Z.of_nat (String.length (exec_argument x)) <= Z.max 1 (maxArgumentDigits settings))%Z ∧
  ∃ e, e ∈ table ∧ code e = exec_code x ∧ action e = exec_action x ∧
       (argumentModeOf e = mode_none → exec_argument x = "") ∧
       (argumentModeOf e = mode_required → exec_argument x ≠ "" ∧ maximal_code (code e)) ∧
       (exec_argument x ≠ "" → maximal_code (code e)).

(** What a step tells the engine about the machine it leaves behind. *)
Definition step_ok m' (st : MidCallFeatureStep) : Prop :=
  step_state st = current m' ∧ wakeAtMs st = deadlineMs m' ∧
  (is_Some (wakeAtMs st) ↔ step_state st = armed ∨ step_state st = collecting) ∧
  (kind st = execute ↔ is_Some (execution st)) ∧
  (kind st = step_abandoned ↔ is_Some (swallowed st)) ∧
  (∀ x, execution st = Some x → step_state st = executing ∧ execution_ok x).

(** Every operation answers (no guard fires), keeps the invariant and tells the
    truth in its step. *)
Definition answers (o : outcome) : Prop :=
  ∃ m' st, o = Ok (m', st) ∧ capture_inv m' ∧ step_ok m' st.

Lemma answers_ok m' st : capture_inv m' → step_ok m' st → answers (Ok (m', st)).
Proof. intros. by exists m', st. Qed.

Lemma inv_deadline m :
  capture_inv m → is_Some (deadlineMs m) ↔ current m = armed ∨ current m = collecting.
Proof.
  unfold capture_inv. intros Hi. destruct (current m) eqn:E; [|naive_solver..|].
  all: rewrite Hi; split; [by intros []|by intros []].
Qed.

Lemma plain_step_answers m k :
  capture_inv m → k ≠ execute → k ≠ step_abandoned → answers (Ok (plain_step m k)).
Proof.
  intros Hi Hx Ha. apply answers_ok; [done|]. pose proof (inv_deadline m Hi).
  unfold step_ok; simpl. split_and!; try done; split; (done || by intros []).
Qed.

Lemma untouched_answers m : capture_inv m → answers (untouched m).
Proof. intros Hi. unfold untouched. apply plain_step_answers; [done|by case_match..]. Qed.

Lemma arm_answers m k d :
  current m = armed ∨ current m = collecting → k ≠ execute → k ≠ step_abandoned →
  capture_inv {| current := current m; cap_code := cap_code m; argument := argument m;
                 matched := matched m; deadlineMs := Some d |} →
  answers (Ok (arm m k d)).
Proof.
  intros Hc Hx Ha Hi. apply answers_ok; [done|].
  unfold step_ok; simpl. split_and!; try done; split; eauto; try done; by intros [].
Qed.

Lemma abandon_answers m : answers (abandon m).
Proof.
  unfold abandon. assert ((if bool_decide (current m = idle) then Ok tt
    else assertMidCallFeatureTransition (current m) idle) = Ok tt) as ->.
  { by destruct (current m). }
  apply answers_ok; [done|]. unfold step_ok; simpl.
  split_and!; try done; split; (done || by intros [] || eauto).
Qed.

Lemma beginExecuting_answers m e arg :
  current m = armed ∨ current m = collecting →
  execution_ok {| exec_action := action e; exec_code := code e; exec_argument := arg |} →
  answers (beginExecuting m e arg).
Proof.
  intros Hc Hx. unfold beginExecuting.
  assert (assertMidCallFeatureTransition (current m) executing = Ok tt) as ->.
  { by destruct Hc as [->| ->]. }
  apply answers_ok; [done|]. unfold step_ok; simpl.
  split_and!; try done; try (split; (done || by intros [] || eauto)). naive_solver.
Qed.

Lemma find_code_Some c e : find_code table c = Some e → e ∈ table ∧ code e = c.
Proof. unfold find_code. intros [Hin Hc]%find_first_Some. by bool_simpl. Qed.

Lemma not_extendable_maximal c : existsb (extends_code c) table = false → maximal_code c.
Proof.
  intros H. apply Forall_forall. intros e He. destruct (extends_code c e) eqn:E; [|done].
  apply list_elem_of_In in He. assert (existsb (extends_code c) table = true); [|congruence].
  apply existsb_exists. eauto.
Qed.

Lemma resolveCode_answers m t :
  current m = armed → argument m = "" → matched m = None → answers (resolveCode table settings m t).
Proof.
  intros Hc Ha Hm. unfold resolveCode.
  destruct (find_code table (cap_code m)) as [e|] eqn:Hf,
    (existsb (extends_code (cap_code m)) table) eqn:Hx.
  - apply arm_answers; auto. unfold capture_inv. rewrite Hc. simpl. eauto.
  - apply find_code_Some in Hf as [Hin Hcode]. apply not_extendable_maximal in Hx.
    rewrite <- Hcode in Hx.
    destruct (argumentModeOf e) eqn:Hmode.
    + apply beginExecuting_answers; [auto|]. split; simpl; [lia|].
      exists e. rewrite Hmode. by split_and!.
    + apply arm_answers; simpl; auto. split_and!; eauto; [by left|].
      exists e. rewrite Hmode. by split_and!.
    + apply arm_answers; simpl; auto. split_and!; eauto; [by left|].
      exists e. rewrite Hmode. by split_and!.
  - apply arm_answers; auto. unfold capture_inv. rewrite Hc. simpl. eauto.
  - apply abandon_answers.
Qed.

(** Executing a matched row with what was collected for it. *)
Lemma collected_execution m e :
  capture_inv m → current m = collecting → matched m = Some e →
  (argumentModeOf e = mode_required → argument m ≠ "") →
  execution_ok {| exec_action := action e; exec_code := code e; exec_argument := argument m |}.
Proof.
  unfold capture_inv. intros Hi Hc Hm Hreq. rewrite Hc in Hi.
  destruct Hi as (_ & Hb & e' & Hm' & Hin & Hcode & Hmode & Hmax).
  rewrite Hm in Hm'. injection Hm' as <-.
  split; simpl; [destruct Hb as [->|]; simpl; lia|]. exists e. split_and!; auto; done.
Qed.

Lemma finish_collecting_answers m e :
  capture_inv m → current m = collecting → matched m = Some e →
  answers (if (String.length (argument m) =? 0) && bool_decide (argumentModeOf e = mode_required)
           then abandon m else beginExecuting m e (argument m)).
Proof.
  intros Hi Hc Hm. destruct (_ && _) eqn:E; [apply abandon_answers|].
  apply beginExecuting_answers; [auto|]. apply collected_execution; auto.
  intros Hreq Hnil. rewrite Hnil, Hreq in E. done.
Qed.

Lemma pushCollecting_answers m d t :
  capture_inv m → current m = collecting → isDtmfDigit d = true →
  answers (pushCollecting settings m d t).
Proof.
  intros Hi Hc Hd. pose proof Hi as Hi'. unfold capture_inv in Hi'. rewrite Hc in Hi'.
  destruct Hi' as (Hdl & Hb & e & Hm & Hin & Hcode & Hmode & Hmax).
  unfold pushCollecting. rewrite Hm. case_bool_decide; [by apply finish_collecting_answers|].
  apply dtmf_singleton in Hd as (c & -> & _). cbn [argument].
  assert (String.length (argument m +:+ String c "") = S (String.length (argument m))) as Hlen
    by (rewrite append_length; simpl; lia).
  assert (argument m +:+ String c "" ≠ "") as Hne by (intros Hn; by rewrite Hn in Hlen).
  destruct (Z.leb_spec (maxArgumentDigits settings)
    (Z.of_nat (String.length (argument m +:+ String c "")))) as [Hle|Hlt].
  - apply beginExecuting_answers; [auto|]. split; simpl.
    + rewrite Hlen in *. destruct Hb as [Hb|Hb]; [rewrite Hb in *; simpl in *|]; lia.
    + exists e. by split_and!.
  - apply arm_answers; simpl; auto. unfold capture_inv; simpl. rewrite Hc.
    split_and!; eauto; [by right|]. exists e. by split_and!.
Qed.

Lemma push_answers m d t : capture_inv m → answers (push table settings m d t).
Proof.
  intros Hi. unfold push. destruct (isDtmfDigit (toUpperCase d)) eqn:Hd;
    [cbn [negb]|by apply plain_step_answers].
  destruct (current m) eqn:Hc.
  - unfold pushIdle. destruct (includes _ _); [|by apply plain_step_answers].
    by apply resolveCode_answers.
  - pose proof Hi as Hi'. unfold capture_inv in Hi'. rewrite Hc in Hi'. destruct Hi' as (?&?&_).
    by apply resolveCode_answers.
  - by apply pushCollecting_answers.
  - by apply plain_step_answers.
Qed.

Lemma expire_answers m t : capture_inv m → answers (expire table m t).
Proof.
  intros Hi. unfold expire. destruct (match deadlineMs m with Some _ => _ | None => _ end);
    [by apply untouched_answers|].
  destruct (current m) eqn:Hc; [by apply untouched_answers|..|by apply untouched_answers].
  - destruct (find_code table (cap_code m)) as [e|] eqn:Hf; [|apply abandon_answers].
    case_bool_decide as Hreq; [apply abandon_answers|].
    apply find_code_Some in Hf as [Hin Hcode].
    apply beginExecuting_answers; [auto|]. split; simpl; [lia|]. exists e. by split_and!.
  - destruct (matched m) as [e|] eqn:Hm; [|apply abandon_answers].
    by apply finish_collecting_answers.
Qed.

Lemma mc_apply_answers m op : capture_inv m → answers (mc_apply table settings m op).
Proof.
  intros Hi. destruct op; simpl.
  - by apply push_answers.
  - by apply expire_answers.
  - unfold settle. case_bool_decide; [|by apply untouched_answers].
    apply answers_ok; [done|]. unfold step_ok; simpl.
    split_and!; try done; split; (done || by intros []).
  - unfold cancel. case_bool_decide; [by apply plain_step_answers|apply abandon_answers].
Qed.

Lemma mc_run_answers m ops :
  capture_inv m →
  ∃ m' sts, mc_run table settings m ops = Ok (m', sts) ∧ capture_inv m' ∧
            length sts = length ops ∧ Forall (λ st, ∃ m, step_ok m st) sts.
Proof.
  revert m. induction ops as [|op ops IH]; intros m Hi; simpl; [by exists m, []|].
  destruct (mc_apply_answers m op Hi) as (m1 & st & -> & Hi1 & Hst). simpl.
  destruct (IH m1 Hi1) as (m2 & sts & -> & Hi2 & Hlen & Hsts). simpl.
  exists m2, (st :: sts). split_and!; auto; [by f_equal/=|]. constructor; eauto.
Qed.

(** While an action runs, digits and timers change nothing and start nothing. *)
Lemma executing_swallows m ops :
  capture_inv m → current m = executing →
  Forall (λ op, op ≠ McSettle ∧ op ≠ McCancel) ops →
  ∃ sts, mc_run table settings m ops = Ok (m, sts) ∧
         Forall (λ st, step_state st = executing ∧ execution st = None) sts.
Proof.
  intros Hi Hc Hops. assert (deadlineMs m = None) as Hd.
  { unfold capture_inv in Hi. rewrite Hc in Hi. by rewrite Hi. }
  induction Hops as [|op ops [Hs Hx] _ (sts & IH & Hsts)]; simpl; [by exists []|].
  assert (∃ k, mc_apply table settings m op = Ok (plain_step m k)) as [k ->].
  { destruct op; simpl; [| |done|done].
    - unfold push. rewrite Hc. destruct (negb _); eauto.
    - unfold expire, untouched. rewrite Hd. eauto. }
  simpl. rewrite IH. simpl. eexists. split; [done|]. by constructor.
Qed.

(** ** Dialling a code *)

(** The keys of [s], the [i]th of them pressed at [clock i]. *)
Fixpoint dial (clock : nat → Z) (i : nat) (s : string) : list mc_op :=
  match s with
  | EmptyString => []
  | String c s' => McPush (String c "") (clock i) :: dial clock (S i) s'
  end.

Lemma dial_app clock i s1 s2 :
  dial clock i (s1 +:+ s2) = dial clock i s1 ++ dial clock (i + String.length s1) s2.
Proof.
  revert i. induction s1 as [|c s1 IH]; intros i; simpl; [by rewrite Nat.add_0_r|].
  by rewrite IH, Nat.add_succ_r.
Qed.

Lemma mc_timed_app m ops1 ops2 m1 sts1 :
  mc_timed table settings m ops1 = Ok (m1, sts1) →
  mc_timed table settings m (ops1 ++ ops2) =
    let! (m2, sts2) := mc_timed table settings m1 ops2 in Ok (m2, sts1 ++ sts2).
Proof.
  revert m sts1. induction ops1 as [|op ops1 IH]; intros m sts1 Hr; simpl in *.
  - simplify_eq. by destruct (mc_timed table settings m1 ops2) as [[]|].
  - destruct (fired table m op) as [[m0 early]|] eqn:E0; simpl in *; [|done].
    destruct (mc_apply table settings m0 op) as [[m' st]|] eqn:E; simpl in *; [|done].
    destruct (mc_timed table settings m' ops1) as [[m'' sts]|] eqn:E'; simpl in *; [|done].
    simplify_eq. rewrite (IH _ _ E').
    destruct (mc_timed table settings m1 ops2) as [[]|]; simpl; [|done]. by rewrite <- app_assoc.
Qed.

(** The timer of [m] has not fired at [t]. *)
Definition in_time m (t : Z) : Prop := ∀ d, deadlineMs m = Some d → (t < d)%Z.

Lemma timed_push m digit t ops :
  in_time m t →
  mc_timed table settings m (McPush digit t :: ops) =
    let! (m', st) := push table settings m digit t in
    let! (m'', sts) := mc_timed table settings m' ops in Ok (m'', st :: sts).
Proof.
  intros H. unfold in_time in H. cbn [mc_timed]. unfold fired. cbn [op_at].
  destruct (deadlineMs m) as [d|]; [|done]. by rewrite (proj2 (Z.leb_gt d t)) by auto.
Qed.

Definition dtmf_char (c : ascii) : bool := isDtmfDigit (String c "").

Lemma dtmf_char_upper c : dtmf_char c = true → toUpperCase (String c "") = String c "".
Proof. intros H. by apply dtmf_singleton in H as (? & _ & ?). Qed.

(** What a capture holds while a code is typed, and once it is complete. *)
Definition typing (c : string) m : Prop :=
  current m = armed ∧ cap_code m = c ∧ argument m = "" ∧ matched m = None.

Lemma extends_prefix e p c s :
  code e = p +:+ String c s → extends_code p e = true.
Proof.
  intros Hp. unfold extends_code. rewrite Hp. apply andb_true_iff. split.
  - apply Nat.ltb_lt. rewrite append_length. simpl. lia.
  - apply startsWith_spec. eauto.
Qed.

Lemma resolve_partial e m p c s t :
  e ∈ table → code e = p +:+ String c s → typing p m →
  resolveCode table settings m t = Ok (arm m captured (t + codeTimeoutMs settings)).
Proof.
  intros Hin Hp (_ & Hcode & _). unfold resolveCode. rewrite Hcode.
  assert (existsb (extends_code p) table = true) as ->.
  { apply existsb_exists. exists e. split; [by apply list_elem_of_In|by eapply extends_prefix]. }
  by destruct (find_code table p).
Qed.

(** Typing the rest of a row's code keeps every digit and ends in the answer for
    the whole code. *)
Lemma dial_rest clock i e s c p m :
  e ∈ table → code e = p +:+ String c s → string_forallb dtmf_char (String c s) = true →
  typing p m → in_time m (clock i) →
  (∀ j, i <= j → j < i + String.length s → (clock (S j) < clock j + codeTimeoutMs settings)%Z) →
  ∃ m1 sts, typing (code e) m1 ∧ Forall (λ st, kind st = captured) sts ∧ length sts = String.length s ∧
    ∀ mf stf, resolveCode table settings m1 (clock (i + String.length s)) = Ok (mf, stf) →
    mc_timed table settings m (dial clock i (String c s)) = Ok (mf, sts ++ [stf]).
Proof.
  revert i c p m. induction s as [|c' s IH]; intros i c p m Hin Hp Hd (Hc & Hcode & Ha & Hm) Htime Hpace.
  all: cbn [string_forallb] in Hd; bool_simpl.
  all: assert (push table settings m (String c "") (clock i) =
    resolveCode table settings {| current := armed; cap_code := p +:+ String c "";
      argument := ""; matched := None; deadlineMs := deadlineMs m |} (clock i)) as Hpush
    by (unfold push; rewrite dtmf_char_upper by done; unfold dtmf_char in *;
        match goal with H : isDtmfDigit _ = true |- _ => rewrite H end; simpl;
        rewrite Hc; unfold pushArmed; by rewrite Hc, Hcode, Ha, Hm).
  - exists {| current := armed; cap_code := p +:+ String c ""; argument := "";
              matched := None; deadlineMs := deadlineMs m |}, [].
    split_and!; [by rewrite Hp|done|done|]. intros mf stf Hr.
    cbn [dial]. rewrite timed_push, Hpush by done. simpl in Hr. rewrite Nat.add_0_r in Hr.
    rewrite Hr. done.
  - set (m' := {| current := armed; cap_code := p +:+ String c ""; argument := "";
                  matched := None; deadlineMs := deadlineMs m |}) in *.
    assert (code e = (p +:+ String c "") +:+ String c' s) as Hp'.
    { rewrite Hp, append_assoc. done. }
    rewrite (resolve_partial e m' _ _ _ _ Hin Hp') in Hpush by done.
    destruct (IH (S i) c' (p +:+ String c "")
      (arm m' captured (clock i + codeTimeoutMs settings)).1) as (m1 & sts & Hty & Hall & Hlen & Hr);
      [done|done|by apply andb_true_iff|done|intros d [= <-]; apply Hpace; simpl; lia
      |intros j Hj1 Hj2; apply Hpace; simpl; lia|].
    eexists m1, (_ :: sts). split_and!; [done| |simpl; by f_equal|].
    + constructor; [|exact Hall].
      instantiate (1 := (arm m' captured (clock i + codeTimeoutMs settings)).2). done.
    + intros mf stf Hf. cbn [String.length] in Hf. rewrite Nat.add_succ_r in Hf.
      remember (String c' s) as s' eqn:Hs'.
      cbn [dial]. rewrite timed_push, Hpush by done. cbn [result_bind].
      specialize (Hr mf stf Hf). subst s'. unfold arm at 1. cbn [fst snd] in *.
      unfold arm in Hr. cbn [fst snd] in Hr. by rewrite Hr.
Qed.

(** From idle: the first key arms the machine. *)
Lemma dial_code clock e :
  e ∈ table → dialable e = true →
  (∀ i, S i < String.length (code e) → (clock (S i) < clock i + codeTimeoutMs settings)%Z) →
  ∃ m1 sts, typing (code e) m1 ∧ Forall (λ st, kind st = captured) sts ∧
    S (length sts) = String.length (code e) ∧
    ∀ mf stf, resolveCode table settings m1 (clock (String.length (code e) - 1)) = Ok (mf, stf) →
    mc_timed table settings capture_init (dial clock 0 (code e)) = Ok (mf, sts ++ [stf]).
Proof.
  unfold dialable. intros Hin Hd Hpace. bool_simpl. destruct (code e) as [|c s] eqn:Hc; [done|].
  pose proof (H0 : string_forallb dtmf_char (String c s) = true) as Hall.
  cbn [string_forallb] in Hall. bool_simpl.
  set (m' := {| current := armed; cap_code := String c ""; argument := "";
                matched := None; deadlineMs := None |}).
  assert (push table settings capture_init (String c "") (clock 0) =
          resolveCode table settings m' (clock 0)) as Hpush.
  { unfold push. rewrite dtmf_char_upper by done. unfold dtmf_char in *.
    match goal with H : isDtmfDigit (String c "") = true |- _ => rewrite H end. simpl.
    unfold pushIdle. replace (includes _ _) with true; [done|]. symmetry. apply includes_spec.
    unfold leadDigits. apply list_elem_of_fmap. exists e. split; [|done]. rewrite Hc. simpl.
    by destruct s. }
  destruct s as [|c' s].
  - exists m', []. split_and!; [done|done|done|]. intros mf stf Hr. simpl in Hr.
    cbn [dial]. by rewrite timed_push, Hpush, Hr by done.
  - rewrite (resolve_partial e m' (String c "") c' s) in Hpush by (by rewrite ?Hc).
    destruct (dial_rest clock 1 e s c' (String c "")
      (arm m' captured (clock 0 + codeTimeoutMs settings)).1) as (m1 & sts & Hty & Hsts & Hlen & Hr);
      [done|by rewrite Hc|done|done|intros d [= <-]; apply Hpace; simpl; lia
      |intros j Hj1 Hj2; apply Hpace; simpl; lia|].
    rewrite Hc in Hty.
    exists m1, ((arm m' captured (clock 0 + codeTimeoutMs settings)).2 :: sts).
    split_and!; [done|by constructor|simpl; by rewrite Hlen|]. intros mf stf Hf.
    replace (String.length (String c (String c' s)) - 1) with (1 + String.length s) in Hf
      by (simpl; lia).
    specialize (Hr mf stf Hf). remember (String c' s) as s' eqn:Hs'.
    cbn [dial]. rewrite timed_push, Hpush by done. unfold arm in *. cbn [result_bind fst snd] in *.
    by rewrite Hr.
Qed.

(** What a capture holds while an argument is typed. *)
Definition awaiting e (arg : string) m : Prop :=
  current m = collecting ∧ matched m = Some e ∧ argument m = arg.

Lemma dial_argument clock i e s arg m :
  awaiting e arg m → string_forallb dtmf_char s = true →
  string_forallb (λ c, negb (bool_decide (String c "" = terminator settings))) s = true →
  (Z.of_nat (String.length arg + String.length s) < maxArgumentDigits settings)%Z →
  in_time m (clock i) →
  (∀ j, i <= j → j < i + String.length s → (clock (S j) < clock j + interDigitTimeoutMs settings)%Z) →
  ∃ m' sts, mc_timed table settings m (dial clock i s) = Ok (m', sts) ∧
    awaiting e (arg +:+ s) m' ∧ Forall (λ st, kind st = captured) sts ∧ length sts = String.length s ∧
    in_time m' (clock (i + String.length s)).
Proof.
  revert i arg m. induction s as [|c s IH]; intros i arg m (Hc & Hm & Ha) Hd Ht Hlen Htime Hpace.
  { exists m, []. rewrite append_nil_r. simpl. rewrite Nat.add_0_r. by split_and!. }
  cbn [string_forallb] in Hd, Ht. bool_simpl. cbn [dial]. rewrite timed_push by done.
  assert (push table settings m (String c "") (clock i) =
    Ok (arm {| current := collecting; cap_code := cap_code m; argument := arg +:+ String c "";
               matched := Some e; deadlineMs := deadlineMs m |}
          captured (clock i + interDigitTimeoutMs settings))) as ->.
  { unfold push. rewrite dtmf_char_upper by done. unfold dtmf_char in *.
    match goal with H : isDtmfDigit (String c "") = true |- _ => rewrite H end. simpl.
    rewrite Hc. unfold pushCollecting. rewrite Hm. rewrite bool_decide_eq_false_2 by done.
    cbn [argument]. rewrite Ha, (proj2 (Z.leb_gt _ _)); [by rewrite ?Hc, ?Hm|].
    rewrite append_length. simpl in *. lia. }
  cbn [result_bind arm]. destruct (IH (S i) (arg +:+ String c "")
    {| current := collecting; cap_code := cap_code m; argument := arg +:+ String c "";
       matched := Some e; deadlineMs := Some (clock i + interDigitTimeoutMs settings)%Z |})
    as (m' & sts & Hr & Haw & Hsts & Hl & Hend);
    [done|done|done| |intros d [= <-]; apply Hpace; simpl; lia|intros j Hj1 Hj2; apply Hpace; simpl; lia|].
  { rewrite append_length. simpl in *. lia. }
  cbn [current cap_code argument matched]. rewrite Hr. cbn [result_bind].
  eexists m', _. split; [done|]. rewrite append_assoc in Haw. cbn [String.length].
  rewrite Nat.add_succ_r. split_and!; [done|by constructor|simpl; by f_equal|done].
Qed.

Definition execute_step e (arg : string) : MidCallFeatureStep :=
  {| kind := execute; step_state := executing;
     execution := Some {| exec_action := action e; exec_code := code e; exec_argument := arg |};
     swallowed := None; wakeAtMs := None |}.

Lemma dial_terminator clock i e arg m :
  awaiting e arg m → isDtmfDigit (terminator settings) = true →
  (arg = "" → argumentModeOf e ≠ mode_required) → in_time m (clock i) →
  ∃ m', mc_timed table settings m (dial clock i (terminator settings)) =
        Ok (m', [execute_step e arg]) ∧ current m' = executing.
Proof.
  intros (Hc & Hm & Ha) Ht Hreq Htime. pose proof (dtmf_singleton _ Ht) as (c & Hcs & Hup).
  rewrite Hcs. cbn [dial]. rewrite timed_push by done. unfold push. rewrite <- Hcs, Hup, Ht, Hc. cbn [negb].
  unfold pushCollecting. rewrite Hm, bool_decide_eq_true_2 by done. rewrite Ha.
  replace ((String.length arg =? 0) && bool_decide (argumentModeOf e = mode_required))
    with false.
  - unfold beginExecuting. rewrite Hc. simpl. eauto.
  - symmetry. apply andb_false_iff. destruct arg as [|]; [|by left].
    right. apply bool_decide_eq_false. auto.
Qed.
End CaptureFacts.

Lemma capture_init_inv table settings : capture_inv table settings capture_init.
Proof. done. Qed.

Lemma elem_of_order lc rows e :
  e ∈ orderMidCallFeatureCodes lc rows ↔ dialable e = true ∧ e ∈ rows.
Proof. unfold orderMidCallFeatureCodes. rewrite elem_of_js_sort. by rewrite list_elem_of_filter. Qed.

(** The mid-call machine never refuses an event: from construction, every
    sequence of digits, timer expiries, settlements and cancellations is answered
    (no transition guard ever throws), one step per event, and each step asks to be
    woken exactly when it leaves a capture in progress, so no capture is left
    without a timer and no timer is left armed without a capture. *)
Theorem mid_call_never_stuck (lc : string → string → Z) (rows : list MidCallFeatureCode)
    (settings : MidCallFeatureSettings) (ops : list mc_op) :
  ∃ m sts,
    mc_run (orderMidCallFeatureCodes lc rows) settings capture_init ops = Ok (m, sts) ∧
    length sts = length ops ∧
    Forall (λ st, is_Some (wakeAtMs st) ↔ step_state st = armed ∨ step_state st = collecting) sts ∧
    (is_Some (deadlineMs m) ↔ current m = armed ∨ current m = collecting).
Proof.
  destruct (mc_run_answers (orderMidCallFeatureCodes lc rows) settings _ ops
    (capture_init_inv _ _)) as (m & sts & Hr & Hi & Hlen & Hsts).
  exists m, sts. split_and!; auto.
  - eapply Forall_impl; [exact Hsts|]. intros st (m' & Hst). apply Hst.
  - by eapply inv_deadline.
Qed.

(** What the machine hands to the engine is a configured feature: every
    execution it ever emits is a dialable row of the table, with no argument when
    the row takes none, with one when the row requires one, never longer than the
    digit bound, and only a code that no longer code of the table extends is ever
    executed with an argument; so a row that requires an argument and is a proper
    prefix of another row is never executed. *)
Theorem mid_call_execution_sound (lc : string → string → Z) (rows : list MidCallFeatureCode)
    (settings : MidCallFeatureSettings) (ops : list mc_op) m sts st x :
  mc_run (orderMidCallFeatureCodes lc rows) settings capture_init ops = Ok (m, sts) →
  st ∈ sts → execution st = Some x →
  (Z.of_nat (String.length (exec_argument x)) <= Z.max 1 (maxArgumentDigits settings))%Z ∧
  ∃ e, e ∈ rows ∧ dialable e = true ∧ code e = exec_code x ∧ action e = exec_action x ∧
    (argumentModeOf e = mode_none → exec_argument x = "") ∧
    (argumentModeOf e = mode_required → exec_argument x ≠ "") ∧
    (exec_argument x ≠ "" ∨ argumentModeOf e = mode_required →
     ∀ e', e' ∈ rows → dialable e' = true → extends_code (code e) e' = false).
Proof.
  intros Hr Hst Hx. destruct (mc_run_answers (orderMidCallFeatureCodes lc rows) settings _ ops
    (capture_init_inv _ _)) as (m' & sts' & Hr' & _ & _ & Hsts).
  rewrite Hr in Hr'. injection Hr' as <- <-. rewrite Forall_forall in Hsts.
  destruct (Hsts st Hst) as (m1 & _ & _ & _ & _ & _ & Hex).
  destruct (Hex x Hx) as (_ & Hlen & e & Hin & Hc & Ha & Hn & Hreq & Hmax).
  split; [done|]. apply elem_of_order in Hin as [Hd Hin].
  exists e. split_and!; auto; [by apply Hreq|]. intros Hor e' Hin' Hd'.
  assert (maximal_code (orderMidCallFeatureCodes lc rows) (code e)) as Hm.
  { destruct Hor as [Hne|Hm]; [auto|by apply Hreq]. }
  unfold maximal_code in Hm. rewrite Forall_forall in Hm. apply Hm. by apply elem_of_order.
Qed.

(** One capture, one execution: from the moment an action has been handed
    over until the engine settles or cancels it, no digit and no timer changes the
    machine or starts a second action. *)
Theorem mid_call_single_execution (lc : string → string → Z) (rows : list MidCallFeatureCode)
    (settings : MidCallFeatureSettings) (ops1 ops2 : list mc_op) m sts :
  mc_run (orderMidCallFeatureCodes lc rows) settings capture_init ops1 = Ok (m, sts) →
  current m = executing →
  Forall (λ op, op ≠ McSettle ∧ op ≠ McCancel) ops2 →
  ∃ sts2, mc_run (orderMidCallFeatureCodes lc rows) settings m ops2 = Ok (m, sts2) ∧
          Forall (λ st, step_state st = executing ∧ execution st = None) sts2.
Proof.
  intros Hr Hc Hops. destruct (mc_run_answers (orderMidCallFeatureCodes lc rows) settings _ ops1
    (capture_init_inv _ _)) as (m' & sts' & Hr' & Hi & _).
  rewrite Hr in Hr'. injection Hr' as <- <-. by eapply executing_swallows.
Qed.

(** The keys a party presses to run a row: its code alone when it takes no
    argument, else the code, the argument and the terminator. *)
Definition keys (settings : MidCallFeatureSettings) (e : MidCallFeatureCode) (arg : string)
    : string :=
  match argumentModeOf e with
  | mode_none => code e
  | _ => code e +:+ arg +:+ terminator settings
  end.

(** The pace of the keys of a row: while its code is typed each key comes before the code
    timer, and once the code is complete before the inter-digit timer, counted from the
    key before. *)
Definition paced (settings : MidCallFeatureSettings) (clock : nat → Z) (e : MidCallFeatureCode) (arg : string) : Prop :=
  ∀ i, S i < String.length (keys settings e arg) →
    (clock (S i) < clock i + (if (S i <? String.length (code e))%nat then codeTimeoutMs settings
                              else interDigitTimeoutMs settings))%Z.

(** C39. A configured code can be dialled, with the timers running: for a row that the
    table finds under its code and that no longer row extends, pressing its keys, each
    before the timer that the key before it armed, swallows every key, lets no timer
    fire and ends with exactly that row's action executed with exactly the argument
    typed. The terminator is a DTMF digit; the argument is made of DTMF digits, has no
    terminator in it, is shorter than the digit bound, is there when the row requires one
    and is not there when the row takes none. *)
Theorem mid_call_dial_executes (lc : string → string → Z) (rows : list MidCallFeatureCode)
    (settings : MidCallFeatureSettings) (clock : nat → Z) (e : MidCallFeatureCode)
    (arg : string) :
  find_code (orderMidCallFeatureCodes lc rows) (code e) = Some e →
  existsb (extends_code (code e)) (orderMidCallFeatureCodes lc rows) = false →
  paced settings clock e arg →
  isDtmfDigit (terminator settings) = true →
  string_forallb dtmf_char arg = true →
  string_forallb (λ c, negb (bool_decide (String c "" = terminator settings))) arg = true →
  (Z.of_nat (String.length arg) < maxArgumentDigits settings)%Z →
  (arg = "" → argumentModeOf e ≠ mode_required) →
  (argumentModeOf e = mode_none → arg = "") →
  ∃ m sts,
    mc_timed (orderMidCallFeatureCodes lc rows) settings capture_init
      (dial clock 0 (keys settings e arg)) = Ok (m, sts ++ [execute_step e arg]) ∧
    S (length sts) = String.length (keys settings e arg) ∧
    current m = executing ∧ Forall (λ st, kind st = captured) sts.
Proof.
  set (table := orderMidCallFeatureCodes lc rows).
  intros Hf Hx Hpace Ht Hd Hnt Hlen Hreq Hnone.
  destruct (find_code_Some _ _ _ Hf) as [Hin _].
  pose proof (proj1 (elem_of_order lc rows e) Hin) as [Hdial _].
  assert (Hkeys : argumentModeOf e ≠ mode_none → keys settings e arg = code e +:+ arg +:+ terminator settings)
    by (unfold keys; by destruct (argumentModeOf e)).
  assert (Hcodepace : ∀ i, S i < String.length (code e) → (clock (S i) < clock i + codeTimeoutMs settings)%Z).
  { intros i Hi. pose proof (Hpace i) as Hp. rewrite (proj2 (Nat.ltb_lt _ _) Hi) in Hp. apply Hp.
    unfold keys. case_match; rewrite ?append_length; lia. }
  destruct (dial_code table settings clock e Hin Hdial Hcodepace)
    as (m1 & sts & (Hc & Hcode & Ha & Hm) & Hsts & Hl & Hrun).
  unfold resolveCode in Hrun. rewrite Hcode, Hf, Hx in Hrun.
  destruct (decide (argumentModeOf e = mode_none)) as [Hmode|Hmode].
  - unfold keys. rewrite Hmode in *. unfold beginExecuting in Hrun. rewrite Hc in Hrun.
    rewrite (Hnone eq_refl). eexists _, sts. split; [apply Hrun; reflexivity|done].
  - assert (∃ m2 st, kind st = captured ∧ awaiting e "" m2 ∧
      deadlineMs m2 = Some (clock (String.length (code e) - 1)%nat + interDigitTimeoutMs settings)%Z ∧
      mc_timed table settings capture_init (dial clock 0 (code e)) = Ok (m2, sts ++ [st]))
      as (m2 & st & Hk & Haw & Hdl & Hrun').
    { destruct (argumentModeOf e); [done|..];
        (eexists _, _; split_and!; [| | |apply Hrun; reflexivity]; done). }
    rewrite (Hkeys Hmode) in *. assert (Hterm : String.length (terminator settings) = 1).
    { by apply dtmf_singleton in Ht as (c & -> & _). }
    assert (Hargpace : ∀ j, String.length (code e) <= S j → j < String.length (code e) + String.length arg →
      (clock (S j) < clock j + interDigitTimeoutMs settings)%Z).
    { intros j Hj1 Hj2. pose proof (Hpace j) as Hp. rewrite (proj2 (Nat.ltb_ge _ _) Hj1), (Hkeys Hmode) in Hp.
      apply Hp. rewrite !append_length. lia. }
    destruct (dial_argument table settings clock (0 + String.length (code e)) e arg "" m2 Haw Hd Hnt)
      as (m3 & sts3 & Hrun3 & Haw3 & Hsts3 & Hl3 & Htime3);
      [simpl; lia| |intros j Hj1 Hj2; apply Hargpace; lia|].
    { intros d Hd'. rewrite Hdl in Hd'. injection Hd' as <-.
      pose proof (Hargpace (String.length (code e) - 1)%nat) as Hp.
      replace (S (String.length (code e) - 1)%nat) with (0 + String.length (code e))%nat in Hp by lia. apply Hp; lia. }
    destruct (dial_terminator table settings clock
      (0 + String.length (code e) + String.length arg) e arg m3 Haw3 Ht Hreq Htime3) as (m4 & Hrun4 & Hc4).
    rewrite dial_app, (mc_timed_app _ _ _ _ _ _ _ Hrun'), dial_app,
      (mc_timed_app _ _ _ _ _ _ _ Hrun3), Hrun4. cbn [result_bind].
    exists m4, ((sts ++ [st]) ++ sts3). split_and!; [by rewrite app_assoc| |done|].
    + rewrite !length_app, !append_length. simpl. lia.
    + rewrite !Forall_app, Forall_singleton. by split_and!.
Qed.

(** ** Witnesses: the table [*1] (transfer), [*2] (record), [*25] (park) *)
Definition demo_rows : list MidCallFeatureCode :=
  [ {| code := "*1"; action := blind_transfer; argumentMode := None |};
    {| code := "*2"; action := record_toggle; argumentMode := None |};
    {| code := "*25"; action := act_park; argumentMode := None |} ].

(** Any collation does; this one compares lengths. *)
Definition demo_collation (a b : string) : Z :=
  (Z.of_nat (String.length a) - Z.of_nat (String.length b))%Z.

Definition demo_transfer : list mc_op :=
  dial (λ i, Z.of_nat i * 100)%Z 0 "*1200#".

Lemma mid_call_execution_witness :
  ∃ m sts st x,
    mc_run (orderMidCallFeatureCodes demo_collation demo_rows) DEFAULT_MID_CALL_FEATURE_SETTINGS
      capture_init demo_transfer = Ok (m, sts) ∧
    st ∈ sts ∧ execution st = Some x ∧
    exec_action x = blind_transfer ∧ exec_argument x = "200" ∧
    (Z.of_nat (String.length (exec_argument x)) <= Z.max 1 16)%Z.
Proof.
  do 4 eexists. split; [vm_compute; reflexivity|].
  split; [do 5 apply list_elem_of_further; apply list_elem_of_here|].
  split; [reflexivity|]. split_and!; [reflexivity|reflexivity|].
  refine (proj1 (mid_call_execution_sound demo_collation demo_rows
    DEFAULT_MID_CALL_FEATURE_SETTINGS demo_transfer _ _ _ _ _ _ _));
    [vm_compute; reflexivity
    |do 5 apply list_elem_of_further; apply list_elem_of_here|reflexivity].
Defined.

Lemma mid_call_single_execution_witness :
  ∃ m sts,
    mc_run (orderMidCallFeatureCodes demo_collation demo_rows) DEFAULT_MID_CALL_FEATURE_SETTINGS
      capture_init demo_transfer = Ok (m, sts) ∧ current m = executing ∧
    ∃ sts2, mc_run (orderMidCallFeatureCodes demo_collation demo_rows)
      DEFAULT_MID_CALL_FEATURE_SETTINGS m demo_transfer = Ok (m, sts2) ∧
      Forall (λ st, step_state st = executing ∧ execution st = None) sts2.
Proof.
  do 2 eexists. split; [vm_compute; reflexivity|]. split; [reflexivity|].
  refine (mid_call_single_execution demo_collation demo_rows
    DEFAULT_MID_CALL_FEATURE_SETTINGS demo_transfer demo_transfer _ _ _ _ _);
    [vm_compute; reflexivity|reflexivity|].
  repeat constructor; done.
Defined.

Lemma mid_call_dial_witness :
  ∃ m sts,
    mc_timed (orderMidCallFeatureCodes demo_collation demo_rows) DEFAULT_MID_CALL_FEATURE_SETTINGS
      capture_init (dial (λ i, Z.of_nat i * 1400)%Z 0 "*25401#") =
      Ok (m, sts ++ [execute_step {| code := "*25"; action := act_park; argumentMode := None |}
                       "401"]) ∧
    S (length sts) = 7 ∧ current m = executing ∧ Forall (λ st, kind st = captured) sts.
Proof.
  apply (mid_call_dial_executes demo_collation demo_rows DEFAULT_MID_CALL_FEATURE_SETTINGS
    (λ i, Z.of_nat i * 1400)%Z {| code := "*25"; action := act_park; argumentMode := None |} "401");
    try (vm_compute; reflexivity); try done.
  intros i _. simpl. case_match; lia.
Defined.

(** With a slow third key the timer that the second armed fires before it: [*2] is a code of
    its own, and it is what runs. *)
Example slow_code_runs_another :
  match mc_timed (orderMidCallFeatureCodes demo_collation demo_rows) DEFAULT_MID_CALL_FEATURE_SETTINGS
    capture_init (dial (λ i, Z.of_nat (i * i) * 500)%Z 0 "*25") with
  | Ok (_, sts) => (λ st, (kind st, exec_action <$> execution st)) <$> sts
  | Throw _ => []
  end = [(captured, None); (captured, None); (execute, Some record_toggle); (captured, None)].
Proof. vm_compute. reflexivity. Qed.
End MidCall.
