(* ===== verification/Channel.v ===== *)
(** * A call leg and the registry of live legs

    [packages/telephony/src/channel.ts] (the snapshot),
    [apps/engine/src/calls/channel-aggregate.ts] (its guarded mutations) and
    [apps/engine/src/calls/channel-registry.ts] (the indexes over live legs). A
    [Record<string, string>] of channel variables is a finite map; instants are
    integers of milliseconds. *)

From S2P Require Import Prelude Machines ChannelState CallState HangupCauses.

Module Channel.
Import CallState.

Inductive ChannelDirection : Set := inbound | outbound.

(** [CallDirection] of [packages/events]: how the organization sees the call. *)
Inductive CallDirection : Set := call_inbound | call_outbound | call_internal.

Inductive ChannelFlag : Set :=
| flag_answered | flag_outbound | flag_early_media | flag_bridged | flag_hold | flag_transfer
| flag_attended_transfer | flag_redirect | flag_park | flag_proxy_mode | flag_proxy_media
| flag_video.

#[global] Instance ChannelFlag_eq_dec : EqDecision ChannelFlag.
Proof. solve_decision. Defined.

Definition CHANNEL_FLAGS : list ChannelFlag :=
  [flag_answered; flag_outbound; flag_early_media; flag_bridged; flag_hold; flag_transfer;
   flag_attended_transfer; flag_redirect; flag_park; flag_proxy_mode; flag_proxy_media;
   flag_video].

Definition channel_flag_name (f : ChannelFlag) : string :=
  match f with
  | flag_answered => "answered"
  | flag_outbound => "outbound"
  | flag_early_media => "early-media"
  | flag_bridged => "bridged"
  | flag_hold => "hold"
  | flag_transfer => "transfer"
  | flag_attended_transfer => "attended-transfer"
  | flag_redirect => "redirect"
  | flag_park => "park"
  | flag_proxy_mode => "proxy-mode"
  | flag_proxy_media => "proxy-media"
  | flag_video => "video"
  end.

Record CallerProfile := {
  callerIdName : option string;
  callerIdNumber : option string;
  ani : option string;
  rdnis : option string;
  destinationNumber : string;
  context : string;
  networkAddr : option string;
  profile_source : option string;
  channelName : option string }.

Record ChannelSnapshot := {
  channelId : string;
  callId : string;
  organizationId : string;
  direction : ChannelDirection;
  state : ChannelState;
  callState : CallState;
  flags : list ChannelFlag;
  profile : CallerProfile;
  variables : gmap string string;
  bridgeId : option string;
  createdAt : Z;
  answeredAt : option Z;
  hangupAt : option Z;
  hangupCause : option HangupCause }.

Definition isChannelFlag (value : string) : bool :=
  includes (channel_flag_name <$> CHANNEL_FLAGS) value.

Definition hasChannelFlag (c : ChannelSnapshot) (f : ChannelFlag) : bool := includes (flags c) f.

Definition hasMediaPath (c : ChannelSnapshot) : bool :=
  hasChannelFlag c flag_answered || hasChannelFlag c flag_early_media.

(** ** The aggregate *)
Definition MEDIA_CHANNEL_ID_VARIABLE : string := "OPTIMIQ_MEDIA_CHANNEL_ID".
Definition HANGUP_INITIATED_BY_ENGINE_VARIABLE : string := "OPTIMIQ_HANGUP_INITIATED_BY_ENGINE".

Record ChannelAggregate := {
  ariChannelId : string;
  snapshotValue : ChannelSnapshot;
  hangupInitiatedByEngine : bool;
  detachedFromWalk : bool }.

(** The private constructor. *)
Definition new_aggregate (ari : string) (snap : ChannelSnapshot) : ChannelAggregate :=
  {| ariChannelId := ari; snapshotValue := snap;
     hangupInitiatedByEngine :=
       bool_decide (variables snap !! HANGUP_INITIATED_BY_ENGINE_VARIABLE = Some "true");
     detachedFromWalk := false |}.

Record CreateInput := {
  in_ariChannelId : string;
  in_channelId : string;
  in_callId : string;
  in_organizationId : string;
  in_direction : CallDirection;
  in_profile : CallerProfile;
  in_variables : gmap string string;
  in_createdAt : Z }.

Definition create (input : CreateInput) : ChannelAggregate :=
  new_aggregate (in_ariChannelId input)
    {| channelId := in_channelId input;
       callId := in_callId input;
       organizationId := in_organizationId input;
       direction := match in_direction input with call_outbound => outbound | _ => inbound end;
       state := INITIAL_CHANNEL_STATE;
       callState := INITIAL_CALL_STATE;
       flags := match in_direction input with call_outbound => [flag_outbound] | _ => [] end;
       profile := in_profile input;
       variables := <[MEDIA_CHANNEL_ID_VARIABLE := in_ariChannelId input]> (in_variables input);
       bridgeId := None;
       createdAt := in_createdAt input;
       answeredAt := None;
       hangupAt := None;
       hangupCause := None |}.

Inductive channel_error :=
| InvalidChannelTransitionError (from to : ChannelState)
| InvalidCallStateTransitionError (from to : CallState)
| RecoveryTypeError.

Definition hydrate (snap : ChannelSnapshot) : result channel_error ChannelAggregate :=
  match variables snap !! MEDIA_CHANNEL_ID_VARIABLE with
  | None => Throw RecoveryTypeError
  | Some mediaChannelId =>
      if bool_decide (trim mediaChannelId = "") then Throw RecoveryTypeError
      else Ok (new_aggregate mediaChannelId snap)
  end.

(** [this.snapshotValue = { ...this.snapshotValue, <field> }] *)
Definition with_snapshot (f : ChannelSnapshot → ChannelSnapshot) (a : ChannelAggregate)
    : ChannelAggregate :=
  {| ariChannelId := ariChannelId a; snapshotValue := f (snapshotValue a);
     hangupInitiatedByEngine := hangupInitiatedByEngine a;
     detachedFromWalk := detachedFromWalk a |}.

Definition set_state (x : ChannelState) (s : ChannelSnapshot) : ChannelSnapshot :=
  {| channelId := channelId s; callId := callId s; organizationId := organizationId s;
     direction := direction s; state := x; callState := callState s; flags := flags s;
     profile := profile s; variables := variables s; bridgeId := bridgeId s;
     createdAt := createdAt s; answeredAt := answeredAt s; hangupAt := hangupAt s;
     hangupCause := hangupCause s |}.

Definition set_callState (x : CallState) (s : ChannelSnapshot) : ChannelSnapshot :=
  {| channelId := channelId s; callId := callId s; organizationId := organizationId s;
     direction := direction s; state := state s; callState := x; flags := flags s;
     profile := profile s; variables := variables s; bridgeId := bridgeId s;
     createdAt := createdAt s; answeredAt := answeredAt s; hangupAt := hangupAt s;
     hangupCause := hangupCause s |}.

Definition set_flags (x : list ChannelFlag) (s : ChannelSnapshot) : ChannelSnapshot :=
  {| channelId := channelId s; callId := callId s; organizationId := organizationId s;
     direction := direction s; state := state s; callState := callState s; flags := x;
     profile := profile s; variables := variables s; bridgeId := bridgeId s;
     createdAt := createdAt s; answeredAt := answeredAt s; hangupAt := hangupAt s;
     hangupCause := hangupCause s |}.

Definition set_profile (x : CallerProfile) (s : ChannelSnapshot) : ChannelSnapshot :=
  {| channelId := channelId s; callId := callId s; organizationId := organizationId s;
     direction := direction s; state := state s; callState := callState s; flags := flags s;
     profile := x; variables := variables s; bridgeId := bridgeId s;
     createdAt := createdAt s; answeredAt := answeredAt s; hangupAt := hangupAt s;
     hangupCause := hangupCause s |}.

Definition set_variables (x : gmap string string) (s : ChannelSnapshot) : ChannelSnapshot :=
  {| channelId := channelId s; callId := callId s; organizationId := organizationId s;
     direction := direction s; state := state s; callState := callState s; flags := flags s;
     profile := profile s; variables := x; bridgeId := bridgeId s;
     createdAt := createdAt s; answeredAt := answeredAt s; hangupAt := hangupAt s;
     hangupCause := hangupCause s |}.

Definition set_bridgeId (x : option string) (s : ChannelSnapshot) : ChannelSnapshot :=
  {| channelId := channelId s; callId := callId s; organizationId := organizationId s;
     direction := direction s; state := state s; callState := callState s; flags := flags s;
     profile := profile s; variables := variables s; bridgeId := x;
     createdAt := createdAt s; answeredAt := answeredAt s; hangupAt := hangupAt s;
     hangupCause := hangupCause s |}.

Definition set_answeredAt (x : Z) (s : ChannelSnapshot) : ChannelSnapshot :=
  {| channelId := channelId s; callId := callId s; organizationId := organizationId s;
     direction := direction s; state := state s; callState := callState s; flags := flags s;
     profile := profile s; variables := variables s; bridgeId := bridgeId s;
     createdAt := createdAt s; answeredAt := Some x; hangupAt := hangupAt s;
     hangupCause := hangupCause s |}.

Definition set_hangup (cause : HangupCause) (at_ : Z) (vars : gmap string string)
    (s : ChannelSnapshot) : ChannelSnapshot :=
  {| channelId := channelId s; callId := callId s; organizationId := organizationId s;
     direction := direction s; state := state s; callState := callState s; flags := flags s;
     profile := profile s; variables := vars; bridgeId := bridgeId s;
     createdAt := createdAt s; answeredAt := answeredAt s; hangupAt := Some at_;
     hangupCause := Some cause |}.

Definition isTearingDown (a : ChannelAggregate) : bool :=
  isTeardownChannelState (state (snapshotValue a)).

Definition isAnswered (a : ChannelAggregate) : bool :=
  bool_decide (is_Some (answeredAt (snapshotValue a))).

Definition detach (a : ChannelAggregate) : ChannelAggregate :=
  {| ariChannelId := ariChannelId a; snapshotValue := snapshotValue a;
     hangupInitiatedByEngine := hangupInitiatedByEngine a; detachedFromWalk := true |}.

Local Open Scope js_scope.

Definition transitionTo (a : ChannelAggregate) (next : ChannelState)
    : result channel_error ChannelAggregate :=
  match assertChannelTransition (state (snapshotValue a)) next with
  | Throw (f, t) => Throw (InvalidChannelTransitionError f t)
  | Ok _ => Ok (with_snapshot (set_state next) a)
  end.

Definition tryTransitionTo (a : ChannelAggregate) (next : ChannelState)
    : result channel_error (ChannelAggregate * bool) :=
  if bool_decide (state (snapshotValue a) = next) then Ok (a, false)
  else if negb (isValidChannelTransition (state (snapshotValue a)) next) then Ok (a, false)
  else let! a' := transitionTo a next in Ok (a', true).

Definition tryCallStateTo (a : ChannelAggregate) (next : CallState) : ChannelAggregate * bool :=
  if bool_decide (callState (snapshotValue a) = next) then (a, false)
  else if negb (isValidCallStateTransition (callState (snapshotValue a)) next) then (a, false)
  else (with_snapshot (set_callState next) a, true).

Definition forceCallState (a : ChannelAggregate) (next : CallState)
    : result channel_error ChannelAggregate :=
  match assertCallStateTransition (callState (snapshotValue a)) next with
  | Throw (f, t) => Throw (InvalidCallStateTransitionError f t)
  | Ok _ => Ok (with_snapshot (set_callState next) a)
  end.

Definition addFlag (a : ChannelAggregate) (f : ChannelFlag) : ChannelAggregate :=
  if includes (flags (snapshotValue a)) f then a
  else with_snapshot (λ s, set_flags (flags s ++ [f]) s) a.

Definition removeFlag (a : ChannelAggregate) (f : ChannelFlag) : ChannelAggregate :=
  if negb (includes (flags (snapshotValue a)) f) then a
  else with_snapshot (λ s, set_flags (filter (λ g, g ≠ f) (flags s)) s) a.

Definition markAnswered (a : ChannelAggregate) (at_ : Z) : ChannelAggregate * bool :=
  match answeredAt (snapshotValue a) with
  | Some _ => (a, false)
  | None => (addFlag (with_snapshot (set_answeredAt at_) a) flag_answered, true)
  end.

Definition markEarlyMedia (a : ChannelAggregate) : ChannelAggregate := addFlag a flag_early_media.

(** [String(b)] *)
Definition bool_string (b : bool) : string := if b then "true" else "false".

Definition markHangup (a : ChannelAggregate) (cause : HangupCause) (at_ : Z)
    (initiatedByEngine : bool) : ChannelAggregate * bool :=
  match hangupCause (snapshotValue a) with
  | Some _ => (a, false)
  | None =>
      ({| ariChannelId := ariChannelId a;
          snapshotValue := set_hangup cause at_
            (<[HANGUP_INITIATED_BY_ENGINE_VARIABLE := bool_string initiatedByEngine]>
               (variables (snapshotValue a))) (snapshotValue a);
          hangupInitiatedByEngine := initiatedByEngine;
          detachedFromWalk := detachedFromWalk a |}, true)
  end.

(** The getter [hangupCauseCode]. *)
Definition aggregate_hangupCauseCode (a : ChannelAggregate) : Z :=
  match hangupCause (snapshotValue a) with
  | None => 0
  | Some cause => hangupCauseCode cause
  end.

Definition pushProfile (a : ChannelAggregate) (p : CallerProfile) : ChannelAggregate :=
  with_snapshot (set_profile p) a.

Definition setVariable (a : ChannelAggregate) (name value : string) : ChannelAggregate :=
  with_snapshot (λ s, set_variables (<[name := value]> (variables s)) s) a.

Definition clearVariable (a : ChannelAggregate) (name : string) : ChannelAggregate :=
  if negb (bool_decide (is_Some (variables (snapshotValue a) !! name))) then a
  else with_snapshot (λ s, set_variables (delete name (variables s)) s) a.

Definition setBridge (a : ChannelAggregate) (b : option string) : ChannelAggregate :=
  with_snapshot (set_bridgeId b) a.

Inductive channel_op :=
| OpDetach
| OpTransitionTo (next : ChannelState)
| OpTryTransitionTo (next : ChannelState)
| OpTryCallStateTo (next : CallState)
| OpForceCallState (next : CallState)
| OpAddFlag (f : ChannelFlag)
| OpRemoveFlag (f : ChannelFlag)
| OpMarkAnswered (at_ : Z)
| OpMarkEarlyMedia
| OpMarkHangup (cause : HangupCause) (at_ : Z) (initiatedByEngine : bool)
| OpPushProfile (p : CallerProfile)
| OpSetVariable (name value : string)
| OpClearVariable (name : string)
| OpSetBridge (b : option string).

Definition channel_apply (a : ChannelAggregate) (op : channel_op)
    : result channel_error ChannelAggregate :=
  match op with
  | OpDetach => Ok (detach a)
  | OpTransitionTo next => transitionTo a next
  | OpTryTransitionTo next => let! r := tryTransitionTo a next in Ok r.1
  | OpTryCallStateTo next => Ok (tryCallStateTo a next).1
  | OpForceCallState next => forceCallState a next
  | OpAddFlag f => Ok (addFlag a f)
  | OpRemoveFlag f => Ok (removeFlag a f)
  | OpMarkAnswered t => Ok (markAnswered a t).1
  | OpMarkEarlyMedia => Ok (markEarlyMedia a)
  | OpMarkHangup c t e => Ok (markHangup a c t e).1
  | OpPushProfile p => Ok (pushProfile a p)
  | OpSetVariable n v => Ok (setVariable a n v)
  | OpClearVariable n => Ok (clearVariable a n)
  | OpSetBridge b => Ok (setBridge a b)
  end.

(** One call on the shared object: a throw is the caller's to catch, and finds
    the object as it was, because every guard precedes its write. *)
Definition channel_next (a : ChannelAggregate) (op : channel_op) : ChannelAggregate :=
  match channel_apply a op with Ok a' => a' | Throw _ => a end.

Definition channel_run (a : ChannelAggregate) (ops : list channel_op) : ChannelAggregate :=
  foldl channel_next a ops.

(** ** The registry

    JavaScript [Map]s of object references. A leg is referenced by [leg_ref] (its
    identity, what [===] compares) and carries the two read-only ids the registry
    keys on. *)
Record Leg := { leg_ref : nat; leg_ari : string; leg_channelId : string }.

#[global] Instance Leg_eq_dec : EqDecision Leg.
Proof. solve_decision. Defined.

(** [channel-identity.ts]: an index key, or nothing worth indexing. *)
Definition normalizeSipCallId (value : string) : option string :=
  let trimmed := trim value in
  if bool_decide (trimmed = "") || (256 <? String.length trimmed) then None else Some trimmed.

Record ChannelRegistry := {
  byAriId : gmap string Leg;
  byChannelId : gmap string Leg;
  bySipDialog : gmap string Leg;
  sipDialogByAriId : gmap string string;
  acceptingNewCalls : bool }.

Definition registry_init : ChannelRegistry :=
  {| byAriId := ∅; byChannelId := ∅; bySipDialog := ∅; sipDialogByAriId := ∅;
     acceptingNewCalls := true |}.

Definition set_accepting (b : bool) (r : ChannelRegistry) : ChannelRegistry :=
  {| byAriId := byAriId r; byChannelId := byChannelId r; bySipDialog := bySipDialog r;
     sipDialogByAriId := sipDialogByAriId r; acceptingNewCalls := b |}.

Definition closeForNewCalls (r : ChannelRegistry) : ChannelRegistry := set_accepting false r.
Definition reopen (r : ChannelRegistry) : ChannelRegistry := set_accepting true r.

Definition add (r : ChannelRegistry) (a : Leg) : ChannelRegistry :=
  {| byAriId := <[leg_ari a := a]> (byAriId r);
     byChannelId := <[leg_channelId a := a]> (byChannelId r);
     bySipDialog := bySipDialog r; sipDialogByAriId := sipDialogByAriId r;
     acceptingNewCalls := acceptingNewCalls r |}.

Definition byAriChannelId (r : ChannelRegistry) (id : string) : option Leg := byAriId r !! id.
Definition byDomainChannelId (r : ChannelRegistry) (id : string) : option Leg :=
  byChannelId r !! id.

Definition same_leg (a b : Leg) : bool := leg_ref a =? leg_ref b.

Definition indexSipDialog (r : ChannelRegistry) (a : Leg) (sipCallId : string)
    : ChannelRegistry :=
  match normalizeSipCallId sipCallId with
  | None => r
  | Some key =>
      let back :=
        match bySipDialog r !! key with
        | Some previousHolder =>
            if negb (same_leg previousHolder a)
            then delete (leg_ari previousHolder) (sipDialogByAriId r) else sipDialogByAriId r
        | None => sipDialogByAriId r
        end in
      let dialogs :=
        match back !! leg_ari a with
        | Some previousKey =>
            if negb (bool_decide (previousKey = key))
            then delete previousKey (bySipDialog r) else bySipDialog r
        | None => bySipDialog r
        end in
      {| byAriId := byAriId r; byChannelId := byChannelId r;
         bySipDialog := <[key := a]> dialogs;
         sipDialogByAriId := <[leg_ari a := key]> back;
         acceptingNewCalls := acceptingNewCalls r |}
  end.

Definition bySipCallId (r : ChannelRegistry) (sipCallId : string) : option Leg :=
  match normalizeSipCallId sipCallId with
  | None => None
  | Some key => bySipDialog r !! key
  end.

Definition sipDialogCount (r : ChannelRegistry) : nat := size (bySipDialog r).

Definition remove (r : ChannelRegistry) (a : Leg) : ChannelRegistry :=
  let '(dialogs, back) :=
    match sipDialogByAriId r !! leg_ari a with
    | None => (bySipDialog r, sipDialogByAriId r)
    | Some sipCallId =>
        (match bySipDialog r !! sipCallId with
         | Some holder =>
             if same_leg holder a then delete sipCallId (bySipDialog r) else bySipDialog r
         | None => bySipDialog r
         end, delete (leg_ari a) (sipDialogByAriId r))
    end in
  {| byAriId := delete (leg_ari a) (byAriId r);
     byChannelId := delete (leg_channelId a) (byChannelId r);
     bySipDialog := dialogs; sipDialogByAriId := back;
     acceptingNewCalls := acceptingNewCalls r |}.

Definition clear (r : ChannelRegistry) : ChannelRegistry :=
  {| byAriId := ∅; byChannelId := ∅; bySipDialog := ∅; sipDialogByAriId := ∅;
     acceptingNewCalls := acceptingNewCalls r |}.

Inductive registry_op :=
| RegAdd (a : Leg) | RegIndex (a : Leg) (sipCallId : string) | RegRemove (a : Leg) | RegClear
| RegClose | RegReopen.

Definition registry_apply (r : ChannelRegistry) (op : registry_op) : ChannelRegistry :=
  match op with
  | RegAdd a => add r a
  | RegIndex a k => indexSipDialog r a k
  | RegRemove a => remove r a
  | RegClear => clear r
  | RegClose => closeForNewCalls r
  | RegReopen => reopen r
  end.

Definition registry_run (ops : list registry_op) : ChannelRegistry :=
  foldl registry_apply registry_init ops.

(** ** Facts about the aggregate *)

(** The asserting and the tolerant move write the same thing: the table has no
    self edge, so the tolerant one's equality test only spares a lookup. *)
Lemma next_transition a n op :
  op = OpTransitionTo n ∨ op = OpTryTransitionTo n →
  channel_next a op =
    if isValidChannelTransition (state (snapshotValue a)) n
    then with_snapshot (set_state n) a else a.
Proof.
  unfold channel_next. intros [-> | ->]; simpl;
    unfold tryTransitionTo, transitionTo, assertChannelTransition.
  - by destruct (isValidChannelTransition _ n).
  - case_bool_decide as Heq.
    + rewrite Heq. destruct (isValidChannelTransition n n) eqn:E; [|done].
      apply includes_spec in E. by destruct (law_no_self n).
    + by destruct (isValidChannelTransition _ n).
Qed.

Lemma next_callState a n op :
  op = OpForceCallState n ∨ op = OpTryCallStateTo n →
  channel_next a op =
    if isValidCallStateTransition (callState (snapshotValue a)) n
    then with_snapshot (set_callState n) a else a.
Proof.
  unfold channel_next. intros [-> | ->]; simpl;
    unfold tryCallStateTo, forceCallState, assertCallStateTransition.
  - by destruct (isValidCallStateTransition _ n).
  - case_bool_decide as Heq.
    + rewrite Heq. destruct (isValidCallStateTransition n n) eqn:E; [|done].
      apply includes_spec in E. by destruct (law_no_self n).
    + by destruct (isValidCallStateTransition _ n).
Qed.

(** Case analysis on a call, with the four moves in their normal form. *)
Ltac channel_op_cases op :=
  destruct op;
  try (erewrite next_transition by eauto); try (erewrite next_callState by eauto);
  unfold channel_next; cbn [channel_apply];
  unfold removeFlag, markEarlyMedia, clearVariable, detach, pushProfile, setVariable, setBridge.

Lemma addFlag_fields a f :
  ariChannelId (addFlag a f) = ariChannelId a ∧
  hangupInitiatedByEngine (addFlag a f) = hangupInitiatedByEngine a ∧
  snapshotValue (addFlag a f) = set_flags (flags (snapshotValue (addFlag a f))) (snapshotValue a).
Proof. unfold addFlag. case_match; [|done]. by destruct a as [? []]. Qed.

(** What a call may change, and what it never does. *)
Definition record_kept (a a' : ChannelAggregate) : Prop :=
  let s := snapshotValue a in let s' := snapshotValue a' in
  (ariChannelId a' = ariChannelId a ∧ channelId s' = channelId s ∧ callId s' = callId s ∧
   organizationId s' = organizationId s ∧ direction s' = direction s ∧
   createdAt s' = createdAt s) ∧
  (is_Some (answeredAt s) → answeredAt s' = answeredAt s) ∧
  (is_Some (hangupCause s) →
   hangupCause s' = hangupCause s ∧ hangupAt s' = hangupAt s ∧
   hangupInitiatedByEngine a' = hangupInitiatedByEngine a).

#[global] Instance record_kept_preorder : PreOrder record_kept.
Proof.
  split; [by intros a; repeat split|]. unfold record_kept. intros a b c H1 H2.
  destruct H1 as ((?&?&?&?&?&?) & Ha1 & Hh1), H2 as ((?&?&?&?&?&?) & Ha2 & Hh2).
  split_and!; try congruence.
  - intros Hs. rewrite <- (Ha1 Hs) in Hs |- *. auto.
  - intros Hs. destruct (Hh1 Hs) as (E1 & E2 & E3). rewrite <- E1 in Hs.
    destruct (Hh2 Hs) as (? & ? & ?). split_and!; congruence.
Qed.

Lemma channel_next_kept a op : record_kept a (channel_next a op).
Proof.
  channel_op_cases op; try (repeat case_match; split_and!; done).
  - destruct (addFlag_fields a f) as (E1 & E2 & E3).
    unfold record_kept. rewrite E1, E2, E3. by split_and!.
  - unfold markAnswered. destruct (answeredAt _) eqn:Ha; [reflexivity|]. simpl.
    destruct (addFlag_fields (with_snapshot (set_answeredAt at_) a) flag_answered)
      as (E1 & E2 & E3). unfold record_kept. rewrite E1, E2, E3. simpl.
    rewrite Ha. by split_and!.
  - destruct (addFlag_fields a flag_early_media) as (E1 & E2 & E3).
    unfold record_kept. rewrite E1, E2, E3. by split_and!.
  - unfold markHangup. destruct (hangupCause _) eqn:Hh; [reflexivity|].
    unfold record_kept; simpl. rewrite Hh. split_and!; try done; by intros [].
Qed.

Lemma channel_run_kept a ops : record_kept a (channel_run a ops).
Proof.
  revert a. induction ops as [|op ops IH]; intros a; [reflexivity|].
  etransitivity; [apply channel_next_kept|apply IH].
Qed.

(** The invariant of every leg the engine holds. *)
Record leg_inv (a : ChannelAggregate) : Prop := {
  leg_flags : NoDup (flags (snapshotValue a));
  leg_state : rtc step INITIAL_CHANNEL_STATE (state (snapshotValue a));
  leg_callState : rtc step INITIAL_CALL_STATE (callState (snapshotValue a));
  leg_hangup : is_Some (hangupCause (snapshotValue a)) ↔ is_Some (hangupAt (snapshotValue a)) }.

Lemma leg_inv_create input : leg_inv (create input).
Proof.
  split; simpl; [|constructor|constructor|by split; intros []].
  destruct (in_direction input); [|apply NoDup_singleton|]; constructor.
Qed.

Lemma addFlag_inv a f : leg_inv a → leg_inv (addFlag a f).
Proof.
  intros [Hf Hs Hc Hh]. unfold addFlag. destruct (includes _ _) eqn:E; [done|]. bool_simpl.
  split; simpl; auto. apply NoDup_app. split_and!; [done| |apply NoDup_singleton].
  intros x Hx ->%list_elem_of_singleton. done.
Qed.

Lemma leg_inv_next a op : leg_inv a → leg_inv (channel_next a op).
Proof.
  intros Hi. pose proof Hi as [Hf Hs Hc Hh].
  channel_op_cases op; auto using addFlag_inv.
  - by split.
  - case_match eqn:E; [|done]. split; simpl; auto. eapply rtc_r; [exact Hs|].
    by apply includes_spec.
  - case_match eqn:E; [|done]. split; simpl; auto. eapply rtc_r; [exact Hs|].
    by apply includes_spec.
  - case_match eqn:E; [|done]. split; simpl; auto. eapply rtc_r; [exact Hc|].
    by apply includes_spec.
  - case_match eqn:E; [|done]. split; simpl; auto. eapply rtc_r; [exact Hc|].
    by apply includes_spec.
  - case_match; [done|]. split; simpl; auto. by apply NoDup_filter.
  - unfold markAnswered. case_match; [done|]. apply addFlag_inv. by split.
  - unfold markHangup. case_match; [done|]. split; simpl; auto. split; eauto.
  - by split.
  - by split.
  - case_match; [done|]. by split.
  - by split.
Qed.

Lemma leg_inv_run a ops : leg_inv a → leg_inv (channel_run a ops).
Proof.
  revert a. induction ops as [|op ops IH]; intros a Hi; [done|]. by apply IH, leg_inv_next.
Qed.

(** ** Recovery: the snapshot alone rebuilds the leg *)
Definition reserved_variable (name : string) : Prop :=
  name = MEDIA_CHANNEL_ID_VARIABLE ∨ name = HANGUP_INITIATED_BY_ENGINE_VARIABLE.

(** The call leaves the two reserved variables to the aggregate. *)
Definition respects_reserved (op : channel_op) : Prop :=
  match op with
  | OpSetVariable name _ | OpClearVariable name => ¬ reserved_variable name
  | _ => True
  end.

Definition recoverable (a : ChannelAggregate) : Prop :=
  variables (snapshotValue a) !! MEDIA_CHANNEL_ID_VARIABLE = Some (ariChannelId a) ∧
  hangupInitiatedByEngine a =
    bool_decide (variables (snapshotValue a) !! HANGUP_INITIATED_BY_ENGINE_VARIABLE = Some "true").

Lemma addFlag_recoverable a f : recoverable a → recoverable (addFlag a f).
Proof.
  unfold recoverable. destruct (addFlag_fields a f) as (E1 & E2 & E3).
  by rewrite E1, E2, E3.
Qed.

Lemma recoverable_create input : recoverable (create input).
Proof. split; [|done]. simpl. by rewrite lookup_insert_eq. Qed.

Lemma recoverable_next a op :
  respects_reserved op → recoverable a → recoverable (channel_next a op).
Proof.
  unfold reserved_variable. intros Hr Hi. pose proof Hi as [Hm He].
  channel_op_cases op; auto using addFlag_recoverable; repeat (case_match; auto).
  - unfold markAnswered. case_match; [done|]. by apply addFlag_recoverable.
  - unfold markHangup. case_match; [done|]. split; simpl.
    + by rewrite lookup_insert_ne.
    + rewrite lookup_insert_eq. by destruct initiatedByEngine.
  - split; simpl; rewrite lookup_insert_ne by (intros ->; apply Hr; unfold reserved_variable; auto);
      done.
  - split; simpl; rewrite lookup_delete_ne by (intros ->; apply Hr; unfold reserved_variable; auto);
      done.
Qed.

Lemma recoverable_run a ops :
  Forall respects_reserved ops → recoverable a → recoverable (channel_run a ops).
Proof.
  intros Hops. revert a. induction Hops as [|op ops Hop _ IH]; intros a Hi; [done|].
  by apply IH, recoverable_next.
Qed.

(** ** The registry refines a set of live legs with one dialog each *)
Record AbsRegistry := { live : Leg → bool; dialog : Leg → option string }.

Definition abs_init : AbsRegistry := {| live := λ _, false; dialog := λ _, None |}.

Definition abs_apply (s : AbsRegistry) (op : registry_op) : AbsRegistry :=
  match op with
  | RegAdd a => {| live := λ b, bool_decide (b = a) || live s b; dialog := dialog s |}
  | RegRemove a =>
      {| live := λ b, negb (bool_decide (b = a)) && live s b;
         dialog := λ b, if bool_decide (b = a) then None else dialog s b |}
  | RegIndex a sipCallId =>
      match normalizeSipCallId sipCallId with
      | None => s
      | Some key =>
          {| live := live s;
             dialog := λ b, if bool_decide (b = a) then Some key
                            else if bool_decide (dialog s b = Some key) then None
                            else dialog s b |}
      end
  | RegClear => abs_init
  | RegClose | RegReopen => s
  end.

Definition abs_run (ops : list registry_op) : AbsRegistry := foldl abs_apply abs_init ops.

Section RegistryFacts.
Context (U : list Leg).

(** The legs of a run are distinct objects with distinct ids. *)
Definition distinct_legs : Prop :=
  ∀ a b, a ∈ U → b ∈ U →
    leg_ref a = leg_ref b ∨ leg_ari a = leg_ari b ∨ leg_channelId a = leg_channelId b → a = b.

Definition op_within (op : registry_op) : Prop :=
  match op with
  | RegAdd a | RegRemove a | RegIndex a _ => a ∈ U
  | _ => True
  end.

Record registry_rel (r : ChannelRegistry) (s : AbsRegistry) : Prop := {
  rel_ari : ∀ x b, byAriId r !! x = Some b ↔ b ∈ U ∧ live s b = true ∧ leg_ari b = x;
  rel_chan : ∀ x b, byChannelId r !! x = Some b ↔ b ∈ U ∧ live s b = true ∧ leg_channelId b = x;
  rel_sip : ∀ k b, bySipDialog r !! k = Some b ↔ b ∈ U ∧ dialog s b = Some k;
  rel_back : ∀ x k, sipDialogByAriId r !! x = Some k ↔
    ∃ b, b ∈ U ∧ leg_ari b = x ∧ dialog s b = Some k }.

Lemma registry_rel_init : registry_rel registry_init abs_init.
Proof. split; simpl; intros; rewrite lookup_empty; naive_solver. Qed.

Context (Hdistinct : distinct_legs).

Lemma same_leg_spec a b : a ∈ U → b ∈ U → same_leg a b = bool_decide (a = b).
Proof.
  intros Ha Hb. unfold same_leg. destruct (Nat.eqb_spec (leg_ref a) (leg_ref b)) as [E|E].
  - rewrite bool_decide_eq_true_2; [done|]. auto.
  - rewrite bool_decide_eq_false_2; [done|]. congruence.
Qed.

(** An index of the live legs by a key that identifies them. *)
Lemma insert_index (f : Leg → string) (m : gmap string Leg) (l : Leg → bool) a :
  (∀ a b, a ∈ U → b ∈ U → f a = f b → a = b) → a ∈ U →
  (∀ x b, m !! x = Some b ↔ b ∈ U ∧ l b = true ∧ f b = x) →
  ∀ x b, <[f a := a]> m !! x = Some b ↔ b ∈ U ∧ bool_decide (b = a) || l b = true ∧ f b = x.
Proof.
  intros Hf Ha R x b. rewrite lookup_insert_Some, R, orb_true_iff, bool_decide_eq_true. split.
  - intros [[<- <-]|(Hne & Hb & Hl & <-)]; auto.
  - intros (Hb & [->|Hl] & <-); [auto|].
    destruct (decide (f a = f b)) as [E|E]; [left|right; auto]. auto.
Qed.

Lemma delete_index (f : Leg → string) (m : gmap string Leg) (l : Leg → bool) a :
  (∀ a b, a ∈ U → b ∈ U → f a = f b → a = b) → a ∈ U →
  (∀ x b, m !! x = Some b ↔ b ∈ U ∧ l b = true ∧ f b = x) →
  ∀ x b, delete (f a) m !! x = Some b ↔
    b ∈ U ∧ negb (bool_decide (b = a)) && l b = true ∧ f b = x.
Proof.
  intros Hf Ha R x b.
  rewrite lookup_delete_Some, R, andb_true_iff, negb_true_iff, bool_decide_eq_false. split.
  - intros (Hne & Hb & Hl & <-). split_and!; auto. congruence.
  - intros (Hb & (Hne & Hl) & <-). split_and!; auto.
Qed.

Lemma ari_key a b : a ∈ U → b ∈ U → leg_ari a = leg_ari b → a = b.
Proof. auto. Qed.

Lemma channelId_key a b : a ∈ U → b ∈ U → leg_channelId a = leg_channelId b → a = b.
Proof. auto. Qed.

Lemma add_rel r s a : a ∈ U → registry_rel r s → registry_rel (add r a) (abs_apply s (RegAdd a)).
Proof.
  intros Ha [R1 R2 R3 R4]. split; simpl; [| |exact R3|exact R4];
    apply insert_index; auto using ari_key, channelId_key.
Qed.

(** The two dialog maps stay inverse to each other. *)
Lemma index_back r s a key :
  a ∈ U → registry_rel r s →
  ∀ x k, (match bySipDialog r !! key with
          | Some h => if negb (same_leg h a) then delete (leg_ari h) (sipDialogByAriId r)
                      else sipDialogByAriId r
          | None => sipDialogByAriId r
          end) !! x = Some k ↔
    ∃ b, b ∈ U ∧ leg_ari b = x ∧ dialog s b = Some k ∧ (k = key → b = a).
Proof.
  intros Ha [R1 R2 R3 R4] x k. destruct (bySipDialog r !! key) as [h|] eqn:Hh.
  - apply R3 in Hh as [Hh Hd]. rewrite same_leg_spec by done.
    assert (∀ b, b ∈ U → dialog s b = Some key → b = h) as Hinj.
    { intros b Hb Hdb. assert (bySipDialog r !! key = Some b) as E1 by (by apply R3).
      assert (bySipDialog r !! key = Some h) as E2 by (by apply R3). congruence. }
    case_bool_decide as E; simpl.
    + subst. rewrite R4. split; intros (b & Hb & Hx & Hk); exists b; [|naive_solver].
      split_and!; auto. intros ->. auto.
    + rewrite lookup_delete_Some, R4. split.
      * intros (Hne & b & Hb & Hx & Hk). exists b. split_and!; auto. intros ->.
        destruct Hne. rewrite <- Hx. f_equal. symmetry. auto.
      * intros (b & Hb & <- & Hk & Hka). split; [|eauto]. intros Heq.
        assert (h = b) as -> by auto. simplify_eq. auto.
  - rewrite R4. split; intros (b & Hb & Hx & Hk); exists b; [|naive_solver].
    split_and!; auto. intros ->.
    assert (bySipDialog r !! key = Some b) by (by apply R3). congruence.
Qed.

Lemma index_rel r s a sipCallId :
  a ∈ U → registry_rel r s →
  registry_rel (indexSipDialog r a sipCallId) (abs_apply s (RegIndex a sipCallId)).
Proof.
  intros Ha Hr. unfold indexSipDialog, abs_apply.
  destruct (normalizeSipCallId sipCallId) as [key|]; [|done].
  pose proof (index_back r s a key Ha Hr) as Hback.
  set (back := match bySipDialog r !! key with Some h => _ | None => _ end) in *. clearbody back.
  destruct Hr as [R1 R2 R3 R4].
  assert (∀ k, back !! leg_ari a = Some k ↔ dialog s a = Some k) as Hold.
  { intros k. rewrite Hback. split.
    - intros (b & Hb & Hx & Hk & _). by rewrite <- (ari_key _ _ Hb Ha Hx).
    - intros Hk. exists a. by split_and!. }
  split; simpl; [exact R1|exact R2| |].
  - intros k b.
    assert ((match back !! leg_ari a with
             | Some pk => if negb (bool_decide (pk = key)) then delete pk (bySipDialog r)
                          else bySipDialog r
             | None => bySipDialog r end) !! k = Some b ∧ k ≠ key ↔
            b ∈ U ∧ dialog s b = Some k ∧ k ≠ key ∧ b ≠ a) as Hd.
    { destruct (back !! leg_ari a) as [pk|] eqn:Hpk.
      - assert (dialog s a = Some pk) as Hak by (by apply Hold). case_bool_decide; simpl; [subst|rewrite lookup_delete_Some];
          rewrite R3.
        + split; [|naive_solver]. intros [[Hb Hk] Hne]. split_and!; auto. intros ->. congruence.
        + split.
          * intros [(Hne' & Hb & Hk) Hne]. split_and!; auto. intros ->. congruence.
          * intros (Hb & Hk & Hne & Hba). split_and!; auto. intros ->. destruct Hba.
            assert (bySipDialog r !! k = Some b) as E1 by (by apply R3).
            assert (bySipDialog r !! k = Some a) as E2 by (by apply R3). congruence.
      - rewrite R3. split; [|naive_solver]. intros [[Hb Hk] Hne]. split_and!; auto.
        intros ->. apply Hold in Hk. congruence. }
    rewrite lookup_insert_Some. split.
    + intros [[<- <-]|[Hne Hl]]; [by rewrite bool_decide_eq_true_2|].
      destruct (proj1 Hd (conj Hl (not_eq_sym Hne))) as (Hb & Hk & _ & Hba).
      split; [done|]. rewrite bool_decide_eq_false_2 by done.
      rewrite bool_decide_eq_false_2; [done|]. congruence.
    + intros [Hb Hk]. case_bool_decide as E; [left; split; congruence|].
      case_bool_decide as E'; [done|]. right.
      assert (k ≠ key) by congruence. split; [done|]. apply Hd. by split_and!.
  - intros x k. rewrite lookup_insert_Some, Hback. split.
    + intros [[<- <-]|(Hne & b & Hb & <- & Hk & Hka)].
      * exists a. by rewrite bool_decide_eq_true_2.
      * exists b. split_and!; auto.
        rewrite bool_decide_eq_false_2 by congruence.
        rewrite bool_decide_eq_false_2; [done|]. intros E. assert (b = a) by (apply Hka; congruence).
        congruence.
    + intros (b & Hb & <- & Hk). case_bool_decide as E; [left; split; congruence|].
      case_bool_decide as E'; [done|]. right. split.
      * intros Ex. apply E. symmetry. auto using ari_key.
      * exists b. split_and!; auto. intros ->. congruence.
Qed.

Lemma remove_rel r s a :
  a ∈ U → registry_rel r s → registry_rel (remove r a) (abs_apply s (RegRemove a)).
Proof.
  intros Ha [R1 R2 R3 R4]. unfold remove, abs_apply.
  assert (∀ b k, b ∈ U → dialog s a = Some k → dialog s b = Some k → b = a) as Hinj.
  { intros b k Hb Hak Hbk. assert (bySipDialog r !! k = Some b) as E1 by (by apply R3).
    assert (bySipDialog r !! k = Some a) as E2 by (by apply R3). congruence. }
  destruct (sipDialogByAriId r !! leg_ari a) as [k|] eqn:Hk.
  - apply R4 in Hk as (b & Hb & Hx & Hk). apply ari_key in Hx as ->; [|done|done].
    assert (bySipDialog r !! k = Some a) as -> by (by apply R3).
    rewrite same_leg_spec, bool_decide_eq_true_2 by done.
    split; simpl; [apply delete_index; auto using ari_key, channelId_key..| |].
    + intros k' b'. rewrite lookup_delete_Some, R3. case_bool_decide; naive_solver.
    + intros x k'. rewrite lookup_delete_Some, R4. split.
      * intros (Hne & b' & Hb' & <- & Hk'). exists b'. rewrite bool_decide_eq_false_2; [done|].
        congruence.
      * intros (b' & Hb' & <- & Hk'). case_bool_decide; [done|]. split; [|eauto].
        intros E. auto using ari_key.
  - assert (dialog s a = None) as Hn.
    { destruct (dialog s a) as [k|] eqn:E; [|done].
      assert (sipDialogByAriId r !! leg_ari a = Some k) by (apply R4; eauto). congruence. }
    split; simpl; [apply delete_index; auto using ari_key, channelId_key..| |].
    + intros k' b'. rewrite R3. case_bool_decide; subst; split; try naive_solver; congruence.
    + intros x k'. rewrite R4. split; intros (b' & Hb' & <- & Hk'); exists b';
        case_bool_decide; subst; split_and!; auto; congruence.
Qed.

Lemma registry_apply_rel r s op :
  op_within op → registry_rel r s → registry_rel (registry_apply r op) (abs_apply s op).
Proof.
  intros Hop Hr. destruct op; simpl in *.
  - by apply add_rel.
  - by apply index_rel.
  - by apply remove_rel.
  - split; simpl; intros; rewrite lookup_empty; naive_solver.
  - destruct Hr; by split.
  - destruct Hr; by split.
Qed.

Lemma registry_run_rel ops :
  Forall op_within ops → registry_rel (registry_run ops) (abs_run ops).
Proof.
  unfold registry_run, abs_run. generalize registry_rel_init.
  generalize registry_init, abs_init. induction ops as [|op ops IH]; intros r s Hr Hops; [done|].
  apply Forall_cons in Hops as [Hop Hops]. simpl. apply IH; [|done]. by apply registry_apply_rel.
Qed.
End RegistryFacts.

(** ** Theorems *)

(** What a leg has recorded is never rewritten: over any sequence of
    operations, failed ones included, an answer instant and a hangup cause (with
    its instant and who caused it) stay exactly as first recorded, and the ids,
    direction and creation instant never change. *)
Theorem leg_record_immutable (a : ChannelAggregate) (ops : list channel_op) (t : Z)
    (c : HangupCause) :
  answeredAt (snapshotValue a) = Some t → hangupCause (snapshotValue a) = Some c →
  let a' := channel_run a ops in
  answeredAt (snapshotValue a') = Some t ∧ hangupCause (snapshotValue a') = Some c ∧
  hangupAt (snapshotValue a') = hangupAt (snapshotValue a) ∧
  hangupInitiatedByEngine a' = hangupInitiatedByEngine a ∧
  ariChannelId a' = ariChannelId a ∧
  channelId (snapshotValue a') = channelId (snapshotValue a) ∧
  callId (snapshotValue a') = callId (snapshotValue a) ∧
  organizationId (snapshotValue a') = organizationId (snapshotValue a) ∧
  createdAt (snapshotValue a') = createdAt (snapshotValue a).
Proof.
  intros Ha Hc a'. destruct (channel_run_kept a ops) as ((?&?&?&?&?&?) & Hka & Hkc).
  destruct (Hkc (mk_is_Some _ _ Hc)) as (? & ? & ?). rewrite Ha in Hka. rewrite Hc in *.
  split_and!; auto.
Qed.

(** A leg is never in an impossible state: from creation, whatever
    operations run and whichever throw, its engine state and its call state are
    reachable in their machines, its flags are a set, and it has a hangup instant
    exactly when it has a hangup cause. *)
Theorem leg_always_valid (input : CreateInput) (ops : list channel_op) :
  let s := snapshotValue (channel_run (create input) ops) in
  rtc step INITIAL_CHANNEL_STATE (state s) ∧ rtc step INITIAL_CALL_STATE (callState s) ∧
  NoDup (flags s) ∧ (is_Some (hangupCause s) ↔ is_Some (hangupAt s)).
Proof. intros s. by destruct (leg_inv_run _ ops (leg_inv_create input)). Qed.

(** A leg survives its engine: as long as nobody overwrites the two
    reserved variables, the snapshot a leg has mirrored rebuilds, in another
    process, the same media id, the same snapshot and the same attribution of the
    hangup; only the routing walk's detachment is not carried. *)
Theorem leg_recovery (input : CreateInput) (ops : list channel_op) :
  trim (in_ariChannelId input) ≠ "" → Forall respects_reserved ops →
  let a := channel_run (create input) ops in
  hydrate (snapshotValue a) =
    Ok {| ariChannelId := ariChannelId a; snapshotValue := snapshotValue a;
          hangupInitiatedByEngine := hangupInitiatedByEngine a; detachedFromWalk := false |}.
Proof.
  intros Ht Hops a. destruct (recoverable_run _ ops Hops (recoverable_create input)) as [Hm He].
  destruct (channel_run_kept (create input) ops) as ((Hari & _) & _).
  unfold hydrate. fold a in Hm, He, Hari. rewrite Hm, Hari.
  rewrite bool_decide_eq_false_2 by done. unfold new_aggregate. by rewrite He.
Qed.

(** A dialog is only indexed for a leg that is registered at that moment. *)
Definition indexed_live (ops : list registry_op) : Prop :=
  ∀ before a sipCallId after, ops = before ++ RegIndex a sipCallId :: after → live (abs_run before) a = true.

Lemma indexed_live_dialog ops b key :
  indexed_live ops → dialog (abs_run ops) b = Some key → live (abs_run ops) b = true.
Proof.
  revert key. induction ops as [|op ops IH] using rev_ind; [done|]. intros key Hi.
  assert (Hrest : indexed_live ops).
  { intros before a k rest ->. apply (Hi before a k (rest ++ [op])). by rewrite <- app_assoc. }
  unfold abs_run. rewrite foldl_app. fold (abs_run ops). simpl.
  destruct op as [a|a k|a| | |]; simpl; eauto.
  - intros H. rewrite (IH key) by done. apply orb_true_r.
  - specialize (Hi ops a k [] eq_refl). destruct (normalizeSipCallId k); simpl; eauto.
    case_bool_decide as E1; [by subst|]. case_bool_decide as E2; [done|]. eauto.
  - case_bool_decide as E; [done|]. eauto.
  - done.
Qed.

(** C21. The registry's four maps implement a set of live legs with at most one
    SIP dialog each: after any sequence of operations on distinct legs, a leg is
    found by its media id and by its domain id exactly while it is registered, and
    by a Call-ID exactly while it is the leg that last claimed that dialog and was not
    removed since it did. A leg found by a Call-ID is registered as long as dialogs
    are only indexed for registered legs; one indexed for a leg that was removed
    before is found although the leg is gone ([indexed_late]). *)
Theorem registry_refines (U : list Leg) (ops : list registry_op) (b : Leg) :
  distinct_legs U → Forall (op_within U) ops → b ∈ U →
  let r := registry_run ops in let s := abs_run ops in
  (byAriChannelId r (leg_ari b) = Some b ↔ live s b = true) ∧
  (byDomainChannelId r (leg_channelId b) = Some b ↔ live s b = true) ∧
  (∀ sipCallId, bySipCallId r sipCallId = Some b ↔
     ∃ key, normalizeSipCallId sipCallId = Some key ∧ dialog s b = Some key) ∧
  (∀ sipCallId, indexed_live ops → bySipCallId r sipCallId = Some b → live s b = true).
Proof.
  intros Hd Hops Hb r s. destruct (registry_run_rel U Hd ops Hops) as [R1 R2 R3 _].
  fold r s in R1, R2, R3.
  assert (Hsip : ∀ sipCallId, bySipCallId r sipCallId = Some b ↔
     ∃ key, normalizeSipCallId sipCallId = Some key ∧ dialog s b = Some key).
  { intros sipCallId. unfold bySipCallId. destruct (normalizeSipCallId sipCallId) as [key|].
    - rewrite R3. naive_solver.
    - naive_solver. }
  split_and!; [..|exact Hsip|].
  - unfold byAriChannelId. rewrite R1. naive_solver.
  - unfold byDomainChannelId. rewrite R2. naive_solver.
  - intros sipCallId Hi (key & _ & Hk)%Hsip. by eapply indexed_live_dialog.
Qed.

(** ** Witnesses *)
Definition demo_input : CreateInput :=
  {| in_ariChannelId := "1754400000.42"; in_channelId := "leg"; in_callId := "call";
     in_organizationId := "org"; in_direction := call_outbound;
     in_profile := {| callerIdName := None; callerIdNumber := Some "1001"; ani := None;
                      rdnis := None; destinationNumber := "1002"; context := "internal";
                      networkAddr := None; profile_source := None; channelName := None |};
     in_variables := ∅; in_createdAt := 0 |}.

Definition demo_ops : list channel_op :=
  [OpTransitionTo initializing; OpTryCallStateTo dialing; OpMarkAnswered 10; OpTransitionTo destroyed;
   OpMarkHangup NORMAL_CLEARING 20 true].

Lemma leg_record_immutable_witness :
  hangupCause (snapshotValue (channel_run (channel_run (create demo_input) demo_ops)
    [OpMarkHangup USER_BUSY 30 false; OpMarkAnswered 40])) = Some NORMAL_CLEARING.
Proof.
  refine (proj1 (proj2 (leg_record_immutable (channel_run (create demo_input) demo_ops)
    [OpMarkHangup USER_BUSY 30 false; OpMarkAnswered 40] 10 NORMAL_CLEARING _ _)));
    vm_compute; reflexivity.
Defined.

Lemma leg_recovery_witness :
  is_ok (hydrate (snapshotValue (channel_run (create demo_input) demo_ops))) = true.
Proof.
  rewrite (leg_recovery demo_input demo_ops); [reflexivity|by vm_compute|].
  repeat constructor.
Defined.

Definition demo_leg1 : Leg := {| leg_ref := 1; leg_ari := "a.1"; leg_channelId := "c1" |}.
Definition demo_leg2 : Leg := {| leg_ref := 2; leg_ari := "a.2"; leg_channelId := "c2" |}.

(** A masquerade moves the dialog from the first leg to the second. *)
Definition demo_masquerade : list registry_op :=
  [RegAdd demo_leg1; RegIndex demo_leg1 "x@host"; RegAdd demo_leg2;
   RegIndex demo_leg2 " x@host "; RegRemove demo_leg1].

Lemma registry_refines_witness :
  bySipCallId (registry_run demo_masquerade) "x@host" = Some demo_leg2 ∧ live (abs_run demo_masquerade) demo_leg2 = true.
Proof.
  assert (distinct_legs [demo_leg1; demo_leg2]) as Hd.
  { intros a b. rewrite !elem_of_cons, !elem_of_nil.
    intros [->|[->|[]]] [->|[->|[]]]; simpl; naive_solver. }
  destruct (registry_refines [demo_leg1; demo_leg2] demo_masquerade demo_leg2 Hd) as (_ & _ & Hsip & Hlive).
  - unfold demo_masquerade. repeat constructor; simpl; rewrite ?elem_of_cons; auto.
  - rewrite !elem_of_cons. auto.
  - assert (Hf : bySipCallId (registry_run demo_masquerade) "x@host" = Some demo_leg2).
    { apply Hsip. exists "x@host". split; vm_compute; reflexivity. }
    split; [exact Hf|]. apply (Hlive "x@host"); [|exact Hf].
    intros before a k rest E. unfold demo_masquerade in E.
    do 6 (destruct before as [|? before]; [simplify_eq/=; vm_compute; reflexivity|]). simplify_eq/=.
Defined.

(** A dialog that is indexed once its leg is gone: the read of the Call-ID was waited
    for, and the leg ended meanwhile. *)
Example indexed_late :
  let r := registry_run [RegAdd demo_leg1; RegRemove demo_leg1; RegIndex demo_leg1 "x@host"] in
  byAriChannelId r "a.1" = None ∧ byDomainChannelId r "c1" = None ∧ bySipCallId r "x@host" = Some demo_leg1.
Proof. vm_compute. split_and!; reflexivity. Qed.
End Channel.
