(* ===== verification/Cdr.v ===== *)
(** * The media seam and the call detail record

    [apps/engine/src/calls/ari-mapping.ts] (the media server's vocabulary
    translated to the domain's), [apps/engine/src/media/media-event.ts] (the
    engine's own events) and [apps/engine/src/calls/cdr-leg.ts] (the billing
    record of a finished leg). Fresh ids and ISO timestamps come from outside and
    are parameters. *)

From Stdlib Require Import QArith Qround.
From S2P Require Import Prelude Machines CallState HangupCauses Channel.

Module Cdr.
Import CallState Channel.

Inductive LegSide : Set := side_a | side_b.
Inductive HangupSide : Set := by_caller | by_callee | by_system.

#[global] Instance CallDirection_eq_dec : EqDecision CallDirection.
Proof. solve_decision. Defined.

Definition CALL_DIRECTIONS : list CallDirection := [call_inbound; call_outbound; call_internal].

Definition call_direction_name (d : CallDirection) : string :=
  match d with
  | call_inbound => "inbound"
  | call_outbound => "outbound"
  | call_internal => "internal"
  end.

Definition callDirectionFrom (value : option string) : CallDirection :=
  match value with
  | None => call_inbound
  | Some v =>
      default call_inbound
        (find_first (λ d, bool_decide (call_direction_name d = toLowerCase (trim v)))
           CALL_DIRECTIONS)
  end.

Definition callStateFromAriChannelState (ariState : string) : option CallState :=
  if includes ["Down"; "Rsrvd"; "Pre-ring"] ariState then Some down
  else if includes ["Dialing"; "Dialing Offhook"] ariState then Some dialing
  else if includes ["Ring"; "Ringing"] ariState then Some ringing
  else if bool_decide (ariState = "Up") then Some active
  else None.

Definition hangupCauseFromAri (ariCause : Z) : HangupCause :=
  default NORMAL_UNSPECIFIED (hangupCauseFromCode ariCause).

Definition ARI_CAUSE_SURROGATES (cause : HangupCause) : option Z :=
  match cause with
  | ORIGINATOR_CANCEL => Some 16
  | LOSE_RACE => Some 26
  | BLIND_TRANSFER => Some 16
  | ATTENDED_TRANSFER => Some 16
  | ALLOTTED_TIMEOUT => Some 102
  | MEDIA_TIMEOUT => Some 102
  | PROGRESS_TIMEOUT => Some 102
  | USER_CHALLENGE => Some 21
  | PICKED_OFF => Some 16
  | USER_NOT_REGISTERED => Some 20
  | INVALID_GATEWAY => Some 3
  | INVALID_URL => Some 3
  | INVALID_PROFILE => Some 3
  | GATEWAY_DOWN => Some 27
  | NO_PICKUP => Some 19
  | SRTP_READ_ERROR => Some 31
  | _ => None
  end%Z.

Definition MAX_Q850_CODE : Z := 127.

(** Throws when an extended cause has no surrogate. *)
Definition ariReasonCodeFor (cause : HangupCause) : result HangupCause Z :=
  let code := hangupCauseCode cause in
  if (code <=? MAX_Q850_CODE)%Z then Ok code
  else match ARI_CAUSE_SURROGATES cause with
       | None => Throw cause
       | Some surrogate => Ok surrogate
       end.

Definition hangupSideFor (leg : LegSide) (initiatedByEngine : bool) : HangupSide :=
  if initiatedByEngine then by_system
  else match leg with side_a => by_caller | side_b => by_callee end.

Definition UNKNOWN_DIAL_STRING : string := "unknown".

Definition dialStringOr (value : option string) : string :=
  match value with
  | None => UNKNOWN_DIAL_STRING
  | Some v => if bool_decide (trim v = "") then UNKNOWN_DIAL_STRING else trim v
  end.

(** ** Media events *)
Record MediaChannelSnapshot := {
  ms_id : string;
  ms_name : option string;
  ms_callerName : option string;
  ms_callerNumber : option string;
  ms_dialedNumber : option string;
  ms_context : option string;
  ms_variables : gmap string string }.

Inductive MediaEvent :=
| LegArrived (channel : MediaChannelSnapshot)
| LegLeft (id : string)
| CallStateChanged (id : string) (s : CallState)
| DtmfReceived (id digit : string) (durationMs : Z)
| HangupRequested (id : string) (cause : HangupCause)
| LegEnded (id : string) (cause : HangupCause) (causeCode : Z)
| VariableSet (id variable value : string)
| LegHeld (id : string) (musicClass : option string)
| LegUnheld (id : string)
| RecordingStarted (name : string)
| RecordingFinished (name : string) (durationMs : Z)
| RecordingFailed (name reason : string).

(** The fields of the media server's events that [toMediaEvent] reads; the other
    event names of the union all reach the [default] branch. *)
Record AriCaller := { caller_name : string; caller_number : string }.
Record AriDialplan := { exten : string; dialplan_context : string }.
Record AriChannel := {
  ari_id : string;
  ari_name : string;
  ari_state : string;
  ari_caller : option AriCaller;
  ari_dialplan : option AriDialplan;
  ari_channelvars : option (gmap string string) }.

Inductive AriEvent :=
| StasisStart (c : AriChannel)
| StasisEnd (c : AriChannel)
| ChannelStateChange (c : AriChannel)
| ChannelDtmfReceived (c : AriChannel) (digit : string) (durationMs : Z)
| ChannelHangupRequest (c : AriChannel) (cause : option Z)
| ChannelDestroyed (c : AriChannel) (cause : Z)
| ChannelVarset (c : option AriChannel) (variable value : string)
| ChannelHold (c : AriChannel) (musicClass : option string)
| ChannelUnhold (c : AriChannel)
| AriRecordingStarted (name : string)
| AriRecordingFinished (name : string) (duration : option Q)
| AriRecordingFailed (name : string) (cause : option string)
| AriOther (type : string).

Definition mediaChannelSnapshot (c : AriChannel) : MediaChannelSnapshot :=
  {| ms_id := ari_id c;
     ms_name := Some (ari_name c);
     ms_callerName := caller_name <$> ari_caller c;
     ms_callerNumber := caller_number <$> ari_caller c;
     ms_dialedNumber := exten <$> ari_dialplan c;
     ms_context := dialplan_context <$> ari_dialplan c;
     ms_variables := default ∅ (ari_channelvars c) |}.

Definition DEFAULT_HANGUP_REQUEST_CAUSE : Z := 16.
Definition UNKNOWN_RECORDING_FAILURE_REASON : string := "unknown".

(** [Math.round]: half way goes up. *)
Definition math_round (q : Q) : Z := Qfloor (q + (1 # 2))%Q.

Definition toMediaEvent (event : AriEvent) : option MediaEvent :=
  match event with
  | StasisStart c => Some (LegArrived (mediaChannelSnapshot c))
  | StasisEnd c => Some (LegLeft (ari_id c))
  | ChannelStateChange c =>
      match callStateFromAriChannelState (ari_state c) with
      | None => None
      | Some s => Some (CallStateChanged (ari_id c) s)
      end
  | ChannelDtmfReceived c d ms => Some (DtmfReceived (ari_id c) d ms)
  | ChannelHangupRequest c cause =>
      Some (HangupRequested (ari_id c)
              (hangupCauseFromAri (default DEFAULT_HANGUP_REQUEST_CAUSE cause)))
  | ChannelDestroyed c cause => Some (LegEnded (ari_id c) (hangupCauseFromAri cause) cause)
  | ChannelVarset None _ _ => None
  | ChannelVarset (Some c) variable value => Some (VariableSet (ari_id c) variable value)
  | ChannelHold c m => Some (LegHeld (ari_id c) m)
  | ChannelUnhold c => Some (LegUnheld (ari_id c))
  | AriRecordingStarted name => Some (RecordingStarted name)
  | AriRecordingFinished name duration =>
      Some (RecordingFinished name (math_round (default 0%Q duration * 1000)%Q))
  | AriRecordingFailed name cause =>
      Some (RecordingFailed name (default UNKNOWN_RECORDING_FAILURE_REASON cause))
  | AriOther _ => None
  end.

(** ** The call detail record *)
Inductive CallDisposition : Set :=
| disp_answered | disp_no_answer | disp_busy | disp_failed | disp_voicemail.

Definition DEFAULT_DESTINATION_TYPE : string := "unknown".

Definition dispositionFor (answered : option Z) (cause : option HangupCause) : CallDisposition :=
  match answered with
  | Some _ => disp_answered
  | None =>
      match cause with
      | None => disp_failed
      | Some cause =>
          if bool_decide (cause = USER_BUSY) then disp_busy
          else if includes [NO_ANSWER; NO_USER_RESPONSE; ORIGINATOR_CANCEL; LOSE_RACE;
                            SUBSCRIBER_ABSENT] cause then disp_no_answer
          else if isAnsweredCause cause then disp_answered
          else disp_failed
      end
  end.

Record CdrLegInput := {
  cdr_in_id : option string;
  cdr_in_snapshot : ChannelSnapshot;
  cdr_in_leg : LegSide;
  cdr_in_direction : CallDirection;
  cdr_in_hangupCause : HangupCause;
  cdr_in_hangupCauseCode : Z;
  cdr_in_hangupSide : HangupSide;
  cdr_in_endedAt : Z;
  cdr_in_originatingLegId : option string;
  cdr_in_bridgeLegId : option string;
  cdr_in_destinationType : option string;
  cdr_in_destinationRef : option string }.

Record CdrLegWriteData := {
  cdr_id : string;
  cdr_callId : string;
  cdr_leg : LegSide;
  cdr_originatingLegId : option string;
  cdr_bridgeLegId : option string;
  cdr_direction : CallDirection;
  cdr_fromNumber : string;
  cdr_fromName : option string;
  cdr_toNumber : string;
  cdr_destinationType : string;
  cdr_destinationRef : option string;
  cdr_startedAt : string;
  cdr_answeredAt : option string;
  cdr_endedAt : string;
  cdr_durationMs : Z;
  cdr_billsecMs : Z;
  cdr_hangupCause : HangupCause;
  cdr_hangupCauseCode : Z;
  cdr_hangupSide : HangupSide;
  cdr_disposition : CallDisposition }.

(** [createEntityId] mints the id when none was persisted; [toISOString] prints
    an instant. *)
Definition buildCdrLegWrite (createEntityId : string) (toISOString : Z → string)
    (input : CdrLegInput) : CdrLegWriteData :=
  let snap := cdr_in_snapshot input in
  let startedAt := createdAt snap in
  let endedAt := Z.max (cdr_in_endedAt input) startedAt in
  let answered := answeredAt snap in
  {| cdr_id := default createEntityId (cdr_in_id input);
     cdr_callId := callId snap;
     cdr_leg := cdr_in_leg input;
     cdr_originatingLegId := cdr_in_originatingLegId input;
     cdr_bridgeLegId := cdr_in_bridgeLegId input;
     cdr_direction := cdr_in_direction input;
     cdr_fromNumber := dialStringOr (callerIdNumber (profile snap));
     cdr_fromName := callerIdName (profile snap);
     cdr_toNumber := dialStringOr (Some (destinationNumber (profile snap)));
     cdr_destinationType := default DEFAULT_DESTINATION_TYPE (cdr_in_destinationType input);
     cdr_destinationRef := cdr_in_destinationRef input;
     cdr_startedAt := toISOString startedAt;
     cdr_answeredAt := toISOString <$> answered;
     cdr_endedAt := toISOString endedAt;
     cdr_durationMs := endedAt - startedAt;
     cdr_billsecMs := match answered with None => 0 | Some t => Z.max 0 (endedAt - t) end;
     cdr_hangupCause := cdr_in_hangupCause input;
     cdr_hangupCauseCode := cdr_in_hangupCauseCode input;
     cdr_hangupSide := cdr_in_hangupSide input;
     cdr_disposition := dispositionFor answered (Some (cdr_in_hangupCause input)) |}.

(** ** Theorems *)

(** Every hangup can be told to the media server: the reason code of any
    cause, extended ones included, exists, lies in the Q.850 range the media server
    accepts, and, [LOSE_RACE] apart (its surrogate 26 has no name of its own), is
    the code of a named cause. *)
Theorem ariReasonCodeFor_total (cause : HangupCause) :
  ∃ code, ariReasonCodeFor cause = Ok code ∧ (0 <= code <= MAX_Q850_CODE)%Z ∧
          (cause ≠ LOSE_RACE → is_Some (hangupCauseFromCode code)).
Proof.
  destruct cause; (eexists; split; [vm_compute; reflexivity|]);
    (split; [unfold MAX_Q850_CODE; lia|vm_compute; eauto]).
  by intros [].
Qed.

(** The record bills what was used: the duration is never negative, an
    unanswered leg bills zero however long it rang, the billed time is never
    negative and, for a leg answered after it was created, never more than the
    duration; a leg with an answer instant is always reported answered; and a
    number is never empty on the record. *)
Theorem buildCdrLegWrite_bills (createEntityId : string) (toISOString : Z → string)
    (input : CdrLegInput) :
  let cdr := buildCdrLegWrite createEntityId toISOString input in
  (0 <= cdr_billsecMs cdr)%Z ∧ (0 <= cdr_durationMs cdr)%Z ∧
  match answeredAt (cdr_in_snapshot input) with
  | None => cdr_billsecMs cdr = 0%Z
  | Some t => cdr_disposition cdr = disp_answered ∧
              ((createdAt (cdr_in_snapshot input) <= t)%Z →
               (cdr_billsecMs cdr <= cdr_durationMs cdr)%Z)
  end ∧
  cdr_fromNumber cdr ≠ "" ∧ cdr_toNumber cdr ≠ "".
Proof.
  intros cdr. subst cdr. unfold buildCdrLegWrite; cbn -[dialStringOr].
  assert (∀ v, dialStringOr v ≠ "") as Hne.
  { intros [v|]; simpl; [|done]. by case_bool_decide. }
  split_and!; [case_match; lia|lia| |apply Hne|apply Hne].
  case_match; [|done]. split; [done|]. lia.
Qed.
End Cdr.
