(* ===== verification/Patterns.v ===== *)
(** * Number patterns

    [packages/routing/src/patterns.ts]: the four match kinds, their specificity,
    containment and overlap, the bounded cache of compiled expressions, and digit
    manipulation. The platform's regular expressions are a parameter: a source
    either fails to compile, with a message, or gives the [exec] function of the
    compiled expression (no flags, so [exec] keeps no state), whose answer is the
    list of capture groups. *)

From S2P Require Import Prelude.

Module Patterns.
Inductive RouteMatchKind : Set := match_exact | match_prefix | match_regex | match_any.

Inductive CompiledPattern : Set :=
| PExact (value : string)
| PPrefix (value : string)
| PRegex (source : string)
| PAny.

#[global] Instance CompiledPattern_eq_dec : EqDecision CompiledPattern.
Proof. solve_decision. Defined.

Inductive PatternIssue : Set :=
| EmptyPattern
| PatternTooLong (length : nat)
| InvalidRegex (detail : string)
| UnanchoredRegex.

(** [InvalidPatternError(source, detail)] *)
Record InvalidPatternError := { err_source : string; err_detail : string }.

Definition MAX_PATTERN_LENGTH : nat := 256.
Definition REGEX_CACHE_LIMIT : nat := 512.

Abbreviation exec_fun := (string → option (list (option string))).

(** The module-level [regexCache]. *)
Abbreviation cache := (gmap string exec_fun).

Section Matching.
Context (RegExp : string → result string exec_fun).

Definition regexCompileError (source : string) : option string :=
  match RegExp source with Ok _ => None | Throw detail => Some detail end.

Definition compilePattern (kind : RouteMatchKind) (pattern : option string)
    : CompiledPattern * list PatternIssue :=
  match kind with
  | match_any => (PAny, [])
  | _ =>
      let raw := default "" pattern in
      let issues :=
        (if String.length raw =? 0 then [EmptyPattern] else []) ++
        (if MAX_PATTERN_LENGTH <? String.length raw
         then [PatternTooLong (String.length raw)] else []) in
      match kind with
      | match_regex =>
          (PRegex raw,
           issues ++
           match regexCompileError raw with
           | Some detail => [InvalidRegex detail]
           | None => if negb (startsWith raw "^") && negb (endsWith raw "$")
                     then [UnanchoredRegex] else []
           end)
      | match_exact => (PExact raw, issues)
      | _ => (PPrefix raw, issues)
      end
  end.

Definition cachedRegex (c : cache) (source : string)
    : cache * result InvalidPatternError exec_fun :=
  match c !! source with
  | Some hit => (c, Ok hit)
  | None =>
      match RegExp source with
      | Throw detail => (c, Throw {| err_source := source; err_detail := detail |})
      | Ok compiled =>
          let c := if REGEX_CACHE_LIMIT <=? size c then ∅ else c in
          (<[source := compiled]> c, Ok compiled)
      end
  end.

Definition clearPatternCache (c : cache) : cache := ∅.

(** The capture groups 1..n: [result.slice(1).map((group) => group ?? "")],
    where the group list already leaves out group 0. *)
Definition captures_of (groups : list (option string)) : list string := default "" <$> groups.

(** [matchPattern] with the cache it reads and writes; the answer is the captures. *)
Definition matchPattern (c : cache) (p : CompiledPattern) (input : string)
    : cache * result InvalidPatternError (option (list string)) :=
  match p with
  | PAny => (c, Ok (Some []))
  | PExact value => (c, Ok (if bool_decide (value = input) then Some [] else None))
  | PPrefix value => (c, Ok (if startsWith input value then Some [] else None))
  | PRegex source =>
      match cachedRegex c source with
      | (c, Ok exec) => (c, Ok (captures_of <$> exec input))
      | (c, Throw e) => (c, Throw e)
      end
  end.

(** The reference: the same answer with no cache. *)
Definition match_pure (p : CompiledPattern) (input : string)
    : result InvalidPatternError (option (list string)) :=
  match p with
  | PAny => Ok (Some [])
  | PExact value => Ok (if bool_decide (value = input) then Some [] else None)
  | PPrefix value => Ok (if startsWith input value then Some [] else None)
  | PRegex source =>
      match RegExp source with
      | Ok exec => Ok (captures_of <$> exec input)
      | Throw detail => Throw {| err_source := source; err_detail := detail |}
      end
  end.

Definition matches (p : CompiledPattern) (input : string) : Prop :=
  ∃ captures, match_pure p input = Ok (Some captures).
End Matching.

Definition patternSpecificity (p : CompiledPattern) : Z :=
  match p with
  | PExact _ => 1000000
  | PPrefix value =>
      1000 + Z.min (Z.of_nat (String.length value)) (Z.of_nat MAX_PATTERN_LENGTH)
  | PRegex _ => 10
  | PAny => 0
  end%Z.

Definition patternSubsumes (left right : CompiledPattern) : bool :=
  match left, right with
  | PAny, _ => true
  | _, PAny => false
  | PPrefix l, (PPrefix r | PExact r) => startsWith r l
  | PPrefix _, _ => false
  | PExact l, PExact r => bool_decide (r = l)
  | PExact _, _ => false
  | PRegex l, PRegex r => bool_decide (r = l)
  | PRegex _, _ => false
  end.

Definition patternsOverlap (left right : CompiledPattern) : bool :=
  match left, right with
  | PAny, _ | _, PAny => true
  | PRegex l, PRegex r => bool_decide (l = r)
  | PRegex _, _ | _, PRegex _ => false
  | PExact l, PExact r => bool_decide (l = r)
  | PExact l, PPrefix r => startsWith l r
  | PPrefix l, PExact r => startsWith r l
  | PPrefix l, PPrefix r => startsWith l r || startsWith r l
  end.

(** ** Digit manipulation; [stripDigits] holds an integer. *)
Record DigitManipulation := { stripDigits : Z; prependDigits : option string }.

Inductive DigitManipulationIssue : Set :=
| NegativeStrip | StripTooLarge (strip : Z) | InvalidPrepend (value : string).

Definition MAX_STRIP_DIGITS : Z := 32.

(** The class [[0-9+*#]]. *)
Definition dial_char (c : ascii) : bool :=
  is_digit c || includes ["+"; "*"; "#"] (String c "").

(** [/^[0-9+*#]{0,32}$/.test(s)] *)
Definition PREPEND_PATTERN (s : string) : bool :=
  string_forallb dial_char s && (String.length s <=? 32).

Definition validateDigitManipulation (m : DigitManipulation) : list DigitManipulationIssue :=
  (if (stripDigits m <? 0)%Z then [NegativeStrip]
   else if (MAX_STRIP_DIGITS <? stripDigits m)%Z then [StripTooLarge (stripDigits m)] else []) ++
  (let prepend := default "" (prependDigits m) in
   if negb (PREPEND_PATTERN prepend) then [InvalidPrepend prepend] else []).

Definition applyDigitManipulation (m : DigitManipulation) (dialed : string) : option string :=
  if (Z.of_nat (String.length dialed) <? stripDigits m)%Z then None
  else
    let stripped := slice (stripDigits m) dialed in
    let result := default "" (prependDigits m) +:+ stripped in
    if String.length result =? 0 then None else Some result.

(** ** Matching *)
Section MatchingFacts.
Context (RegExp : string → result string exec_fun).

Lemma matches_exact v x : matches RegExp (PExact v) x ↔ v = x.
Proof. unfold matches; simpl. case_bool_decide; naive_solver. Qed.

Lemma matches_prefix v x : matches RegExp (PPrefix v) x ↔ startsWith x v = true.
Proof. unfold matches; simpl. destruct (startsWith x v); naive_solver. Qed.

Lemma matches_any x : matches RegExp PAny x.
Proof. by exists []. Qed.

(** The cache only ever holds what compiling the source gives, and is bounded. *)
Definition cache_inv (c : cache) : Prop :=
  (∀ s f, c !! s = Some f → RegExp s = Ok f) ∧ size c <= REGEX_CACHE_LIMIT.

Lemma cache_inv_empty : cache_inv ∅.
Proof. split; [|rewrite map_size_empty; lia]. intros s f. by rewrite lookup_empty. Qed.

Lemma cachedRegex_inv c s : cache_inv c → cache_inv (cachedRegex RegExp c s).1.
Proof.
  intros [Hc Hs]. unfold cachedRegex. destruct (c !! s) as [f|] eqn:Hl; [done|].
  destruct (RegExp s) as [f|] eqn:Hr; [|done]. cbn [fst].
  set (c' := if REGEX_CACHE_LIMIT <=? size c then ∅ else c).
  assert (size c' < REGEX_CACHE_LIMIT ∧ (∀ s f, c' !! s = Some f → RegExp s = Ok f)) as [Hs' Hc'].
  { unfold c'. destruct (Nat.leb_spec REGEX_CACHE_LIMIT (size c)).
    - rewrite map_size_empty. unfold REGEX_CACHE_LIMIT. split; [lia|].
      intros s' f'. by rewrite lookup_empty.
    - done. }
  split.
  - intros s' f'. rewrite lookup_insert_Some. naive_solver.
  - pose proof (map_size_insert s f c') as Hins. rewrite Hins.
    destruct (c' !! s); simpl; lia.
Qed.

Lemma matchPattern_pure c p x :
  cache_inv c → (matchPattern RegExp c p x).2 = match_pure RegExp p x ∧
                cache_inv (matchPattern RegExp c p x).1.
Proof.
  intros Hc. destruct p as [v|v|s|]; simpl; try done.
  pose proof (cachedRegex_inv c s Hc) as Hi. destruct Hc as [Hc _].
  unfold cachedRegex in *. destruct (c !! s) as [f|] eqn:Hl.
  - by rewrite (Hc _ _ Hl).
  - by destruct (RegExp s).
Qed.

(** A run of lookups through one cache, interleaved with clears of it. *)
Inductive cache_op := CacheMatch (p : CompiledPattern) (x : string) | CacheClear.

Definition cache_run (ops : list cache_op) : cache :=
  foldl (λ c op, match op with
                 | CacheMatch p x => (matchPattern RegExp c p x).1
                 | CacheClear => clearPatternCache c
                 end) ∅ ops.

Lemma cache_run_inv ops : cache_inv (cache_run ops).
Proof.
  unfold cache_run. generalize cache_inv_empty. generalize (∅ : cache).
  induction ops as [|[p x|] ops IH]; intros c Hc; simpl; [done|..]; apply IH.
  - by apply matchPattern_pure.
  - apply cache_inv_empty.
Qed.

(** The expression cache is invisible and bounded: after any history of
    matches and clears, a match answers what compiling the pattern afresh would
    answer (the same captures, the same no-match, the same error), and the cache
    never holds more than its limit. *)
Theorem matchPattern_cache_transparent (ops : list cache_op) (p : CompiledPattern) (x : string) :
  (matchPattern RegExp (cache_run ops) p x).2 = match_pure RegExp p x ∧
  size (matchPattern RegExp (cache_run ops) p x).1 <= REGEX_CACHE_LIMIT.
Proof.
  destruct (matchPattern_pure (cache_run ops) p x (cache_run_inv ops)) as [Heq [_ Hs]]. done.
Qed.

(** Containment is sound: when one pattern is reported to subsume another,
    every input the second matches the first matches too, whatever the platform's
    regular expressions do; so a reported shadowed rule truly can never fire. *)
Theorem patternSubsumes_sound (left right : CompiledPattern) (x : string) :
  patternSubsumes left right = true → matches RegExp right x → matches RegExp left x.
Proof.
  destruct left as [l|l|l|], right as [r|r|r|]; simpl; intros Hs; try done; bool_simpl; subst;
    auto using matches_any.
  - rewrite matches_exact, matches_prefix. by intros <-.
  - rewrite !matches_prefix. intros Hr. by eapply startsWith_trans.
Qed.

(** Overlap is exact for the decidable kinds: two patterns of kind exact,
    prefix or any are reported to overlap precisely when some input matches both. *)
Theorem patternsOverlap_exact (left right : CompiledPattern) :
  match left, right with PRegex _, _ | _, PRegex _ => False | _, _ => True end →
  (patternsOverlap left right = true ↔ ∃ x, matches RegExp left x ∧ matches RegExp right x).
Proof.
  destruct left as [l|l|l|], right as [r|r|r|]; try done; intros _; simpl;
    rewrite ?bool_decide_eq_true;
    try setoid_rewrite matches_exact; try setoid_rewrite matches_prefix.
  - naive_solver.
  - naive_solver.
  - split; [intros _|done]. exists l. auto using matches_any.
  - naive_solver.
  - split.
    + intros [Hp|Hp]%orb_true_iff; [exists l|exists r]; auto using startsWith_refl.
    + intros (x & Hl & Hr). apply orb_true_iff.
      destruct (startsWith_comparable x l r Hl Hr); auto.
  - split; [intros _|done]. exists l. auto using matches_any, startsWith_refl.
  - split; [intros _|done]. exists r. auto using matches_any.
  - split; [intros _|done]. exists r. auto using matches_any, startsWith_refl.
  - split; [intros _|done]. exists "". auto using matches_any.
Qed.
End MatchingFacts.

(** ** Specificity *)

(** A stored pattern within the length the validator accepts. *)
Definition within_length (p : CompiledPattern) : Prop :=
  match p with
  | PExact v | PPrefix v | PRegex v => String.length v <= MAX_PATTERN_LENGTH
  | PAny => True
  end.

(** The ordering weight never puts a wider pattern first: among patterns
    of accepted length, a pattern that subsumes a different one has strictly
    smaller specificity, so a descending sort tries the narrower rule first. *)
Theorem specificity_respects_subsumption (left right : CompiledPattern) :
  within_length left → within_length right →
  patternSubsumes left right = true → left ≠ right →
  (patternSpecificity left < patternSpecificity right)%Z.
Proof.
  unfold within_length, MAX_PATTERN_LENGTH.
  destruct left as [l|l|l|], right as [r|r|r|]; simpl; intros Hl Hr Hs Hne; try done;
    unfold MAX_PATTERN_LENGTH; try lia; bool_simpl; subst; try done.
  apply startsWith_spec in Hs as [s ->]. rewrite append_length in *.
  destruct s as [|c s]; [by rewrite append_nil_r in Hne|]. simpl in *. lia.
Qed.

(** ** Digit manipulation *)

(** What the validator accepts. *)
Lemma validate_ok m :
  validateDigitManipulation m = [] ↔
  (0 <= stripDigits m <= MAX_STRIP_DIGITS)%Z ∧
  PREPEND_PATTERN (default "" (prependDigits m)) = true.
Proof.
  unfold validateDigitManipulation. cbv zeta.
  destruct (Z.ltb_spec (stripDigits m) 0); simpl; [split; [done|lia]|].
  destruct (Z.ltb_spec MAX_STRIP_DIGITS (stripDigits m)); simpl; [split; [done|lia]|].
  destruct (PREPEND_PATTERN _); simpl; split; try done; by intros [_ ?].
Qed.

(** Digit manipulation does what it says: for a manipulation the validator
    accepts, the result is the prepended digits followed by the dialled string
    less exactly its first [stripDigits] characters; there is no result exactly
    when fewer characters were dialled than are stripped or nothing would be left
    to dial; and a dialable string stays dialable. *)
Theorem applyDigitManipulation_spec (m : DigitManipulation) (dialed result : string) :
  validateDigitManipulation m = [] →
  (applyDigitManipulation m dialed = Some result ↔
   ∃ stripped rest, dialed = stripped +:+ rest ∧
     Z.of_nat (String.length stripped) = stripDigits m ∧
     result = default "" (prependDigits m) +:+ rest ∧ result ≠ "") ∧
  (applyDigitManipulation m dialed = Some result →
   string_forallb dial_char dialed = true → string_forallb dial_char result = true).
Proof.
  intros [Hstrip Hpre]%validate_ok. unfold applyDigitManipulation, slice.
  rewrite (proj2 (Z.ltb_ge (stripDigits m) 0)) by lia.
  destruct (Z.ltb_spec (Z.of_nat (String.length dialed)) (stripDigits m)) as [Hlt|Hge].
  { split; [|done]. split; [done|]. intros (s & r & -> & Hs & _).
    rewrite append_length in Hlt. lia. }
  destruct (sdrop_split (Z.to_nat (stripDigits m)) dialed) as (p & Hp & Hd); [lia|].
  set (rest := sdrop _ dialed) in *. cbv zeta.
  assert (∀ s r, dialed = s +:+ r → Z.of_nat (String.length s) = stripDigits m → r = rest) as Huniq.
  { intros s r Hsr Hlen. rewrite Hsr in Hd. apply append_inj_length in Hd as [_ ?]; [done|lia]. }
  destruct (Nat.eqb_spec (String.length (default "" (prependDigits m) +:+ rest)) 0) as [E|E].
  - split; [|done]. split; [done|]. intros (s & r & Hsr & Hlen & -> & Hne).
    rewrite (Huniq s r Hsr Hlen) in Hne. destruct (default _ _ +:+ rest); done.
  - split; [split|].
    + intros [= <-]. exists p, rest. split_and!; [done|lia|done|]. intros E'. by rewrite E' in E.
    + intros (s & r & Hsr & Hlen & -> & Hne). by rewrite (Huniq s r Hsr Hlen).
    + intros [= <-] Hdial. rewrite string_forallb_append. apply andb_true_iff. split.
      * unfold PREPEND_PATTERN in Hpre. by bool_simpl.
      * rewrite Hd, string_forallb_append in Hdial. by bool_simpl.
Qed.

(** ** Witnesses *)
Lemma patternSubsumes_witness :
  patternSubsumes (PPrefix "+1") (PExact "+15550100") = true ∧
  matches (λ _, Throw "unsupported") (PPrefix "+1") "+15550100".
Proof.
  assert (patternSubsumes (PPrefix "+1") (PExact "+15550100") = true) as Hs by reflexivity.
  split; [exact Hs|].
  apply (patternSubsumes_sound (λ _, Throw "unsupported") _ _ _ Hs). by exists [].
Defined.

Lemma patternsOverlap_witness :
  patternsOverlap (PPrefix "55") (PPrefix "5501") = true ∧
  ∃ x, matches (λ _, Throw "unsupported") (PPrefix "55") x ∧
       matches (λ _, Throw "unsupported") (PPrefix "5501") x.
Proof.
  assert (patternsOverlap (PPrefix "55") (PPrefix "5501") = true) as Hs by reflexivity.
  split; [exact Hs|].
  apply (proj1 (patternsOverlap_exact (λ _, Throw "unsupported") (PPrefix "55") (PPrefix "5501") I)).
  exact Hs.
Defined.

Lemma specificity_witness :
  (patternSpecificity (PPrefix "+1") < patternSpecificity (PPrefix "+155"))%Z.
Proof.
  apply (specificity_respects_subsumption (PPrefix "+1") (PPrefix "+155")); simpl;
    try (unfold MAX_PATTERN_LENGTH; lia); done.
Defined.

Lemma applyDigitManipulation_witness :
  applyDigitManipulation {| stripDigits := 1; prependDigits := Some "+49" |} "0301234" =
    Some "+49301234".
Proof.
  apply (proj1 (applyDigitManipulation_spec
    {| stripDigits := 1; prependDigits := Some "+49" |} "0301234" "+49301234"
    ltac:(reflexivity))).
  exists "0", "301234". by split_and!.
Defined.
End Patterns.
