(* ===== verification/TimeConditions.v ===== *)
(** * Time conditions

    [packages/routing/src/time-conditions.ts]: predicates over a tenant's wall
    clock, their validation and normal form, and the evaluation of a condition.
    [Intl.DateTimeFormat(...).formatToParts] is a parameter: the zone database of
    the platform. A number a parse may fail to produce is an [option Z], [None]
    being [NaN]: comparisons and [includes] are false on it. *)

From stdpp Require Import pretty.
From S2P Require Import Prelude.

Module TimeConditions.
Local Open Scope Z_scope.

(** ** Numbers and digits *)
Definition digit_value (c : ascii) : option Z :=
  if is_digit c then Some (Z.of_nat (Ascii.nat_of_ascii c) - 48) else None.

(** The value of the longest prefix of digits, after [acc]. *)
Fixpoint digits_value (acc : Z) (s : string) : Z :=
  match s with
  | EmptyString => acc
  | String c s' =>
      match digit_value c with
      | Some d => digits_value (acc * 10 + d) s'
      | None => acc
      end
  end.

(** [Number.parseInt(s, 10)] *)
Definition parseInt (s : string) : option Z :=
  let unsigned (t : string) : option Z :=
    match t with
    | String c _ => if is_digit c then Some (digits_value 0 t) else None
    | EmptyString => None
    end in
  match trimStart s with
  | String c t =>
      if bool_decide (String c "" = "-") then Z.opp <$> unsigned t
      else if bool_decide (String c "" = "+") then unsigned t
      else unsigned (String c t)
  | EmptyString => None
  end.

(** [String(n)] *)
Definition number_string (n : option Z) : string :=
  match n with None => "NaN" | Some z => pretty z end.

Definition pad2 (n : option Z) : string :=
  match n with
  | Some z => if z <? 10 then "0" +:+ pretty z else pretty z
  | None => "NaN"
  end.

(** [s.padStart(n, "0")] *)
Fixpoint zeros (n : nat) : string :=
  match n with O => "" | S n => String (Ascii.ascii_of_nat 48) (zeros n) end.

Definition pad4 (n : option Z) : string :=
  let s := number_string n in zeros (4 - String.length s) +:+ s.

(** ** The zoned wall clock *)
Inductive part_type : Set :=
| part_year | part_month | part_day | part_hour | part_minute | part_weekday | part_literal.

Record ZonedInstant := {
  year : option Z;
  month : option Z;
  day : option Z;
  hour : option Z;
  minute : option Z;
  weekday : Z;
  weekOfMonth : option Z;
  minuteOfDay : option Z;
  date : string }.

Definition WEEKDAY_INDEX (s : string) : option Z :=
  if bool_decide (s = "Mon") then Some 1
  else if bool_decide (s = "Tue") then Some 2
  else if bool_decide (s = "Wed") then Some 3
  else if bool_decide (s = "Thu") then Some 4
  else if bool_decide (s = "Fri") then Some 5
  else if bool_decide (s = "Sat") then Some 6
  else if bool_decide (s = "Sun") then Some 7
  else None.

(** The [let]s of [zonedInstant] while its loop runs. *)
Record Parts := {
  p_year : option Z; p_month : option Z; p_day : option Z;
  p_hour : option Z; p_minute : option Z; p_weekday : Z }.

Definition parts_init : Parts :=
  {| p_year := Some 0; p_month := Some 0; p_day := Some 0; p_hour := Some 0;
     p_minute := Some 0; p_weekday := 1 |}.

Definition part_step (p : Parts) (part : part_type * string) : Parts :=
  let v := parseInt part.2 in
  match part.1 with
  | part_year => {| p_year := v; p_month := p_month p; p_day := p_day p; p_hour := p_hour p;
                    p_minute := p_minute p; p_weekday := p_weekday p |}
  | part_month => {| p_year := p_year p; p_month := v; p_day := p_day p; p_hour := p_hour p;
                     p_minute := p_minute p; p_weekday := p_weekday p |}
  | part_day => {| p_year := p_year p; p_month := p_month p; p_day := v; p_hour := p_hour p;
                   p_minute := p_minute p; p_weekday := p_weekday p |}
  | part_hour => {| p_year := p_year p; p_month := p_month p; p_day := p_day p;
                    p_hour := (λ h, Z.rem h 24) <$> v;
                    p_minute := p_minute p; p_weekday := p_weekday p |}
  | part_minute => {| p_year := p_year p; p_month := p_month p; p_day := p_day p;
                      p_hour := p_hour p; p_minute := v; p_weekday := p_weekday p |}
  | part_weekday => {| p_year := p_year p; p_month := p_month p; p_day := p_day p;
                       p_hour := p_hour p; p_minute := p_minute p;
                       p_weekday := default 1 (WEEKDAY_INDEX part.2) |}
  | part_literal => p
  end.

(** The object [zonedInstant] returns, from the fields its loop collected. *)
Definition zoned_of (p : Parts) : ZonedInstant :=
  {| year := p_year p; month := p_month p; day := p_day p; hour := p_hour p;
     minute := p_minute p; weekday := p_weekday p;
     weekOfMonth := (λ d, (d - 1) / 7 + 1) <$> p_day p;
     minuteOfDay := match p_hour p, p_minute p with
                    | Some h, Some m => Some (h * 60 + m)
                    | _, _ => None
                    end;
     date := pad4 (p_year p) +:+ "-" +:+ pad2 (p_month p) +:+ "-" +:+ pad2 (p_day p) |}.

Section Zone.
(** [formatToParts zone instant]; throws, with a message, on an unknown zone. *)
Context (formatToParts : string → Z → result string (list (part_type * string))).

Definition zonedInstant (instant : Z) (timezone : string) : result string ZonedInstant :=
  match formatToParts timezone instant with
  | Throw e => Throw e
  | Ok parts => Ok (zoned_of (foldl part_step parts_init parts))
  end.
End Zone.

(** ** Predicates *)
Record Window := { from : string; to : string }.

(** [TimeRulePredicateInput] and [CompiledTimePredicate] have the same fields. *)
Record TimePredicate := {
  weekdays : option (list Z);
  monthDays : option (list Z);
  months : option (list Z);
  weeksOfMonth : option (list Z);
  timeOfDay : option Window;
  dateRange : option Window }.

Record CompiledTimeRule := {
  rule_id : string;
  ordinal : Z;
  rule_label : option string;
  predicates : list TimePredicate }.

Inductive TimePredicateIssue : Set :=
| WeekdayOutOfRange (value : Z)
| MonthDayOutOfRange (value : Z)
| MonthOutOfRange (value : Z)
| WeekOfMonthOutOfRange (value : Z)
| MalformedTimeOfDay (value : string)
| MalformedDate (value : string)
| InvertedDateRange (f t : string)
| EmptyList (field : string).

Definition checkList (values : option (list Z)) (field : string) (min max : Z)
    (code : Z → TimePredicateIssue) : list TimePredicateIssue :=
  match values with
  | None => []
  | Some [] => [EmptyList field]
  | Some values => code <$> filter (λ v, v < min ∨ max < v) values
  end.

(** The two groups of [/^([01]\d|2[0-3]):([0-5]\d)$/], as numbers. *)
Definition time_groups (value : string) : option (Z * Z) :=
  match value with
  | String a (String b (String c (String d (String e EmptyString)))) =>
      match digit_value a, digit_value b, digit_value d, digit_value e with
      | Some a, Some b, Some d, Some e =>
          if (((a <? 2) || ((a =? 2) && (b <? 4))) && bool_decide (String c "" = ":") && (d <? 6))%bool
          then Some (a * 10 + b, d * 10 + e)
          else None
      | _, _, _, _ => None
      end
  | _ => None
  end.

Definition TIME_OF_DAY_PATTERN (value : string) : bool := bool_decide (is_Some (time_groups value)).

(** The groups of [/^(\d{4})-(\d{2})-(\d{2})$/], as numbers. *)
Definition date_groups (value : string) : option (Z * Z * Z) :=
  match value with
  | String y1 (String y2 (String y3 (String y4 (String s1 (String m1 (String m2
      (String s2 (String d1 (String d2 EmptyString))))))))) =>
      if (forallb is_digit [y1; y2; y3; y4; m1; m2; d1; d2] &&
          bool_decide (String s1 "" = "-") && bool_decide (String s2 "" = "-"))%bool
      then Some (digits_value 0 (String y1 (String y2 (String y3 (String y4 "")))),
                 digits_value 0 (String m1 (String m2 "")),
                 digits_value 0 (String d1 (String d2 "")))
      else None
  | _ => None
  end.

Definition daysInMonth : list Z := [31; 29; 31; 30; 31; 30; 31; 31; 30; 31; 30; 31].

Definition isCalendarDate (value : string) : bool :=
  match date_groups value with
  | None => false
  | Some (_, month, day) =>
      if ((month <? 1) || (12 <? month) || (day <? 1) || (31 <? day))%bool then false
      else day <=? default 0 (daysInMonth !! Z.to_nat (month - 1))
  end.

Definition validateTimePredicate (p : TimePredicate) : list TimePredicateIssue :=
  checkList (weekdays p) "weekdays" 1 7 WeekdayOutOfRange ++
  checkList (monthDays p) "monthDays" 1 31 MonthDayOutOfRange ++
  checkList (months p) "months" 1 12 MonthOutOfRange ++
  checkList (weeksOfMonth p) "weeksOfMonth" 1 5 WeekOfMonthOutOfRange ++
  match timeOfDay p with
  | None => []
  | Some w => MalformedTimeOfDay <$> filter (λ v, TIME_OF_DAY_PATTERN v = false) [from w; to w]
  end ++
  match dateRange p with
  | None => []
  | Some w =>
      let malformed := filter (λ v, isCalendarDate v = false) [from w; to w] in
      (MalformedDate <$> malformed) ++
      (if (bool_decide (malformed = []) && String.ltb (to w) (from w))%bool
       then [InvertedDateRange (from w) (to w)] else [])
  end.

(** [[...new Set(values)].sort((left, right) => left - right)] *)
Definition sortedUnique (values : list Z) : list Z :=
  js_sort (λ left right, left - right) (remove_dups values).

Definition compileTimePredicate (p : TimePredicate) : TimePredicate :=
  {| weekdays := sortedUnique <$> weekdays p;
     monthDays := sortedUnique <$> monthDays p;
     months := sortedUnique <$> months p;
     weeksOfMonth := sortedUnique <$> weeksOfMonth p;
     timeOfDay := timeOfDay p;
     dateRange := dateRange p |}.

Definition minuteOfDayOf (value : string) : option Z :=
  match time_groups value with
  | None => None
  | Some (h, m) => Some (h * 60 + m)
  end.

Definition timeOfDayMatches (window : Window) (minuteOfDay : option Z) : bool :=
  match minuteOfDayOf (from window), minuteOfDayOf (to window) with
  | Some f, Some t =>
      match minuteOfDay with
      | None => false
      | Some m =>
          if f <=? t then (f <=? m) && (m <=? t) else (f <=? m) || (m <=? t)
      end
  | _, _ => false
  end%bool.

(** [list.includes(n)] for a number that may be [NaN]. *)
Definition includes_num (l : list Z) (n : option Z) : bool :=
  match n with None => false | Some z => includes l z end.

Definition list_allows (l : option (list Z)) (n : option Z) : bool :=
  match l with None => true | Some l => includes_num l n end.

Definition predicateMatches (p : TimePredicate) (at_ : ZonedInstant) : bool :=
  list_allows (weekdays p) (Some (weekday at_)) &&
  list_allows (monthDays p) (day at_) &&
  list_allows (months p) (month at_) &&
  list_allows (weeksOfMonth p) (weekOfMonth at_) &&
  match dateRange p with
  | None => true
  | Some w => negb (String.ltb (date at_) (from w) || String.ltb (to w) (date at_))
  end &&
  match timeOfDay p with
  | None => true
  | Some w => timeOfDayMatches w (minuteOfDay at_)
  end.

Definition ruleMatches (rule : CompiledTimeRule) (at_ : ZonedInstant) : bool :=
  forallb (λ p, predicateMatches p at_) (predicates rule).

Record CompiledTimeCondition := {
  cond_id : string;
  cond_name : string;
  timezone : string;
  rules : list CompiledTimeRule }.

Record TimeConditionEvaluation := {
  matched : bool;
  matchedRuleId : option string;
  evaluated_at : ZonedInstant }.

Definition evaluateTimeCondition
    (formatToParts : string → Z → result string (list (part_type * string)))
    (condition : CompiledTimeCondition) (instant : Z) : result string TimeConditionEvaluation :=
  match zonedInstant formatToParts instant (timezone condition) with
  | Throw e => Throw e
  | Ok at_ =>
      Ok match find_first (λ rule, ruleMatches rule at_) (rules condition) with
         | Some rule =>
             {| matched := true; matchedRuleId := Some (rule_id rule); evaluated_at := at_ |}
         | None => {| matched := false; matchedRuleId := None; evaluated_at := at_ |}
         end
  end.

(** ** Wall-clock windows *)

(** The inclusive stretch of the 24-hour dial from [f] clockwise to [t]. *)
Definition on_dial (f t m : Z) : Prop := (m - f) mod 1440 <= (t - f) mod 1440.

Lemma mod_dial a b : 0 <= a < 1440 → 0 <= b < 1440 →
  (a - b) mod 1440 = if b <=? a then a - b else a - b + 1440.
Proof.
  intros Ha Hb. destruct (Z.leb_spec b a).
  - apply Z.mod_small. lia.
  - rewrite <- (Z.mod_add (a - b) 1 1440) by lia. rewrite Z.mod_small; lia.
Qed.

Lemma digit_value_range c d : digit_value c = Some d → 0 <= d <= 9.
Proof.
  unfold digit_value, is_digit. case_match; [|done]. intros [= <-].
  bool_simpl. rewrite Nat.leb_le in *. lia.
Qed.

Lemma time_groups_range s h m : time_groups s = Some (h, m) → 0 <= h <= 23 ∧ 0 <= m <= 59.
Proof.
  intros Hg. do 5 (destruct s as [|? s]; [done|]). destruct s; [|done]. simpl in Hg.
  repeat match goal with
  | H : match digit_value ?c with _ => _ end = _ |- _ =>
      destruct (digit_value c) eqn:?; [|done]
  end.
  destruct (_ && _)%bool eqn:E in Hg; [|done]. simplify_eq.
  repeat match goal with H : digit_value _ = Some _ |- _ => apply digit_value_range in H end.
  apply andb_true_iff in E as [[E _]%andb_true_iff E'%Z.ltb_lt].
  apply orb_true_iff in E as [E%Z.ltb_lt|[E1%Z.eqb_eq E2%Z.ltb_lt]%andb_true_iff]; lia.
Qed.

Lemma minuteOfDayOf_range s f : minuteOfDayOf s = Some f → 0 <= f < 1440.
Proof.
  unfold minuteOfDayOf. destruct (time_groups s) as [[h m]|] eqn:E; [|done]. intros [= <-].
  apply time_groups_range in E. lia.
Qed.

Lemma timeOfDayMatches_dial w m f t :
  minuteOfDayOf (from w) = Some f → minuteOfDayOf (to w) = Some t → 0 <= m < 1440 →
  timeOfDayMatches w (Some m) = true ↔ on_dial f t m.
Proof.
  intros Hf Ht Hm. unfold timeOfDayMatches, on_dial. rewrite Hf, Ht.
  apply minuteOfDayOf_range in Hf, Ht. rewrite !mod_dial by lia.
  destruct (Z.leb_spec f t), (Z.leb_spec f m), (Z.leb_spec m t); simpl; split; intros; try done; lia.
Qed.

(** ** Calendar order of ISO dates *)
Definition all_digits (s : string) : bool := string_forallb is_digit s.

Lemma all_digits_cons c s :
  all_digits (String c s) = true →
  ∃ d, digit_value c = Some d ∧ 0 <= d <= 9 ∧ Ascii.N_of_ascii c = Z.to_N (48 + d) ∧
       all_digits s = true.
Proof.
  unfold all_digits. cbn [string_forallb]. intros [Hc Hs]%andb_true_iff.
  assert (digit_value c = Some (Z.of_nat (Ascii.nat_of_ascii c) - 48)) as Hd
    by (unfold digit_value; by rewrite Hc).
  exists (Z.of_nat (Ascii.nat_of_ascii c) - 48). pose proof (digit_value_range _ _ Hd).
  split_and!; try done; try lia. unfold Ascii.nat_of_ascii in *. lia.
Qed.

Lemma digits_value_lt s1 s2 a b :
  all_digits s1 = true → all_digits s2 = true → String.length s1 = String.length s2 →
  a < b → digits_value a s1 < digits_value b s2.
Proof.
  revert s2 a b. induction s1 as [|c1 s1 IH]; intros [|c2 s2] a b H1 H2 Hl Hab; try done.
  apply all_digits_cons in H1 as (d1 & E1 & ? & _ & H1).
  apply all_digits_cons in H2 as (d2 & E2 & ? & _ & H2).
  cbn [digits_value]. rewrite E1, E2. apply IH; auto; lia.
Qed.

(** Comparing strings that start with equally many digits compares the numbers
    first. *)
Lemma compare_digits s1 s2 t1 t2 a :
  all_digits s1 = true → all_digits s2 = true → String.length s1 = String.length s2 →
  String.compare (s1 +:+ t1) (s2 +:+ t2) =
  match Z.compare (digits_value a s1) (digits_value a s2) with
  | Eq => String.compare t1 t2
  | c => c
  end.
Proof.
  revert s2 a. induction s1 as [|c1 s1 IH]; intros [|c2 s2] a H1 H2 Hl; try done.
  { by rewrite Z.compare_refl. }
  apply all_digits_cons in H1 as (d1 & E1 & ? & N1 & H1).
  apply all_digits_cons in H2 as (d2 & E2 & ? & N2 & H2).
  change (String.compare (String c1 (s1 +:+ t1)) (String c2 (s2 +:+ t2)) =
    match Z.compare (digits_value a (String c1 s1)) (digits_value a (String c2 s2)) with
    | Eq => String.compare t1 t2 | c => c end).
  cbn [String.compare digits_value]. rewrite E1, E2. unfold Ascii.compare. rewrite N1, N2.
  injection Hl as Hl. destruct (Z.lt_trichotomy d1 d2) as [Hd|[Hd|Hd]].
  - rewrite (proj2 (N.compare_lt_iff _ _)) by lia.
    rewrite (proj2 (Z.compare_lt_iff _ _)); [done|]. apply digits_value_lt; auto; lia.
  - subst. rewrite N.compare_refl. apply IH; auto.
  - rewrite (proj2 (N.compare_gt_iff _ _)) by lia.
    rewrite (proj2 (Z.compare_gt_iff _ _)); [done|]. apply digits_value_lt; auto; lia.
Qed.

(** What a date string of the accepted shape is made of. *)
Lemma date_groups_shape s y m d :
  date_groups s = Some (y, m, d) ↔
  ∃ sy sm sd, s = sy +:+ "-" +:+ sm +:+ "-" +:+ sd ∧
    all_digits sy = true ∧ all_digits sm = true ∧ all_digits sd = true ∧
    String.length sy = 4%nat ∧ String.length sm = 2%nat ∧ String.length sd = 2%nat ∧
    digits_value 0 sy = y ∧ digits_value 0 sm = m ∧ digits_value 0 sd = d.
Proof.
  split.
  - intros Hg. do 10 (destruct s as [|? s]; [done|]). destruct s; [|done].
    cbn [date_groups] in Hg. destruct (_ && _)%bool eqn:E in Hg; [|done]. simplify_eq.
    apply andb_true_iff in E as [[E E1%bool_decide_eq_true]%andb_true_iff E2%bool_decide_eq_true].
    injection E1 as ->. injection E2 as ->. cbn [forallb] in E.
    repeat (apply andb_true_iff in E as [? E]).
    eexists (String _ (String _ (String _ (String _ "")))), (String _ (String _ "")),
      (String _ (String _ "")).
    split; [reflexivity|]. unfold all_digits. cbn [string_forallb].
    repeat match goal with H : is_digit _ = true |- _ => rewrite H; clear H end. by split_and!.
  - intros (sy & sm & sd & -> & Hy & Hm & Hd & Ly & Lm & Ld & <- & <- & <-).
    do 4 (destruct sy as [|? sy]; [done|]). destruct sy; [|done].
    do 2 (destruct sm as [|? sm]; [done|]). destruct sm; [|done].
    do 2 (destruct sd as [|? sd]; [done|]). destruct sd; [|done].
    unfold all_digits in *. cbn [string_forallb] in *.
    repeat match goal with H : (_ && _)%bool = true |- _ => apply andb_true_iff in H as [? H] end.
    cbv [String.append date_groups forallb].
    repeat match goal with H : is_digit _ = true |- _ => rewrite H; clear H end. reflexivity.
Qed.

Definition date_key (y m d : Z) : Z := y * 10000 + m * 100 + d.

Lemma digits_value_range s a n :
  all_digits s = true → String.length s = n → 0 <= a →
  a * 10 ^ Z.of_nat n <= digits_value a s < (a + 1) * 10 ^ Z.of_nat n.
Proof.
  revert s a. induction n as [|n IH]; intros [|c s] a Hs Hl Ha; try done.
  { simpl. lia. }
  apply all_digits_cons in Hs as (d & E & Hd & _ & Hs). cbn [digits_value]. rewrite E.
  injection Hl as Hl. specialize (IH s (a * 10 + d) Hs Hl ltac:(lia)).
  rewrite Nat2Z.inj_succ, Z.pow_succ_r by lia. nia.
Qed.

(** Comparing accepted date strings compares the dates. *)
Lemma ltb_dates s1 s2 y1 m1 d1 y2 m2 d2 :
  date_groups s1 = Some (y1, m1, d1) → date_groups s2 = Some (y2, m2, d2) →
  String.ltb s1 s2 = true ↔ date_key y1 m1 d1 < date_key y2 m2 d2.
Proof.
  intros (sy1 & sm1 & sd1 & -> & ? & ? & ? & Ly1 & Lm1 & Ld1 & <- & <- & <-)%date_groups_shape
    (sy2 & sm2 & sd2 & -> & ? & ? & ? & Ly2 & Lm2 & Ld2 & <- & <- & <-)%date_groups_shape.
  unfold String.ltb, date_key.
  rewrite (compare_digits _ _ _ _ 0) by congruence.
  pose proof (digits_value_range sm1 0 2 ltac:(done) Lm1 ltac:(lia)).
  pose proof (digits_value_range sm2 0 2 ltac:(done) Lm2 ltac:(lia)).
  pose proof (digits_value_range sd1 0 2 ltac:(done) Ld1 ltac:(lia)).
  pose proof (digits_value_range sd2 0 2 ltac:(done) Ld2 ltac:(lia)).
  change (10 ^ Z.of_nat 2) with 100 in *.
  destruct (Z.compare_spec (digits_value 0 sy1) (digits_value 0 sy2)) as [Ey|Ey|Ey];
    [|split; [lia|done]|split; [done|lia]].
  assert (∀ a b, String.compare ("-" +:+ a) ("-" +:+ b) = String.compare a b) as Hdash by done.
  rewrite Hdash, (compare_digits sm1 sm2 _ _ 0) by congruence.
  destruct (Z.compare_spec (digits_value 0 sm1) (digits_value 0 sm2)) as [Em|Em|Em];
    [|split; [lia|done]|split; [done|lia]].
  rewrite Hdash, <- (append_nil_r sd1), <- (append_nil_r sd2),
    (compare_digits sd1 sd2 "" "" 0) by congruence. rewrite !append_nil_r.
  destruct (Z.compare_spec (digits_value 0 sd1) (digits_value 0 sd2)); split; try done; lia.
Qed.

(** ** The wall clock of a zone *)
Definition digits_ok (n : nat) (v : Z) (s : string) : bool :=
  all_digits s && (String.length s =? n)%nat && (digits_value 0 s =? v).

Lemma padded_ok (f : option Z → string) n max :
  forallb (λ v, digits_ok n v (f (Some v))) (seqZ 0 max) = true →
  ∀ v, 0 <= v < max →
    all_digits (f (Some v)) = true ∧ String.length (f (Some v)) = n ∧
    digits_value 0 (f (Some v)) = v.
Proof.
  intros Hall v Hv. rewrite forallb_forall in Hall.
  assert (digits_ok n v (f (Some v)) = true) as Hok.
  { apply Hall, list_elem_of_In, elem_of_seqZ. lia. }
  unfold digits_ok in Hok. bool_simpl. rewrite Nat.eqb_eq, Z.eqb_eq in *. done.
Qed.

Lemma pad4_check : forallb (λ v, digits_ok 4 v (pad4 (Some v))) (seqZ 0 10000) = true.
Proof. vm_compute. reflexivity. Qed.

Lemma pad2_check : forallb (λ v, digits_ok 2 v (pad2 (Some v))) (seqZ 0 100) = true.
Proof. vm_compute. reflexivity. Qed.

(** The fields of a wall clock that exists. *)
Record wall_clock (p : Parts) (y m d h mi : Z) : Prop := {
  wc_year : p_year p = Some y ∧ 0 <= y <= 9999;
  wc_month : p_month p = Some m ∧ 1 <= m <= 12;
  wc_day : p_day p = Some d ∧ 1 <= d <= 31;
  wc_hour : p_hour p = Some h ∧ 0 <= h <= 23;
  wc_minute : p_minute p = Some mi ∧ 0 <= mi <= 59 }.

Lemma zoned_date p y m d h mi :
  wall_clock p y m d h mi → date_groups (date (zoned_of p)) = Some (y, m, d).
Proof.
  intros [[Ey Hy] [Em Hm] [Ed Hd] _ _]. apply date_groups_shape. simpl. rewrite Ey, Em, Ed.
  destruct (padded_ok pad4 4 10000 pad4_check y) as (? & ? & ?); [lia|].
  destruct (padded_ok pad2 2 100 pad2_check m) as (? & ? & ?); [lia|].
  destruct (padded_ok pad2 2 100 pad2_check d) as (? & ? & ?); [lia|].
  exists (pad4 (Some y)), (pad2 (Some m)), (pad2 (Some d)). by split_and!.
Qed.

Lemma elem_of_sortedUnique l x : x ∈ sortedUnique l ↔ x ∈ l.
Proof. unfold sortedUnique. by rewrite elem_of_js_sort, elem_of_remove_dups. Qed.

Lemma list_allows_compiled l n :
  list_allows (sortedUnique <$> l) (Some n) = true ↔ ∀ l', l = Some l' → n ∈ l'.
Proof.
  destruct l as [l|]; simpl; [|naive_solver].
  rewrite includes_spec, elem_of_sortedUnique. naive_solver.
Qed.

(** What validation guarantees of the two windows. *)
Lemma validate_windows p :
  validateTimePredicate p = [] →
  (∀ w, timeOfDay p = Some w →
     ∃ f t, minuteOfDayOf (from w) = Some f ∧ minuteOfDayOf (to w) = Some t) ∧
  (∀ w, dateRange p = Some w →
     ∃ k1 k2, date_groups (from w) = Some k1 ∧ date_groups (to w) = Some k2).
Proof.
  unfold validateTimePredicate. intros Hv. repeat (apply app_eq_nil in Hv as [? Hv]).
  split.
  - intros w Hw. rewrite Hw in *.
    match goal with H : MalformedTimeOfDay <$> _ = [] |- _ => apply fmap_nil_inv in H as Hf end.
    unfold TIME_OF_DAY_PATTERN, minuteOfDayOf in *.
    destruct (time_groups (from w)) as [[h1 m1]|] eqn:E1, (time_groups (to w)) as [[h2 m2]|] eqn:E2;
      [eauto|..]; exfalso; revert Hf; rewrite !filter_cons, ?E1, ?E2; simpl;
      repeat case_decide; naive_solver.
  - intros w Hw. rewrite Hw in Hv. apply app_eq_nil in Hv as [Hf%fmap_nil_inv _].
    unfold isCalendarDate in Hf.
    destruct (date_groups (from w)) as [k1|] eqn:E1, (date_groups (to w)) as [k2|] eqn:E2;
      [eauto|..]; exfalso; revert Hf; rewrite !filter_cons, ?E1, ?E2; simpl;
      repeat case_decide; naive_solver.
Qed.

Definition key_of (g : Z * Z * Z) : Z := date_key g.1.1 g.1.2 g.2.

(** A validated predicate means what it says: after normalisation it
    matches a wall clock exactly when the weekday, the day, the month and the week
    of the month (the days [7(w-1)+1..7w]) are among those it lists, the date lies
    in its range in calendar order, both ends included, and the minute lies on the
    dial between its two times, both ends included, across midnight when the
    window's start is later than its end. *)
Theorem predicateMatches_spec (p : TimePredicate) (w : Parts) (y m d h mi : Z) :
  validateTimePredicate p = [] → wall_clock w y m d h mi →
  predicateMatches (compileTimePredicate p) (zoned_of w) = true ↔
  (∀ l, weekdays p = Some l → p_weekday w ∈ l) ∧
  (∀ l, monthDays p = Some l → d ∈ l) ∧
  (∀ l, months p = Some l → m ∈ l) ∧
  (∀ l, weeksOfMonth p = Some l → ∃ k, k ∈ l ∧ 7 * (k - 1) < d <= 7 * k) ∧
  (∀ r, dateRange p = Some r → ∃ k1 k2, date_groups (from r) = Some k1 ∧
     date_groups (to r) = Some k2 ∧ key_of k1 <= date_key y m d <= key_of k2) ∧
  (∀ t, timeOfDay p = Some t → ∃ f e, minuteOfDayOf (from t) = Some f ∧
     minuteOfDayOf (to t) = Some e ∧ on_dial f e (h * 60 + mi)).
Proof.
  intros [Htime Hdate]%validate_windows Hw. pose proof (zoned_date _ _ _ _ _ _ Hw) as Hzd.
  destruct Hw as [_ [Em _] [Ed _] [Eh Hh] [Emi Hmi]].
  unfold predicateMatches. rewrite !andb_true_iff.
  cbn [weekdays monthDays months weeksOfMonth dateRange timeOfDay compileTimePredicate].
  cbn [zoned_of weekday day month weekOfMonth minuteOfDay] in *. rewrite Em, Ed, Eh, Emi.
  cbn [fmap option_fmap option_map]. rewrite !list_allows_compiled.
  assert ((∀ l, weeksOfMonth p = Some l → (d - 1) / 7 + 1 ∈ l) ↔
          (∀ l, weeksOfMonth p = Some l → ∃ k, k ∈ l ∧ 7 * (k - 1) < d <= 7 * k)) as ->.
  { pose proof (Z.div_mod (d - 1) 7 ltac:(lia)). pose proof (Z.mod_pos_bound (d - 1) 7 ltac:(lia)).
    split; intros Hx l Hl; [exists ((d - 1) / 7 + 1); split; [by apply Hx|lia]|].
    destruct (Hx l Hl) as (k & Hk & Hr). assert ((d - 1) / 7 + 1 = k) as -> by lia. done. }
  assert (match dateRange p with
          | Some r => negb (String.ltb (date (zoned_of w)) (from r) ||
                            String.ltb (to r) (date (zoned_of w)))
          | None => true end = true ↔
    (∀ r, dateRange p = Some r → ∃ k1 k2, date_groups (from r) = Some k1 ∧
     date_groups (to r) = Some k2 ∧ key_of k1 <= date_key y m d <= key_of k2)) as <-.
  { destruct (dateRange p) as [r|]; [|naive_solver].
    destruct (Hdate r eq_refl) as ([[y1 m1] d1] & [[y2 m2] d2] & E1 & E2).
    pose proof (ltb_dates _ _ _ _ _ _ _ _ Hzd E1) as L1.
    pose proof (ltb_dates _ _ _ _ _ _ _ _ E2 Hzd) as L2.
    rewrite negb_true_iff, orb_false_iff, <- !not_true_iff_false, L1, L2. split.
    - intros [? ?] r' [= <-]. eexists _, _. split_and!; [done|done|..]; unfold key_of; simpl; lia.
    - intros Hx. destruct (Hx r eq_refl) as (k1 & k2 & E1' & E2' & ?). simplify_eq.
      unfold key_of in *; simpl in *. lia. }
  assert (match timeOfDay p with
          | Some t => timeOfDayMatches t (Some (h * 60 + mi)) | None => true end = true ↔
    (∀ t, timeOfDay p = Some t → ∃ f e, minuteOfDayOf (from t) = Some f ∧
     minuteOfDayOf (to t) = Some e ∧ on_dial f e (h * 60 + mi))) as <-.
  { destruct (timeOfDay p) as [t|]; [|naive_solver].
    destruct (Htime t eq_refl) as (f & e & E1 & E2).
    rewrite (timeOfDayMatches_dial _ _ _ _ E1 E2) by lia. naive_solver. }
  tauto.
Qed.

(** A condition takes its first matching rule: evaluation fails only when
    the zone is unknown, and otherwise reports a match exactly when some rule's
    predicates all hold of the zoned wall clock, naming the earliest such rule. *)
Theorem evaluateTimeCondition_spec
    (formatToParts : string → Z → result string (list (part_type * string)))
    (c : CompiledTimeCondition) (instant : Z) :
  match evaluateTimeCondition formatToParts c instant with
  | Throw e => formatToParts (timezone c) instant = Throw e
  | Ok ev =>
      zonedInstant formatToParts instant (timezone c) = Ok (evaluated_at ev) ∧
      (matched ev = true ↔ ∃ r, r ∈ rules c ∧
         ∀ p, p ∈ predicates r → predicateMatches p (evaluated_at ev) = true) ∧
      (∀ id, matchedRuleId ev = Some id ↔ ∃ before r after,
         rules c = before ++ r :: after ∧ rule_id r = id ∧
         ruleMatches r (evaluated_at ev) = true ∧
         Forall (λ r', ruleMatches r' (evaluated_at ev) = false) before)
  end.
Proof.
  assert (∀ r a, ruleMatches r a = true ↔ ∀ p, p ∈ predicates r → predicateMatches p a = true)
    as Hrule.
  { intros r a. unfold ruleMatches. rewrite forallb_forall. by setoid_rewrite list_elem_of_In. }
  unfold evaluateTimeCondition. unfold zonedInstant at 1.
  destruct (formatToParts (timezone c) instant) as [parts|e] eqn:Hf; [|done].
  set (a := zoned_of _).
  assert (zonedInstant formatToParts instant (timezone c) = Ok a) as Hz
    by (unfold zonedInstant; by rewrite Hf).
  destruct (find_first (λ rule, ruleMatches rule a) (rules c)) as [r|] eqn:Hr; simpl.
  - pose proof Hr as [Hin Hm]%find_first_Some. split_and!; [done| |].
    + split; [intros _|done]. exists r. split; [done|]. by apply Hrule.
    + intros id. rewrite find_first_split in Hr. destruct Hr as (l1 & l2 & Hl & _ & Hall). split.
      * intros [= <-]. by exists l1, r, l2.
      * intros (l1' & r' & l2' & Hl' & <- & Hm' & Hall').
        assert (find_first (λ rule, ruleMatches rule a) (rules c) = Some r) as E1.
        { apply find_first_split. by exists l1, l2. }
        assert (find_first (λ rule, ruleMatches rule a) (rules c) = Some r') as E2.
        { apply find_first_split. by exists l1', l2'. }
        congruence.
  - rewrite find_first_None in Hr. split_and!; [done| |].
    + split; [done|]. intros (r & Hin & Hp%Hrule). rewrite (Hr r Hin) in Hp. done.
    + intros id. split; [done|]. intros (l1 & r & l2 & Hl & _ & Hm & _).
      rewrite Hr in Hm; [done|]. rewrite Hl. apply elem_of_app. right. apply list_elem_of_here.
Qed.

(** ** Witness: Monday to Friday, nights, in the last week of the year *)
Definition demo_predicate : TimePredicate :=
  {| weekdays := Some [5; 1; 2; 3; 4; 1]; monthDays := None; months := Some [12];
     weeksOfMonth := Some [4; 5]; timeOfDay := Some {| from := "22:00"; to := "06:00" |};
     dateRange := Some {| from := "2025-12-24"; to := "2026-01-02" |} |}.

Definition demo_parts : Parts :=
  {| p_year := Some 2025; p_month := Some 12; p_day := Some 29; p_hour := Some 23;
     p_minute := Some 15; p_weekday := 1 |}.

Lemma predicateMatches_witness :
  validateTimePredicate demo_predicate = [] ∧ on_dial 1320 360 1395.
Proof.
  assert (validateTimePredicate demo_predicate = []) as Hv by (vm_compute; reflexivity).
  split; [exact Hv|].
  assert (wall_clock demo_parts 2025 12 29 23 15) as Hw by (split; simpl; split; (reflexivity || lia)).
  destruct (proj1 (predicateMatches_spec demo_predicate demo_parts 2025 12 29 23 15 Hv Hw))
    as (_ & _ & _ & _ & _ & Ht); [vm_compute; reflexivity|].
  destruct (Ht _ eq_refl) as (f & e & Hf & He & Hd).
  injection Hf as <-. injection He as <-. exact Hd.
Defined.
End TimeConditions.
