(* ===== verification/FeatureCodes.v ===== *)
(** * Star codes and emergency numbers

    [packages/routing/src/feature-codes.ts] (the catalogue, its validation and the
    dial-time match) and [packages/routing/src/emergency.ts] (the table no tenant
    can switch off). *)

From S2P Require Import Prelude HangupCauses.

Module FeatureCodes.
Inductive FeatureCodeAction : Set :=
| voicemail_check | voicemail_direct | voicemail_record_greeting | call_park | call_pickup
| group_pickup | call_forward_all | call_forward_busy | call_forward_no_answer | do_not_disturb
| follow_me | intercom | paging | record_toggle | redial | echo_test | queue_toggle
| agent_status | eavesdrop | transfer.

#[global] Instance FeatureCodeAction_eq_dec : EqDecision FeatureCodeAction.
Proof. solve_decision. Defined.

Inductive FeatureCodeArgumentMode : Set := arg_none | arg_optional | arg_required.

#[global] Instance FeatureCodeArgumentMode_eq_dec : EqDecision FeatureCodeArgumentMode.
Proof. solve_decision. Defined.

Definition FEATURE_CODE_ARGUMENT_MODE (a : FeatureCodeAction) : FeatureCodeArgumentMode :=
  match a with
  | voicemail_check => arg_none
  | voicemail_direct => arg_required
  | voicemail_record_greeting => arg_none
  | call_park => arg_optional
  | call_pickup => arg_required
  | group_pickup => arg_none
  | call_forward_all => arg_optional
  | call_forward_busy => arg_optional
  | call_forward_no_answer => arg_optional
  | do_not_disturb => arg_none
  | follow_me => arg_none
  | intercom => arg_required
  | paging => arg_required
  | record_toggle => arg_none
  | redial => arg_none
  | echo_test => arg_none
  | queue_toggle => arg_optional
  | agent_status => arg_optional
  | eavesdrop => arg_required
  | transfer => arg_required
  end.

(** [FeatureCodeParams]: a record of strings, numbers and booleans. *)
Inductive ParamValue : Set := ParamString (s : string) | ParamNumber (n : Z) | ParamBool (b : bool).

Record FeatureCodeSeed := { seed_code : string; seed_action : FeatureCodeAction; seed_label : string }.

Definition DEFAULT_FEATURE_CODES : list FeatureCodeSeed :=
  [ {| seed_code := "*97"; seed_action := voicemail_check; seed_label := "Check my voicemail" |};
    {| seed_code := "*98"; seed_action := voicemail_direct;
       seed_label := "Leave a message in a mailbox" |};
    {| seed_code := "*99"; seed_action := voicemail_record_greeting;
       seed_label := "Record my greeting" |};
    {| seed_code := "*8"; seed_action := group_pickup;
       seed_label := "Pick up a ringing call in my group" |};
    {| seed_code := "**"; seed_action := call_pickup;
       seed_label := "Pick up a specific extension" |};
    {| seed_code := "*69"; seed_action := redial; seed_label := "Return the last call" |};
    {| seed_code := "*72"; seed_action := call_forward_all; seed_label := "Forward all calls" |};
    {| seed_code := "*74"; seed_action := call_forward_busy; seed_label := "Forward when busy" |};
    {| seed_code := "*76"; seed_action := call_forward_no_answer;
       seed_label := "Forward on no answer" |};
    {| seed_code := "*78"; seed_action := do_not_disturb; seed_label := "Do not disturb" |};
    {| seed_code := "*21"; seed_action := follow_me; seed_label := "Follow me" |};
    {| seed_code := "*5"; seed_action := call_park; seed_label := "Park this call" |};
    {| seed_code := "*80"; seed_action := intercom; seed_label := "Intercom an extension" |};
    {| seed_code := "*81"; seed_action := paging; seed_label := "Page a group" |};
    {| seed_code := "*3"; seed_action := record_toggle; seed_label := "Start or stop recording" |};
    {| seed_code := "*0"; seed_action := eavesdrop; seed_label := "Monitor a call" |};
    {| seed_code := "*1"; seed_action := transfer; seed_label := "Blind transfer" |};
    {| seed_code := "*22"; seed_action := queue_toggle; seed_label := "Log in or out of a queue" |};
    {| seed_code := "*23"; seed_action := agent_status; seed_label := "Set my agent status" |};
    {| seed_code := "*43"; seed_action := echo_test; seed_label := "Echo test" |} ].

Definition star_or_hash (c : ascii) : bool := includes ["*"; "#"] (String c "").

(** [/^[*#][0-9*#]{0,9}$/.test(code)] *)
Definition isWellFormedFeatureCode (code : string) : bool :=
  match code with
  | String c rest =>
      star_or_hash c && string_forallb (λ c, is_digit c || star_or_hash c) rest &&
      (String.length rest <=? 9)
  | EmptyString => false
  end.

Inductive FeatureCodeIssue : Set :=
| MalformedCode (value : string)
| DuplicateCode (value : string)
| PrefixCollision (value other : string).

Section Issues.
Context (localeCompare : string → string → Z).

(** The first loop: malformed and duplicate codes; [seen] is its set. *)
Fixpoint shape_issues (seen : list string) (codes : list (string * FeatureCodeAction))
    : list FeatureCodeIssue :=
  match codes with
  | [] => []
  | (code, _) :: rest =>
      if negb (isWellFormedFeatureCode code) then MalformedCode code :: shape_issues seen rest
      else if includes seen code then DuplicateCode code :: shape_issues seen rest
      else shape_issues (code :: seen) rest
  end.

(** The second loop. *)
Definition collision_issues (sorted : list (string * FeatureCodeAction)) : list FeatureCodeIssue :=
  mjoin ((λ entry : string * FeatureCodeAction,
    match FEATURE_CODE_ARGUMENT_MODE entry.2 with
    | arg_none => []
    | _ =>
        (λ other : string * FeatureCodeAction, PrefixCollision entry.1 other.1) <$>
          filter (λ other : string * FeatureCodeAction,
                    other.1 ≠ entry.1 ∧ startsWith other.1 entry.1 = true) sorted
    end) <$> sorted).

Definition featureCodeIssues (codes : list (string * FeatureCodeAction)) : list FeatureCodeIssue :=
  let sorted := js_sort (λ l r, localeCompare l.1 r.1) codes in
  shape_issues [] sorted ++ collision_issues sorted.
End Issues.

Record CompiledFeatureCode := {
  fc_id : string;
  fc_code : string;
  fc_action : FeatureCodeAction;
  fc_argumentMode : FeatureCodeArgumentMode;
  fc_params : option (gmap string ParamValue);
  fc_label : option string;
  fc_nodeId : string }.

Record FeatureCodeMatch := { featureCode : CompiledFeatureCode; fc_argument : string }.

Fixpoint matchFeatureCode (table : list CompiledFeatureCode) (dialed : string)
    : option FeatureCodeMatch :=
  match table with
  | [] => None
  | entry :: rest =>
      if bool_decide (dialed = fc_code entry) then
        match fc_argumentMode entry with
        | arg_required => matchFeatureCode rest dialed
        | _ => Some {| featureCode := entry; fc_argument := "" |}
        end
      else if negb (bool_decide (fc_argumentMode entry = arg_none)) &&
              startsWith dialed (fc_code entry) then
        Some {| featureCode := entry;
                fc_argument := slice (Z.of_nat (String.length (fc_code entry))) dialed |}
      else matchFeatureCode rest dialed
  end.

(** ** Matching *)

(** The argument is one the mode admits. *)
Definition admits (mode : FeatureCodeArgumentMode) (arg : string) : bool :=
  match mode with
  | arg_none => bool_decide (arg = "")
  | arg_optional => true
  | arg_required => negb (bool_decide (arg = ""))
  end.

(** What was dialled after the entry's code. *)
Definition argument_of (e : CompiledFeatureCode) (dialed : string) : string :=
  sdrop (String.length (fc_code e)) dialed.

(** The digits are the entry's code followed by an argument its mode admits. *)
Definition applies (e : CompiledFeatureCode) (dialed : string) : bool :=
  startsWith dialed (fc_code e) && admits (fc_argumentMode e) (argument_of e dialed).

Lemma slice_append p r : slice (Z.of_nat (String.length p)) (p +:+ r) = r.
Proof.
  unfold slice. rewrite (proj2 (Z.ltb_ge _ _)) by lia. rewrite Nat2Z.id. apply sdrop_append.
Qed.

Lemma append_eq_nil_r (p r : string) : p +:+ r = p ↔ r = "".
Proof.
  split; [|intros ->; apply append_nil_r]. intros H. apply (f_equal String.length) in H.
  rewrite append_length in H. destruct r; [done|]. simpl in H. lia.
Qed.

Lemma applies_spec e dialed :
  applies e dialed = true ↔
  ∃ arg, dialed = fc_code e +:+ arg ∧ argument_of e dialed = arg ∧
         admits (fc_argumentMode e) arg = true.
Proof.
  unfold applies, argument_of. rewrite andb_true_iff, startsWith_spec. split.
  - intros [[arg ->] Had]. rewrite sdrop_append in *. eauto.
  - intros (arg & -> & Heq & Had). rewrite sdrop_append in *. eauto.
Qed.

(** The walk stops at the first entry that applies. *)
Lemma matchFeatureCode_find table dialed :
  matchFeatureCode table dialed =
    (λ e, {| featureCode := e; fc_argument := argument_of e dialed |}) <$>
      find_first (λ e, applies e dialed) table.
Proof.
  induction table as [|e table IH]; [done|]. cbn [matchFeatureCode find_first].
  unfold applies at 1.
  case_bool_decide as Heq.
  - assert (startsWith dialed (fc_code e) = true) as -> by (rewrite Heq; apply startsWith_refl).
    assert (argument_of e dialed = "") as Harg.
    { unfold argument_of. rewrite Heq. rewrite <- (append_nil_r (fc_code e)) at 2.
      apply sdrop_append. }
    rewrite Harg. destruct (fc_argumentMode e); simpl; by rewrite ?Harg.
  - destruct (startsWith dialed (fc_code e)) eqn:Hs; cbn [andb].
    + apply startsWith_spec in Hs as [arg ->]. rewrite slice_append.
      assert (argument_of e (fc_code e +:+ arg) = arg) as Harg by apply sdrop_append.
      assert (arg ≠ "") as Hne by (by intros E; apply Heq, append_eq_nil_r).
      rewrite Harg. destruct (fc_argumentMode e); simpl;
        rewrite ?bool_decide_eq_false_2 by done; simpl; auto; by rewrite Harg.
    + rewrite andb_false_r. apply IH.
Qed.

(** The order the compiler sorts the table into: longest code first. *)
Definition longest_first (table : list CompiledFeatureCode) : Prop :=
  StronglySorted (λ e1 e2, String.length (fc_code e2) <= String.length (fc_code e1)) table.

(** The longest code wins and nothing dialable is missed: over a table in
    the compiler's order, the match is an entry whose code, followed by an argument
    its mode admits, is exactly what was dialled, no entry with a longer code would
    have fitted, and there is no match only when no entry fits. *)
Theorem matchFeatureCode_longest (table : list CompiledFeatureCode) (dialed : string) :
  longest_first table →
  match matchFeatureCode table dialed with
  | Some m =>
      featureCode m ∈ table ∧ dialed = fc_code (featureCode m) +:+ fc_argument m ∧
      admits (fc_argumentMode (featureCode m)) (fc_argument m) = true ∧
      ∀ e arg, e ∈ table → dialed = fc_code e +:+ arg → admits (fc_argumentMode e) arg = true →
        String.length (fc_code e) <= String.length (fc_code (featureCode m))
  | None => ∀ e arg, e ∈ table → dialed = fc_code e +:+ arg →
      admits (fc_argumentMode e) arg = false
  end.
Proof.
  intros Hsorted. rewrite matchFeatureCode_find.
  assert (∀ e arg, dialed = fc_code e +:+ arg → applies e dialed = admits (fc_argumentMode e) arg)
    as Hap.
  { intros e arg ->. unfold applies, argument_of. rewrite sdrop_append.
    assert (startsWith (fc_code e +:+ arg) (fc_code e) = true) as ->; [|done].
    apply startsWith_spec. eauto. }
  destruct (find_first _ table) as [e|] eqn:Hf; simpl.
  - apply find_first_split in Hf as (l1 & l2 & Hl & He & Hbefore).
    pose proof He as (arg & Hd & Harg & Hadm)%applies_spec. rewrite Harg.
    split_and!; auto.
    + rewrite Hl. apply elem_of_app. right. apply list_elem_of_here.
    + intros e' arg' Hin Hd' Hadm'. rewrite <- (Hap e' arg' Hd') in Hadm'.
      rewrite Hl in Hin, Hsorted. apply elem_of_app in Hin as [Hin|Hin].
      { rewrite Forall_forall in Hbefore. rewrite Hbefore in Hadm'; done. }
      apply elem_of_cons in Hin as [->|Hin]; [done|].
      unfold longest_first in Hsorted. apply StronglySorted_app_1_r in Hsorted.
      apply StronglySorted_cons in Hsorted as [Hall _]. rewrite Forall_forall in Hall. by apply Hall.
  - rewrite find_first_None in Hf. intros e arg Hin Hd. rewrite <- (Hap e arg Hd). by apply Hf.
Qed.

(** ** Validation makes the match unambiguous *)
Lemma shape_issues_nil seen codes :
  shape_issues seen codes = [] → NoDup (codes.*1) ∧ ∀ c, c ∈ codes.*1 → c ∉ seen.
Proof.
  revert seen. induction codes as [|[code a] codes IH]; intros seen; simpl.
  { intros _. split; [constructor|]. intros c Hc. by apply elem_of_nil in Hc. }
  destruct (isWellFormedFeatureCode code); [|done]. cbn [negb].
  destruct (includes seen code) eqn:Hin; [done|]. intros Hi. apply IH in Hi as [Hnd Hns].
  bool_simpl. split.
  - apply NoDup_cons. split; [|done]. intros Hc. apply (Hns _ Hc). apply list_elem_of_here.
  - intros c [->|Hc]%elem_of_cons; [done|]. intros Hs. apply (Hns _ Hc).
    by apply list_elem_of_further.
Qed.

Lemma collision_issues_nil codes e o :
  collision_issues codes = [] → e ∈ codes → o ∈ codes →
  FEATURE_CODE_ARGUMENT_MODE e.2 ≠ arg_none → startsWith o.1 e.1 = true → o.1 = e.1.
Proof.
  unfold collision_issues. intros Hnil He Ho Hm Hs. destruct (decide (o.1 = e.1)); [done|].
  exfalso. assert (PrefixCollision e.1 o.1 ∈ ([] : list FeatureCodeIssue)) as Hin;
    [|by apply elem_of_nil in Hin].
  rewrite <- Hnil. apply list_elem_of_join. eexists. split; [|by apply list_elem_of_fmap_2, He].
  simpl. destruct (FEATURE_CODE_ARGUMENT_MODE e.2); [done|..].
  all: apply list_elem_of_fmap; exists o; split; [done|]; by apply list_elem_of_filter.
Qed.

(** A catalogue without issues is unambiguous: when validation reports
    nothing, whatever is dialled, at most one code of the catalogue fits it, so the
    match does not depend on the order of the table. *)
Theorem featureCodeIssues_unambiguous (localeCompare : string → string → Z)
    (table : list CompiledFeatureCode) (dialed : string) (e1 e2 : CompiledFeatureCode) :
  featureCodeIssues localeCompare ((λ e, (fc_code e, fc_action e)) <$> table) = [] →
  Forall (λ e, fc_argumentMode e = FEATURE_CODE_ARGUMENT_MODE (fc_action e)) table →
  e1 ∈ table → e2 ∈ table → applies e1 dialed = true → applies e2 dialed = true → e1 = e2.
Proof.
  intros Hi Hmode H1 H2 A1 A2. unfold featureCodeIssues in Hi.
  set (codes := (λ e, (fc_code e, fc_action e)) <$> table) in *.
  apply app_eq_nil in Hi as [Hshape Hcoll].
  apply shape_issues_nil in Hshape as [Hnd _]. rewrite js_sort_Permutation in Hnd.
  assert (∀ e, e ∈ table → (fc_code e, fc_action e) ∈
    js_sort (λ l r, localeCompare l.1 r.1) codes) as Hin.
  { intros e He. apply elem_of_js_sort. unfold codes. by apply (list_elem_of_fmap_2 (λ e, (fc_code e, fc_action e))). }
  assert (NoDup (fc_code <$> table)) as Hnd'.
  { unfold codes in Hnd. rewrite <- list_fmap_compose in Hnd. exact Hnd. }
  rewrite Forall_forall in Hmode.
  assert (∀ e e', e ∈ table → e' ∈ table → startsWith (fc_code e') (fc_code e) = true →
    applies e dialed = true → applies e' dialed = true → e = e') as Hkey.
  { intros e e' He He' Hs Ha Ha'. apply (NoDup_fmap_inj_on fc_code table); auto.
    destruct (decide (fc_argumentMode e = arg_none)) as [Hn|Hn].
    - apply applies_spec in Ha as (arg & Hd & _ & Had), Ha' as (arg' & Hd' & _ & _).
      rewrite Hn in Had. simpl in Had. bool_simpl. subst arg. rewrite append_nil_r in Hd.
      apply startsWith_spec in Hs as [r Hr]. rewrite Hr, <- Hd, append_assoc in Hd'.
      symmetry in Hd'. apply append_eq_nil_r in Hd'. destruct r; [|done].
      by rewrite append_nil_r in Hr.
    - symmetry. rewrite (Hmode e He) in Hn.
      apply (collision_issues_nil _ (fc_code e, fc_action e) (fc_code e', fc_action e') Hcoll); auto. }
  pose proof A1 as (a1 & D1 & _)%applies_spec. pose proof A2 as (a2 & D2 & _)%applies_spec.
  destruct (startsWith_comparable dialed (fc_code e1) (fc_code e2)) as [Hs|Hs].
  - apply startsWith_spec. eauto.
  - apply startsWith_spec. eauto.
  - symmetry. by apply Hkey.
  - by apply Hkey.
Qed.

(** ** Witnesses: the default catalogue *)
Definition default_table : list CompiledFeatureCode :=
  js_sort (λ l r, Z.of_nat (String.length (fc_code r)) - Z.of_nat (String.length (fc_code l)))%Z
    ((λ s, {| fc_id := seed_code s; fc_code := seed_code s; fc_action := seed_action s;
              fc_argumentMode := FEATURE_CODE_ARGUMENT_MODE (seed_action s); fc_params := None;
              fc_label := Some (seed_label s); fc_nodeId := seed_code s |}) <$>
      DEFAULT_FEATURE_CODES).

Lemma default_table_longest_first : longest_first default_table.
Proof.
  assert (forallb (λ p : nat * nat, p.2 <=? p.1)
    (zip ((String.length ∘ fc_code) <$> default_table)
         (tail ((String.length ∘ fc_code) <$> default_table))) = true) as Hc
    by (vm_compute; reflexivity).
  unfold longest_first. apply Sorted_StronglySorted; [intros x y z; lia|].
  revert Hc. generalize default_table. intros l. induction l as [|x l IH]; [constructor|].
  destruct l as [|y l]; [repeat constructor|]. simpl. intros [Hxy Hl]%andb_true_iff.
  apply Nat.leb_le in Hxy. constructor; [by apply IH|by constructor].
Qed.

Lemma matchFeatureCode_longest_witness :
  ∃ m, matchFeatureCode default_table "*80200" = Some m ∧
       fc_action (featureCode m) = intercom ∧ fc_argument m = "200" ∧
       "*80200" = fc_code (featureCode m) +:+ fc_argument m.
Proof.
  pose proof (matchFeatureCode_longest default_table "*80200" default_table_longest_first) as H.
  destruct (matchFeatureCode default_table "*80200") as [m|] eqn:E; [|by vm_compute in E].
  exists m. split; [reflexivity|]. destruct H as (_ & Hd & _).
  split_and!; [| |exact Hd]; vm_compute in E; injection E as <-; reflexivity.
Defined.

Lemma featureCodeIssues_witness :
  featureCodeIssues (λ _ _, 0%Z) ((λ e, (fc_code e, fc_action e)) <$> default_table) = [] ∧
  ∀ e1 e2, e1 ∈ default_table → e2 ∈ default_table →
    applies e1 "*80200" = true → applies e2 "*80200" = true → e1 = e2.
Proof.
  assert (featureCodeIssues (λ _ _, 0%Z)
    ((λ e, (fc_code e, fc_action e)) <$> default_table) = []) as Hi by (vm_compute; reflexivity).
  split; [exact Hi|]. intros e1 e2 H1 H2 A1 A2.
  refine (featureCodeIssues_unambiguous (λ _ _, 0%Z) default_table "*80200" e1 e2 Hi _ H1 H2 A1 A2).
  apply Forall_forall. intros e He. unfold default_table in He. rewrite elem_of_js_sort in He.
  apply list_elem_of_fmap in He as (s & -> & _). reflexivity.
Defined.
End FeatureCodes.

(** ** Emergency numbers *)
Module Emergency.
Record EmergencyNumberSeed := { dialed : string; number : string }.

Definition DEFAULT_EMERGENCY_NUMBERS : list EmergencyNumberSeed :=
  [ {| dialed := "911"; number := "911" |};
    {| dialed := "933"; number := "933" |};
    {| dialed := "9911"; number := "911" |};
    {| dialed := "9933"; number := "933" |};
    {| dialed := "+1911"; number := "911" |} ].

Definition MAX_EMERGENCY_NUMBERS : nat := 32.

(** [/^\+?[0-9*#]{2,16}$/.test(value)] *)
Definition isEmergencyDialString (value : string) : bool :=
  let rest := if startsWith value "+" then sdrop 1 value else value in
  string_forallb (λ c, is_digit c || FeatureCodes.star_or_hash c) rest &&
  (2 <=? String.length rest) && (String.length rest <=? 16).

(** The comparator [left.dialed < right.dialed ? -1 : left.dialed > right.dialed ? 1 : 0]. *)
Definition compare_dialed (l r : EmergencyNumberSeed) : Z :=
  if String.ltb (dialed l) (dialed r) then -1
  else if String.ltb (dialed r) (dialed l) then 1 else 0.

(** The second loop; the [Map] is its values in insertion order. *)
Definition add_configured (byDialed : list EmergencyNumberSeed) (raw : string)
    : list EmergencyNumberSeed :=
  let d := trim raw in
  if negb (isEmergencyDialString d) || includes (dialed <$> byDialed) d then byDialed
  else byDialed ++ [ {| dialed := d; number := d |} ].

Definition emergencyNumbers (configured : option (list string)) : list EmergencyNumberSeed :=
  js_sort compare_dialed
    (foldl add_configured DEFAULT_EMERGENCY_NUMBERS
       (take MAX_EMERGENCY_NUMBERS (default [] configured))).

Definition invalidEmergencyNumbers (configured : option (list string)) : list string :=
  filter (λ raw, isEmergencyDialString (trim raw) = false) (default [] configured).

Definition EMERGENCY_CONTINUE_ON_CAUSES : list HangupCause :=
  [CALL_REJECTED; CHANNEL_UNACCEPTABLE; DESTINATION_OUT_OF_ORDER; EXCHANGE_ROUTING_ERROR;
   FACILITY_REJECTED; GATEWAY_DOWN; INCOMPATIBLE_DESTINATION; INVALID_GATEWAY;
   INVALID_NUMBER_FORMAT; MEDIA_TIMEOUT; NETWORK_OUT_OF_ORDER; NORMAL_CIRCUIT_CONGESTION;
   NORMAL_TEMPORARY_FAILURE; NORMAL_UNSPECIFIED; NO_ANSWER; NO_ROUTE_DESTINATION;
   NO_ROUTE_TRANSIT_NET; NO_USER_RESPONSE; OUTGOING_CALL_BARRED; PROGRESS_TIMEOUT;
   PROTOCOL_ERROR; RECOVERY_ON_TIMER_EXPIRE; REQUESTED_CHAN_UNAVAIL; SERVICE_UNAVAILABLE;
   SRTP_READ_ERROR; SWITCH_CONGESTION; UNALLOCATED_NUMBER; USER_BUSY; USER_NOT_REGISTERED].

Definition EMERGENCY_NODE_ID : string := "trunk-dial:emergency".
Definition EMERGENCY_ROUTE_ID : string := "emergency".

Lemma add_configured_spec l raw e :
  e ∈ add_configured l raw ↔
  e ∈ l ∨ (isEmergencyDialString (trim raw) = true ∧ (trim raw ∉ (dialed <$> l)) ∧
           e = {| dialed := trim raw; number := trim raw |}).
Proof.
  unfold add_configured. destruct (isEmergencyDialString (trim raw)); simpl; [|naive_solver].
  destruct (includes _ _) eqn:E; bool_simpl; [naive_solver|].
  rewrite elem_of_app, list_elem_of_singleton. naive_solver.
Qed.

Lemma add_configured_NoDup l raw :
  NoDup (dialed <$> l) → NoDup (dialed <$> add_configured l raw).
Proof.
  intros Hnd. unfold add_configured. destruct (negb _ || includes _ _) eqn:E; [done|].
  apply orb_false_iff in E as [_ E]. bool_simpl. rewrite fmap_app. apply NoDup_app.
  split_and!; [done| |apply NoDup_singleton].
  intros x Hx Hs%list_elem_of_singleton. simpl in Hs. congruence.
Qed.

(** The table after the configured numbers: an entry is one of the initial ones,
    or a valid configured number that dials itself. *)
Lemma foldl_configured l conf :
  NoDup (dialed <$> l) →
  let l' := foldl add_configured l conf in
  NoDup (dialed <$> l') ∧ (∀ e, e ∈ l → e ∈ l') ∧
  (∀ e, e ∈ l' → e ∈ l ∨ number e = dialed e ∧ isEmergencyDialString (dialed e) = true ∧
                         dialed e ∈ trim <$> conf) ∧
  (∀ raw, raw ∈ conf → isEmergencyDialString (trim raw) = true →
          ∃ e, e ∈ l' ∧ dialed e = trim raw).
Proof.
  revert l. induction conf as [|raw conf IH]; intros l Hnd; simpl.
  { split_and!; auto. intros raw Hr. by apply elem_of_nil in Hr. }
  destruct (IH (add_configured l raw) (add_configured_NoDup l raw Hnd)) as (H1 & H2 & H3 & H4).
  split_and!; auto.
  - intros e He. apply H2. apply add_configured_spec. auto.
  - intros e He. destruct (H3 e He) as [He'|(?&?&?)].
    + apply add_configured_spec in He' as [?|(?&?&->)]; [auto|right]. simpl.
      split_and!; auto. apply list_elem_of_here.
    + right. split_and!; auto. by apply list_elem_of_further.
  - intros r [->|Hr]%elem_of_cons Hv; [|eauto].
    destruct (decide (trim raw ∈ dialed <$> l)) as [Hin|Hin].
    + apply list_elem_of_fmap in Hin as (e & Heq & He). exists e. split; [|done].
      apply H2, add_configured_spec. auto.
    + eexists. split; [apply H2, add_configured_spec; right; by split_and!|done].
Qed.

Lemma defaults_NoDup : NoDup (dialed <$> DEFAULT_EMERGENCY_NUMBERS).
Proof. apply (bool_decide_unpack _). vm_compute. exact I. Qed.

Lemma emergencyNumbers_NoDup (configured : option (list string)) :
  NoDup (dialed <$> emergencyNumbers configured).
Proof. unfold emergencyNumbers. rewrite js_sort_Permutation. apply foldl_configured, defaults_NoDup. Qed.

(** No configuration can take an emergency number away: the table always
    contains the compiled-in numbers with the wire number they map to, each dialled
    string once, and otherwise exactly the organization's own well-formed numbers
    (up to the bound), each dialling itself. *)
Theorem emergencyNumbers_spec (configured : option (list string)) :
  let table := emergencyNumbers configured in
  NoDup (dialed <$> table) ∧
  (∀ e, e ∈ DEFAULT_EMERGENCY_NUMBERS → e ∈ table) ∧
  (∀ e, e ∈ table → e ∈ DEFAULT_EMERGENCY_NUMBERS ∨
     number e = dialed e ∧ isEmergencyDialString (dialed e) = true ∧
     dialed e ∈ trim <$> take MAX_EMERGENCY_NUMBERS (default [] configured)) ∧
  (∀ raw, raw ∈ take MAX_EMERGENCY_NUMBERS (default [] configured) →
     isEmergencyDialString (trim raw) = true → ∃ e, e ∈ table ∧ dialed e = trim raw).
Proof.
  intros table. split; [apply emergencyNumbers_NoDup|]. unfold table, emergencyNumbers.
  setoid_rewrite elem_of_js_sort. apply foldl_configured, defaults_NoDup.
Qed.

(** Failover of an emergency call is wider than that of an ordinary one, with one
    exception: a retryable cause stops an emergency call only when it is
    [INTERWORKING]. *)
Lemma emergency_continues_on_retryable (cause : HangupCause) :
  isRetryableCause cause = true → includes EMERGENCY_CONTINUE_ON_CAUSES cause = false →
  cause = INTERWORKING.
Proof. by destruct cause. Qed.

Lemma interworking_stops_emergency_only :
  isRetryableCause INTERWORKING = true ∧
  includes EMERGENCY_CONTINUE_ON_CAUSES INTERWORKING = false.
Proof. by split. Qed.
End Emergency.
