(* ===== verification/Plan.v ===== *)
(** * The execution plan

    [packages/routing/src/plan.ts] (the node table and its references) with the
    vocabularies of [packages/routing/src/snapshot.ts] it is written in. A
    [Record] keyed by strings is a finite map of its own properties. *)

From S2P Require Import Prelude HangupCauses Patterns FeatureCodes.

Module Plan.
Import FeatureCodes.

(** ** Vocabularies *)
Inductive TollClass : Set := toll_internal | toll_local | toll_national | toll_international | toll_premium.

#[global] Instance TollClass_eq_dec : EqDecision TollClass.
Proof. solve_decision. Defined.

Definition TOLL_CLASSES : list TollClass :=
  [toll_internal; toll_local; toll_national; toll_international; toll_premium].

Definition toll_class_name (c : TollClass) : string :=
  match c with
  | toll_internal => "internal"
  | toll_local => "local"
  | toll_national => "national"
  | toll_international => "international"
  | toll_premium => "premium"
  end.

Definition TOLL_CLASS_RANK (c : TollClass) : Z :=
  match c with
  | toll_internal => 0
  | toll_local => 1
  | toll_national => 2
  | toll_international => 3
  | toll_premium => 4
  end.

Definition tollClassCovers (holder required : TollClass) : bool :=
  (TOLL_CLASS_RANK required <=? TOLL_CLASS_RANK holder)%Z.

Inductive RecordPolicy : Set := rec_none | rec_inbound | rec_outbound | rec_all | rec_on_demand.
Inductive RingGroupStrategy : Set := simultaneous | sequential.
Inductive QueueStrategy : Set :=
| longest_idle | ring_all | round_robin | top_down | queue_sequential | random.
Inductive VoicemailGreetingKind : Set := greet_unavailable | greet_busy | greet_name | greet_temporary.
Inductive CallBlockDirection : Set := block_inbound | block_outbound | block_both.
Inductive CallBlockAction : Set := act_block | act_allow | act_reject | act_voicemail.
Inductive TrunkKind : Set := trunk_register | trunk_ip_auth.
Inductive SipTransport : Set := udp | tcp | tls | ws | wss.

#[global] Instance CallBlockDirection_eq_dec : EqDecision CallBlockDirection.
Proof. solve_decision. Defined.
#[global] Instance CallBlockAction_eq_dec : EqDecision CallBlockAction.
Proof. solve_decision. Defined.

Abbreviation PlanNodeId := string.

(** ** Nodes, one record per kind *)
Record FollowMeDestination := {
  hop_ordinal : Z;
  hop_destination : string;
  hop_delaySeconds : Z;
  hop_timeoutSeconds : Z;
  hop_confirmRequired : bool;
  hop_targetNodeId : option PlanNodeId;
  hop_dialedNumber : option string }.

Record FollowMePlan := {
  fm_strategy : RingGroupStrategy;
  fm_ignoreBusy : bool;
  fm_destinations : list FollowMeDestination }.

Record ExtensionPlanNode := {
  ext_extensionId : string;
  ext_number : string;
  ext_callerIdName : option string;
  ext_callerIdNumber : option string;
  ext_tollClass : TollClass;
  ext_recordPolicy : RecordPolicy;
  ext_timeoutSeconds : Z;
  ext_doNotDisturb : bool;
  ext_pickupGroup : option string;
  ext_mohClassId : option string;
  ext_mohClass : option string;
  ext_forwardAllNodeId : option PlanNodeId;
  ext_busyNodeId : option PlanNodeId;
  ext_noAnswerNodeId : option PlanNodeId;
  ext_notRegisteredNodeId : option PlanNodeId;
  ext_followMe : option FollowMePlan }.

Record RingGroupMember := {
  member_ordinal : Z;
  member_delaySeconds : Z;
  member_timeoutSeconds : Z;
  member_confirmRequired : bool;
  member_targetNodeId : PlanNodeId }.

Record RingGroupPlanNode := {
  rg_ringGroupId : string;
  rg_strategy : RingGroupStrategy;
  rg_ringTimeoutSeconds : Z;
  rg_ignoreBusy : bool;
  rg_confirmEnabled : bool;
  rg_confirmPromptId : option string;
  rg_callerIdNamePrefix : option string;
  rg_mohClassId : option string;
  rg_mohClass : option string;
  rg_ringbackPromptId : option string;
  rg_members : list RingGroupMember;
  rg_timeoutNodeId : option PlanNodeId }.

Record IvrOption := {
  option_ordinal : Z;
  option_pattern : Patterns.CompiledPattern;
  option_matchValue : string;
  option_label : option string;
  option_targetNodeId : PlanNodeId }.

Record IvrMenuPlanNode := {
  ivr_ivrMenuId : string;
  ivr_greetingPromptId : option string;
  ivr_shortGreetingPromptId : option string;
  ivr_invalidPromptId : option string;
  ivr_timeoutPromptId : option string;
  ivr_digitTimeoutMs : Z;
  ivr_interDigitTimeoutMs : Z;
  ivr_maxDigits : Z;
  ivr_maxFailures : Z;
  ivr_maxTimeouts : Z;
  ivr_directDialEnabled : bool;
  ivr_options : list IvrOption;
  ivr_timeoutNodeId : option PlanNodeId;
  ivr_invalidNodeId : option PlanNodeId }.

Record QueuePlanNode := {
  queue_queueId : string;
  queue_strategy : QueueStrategy;
  queue_mohClassId : option string;
  queue_mohClass : option string;
  queue_greetingPromptId : option string;
  queue_announcePromptId : option string;
  queue_maxWaitSeconds : Z;
  queue_maxWaitNoAgentSeconds : Z;
  queue_announcePositionEnabled : bool;
  queue_announceFrequencySeconds : Z;
  queue_recordEnabled : bool;
  queue_timeoutNodeId : option PlanNodeId }.

Inductive VoicemailMode : Set := vm_leave | vm_check.

Record VoicemailPlanNode := {
  vm_voicemailBoxId : string;
  vm_mailboxNumber : string;
  vm_mode : VoicemailMode;
  vm_maxMessageSeconds : Z;
  vm_mwiEnabled : bool;
  vm_greetingMedia : option string;
  vm_greetingKind : option VoicemailGreetingKind;
  vm_pinHash : option string }.

Record ConferencePlanNode := {
  conf_conferenceId : string;
  conf_roomNumber : string;
  conf_requiresPin : bool;
  conf_maxMembers : Z;
  conf_waitForModerator : bool;
  conf_recordEnabled : bool;
  conf_mohClassId : option string;
  conf_mohClass : option string;
  conf_pinHash : option string;
  conf_moderatorPinHash : option string;
  conf_requiresModeratorPin : option bool }.

Record ParkPlanNode := {
  park_parkLotId : string;
  park_slotStart : Z;
  park_slotEnd : Z;
  park_timeoutSeconds : Z;
  park_mohClassId : option string;
  park_mohClass : option string;
  park_timeoutNodeId : option PlanNodeId }.

Record ExternalPlanNode := {
  external_destination : string;
  external_viaOutboundRouting : bool;
  external_callerIdNumber : option string;
  external_callerIdName : option string }.

Record TrunkAttempt := {
  trunkId : string;
  trunk_name : string;
  trunk_kind : TrunkKind;
  trunk_sipDomain : string;
  trunk_sipProxy : string;
  trunk_outboundProxy : option string;
  trunk_transport : SipTransport;
  trunk_codecPrefs : option string;
  trunk_maxChannels : option Z;
  trunk_callerIdNumberOverride : option string;
  trunk_order : Z;
  trunk_weight : option Z }.

Record TrunkDialPlanNode := {
  td_outboundRouteId : string;
  td_tollClass : TollClass;
  td_attempts : list TrunkAttempt;
  td_continueOnCauses : list HangupCause;
  td_recordEnabled : bool;
  td_callerIdNumberOverride : option string;
  td_failoverNodeId : option PlanNodeId;
  td_emergency : option bool;
  td_emergencyAddressId : option string;
  td_elin : option string }.

Record ApplicationPlanNode := {
  app_application : string;
  app_args : option (gmap string ParamValue) }.

Record PlaybackPlanNode := {
  pb_promptId : option string;
  pb_media : option string;
  pb_thenNodeId : option PlanNodeId }.

Record FeatureCodePlanNode := {
  fcn_featureCodeId : string;
  fcn_code : string;
  fcn_action : FeatureCodeAction;
  fcn_params : option (gmap string ParamValue);
  fcn_targetNodeId : option PlanNodeId }.

Record TimeConditionPlanNode := {
  tc_timeConditionId : string;
  tc_matchNodeId : PlanNodeId;
  tc_noMatchNodeId : option PlanNodeId }.

Record HangupPlanNode := { hu_cause : HangupCause }.

Inductive PlanNodeBody : Type :=
| ExtensionNode (n : ExtensionPlanNode)
| RingGroupNode (n : RingGroupPlanNode)
| IvrMenuNode (n : IvrMenuPlanNode)
| QueueNode (n : QueuePlanNode)
| VoicemailNode (n : VoicemailPlanNode)
| ConferenceNode (n : ConferencePlanNode)
| ParkNode (n : ParkPlanNode)
| ExternalNode (n : ExternalPlanNode)
| TrunkDialNode (n : TrunkDialPlanNode)
| ApplicationNode (n : ApplicationPlanNode)
| PlaybackNode (n : PlaybackPlanNode)
| FeatureCodeNode (n : FeatureCodePlanNode)
| TimeConditionNode (n : TimeConditionPlanNode)
| HangupNode (n : HangupPlanNode).

(** [PlanNodeBase]: the id and label every kind carries. *)
Record PlanNode := { node_id : PlanNodeId; node_label : option string; node_body : PlanNodeBody }.

Abbreviation PlanNodeTable := (gmap PlanNodeId PlanNode).

Record ExecutionPlan := { entryNodeId : PlanNodeId; plan_nodes : PlanNodeTable }.

(** [values.filter((value) => value !== undefined)] *)
Definition compact {A} (values : list (option A)) : list A := omap id values.

Definition planNodeReferences (node : PlanNode) : list PlanNodeId :=
  match node_body node with
  | ExtensionNode n =>
      compact ([ext_forwardAllNodeId n; ext_busyNodeId n; ext_noAnswerNodeId n;
                ext_notRegisteredNodeId n] ++
               (hop_targetNodeId <$>
                  match ext_followMe n with Some fm => fm_destinations fm | None => [] end))
  | RingGroupNode n =>
      compact ((Some ∘ member_targetNodeId <$> rg_members n) ++ [rg_timeoutNodeId n])
  | IvrMenuNode n =>
      compact ((Some ∘ option_targetNodeId <$> ivr_options n) ++
               [ivr_timeoutNodeId n; ivr_invalidNodeId n])
  | QueueNode n => compact [queue_timeoutNodeId n]
  | ParkNode n => compact [park_timeoutNodeId n]
  | TrunkDialNode n => compact [td_failoverNodeId n]
  | PlaybackNode n => compact [pb_thenNodeId n]
  | FeatureCodeNode n => compact [fcn_targetNodeId n]
  | TimeConditionNode n => compact [Some (tc_matchNodeId n); tc_noMatchNodeId n]
  | _ => []
  end.

(** The loop of [reachableNodeIds]. [seen] is the set in insertion order and
    [pending] the stack with its top first: [push(...refs)] puts the last reference
    on top. *)
Fixpoint reachable_loop (fuel : nat) (nodes : PlanNodeTable) (seen pending : list PlanNodeId)
    : option (list PlanNodeId) :=
  match fuel with
  | O => None
  | S fuel =>
      match pending with
      | [] => Some seen
      | id :: pending =>
          if includes seen id then reachable_loop fuel nodes seen pending
          else
            match nodes !! id with
            | None => reachable_loop fuel nodes (seen ++ [id]) pending
            | Some node =>
                reachable_loop fuel nodes (seen ++ [id])
                  (reverse (planNodeReferences node) ++ pending)
            end
      end
  end.

(** The references of a table: every iteration but the last pops one entry, and
    entries are pushed once per node. *)
Definition reference_count (nodes : PlanNodeTable) : nat :=
  sum_list ((λ kv : PlanNodeId * PlanNode, length (planNodeReferences kv.2)) <$> map_to_list nodes).

Definition reachableNodeIds (nodes : PlanNodeTable) (entry : PlanNodeId) : option (list PlanNodeId) :=
  reachable_loop (2 + reference_count nodes) nodes [] [entry].

(** ** Reachability *)
Section Reachability.
Context (nodes : PlanNodeTable).
Implicit Types (seen pending : list PlanNodeId).

(** One branch of the plan. *)
Definition branch (x y : PlanNodeId) : Prop :=
  ∃ node, nodes !! x = Some node ∧ y ∈ planNodeReferences node.

(** What is left to push: the references of the nodes not yet seen. *)
Definition unseen_weight seen (kv : PlanNodeId * PlanNode) : nat :=
  if includes seen kv.1 then 0 else length (planNodeReferences kv.2).

Definition unseen_count seen (l : list (PlanNodeId * PlanNode)) : nat :=
  sum_list (unseen_weight seen <$> l).

Lemma unseen_count_miss seen id l :
  id ∉ l.*1 → unseen_count (seen ++ [id]) l = unseen_count seen l.
Proof.
  intros Hid. unfold unseen_count. f_equal. apply list_fmap_ext. intros i kv Hkv.
  unfold unseen_weight. assert (kv.1 ≠ id) as Hne.
  { intros <-. apply Hid, list_elem_of_fmap_2. by eapply list_elem_of_lookup_2. }
  destruct (includes seen kv.1) eqn:E, (includes (seen ++ [id]) kv.1) eqn:E'; try done; bool_simpl.
  - rewrite elem_of_app in E'. tauto.
  - rewrite elem_of_app, list_elem_of_singleton in E'. tauto.
Qed.

Lemma unseen_count_hit seen id node l :
  NoDup (l.*1) → (id, node) ∈ l → id ∉ seen →
  unseen_count seen l = length (planNodeReferences node) + unseen_count (seen ++ [id]) l.
Proof.
  intros Hnd Hin Hns. apply list_elem_of_split in Hin as (l1 & l2 & ->).
  rewrite fmap_app in Hnd. simpl in Hnd. apply NoDup_app in Hnd as (Hnd1 & Hd & Hnd2).
  apply NoDup_cons in Hnd2 as [Hn2 _].
  assert (id ∉ l1.*1) as Hn1.
  { intros H1. destruct (Hd _ H1). apply list_elem_of_here. }
  unfold unseen_count. rewrite !fmap_app.
  assert (∀ a b : list nat, sum_list (a ++ b) = sum_list a + sum_list b) as Hsum.
  { intros a b. induction a; simpl; lia. }
  rewrite !Hsum, !fmap_cons. cbn [sum_list sum_list_with].
  pose proof (unseen_count_miss seen id l1 Hn1) as E1.
  pose proof (unseen_count_miss seen id l2 Hn2) as E2. unfold unseen_count in E1, E2.
  assert (unseen_weight seen (id, node) = length (planNodeReferences node)) as ->.
  { unfold unseen_weight. simpl. by rewrite (proj2 (includes_false _ _) Hns). }
  assert (unseen_weight (seen ++ [id]) (id, node) = 0) as ->.
  { unfold unseen_weight. simpl. rewrite (proj2 (includes_spec _ _)); [done|].
    apply elem_of_app. right. apply list_elem_of_here. }
  rewrite E1, E2. unfold Datatypes.id. lia.
Qed.

Record reach_inv (entry : PlanNodeId) seen pending : Prop := {
  ri_nodup : NoDup seen;
  ri_sound : ∀ x, x ∈ seen ∨ x ∈ pending → rtc branch entry x;
  ri_entry : entry ∈ seen ∨ entry ∈ pending;
  ri_closed : ∀ x y, x ∈ seen → branch x y → y ∈ seen ∨ y ∈ pending }.

Lemma reach_inv_skip entry seen pending id :
  id ∈ seen → reach_inv entry seen (id :: pending) → reach_inv entry seen pending.
Proof.
  intros Hid [H1 H2 H3 H4]. setoid_rewrite elem_of_cons in H2. setoid_rewrite elem_of_cons in H3.
  setoid_rewrite elem_of_cons in H4. split; auto.
  - naive_solver.
  - destruct H3 as [?|[ -> |?]]; auto.
  - intros x y Hx Hb. destruct (H4 x y Hx Hb) as [?|[ -> |?]]; auto.
Qed.

Lemma reach_inv_visit entry seen pending id refs :
  id ∉ seen → (∀ y, branch id y ↔ y ∈ refs) →
  reach_inv entry seen (id :: pending) → reach_inv entry (seen ++ [id]) (refs ++ pending).
Proof.
  intros Hid Hrefs [H1 H2 H3 H4]. setoid_rewrite elem_of_cons in H2.
  setoid_rewrite elem_of_cons in H3. setoid_rewrite elem_of_cons in H4.
  split; repeat setoid_rewrite elem_of_app; repeat setoid_rewrite list_elem_of_singleton.
  - apply NoDup_app. split_and!; [done| |apply NoDup_singleton].
    intros x Hx ->%list_elem_of_singleton. done.
  - intros x [[Hx|Hx]|[Hx|Hx]]; auto.
    eapply rtc_r; [apply H2; right; left; reflexivity|]. by apply Hrefs.
  - destruct H3 as [?|[ -> |?]]; auto.
  - intros x y [Hx| ->] Hb.
    + destruct (H4 x y Hx Hb) as [?|[ -> |?]]; auto.
    + apply Hrefs in Hb. auto.
Qed.

Lemma reachable_loop_spec entry fuel seen pending :
  length pending + unseen_count seen (map_to_list nodes) < fuel →
  reach_inv entry seen pending →
  ∃ ids, reachable_loop fuel nodes seen pending = Some ids ∧ reach_inv entry ids [].
Proof.
  revert seen pending. induction fuel as [|fuel IH]; intros seen pending Hfuel Hi; [lia|].
  cbn [reachable_loop]. destruct pending as [|id pending]; [eauto|]. simpl in Hfuel.
  destruct (includes seen id) eqn:Hs; bool_simpl.
  { apply IH; [lia|by eapply reach_inv_skip]. }
  destruct (nodes !! id) as [node|] eqn:Hn.
  - apply IH.
    + rewrite length_app, length_reverse.
      rewrite (unseen_count_hit seen id node) in Hfuel;
        [lia|apply NoDup_fst_map_to_list|by apply elem_of_map_to_list|done].
    + apply reach_inv_visit; [done| |done]. intros y. unfold branch. rewrite Hn.
      rewrite elem_of_reverse. naive_solver.
  - apply IH.
    + rewrite unseen_count_miss; [lia|]. intros Hin.
      apply list_elem_of_fmap in Hin as ([id' node] & -> & Hin).
      apply elem_of_map_to_list in Hin. simpl in Hn. congruence.
    + apply (reach_inv_visit entry seen pending id []); [done| |done].
      intros y. unfold branch. rewrite Hn. split; [naive_solver|]. intros H. by apply elem_of_nil in H.
Qed.

(** The reachability walk terminates on every table, cyclic ones included,
    and returns, without repetition, exactly the node ids that some chain of
    branches leads to from the entry. *)
Theorem reachableNodeIds_spec (entry : PlanNodeId) :
  ∃ ids, reachableNodeIds nodes entry = Some ids ∧ NoDup ids ∧
         ∀ id, id ∈ ids ↔ rtc branch entry id.
Proof.
  destruct (reachable_loop_spec entry (2 + reference_count nodes) [] [entry])
    as (ids & Hr & [H1 H2 H3 H4]).
  - assert (unseen_count [] (map_to_list nodes) = reference_count nodes) as ->; [|simpl; lia].
    unfold unseen_count, reference_count. f_equal.
  - split; [constructor|..].
    + intros x [Hx|Hx]; [by apply elem_of_nil in Hx|].
      apply list_elem_of_singleton in Hx as ->. constructor.
    + right. apply list_elem_of_here.
    + intros x y Hx. by apply elem_of_nil in Hx.
  - exists ids. split_and!; [done|done|]. intros id. split; [by intros Hid; apply H2; left|].
    assert (entry ∈ ids) as He by (destruct H3 as [?|H3]; [done|by apply elem_of_nil in H3]).
    intros Hr'. clear Hr H2 H3. induction Hr' as [|x y z Hxy _ IH]; [done|].
    apply IH. destruct (H4 x y He Hxy) as [?|Hy]; [done|]. by apply elem_of_nil in Hy.
Qed.
End Reachability.
End Plan.
