(* ===== verification/Snapshot.v ===== *)
(** * The configuration a plan is compiled from

    [packages/routing/src/snapshot.ts] (the rows of one organization) and
    [packages/routing/src/destinations.ts] (the trio of columns that points at
    something). A column declared [?: T | null] is a [nullable]: the two absences
    are told apart because the canonical form of a snapshot tells them apart. A
    destination type is the stored string, since the compiler checks it. *)

From stdpp Require Import pretty.
From Stdlib Require Export Qcanon.
From S2P Require Import Prelude Patterns TimeConditions FeatureCodes Plan.

Module Snapshot.
Import FeatureCodes Plan.

(** ** Absent values *)
Inductive nullable (A : Type) : Type := Undefined | Null | Value (a : A).
Arguments Undefined {A}.
Arguments Null {A}.
Arguments Value {A} _.

(** [value ?? undefined] *)
Definition opt {A} (x : nullable A) : option A :=
  match x with Value a => Some a | _ => None end.

(** ** Destinations *)
Inductive DestinationType : Set :=
| dest_extension | dest_ivr | dest_ring_group | dest_queue | dest_voicemail | dest_conference
| dest_park | dest_time_condition | dest_external | dest_application | dest_hangup.

#[global] Instance DestinationType_eq_dec : EqDecision DestinationType.
Proof. solve_decision. Defined.

Definition DESTINATION_TYPES : list DestinationType :=
  [dest_extension; dest_ivr; dest_ring_group; dest_queue; dest_voicemail; dest_conference;
   dest_park; dest_time_condition; dest_external; dest_application; dest_hangup].

Definition destination_type_name (t : DestinationType) : string :=
  match t with
  | dest_extension => "extension"
  | dest_ivr => "ivr"
  | dest_ring_group => "ring-group"
  | dest_queue => "queue"
  | dest_voicemail => "voicemail"
  | dest_conference => "conference"
  | dest_park => "park"
  | dest_time_condition => "time-condition"
  | dest_external => "external"
  | dest_application => "application"
  | dest_hangup => "hangup"
  end.

(** [isDestinationType(value)], with the type it narrows to. *)
Definition isDestinationType (value : string) : option DestinationType :=
  find_first (λ t, bool_decide (destination_type_name t = value)) DESTINATION_TYPES.

Inductive DestinationKind : Set := kind_entity | kind_value | kind_terminal.

Definition DESTINATION_TYPE_KINDS (t : DestinationType) : DestinationKind :=
  match t with
  | dest_external | dest_application => kind_value
  | dest_hangup => kind_terminal
  | _ => kind_entity
  end.

Definition destinationKind (t : DestinationType) : DestinationKind := DESTINATION_TYPE_KINDS t.

Definition isEntityDestination (t : DestinationType) : bool :=
  match DESTINATION_TYPE_KINDS t with kind_entity => true | _ => false end.

Definition DESTINATION_TARGET_COLLECTIONS (t : DestinationType) : option string :=
  match t with
  | dest_extension => Some "extensions"
  | dest_ivr => Some "ivrMenus"
  | dest_ring_group => Some "ringGroups"
  | dest_queue => Some "queues"
  | dest_voicemail => Some "voicemailBoxes"
  | dest_conference => Some "conferences"
  | dest_park => Some "parkLots"
  | dest_time_condition => Some "timeConditions"
  | _ => None
  end.

Definition destinationTargetCollection (t : DestinationType) : option string :=
  DESTINATION_TARGET_COLLECTIONS t.

Record DestinationData := {
  data_value : option string;
  data_args : option (gmap string ParamValue);
  data_cause : option string }.

Record Destination := {
  destinationType : string;
  destinationRef : nullable string;
  destinationData : nullable DestinationData }.

Inductive DestinationShapeIssue : Set :=
| unknown_type | missing_ref | unexpected_ref | missing_value.

Definition destinationShapeIssues (d : Destination) : list DestinationShapeIssue :=
  match isDestinationType (destinationType d) with
  | None => [unknown_type]
  | Some t =>
      let ref := opt (destinationRef d) in
      let data := opt (destinationData d) in
      match destinationKind t with
      | kind_entity =>
          match ref with
          | None => [missing_ref]
          | Some r => if String.length r =? 0 then [missing_ref] else []
          end
      | kind_value =>
          (match ref with Some _ => [unexpected_ref] | None => [] end) ++
          match data ≫= data_value with
          | None => [missing_value]
          | Some v => if String.length (trim v) =? 0 then [missing_value] else []
          end
      | kind_terminal => match ref with Some _ => [unexpected_ref] | None => [] end
      end
  end.

(** The default order of [Array.prototype.sort] on strings. *)
Definition compare_strings (l r : string) : Z :=
  if String.ltb l r then -1 else if String.ltb r l then 1 else 0.

Definition sort_strings (l : list string) : list string := js_sort compare_strings l.

(** [parts.join(separator)] *)
Fixpoint join_strings (separator : string) (parts : list string) : string :=
  match parts with
  | [] => ""
  | [p] => p
  | p :: rest => p +:+ separator +:+ join_strings separator rest
  end.

(** [String(value)] of a parameter. *)
Definition param_string (v : ParamValue) : string :=
  match v with
  | ParamString s => s
  | ParamNumber n => pretty n
  | ParamBool b => if b then "true" else "false"
  end.

(** The suffix [|key=value,...] that folds the arguments into a key. *)
Definition args_key (args : option (gmap string ParamValue)) : string :=
  match args with
  | None => ""
  | Some args =>
      "|" +:+ join_strings ","
        ((λ key, key +:+ "=" +:+ default "undefined" (param_string <$> args !! key)) <$>
           sort_strings (map_to_list args).*1)
  end.

Definition destinationKey (d : Destination) : string :=
  let name := destinationType d in
  let kind := match isDestinationType name with
              | Some t => destinationKind t
              | None => kind_terminal
              end in
  match kind with
  | kind_entity => name +:+ ":" +:+ default "" (opt (destinationRef d))
  | kind_value =>
      name +:+ ":" +:+ default "" (opt (destinationData d) ≫= data_value) +:+
      args_key (opt (destinationData d) ≫= data_args)
  | kind_terminal => name +:+ ":" +:+ default "" (opt (destinationData d) ≫= data_cause)
  end.

(** ** Rows *)
Inductive IvrOptionMatchKind : Set := ivr_digit | ivr_regex.

Record FollowMeTargetInput := {
  fmt_destination : option string;
  (* [None]: absent or not a finite number *)
  fmt_delaySeconds : option Qc;
  fmt_timeoutSeconds : option Qc;
  fmt_confirm : option bool }.

Record FollowMeInput := {
  fmi_enabled : bool;
  fmi_ignoreBusy : option bool;
  fmi_targets : option (list FollowMeTargetInput) }.

Record ExtensionInput := {
  exi_id : string;
  exi_enabled : bool;
  exi_number : string;
  exi_label : string;
  exi_callerIdName : nullable string;
  exi_callerIdNumber : nullable string;
  exi_outboundCallerIdName : nullable string;
  exi_outboundCallerIdNumber : nullable string;
  exi_emergencyCallerIdNumber : nullable string;
  exi_voicemailEnabled : bool;
  exi_doNotDisturb : bool;
  exi_forwardAllEnabled : bool;
  exi_forwardAllDestination : nullable string;
  exi_forwardBusyEnabled : bool;
  exi_forwardBusyDestination : nullable string;
  exi_forwardNoAnswerEnabled : bool;
  exi_forwardNoAnswerDestination : nullable string;
  exi_forwardUnregisteredEnabled : bool;
  exi_forwardUnregisteredDestination : nullable string;
  exi_followMe : nullable FollowMeInput;
  exi_pickupGroup : nullable string;
  exi_recordPolicy : RecordPolicy;
  exi_mohClassId : nullable string;
  exi_tollClass : TollClass;
  exi_callTimeoutSeconds : Z }.

Record PhoneNumberInput := {
  pni_id : string;
  pni_enabled : bool;
  pni_destination : Destination;
  pni_e164 : string;
  pni_label : nullable string;
  pni_callerIdNamePrefix : nullable string;
  pni_recordEnabled : bool;
  pni_voiceEnabled : bool;
  pni_emergencyAddressId : nullable string }.

Record TrunkInput := {
  tki_id : string;
  tki_enabled : bool;
  tki_name : string;
  tki_kind : TrunkKind;
  tki_sipDomain : string;
  tki_sipProxy : string;
  tki_outboundProxy : nullable string;
  tki_transport : SipTransport;
  tki_codecPrefs : nullable string;
  tki_maxChannels : nullable Z;
  tki_callerIdNumberOverride : nullable string }.

Record TrunkPriorityInput := {
  tpi_trunkId : string;
  tpi_order : Z;
  tpi_weight : option Z }.

(** The optional trio [<prefix>DestinationType], [Ref], [Data] of a row. *)
Record NamedDestination := {
  named_type : nullable string;
  named_ref : nullable string;
  named_data : nullable DestinationData }.

Record InboundRouteInput := {
  iri_id : string;
  iri_enabled : bool;
  iri_destination : Destination;
  iri_name : string;
  iri_priority : Z;
  iri_matchKind : Patterns.RouteMatchKind;
  iri_matchPattern : nullable string;
  iri_phoneNumberId : nullable string;
  iri_callerIdPattern : nullable string;
  iri_failover : NamedDestination;
  iri_timeConditionId : nullable string;
  iri_recordEnabled : bool }.

Record OutboundRouteInput := {
  ori_id : string;
  ori_enabled : bool;
  ori_name : string;
  ori_priority : Z;
  ori_matchKind : Patterns.RouteMatchKind;
  ori_dialPatterns : list string;
  ori_stripDigits : Z;
  ori_prependDigits : nullable string;
  ori_tollClass : TollClass;
  ori_trunkPriority : list TrunkPriorityInput;
  ori_timeConditionId : nullable string;
  ori_failover : NamedDestination;
  ori_callerIdNumberOverride : nullable string;
  ori_recordEnabled : bool }.

Record TimeConditionInput := {
  tci_id : string;
  tci_enabled : bool;
  tci_destination : Destination;
  tci_name : string;
  tci_timezone : string;
  tci_nomatch : NamedDestination }.

Record TimeConditionRuleInput := {
  tri_id : string;
  tri_enabled : bool;
  tri_timeConditionId : string;
  tri_ordinal : Z;
  tri_label : nullable string;
  tri_predicates : list TimeConditions.TimePredicate }.

Record IvrMenuInput := {
  ivi_id : string;
  ivi_enabled : bool;
  ivi_name : string;
  ivi_extensionNumber : nullable string;
  ivi_parentId : nullable string;
  ivi_greetingPromptId : nullable string;
  ivi_shortGreetingPromptId : nullable string;
  ivi_invalidPromptId : nullable string;
  ivi_timeoutPromptId : nullable string;
  ivi_digitTimeoutMs : Z;
  ivi_interDigitTimeoutMs : Z;
  ivi_maxDigits : Z;
  ivi_maxFailures : Z;
  ivi_maxTimeouts : Z;
  ivi_directDialEnabled : bool;
  ivi_timeout : NamedDestination;
  ivi_invalid : NamedDestination }.

Record IvrMenuOptionInput := {
  ivo_id : string;
  ivo_enabled : bool;
  ivo_destination : Destination;
  ivo_ivrMenuId : string;
  ivo_ordinal : Z;
  ivo_matchKind : IvrOptionMatchKind;
  ivo_matchValue : string;
  ivo_label : nullable string }.

Record RingGroupInput := {
  rgi_id : string;
  rgi_enabled : bool;
  rgi_name : string;
  rgi_extensionNumber : nullable string;
  rgi_strategy : RingGroupStrategy;
  rgi_ringTimeoutSeconds : Z;
  rgi_callerIdNamePrefix : nullable string;
  rgi_ignoreBusy : bool;
  rgi_confirmEnabled : bool;
  rgi_confirmPromptId : nullable string;
  rgi_mohClassId : nullable string;
  rgi_ringbackPromptId : nullable string;
  rgi_timeout : NamedDestination }.

Record RingGroupDestinationInput := {
  rgd_id : string;
  rgd_enabled : bool;
  rgd_destination : Destination;
  rgd_ringGroupId : string;
  rgd_ordinal : Z;
  rgd_delaySeconds : Z;
  rgd_timeoutSeconds : Z;
  rgd_confirmRequired : bool }.

Record QueueInput := {
  qui_id : string;
  qui_enabled : bool;
  qui_name : string;
  qui_extensionNumber : nullable string;
  qui_strategy : QueueStrategy;
  qui_mohClassId : nullable string;
  qui_greetingPromptId : nullable string;
  qui_announcePromptId : nullable string;
  qui_maxWaitSeconds : Z;
  qui_maxWaitNoAgentSeconds : Z;
  qui_announcePositionEnabled : bool;
  qui_announceFrequencySeconds : Z;
  qui_recordEnabled : bool;
  qui_timeout : NamedDestination }.

Record VoicemailBoxInput := {
  vbi_id : string;
  vbi_enabled : bool;
  vbi_mailboxNumber : string;
  vbi_label : nullable string;
  vbi_extensionId : nullable string;
  vbi_mwiEnabled : bool;
  vbi_maxMessageSeconds : Z;
  vbi_pinHash : nullable string }.

Record VoicemailGreetingInput := {
  vgi_id : string;
  vgi_voicemailBoxId : string;
  vgi_kind : VoicemailGreetingKind;
  vgi_objectKey : string;
  vgi_active : bool;
  vgi_durationMs : nullable Z;
  vgi_label : nullable string }.

Record MohClassInput := { mci_id : string; mci_enabled : bool; mci_name : string }.

Record ConferenceInput := {
  cfi_id : string;
  cfi_enabled : bool;
  cfi_name : string;
  cfi_roomNumber : string;
  cfi_requiresPin : bool;
  cfi_maxMembers : Z;
  cfi_mohClassId : nullable string;
  cfi_waitForModerator : bool;
  cfi_recordEnabled : bool;
  cfi_pinHash : nullable string;
  cfi_moderatorPinHash : nullable string;
  cfi_requiresModeratorPin : option bool }.

Record EmergencyAddressInput := { eai_id : string; eai_label : string; eai_validated : bool }.

Record ParkLotInput := {
  pli_id : string;
  pli_enabled : bool;
  pli_name : string;
  pli_slotStart : Z;
  pli_slotEnd : Z;
  pli_timeoutSeconds : Z;
  pli_mohClassId : nullable string;
  pli_timeout : NamedDestination }.

Record FeatureCodeInput := {
  fci_id : string;
  fci_enabled : bool;
  fci_code : string;
  fci_action : FeatureCodeAction;
  fci_params : nullable (gmap string ParamValue);
  fci_label : nullable string }.

(** [CallBlockMatchKind] is a subset of [RouteMatchKind]. *)
Inductive CallBlockMatchKind : Set := block_exact | block_prefix | block_regex.

Record CallBlockRuleInput := {
  cbi_id : string;
  cbi_enabled : bool;
  cbi_pattern : string;
  cbi_matchKind : CallBlockMatchKind;
  cbi_direction : CallBlockDirection;
  cbi_action : CallBlockAction;
  cbi_label : nullable string }.

Record RoutingSettingsInput := {
  rsi_defaultTimezone : option string;
  rsi_voicemailPrefix : nullable string;
  rsi_voicemailCheckPrefix : nullable string;
  rsi_outboundCallerIdNumber : nullable string;
  rsi_outboundCallerIdName : nullable string;
  rsi_trunkContinueOnCauses : option (list string);
  rsi_outboundEnabled : option bool;
  rsi_emergencyNumbers : option (list string) }.

Record OrgRoutingSnapshot := {
  organizationId : string;
  snap_settings : option RoutingSettingsInput;
  extensions : list ExtensionInput;
  phoneNumbers : list PhoneNumberInput;
  trunks : list TrunkInput;
  inboundRoutes : list InboundRouteInput;
  outboundRoutes : list OutboundRouteInput;
  snap_timeConditions : list TimeConditionInput;
  timeConditionRules : list TimeConditionRuleInput;
  ivrMenus : list IvrMenuInput;
  ivrMenuOptions : list IvrMenuOptionInput;
  ringGroups : list RingGroupInput;
  ringGroupDestinations : list RingGroupDestinationInput;
  queues : list QueueInput;
  voicemailBoxes : list VoicemailBoxInput;
  voicemailGreetings : option (list VoicemailGreetingInput);
  mohClasses : option (list MohClassInput);
  conferences : list ConferenceInput;
  parkLots : list ParkLotInput;
  snap_featureCodes : list FeatureCodeInput;
  callBlockRules : list CallBlockRuleInput;
  emergencyAddresses : option (list EmergencyAddressInput) }.

Definition emptySnapshot (org : string) : OrgRoutingSnapshot :=
  {| organizationId := org; snap_settings := None; extensions := []; phoneNumbers := [];
     trunks := []; inboundRoutes := []; outboundRoutes := []; snap_timeConditions := [];
     timeConditionRules := []; ivrMenus := []; ivrMenuOptions := []; ringGroups := [];
     ringGroupDestinations := []; queues := []; voicemailBoxes := [];
     voicemailGreetings := Some []; mohClasses := Some []; conferences := []; parkLots := [];
     snap_featureCodes := []; callBlockRules := []; emergencyAddresses := Some [] |}.

Definition VOICEMAIL_LEAVE_GREETING_PRECEDENCE : list VoicemailGreetingKind :=
  [greet_temporary; greet_unavailable].

(** ** The strings behind the enumerations *)
Definition greeting_kind_name (k : VoicemailGreetingKind) : string :=
  match k with
  | greet_unavailable => "unavailable"
  | greet_busy => "busy"
  | greet_name => "name"
  | greet_temporary => "temporary"
  end.

Definition record_policy_name (p : RecordPolicy) : string :=
  match p with
  | rec_none => "none"
  | rec_inbound => "inbound"
  | rec_outbound => "outbound"
  | rec_all => "all"
  | rec_on_demand => "on-demand"
  end.

Definition match_kind_name (k : Patterns.RouteMatchKind) : string :=
  match k with
  | Patterns.match_exact => "exact"
  | Patterns.match_prefix => "prefix"
  | Patterns.match_regex => "regex"
  | Patterns.match_any => "any"
  end.

Definition ring_strategy_name (s : RingGroupStrategy) : string :=
  match s with simultaneous => "simultaneous" | sequential => "sequential" end.

Definition queue_strategy_name (s : QueueStrategy) : string :=
  match s with
  | longest_idle => "longest-idle"
  | ring_all => "ring-all"
  | round_robin => "round-robin"
  | top_down => "top-down"
  | queue_sequential => "sequential"
  | random => "random"
  end.

Definition option_kind_name (k : IvrOptionMatchKind) : string :=
  match k with ivr_digit => "digit" | ivr_regex => "regex" end.

Definition block_kind_name (k : CallBlockMatchKind) : string :=
  match k with block_exact => "exact" | block_prefix => "prefix" | block_regex => "regex" end.

Definition block_direction_name (d : CallBlockDirection) : string :=
  match d with block_inbound => "inbound" | block_outbound => "outbound" | block_both => "both" end.

Definition block_action_name (a : CallBlockAction) : string :=
  match a with
  | act_block => "block"
  | act_allow => "allow"
  | act_reject => "reject"
  | act_voicemail => "voicemail"
  end.

Definition trunk_kind_name (k : TrunkKind) : string :=
  match k with trunk_register => "register" | trunk_ip_auth => "ip-auth" end.

Definition transport_name (t : SipTransport) : string :=
  match t with udp => "udp" | tcp => "tcp" | tls => "tls" | ws => "ws" | wss => "wss" end.

Definition feature_action_name (a : FeatureCodeAction) : string :=
  match a with
  | voicemail_check => "voicemail-check"
  | voicemail_direct => "voicemail-direct"
  | voicemail_record_greeting => "voicemail-record-greeting"
  | call_park => "call-park"
  | call_pickup => "call-pickup"
  | group_pickup => "group-pickup"
  | call_forward_all => "call-forward-all"
  | call_forward_busy => "call-forward-busy"
  | call_forward_no_answer => "call-forward-no-answer"
  | do_not_disturb => "do-not-disturb"
  | follow_me => "follow-me"
  | intercom => "intercom"
  | paging => "paging"
  | record_toggle => "record-toggle"
  | redial => "redial"
  | echo_test => "echo-test"
  | queue_toggle => "queue-toggle"
  | agent_status => "agent-status"
  | eavesdrop => "eavesdrop"
  | transfer => "transfer"
  end.

(** ** Sorting by a key

    Rows with different keys sort to one list, whatever order they came in. *)
Lemma compare_strings_le l r : (compare_strings l r <= 0)%Z ↔ String.ltb l r = true ∨ l = r.
Proof.
  unfold compare_strings. destruct (String.ltb l r) eqn:E; [split; [auto|lia]|].
  destruct (decide (l = r)) as [->|Hne]; [rewrite E; split; [auto|lia]|].
  rewrite (ltb_total _ _ Hne E). split; [lia|]. intros [?|?]; congruence.
Qed.

Section SortByKey.
Context {A : Type} (key : A → string).

Definition by_key (l r : A) : Z := compare_strings (key l) (key r).

Lemma sort_by_key_perm (l1 l2 : list A) :
  NoDup (key <$> l1) → l1 ≡ₚ l2 → js_sort by_key l1 = js_sort by_key l2.
Proof.
  intros Hnd Hp. set (R := λ a b, String.ltb (key a) (key b) = true).
  assert (∀ a b, a ∈ l1 → b ∈ l1 → key a = key b → a = b) as Hinj.
  { clear Hp. induction l1 as [|x l IH]; intros a b Ha Hb Hk; [by apply elem_of_nil in Ha|].
    apply NoDup_cons in Hnd as [Hx Hnd]. apply elem_of_cons in Ha as [->|Ha], Hb as [->|Hb]; auto.
    - destruct Hx. rewrite Hk. by apply list_elem_of_fmap_2.
    - destruct Hx. rewrite <- Hk. by apply list_elem_of_fmap_2. }
  assert (Transitive R) as Htr by (intros a b c; apply ltb_trans).
  apply (js_sort_by_unique R); [by eapply NoDup_fmap_1| | |done].
  - intros a b Ha Hb Hne. unfold by_key, R. split.
    + intros [?|Heq]%compare_strings_le; [done|]. by destruct Hne; apply Hinj.
    + intros Hgt. destruct (String.ltb (key b) (key a)) eqn:E; [done|]. exfalso.
      assert (compare_strings (key a) (key b) <= 0)%Z; [|lia]. apply compare_strings_le. left.
      apply ltb_total; [|done]. intros Heq. by apply Hne, Hinj.
  - intros a b _ _ H1 H2. pose proof (ltb_trans _ _ _ H1 H2) as H. by rewrite ltb_irrefl in H.
Qed.
End SortByKey.

Lemma sort_strings_sorted (l : list string) :
  NoDup l → StronglySorted (λ a b, String.ltb a b = true) (sort_strings l).
Proof.
  intros Hnd. assert (Transitive (λ a b, String.ltb a b = true)) as Htr by (intros a b c; apply ltb_trans).
  apply (js_sort_by _); [done|]. intros a b _ _ Hne. split.
  - intros [?| ->]%compare_strings_le; done.
  - intros Hgt. destruct (String.ltb b a) eqn:E; [done|]. exfalso.
    assert (compare_strings a b <= 0)%Z; [|lia]. apply compare_strings_le. left.
    by apply ltb_total.
Qed.

(** ** What the shape check promises *)
Lemma isDestinationType_name t : isDestinationType (destination_type_name t) = Some t.
Proof. by destruct t. Qed.

Lemma isDestinationType_Some s t : isDestinationType s = Some t ↔ s = destination_type_name t.
Proof.
  split; [|intros ->; apply isDestinationType_name].
  intros [_ Ht]%find_first_Some. by apply bool_decide_eq_true in Ht.
Qed.
End Snapshot.
