(* ===== verification/Json.v ===== *)
(** * Canonical JSON

    [packages/routing/src/canonical-json.ts]: the serialization a snapshot is hashed
    through. A value is what [typeof] and [Array.isArray] can tell apart; the text
    of a finite number is the platform's, the text of a string is the language's. *)

From stdpp Require Import pretty.
From Stdlib Require Export Qcanon.
From S2P Require Import Prelude Patterns TimeConditions FeatureCodes Plan Snapshot.

Module Json.
Import Snapshot.
#[local] Open Scope nat_scope.
#[local] Arguments String.append !_ _ : simpl nomatch.

(** ** Values *)
Inductive js_number : Type := Finite (q : Qc) | NegativeZero | NotFinite.

Inductive value : Type :=
| VUndefined
| VNull
| VBool (b : bool)
| VNumber (n : js_number)
| VString (s : string)
| VArray (entries : list value)
(* [plain]: the prototype is [Object.prototype] or [null] *)
| VObject (plain : bool) (fields : list (string * value))
(* a function, a symbol or a big integer *)
| VOther.

(** ** Text of a string *)
Definition hex_digit (n : nat) : ascii :=
  Ascii.ascii_of_nat (if n <? 10 then 48 + n else 87 + n).

Definition char (n : nat) : string := String (Ascii.ascii_of_nat n) "".

(** One code unit of [JSON.stringify]. *)
Definition escape (c : ascii) : string :=
  let n := Ascii.nat_of_ascii c in
  if n =? 8 then char 92 +:+ "b"
  else if n =? 9 then char 92 +:+ "t"
  else if n =? 10 then char 92 +:+ "n"
  else if n =? 12 then char 92 +:+ "f"
  else if n =? 13 then char 92 +:+ "r"
  else if n =? 34 then char 92 +:+ char 34
  else if n =? 92 then char 92 +:+ char 92
  else if n <? 32 then
    char 92 +:+ "u00" +:+ String (hex_digit (n / 16)) (String (hex_digit (n mod 16)) "")
  else String c "".

Fixpoint escapes (s : string) : string :=
  match s with
  | EmptyString => ""
  | String c s' => escape c +:+ escapes s'
  end.

Definition quote (s : string) : string := char 34 +:+ escapes s +:+ char 34.

Section Writer.
(** [JSON.stringify] of a finite number. *)
Context (number_text : Qc → string).

(** The loop of [writeArray] and of [writeObject]: the first error, in order. *)
Fixpoint sequence {E A} (l : list (result E A)) : result E (list A) :=
  match l with
  | [] => Ok []
  | Throw e :: _ => Throw e
  | Ok a :: rest => match sequence rest with Ok as_ => Ok (a :: as_) | Throw e => Throw e end
  end.

Definition write_number (n : js_number) (path : string) : result string string :=
  match n with
  | NotFinite => Throw path
  | NegativeZero => Ok (number_text 0%Qc)
  | Finite q => Ok (number_text q)
  end.

Definition compare_keys {A} (l r : string * A) : Z := compare_strings l.1 r.1.

(** The error is the path of [RoutingSnapshotError]. *)
Fixpoint write (v : value) (path : string) : result string string :=
  match v with
  | VNull => Ok "null"
  | VBool b => Ok (if b then "true" else "false")
  | VNumber n => write_number n path
  | VString s => Ok (quote s)
  | VArray entries =>
      let written :=
        (fix go (index : nat) (l : list value) : list (result string string) :=
           match l with
           | [] => []
           | entry :: rest =>
               match entry with
               | VUndefined => Ok "null"
               | _ => write entry (path +:+ "[" +:+ pretty index +:+ "]")
               end :: go (S index) rest
           end) 0 entries in
      match sequence written with
      | Ok parts => Ok ("[" +:+ join_strings "," parts +:+ "]")
      | Throw e => Throw e
      end
  | VObject plain fields =>
      if negb plain then Throw path
      else
        let written :=
          (fix go (l : list (string * value)) : list (string * option (result string string)) :=
             match l with
             | [] => []
             | (key, entry) :: rest =>
                 (key, match entry with
                       | VUndefined => None
                       | _ => Some (match write entry (path +:+ "." +:+ key) with
                                    | Ok text => Ok (quote key +:+ ":" +:+ text)
                                    | Throw e => Throw e
                                    end)
                       end) :: go rest
             end) fields in
        match sequence (omap snd (js_sort compare_keys written)) with
        | Ok parts => Ok ("{" +:+ join_strings "," parts +:+ "}")
        | Throw e => Throw e
        end
  | VUndefined | VOther => Throw path
  end.

Definition canonicalJson (v : value) : result string string := write v "$".

Definition canonicalEquals (left right : value) : result string bool :=
  match canonicalJson left, canonicalJson right with
  | Ok l, Ok r => Ok (bool_decide (l = r))
  | Throw e, _ | Ok _, Throw e => Throw e
  end.

(** ** What a value says

    The content that survives: no [undefined], one zero, keys in order. [None] is a
    value that is not plain, finite data. *)
Inductive json : Type :=
| JNull
| JBool (b : bool)
| JNumber (q : Qc)
| JString (s : string)
| JArray (entries : list json)
| JObject (fields : list (string * json)).

Fixpoint all_some {A} (l : list (option A)) : option (list A) :=
  match l with
  | [] => Some []
  | o :: rest => a ← o; as_ ← all_some rest; Some (a :: as_)
  end.

Fixpoint content (v : value) : option json :=
  match v with
  | VNull => Some JNull
  | VBool b => Some (JBool b)
  | VNumber (Finite q) => Some (JNumber q)
  | VNumber NegativeZero => Some (JNumber 0%Qc)
  | VNumber NotFinite => None
  | VString s => Some (JString s)
  | VArray entries =>
      JArray <$> all_some
        ((fix go (l : list value) : list (option json) :=
            match l with
            | [] => []
            | entry :: rest =>
                match entry with VUndefined => Some JNull | _ => content entry end :: go rest
            end) entries)
  | VObject plain fields =>
      if negb plain then None
      else
        JObject <$> all_some (omap id (snd <$> js_sort compare_keys
          ((fix go (l : list (string * value)) : list (string * option (option (string * json))) :=
              match l with
              | [] => []
              | (key, entry) :: rest =>
                  (key, match entry with
                        | VUndefined => None
                        | _ => Some ((λ j, (key, j)) <$> content entry)
                        end) :: go rest
              end) fields)))
  | VUndefined | VOther => None
  end.

Fixpoint print (j : json) : string :=
  match j with
  | JNull => "null"
  | JBool b => if b then "true" else "false"
  | JNumber q => number_text q
  | JString s => quote s
  | JArray l => "[" +:+ join_strings "," (List.map print l) +:+ "]"
  | JObject l =>
      "{" +:+ join_strings "," (List.map (λ kv, quote kv.1 +:+ ":" +:+ print kv.2) l) +:+ "}"
  end.

(** ** The writer prints the content *)
Section ValueInduction.
Context (P : value → Prop).
Context (Hundefined : P VUndefined) (Hnull : P VNull) (Hbool : ∀ b, P (VBool b)).
Context (Hnumber : ∀ n, P (VNumber n)) (Hstring : ∀ s, P (VString s)).
Context (Harray : ∀ l, Forall P l → P (VArray l)).
Context (Hobject : ∀ b l, Forall (P ∘ snd) l → P (VObject b l)) (Hother : P VOther).

Fixpoint value_induction (v : value) : P v :=
  match v with
  | VUndefined => Hundefined
  | VNull => Hnull
  | VBool b => Hbool b
  | VNumber n => Hnumber n
  | VString s => Hstring s
  | VArray l =>
      Harray l ((fix go l : Forall P l :=
        match l with
        | [] => Forall_nil_2 _
        | x :: l => Forall_cons_2 _ _ _ (value_induction x) (go l)
        end) l)
  | VObject b l =>
      Hobject b l ((fix go l : Forall (P ∘ snd) l :=
        match l with
        | [] => Forall_nil_2 _
        | kv :: l => Forall_cons_2 _ _ _ (value_induction kv.2) (go l)
        end) l)
  | VOther => Hother
  end.
End ValueInduction.

(** A written part and the content it prints. *)
Definition prints {A} (f : A → string) (w : result string string) (o : option A) : Prop :=
  match o with
  | Some a => w = Ok (f a)
  | None => ∃ e, w = Throw e
  end.

Lemma sequence_prints {A} (f : A → string) ws os :
  Forall2 (prints f) ws os →
  match all_some os with
  | Some as_ => sequence ws = Ok (List.map f as_)
  | None => ∃ e, sequence ws = Throw e
  end.
Proof.
  induction 1 as [|w o ws os Hw _ IH]; simpl; [done|]. destruct o as [a|]; simpl in *.
  - subst w. destruct (all_some os); simpl in *; [by rewrite IH|]. destruct IH as [e ->]. eauto.
  - destruct Hw as [e ->]. eauto.
Qed.

(** Sorting by key keeps two lists with the same keys in step. *)
Lemma insert_keys {A B} (R : A → B → Prop) x y l1 l2 :
  x.1 = y.1 → R x.2 y.2 → Forall2 (λ a b, a.1 = b.1 ∧ R a.2 b.2) l1 l2 →
  Forall2 (λ a b, a.1 = b.1 ∧ R a.2 b.2) (insert_by compare_keys x l1) (insert_by compare_keys y l2).
Proof.
  intros Hk HR. induction 1 as [|a b l1 l2 [Hab Rab] H IH]; simpl; [by repeat constructor|].
  unfold compare_keys at 1 3. rewrite Hk, Hab. case_match; repeat (constructor; [done|]); auto.
Qed.

Lemma sort_keys {A B} (R : A → B → Prop) l1 l2 :
  Forall2 (λ a b, a.1 = b.1 ∧ R a.2 b.2) l1 l2 →
  Forall2 (λ a b, a.1 = b.1 ∧ R a.2 b.2) (js_sort compare_keys l1) (js_sort compare_keys l2).
Proof. induction 1 as [|a b l1 l2 [Hk HR] _ IH]; simpl; [constructor|by apply insert_keys]. Qed.

(** A field and the content it prints: both are there, or neither. *)
Definition field_prints (w : option (result string string)) (o : option (option (string * json))) : Prop :=
  match w, o with
  | Some w, Some o => prints (λ kv, quote kv.1 +:+ ":" +:+ print kv.2) w o
  | None, None => True
  | _, _ => False
  end.

Lemma field_prints_intro k w o :
  prints print w o →
  field_prints (Some (match w with
                      | Ok text => Ok (quote k +:+ ":" +:+ text)
                      | Throw e => Throw e
                      end)) (Some ((λ j, (k, j)) <$> o)).
Proof. destruct o as [j|]; simpl; [by intros ->|]. intros [e ->]. eauto. Qed.

Lemma write_prints v path : prints print (write v path) (content v).
Proof.
  revert path. induction v as [| |b|n|s|l IH|plain l IH|] using value_induction; intros path; simpl; eauto.
  - destruct n; simpl; eauto.
  - set (ws := _ 0 l). set (os := _ l).
    assert (Forall2 (prints print) ws os) as Hall.
    { subst ws os. generalize 0. induction IH as [|v l Hv _ IH]; intros n; [constructor|].
      constructor; [|apply IH]. destruct v; try apply Hv. done. }
    apply sequence_prints in Hall. destruct (all_some os) as [js|]; simpl.
    + by rewrite Hall.
    + destruct Hall as [e ->]. eauto.
  - destruct plain; simpl; [|eauto]. set (ws := _ l). set (os := _ l).
    assert (Forall2 (λ a b, a.1 = b.1 ∧ field_prints a.2 b.2) ws os) as Hall.
    { subst ws os. induction IH as [|[k v] l Hv _ IH]; [constructor|]. constructor; [|apply IH].
      simpl in *. split; [done|]. specialize (Hv (path +:+ "." +:+ k)).
      destruct v; [exact I|exact (field_prints_intro k _ _ Hv)..]. }
    apply sort_keys in Hall.
    assert (Forall2 (prints (λ kv, quote kv.1 +:+ ":" +:+ print kv.2))
      (omap snd (js_sort compare_keys ws)) (omap id (snd <$> js_sort compare_keys os))) as Hparts.
    { induction Hall as [|[k w] [k' o] l1 l2 [_ Hf] _ IH']; simpl; [constructor|].
      unfold field_prints in Hf. simpl in Hf. destruct w, o; simpl; try done. by constructor. }
    apply sequence_prints in Hparts. destruct (all_some _) as [js|]; simpl.
    + by rewrite Hparts.
    + destruct Hparts as [e ->]. eauto.
Qed.
End Writer.

(** ** The text determines the content

    A text is read back from the left: a string by its escapes, a number by its
    characters, a list up to its closing bracket. *)
Lemma append_cons c (s r : string) : String c s +:+ r = String c (s +:+ r).
Proof. done. Qed.

Lemma append_nil_l (s : string) : "" +:+ s = s.
Proof. done. Qed.

(** Reading one escaped code unit. *)
Definition unhex (c : ascii) : nat :=
  let n := Ascii.nat_of_ascii c in if n <? 58 then n - 48 else n - 87.

Definition unescape (s : string) : option (ascii * string) :=
  match s with
  | EmptyString => None
  | String c rest =>
      let n := Ascii.nat_of_ascii c in
      if n =? 34 then None
      else if n =? 92 then
        match rest with
        | String d rest' =>
            let m := Ascii.nat_of_ascii d in
            if m =? 98 then Some (Ascii.ascii_of_nat 8, rest')
            else if m =? 116 then Some (Ascii.ascii_of_nat 9, rest')
            else if m =? 110 then Some (Ascii.ascii_of_nat 10, rest')
            else if m =? 102 then Some (Ascii.ascii_of_nat 12, rest')
            else if m =? 114 then Some (Ascii.ascii_of_nat 13, rest')
            else if m =? 117 then
              match rest' with
              | String _ (String _ (String h (String l rest''))) =>
                  Some (Ascii.ascii_of_nat (16 * unhex h + unhex l), rest'')
              | _ => None
              end
            else Some (d, rest')
        | EmptyString => None
        end
      else Some (c, rest)
  end.

Lemma unescape_escape c r : unescape (escape c +:+ r) = Some (c, r).
Proof. destruct c as [[] [] [] [] [] [] [] []]; reflexivity. Qed.

Lemma escapes_inj s1 s2 r1 r2 :
  escapes s1 +:+ char 34 +:+ r1 = escapes s2 +:+ char 34 +:+ r2 → s1 = s2 ∧ r1 = r2.
Proof.
  assert (∀ r, unescape (char 34 +:+ r) = None) as Hq by done.
  revert s2. induction s1 as [|c1 s1 IH]; intros [|c2 s2] H; cbn [escapes] in H;
    rewrite ?append_assoc, ?append_nil_l in H.
  - by injection H.
  - apply (f_equal unescape) in H. by rewrite unescape_escape, Hq in H.
  - apply (f_equal unescape) in H. by rewrite unescape_escape, Hq in H.
  - apply (f_equal unescape) in H. rewrite !unescape_escape in H. injection H as <- H.
    by destruct (IH s2 H) as [-> ->].
Qed.

Lemma quote_inj s1 s2 r1 r2 : quote s1 +:+ r1 = quote s2 +:+ r2 → s1 = s2 ∧ r1 = r2.
Proof.
  unfold quote. rewrite !append_assoc. intros H. apply escapes_inj. by injection H.
Qed.

(** The characters of [Number.prototype.toString] on a finite number. *)
Definition number_char (c : ascii) : bool :=
  is_digit c || includes ["+"; "-"; "."; "e"] (String c "").

(** What follows a number does not extend it. *)
Definition delimited (r : string) : Prop :=
  match r with EmptyString => True | String c _ => number_char c = false end.

Lemma number_span t1 t2 r1 r2 :
  string_forallb number_char t1 = true → string_forallb number_char t2 = true →
  delimited r1 → delimited r2 → t1 +:+ r1 = t2 +:+ r2 → t1 = t2 ∧ r1 = r2.
Proof.
  revert t2. induction t1 as [|c1 t1 IH]; intros [|c2 t2] H1 H2 D1 D2 H; simpl in *; try done.
  - subst r1. simpl in D1. by rewrite D1 in H2.
  - subst r2. simpl in D2. by rewrite D2 in H1.
  - apply andb_true_iff in H1 as [_ H1], H2 as [_ H2]. injection H as <- H.
    by destruct (IH t2 H1 H2 D1 D2 H) as [-> ->].
Qed.

(** The items of a list, after the first. *)
Fixpoint join_rest (parts : list string) : string :=
  match parts with
  | [] => ""
  | p :: rest => "," +:+ p +:+ join_rest rest
  end.

Lemma join_cons p parts : join_strings "," (p :: parts) = p +:+ join_rest parts.
Proof.
  revert p. induction parts as [|q parts IH]; intros p; [by rewrite append_nil_r|].
  change (join_strings "," (p :: q :: parts)) with (p +:+ "," +:+ join_strings "," (q :: parts)).
  by rewrite IH.
Qed.

Section Items.
Context {A : Type} (pr : A → string) (close : ascii).
Context (close_delim : number_char close = false) (close_comma : String close "" ≠ ",").

(** [x] is read back from its text, whatever delimiter follows. *)
Definition readable (x : A) : Prop :=
  ∀ y r1 r2, delimited r1 → delimited r2 → pr x +:+ r1 = pr y +:+ r2 → x = y ∧ r1 = r2.

Lemma join_rest_delimited l r : delimited (join_rest (List.map pr l) +:+ String close r).
Proof. destruct l; [exact close_delim|done]. Qed.

Lemma join_rest_inj l1 l2 r1 r2 :
  Forall readable l1 →
  join_rest (List.map pr l1) +:+ String close r1 = join_rest (List.map pr l2) +:+ String close r2 →
  l1 = l2 ∧ r1 = r2.
Proof.
  intros Hl. revert l2. induction Hl as [|x l1 Hx _ IH]; intros [|y l2] H; cbn [List.map join_rest] in H.
  - by injection H.
  - injection H as H _. by subst.
  - injection H as H _. by subst.
  - rewrite !append_assoc in H. injection H as H.
    destruct (Hx y _ _ (join_rest_delimited _ _) (join_rest_delimited _ _) H) as [<- H'].
    by destruct (IH l2 H') as [-> ->].
Qed.

Lemma items_inj l1 l2 r1 r2 :
  (∀ x r r', pr x +:+ r ≠ String close r') → Forall readable l1 →
  join_strings "," (List.map pr l1) +:+ String close r1 =
  join_strings "," (List.map pr l2) +:+ String close r2 → l1 = l2 ∧ r1 = r2.
Proof.
  intros Hopen Hl. destruct l1 as [|x l1], l2 as [|y l2]; cbn [List.map]; rewrite ?join_cons, ?append_assoc.
  - intros H. by injection H.
  - intros H. symmetry in H. by apply Hopen in H.
  - intros H. by apply Hopen in H.
  - intros H. apply Forall_cons in Hl as [Hx Hl].
    destruct (Hx y _ _ (join_rest_delimited _ _) (join_rest_delimited _ _) H) as [<- H'].
    by destruct (join_rest_inj l1 l2 r1 r2 Hl H') as [-> ->].
Qed.
End Items.

Lemma bracket_inj c (a b : string) : String c "" +:+ a = String c "" +:+ b → a = b.
Proof. intros H. by injection H. Qed.

Section JsonInduction.
Context (P : json → Prop) (Hnull : P JNull) (Hbool : ∀ b, P (JBool b)) (Hnumber : ∀ q, P (JNumber q)).
Context (Hstring : ∀ s, P (JString s)) (Harray : ∀ l, Forall P l → P (JArray l)).
Context (Hobject : ∀ l, Forall (P ∘ snd) l → P (JObject l)).

Fixpoint json_induction (j : json) : P j :=
  match j with
  | JNull => Hnull
  | JBool b => Hbool b
  | JNumber q => Hnumber q
  | JString s => Hstring s
  | JArray l =>
      Harray l ((fix go l : Forall P l :=
        match l with
        | [] => Forall_nil_2 _
        | x :: l => Forall_cons_2 _ _ _ (json_induction x) (go l)
        end) l)
  | JObject l =>
      Hobject l ((fix go l : Forall (P ∘ snd) l :=
        match l with
        | [] => Forall_nil_2 _
        | kv :: l => Forall_cons_2 _ _ _ (json_induction kv.2) (go l)
        end) l)
  end.
End JsonInduction.

Definition field_content (kv : string * value) : string * option (option (string * json)) :=
  (kv.1, match kv.2 with
         | VUndefined => None
         | _ => Some ((λ j, (kv.1, j)) <$> content kv.2)
         end).

Lemma content_object f :
  content (VObject true f) =
  JObject <$> all_some (omap id (snd <$> js_sort compare_keys (field_content <$> f))).
Proof.
  cbn [content negb]. do 5 f_equal. induction f as [|[k v] f IH]; [done|].
  rewrite fmap_cons, <- IH. done.
Qed.

(** Keys in any order are one object. *)
Lemma content_any_order (f f' : list (string * value)) :
  NoDup f.*1 → f ≡ₚ f' → content (VObject true f) = content (VObject true f').
Proof.
  intros Hnd Hp. rewrite !content_object. do 4 f_equal. apply (sort_by_key_perm fst).
  - by rewrite <- list_fmap_compose.
  - by rewrite Hp.
Qed.

Section Injective.
Context (number_text : Qc → string).
Context (number_some : ∀ q, number_text q ≠ "").
Context (number_chars : ∀ q, string_forallb number_char (number_text q) = true).
Context (number_inj : Inj (=) (=) number_text).

Lemma number_head q : ∃ c t, number_text q = String c t ∧ number_char c = true.
Proof.
  pose proof (number_some q) as Hs. pose proof (number_chars q) as Hc.
  destruct (number_text q) as [|c t]; [done|]. apply andb_true_iff in Hc as [Hc _]. eauto.
Qed.

(** The first character of a text. *)
Lemma print_head j r c r' :
  print number_text j +:+ r = String c r' →
  number_char c = true ∨ includes ["n"; "t"; "f"; "["; "{"; char 34] (String c "") = true.
Proof.
  destruct j as [|[]|q|s|l|l]; cbn [print]; try (intros H; injection H as <- _; by right).
  destruct (number_head q) as (d & t & -> & Hd). intros H. injection H as -> _. by left.
Qed.

Lemma print_not_close j r r' close :
  number_char close = false → includes ["n"; "t"; "f"; "["; "{"; char 34] (String close "") = false →
  print number_text j +:+ r ≠ String close r'.
Proof. intros H1 H2 [H|H]%print_head; congruence. Qed.

(** A number and something else never start alike. *)
Lemma number_apart q t r c r' :
  number_char c = false → number_text q +:+ r = String c t +:+ r' → False.
Proof.
  destruct (number_head q) as (d & t' & -> & Hd). intros Hc H. injection H as -> _. congruence.
Qed.

Lemma print_readable j : readable (print number_text) j.
Proof.
  induction j as [|b|q|s|l IH|l IH] using json_induction; intros j2 r1 r2 D1 D2 H;
    destruct j2 as [|b2|q2|s2|l2|l2]; cbn [print] in H;
    try (repeat match goal with b : bool |- _ => destruct b end; discriminate H);
    try (exfalso; repeat match goal with b : bool |- _ => destruct b end;
         (eapply number_apart; [|exact H]; reflexivity)
         || (symmetry in H; eapply number_apart; [|exact H]; reflexivity)).
  - by injection H.
  - destruct b, b2; try discriminate H; by injection H.
  - destruct (number_span _ _ _ _ (number_chars q) (number_chars q2) D1 D2 H) as [->%number_inj ->].
    done.
  - by apply quote_inj in H as [-> ->].
  - rewrite !append_assoc in H. injection H as H.
    apply items_inj in H as [-> ->]; [done|done|done| |done].
    intros x r r'. by apply print_not_close.
  - rewrite !append_assoc in H. apply bracket_inj in H.
    apply items_inj in H as [-> ->]; [done|done|done|done|].
    eapply Forall_impl; [exact IH|]. intros [k v] Hv [k2 v2] s1 s2 E1 E2 He. cbn [fst snd compose] in *.
    rewrite !append_assoc in He. apply quote_inj in He as [-> He]. injection He as He.
    by destruct (Hv v2 s1 s2 E1 E2 He) as [-> ->].
Qed.

Lemma print_inj : Inj (=) (=) (print number_text).
Proof.
  intros j1 j2 H. destruct (print_readable j1 j2 "" "" I I) as [-> _]; [by rewrite !append_nil_r|done].
Qed.

(** Canonical equality is equality of content: two values compare equal exactly
    when both are plain, finite data with the same content (keys in any order,
    [undefined] the same as absent, one zero), so a content hash can only agree by
    collision; a value has a canonical text exactly when it has a content; and the
    order the keys of an object were written in is not part of it. *)
Theorem canonicalEquals_content (l r : value) :
  (canonicalEquals number_text l r = Ok true ↔ ∃ j, content l = Some j ∧ content r = Some j) ∧
  ((∃ t, canonicalJson number_text l = Ok t) ↔ is_Some (content l)) ∧
  (∀ f f', l = VObject true f → r = VObject true f' → NoDup f.*1 → f ≡ₚ f' → content l = content r).
Proof.
  unfold canonicalEquals, canonicalJson. rewrite (assoc (∧)).
  split; [|intros f f' -> ->; apply content_any_order].
  pose proof (write_prints number_text l "$") as Hl. pose proof (write_prints number_text r "$") as Hr.
  destruct (content l) as [jl|]; simpl in Hl.
  - rewrite Hl. split; [|split; [by eexists|by eauto]]. destruct (content r) as [jr|]; simpl in Hr.
    + rewrite Hr. split.
      * intros [= ->%bool_decide_eq_true%print_inj]. eauto.
      * intros (j & [= ->] & [= ->]). by rewrite bool_decide_true.
    + destruct Hr as [e ->]. naive_solver.
  - destruct Hl as [e ->]. split; [naive_solver|]. split; [by intros [t [=]]|by intros [? [=]]].
Qed.
End Injective.

(** ** Witnesses *)

(** A text for rationals with the properties asked of the platform's. *)
Fixpoint positive_text (p : positive) : string :=
  match p with
  | xH => "1"
  | xO p => "0" +:+ positive_text p
  | xI p => "1" +:+ positive_text p
  end.

Definition sign_text (z : Z) : string :=
  match z with
  | Z0 => "."
  | Zpos p => "+" +:+ positive_text p
  | Zneg p => "-" +:+ positive_text p
  end.

Definition rational_text (q : Qc) : string :=
  sign_text (QArith_base.Qnum (this q)) +:+ "e" +:+ positive_text (QArith_base.Qden (this q)).

Lemma positive_text_digits p : string_forallb is_digit (positive_text p) = true.
Proof. by induction p. Qed.

Lemma rational_text_chars q : string_forallb number_char (rational_text q) = true.
Proof.
  assert (∀ p, string_forallb number_char (positive_text p) = true) as Hp.
  { intros p. eapply string_forallb_impl; [|apply positive_text_digits]. intros c Hc.
    unfold number_char. by rewrite Hc. }
  unfold rational_text. rewrite !string_forallb_append, Hp, andb_true_r.
  destruct (QArith_base.Qnum _); simpl; by rewrite ?Hp.
Qed.

Lemma digits_split s1 s2 t1 t2 :
  string_forallb is_digit s1 = true → string_forallb is_digit s2 = true →
  s1 +:+ "e" +:+ t1 = s2 +:+ "e" +:+ t2 → s1 = s2 ∧ t1 = t2.
Proof.
  revert s2. induction s1 as [|c1 s1 IH]; intros [|c2 s2] H1 H2 H; simpl in *.
  - by injection H.
  - injection H as <- _. by vm_compute in H2.
  - injection H as -> _. by vm_compute in H1.
  - apply andb_true_iff in H1 as [_ H1], H2 as [_ H2]. injection H as <- H.
    by destruct (IH s2 H1 H2 H) as [-> ->].
Qed.

Lemma positive_text_inj : Inj (=) (=) positive_text.
Proof.
  intros p. induction p as [p IH|p IH|]; intros [q|q|] H; try done; simpl in H.
  - injection H as H. by rewrite (IH q H).
  - injection H as H. by destruct p.
  - injection H as H. by rewrite (IH q H).
  - injection H as H. by destruct q.
Qed.

Lemma rational_text_inj : Inj (=) (=) rational_text.
Proof.
  intros [[n1 d1] C1] [[n2 d2] C2] H. unfold rational_text in H. simpl in H.
  assert (n1 = n2 ∧ d1 = d2) as [-> ->]; [|by apply Qc_is_canon].
  destruct n1 as [|p1|p1], n2 as [|p2|p2]; cbn [sign_text] in H; rewrite ?append_assoc in H;
    try discriminate H.
  1: injection H as H; by apply positive_text_inj in H as ->.
  all: apply bracket_inj in H;
    apply digits_split in H as [->%positive_text_inj ->%positive_text_inj]; [done|..];
    apply positive_text_digits.
Qed.

Lemma rational_text_some q : rational_text q ≠ "".
Proof. unfold rational_text. by destruct (QArith_base.Qnum _). Qed.

Definition sample (order : bool) : value :=
  let a := ("label", VUndefined) in
  let b := ("tags", VArray [VString "line
break"; VUndefined; VBool true]) in
  let c := ("weight", VNumber (if order then NegativeZero else Finite 0%Qc)) in
  VObject true (if order then [c; a; b] else [b; c]).

Lemma canonicalEquals_witness :
  canonicalEquals rational_text (sample true) (sample false) = Ok true ∧
  canonicalEquals rational_text (sample true) (VNumber NotFinite) ≠ Ok true ∧
  ∃ j, content (sample true) = Some j.
Proof.
  pose proof (λ l r, proj1 (canonicalEquals_content rational_text
    rational_text_some rational_text_chars rational_text_inj l r)) as Hthm.
  split_and!.
  - apply Hthm. eexists. split; vm_compute; reflexivity.
  - intros (j & _ & Hj)%Hthm. by vm_compute in Hj.
  - eexists. vm_compute. reflexivity.
Defined.
End Json.
