(* ===== verification/SnapshotValue.v ===== *)
(** * Rows as plain data

    What [canonicalizeSnapshot] hands to the serializer: each row of
    [packages/routing/src/snapshot.ts] as the object it is, an absent column as
    [undefined] and a null one as [null]. *)

From stdpp Require Import pretty.
From S2P Require Import Prelude Patterns TimeConditions FeatureCodes Plan Snapshot Json.

Module SnapshotValue.
Import FeatureCodes Plan Snapshot Json.

(** ** Parts of rows *)
Definition vint (z : Z) : value := VNumber (Finite (Q2Qc (QArith_base.inject_Z z))).

Definition voptional {A} (f : A → value) (x : option A) : value :=
  match x with Some a => f a | None => VUndefined end.

Definition vnullable {A} (f : A → value) (x : nullable A) : value :=
  match x with Value a => f a | Null => VNull | Undefined => VUndefined end.

Definition varray {A} (f : A → value) (l : list A) : value := VArray (f <$> l).

Definition param_value (p : ParamValue) : value :=
  match p with
  | ParamString s => VString s
  | ParamNumber n => vint n
  | ParamBool b => VBool b
  end.

Definition params_value (m : gmap string ParamValue) : value :=
  VObject true ((λ kv, (kv.1, param_value kv.2)) <$> map_to_list m).

Definition destination_data_value (d : DestinationData) : value :=
  VObject true [("value", voptional VString (data_value d));
                ("args", voptional params_value (data_args d));
                ("cause", voptional VString (data_cause d))].

Definition destination_fields (d : Destination) : list (string * value) :=
  [("destinationType", VString (destinationType d));
   ("destinationRef", vnullable VString (destinationRef d));
   ("destinationData", vnullable destination_data_value (destinationData d))].

Definition named_fields (prefix : string) (d : NamedDestination) : list (string * value) :=
  [(prefix +:+ "DestinationType", vnullable VString (named_type d));
   (prefix +:+ "DestinationRef", vnullable VString (named_ref d));
   (prefix +:+ "DestinationData", vnullable destination_data_value (named_data d))].

Definition follow_me_target_value (t : FollowMeTargetInput) : value :=
  VObject true [("destination", voptional VString (fmt_destination t));
                ("delaySeconds", voptional (λ q, VNumber (Finite q)) (fmt_delaySeconds t));
                ("timeoutSeconds", voptional (λ q, VNumber (Finite q)) (fmt_timeoutSeconds t));
                ("confirm", voptional VBool (fmt_confirm t))].

Definition follow_me_value (f : FollowMeInput) : value :=
  VObject true [("enabled", VBool (fmi_enabled f));
                ("ignoreBusy", voptional VBool (fmi_ignoreBusy f));
                ("targets", voptional (varray follow_me_target_value) (fmi_targets f))].

Definition window_value (w : TimeConditions.Window) : value :=
  VObject true [("from", VString (TimeConditions.from w)); ("to", VString (TimeConditions.to w))].

Definition predicate_value (p : TimeConditions.TimePredicate) : value :=
  VObject true [("weekdays", voptional (varray vint) (TimeConditions.weekdays p));
                ("monthDays", voptional (varray vint) (TimeConditions.monthDays p));
                ("months", voptional (varray vint) (TimeConditions.months p));
                ("weeksOfMonth", voptional (varray vint) (TimeConditions.weeksOfMonth p));
                ("timeOfDay", voptional window_value (TimeConditions.timeOfDay p));
                ("dateRange", voptional window_value (TimeConditions.dateRange p))].

(** ** Rows *)
Definition extension_value (x : ExtensionInput) : value :=
  VObject true (
  [("id", VString (exi_id x));
   ("enabled", VBool (exi_enabled x));
   ("number", VString (exi_number x));
   ("label", VString (exi_label x));
   ("callerIdName", vnullable VString (exi_callerIdName x));
   ("callerIdNumber", vnullable VString (exi_callerIdNumber x));
   ("outboundCallerIdName", vnullable VString (exi_outboundCallerIdName x));
   ("outboundCallerIdNumber", vnullable VString (exi_outboundCallerIdNumber x));
   ("emergencyCallerIdNumber", vnullable VString (exi_emergencyCallerIdNumber x));
   ("voicemailEnabled", VBool (exi_voicemailEnabled x));
   ("doNotDisturb", VBool (exi_doNotDisturb x));
   ("forwardAllEnabled", VBool (exi_forwardAllEnabled x));
   ("forwardAllDestination", vnullable VString (exi_forwardAllDestination x));
   ("forwardBusyEnabled", VBool (exi_forwardBusyEnabled x));
   ("forwardBusyDestination", vnullable VString (exi_forwardBusyDestination x));
   ("forwardNoAnswerEnabled", VBool (exi_forwardNoAnswerEnabled x));
   ("forwardNoAnswerDestination", vnullable VString (exi_forwardNoAnswerDestination x));
   ("forwardUnregisteredEnabled", VBool (exi_forwardUnregisteredEnabled x));
   ("forwardUnregisteredDestination", vnullable VString (exi_forwardUnregisteredDestination x));
   ("followMe", vnullable follow_me_value (exi_followMe x));
   ("pickupGroup", vnullable VString (exi_pickupGroup x));
   ("recordPolicy", VString (record_policy_name (exi_recordPolicy x)));
   ("mohClassId", vnullable VString (exi_mohClassId x));
   ("tollClass", VString (toll_class_name (exi_tollClass x)));
   ("callTimeoutSeconds", vint (exi_callTimeoutSeconds x))]).

Definition phone_number_value (x : PhoneNumberInput) : value :=
  VObject true (
  [("id", VString (pni_id x));
   ("enabled", VBool (pni_enabled x))] ++
  destination_fields (pni_destination x) ++
  [("e164", VString (pni_e164 x));
   ("label", vnullable VString (pni_label x));
   ("callerIdNamePrefix", vnullable VString (pni_callerIdNamePrefix x));
   ("recordEnabled", VBool (pni_recordEnabled x));
   ("voiceEnabled", VBool (pni_voiceEnabled x));
   ("emergencyAddressId", vnullable VString (pni_emergencyAddressId x))]).

Definition trunk_value (x : TrunkInput) : value :=
  VObject true (
  [("id", VString (tki_id x));
   ("enabled", VBool (tki_enabled x));
   ("name", VString (tki_name x));
   ("kind", VString (trunk_kind_name (tki_kind x)));
   ("sipDomain", VString (tki_sipDomain x));
   ("sipProxy", VString (tki_sipProxy x));
   ("outboundProxy", vnullable VString (tki_outboundProxy x));
   ("transport", VString (transport_name (tki_transport x)));
   ("codecPrefs", vnullable VString (tki_codecPrefs x));
   ("maxChannels", vnullable vint (tki_maxChannels x));
   ("callerIdNumberOverride", vnullable VString (tki_callerIdNumberOverride x))]).

Definition inbound_route_value (x : InboundRouteInput) : value :=
  VObject true (
  [("id", VString (iri_id x));
   ("enabled", VBool (iri_enabled x))] ++
  destination_fields (iri_destination x) ++
  [("name", VString (iri_name x));
   ("priority", vint (iri_priority x));
   ("matchKind", VString (match_kind_name (iri_matchKind x)));
   ("matchPattern", vnullable VString (iri_matchPattern x));
   ("phoneNumberId", vnullable VString (iri_phoneNumberId x));
   ("callerIdPattern", vnullable VString (iri_callerIdPattern x))] ++
  named_fields "failover" (iri_failover x) ++
  [("timeConditionId", vnullable VString (iri_timeConditionId x));
   ("recordEnabled", VBool (iri_recordEnabled x))]).

Definition trunk_priority_value (x : TrunkPriorityInput) : value :=
  VObject true (
  [("trunkId", VString (tpi_trunkId x));
   ("order", vint (tpi_order x));
   ("weight", voptional vint (tpi_weight x))]).

Definition outbound_route_value (x : OutboundRouteInput) : value :=
  VObject true (
  [("id", VString (ori_id x));
   ("enabled", VBool (ori_enabled x));
   ("name", VString (ori_name x));
   ("priority", vint (ori_priority x));
   ("matchKind", VString (match_kind_name (ori_matchKind x)));
   ("dialPatterns", varray VString (ori_dialPatterns x));
   ("stripDigits", vint (ori_stripDigits x));
   ("prependDigits", vnullable VString (ori_prependDigits x));
   ("tollClass", VString (toll_class_name (ori_tollClass x)));
   ("trunkPriority", varray trunk_priority_value (ori_trunkPriority x));
   ("timeConditionId", vnullable VString (ori_timeConditionId x))] ++
  named_fields "failover" (ori_failover x) ++
  [("callerIdNumberOverride", vnullable VString (ori_callerIdNumberOverride x));
   ("recordEnabled", VBool (ori_recordEnabled x))]).

Definition time_condition_value (x : TimeConditionInput) : value :=
  VObject true (
  [("id", VString (tci_id x));
   ("enabled", VBool (tci_enabled x))] ++
  destination_fields (tci_destination x) ++
  [("name", VString (tci_name x));
   ("timezone", VString (tci_timezone x))] ++
  named_fields "nomatch" (tci_nomatch x)).

Definition time_rule_value (x : TimeConditionRuleInput) : value :=
  VObject true (
  [("id", VString (tri_id x));
   ("enabled", VBool (tri_enabled x));
   ("timeConditionId", VString (tri_timeConditionId x));
   ("ordinal", vint (tri_ordinal x));
   ("label", vnullable VString (tri_label x));
   ("predicates", varray predicate_value (tri_predicates x))]).

Definition ivr_menu_value (x : IvrMenuInput) : value :=
  VObject true (
  [("id", VString (ivi_id x));
   ("enabled", VBool (ivi_enabled x));
   ("name", VString (ivi_name x));
   ("extensionNumber", vnullable VString (ivi_extensionNumber x));
   ("parentId", vnullable VString (ivi_parentId x));
   ("greetingPromptId", vnullable VString (ivi_greetingPromptId x));
   ("shortGreetingPromptId", vnullable VString (ivi_shortGreetingPromptId x));
   ("invalidPromptId", vnullable VString (ivi_invalidPromptId x));
   ("timeoutPromptId", vnullable VString (ivi_timeoutPromptId x));
   ("digitTimeoutMs", vint (ivi_digitTimeoutMs x));
   ("interDigitTimeoutMs", vint (ivi_interDigitTimeoutMs x));
   ("maxDigits", vint (ivi_maxDigits x));
   ("maxFailures", vint (ivi_maxFailures x));
   ("maxTimeouts", vint (ivi_maxTimeouts x));
   ("directDialEnabled", VBool (ivi_directDialEnabled x))] ++
  named_fields "timeout" (ivi_timeout x) ++
  named_fields "invalid" (ivi_invalid x)).

Definition ivr_option_value (x : IvrMenuOptionInput) : value :=
  VObject true (
  [("id", VString (ivo_id x));
   ("enabled", VBool (ivo_enabled x))] ++
  destination_fields (ivo_destination x) ++
  [("ivrMenuId", VString (ivo_ivrMenuId x));
   ("ordinal", vint (ivo_ordinal x));
   ("matchKind", VString (option_kind_name (ivo_matchKind x)));
   ("matchValue", VString (ivo_matchValue x));
   ("label", vnullable VString (ivo_label x))]).

Definition ring_group_value (x : RingGroupInput) : value :=
  VObject true (
  [("id", VString (rgi_id x));
   ("enabled", VBool (rgi_enabled x));
   ("name", VString (rgi_name x));
   ("extensionNumber", vnullable VString (rgi_extensionNumber x));
   ("strategy", VString (ring_strategy_name (rgi_strategy x)));
   ("ringTimeoutSeconds", vint (rgi_ringTimeoutSeconds x));
   ("callerIdNamePrefix", vnullable VString (rgi_callerIdNamePrefix x));
   ("ignoreBusy", VBool (rgi_ignoreBusy x));
   ("confirmEnabled", VBool (rgi_confirmEnabled x));
   ("confirmPromptId", vnullable VString (rgi_confirmPromptId x));
   ("mohClassId", vnullable VString (rgi_mohClassId x));
   ("ringbackPromptId", vnullable VString (rgi_ringbackPromptId x))] ++
  named_fields "timeout" (rgi_timeout x)).

Definition ring_member_value (x : RingGroupDestinationInput) : value :=
  VObject true (
  [("id", VString (rgd_id x));
   ("enabled", VBool (rgd_enabled x))] ++
  destination_fields (rgd_destination x) ++
  [("ringGroupId", VString (rgd_ringGroupId x));
   ("ordinal", vint (rgd_ordinal x));
   ("delaySeconds", vint (rgd_delaySeconds x));
   ("timeoutSeconds", vint (rgd_timeoutSeconds x));
   ("confirmRequired", VBool (rgd_confirmRequired x))]).

Definition queue_value (x : QueueInput) : value :=
  VObject true (
  [("id", VString (qui_id x));
   ("enabled", VBool (qui_enabled x));
   ("name", VString (qui_name x));
   ("extensionNumber", vnullable VString (qui_extensionNumber x));
   ("strategy", VString (queue_strategy_name (qui_strategy x)));
   ("mohClassId", vnullable VString (qui_mohClassId x));
   ("greetingPromptId", vnullable VString (qui_greetingPromptId x));
   ("announcePromptId", vnullable VString (qui_announcePromptId x));
   ("maxWaitSeconds", vint (qui_maxWaitSeconds x));
   ("maxWaitNoAgentSeconds", vint (qui_maxWaitNoAgentSeconds x));
   ("announcePositionEnabled", VBool (qui_announcePositionEnabled x));
   ("announceFrequencySeconds", vint (qui_announceFrequencySeconds x));
   ("recordEnabled", VBool (qui_recordEnabled x))] ++
  named_fields "timeout" (qui_timeout x)).

Definition voicemail_box_value (x : VoicemailBoxInput) : value :=
  VObject true (
  [("id", VString (vbi_id x));
   ("enabled", VBool (vbi_enabled x));
   ("mailboxNumber", VString (vbi_mailboxNumber x));
   ("label", vnullable VString (vbi_label x));
   ("extensionId", vnullable VString (vbi_extensionId x));
   ("mwiEnabled", VBool (vbi_mwiEnabled x));
   ("maxMessageSeconds", vint (vbi_maxMessageSeconds x));
   ("pinHash", vnullable VString (vbi_pinHash x))]).

Definition greeting_value (x : VoicemailGreetingInput) : value :=
  VObject true (
  [("id", VString (vgi_id x));
   ("voicemailBoxId", VString (vgi_voicemailBoxId x));
   ("kind", VString (greeting_kind_name (vgi_kind x)));
   ("objectKey", VString (vgi_objectKey x));
   ("active", VBool (vgi_active x));
   ("durationMs", vnullable vint (vgi_durationMs x));
   ("label", vnullable VString (vgi_label x))]).

Definition moh_class_value (x : MohClassInput) : value :=
  VObject true (
  [("id", VString (mci_id x));
   ("enabled", VBool (mci_enabled x));
   ("name", VString (mci_name x))]).

Definition conference_value (x : ConferenceInput) : value :=
  VObject true (
  [("id", VString (cfi_id x));
   ("enabled", VBool (cfi_enabled x));
   ("name", VString (cfi_name x));
   ("roomNumber", VString (cfi_roomNumber x));
   ("requiresPin", VBool (cfi_requiresPin x));
   ("maxMembers", vint (cfi_maxMembers x));
   ("mohClassId", vnullable VString (cfi_mohClassId x));
   ("waitForModerator", VBool (cfi_waitForModerator x));
   ("recordEnabled", VBool (cfi_recordEnabled x));
   ("pinHash", vnullable VString (cfi_pinHash x));
   ("moderatorPinHash", vnullable VString (cfi_moderatorPinHash x));
   ("requiresModeratorPin", voptional VBool (cfi_requiresModeratorPin x))]).

Definition emergency_address_value (x : EmergencyAddressInput) : value :=
  VObject true (
  [("id", VString (eai_id x));
   ("label", VString (eai_label x));
   ("validated", VBool (eai_validated x))]).

Definition park_lot_value (x : ParkLotInput) : value :=
  VObject true (
  [("id", VString (pli_id x));
   ("enabled", VBool (pli_enabled x));
   ("name", VString (pli_name x));
   ("slotStart", vint (pli_slotStart x));
   ("slotEnd", vint (pli_slotEnd x));
   ("timeoutSeconds", vint (pli_timeoutSeconds x));
   ("mohClassId", vnullable VString (pli_mohClassId x))] ++
  named_fields "timeout" (pli_timeout x)).

Definition feature_code_value (x : FeatureCodeInput) : value :=
  VObject true (
  [("id", VString (fci_id x));
   ("enabled", VBool (fci_enabled x));
   ("code", VString (fci_code x));
   ("action", VString (feature_action_name (fci_action x)));
   ("params", vnullable params_value (fci_params x));
   ("label", vnullable VString (fci_label x))]).

Definition block_rule_value (x : CallBlockRuleInput) : value :=
  VObject true (
  [("id", VString (cbi_id x));
   ("enabled", VBool (cbi_enabled x));
   ("pattern", VString (cbi_pattern x));
   ("matchKind", VString (block_kind_name (cbi_matchKind x)));
   ("direction", VString (block_direction_name (cbi_direction x)));
   ("action", VString (block_action_name (cbi_action x)));
   ("label", vnullable VString (cbi_label x))]).

Definition settings_value (x : RoutingSettingsInput) : value :=
  VObject true (
  [("defaultTimezone", voptional VString (rsi_defaultTimezone x));
   ("voicemailPrefix", vnullable VString (rsi_voicemailPrefix x));
   ("voicemailCheckPrefix", vnullable VString (rsi_voicemailCheckPrefix x));
   ("outboundCallerIdNumber", vnullable VString (rsi_outboundCallerIdNumber x));
   ("outboundCallerIdName", vnullable VString (rsi_outboundCallerIdName x));
   ("trunkContinueOnCauses", voptional (varray VString) (rsi_trunkContinueOnCauses x));
   ("outboundEnabled", voptional VBool (rsi_outboundEnabled x));
   ("emergencyNumbers", voptional (varray VString) (rsi_emergencyNumbers x))]).

(** ** Rows are plain, finite data *)

(** A value a field may hold. *)
Definition serializable (v : value) : Prop := v = VUndefined ∨ is_Some (content v).

Lemma all_some_is_Some {A} (l : list (option A)) : Forall is_Some l → is_Some (all_some l).
Proof. induction 1 as [|o l [a ->] _ [as_ IH]]; [by eexists|]. simpl. rewrite IH. by eexists. Qed.

Lemma object_serializable fields :
  Forall (λ kv, serializable kv.2) fields → is_Some (content (VObject true fields)).
Proof.
  intros Hf. rewrite content_object, fmap_is_Some. apply all_some_is_Some, Forall_forall.
  intros o Ho. apply list_elem_of_omap in Ho as (w & Hw & Hid).
  unfold Datatypes.id in Hid. subst w.
  apply list_elem_of_fmap in Hw as ([k w'] & Hw & Hin). simpl in Hw. subst w'.
  apply elem_of_js_sort, list_elem_of_fmap in Hin as ([k' v] & Heq & Hin).
  rewrite Forall_forall in Hf. specialize (Hf _ Hin). simpl in Hf. unfold field_content in Heq.
  simpl in Heq. injection Heq as -> Heq. destruct Hf as [->|[j Hj]]; [done|].
  destruct v; simplify_eq; rewrite Hj; by eexists.
Qed.

Lemma array_serializable {A} (f : A → value) l :
  (∀ x, serializable (f x)) → is_Some (content (varray f l)).
Proof.
  intros Hf. simpl. rewrite fmap_is_Some. apply all_some_is_Some.
  induction l as [|x l IH]; simpl; constructor; [|done].
  destruct (Hf x) as [->|Hx]; [by eexists|]. destruct (f x); try exact Hx. by destruct Hx.
Qed.

Create HintDb plain.
Lemma plain_undefined : serializable VUndefined.
Proof. by left. Qed.
Lemma plain_null : serializable VNull.
Proof. right. by eexists. Qed.
Lemma plain_string s : serializable (VString s).
Proof. right. by eexists. Qed.
Lemma plain_bool b : serializable (VBool b).
Proof. right. by eexists. Qed.
Lemma plain_finite q : serializable (VNumber (Finite q)).
Proof. right. by eexists. Qed.
Lemma plain_object fields : Forall (λ kv, serializable kv.2) fields → serializable (VObject true fields).
Proof. right. by apply object_serializable. Qed.
Lemma plain_array {A} (f : A → value) l : (∀ x, serializable (f x)) → serializable (varray f l).
Proof. right. by apply array_serializable. Qed.
Lemma plain_optional {A} (f : A → value) o : (∀ x, serializable (f x)) → serializable (voptional f o).
Proof. intros Hf. destruct o; [apply Hf|apply plain_undefined]. Qed.
Lemma plain_nullable {A} (f : A → value) o : (∀ x, serializable (f x)) → serializable (vnullable f o).
Proof. intros Hf. destruct o; [apply plain_undefined|apply plain_null|apply Hf]. Qed.
#[export] Hint Resolve plain_undefined plain_null plain_string plain_bool plain_finite plain_array
  plain_optional plain_nullable : plain.
#[export] Hint Extern 1 (serializable (vint _)) => apply plain_finite : plain.

Ltac plain_fields :=
  repeat (apply Forall_app_2 || apply Forall_cons_2 || apply Forall_nil_2);
  cbn [snd]; eauto with plain.

Ltac plain_row := intros; apply plain_object; plain_fields.

Lemma params_plain m : serializable (params_value m).
Proof.
  apply plain_object, Forall_fmap, Forall_forall. intros [k p] _. simpl.
  destruct p; eauto with plain.
Qed.
#[export] Hint Resolve params_plain : plain.

Lemma destination_data_plain d : serializable (destination_data_value d).
Proof. plain_row. Qed.
#[export] Hint Resolve destination_data_plain : plain.

Lemma destination_fields_plain d : Forall (λ kv, serializable kv.2) (destination_fields d).
Proof. unfold destination_fields. plain_fields. Qed.

Lemma named_fields_plain prefix d : Forall (λ kv, serializable kv.2) (named_fields prefix d).
Proof. unfold named_fields. plain_fields. Qed.
#[export] Hint Resolve destination_fields_plain named_fields_plain : plain.

Lemma follow_me_target_plain t : serializable (follow_me_target_value t).
Proof. plain_row. Qed.
#[export] Hint Resolve follow_me_target_plain : plain.

Lemma follow_me_plain f : serializable (follow_me_value f).
Proof. plain_row. Qed.

Lemma window_plain w : serializable (window_value w).
Proof. plain_row. Qed.

Lemma trunk_priority_plain t : serializable (trunk_priority_value t).
Proof. plain_row. Qed.
#[export] Hint Resolve follow_me_plain window_plain trunk_priority_plain : plain.

Lemma predicate_plain p : serializable (predicate_value p).
Proof. plain_row. Qed.
#[export] Hint Resolve predicate_plain : plain.

Lemma extension_plain x : serializable (extension_value x).
Proof. plain_row. Qed.
Lemma phone_number_plain x : serializable (phone_number_value x).
Proof. plain_row. Qed.
Lemma trunk_plain x : serializable (trunk_value x).
Proof. plain_row. Qed.
Lemma inbound_route_plain x : serializable (inbound_route_value x).
Proof. plain_row. Qed.
Lemma outbound_route_plain x : serializable (outbound_route_value x).
Proof. plain_row. Qed.
Lemma time_condition_plain x : serializable (time_condition_value x).
Proof. plain_row. Qed.
Lemma time_rule_plain x : serializable (time_rule_value x).
Proof. plain_row. Qed.
Lemma ivr_menu_plain x : serializable (ivr_menu_value x).
Proof. plain_row. Qed.
Lemma ivr_option_plain x : serializable (ivr_option_value x).
Proof. plain_row. Qed.
Lemma ring_group_plain x : serializable (ring_group_value x).
Proof. plain_row. Qed.
Lemma ring_member_plain x : serializable (ring_member_value x).
Proof. plain_row. Qed.
Lemma queue_plain x : serializable (queue_value x).
Proof. plain_row. Qed.
Lemma voicemail_box_plain x : serializable (voicemail_box_value x).
Proof. plain_row. Qed.
Lemma greeting_plain x : serializable (greeting_value x).
Proof. plain_row. Qed.
Lemma moh_class_plain x : serializable (moh_class_value x).
Proof. plain_row. Qed.
Lemma conference_plain x : serializable (conference_value x).
Proof. plain_row. Qed.
Lemma emergency_address_plain x : serializable (emergency_address_value x).
Proof. plain_row. Qed.
Lemma park_lot_plain x : serializable (park_lot_value x).
Proof. plain_row. Qed.
Lemma feature_code_plain x : serializable (feature_code_value x).
Proof. plain_row. Qed.
Lemma block_rule_plain x : serializable (block_rule_value x).
Proof. plain_row. Qed.
Lemma settings_plain x : serializable (settings_value x).
Proof. plain_row. Qed.
#[export] Hint Resolve extension_plain phone_number_plain trunk_plain inbound_route_plain outbound_route_plain time_condition_plain time_rule_plain ivr_menu_plain ivr_option_plain ring_group_plain ring_member_plain queue_plain voicemail_box_plain greeting_plain moh_class_plain conference_plain emergency_address_plain park_lot_plain feature_code_plain block_rule_plain settings_plain : plain.
End SnapshotValue.
