(* ===== verification/Sha256.v ===== *)
(** * SHA-256

    [packages/routing/src/sha256.ts]. The bitwise operators of the language work on
    signed 32-bit integers and [>>> 0] makes the answer unsigned again: the
    translation keeps both conversions, and the reference is FIPS 180-4 on words
    modulo [2^32], where neither exists. Sums stay below [2^53], so they are exact. *)

From S2P Require Import Prelude.

Module Sha256.
#[local] Open Scope Z_scope.

(** ** The operators of the language *)
Definition ToUint32 (z : Z) : Z := z mod 2 ^ 32.
Definition ToInt32 (z : Z) : Z := (z + 2 ^ 31) mod 2 ^ 32 - 2 ^ 31.

(** [a >>> n], [a << n], [a | b], [a ^ b], [a & b], [~a] *)
Definition shr (a n : Z) : Z := Z.shiftr (ToUint32 a) n.
Definition shl (a n : Z) : Z := ToInt32 (Z.shiftl (ToInt32 a) n).
Definition bor (a b : Z) : Z := Z.lor (ToInt32 a) (ToInt32 b).
Definition bxor (a b : Z) : Z := Z.lxor (ToInt32 a) (ToInt32 b).
Definition band (a b : Z) : Z := Z.land (ToInt32 a) (ToInt32 b).
Definition bnot (a : Z) : Z := Z.lnot (ToInt32 a).

(** ** Constants *)
Definition K : list Z :=
  mjoin [
    [ 0x428a2f98; 0x71374491; 0xb5c0fbcf; 0xe9b5dba5; 0x3956c25b; 0x59f111f1; 0x923f82a4; 0xab1c5ed5 ];
    [ 0xd807aa98; 0x12835b01; 0x243185be; 0x550c7dc3; 0x72be5d74; 0x80deb1fe; 0x9bdc06a7; 0xc19bf174 ];
    [ 0xe49b69c1; 0xefbe4786; 0x0fc19dc6; 0x240ca1cc; 0x2de92c6f; 0x4a7484aa; 0x5cb0a9dc; 0x76f988da ];
    [ 0x983e5152; 0xa831c66d; 0xb00327c8; 0xbf597fc7; 0xc6e00bf3; 0xd5a79147; 0x06ca6351; 0x14292967 ];
    [ 0x27b70a85; 0x2e1b2138; 0x4d2c6dfc; 0x53380d13; 0x650a7354; 0x766a0abb; 0x81c2c92e; 0x92722c85 ];
    [ 0xa2bfe8a1; 0xa81a664b; 0xc24b8b70; 0xc76c51a3; 0xd192e819; 0xd6990624; 0xf40e3585; 0x106aa070 ];
    [ 0x19a4c116; 0x1e376c08; 0x2748774c; 0x34b0bcb5; 0x391c0cb3; 0x4ed8aa4a; 0x5b9cca4f; 0x682e6ff3 ];
    [ 0x748f82ee; 0x78a5636f; 0x84c87814; 0x8cc70208; 0x90befffa; 0xa4506ceb; 0xbef9a3f7; 0xc67178f2 ] ].

Definition INITIAL_STATE : list Z :=
  [0x6a09e667; 0xbb67ae85; 0x3c6ef372; 0xa54ff53a; 0x510e527f; 0x9b05688c; 0x1f83d9ab; 0x5be0cd19].

(** The tables are what their comments say: the first 32 bits of the fractional parts
    of the cube roots of the first 64 primes, and of the square roots of the first
    eight. [fraction e p w] says so without roots: with the integer part [a] of the
    root, [a + w / 2^32] is the largest such value whose power is at most [p]. *)
Definition fraction (e p w : Z) : bool :=
  existsb (λ a, let r := a * 2 ^ 32 + w in
    (r ^ e <=? p * 2 ^ (32 * e)) && (p * 2 ^ (32 * e) <? (r + 1) ^ e)) (seqZ 1 17).

Definition primes (n : nat) : list Z :=
  take n (List.filter (λ p, forallb (λ d, negb (p mod d =? 0)) (seqZ 2 (p - 2))) (seqZ 2 311)).

Lemma K_cube_roots : length K = 64%nat ∧ Forall2 (λ p w, fraction 3 p w = true) (primes 64) K.
Proof.
  split; [reflexivity|]. apply (bool_decide_unpack _). vm_compute. exact I.
Qed.

Lemma INITIAL_STATE_square_roots :
  length INITIAL_STATE = 8%nat ∧ Forall2 (λ p w, fraction 2 p w = true) (primes 8) INITIAL_STATE.
Proof.
  split; [reflexivity|]. apply (bool_decide_unpack _). vm_compute. exact I.
Qed.

Definition rotr (value bits : Z) : Z := ToUint32 (bor (shr value bits) (shl value (32 - bits))).

(** ** Hexadecimal *)
Definition HEX (n : Z) : ascii := Ascii.ascii_of_nat (Z.to_nat (if n <? 10 then 48 + n else 87 + n)).

Definition word_hex (word : Z) : string :=
  foldr (λ shift out, String (HEX (band (shr word shift) 0xf)) out) ""
    [28; 24; 20; 16; 12; 8; 4; 0].

Definition toHex (state : list Z) : string := foldr (λ word out, word_hex word +:+ out) "" state.

(** ** Padding *)
Definition padded (bytes : list Z) : list Z :=
  let len := length bytes in
  let bitLength := Z.of_nat len * 8 in
  let blockCount := ((len + 8) / 64 + 1)%nat in
  let size := (blockCount * 64)%nat in
  let out := bytes ++ replicate (size - len) 0 in
  let out := <[len := 0x80]> out in
  let high := bitLength / 2 ^ 32 in
  let low := shr bitLength 0 in
  let tail := (size - 8)%nat in
  let out := <[tail := band (shr high 24) 0xff]> out in
  let out := <[(tail + 1)%nat := band (shr high 16) 0xff]> out in
  let out := <[(tail + 2)%nat := band (shr high 8) 0xff]> out in
  let out := <[(tail + 3)%nat := band high 0xff]> out in
  let out := <[(tail + 4)%nat := band (shr low 24) 0xff]> out in
  let out := <[(tail + 5)%nat := band (shr low 16) 0xff]> out in
  let out := <[(tail + 6)%nat := band (shr low 8) 0xff]> out in
  <[(tail + 7)%nat := band low 0xff]> out.

(** ** One block *)
Definition at_ (l : list Z) (i : nat) : Z := default 0 (l !! i).

(** [w[index]] for the words read from the block. *)
Definition block_word (block : list Z) (offset index : nat) : Z :=
  let at' := (offset + index * 4)%nat in
  ToUint32 (bor (bor (bor (shl (at_ block at') 24) (shl (at_ block (at' + 1)) 16))
                     (shl (at_ block (at' + 2)) 8)) (at_ block (at' + 3))).

(** [w[index]] for the others, computed from the words before. *)
Definition schedule_word (w : list Z) : Z :=
  let index := length w in
  let previous15 := at_ w (index - 15) in
  let previous2 := at_ w (index - 2) in
  let s0 := ToUint32 (bxor (bxor (rotr previous15 7) (rotr previous15 18)) (shr previous15 3)) in
  let s1 := ToUint32 (bxor (bxor (rotr previous2 17) (rotr previous2 19)) (shr previous2 10)) in
  ToUint32 (at_ w (index - 16) + s0 + at_ w (index - 7) + s1).

Fixpoint iterate {A} (n : nat) (f : A → A) (x : A) : A :=
  match n with O => x | S n => iterate n f (f x) end.

Definition schedule (block : list Z) (offset : nat) : list Z :=
  iterate 48 (λ w, w ++ [schedule_word w]) (block_word block offset <$> seq 0 16).

Record Registers := { ra : Z; rb : Z; rc : Z; rd : Z; re : Z; rf : Z; rg : Z; rh : Z }.

Definition round (s : Registers) (kw : Z * Z) : Registers :=
  let sigma1 := ToUint32 (bxor (bxor (rotr (re s) 6) (rotr (re s) 11)) (rotr (re s) 25)) in
  let choose := ToUint32 (bxor (band (re s) (rf s)) (band (bnot (re s)) (rg s))) in
  let temp1 := ToUint32 (rh s + sigma1 + choose + kw.1 + kw.2) in
  let sigma0 := ToUint32 (bxor (bxor (rotr (ra s) 2) (rotr (ra s) 13)) (rotr (ra s) 22)) in
  let majority := ToUint32 (bxor (bxor (band (ra s) (rb s)) (band (ra s) (rc s)))
                                 (band (rb s) (rc s))) in
  let temp2 := ToUint32 (sigma0 + majority) in
  {| rh := rg s; rg := rf s; rf := re s; re := ToUint32 (rd s + temp1);
     rd := rc s; rc := rb s; rb := ra s; ra := ToUint32 (temp1 + temp2) |}.

Definition registers (state : list Z) : Registers :=
  {| ra := at_ state 0; rb := at_ state 1; rc := at_ state 2; rd := at_ state 3;
     re := at_ state 4; rf := at_ state 5; rg := at_ state 6; rh := at_ state 7 |}.

Definition compress (block : list Z) (state : list Z) (offset : nat) : list Z :=
  let s := foldl round (registers state) (zip K (schedule block offset)) in
  zip_with (λ x y, ToUint32 (x + y)) state [ra s; rb s; rc s; rd s; re s; rf s; rg s; rh s].

Definition sha256Bytes (bytes : list Z) : string :=
  let block := padded bytes in
  toHex (foldl (compress block) INITIAL_STATE ((λ i, i * 64)%nat <$> seq 0 (length block / 64))).

(** ** UTF-8 *)

(** [text.codePointAt(index)] with the units after it: a surrogate pair is one
    code point. *)
Definition codePointAt (unit : Z) (rest : list Z) : Z :=
  match rest with
  | low :: _ =>
      if (0xd800 <=? unit) && (unit <=? 0xdbff) && (0xdc00 <=? low) && (low <=? 0xdfff)
      then (unit - 0xd800) * 0x400 + (low - 0xdc00) + 0x10000
      else unit
  | [] => unit
  end.

(** The bytes of one code point; [>>] on these codes is [Z.shiftr]. *)
Definition encode_point (code : Z) : list Z :=
  if code <? 0x80 then [code]
  else if code <? 0x800 then [Z.lor 0xc0 (Z.shiftr code 6); Z.lor 0x80 (Z.land code 0x3f)]
  else if code <? 0x10000 then
    [Z.lor 0xe0 (Z.shiftr code 12); Z.lor 0x80 (Z.land (Z.shiftr code 6) 0x3f);
     Z.lor 0x80 (Z.land code 0x3f)]
  else
    [Z.lor 0xf0 (Z.shiftr code 18); Z.lor 0x80 (Z.land (Z.shiftr code 12) 0x3f);
     Z.lor 0x80 (Z.land (Z.shiftr code 6) 0x3f); Z.lor 0x80 (Z.land code 0x3f)].

(** The loop over the code units; [skip] is the extra [index += 1]. *)
Fixpoint utf8_units (skip : bool) (units : list Z) : list Z :=
  match units with
  | [] => []
  | unit :: rest =>
      if skip then utf8_units false rest
      else
        let code := codePointAt unit rest in
        encode_point code ++ utf8_units (0xffff <? code) rest
  end.

Definition utf8Bytes (units : list Z) : list Z := utf8_units false units.

(** The code units of a string. *)
Fixpoint units (s : string) : list Z :=
  match s with
  | EmptyString => []
  | String c s' => Z.of_nat (Ascii.nat_of_ascii c) :: units s'
  end.

Definition sha256 (text : string) : string := sha256Bytes (utf8Bytes (units text)).

(** ** FIPS 180-4

    The standard on words [0 <= x < 2^32], with blocks cut from the padded message. *)
Definition word (x : Z) : Prop := 0 <= x < 2 ^ 32.

Definition ROTR (n x : Z) : Z := Z.lor (Z.shiftr x n) (Z.shiftl x (32 - n) mod 2 ^ 32).
Definition SHR (n x : Z) : Z := Z.shiftr x n.
Definition NOT (x : Z) : Z := 2 ^ 32 - 1 - x.
Definition Ch (x y z : Z) : Z := Z.lxor (Z.land x y) (Z.land (NOT x) z).
Definition Maj (x y z : Z) : Z := Z.lxor (Z.lxor (Z.land x y) (Z.land x z)) (Z.land y z).
Definition Sigma0 (x : Z) : Z := Z.lxor (Z.lxor (ROTR 2 x) (ROTR 13 x)) (ROTR 22 x).
Definition Sigma1 (x : Z) : Z := Z.lxor (Z.lxor (ROTR 6 x) (ROTR 11 x)) (ROTR 25 x).
Definition sigma0_fn (x : Z) : Z := Z.lxor (Z.lxor (ROTR 7 x) (ROTR 18 x)) (SHR 3 x).
Definition sigma1_fn (x : Z) : Z := Z.lxor (Z.lxor (ROTR 17 x) (ROTR 19 x)) (SHR 10 x).

(** [n] in [k] big-endian bytes. *)
Fixpoint be_bytes (k : nat) (n : Z) : list Z :=
  match k with
  | O => []
  | S k => n / 2 ^ (8 * Z.of_nat k) mod 256 :: be_bytes k n
  end.

(** The message, a one bit, the fewest zeroes that leave eight bytes in the last
    block, and the length in bits. *)
Definition fips_pad (m : list Z) : list Z :=
  let zeroes := (63 - (length m + 8) mod 64)%nat in
  m ++ 0x80 :: replicate zeroes 0 ++ be_bytes 8 (8 * Z.of_nat (length m)).

Definition fips_block (m : list Z) (i : nat) : list Z := take 64 (drop (i * 64) m).

Definition fips_word (chunk : list Z) (t : nat) : Z :=
  at_ chunk (4 * t) * 2 ^ 24 + at_ chunk (4 * t + 1) * 2 ^ 16 + at_ chunk (4 * t + 2) * 2 ^ 8 +
  at_ chunk (4 * t + 3).

Definition fips_next (w : list Z) : Z :=
  let t := length w in
  (sigma1_fn (at_ w (t - 2)) + at_ w (t - 7) + sigma0_fn (at_ w (t - 15)) + at_ w (t - 16)) mod 2 ^ 32.

Definition fips_schedule (chunk : list Z) : list Z :=
  iterate 48 (λ w, w ++ [fips_next w]) (fips_word chunk <$> seq 0 16).

Definition fips_round (s : Registers) (kw : Z * Z) : Registers :=
  let T1 := (rh s + Sigma1 (re s) + Ch (re s) (rf s) (rg s) + kw.1 + kw.2) mod 2 ^ 32 in
  let T2 := (Sigma0 (ra s) + Maj (ra s) (rb s) (rc s)) mod 2 ^ 32 in
  {| rh := rg s; rg := rf s; rf := re s; re := (rd s + T1) mod 2 ^ 32;
     rd := rc s; rc := rb s; rb := ra s; ra := (T1 + T2) mod 2 ^ 32 |}.

Definition fips_compress (H chunk : list Z) : list Z :=
  let s := foldl fips_round (registers H) (zip K (fips_schedule chunk)) in
  zip_with (λ x y, (x + y) mod 2 ^ 32) H [ra s; rb s; rc s; rd s; re s; rf s; rg s; rh s].

Definition fips_sha256 (m : list Z) : list Z :=
  let padded := fips_pad m in
  foldl fips_compress INITIAL_STATE (fips_block padded <$> seq 0 (length padded / 64)).

(** ** The operators on words *)
Lemma ToInt32_mod z : ToInt32 z mod 2 ^ 32 = z mod 2 ^ 32.
Proof. unfold ToInt32. rewrite Zminus_mod, Zmod_mod, <- Zminus_mod. f_equal. lia. Qed.

Lemma ToUint32_bits z n : 0 <= n → Z.testbit (ToUint32 z) n = Z.testbit z n && (n <? 32).
Proof.
  intros Hn. unfold ToUint32. destruct (Z.ltb_spec n 32).
  - by rewrite Z.mod_pow2_bits_low, andb_true_r by lia.
  - by rewrite Z.mod_pow2_bits_high, andb_false_r by lia.
Qed.

Lemma ToInt32_bits z n : 0 <= n < 32 → Z.testbit (ToInt32 z) n = Z.testbit z n.
Proof.
  intros Hn. rewrite <- (Z.mod_pow2_bits_low (ToInt32 z) 32), ToInt32_mod by lia.
  apply Z.mod_pow2_bits_low. lia.
Qed.

Ltac bitwise :=
  apply Z.bits_inj'; intros n Hn;
  rewrite ?ToUint32_bits, ?Z.lxor_spec, ?Z.lor_spec, ?Z.land_spec, ?ToUint32_bits by done;
  destruct (Z.ltb_spec n 32); [rewrite ?ToInt32_bits by lia|];
  rewrite ?andb_true_r, ?andb_false_r; try done.

Lemma ToUint32_bxor a b : ToUint32 (bxor a b) = Z.lxor (ToUint32 a) (ToUint32 b).
Proof. unfold bxor. bitwise. Qed.

Lemma ToUint32_band a b : ToUint32 (band a b) = Z.land (ToUint32 a) (ToUint32 b).
Proof. unfold band. bitwise. Qed.

Lemma ToUint32_bor a b : ToUint32 (bor a b) = Z.lor (ToUint32 a) (ToUint32 b).
Proof. unfold bor. bitwise. Qed.

Lemma ToUint32_word z : word (ToUint32 z).
Proof. apply Z.mod_pos_bound. lia. Qed.

Lemma ToUint32_id z : word z → ToUint32 z = z.
Proof. apply Z.mod_small. Qed.

Lemma ToUint32_bnot a : ToUint32 (bnot a) = NOT (ToUint32 a).
Proof.
  unfold NOT, bnot, Z.lnot, ToUint32. rewrite <- (ToInt32_mod a).
  replace (Z.pred (- ToInt32 a)) with (-1 - ToInt32 a) by lia.
  symmetry. apply (Zmod_unique _ _ (- (ToInt32 a / 2 ^ 32) - 1)).
  - pose proof (Z.mod_pos_bound (ToInt32 a) (2 ^ 32)). lia.
  - pose proof (Z.div_mod (ToInt32 a) (2 ^ 32)). lia.
Qed.

Lemma ToUint32_shl a n :
  0 <= n → ToUint32 (shl a n) = Z.shiftl (ToUint32 a) n mod 2 ^ 32.
Proof.
  intros Hn. unfold shl, ToUint32. rewrite ToInt32_mod, !Z.shiftl_mul_pow2 by done.
  by rewrite <- (Zmult_mod_idemp_l (ToInt32 a)), ToInt32_mod.
Qed.

Lemma shiftr_word a n : 0 <= n → word a → word (Z.shiftr a n).
Proof.
  intros Hn Ha. rewrite Z.shiftr_div_pow2 by done. unfold word in *.
  assert (0 < 2 ^ n) by lia. split; [apply Z.div_pos; lia|].
  eapply Z.le_lt_trans; [|apply (proj2 Ha)]. apply Z.div_le_upper_bound; nia.
Qed.

Lemma ToUint32_shr a n : 0 <= n → ToUint32 (shr a n) = Z.shiftr (ToUint32 a) n.
Proof. intros Hn. apply ToUint32_id, shiftr_word; [done|apply ToUint32_word]. Qed.

Lemma rotr_ROTR v n : 0 <= n <= 32 → word v → rotr v n = ROTR n v.
Proof.
  intros Hn Hv. unfold rotr. rewrite ToUint32_bor, ToUint32_shr, ToUint32_shl by lia.
  by rewrite ToUint32_id.
Qed.

(** ** Rounds *)
Lemma ToUint32_rotr v n : ToUint32 (rotr v n) = rotr v n.
Proof. apply ToUint32_id, ToUint32_word. Qed.

(** Pushes the conversions down to the words and drops them there. *)
Ltac words :=
  rewrite ?ToUint32_bxor, ?ToUint32_band, ?ToUint32_bnot, ?ToUint32_rotr, ?ToUint32_shr by lia;
  repeat match goal with H : word ?x |- context [ToUint32 ?x] => rewrite (ToUint32_id x H) end;
  rewrite ?rotr_ROTR by (done || lia).

Record words_of (s : Registers) : Prop := {
  wa : word (ra s); wb : word (rb s); wc : word (rc s); wd : word (rd s);
  we : word (re s); wf : word (rf s); wg : word (rg s); wh : word (rh s) }.

Lemma round_fips s kw : words_of s → round s kw = fips_round s kw ∧ words_of (round s kw).
Proof.
  intros []. split; [|constructor; done || apply ToUint32_word].
  unfold round, fips_round, Sigma0, Sigma1, Ch, Maj. cbv zeta. words. done.
Qed.

Lemma rounds_fips s kws : words_of s → foldl round s kws = foldl fips_round s kws ∧
  words_of (foldl round s kws).
Proof.
  revert s. induction kws as [|kw kws IH]; intros s Hs; [done|]. simpl.
  destruct (round_fips s kw Hs) as [<- Hs']. by apply IH.
Qed.

(** ** The message schedule *)
Lemma at_word l i : Forall word l → word (at_ l i).
Proof.
  intros Hl. unfold at_. destruct (l !! i) as [x|] eqn:Hx; [|done].
  by apply (Forall_lookup_1 _ _ _ _ Hl Hx).
Qed.

Lemma schedule_word_fips w : Forall word w → schedule_word w = fips_next w.
Proof.
  intros Hw. unfold schedule_word, fips_next, sigma0_fn, sigma1_fn, SHR. cbv zeta.
  pose proof (at_word w (length w - 15) Hw). pose proof (at_word w (length w - 2) Hw).
  words. unfold ToUint32. f_equal. lia.
Qed.

Lemma schedule_extend n w :
  Forall word w →
  iterate n (λ w, w ++ [schedule_word w]) w = iterate n (λ w, w ++ [fips_next w]) w ∧
  Forall word (iterate n (λ w, w ++ [schedule_word w]) w).
Proof.
  revert w. induction n as [|n IH]; intros w Hw; [done|]. cbn [iterate].
  rewrite <- schedule_word_fips by done. apply IH. apply Forall_app. split; [done|].
  constructor; [apply ToUint32_word|done].
Qed.

Lemma lor_add x k y : 0 <= k → 0 <= y < 2 ^ k → Z.lor (x * 2 ^ k) y = x * 2 ^ k + y.
Proof.
  intros Hk Hy. rewrite <- Z.add_lor_land.
  assert (Z.land (x * 2 ^ k) y = 0) as ->; [|lia]. apply Z.bits_inj'. intros n Hn.
  rewrite Z.land_spec, Z.bits_0. destruct (Z.lt_ge_cases n k).
  - by rewrite Z.mul_pow2_bits_low.
  - rewrite <- (Z.mod_small y (2 ^ k)), Z.mod_pow2_bits_high by lia. apply andb_false_r.
Qed.

Definition byte (b : Z) : Prop := 0 <= b < 256.

Lemma at_byte l i : Forall byte l → byte (at_ l i).
Proof.
  intros Hl. unfold at_. destruct (l !! i) as [x|] eqn:Hx; [|done].
  by apply (Forall_lookup_1 _ _ _ _ Hl Hx).
Qed.

Lemma four_bytes a b c d :
  byte a → byte b → byte c → byte d →
  ToUint32 (bor (bor (bor (shl a 24) (shl b 16)) (shl c 8)) d) =
  a * 2 ^ 24 + b * 2 ^ 16 + c * 2 ^ 8 + d.
Proof.
  intros Ha Hb Hc Hd. unfold byte in *. rewrite !ToUint32_bor, !ToUint32_shl by lia.
  rewrite !ToUint32_id, !Z.shiftl_mul_pow2 by (unfold word; lia).
  rewrite !Z.mod_small by lia.
  rewrite (lor_add a 24 (b * 2 ^ 16)) by lia.
  replace (a * 2 ^ 24 + b * 2 ^ 16) with ((a * 2 ^ 8 + b) * 2 ^ 16) by lia.
  rewrite (lor_add _ 16 (c * 2 ^ 8)) by lia.
  replace ((a * 2 ^ 8 + b) * 2 ^ 16 + c * 2 ^ 8) with ((a * 2 ^ 16 + b * 2 ^ 8 + c) * 2 ^ 8) by lia.
  rewrite (lor_add _ 8 d) by lia. lia.
Qed.

Lemma at_block m i j : (j < 64)%nat → at_ m (i * 64 + j) = at_ (fips_block m i) j.
Proof.
  intros Hj. unfold at_, fips_block. by rewrite lookup_take_lt, lookup_drop.
Qed.

Lemma block_word_fips m i t :
  Forall byte m → (t < 16)%nat → block_word m (i * 64) t = fips_word (fips_block m i) t.
Proof.
  intros Hm Ht. unfold block_word, fips_word. cbv zeta. rewrite four_bytes by (by apply at_byte).
  rewrite <- !Nat.add_assoc, !at_block by lia.
  by rewrite !(Nat.mul_comm t 4).
Qed.

Lemma schedule_fips m i :
  Forall byte m → schedule m (i * 64) = fips_schedule (fips_block m i).
Proof.
  intros Hm. unfold schedule, fips_schedule.
  destruct (schedule_extend 48 (block_word m (i * 64) <$> seq 0 16)) as [-> _].
  { apply Forall_fmap, Forall_true. intros t. apply ToUint32_word. }
  f_equal. apply list_fmap_ext. intros k t Ht.
  apply block_word_fips; [done|]. apply lookup_seq in Ht. lia.
Qed.

Lemma compress_fips m i H :
  Forall byte m → Forall word H →
  compress m H (i * 64) = fips_compress H (fips_block m i) ∧ Forall word (compress m H (i * 64)).
Proof.
  intros Hm HH. unfold compress, fips_compress. rewrite <- schedule_fips by done. cbv zeta.
  destruct (rounds_fips (registers H) (zip K (schedule m (i * 64)))) as [-> _].
  { constructor; by apply at_word. }
  split; [done|]. apply Forall_forall. intros z (i' & x & y & -> & _)%elem_of_lookup_zip_with.
  apply ToUint32_word.
Qed.

(** ** Padding *)
Lemma insert_after {A} (l k : list A) n i x :
  n = (length l + i)%nat → <[n := x]> (l ++ k) = l ++ <[i := x]> k.
Proof. intros ->. apply insert_app_r. Qed.

Lemma band_byte x : band x 0xff = x mod 256.
Proof.
  unfold band. change (ToInt32 0xff) with (Z.ones 8). rewrite Z.land_ones by lia.
  by rewrite <- (Z.mod_mod_divide (ToInt32 x) (2 ^ 32)), ToInt32_mod, Z.mod_mod_divide
    by (by exists (2 ^ 24)).
Qed.

Lemma shr_byte x k : 0 <= k <= 24 → shr x k mod 256 = x / 2 ^ k mod 256.
Proof.
  intros Hk. unfold shr, ToUint32. rewrite <- Z.shiftr_div_pow2 by lia. change 256 with (2 ^ 8).
  apply Z.bits_inj'. intros n Hn. destruct (Z.lt_ge_cases n 8).
  - rewrite !Z.mod_pow2_bits_low, !Z.shiftr_spec, Z.mod_pow2_bits_low by lia. done.
  - by rewrite !Z.mod_pow2_bits_high by lia.
Qed.

Lemma shr_low x k : shr (shr x 0) k = shr x k.
Proof. unfold shr. by rewrite Z.shiftr_0_r, (ToUint32_id (ToUint32 x)) by apply ToUint32_word. Qed.

Lemma padded_fips m : padded m = fips_pad m.
Proof.
  unfold padded, fips_pad. cbv zeta. set (len := length m). set (z := (63 - (len + 8) mod 64)%nat).
  pose proof (Nat.mod_upper_bound (len + 8) 64). pose proof (Nat.div_mod_eq (len + 8) 64).
  set (size := (((len + 8) / 64 + 1) * 64)%nat).
  assert (size = (len + (1 + (z + 8)))%nat) as Hsize by (unfold size, z; lia).
  replace (size - len)%nat with (1 + (z + 8))%nat by lia.
  rewrite (insert_after m _ len 0) by (unfold len; lia). cbn [replicate Nat.add insert list_insert].
  rewrite replicate_add, !band_byte, !shr_low, !shr_byte by lia.
  change (0x80 :: replicate z 0 ++ replicate 8 0) with ((0x80 :: replicate z 0) ++ replicate 8 0).
  rewrite (app_assoc m). set (front := m ++ 0x80 :: replicate z 0).
  assert (length front = (size - 8)%nat) as Hfront.
  { unfold front. rewrite length_app, length_cons, length_replicate. fold len. lia. }
  rewrite (insert_after front _ _ 0) by lia.
  rewrite (insert_after front _ _ 1), (insert_after front _ _ 2), (insert_after front _ _ 3),
    (insert_after front _ _ 4), (insert_after front _ _ 5), (insert_after front _ _ 6),
    (insert_after front _ _ 7) by lia.
  unfold front. rewrite <- app_assoc. do 2 f_equal.
  set (L := Z.of_nat len * 8). replace (8 * Z.of_nat len) with L by (unfold L; lia).
  cbn [replicate insert list_insert be_bytes app].
  rewrite !Z.div_div by lia. reflexivity.
Qed.

Lemma be_bytes_length k n : length (be_bytes k n) = k.
Proof. induction k; simpl; congruence. Qed.

Lemma be_bytes_byte k n : Forall byte (be_bytes k n).
Proof. induction k; simpl; constructor; [|done]. apply Z.mod_pos_bound. lia. Qed.

Lemma be_bytes_inj k n1 n2 :
  be_bytes k n1 = be_bytes k n2 → n1 mod 2 ^ (8 * Z.of_nat k) = n2 mod 2 ^ (8 * Z.of_nat k).
Proof.
  induction k as [|k IH]; intros H; [by rewrite !Z.mod_1_r|]. simpl in H. injection H as Hb Ht.
  replace (8 * Z.of_nat (S k)) with (8 * Z.of_nat k + 8) by lia. rewrite Z.pow_add_r by lia.
  change (2 ^ 8) with 256. rewrite !Z.rem_mul_r by lia. by rewrite (IH Ht), Hb.
Qed.

Lemma fips_pad_byte m : Forall byte m → Forall byte (fips_pad m).
Proof.
  intros Hm. unfold fips_pad. apply Forall_app. split; [done|]. constructor; [done|].
  apply Forall_app. split; [by apply Forall_replicate|apply be_bytes_byte].
Qed.

(** Padding loses nothing: the length is in the last eight bytes. *)
Lemma fips_pad_inj m1 m2 :
  8 * Z.of_nat (length m1) < 2 ^ 64 → 8 * Z.of_nat (length m2) < 2 ^ 64 →
  fips_pad m1 = fips_pad m2 → m1 = m2.
Proof.
  intros H1 H2 H. unfold fips_pad in H. rewrite !app_comm_cons, !(app_assoc _ (_ :: _)) in H.
  apply app_inj_2 in H as [Hf Hb]; [|by rewrite !be_bytes_length].
  apply be_bytes_inj in Hb. rewrite !Z.mod_small in Hb by lia.
  apply app_inj_1 in Hf as [-> _]; [done|lia].
Qed.

Lemma fips_state_length H chunks : length H = 8%nat → length (foldl fips_compress H chunks) = 8%nat.
Proof.
  revert H. induction chunks as [|c chunks IH]; intros H HH; [done|]. apply IH.
  unfold fips_compress. by rewrite length_zip_with, HH.
Qed.

Lemma word_hex_length w : String.length (word_hex w) = 8%nat.
Proof. done. Qed.

Lemma toHex_length l : String.length (toHex l) = (8 * length l)%nat.
Proof.
  induction l as [|w l IH]; [done|]. cbn [toHex foldr length]. fold (toHex l).
  rewrite append_length, word_hex_length. lia.
Qed.

(** C34. The hash is SHA-256: the digest of any bytes is the one FIPS 180-4 defines on
    32-bit words (rotations, sums modulo [2^32], big-endian padding), although the
    code computes with signed operators and doubles; and it is always 64 hexadecimal
    digits. *)
Theorem sha256Bytes_fips (m : list Z) :
  Forall byte m →
  sha256Bytes m = toHex (fips_sha256 m) ∧ String.length (sha256Bytes m) = 64%nat.
Proof.
  intros Hm. assert (sha256Bytes m = toHex (fips_sha256 m)) as Heq.
  { unfold sha256Bytes, fips_sha256. rewrite padded_fips. cbv zeta. f_equal.
    pose proof (fips_pad_byte m Hm) as Hp. set (p := fips_pad m) in *. clearbody p.
    assert (Forall word INITIAL_STATE) as HH.
    { repeat (apply Forall_cons; split; [unfold word; lia|]). done. }
    revert HH. generalize INITIAL_STATE. generalize (seq 0 (length p / 64)).
    intros l. induction l as [|i l IH]; intros H HH; [done|]. rewrite !fmap_cons. cbn [foldl].
    destruct (compress_fips p i H Hp HH) as [<- HH']. by apply IH. }
  split; [done|]. rewrite Heq, toHex_length. unfold fips_sha256. cbv zeta.
  by rewrite fips_state_length.
Qed.

(** ** UTF-8 loses nothing *)
Lemma land_low x : Z.land x 0x3f = x mod 64.
Proof. change 0x3f with (Z.ones 6). by rewrite Z.land_ones. Qed.

Definition decode_point (bytes : list Z) : option (Z * list Z) :=
  match bytes with
  | [] => None
  | b0 :: rest =>
      if b0 <? 0x80 then Some (b0, rest)
      else if b0 <? 0xe0 then
        match rest with
        | b1 :: rest => Some ((b0 - 0xc0) * 64 + (b1 - 0x80), rest)
        | _ => None
        end
      else if b0 <? 0xf0 then
        match rest with
        | b1 :: b2 :: rest => Some ((b0 - 0xe0) * 4096 + (b1 - 0x80) * 64 + (b2 - 0x80), rest)
        | _ => None
        end
      else
        match rest with
        | b1 :: b2 :: b3 :: rest =>
            Some ((b0 - 0xf0) * 262144 + (b1 - 0x80) * 4096 + (b2 - 0x80) * 64 + (b3 - 0x80), rest)
        | _ => None
        end
  end.

Lemma low_byte x : Z.lor 0x80 (x mod 64) = 128 + x mod 64.
Proof. apply (lor_add 2 6); [lia|]. apply Z.mod_pos_bound. lia. Qed.

Lemma decode_encode c r :
  0 <= c < 0x110000 → decode_point (encode_point c ++ r) = Some (c, r).
Proof.
  intros Hc. unfold encode_point. rewrite !Z.shiftr_div_pow2, !land_low, !low_byte by lia.
  change (2 ^ 6) with 64. change (2 ^ 12) with 4096. change (2 ^ 18) with 262144.
  repeat (case_match; [|]); simpl.
  - by rewrite H.
  - apply Z.ltb_ge in H. apply Z.ltb_lt in H0.
    assert (Z.lor 0xc0 (c / 64) = 0xc0 + c / 64) as ->
      by (apply (lor_add 6 5); [lia|Z.to_euclidean_division_equations; lia]).
    rewrite (proj2 (Z.ltb_ge _ _)), (proj2 (Z.ltb_lt _ _)) by (Z.to_euclidean_division_equations; lia).
    do 2 f_equal. Z.to_euclidean_division_equations; lia.
  - apply Z.ltb_ge in H, H0. apply Z.ltb_lt in H1.
    assert (Z.lor 0xe0 (c / 4096) = 0xe0 + c / 4096) as ->
      by (apply (lor_add 14 4); [lia|Z.to_euclidean_division_equations; lia]).
    rewrite !(proj2 (Z.ltb_ge _ _)), (proj2 (Z.ltb_lt _ _)) by (Z.to_euclidean_division_equations; lia).
    do 2 f_equal. Z.to_euclidean_division_equations; lia.
  - apply Z.ltb_ge in H, H0, H1.
    assert (Z.lor 0xf0 (c / 262144) = 0xf0 + c / 262144) as ->
      by (apply (lor_add 30 3); [lia|Z.to_euclidean_division_equations; lia]).
    rewrite !(proj2 (Z.ltb_ge _ _)) by (Z.to_euclidean_division_equations; lia).
    do 2 f_equal. Z.to_euclidean_division_equations; lia.
Qed.

Definition unit16 (u : Z) : Prop := 0 <= u < 0x10000.

(** A unit stands for itself, or starts a pair. *)
Lemma codePointAt_cases u rest :
  unit16 u →
  codePointAt u rest = u ∨
  ∃ low rest', rest = low :: rest' ∧ 0xd800 <= u <= 0xdbff ∧ 0xdc00 <= low <= 0xdfff ∧
    codePointAt u rest = (u - 0xd800) * 0x400 + (low - 0xdc00) + 0x10000.
Proof.
  intros Hu. destruct rest as [|low rest']; [by left|]. unfold codePointAt.
  destruct (0xd800 <=? u) eqn:E1, (u <=? 0xdbff) eqn:E2, (0xdc00 <=? low) eqn:E3,
    (low <=? 0xdfff) eqn:E4; simpl; try by left.
  right. exists low, rest'. split; [done|]. repeat split; lia.
Qed.

(** One step of the encoder: a unit or a pair, and the rest. *)
Lemma utf8_step u rest :
  unit16 u →
  ∃ c now later, u :: rest = now ++ later ∧ utf8Bytes (u :: rest) = encode_point c ++ utf8Bytes later ∧
    0 <= c < 0x110000 ∧ length now = (if c <? 0x10000 then 1%nat else 2%nat) ∧
    now = (if c <? 0x10000 then [c]
           else [(c - 0x10000) / 0x400 + 0xd800; (c - 0x10000) mod 0x400 + 0xdc00]).
Proof.
  intros Hu. unfold utf8Bytes. cbn [utf8_units]. unfold unit16 in Hu.
  destruct (codePointAt_cases u rest Hu) as [Hc|(low & rest' & -> & H1 & H2 & Hc)]; rewrite Hc.
  - exists u, [u], rest. rewrite (proj2 (Z.ltb_ge _ _)) by lia.
    rewrite (proj2 (Z.ltb_lt u 0x10000)) by lia. split_and!; try done; lia.
  - set (c := (u - 0xd800) * 0x400 + (low - 0xdc00) + 0x10000) in *.
    exists c, [u; low], rest'. rewrite (proj2 (Z.ltb_lt _ _)) by lia.
    rewrite (proj2 (Z.ltb_ge c 0x10000)) by lia. split_and!; try done; try lia.
    unfold c. repeat f_equal; Z.to_euclidean_division_equations; lia.
Qed.

Lemma encode_point_cons c : ∃ b bs, encode_point c = b :: bs.
Proof. unfold encode_point. repeat case_match; eauto. Qed.

Lemma utf8Bytes_inj u1 u2 :
  Forall unit16 u1 → Forall unit16 u2 → utf8Bytes u1 = utf8Bytes u2 → u1 = u2.
Proof.
  remember (length u1) as n eqn:Hn. revert u1 u2 Hn.
  induction (lt_wf n) as [n _ IH]. intros [|x u1] [|y u2] Hn F1 F2 H; [done|..].
  - apply Forall_cons in F2 as [Hy _]. destruct (utf8_step y u2 Hy) as (c & ? & ? & _ & Hs & _).
    destruct (encode_point_cons c) as (b & bs & Hb). by rewrite Hs, Hb in H.
  - apply Forall_cons in F1 as [Hx _]. destruct (utf8_step x u1 Hx) as (c & ? & ? & _ & Hs & _).
    destruct (encode_point_cons c) as (b & bs & Hb). by rewrite Hs, Hb in H.
  - destruct (utf8_step x u1) as (c1 & n1 & l1 & E1 & S1 & R1 & L1 & N1); [by apply Forall_cons in F1 as []|].
    destruct (utf8_step y u2) as (c2 & n2 & l2 & E2 & S2 & R2 & L2 & N2); [by apply Forall_cons in F2 as []|].
    rewrite S1, S2 in H. apply (f_equal decode_point) in H. rewrite !decode_encode in H by done.
    injection H as <- H. rewrite E1, E2, N1, N2. f_equal.
    rewrite E1 in F1, Hn. rewrite E2 in F2. apply Forall_app in F1 as [_ F1], F2 as [_ F2].
    apply (IH (length l1)); [|done..]. rewrite Hn, length_app, L1. destruct (_ <? _); lia.
Qed.

Lemma encode_point_byte c : 0 <= c < 0x110000 → Forall byte (encode_point c).
Proof.
  intros Hc. unfold encode_point. rewrite !Z.shiftr_div_pow2, !land_low, !low_byte by lia.
  change (2 ^ 6) with 64. change (2 ^ 12) with 4096. change (2 ^ 18) with 262144.
  unfold byte. repeat case_match; repeat (apply Forall_cons; split; [|]); try apply Forall_nil; try done;
    bool_simpl; try (Z.to_euclidean_division_equations; lia).
  - assert (Z.lor 0xc0 (c / 64) = 0xc0 + c / 64) as ->
      by (apply (lor_add 6 5); [lia|Z.to_euclidean_division_equations; lia]).
    Z.to_euclidean_division_equations; lia.
  - assert (Z.lor 0xe0 (c / 4096) = 0xe0 + c / 4096) as ->
      by (apply (lor_add 14 4); [lia|Z.to_euclidean_division_equations; lia]).
    Z.to_euclidean_division_equations; lia.
  - assert (Z.lor 0xf0 (c / 262144) = 0xf0 + c / 262144) as ->
      by (apply (lor_add 30 3); [lia|Z.to_euclidean_division_equations; lia]).
    Z.to_euclidean_division_equations; lia.
Qed.

Lemma utf8Bytes_byte u : Forall unit16 u → Forall byte (utf8Bytes u).
Proof.
  remember (length u) as n eqn:Hn. revert u Hn.
  induction (lt_wf n) as [n _ IH]. intros [|x u] Hn F; [constructor|].
  destruct (utf8_step x u) as (c & now & l & E & S & R & L & _); [by apply Forall_cons in F as []|].
  rewrite S. apply Forall_app. split; [by apply encode_point_byte|]. rewrite E in F, Hn.
  apply Forall_app in F as [_ F]. apply (IH (length l)); [|done..].
  rewrite Hn, length_app, L. destruct (_ <? _); lia.
Qed.

(** What is hashed determines the text: two texts (any code units, surrogate
    pairs and lone halves included) whose padded messages are equal are the same
    text, so only the compression function itself could make two texts collide. *)
Theorem padded_utf8_determines (u1 u2 : list Z) :
  Forall unit16 u1 → Forall unit16 u2 →
  8 * Z.of_nat (length (utf8Bytes u1)) < 2 ^ 64 → 8 * Z.of_nat (length (utf8Bytes u2)) < 2 ^ 64 →
  padded (utf8Bytes u1) = padded (utf8Bytes u2) → u1 = u2.
Proof.
  intros F1 F2 L1 L2 H. rewrite !padded_fips in H. apply fips_pad_inj in H; [|done..].
  by apply utf8Bytes_inj.
Qed.

Lemma padded_utf8_witness :
  Forall unit16 [0x41; 0xd83d; 0xde00; 0xd800] ∧ Forall unit16 [0x41; 0xd83d; 0xde00; 0xd801] ∧
  padded (utf8Bytes [0x41; 0xd83d; 0xde00; 0xd800]) ≠ padded (utf8Bytes [0x41; 0xd83d; 0xde00; 0xd801]).
Proof.
  assert (Forall unit16 [0x41; 0xd83d; 0xde00; 0xd800]) as F1
    by (repeat (apply Forall_cons; split; [unfold unit16; lia|]); apply Forall_nil; exact I).
  assert (Forall unit16 [0x41; 0xd83d; 0xde00; 0xd801]) as F2
    by (repeat (apply Forall_cons; split; [unfold unit16; lia|]); apply Forall_nil; exact I).
  refine (conj F1 (conj F2 (λ H, _))).
  discriminate (padded_utf8_determines _ _ F1 F2 eq_refl eq_refl H).
Defined.

Lemma sha256Bytes_witness :
  Forall byte [97; 98; 99] ∧
  sha256Bytes [97; 98; 99] = "ba7816bf8f01cfea414140de5dae2223b00361a396177a9cb410ff61f20015ad" ∧
  sha256Bytes [97; 98; 99] = toHex (fips_sha256 [97; 98; 99]).
Proof.
  assert (Forall byte [97; 98; 99]) as F
    by (repeat (apply Forall_cons; split; [unfold byte; lia|]); apply Forall_nil; exact I).
  split; [exact F|]. split; [vm_compute; reflexivity|]. exact (proj1 (sha256Bytes_fips _ F)).
Defined.

(** Published vectors: one block, the empty message, and a message whose padding
    takes a second block. *)
Example sha256_abc :
  sha256 "abc" = "ba7816bf8f01cfea414140de5dae2223b00361a396177a9cb410ff61f20015ad".
Proof. vm_compute. reflexivity. Qed.

Example sha256_empty :
  sha256 "" = "e3b0c44298fc1c149afbf4c8996fb92427ae41e4649b934ca495991b7852b855".
Proof. vm_compute. reflexivity. Qed.

Example sha256_two_blocks :
  sha256 "abcdbcdecdefdefgefghfghighijhijkijkljklmklmnlmnomnopnopq" =
  "248d6a61d20638b8e5c026930c3e6039a33ce45964ff2167f6ecedd419db06c1".
Proof. vm_compute. reflexivity. Qed.
End Sha256.
