(* ===== verification/Cache.v ===== *)
(** * The cache of compiled artifacts

    [packages/routing/src/cache.ts] and the collections of
    [packages/routing/src/snapshot.ts]: the key an artifact is stored under, which
    writes evict it, and the content hash that proves it fresh. *)

From S2P Require Import Prelude Patterns TimeConditions FeatureCodes Plan Snapshot Json.
From S2P Require Import SnapshotValue Sha256.

Module Cache.
Import Plan Snapshot Json SnapshotValue.
#[local] Open Scope nat_scope.

(** ** Collections *)
Inductive SnapshotCollection : Set :=
| col_extensions | col_phoneNumbers | col_trunks | col_inboundRoutes | col_outboundRoutes
| col_timeConditions | col_timeConditionRules | col_ivrMenus | col_ivrMenuOptions | col_ringGroups
| col_ringGroupDestinations | col_queues | col_voicemailBoxes | col_voicemailGreetings
| col_mohClasses | col_conferences | col_parkLots | col_featureCodes | col_callBlockRules
| col_emergencyAddresses.

#[global] Instance SnapshotCollection_eq_dec : EqDecision SnapshotCollection.
Proof. solve_decision. Defined.

Definition SNAPSHOT_COLLECTIONS : list SnapshotCollection :=
  [col_extensions; col_phoneNumbers; col_trunks; col_inboundRoutes; col_outboundRoutes;
   col_timeConditions; col_timeConditionRules; col_ivrMenus; col_ivrMenuOptions; col_ringGroups;
   col_ringGroupDestinations; col_queues; col_voicemailBoxes; col_voicemailGreetings;
   col_mohClasses; col_conferences; col_parkLots; col_featureCodes; col_callBlockRules;
   col_emergencyAddresses].

Definition collection_name (c : SnapshotCollection) : string :=
  match c with
  | col_extensions => "extensions"
  | col_phoneNumbers => "phoneNumbers"
  | col_trunks => "trunks"
  | col_inboundRoutes => "inboundRoutes"
  | col_outboundRoutes => "outboundRoutes"
  | col_timeConditions => "timeConditions"
  | col_timeConditionRules => "timeConditionRules"
  | col_ivrMenus => "ivrMenus"
  | col_ivrMenuOptions => "ivrMenuOptions"
  | col_ringGroups => "ringGroups"
  | col_ringGroupDestinations => "ringGroupDestinations"
  | col_queues => "queues"
  | col_voicemailBoxes => "voicemailBoxes"
  | col_voicemailGreetings => "voicemailGreetings"
  | col_mohClasses => "mohClasses"
  | col_conferences => "conferences"
  | col_parkLots => "parkLots"
  | col_featureCodes => "featureCodes"
  | col_callBlockRules => "callBlockRules"
  | col_emergencyAddresses => "emergencyAddresses"
  end.

Definition OPTIONAL_SNAPSHOT_COLLECTIONS : list SnapshotCollection :=
  [col_voicemailGreetings; col_mohClasses; col_emergencyAddresses].

Definition isOptionalSnapshotCollection (name : string) : bool :=
  existsb (λ c, bool_decide (collection_name c = name)) OPTIONAL_SNAPSHOT_COLLECTIONS.

Definition rows_of {A} (id : A → string) (f : A → value) (rows : list A) : list (string * value) :=
  (λ x, (id x, f x)) <$> rows.

(** The rows of a collection, each with its id; an absent one is empty. *)
Definition snapshotCollection (s : OrgRoutingSnapshot) (c : SnapshotCollection)
    : list (string * value) :=
  match c with
  | col_extensions => rows_of exi_id extension_value (extensions s)
  | col_phoneNumbers => rows_of pni_id phone_number_value (phoneNumbers s)
  | col_trunks => rows_of tki_id trunk_value (trunks s)
  | col_inboundRoutes => rows_of iri_id inbound_route_value (inboundRoutes s)
  | col_outboundRoutes => rows_of ori_id outbound_route_value (outboundRoutes s)
  | col_timeConditions => rows_of tci_id time_condition_value (snap_timeConditions s)
  | col_timeConditionRules => rows_of tri_id time_rule_value (timeConditionRules s)
  | col_ivrMenus => rows_of ivi_id ivr_menu_value (ivrMenus s)
  | col_ivrMenuOptions => rows_of ivo_id ivr_option_value (ivrMenuOptions s)
  | col_ringGroups => rows_of rgi_id ring_group_value (ringGroups s)
  | col_ringGroupDestinations => rows_of rgd_id ring_member_value (ringGroupDestinations s)
  | col_queues => rows_of qui_id queue_value (queues s)
  | col_voicemailBoxes => rows_of vbi_id voicemail_box_value (voicemailBoxes s)
  | col_voicemailGreetings => rows_of vgi_id greeting_value (default [] (voicemailGreetings s))
  | col_mohClasses => rows_of mci_id moh_class_value (default [] (mohClasses s))
  | col_conferences => rows_of cfi_id conference_value (conferences s)
  | col_parkLots => rows_of pli_id park_lot_value (parkLots s)
  | col_featureCodes => rows_of fci_id feature_code_value (snap_featureCodes s)
  | col_callBlockRules => rows_of cbi_id block_rule_value (callBlockRules s)
  | col_emergencyAddresses =>
      rows_of eai_id emergency_address_value (default [] (emergencyAddresses s))
  end.

(** ** Keys *)
Definition ROUTING_CACHE_BUCKET : string := "routing-cache".
Definition ROUTING_CACHE_ARTIFACT_NAME : string := "artifact".

(** The class [[A-Za-z0-9_-]]. *)
Definition token_char (c : ascii) : bool :=
  let n := Ascii.nat_of_ascii c in
  (65 <=? n) && (n <=? 90) || (97 <=? n) && (n <=? 122) || is_digit c || (n =? 95) || (n =? 45).

(** [/^[A-Za-z0-9_-]+$/] *)
Definition KEY_TOKEN_PATTERN (s : string) : bool :=
  (0 <? String.length s) && string_forallb token_char s.

(** The error is the path of [RoutingSnapshotError]. *)
Definition routingCacheKey (organizationId : string) : result string string :=
  if negb (KEY_TOKEN_PATTERN organizationId) then Throw "organizationId"
  else Ok (organizationId +:+ "." +:+ ROUTING_CACHE_ARTIFACT_NAME).

(** [None] is the settings row. *)
Definition ROUTING_ENTITY_KINDS : list (option SnapshotCollection) :=
  (Some <$> SNAPSHOT_COLLECTIONS) ++ [None].

Definition entity_kind_name (k : option SnapshotCollection) : string :=
  match k with Some c => collection_name c | None => "settings" end.

Definition isRoutingEntityKind (value : string) : bool :=
  existsb (λ k, bool_decide (entity_kind_name k = value)) ROUTING_ENTITY_KINDS.

Definition ROUTING_TABLE_TO_ENTITY : list (string * option SnapshotCollection) :=
  [("extension", Some col_extensions); ("phone_number", Some col_phoneNumbers);
   ("trunk", Some col_trunks); ("inbound_route", Some col_inboundRoutes);
   ("outbound_route", Some col_outboundRoutes); ("time_condition", Some col_timeConditions);
   ("time_condition_rule", Some col_timeConditionRules); ("ivr_menu", Some col_ivrMenus);
   ("ivr_menu_option", Some col_ivrMenuOptions); ("ring_group", Some col_ringGroups);
   ("ring_group_destination", Some col_ringGroupDestinations); ("queue", Some col_queues);
   ("voicemail_box", Some col_voicemailBoxes); ("voicemail_greeting", Some col_voicemailGreetings);
   ("moh_class", Some col_mohClasses); ("conference", Some col_conferences);
   ("park_lot", Some col_parkLots); ("feature_code", Some col_featureCodes);
   ("call_block_rule", Some col_callBlockRules);
   ("emergency_address", Some col_emergencyAddresses); ("org_setting", None)].

(** What [in] finds on every object literal. *)
Definition OBJECT_PROTOTYPE : list string :=
  ["constructor"; "__defineGetter__"; "__defineSetter__"; "hasOwnProperty"; "__lookupGetter__";
   "__lookupSetter__"; "isPrototypeOf"; "propertyIsEnumerable"; "toString"; "valueOf"; "__proto__";
   "toLocaleString"].

(** [tableName in ROUTING_TABLE_TO_ENTITY] *)
Definition affectsRouting (tableName : string) : bool :=
  includes ROUTING_TABLE_TO_ENTITY.*1 tableName || includes OBJECT_PROTOTYPE tableName.

Inductive RoutingChangeOperation : Set := op_insert | op_update | op_delete.

Record RoutingSnapshotChange := {
  ch_organizationId : string;
  ch_table : string;
  ch_operation : RoutingChangeOperation;
  ch_entityId : option string }.

Definition invalidationKeysFor (change : RoutingSnapshotChange) : result string (list string) :=
  if affectsRouting (ch_table change)
  then match routingCacheKey (ch_organizationId change) with
       | Ok key => Ok [key]
       | Throw e => Throw e
       end
  else Ok [].

(** The loop that adds the keys of each change to a set. *)
Fixpoint batch_keys (keys : list string) (changes : list RoutingSnapshotChange)
    : result string (list string) :=
  match changes with
  | [] => Ok keys
  | change :: rest =>
      match invalidationKeysFor change with
      | Throw e => Throw e
      | Ok ks => batch_keys (foldl (λ keys k, if includes keys k then keys else keys ++ [k]) keys ks) rest
      end
  end.

Definition invalidationKeysForBatch (changes : list RoutingSnapshotChange)
    : result string (list string) :=
  match batch_keys [] changes with
  | Ok keys => Ok (sort_strings keys)
  | Throw e => Throw e
  end.

(** ** The content hash *)
Definition sortById (rows : list (string * value)) : list (string * value) :=
  js_sort (by_key fst) rows.

Definition collection_value (s : OrgRoutingSnapshot) (c : SnapshotCollection) : value :=
  VArray (snd <$> sortById (snapshotCollection s c)).

Definition snapshot_value (s : OrgRoutingSnapshot) : value :=
  VObject true
    ([("organizationId", VString (organizationId s));
      ("settings", match snap_settings s with Some x => settings_value x | None => VNull end)] ++
     ((λ c, (collection_name c, collection_value s c)) <$> SNAPSHOT_COLLECTIONS)).

Section Hash.
Context (number_text : Qc → string).

Definition canonicalizeSnapshot (s : OrgRoutingSnapshot) : result string string :=
  canonicalJson number_text (snapshot_value s).

Definition snapshotHash (s : OrgRoutingSnapshot) : result string string :=
  match canonicalizeSnapshot s with
  | Ok text => Ok (Sha256.sha256 text)
  | Throw e => Throw e
  end.

(** [organizationId] and [hash] are those of the artifact. *)
Definition isArtifactFresh (org hash : string) (s : OrgRoutingSnapshot) : result string bool :=
  if negb (bool_decide (org = organizationId s)) then Ok false
  else match snapshotHash s with
       | Ok h => Ok (bool_decide (hash = h))
       | Throw e => Throw e
       end.
End Hash.

(** ** Eviction *)
Lemma append_inj_r (s1 s2 t : string) : s1 +:+ t = s2 +:+ t → s1 = s2.
Proof.
  intros H. assert (String.length s1 = String.length s2) as Hlen.
  { apply (f_equal String.length) in H. rewrite !append_length in H. lia. }
  revert s2 H Hlen. induction s1 as [|c s1 IH]; intros [|d s2] H Hlen; try done.
  injection H as -> H. f_equal. apply IH; [done|]. by injection Hlen.
Qed.

Lemma routingCacheKey_inj o1 o2 k :
  routingCacheKey o1 = Ok k → routingCacheKey o2 = Ok k → o1 = o2.
Proof.
  unfold routingCacheKey. destruct (negb (KEY_TOKEN_PATTERN o1)), (negb (KEY_TOKEN_PATTERN o2)); try done.
  intros [= <-] [= H]. symmetry. by eapply append_inj_r.
Qed.

(** The keys the changes ask for. *)
Definition evicts (change : RoutingSnapshotChange) (k : string) : Prop :=
  affectsRouting (ch_table change) = true ∧ routingCacheKey (ch_organizationId change) = Ok k.

Lemma invalidationKeysFor_spec change ks k :
  invalidationKeysFor change = Ok ks → k ∈ ks ↔ evicts change k.
Proof.
  unfold invalidationKeysFor, evicts. destruct (affectsRouting _); [|intros [= <-]; set_solver].
  destruct (routingCacheKey _) as [key|]; [|done]. intros [= <-].
  rewrite list_elem_of_singleton. naive_solver.
Qed.

Lemma add_keys (keys ks : list string) k :
  NoDup keys → let keys' := foldl (λ keys k, if includes keys k then keys else keys ++ [k]) keys ks in
  NoDup keys' ∧ (k ∈ keys' ↔ k ∈ keys ∨ k ∈ ks).
Proof.
  revert keys. induction ks as [|x ks IH]; intros keys Hnd; simpl; [set_solver|].
  destruct (includes keys x) eqn:Hx.
  - apply includes_spec in Hx. destruct (IH keys Hnd) as [? ->]. set_solver.
  - apply includes_false in Hx. destruct (IH (keys ++ [x])) as [? ->]; [|set_solver].
    apply NoDup_app. split_and!; [done|set_solver|apply NoDup_singleton].
Qed.

Lemma batch_keys_spec keys changes out :
  NoDup keys → batch_keys keys changes = Ok out →
  NoDup out ∧ ∀ k, k ∈ out ↔ k ∈ keys ∨ ∃ change, change ∈ changes ∧ evicts change k.
Proof.
  revert keys. induction changes as [|change changes IH]; intros keys Hnd H; simpl in H.
  { injection H as <-. set_solver. }
  destruct (invalidationKeysFor change) as [ks|] eqn:Hks; [|done].
  set (keys' := foldl _ keys ks) in H.
  destruct (IH keys' (proj1 (add_keys keys ks "" Hnd)) H) as [Hout Hspec]. split; [done|].
  intros k. rewrite Hspec. unfold keys'. rewrite (proj2 (add_keys keys ks k Hnd)).
  rewrite (invalidationKeysFor_spec _ _ k Hks). set_solver.
Qed.

Lemma table_of_kind kind :
  kind ∈ ROUTING_ENTITY_KINDS →
  ∃ table, (table, kind) ∈ ROUTING_TABLE_TO_ENTITY ∧ affectsRouting table = true.
Proof.
  intros _. assert (∃ table, find_first (λ kv, bool_decide (kv.2 = kind)) ROUTING_TABLE_TO_ENTITY =
    Some (table, kind) ∧ affectsRouting table = true) as (table & Hf & Ha).
  { destruct kind as [[]|]; eexists; (split; [vm_compute; reflexivity|vm_compute; reflexivity]). }
  exists table. by apply find_first_Some in Hf as [? _].
Qed.

(** Eviction is exact: a batch of writes evicts each key some write asks for and
    no other, once and in order, whatever order the writes came in; a write asks for
    its own organization's key and only when it touches a routing input; every
    collection the compiler reads, and the settings, has a table that evicts; and
    two organizations never share a key. *)
Theorem invalidation_exact (changes changes' : list RoutingSnapshotChange) (keys : list string) :
  invalidationKeysForBatch changes = Ok keys →
  NoDup keys ∧ StronglySorted (λ k k', String.ltb k k' = true) keys ∧
  (∀ k, k ∈ keys ↔ ∃ change, change ∈ changes ∧ evicts change k) ∧
  (changes ≡ₚ changes' → ∀ keys', invalidationKeysForBatch changes' = Ok keys' → keys' = keys) ∧
  (∀ c1 c2 k, evicts c1 k → evicts c2 k → ch_organizationId c1 = ch_organizationId c2) ∧
  (∀ kind, kind ∈ ROUTING_ENTITY_KINDS →
     ∃ table, (table, kind) ∈ ROUTING_TABLE_TO_ENTITY ∧ affectsRouting table = true).
Proof.
  unfold invalidationKeysForBatch. destruct (batch_keys [] changes) as [out|] eqn:Hb; [|done].
  intros [= <-]. destruct (batch_keys_spec [] changes out (NoDup_nil_2) Hb) as [Hnd Hspec].
  assert (∀ k, k ∈ sort_strings out ↔ ∃ change, change ∈ changes ∧ evicts change k) as Hmem.
  { intros k. unfold sort_strings. rewrite elem_of_js_sort, Hspec, elem_of_nil. naive_solver. }
  split_and!; [|apply sort_strings_sorted; done|done| | |].
  - unfold sort_strings. by rewrite js_sort_Permutation.
  - intros Hp keys'. destruct (batch_keys [] changes') as [out'|] eqn:Hb'; [|done]. intros [= <-].
    destruct (batch_keys_spec [] changes' out' (NoDup_nil_2) Hb') as [Hnd' Hspec'].
    apply (sort_by_key_perm (λ k : string, k)); [by rewrite list_fmap_id|].
    apply NoDup_Permutation; [done..|]. intros k. rewrite Hspec, Hspec'. by setoid_rewrite Hp.
  - intros c1 c2 k [_ H1] [_ H2]. by eapply routingCacheKey_inj.
  - intros kind Hk. apply table_of_kind in Hk. done.
Qed.

(** ** Freshness *)
Lemma rows_serializable s c kv : kv ∈ snapshotCollection s c → serializable kv.2.
Proof.
  destruct c; simpl; unfold rows_of; intros (x & -> & _)%list_elem_of_fmap; simpl; auto with plain.
Qed.

Lemma collection_serializable s c : serializable (collection_value s c).
Proof.
  assert (∀ l : list (string * value), (∀ kv, kv ∈ l → serializable kv.2) →
    serializable (VArray (snd <$> l))) as Hl; [|by apply Hl; intros kv; unfold sortById;
      rewrite elem_of_js_sort; apply rows_serializable].
  intros l Hl. right. simpl. rewrite fmap_is_Some. apply all_some_is_Some.
  induction l as [|[k v] l IH]; simpl; constructor; [|apply IH; intros; by apply Hl, list_elem_of_further].
  destruct (Hl (k, v) (list_elem_of_here _ _)) as [Hv|Hv]; simpl in Hv; [subst v; by eexists|].
  destruct v; try exact Hv. by destruct Hv.
Qed.

Lemma snapshot_serializable s : is_Some (content (snapshot_value s)).
Proof.
  apply object_serializable, Forall_forall. intros [k v].
  rewrite elem_of_app, !elem_of_cons, elem_of_nil, list_elem_of_fmap. cbn [snd].
  intros [[[= -> ->]|[[= -> ->]|[]]]|(c & [= -> ->] & _)].
  - apply plain_string.
  - destruct (snap_settings s); auto with plain.
  - apply collection_serializable.
Qed.

(** The same organization, settings and rows, in whatever order they were loaded;
    an absent optional collection is an empty one. *)
Definition same_rows (s1 s2 : OrgRoutingSnapshot) : Prop :=
  organizationId s1 = organizationId s2 ∧ snap_settings s1 = snap_settings s2 ∧
  ∀ c, NoDup (snapshotCollection s1 c).*1 ∧ snapshotCollection s1 c ≡ₚ snapshotCollection s2 c.

Lemma same_rows_value s1 s2 : same_rows s1 s2 → snapshot_value s1 = snapshot_value s2.
Proof.
  intros (Ho & Hs & Hc). unfold snapshot_value. rewrite Ho, Hs. do 2 f_equal.
  apply list_fmap_ext. intros i c _. unfold collection_value, sortById.
  destruct (Hc c) as [Hnd Hp]. by rewrite (sort_by_key_perm fst _ _ Hnd Hp).
Qed.

Section Fresh.
Context (number_text : Qc → string).
Context (number_some : ∀ q, number_text q ≠ "").
Context (number_chars : ∀ q, string_forallb number_char (number_text q) = true).
Context (number_inj : Inj (=) (=) number_text).

Lemma snapshotHash_total s :
  ∃ text, canonicalizeSnapshot number_text s = Ok text ∧
          snapshotHash number_text s = Ok (Sha256.sha256 text).
Proof.
  unfold snapshotHash, canonicalizeSnapshot, canonicalJson.
  pose proof (write_prints number_text (snapshot_value s) "$") as Hw.
  destruct (snapshot_serializable s) as [j Hj]. rewrite Hj in Hw. unfold prints in Hw. rewrite Hw. eauto.
Qed.

(** C33. Freshness is content: every snapshot has a hash; an artifact compiled from a
    snapshot is fresh for any load of the same rows, in whatever order they come;
    and when it is taken to be fresh for another snapshot, that one has the same
    organization and the same content, or two different texts collide under
    SHA-256. *)
Theorem isArtifactFresh_content (s1 s2 : OrgRoutingSnapshot) (h : string) :
  snapshotHash number_text s1 = Ok h →
  (same_rows s1 s2 → isArtifactFresh number_text (organizationId s1) h s2 = Ok true) ∧
  (isArtifactFresh number_text (organizationId s1) h s2 = Ok true →
   organizationId s1 = organizationId s2 ∧
   (content (snapshot_value s1) = content (snapshot_value s2) ∨
    ∃ t1 t2, canonicalizeSnapshot number_text s1 = Ok t1 ∧
      canonicalizeSnapshot number_text s2 = Ok t2 ∧ t1 ≠ t2 ∧ Sha256.sha256 t1 = Sha256.sha256 t2)).
Proof.
  intros Hh. destruct (snapshotHash_total s1) as (t1 & C1 & H1), (snapshotHash_total s2) as (t2 & C2 & H2).
  rewrite Hh in H1. injection H1 as ->. unfold isArtifactFresh. rewrite H2. split.
  - intros Hsame. destruct (Hsame) as (Ho & _). rewrite bool_decide_true by done. cbn [negb].
    rewrite bool_decide_true; [done|]. unfold canonicalizeSnapshot in *.
    rewrite (same_rows_value _ _ Hsame) in C1. congruence.
  - case_bool_decide as Ho; cbn [negb]; [|done]. intros [= Heq%bool_decide_eq_true]. split; [done|].
    destruct (decide (t1 = t2)) as [->|Hne]; [left|right; by exists t1, t2].
    pose proof (write_prints number_text (snapshot_value s1) "$") as W1.
    pose proof (write_prints number_text (snapshot_value s2) "$") as W2.
    destruct (snapshot_serializable s1) as [j1 J1], (snapshot_serializable s2) as [j2 J2].
    unfold canonicalizeSnapshot, canonicalJson in *. rewrite J1, C1 in W1. rewrite J2, C2 in W2.
    unfold prints in W1, W2. rewrite J1, J2. f_equal.
    apply (print_inj number_text number_some number_chars number_inj). congruence.
Qed.
End Fresh.

(** ** Witnesses *)
Definition demo_change (org table : string) : RoutingSnapshotChange :=
  {| ch_organizationId := org; ch_table := table; ch_operation := op_update; ch_entityId := None |}.

Lemma invalidation_witness :
  invalidationKeysForBatch [demo_change "org-2" "trunk"; demo_change "org-1" "extension";
    demo_change "org-2" "queue"; demo_change "org-3" "cdr"] = Ok ["org-1.artifact"; "org-2.artifact"] ∧
  NoDup ["org-1.artifact"; "org-2.artifact"].
Proof.
  assert (invalidationKeysForBatch [demo_change "org-2" "trunk"; demo_change "org-1" "extension";
    demo_change "org-2" "queue"; demo_change "org-3" "cdr"] =
    Ok ["org-1.artifact"; "org-2.artifact"]) as H by (vm_compute; reflexivity).
  split; [exact H|]. exact (proj1 (invalidation_exact _ [] _ H)).
Defined.

Definition demo_trunk (id : string) : TrunkInput :=
  {| tki_id := id; tki_enabled := true; tki_name := "carrier " +:+ id; tki_kind := trunk_register;
     tki_sipDomain := "sip.example"; tki_sipProxy := "sip.example"; tki_outboundProxy := Undefined;
     tki_transport := tls; tki_codecPrefs := Null; tki_maxChannels := Value 10%Z;
     tki_callerIdNumberOverride := Undefined |}.

Definition demo_snapshot (ids : list string) (moh : option (list MohClassInput)) : OrgRoutingSnapshot :=
  let s := emptySnapshot "org-1" in
  {| organizationId := organizationId s; snap_settings := None; extensions := []; phoneNumbers := [];
     trunks := demo_trunk <$> ids; inboundRoutes := []; outboundRoutes := []; snap_timeConditions := [];
     timeConditionRules := []; ivrMenus := []; ivrMenuOptions := []; ringGroups := [];
     ringGroupDestinations := []; queues := []; voicemailBoxes := []; voicemailGreetings := None;
     mohClasses := moh; conferences := []; parkLots := []; snap_featureCodes := [];
     callBlockRules := []; emergencyAddresses := None |}.

Lemma demo_same_rows : same_rows (demo_snapshot ["b"; "a"] None) (demo_snapshot ["a"; "b"] (Some [])).
Proof.
  split; [done|]. split; [done|]. intros c. destruct c; try (split; [constructor|done]). split.
  - apply NoDup_cons. split; [|apply NoDup_singleton]. intros Hin. by apply list_elem_of_singleton in Hin.
  - apply Permutation_swap.
Qed.

Lemma isArtifactFresh_witness :
  ∃ h, snapshotHash rational_text (demo_snapshot ["b"; "a"] None) = Ok h ∧
       isArtifactFresh rational_text "org-1" h (demo_snapshot ["a"; "b"] (Some [])) = Ok true.
Proof.
  destruct (snapshotHash_total rational_text (demo_snapshot ["b"; "a"] None)) as (x & _ & Hh).
  eexists. split; [exact Hh|].
  exact (proj1 (isArtifactFresh_content rational_text rational_text_some rational_text_chars
    rational_text_inj _ _ _ Hh) demo_same_rows).
Defined.
End Cache.
