(* ===== verification/PinHash.v ===== *)
(** * The PIN digest of a mailbox or a conference

    [packages/routing/src/voicemail-pin.ts]: the text
    [scrypt$N=..,r=..,p=..$salt$hash], its parser with one issue per rule, and the
    bounds that keep a stored digest from asking the key derivation for more
    memory than the process has. *)

From stdpp Require Import pretty.
From S2P Require Import Prelude TimeConditions.

Module PinHash.
Import TimeConditions.

Definition VOICEMAIL_PIN_HASH_SCHEME : string := "scrypt".
Definition DERIVED_KEY_BYTES : Z := 32.
Definition MIN_SALT_BYTES : Z := 16.
Definition MAX_COST : Z := Z.shiftl 1 20.
Definition MAX_BLOCK_SIZE : Z := 32.
Definition MAX_PARALLELISM : Z := 16.
Definition MAX_MEMORY_BYTES : Z := 64 * 1024 * 1024.

Record VoicemailPinScryptParams := { cost : Z; blockSize : Z; parallelism : Z }.

Definition DEFAULT_VOICEMAIL_PIN_SCRYPT_PARAMS : VoicemailPinScryptParams :=
  {| cost := 16384; blockSize := 8; parallelism := 1 |}.

Definition scryptMemoryBytes (p : VoicemailPinScryptParams) : Z := 128 * cost p * blockSize p.

Record ParsedVoicemailPinHash := {
  params : VoicemailPinScryptParams;
  saltBase64 : string;
  hashBase64 : string }.

Inductive VoicemailPinHashIssue : Set :=
| pin_empty | pin_malformed | pin_unknown_scheme | pin_invalid_params | pin_params_out_of_range
| pin_invalid_salt | pin_invalid_hash.

Definition dollar : ascii := Ascii.ascii_of_nat 36.

(** [s.split(separator)] for a separator of one character. *)
Fixpoint split_on (separator : ascii) (s : string) : list string :=
  match s with
  | EmptyString => [""]
  | String c s' =>
      if Ascii.eqb c separator then "" :: split_on separator s'
      else match split_on separator s' with
           | field :: rest => String c field :: rest
           | [] => [String c ""]
           end
  end.

(** The longest prefix of digits and what follows it: [\d] is greedy and what
    follows a number in the pattern is never a digit. *)
Fixpoint span_digits (s : string) : string * string :=
  match s with
  | EmptyString => ("", "")
  | String c s' =>
      if is_digit c then let '(d, rest) := span_digits s' in (String c d, rest) else ("", s)
  end.

(** [<prefix>(\d{1,max})] at the head of the text. *)
Definition number_field (prefix : string) (max : nat) (s : string) : option (Z * string) :=
  if startsWith s prefix then
    let '(d, rest) := span_digits (sdrop (String.length prefix) s) in
    if (1 <=? String.length d) && (String.length d <=? max) then Some (digits_value 0 d, rest)
    else None
  else None.

(** [/^N=(\d{1,10}),r=(\d{1,4}),p=(\d{1,4})$/.exec(s)] *)
Definition PARAMS_PATTERN (s : string) : option VoicemailPinScryptParams :=
  match number_field "N=" 10 s with
  | None => None
  | Some (n, s) =>
      match number_field ",r=" 4 s with
      | None => None
      | Some (r, s) =>
          match number_field ",p=" 4 s with
          | Some (p, EmptyString) => Some {| cost := n; blockSize := r; parallelism := p |}
          | _ => None
          end
      end
  end.

Definition formatVoicemailPinHash (p : VoicemailPinScryptParams) (salt hash : string) : string :=
  VOICEMAIL_PIN_HASH_SCHEME +:+ "$" +:+
  ("N=" +:+ pretty (cost p) +:+ ",r=" +:+ pretty (blockSize p) +:+ ",p=" +:+ pretty (parallelism p)) +:+
  "$" +:+ salt +:+ "$" +:+ hash.

(** [&] works on 32-bit integers. *)
Definition isPowerOfTwo (value : Z) : bool :=
  (0 <? value)%Z && (Z.land (value mod 2 ^ 32) ((value - 1) mod 2 ^ 32) =? 0)%Z.

Definition base64_char (c : ascii) : bool :=
  let n := Ascii.nat_of_ascii c in
  ((65 <=? n) && (n <=? 90)) || ((97 <=? n) && (n <=? 122)) || is_digit c || (n =? 43) || (n =? 47).

(** [/^[A-Za-z0-9+/]+={0,2}$/.test(s)]: the class does not contain [=]. *)
Definition BASE64_PATTERN (s : string) : bool :=
  let body :=
    if endsWith s "==" then String.substring 0 (String.length s - 2) s
    else if endsWith s "=" then String.substring 0 (String.length s - 1) s
    else s in
  negb (String.length body =? 0) && string_forallb base64_char body.

Definition base64ByteLength (value : string) : option Z :=
  if (String.length value =? 0) || negb (Nat.modulo (String.length value) 4 =? 0) ||
     negb (BASE64_PATTERN value) then None
  else
    let padding := (if endsWith value "==" then 2 else if endsWith value "=" then 1 else 0)%Z in
    Some (Z.of_nat (String.length value) / 4 * 3 - padding)%Z.

Definition isBase64OfAtLeast (value : string) (bytes : Z) : bool :=
  match base64ByteLength value with Some n => (bytes <=? n)%Z | None => false end.

Definition isBase64OfExactly (value : string) (bytes : Z) : bool :=
  bool_decide (base64ByteLength value = Some bytes).

(** The parameters [inspect] accepts. *)
Definition params_in_range (p : VoicemailPinScryptParams) : bool :=
  negb (negb (isPowerOfTwo (cost p)) || (cost p <? 2)%Z || (MAX_COST <? cost p)%Z ||
        (blockSize p <? 1)%Z || (MAX_BLOCK_SIZE <? blockSize p)%Z ||
        (parallelism p <? 1)%Z || (MAX_PARALLELISM <? parallelism p)%Z ||
        (MAX_MEMORY_BYTES <? scryptMemoryBytes p)%Z).

(** Exactly one of a digest and an issue. *)
Definition inspect (value : option string) : VoicemailPinHashIssue + ParsedVoicemailPinHash :=
  let trimmed := default "" (trim <$> value) in
  if bool_decide (trimmed = "") then inl pin_empty
  else
    match split_on dollar trimmed with
    | [scheme; rawParams; salt; hash] =>
        if negb (bool_decide (scheme = VOICEMAIL_PIN_HASH_SCHEME)) then inl pin_unknown_scheme
        else
          match PARAMS_PATTERN rawParams with
          | None => inl pin_invalid_params
          | Some p =>
              if negb (params_in_range p) then inl pin_params_out_of_range
              else if negb (isBase64OfAtLeast salt MIN_SALT_BYTES) then inl pin_invalid_salt
              else if negb (isBase64OfExactly hash DERIVED_KEY_BYTES) then inl pin_invalid_hash
              else inr {| params := p; saltBase64 := salt; hashBase64 := hash |}
          end
    | _ => inl pin_malformed
    end.

Definition parseVoicemailPinHash (value : option string) : option ParsedVoicemailPinHash :=
  match inspect value with inr h => Some h | inl _ => None end.

Definition isVoicemailPinHash (value : option string) : bool :=
  match inspect value with inr _ => true | inl _ => false end.

Definition voicemailPinHashIssue (value : option string) : option VoicemailPinHashIssue :=
  match inspect value with inr _ => None | inl issue => Some issue end.

(** ** Powers of two *)
Lemma land_pred_zero n : (0 < n)%Z → Z.land n (n - 1) = 0%Z → n = (2 ^ Z.log2 n)%Z.
Proof.
  intros Hn Hl. pose proof (Z.log2_spec n Hn) as [Hlo Hhi]. pose proof (Z.log2_nonneg n) as Hk.
  destruct (Z.eq_dec n (2 ^ Z.log2 n)) as [|Hne]; [done|exfalso].
  assert (Z.log2 (n - 1) = Z.log2 n) as Hlog.
  { apply Z.log2_unique; [done|]. rewrite <- Z.add_1_r in *. lia. }
  assert (Z.testbit (Z.land n (n - 1)) (Z.log2 n) = true) as Hb.
  { rewrite Z.land_spec. rewrite Z.bit_log2 by done. rewrite <- Hlog at 1.
    rewrite Z.bit_log2; [done|]. pose proof (Z.pow_pos_nonneg 2 (Z.log2 n) ltac:(lia) Hk). lia. }
  rewrite Hl, Z.bits_0 in Hb. done.
Qed.

Lemma params_in_range_spec p :
  params_in_range p = true →
  (∃ k, 1 <= k <= 20 ∧ cost p = 2 ^ k)%Z ∧ (1 <= blockSize p <= MAX_BLOCK_SIZE)%Z ∧
  (1 <= parallelism p <= MAX_PARALLELISM)%Z ∧ (scryptMemoryBytes p <= MAX_MEMORY_BYTES)%Z.
Proof.
  unfold params_in_range. rewrite negb_true_iff, !orb_false_iff, !Z.ltb_ge, negb_false_iff.
  intros (((((((Hp & H2) & Hmax) & Hr1) & Hr2) & Hp1) & Hp2) & Hm). split_and!; try done.
  change MAX_COST with (2 ^ 20)%Z in Hmax.
  unfold isPowerOfTwo in Hp. apply andb_true_iff in Hp as [H0 Hland].
  apply Z.ltb_lt in H0. apply Z.eqb_eq in Hland. rewrite !Z.mod_small in Hland by lia.
  apply land_pred_zero in Hland; [|done]. exists (Z.log2 (cost p)). split; [|done].
  split.
  - apply (Z.log2_le_mono 2); lia.
  - rewrite <- (Z.log2_pow2 20) by lia. by apply Z.log2_le_mono.
Qed.

(** C36. A stored digest cannot exhaust the process: whatever text is stored, if the
    parser accepts it then the cost is a power of two up to [2^20], block size and
    parallelism are in their bounds, the working set [128 N r] is at most 64 MiB,
    the salt has at least 16 bytes and the key exactly 32. *)
Theorem accepted_digest_bounded (value : option string) (h : ParsedVoicemailPinHash) :
  parseVoicemailPinHash value = Some h →
  (∃ k, 1 <= k <= 20 ∧ cost (params h) = 2 ^ k)%Z ∧
  (1 <= blockSize (params h) <= 32)%Z ∧ (1 <= parallelism (params h) <= 16)%Z ∧
  (128 * cost (params h) * blockSize (params h) <= 64 * 1024 * 1024)%Z ∧
  (∃ n, base64ByteLength (saltBase64 h) = Some n ∧ 16 <= n)%Z ∧
  base64ByteLength (hashBase64 h) = Some 32%Z.
Proof.
  unfold parseVoicemailPinHash, inspect.
  destruct (bool_decide _); [done|].
  destruct (split_on _ _) as [|scheme [|raw [|salt [|hash [|? ?]]]]]; try done.
  destruct (negb (bool_decide _)); [done|]. destruct (PARAMS_PATTERN raw) as [p|]; [|done].
  destruct (params_in_range p) eqn:Hp; [|done].
  destruct (isBase64OfAtLeast salt MIN_SALT_BYTES) eqn:Hs; [|done].
  destruct (isBase64OfExactly hash DERIVED_KEY_BYTES) eqn:Hh; [|done]. simpl. intros [= <-]. simpl.
  apply params_in_range_spec in Hp as (Hc & Hr & Hpa & Hm).
  apply bool_decide_eq_true in Hh. unfold isBase64OfAtLeast in Hs.
  destruct (base64ByteLength salt) as [n|]; [|done]. apply Z.leb_le in Hs.
  refine (conj Hc (conj Hr (conj Hpa (conj Hm (conj _ Hh))))). by exists n.
Qed.

(** ** Printing and parsing *)
#[local] Arguments String.append !_ _ : simpl nomatch.

Lemma string_app_assoc (a b c : string) : a +:+ b +:+ c = (a +:+ b) +:+ c.
Proof. induction a as [|x a IH]; [done|]. cbn. by f_equal. Qed.

Lemma digits_value_app d1 d2 acc :
  all_digits d1 = true → digits_value acc (d1 +:+ d2) = digits_value (digits_value acc d1) d2.
Proof.
  revert acc. induction d1 as [|c d1 IH]; intros acc Hd; [done|].
  apply all_digits_cons in Hd as (d & E & _ & _ & Hd). cbn. rewrite E. by apply IH.
Qed.

Lemma all_digits_app d1 d2 : all_digits (d1 +:+ d2) = all_digits d1 && all_digits d2.
Proof.
  unfold all_digits. induction d1 as [|c d1 IH]; [done|]. cbn. rewrite IH. by rewrite andb_assoc.
Qed.

Lemma string_length_app (a b : string) : String.length (a +:+ b) = String.length a + String.length b.
Proof. induction a as [|x a IH]; [done|]. cbn. by rewrite IH. Qed.

Lemma pretty_char_digit x :
  (x < 10)%N → digit_value (pretty_N_char x) = Some (Z.of_N x) ∧ is_digit (pretty_N_char x) = true.
Proof.
  intros Hx.
  assert (x = 0 ∨ x = 1 ∨ x = 2 ∨ x = 3 ∨ x = 4 ∨ x = 5 ∨ x = 6 ∨ x = 7 ∨ x = 8 ∨ x = 9)%N as H by lia.
  destruct_or! H; subst; done.
Qed.

Lemma pretty_go_digits x s :
  ∃ d, pretty_N_go x s = d +:+ s ∧ all_digits d = true ∧ digits_value 0 d = Z.of_N x ∧
       ∀ k, (x < 10 ^ N.of_nat k)%N → String.length d <= k.
Proof.
  revert s. induction (N.lt_wf_0 x) as [x _ IH]; intros s.
  assert (x = 0 ∨ 0 < x)%N as [->|Hx] by lia.
  { exists "". rewrite pretty_N_go_0. split_and!; try done. intros k _. cbn. lia. }
  rewrite pretty_N_go_step by done.
  destruct (IH (x `div` 10)%N ltac:(by apply N.div_lt) (String (pretty_N_char (x `mod` 10)) s))
    as (d & -> & Hd & Hv & Hlen).
  assert (x `mod` 10 < 10)%N as Hm by (by apply N.mod_lt).
  destruct (pretty_char_digit _ Hm) as [Hc Hdig].
  exists (d +:+ String (pretty_N_char (x `mod` 10)) ""). split_and!.
  - by rewrite <- string_app_assoc.
  - rewrite all_digits_app, Hd. unfold all_digits. cbn [string_forallb]. by rewrite Hdig.
  - rewrite digits_value_app, Hv by done. cbn [digits_value]. rewrite Hc.
    pose proof (N.div_mod x 10 ltac:(done)). lia.
  - intros k Hk. rewrite string_length_app. cbn. destruct k as [|k].
    { simpl in Hk. lia. }
    enough (String.length d <= k) by lia. apply Hlen. apply N.Div0.div_lt_upper_bound.
    rewrite Nat2N.inj_succ, N.pow_succ_r' in Hk. done.
Qed.

(** A positive number prints as digits that read back as the number. *)
Lemma pretty_digits (n : Z) (k : nat) :
  (0 < n < 10 ^ Z.of_nat k)%Z →
  all_digits (pretty n) = true ∧ digits_value 0 (pretty n) = n ∧ 1 <= String.length (pretty n) <= k.
Proof.
  intros Hn. destruct n as [|p|p]; try lia.
  change (pretty (Z.pos p)) with (pretty_N_go (N.pos p) "").
  destruct (pretty_go_digits (N.pos p) "") as (d & -> & Hd & Hv & Hlen).
  assert (d +:+ "" = d) as -> by (clear; induction d as [|c d IH]; [done|]; cbn; by f_equal).
  split_and!; [done|by rewrite Hv| |].
  - destruct d as [|c d]; cbn; [|lia]. cbn in Hv. lia.
  - apply Hlen. apply N2Z.inj_lt. rewrite N2Z.inj_pow. rewrite nat_N_Z. simpl. lia.
Qed.

Lemma span_digits_app d rest :
  all_digits d = true →
  match rest with EmptyString => True | String c _ => is_digit c = false end →
  span_digits (d +:+ rest) = (d, rest).
Proof.
  intros Hd Hr. induction d as [|c d IH].
  - destruct rest as [|c rest]; [done|]. cbn. by rewrite Hr.
  - unfold all_digits in *. cbn in *. apply andb_true_iff in Hd as [Hc Hd]. rewrite Hc.
    by rewrite (IH Hd).
Qed.

Lemma startsWith_app p s : startsWith (p +:+ s) p = true ∧ sdrop (String.length p) (p +:+ s) = s.
Proof.
  unfold startsWith. induction p as [|c p [IH1 IH2]]; [by destruct s|]. cbn.
  destruct (Ascii.ascii_dec c c); [done|done].
Qed.

Lemma number_field_app prefix max n rest :
  (0 < n < 10 ^ Z.of_nat max)%Z →
  match rest with EmptyString => True | String c _ => is_digit c = false end →
  number_field prefix max (prefix +:+ pretty n +:+ rest) = Some (n, rest).
Proof.
  intros Hn Hr. unfold number_field. destruct (startsWith_app prefix (pretty n +:+ rest)) as [-> ->].
  destruct (pretty_digits n max Hn) as (Hd & Hv & Hlen). rewrite span_digits_app by done.
  replace (1 <=? String.length (pretty n)) with true by (symmetry; apply Nat.leb_le; lia).
  replace (String.length (pretty n) <=? max) with true by (symmetry; apply Nat.leb_le; lia).
  simpl. by rewrite Hv.
Qed.

Lemma split_on_app a rest :
  string_forallb (λ c, negb (Ascii.eqb c dollar)) a = true →
  split_on dollar (a +:+ "$" +:+ rest) = a :: split_on dollar rest.
Proof.
  intros Ha. induction a as [|c a IH]; cbn [split_on String.append string_forallb] in *.
  - done.
  - apply andb_true_iff in Ha as [Hc Ha]. apply negb_true_iff in Hc. rewrite Hc.
    by rewrite (IH Ha).
Qed.

Lemma split_on_last sep a :
  string_forallb (λ c, negb (Ascii.eqb c sep)) a = true → split_on sep a = [a].
Proof.
  intros Ha. induction a as [|c a IH]; cbn in *; [done|].
  apply andb_true_iff in Ha as [Hc Ha]. apply negb_true_iff in Hc. rewrite Hc. by rewrite (IH Ha).
Qed.

Lemma substring_all s : String.substring 0 (String.length s) s = s.
Proof. induction s as [|c s IH]; [done|]. cbn. by rewrite IH. Qed.

Lemma substring_split n s :
  n <= String.length s →
  String.substring 0 n s +:+ String.substring n (String.length s - n) s = s.
Proof.
  revert n. induction s as [|c s IH]; intros [|n] Hn; cbn in *; try lia; [done| |].
  - by rewrite substring_all.
  - f_equal. apply IH. lia.
Qed.

Lemma endsWith_split s p :
  endsWith s p = true → s = String.substring 0 (String.length s - String.length p) s +:+ p.
Proof.
  unfold endsWith. intros [Hl Hs]%andb_true_iff. apply Nat.leb_le in Hl. apply bool_decide_eq_true in Hs.
  rewrite <- (substring_split (String.length s - String.length p) s) at 1 by lia. f_equal.
  by replace (String.length s - (String.length s - String.length p)) with (String.length p) by lia.
Qed.

Lemma string_forallb_ends q s p :
  endsWith s p = true →
  string_forallb q (String.substring 0 (String.length s - String.length p) s) = true →
  string_forallb q p = true → string_forallb q s = true.
Proof.
  intros He Hb Hp. apply endsWith_split in He.
  set (body := String.substring _ _ _) in *. clearbody body. subst s.
  by rewrite string_forallb_append, Hb, Hp.
Qed.

(** Neither a separator nor white space. *)
Definition field_char (c : ascii) : bool := negb (Ascii.eqb c dollar) && negb (is_space c).

Lemma base64_field c : base64_char c = true → field_char c = true.
Proof. destruct c as [[] [] [] [] [] [] [] []]; vm_compute; congruence. Qed.

Lemma base64_fields s n :
  base64ByteLength s = Some n → string_forallb field_char s = true ∧ s ≠ "".
Proof.
  unfold base64ByteLength. destruct (String.length s =? 0) eqn:E0; [done|].
  destruct (negb (Nat.modulo _ _ =? 0)); [done|]. destruct (BASE64_PATTERN s) eqn:Hb; [|done].
  intros _. split; [|by intros ->]. unfold BASE64_PATTERN in Hb.
  apply andb_true_iff in Hb as [_ Hb]. apply (string_forallb_impl _ _ _ base64_field) in Hb.
  destruct (endsWith s "==") eqn:E2; [|destruct (endsWith s "=") eqn:E1; [|done]].
  - by apply (string_forallb_ends _ _ "==").
  - by apply (string_forallb_ends _ _ "=").
Qed.

Lemma trimEnd_field s : string_forallb field_char s = true → trimEnd s = s.
Proof.
  induction s as [|c s IH]; [done|]. cbn. intros [Hc Hs]%andb_true_iff. rewrite (IH Hs).
  destruct s; [|done]. unfold field_char in Hc. apply andb_true_iff in Hc as [_ Hc].
  apply negb_true_iff in Hc. by rewrite Hc.
Qed.

Lemma trimEnd_app a b : trimEnd b = b → b ≠ "" → trimEnd (a +:+ b) = a +:+ b.
Proof.
  intros Hb Hne. induction a as [|c a IH]; [done|]. cbn. rewrite IH.
  destruct (a +:+ b) eqn:E; [|done]. destruct a, b; done.
Qed.

Lemma all_digits_field d : all_digits d = true → string_forallb field_char d = true.
Proof.
  apply string_forallb_impl. intros c Hc. apply base64_field. unfold base64_char. rewrite Hc.
  by rewrite !orb_true_r.
Qed.

(** A digest reads back as what was written: for parameters in range, a base64
    salt of at least 16 bytes and a base64 key of 32, the parser applied to the
    formatted text answers exactly those parts. *)
Theorem digest_roundtrip (p : VoicemailPinScryptParams) (salt hash : string) :
  params_in_range p = true → isBase64OfAtLeast salt MIN_SALT_BYTES = true →
  isBase64OfExactly hash DERIVED_KEY_BYTES = true →
  parseVoicemailPinHash (Some (formatVoicemailPinHash p salt hash)) =
    Some {| params := p; saltBase64 := salt; hashBase64 := hash |}.
Proof.
  intros Hp Hs Hh. pose proof (params_in_range_spec p Hp) as ((k & Hk & Hcost) & Hr & Hpar & _).
  assert (0 < cost p < 10 ^ Z.of_nat 10)%Z as Hc1.
  { pose proof (Z.pow_pos_nonneg 2 k ltac:(lia) ltac:(lia)).
    pose proof (Z.pow_le_mono_r 2 k 20 ltac:(lia) ltac:(lia)). simpl in *. lia. }
  assert (0 < blockSize p < 10 ^ Z.of_nat 4)%Z as Hr1 by (unfold MAX_BLOCK_SIZE in Hr; simpl; lia).
  assert (0 < parallelism p < 10 ^ Z.of_nat 4)%Z as Hp1
    by (unfold MAX_PARALLELISM in Hpar; simpl; lia).
  assert (string_forallb field_char salt = true) as Hsalt.
  { unfold isBase64OfAtLeast in Hs. destruct (base64ByteLength salt) eqn:E; [|done].
    by apply base64_fields in E as [? _]. }
  assert (string_forallb field_char hash = true ∧ hash ≠ "") as [Hhash Hne].
  { unfold isBase64OfExactly in Hh. apply bool_decide_eq_true in Hh. by eapply base64_fields. }
  set (raw := "N=" +:+ pretty (cost p) +:+ ",r=" +:+ pretty (blockSize p) +:+ ",p=" +:+
              pretty (parallelism p)).
  assert (string_forallb field_char raw = true) as Hraw.
  { unfold raw. rewrite !string_forallb_append.
    rewrite (all_digits_field (pretty (cost p))), (all_digits_field (pretty (blockSize p))),
      (all_digits_field (pretty (parallelism p))) by (by eapply pretty_digits). done. }
  assert (∀ s, string_forallb field_char s = true →
               string_forallb (λ c, negb (Ascii.eqb c dollar)) s = true) as Hsep.
  { intros s. apply string_forallb_impl. intros c Hc. unfold field_char in Hc.
    by apply andb_true_iff in Hc as [? _]. }
  assert (PARAMS_PATTERN raw = Some p) as Hpat.
  { unfold PARAMS_PATTERN, raw. rewrite number_field_app by done.
    change (",r=" +:+ pretty (blockSize p) +:+ ",p=" +:+ pretty (parallelism p))
      with (",r=" +:+ pretty (blockSize p) +:+ (",p=" +:+ pretty (parallelism p))).
    rewrite number_field_app by done.
    replace (pretty (parallelism p)) with (pretty (parallelism p) +:+ "")
      by (clear; induction (pretty (parallelism p)) as [|c d IH]; [done|]; cbn; by f_equal).
    rewrite number_field_app by done. by destruct p. }
  unfold parseVoicemailPinHash, inspect, formatVoicemailPinHash. fold raw.
  set (text := VOICEMAIL_PIN_HASH_SCHEME +:+ _).
  assert (default "" (trim <$> Some text) = text) as ->.
  { change (trimEnd text = text). unfold text. rewrite !string_app_assoc.
    apply trimEnd_app; [by apply trimEnd_field|done]. }
  cbv zeta. unfold text.
  rewrite bool_decide_eq_false_2 by done.
  rewrite (split_on_app VOICEMAIL_PIN_HASH_SCHEME) by done.
  rewrite (split_on_app raw) by auto. rewrite (split_on_app salt) by auto.
  rewrite split_on_last by auto. rewrite bool_decide_eq_true_2 by done. cbn [negb].
  by rewrite Hpat, Hp, Hs, Hh.
Qed.

Definition demo_salt : string := "AAAAAAAAAAAAAAAAAAAAAA==".
Definition demo_hash : string := "AAAAAAAAAAAAAAAAAAAAAAAAAAAAAAAAAAAAAAAAAAA=".

Lemma digest_roundtrip_witness :
  parseVoicemailPinHash
    (Some (formatVoicemailPinHash DEFAULT_VOICEMAIL_PIN_SCRYPT_PARAMS demo_salt demo_hash)) =
  Some {| params := DEFAULT_VOICEMAIL_PIN_SCRYPT_PARAMS; saltBase64 := demo_salt;
          hashBase64 := demo_hash |}.
Proof.
  exact (digest_roundtrip DEFAULT_VOICEMAIL_PIN_SCRYPT_PARAMS demo_salt demo_hash
           ltac:(vm_compute; reflexivity) ltac:(vm_compute; reflexivity)
           ltac:(vm_compute; reflexivity)).
Defined.

Definition demo_digest : string :=
  "scrypt$N=16384,r=8,p=1$AAAAAAAAAAAAAAAAAAAAAA==$AAAAAAAAAAAAAAAAAAAAAAAAAAAAAAAAAAAAAAAAAAA=".

Lemma demo_digest_parses :
  parseVoicemailPinHash (Some demo_digest) =
  Some {| params := DEFAULT_VOICEMAIL_PIN_SCRYPT_PARAMS; saltBase64 := demo_salt;
          hashBase64 := demo_hash |}.
Proof. vm_compute. reflexivity. Qed.

(** Each bound alone admits [N = 2^20] and [r = 32]; together they ask for 4 GiB
    and are refused. *)
Lemma accepted_digest_witness :
  (128 * 16384 * 8 <= 64 * 1024 * 1024)%Z ∧
  params_in_range {| cost := 2 ^ 20; blockSize := 32; parallelism := 1 |} = false.
Proof.
  split; [|vm_compute; reflexivity].
  exact (proj1 (proj2 (proj2 (proj2 (accepted_digest_bounded (Some demo_digest) _
    demo_digest_parses))))).
Defined.
End PinHash.
