(* ===== verification/MediaRefs.v ===== *)
(** * Media references, destinations and PIN checks of a walk

    The helpers the plan walker calls for its audio
    ([apps/engine/src/routing/media-refs.ts]), for the destination of the record
    ([apps/engine/src/routing/plan-destination.ts]) and for a PIN
    ([apps/engine/src/routing/voicemail-pin.ts]). The key derivation function and
    the base64 decoder of the platform are parameters. *)

From S2P Require Import Prelude Plan PinHash.

Module MediaRefs.
Import PinHash.

(** ** Media references *)
Record MediaRefSettings := {
  promptPrefix : string;
  fallbackMedia : string;
  objectMediaRoot : string }.

Definition DEFAULT_MEDIA_REF_SETTINGS : MediaRefSettings :=
  {| promptPrefix := "sound:"; fallbackMedia := "sound:unavailable"; objectMediaRoot := "" |}.

Definition NATIVE_SCHEMES : list string :=
  ["sound:"; "recording:"; "number:"; "digits:"; "characters:"; "tone:"].

(** [s.includes(p)] *)
Fixpoint string_includes (s p : string) : bool :=
  startsWith s p ||
  match s with
  | EmptyString => false
  | String _ s' => string_includes s' p
  end.

Definition slash : ascii := Ascii.ascii_of_nat 47.
Definition dot : ascii := Ascii.ascii_of_nat 46.

(** [s.lastIndexOf(c)]: [-1] when it does not occur. *)
Fixpoint last_index_from (c : ascii) (i found : Z) (s : string) : Z :=
  match s with
  | EmptyString => found
  | String d s' => last_index_from c (i + 1) (if Ascii.eqb d c then i else found) s'
  end.

Definition lastIndexOf (s : string) (c : ascii) : Z := last_index_from c 0 (-1) s.

Definition stripExtension (path : string) : string :=
  if (lastIndexOf path slash <? lastIndexOf path dot)%Z
  then String.substring 0 (Z.to_nat (lastIndexOf path dot)) path
  else path.

(** [.replace(/^\/+/, "")] and [.replace(/\/+$/, "")] *)
Fixpoint strip_leading (s : string) : string :=
  match s with
  | String c s' => if Ascii.eqb c slash then strip_leading s' else s
  | EmptyString => EmptyString
  end.

Fixpoint strip_trailing (s : string) : string :=
  match s with
  | EmptyString => EmptyString
  | String c s' =>
      match strip_trailing s' with
      | EmptyString => if Ascii.eqb c slash then EmptyString else String c EmptyString
      | t => String c t
      end
  end.

Definition objectMedia (objectKey : string) (settings : MediaRefSettings) : option string :=
  let root := strip_trailing (trim (objectMediaRoot settings)) in
  let key := strip_leading (trim objectKey) in
  if bool_decide (root = "") || bool_decide (key = "") then None
  else if includes (split_on slash key) ".." then None
  else Some ("sound:" +:+ stripExtension (root +:+ "/" +:+ key)).

(** [s.slice(p.length)] of a string that starts with [p]. *)
Definition after_prefix (p s : string) : string := sdrop (String.length p) s.

Definition translateMediaRef (ref : string) (settings : MediaRefSettings) : option string :=
  let trimmed := trim ref in
  if bool_decide (trimmed = "") then None
  else if negb (string_includes trimmed "://") && existsb (startsWith trimmed) NATIVE_SCHEMES
  then Some trimmed
  else if startsWith trimmed "prompt://"
  then Some (promptPrefix settings +:+ after_prefix "prompt://" trimmed)
  else if startsWith trimmed "tone://" then Some ("tone:" +:+ after_prefix "tone://" trimmed)
  else if startsWith trimmed "file://"
  then Some ("sound:" +:+ stripExtension (after_prefix "file://" trimmed))
  else if startsWith trimmed "object://" then objectMedia (after_prefix "object://" trimmed) settings
  else None.

(** The argument of [resolveMediaRef]: a prompt id and a reference. *)
Definition resolveMediaRef (promptId media : option string) (settings : MediaRefSettings)
    : option string :=
  match trim <$> media with
  | Some (String c t) => translateMediaRef (String c t) settings
  | _ =>
      match trim <$> promptId with
      | Some (String c t) => Some (promptPrefix settings +:+ String c t)
      | _ => None
      end
  end.

Definition resolveMediaRefOr (promptId media : option string) (settings : MediaRefSettings) : string :=
  default (fallbackMedia settings) (resolveMediaRef promptId media settings).

(** ** Destinations *)
Record PlanDestination := { destinationType : string; destinationRef : option string }.

#[global] Instance PlanDestination_eq_dec : EqDecision PlanDestination.
Proof. solve_decision. Defined.

Definition planDestinationOf (node : Plan.PlanNode) : option PlanDestination :=
  let row kind id := Some {| destinationType := kind; destinationRef := Some id |} in
  let value kind := Some {| destinationType := kind; destinationRef := None |} in
  match Plan.node_body node with
  | Plan.ExtensionNode n => row "extension" (Plan.ext_extensionId n)
  | Plan.RingGroupNode n => row "ring-group" (Plan.rg_ringGroupId n)
  | Plan.IvrMenuNode n => row "ivr-menu" (Plan.ivr_ivrMenuId n)
  | Plan.QueueNode n => row "queue" (Plan.queue_queueId n)
  | Plan.VoicemailNode n => row "voicemail" (Plan.vm_voicemailBoxId n)
  | Plan.ConferenceNode n => row "conference" (Plan.conf_conferenceId n)
  | Plan.ParkNode n => row "park" (Plan.park_parkLotId n)
  | Plan.FeatureCodeNode n => row "feature-code" (Plan.fcn_featureCodeId n)
  | Plan.TrunkDialNode n => row "trunk-dial" (Plan.td_outboundRouteId n)
  | Plan.ExternalNode _ => value "external"
  | Plan.ApplicationNode _ => value "application"
  | Plan.PlaybackNode _ => value "playback"
  | Plan.TimeConditionNode _ | Plan.HangupNode _ => None
  end.

Definition sameDestination (left right : option PlanDestination) : bool :=
  bool_decide ((destinationType <$> left) = (destinationType <$> right)) &&
  bool_decide ((left ≫= destinationRef) = (right ≫= destinationRef)).

Lemma sameDestination_spec left right :
  sameDestination left right = true ↔ left = right.
Proof.
  unfold sameDestination. rewrite andb_true_iff, !bool_decide_eq_true.
  destruct left as [[t r]|], right as [[t' r']|]; simpl; naive_solver.
Qed.

(** ** PIN checks

    [decode] is [Buffer.from(text, "base64")]; [scrypt pin salt keyLength params]
    is [None] where the platform's function fails. *)
Inductive VoicemailPinFailure : Set := malformed_hash | empty_pin | pin_mismatch | kdf_error.

Inductive VoicemailPinResult := PinOk | PinFailed (failure : VoicemailPinFailure).

Record Kdf := {
  decode : string → string;
  scrypt : string → string → nat → VoicemailPinScryptParams → option string }.

Definition verifyVoicemailPin (kdf : Kdf) (pin pinHash : string) : VoicemailPinResult :=
  let digits := trim pin in
  if bool_decide (digits = "") then PinFailed empty_pin
  else
    match parseVoicemailPinHash (Some pinHash) with
    | None => PinFailed malformed_hash
    | Some parsed =>
        let expected := decode kdf (hashBase64 parsed) in
        let salt := decode kdf (saltBase64 parsed) in
        match scrypt kdf digits salt (String.length expected) (params parsed) with
        | None => PinFailed kdf_error
        | Some derived =>
            if negb (String.length derived =? String.length expected) then PinFailed pin_mismatch
            else if bool_decide (derived = expected) then PinOk else PinFailed pin_mismatch
        end
    end.

Definition verifyPinDigest : Kdf → string → string → VoicemailPinResult := verifyVoicemailPin.

(** A PIN is accepted exactly when it is not blank, its digest parses, and the
    key derived under the digest's own salt and parameters is the digest's key. *)
Lemma verifyVoicemailPin_ok kdf pin pinHash :
  verifyVoicemailPin kdf pin pinHash = PinOk ↔
  trim pin ≠ "" ∧ ∃ h, parseVoicemailPinHash (Some pinHash) = Some h ∧
    scrypt kdf (trim pin) (decode kdf (saltBase64 h)) (String.length (decode kdf (hashBase64 h)))
      (params h) = Some (decode kdf (hashBase64 h)).
Proof.
  unfold verifyVoicemailPin. case_bool_decide as Hd; [naive_solver|].
  destruct (parseVoicemailPinHash _) as [h|]; [|naive_solver].
  destruct (scrypt _ _ _ _ _) as [d|] eqn:Es; [|naive_solver].
  destruct (Nat.eqb_spec (String.length d) (String.length (decode kdf (hashBase64 h)))); simpl.
  - case_bool_decide; naive_solver.
  - split; [done|]. intros (_ & h' & [= <-] & H). naive_solver.
Qed.
(** ** An object key stays under the mount *)

(** The path of nested directories that ends in a file. *)
Definition path_of (dirs : list string) (file : string) : string :=
  foldr (λ d rest, d +:+ "/" +:+ rest) file dirs.

Definition no_slash (s : string) : Prop := string_forallb (λ c, negb (Ascii.eqb c slash)) s = true.

Lemma split_on_path s :
  ∃ dirs file, split_on slash s = dirs ++ [file] ∧ s = path_of dirs file ∧
    Forall no_slash dirs ∧ no_slash file.
Proof.
  induction s as [|c s (dirs & file & Hs & -> & Hd & Hf)].
  { by exists [], "". }
  cbn [split_on]. rewrite Hs. destruct (Ascii.eqb c slash) eqn:Hc.
  { apply Ascii.eqb_eq in Hc as ->. exists ("" :: dirs), file. split_and!; [done|done|by constructor|done]. }
  destruct dirs as [|d dirs]; simpl in *.
  - exists [], (String c file). split_and!; [done|done|done|]. unfold no_slash. simpl. by rewrite Hc.
  - apply Forall_cons in Hd as [Hd1 Hd2].
    exists (String c d :: dirs), file. split_and!; [done|done|constructor; [|done]|done].
    unfold no_slash. simpl. by rewrite Hc.
Qed.

Lemma last_index_app c s t i found :
  last_index_from c i found (s +:+ t) =
  last_index_from c (i + Z.of_nat (String.length s)) (last_index_from c i found s) t.
Proof.
  revert i found. induction s as [|d s IH]; intros i found; simpl; [by rewrite Z.add_0_r|].
  rewrite IH. f_equal. lia.
Qed.

Lemma last_index_none c s i found :
  string_forallb (λ d, negb (Ascii.eqb d c)) s = true → last_index_from c i found s = found.
Proof.
  revert i found. induction s as [|d s IH]; intros i found; simpl; [done|].
  rewrite andb_true_iff, negb_true_iff. intros [-> Hs]. by apply IH.
Qed.

Lemma last_index_range c s i found :
  last_index_from c i found s = found ∨
  (i <= last_index_from c i found s < i + Z.of_nat (String.length s))%Z.
Proof.
  revert i found. induction s as [|d s IH]; intros i found; simpl; [by left|].
  destruct (IH (i + 1)%Z (if Ascii.eqb d c then i else found)) as [->|H]; [|right; lia].
  destruct (Ascii.eqb d c); [right; lia|by left].
Qed.

Lemma substring_app_front s t n :
  String.substring 0 (String.length s + n) (s +:+ t) = s +:+ String.substring 0 n t.
Proof. induction s as [|c s IH]; simpl; [done|]. by rewrite IH. Qed.

(** Only the name of the file loses its extension. *)
Lemma stripExtension_file dir file :
  no_slash file → ∃ n, stripExtension (dir +:+ "/" +:+ file) =
                       dir +:+ "/" +:+ String.substring 0 n file.
Proof.
  intros Hf. unfold stripExtension, lastIndexOf.
  rewrite (last_index_app slash dir), (last_index_app dot dir), !Z.add_0_l.
  set (lf := String.length dir). set (found := last_index_from dot 0 (-1) dir).
  change ("/" +:+ file) with (String slash file).
  cbn [last_index_from]. change (Ascii.eqb slash slash) with true. change (Ascii.eqb slash dot) with false.
  cbv iota. rewrite (last_index_none slash file) by done.
  assert (-1 <= found < Z.of_nat lf)%Z as Hfound.
  { destruct (last_index_range dot dir 0 (-1)) as [H|H]; fold found in H; subst lf; lia. }
  destruct (last_index_range dot file (Z.of_nat lf + 1) found) as [->|Hr].
  - exists (String.length file). rewrite substring_all.
    destruct (Z.ltb_spec (Z.of_nat lf) found); [lia|done].
  - destruct (Z.ltb_spec (Z.of_nat lf) (last_index_from dot (Z.of_nat lf + 1) found file)); [|lia].
    exists (Z.to_nat (last_index_from dot (Z.of_nat lf + 1) found file - Z.of_nat lf - 1)).
    replace (Z.to_nat (last_index_from dot (Z.of_nat lf + 1) found file))
      with (String.length dir + S (Z.to_nat (last_index_from dot (Z.of_nat lf + 1) found file - Z.of_nat lf - 1)))
      by (subst lf; lia).
    by rewrite substring_app_front.
Qed.

Lemma path_of_front root dirs :
  ∃ dir, ∀ f : string, root +:+ "/" +:+ path_of dirs f = dir +:+ "/" +:+ f.
Proof.
  revert root. induction dirs as [|d dirs IH]; intros root; [by exists root|].
  destruct (IH (root +:+ "/" +:+ d)) as [dir Hdir]. exists dir. intros f. rewrite <- Hdir.
  simpl. by rewrite !append_assoc.
Qed.

(** An object key is looked up under the mount: what is played for a key is the
    configured root followed by directories none of which is the parent, and by one
    last segment; a key that names the parent, an empty key and an unset root play
    nothing. *)
Theorem object_media_confined (key : string) (settings : MediaRefSettings) :
  match objectMedia key settings with
  | None => strip_trailing (trim (objectMediaRoot settings)) = "" ∨
            strip_leading (trim key) = "" ∨ ".." ∈ split_on slash (strip_leading (trim key))
  | Some uri =>
      ∃ dirs file, uri = "sound:" +:+ strip_trailing (trim (objectMediaRoot settings)) +:+ "/" +:+
                         path_of dirs file ∧
        strip_trailing (trim (objectMediaRoot settings)) ≠ "" ∧
        Forall no_slash dirs ∧ ".." ∉ dirs ∧ no_slash file
  end.
Proof.
  unfold objectMedia. set (root := strip_trailing _). set (k := strip_leading _).
  repeat case_bool_decide; simpl; [by auto..|].
  destruct (includes (split_on slash k) "..") eqn:Hin.
  { apply includes_spec in Hin. auto. }
  apply includes_false in Hin. destruct (split_on_path k) as (dirs & file & Hs & Hk & Hd & Hf).
  destruct (path_of_front root dirs) as [dir Hdir]. rewrite Hk, Hdir.
  destruct (stripExtension_file dir file Hf) as [n ->]. exists dirs, (String.substring 0 n file).
  rewrite <- Hdir. split_and!; [done|done|done| |].
  - rewrite Hs in Hin. set_solver.
  - clear -Hf. unfold no_slash in *. revert n. induction file as [|c file IH]; intros [|n]; simpl in *; try done.
    apply andb_true_iff in Hf as [Hc Hf]. by rewrite Hc, IH.
Qed.

(** A name made of dots loses the last one with its extension: the parent is
    refused as a segment of the key and can still be the last segment played. *)
Lemma stripped_extension_is_parent :
  objectMedia "greetings/...wav" {| promptPrefix := "sound:"; fallbackMedia := ""; objectMediaRoot := "/media" |} =
  Some "sound:/media/greetings/..".
Proof. reflexivity. Qed.
End MediaRefs.
