(* ===== verification/Dial.v ===== *)
(** * Ringing legs

    The dialling half of [apps/engine/src/routing/plan-walker.ts]: the question an
    answered leg may have to accept ([confirmAnswer]), one leg rung until it
    answers, fails or times out ([dialOne]), and every leg rung at once
    ([dialSimultaneous]). Each is a machine over the events of its environment: a
    signal of a leg, a timer, the end of a call to the media server or to a hook,
    the caller's hangup. A listener and the continuation of an awaited promise run
    as one step with the event that woke them. A [Moment] is what the live getter
    [abandoned] and the id source answer when the event is handled. *)

From S2P Require Import Prelude HangupCauses MediaRefs.

Module Dial.
Import MediaRefs.

(** ** Data *)
Inductive LegSignal :=
| SigRinging
| SigProgress
| SigAnswered
| SigEntered
| SigDtmf (digit : string)
| SigEnded (cause : HangupCause) (causeCode : Z).

Record ConfirmRequest := {
  confirm_media : string;
  acceptDigit : string;
  confirm_attempts : nat;
  confirm_timeoutMs : Z }.

Record DialAttempt := {
  endpoint : string;
  label : string;
  destinationNumber : string;
  timeoutSeconds : Z;
  delaySeconds : Z;
  callerId : option string;
  variables : list (string * string);
  confirm : option ConfirmRequest }.

Inductive ConfirmVerdict := accepted | declined | leg_gone | caller_gone | unplayable.

Inductive ConfirmStep :=
| StepDigit (digit : string)
| StepTimeout
| StepTerminal (verdict : ConfirmVerdict).

Inductive DialOutcome :=
| Answered (mediaChannelId : string) (index : nat)
| Failed (cause : HangupCause) (index : nat)
| TimedOut
| Aborted.

Record OriginatedLeg := {
  leg_mediaChannelId : string;
  leg_endpoint : string;
  leg_destinationNumber : string;
  leg_label : string;
  leg_destinationType : option string;
  leg_destinationRef : option string;
  leg_callerId : option string }.

(** The argument of [media.originate]. *)
Record OriginateRequest := {
  or_endpoint : string;
  or_application : string;
  or_channelId : string;
  or_callerId : option string;
  or_timeoutSeconds : Z;
  or_originatorChannelId : string;
  or_variables : list (string * string) }.

Inductive Timer :=
| RingTimer | ProgressTimer | ConfirmTimer | DelayTimer | AnswerTimer | RecordTimer | HoldTimer.

(** What a dial does to the world. *)
Inductive LegAction :=
| ActArm (timer : Timer) (ms : Z)
| ActOriginated (leg : OriginatedLeg)
| ActOriginate (request : OriginateRequest)
| ActHangingUp (mediaChannelId : string) (cause : HangupCause)
| ActHangup (mediaChannelId : string) (cause : HangupCause)
| ActAsk (mediaChannelId media playbackRef : string)
| ActStopPlayback (playbackRef : string).

#[global] Instance OriginatedLeg_eq_dec : EqDecision OriginatedLeg.
Proof. solve_decision. Defined.
#[global] Instance OriginateRequest_eq_dec : EqDecision OriginateRequest.
Proof. solve_decision. Defined.
#[global] Instance Timer_eq_dec : EqDecision Timer.
Proof. solve_decision. Defined.
#[global] Instance LegAction_eq_dec : EqDecision LegAction.
Proof. solve_decision. Defined.
#[global] Instance ConfirmVerdict_eq_dec : EqDecision ConfirmVerdict.
Proof. solve_decision. Defined.

(** The notes of a dial. *)
Inductive DialNote :=
| NoteUnreachable (label error : string)
| NoteNoProgress (label : string)
| NoteCallerGone (label : string)
| NoteVerdict (label : string) (verdict : ConfirmVerdict).

Record Moment := { m_abandoned : bool; m_newId : string }.

(** What a dial reads of the walk: the settings and the A-leg. *)
Record DialContext := {
  application : string;
  progressTimeoutSeconds : Z;
  ctx_organizationId : string;
  ctx_mediaChannelId : string;
  ctx_channelId : string;
  ctx_destination : option PlanDestination }.

Definition MILLIS_PER_SECOND : Z := 1000.

Definition originated_leg (ctx : DialContext) (attempt : DialAttempt) (id : string) : OriginatedLeg :=
  {| leg_mediaChannelId := id;
     leg_endpoint := endpoint attempt;
     leg_destinationNumber := destinationNumber attempt;
     leg_label := label attempt;
     leg_destinationType := destinationType <$> ctx_destination ctx;
     leg_destinationRef := ctx_destination ctx ≫= destinationRef;
     leg_callerId := callerId attempt |}.

Definition originate_request (ctx : DialContext) (attempt : DialAttempt) (id : string)
    : OriginateRequest :=
  {| or_endpoint := endpoint attempt;
     or_application := application ctx;
     or_channelId := id;
     or_callerId := callerId attempt;
     or_timeoutSeconds := timeoutSeconds attempt;
     or_originatorChannelId := ctx_mediaChannelId ctx;
     or_variables :=
       [("OPTIMIQ_ORG_ID", ctx_organizationId ctx); ("OPTIMIQ_LEG", "b");
        ("OPTIMIQ_ORIGINATING_LEG_ID", ctx_channelId ctx)] ++ variables attempt |}.

(** The calls [hangupQuietly] makes: the cause is fixed before the media server is
    told, and an error is only logged. *)
Definition hangup_leg (id : string) (cause : HangupCause) : list LegAction :=
  [ActHangingUp id cause; ActHangup id cause].

(** ** The question

    A round plays the prompt, waits for a digit, and stops the prompt. *)
Inductive ConfirmPhase :=
| CPlaying (playbackRef : string)
| CAsking (playbackRef : string)
| CStopping (playbackRef : string) (step : ConfirmStep)
| CDone (verdict : ConfirmVerdict).

Record Confirm := {
  c_round : nat;
  c_terminal : option ConfirmVerdict;
  c_phase : ConfirmPhase }.

Inductive ConfirmEvent :=
| CEPlayed (r : result string unit)
| CEDigit (digit : string)
| CETimer
| CETerminal (verdict : ConfirmVerdict)
| CEStopped.

(** The head of the loop of [confirmAnswer]. *)
Definition confirm_head (req : ConfirmRequest) (id : string) (m : Moment) (round : nat)
    (terminal : option ConfirmVerdict) : Confirm * list LegAction :=
  let done v := ({| c_round := round; c_terminal := terminal; c_phase := CDone v |}, []) in
  if round <? confirm_attempts req then
    match terminal with
    | Some v => done v
    | None =>
        if m_abandoned m then done caller_gone
        else ({| c_round := round; c_terminal := None; c_phase := CPlaying (m_newId m) |},
              [ActAsk id (confirm_media req) (m_newId m)])
    end
  else done (default declined terminal).

Definition confirm_step (req : ConfirmRequest) (id : string) (m : Moment) (ev : ConfirmEvent)
    (c : Confirm) : Confirm * list LegAction :=
  let go phase acts := ({| c_round := c_round c; c_terminal := c_terminal c; c_phase := phase |}, acts) in
  match c_phase c, ev with
  | CPlaying ref, CEPlayed (Throw _) => go (CDone unplayable) []
  | CPlaying ref, CEPlayed (Ok _) =>
      match c_terminal c with
      | Some v => go (CStopping ref (StepTerminal v)) [ActStopPlayback ref]
      | None => go (CAsking ref) [ActArm ConfirmTimer (confirm_timeoutMs req)]
      end
  | CAsking ref, CEDigit d => go (CStopping ref (StepDigit d)) [ActStopPlayback ref]
  | CAsking ref, CETimer => go (CStopping ref StepTimeout) [ActStopPlayback ref]
  | CDone _, _ => (c, [])
  | phase, CETerminal v =>
      match c_terminal c with
      | Some _ => (c, [])
      | None =>
          let settled p acts := ({| c_round := c_round c; c_terminal := Some v; c_phase := p |}, acts) in
          match phase with
          | CAsking ref => settled (CStopping ref (StepTerminal v)) [ActStopPlayback ref]
          | _ => settled phase []
          end
      end
  | CStopping ref (StepTerminal v), CEStopped => go (CDone v) []
  | CStopping ref (StepDigit d), CEStopped =>
      if bool_decide (d = acceptDigit req) then go (CDone accepted) []
      else confirm_head req id m (S (c_round c)) (c_terminal c)
  | CStopping ref StepTimeout, CEStopped => confirm_head req id m (S (c_round c)) (c_terminal c)
  | _, _ => (c, [])
  end.

(** [settleConfirm]: the dial's outcome, and the note. *)
Definition settleConfirm (verdict : ConfirmVerdict) (answered : DialOutcome) (attempt : DialAttempt)
    : DialOutcome * list DialNote :=
  match verdict with
  | accepted => (answered, [])
  | caller_gone => (Aborted, [NoteCallerGone (label attempt)])
  | _ => (TimedOut, [NoteVerdict (label attempt) verdict])
  end.

(** [armProgressTimeout]: the budget of the timer, or none when it is off. *)
Definition progress_budget (ctx : DialContext) (attempt : DialAttempt) : option Z :=
  if (progressTimeoutSeconds ctx <=? 0)%Z then None
  else Some (Z.min (progressTimeoutSeconds ctx) (Z.max 1 (timeoutSeconds attempt)) * MILLIS_PER_SECOND)%Z.

Definition arm_progress (ctx : DialContext) (attempt : DialAttempt) : list LegAction :=
  match progress_budget ctx attempt with Some ms => [ActArm ProgressTimer ms] | None => [] end.

(** ** One leg *)
Inductive OneStage :=
| OneHook
| OneOriginating
| OneWaiting
| OneConfirming (c : Confirm)
| OneHangingUp (outcome : DialOutcome)
| OneOver (outcome : DialOutcome).

Record One := {
  o_settled : option DialOutcome;
  o_progress : bool;
  o_stage : OneStage;
  o_notes : list DialNote;
  o_trace : list LegAction }.

Inductive OneEvent :=
| OneHookDone (r : result string unit)
| OneOriginated (r : result string unit)
| OneSignal (signal : LegSignal)
| OneProgressTimer
| OneRingTimer
| OneCallerEnded
| OnePlayed (r : result string unit)
| OneConfirmTimer
| OneStopped
| OneHungUp.

Section One.
Context (ctx : DialContext) (attempt : DialAttempt) (id : string) (index : nat)
  (abortOnCallerHangup : bool).

Definition o_set_stage (stage : OneStage) (s : One) : One :=
  {| o_settled := o_settled s; o_progress := o_progress s; o_stage := stage;
     o_notes := o_notes s; o_trace := o_trace s |}.

Definition o_set_progress (armed : bool) (s : One) : One :=
  {| o_settled := o_settled s; o_progress := armed; o_stage := o_stage s;
     o_notes := o_notes s; o_trace := o_trace s |}.

Definition o_note (notes : list DialNote) (s : One) : One :=
  {| o_settled := o_settled s; o_progress := o_progress s; o_stage := o_stage s;
     o_notes := o_notes s ++ notes; o_trace := o_trace s |}.

Definition o_act (acts : list LegAction) (s : One) : One :=
  {| o_settled := o_settled s; o_progress := o_progress s; o_stage := o_stage s;
     o_notes := o_notes s; o_trace := o_trace s ++ acts |}.

(** [resolveOutcome] is single-shot. *)
Definition o_resolve (outcome : DialOutcome) (s : One) : One :=
  match o_settled s with
  | Some _ => s
  | None =>
      {| o_settled := Some outcome; o_progress := o_progress s; o_stage := o_stage s;
         o_notes := o_notes s; o_trace := o_trace s |}
  end.

(** The watchers are in place and the timers armed before the hook is called. *)
Definition one_start : One :=
  {| o_settled := None;
     o_progress := match progress_budget ctx attempt with Some _ => true | None => false end;
     o_stage := OneHook;
     o_notes := [];
     o_trace := arm_progress ctx attempt ++
                [ActArm RingTimer (Z.max 1 (timeoutSeconds attempt) * MILLIS_PER_SECOND)] ++
                [ActOriginated (originated_leg ctx attempt id)] |}.

(** The end of the dial: a leg that did not answer is hung up. *)
Definition one_finish (outcome : DialOutcome) (s : One) : One :=
  match outcome with
  | Answered _ _ => o_set_stage (OneOver outcome) s
  | _ => o_act (hangup_leg id ORIGINATOR_CANCEL) (o_set_stage (OneHangingUp outcome) s)
  end.

(** A step of the question, and what follows its verdict. *)
Definition one_confirm (answered : DialOutcome) (step : Confirm * list LegAction) (s : One) : One :=
  let '(c, acts) := step in
  let s := o_act acts (o_set_stage (OneConfirming c) s) in
  match c_phase c with
  | CDone v =>
      let '(outcome, notes) := settleConfirm v answered attempt in
      one_finish outcome (o_note notes s)
  | _ => s
  end.

(** What follows [await outcomePromise]: the timers and the watchers are gone. *)
Definition one_proceed (m : Moment) (s : One) : One :=
  match o_stage s, o_settled s with
  | OneWaiting, Some outcome =>
      let s := o_set_progress false s in
      match outcome, confirm attempt with
      | Answered _ _, Some req => one_confirm outcome (confirm_head req id m 0 None) s
      | _, _ => one_finish outcome s
      end
  | _, _ => s
  end.

Definition one_refused (error : string) (s : One) : One :=
  o_resolve (Failed USER_NOT_REGISTERED index)
    (o_note [NoteUnreachable (label attempt) error] (o_set_stage OneWaiting s)).

(** Whether the watchers of [dialOne] are in place. *)
Definition one_open (s : One) : bool :=
  match o_stage s with OneHook | OneOriginating | OneWaiting => true | _ => false end.

(** An event of the question, while it is asked. *)
Definition one_asked (m : Moment) (ev : ConfirmEvent) (s : One) : One :=
  match o_stage s, o_settled s, confirm attempt with
  | OneConfirming c, Some answered, Some req => one_confirm answered (confirm_step req id m ev c) s
  | _, _, _ => s
  end.

Definition one_signal (m : Moment) (signal : LegSignal) (s : One) : One :=
  if one_open s then
    match signal with
    | SigRinging | SigProgress => o_set_progress false s
    | SigAnswered | SigEntered => o_resolve (Answered id index) (o_set_progress false s)
    | SigEnded cause _ => o_resolve (Failed cause index) s
    | SigDtmf _ => s
    end
  else
    match signal with
    | SigEnded _ _ => one_asked m (CETerminal leg_gone) s
    | SigDtmf d => one_asked m (CEDigit d) s
    | _ => s
    end.

Definition one_handle (m : Moment) (ev : OneEvent) (s : One) : One :=
  match ev with
  | OneHookDone r =>
      match o_stage s, r with
      | OneHook, Ok _ =>
          o_act [ActOriginate (originate_request ctx attempt id)] (o_set_stage OneOriginating s)
      | OneHook, Throw e => one_refused e s
      | _, _ => s
      end
  | OneOriginated r =>
      match o_stage s, r with
      | OneOriginating, Ok _ => o_set_stage OneWaiting s
      | OneOriginating, Throw e => one_refused e s
      | _, _ => s
      end
  | OneSignal signal => one_signal m signal s
  | OneProgressTimer =>
      if one_open s && o_progress s
      then o_resolve TimedOut (o_note [NoteNoProgress (label attempt)] (o_set_progress false s))
      else s
  | OneRingTimer => if one_open s then o_resolve TimedOut s else s
  | OneCallerEnded =>
      if one_open s then (if abortOnCallerHangup then o_resolve Aborted s else s)
      else one_asked m (CETerminal caller_gone) s
  | OnePlayed r => one_asked m (CEPlayed r) s
  | OneConfirmTimer => one_asked m CETimer s
  | OneStopped => one_asked m CEStopped s
  | OneHungUp =>
      match o_stage s with OneHangingUp outcome => o_set_stage (OneOver outcome) s | _ => s end
  end.

Definition one_step (s : One) (ev : Moment * OneEvent) : One :=
  one_proceed ev.1 (one_handle ev.1 ev.2 s).

Definition one_run (evs : list (Moment * OneEvent)) : One := foldl one_step one_start evs.

(** The calls under way come back and the timers fire: nobody answers, and a leg that
    is asked says nothing for as many rounds as it may be asked. *)
Definition confirm_rounds : nat :=
  match confirm attempt with Some req => confirm_attempts req | None => 0 end.

Definition silent_round : list OneEvent := [OnePlayed (Ok tt); OneConfirmTimer; OneStopped].

Definition one_closing (m : Moment) : list (Moment * OneEvent) :=
  (λ ev, (m, ev)) <$>
  ([OneHookDone (Ok tt); OneOriginated (Ok tt); OneRingTimer] ++
   concat (replicate confirm_rounds silent_round) ++ [OneHungUp]).

(** [dialOne]: the run of a schedule, closed. *)
Definition dialOne (m : Moment) (evs : list (Moment * OneEvent)) : One :=
  one_run (evs ++ one_closing m).

Definition one_outcome (s : One) : option DialOutcome :=
  match o_stage s with OneOver outcome => Some outcome | _ => None end.
End One.

(** ** Every leg at once *)
Inductive LegStage := LegDelayed | LegHook | LegOriginating | LegReturned.

Record RaceLeg := {
  l_stage : LegStage;
  l_progress : bool;
  l_ended : bool;
  l_confirm : option Confirm;
  l_dropping : bool;
  l_rejecting : bool }.

Inductive RaceStage :=
| RaceOpen
| RaceCleaning (rest : list nat)
| RaceOver (outcome : DialOutcome).

Record Race := {
  r_settled : option DialOutcome;
  r_lastCause : option HangupCause;
  r_legs : list RaceLeg;
  r_stage : RaceStage;
  r_notes : list DialNote;
  r_trace : list LegAction }.

Inductive RaceEvent :=
| RaceDelayOver (i : nat)
| RaceHookDone (i : nat) (r : result string unit)
| RaceOriginated (i : nat) (r : result string unit)
| RaceSignal (i : nat) (signal : LegSignal)
| RaceProgressTimer (i : nat)
| RaceDropped (i : nat)
| RaceOverall
| RaceCallerEnded
| RacePlayed (i : nat) (r : result string unit)
| RaceConfirmTimer (i : nat)
| RaceStopped (i : nat)
| RaceRejected (i : nat)
| RaceLoserHungUp.

Definition leg_map (f : RaceLeg → RaceLeg) (i : nat) (r : Race) : Race :=
  {| r_settled := r_settled r; r_lastCause := r_lastCause r; r_legs := alter f i (r_legs r);
     r_stage := r_stage r; r_notes := r_notes r; r_trace := r_trace r |}.

Definition set_stage (stage : LegStage) (l : RaceLeg) : RaceLeg :=
  {| l_stage := stage; l_progress := l_progress l; l_ended := l_ended l;
     l_confirm := l_confirm l; l_dropping := l_dropping l; l_rejecting := l_rejecting l |}.

Definition set_progress (armed : bool) (l : RaceLeg) : RaceLeg :=
  {| l_stage := l_stage l; l_progress := armed; l_ended := l_ended l;
     l_confirm := l_confirm l; l_dropping := l_dropping l; l_rejecting := l_rejecting l |}.

Definition set_ended (l : RaceLeg) : RaceLeg :=
  {| l_stage := l_stage l; l_progress := l_progress l; l_ended := true;
     l_confirm := l_confirm l; l_dropping := l_dropping l; l_rejecting := l_rejecting l |}.

Definition set_confirm (c : Confirm) (l : RaceLeg) : RaceLeg :=
  {| l_stage := l_stage l; l_progress := l_progress l; l_ended := l_ended l;
     l_confirm := Some c; l_dropping := l_dropping l; l_rejecting := l_rejecting l |}.

Definition set_dropping (b : bool) (l : RaceLeg) : RaceLeg :=
  {| l_stage := l_stage l; l_progress := l_progress l; l_ended := l_ended l;
     l_confirm := l_confirm l; l_dropping := b; l_rejecting := l_rejecting l |}.

Definition set_rejecting (b : bool) (l : RaceLeg) : RaceLeg :=
  {| l_stage := l_stage l; l_progress := l_progress l; l_ended := l_ended l;
     l_confirm := l_confirm l; l_dropping := l_dropping l; l_rejecting := b |}.

Definition r_note (notes : list DialNote) (r : Race) : Race :=
  {| r_settled := r_settled r; r_lastCause := r_lastCause r; r_legs := r_legs r;
     r_stage := r_stage r; r_notes := r_notes r ++ notes; r_trace := r_trace r |}.

Definition r_act (acts : list LegAction) (r : Race) : Race :=
  {| r_settled := r_settled r; r_lastCause := r_lastCause r; r_legs := r_legs r;
     r_stage := r_stage r; r_notes := r_notes r; r_trace := r_trace r ++ acts |}.

Definition r_set_stage (stage : RaceStage) (r : Race) : Race :=
  {| r_settled := r_settled r; r_lastCause := r_lastCause r; r_legs := r_legs r;
     r_stage := stage; r_notes := r_notes r; r_trace := r_trace r |}.

Definition r_resolve (outcome : DialOutcome) (r : Race) : Race :=
  match r_settled r with
  | Some _ => r
  | None =>
      {| r_settled := Some outcome; r_lastCause := r_lastCause r; r_legs := r_legs r;
         r_stage := r_stage r; r_notes := r_notes r; r_trace := r_trace r |}
  end.

Definition r_cause (cause : option HangupCause) (r : Race) : Race :=
  match cause with
  | None => r
  | Some _ =>
      {| r_settled := r_settled r; r_lastCause := cause; r_legs := r_legs r;
         r_stage := r_stage r; r_notes := r_notes r; r_trace := r_trace r |}
  end.

(** [ended.size === attempts.length] *)
Definition all_ended (r : Race) : bool := forallb l_ended (r_legs r).

Definition settled_b (r : Race) : bool := match r_settled r with Some _ => true | None => false end.

Definition leg_ended (r : Race) (i : nat) : bool := from_option l_ended false (r_legs r !! i).

(** [legIsOut] *)
Definition legIsOut (i : nat) (cause : option HangupCause) (r : Race) : Race :=
  let r := leg_map set_ended i (r_cause cause r) in
  if all_ended r
  then r_resolve (match r_lastCause r with None => TimedOut | Some c => Failed c i end) r
  else r.

Section Race.
Context (ctx : DialContext) (attempts : list (DialAttempt * string)) (overallTimeoutSeconds : Z)
  (abortOnCallerHangup : bool).

Definition winner (r : Race) : option string :=
  match r_settled r with Some (Answered id _) => Some id | _ => None end.

(** The start of a leg once its delay is over: [if (settled) return]. *)
Definition race_begin (i : nat) (a : DialAttempt) (id : string) (r : Race) : Race :=
  if settled_b r then leg_map (set_stage LegReturned) i r
  else r_act [ActOriginated (originated_leg ctx a id)] (leg_map (set_stage LegHook) i r).

Definition race_refused (i : nat) (a : DialAttempt) (error : string) (r : Race) : Race :=
  legIsOut i (Some USER_NOT_REGISTERED)
    (r_note [NoteUnreachable (label a) error] (leg_map (set_stage LegReturned) i r)).

(** A step of a leg's question ([confirmRacingLeg]). *)
Definition race_confirm (i : nat) (a : DialAttempt) (id : string) (step : Confirm * list LegAction)
    (r : Race) : Race :=
  let '(c, acts) := step in
  let r := r_act acts (leg_map (set_confirm c) i r) in
  match c_phase c with
  | CDone accepted => r_resolve (Answered id i) r
  | CDone caller_gone => r_resolve Aborted (r_note [NoteCallerGone (label a)] r)
  | CDone v =>
      r_act (hangup_leg id ORIGINATOR_CANCEL)
        (leg_map (set_rejecting true) i (r_note [NoteVerdict (label a) v] r))
  | _ => r
  end.

(** An event of the question of leg [i], while it is asked. *)
Definition race_asked (i : nat) (m : Moment) (ev : ConfirmEvent) (r : Race) : Race :=
  match attempts !! i, r_legs r !! i with
  | Some (a, id), Some l =>
      match l_confirm l, confirm a with
      | Some c, Some req =>
          match c_phase c with
          | CDone _ => r
          | _ => race_confirm i a id (confirm_step req id m ev c) r
          end
      | _, _ => r
      end
  | _, _ => r
  end.

Definition race_open (r : Race) : bool :=
  match r_stage r with RaceOpen => true | _ => false end.

(** The race's own watcher of a leg. *)
Definition race_watch (i : nat) (a : DialAttempt) (id : string) (m : Moment) (signal : LegSignal)
    (r : Race) : Race :=
  match signal with
  | SigRinging | SigProgress => leg_map (set_progress false) i r
  | SigAnswered | SigEntered =>
      let r := leg_map (set_progress false) i r in
      match confirm a with
      | None => r_resolve (Answered id i) r
      | Some req =>
          match r_legs r !! i with
          | Some l =>
              match l_confirm l with
              | Some _ => r
              | None =>
                  if l_ended l || settled_b r then r
                  else race_confirm i a id (confirm_head req id m 0 None) r
              end
          | None => r
          end
      end
  | SigEnded cause _ => legIsOut i (Some cause) r
  | SigDtmf _ => r
  end.

(** A signal of leg [i]: the race's watcher, then the question's. *)
Definition race_signal (i : nat) (a : DialAttempt) (id : string) (m : Moment) (signal : LegSignal)
    (r : Race) : Race :=
  let r := if race_open r then race_watch i a id m signal r else r in
  match signal with
  | SigEnded _ _ => race_asked i m (CETerminal leg_gone) r
  | SigDtmf d => race_asked i m (CEDigit d) r
  | _ => r
  end.

(** An event for the question of every leg. *)
Definition race_asked_all (m : Moment) (ev : ConfirmEvent) (r : Race) : Race :=
  foldl (λ r i, race_asked i m ev r) r (seq 0 (length attempts)).

(** The loop that hangs up the losers: [ended] is read at each turn. *)
Fixpoint race_next (rest : list nat) (r : Race) : Race :=
  match rest with
  | [] =>
      let outcome :=
        match r_settled r, r_lastCause r with
        | Some TimedOut, Some cause => if all_ended r then Failed cause 0 else TimedOut
        | Some outcome, _ => outcome
        | None, _ => TimedOut
        end in
      r_set_stage (RaceOver outcome) r
  | i :: rest =>
      match attempts !! i with
      | Some (_, id) =>
          if bool_decide (winner r = Some id) || leg_ended r i then race_next rest r
          else
            r_act (hangup_leg id (match winner r with None => ORIGINATOR_CANCEL | Some _ => LOSE_RACE end))
              (r_set_stage (RaceCleaning rest) r)
      | None => race_next rest r
      end
  end.

Definition leg_returned (l : RaceLeg) : bool :=
  match l_stage l with LegReturned => true | _ => false end.

(** What follows [Promise.all] and [await outcomePromise]: the timers and the
    watchers go, the questions still asked are aborted, the losers are hung up. *)
Definition race_close (m : Moment) (r : Race) : Race :=
  if race_open r && settled_b r && forallb leg_returned (r_legs r) then
    let r := foldl (λ r i, leg_map (set_progress false) i r) r (seq 0 (length attempts)) in
    let rest := seq 0 (length attempts) in
    race_next rest (race_asked_all m (CETerminal leg_gone) (r_set_stage (RaceCleaning rest) r))
  else r.

Definition race_handle (m : Moment) (ev : RaceEvent) (r : Race) : Race :=
  let with_leg i (k : DialAttempt → string → RaceLeg → Race) :=
    match attempts !! i, r_legs r !! i with
    | Some (a, id), Some l => k a id l
    | _, _ => r
    end in
  match ev with
  | RaceDelayOver i =>
      with_leg i (λ a id l, match l_stage l with LegDelayed => race_begin i a id r | _ => r end)
  | RaceHookDone i res =>
      with_leg i (λ a id l,
        match l_stage l, res with
        | LegHook, Ok _ =>
            r_act [ActOriginate (originate_request ctx a id)] (leg_map (set_stage LegOriginating) i r)
        | LegHook, Throw e => race_refused i a e r
        | _, _ => r
        end)
  | RaceOriginated i res =>
      with_leg i (λ a id l,
        match l_stage l, res with
        | LegOriginating, Ok _ => leg_map (set_stage LegReturned) i r
        | LegOriginating, Throw e => race_refused i a e r
        | _, _ => r
        end)
  | RaceSignal i signal => with_leg i (λ a id l, race_signal i a id m signal r)
  | RaceProgressTimer i =>
      with_leg i (λ a id l,
        if race_open r && l_progress l then
          let r := leg_map (set_progress false) i r in
          if settled_b r || l_ended l then r
          else r_act (hangup_leg id ORIGINATOR_CANCEL)
                 (leg_map (set_dropping true) i (r_note [NoteNoProgress (label a)] r))
        else r)
  | RaceDropped i =>
      with_leg i (λ a id l,
        if l_dropping l then legIsOut i None (leg_map (set_dropping false) i r) else r)
  | RaceOverall => if race_open r then r_resolve TimedOut r else r
  | RaceCallerEnded =>
      race_asked_all m (CETerminal caller_gone)
        (if race_open r && abortOnCallerHangup then r_resolve Aborted r else r)
  | RacePlayed i res => race_asked i m (CEPlayed res) r
  | RaceConfirmTimer i => race_asked i m CETimer r
  | RaceStopped i => race_asked i m CEStopped r
  | RaceRejected i =>
      with_leg i (λ a id l,
        if l_rejecting l then legIsOut i None (leg_map (set_rejecting false) i r) else r)
  | RaceLoserHungUp =>
      match r_stage r with RaceCleaning rest => race_next rest r | _ => r end
  end.

Definition race_step (r : Race) (ev : Moment * RaceEvent) : Race :=
  race_close ev.1 (race_handle ev.1 ev.2 r).

(** The start: the watchers are in place, then the legs without a delay begin. *)
Definition race_leg (a : DialAttempt * string) : RaceLeg :=
  {| l_stage := LegDelayed;
     l_progress := match progress_budget ctx a.1 with Some _ => true | None => false end;
     l_ended := false; l_confirm := None; l_dropping := false; l_rejecting := false |}.

Definition race_init : Race :=
  {| r_settled := None; r_lastCause := None; r_legs := race_leg <$> attempts; r_stage := RaceOpen;
     r_notes := [];
     r_trace := [ActArm RingTimer (Z.max 1 overallTimeoutSeconds * MILLIS_PER_SECOND)] ++
                concat ((λ a : DialAttempt * string, arm_progress ctx a.1) <$> attempts) |}.

Definition race_start : Race :=
  foldl (λ r i,
    match attempts !! i with
    | Some (a, id) =>
        if (0 <? delaySeconds a)%Z then r_act [ActArm DelayTimer (delaySeconds a * MILLIS_PER_SECOND)] r
        else race_begin i a id r
    | None => r
    end) race_init (seq 0 (length attempts)).

Definition race_run (evs : list (Moment * RaceEvent)) : Race := foldl race_step race_start evs.

(** The delays and the timers run out and the calls under way come back. *)
Definition race_closing (m : Moment) : list (Moment * RaceEvent) :=
  (λ ev, (m, ev)) <$>
  (((λ i, RaceDelayOver i) <$> seq 0 (length attempts)) ++
   ((λ i, RaceHookDone i (Ok tt)) <$> seq 0 (length attempts)) ++
   ((λ i, RaceOriginated i (Ok tt)) <$> seq 0 (length attempts)) ++
   [RaceOverall] ++ replicate (S (length attempts)) RaceLoserHungUp).

(** [dialSimultaneous]: the run of a schedule, closed. *)
Definition dialSimultaneous (m : Moment) (evs : list (Moment * RaceEvent)) : Race :=
  race_run (evs ++ race_closing m).

Definition race_outcome (r : Race) : option DialOutcome :=
  match r_stage r with RaceOver outcome => Some outcome | _ => None end.
End Race.

End Dial.
