(* ===== verification/DialFacts.v ===== *)
(** * What a dial guarantees

    The properties of the machines of Dial.v, for every schedule of the events of
    their environment: one leg ends, and is up only if it answered and accepted;
    a race ends with at most one leg up. *)

From S2P Require Import Prelude HangupCauses MediaRefs Dial.

Module DialFacts.
Import MediaRefs Dial.

(** ** The question *)

(** The prompt was played to the leg. *)
Definition asked (req : ConfirmRequest) (id : string) (trace : list LegAction) : Prop :=
  ∃ ref, ActAsk id (confirm_media req) ref ∈ trace.

Definition hung_up (id : string) (trace : list LegAction) : Prop :=
  ∃ cause, ActHangup id cause ∈ trace.

Definition is_done (c : Confirm) : bool := match c_phase c with CDone _ => true | _ => false end.

(** What is known of a question in its phase; [heard] are the digits of the leg. *)
Definition confirm_ok (req : ConfirmRequest) (id : string) (heard : string → Prop)
    (trace : list LegAction) (c : Confirm) : Prop :=
  c_terminal c ≠ Some accepted ∧
  match c_phase c with
  | CDone accepted => heard (acceptDigit req) ∧ asked req id trace
  | CDone _ => True
  | CStopping _ (StepDigit d) => heard d ∧ asked req id trace
  | CStopping _ (StepTerminal v) => v ≠ accepted ∧ asked req id trace
  | _ => asked req id trace
  end.

Definition quiet (a : LegAction) : Prop :=
  match a with ActHangup _ _ | ActHangingUp _ _ => False | _ => True end.

Lemma asked_app req id t t' : asked req id t → asked req id (t ++ t').
Proof. intros [ref H]. exists ref. set_solver. Qed.

Lemma hung_up_app id t t' : hung_up id t → hung_up id (t ++ t').
Proof. intros [c H]. exists c. set_solver. Qed.

Lemma hung_up_leg id cause t : hung_up id (t ++ hangup_leg id cause).
Proof. exists cause. unfold hangup_leg. set_solver. Qed.

Lemma not_hung_up_quiet id t t' : Forall quiet t' → ¬ hung_up id t → ¬ hung_up id (t ++ t').
Proof.
  intros Hq Hn [c H]. apply elem_of_app in H as [H|H]; [by apply Hn; exists c|].
  rewrite Forall_forall in Hq. by apply Hq in H.
Qed.

Lemma confirm_ok_mono req id (heard heard' : string → Prop) t t' c :
  (∀ d, heard d → heard' d) → confirm_ok req id heard t c → confirm_ok req id heard' (t ++ t') c.
Proof.
  intros Hh. unfold confirm_ok. repeat case_match; naive_solver eauto using asked_app.
Qed.

Lemma confirm_head_ok req id heard m round terminal t :
  terminal ≠ Some accepted →
  confirm_ok req id heard (t ++ (confirm_head req id m round terminal).2)
    (confirm_head req id m round terminal).1.
Proof.
  unfold confirm_head, confirm_ok, asked. intros Hv.
  destruct (round <? _); [|destruct terminal as [[]|]; naive_solver].
  destruct terminal as [[]|]; try naive_solver. destruct (m_abandoned m); simpl; [done|].
  split; [done|]. exists (m_newId m). set_solver.
Qed.

Lemma confirm_head_quiet req id m round terminal : Forall quiet (confirm_head req id m round terminal).2.
Proof. unfold confirm_head. repeat case_match; repeat constructor. Qed.

Lemma confirm_step_quiet req id m ev c : Forall quiet (confirm_step req id m ev c).2.
Proof.
  unfold confirm_step. repeat (case_match; try by repeat constructor); apply confirm_head_quiet.
Qed.

(** A verdict is never settled as [accepted] from outside. *)
Definition event_ok (heard : string → Prop) (ev : ConfirmEvent) : Prop :=
  match ev with CEDigit d => heard d | CETerminal v => v ≠ accepted | _ => True end.

Lemma confirm_step_ok req id heard m ev c t :
  event_ok heard ev → confirm_ok req id heard t c →
  confirm_ok req id heard (t ++ (confirm_step req id m ev c).2) (confirm_step req id m ev c).1.
Proof.
  intros He [Ht Hc]. unfold confirm_step.
  destruct c as [round terminal phase]; simpl in *.
  destruct phase as [ref|ref|ref [d| |v]|v].
  - destruct ev as [[[]|e]|d| |v|]; simpl in *;
      try (by split; [done|]; simpl; rewrite ?app_nil_r).
    + destruct terminal as [v|]; (split; [done|]); simpl; eauto using asked_app. naive_solver eauto using asked_app.
    + destruct terminal as [v'|]; split; simpl; rewrite ?app_nil_r; naive_solver.
  - destruct ev as [[[]|e]|d| |v|]; simpl in *;
      try (by split; [done|]; simpl; rewrite ?app_nil_r); try (split; [done|]; simpl; eauto using asked_app).
    destruct terminal as [v'|]; split; simpl; rewrite ?app_nil_r; naive_solver eauto using asked_app.
  - destruct ev as [[[]|e]|d'| |v|]; simpl in *;
      try (by split; [done|]; simpl; rewrite ?app_nil_r).
    + destruct terminal as [v'|]; split; simpl; rewrite ?app_nil_r; naive_solver.
    + case_bool_decide; [subst; split; [done|]; simpl; by rewrite app_nil_r|by apply confirm_head_ok].
  - destruct ev as [[[]|e]|d'| |v|]; simpl in *;
      try (by split; [done|]; simpl; rewrite ?app_nil_r).
    + destruct terminal as [v'|]; split; simpl; rewrite ?app_nil_r; naive_solver.
    + by apply confirm_head_ok.
  - destruct ev as [[[]|e]|d'| |v'|]; simpl in *;
      try (by split; [done|]; simpl; rewrite ?app_nil_r).
    + destruct terminal as [v''|]; split; simpl; rewrite ?app_nil_r; naive_solver.
    + split; [done|]. simpl. destruct Hc as [Hv Hc]. by destruct v.
  - split; simpl; rewrite ?app_nil_r; done.
Qed.
(** ** One leg *)
Section One.
Context (ctx : DialContext) (attempt : DialAttempt) (id : string) (index : nat)
  (abortOnCallerHangup : bool).

Definition one_heard (evs : list (Moment * OneEvent)) (d : string) : Prop :=
  ∃ m, (m, OneSignal (SigDtmf d)) ∈ evs.

Definition one_answered (evs : list (Moment * OneEvent)) : Prop :=
  ∃ m sig, (m, OneSignal sig) ∈ evs ∧ (sig = SigAnswered ∨ sig = SigEntered).

Definition cancelled (trace : list LegAction) : Prop := ActHangup id ORIGINATOR_CANCEL ∈ trace.

(** The leg is up, and accepted if it was asked to. *)
Definition one_up (evs : list (Moment * OneEvent)) (trace : list LegAction) (i : string) (n : nat) : Prop :=
  i = id ∧ n = index ∧ ¬ hung_up id trace ∧ one_answered evs ∧
  ∀ req, confirm attempt = Some req → one_heard evs (acceptDigit req) ∧ asked req id trace.

Definition one_stage_ok (evs : list (Moment * OneEvent)) (s : One) : Prop :=
  match o_stage s with
  | OneHook | OneOriginating | OneWaiting => ¬ hung_up id (o_trace s)
  | OneConfirming c =>
      ¬ hung_up id (o_trace s) ∧ is_done c = false ∧ o_settled s = Some (Answered id index) ∧
      ∃ req, confirm attempt = Some req ∧ confirm_ok req id (one_heard evs) (o_trace s) c
  | OneHangingUp (Answered _ _) => False
  | OneHangingUp _ => cancelled (o_trace s)
  | OneOver (Answered i n) => one_up evs (o_trace s) i n
  | OneOver _ => cancelled (o_trace s)
  end.

Definition one_inv (evs : list (Moment * OneEvent)) (s : One) : Prop :=
  (∀ i n, o_settled s = Some (Answered i n) → i = id ∧ n = index ∧ one_answered evs) ∧
  one_stage_ok evs s.

Lemma one_heard_mono evs evs' d : one_heard evs d → one_heard (evs ++ evs') d.
Proof. intros [m H]. exists m. set_solver. Qed.

Lemma one_answered_mono evs evs' : one_answered evs → one_answered (evs ++ evs').
Proof. intros (m & sig & H & Hs). exists m, sig. set_solver. Qed.

Lemma one_inv_mono evs evs' s : one_inv evs s → one_inv (evs ++ evs') s.
Proof.
  intros [Hs Hst]. split; [naive_solver eauto using one_answered_mono|].
  unfold one_stage_ok, one_up in *. destruct (o_stage s) as [| | |c|[]|[i n| | |]]; auto.
  - destruct Hst as (H1 & H2 & H3 & req & H4 & H5). split_and!; auto. exists req. split; [done|].
    rewrite <- (app_nil_r (o_trace s)).
    by eapply confirm_ok_mono; [intros d; apply one_heard_mono|].
  - naive_solver eauto using one_answered_mono, one_heard_mono.
Qed.

Lemma one_resolve_inv evs o s :
  (∀ i n, o = Answered i n → i = id ∧ n = index ∧ one_answered evs) →
  one_inv evs s → one_inv evs (o_resolve o s).
Proof.
  intros Ho Hi. unfold o_resolve. destruct (o_settled s) eqn:E; [done|]. destruct Hi as [Hs Hst].
  split; [naive_solver|]. unfold one_stage_ok in *. simpl.
  destruct (o_stage s) as [| | |c|[]|[]]; try done. destruct Hst as (_ & _ & H & _). congruence.
Qed.

(** A step that leaves the stage and the outcome alone, and hangs up nothing. *)
Lemma one_quiet_inv evs s s' acts :
  o_settled s' = o_settled s → o_stage s' = o_stage s → o_trace s' = o_trace s ++ acts →
  Forall quiet acts → one_inv evs s → one_inv evs s'.
Proof.
  intros H1 H2 H3 Hq [Hs Hst]. split; [by rewrite H1|].
  unfold one_stage_ok, one_up, cancelled in *. rewrite H1, H2, H3.
  destruct (o_stage s) as [| | |c|[]|[i n| | |]];
    try (by apply not_hung_up_quiet); try done; try (apply elem_of_app; by left).
  - destruct Hst as (Ha & Hb & Hc & req & Hr & Hok). split_and!; auto using not_hung_up_quiet.
    exists req. split; [done|]. by eapply confirm_ok_mono.
  - destruct Hst as (-> & -> & Hn & Ha & Hr). split_and!; auto using not_hung_up_quiet.
    intros req Hreq. destruct (Hr req Hreq). auto using asked_app.
Qed.

Lemma one_finish_inv evs o s :
  match o with Answered i n => one_up evs (o_trace s) i n | _ => True end →
  (∀ i n, o_settled s = Some (Answered i n) → i = id ∧ n = index ∧ one_answered evs) →
  one_inv evs (one_finish id o s).
Proof.
  intros Ho Hs. unfold one_finish, one_inv, one_stage_ok, cancelled, hangup_leg.
  destruct o; simpl; (split; [done|]); try done; set_solver.
Qed.

Lemma one_confirm_inv evs req step s :
  confirm attempt = Some req → o_settled s = Some (Answered id index) → one_answered evs →
  ¬ hung_up id (o_trace s) → Forall quiet step.2 →
  confirm_ok req id (one_heard evs) (o_trace s ++ step.2) step.1 →
  one_inv evs (one_confirm attempt id (Answered id index) step s).
Proof.
  intros Hr Hs Ha Hn Hq Hok. destruct step as [c acts]; simpl in *. unfold one_confirm.
  pose proof (not_hung_up_quiet id _ _ Hq Hn) as Hn'.
  destruct (c_phase c) as [ref|ref|ref st|v] eqn:Hph.
  1-3: split; simpl; [naive_solver|]; unfold one_stage_ok; simpl; split_and!;
    [done|by unfold is_done; rewrite Hph|done|by exists req].
  destruct Hok as [_ Hok]. rewrite Hph in Hok.
  destruct v; cbv [settleConfirm]; apply one_finish_inv; simpl; try done; try naive_solver.
  split_and!; try done. intros req' Hr'. simplify_eq. done.
Qed.

Lemma one_asked_inv evs m ev s :
  event_ok (one_heard evs) ev → one_inv evs s → one_inv evs (one_asked attempt id m ev s).
Proof.
  intros He Hi. pose proof Hi as [Hs Hst]. unfold one_asked, one_stage_ok in *.
  destruct (o_stage s) as [| | |c|o|o] eqn:Hstage; try done.
  destruct Hst as (Hn & Hd & Hset & req & Hr & Hok). rewrite Hset, Hr.
  apply one_confirm_inv with req; auto.
  - by destruct (Hs id index Hset) as (_ & _ & ?).
  - apply confirm_step_quiet.
  - by apply confirm_step_ok.
Qed.

Lemma one_proceed_inv evs m s : one_inv evs s → one_inv evs (one_proceed attempt id m s).
Proof.
  intros Hi. pose proof Hi as [Hs Hst]. unfold one_proceed, one_stage_ok in *.
  destruct (o_stage s) eqn:Hstage; try done. destruct (o_settled s) as [o|] eqn:Hset; [|done].
  assert (∀ i n, o_settled (o_set_progress false s) = Some (Answered i n) →
            i = id ∧ n = index ∧ one_answered evs) as Hs' by (simpl; rewrite Hset; naive_solver).
  destruct o as [i n|c n| |]; try by apply one_finish_inv.
  destruct (Hs i n eq_refl) as (-> & -> & Ha). destruct (confirm attempt) as [req|] eqn:Hr.
  - apply one_confirm_inv with req; auto; [apply confirm_head_quiet|by apply confirm_head_ok].
  - apply one_finish_inv; [|done]. split_and!; auto. naive_solver.
Qed.

Lemma one_handle_inv evs m ev s :
  one_inv evs s →
  one_inv (evs ++ [(m, ev)]) (one_handle ctx attempt id index abortOnCallerHangup m ev s).
Proof.
  intros Hi%(one_inv_mono _ [(m, ev)]).
  destruct ev as [r|r|sig| | | |r| | |]; simpl.
  - destruct (o_stage s) eqn:Hstage; try by destruct r.
    pose proof Hi as [Hs Hst]. unfold one_stage_ok in Hst. rewrite Hstage in Hst.
    destruct r as [[]|e].
    + split; [done|]. unfold one_stage_ok. simpl. intros [c H]. apply Hst. exists c. set_solver.
    + apply one_resolve_inv; [done|]. split; [done|]. done.
  - destruct (o_stage s) eqn:Hstage; try by destruct r.
    pose proof Hi as [Hs Hst]. unfold one_stage_ok in Hst. rewrite Hstage in Hst.
    destruct r as [[]|e]; [by split|]. apply one_resolve_inv; [done|]. by split.
  - unfold one_signal. destruct (one_open s).
    + assert (one_inv (evs ++ [(m, OneSignal sig)]) (o_set_progress false s)) as Hp.
      { eapply (one_quiet_inv _ s _ []); simpl; rewrite ?app_nil_r; done. }
      destruct sig; auto.
      1-2: apply one_resolve_inv; [|done]; intros i n [= <- <-]; split_and!; [done|done|];
           eexists m, _; (split; [apply elem_of_app; right; apply list_elem_of_here|auto]).
      by apply one_resolve_inv.
    + destruct sig; auto.
      * apply one_asked_inv; [|done]. exists m. set_solver.
      * by apply one_asked_inv.
  - destruct (one_open s && o_progress s); [|done]. apply one_resolve_inv; [done|].
    eapply (one_quiet_inv _ s _ []); simpl; rewrite ?app_nil_r; done.
  - destruct (one_open s); [|done]. by apply one_resolve_inv.
  - destruct (one_open s); [|by apply one_asked_inv].
    destruct abortOnCallerHangup; [by apply one_resolve_inv|done].
  - by apply one_asked_inv.
  - by apply one_asked_inv.
  - by apply one_asked_inv.
  - destruct Hi as [Hs Hst]. unfold one_stage_ok in Hst.
    destruct (o_stage s) as [| | |c|o|o] eqn:Hstage;
      try (split; [done|]; unfold one_stage_ok; by rewrite Hstage).
    split; [done|]. unfold one_stage_ok. simpl. by destruct o.
Qed.

Lemma one_run_inv evs : one_inv evs (one_run ctx attempt id index abortOnCallerHangup evs).
Proof.
  induction evs as [|[m ev] evs IH] using rev_ind.
  - split; [done|]. unfold one_stage_ok. simpl. intros [c H].
    unfold arm_progress in H. destruct (progress_budget _ _); set_solver.
  - unfold one_run in *. rewrite foldl_app. simpl. by apply one_proceed_inv, one_handle_inv.
Qed.
(** *** The dial ends

    A dial that is not over waits for one thing: an answer of a call under way, or a
    timer it has armed. Each time what it waits for comes, its rank goes down, and
    nothing else makes it go up. *)
Notation step := (one_step ctx attempt id index abortOnCallerHangup).
Notation run := (one_run ctx attempt id index abortOnCallerHangup).
Notation rounds := (confirm_rounds attempt).

Definition one_is_over (s : One) : Prop := one_outcome s ≠ None.

(** What a question waits for. *)
Definition confirm_awaits (c : Confirm) (ev : ConfirmEvent) : bool :=
  match c_phase c, ev with
  | CPlaying _, CEPlayed _ | CAsking _, CETimer | CStopping _ _, CEStopped => true
  | _, _ => false
  end.

(** What a dial waits for. *)
Definition one_awaits (s : One) (ev : OneEvent) : bool :=
  match o_stage s, ev with
  | OneHook, OneHookDone _ | OneOriginating, OneOriginated _ | OneWaiting, OneRingTimer
  | OneHangingUp _, OneHungUp => true
  | OneConfirming c, OnePlayed r => confirm_awaits c (CEPlayed r)
  | OneConfirming c, OneConfirmTimer => confirm_awaits c CETimer
  | OneConfirming c, OneStopped => confirm_awaits c CEStopped
  | _, _ => false
  end.

(** How often what a dial waited for came, over the events from [s]. *)
Fixpoint one_waited (s : One) (evs : list (Moment * OneEvent)) : nat :=
  match evs with
  | [] => 0
  | ev :: evs => Nat.b2n (one_awaits s ev.2) + one_waited (step s ev) evs
  end.

Definition confirm_rank (req : ConfirmRequest) (c : Confirm) : nat :=
  match c_phase c with
  | CPlaying _ => 3 * (confirm_attempts req - c_round c)
  | CAsking _ => 3 * (confirm_attempts req - c_round c) - 1
  | CStopping _ _ => 3 * (confirm_attempts req - c_round c) - 2
  | CDone _ => 0
  end.

Definition one_rank (s : One) : nat :=
  match o_stage s with
  | OneHook => 3 * rounds + 4
  | OneOriginating => 3 * rounds + 3
  | OneWaiting => 3 * rounds + 2
  | OneConfirming c => S (match confirm attempt with Some req => confirm_rank req c | None => 0 end)
  | OneHangingUp _ => 1
  | OneOver _ => 0
  end.

(** A question still asked is in one of its rounds. *)
Definition confirm_live (req : ConfirmRequest) (c : Confirm) : Prop :=
  is_done c = false ∧ c_round c < confirm_attempts req.

(** Nothing waits for what has been decided. *)
Definition one_live (s : One) : Prop :=
  match o_stage s with
  | OneWaiting => o_settled s = None
  | OneConfirming c => ∃ req o, confirm attempt = Some req ∧ o_settled s = Some o ∧ confirm_live req c
  | _ => True
  end.

(** The prompts played. *)
Definition is_ask (a : LegAction) : bool := match a with ActAsk _ _ _ => true | _ => false end.
Definition asks (l : list LegAction) : nat := length (List.filter is_ask l).

Lemma asks_app l l' : asks (l ++ l') = asks l + asks l'.
Proof. unfold asks. by rewrite List.filter_app, length_app. Qed.

Lemma confirm_head_live req m round terminal :
  let '(c, acts) := confirm_head req id m round terminal in
  is_done c = true ∧ asks acts = 0 ∨
  confirm_live req c ∧ c_round c = round ∧ confirm_rank req c = 3 * (confirm_attempts req - round) ∧ asks acts = 1.
Proof.
  unfold confirm_head, confirm_live, confirm_rank, is_done.
  destruct (Nat.ltb_spec round (confirm_attempts req)); [|by left].
  destruct terminal; [by left|]. destruct (m_abandoned m); [by left|]. right. by split_and!.
Qed.

(** One event of a question: its rank does not grow, and shrinks when it was awaited;
    a prompt is played only for a later round. *)
Lemma confirm_step_live req m ev c :
  confirm_live req c →
  let '(c', acts) := confirm_step req id m ev c in
  confirm_rank req c' + Nat.b2n (confirm_awaits c ev) <= confirm_rank req c ∧ 0 < confirm_rank req c ∧
  (is_done c' = true ∧ asks acts = 0 ∨ confirm_live req c' ∧ asks acts + c_round c = c_round c').
Proof.
  destruct c as [round terminal phase]. unfold confirm_live. cbn [c_round]. intros [Hd Hr].
  assert (∀ (c : Confirm) (acts : list LegAction), c_round c = round → asks acts = 0 →
    confirm_live req c ∨ is_done c = true →
    is_done c = true ∧ asks acts = 0 ∨ confirm_live req c ∧ asks acts + round = c_round c) as Hkeep.
  { intros c acts <- -> [H|H]; [right|left]; done. }
  assert (∀ st, phase = CStopping st.1 st.2 →
    let '(c', acts) := confirm_head req id m (S round) terminal in
    confirm_rank req c' + 1 <= 3 * (confirm_attempts req - round) - 2 ∧
    0 < 3 * (confirm_attempts req - round) - 2 ∧
    (is_done c' = true ∧ asks acts = 0 ∨ confirm_live req c' ∧ asks acts + round = c_round c')) as Hhead.
  { intros st _. pose proof (confirm_head_live req m (S round) terminal) as H.
    destruct (confirm_head _ _ _ _ _) as [c' acts]. destruct H as [[H1 H2]|(H1 & H2 & -> & ->)].
    - split_and!; [|lia|by left]. unfold confirm_rank, is_done in *. destruct (c_phase c'); [done..|lia].
    - split_and!; [lia|lia|right; split; [done|lia]]. }
  assert (∀ p t acts, asks acts = 0 → confirm_rank req {| c_round := round; c_terminal := t; c_phase := p |} +
      Nat.b2n (confirm_awaits {| c_round := round; c_terminal := terminal; c_phase := phase |} ev) <=
      confirm_rank req {| c_round := round; c_terminal := terminal; c_phase := phase |} →
    let '(c', acts) := ({| c_round := round; c_terminal := t; c_phase := p |}, acts) in
    confirm_rank req c' + Nat.b2n (confirm_awaits {| c_round := round; c_terminal := terminal; c_phase := phase |} ev) <=
      confirm_rank req {| c_round := round; c_terminal := terminal; c_phase := phase |} ∧
    0 < confirm_rank req {| c_round := round; c_terminal := terminal; c_phase := phase |} ∧
    (is_done c' = true ∧ asks acts = 0 ∨
     confirm_live req c' ∧ asks acts + round = c_round c')) as Hgo.
  { intros p t acts Ha Hle. split_and!; [exact Hle| |apply Hkeep; [done|done|]].
    - destruct phase; [..|done]; unfold confirm_rank; cbn [c_phase c_round]; lia.
    - unfold confirm_live, is_done. cbn [c_phase c_round]. destruct p; [left..|right]; done. }
  unfold confirm_live in *. unfold confirm_step. cbn [c_phase c_round c_terminal].
  destruct phase as [ref|ref|ref st|v]; [| | |done].
  - destruct ev as [[[]|e]|d| |v|]; try destruct terminal; apply Hgo; try done;
      unfold confirm_rank, confirm_awaits; cbn [c_phase c_round Nat.b2n]; lia.
  - destruct ev as [[[]|e]|d| |v|]; try destruct terminal; apply Hgo; try done;
      unfold confirm_rank, confirm_awaits; cbn [c_phase c_round Nat.b2n]; lia.
  - destruct ev as [[[]|e]|d| |v|].
    1-4: destruct st; apply Hgo; try done; unfold confirm_rank, confirm_awaits; cbn [c_phase c_round Nat.b2n]; lia.
    + destruct terminal, st; apply Hgo; try done; unfold confirm_rank, confirm_awaits; cbn [c_phase c_round Nat.b2n]; lia.
    + destruct st as [d| |v]; [case_bool_decide|..];
        first [exact (Hhead (ref, StepTimeout) eq_refl) | exact (Hhead (_, _) eq_refl)
              | apply Hgo; try done; unfold confirm_rank, confirm_awaits; cbn [c_phase c_round Nat.b2n]; lia].
Qed.

(** *** One event of a dial *)
Notation next_rank s s' ev := (one_rank s' + Nat.b2n (one_awaits s ev) <= one_rank s).

Definition one_asks (s : One) : Prop :=
  asks (o_trace s) <=
  match o_stage s with
  | OneHook | OneOriginating | OneWaiting => 0
  | OneConfirming c => S (c_round c)
  | _ => rounds
  end.

Lemma one_finish_next o s :
  asks (o_trace s) <= rounds →
  one_live (one_finish id o s) ∧ one_asks (one_finish id o s) ∧ one_rank (one_finish id o s) <= 1.
Proof.
  intros Ha. assert (asks (o_trace s ++ hangup_leg id ORIGINATOR_CANCEL) <= rounds) as Hb.
  { rewrite asks_app. change (asks (hangup_leg _ _)) with 0. lia. }
  unfold one_finish, one_live, one_asks, one_rank. destruct o; cbn; split_and!; try done; lia.
Qed.

(** A step of the question, from a state whose prompts are counted. *)
Lemma one_confirm_next req answered c acts s n :
  confirm attempt = Some req → o_settled s = Some answered → asks (o_trace s) <= n →
  n + asks acts <= rounds →
  (is_done c = true ∧ asks acts = 0 ∨ confirm_live req c ∧ n + asks acts = S (c_round c)) →
  let s' := one_confirm attempt id answered (c, acts) s in
  one_live s' ∧ one_asks s' ∧ (is_done c = true ∧ one_rank s' <= 1 ∨ one_rank s' = S (confirm_rank req c)).
Proof.
  intros Hr Hs Hn Hmax Hc. unfold one_confirm, is_done in *.
  destruct Hc as [[Hd Ha]|[[Hl1 Hl2] Ha]].
  - destruct (c_phase c) as [| | |v]; try done. destruct (settleConfirm v answered attempt) as [o notes].
    assert (asks (o_trace s ++ acts) <= rounds) as Hb by (rewrite asks_app; lia).
    destruct (one_finish_next o (o_note notes (o_act acts (o_set_stage (OneConfirming c) s))) Hb)
      as (? & ? & ?). split_and!; [done|done|by left].
  - assert (asks (o_trace s ++ acts) <= S (c_round c)) as Hb by (rewrite asks_app; lia).
    unfold is_done in Hl1. destruct (c_phase c) eqn:Hph; try done; cbn.
    all: split_and!; [exists req, answered; unfold confirm_live, is_done; rewrite Hph; by split_and!|done|].
    all: right; unfold one_rank; cbn; by rewrite Hr.
Qed.

Lemma rounds_confirm req : confirm attempt = Some req → rounds = confirm_attempts req.
Proof. intros Hr. unfold confirm_rounds. by rewrite Hr. Qed.

(** What follows the event once the outcome is known. *)
Lemma one_proceed_next m s :
  one_asks s → (∀ c, o_stage s ≠ OneConfirming c) →
  let s' := one_proceed attempt id m s in
  one_live s' ∧ one_asks s' ∧
  (s' = s ∨ o_stage s = OneWaiting ∧ is_Some (o_settled s) ∧ one_rank s' <= 3 * rounds + 1).
Proof.
  intros Ha Hc. unfold one_proceed. destruct (o_stage s) as [| | |c|o|o] eqn:Hst;
    try (by unfold one_live; rewrite Hst; split_and!; [..|left]); [|by destruct (Hc c)].
  destruct (o_settled s) as [out|] eqn:Hset; [|by unfold one_live; rewrite Hst; split_and!; [..|left]].
  assert (asks (o_trace s) <= 0) as Ha0 by (unfold one_asks in Ha; by rewrite Hst in Ha).
  assert (∀ o, let s' := one_finish id o (o_set_progress false s) in
    one_live s' ∧ one_asks s' ∧ (s' = s ∨ OneWaiting = OneWaiting ∧ is_Some (Some out) ∧ one_rank s' <= 3 * rounds + 1))
    as Hfinish.
  { intros o. destruct (one_finish_next o (o_set_progress false s)) as (? & ? & ?); [change (asks (o_trace s) <= rounds); lia|].
    split_and!; [done|done|right]. split_and!; [done|by eexists|lia]. }
  destruct out as [i n|cause n| |]; try apply Hfinish.
  destruct (confirm attempt) as [req|] eqn:Hr; [|apply Hfinish].
  pose proof (confirm_head_live req m 0 None) as Hh. pose proof (rounds_confirm req Hr) as Hrr.
  destruct (confirm_head req id m 0 None) as [c acts].
  destruct (one_confirm_next req (Answered i n) c acts (o_set_progress false s) 0) as (H1 & H2 & H3); try done.
  - destruct Hh as [[_ ->]|([_ Hlt] & Hz & _ & ->)]; [lia|]. rewrite Hrr. lia.
  - destruct Hh as [?|(Hl & Hz & _ & ->)]; [by left|right]. split; [done|]. by rewrite Hz.
  - split_and!; [done|done|right]. split_and!; [done|by eexists|].
    destruct H3 as [[_ H3]|H3]; [lia|]. rewrite H3, Hrr.
    destruct Hh as [[Hd _]|(_ & _ & -> & _)]; [|lia].
    unfold is_done, confirm_rank in *. destruct (c_phase c); try done. lia.
Qed.

Lemma o_resolve_stage o s : o_stage (o_resolve o s) = o_stage s.
Proof. unfold o_resolve. by destruct (o_settled s). Qed.

Lemma one_resolve_trace o s : o_trace (o_resolve o s) = o_trace s.
Proof. unfold o_resolve. by destruct (o_settled s). Qed.

Lemma one_resolve_settled o s : is_Some (o_settled (o_resolve o s)).
Proof. unfold o_resolve. destruct (o_settled s) eqn:E; [by rewrite E|by eexists]. Qed.

(** An event while the leg rings. *)
Lemma one_handle_ringing m ev s :
  one_open s = true → one_asks s →
  let s' := one_handle ctx attempt id index abortOnCallerHangup m ev s in
  one_open s' = true ∧ one_asks s' ∧ one_rank s' <= one_rank s ∧
  (one_awaits s ev = true → one_rank s' < one_rank s ∨ o_stage s' = OneWaiting ∧ is_Some (o_settled s')).
Proof.
  intros Ho Ha. cbv zeta. unfold one_open, one_asks, one_rank, one_awaits in *.
  set (s' := one_handle _ _ _ _ _ _ _ _).
  assert (∀ st, asks (o_trace s') = asks (o_trace s) → o_stage s' = st →
    match st with OneHook | OneOriginating | OneWaiting => True | _ => False end → asks (o_trace s') <= 0) as Hasks.
  { intros st -> <- _. by destruct (o_stage s). }
  subst s'.
  destruct ev as [r|r|sig| | | |r| | |].
  - destruct (o_stage s) eqn:Hst; try done; unfold one_handle in *; rewrite Hst in *; [|by destruct r; rewrite Hst..].
    destruct r as [u|e]; unfold one_refused in *; rewrite ?o_resolve_stage, ?one_resolve_trace in *; cbn in *;
      (split_and!; [done|eapply Hasks; [|done|done]|lia|by left; lia]); unfold asks; [|done].
    by rewrite List.filter_app, app_nil_r.
  - destruct (o_stage s) eqn:Hst; try done; unfold one_handle in *; rewrite Hst in *;
      [by destruct r; rewrite Hst| |by destruct r; rewrite Hst].
    destruct r as [u|e]; unfold one_refused in *; rewrite ?o_resolve_stage, ?one_resolve_trace in *; cbn in *;
      (split_and!; [done|done|lia|by left; lia]).
  - destruct (o_stage s) eqn:Hst; try done; unfold one_handle, one_signal, one_open; rewrite Hst;
      destruct sig; rewrite ?o_resolve_stage, ?one_resolve_trace; cbn; rewrite ?Hst; by split_and!.
  - destruct (o_stage s) eqn:Hst; try done; unfold one_handle, one_open; rewrite Hst;
      destruct (o_progress s); cbn [andb]; rewrite ?o_resolve_stage, ?one_resolve_trace; cbn; rewrite ?Hst; by split_and!.
  - destruct (o_stage s) eqn:Hst; try done; unfold one_handle, one_open; rewrite Hst;
      rewrite ?o_resolve_stage, ?one_resolve_trace, ?Hst; split_and!; try done.
    intros _. right. split; [done|apply one_resolve_settled].
  - destruct (o_stage s) eqn:Hst; try done; unfold one_handle, one_open; rewrite Hst;
      destruct abortOnCallerHangup; rewrite ?o_resolve_stage, ?one_resolve_trace, ?Hst; by split_and!.
  - destruct (o_stage s) eqn:Hst; try done; unfold one_handle, one_asked; rewrite Hst, ?Hst; by split_and!.
  - destruct (o_stage s) eqn:Hst; try done; unfold one_handle, one_asked; rewrite Hst, ?Hst; by split_and!.
  - destruct (o_stage s) eqn:Hst; try done; unfold one_handle, one_asked; rewrite Hst, ?Hst; by split_and!.
  - destruct (o_stage s) eqn:Hst; try done; unfold one_handle; rewrite Hst, ?Hst; by split_and!.
Qed.

Lemma one_step_ringing s ev :
  one_open s = true → one_live s → one_asks s →
  one_live (step s ev) ∧ one_asks (step s ev) ∧ next_rank s (step s ev) ev.2.
Proof.
  intros Ho Hl Ha. destruct ev as [m ev]. unfold one_step. cbn [fst snd].
  destruct (one_handle_ringing m ev s Ho Ha) as (Ho' & Ha' & Hle & Hlt).
  set (s' := one_handle _ _ _ _ _ _ _ _) in *.
  destruct (one_proceed_next m s' Ha') as (H1 & H2 & H3).
  { intros c Hc. unfold one_open in Ho'. by rewrite Hc in Ho'. }
  split_and!; [done|done|]. destruct H3 as [Heq|(Hw & _ & H3)].
  - rewrite Heq in *. destruct (one_awaits s ev); cbn; [|lia].
    destruct (Hlt eq_refl) as [|[Hst [o Hs]]]; [lia|]. unfold one_live in H1. rewrite Hst, Hs in H1. done.
  - assert (3 * rounds + 2 <= one_rank s) as Hge.
    { unfold one_rank in Hle at 1. rewrite Hw in Hle. lia. }
    destruct (one_awaits s ev); cbn; lia.
Qed.

(** An event of the question of a leg that is being asked. *)
Lemma one_step_asked s c req answered m ev cev :
  o_stage s = OneConfirming c → o_settled s = Some answered → confirm attempt = Some req →
  one_handle ctx attempt id index abortOnCallerHangup m ev s = one_asked attempt id m cev s →
  step s (m, ev) = one_confirm attempt id answered (confirm_step req id m cev c) s.
Proof.
  intros Hst Hs Hr He. unfold one_step. simpl. rewrite He. unfold one_asked. rewrite Hst, Hs, Hr.
  unfold one_proceed, one_confirm, one_finish. repeat (case_match; simplify_eq/=; try done).
Qed.

Lemma one_step_confirming s c ev :
  o_stage s = OneConfirming c → one_live s → one_asks s →
  one_live (step s ev) ∧ one_asks (step s ev) ∧ next_rank s (step s ev) ev.2.
Proof.
  intros Hst Hl Ha. destruct ev as [m ev]. cbn [snd].
  pose proof Hl as Hl'. unfold one_live in Hl'. rewrite Hst in Hl'. destruct Hl' as (req & o & Hr & Hs & Hc).
  assert (one_rank s = S (confirm_rank req c)) as Hrank by (unfold one_rank; by rewrite Hst, Hr).
  assert (asks (o_trace s) <= S (c_round c)) as Hasks by (unfold one_asks in Ha; by rewrite Hst in Ha).
  assert (∀ cev, one_handle ctx attempt id index abortOnCallerHangup m ev s = one_asked attempt id m cev s →
    one_awaits s ev = confirm_awaits c cev →
    one_live (step s (m, ev)) ∧ one_asks (step s (m, ev)) ∧ next_rank s (step s (m, ev)) ev) as Hasked.
  { intros cev He Hw. rewrite (one_step_asked s c req o m ev cev) by done.
    pose proof (confirm_step_live req m cev c Hc) as Hstep. destruct (confirm_step req id m cev c) as [c' acts].
    destruct Hstep as (Hle & Hpos & Hcase). pose proof (rounds_confirm req Hr) as Hrr.
    destruct (one_confirm_next req o c' acts s (S (c_round c))) as (H1 & H2 & H3); try done.
    - destruct Hc as [_ Hlt]. destruct Hcase as [[_ ->]|[[_ Hlt'] ?]]; lia.
    - destruct Hcase as [?|[? ?]]; [by left|right; split; [done|lia]].
    - split_and!; [done|done|]. rewrite Hrank, Hw. destruct H3 as [[_ H3]|H3]; [|lia].
      destruct (confirm_awaits c cev); unfold Nat.b2n in *; lia. }
  assert (one_handle ctx attempt id index abortOnCallerHangup m ev s = s → one_awaits s ev = false →
    one_live (step s (m, ev)) ∧ one_asks (step s (m, ev)) ∧ next_rank s (step s (m, ev)) ev) as Hsame.
  { intros He Hw. assert (step s (m, ev) = s) as ->.
    { unfold one_step. cbn [fst snd]. rewrite He. unfold one_proceed. by rewrite Hst. }
    rewrite Hw. cbn. split_and!; [done|done|lia]. }
  assert (one_open s = false) as Ho by (unfold one_open; by rewrite Hst).
  assert (∀ cev, one_awaits s ev = false → (∀ r, cev ≠ CEPlayed r) → cev ≠ CETimer → cev ≠ CEStopped →
    one_awaits s ev = confirm_awaits c cev) as Hother.
  { intros cev -> H1 H2 H3. unfold confirm_awaits. destruct (c_phase c), cev; congruence. }
  destruct ev as [r|r|sig| | | |r| | |]; cbn [one_handle] in *; unfold one_signal in *; rewrite ?Ho in *.
  1-2: apply Hsame; [rewrite Hst; by destruct r|unfold one_awaits; by rewrite Hst].
  { assert (one_awaits s (OneSignal sig) = false) as Hw by (unfold one_awaits; by rewrite Hst).
    destruct sig; first [by apply Hsame|apply (Hasked (CEDigit digit)); [done|by apply Hother]
                        |apply (Hasked (CETerminal leg_gone)); [done|by apply Hother]]. }
  1-2: apply Hsame; [done|unfold one_awaits; by rewrite Hst].
  { apply (Hasked (CETerminal caller_gone)); [done|]. apply Hother; try done. unfold one_awaits. by rewrite Hst. }
  1-3: eapply Hasked; [reflexivity|unfold one_awaits; by rewrite Hst].
  apply Hsame; [by rewrite Hst|unfold one_awaits; by rewrite Hst].
Qed.

(** Past the question only the end of the hangup counts. *)
Lemma one_step_past s ev :
  match o_stage s with OneHangingUp _ => ev.2 ≠ OneHungUp | OneOver _ => True | _ => False end →
  step s ev = s.
Proof.
  destruct ev as [m ev]. intros Hst. unfold one_step. simpl.
  assert (one_handle ctx attempt id index abortOnCallerHangup m ev s = s) as ->.
  { unfold one_handle, one_signal, one_asked, one_open.
    destruct (o_stage s); try done;
      (destruct ev as [r|r|sig| | | |r| | |]; [by destruct r|by destruct r|by destruct sig|done..]). }
  unfold one_proceed. by destruct (o_stage s).
Qed.

Lemma one_step_next s ev :
  one_live s → one_asks s → one_live (step s ev) ∧ one_asks (step s ev) ∧ next_rank s (step s ev) ev.2.
Proof.
  intros Hl Ha. destruct (one_open s) eqn:Ho; [by apply one_step_ringing|].
  assert (one_awaits s ev.2 = false → step s ev = s →
    one_live (step s ev) ∧ one_asks (step s ev) ∧ next_rank s (step s ev) ev.2) as Hsame.
  { intros -> ->. cbn. split_and!; [done|done|lia]. }
  unfold one_open in Ho. destruct (o_stage s) as [| | |c|o|o] eqn:Hst; try done.
  - by apply one_step_confirming with c.
  - destruct (decide (one_awaits s ev.2 = true)) as [Hw|Hw%not_true_is_false].
    + unfold one_awaits in Hw. rewrite Hst in Hw. destruct ev as [m []]; try done.
      unfold one_step, one_live, one_asks, one_rank, one_awaits in *. cbn. rewrite Hst in *. cbn. by split_and!.
    + apply Hsame; [done|]. apply one_step_past. rewrite Hst. intros He.
      unfold one_awaits in Hw. by rewrite Hst, He in Hw.
  - apply Hsame; [unfold one_awaits; by rewrite Hst|]. apply one_step_past. by rewrite Hst.
Qed.

Lemma one_start_next :
  one_live (one_start ctx attempt id) ∧ one_asks (one_start ctx attempt id) ∧
  one_rank (one_start ctx attempt id) = 3 * rounds + 4.
Proof.
  unfold one_live, one_asks, one_rank, one_start, arm_progress. cbn.
  split_and!; [done| |done]. destruct (progress_budget ctx attempt); cbn; lia.
Qed.

Lemma one_steps_next s evs :
  one_live s → one_asks s →
  one_live (foldl step s evs) ∧ one_asks (foldl step s evs) ∧
  one_rank (foldl step s evs) + one_waited s evs <= one_rank s.
Proof.
  revert s. induction evs as [|ev evs IH]; intros s Hl Ha; cbn; [split_and!; [done|done|lia]|].
  destruct (one_step_next s ev Hl Ha) as (Hl' & Ha' & Hr).
  destruct (IH (step s ev) Hl' Ha') as (? & ? & ?). split_and!; [done|done|lia].
Qed.

Lemma one_run_next evs :
  one_live (run evs) ∧ one_asks (run evs) ∧
  one_rank (run evs) + one_waited (one_start ctx attempt id) evs <= 3 * rounds + 4.
Proof.
  destruct one_start_next as (Hl & Ha & Hr). rewrite <- Hr. by apply one_steps_next.
Qed.

Lemma one_asks_rounds s : one_live s → one_asks s → asks (o_trace s) <= rounds.
Proof.
  unfold one_live, one_asks. destruct (o_stage s); try lia.
  intros (req & o & Hr & _ & _ & Hlt) Ha. rewrite (rounds_confirm req Hr). lia.
Qed.

(** What a dial that is not over waits for, by its rank. *)
Lemma one_due s :
  one_live s →
  match one_rank s with
  | 0 => one_is_over s
  | 1 => one_awaits s OneHungUp = true
  | S n =>
      (one_rank s = 3 * rounds + 4 ∧ ∀ r, one_awaits s (OneHookDone r) = true) ∨
      (one_rank s = 3 * rounds + 3 ∧ ∀ r, one_awaits s (OneOriginated r) = true) ∨
      (one_rank s = 3 * rounds + 2 ∧ one_awaits s OneRingTimer = true) ∨
      ∃ j, j < rounds ∧
        (n = 3 * j + 3 ∧ (∀ r, one_awaits s (OnePlayed r) = true) ∨
         n = 3 * j + 2 ∧ one_awaits s OneConfirmTimer = true ∨
         n = 3 * j + 1 ∧ one_awaits s OneStopped = true)
  end.
Proof.
  unfold one_live, one_is_over, one_outcome. intros Hl.
  destruct (o_stage s) as [| | |c|o|o] eqn:Hst;
    [unfold one_rank, one_awaits; rewrite Hst..]; try done.
  - replace (3 * rounds + 4) with (S (S (3 * rounds + 2))) by lia. left. split; [lia|done].
  - replace (3 * rounds + 3) with (S (S (3 * rounds + 1))) by lia. right. left. split; [lia|done].
  - replace (3 * rounds + 2) with (S (S (3 * rounds))) by lia. do 2 right. left. split; [lia|done].
  - destruct Hl as (req & o & Hr & _ & Hd & Hlt). rewrite Hr. unfold confirm_rank, is_done, confirm_awaits in *.
    assert (confirm_attempts req - S (c_round c) < rounds) as Hj by (rewrite (rounds_confirm req Hr); lia).
    destruct (c_phase c); try done.
    + replace (3 * (confirm_attempts req - c_round c)) with (S (3 * (confirm_attempts req - S (c_round c)) + 2)) by lia.
      do 3 right. eexists. split; [exact Hj|]. left. split; [lia|done].
    + replace (3 * (confirm_attempts req - c_round c) - 1)
        with (S (3 * (confirm_attempts req - S (c_round c)) + 1)) by lia.
      do 3 right. eexists. split; [exact Hj|]. right. left. split; [lia|done].
    + replace (3 * (confirm_attempts req - c_round c) - 2)
        with (S (3 * (confirm_attempts req - S (c_round c)))) by lia.
      do 3 right. eexists. split; [exact Hj|]. do 2 right. split; [lia|done].
Qed.

Lemma one_due_awaits s : one_live s → one_outcome s = None → ∃ ev, one_awaits s ev = true.
Proof.
  intros Hl Ho. pose proof (one_due s Hl) as H. destruct (one_rank s) as [|[|n]]; [done|by eexists|].
  destruct H as [[_ H]|[[_ H]|[[_ H]|(j & _ & [[_ H]|[[_ H]|[_ H]]])]]];
    eexists; first [exact H|exact (H (Ok tt))].
Qed.

(** *** A closed dial *)

(** The rank is at most [n]. *)
Definition one_within (n : nat) (s : One) : Prop := one_live s ∧ one_asks s ∧ one_rank s <= n.

Lemma one_within_step n s m ev :
  one_within (S n) s → (one_rank s = S n → one_awaits s ev = true) → one_within n (step s (m, ev)).
Proof.
  intros (Hl & Ha & Hr) Hw. destruct (one_step_next s (m, ev) Hl Ha) as (? & ? & Hn). cbn in Hn.
  split_and!; [done|done|]. destruct (decide (one_rank s = S n)) as [He|]; [|lia].
  rewrite (Hw He) in Hn. cbn in Hn. lia.
Qed.

Lemma one_within_round m j s :
  j < rounds → one_within (3 * j + 4) s →
  one_within (3 * j + 1) (foldl step s ((λ ev, (m, ev)) <$> silent_round)).
Proof.
  intros Hj H. cbn.
  assert (∀ n s ev, one_within (S n) s → 0 < n → S n <= 3 * j + 4 →
    (∀ i, i < rounds → (n = 3 * i + 3 → one_awaits s (OnePlayed (Ok tt)) = true) →
       (n = 3 * i + 2 → one_awaits s OneConfirmTimer = true) →
       (n = 3 * i + 1 → one_awaits s OneStopped = true) → n < 3 * i + 4 → 3 * i < n → one_awaits s ev = true) →
    one_within n (step s (m, ev))) as Hnext.
  { clear s H. intros n s ev Hs H0 Hn Hw. apply one_within_step; [done|]. intros He.
    pose proof (one_due s (proj1 Hs)) as Hdue. rewrite He in Hdue. destruct n as [|n]; [lia|].
    destruct Hdue as [[? _]|[[? _]|[[? _]|(i & Hi & Hdue)]]]; [lia..|].
    apply (Hw i Hi); intros; try lia;
      destruct Hdue as [[? Hd]|[[? Hd]|[? Hd]]]; first [lia|exact Hd|apply Hd]. }
  replace (3 * j + 4) with (S (3 * j + 3)) in H by lia.
  apply (Hnext _ _ (OnePlayed (Ok tt))) in H; [|lia|lia|intros i _ Hi _ _ ? ?; apply Hi; lia].
  replace (3 * j + 3) with (S (3 * j + 2)) in H by lia.
  apply (Hnext _ _ OneConfirmTimer) in H; [|lia|lia|intros i _ _ Hi _ ? ?; apply Hi; lia].
  replace (3 * j + 2) with (S (3 * j + 1)) in H by lia.
  apply (Hnext _ _ OneStopped) in H; [exact H|lia|lia|intros i _ _ _ Hi ? ?; apply Hi; lia].
Qed.

Lemma one_within_rounds m j s :
  j <= rounds → one_within (3 * j + 1) s →
  one_within 1 (foldl step s ((λ ev, (m, ev)) <$> concat (replicate j silent_round))).
Proof.
  revert s. induction j as [|j IH]; intros s Hj H; [done|]. cbn [replicate concat].
  rewrite fmap_app, foldl_app. apply IH; [lia|]. apply one_within_round; [lia|].
  by replace (3 * j + 4) with (3 * S j + 1) by lia.
Qed.

Lemma dialOne_over (m : Moment) (evs : list (Moment * OneEvent)) :
  one_is_over (dialOne ctx attempt id index abortOnCallerHangup m evs).
Proof.
  unfold dialOne, one_closing, one_run. rewrite foldl_app, !fmap_app, !foldl_app. fold (run evs).
  destruct (one_run_next evs) as (Hl & Ha & Hr).
  assert (one_within (3 * rounds + 4) (run evs)) as H by (split_and!; [done|done|lia]).
  clear Hl Ha Hr. generalize dependent (run evs). intros s H. cbn [fmap list_fmap foldl].
  assert (∀ n s ev, one_within (S n) s → 3 * rounds < n →
    (n = 3 * rounds + 3 → one_awaits s (OneHookDone (Ok tt)) = true → one_awaits s ev = true) →
    (n = 3 * rounds + 2 → one_awaits s (OneOriginated (Ok tt)) = true → one_awaits s ev = true) →
    (n = 3 * rounds + 1 → one_awaits s OneRingTimer = true → one_awaits s ev = true) →
    one_within n (step s (m, ev))) as Hnext.
  { clear s H. intros n s ev Hs Hn H1 H2 H3. apply one_within_step; [done|]. intros He.
    pose proof (one_due s (proj1 Hs)) as Hdue. rewrite He in Hdue. destruct n as [|n]; [lia|].
    destruct Hdue as [[? Hd]|[[? Hd]|[[? Hd]|(i & Hi & Hdue)]]]; [..|lia];
      first [apply H1; [lia|apply Hd]|apply H2; [lia|apply Hd]|apply H3; [lia|apply Hd]]. }
  replace (3 * rounds + 4) with (S (3 * rounds + 3)) in H by lia.
  apply (Hnext _ _ (OneHookDone (Ok tt))) in H; [|lia|done|lia|lia].
  replace (3 * rounds + 3) with (S (3 * rounds + 2)) in H by lia.
  apply (Hnext _ _ (OneOriginated (Ok tt))) in H; [|lia|lia|done|lia].
  replace (3 * rounds + 2) with (S (3 * rounds + 1)) in H by lia.
  apply (Hnext _ _ OneRingTimer) in H; [|lia|lia|lia|done].
  apply (one_within_rounds m rounds) in H; [|lia].
  apply (one_within_step 0 _ m OneHungUp) in H.
  - destruct H as (Hl & _ & Hr). pose proof (one_due _ Hl) as Hd.
    by replace (one_rank _) with 0 in Hd by lia.
  - intros He. pose proof (one_due _ (proj1 H)) as Hd. by rewrite He in Hd.
Qed.

Lemma dialOne_outcome (m : Moment) (evs : list (Moment * OneEvent)) :
  let s := dialOne ctx attempt id index abortOnCallerHangup m evs in
  ∃ o, one_outcome s = Some o ∧
    match o with
    | Answered i n => one_up (evs ++ one_closing attempt m) (o_trace s) i n
    | _ => cancelled (o_trace s)
    end.
Proof.
  intros s. pose proof (dialOne_over m evs) as Hover.
  pose proof (one_run_inv (evs ++ one_closing attempt m)) as [_ Hok].
  fold (dialOne ctx attempt id index abortOnCallerHangup m evs) in Hok. fold s in Hok, Hover.
  unfold one_is_over, one_outcome, one_stage_ok in *.
  destruct (o_stage s) as [| | |c|o|o]; try done. exists o. by destruct o.
Qed.

(** *** What a dial says of its leg *)
Definition one_action (a : LegAction) : Prop :=
  match a with
  | ActOriginate r => r = originate_request ctx attempt id
  | ActHangup i _ | ActHangingUp i _ | ActAsk i _ _ => i = id
  | _ => True
  end.

Lemma confirm_head_actions req m round terminal : Forall one_action (confirm_head req id m round terminal).2.
Proof. unfold confirm_head. repeat case_match; simpl; repeat constructor. Qed.

Lemma confirm_step_actions req m ev c : Forall one_action (confirm_step req id m ev c).2.
Proof. unfold confirm_step. repeat case_match; simpl; try apply confirm_head_actions; repeat constructor. Qed.

Notation speaks s := (Forall one_action (o_trace s)).

Lemma one_finish_speaks o s : speaks s → speaks (one_finish id o s).
Proof. intros H. unfold one_finish. destruct o; simpl; try done; apply Forall_app; split; try done; repeat constructor. Qed.

Lemma one_confirm_speaks o step s :
  Forall one_action step.2 → speaks s → speaks (one_confirm attempt id o step s).
Proof.
  intros Ha Hs. unfold one_confirm. destruct step as [c acts]. simpl in Ha.
  destruct (c_phase c); simpl; try (by apply Forall_app).
  destruct (settleConfirm _ _ _) as [o' n]. apply one_finish_speaks. simpl. by apply Forall_app.
Qed.

Lemma one_asked_speaks m ev s : speaks s → speaks (one_asked attempt id m ev s).
Proof.
  intros Hs. unfold one_asked. repeat case_match; try done. apply one_confirm_speaks; [|done].
  apply confirm_step_actions.
Qed.

Lemma one_handle_speaks m ev s : speaks s → speaks (one_handle ctx attempt id index abortOnCallerHangup m ev s).
Proof.
  intros Hs. unfold one_handle, one_signal, one_refused.
  repeat case_match; rewrite ?one_resolve_trace; simpl; auto using one_asked_speaks.
  apply Forall_app. split; [done|]. by repeat constructor.
Qed.

Lemma one_proceed_speaks m s : speaks s → speaks (one_proceed attempt id m s).
Proof.
  intros Hs. unfold one_proceed. repeat case_match; try done; try apply one_finish_speaks; try done.
  apply one_confirm_speaks; [apply confirm_head_actions|done].
Qed.

Lemma dialOne_speaks m evs : speaks (dialOne ctx attempt id index abortOnCallerHangup m evs).
Proof.
  unfold dialOne, one_run. generalize (evs ++ one_closing attempt m) as l.
  induction l as [|ev l IH] using rev_ind.
  - simpl. unfold arm_progress. apply Forall_app. split; [case_match|]; repeat constructor.
  - rewrite foldl_app. simpl. by apply one_proceed_speaks, one_handle_speaks.
Qed.

(** *** The leg is dialled once *)
Definition is_originate (a : LegAction) : bool := match a with ActOriginate _ => true | _ => false end.
Definition originates (l : list LegAction) : nat := length (List.filter is_originate l).

(** Nothing before the hook has returned, one leg at most after it. *)
Definition one_call (s : One) : Prop :=
  originates (o_trace s) <= match o_stage s with OneHook => 0 | _ => 1 end.

Lemma originates_app l l' : originates (l ++ l') = originates l + originates l'.
Proof. unfold originates. by rewrite List.filter_app, length_app. Qed.

Lemma confirm_head_originates req m round terminal : originates (confirm_head req id m round terminal).2 = 0.
Proof. unfold confirm_head. by repeat case_match. Qed.

Lemma confirm_step_originates req m ev c : originates (confirm_step req id m ev c).2 = 0.
Proof. unfold confirm_step. repeat case_match; simpl; try apply confirm_head_originates; done. Qed.

(** Past the hook a step that originates nothing keeps the count. *)
Lemma one_call_past s s' :
  o_stage s ≠ OneHook → originates (o_trace s') = originates (o_trace s) → o_stage s' ≠ OneHook →
  one_call s → one_call s'.
Proof. unfold one_call. intros H1 -> H2. by destruct (o_stage s), (o_stage s'). Qed.

Lemma one_finish_calls o s : one_call s → o_stage s ≠ OneHook → one_call (one_finish id o s).
Proof.
  intros Hs Hst. apply (one_call_past s); try done; unfold one_finish; destruct o; simpl; try done;
    rewrite originates_app; change (originates (hangup_leg _ _)) with 0; lia.
Qed.

Lemma one_confirm_calls o step s :
  originates step.2 = 0 → o_stage s ≠ OneHook → one_call s → one_call (one_confirm attempt id o step s).
Proof.
  intros Ha Hst Hs. destruct step as [c acts]. simpl in Ha. unfold one_confirm.
  set (s1 := o_act acts (o_set_stage (OneConfirming c) s)).
  assert (one_call s1) as H1.
  { apply (one_call_past s); try done. subst s1. simpl. rewrite originates_app. lia. }
  destruct (c_phase c); try done. destruct (settleConfirm _ _ _) as [o' n]. by apply one_finish_calls.
Qed.

Lemma one_asked_calls m ev s : one_call s → one_call (one_asked attempt id m ev s).
Proof.
  intros Hs. unfold one_asked. repeat case_match; try done.
  apply one_confirm_calls; [apply confirm_step_originates|congruence|done].
Qed.

Lemma one_handle_calls m ev s : one_call s → one_call (one_handle ctx attempt id index abortOnCallerHangup m ev s).
Proof.
  intros Hs. unfold one_handle, one_signal, one_refused.
  repeat case_match; auto using one_asked_calls; unfold one_call in *;
    rewrite ?o_resolve_stage, ?one_resolve_trace; cbn [o_stage o_trace o_note o_set_stage o_set_progress o_act] in *;
    repeat match goal with H : o_stage s = _ |- _ => rewrite H in * end; try done; try lia;
    rewrite originates_app; unfold originates in *; simpl; lia.
Qed.

Lemma one_proceed_calls m s : one_call s → one_call (one_proceed attempt id m s).
Proof.
  intros Hs. unfold one_proceed. destruct (o_stage s) eqn:Hst; try done.
  assert (one_call (o_set_progress false s)) as H1 by done.
  assert (o_stage (o_set_progress false s) ≠ OneHook) as H2 by (simpl; congruence).
  repeat case_match; try done; try by apply one_finish_calls.
  apply one_confirm_calls; [apply confirm_head_originates|done|done].
Qed.

Lemma dialOne_originates m evs :
  let d := dialOne ctx attempt id index abortOnCallerHangup m evs in
  List.filter is_originate (o_trace d) = [] ∨
  List.filter is_originate (o_trace d) = [ActOriginate (originate_request ctx attempt id)].
Proof.
  intros d. assert (one_call d) as Hc.
  { subst d. unfold dialOne, one_run. generalize (evs ++ one_closing attempt m) as l.
    induction l as [|ev l IH] using rev_ind.
    - unfold one_call. simpl. unfold arm_progress. by case_match.
    - rewrite foldl_app. simpl. by apply one_proceed_calls, one_handle_calls. }
  assert (originates (o_trace d) <= 1) as Hle by (unfold one_call in Hc; case_match; lia).
  pose proof (dialOne_speaks m evs) as Hsp. fold d in Hsp. unfold originates in Hle.
  assert (∀ a, a ∈ List.filter is_originate (o_trace d) → a = ActOriginate (originate_request ctx attempt id)) as Hall.
  { intros a Ha. apply list_elem_of_In, List.filter_In in Ha as [Ha Hi]. apply list_elem_of_In in Ha.
    eapply Forall_forall in Hsp; [|exact Ha]. destruct a; try done. simpl in Hsp. by rewrite Hsp. }
  destruct (List.filter is_originate (o_trace d)) as [|a [|b l]]; [by left|right|simpl in Hle; lia].
  by rewrite (Hall a (list_elem_of_here _ _)).
Qed.

End One.
End DialFacts.
