(* ===== verification/RaceFacts.v ===== *)
(** * What a race guarantees

    [dialSimultaneous] of Dial.v, for every schedule of the events of its
    environment: it comes back, the leg it names answered and accepted, and every
    other leg is gone, was refused or was hung up. *)

From S2P Require Import Prelude HangupCauses MediaRefs Dial DialFacts.

Module RaceFacts.
Import MediaRefs Dial DialFacts.

Section Race.
Context (ctx : DialContext) (attempts : list (DialAttempt * string)) (overallTimeoutSeconds : Z)
  (abortOnCallerHangup : bool).

Notation events := (list (Moment * RaceEvent)).

(** ** What happened to a leg *)
Definition race_heard (evs : events) (i : nat) (d : string) : Prop :=
  ∃ m, (m, RaceSignal i (SigDtmf d)) ∈ evs.

Definition race_answered (evs : events) (i : nat) : Prop :=
  ∃ m sig, (m, RaceSignal i sig) ∈ evs ∧ (sig = SigAnswered ∨ sig = SigEntered).

(** The leg ended, was refused, or was hung up. *)
Definition race_down (evs : events) (trace : list LegAction) (i : nat) (id : string) : Prop :=
  (∃ m cause code, (m, RaceSignal i (SigEnded cause code)) ∈ evs) ∨
  (∃ m e, (m, RaceHookDone i (Throw e)) ∈ evs ∨ (m, RaceOriginated i (Throw e)) ∈ evs) ∨
  hung_up id trace.

(** The leg answered, and accepted if it was asked to. *)
Definition race_up (evs : events) (trace : list LegAction) (id : string) (i : nat) : Prop :=
  ∃ a, attempts !! i = Some (a, id) ∧ race_answered evs i ∧
    ∀ req, confirm a = Some req → race_heard evs i (acceptDigit req) ∧ asked req id trace.

Lemma race_heard_mono evs evs' i d : race_heard evs i d → race_heard (evs ++ evs') i d.
Proof. intros [m H]. exists m. set_solver. Qed.

Lemma race_answered_mono evs evs' i : race_answered evs i → race_answered (evs ++ evs') i.
Proof. intros (m & sig & H & Hs). exists m, sig. set_solver. Qed.

Lemma race_down_mono evs evs' t t' i id :
  race_down evs t i id → race_down (evs ++ evs') (t ++ t') i id.
Proof.
  intros [(m & c & k & H)|[(m & e & H)|H]].
  - left. exists m, c, k. set_solver.
  - right; left. exists m, e. set_solver.
  - right; right. by apply hung_up_app.
Qed.

Lemma race_up_mono evs evs' t t' id i : race_up evs t id i → race_up (evs ++ evs') (t ++ t') id i.
Proof.
  intros (a & Ha & Hans & Hr). exists a. split_and!; [done|by apply race_answered_mono|].
  intros req Hreq. destruct (Hr req Hreq). auto using race_heard_mono, asked_app.
Qed.

(** ** The invariant *)
Record leg_ok (evs : events) (trace : list LegAction) (i : nat) (a : DialAttempt) (id : string)
    (l : RaceLeg) : Prop := {
  ok_ended : l_ended l = true → race_down evs trace i id;
  ok_pending : l_dropping l = true ∨ l_rejecting l = true → hung_up id trace;
  ok_confirm : ∀ c, l_confirm l = Some c →
    ∃ req, confirm a = Some req ∧ race_answered evs i ∧
           confirm_ok req id (race_heard evs i) trace c }.

Definition accounted (evs : events) (r : Race) (i : nat) : Prop :=
  ∀ a id, attempts !! i = Some (a, id) → winner r = Some id ∨ race_down evs (r_trace r) i id.

Definition race_stage_ok (evs : events) (r : Race) : Prop :=
  match r_stage r with
  | RaceOpen => True
  | RaceCleaning rest => r_settled r ≠ None ∧ ∀ i, i ∉ rest → accounted evs r i
  | RaceOver o =>
      r_settled r ≠ None ∧ (∀ i, accounted evs r i) ∧
      ∀ id i, o = Answered id i ↔ r_settled r = Some (Answered id i)
  end.

Record race_inv (evs : events) (r : Race) : Prop := {
  ri_length : length (r_legs r) = length attempts;
  ri_legs : ∀ i a id l, attempts !! i = Some (a, id) → r_legs r !! i = Some l →
    leg_ok evs (r_trace r) i a id l;
  ri_settled : ∀ id i, r_settled r = Some (Answered id i) → race_up evs (r_trace r) id i;
  ri_stage : race_stage_ok evs r }.

Lemma leg_ok_mono evs evs' t t' i a id l :
  leg_ok evs t i a id l → leg_ok (evs ++ evs') (t ++ t') i a id l.
Proof.
  intros [H1 H2 H3]. split; [auto using race_down_mono|eauto using hung_up_app|].
  intros c Hc. destruct (H3 c Hc) as (req & Hr & Ha & Hok). exists req.
  split_and!; [done|by apply race_answered_mono|].
  eapply confirm_ok_mono; [|done]. intros d. apply race_heard_mono.
Qed.

(** More events, more actions and more notes. *)
Lemma race_inv_mono evs evs' r r' acts :
  r_settled r' = r_settled r → r_legs r' = r_legs r → r_stage r' = r_stage r →
  r_trace r' = r_trace r ++ acts → race_inv evs r → race_inv (evs ++ evs') r'.
Proof.
  intros Hs Hl Hst Ht [H1 H2 H3 H4].
  assert (∀ i, accounted evs r i → accounted (evs ++ evs') r' i) as Hacc.
  { intros i Ha a id Hai. unfold winner. rewrite Hs, Ht.
    destruct (Ha a id Hai); [by left|right; by apply race_down_mono]. }
  split.
  - by rewrite Hl.
  - intros i a id l Hai Hli. rewrite Hl in Hli. rewrite Ht. by eapply leg_ok_mono, H2.
  - intros id i Hsi. rewrite Ht. rewrite Hs in Hsi. by apply race_up_mono, H3.
  - unfold race_stage_ok in *. rewrite Hst, Hs. destruct (r_stage r); naive_solver.
Qed.

Lemma race_inv_more evs evs' r : race_inv evs r → race_inv (evs ++ evs') r.
Proof. intros Hr. eapply (race_inv_mono _ _ r r []); rewrite ?app_nil_r; done. Qed.

Lemma race_inv_act evs acts r : race_inv evs r → race_inv evs (r_act acts r).
Proof. intros Hr. rewrite <- (app_nil_r evs). by eapply (race_inv_mono _ _ r _ acts). Qed.

Lemma race_inv_note evs notes r : race_inv evs r → race_inv evs (r_note notes r).
Proof. intros [H1 H2 H3 H4]. by split. Qed.

Lemma race_inv_cause evs cause r : race_inv evs r → race_inv evs (r_cause cause r).
Proof. intros Hr. destruct cause; [|done]. destruct Hr as [H1 H2 H3 H4]. by split. Qed.

Lemma race_inv_resolve evs o r :
  (∀ id i, o = Answered id i → race_up evs (r_trace r) id i) →
  race_inv evs r → race_inv evs (r_resolve o r).
Proof.
  intros Ho Hr. unfold r_resolve. destruct (r_settled r) eqn:Hs; [done|].
  destruct Hr as [H1 H2 H3 H4]. split; simpl; [done|done|naive_solver|].
  unfold race_stage_ok in *. simpl. rewrite Hs in H4. destruct (r_stage r); naive_solver.
Qed.

Lemma race_inv_map evs f i r :
  (∀ a id l, attempts !! i = Some (a, id) → r_legs r !! i = Some l →
     leg_ok evs (r_trace r) i a id l → leg_ok evs (r_trace r) i a id (f l)) →
  race_inv evs r → race_inv evs (leg_map f i r).
Proof.
  intros Hf [H1 H2 H3 H4]. split; simpl; [by rewrite length_alter| |done|done].
  intros j a id l Ha Hl. destruct (decide (j = i)) as [->|Hne].
  - rewrite list_lookup_alter_eq in Hl. destruct (r_legs r !! i) as [l'|] eqn:Hi; [|done].
    injection Hl as <-. eauto.
  - rewrite list_lookup_alter_ne in Hl by done. eauto.
Qed.

(** An update that only changes the stage of a leg or its timer. *)
Lemma race_inv_plain evs f i r :
  (∀ l, l_ended (f l) = l_ended l ∧ l_confirm (f l) = l_confirm l ∧
        (l_dropping (f l) = true → l_dropping l = true) ∧
        (l_rejecting (f l) = true → l_rejecting l = true)) →
  race_inv evs r → race_inv evs (leg_map f i r).
Proof.
  intros Hf. apply race_inv_map. intros a id l _ _ [Hok1 Hok2 Hok3].
  destruct (Hf l) as (He & Hc & Hd & Hr). split; [by rewrite He|naive_solver|by rewrite Hc].
Qed.

Lemma race_inv_out evs i cause r :
  (∀ a id, attempts !! i = Some (a, id) → race_down evs (r_trace r) i id) →
  race_inv evs r → race_inv evs (legIsOut i cause r).
Proof.
  intros Hd Hr. unfold legIsOut.
  assert (race_inv evs (leg_map set_ended i (r_cause cause r))) as Hr'.
  { apply race_inv_map; [|by apply race_inv_cause]. intros a id l Ha _ [H1 H2 H3].
    split; [|done|done]. intros _. destruct cause; by eapply Hd. }
  destruct (all_ended _); [|done]. apply race_inv_resolve; [|done].
  intros id j. by destruct (r_lastCause _).
Qed.
(** ** Every step keeps it *)
Lemma race_inv_confirm evs i a id req step r :
  attempts !! i = Some (a, id) → confirm a = Some req → race_answered evs i →
  confirm_ok req id (race_heard evs i) (r_trace r ++ step.2) step.1 →
  race_inv evs r → race_inv evs (race_confirm i a id step r).
Proof.
  intros Ha Hreq Hans Hok Hr. destruct step as [c acts]; simpl in Hok. unfold race_confirm.
  change (r_act acts (leg_map (set_confirm c) i r)) with (leg_map (set_confirm c) i (r_act acts r)).
  set (r1 := leg_map (set_confirm c) i (r_act acts r)).
  assert (race_inv evs r1) as Hr1.
  { apply race_inv_map; [|by apply race_inv_act]. intros a' id' l Ha' _ [H1 H2 H3]. simplify_eq.
    split; [done|done|]. intros c' [= <-]. by exists req. }
  assert (∀ v, race_inv evs (r_act (hangup_leg id ORIGINATOR_CANCEL)
            (leg_map (set_rejecting true) i (r_note [NoteVerdict (label a) v] r1)))) as Hrej.
  { intros v. change (race_inv evs (leg_map (set_rejecting true) i
      (r_act (hangup_leg id ORIGINATOR_CANCEL) (r_note [NoteVerdict (label a) v] r1)))).
    apply race_inv_map; [|by apply race_inv_act, race_inv_note].
    intros a' id' l Ha' _ [H1 H2 H3]. simplify_eq. split; [done| |done]. intros _. apply hung_up_leg. }
  destruct (c_phase c) as [| | |[]] eqn:Hph; try done; try apply Hrej.
  - apply race_inv_resolve; [|done]. intros id' j [= <- <-]. exists a. split_and!; [done|done|].
    intros req' Hreq'. simplify_eq. destruct Hok as [_ Hok]. by rewrite Hph in Hok.
  - apply race_inv_resolve; [done|]. by apply race_inv_note.
Qed.

Lemma race_inv_asked evs i m ev r :
  event_ok (race_heard evs i) ev → race_inv evs r → race_inv evs (race_asked attempts i m ev r).
Proof.
  intros He Hr. unfold race_asked. destruct (attempts !! i) as [[a id]|] eqn:Ha; [|done].
  destruct (r_legs r !! i) as [l|] eqn:Hl; [|done]. destruct (l_confirm l) as [c|] eqn:Hc; [|done].
  destruct (ri_legs _ _ Hr i a id l Ha Hl) as [_ _ Hok]. destruct (Hok c Hc) as (req & Hreq & Hans & Hcok).
  rewrite Hreq. assert (race_inv evs (race_confirm i a id (confirm_step req id m ev c) r)).
  { eapply race_inv_confirm; eauto. by apply confirm_step_ok. }
  by destruct (c_phase c).
Qed.

Lemma race_inv_asked_all evs m v r :
  v ≠ accepted → race_inv evs r → race_inv evs (race_asked_all attempts m (CETerminal v) r).
Proof.
  intros Hv. unfold race_asked_all. generalize (seq 0 (length attempts)). intros legs.
  revert r. induction legs as [|i legs IH]; intros r Hr; [done|]. simpl. apply IH. by apply race_inv_asked.
Qed.

Lemma race_inv_progress evs i b r : race_inv evs r → race_inv evs (leg_map (set_progress b) i r).
Proof. apply race_inv_plain. done. Qed.

Lemma race_inv_stage evs i st r : race_inv evs r → race_inv evs (leg_map (set_stage st) i r).
Proof. apply race_inv_plain. done. Qed.

Lemma race_inv_watch evs i a id m sig r :
  attempts !! i = Some (a, id) → (m, RaceSignal i sig) ∈ evs →
  race_inv evs r → race_inv evs (race_watch i a id m sig r).
Proof.
  intros Ha Hin Hr.
  assert (sig = SigAnswered ∨ sig = SigEntered → race_inv evs
    (match confirm a with
     | None => r_resolve (Answered id i) (leg_map (set_progress false) i r)
     | Some req =>
         match r_legs (leg_map (set_progress false) i r) !! i with
         | Some l =>
             match l_confirm l with
             | Some _ => leg_map (set_progress false) i r
             | None =>
                 if l_ended l || settled_b (leg_map (set_progress false) i r)
                 then leg_map (set_progress false) i r
                 else race_confirm i a id (confirm_head req id m 0 None) (leg_map (set_progress false) i r)
             end
         | None => leg_map (set_progress false) i r
         end
     end)) as Hans.
  { intros Hsig. assert (race_answered evs i) as Hev by (by exists m, sig).
    pose proof (race_inv_progress evs i false r Hr) as Hp.
    destruct (confirm a) as [req|] eqn:Hreq.
    - repeat case_match; try done. eapply race_inv_confirm; eauto. by apply confirm_head_ok.
    - apply race_inv_resolve; [|done]. intros id' j [= <- <-]. exists a. naive_solver. }
  destruct sig; simpl; try (by apply race_inv_progress); try (apply Hans; by auto); try done.
  apply race_inv_out; [|done]. intros a' id' Ha'. left. by exists m, cause, causeCode.
Qed.

Lemma race_inv_signal evs i a id m sig r :
  attempts !! i = Some (a, id) → (m, RaceSignal i sig) ∈ evs →
  race_inv evs r → race_inv evs (race_signal attempts i a id m sig r).
Proof.
  intros Ha Hin Hr. unfold race_signal.
  assert (race_inv evs (if race_open r then race_watch i a id m sig r else r)) as Hw
    by (destruct (race_open r); [by apply race_inv_watch|done]).
  destruct sig; try done.
  - apply race_inv_asked; [|done]. by exists m.
  - by apply race_inv_asked.
Qed.

(** The loop over the losers: those it has passed are accounted for. *)
Lemma race_inv_next evs rest r :
  r_settled r ≠ None → (∀ i, i ∉ rest → accounted evs r i) →
  race_inv evs r → race_inv evs (race_next attempts rest r).
Proof.
  intros Hs Hacc Hr. induction rest as [|i rest IH]; cbn [race_next].
  - destruct Hr as [H1 H2 H3 H4]. split; simpl; [done|done|done|]. unfold race_stage_ok. simpl.
    split_and!; [done|set_solver|]. intros id i. destruct (r_settled r) as [o|]; [|done].
    destruct o; [naive_solver..| |naive_solver]; destruct (r_lastCause r); [destruct (all_ended r)|]; naive_solver.
  - assert (accounted evs r i → race_inv evs (race_next attempts rest r)) as Hskip.
    { intros Hi. apply IH. intros j Hj. destruct (decide (j = i)) as [->|]; [done|].
      apply Hacc. set_solver. }
    destruct (attempts !! i) as [[a id]|] eqn:Ha.
    2: { apply Hskip. intros a id H. congruence. }
    destruct (bool_decide (winner r = Some id)) eqn:Hw; simpl.
    { apply Hskip. intros a' id' Ha'. simplify_eq. apply bool_decide_eq_true in Hw. by left. }
    destruct (leg_ended r i) eqn:He.
    + apply Hskip. intros a' id' Ha'. simplify_eq. right. unfold leg_ended in He.
      destruct (r_legs r !! i) as [l|] eqn:Hl; [|done].
      by apply (ok_ended _ _ _ _ _ _ (ri_legs _ _ Hr i a id l Ha Hl)).
    + set (cause := match winner r with None => _ | Some _ => _ end).
      assert (race_inv evs (r_act (hangup_leg id cause) r)) as [H1 H2 H3 H4] by (by apply race_inv_act).
      split; simpl; [done|done|done|]. unfold race_stage_ok. simpl. split; [done|].
      intros j Hj a' id' Ha'. destruct (decide (j = i)) as [->|Hne].
      * simplify_eq. right; right; right. apply hung_up_leg.
      * unfold winner. simpl. destruct (Hacc j) with a' id' as [H|H]; [set_solver|done|by left|].
        right. rewrite <- (app_nil_r evs). by apply race_down_mono.
Qed.
(** *** What has been decided stays *)
Lemma resolve_settled o r : r_settled r ≠ None → r_settled (r_resolve o r) = r_settled r.
Proof. unfold r_resolve. by destruct (r_settled r) eqn:E; rewrite ?E. Qed.

Lemma confirm_settled i a id step r :
  r_settled r ≠ None → r_settled (race_confirm i a id step r) = r_settled r.
Proof.
  intros Hs. destruct step as [c acts]. unfold race_confirm.
  destruct (c_phase c) as [| | |[]]; try done; by rewrite resolve_settled.
Qed.

Lemma asked_settled i m ev r :
  r_settled r ≠ None → r_settled (race_asked attempts i m ev r) = r_settled r.
Proof. intros Hs. unfold race_asked. repeat case_match; try done; by apply confirm_settled. Qed.

Lemma asked_all_settled m ev r :
  r_settled r ≠ None → r_settled (race_asked_all attempts m ev r) = r_settled r.
Proof.
  unfold race_asked_all. generalize (seq 0 (length attempts)). intros legs.
  revert r. induction legs as [|i legs IH]; intros r Hs; [done|]. simpl.
  rewrite IH; by rewrite asked_settled.
Qed.

Lemma race_inv_silence evs legs r :
  race_inv evs r → race_inv evs (foldl (λ r i, leg_map (set_progress false) i r) r legs).
Proof.
  revert r. induction legs as [|i legs IH]; intros r Hr; [done|]. simpl. by apply IH, race_inv_progress.
Qed.

Lemma silence_settled legs r :
  r_settled (foldl (λ r i, leg_map (set_progress false) i r) r legs) = r_settled r ∧
  r_stage (foldl (λ r i, leg_map (set_progress false) i r) r legs) = r_stage r.
Proof.
  revert r. induction legs as [|i legs IH]; intros r; [done|]. simpl.
  by destruct (IH (leg_map (set_progress false) i r)) as [-> ->].
Qed.

Lemma beyond_accounted evs r i : i ∉ seq 0 (length attempts) → accounted evs r i.
Proof.
  intros Hi a id Ha. apply lookup_lt_Some in Ha. destruct Hi. apply elem_of_seq. lia.
Qed.

Lemma race_inv_close evs m r : race_inv evs r → race_inv evs (race_close attempts m r).
Proof.
  intros Hr. unfold race_close. destruct (race_open r && settled_b r && _) eqn:Hc; [|done].
  apply andb_true_iff in Hc as [[_ Hs]%andb_true_iff _].
  assert (r_settled r ≠ None) as Hset by (unfold settled_b in Hs; by destruct (r_settled r)).
  cbv zeta. set (r1 := foldl _ r _).
  assert (r_settled r1 ≠ None) as Hs1 by (subst r1; by rewrite (proj1 (silence_settled _ _))).
  apply race_inv_next.
  - by rewrite asked_all_settled.
  - intros i Hi. by apply beyond_accounted.
  - apply race_inv_asked_all; [done|]. destruct (race_inv_silence evs (seq 0 (length attempts)) r Hr) as [H1 H2 H3 _].
    split; [done|done|done|]. unfold race_stage_ok. simpl. split; [done|].
    intros i Hi. by apply beyond_accounted.
Qed.

Lemma race_inv_begin evs i a id r : race_inv evs r → race_inv evs (race_begin ctx i a id r).
Proof.
  intros Hr. unfold race_begin.
  destruct (settled_b r); [by apply race_inv_stage|by apply race_inv_act, race_inv_stage].
Qed.

Lemma race_inv_refused evs i a id e r :
  attempts !! i = Some (a, id) →
  (∃ m e, (m, RaceHookDone i (Throw e)) ∈ evs ∨ (m, RaceOriginated i (Throw e)) ∈ evs) →
  race_inv evs r → race_inv evs (race_refused i a e r).
Proof.
  intros Ha He Hr. unfold race_refused. apply race_inv_out; [|by apply race_inv_note, race_inv_stage].
  intros a' id' Ha'. right. by left.
Qed.

(** The end of a hangup that was made for one leg. *)
Lemma race_inv_pending evs i f r :
  (∀ a id l, attempts !! i = Some (a, id) → r_legs r !! i = Some l →
     l_dropping l = true ∨ l_rejecting l = true) →
  (∀ l, l_ended (f l) = l_ended l ∧ l_confirm (f l) = l_confirm l ∧
        (l_dropping (f l) = true → l_dropping l = true) ∧
        (l_rejecting (f l) = true → l_rejecting l = true)) →
  race_inv evs r → race_inv evs (legIsOut i None (leg_map f i r)).
Proof.
  intros Hp Hf Hr. apply race_inv_out; [|by apply race_inv_plain].
  intros a id Ha. right; right. simpl. destruct (r_legs r !! i) as [l|] eqn:Hl.
  - apply (ok_pending _ _ _ _ _ _ (ri_legs _ _ Hr i a id l Ha Hl)). eauto.
  - apply lookup_lt_Some in Ha. apply lookup_ge_None in Hl. rewrite (ri_length _ _ Hr) in Hl. lia.
Qed.

Lemma race_inv_handle evs m ev r :
  race_inv evs r →
  race_inv (evs ++ [(m, ev)]) (race_handle ctx attempts abortOnCallerHangup m ev r).
Proof.
  intros Hr%(race_inv_more _ [(m, ev)]).
  assert ((m, ev) ∈ evs ++ [(m, ev)]) as Hin by set_solver. unfold race_handle.
  destruct ev as [i|i res|i res|i sig|i|i| | |i res|i|i|i|];
    try (destruct (attempts !! i) as [[a id]|] eqn:Ha; [|done];
         destruct (r_legs r !! i) as [l|] eqn:Hl; [|done]).
  - destruct (l_stage l); try done. by apply race_inv_begin.
  - destruct (l_stage l); try done; try by destruct res. destruct res as [[]|e].
    + by apply race_inv_act, race_inv_stage.
    + eapply race_inv_refused; eauto.
  - destruct (l_stage l); try done; try by destruct res. destruct res as [[]|e].
    + by apply race_inv_stage.
    + eapply race_inv_refused; eauto.
  - by apply race_inv_signal.
  - destruct (race_open r && l_progress l); [|done]. cbv zeta.
    destruct (settled_b _ || l_ended l); [by apply race_inv_progress|].
    change (race_inv (evs ++ [(m, RaceProgressTimer i)]) (leg_map (set_dropping true) i
      (r_act (hangup_leg id ORIGINATOR_CANCEL) (r_note [NoteNoProgress (label a)]
        (leg_map (set_progress false) i r))))).
    apply race_inv_map; [|by apply race_inv_act, race_inv_note, race_inv_progress].
    intros a' id' l' Ha' _ [H1 H2 H3]. simplify_eq. split; [done| |done]. intros _. apply hung_up_leg.
  - destruct (l_dropping l) eqn:Hd; [|done]. apply race_inv_pending; [|naive_solver|done].
    intros a' id' l' _ Hl'. simplify_eq. by left.
  - destruct (race_open r); [|done]. by apply race_inv_resolve.
  - apply race_inv_asked_all; [done|].
    destruct (race_open r && abortOnCallerHangup); [by apply race_inv_resolve|done].
  - apply race_inv_asked; done.
  - apply race_inv_asked; done.
  - apply race_inv_asked; done.
  - destruct (l_rejecting l) eqn:Hd; [|done]. apply race_inv_pending; [|naive_solver|done].
    intros a' id' l' _ Hl'. simplify_eq. by right.
  - destruct (r_stage r) as [|rest|o] eqn:Hst; try done.
    pose proof (ri_stage _ _ Hr) as Hs. unfold race_stage_ok in Hs. rewrite Hst in Hs.
    destruct Hs. by apply race_inv_next.
Qed.

Lemma race_inv_start : race_inv [] (race_start ctx attempts overallTimeoutSeconds).
Proof.
  unfold race_start. generalize (seq 0 (length attempts)). intros legs.
  assert (race_inv [] (race_init ctx attempts overallTimeoutSeconds)) as Hi.
  { split; simpl; [by rewrite length_fmap| |done|done].
    intros i a id l Ha Hl. rewrite list_lookup_fmap, Ha in Hl. simplify_eq/=.
    split; simpl; naive_solver. }
  revert Hi. generalize (race_init ctx attempts overallTimeoutSeconds).
  induction legs as [|i legs IH]; intros r Hr; [done|]. simpl. apply IH.
  destruct (attempts !! i) as [[a id]|]; [|done].
  destruct (0 <? delaySeconds a)%Z; [by apply race_inv_act|by apply race_inv_begin].
Qed.

Lemma race_run_inv evs :
  race_inv evs (race_run ctx attempts overallTimeoutSeconds abortOnCallerHangup evs).
Proof.
  induction evs as [|[m ev] evs IH] using rev_ind; [apply race_inv_start|].
  unfold race_run in *. rewrite foldl_app. simpl. by apply race_inv_close, race_inv_handle.
Qed.
(** ** The race ends

    The stage of the race and the stages of its legs move only where the code
    moves them. *)
Definition leg_stages (r : Race) : list LegStage := l_stage <$> r_legs r.

Definition same (r r' : Race) : Prop := r_stage r' = r_stage r ∧ leg_stages r' = leg_stages r.

#[local] Instance same_preorder : PreOrder same.
Proof. split; [done|]. intros r1 r2 r3 [? ?] [? ?]. split; congruence. Qed.

Lemma same_map f i r : (∀ l, l_stage (f l) = l_stage l) → same r (leg_map f i r).
Proof.
  intros Hf. split; [done|]. unfold leg_stages. simpl. apply list_eq. intros j.
  rewrite !list_lookup_fmap. destruct (decide (j = i)) as [->|Hne].
  - rewrite list_lookup_alter_eq. destruct (r_legs r !! i); simpl; by rewrite ?Hf.
  - by rewrite list_lookup_alter_ne.
Qed.

Lemma same_note notes r : same r (r_note notes r).
Proof. done. Qed.

Lemma same_act acts r : same r (r_act acts r).
Proof. done. Qed.

Lemma same_resolve o r : same r (r_resolve o r).
Proof. unfold r_resolve. by destruct (r_settled r). Qed.

Lemma same_out i cause r : same r (legIsOut i cause r).
Proof.
  unfold legIsOut. assert (same r (leg_map set_ended i (r_cause cause r))) as H.
  { etrans; [|by apply same_map]. by destruct cause. }
  destruct (all_ended _); [|done]. etrans; [done|apply same_resolve].
Qed.

Lemma same_confirm i a id step r : same r (race_confirm i a id step r).
Proof.
  destruct step as [c acts]. unfold race_confirm. set (r1 := r_act acts (leg_map (set_confirm c) i r)).
  assert (same r r1) as H by (etrans; [by apply (same_map (set_confirm c) i)|apply same_act]).
  etrans; [exact H|]. clearbody r1. clear H.
  assert (∀ v, same r1 (r_act (hangup_leg id ORIGINATOR_CANCEL)
            (leg_map (set_rejecting true) i (r_note [NoteVerdict (label a) v] r1)))) as Hrej.
  { intros v. etrans; [|apply same_act]. etrans; [|by apply same_map]. apply same_note. }
  destruct (c_phase c) as [| | |[]]; try done; try apply Hrej; [apply same_resolve|].
  etrans; [|apply same_resolve]. apply same_note.
Qed.

Lemma same_asked i m ev r : same r (race_asked attempts i m ev r).
Proof. unfold race_asked. repeat case_match; try done; apply same_confirm. Qed.

Lemma same_asked_all m ev r : same r (race_asked_all attempts m ev r).
Proof.
  unfold race_asked_all. generalize (seq 0 (length attempts)). intros legs.
  revert r. induction legs as [|i legs IH]; intros r; [done|]. simpl. etrans; [apply same_asked|apply IH].
Qed.

Lemma same_progress i r : same r (leg_map (set_progress false) i r).
Proof. by apply same_map. Qed.

Lemma same_watch i a id m sig r : same r (race_watch i a id m sig r).
Proof.
  destruct sig; simpl; try apply same_progress; try apply same_out; try done;
    (etrans; [apply (same_progress i)|]);
    repeat case_match; try done; try apply same_resolve; apply same_confirm.
Qed.

Lemma same_signal i a id m sig r : same r (race_signal attempts i a id m sig r).
Proof.
  unfold race_signal. assert (same r (if race_open r then race_watch i a id m sig r else r)) as H
    by (destruct (race_open r); [apply same_watch|done]).
  destruct sig; try done; (etrans; [exact H|apply same_asked]).
Qed.

Definition moves_leg (ev : RaceEvent) : bool :=
  match ev with
  | RaceDelayOver _ | RaceHookDone _ _ | RaceOriginated _ _ | RaceLoserHungUp => true
  | _ => false
  end.

Lemma same_handle m ev r :
  moves_leg ev = false → same r (race_handle ctx attempts abortOnCallerHangup m ev r).
Proof.
  destruct ev as [i|i res|i res|i sig|i|i| | |i res|i|i|i|]; try done; intros _; unfold race_handle;
    try (destruct (attempts !! i) as [[a id]|]; [|done]; destruct (r_legs r !! i) as [l|]; [|done]).
  - apply same_signal.
  - destruct (race_open r && l_progress l); [|done]. cbv zeta.
    destruct (settled_b _ || l_ended l); [apply same_progress|].
    etrans; [apply (same_progress i)|]. etrans; [|apply same_act].
    etrans; [|by apply same_map]. apply same_note.
  - destruct (l_dropping l); [|done]. etrans; [|apply same_out]. by apply same_map.
  - destruct (race_open r); [apply same_resolve|done].
  - etrans; [|apply same_asked_all]. destruct (race_open r && _); [apply same_resolve|done].
  - apply same_asked.
  - apply same_asked.
  - apply same_asked.
  - destruct (l_rejecting l); [|done]. etrans; [|apply same_out]. by apply same_map.
Qed.
(** *** The legs come back *)
Notation step := (race_step ctx attempts abortOnCallerHangup).

Definition stage_rank (st : LegStage) : nat :=
  match st with LegDelayed => 0 | LegHook => 1 | LegOriginating => 2 | LegReturned => 3 end.

(** How far leg [i] is; beyond the legs there is nothing to wait for. *)
Definition rank (r : Race) (i : nat) : nat := from_option stage_rank 3 (leg_stages r !! i).

Lemma same_rank r r' i : same r r' → rank r' i = rank r i.
Proof. intros [_ H]. unfold rank. by rewrite H. Qed.

Lemma rank_at r i l : r_legs r !! i = Some l → rank r i = stage_rank (l_stage l).
Proof. intros H. unfold rank, leg_stages. by rewrite list_lookup_fmap, H. Qed.

Lemma rank_set st i l r j :
  r_legs r !! i = Some l →
  rank (leg_map (set_stage st) i r) j = if decide (j = i) then stage_rank st else rank r j.
Proof.
  intros Hl. unfold rank, leg_stages. rewrite !list_lookup_fmap. simpl.
  destruct (decide (j = i)) as [->|Hne].
  - by rewrite list_lookup_alter_eq, Hl.
  - by rewrite list_lookup_alter_ne.
Qed.

Lemma next_leg_stages rest r : leg_stages (race_next attempts rest r) = leg_stages r.
Proof.
  induction rest as [|i rest IH]; [done|]. cbn [race_next]. destruct (attempts !! i) as [[a id]|]; [|done].
  by destruct (bool_decide _ || leg_ended r i).
Qed.

Lemma close_rank m r i : rank (race_close attempts m r) i = rank r i.
Proof.
  unfold race_close. destruct (_ && _); [|done]. cbv zeta. unfold rank. rewrite next_leg_stages.
  destruct (same_asked_all m (CETerminal leg_gone) (r_set_stage (RaceCleaning (seq 0 (length attempts)))
    (foldl (λ r i, leg_map (set_progress false) i r) r (seq 0 (length attempts))))) as [_ ->].
  assert (∀ legs r, leg_stages (foldl (λ r i, leg_map (set_progress false) i r) r legs) = leg_stages r) as H.
  { clear. induction legs as [|j legs IH]; intros r; [done|]. simpl. rewrite IH. apply same_progress. }
  unfold leg_stages in *. simpl. by rewrite H.
Qed.

(** The stage a leg is moved to by the end of what it was waiting for. *)
Definition arrives (ev : RaceEvent) (i : nat) : nat :=
  match ev with
  | RaceDelayOver j => if decide (i = j) then 1 else 0
  | RaceHookDone j _ => if decide (i = j) then 2 else 0
  | RaceOriginated j _ => if decide (i = j) then 3 else 0
  | _ => 0
  end.

Lemma moved_rank st j l r r' i k :
  r_legs r !! j = Some l → stage_rank (l_stage l) <= stage_rank st → k <= stage_rank st →
  same (leg_map (set_stage st) j r) r' →
  rank r i `max` (if decide (i = j) then k else 0) <= rank r' i.
Proof.
  intros Hl Hst Hk Hs. rewrite (same_rank _ _ i Hs), (rank_set st j l r i Hl).
  destruct (decide (i = j)) as [->|]; [|lia]. rewrite (rank_at r j l Hl). lia.
Qed.

Lemma same_refused i a e r : same (leg_map (set_stage LegReturned) i r) (race_refused i a e r).
Proof. unfold race_refused. etrans; [|apply same_out]. apply same_note. Qed.

Lemma handle_rank m ev r i :
  length (r_legs r) = length attempts →
  arrives ev i <= S (rank r i) →
  rank r i `max` arrives ev i <= rank (race_handle ctx attempts abortOnCallerHangup m ev r) i.
Proof.
  intros Hlen Hav. destruct (moves_leg ev) eqn:Hmv.
  2: { rewrite (same_rank _ _ i (same_handle m ev r Hmv)). destruct ev; simpl in *; try done; lia. }
  assert (∀ j, attempts !! j = None ∨ r_legs r !! j = None → i = j → rank r i = 3) as Hout.
  { intros j Hj ->. unfold rank, leg_stages. rewrite list_lookup_fmap.
    destruct Hj as [Hj| ->]; [|done]. apply lookup_ge_None in Hj. rewrite <- Hlen in Hj.
    apply lookup_ge_None in Hj. by rewrite Hj. }
  unfold race_handle. destruct ev as [j|j res|j res|j sig|j|j| | |j res|j|j|j|]; try done; cbn [arrives] in *.
  4: { destruct (r_stage r); try lia. unfold rank. rewrite next_leg_stages. lia. }
  all: destruct (attempts !! j) as [[a id]|] eqn:Ha;
    [|destruct (decide (i = j)); [rewrite (Hout j) in *; auto; lia|lia]];
    destruct (r_legs r !! j) as [l|] eqn:Hl;
    [|destruct (decide (i = j)); [rewrite (Hout j) in *; auto; lia|lia]].
  all: assert (∀ k, k <= stage_rank (l_stage l) → rank r i `max` (if decide (i = j) then k else 0) <= rank r i)
    as Hkeep by (intros k Hk; destruct (decide (i = j)) as [->|]; [rewrite (rank_at r j l Hl)|]; lia).
  all: assert (i = j → rank r i = stage_rank (l_stage l)) as Hi by (intros ->; by apply rank_at).
  - destruct (l_stage l) eqn:Hst; [|apply Hkeep; simpl; lia..].
    unfold race_begin. destruct (settled_b r);
      (eapply (moved_rank _ j l); [done|rewrite Hst; simpl; lia| |apply same_act || done]; simpl; lia).
  - destruct (l_stage l) eqn:Hst;
      [destruct (decide (i = j)) as [E|]; [rewrite Hi in Hav by done; simpl in Hav; lia|lia]
      | |destruct res; apply Hkeep; simpl; lia..].
    destruct res as [[]|e]; (eapply (moved_rank _ j l); [done|rewrite Hst| |apply same_act || apply same_refused]; simpl; lia).
  - destruct (l_stage l) eqn:Hst;
      [destruct (decide (i = j)) as [E|]; [rewrite Hi in Hav by done; simpl in Hav; lia|lia]..
      | |destruct res; apply Hkeep; simpl; lia].
    destruct res as [[]|e]; (eapply (moved_rank _ j l); [done|rewrite Hst| |done || apply same_refused]; simpl; lia).
Qed.

Notation run := (race_run ctx attempts overallTimeoutSeconds abortOnCallerHangup).

Lemma race_run_snoc evs ev : run (evs ++ [ev]) = step (run evs) ev.
Proof. unfold race_run. by rewrite foldl_app. Qed.

Lemma run_cons evs ev l : run (evs ++ ev :: l) = run ((evs ++ [ev]) ++ l).
Proof. by rewrite <- app_assoc. Qed.

Lemma step_rank evs ev i :
  arrives ev.2 i <= S (rank (run evs) i) →
  rank (run evs) i `max` arrives ev.2 i <= rank (run (evs ++ [ev])) i.
Proof.
  intros Hav. rewrite race_run_snoc. unfold race_step. rewrite close_rank. apply handle_rank; [|done].
  apply (ri_length _ _ (race_run_inv evs)).
Qed.

(** One event for each leg of a list moves each of them one stage on. *)
Lemma sweep m mk k evs legs :
  (∀ j i, arrives (mk j) i = if decide (i = j) then k else 0) → (∀ i, k <= S (rank (run evs) i)) →
  ∀ i, rank (run evs) i <= rank (run (evs ++ ((λ j, (m, mk j)) <$> legs))) i ∧
       (i ∈ legs → k <= rank (run (evs ++ ((λ j, (m, mk j)) <$> legs))) i).
Proof.
  intros Hmk. revert evs. induction legs as [|j legs IH]; intros evs Hk i.
  { simpl. rewrite app_nil_r. split; [done|set_solver]. }
  rewrite fmap_cons, run_cons.
  assert (∀ i, rank (run evs) i `max` arrives (mk j) i <= rank (run (evs ++ [(m, mk j)])) i) as Hstep.
  { intros i'. apply (step_rank evs (m, mk j) i'). simpl. rewrite Hmk. specialize (Hk i').
    destruct (decide (i' = j)); lia. }
  destruct (IH (evs ++ [(m, mk j)])) with i as [H1 H2].
  { intros i'. specialize (Hstep i'). specialize (Hk i'). lia. }
  specialize (Hstep i). rewrite Hmk in Hstep. split; [lia|].
  intros [->|Hi]%elem_of_cons; [|auto]. rewrite decide_True in Hstep by done. lia.
Qed.

Definition not_open (r : Race) : Prop := r_stage r ≠ RaceOpen.

Lemma next_not_open rest r : not_open r → not_open (race_next attempts rest r).
Proof.
  intros Hr. induction rest as [|i rest IH]; [done|]. cbn [race_next].
  destruct (attempts !! i) as [[a id]|]; [|done]. by destruct (bool_decide _ || leg_ended r i).
Qed.

Lemma next_shorter rest r rest' :
  r_stage (race_next attempts rest r) = RaceCleaning rest' → length rest' < length rest.
Proof.
  induction rest as [|i rest IH]; [done|]. cbn [race_next].
  destruct (attempts !! i) as [[a id]|]; [|intros H; apply IH in H; simpl; lia].
  destruct (bool_decide _ || leg_ended r i); [intros H; apply IH in H; simpl; lia|].
  simpl. intros [= ->]. lia.
Qed.

Lemma handle_stage m ev r :
  ev ≠ RaceLoserHungUp → r_stage (race_handle ctx attempts abortOnCallerHangup m ev r) = r_stage r.
Proof.
  intros Hev. destruct (moves_leg ev) eqn:Hmv; [|by apply same_handle].
  assert (∀ st i r', same (leg_map (set_stage st) i r) r' → r_stage r' = r_stage r) as Hs by by intros ??? [H _].
  destruct ev as [i|i res|i res|i sig|i|i| | |i res|i|i|i|]; try done; unfold race_handle;
    (destruct (attempts !! i) as [[a id]|]; [|done]); (destruct (r_legs r !! i) as [l|]; [|done]);
    destruct (l_stage l); try done; try by destruct res.
  - unfold race_begin. by destruct (settled_b r).
  - destruct res as [[]|e]; [done|]. eapply Hs, same_refused.
  - destruct res as [[]|e]; [done|]. eapply Hs, same_refused.
Qed.

Lemma close_stage m r : not_open r → race_close attempts m r = r.
Proof. unfold not_open, race_close, race_open. by destruct (r_stage r). Qed.

Lemma close_fires m r :
  r_settled r ≠ None → forallb leg_returned (r_legs r) = true → not_open (race_close attempts m r).
Proof.
  intros Hs Hl. unfold race_close. destruct (race_open r) eqn:Ho.
  2: { simpl. unfold not_open, race_open in *. by destruct (r_stage r). }
  unfold settled_b. destruct (r_settled r); [|done]. rewrite Hl. simpl. apply next_not_open.
  unfold not_open. by rewrite (proj1 (same_asked_all _ _ _)).
Qed.

(** *** The losers are hung up and the race is over *)
Lemma step_not_open ev r : not_open r → not_open (step r ev).
Proof.
  intros Hr. unfold race_step.
  assert (not_open (race_handle ctx attempts abortOnCallerHangup ev.1 ev.2 r)) as H.
  { destruct ev as [m ev]. simpl.
    assert (ev = RaceLoserHungUp ∨ ev ≠ RaceLoserHungUp) as [->|He] by (destruct ev; auto).
    - simpl. destruct (r_stage r) eqn:Hst; try done. by apply next_not_open.
    - unfold not_open in *. by rewrite handle_stage. }
  by rewrite close_stage.
Qed.

(** The losers still to hang up are legs of the race. *)
Definition rest_bounded (r : Race) : Prop :=
  ∀ rest, r_stage r = RaceCleaning rest → length rest <= length attempts.

Lemma run_rest_bounded evs : rest_bounded (run evs).
Proof.
  induction evs as [|[m ev] evs IH] using rev_ind.
  { intros rest Hst. unfold race_run in Hst. simpl in Hst. revert Hst. unfold race_start.
    generalize (seq 0 (length attempts)). intros legs. assert (r_stage (race_init ctx attempts overallTimeoutSeconds) = RaceOpen) as Hi by done.
    revert Hi. generalize (race_init ctx attempts overallTimeoutSeconds).
    induction legs as [|i legs IH]; intros r Hi; simpl; [by rewrite Hi|]. apply IH.
    destruct (attempts !! i) as [[a id]|]; [|done]. destruct (0 <? delaySeconds a)%Z; [done|].
    unfold race_begin. by destruct (settled_b r). }
  rewrite race_run_snoc. unfold race_step, race_close. simpl.
  assert (rest_bounded (race_handle ctx attempts abortOnCallerHangup m ev (run evs))) as Hh.
  { intros rest. assert (ev = RaceLoserHungUp ∨ ev ≠ RaceLoserHungUp) as [->|He] by (destruct ev; auto).
    - simpl. destruct (r_stage (run evs)) eqn:Hst; try congruence.
      intros H%next_shorter. specialize (IH _ Hst). lia.
    - rewrite handle_stage by done. apply IH. }
  destruct (_ && _); [|done]. cbv zeta. intros rest H%next_shorter. rewrite length_seq in H. lia.
Qed.

Definition is_over (r : Race) : Prop := race_outcome r ≠ None.

Lemma over_not_open r : is_over r → not_open r.
Proof. unfold is_over, race_outcome, not_open. by destruct (r_stage r). Qed.

Lemma hungup_step m r :
  r_stage (step r (m, RaceLoserHungUp)) =
  match r_stage r with
  | RaceOpen => r_stage (step r (m, RaceLoserHungUp))
  | RaceCleaning rest => r_stage (race_next attempts rest r)
  | RaceOver o => RaceOver o
  end.
Proof.
  destruct (r_stage r) as [|rest|o] eqn:Hst; [done|..]; unfold race_step; simpl; rewrite Hst.
  - rewrite close_stage; [done|]. apply next_not_open. unfold not_open. by rewrite Hst.
  - rewrite close_stage; [done|]. unfold not_open. by rewrite Hst.
Qed.

Lemma hungup_over m k r :
  not_open r → (∀ rest, r_stage r = RaceCleaning rest → length rest < k) →
  is_over (foldl step r (replicate k (m, RaceLoserHungUp))).
Proof.
  revert r. induction k as [|k IH]; intros r Ho Hk; simpl.
  - unfold is_over, race_outcome. destruct (r_stage r) eqn:Hst; try done.
    specialize (Hk _ eq_refl). lia.
  - apply IH; [by apply step_not_open|]. intros rest Hst. rewrite hungup_step in Hst.
    destruct (r_stage r) as [|rest0|o] eqn:Hst0; try done.
    apply next_shorter in Hst. specialize (Hk _ eq_refl). lia.
Qed.

Lemma run_returned evs :
  (∀ i, 3 <= rank (run evs) i) → forallb leg_returned (r_legs (run evs)) = true.
Proof.
  intros Hr. apply forallb_forall. intros l Hl%list_elem_of_In.
  apply list_elem_of_lookup in Hl as [i Hi]. specialize (Hr i). rewrite (rank_at _ i l Hi) in Hr.
  unfold leg_returned. destruct (l_stage l); simpl in Hr; done || lia.
Qed.

Lemma overall_not_open m evs :
  forallb leg_returned (r_legs (run evs)) = true → not_open (run (evs ++ [(m, RaceOverall)])).
Proof.
  intros Hl. rewrite race_run_snoc. destruct (race_open (run evs)) eqn:Ho.
  2: { apply step_not_open. unfold not_open, race_open in *. by destruct (r_stage _). }
  unfold race_step. simpl. rewrite Ho. apply close_fires.
  - unfold r_resolve. destruct (r_settled (run evs)) eqn:E; simpl; congruence.
  - unfold r_resolve. by destruct (r_settled (run evs)).
Qed.

Lemma rank_beyond evs i : i ∉ seq 0 (length attempts) → rank (run evs) i = 3.
Proof.
  intros Hi. unfold rank, leg_stages. rewrite list_lookup_fmap.
  pose proof (ri_length _ _ (race_run_inv evs)) as Hlen.
  destruct (r_legs (run evs) !! i) eqn:E; [|done]. apply lookup_lt_Some in E.
  destruct Hi. apply elem_of_seq. lia.
Qed.

(** A sweep over every leg. *)
Lemma full_sweep m mk k evs :
  k <= 3 → (∀ j i, arrives (mk j) i = if decide (i = j) then k else 0) →
  (∀ i, k <= S (rank (run evs) i)) →
  ∀ i, k <= rank (run (evs ++ ((λ j, (m, mk j)) <$> seq 0 (length attempts)))) i.
Proof.
  intros Hk3 Hmk Hk i. destruct (sweep m mk k evs (seq 0 (length attempts)) Hmk Hk i) as [_ Hin].
  destruct (decide (i ∈ seq 0 (length attempts))); [auto|]. by rewrite rank_beyond.
Qed.

Lemma race_over m evs :
  is_over (dialSimultaneous ctx attempts overallTimeoutSeconds abortOnCallerHangup m evs).
Proof.
  unfold dialSimultaneous, race_closing. rewrite !fmap_app, <- !list_fmap_compose, !app_assoc.
  set (e1 := evs ++ _). set (e2 := e1 ++ _). set (e3 := e2 ++ _).
  assert (∀ i, 1 <= rank (run e1) i) as H1.
  { apply (full_sweep m RaceDelayOver 1 evs); [lia|done|intros; lia]. }
  assert (∀ i, 2 <= rank (run e2) i) as H2.
  { apply (full_sweep m (λ i, RaceHookDone i (Ok tt)) 2 e1); [lia|done|intros i; specialize (H1 i); lia]. }
  assert (∀ i, 3 <= rank (run e3) i) as H3.
  { apply (full_sweep m (λ i, RaceOriginated i (Ok tt)) 3 e2); [lia|done|intros i; specialize (H2 i); lia]. }
  pose proof (overall_not_open m e3 (run_returned e3 H3)) as Ho. simpl.
  unfold race_run at 1. rewrite foldl_app.
  rewrite fmap_replicate. change (foldl step (race_start ctx attempts overallTimeoutSeconds) (e3 ++ [(m, RaceOverall)]))
    with (run (e3 ++ [(m, RaceOverall)])).
  apply (hungup_over m (S (length attempts))); [done|].
  intros rest Hst. apply run_rest_bounded in Hst. lia.
Qed.

(** C11. A race always ends with at most one leg up: however the signals, the timers,
    the hooks, the media server and the caller behave, the race comes back; if it
    names a winner, that leg did signal an answer and, where it had to confirm, was
    asked and pressed the accept digit, and every leg on another channel ended, was
    refused by the media server, or was hung up; with no winner that holds of every
    leg. *)
Theorem race_leaves_one_leg (m : Moment) (evs : list (Moment * RaceEvent)) :
  let all := evs ++ race_closing attempts m in
  let r := dialSimultaneous ctx attempts overallTimeoutSeconds abortOnCallerHangup m evs in
  match race_outcome r with
  | None => False
  | Some (Answered id i) =>
      race_up all (r_trace r) id i ∧
      ∀ j a id', attempts !! j = Some (a, id') → id' = id ∨ race_down all (r_trace r) j id'
  | Some _ => ∀ j a id', attempts !! j = Some (a, id') → race_down all (r_trace r) j id'
  end.
Proof.
  intros all r. pose proof (race_over m evs) as Hover. fold r in Hover.
  pose proof (race_run_inv all) as Hr. change (run all) with r in Hr.
  pose proof (ri_stage _ _ Hr) as Hst. unfold race_stage_ok, is_over, race_outcome, accounted, winner in *.
  destruct (r_stage r) as [|rest|o]; try done. destruct Hst as (_ & Hacc & Ho).
  destruct o as [id i|cause i| |].
  - assert (r_settled r = Some (Answered id i)) as Hs by by apply Ho.
    split; [by apply (ri_settled _ _ Hr)|]. intros j a id' Ha.
    destruct (Hacc j a id' Ha) as [Hw|Hd]; [|by right]. rewrite Hs in Hw. left. congruence.
  - intros j a id' Ha. destruct (Hacc j a id' Ha) as [Hw|Hd]; [|done].
    destruct (r_settled r) as [[id'' k|? ?| |]|]; try done. by pose proof (proj2 (Ho id'' k) eq_refl).
  - intros j a id' Ha. destruct (Hacc j a id' Ha) as [Hw|Hd]; [|done].
    destruct (r_settled r) as [[id'' k|? ?| |]|]; try done. by pose proof (proj2 (Ho id'' k) eq_refl).
  - intros j a id' Ha. destruct (Hacc j a id' Ha) as [Hw|Hd]; [|done].
    destruct (r_settled r) as [[id'' k|? ?| |]|]; try done. by pose proof (proj2 (Ho id'' k) eq_refl).
Qed.

(** ** The winner is left alone

    With channels of their own and no progress timer, no leg that is hung up can
    win. *)
Section Winner.
Context (Hids : NoDup (snd <$> attempts)).

Record safe (r : Race) : Prop := {
  safe_progress : ∀ i l, r_legs r !! i = Some l → l_progress l = false ∧ l_dropping l = false;
  safe_winner : ∀ id, hung_up id (r_trace r) → winner r ≠ Some id;
  safe_open : ∀ i a id, attempts !! i = Some (a, id) → hung_up id (r_trace r) → r_stage r = RaceOpen →
    ∃ l c v, r_legs r !! i = Some l ∧ l_confirm l = Some c ∧ c_phase c = CDone v ∧ v ≠ accepted;
  safe_accepted : ∀ id i a req, r_settled r = Some (Answered id i) → attempts !! i = Some (a, id) →
    confirm a = Some req →
    ∃ l c, r_legs r !! i = Some l ∧ l_confirm l = Some c ∧ c_phase c = CDone accepted }.

Lemma same_channel i j a a' id :
  attempts !! i = Some (a, id) → attempts !! j = Some (a', id) → i = j.
Proof.
  intros Hi Hj. apply (NoDup_lookup (snd <$> attempts) i j id); [done|..];
    by rewrite list_lookup_fmap, ?Hi, ?Hj.
Qed.

(** A step that keeps the decision and the questions, and hangs up nothing. *)
Lemma safe_quiet r r' acts :
  r_settled r' = r_settled r → r_legs r' = r_legs r → r_stage r' = r_stage r →
  r_trace r' = r_trace r ++ acts → Forall quiet acts → safe r → safe r'.
Proof.
  intros Hs Hl Hst Ht Hq [H1 H2 H3 H4].
  assert (∀ id, hung_up id (r_trace r') → hung_up id (r_trace r)) as Hh.
  { intros id. rewrite Ht. intros [c [H|H]%elem_of_app]; [by exists c|].
    rewrite Forall_forall in Hq. by apply Hq in H. }
  split; unfold winner in *; rewrite ?Hs, ?Hl, ?Hst; eauto.
Qed.

Lemma safe_act acts r : Forall quiet acts → safe r → safe (r_act acts r).
Proof. intros Hq. by apply (safe_quiet r _ acts). Qed.

Lemma safe_note notes r : safe r → safe (r_note notes r).
Proof. apply (safe_quiet r _ []); simpl; rewrite ?app_nil_r; done. Qed.

Lemma safe_cause cause r : safe r → safe (r_cause cause r).
Proof. destruct cause; [|done]. apply (safe_quiet r _ []); simpl; rewrite ?app_nil_r; done. Qed.

Lemma safe_map f i r :
  (∀ l, (l_progress l = false → l_progress (f l) = false) ∧
        (l_dropping l = false → l_dropping (f l) = false) ∧ l_confirm (f l) = l_confirm l) →
  safe r → safe (leg_map f i r).
Proof.
  intros Hf [H1 H2 H3 H4].
  assert (∀ j l, r_legs r !! j = Some l → ∃ l', r_legs (leg_map f i r) !! j = Some l' ∧
            l_confirm l' = l_confirm l) as Hback.
  { intros j l Hl. simpl. destruct (decide (j = i)) as [->|Hne].
    - rewrite list_lookup_alter_eq, Hl. eexists. split; [done|]. apply Hf.
    - rewrite list_lookup_alter_ne by done. eauto. }
  split; [|done| |].
  - simpl. intros j l. destruct (decide (j = i)) as [->|Hne].
    + rewrite list_lookup_alter_eq. destruct (r_legs r !! i) as [l'|] eqn:E; [|done].
      intros [= <-]. destruct (H1 _ _ E), (Hf l') as (? & ? & ?). auto.
    + rewrite list_lookup_alter_ne by done. eauto.
  - intros j a id Ha Hh Ho. destruct (H3 j a id Ha Hh Ho) as (l & c & v & Hl & Hc & Hph & Hv).
    destruct (Hback j l Hl) as (l' & Hl' & Hc'). exists l', c, v. by rewrite Hc'.
  - intros id j a req Hs Ha Hreq. destruct (H4 id j a req Hs Ha Hreq) as (l & c & Hl & Hc & Hph).
    destruct (Hback j l Hl) as (l' & Hl' & Hc'). exists l', c. by rewrite Hc'.
Qed.

(** A decision against everybody. *)
Lemma safe_resolve_none o r :
  (∀ id i, o ≠ Answered id i) → safe r → safe (r_resolve o r).
Proof.
  intros Ho Hr. unfold r_resolve. destruct (r_settled r) eqn:Hs; [done|]. destruct Hr as [H1 H2 H3 H4].
  split; simpl; [done| |done|].
  - intros id _. unfold winner. simpl. destruct o as [id' i| | |]; try done. by destruct (Ho id' i).
  - intros id i a req [= ->]. by destruct (Ho id i).
Qed.

(** A decision for a leg that is not hung up. *)
Lemma safe_resolve_winner id i r :
  (r_settled r = None → ¬ hung_up id (r_trace r)) →
  (∀ a req, attempts !! i = Some (a, id) → confirm a = Some req →
     ∃ l c, r_legs r !! i = Some l ∧ l_confirm l = Some c ∧ c_phase c = CDone accepted) →
  safe r → safe (r_resolve (Answered id i) r).
Proof.
  intros Hh Hc Hr. unfold r_resolve. destruct (r_settled r) eqn:Hs; [done|]. destruct Hr as [H1 H2 H3 H4].
  split; simpl; [done| |done|].
  - unfold winner. simpl. intros id' Hid' [= ->]. by apply Hh.
  - intros id' j a req [= <- <-]. apply Hc.
Qed.

Lemma safe_out i cause r : safe r → safe (legIsOut i cause r).
Proof.
  intros Hr. unfold legIsOut. assert (safe (leg_map set_ended i (r_cause cause r))) as Hr'
    by (apply safe_map; [by auto|by apply safe_cause]).
  destruct (all_ended _); [|done]. apply safe_resolve_none; [|done]. by destruct (r_lastCause _).
Qed.

(** A step of the question of a leg that has not had its verdict: [l_confirm] is
    none, or a question still asked. *)
Definition unsettled_leg (r : Race) (i : nat) : Prop :=
  ∀ l c v, r_legs r !! i = Some l → l_confirm l = Some c → c_phase c ≠ CDone v.

Lemma safe_confirm evs i a id req step r :
  attempts !! i = Some (a, id) → confirm a = Some req → unsettled_leg r i →
  Forall quiet step.2 → race_inv evs r → safe r → safe (race_confirm i a id step r).
Proof.
  intros Ha Hreq Hun Hq Hi Hr. destruct step as [c acts]. simpl in Hq. unfold race_confirm.
  assert (∃ l, r_legs r !! i = Some l) as [l Hl].
  { apply lookup_lt_is_Some. rewrite (ri_length _ _ Hi). by apply lookup_lt_Some in Ha. }
  set (r1 := r_act acts (leg_map (set_confirm c) i r)).
  assert (r_stage r = RaceOpen → ¬ hung_up id (r_trace r)) as Hopen.
  { intros Ho Hh. destruct (safe_open _ Hr i a id Ha Hh Ho) as (l' & c' & v & Hl' & Hc' & Hv & _).
    by destruct (Hun l' c' v Hl' Hc'). }
  assert (winner r ≠ Some id) as Hwin.
  { unfold winner. destruct (r_settled r) as [[id' k| | |]|] eqn:Hs; try done. intros [= ->].
    destruct (ri_settled _ _ Hi id k Hs) as (a' & Ha' & _). rewrite (same_channel _ _ _ _ _ Ha' Ha) in *.
    destruct (safe_accepted _ Hr id i a req Hs Ha Hreq) as (l' & c' & Hl' & Hc' & Hv).
    by destruct (Hun l' c' accepted Hl' Hc'). }
  assert (r_settled r = None → r_stage r = RaceOpen) as Hstage.
  { intros Hs. pose proof (ri_stage _ _ Hi) as Hst. unfold race_stage_ok in Hst.
    destruct (r_stage r); naive_solver. }
  assert (∀ id', hung_up id' (r_trace r1) → hung_up id' (r_trace r)) as Hh1.
  { intros id' [cz [H|H]%elem_of_app]; [by exists cz|]. rewrite Forall_forall in Hq. by apply Hq in H. }
  assert (r_legs r1 !! i = Some (set_confirm c l)) as Hl1 by (simpl; by rewrite list_lookup_alter_eq, Hl).
  assert (safe r1) as Hr1.
  { destruct Hr as [H1 H2 H3 H4]. split.
    - simpl. intros j l'. destruct (decide (j = i)) as [->|Hne];
        [rewrite list_lookup_alter_eq, Hl; intros [= <-]; exact (H1 i l Hl)|].
      rewrite list_lookup_alter_ne by done. eauto.
    - intros id' Hh. apply H2. auto.
    - intros j a' id' Ha' Hh Ho. destruct (decide (j = i)) as [->|Hne].
      { simplify_eq. destruct Hopen; auto. }
      destruct (H3 j a' id' Ha' (Hh1 _ Hh) Ho) as (l' & c' & v & ? & ? & ? & ?).
      exists l', c', v. simpl. by rewrite list_lookup_alter_ne.
    - intros id' j a' req' Hs Ha' Hreq'. destruct (decide (j = i)) as [->|Hne].
      { simplify_eq. destruct Hwin. change (r_settled r1) with (r_settled r) in Hs. unfold winner. by rewrite Hs. }
      destruct (H4 id' j a' req' Hs Ha' Hreq') as (l' & c' & ? & ? & ?).
      exists l', c'. simpl. by rewrite list_lookup_alter_ne. }
  assert (∀ v, v ≠ accepted → c_phase c = CDone v →
    safe (r_act (hangup_leg id ORIGINATOR_CANCEL)
            (leg_map (set_rejecting true) i (r_note [NoteVerdict (label a) v] r1)))) as Hrej.
  { intros v Hv Hph.
    assert (safe (leg_map (set_rejecting true) i (r_note [NoteVerdict (label a) v] r1))) as Hr2
      by (apply safe_map; [by auto|by apply safe_note]).
    set (r2 := leg_map (set_rejecting true) i (r_note [NoteVerdict (label a) v] r1)) in *.
    assert (∀ id', hung_up id' (r_trace r2 ++ hangup_leg id ORIGINATOR_CANCEL) →
              hung_up id' (r_trace r2) ∨ id' = id) as Hh2.
    { intros id' [cz [H|H]%elem_of_app]; [by left; exists cz|]. unfold hangup_leg in H. right. set_solver. }
    destruct Hr2 as [H1 H2 H3 H4]. fold r2. split; [done| | |done].
    - intros id' [Hh| ->]%Hh2; [by apply H2|]. exact Hwin.
    - intros j a' id' Ha' [Hh| ->]%Hh2 Ho; [by apply (H3 j a' id')|].
      rewrite (same_channel _ _ _ _ _ Ha' Ha). exists (set_rejecting true (set_confirm c l)), c, v.
      split_and!; try done. subst r2. simpl. by rewrite !list_lookup_alter_eq, Hl. }
  destruct (c_phase c) as [| | |v] eqn:Hph; try done.
  destruct v; try by apply Hrej.
  - apply safe_resolve_winner; [| |done].
    + intros Hs Hh. apply Hopen; [by apply Hstage|by apply Hh1].
    + intros a' req' _ _. by exists (set_confirm c l), c.
  - apply safe_resolve_none; [done|]. by apply safe_note.
Qed.

Definition both (evs : events) (r : Race) : Prop := race_inv evs r ∧ safe r.

Lemma safe_asked evs i m ev r :
  both evs r → safe (race_asked attempts i m ev r).
Proof.
  intros [Hi Hr]. unfold race_asked. destruct (attempts !! i) as [[a id]|] eqn:Ha; [|done].
  destruct (r_legs r !! i) as [l|] eqn:Hl; [|done]. destruct (l_confirm l) as [c|] eqn:Hc; [|done].
  destruct (confirm a) as [req|] eqn:Hreq; [|done].
  assert ((∀ v, c_phase c ≠ CDone v) → safe (race_confirm i a id (confirm_step req id m ev c) r)) as H.
  { intros Hph. eapply safe_confirm; eauto; [|apply confirm_step_quiet].
    intros l' c' v Hl' Hc'. by simplify_eq. }
  destruct (c_phase c) eqn:Hph; try done; by apply H.
Qed.

Lemma both_asked_all evs m v r :
  v ≠ accepted → both evs r → both evs (race_asked_all attempts m (CETerminal v) r).
Proof.
  intros Hv. unfold race_asked_all. generalize (seq 0 (length attempts)). intros legs.
  revert r. induction legs as [|i legs IH]; intros r Hr; [done|]. simpl. apply IH.
  split; [apply race_inv_asked; [done|by destruct Hr]|by eapply safe_asked].
Qed.

Lemma safe_watch evs i a id m sig r :
  attempts !! i = Some (a, id) → race_open r = true → both evs r → safe (race_watch i a id m sig r).
Proof.
  intros Ha Ho [Hi Hr]. assert (r_stage r = RaceOpen) as Hst by (unfold race_open in Ho; by destruct (r_stage r)).
  set (r1 := leg_map (set_progress false) i r).
  assert (both evs r1) as [Hi1 Hr1] by (split; [by apply race_inv_progress|by apply safe_map; auto]).
  assert (safe (match confirm a with
     | None => r_resolve (Answered id i) r1
     | Some req =>
         match r_legs r1 !! i with
         | Some l =>
             match l_confirm l with
             | Some _ => r1
             | None => if l_ended l || settled_b r1 then r1
                       else race_confirm i a id (confirm_head req id m 0 None) r1
             end
         | None => r1
         end
     end)) as Hans.
  { destruct (confirm a) as [req|] eqn:Hreq.
    - destruct (r_legs r1 !! i) as [l|] eqn:Hl; [|done]. destruct (l_confirm l) eqn:Hc; [done|].
      destruct (l_ended l || settled_b r1); [done|].
      eapply safe_confirm; eauto; [|apply confirm_head_quiet]. intros l' c' v Hl' Hc'. by simplify_eq.
    - apply safe_resolve_winner; [|naive_solver|done]. intros _ Hh.
      destruct (safe_open _ Hr1 i a id Ha Hh Hst) as (l & c & v & Hl & Hc & _).
      destruct (ok_confirm _ _ _ _ _ _ (ri_legs _ _ Hi1 i a id l Ha Hl) c Hc) as (req & Hreq' & _).
      congruence. }
  destruct sig; simpl; try done. by apply safe_out.
Qed.

Lemma both_signal evs i a id m sig r :
  attempts !! i = Some (a, id) → (m, RaceSignal i sig) ∈ evs → both evs r →
  safe (race_signal attempts i a id m sig r).
Proof.
  intros Ha Hin Hb. unfold race_signal.
  assert (both evs (if race_open r then race_watch i a id m sig r else r)) as Hw.
  { destruct (race_open r) eqn:Ho; [|done]. split; [|by eapply safe_watch].
    apply race_inv_watch; [done|done|by destruct Hb]. }
  destruct sig; try (by destruct Hw); by eapply safe_asked.
Qed.

Lemma safe_next rest r : not_open r → safe r → safe (race_next attempts rest r).
Proof.
  intros Ho Hr. induction rest as [|i rest IH]; cbn [race_next].
  { destruct Hr as [H1 H2 H3 H4]. by split. }
  destruct (attempts !! i) as [[a id]|]; [|done].
  destruct (bool_decide (winner r = Some id)) eqn:Hw; [done|]. apply bool_decide_eq_false in Hw. simpl.
  destruct (leg_ended r i); [done|]. destruct Hr as [H1 H2 H3 H4]. split; simpl; [done| |done|done].
  intros id' [cz [H|H]%elem_of_app].
  - apply H2. by exists cz.
  - unfold hangup_leg in H. assert (id' = id) as -> by set_solver. exact Hw.
Qed.

Lemma safe_stage rest r : safe r → safe (r_set_stage (RaceCleaning rest) r).
Proof. intros [H1 H2 H3 H4]. by split. Qed.

Lemma both_close evs m r : both evs r → both evs (race_close attempts m r).
Proof.
  intros [Hi Hr]. split; [by apply race_inv_close|]. unfold race_close.
  destruct (race_open r && settled_b r && _) eqn:Hc; [|done].
  apply andb_true_iff in Hc as [[_ Hs]%andb_true_iff _]. cbv zeta.
  set (r1 := foldl _ r _).
  assert (safe r1) as Hr1.
  { subst r1. clear Hi Hs. revert Hr. generalize (seq 0 (length attempts)). intros legs. revert r.
    induction legs as [|i legs IH]; intros r Hr; [done|]. simpl. apply IH. by apply safe_map; auto. }
  assert (race_inv evs r1) as Hi1 by (by apply race_inv_silence).
  assert (r_settled r1 ≠ None) as Hs1.
  { subst r1. rewrite (proj1 (silence_settled _ _)). unfold settled_b in Hs. by destruct (r_settled r). }
  apply safe_next.
  - unfold not_open. by rewrite (proj1 (same_asked_all _ _ _)).
  - apply (both_asked_all evs); [done|]. split; [|by apply safe_stage].
    destruct Hi1 as [H1 H2 H3 _]. split; [done|done|done|]. unfold race_stage_ok. simpl. split; [done|].
    intros i Hi'. by apply beyond_accounted.
Qed.

Lemma safe_handle evs m ev r :
  both evs r → (m, ev) ∈ evs →
  safe (race_handle ctx attempts abortOnCallerHangup m ev r).
Proof.
  intros Hb Hin. pose proof Hb as [Hi Hr]. unfold race_handle.
  assert (∀ st i, safe (leg_map (set_stage st) i r)) as Hstage by (intros; by apply safe_map; auto).
  destruct ev as [i|i res|i res|i sig|i|i| | |i res|i|i|i|];
    try (destruct (attempts !! i) as [[a id]|] eqn:Ha; [|done];
         destruct (r_legs r !! i) as [l|] eqn:Hl; [|done]);
    try by eapply safe_asked.
  - destruct (l_stage l); try done. unfold race_begin.
    destruct (settled_b r); [done|]. by apply safe_act; [repeat constructor|].
  - destruct (l_stage l); try done; try by destruct res. destruct res as [[]|e].
    + by apply safe_act; [repeat constructor|].
    + unfold race_refused. apply safe_out, safe_note. done.
  - destruct (l_stage l); try done; try by destruct res. destruct res as [[]|e]; [done|].
    unfold race_refused. apply safe_out, safe_note. done.
  - by apply (both_signal evs).
  - destruct (safe_progress _ Hr i l Hl) as [-> _]. by rewrite andb_false_r.
  - destruct (safe_progress _ Hr i l Hl) as [_ ->]. done.
  - destruct (race_open r); [|done]. by apply safe_resolve_none.
  - apply (both_asked_all evs); [done|]. destruct (race_open r && abortOnCallerHangup); [|done].
    split; [by apply race_inv_resolve|by apply safe_resolve_none].
  - destruct (l_rejecting l); [|done]. apply safe_out. by apply safe_map; auto.
  - destruct (r_stage r) as [|rest|o] eqn:Hst; try done. apply safe_next; [|done].
    unfold not_open. by rewrite Hst.
Qed.

Context (Hprogress : (progressTimeoutSeconds ctx <= 0)%Z).

Lemma no_progress_budget a : progress_budget ctx a = None.
Proof. unfold progress_budget. by destruct (Z.leb_spec (progressTimeoutSeconds ctx) 0); [|lia]. Qed.

Lemma safe_start : safe (race_start ctx attempts overallTimeoutSeconds).
Proof.
  assert (safe (race_init ctx attempts overallTimeoutSeconds)) as Hi.
  { assert (∀ id, ¬ hung_up id (r_trace (race_init ctx attempts overallTimeoutSeconds))) as Hno.
    { intros id [c Hc]. simpl in Hc. apply elem_of_cons in Hc as [Hc|Hc]; [done|].
      assert (∀ l : list (DialAttempt * string), concat ((λ a : DialAttempt * string, arm_progress ctx a.1) <$> l) = []) as Hnil.
      { clear -Hprogress. intros l. induction l as [|a l IH]; [done|]. simpl. unfold arm_progress at 1.
        by rewrite no_progress_budget. }
      rewrite Hnil in Hc. set_solver. }
    split; [|intros id Hh; by destruct (Hno id)|intros i a id _ Hh; by destruct (Hno id)|done].
    intros i l Hl. simpl in Hl. rewrite list_lookup_fmap in Hl.
    destruct (attempts !! i); simplify_eq/=. by rewrite no_progress_budget. }
  unfold race_start. generalize (seq 0 (length attempts)). intros legs.
  revert Hi. generalize (race_init ctx attempts overallTimeoutSeconds).
  induction legs as [|i legs IH]; intros r Hr; [done|]. simpl. apply IH.
  destruct (attempts !! i) as [[a id]|]; [|done].
  destruct (0 <? delaySeconds a)%Z; [by apply safe_act; [repeat constructor|]|].
  unfold race_begin.
  destruct (settled_b r); [by apply safe_map; auto|apply safe_act; [repeat constructor|by apply safe_map; auto]].
Qed.

Lemma run_both evs : both evs (run evs).
Proof.
  induction evs as [|[m ev] evs IH] using rev_ind.
  { split; [apply race_inv_start|apply safe_start]. }
  rewrite race_run_snoc. apply both_close. split; [apply race_inv_handle; by destruct IH|].
  apply safe_handle with (evs ++ [(m, ev)]); [|set_solver].
  destruct IH. split; [by apply race_inv_more|done].
Qed.
End Winner.

(** The leg that wins a race is not one of those it hangs up: with distinct
    channels and no progress timer, which is the default, no hangup, of a loser, of
    a leg that declined or of one that was dropped, is ever sent to the channel of
    the winner. *)
Theorem race_winner_not_hung_up (m : Moment) (evs : list (Moment * RaceEvent)) (id : string) (i : nat) :
  NoDup (snd <$> attempts) → (progressTimeoutSeconds ctx <= 0)%Z →
  let r := dialSimultaneous ctx attempts overallTimeoutSeconds abortOnCallerHangup m evs in
  race_outcome r = Some (Answered id i) → ¬ hung_up id (r_trace r).
Proof.
  intros Hids Hp r Ho Hh. destruct (run_both Hids Hp (evs ++ race_closing attempts m)) as [Hi Hs].
  change (run (evs ++ race_closing attempts m)) with r in Hi, Hs.
  apply (safe_winner _ Hs id Hh). pose proof (ri_stage _ _ Hi) as Hst.
  unfold race_outcome, race_stage_ok, winner in *. destruct (r_stage r) as [|rest|o]; try done.
  injection Ho as ->. destruct Hst as (_ & _ & Hst). by rewrite (proj1 (Hst id i) eq_refl).
Qed.
End Race.

(** ** Concrete dials *)
Definition plain_leg (number : string) (delay : Z) (confirmed : bool) : DialAttempt :=
  {| endpoint := "PJSIP/" +:+ number; label := "extension " +:+ number; destinationNumber := number;
     timeoutSeconds := 20; delaySeconds := delay; callerId := None; variables := [];
     confirm := if confirmed then Some {| confirm_media := "sound:screen-callee-options";
                  acceptDigit := "1"; confirm_attempts := 2; confirm_timeoutMs := 15000 |} else None |}.

Definition demo_context (progress : Z) : DialContext :=
  {| application := "optimiq-engine"; progressTimeoutSeconds := progress; ctx_organizationId := "org";
     ctx_mediaChannelId := "caller"; ctx_channelId := "leg-a"; ctx_destination := None |}.

Definition now_ : Moment := {| m_abandoned := false; m_newId := "p" |}.

(** What leg [i] sends while it is originated. *)
Definition rung (i : nat) : list (Moment * RaceEvent) :=
  [(now_, RaceHookDone i (Ok tt)); (now_, RaceOriginated i (Ok tt))].

Lemma race_winner_not_hung_up_witness :
  let attempts := [(plain_leg "1001" 0 false, "b0"); (plain_leg "1002" 0 true, "b1")] in
  let evs := rung 0 ++ rung 1 ++ [(now_, RaceSignal 1 SigAnswered); (now_, RacePlayed 1 (Ok tt));
    (now_, RaceSignal 1 (SigDtmf "1")); (now_, RaceStopped 1)] in
  let r := dialSimultaneous (demo_context 0) attempts 30 false now_ evs in
  race_outcome r = Some (Answered "b1" 1) ∧ ActHangup "b0" LOSE_RACE ∈ r_trace r ∧
  ¬ hung_up "b1" (r_trace r).
Proof.
  split; [vm_compute; reflexivity|]. split; [apply (bool_decide_unpack _); vm_compute; exact I|].
  apply (race_winner_not_hung_up (demo_context 0)
    [(plain_leg "1001" 0 false, "b0"); (plain_leg "1002" 0 true, "b1")] 30 false now_ _ "b1" 1);
    [apply (bool_decide_unpack _); vm_compute; exact I|simpl; lia|vm_compute; reflexivity].
Defined.

(** A winner waits for the delays of the legs that have not started: the race is
    decided and does not come back until the last delay is over. *)
Lemma early_answer_waits_for_delays :
  let attempts := [(plain_leg "1001" 0 false, "b0"); (plain_leg "1002" 20 false, "b1")] in
  let r evs := race_run (demo_context 0) attempts 40 false evs in
  let answered := rung 0 ++ [(now_, RaceSignal 0 SigAnswered)] in
  r_settled (r answered) = Some (Answered "b0" 0) ∧ race_outcome (r answered) = None ∧
  race_outcome (r (answered ++ [(now_, RaceDelayOver 1); (now_, RaceLoserHungUp)])) = Some (Answered "b0" 0).
Proof. by vm_compute. Qed.

(** A leg that was given up on for its silence wins when its answer crosses the
    hangup: the winner has been hung up. *)
Lemma dropped_leg_wins :
  let r := dialSimultaneous (demo_context 5) [(plain_leg "1001" 0 false, "b0"); (plain_leg "1002" 0 false, "b1")]
    40 false now_ (rung 0 ++ rung 1 ++ [(now_, RaceProgressTimer 0); (now_, RaceSignal 0 SigAnswered)]) in
  race_outcome r = Some (Answered "b0" 0) ∧ hung_up "b0" (r_trace r).
Proof.
  split; [by vm_compute|]. exists ORIGINATOR_CANCEL. apply (bool_decide_unpack _). vm_compute. exact I.
Qed.

(** A race in which every leg declined is reported as a timeout, unless the end of
    the declining leg is signalled before its hangup comes back: then it is a failure
    with the cause of the walker's own hangup. *)
Lemma declined_race_fails :
  let attempts := [(plain_leg "1001" 0 true, "b0")] in
  let declined := rung 0 ++ [(now_, RaceSignal 0 SigAnswered); (now_, RacePlayed 0 (Ok tt));
    (now_, RaceConfirmTimer 0); (now_, RaceStopped 0); (now_, RacePlayed 0 (Ok tt));
    (now_, RaceConfirmTimer 0); (now_, RaceStopped 0)] in
  let ended := [(now_, RaceSignal 0 (SigEnded NORMAL_CLEARING 16))] in
  let r evs := race_run (demo_context 0) attempts 40 false evs in
  race_outcome (r (declined ++ [(now_, RaceRejected 0)] ++ ended)) = Some TimedOut ∧
  race_outcome (r (declined ++ ended ++ [(now_, RaceRejected 0)])) = Some (Failed NORMAL_CLEARING 0).
Proof. by vm_compute. Qed.

(** A loser that was being asked is hung up by its own question first, with the
    cause of a cancel and not of a lost race. *)
Lemma asked_loser_is_cancelled :
  let attempts := [(plain_leg "1001" 0 false, "b0"); (plain_leg "1002" 0 true, "b1"); (plain_leg "1003" 0 false, "b2")] in
  let evs := rung 0 ++ rung 1 ++ rung 2 ++ [(now_, RaceSignal 1 SigAnswered); (now_, RacePlayed 1 (Ok tt));
    (now_, RaceSignal 2 SigAnswered); (now_, RaceStopped 1); (now_, RaceLoserHungUp)] in
  let r := race_run (demo_context 0) attempts 40 false evs in
  race_outcome r = None ∧
  List.filter (λ a, match a with ActHangingUp "b1" _ => true | _ => false end) (r_trace r) =
    [ActHangingUp "b1" ORIGINATOR_CANCEL; ActHangingUp "b1" LOSE_RACE].
Proof. by vm_compute. Qed.

(** A leg that presses the accept digit and hangs up while its prompt is being
    stopped is still the answer of the dial. *)
Lemma accepted_leg_is_gone :
  one_outcome (dialOne (demo_context 0) (plain_leg "1001" 0 true) "b0" 0 false now_
    [(now_, OneHookDone (Ok tt)); (now_, OneOriginated (Ok tt)); (now_, OneSignal SigAnswered);
     (now_, OnePlayed (Ok tt)); (now_, OneSignal (SigDtmf "1"));
     (now_, OneSignal (SigEnded NORMAL_CLEARING 16)); (now_, OneStopped)]) = Some (Answered "b0" 0).
Proof. by vm_compute. Qed.
End RaceFacts.
