(* ===== verification/Queue.v ===== *)
(** * Queue distribution

    [apps/engine/src/queue/queue-strategy.ts] (which agents a waiting caller
    reaches, and in which order), [apps/engine/src/queue/queue-registry.ts] (the
    lines and the round-robin cursors) and the roster types of
    [packages/events/src/schemas/queue-state.ts]. A draw of [Math.random] is the
    numerator of a fraction of [2^53]. *)

From S2P Require Import Prelude Machines Kv Agents Plan.

Module Queue.
Import Agents.

Inductive QueueAgentContactKind : Set := contact_extension | contact_external.

Record QueueMembershipAgent := {
  agentId : string;
  agent_name : string;
  contactKind : QueueAgentContactKind;
  contact : string;
  agent_extensionId : option string;
  level : Z;
  position : Z;
  agent_wrapUpSeconds : Z;
  maxNoAnswer : Z;
  noAnswerDelaySeconds : Z;
  busyDelaySeconds : Z;
  rejectDelaySeconds : Z;
  enabled : bool }.

Record QueueMembership := {
  member_orgId : string;
  member_queueId : string;
  member_name : option string;
  wrapUpSeconds : Z;
  tierRulesApply : bool;
  tierRuleWaitSeconds : Z;
  tierRuleNoAgentNoWait : bool;
  agents : list QueueMembershipAgent;
  updatedAt : string;
  revision : option Z }.

Record QueueCandidate := {
  agent : QueueMembershipAgent;
  cand_state : AgentStateEntry;
  idleMs : Z }.

Inductive FanOut : Set := fan_one | fan_all.

Record QueueSelection := {
  sel_strategy : Plan.QueueStrategy;
  ordered : list QueueCandidate;
  fanOut : FanOut;
  sel_openLevels : list Z }.

Record SelectionInput := {
  strategy : Plan.QueueStrategy;
  membership : QueueMembership;
  states : gmap string AgentStateEntry;
  waitedMs : Z;
  now : Z;
  excludedAgentIds : option (list string);
  roundRobinAfterAgentId : option string }.

Definition MILLIS_PER_SECOND : Z := 1000.

(** [l.slice(0, n)] *)
Definition slice_to {A} (n : Z) (l : list A) : list A :=
  take (Z.to_nat (if (n <? 0)%Z then Z.max 0 (Z.of_nat (length l) + n) else n)) l.

(** The [while] loop of [openLevels]; it raises [opened] one at a time until the
    open levels are staffed or all of them are open. *)
Fixpoint open_staffed (fuel : nat) (agents : list QueueMembershipAgent) (levels : list Z)
    (staffing : list string) (opened : Z) : Z :=
  match fuel with
  | O => opened
  | S fuel =>
      if (opened <? Z.of_nat (length levels))%Z then
        let open := slice_to opened levels in
        if existsb (λ a, includes open (level a) && includes staffing (agentId a)) agents
        then opened
        else open_staffed fuel agents levels staffing (opened + 1)
      else opened
  end.

Definition all_levels (m : QueueMembership) : list Z :=
  js_sort (λ a b, a - b)%Z (js_set (level <$> agents m)).

Definition openLevels (m : QueueMembership) (waitedMs : Z) (staffing : list string) : list Z :=
  let levels := all_levels m in
  let count := Z.of_nat (length levels) in
  if (count =? 0)%Z then []
  else if negb (tierRulesApply m) || (tierRuleWaitSeconds m =? 0)%Z then levels
  else
    let step := (tierRuleWaitSeconds m * MILLIS_PER_SECOND)%Z in
    let opened := Z.min count (1 + waitedMs / step) in
    let opened :=
      if tierRuleNoAgentNoWait m
      then open_staffed (Z.to_nat (count - opened)) (agents m) levels staffing opened
      else opened in
    slice_to opened levels.

Definition compareByTier (left right : QueueCandidate) : Z :=
  if negb (level (agent left) =? level (agent right))%Z
  then level (agent left) - level (agent right)
  else if negb (position (agent left) =? position (agent right))%Z
  then position (agent left) - position (agent right)
  else if String.ltb (agentId (agent left)) (agentId (agent right)) then -1 else 1.

Definition compareByIdle (left right : QueueCandidate) : Z :=
  if negb (idleMs left =? idleMs right)%Z then idleMs right - idleMs left
  else compareByTier left right.

Section Selection.
Context (dateParse : string → option Z).

(** One iteration of the loop of [eligibleCandidates]. *)
Definition candidate_of (states : gmap string AgentStateEntry) (open : list Z)
    (excluded : option (list string)) (now : Z)
    (isEligible : option AgentStateEntry → Z → bool) (a : QueueMembershipAgent)
    : option QueueCandidate :=
  if negb (enabled a) || negb (includes open (level a)) then None
  else if match excluded with Some ids => includes ids (agentId a) | None => false end then None
  else
    match states !! agentId a with
    | None => None
    | Some state =>
        if negb (isEligible (Some state) now) then None
        else Some {| agent := a; cand_state := state; idleMs := idleMsOf dateParse state now |}
    end.

Definition eligibleCandidates (m : QueueMembership) (states : gmap string AgentStateEntry)
    (open : list Z) (excluded : option (list string)) (now : Z)
    (isEligible : option AgentStateEntry → Z → bool) : list QueueCandidate :=
  omap (candidate_of states open excluded now isEligible) (agents m).

(** [findIndex] of an agent. *)
Fixpoint index_of (ordered : list QueueCandidate) (id : string) : option nat :=
  match ordered with
  | [] => None
  | c :: rest => if bool_decide (agentId (agent c) = id) then Some 0 else S <$> index_of rest id
  end.

Definition rotateAfter (ordered : list QueueCandidate) (afterAgentId : option string)
    : list QueueCandidate :=
  match afterAgentId with
  | None => ordered
  | Some id =>
      if length ordered =? 0 then ordered
      else
        match index_of ordered id with
        | None => ordered
        | Some index =>
            let start := (index + 1) mod length ordered in
            drop start ordered ++ take start ordered
        end
  end.

Definition RANDOM_ONE : Z := 2 ^ 53.

(** [random() * n], rounded down; a draw in [0, 1) gives an index below [n]. *)
Definition pick (draw : Z) (n : nat) : nat := Z.to_nat (draw * Z.of_nat n / RANDOM_ONE).

Definition swap_at (index swap : nat) (l : list QueueCandidate) : list QueueCandidate :=
  match l !! index, l !! swap with
  | Some x, Some y => <[swap := x]> (<[index := y]> l)
  | _, _ => l
  end.

(** The loop from [index] down to 1; [random index] is the draw made there. *)
Fixpoint shuffle_from (index : nat) (random : nat → Z) (l : list QueueCandidate)
    : list QueueCandidate :=
  match index with
  | O => l
  | S index' => shuffle_from index' random (swap_at index (pick (random index) (index + 1)) l)
  end.

Definition shuffled (ordered : list QueueCandidate) (random : nat → Z) : list QueueCandidate :=
  shuffle_from (length ordered - 1) random ordered.

Definition orderFor (input : SelectionInput) (random : nat → Z)
    (candidates : list QueueCandidate) : list QueueCandidate :=
  match strategy input with
  | Plan.longest_idle => js_sort compareByIdle candidates
  | Plan.round_robin => rotateAfter (js_sort compareByTier candidates) (roundRobinAfterAgentId input)
  | Plan.random => shuffled (js_sort compareByTier candidates) random
  | Plan.ring_all | Plan.top_down | Plan.queue_sequential => js_sort compareByTier candidates
  end.

Definition staffing_ids (states : gmap string AgentStateEntry) : list string :=
  fst <$> List.filter (λ '(_, state), isStaffing (Some state)) (map_to_list states).

Definition selectAgents (input : SelectionInput) (random : nat → Z) : QueueSelection :=
  let levels := openLevels (membership input) (waitedMs input) (staffing_ids (states input)) in
  let candidates :=
    eligibleCandidates (membership input) (states input) levels (excludedAgentIds input)
      (now input) (isEligibleForDistribution dateParse) in
  {| sel_strategy := strategy input;
     ordered := orderFor input random candidates;
     fanOut := match strategy input with Plan.ring_all => fan_all | _ => fan_one end;
     sel_openLevels := levels |}.
End Selection.

(** ** Lines and cursors *)
Definition keyOf (orgId queueId : string) : string := orgId +:+ "/" +:+ queueId.

(** [QueuePositions]: each queue's line, in arrival order. *)
Abbreviation Lines := (gmap string (list string)).

Fixpoint indexOf (line : list string) (callId : string) : option nat :=
  match line with
  | [] => None
  | c :: rest => if bool_decide (c = callId) then Some 0 else S <$> indexOf rest callId
  end.

(** [lineFor] creates the line it does not find. *)
Definition lineFor (lines : Lines) (key : string) : Lines * list string :=
  match lines !! key with
  | Some line => (lines, line)
  | None => (<[key := []]> lines, [])
  end.

Definition waitingCount (lines : Lines) : nat := sum_list (length ∘ snd <$> map_to_list lines).

Definition join (lines : Lines) (orgId queueId callId : string) : Lines * Z :=
  let key := keyOf orgId queueId in
  let '(lines, line) := lineFor lines key in
  let line := if includes line callId then line else line ++ [callId] in
  (<[key := line]> lines,
   match indexOf line callId with Some i => Z.of_nat i + 1 | None => 0 end)%Z.

Definition positionOf (lines : Lines) (orgId queueId callId : string) : Lines * Z :=
  let '(lines, line) := lineFor lines (keyOf orgId queueId) in
  (lines, match indexOf line callId with Some i => Z.of_nat i + 1 | None => 1 end)%Z.

Definition leave (lines : Lines) (orgId queueId callId : string) : Lines :=
  let key := keyOf orgId queueId in
  match lines !! key with
  | None => lines
  | Some line =>
      let line :=
        match indexOf line callId with
        | Some i => take i line ++ drop (S i) line
        | None => line
        end in
      if length line =? 0 then delete key lines else <[key := line]> lines
  end.

(** [QueueCursors] *)
Abbreviation Cursors := (gmap string string).

Definition lastAgentFor (cursors : Cursors) (orgId queueId : string) : option string :=
  cursors !! keyOf orgId queueId.

Definition remember (cursors : Cursors) (orgId queueId agent : string) : Cursors :=
  <[keyOf orgId queueId := agent]> cursors.

(** ** The orders *)
Definition tier_le (x y : QueueCandidate) : Prop :=
  (level (agent x) < level (agent y))%Z ∨
  (level (agent x) = level (agent y) ∧
   ((position (agent x) < position (agent y))%Z ∨
    (position (agent x) = position (agent y) ∧
     (String.ltb (agentId (agent x)) (agentId (agent y)) = true ∨
      agentId (agent x) = agentId (agent y))))).

Definition idle_le (x y : QueueCandidate) : Prop :=
  (idleMs y < idleMs x)%Z ∨ (idleMs x = idleMs y ∧ tier_le x y).

#[global] Instance tier_le_trans : Transitive tier_le.
Proof.
  intros x y z Hxy Hyz. unfold tier_le in *.
  destruct Hxy as [?|[? [?|[? Hxy]]]], Hyz as [?|[? [?|[? Hyz]]]]; try (left; lia);
    right; (split; [lia|]); try (left; lia); right; (split; [lia|]).
  destruct Hxy as [Hxy|Hxy], Hyz as [Hyz|Hyz].
  - left. by eapply ltb_trans.
  - left. by rewrite <- Hyz.
  - left. by rewrite Hxy.
  - right. congruence.
Qed.

#[global] Instance idle_le_trans : Transitive idle_le.
Proof.
  intros x y z [Hxy|[Hxy Txy]] [Hyz|[Hyz Tyz]]; unfold idle_le; try (left; lia).
  right. split; [lia|]. by etrans.
Qed.

Lemma tier_le_antisym_id x y :
  tier_le x y → tier_le y x → agentId (agent x) = agentId (agent y).
Proof.
  unfold tier_le. intros Hxy Hyx.
  destruct Hxy as [?|[? [?|[? [Hxy|Hxy]]]]], Hyx as [?|[? [?|[? [Hyx|Hyx]]]]]; try lia; auto.
  exfalso. pose proof (ltb_trans _ _ _ Hxy Hyx) as Hl. by rewrite ltb_irrefl in Hl.
Qed.

Lemma compareByTier_order x y :
  agentId (agent x) ≠ agentId (agent y) →
  ((compareByTier x y <= 0)%Z → tier_le x y) ∧ ((0 < compareByTier x y)%Z → tier_le y x).
Proof.
  intros Hne. unfold compareByTier, tier_le.
  destruct (Z.eqb_spec (level (agent x)) (level (agent y))); simpl; [|lia].
  destruct (Z.eqb_spec (position (agent x)) (position (agent y))); simpl; [|lia].
  destruct (String.ltb _ _) eqn:E; [split; [|lia]; auto 6|].
  split; [lia|]. intros _. right. split; [lia|]. right. split; [lia|]. left. by apply ltb_total.
Qed.

Lemma compareByIdle_order x y :
  agentId (agent x) ≠ agentId (agent y) →
  ((compareByIdle x y <= 0)%Z → idle_le x y) ∧ ((0 < compareByIdle x y)%Z → idle_le y x).
Proof.
  intros Hne. unfold compareByIdle, idle_le.
  destruct (Z.eqb_spec (idleMs x) (idleMs y)) as [Hi|Hi]; simpl; [|lia].
  destruct (compareByTier_order x y Hne). split; intros; right; split; auto; lia.
Qed.

(** ** Candidates have distinct agents when the roster has *)
Definition distinct_agents (cs : list QueueCandidate) : Prop := NoDup ((agentId ∘ agent) <$> cs).

Lemma distinct_agents_NoDup cs : distinct_agents cs → NoDup cs.
Proof. apply NoDup_fmap_1. Qed.

Lemma distinct_agents_inj cs x y :
  distinct_agents cs → x ∈ cs → y ∈ cs → agentId (agent x) = agentId (agent y) → x = y.
Proof. intros Hd Hx Hy He. by eapply (NoDup_fmap_inj_on (agentId ∘ agent)). Qed.

Lemma sorts_by_tier cs : distinct_agents cs → sorts_by tier_le compareByTier cs.
Proof.
  intros Hd x y Hx Hy Hne. apply compareByTier_order. intros He. by destruct (Hne (distinct_agents_inj _ _ _ Hd Hx Hy He)).
Qed.

Lemma sorts_by_idle cs : distinct_agents cs → sorts_by idle_le compareByIdle cs.
Proof.
  intros Hd x y Hx Hy Hne. apply compareByIdle_order. intros He. by destruct (Hne (distinct_agents_inj _ _ _ Hd Hx Hy He)).
Qed.

Lemma tier_sorted cs : distinct_agents cs → StronglySorted tier_le (js_sort compareByTier cs).
Proof. intros Hd. apply js_sort_by; [apply _|by apply distinct_agents_NoDup|by apply sorts_by_tier]. Qed.

Lemma idle_sorted cs : distinct_agents cs → StronglySorted idle_le (js_sort compareByIdle cs).
Proof. intros Hd. apply js_sort_by; [apply _|by apply distinct_agents_NoDup|by apply sorts_by_idle]. Qed.

Lemma tier_sort_unique cs1 cs2 :
  distinct_agents cs1 → cs1 ≡ₚ cs2 → js_sort compareByTier cs1 = js_sort compareByTier cs2.
Proof.
  intros Hd. apply (js_sort_by_unique tier_le);
    [by apply distinct_agents_NoDup|by apply sorts_by_tier|].
  intros x y Hx Hy Hxy Hyx. eapply distinct_agents_inj; eauto using tier_le_antisym_id.
Qed.

Lemma idle_sort_unique cs1 cs2 :
  distinct_agents cs1 → cs1 ≡ₚ cs2 → js_sort compareByIdle cs1 = js_sort compareByIdle cs2.
Proof.
  intros Hd. apply (js_sort_by_unique idle_le);
    [by apply distinct_agents_NoDup|by apply sorts_by_idle|].
  intros x y Hx Hy [|[? Hxy]] [|[? Hyx]]; try lia.
  eapply distinct_agents_inj; eauto using tier_le_antisym_id.
Qed.

(** ** Rotation and shuffling only reorder *)
Lemma rotateAfter_split cs cur :
  ∃ s, s <= length cs ∧ rotateAfter cs cur = drop s cs ++ take s cs.
Proof.
  unfold rotateAfter. destruct cur as [id|]; [|exists 0; split; [lia|]; by rewrite drop_0, take_0, app_nil_r].
  destruct (Nat.eqb_spec (length cs) 0) as [|Hl];
    [exists 0; split; [lia|]; by rewrite drop_0, take_0, app_nil_r|].
  destruct (index_of cs id) as [i|];
    [|exists 0; split; [lia|]; by rewrite drop_0, take_0, app_nil_r].
  exists ((i + 1) mod length cs). split; [|done].
  pose proof (Nat.mod_upper_bound (i + 1) (length cs)). lia.
Qed.

Lemma rotate_Permutation {A} s (l : list A) : drop s l ++ take s l ≡ₚ l.
Proof. rewrite (Permutation_app_comm). by rewrite take_drop. Qed.

Lemma rotateAfter_Permutation cs cur : rotateAfter cs cur ≡ₚ cs.
Proof. destruct (rotateAfter_split cs cur) as (s & _ & ->). apply rotate_Permutation. Qed.

Lemma swap_at_Permutation i j l : swap_at i j l ≡ₚ l.
Proof.
  unfold swap_at. destruct (l !! i) as [x|] eqn:Hi; [|done]. destruct (l !! j) as [y|] eqn:Hj; [|done].
  by apply Permutation_insert_swap.
Qed.

Lemma shuffled_Permutation l random : shuffled l random ≡ₚ l.
Proof.
  unfold shuffled. generalize (length l - 1). intros n. revert l.
  induction n as [|n IH]; intros l; simpl; [done|]. by rewrite IH, swap_at_Permutation.
Qed.

(** A draw in [0, 1) picks an index that exists. *)
Lemma pick_in_range draw n : (0 <= draw < RANDOM_ONE)%Z → 0 < n → pick draw n < n.
Proof.
  intros Hd Hn. unfold pick. assert (0 < RANDOM_ONE)%Z as H0 by done.
  assert (draw * Z.of_nat n / RANDOM_ONE < Z.of_nat n)%Z.
  { apply Z.div_lt_upper_bound; [lia|]. apply Z.mul_lt_mono_pos_r; lia. }
  assert (0 <= draw * Z.of_nat n / RANDOM_ONE)%Z by (apply Z.div_pos; lia). lia.
Qed.

(** ** The selection *)
Section SelectionFacts.
Context (dateParse : string → option Z).

Lemma candidate_of_Some states open excluded now isEligible a c :
  candidate_of dateParse states open excluded now isEligible a = Some c ↔
  agent c = a ∧ enabled a = true ∧ level a ∈ open ∧ agentId a ∉ default [] excluded ∧
  states !! agentId a = Some (cand_state c) ∧ isEligible (Some (cand_state c)) now = true ∧
  idleMs c = idleMsOf dateParse (cand_state c) now.
Proof.
  unfold candidate_of. split.
  - intros Hc. destruct (enabled a) eqn:He; [|done].
    destruct (includes open (level a)) eqn:Ho; [|done]. simpl in Hc.
    destruct (match excluded with Some ids => includes ids (agentId a) | None => false end) eqn:Hx;
      [done|].
    destruct (states !! agentId a) as [st|] eqn:Hs; [|done].
    destruct (isEligible (Some st) now) eqn:Hel; [|done]. simplify_eq/=. bool_simpl.
    split_and!; auto. destruct excluded; simpl in *; bool_simpl; [done|]. by apply not_elem_of_nil.
  - intros (Ha & He & Ho & Hx & Hs & Hel & Hi). apply includes_spec in Ho. rewrite He, Ho. simpl.
    replace (match excluded with Some ids => includes ids (agentId a) | None => false end) with false
      by (destruct excluded; simpl in *; [symmetry; by apply includes_false|done]).
    rewrite Hs, Hel. simpl. destruct c; simpl in *. by subst.
Qed.

Lemma elem_of_eligible m states open excluded now isEligible c :
  c ∈ eligibleCandidates dateParse m states open excluded now isEligible ↔
  agent c ∈ agents m ∧ enabled (agent c) = true ∧ level (agent c) ∈ open ∧
  agentId (agent c) ∉ default [] excluded ∧
  states !! agentId (agent c) = Some (cand_state c) ∧ isEligible (Some (cand_state c)) now = true ∧
  idleMs c = idleMsOf dateParse (cand_state c) now.
Proof.
  unfold eligibleCandidates. rewrite list_elem_of_omap. setoid_rewrite candidate_of_Some.
  naive_solver.
Qed.

Lemma eligible_distinct m states open excluded now isEligible :
  NoDup (agentId <$> agents m) →
  distinct_agents (eligibleCandidates dateParse m states open excluded now isEligible).
Proof.
  unfold distinct_agents, eligibleCandidates. induction (agents m) as [|a l IH]; simpl.
  { constructor. }
  intros [Ha Hnd]%NoDup_cons. destruct (candidate_of _ _ _ _ _ _ a) as [c|] eqn:Hc; simpl; [|auto].
  apply candidate_of_Some in Hc as [Hc _]. constructor; [|auto].
  intros (d & Hd & Hin)%list_elem_of_fmap. simpl in Hd. destruct Ha.
  apply list_elem_of_omap in Hin as (b & Hb & Hbd). apply candidate_of_Some in Hbd as [Hbd _].
  rewrite Hc in Hd. rewrite Hd, Hbd. by apply list_elem_of_fmap_2.
Qed.

Lemma orderFor_Permutation input random cs : orderFor input random cs ≡ₚ cs.
Proof.
  unfold orderFor. destruct (strategy input);
    rewrite ?rotateAfter_Permutation, ?shuffled_Permutation; apply js_sort_Permutation.
Qed.
End SelectionFacts.

(** ** Tier levels *)
Lemma existsb_Permutation {A} (p : A → bool) l1 l2 : l1 ≡ₚ l2 → existsb p l1 = existsb p l2.
Proof. induction 1; simpl; try congruence. destruct (p x), (p y); done. Qed.

Lemma all_levels_spec m :
  NoDup (all_levels m) ∧ StronglySorted Z.le (all_levels m) ∧
  ∀ z, z ∈ all_levels m ↔ ∃ a, a ∈ agents m ∧ level a = z.
Proof.
  unfold all_levels. destruct (js_set_spec (level <$> agents m)) as [Hnd Hel]. split_and!.
  - by rewrite js_sort_Permutation.
  - apply js_sort_by; [apply _|done|]. intros x y _ _ _. split; lia.
  - intros z. rewrite elem_of_js_sort, Hel, list_elem_of_fmap. naive_solver.
Qed.

Lemma all_levels_Permutation m1 m2 : agents m1 ≡ₚ agents m2 → all_levels m1 = all_levels m2.
Proof.
  intros Hp. destruct (all_levels_spec m1) as (Hn1 & Hs1 & He1), (all_levels_spec m2) as (Hn2 & Hs2 & He2).
  apply (StronglySorted_unique Z.le); [done|done|]. apply NoDup_Permutation; [done|done|].
  intros z. rewrite He1, He2. by setoid_rewrite Hp.
Qed.

Lemma open_staffed_Permutation fuel l1 l2 levels staffing opened :
  l1 ≡ₚ l2 → open_staffed fuel l1 levels staffing opened = open_staffed fuel l2 levels staffing opened.
Proof.
  intros Hp. revert opened. induction fuel as [|fuel IH]; intros opened; simpl; [done|].
  by rewrite (existsb_Permutation _ _ _ Hp), IH.
Qed.

Definition with_agents (m : QueueMembership) (l : list QueueMembershipAgent) : QueueMembership :=
  {| member_orgId := member_orgId m; member_queueId := member_queueId m;
     member_name := member_name m; wrapUpSeconds := wrapUpSeconds m;
     tierRulesApply := tierRulesApply m; tierRuleWaitSeconds := tierRuleWaitSeconds m;
     tierRuleNoAgentNoWait := tierRuleNoAgentNoWait m; agents := l; updatedAt := updatedAt m;
     revision := revision m |}.

Lemma openLevels_Permutation m l waited staffing :
  agents m ≡ₚ l → openLevels (with_agents m l) waited staffing = openLevels m waited staffing.
Proof.
  intros Hp. unfold openLevels. rewrite (all_levels_Permutation (with_agents m l) m) by (by simpl).
  simpl. by rewrite (open_staffed_Permutation _ l (agents m)).
Qed.

(** Some agent of the first [n] levels staffs the queue. *)
Definition staffed_at (m : QueueMembership) (staffing : list string) (n : Z) : Prop :=
  ∃ a, a ∈ agents m ∧ level a ∈ slice_to n (all_levels m) ∧ agentId a ∈ staffing.

Lemma open_staffed_spec m staffing fuel opened :
  Z.to_nat (Z.of_nat (length (all_levels m)) - opened) <= fuel →
  let r := open_staffed fuel (agents m) (all_levels m) staffing opened in
  (opened <= r)%Z ∧
  ((Z.of_nat (length (all_levels m)) <= r)%Z ∨ staffed_at m staffing r) ∧
  (∀ n, (opened <= n < r)%Z → (n < Z.of_nat (length (all_levels m)))%Z ∧ ¬ staffed_at m staffing n) ∧
  ((opened <= Z.of_nat (length (all_levels m)))%Z → (r <= Z.of_nat (length (all_levels m)))%Z).
Proof.
  revert opened. induction fuel as [|fuel IH]; intros opened Hf; simpl.
  { split_and!; [lia|left; lia|lia|lia]. }
  destruct (Z.ltb_spec opened (Z.of_nat (length (all_levels m)))) as [Hlt|Hge];
    [|split_and!; [lia|left; lia|lia|lia]].
  destruct (existsb _ (agents m)) eqn:Hex.
  - apply existsb_exists in Hex as (a & Ha & Hb). bool_simpl. apply list_elem_of_In in Ha.
    split_and!; [lia|right; by exists a|lia|lia].
  - destruct (IH (opened + 1)%Z) as (H1 & H2 & H3 & H4); [lia|].
    split_and!; [lia|done| |intros _; apply H4; lia].
    intros n Hn. destruct (decide (n = opened)) as [->|]; [|apply H3; lia].
    split; [done|]. intros (a & Ha & Hl & Hs). apply not_true_iff_false in Hex. destruct Hex.
    apply existsb_exists. exists a. split; [by apply list_elem_of_In|].
    apply includes_spec in Hl, Hs. by rewrite Hl, Hs.
Qed.

Lemma all_levels_nil m : all_levels m = [] ↔ agents m = [].
Proof.
  destruct (all_levels_spec m) as (_ & _ & Hel). split.
  - intros El. destruct (agents m) as [|a l] eqn:E; [done|]. exfalso.
    apply (not_elem_of_nil (level a)). rewrite <- El. apply Hel. exists a.
    split; [apply list_elem_of_here|done].
  - intros Ha. destruct (all_levels m) as [|z l] eqn:El; [done|]. exfalso.
    destruct (proj1 (Hel z) ltac:(apply list_elem_of_here)) as (a & Hin & _).
    rewrite Ha in Hin. by apply elem_of_nil in Hin.
Qed.

(** How many levels are open. *)
Definition opened_of (m : QueueMembership) (waited : Z) (staffing : list string) : Z :=
  let count := Z.of_nat (length (all_levels m)) in
  let opened := Z.min count (1 + waited / (tierRuleWaitSeconds m * MILLIS_PER_SECOND)) in
  if tierRuleNoAgentNoWait m
  then open_staffed (Z.to_nat (count - opened)) (agents m) (all_levels m) staffing opened
  else opened.

Lemma opened_mono m w1 w2 staffing :
  (0 < tierRuleWaitSeconds m)%Z → (w1 <= w2)%Z →
  (opened_of m w1 staffing <= opened_of m w2 staffing)%Z.
Proof.
  intros Hs Hw. unfold opened_of.
  set (count := Z.of_nat (length (all_levels m))).
  set (d := (tierRuleWaitSeconds m * MILLIS_PER_SECOND)%Z).
  assert (0 < d)%Z by (unfold d, MILLIS_PER_SECOND; lia).
  assert (w1 / d <= w2 / d)%Z by (by apply Z.div_le_mono).
  destruct (tierRuleNoAgentNoWait m); [|lia].
  destruct (open_staffed_spec m staffing (Z.to_nat (count - Z.min count (1 + w1 / d)))
              (Z.min count (1 + w1 / d)) ltac:(done)) as (A1 & A2 & A3 & _).
  destruct (open_staffed_spec m staffing (Z.to_nat (count - Z.min count (1 + w2 / d)))
              (Z.min count (1 + w2 / d)) ltac:(done)) as (B1 & B2 & _).
  match goal with |- (?r1 <= ?r2)%Z => destruct (Z.le_gt_cases r1 r2) as [|Hgt]; [done|] end.
  edestruct A3 as [Hc Hn]; [split; [|exact Hgt]; lia|]. destruct B2; [lia|done].
Qed.

Lemma opened_bounds m waited staffing :
  (0 <= waited)%Z → (0 < tierRuleWaitSeconds m)%Z → agents m ≠ [] →
  (1 <= opened_of m waited staffing <= Z.of_nat (length (all_levels m)))%Z.
Proof.
  intros Hw Ht Hne. assert (1 <= Z.of_nat (length (all_levels m)))%Z.
  { rewrite <- all_levels_nil in Hne. destruct (all_levels m); simpl; [done|lia]. }
  unfold opened_of. set (d := (tierRuleWaitSeconds m * MILLIS_PER_SECOND)%Z).
  assert (0 <= waited / d)%Z by (apply Z.div_pos; unfold d, MILLIS_PER_SECOND; lia).
  destruct (tierRuleNoAgentNoWait m); [|lia].
  match goal with |- context [open_staffed ?f _ _ _ ?o] =>
    destruct (open_staffed_spec m staffing f o ltac:(done)) as (A1 & _ & _ & A4) end.
  split; [lia|]. apply A4. lia.
Qed.

Lemma slice_to_prefix {A} n1 n2 (l : list A) :
  (0 <= n1 <= n2)%Z → slice_to n1 l `prefix_of` slice_to n2 l.
Proof.
  intros Hn. unfold slice_to. destruct (Z.ltb_spec n1 0), (Z.ltb_spec n2 0); try lia.
  exists (drop (Z.to_nat n1) (take (Z.to_nat n2) l)).
  rewrite <- (take_drop (Z.to_nat n1) (take (Z.to_nat n2) l)) at 1.
  rewrite take_take. by replace (Z.to_nat n1 `min` Z.to_nat n2) with (Z.to_nat n1) by lia.
Qed.

(** Tier rules open levels from the lowest, one per configured wait: the
    open levels are a first part of the roster's levels in ascending order, never
    empty for a roster with agents, and a caller who waits longer keeps every
    level already open; with rules off every level is open; and when a level
    nobody staffs must not hold the caller, some open level has a staffing agent
    or all levels are open. *)
Theorem openLevels_spec (m : QueueMembership) (waited1 waited2 : Z) (staffing : list string) :
  (0 <= waited1 <= waited2)%Z → (0 <= tierRuleWaitSeconds m)%Z →
  let open1 := openLevels m waited1 staffing in
  StronglySorted Z.lt (all_levels m) ∧ open1 `prefix_of` all_levels m ∧
  (agents m ≠ [] → open1 ≠ []) ∧
  open1 `prefix_of` openLevels m waited2 staffing ∧
  (tierRulesApply m = false → open1 = all_levels m) ∧
  (tierRuleNoAgentNoWait m = true → agents m ≠ [] →
     open1 = all_levels m ∨
     ∃ a, a ∈ agents m ∧ level a ∈ open1 ∧ agentId a ∈ staffing).
Proof.
  intros Hw Ht open1. subst open1.
  destruct (all_levels_spec m) as (Hnd & Hs & Hel).
  split.
  { clear -Hnd Hs. induction Hs as [|z l Hs IH Hz]; [constructor|].
    apply NoDup_cons in Hnd as [Hz' Hnd]. constructor; [auto|].
    rewrite Forall_forall in *. intros y Hy. specialize (Hz y Hy).
    destruct (decide (z = y)) as [->|]; [done|lia]. }
  unfold openLevels.
  destruct (Z.eqb_spec (Z.of_nat (length (all_levels m))) 0) as [H0|H0].
  { destruct (all_levels m) eqn:El; [|done]. apply all_levels_nil in El.
    split_and!; try done; by exists []. }
  assert (agents m ≠ []) as Hne.
  { rewrite <- all_levels_nil. intros El. by rewrite El in H0. }
  destruct (negb (tierRulesApply m) || _) eqn:Hrules.
  { split_and!; auto; try done; by destruct (all_levels m). }
  apply orb_false_iff in Hrules as [Hr1 Hr2]. apply negb_false_iff in Hr1. apply Z.eqb_neq in Hr2.
  fold (opened_of m waited1 staffing). fold (opened_of m waited2 staffing).
  pose proof (opened_bounds m waited1 staffing ltac:(lia) ltac:(lia) Hne) as Hb1.
  pose proof (opened_mono m waited1 waited2 staffing ltac:(lia) ltac:(lia)) as Hm.
  split_and!.
  - unfold slice_to. case_match; [lia|]. apply prefix_take.
  - intros _ Hnil. apply (f_equal length) in Hnil. unfold slice_to in Hnil.
    rewrite length_take in Hnil. simpl in Hnil. case_match; lia.
  - apply slice_to_prefix. lia.
  - congruence.
  - intros Hnw _. unfold opened_of in *. rewrite Hnw in *.
    match goal with |- context [open_staffed ?f _ _ _ ?o] =>
      destruct (open_staffed_spec m staffing f o ltac:(done)) as (A1 & [A2|A2] & _ & A4) end;
      [left|right; exact A2].
    unfold slice_to. case_match; [lia|]. apply take_ge. lia.
Qed.

(** ** Rotation *)
Lemma index_of_lookup cs id i :
  index_of cs id = Some i → ∃ c, cs !! i = Some c ∧ agentId (agent c) = id.
Proof.
  revert i. induction cs as [|c cs IH]; intros i; simpl; [done|].
  case_bool_decide; [intros [= <-]; by exists c|].
  destruct (index_of cs id) as [j|]; simpl; [|done]. intros [= <-]. by apply IH.
Qed.

Lemma index_of_distinct cs i c :
  distinct_agents cs → cs !! i = Some c → index_of cs (agentId (agent c)) = Some i.
Proof.
  revert i. induction cs as [|d cs IH]; intros i Hd Hi; [done|].
  apply NoDup_cons in Hd as [Hd1 Hd2]. simpl. destruct i as [|i]; simpl in Hi.
  - simplify_eq. by rewrite bool_decide_eq_true_2.
  - rewrite bool_decide_eq_false_2; [by rewrite (IH i)|].
    intros He. destruct Hd1. simpl. rewrite He.
    apply (list_elem_of_fmap_2 (agentId ∘ agent)). by eapply list_elem_of_lookup_2.
Qed.

Definition rotate {A} (s : nat) (l : list A) : list A := drop s l ++ take s l.

(** Rotating one further moves the head to the end. *)
Lemma rotate_next {A} s (l : list A) x :
  l !! s = Some x →
  rotate s l = x :: drop (S s) l ++ take s l ∧
  rotate ((s + 1) mod length l) l = drop (S s) l ++ take s l ++ [x].
Proof.
  intros Hs. pose proof (lookup_lt_Some _ _ _ Hs) as Hlt. unfold rotate. split.
  { by rewrite (drop_S l x s Hs). }
  destruct (decide (s + 1 = length l)) as [He|Hne].
  - rewrite He, Nat.Div0.mod_same, drop_0, take_0, app_nil_r, (drop_ge l (S s)) by lia.
    rewrite <- (take_drop s l) at 1. simpl. by rewrite (drop_S l x s Hs), (drop_ge l (S s)) by lia.
  - rewrite Nat.mod_small by lia. replace (s + 1) with (S s) by lia.
    by rewrite (take_S_r l s x Hs).
Qed.

Lemma rotateAfter_head cs c s :
  distinct_agents cs → cs !! s = Some c →
  rotateAfter cs (Some (agentId (agent c))) = rotate ((s + 1) mod length cs) cs.
Proof.
  intros Hd Hs. unfold rotateAfter. rewrite (index_of_distinct cs s c Hd Hs).
  destruct (Nat.eqb_spec (length cs) 0) as [H0|]; [|done].
  apply lookup_lt_Some in Hs. lia.
Qed.

(** The head of the rotation, remembered, [n] times over. *)
Fixpoint turns (n : nat) (cs : list QueueCandidate) (cur : option string) : list QueueCandidate :=
  match n with
  | O => []
  | S n =>
      match rotateAfter cs cur with
      | [] => []
      | c :: _ => c :: turns n cs (Some (agentId (agent c)))
      end
  end.

Lemma turns_take n cs s cur :
  distinct_agents cs → s < length cs → n <= length cs → rotateAfter cs cur = rotate s cs →
  turns n cs cur = take n (rotate s cs).
Proof.
  intros Hd. revert s cur. induction n as [|n IH]; intros s cur Hs Hn Hr; [done|].
  destruct (lookup_lt_is_Some_2 cs s Hs) as [c Hc].
  destruct (rotate_next s cs c Hc) as [H1 H2]. cbn [turns]. rewrite Hr, H1. simpl. f_equal.
  rewrite (IH ((s + 1) mod length cs)); [|apply Nat.mod_upper_bound; lia|lia|by apply rotateAfter_head].
  rewrite H2, app_assoc, take_app_le; [done|].
  rewrite length_app, length_drop, length_take. lia.
Qed.

Definition with_cursor (input : SelectionInput) (cur : option string) : SelectionInput :=
  {| strategy := strategy input; membership := membership input; states := states input;
     waitedMs := waitedMs input; now := now input; excludedAgentIds := excludedAgentIds input;
     roundRobinAfterAgentId := cur |}.

Definition with_roster (input : SelectionInput) (l : list QueueMembershipAgent) : SelectionInput :=
  {| strategy := strategy input; membership := with_agents (membership input) l;
     states := states input; waitedMs := waitedMs input; now := now input;
     excludedAgentIds := excludedAgentIds input;
     roundRobinAfterAgentId := roundRobinAfterAgentId input |}.

Section Theorems.
Context (dateParse : string → option Z).

(** [n] selections one after the other, each remembering the agent it chose. *)
Fixpoint consecutive (n : nat) (input : SelectionInput) (random : nat → Z) : list QueueCandidate :=
  match n with
  | O => []
  | S n =>
      match ordered (selectAgents dateParse input random) with
      | [] => []
      | c :: _ => c :: consecutive n (with_cursor input (Some (agentId (agent c)))) random
      end
  end.

(** C32. A caller reaches exactly the agents who can be rung, in the strategy's
    order: an agent is offered, once, precisely when the seat is enabled, its level
    is open, the caller has not just tried it and its live state is eligible;
    longest-idle orders by idle time, the tiered strategies by level, position and
    id, round-robin rotates that order so that the agent chosen last comes last,
    and only ring-all rings everybody. *)
Theorem selectAgents_spec (input : SelectionInput) (random : nat → Z) :
  NoDup (agentId <$> agents (membership input)) →
  (∀ i, 0 <= random i < RANDOM_ONE)%Z →
  let sel := selectAgents dateParse input random in
  let open := openLevels (membership input) (waitedMs input) (staffing_ids (states input)) in
  distinct_agents (ordered sel) ∧
  (∀ c, c ∈ ordered sel ↔
     agent c ∈ agents (membership input) ∧ enabled (agent c) = true ∧ level (agent c) ∈ open ∧
     agentId (agent c) ∉ default [] (excludedAgentIds input) ∧
     states input !! agentId (agent c) = Some (cand_state c) ∧
     isEligibleForDistribution dateParse (Some (cand_state c)) (now input) = true ∧
     idleMs c = idleMsOf dateParse (cand_state c) (now input)) ∧
  (fanOut sel = fan_all ↔ strategy input = Plan.ring_all) ∧
  match strategy input with
  | Plan.longest_idle => StronglySorted idle_le (ordered sel)
  | Plan.ring_all | Plan.top_down | Plan.queue_sequential => StronglySorted tier_le (ordered sel)
  | Plan.round_robin =>
      ∃ l1 l2, ordered sel = l2 ++ l1 ∧ StronglySorted tier_le (l1 ++ l2) ∧
        ∀ c, c ∈ ordered sel → roundRobinAfterAgentId input = Some (agentId (agent c)) →
             last (ordered sel) = Some c
  | Plan.random => True
  end.
Proof.
  intros Hnd Hr sel open. subst sel open. unfold selectAgents; simpl.
  set (cs := eligibleCandidates dateParse _ _ _ _ _ _).
  assert (distinct_agents cs) as Hd by (by apply eligible_distinct).
  split_and!.
  - unfold distinct_agents. by rewrite orderFor_Permutation.
  - intros c. rewrite orderFor_Permutation. unfold cs. by rewrite elem_of_eligible.
  - by destruct (strategy input).
  - unfold orderFor. destruct (strategy input); auto using tier_sorted, idle_sorted.
    set (l := js_sort compareByTier cs). set (cur := roundRobinAfterAgentId input).
    destruct (rotateAfter_split l cur) as (s & Hs & Hrot).
    exists (take s l), (drop s l). rewrite Hrot, take_drop. split_and!; [done|by apply tier_sorted|].
    intros c Hc Hcur. rewrite <- Hrot, Hcur.
    assert (c ∈ l) as Hl by (by rewrite <- (take_drop s l), Permutation_app_comm).
    apply list_elem_of_lookup in Hl as [i Hi].
    rewrite (rotateAfter_head l c i) by (unfold distinct_agents, l; by rewrite ?js_sort_Permutation).
    destruct (rotate_next i l c Hi) as [_ ->]. by rewrite app_assoc, last_snoc.
Qed.

(** Every engine instance rings the same agent: the selection does not
    depend on the order in which the roster lists its agents. *)
Theorem selectAgents_roster_order (input : SelectionInput) (l : list QueueMembershipAgent)
    (random : nat → Z) :
  NoDup (agentId <$> agents (membership input)) → agents (membership input) ≡ₚ l →
  selectAgents dateParse (with_roster input l) random = selectAgents dateParse input random.
Proof.
  intros Hnd Hp. unfold selectAgents; simpl. rewrite (openLevels_Permutation _ _ _ _ Hp).
  set (open := openLevels _ _ _).
  assert (∀ cs1 cs2, distinct_agents cs1 → cs1 ≡ₚ cs2 →
            orderFor input random cs1 = orderFor input random cs2) as Hord.
  { intros cs1 cs2 Hd Hcs. unfold orderFor.
    by rewrite (tier_sort_unique cs1 cs2 Hd Hcs), (idle_sort_unique cs1 cs2 Hd Hcs). }
  f_equal. unfold orderFor in *; simpl. apply Hord.
  - apply eligible_distinct. simpl. by rewrite <- Hp.
  - unfold eligibleCandidates. simpl. by rewrite Hp.
Qed.

(** Round-robin is fair: while the same agents are reachable, as many
    consecutive selections as there are agents, each remembering the one it chose,
    choose every agent exactly once, wherever the cursor started. *)
Theorem round_robin_fair (input : SelectionInput) (random : nat → Z) :
  NoDup (agentId <$> agents (membership input)) → strategy input = Plan.round_robin →
  consecutive (length (ordered (selectAgents dateParse input random))) input random ≡ₚ
  ordered (selectAgents dateParse input random).
Proof.
  intros Hnd Hst.
  set (cs := js_sort compareByTier
    (eligibleCandidates dateParse (membership input) (states input)
      (openLevels (membership input) (waitedMs input) (staffing_ids (states input)))
      (excludedAgentIds input) (now input) (isEligibleForDistribution dateParse))).
  assert (∀ cur, ordered (selectAgents dateParse (with_cursor input cur) random) =
                 rotateAfter cs cur) as Hch.
  { intros cur. unfold selectAgents, orderFor; simpl. by rewrite Hst. }
  assert (distinct_agents cs) as Hd.
  { unfold distinct_agents, cs. rewrite js_sort_Permutation. by apply eligible_distinct. }
  assert (∀ n cur, consecutive n (with_cursor input cur) random = turns n cs cur) as Hturns.
  { intros n. induction n as [|n IH]; intros cur; [done|]. cbn [consecutive turns].
    rewrite Hch. destruct (rotateAfter cs cur); [done|]. by rewrite <- IH. }
  set (cur := roundRobinAfterAgentId input).
  assert (input = with_cursor input cur) as Heq by (by destruct input).
  rewrite Heq.
  rewrite Hturns, Hch, (Permutation_length (rotateAfter_Permutation cs cur)).
  etrans; [|symmetry; apply rotateAfter_Permutation].
  destruct cs as [|c cs'] eqn:Ecs; [done|]. rewrite <- Ecs in *.
  assert (0 < length cs) as Hpos by (rewrite Ecs; simpl; lia).
  destruct (rotateAfter_split cs cur) as (s & Hs & Hrot).
  destruct (decide (s = length cs)) as [->|Hne].
  - rewrite (turns_take _ cs 0); [|done|done|lia|].
    + rewrite take_ge; [apply rotate_Permutation|]. unfold rotate.
      rewrite length_app, length_drop, length_take. lia.
    + rewrite Hrot. unfold rotate. by rewrite drop_ge, take_ge, drop_0, take_0, app_nil_r by lia.
  - rewrite (turns_take _ cs s); [|done|lia|lia|done].
    rewrite take_ge; [apply rotate_Permutation|]. unfold rotate.
    rewrite length_app, length_drop, length_take. lia.
Qed.
End Theorems.

(** ** A place in line *)
Inductive line_op := LineJoin (orgId queueId callId : string) | LineLeave (orgId queueId callId : string).

Definition line_apply (lines : Lines) (op : line_op) : Lines :=
  match op with
  | LineJoin o q c => (join lines o q c).1
  | LineLeave o q c => leave lines o q c
  end.

Definition place (lines : Lines) (key callId : string) : option nat :=
  lines !! key ≫= λ line, indexOf line callId.

Lemma indexOf_elem line c i : indexOf line c = Some i → c ∈ line ∧ i < length line.
Proof.
  revert i. induction line as [|d line IH]; intros i; simpl; [done|].
  case_bool_decide; [intros [= <-]; subst; split; [apply list_elem_of_here|lia]|].
  destruct (indexOf line c) as [j|]; simpl; [|done]. intros [= <-].
  destruct (IH j eq_refl). split; [by apply list_elem_of_further|lia].
Qed.

Lemma indexOf_app line c d i : indexOf line c = Some i → indexOf (line ++ [d]) c = Some i.
Proof.
  revert i. induction line as [|x line IH]; intros i; simpl; [done|].
  case_bool_decide; [done|]. destruct (indexOf line c) as [j|]; simpl; [|done].
  intros [= <-]. by rewrite (IH j).
Qed.

(** Removing another caller never moves this one back. *)
Lemma indexOf_remove line c d i k :
  c ≠ d → indexOf line c = Some i → indexOf line d = Some k →
  ∃ j, j <= i ∧ indexOf (take k line ++ drop (S k) line) c = Some j.
Proof.
  intros Hne. revert i k. induction line as [|x line IH]; intros i k; simpl; [done|].
  case_bool_decide as H1; case_bool_decide as H2; subst; simpl; try done.
  - intros [= <-]. destruct (indexOf line d) as [k'|]; simpl; [|done]. intros [= <-]. simpl.
    exists 0. split; [lia|]. by rewrite bool_decide_eq_true_2.
  - destruct (indexOf line c) as [i'|] eqn:Hc; simpl; [|done]. intros [= <-] [= <-]. simpl.
    exists i'. split; [lia|]. by rewrite drop_0.
  - destruct (indexOf line c) as [i'|]; simpl; [|done].
    destruct (indexOf line d) as [k'|]; simpl; [|done]. intros [= <-] [= <-].
    destruct (IH i' k' eq_refl eq_refl) as (j & Hj & Hi). exists (S j). split; [lia|].
    simpl. rewrite bool_decide_eq_false_2 by done. by rewrite Hi.
Qed.

Lemma place_apply lines op key c i :
  place lines key c = Some i →
  match op with LineLeave o q d => keyOf o q = key → d ≠ c | LineJoin _ _ _ => True end →
  ∃ j, j <= i ∧ place (line_apply lines op) key c = Some j.
Proof.
  unfold place. intros Hp Hop. destruct (lines !! key) as [line|] eqn:Hl; simpl in Hp; [|done].
  destruct op as [o q d|o q d]; simpl.
  - exists i. split; [lia|]. unfold join, lineFor. cbv zeta.
    destruct (decide (keyOf o q = key)) as [Hk|Hk].
    + rewrite Hk, Hl. cbn [fst]. rewrite lookup_insert_eq. cbn [mbind option_bind].
      destruct (includes line d); [done|]. by apply indexOf_app.
    + destruct (lines !! keyOf o q); cbn [fst]; rewrite !lookup_insert_ne by done; by rewrite Hl.
  - unfold leave. cbv zeta. destruct (decide (keyOf o q = key)) as [Hk|Hk].
    + specialize (Hop Hk). rewrite Hk, Hl.
      assert (∃ j, j <= i ∧ indexOf (match indexOf line d with
                | Some k => take k line ++ drop (S k) line | None => line end) c = Some j)
        as (j & Hj & Hc).
      { destruct (indexOf line d) as [k|] eqn:Hk'; [|by eauto].
        by apply indexOf_remove with (d := d). }
      exists j. split; [done|].
      destruct (indexOf_elem _ _ _ Hc) as [_ Hlen].
      destruct (Nat.eqb_spec (length (match indexOf line d with
        | Some k => take k line ++ drop (S k) line | None => line end)) 0); [lia|].
      by rewrite lookup_insert_eq.
    + exists i. split; [lia|]. destruct (lines !! keyOf o q); [|by rewrite Hl].
      destruct (_ =? 0); rewrite ?lookup_delete_ne, ?lookup_insert_ne by done; by rewrite Hl.
Qed.

(** A caller is never moved back in the line: whoever joins or leaves after
    them, their place only improves until they leave themselves. *)
Lemma place_never_worsens lines ops key c i :
  place lines key c = Some i →
  Forall (λ op, match op with LineLeave o q d => keyOf o q = key → d ≠ c | _ => True end) ops →
  ∃ j, j <= i ∧ place (foldl line_apply lines ops) key c = Some j.
Proof.
  revert lines i. induction ops as [|op ops IH]; intros lines i Hp Hf; simpl; [by eauto|].
  apply Forall_cons in Hf as [Hop Hf].
  destruct (place_apply lines op key c i Hp) as (j & Hj & Hp'); [by destruct op|].
  destruct (IH _ _ Hp' Hf) as (k & Hk & Hp''). exists k. split; [lia|done].
Qed.

(** ** A queue of three *)
Definition demo_agent (id : string) (lv pos : Z) : QueueMembershipAgent :=
  {| agentId := id; agent_name := id; contactKind := contact_extension; contact := id;
     agent_extensionId := None; level := lv; position := pos; agent_wrapUpSeconds := 0;
     maxNoAnswer := 3; noAnswerDelaySeconds := 10; busyDelaySeconds := 5;
     rejectDelaySeconds := 30; enabled := true |}.

Definition demo_membership : QueueMembership :=
  {| member_orgId := "org"; member_queueId := "q"; member_name := None; wrapUpSeconds := 0;
     tierRulesApply := true; tierRuleWaitSeconds := 10; tierRuleNoAgentNoWait := true;
     agents := [demo_agent "c" 2 1; demo_agent "a" 1 1; demo_agent "b" 1 1]; updatedAt := "";
     revision := None |}.

Definition demo_state (id : string) : AgentStateEntry :=
  {| entry_orgId := "org"; entry_agentId := id; status := available; since := "";
     previousStatus := None; availableAt := None; noAnswerCount := None; entry_callId := None;
     entry_legId := None; entry_queueId := None; entry_reason := None; source := None |}.

Definition demo_input (s : Plan.QueueStrategy) (cur : option string) : SelectionInput :=
  {| strategy := s; membership := demo_membership;
     states := list_to_map ((λ id, (id, demo_state id)) <$> ["a"; "b"; "c"]);
     waitedMs := 12000; now := 0; excludedAgentIds := None; roundRobinAfterAgentId := cur |}.

Lemma demo_roster_distinct s cur : NoDup (agentId <$> agents (membership (demo_input s cur))).
Proof. apply (bool_decide_unpack _). vm_compute. reflexivity. Qed.

Lemma openLevels_witness :
  openLevels demo_membership 0 ["c"] `prefix_of` all_levels demo_membership ∧
  openLevels demo_membership 0 ["c"] `prefix_of` openLevels demo_membership 12000 ["c"] ∧
  openLevels demo_membership 0 ["c"] = [1; 2]%Z.
Proof.
  destruct (openLevels_spec demo_membership 0 12000 ["c"] ltac:(lia) ltac:(simpl; lia))
    as (_ & H1 & _ & H2 & _).
  split; [exact H1|]. split; [exact H2|]. vm_compute. reflexivity.
Defined.

Lemma selectAgents_witness :
  StronglySorted tier_le (ordered (selectAgents (λ _, None) (demo_input Plan.top_down None) (λ _, 0%Z))) ∧
  (agentId ∘ agent) <$> ordered (selectAgents (λ _, None) (demo_input Plan.top_down None) (λ _, 0%Z)) =
    ["a"; "b"; "c"].
Proof.
  split; [|vm_compute; reflexivity].
  exact (proj2 (proj2 (proj2 (selectAgents_spec (λ _, None) (demo_input Plan.top_down None)
    (λ _, 0%Z) (demo_roster_distinct _ _) (λ _, conj (Z.le_refl 0) eq_refl))))).
Defined.

Lemma selectAgents_roster_witness :
  selectAgents (λ _, None)
    (with_roster (demo_input Plan.longest_idle None)
       [demo_agent "b" 1 1; demo_agent "c" 2 1; demo_agent "a" 1 1]) (λ _, 0%Z) =
  selectAgents (λ _, None) (demo_input Plan.longest_idle None) (λ _, 0%Z).
Proof.
  apply (selectAgents_roster_order (λ _, None) (demo_input Plan.longest_idle None) _ (λ _, 0%Z)).
  - apply demo_roster_distinct.
  - simpl. set (A := demo_agent "a" 1 1). set (B := demo_agent "b" 1 1). set (C := demo_agent "c" 2 1).
    etrans; [apply (Permutation_app_comm [C; A] [B])|]. apply Permutation_refl.
Defined.

Lemma round_robin_witness :
  consecutive (λ _, None) 3 (demo_input Plan.round_robin (Some "a")) (λ _, 0%Z) ≡ₚ
    ordered (selectAgents (λ _, None) (demo_input Plan.round_robin (Some "a")) (λ _, 0%Z)) ∧
  (agentId ∘ agent) <$> consecutive (λ _, None) 3 (demo_input Plan.round_robin (Some "a")) (λ _, 0%Z) =
    ["b"; "c"; "a"].
Proof.
  split; [|vm_compute; reflexivity].
  exact (round_robin_fair (λ _, None) (demo_input Plan.round_robin (Some "a")) (λ _, 0%Z)
           (demo_roster_distinct _ _) eq_refl).
Defined.
End Queue.
