(* ===== verification/QueueSession.v ===== *)
(** * One caller's stay in a queue

    [apps/engine/src/queue/queue-session.ts]. The session talks to the media, the
    roster, the agent states, the events and the lines through ports; the class
    [QueueWorld] is those ports over an arbitrary world, so that the theorems hold
    for whatever the ports answer, and a port may throw. A session is a record
    threaded through the operations, with the calls it made to the ports in
    [trace]; the answers of the calls that decide who holds an agent or a caller
    follow their call there. A retry of a release runs beside the session: the world
    says at each call which of them have finished, and a finished retry leaves
    [transitionRetries] and the map of the offer that scheduled it. *)

From S2P Require Import Prelude Machines Kv Agents Plan Queue HangupCauses.

Module QueueSession.
Import Agents Queue.

Inductive QueueDialOutcome :=
| DialAnswered (agentId mediaChannelId : string)
| DialFailed (agentId : string) (cause : HangupCause)
| DialTimeout
| DialAborted.

Record QueueDialAttempt := {
  att_agentId : string;
  att_endpoint : string;
  att_label : string;
  att_destinationNumber : string;
  att_timeoutSeconds : Z }.

Inductive AbandonReason : Set :=
| abandon_hangup | abandon_timeout | abandon_overflow | abandon_no_agents.

Inductive QueueOutcome :=
| OutAnswered (agentId : string) (waitMs : Z)
| OutTimeout (why : AbandonReason) (waitMs : Z)
| OutAbandoned (waitMs : Z)
| OutAborted
| OutFailed (why : string).

(** The calls a session makes to its ports, and the answers of those that decide who
    holds an agent or a caller. *)
Inductive Action :=
| ActEnsureAnswered
| ActPlay (media : string)
| ActStartMusic (mohClass : option string)
| ActStopMusic
| ActDial (attempts : list QueueDialAttempt) (fan : FanOut)
| ActHangupAgent (mediaChannelId : string)
| ActBridge (mediaChannelId agentId : string)
| ActMembership
| ActReadStates (agentIds : list string)
| ActReserve (request : AgentTransitionRequest) (now : Z)
| ActTransition (request : AgentTransitionRequest)
| ActReadState (agentId : string)
| ActJoined (position : Z)
| ActCallerAnswered (agentId : string) (waitMs : Z)
| ActCallerAbandoned (why : AbandonReason) (waitMs position : Z)
| ActPositionJoin
| ActPositionLeave
| ActRemember (agentId : string)
| ActNote
| ActDelay (ms : Z)
| ActStartWrapUp (agentId : string)
| ActScheduleRetry (request : AgentTransitionRequest) (delayMs : Z)
| AnsReserve (request : AgentTransitionRequest) (written : result string (option AgentStateEntry))
| AnsTransition (request : AgentTransitionRequest) (written : result string (option AgentStateEntry))
| AnsReadState (agentId : string) (read : result string VersionedAgentStateRead)
| AnsDial (dialled : result string QueueDialOutcome)
| AnsBridge (mediaChannelId agentId : string) (bridged : result string bool).

(** The ports. [w_done] names the agents whose retry has finished by now;
    [w_retry] is the promise of the retry of a transition that is awaited. *)
Class QueueWorld (W : Type) := {
  w_now : W → Z;
  w_tearingDown : W → bool;
  w_random : W → nat → Z;
  w_cursor : W → option string;
  w_positionOf : W → Z;
  w_done : W → list string;
  w_unit : W → Action → W * result string unit;
  w_bool : W → Action → W * result string bool;
  w_join : W → W * Z;
  w_membership : W → W * result string (option QueueMembership);
  w_states : W → list string → W * result string (gmap string AgentStateEntry);
  w_dial : W → list QueueDialAttempt → FanOut → W * result string QueueDialOutcome;
  w_reserve : W → AgentTransitionRequest → Z → W * result string (option AgentStateEntry);
  w_transition : W → AgentTransitionRequest → W * result string (option AgentStateEntry);
  w_readState : W → string → W * result string VersionedAgentStateRead;
  w_retry : W → AgentTransitionRequest → W * result string bool }.

(** What does not change during a session: the plan node, the call and the
    settings. *)
Record SessionConfig := {
  node : Plan.QueuePlanNode;
  call_callId : string;
  organizationId : string;
  callerLegId : string;
  resolvePrompt : option string → option string;
  spellNumber : Z → list string;
  pollIntervalMs : Z;
  agentRingTimeoutSeconds : Z }.

Definition RELEASE_RETRY_INITIAL_MS : Z := 250.
Definition RELEASE_RETRY_MAX_MS : Z := 5000.

Record Session := {
  tried : gmap string Z;
  transitionRetries : list (string * nat);
  frozenOrder : option (list string);
  joinedAt : Z;
  sess_position : Z;
  lastAnnouncedAt : Z;
  offerNo : nat;
  pending : list QueueCandidate;
  trace : list Action }.

Definition session_init : Session :=
  {| tried := ∅; transitionRetries := []; frozenOrder := None; joinedAt := 0;
     sess_position := 0; lastAnnouncedAt := 0; offerNo := 0; pending := []; trace := [] |}.

Definition cand_id (c : QueueCandidate) : string := agentId (agent c).

Definition log (a : Action) (s : Session) : Session :=
  {| tried := tried s; transitionRetries := transitionRetries s; frozenOrder := frozenOrder s;
     joinedAt := joinedAt s; sess_position := sess_position s;
     lastAnnouncedAt := lastAnnouncedAt s; offerNo := offerNo s; pending := pending s; trace := trace s ++ [a] |}.

Definition set_pending (p : list QueueCandidate) (s : Session) : Session :=
  {| tried := tried s; transitionRetries := transitionRetries s; frozenOrder := frozenOrder s;
     joinedAt := joinedAt s; sess_position := sess_position s;
     lastAnnouncedAt := lastAnnouncedAt s; offerNo := offerNo s; pending := p; trace := trace s |}.

Definition set_retries (r : list (string * nat)) (s : Session) : Session :=
  {| tried := tried s; transitionRetries := r; frozenOrder := frozenOrder s;
     joinedAt := joinedAt s; sess_position := sess_position s;
     lastAnnouncedAt := lastAnnouncedAt s; offerNo := offerNo s; pending := pending s; trace := trace s |}.

Definition set_tried (t : gmap string Z) (s : Session) : Session :=
  {| tried := t; transitionRetries := transitionRetries s; frozenOrder := frozenOrder s;
     joinedAt := joinedAt s; sess_position := sess_position s;
     lastAnnouncedAt := lastAnnouncedAt s; offerNo := offerNo s; pending := pending s; trace := trace s |}.

Definition set_frozen (f : option (list string)) (s : Session) : Session :=
  {| tried := tried s; transitionRetries := transitionRetries s; frozenOrder := f;
     joinedAt := joinedAt s; sess_position := sess_position s;
     lastAnnouncedAt := lastAnnouncedAt s; offerNo := offerNo s; pending := pending s; trace := trace s |}.

Definition set_clock (joined pos announced : Z) (s : Session) : Session :=
  {| tried := tried s; transitionRetries := transitionRetries s; frozenOrder := frozenOrder s;
     joinedAt := joined; sess_position := pos; lastAnnouncedAt := announced;
     offerNo := offerNo s; pending := pending s; trace := trace s |}.

(** [const pending = new Map()] of the next offer. *)
Definition new_offer (s : Session) : Session :=
  {| tried := tried s; transitionRetries := transitionRetries s; frozenOrder := frozenOrder s;
     joinedAt := joinedAt s; sess_position := sess_position s;
     lastAnnouncedAt := lastAnnouncedAt s; offerNo := S (offerNo s); pending := [];
     trace := trace s |}.

(** ** Decisions *)
Definition isOwnedByCall (entry : AgentStateEntry) (callId : string) : bool :=
  call_state (status entry) && bool_decide (entry_callId entry = Some callId).

Definition penaltySecondsFor (cause : HangupCause) (a : QueueMembershipAgent) : Z :=
  if bool_decide (cause = USER_BUSY) then busyDelaySeconds a
  else if bool_decide (cause = CALL_REJECTED) then rejectDelaySeconds a
  else noAnswerDelaySeconds a.

Definition deadlineReached (cfg : SessionConfig) (waitedMs : Z) (m : QueueMembership)
    (states : gmap string AgentStateEntry) : option AbandonReason :=
  let noAgent := Plan.queue_maxWaitNoAgentSeconds (node cfg) in
  let maxWait := Plan.queue_maxWaitSeconds (node cfg) in
  let staffed := existsb (λ a, enabled a && isStaffing (states !! agentId a)) (agents m) in
  if (0 <? noAgent)%Z && (noAgent * MILLIS_PER_SECOND <=? waitedMs)%Z && negb staffed
  then Some abandon_no_agents
  else if (0 <? maxWait)%Z && (maxWait * MILLIS_PER_SECOND <=? waitedMs)%Z
  then Some abandon_timeout
  else None.

(** The agents to ring on this pass, and the order [sequential] froze. *)
Definition nextCandidates (dateParse : string → option Z) (cfg : SessionConfig) (s : Session)
    (m : QueueMembership) (states : gmap string AgentStateEntry) (waited now : Z)
    (cursor : option string) (random : nat → Z) : option (list string) * list QueueCandidate :=
  let excluded := fst <$> List.filter (λ '(_, until), (now <? until)%Z) (map_to_list (tried s)) in
  let selection :=
    selectAgents dateParse
      {| strategy := Plan.queue_strategy (node cfg); membership := m; states := states;
         waitedMs := waited; now := now; excludedAgentIds := Some excluded;
         roundRobinAfterAgentId := cursor |} random in
  match fanOut selection with
  | fan_all => (frozenOrder s, ordered selection)
  | fan_one =>
      match Plan.queue_strategy (node cfg) with
      | Plan.queue_sequential =>
          let frozen := default (cand_id <$> ordered selection) (frozenOrder s) in
          (Some frozen,
           match find_first (λ id, includes (cand_id <$> ordered selection) id) frozen with
           | None => []
           | Some id =>
               (* a [Map] of the candidates: a repeated id keeps the last *)
               match find_first (λ c, bool_decide (cand_id c = id)) (rev (ordered selection)) with
               | None => []
               | Some c => [c]
               end
           end)
      | _ => (frozenOrder s, take 1 (ordered selection))
      end
  end.

(** The release of an agent who did not take the call, and the instant before
    which this caller will not ring them again. *)
Definition releaseFor (cfg : SessionConfig) (now : Z) (c : QueueCandidate)
    (cause : option HangupCause) : AgentTransitionRequest * option Z :=
  let request to availableAt count reason :=
    {| req_orgId := organizationId cfg; req_agentId := cand_id c; req_to := to;
       req_queueId := Plan.queue_queueId (node cfg); req_callId := call_callId cfg;
       req_legId := None; req_availableAt := availableAt; req_noAnswerCount := count;
       req_reason := reason |} in
  match cause with
  | None => (request available None None None, None)
  | Some cause =>
      let until := (now + penaltySecondsFor cause (agent c) * MILLIS_PER_SECOND)%Z in
      let count :=
        if bool_decide (cause = USER_BUSY) then None
        else Some (default 0 (noAnswerCount (cand_state c)) + 1)%Z in
      match count with
      | Some n =>
          if (0 <? maxNoAnswer (agent c))%Z && (maxNoAnswer (agent c) <=? n)%Z
          then (request unavailable None count (Some "max-no-answer"), Some until)
          else (request available (Some until) count None, Some until)
      | None => (request available (Some until) None None, Some until)
      end
  end.

(** The delay before the attempt [k] of a retry: it doubles after each attempt
    that has to be made again, up to the maximum. *)
Fixpoint retry_delay (k : nat) (delayMs : Z) : Z :=
  match k with
  | O => delayMs
  | S k => retry_delay k (Z.min (delayMs * 2) RELEASE_RETRY_MAX_MS)
  end.

Lemma retry_delay_capped k :
  retry_delay k RELEASE_RETRY_INITIAL_MS = Z.min (RELEASE_RETRY_INITIAL_MS * 2 ^ Z.of_nat k) RELEASE_RETRY_MAX_MS.
Proof.
  assert (∀ k d, (0 < d <= RELEASE_RETRY_MAX_MS)%Z →
    retry_delay k d = Z.min (d * 2 ^ Z.of_nat k) RELEASE_RETRY_MAX_MS) as Hk;
    [|apply Hk; unfold RELEASE_RETRY_INITIAL_MS, RELEASE_RETRY_MAX_MS; lia].
  unfold RELEASE_RETRY_MAX_MS. clear k. intros k. induction k as [|k IH]; intros d Hd; simpl; [lia|].
  rewrite IH by (unfold RELEASE_RETRY_MAX_MS; lia). rewrite Nat2Z.inj_succ, Z.pow_succ_r by lia.
  pose proof (Z.pow_pos_nonneg 2 (Z.of_nat k) ltac:(lia) ltac:(lia)). unfold RELEASE_RETRY_MAX_MS. nia.
Qed.

Section Session.
Context (dateParse : string → option Z) {W : Type} `{QueueWorld W} (cfg : SessionConfig).

(** ** Effects *)
Definition M (A : Type) : Type := Session * W → (Session * W) * result string A.

#[global] Instance M_ret : MRet M := λ A a st, (st, Ok a).

#[global] Instance M_bind : MBind M := λ A B k m st,
  match m st with
  | (st', Ok a) => k a st'
  | (st', Throw e) => (st', Throw e)
  end.

Definition get : M (Session * W) := λ st, (st, Ok st).
Definition modify (f : Session → Session) : M unit := λ '(s, w), ((f s, w), Ok tt).

(** [try { body } finally { fin }] *)
Definition try_finally {A} (body : M A) (fin : M unit) : M A := λ st,
  let '(st1, r) := body st in
  match fin st1 with
  | (st2, Ok _) => (st2, r)
  | (st2, Throw e) => (st2, Throw e)
  end.

(** [try { body } catch (error) { handler }] *)
Definition try_catch {A} (body : M A) (handler : string → M A) : M A := λ st,
  match body st with
  | (st1, Ok a) => (st1, Ok a)
  | (st1, Throw e) => handler e st1
  end.

(** Retries that finished during an awaited call. *)
Definition settle (finished : list string) (s : Session) : Session :=
  let mine id := existsb (λ '(a, n), bool_decide (a = id) && (n =? offerNo s)) (transitionRetries s) in
  set_pending
    (List.filter (λ c, negb (includes finished (cand_id c) && mine (cand_id c))) (pending s))
    (set_retries (List.filter (λ '(a, _), negb (includes finished a)) (transitionRetries s)) s).

(** An awaited call to a port. *)
Definition port {A} (a : Action) (op : W → W * result string A) : M A := λ '(s, w),
  let '(w', r) := op w in ((settle (w_done w') (log a s), w'), r).

(** An awaited call whose answer is kept. *)
Definition port_ans {A} (a : Action) (ans : result string A → Action) (op : W → W * result string A)
    : M A := λ '(s, w),
  let '(w', r) := op w in ((settle (w_done w') (log (ans r) (log a s)), w'), r).

Definition call_unit (a : Action) : M unit := port a (λ w, w_unit w a).
Definition call_bool (a : Action) : M bool := port a (λ w, w_bool w a).

(** A call that is not awaited. *)
Definition call_sync (a : Action) : M unit := modify (log a).

Definition waited : M Z :=
  '(s, w) ← get;
  mret (Z.max 0 (w_now w - joinedAt s)).

(** ** Media and events *)
Definition startMusic : M unit :=
  '(s, w) ← get;
  if w_tearingDown w then mret tt
  else call_unit (ActStartMusic (Plan.queue_mohClass (node cfg))).

Definition playGreeting : M unit :=
  match resolvePrompt cfg (Plan.queue_greetingPromptId (node cfg)) with
  | None => mret tt
  | Some media => _ ← call_bool (ActPlay media); mret tt
  end.

(** The digits of the announcement: it stops when the caller has gone. The
    answer is whether it ran to the end. *)
Fixpoint playDigits (digits : list string) : M bool :=
  match digits with
  | [] => mret true
  | media :: rest =>
      '(s, w) ← get;
      if w_tearingDown w then mret false
      else _ ← call_bool (ActPlay media); playDigits rest
  end.

Definition announceIfDue : M unit :=
  if negb (Plan.queue_announcePositionEnabled (node cfg)) ||
     (Plan.queue_announceFrequencySeconds (node cfg) <=? 0)%Z then mret tt
  else
    '(s, w) ← get;
    let now := w_now w in
    if (now - lastAnnouncedAt s <?
        Plan.queue_announceFrequencySeconds (node cfg) * MILLIS_PER_SECOND)%Z then mret tt
    else
      _ ← modify (set_clock (joinedAt s) (w_positionOf w) now);
      _ ← call_unit ActStopMusic;
      _ ← match resolvePrompt cfg (Plan.queue_announcePromptId (node cfg)) with
          | None => mret true
          | Some preamble => call_bool (ActPlay preamble)
          end;
      finished ← playDigits (spellNumber cfg (w_positionOf w));
      if (finished : bool) then startMusic else mret tt.

Definition abandon (why : AbandonReason) : M QueueOutcome :=
  waitMs ← waited;
  '(s, _) ← get;
  _ ← call_unit (ActCallerAbandoned why waitMs (Z.max 1 (sess_position s)));
  mret (match why with
        | abandon_hangup => OutAbandoned waitMs
        | _ => OutTimeout why waitMs
        end).

Definition timeOut (why : AbandonReason) : M QueueOutcome :=
  _ ← call_sync ActNote;
  _ ← call_unit ActStopMusic;
  abandon why.

(** ** Releases *)
Inductive OwnedTransitionResult := succeeded | ownership_changed | retry.

Definition tryOwnedTransition (request : AgentTransitionRequest) : M OwnedTransitionResult :=
  written ← port_ans (ActTransition request) (AnsTransition request) (λ w, w_transition w request);
  match written with
  | Some _ => mret succeeded
  | None =>
      current ← port_ans (ActReadState (req_agentId request)) (AnsReadState (req_agentId request))
                  (λ w, w_readState w (req_agentId request));
      mret (match current with
            | ReadUnavailable => retry
            | ReadAbsent => ownership_changed
            | ReadFound entry _ =>
                if isOwnedByCall entry (req_callId request) then retry else ownership_changed
            end)
  end.

Definition remove_pending (id : string) (s : Session) : Session :=
  set_pending (List.filter (λ c, negb (bool_decide (cand_id c = id))) (pending s)) s.

Definition has_retry (s : Session) (id : string) : bool := includes (fst <$> transitionRetries s) id.

(** The loop over the map: an entry deleted before it is reached is skipped, and
    one that a retry already owns is left to it. *)
Fixpoint releaseEach (cs : list QueueCandidate) (cause : option HangupCause) : M unit :=
  match cs with
  | [] => mret tt
  | c :: rest =>
      '(s, w) ← get;
      if negb (includes (cand_id <$> pending s) (cand_id c)) || has_retry s (cand_id c)
      then releaseEach rest cause
      else
        let '(request, until) := releaseFor cfg (w_now w) c cause in
        _ ← modify (λ s, match until with
                         | None => s
                         | Some t => set_tried (<[cand_id c := t]> (tried s)) s
                         end);
        _ ← (if bool_decide (req_to request = unavailable) then call_sync ActNote else mret tt);
        r ← tryOwnedTransition request;
        _ ← match r with
            | retry =>
                '(s, _) ← get;
                if has_retry s (cand_id c) then mret tt
                else
                  _ ← modify (λ s, set_retries (transitionRetries s ++ [(cand_id c, offerNo s)]) s);
                  call_sync (ActScheduleRetry request RELEASE_RETRY_INITIAL_MS)
            | _ => modify (remove_pending (cand_id c))
            end;
        releaseEach rest cause
  end.

Definition releaseAll (cause : option HangupCause) : M unit :=
  '(s, _) ← get;
  releaseEach (pending s) cause.

(** ** Offers *)
Definition reserve_request (c : QueueCandidate) : AgentTransitionRequest :=
  {| req_orgId := organizationId cfg; req_agentId := cand_id c; req_to := ringing;
     req_queueId := Plan.queue_queueId (node cfg); req_callId := call_callId cfg;
     req_legId := Some (callerLegId cfg); req_availableAt := None; req_noAnswerCount := None;
     req_reason := None |}.

Definition reserved_by_call (written : option AgentStateEntry) : bool :=
  match written with
  | None => false
  | Some e =>
      (bool_decide (previousStatus e = Some available) ||
       bool_decide (previousStatus e = Some wrap_up)) &&
      bool_decide (entry_callId e = Some (call_callId cfg))
  end.

(** [pending.set(agentId, candidate)]: a key already there keeps its place. *)
Definition map_set (p : list QueueCandidate) (c : QueueCandidate) : list QueueCandidate :=
  if includes (cand_id <$> p) (cand_id c)
  then (λ d, if bool_decide (cand_id d = cand_id c) then c else d) <$> p
  else p ++ [c].

Fixpoint reserveEach (cs : list QueueCandidate) : M (list QueueCandidate) :=
  match cs with
  | [] => mret []
  | c :: rest =>
      '(_, w) ← get;
      written ← port_ans (ActReserve (reserve_request c) (w_now w)) (AnsReserve (reserve_request c))
                         (λ w', w_reserve w' (reserve_request c) (w_now w));
      if reserved_by_call written then
        _ ← modify (λ s, set_pending (map_set (pending s) c) s);
        others ← reserveEach rest;
        mret (c :: others)
      else reserveEach rest
  end.

Definition on_call_request (agent : string) : AgentTransitionRequest :=
  {| req_orgId := organizationId cfg; req_agentId := agent; req_to := on_call;
     req_queueId := Plan.queue_queueId (node cfg); req_callId := call_callId cfg;
     req_legId := Some (callerLegId cfg); req_availableAt := None;
     req_noAnswerCount := Some 0%Z; req_reason := None |}.

Definition claimed (onCall : option AgentStateEntry) : bool :=
  match onCall with
  | None => false
  | Some e =>
      bool_decide (previousStatus e = Some ringing) &&
      bool_decide (entry_callId e = Some (call_callId cfg))
  end.

(** The end of [answered]: the report, then the bridge. *)
Definition report_and_bridge (agent media : string) (waitMs : Z) : M QueueOutcome :=
  _ ← call_unit (ActCallerAnswered agent waitMs);
  bridged ← port_ans (ActBridge media agent) (AnsBridge media agent)
                     (λ w, w_bool w (ActBridge media agent));
  if negb bridged then
    _ ← call_sync (ActStartWrapUp agent);
    mret (OutFailed "the queue call could not be bridged")
  else mret (OutAnswered agent waitMs).

(** [answered] once the agent is claimed: the others are released first. *)
Definition take_call (agent media : string) (waitMs : Z) : M QueueOutcome :=
  _ ← modify (remove_pending agent);
  _ ← call_sync (ActRemember agent);
  _ ← releaseAll None;
  report_and_bridge agent media waitMs.

Definition answered (agent media : string) : M QueueOutcome :=
  waitMs ← waited;
  onCall ← port_ans (ActTransition (on_call_request agent)) (AnsTransition (on_call_request agent))
                    (λ w, w_transition w (on_call_request agent));
  if negb (claimed onCall) then
    _ ← call_unit (ActHangupAgent media);
    mret (OutFailed "the answering agent could not be moved from ringing to on-call")
  else take_call agent media waitMs.

Definition attempt_of (c : QueueCandidate) : QueueDialAttempt :=
  {| att_agentId := cand_id c; att_endpoint := contact (agent c);
     att_label := "queue agent " +:+ agent_name (agent c);
     att_destinationNumber := contact (agent c);
     att_timeoutSeconds := agentRingTimeoutSeconds cfg |}.

(** The body of [offer] once the reservations are made. *)
Definition offer_reserved (candidates reserved : list QueueCandidate) : M (option QueueOutcome) :=
  if (length reserved =? 0) then
    _ ← call_unit (ActDelay (pollIntervalMs cfg));
    mret None
  else
    _ ← call_unit ActStopMusic;
    let fan :=
      if (1 <? length candidates) ||
         match Plan.queue_strategy (node cfg) with Plan.ring_all => true | _ => false end
      then fan_all else fan_one in
    outcome ← port_ans (ActDial (attempt_of <$> reserved) fan) AnsDial
                       (λ w, w_dial w (attempt_of <$> reserved) fan);
    match outcome with
    | DialAnswered a media => out ← answered a media; mret (Some out)
    | DialAborted =>
        _ ← releaseAll None;
        out ← abandon abandon_hangup;
        mret (Some out)
    | DialFailed _ cause =>
        _ ← releaseAll (Some cause);
        _ ← startMusic;
        mret None
    | DialTimeout =>
        _ ← releaseAll (Some NO_ANSWER);
        _ ← startMusic;
        mret None
    end.

Definition offer_body (candidates : list QueueCandidate) : M (option QueueOutcome) :=
  reserved ← reserveEach candidates;
  offer_reserved candidates reserved.

Definition offer (candidates : list QueueCandidate) : M (option QueueOutcome) :=
  _ ← modify new_offer;
  try_finally (offer_body candidates) (releaseAll None).

(** ** The loop *)

(** One pass of [wait]: an outcome, or another pass. *)
Definition pass : M (option QueueOutcome) :=
  '(_, w) ← get;
  if w_tearingDown w then out ← abandon abandon_hangup; mret (Some out)
  else
    waitedMs ← waited;
    membership ← port ActMembership (λ w, w_membership w);
    match membership with
    | None =>
        _ ← call_sync ActNote;
        mret (Some (OutFailed "no queue membership"))
    | Some m =>
        states ← port (ActReadStates (agentId <$> agents m))
                      (λ w, w_states w (agentId <$> agents m));
        match deadlineReached cfg waitedMs m states with
        | Some why => out ← timeOut why; mret (Some out)
        | None =>
            '(s, w) ← get;
            let '(frozen, candidates) :=
              nextCandidates dateParse cfg s m states waitedMs (w_now w) (w_cursor w) (w_random w) in
            _ ← modify (set_frozen frozen);
            match candidates with
            | [] =>
                _ ← announceIfDue;
                _ ← call_unit (ActDelay (pollIntervalMs cfg));
                mret None
            | _ => offer candidates
            end
        end
    end.

(** [for (;;)]: [None] while the caller is still waiting after [n] passes. *)
Fixpoint loop (n : nat) : M (option QueueOutcome) :=
  match n with
  | O => mret None
  | S n =>
      out ← pass;
      match out with
      | Some o => mret (Some o)
      | None => loop n
      end
  end.

(** [n] passes from [st] to [st'] found the caller there and gave no outcome. *)
Fixpoint waits (n : nat) (st st' : Session * W) : Prop :=
  match n with
  | O => st' = st
  | S n => ∃ st1, w_tearingDown st.2 = false ∧ pass st = (st1, Ok None) ∧ waits n st1 st'
  end.

Definition wait (n : nat) : M (option QueueOutcome) :=
  _ ← playGreeting;
  _ ← startMusic;
  loop n.

(** [run], observed after at most [n] passes: [None] while the caller waits. *)
Definition run (n : nat) : M (option QueueOutcome) :=
  ok ← call_bool ActEnsureAnswered;
  if negb ok then mret (Some OutAborted)
  else
    '(_, w) ← get;
    position ← (λ '(s, w), let '(w', p) := w_join w in ((log ActPositionJoin s, w'), Ok p));
    _ ← modify (set_clock (w_now w) position (w_now w));
    _ ← call_unit (ActJoined (Z.max 1 position));
    _ ← (if Plan.queue_recordEnabled (node cfg) then call_sync ActNote else mret tt);
    out ← try_catch (wait n)
            (λ e, _ ← call_sync ActNote; mret (Some (OutFailed e)));
    match out with
    | None => mret None
    | Some o => _ ← call_sync ActPositionLeave; mret (Some o)
    end.

(** ** After-call work *)
Definition wrap_request (agent : string) (to : AgentStatus) (availableAt : option Z)
    : AgentTransitionRequest :=
  {| req_orgId := organizationId cfg; req_agentId := agent; req_to := to;
     req_queueId := Plan.queue_queueId (node cfg); req_callId := call_callId cfg;
     req_legId := None; req_availableAt := availableAt; req_noAnswerCount := None;
     req_reason := None |}.

(** The seconds of wrap-up: the agent's own, else the queue's. *)
Definition wrap_seconds (m : QueueMembership) (agent : string) : Z :=
  match find_first (λ a, bool_decide (agentId a = agent)) (agents m) with
  | Some a => if (agent_wrapUpSeconds a =? 0)%Z then wrapUpSeconds m else agent_wrapUpSeconds a
  | None => wrapUpSeconds m
  end.

Definition transitionOwnedWithRetry (request : AgentTransitionRequest) : M bool :=
  r ← tryOwnedTransition request;
  match r with
  | succeeded => mret true
  | ownership_changed => mret false
  | retry => port (ActScheduleRetry request RELEASE_RETRY_INITIAL_MS) (λ w, w_retry w request)
  end.

Definition startWrapUp (m : QueueMembership) (agent : string) : M unit :=
  let seconds := wrap_seconds m agent in
  if (seconds <=? 0)%Z then
    _ ← transitionOwnedWithRetry (wrap_request agent available None); mret tt
  else
    '(_, w) ← get;
    let until := (w_now w + seconds * MILLIS_PER_SECOND)%Z in
    wrapped ← transitionOwnedWithRetry (wrap_request agent wrap_up (Some until));
    if negb wrapped then mret tt
    else
      '(_, w) ← get;
      _ ← call_unit (ActDelay (Z.max 0 (until - w_now w)));
      _ ← transitionOwnedWithRetry (wrap_request agent available None);
      mret tt.

(** ** A session observed longer *)
Lemma pass_there st st' : pass st = (st', Ok None) → w_tearingDown st.2 = false.
Proof.
  destruct st as [s w]. unfold pass. unfold mbind at 1, M_bind at 1, get. simpl.
  destruct (w_tearingDown w); [|done].
  unfold mbind, M_bind. by destruct (abandon abandon_hangup (s, w)) as [? []].
Qed.

Lemma loop_waits n st st' : loop n st = (st', Ok None) → waits n st st'.
Proof.
  revert st. induction n as [|n IH]; intros st; cbn [loop waits]; [by intros [= ->]|].
  unfold mbind, M_bind. destruct (pass st) as [st1 [[o|]|e]] eqn:E; [done| |done].
  intros Hl. exists st1. split_and!; [by eapply pass_there|done|by apply IH].
Qed.

Lemma loop_longer n n' st : n <= n' → (loop n st).2 ≠ Ok None → loop n' st = loop n st.
Proof.
  revert n' st. induction n as [|n IH]; intros n' st Hn; cbn [loop]; [by intros []|].
  destruct n' as [|n']; [lia|]. cbn [loop]. unfold mbind, M_bind.
  destruct (pass st) as [st1 [[o|]|e]]; [done| |done]. apply IH. lia.
Qed.

(** A bind, a [try_catch] and what follows it, for a body observed longer. *)
Lemma bind_longer {A B} (m : M A) (k k' : A → M (option B)) st :
  (∀ a st1, m st = (st1, Ok a) → (k a st1).2 ≠ Ok None → k' a st1 = k a st1) →
  ((m ≫= k) st).2 ≠ Ok None → (m ≫= k') st = (m ≫= k) st.
Proof. unfold mbind, M_bind. intros Hk. destruct (m st) as [st1 [a|e]]; [by apply Hk|done]. Qed.

Lemma run_longer n n' st : n <= n' → (run n st).2 ≠ Ok None → run n' st = run n st.
Proof.
  intros Hn. unfold run. apply bind_longer. intros [|] st1 _; cbn [negb]; [|done].
  apply bind_longer. intros [s w] st2 _.
  do 4 (apply bind_longer; intros ? ? _). intros Hr.
  match goal with |- (try_catch _ _ ≫= _) ?now = _ => set (st' := now) in * end.
  assert ((wait n st').2 ≠ Ok None → wait n' st' = wait n st') as Hw.
  { unfold wait. do 2 (apply bind_longer; intros ? ? _). by apply loop_longer. }
  revert Hr Hw. unfold try_catch, mbind, M_bind.
  destruct (wait n st') as [st6 [[o|]|e]]; simpl; intros Hr Hw; [by rewrite Hw|done|by rewrite Hw].
Qed.

Lemma returned_bind {A B} (m : M A) (k : A → M B) st st' b :
  (m ≫= k) st = (st', Ok b) → ∃ a st1, m st = (st1, Ok a) ∧ k a st1 = (st', Ok b).
Proof. unfold mbind, M_bind. destruct (m st) as [st1 [a|e]]; [|done]. by exists a, st1. Qed.

(** A caller still waits because every pass found the caller there and gave no
    outcome. *)
Lemma run_waits n st st' : run n st = (st', Ok None) → ∃ st1, waits n st1 st'.
Proof.
  intros Hr. unfold run in Hr. apply returned_bind in Hr as ([|] & st1 & _ & Hr); cbn [negb] in Hr; [|done].
  apply returned_bind in Hr as ([s w] & st2 & _ & Hr).
  do 4 (apply returned_bind in Hr as (? & ? & _ & Hr)).
  apply returned_bind in Hr as (out & st3 & Hc & Hr).
  destruct out as [o|]; [by apply returned_bind in Hr as (? & ? & _ & ?)|]. injection Hr as <-.
  unfold try_catch in Hc. destruct (wait n _) as [st4 [out|e]] eqn:Hw; [injection Hc as <- ->|];
    [|by apply returned_bind in Hc as (? & ? & _ & ?)].
  do 2 (apply returned_bind in Hw as (? & ? & _ & Hw)). eexists. by apply loop_waits.
Qed.

(** ** What an operation does to the trace *)

(** [m] calls only ports in [P], and never touches the frozen order. *)
Definition acts {A} (P : Action → Prop) (m : M A) : Prop :=
  ∀ st, ∃ l, trace (m st).1.1 = trace st.1 ++ l ∧ Forall P l ∧
             frozenOrder (m st).1.1 = frozenOrder st.1.

Lemma acts_ret {A} P (a : A) : acts P (mret a).
Proof. intros st. exists []. by rewrite app_nil_r. Qed.

Lemma acts_bind {A B} P (m : M A) (k : A → M B) :
  acts P m → (∀ a, acts P (k a)) → acts P (m ≫= k).
Proof.
  intros Hm Hk st. unfold mbind, M_bind. destruct (Hm st) as (l & Ht & Hl & Hf).
  destruct (m st) as [st1 [a|e]] eqn:E; simpl in *; [|by exists l].
  destruct (Hk a st1) as (l' & Ht' & Hl' & Hf'). exists (l ++ l').
  split_and!; [by rewrite Ht', Ht, app_assoc|by apply Forall_app|congruence].
Qed.

Lemma acts_get P : acts P get.
Proof. intros st. exists []. by rewrite app_nil_r. Qed.

Lemma acts_modify P f :
  (∀ s, trace (f s) = trace s ∧ frozenOrder (f s) = frozenOrder s) → acts P (modify f).
Proof.
  intros Hf [s w]. exists []. simpl. destruct (Hf s) as [-> ->]. by rewrite app_nil_r.
Qed.

Lemma acts_sync (P : Action → Prop) a : P a → acts P (call_sync a).
Proof. intros Ha [s w]. exists [a]. simpl. auto. Qed.

Lemma acts_port {A} (P : Action → Prop) a (op : W → W * result string A) : P a → acts P (port a op).
Proof.
  intros Ha [s w]. exists [a]. unfold port. destruct (op w) as [w' r]. simpl. auto.
Qed.

Lemma acts_port_ans {A} (P : Action → Prop) a ans (op : W → W * result string A) :
  P a → (∀ r, P (ans r)) → acts P (port_ans a ans op).
Proof.
  intros Ha Hr [s w]. exists [a; ans (op w).2]. unfold port_ans. destruct (op w) as [w' r]. simpl.
  rewrite <- app_assoc. split_and!; [done|by repeat constructor|done].
Qed.

Lemma acts_try_finally {A} P (m : M A) f : acts P m → acts P f → acts P (try_finally m f).
Proof.
  intros Hm Hf st. unfold try_finally. destruct (Hm st) as (l & Ht & Hl & Hfr).
  destruct (m st) as [st1 r] eqn:E; simpl in *.
  destruct (Hf st1) as (l' & Ht' & Hl' & Hfr'). exists (l ++ l').
  destruct (f st1) as [st2 [a|e]]; simpl in *;
    (split_and!; [by rewrite Ht', Ht, app_assoc|by apply Forall_app|congruence]).
Qed.

Lemma acts_try_catch {A} P (m : M A) h : acts P m → (∀ e, acts P (h e)) → acts P (try_catch m h).
Proof.
  intros Hm Hh st. unfold try_catch. destruct (Hm st) as (l & Ht & Hl & Hf).
  destruct (m st) as [st1 [a|e]] eqn:E; simpl in *; [by exists l|].
  destruct (Hh e st1) as (l' & Ht' & Hl' & Hf'). exists (l ++ l').
  split_and!; [by rewrite Ht', Ht, app_assoc|by apply Forall_app|congruence].
Qed.

Lemma acts_weaken {A} (P Q : Action → Prop) (m : M A) : (∀ a, P a → Q a) → acts P m → acts Q m.
Proof.
  intros HPQ Hm st. destruct (Hm st) as (l & Ht & Hl & Hf). exists l. split_and!; auto.
  eapply Forall_impl; eauto.
Qed.

Ltac acts_tac :=
  repeat (first
    [ apply acts_bind; [|intros ?]
    | apply acts_ret | apply acts_get
    | apply acts_sync; by auto
    | apply acts_port; by auto
    | apply acts_port_ans; [by auto|by auto]
    | apply acts_modify; intros; by (repeat case_match)
    | progress case_match
    | progress unfold call_unit, call_bool, waited ]).

(** Neither an answer nor an abandonment of the caller. *)
Definition silent (a : Action) : Prop :=
  match a with ActCallerAnswered _ _ | ActCallerAbandoned _ _ _ => False | _ => True end.

Lemma startMusic_acts (P : Action → Prop) : (∀ c, P (ActStartMusic c)) → acts P startMusic.
Proof. intros HP. unfold startMusic. acts_tac. Qed.

Lemma playDigits_acts (P : Action → Prop) ds : (∀ m, P (ActPlay m)) → acts P (playDigits ds).
Proof. intros HP. induction ds as [|d ds IH]; cbn [playDigits]; acts_tac. done. Qed.

Lemma announceIfDue_acts (P : Action → Prop) :
  (∀ m, P (ActPlay m)) → (∀ c, P (ActStartMusic c)) → P ActStopMusic → acts P announceIfDue.
Proof.
  intros H1 H2 H3. unfold announceIfDue. acts_tac; auto using startMusic_acts, playDigits_acts.
Qed.

Definition release_action (a : Action) : Prop :=
  match a with
  | ActTransition _ | AnsTransition _ _ | ActReadState _ | AnsReadState _ _ | ActScheduleRetry _ _
  | ActNote => True
  | _ => False
  end.

Lemma tryOwnedTransition_acts request : acts release_action (tryOwnedTransition request).
Proof. unfold tryOwnedTransition. acts_tac. Qed.

Lemma releaseEach_acts cs cause : acts release_action (releaseEach cs cause).
Proof.
  induction cs as [|c cs IH]; cbn [releaseEach]; [apply acts_ret|].
  acts_tac; auto using tryOwnedTransition_acts.
Qed.

Lemma releaseAll_acts cause : acts release_action (releaseAll cause).
Proof. unfold releaseAll. acts_tac. apply releaseEach_acts. Qed.

Lemma release_silent a : release_action a → silent a.
Proof. by destruct a. Qed.

Lemma reserveEach_acts cs :
  acts (λ a, match a with ActReserve _ _ | AnsReserve _ _ => True | _ => False end) (reserveEach cs).
Proof. induction cs as [|c cs IH]; cbn [reserveEach]; acts_tac; auto. Qed.

(** ** The order [sequential] froze *)

(** [acts] from one state in which the frozen order is [f], which it keeps. *)
Definition acts_at {A} (f : option (list string)) (P : Action → Prop) (m : M A) (st : Session * W)
    : Prop :=
  frozenOrder st.1 = f →
  ∃ l, trace (m st).1.1 = trace st.1 ++ l ∧ Forall P l ∧ frozenOrder (m st).1.1 = f.

Lemma acts_acts_at {A} f P (m : M A) st : acts P m → acts_at f P m st.
Proof. intros Hm Hf. destruct (Hm st) as (l & Ht & Hl & Hfr). exists l. by rewrite Hfr. Qed.

Lemma acts_at_bind {A B} f P (m : M A) (k : A → M B) st :
  acts_at f P m st → (∀ a st', acts_at f P (k a) st') → acts_at f P (m ≫= k) st.
Proof.
  intros Hm Hk Hf. unfold mbind, M_bind. destruct (Hm Hf) as (l & Ht & Hl & Hfr).
  destruct (m st) as [st1 [a|e]] eqn:E; simpl in *; [|by exists l].
  destruct (Hk a st1 Hfr) as (l' & Ht' & Hl' & Hf'). exists (l ++ l').
  split_and!; [by rewrite Ht', Ht, app_assoc|by apply Forall_app|done].
Qed.

Lemma acts_at_get {B} f P (k : Session * W → M B) st :
  acts_at f P (k st) st → acts_at f P (get ≫= k) st.
Proof. done. Qed.

Lemma acts_at_set_frozen f P st : acts_at f P (modify (set_frozen f)) st.
Proof. intros Hf. destruct st as [s w]. exists []. by rewrite app_nil_r. Qed.

(** Neither a reservation nor a ring. *)
Definition no_ring (a : Action) : Prop :=
  match a with ActReserve _ _ | ActDial _ _ => False | _ => True end.

Lemma nextCandidates_starved s m states waitedMs now cursor random :
  Plan.queue_strategy (node cfg) = Plan.queue_sequential → frozenOrder s = Some [] →
  nextCandidates dateParse cfg s m states waitedMs now cursor random = (Some [], []).
Proof. intros Hs Hf. unfold nextCandidates. simpl. by rewrite Hs, Hf. Qed.

Lemma starved_rest st :
  acts_at (Some []) no_ring
    (_ ← modify (set_frozen (Some []));
     _ ← announceIfDue;
     _ ← call_unit (ActDelay (pollIntervalMs cfg));
     mret (None (A := QueueOutcome))) st.
Proof.
  apply acts_at_bind; [apply acts_at_set_frozen|]. intros _ st4.
  apply acts_acts_at. acts_tac. by apply announceIfDue_acts.
Qed.

Lemma pass_starved st :
  Plan.queue_strategy (node cfg) = Plan.queue_sequential → acts_at (Some []) no_ring pass st.
Proof.
  intros Hs. unfold pass. apply acts_at_get. destruct st as [s w].
  destruct (w_tearingDown w).
  { apply acts_acts_at. unfold abandon. acts_tac. }
  apply acts_at_bind; [apply acts_acts_at; acts_tac|]. intros waitedMs st1.
  apply acts_at_bind; [apply acts_acts_at; acts_tac|]. intros [m|] st2;
    [|apply acts_acts_at; acts_tac].
  apply acts_at_bind; [apply acts_acts_at; acts_tac|]. intros states st3.
  destruct (deadlineReached _ _ _ _) as [why|].
  { apply acts_acts_at. unfold timeOut, abandon. acts_tac. }
  apply acts_at_get. destruct st3 as [s3 w3]. intros Hf3.
  rewrite (nextCandidates_starved s3) by done. exact (starved_rest (s3, w3) Hf3).
Qed.

Lemma loop_starved n st :
  Plan.queue_strategy (node cfg) = Plan.queue_sequential → acts_at (Some []) no_ring (loop n) st.
Proof.
  intros Hs. revert st. induction n as [|n IH]; intros st; cbn [loop]; [apply acts_acts_at, acts_ret|].
  apply acts_at_bind; [by apply pass_starved|].
  intros [o|] st'; [apply acts_acts_at, acts_ret|auto].
Qed.

(** Nobody on the roster can be distributed to at [now]. *)
Definition nobody_free (m : QueueMembership) (states : gmap string AgentStateEntry) (now : Z) : Prop :=
  ∀ a, a ∈ agents m → isEligibleForDistribution dateParse (states !! agentId a) now = false.

Lemma nextCandidates_nobody s m states waitedMs now cursor random :
  Plan.queue_strategy (node cfg) = Plan.queue_sequential → frozenOrder s = None →
  nobody_free m states now →
  nextCandidates dateParse cfg s m states waitedMs now cursor random = (Some [], []).
Proof.
  intros Hs Hf Hno. unfold nextCandidates. simpl. rewrite Hs, Hf. simpl.
  set (input := Build_SelectionInput _ _ _ _ _ _ _). cbv zeta.
  set (cs := eligibleCandidates _ _ _ _ _ _ _).
  assert (cs = []) as ->.
  { destruct cs as [|c l] eqn:E; [done|]. assert (c ∈ cs) as Hc by (rewrite E; apply list_elem_of_here).
    apply elem_of_eligible in Hc as (Hin & _ & _ & _ & Hst & Hel & _). apply Hno in Hin.
    rewrite Hst in Hin. congruence. }
  pose proof (orderFor_Permutation input random []) as Hp.
  by apply Permutation_nil_r in Hp as ->.
Qed.

(** The pass after a first look at the roster in which nobody is free. *)
Lemma pass_nobody s w w1 w2 m states :
  Plan.queue_strategy (node cfg) = Plan.queue_sequential → frozenOrder s = None →
  w_tearingDown w = false → w_membership w = (w1, Ok (Some m)) →
  w_states w1 (agentId <$> agents m) = (w2, Ok states) → nobody_free m states (w_now w2) →
  (∃ l, trace (pass (s, w)).1.1 = trace s ++ l ∧ Forall no_ring l) ∧
  ((pass (s, w)).2 = Ok None → frozenOrder (pass (s, w)).1.1 = Some []).
Proof.
  intros Hs Hf Htd Hm Hst Hno.
  set (s2 := settle (w_done w2) (log (ActReadStates (agentId <$> agents m))
               (settle (w_done w1) (log ActMembership s)))).
  set (rest := match deadlineReached cfg (Z.max 0 (w_now w - joinedAt s)) m states with
               | Some why => out ← timeOut why; mret (Some out)
               | None => _ ← modify (set_frozen (Some []));
                   _ ← announceIfDue;
                   _ ← call_unit (ActDelay (pollIntervalMs cfg));
                   mret (None (A := QueueOutcome))
               end).
  assert (pass (s, w) = rest (s2, w2)) as ->.
  { unfold pass, rest, waited, port, mbind, M_bind, get. simpl. rewrite Htd. simpl. rewrite Hm, Hst.
    fold s2. destruct (deadlineReached _ _ _ _); [done|]. by rewrite nextCandidates_nobody. }
  assert (∀ l, trace s2 ++ l = trace s ++ [ActMembership; ActReadStates (agentId <$> agents m)] ++ l)
    as Htr by (intros l; subst s2; simpl; by rewrite <- !app_assoc).
  unfold rest. destruct (deadlineReached _ _ _ _) as [why|].
  - assert (acts no_ring (out ← timeOut why; mret (Some out))) as Ha
      by (unfold timeOut, abandon; acts_tac).
    destruct (Ha (s2, w2)) as (l & Ht & Hl & _). split.
    { eexists. split; [by rewrite Ht, Htr|]. by repeat constructor. }
    unfold mbind, M_bind. by destruct (timeOut why (s2, w2)) as [? [?|?]].
  - destruct (starved_rest (set_frozen (Some []) s2, w2) eq_refl) as (l & Ht & Hl & Hfr).
    split; [|by intros _]. eexists. split; [etrans; [exact Ht|apply Htr]|]. by repeat constructor.
Qed.

(** A caller of a sequential queue who arrives when nobody is free is never
    offered to anybody: if no agent can be distributed to when the first pass
    looks, then however long the caller waits, whatever the ports answer and
    whoever becomes available later, no pass reserves or rings an agent. *)
Theorem sequential_caller_starves (n : nat) (s : Session) (w w1 w2 : W) (m : QueueMembership)
    (states : gmap string AgentStateEntry) :
  Plan.queue_strategy (node cfg) = Plan.queue_sequential → frozenOrder s = None →
  w_tearingDown w = false → w_membership w = (w1, Ok (Some m)) →
  w_states w1 (agentId <$> agents m) = (w2, Ok states) → nobody_free m states (w_now w2) →
  ∃ l, trace (loop n (s, w)).1.1 = trace s ++ l ∧ Forall no_ring l.
Proof.
  intros Hs Hf Htd Hm Hst Hno. destruct n as [|n]; [exists []; by rewrite app_nil_r|].
  destruct (pass_nobody s w w1 w2 m states Hs Hf Htd Hm Hst Hno) as [(l & Ht & Hl) Hfr].
  cbn [loop]. unfold mbind, M_bind. destruct (pass (s, w)) as [st1 [[o|]|e]]; simpl in *; [by eauto| |by eauto].
  destruct (loop_starved n st1 Hs (Hfr eq_refl)) as (l' & Ht' & Hl' & _). exists (l ++ l').
  rewrite Ht', Ht, app_assoc. split; [done|]. by apply Forall_app.
Qed.

(** ** One report per caller *)
Definition at_most_one (l : list Action) : Prop :=
  Forall silent l ∨ ∃ l1 a l2, l = l1 ++ a :: l2 ∧ Forall silent (l1 ++ l2).

(** The calls that put the caller through to agent [a]: the write that takes the agent
    answered an entry moved from [ringing] for this call, the report follows, then the
    bridge of the leg [media], and it held. *)
Definition put_through (a media : string) (waitMs : Z) (l2 l : list Action) : Prop :=
  ∃ e, l = [ActTransition (on_call_request a); AnsTransition (on_call_request a) (Ok (Some e))] ++ l2 ++
           [ActCallerAnswered a waitMs; ActBridge media a; AnsBridge media a (Ok true)] ∧
       previousStatus e = Some ringing ∧ entry_callId e = Some (call_callId cfg).

(** The calls [l] of an operation that ends with [r]: the one report of the
    caller's fate agrees with the outcome; an answer is reported when the leg of the
    agent has answered and the agent was taken, and before a bridge that held. *)
Definition closes (r : result string (option QueueOutcome)) (acts : list Action) : Prop :=
  match r with
  | Ok None | Ok (Some OutAborted) => Forall silent acts
  | Ok (Some (OutAnswered a waitMs)) =>
      ∃ l1 media l l2 l3,
        acts = l1 ++ [AnsDial (Ok (DialAnswered a media))] ++ l ++ l3 ∧
        put_through a media waitMs l2 l ∧ Forall silent (l1 ++ l2 ++ l3)
  | Ok (Some (OutTimeout why waitMs)) =>
      why ≠ abandon_hangup ∧
      ∃ l1 pos l2, acts = l1 ++ ActCallerAbandoned why waitMs pos :: l2 ∧ Forall silent (l1 ++ l2)
  | Ok (Some (OutAbandoned waitMs)) =>
      ∃ l1 pos l2, acts = l1 ++ ActCallerAbandoned abandon_hangup waitMs pos :: l2 ∧
                   Forall silent (l1 ++ l2)
  | Ok (Some (OutFailed _)) | Throw _ => at_most_one acts
  end.

Definition reports (m : M (option QueueOutcome)) : Prop :=
  ∀ st, ∃ l, trace (m st).1.1 = trace st.1 ++ l ∧ closes (m st).2 l.

Lemma at_most_one_pre l0 l : Forall silent l0 → at_most_one l → at_most_one (l0 ++ l).
Proof.
  intros H0 [Hl|(l1 & a & l2 & -> & Hl)]; [left; by apply Forall_app|].
  right. exists (l0 ++ l1), a, l2. rewrite <- !app_assoc. split; [done|]. by apply Forall_app.
Qed.

Lemma at_most_one_post l l0 : Forall silent l0 → at_most_one l → at_most_one (l ++ l0).
Proof.
  intros H0 [Hl|(l1 & a & l2 & -> & Hl)]; [left; by apply Forall_app|].
  right. exists l1, a, (l2 ++ l0). rewrite <- app_assoc. split; [done|].
  rewrite app_assoc. by apply Forall_app.
Qed.

Lemma closes_pre r l0 l : Forall silent l0 → closes r l → closes r (l0 ++ l).
Proof.
  intros H0. unfold closes.
  destruct r as [[[a wt|why wt|wt| |e]|]|e]; auto using at_most_one_pre.
  - intros (l1 & md & la & l2 & l3 & -> & Hp & Hl). exists (l0 ++ l1), md, la, l2, l3.
    rewrite <- !app_assoc. split_and!; [done|done|]. by apply Forall_app.
  - intros (Hw & l1 & p & l2 & -> & Hl). split; [done|]. exists (l0 ++ l1), p, l2.
    rewrite <- !app_assoc. split; [done|]. by apply Forall_app.
  - intros (l1 & p & l2 & -> & Hl). exists (l0 ++ l1), p, l2.
    rewrite <- !app_assoc. split; [done|]. by apply Forall_app.
  - intros Hl. by apply Forall_app.
  - intros Hl. by apply Forall_app.
Qed.

Lemma closes_post r l l0 : Forall silent l0 → closes r l → closes r (l ++ l0).
Proof.
  intros H0. unfold closes.
  destruct r as [[[a wt|why wt|wt| |e]|]|e]; auto using at_most_one_post.
  - intros (l1 & md & la & l2 & l3 & -> & Hp & Hl). exists l1, md, la, l2, (l3 ++ l0).
    split_and!; [by rewrite <- !app_assoc|done|]. rewrite !app_assoc in *. by apply Forall_app.
  - intros (Hw & l1 & p & l2 & -> & Hl). split; [done|]. exists l1, p, (l2 ++ l0).
    split; [by rewrite <- app_assoc|]. rewrite app_assoc. by apply Forall_app.
  - intros (l1 & p & l2 & -> & Hl). exists l1, p, (l2 ++ l0).
    split; [by rewrite <- app_assoc|]. rewrite app_assoc. by apply Forall_app.
  - intros Hl. by apply Forall_app.
  - intros Hl. by apply Forall_app.
Qed.

Lemma closes_one r l : closes r l → at_most_one l.
Proof.
  unfold closes. destruct r as [[[a wt|why wt|wt| |e]|]|e]; auto; try (by left).
  - intros (l1 & md & la & l2 & l3 & -> & (e & -> & _) & Hl). right.
    exists (l1 ++ [AnsDial (Ok (DialAnswered a md)); ActTransition (on_call_request a);
              AnsTransition (on_call_request a) (Ok (Some e))] ++ l2), (ActCallerAnswered a wt),
      ([ActBridge md a; AnsBridge md a (Ok true)] ++ l3).
    split; [by rewrite <- !app_assoc|]. rewrite !Forall_app in *. destruct Hl as (? & ? & ?).
    split_and!; try done; by repeat constructor.
  - intros (_ & l1 & p & l2 & -> & Hl). right. eauto.
  - intros (l1 & p & l2 & -> & Hl). right. eauto.
Qed.

Lemma reports_bind {A} (m : M A) k :
  acts silent m → (∀ a, reports (k a)) → reports (m ≫= k).
Proof.
  intros Hm Hk st. unfold mbind, M_bind. destruct (Hm st) as (l & Ht & Hl & _).
  destruct (m st) as [st1 [a|e]] eqn:E; simpl in *; [|exists l; split; [done|by left]].
  destruct (Hk a st1) as (l' & Ht' & Hl'). exists (l ++ l').
  split; [by rewrite Ht', Ht, app_assoc|by apply closes_pre].
Qed.

Lemma reports_silent (m : M (option QueueOutcome)) :
  acts silent m →
  (∀ st o, (m st).2 = Ok (Some o) → match o with OutFailed _ => True | _ => False end) → reports m.
Proof.
  intros Hm Ho st. destruct (Hm st) as (l & Ht & Hl & _). exists l. split; [done|].
  specialize (Ho st). destruct (m st) as [st' [[o|]|e]]; simpl in *; [|done|by left].
  specialize (Ho o eq_refl). destruct o; try done. by left.
Qed.

Lemma reports_ret o :
  match o with None | Some (OutFailed _) => True | _ => False end → reports (mret o).
Proof.
  intros Ho. apply reports_silent; [apply acts_ret|]. intros st o' [= ->]. by destruct o'.
Qed.

Lemma abandon_reports why : reports (out ← abandon why; mret (Some out)).
Proof.
  intros [s w]. unfold abandon, waited, call_unit, port. unfold mbind, M_bind, get, mret, M_ret.
  set (wt := Z.max 0 (w_now w - joinedAt s)). set (p := Z.max 1 (sess_position s)).
  destruct (w_unit w (ActCallerAbandoned why wt p)) as [w' [[]|e]]; simpl;
    exists [ActCallerAbandoned why wt p]; (split; [done|]).
  - destruct why; simpl; [exists [], p, []|split; [done|]; exists [], p, []
      |split; [done|]; exists [], p, []|split; [done|]; exists [], p, []]; by simpl.
  - right. by exists [], (ActCallerAbandoned why wt p), [].
Qed.

Lemma timeOut_reports why : reports (out ← timeOut why; mret (Some out)).
Proof.
  intros st. pose proof (abandon_reports why) as Ha.
  assert (reports (_ ← call_sync ActNote; _ ← call_unit ActStopMusic; out ← abandon why; mret (Some out)))
    as Hr.
  { apply reports_bind; [acts_tac|]. intros _. apply reports_bind; [acts_tac|]. intros _. done. }
  destruct (Hr st) as (l & Ht & Hl). exists l. unfold timeOut. revert Ht Hl.
  unfold mbind, M_bind. destruct (call_sync ActNote st) as [st1 [[]|e]]; [|done].
  destruct (call_unit ActStopMusic st1) as [st2 [[]|e]]; done.
Qed.

(** The end of [answered], from the report on. *)
Definition answer_closes (a media : string) (r : result string QueueOutcome) (l : list Action) : Prop :=
  match r with
  | Ok (OutAnswered a' waitMs) =>
      a' = a ∧ l = [ActCallerAnswered a waitMs; ActBridge media a; AnsBridge media a (Ok true)]
  | Ok (OutFailed _) | Throw _ => at_most_one l
  | _ => False
  end.

Lemma report_and_bridge_closes a media waitMs st :
  ∃ l, trace (report_and_bridge a media waitMs st).1.1 = trace st.1 ++ l ∧
       answer_closes a media (report_and_bridge a media waitMs st).2 l.
Proof.
  destruct st as [s w]. unfold report_and_bridge, call_unit, port, port_ans, mbind, M_bind.
  assert (∀ l, Forall silent l → at_most_one (ActCallerAnswered a waitMs :: l)) as Hone.
  { intros l Hl. right. by exists [], (ActCallerAnswered a waitMs), l. }
  destruct (w_unit w (ActCallerAnswered a waitMs)) as [w1 [[]|e]]; simpl.
  2: { eexists. split; [done|]. by apply Hone. }
  destruct (w_bool w1 (ActBridge media a)) as [w2 [[]|e]]; simpl;
    (eexists; split; [by rewrite <- !app_assoc|]); [done|apply Hone; by repeat constructor..].
Qed.

Lemma take_call_closes a media waitMs st :
  ∃ l2 l, trace (take_call a media waitMs st).1.1 = trace st.1 ++ l2 ++ l ∧ Forall silent l2 ∧
          answer_closes a media (take_call a media waitMs st).2 l.
Proof.
  assert (acts silent (_ ← modify (remove_pending a); _ ← call_sync (ActRemember a); releaseAll None))
    as Hpre.
  { apply acts_bind; [acts_tac|intros _]. apply acts_bind; [acts_tac|intros _].
    eapply acts_weaken; [exact release_silent|apply releaseAll_acts]. }
  unfold take_call, mbind, M_bind in *. destruct (Hpre st) as (l2 & Ht & Hl & _).
  destruct (modify (remove_pending a) st) as [st1 [[]|e]]; simpl in *.
  2: { exists l2, []. rewrite app_nil_r. split_and!; [done|done|by left]. }
  destruct (call_sync (ActRemember a) st1) as [st2 [[]|e]]; simpl in *.
  2: { exists l2, []. rewrite app_nil_r. split_and!; [done|done|by left]. }
  destruct (releaseAll None st2) as [st3 [[]|e]]; simpl in *.
  2: { exists l2, []. rewrite app_nil_r. split_and!; [done|done|by left]. }
  destruct (report_and_bridge_closes a media waitMs st3) as (l & Ht' & Hl').
  exists l2, l. split_and!; [by rewrite Ht', Ht, app_assoc|done|done].
Qed.

Lemma claimed_spec onCall :
  claimed onCall = true →
  ∃ e, onCall = Some e ∧ previousStatus e = Some ringing ∧ entry_callId e = Some (call_callId cfg).
Proof.
  unfold claimed. destruct onCall as [e|]; [|done]. intros [H1 H2]%andb_true_iff. exists e.
  by apply bool_decide_eq_true in H1, H2.
Qed.

(** [answered], whatever the agent's leg. *)
Definition answered_closes (a media : string) (r : result string QueueOutcome) (acts : list Action) : Prop :=
  match r with
  | Ok (OutAnswered a' waitMs) =>
      a' = a ∧ ∃ l2 l, acts = l ∧ put_through a media waitMs l2 l ∧ Forall silent l2
  | Ok (OutFailed _) | Throw _ => at_most_one acts
  | _ => False
  end.

Lemma answered_reports a media st :
  ∃ l, trace (answered a media st).1.1 = trace st.1 ++ l ∧ answered_closes a media (answered a media st).2 l.
Proof.
  destruct st as [s w]. unfold answered, waited, port_ans, mbind, M_bind. unfold get at 1. simpl.
  set (wt := Z.max 0 (w_now w - joinedAt s)). set (req := on_call_request a).
  destruct (w_transition w req) as [w1 [oc|e]]; simpl.
  2: { eexists. split; [by rewrite <- app_assoc|]. left. by repeat constructor. }
  set (taking := [ActTransition req; AnsTransition req (Ok oc)]).
  set (st1 := (settle (w_done w1) (log (AnsTransition req (Ok oc)) (log (ActTransition req) s)), w1)).
  assert (trace st1.1 = trace s ++ taking) as Ht1 by (subst st1; simpl; by rewrite <- app_assoc).
  assert (Forall silent taking) as Htk by by repeat constructor.
  destruct (claimed oc) eqn:Hc; simpl.
  - apply claimed_spec in Hc as (e & -> & He).
    destruct (take_call_closes a media wt st1) as (l2 & l & Ht & Hl2 & Hl).
    exists (taking ++ l2 ++ l). rewrite Ht, Ht1, <- app_assoc. split; [done|].
    destruct (take_call a media wt st1).2 as [[a' wt'| | | |why]|]; simpl in *; try done.
    + destruct Hl as (-> & ->). split; [done|]. exists l2. eexists. split_and!; [done|by exists e|done].
    + apply (at_most_one_pre taking); [done|]. by apply at_most_one_pre.
    + apply (at_most_one_pre taking); [done|]. by apply at_most_one_pre.
  - unfold call_unit, port. destruct (w_unit w1 (ActHangupAgent media)) as [w2 [[]|e]]; simpl;
      (exists (taking ++ [ActHangupAgent media]); split; [by subst taking; rewrite <- !app_assoc|];
       left; apply Forall_app; by repeat constructor).
Qed.

(** The dial of the agents, and what the answer of one of them leads to. *)
Lemma dial_reports attempts fan k :
  (∀ outcome, (∀ a media, outcome ≠ DialAnswered a media) → reports (k outcome)) →
  (∀ a media, k (DialAnswered a media) = (out ← answered a media; mret (Some out))) →
  reports (port_ans (ActDial attempts fan) AnsDial (λ w, w_dial w attempts fan) ≫= k).
Proof.
  intros Hk Ha [s w]. unfold mbind at 1 2, M_bind at 1 2, port_ans at 1 2.
  destruct (w_dial w attempts fan) as [w1 [outcome|e]]; simpl.
  2: { eexists. split; [by rewrite <- app_assoc|]. left. by repeat constructor. }
  set (st1 := (settle _ _, w1)).
  assert (trace st1.1 = trace s ++ [ActDial attempts fan; AnsDial (Ok outcome)]) as Ht1
    by (subst st1; simpl; by rewrite <- app_assoc).
  assert (Forall silent [ActDial attempts fan; AnsDial (Ok outcome)]) as Hsil by by repeat constructor.
  assert ((∀ a media, outcome ≠ DialAnswered a media) →
    ∃ l, trace (k outcome st1).1.1 = trace s ++ l ∧ closes (k outcome st1).2 l) as Hother.
  { intros Hne. destruct (Hk outcome Hne st1) as (l & Ht & Hl). eexists.
    split; [by rewrite Ht, Ht1, <- app_assoc|by apply closes_pre]. }
  destruct outcome as [a media|a cause| |]; [|by apply Hother..].
  destruct (answered_reports a media st1) as (l & Ht & Hl).
  exists ([ActDial attempts fan; AnsDial (Ok (DialAnswered a media))] ++ l).
  rewrite Ha. unfold mbind, M_bind. destruct (answered a media st1) as [st2 [o|e]]; simpl in *.
  2: { split; [by rewrite Ht, <- !app_assoc|]. by apply (at_most_one_pre [_; _]). }
  split; [by rewrite Ht, <- !app_assoc|]. destruct o as [a' wt| | | |why]; simpl in Hl; try done.
  - destruct Hl as (-> & l2 & la & -> & Hp & Hl2). exists [ActDial attempts fan], media, la, l2, [].
    split_and!; [by rewrite app_nil_r|done|rewrite app_nil_r; by repeat constructor].
  - by apply (at_most_one_pre [_; _]).
Qed.

Lemma releaseAll_silent cause : acts silent (releaseAll cause).
Proof. eapply acts_weaken; [exact release_silent|apply releaseAll_acts]. Qed.

Lemma reserveEach_silent cs : acts silent (reserveEach cs).
Proof. eapply acts_weaken; [|apply reserveEach_acts]. by intros []. Qed.

Lemma offer_body_reports cs : reports (offer_body cs).
Proof.
  unfold offer_body, offer_reserved. apply reports_bind; [apply reserveEach_silent|]. intros reserved.
  destruct (length reserved =? 0).
  { apply reports_bind; [acts_tac|intros _]. by apply reports_ret. }
  apply reports_bind; [acts_tac|intros _]. apply dial_reports; [|done]. intros outcome Hne.
  destruct outcome as [a media|a cause| |]; [by destruct (Hne a media)|..].
  - apply reports_bind; [apply releaseAll_silent|intros _].
    apply reports_bind; [by apply startMusic_acts|intros _]. by apply reports_ret.
  - apply reports_bind; [apply releaseAll_silent|intros _].
    apply reports_bind; [by apply startMusic_acts|intros _]. by apply reports_ret.
  - apply reports_bind; [apply releaseAll_silent|intros _]. apply abandon_reports.
Qed.

Lemma try_finally_reports m f : reports m → acts silent f → reports (try_finally m f).
Proof.
  intros Hm Hf st. unfold try_finally. destruct (Hm st) as (l & Ht & Hl).
  destruct (m st) as [st1 r] eqn:E; simpl in *.
  destruct (Hf st1) as (l' & Ht' & Hl' & _). exists (l ++ l').
  destruct (f st1) as [st2 [[]|e]]; simpl in *;
    (split; [by rewrite Ht', Ht, app_assoc|]); [by apply closes_post|].
  apply at_most_one_post; [done|]. by eapply closes_one.
Qed.

Lemma offer_reports cs : reports (offer cs).
Proof.
  unfold offer. apply reports_bind; [acts_tac|intros _].
  apply try_finally_reports; [apply offer_body_reports|apply releaseAll_silent].
Qed.

(** Storing the frozen order is not a call. *)
Lemma set_frozen_reports f k : reports k → reports (_ ← modify (set_frozen f); k).
Proof.
  intros Hk [s w]. unfold mbind, M_bind, modify.
  destruct (Hk (set_frozen f s, w)) as (l & Ht & Hl). by exists l.
Qed.

Lemma pass_reports : reports pass.
Proof.
  unfold pass. apply reports_bind; [acts_tac|]. intros [s w]. destruct (w_tearingDown w).
  { apply abandon_reports. }
  apply reports_bind; [acts_tac|]. intros waitedMs.
  apply reports_bind; [acts_tac|]. intros [m|].
  2: { apply reports_bind; [acts_tac|intros _]. by apply reports_ret. }
  apply reports_bind; [acts_tac|]. intros states. destruct (deadlineReached _ _ _ _) as [why|].
  { apply timeOut_reports. }
  apply reports_bind; [acts_tac|]. intros [s2 w2].
  destruct (nextCandidates _ _ _ _ _ _ _ _ _) as [frozen cands]. apply set_frozen_reports.
  destruct cands as [|c cs]; [|apply offer_reports].
  apply reports_bind; [by apply announceIfDue_acts|intros _].
  apply reports_bind; [acts_tac|intros _]. by apply reports_ret.
Qed.

Lemma loop_reports n : reports (loop n).
Proof.
  induction n as [|n IH]; cbn [loop]; [by apply reports_ret|].
  intros st. destruct (pass_reports st) as (l & Ht & Hl). unfold mbind, M_bind.
  destruct (pass st) as [st1 [[o|]|e]] eqn:E; simpl in *; [by exists l| |by exists l].
  destruct (IH st1) as (l' & Ht' & Hl'). exists (l ++ l').
  split; [by rewrite Ht', Ht, app_assoc|by apply closes_pre].
Qed.

Lemma wait_reports n : reports (wait n).
Proof.
  unfold wait. apply reports_bind; [unfold playGreeting; acts_tac|intros _].
  apply reports_bind; [by apply startMusic_acts|intros _]. apply loop_reports.
Qed.

Lemma try_catch_reports m h : reports m →
  (∀ e, acts silent (h e)) → (∀ e st, ∃ why, (h e st).2 = Ok (Some (OutFailed why))) →
  reports (try_catch m h).
Proof.
  intros Hm Hh Ho st. unfold try_catch. destruct (Hm st) as (l & Ht & Hl).
  destruct (m st) as [st1 [a|e]] eqn:E; simpl in *; [by exists l|].
  destruct (Hh e st1) as (l' & Ht' & Hl' & _). destruct (Ho e st1) as [why Hw].
  exists (l ++ l'). rewrite Hw. split; [by rewrite Ht', Ht, app_assoc|].
  by apply at_most_one_post.
Qed.

(** C31. A caller's fate is reported once, and it is what happened: however the
    ports answer or fail, a session that is still waiting has reported nothing. One
    that ends answered rang an agent whose leg answered; the write that moves that agent
    onto the call succeeded, from ringing for this call; then that agent and that wait
    were reported, and then that leg was bridged and the bridge held. One that ends
    abandoned or timed out has reported exactly that with that wait; nothing is ever
    reported twice. *)
Theorem session_reports_once (n : nat) (w : W) :
  let st := (run n (session_init, w)).1 in
  closes (run n (session_init, w)).2 (trace st.1) ∧ at_most_one (trace st.1).
Proof.
  assert (reports (run n)) as Hr.
  { unfold run. apply reports_bind; [acts_tac|]. intros [|]; cbn [negb].
    2: { intros st. exists []. rewrite app_nil_r. split; [done|]. by constructor. }
    apply reports_bind; [acts_tac|]. intros [s1 w1].
    apply reports_bind.
    { intros [s2 w2]. exists [ActPositionJoin]. destruct (w_join w2) as [w3 p]. simpl.
      split_and!; [done|by repeat constructor|done]. }
    intros position. apply reports_bind; [acts_tac|intros _].
    apply reports_bind; [acts_tac|intros _]. apply reports_bind; [acts_tac|intros _].
    intros st. destruct (try_catch_reports (wait n)
      (λ e, _ ← call_sync ActNote; mret (Some (OutFailed e))) (wait_reports n)) with (st := st)
      as (l & Ht & Hl); [intros e; acts_tac|by intros e [s2 w2]; eexists|].
    unfold mbind, M_bind. destruct (try_catch _ _ st) as [st1 [[o|]|e]]; simpl in *;
      [|by exists l|by exists l].
    exists (l ++ [ActPositionLeave]). destruct st1 as [s2 w2]. simpl in *.
    split; [by rewrite Ht, app_assoc|]. apply (closes_post (Ok (Some o)) l [ActPositionLeave]);
      [by repeat constructor|done]. }
  simpl. destruct (Hr (session_init, w)) as (l & Ht & Hl). simpl in Ht. rewrite Ht.
  split; [done|]. by eapply closes_one.
Qed.

(** Nobody is rung past the deadline: a pass that begins when the caller has
    waited the maximum, with the caller still there and the roster and the states
    readable, ends the wait with a timeout (or stops at a port that failed) and
    makes no reservation and no call to an agent. *)
Theorem deadline_ends_wait (s : Session) (w w1 w2 : W) (m : QueueMembership)
    (states : gmap string AgentStateEntry) :
  w_tearingDown w = false → w_membership w = (w1, Ok (Some m)) →
  w_states w1 (agentId <$> agents m) = (w2, Ok states) →
  (0 < Plan.queue_maxWaitSeconds (node cfg))%Z →
  (Plan.queue_maxWaitSeconds (node cfg) * MILLIS_PER_SECOND <= w_now w - joinedAt s)%Z →
  let r := pass (s, w) in
  (∃ l, trace r.1.1 = trace s ++ l ∧ Forall no_ring l) ∧
  match r.2 with
  | Ok (Some (OutTimeout why _)) => why = abandon_timeout ∨ why = abandon_no_agents
  | Ok _ => False
  | Throw _ => True
  end.
Proof.
  intros Htd Hm Hs H0 Hmax. cbv zeta.
  set (wt := Z.max 0 (w_now w - joinedAt s)).
  assert (∃ why, deadlineReached cfg wt m states = Some why ∧
                 (why = abandon_timeout ∨ why = abandon_no_agents)) as (why & Hd & Hwhy).
  { unfold deadlineReached. destruct (_ && negb _); [by eauto|].
    replace (0 <? _)%Z with true by (symmetry; by apply Z.ltb_lt).
    replace (_ <=? wt)%Z with true by (symmetry; apply Z.leb_le; lia). by eauto. }
  set (s2 := settle (w_done w2) (log (ActReadStates (agentId <$> agents m))
               (settle (w_done w1) (log ActMembership s)))).
  assert (pass (s, w) = (out ← timeOut why; mret (Some out)) (s2, w2)) as ->.
  { unfold pass, waited, port, mbind, M_bind, get. simpl. rewrite Htd. simpl.
    fold wt. rewrite Hm, Hs. fold s2. by rewrite Hd. }
  assert (acts no_ring (out ← timeOut why; mret (Some out))) as Ha by (unfold timeOut, abandon; acts_tac).
  destruct (Ha (s2, w2)) as (l & Ht & Hl & _). split.
  { exists ([ActMembership; ActReadStates (agentId <$> agents m)] ++ l).
    rewrite Ht. simpl. rewrite <- !app_assoc. split; [done|]. by repeat constructor. }
  clear Ht Hl. unfold timeOut, abandon, waited, call_sync, call_unit, port, mbind, M_bind, get. simpl.
  destruct (w_unit w2 ActStopMusic) as [w3 [[]|e]]; simpl; [|done].
  destruct (w_unit w3 _) as [w4 [[]|e]]; simpl; [|done].
  destruct Hwhy as [-> | ->]; simpl; auto.
Qed.

(** ** Reservations *)

(** Every retry in flight was scheduled by the current offer. *)
Definition retries_mine (s : Session) : Prop := Forall (λ p, p.2 = offerNo s) (transitionRetries s).

(** Every pending agent is one still to be visited or is in the hands of a
    retry. *)
Definition covered (ids : list string) (s : Session) : Prop :=
  retries_mine s ∧
  ∀ c, c ∈ pending s → cand_id c ∈ ids ∨ has_retry s (cand_id c) = true.

Lemma settle_offerNo finished s : offerNo (settle finished s) = offerNo s.
Proof. done. Qed.

Lemma settle_mine finished s : retries_mine s → retries_mine (settle finished s).
Proof.
  unfold retries_mine. simpl. intros Hm. apply Forall_forall. intros p Hp.
  apply list_elem_of_In, List.filter_In in Hp as [Hp _]. apply list_elem_of_In in Hp.
  by eapply Forall_forall in Hm.
Qed.

Lemma has_retry_spec s id : has_retry s id = true ↔ ∃ n, (id, n) ∈ transitionRetries s.
Proof.
  unfold has_retry. rewrite includes_spec, list_elem_of_fmap. split.
  - intros ([a n] & -> & Hp). eauto.
  - intros [n Hp]. by exists (id, n).
Qed.

(** A finished retry takes its agent out of the map with it. *)
Lemma settle_covered ids finished s : covered ids s → covered ids (settle finished s).
Proof.
  intros [Hm Hc]. split; [by apply settle_mine|]. intros c Hin. simpl in Hin.
  apply list_elem_of_In, List.filter_In in Hin as [Hin Hkeep]. apply list_elem_of_In in Hin.
  destruct (Hc c Hin) as [Hid|Hr]; [by left|]. right.
  apply has_retry_spec in Hr as [n Hr].
  assert (n = offerNo s) as -> by (by eapply Forall_forall in Hm; [|exact Hr]).
  destruct (includes finished (cand_id c)) eqn:Hf; simpl in Hkeep.
  - exfalso. apply negb_true_iff in Hkeep. apply not_true_iff_false in Hkeep. destruct Hkeep.
    apply existsb_exists. exists (cand_id c, offerNo s). split; [by apply list_elem_of_In|].
    by rewrite bool_decide_eq_true_2, Nat.eqb_refl.
  - apply has_retry_spec. exists (offerNo s). simpl. apply list_elem_of_In, List.filter_In.
    split; [by apply list_elem_of_In|]. by rewrite Hf.
Qed.

Lemma covered_log ids a s : covered ids s → covered ids (log a s).
Proof. done. Qed.

(** The agents' ports answer; they do not throw. *)
Definition agents_answer : Prop :=
  (∀ w r, ∃ w' x, w_transition w r = (w', Ok x)) ∧ (∀ w a, ∃ w' x, w_readState w a = (w', Ok x)).

Lemma tryOwnedTransition_covered ids request st :
  agents_answer → covered ids st.1 →
  ∃ st' x, tryOwnedTransition request st = (st', Ok x) ∧ covered ids st'.1.
Proof.
  intros [Ht Hr] Hc. destruct st as [s w]. unfold tryOwnedTransition, port_ans, mbind, M_bind.
  destruct (Ht w request) as (w1 & x & Hx). rewrite Hx.
  set (s1 := settle (w_done w1) _).
  assert (covered ids s1) as Hc1 by (by apply settle_covered).
  destruct x as [e|]; [by eexists _, _|].
  destruct (Hr w1 (req_agentId request)) as (w2 & y & Hy). rewrite Hy. eexists _, _.
  split; [done|]. by apply settle_covered.
Qed.

Lemma covered_drop c ids s :
  covered (cand_id c :: ids) s →
  includes (cand_id <$> pending s) (cand_id c) = false ∨ has_retry s (cand_id c) = true →
  covered ids s.
Proof.
  intros [Hm Hc] Hd. split; [done|]. intros d Hin. destruct (Hc d Hin) as [Hid|]; [|by right].
  apply elem_of_cons in Hid as [Heq|]; [|by left]. right. destruct Hd as [Hn|Hr]; [|by rewrite Heq].
  apply includes_false in Hn. destruct Hn. rewrite <- Heq. by apply list_elem_of_fmap_2.
Qed.

Lemma covered_remove c ids s :
  covered (cand_id c :: ids) s → covered ids (remove_pending (cand_id c) s).
Proof.
  intros [Hm Hc]. split; [done|]. intros d Hin. simpl in Hin.
  apply list_elem_of_In, List.filter_In in Hin as [Hin Hne]. apply list_elem_of_In in Hin.
  apply negb_true_iff, bool_decide_eq_false in Hne.
  destruct (Hc d Hin) as [Hid|]; [|by right]. apply elem_of_cons in Hid as [|]; [done|by left].
Qed.

Lemma covered_retry c ids s :
  covered (cand_id c :: ids) s →
  covered ids (set_retries (transitionRetries s ++ [(cand_id c, offerNo s)]) s).
Proof.
  intros [Hm Hc]. split; [apply Forall_app; split; [done|by repeat constructor]|].
  intros d Hin. rewrite has_retry_spec. setoid_rewrite elem_of_app. simpl.
  destruct (Hc d Hin) as [Hid|Hr].
  - apply elem_of_cons in Hid as [->|]; [|by left]. right. exists (offerNo s). right.
    apply list_elem_of_here.
  - right. apply has_retry_spec in Hr as [n Hn]. eauto.
Qed.

Lemma releaseEach_covered cs cause st :
  agents_answer → covered (cand_id <$> cs) st.1 →
  ∃ st', releaseEach cs cause st = (st', Ok tt) ∧ covered [] st'.1.
Proof.
  intros Ha. revert st. induction cs as [|c cs IH]; intros [s w] Hc; cbn [releaseEach].
  { by exists (s, w). }
  unfold mbind at 1, M_bind at 1. unfold get at 1. cbv beta iota.
  destruct (negb (includes (cand_id <$> pending s) (cand_id c))) eqn:Hin; cbn [orb].
  { apply IH. eapply covered_drop; [exact Hc|]. left. by apply negb_true_iff. }
  destruct (has_retry s (cand_id c)) eqn:Hret.
  { apply IH. eapply covered_drop; [exact Hc|]. by right. }
  destruct (releaseFor cfg (w_now w) c cause) as [request until].
  unfold mbind at 1, M_bind at 1, modify at 1. cbv beta iota.
  set (s1 := match until with None => s | Some t => set_tried (<[cand_id c := t]> (tried s)) s end).
  assert (covered (cand_id <$> (c :: cs)) s1) as Hc1 by (unfold s1; by destruct until).
  unfold mbind at 1, M_bind at 1.
  assert (∃ s2, (if bool_decide (req_to request = unavailable) then call_sync ActNote else mret tt)
                  (s1, w) = ((s2, w), Ok tt) ∧ covered (cand_id <$> (c :: cs)) s2) as (s2 & Hn & Hc2).
  { destruct (bool_decide _); [by eexists|by exists s1]. }
  rewrite Hn. unfold mbind at 1, M_bind at 1.
  destruct (tryOwnedTransition_covered (cand_id <$> (c :: cs)) request (s2, w) Ha Hc2)
    as ([s3 w3] & r & Hr & Hc3). rewrite Hr. simpl in Hc3. unfold mbind at 1, M_bind at 1.
  destruct r.
  - apply IH. by apply covered_remove.
  - apply IH. by apply covered_remove.
  - unfold mbind at 1, M_bind at 1, get at 1. cbv beta iota.
    destruct (has_retry s3 (cand_id c)) eqn:Hret3.
    + apply IH. eapply covered_drop; [exact Hc3|]. by right.
    + apply IH. by apply covered_retry.
Qed.

Lemma releaseAll_covered cause st :
  agents_answer → retries_mine st.1 →
  ∃ st', releaseAll cause st = (st', Ok tt) ∧ covered [] st'.1.
Proof.
  intros Ha Hm. destruct st as [s w]. unfold releaseAll, mbind, M_bind, get.
  apply releaseEach_covered; [done|]. split; [done|]. intros c Hc. left. simpl in *.
  by apply list_elem_of_fmap_2.
Qed.

(** *** Operations that keep the retries of the current offer *)
Definition keeps {A} (m : M A) : Prop := ∀ st, retries_mine st.1 → retries_mine (m st).1.1.

Lemma keeps_bind {A B} (m : M A) (k : A → M B) : keeps m → (∀ a, keeps (k a)) → keeps (m ≫= k).
Proof.
  intros Hm Hk st Hst. unfold mbind, M_bind. specialize (Hm st Hst).
  destruct (m st) as [st1 [a|e]]; [|done]. by apply Hk.
Qed.

Lemma keeps_ret {A} (a : A) : keeps (mret a).
Proof. by intros st. Qed.

Lemma keeps_get : keeps get.
Proof. by intros st. Qed.

Lemma keeps_modify f :
  (∀ s, retries_mine s → retries_mine (f s)) → keeps (modify f).
Proof. intros Hf [s w]. apply Hf. Qed.

Lemma keeps_port {A} a (op : W → W * result string A) : keeps (port a op).
Proof.
  intros [s w] Hs. unfold port. destruct (op w) as [w' r]. by apply settle_mine.
Qed.

Lemma keeps_port_ans {A} a ans (op : W → W * result string A) : keeps (port_ans a ans op).
Proof.
  intros [s w] Hs. unfold port_ans. destruct (op w) as [w' r]. by apply settle_mine.
Qed.

Ltac keeps_tac :=
  repeat (first
    [ apply keeps_bind; [|intros ?]
    | apply keeps_ret | apply keeps_get | apply keeps_port | apply keeps_port_ans
    | apply keeps_modify; intros; by (repeat case_match)
    | progress case_match
    | progress unfold call_unit, call_bool, call_sync, waited ]).

Lemma releaseEach_keeps cs cause : keeps (releaseEach cs cause).
Proof.
  induction cs as [|c cs IH]; cbn [releaseEach]; [apply keeps_ret|].
  unfold tryOwnedTransition. keeps_tac; auto.
  apply keeps_modify. intros s' Hs. apply Forall_app. split; [done|by repeat constructor].
Qed.

Lemma releaseAll_keeps cause : keeps (releaseAll cause).
Proof. unfold releaseAll. apply keeps_bind; [apply keeps_get|]. intros [s w]. apply releaseEach_keeps. Qed.

Lemma reserveEach_keeps cs : keeps (reserveEach cs).
Proof. induction cs as [|c cs IH]; cbn [reserveEach]; keeps_tac; auto. Qed.

Lemma startMusic_keeps : keeps startMusic.
Proof. unfold startMusic. keeps_tac. Qed.

Lemma abandon_keeps why : keeps (abandon why).
Proof. unfold abandon. keeps_tac. Qed.

Lemma answered_keeps a media : keeps (answered a media).
Proof.
  unfold answered. apply keeps_bind; [keeps_tac|]. intros wt. apply keeps_bind; [keeps_tac|].
  intros oc. destruct (claimed oc); cbn [negb]; [|keeps_tac].
  unfold take_call. apply keeps_bind; [keeps_tac|intros _]. apply keeps_bind; [keeps_tac|intros _].
  apply keeps_bind; [apply releaseAll_keeps|intros _]. unfold report_and_bridge. keeps_tac.
Qed.

Lemma offer_body_keeps cs : keeps (offer_body cs).
Proof.
  unfold offer_body, offer_reserved. apply keeps_bind; [apply reserveEach_keeps|]. intros reserved.
  destruct (length reserved =? 0); [keeps_tac|].
  apply keeps_bind; [keeps_tac|intros _]. apply keeps_bind; [keeps_tac|]. intros outcome.
  destruct outcome as [a media|a cause| |];
    (apply keeps_bind; [first [apply answered_keeps|apply releaseAll_keeps]|intros ?]);
    try apply keeps_ret; (apply keeps_bind; [first [apply startMusic_keeps|apply abandon_keeps]|intros ?]);
    apply keeps_ret.
Qed.

(** *** Every reserved agent is let go *)

(** Since [base] the agent [id] was let go: a write made it available or unavailable
    again, or took it onto this call from ringing; or the store had lost the entry, or
    given it to something else; or a retry was scheduled. *)
Definition let_go (base : list Action) (s : Session) (id : string) : Prop :=
  ∃ l, trace s = base ++ l ∧
    ((∃ r e, AnsTransition r (Ok (Some e)) ∈ l ∧ req_agentId r = id ∧
        (req_to r = available ∨ req_to r = unavailable ∨
         req_to r = on_call ∧ previousStatus e = Some ringing ∧ entry_callId e = Some (call_callId cfg))) ∨
     (∃ read, AnsReadState id (Ok read) ∈ l ∧
        match read with
        | ReadAbsent => True
        | ReadFound e _ => status e ∉ [ringing; on_call; wrap_up] ∨ entry_callId e ≠ Some (call_callId cfg)
        | ReadUnavailable => False
        end) ∨
     ∃ r ms, ActScheduleRetry r ms ∈ l ∧ req_agentId r = id).

(** The agents [R] are pending or were let go, those of [T] were let go, and so was
    every agent in the hands of a retry. *)
Definition accounted (base : list Action) (R T : list string) (s : Session) : Prop :=
  (∃ l, trace s = base ++ l) ∧
  (∀ p, p ∈ transitionRetries s → let_go base s p.1) ∧
  (∀ id, id ∈ T → let_go base s id) ∧
  (∀ id, id ∈ R → id ∈ cand_id <$> pending s ∨ let_go base s id).

(** [m] keeps the account; once it returns, the agents of [T'] were let go. *)
Definition tracks {A} (base : list Action) (R T : list string) (T' : A → list string) (m : M A) : Prop :=
  ∀ st, accounted base R T st.1 →
        accounted base R (match (m st).2 with Ok a => T' a | Throw _ => [] end) (m st).1.1.

Lemma accounted_weaken base R T T' s : T' ⊆ T → accounted base R T s → accounted base R T' s.
Proof. intros Hsub (Hl & Hr & Ht & Hp). split_and!; auto. Qed.

Lemma let_go_grow base s s' a id :
  trace s' = trace s ++ [a] → let_go base s id → let_go base s' id.
Proof.
  intros Ht (l & Hs & H1). exists (l ++ [a]). rewrite Ht, Hs, app_assoc. split; [done|].
  destruct H1 as [(r & e & Hin & Hx)|[(x & Hin & Hx)|(r & d & Hin & Hx)]];
    [left|right; left|right; right]; eexists _;
    first [split; [apply elem_of_app; by left|exact Hx]
          |eexists; split; [apply elem_of_app; by left|exact Hx]].
Qed.

Lemma accounted_log base R T a s : accounted base R T s → accounted base R T (log a s).
Proof.
  intros ((l & Hl) & Hr & Ht & Hp).
  assert (∀ id, let_go base s id → let_go base (log a s) id) as Hg
    by (intros id; by apply let_go_grow with (a := a)).
  split_and!; [exists (l ++ [a]); simpl; by rewrite Hl, app_assoc|by eauto|by eauto|].
  intros id Hid. destruct (Hp id Hid); [by left|right; auto].
Qed.

(** What leaves the map with a finished retry was let go. *)
Lemma accounted_settle base R T finished s :
  accounted base R T s → accounted base R T (settle finished s).
Proof.
  intros (Hl & Hr & Ht & Hp). split_and!; [done| |done|].
  { intros p Hin. simpl in Hin. apply list_elem_of_In, List.filter_In in Hin as [Hin _].
    apply list_elem_of_In in Hin. by apply (Hr p). }
  intros id Hid. destruct (Hp id Hid) as [Hpend|]; [|by right].
  apply list_elem_of_fmap in Hpend as (c & -> & Hc).
  destruct (includes finished (cand_id c) &&
            existsb (λ '(a, n), bool_decide (a = cand_id c) && (n =? offerNo s)) (transitionRetries s))
    eqn:E.
  - right. apply andb_true_iff in E as [_ E]. apply existsb_exists in E as ([a n] & Hin & E).
    apply andb_true_iff in E as [E _]. apply bool_decide_eq_true in E as ->.
    apply list_elem_of_In in Hin. by apply (Hr _ Hin).
  - left. apply list_elem_of_fmap_2. simpl. apply list_elem_of_In, List.filter_In.
    split; [by apply list_elem_of_In|]. by rewrite E.
Qed.

Lemma accounted_remove base R T id s :
  id ∈ T → accounted base R T s → accounted base R T (remove_pending id s).
Proof.
  intros Hid (Hl & Hr & Ht & Hp). split_and!; auto. intros i Hi.
  destruct (Hp i Hi) as [Hpend|]; [|by right].
  destruct (decide (i = id)) as [->|Hne]; [right; by apply Ht|left].
  apply list_elem_of_fmap in Hpend as (c & -> & Hc). apply list_elem_of_fmap_2. simpl.
  apply list_elem_of_In, List.filter_In. split; [by apply list_elem_of_In|].
  by rewrite bool_decide_eq_false_2.
Qed.

(** A retry is scheduled. *)
Lemma accounted_retry base R T request ms n s :
  accounted base R T s →
  accounted base R T (log (ActScheduleRetry request ms)
    (set_retries (transitionRetries s ++ [(req_agentId request, n)]) s)).
Proof.
  intros Ha. pose proof (accounted_log _ _ _ (ActScheduleRetry request ms) _ Ha) as (Hl & Hr & Ht & Hp).
  split_and!; auto. simpl. intros p [Hin|Hin]%elem_of_app; [by apply (Hr p)|].
  apply list_elem_of_singleton in Hin as ->. destruct Ha as ((l & Hs) & _).
  exists (l ++ [ActScheduleRetry request ms]). simpl. rewrite Hs, app_assoc. split; [done|].
  right. right. eexists _, _. split; [|done]. apply elem_of_app. right. apply list_elem_of_here.
Qed.

(** An answer that lets [id] go. *)
Lemma accounted_answer base R T a id s :
  (∀ l, trace s = base ++ l → let_go base (log a s) id) →
  accounted base R T s → accounted base R (id :: T) (log a s).
Proof.
  intros Hid Ha. pose proof (accounted_log _ _ _ a _ Ha) as (Hl & Hr & Ht & Hp).
  split_and!; auto. intros i [->|Hi]%elem_of_cons; [|auto].
  destruct Ha as ((l & Hs) & _). by apply (Hid l).
Qed.

Section Tracking.
Context (base : list Action) (R : list string).
Implicit Types T : list string.

Lemma tracks_bind {A B} T (T1 : A → list string) (T2 : B → list string) (m : M A) (k : A → M B) :
  tracks base R T T1 m → (∀ a, tracks base R (T1 a) T2 (k a)) → tracks base R T T2 (m ≫= k).
Proof.
  intros Hm Hk st Hst. unfold mbind, M_bind. specialize (Hm st Hst).
  destruct (m st) as [st1 [a|e]]; [|done]. by apply Hk.
Qed.

Lemma tracks_const {A} T (a : A) : tracks base R T (λ _, T) (mret a).
Proof. by intros st. Qed.

Lemma tracks_get T : tracks base R T (λ _, T) get.
Proof. by intros st. Qed.

Lemma tracks_modify T f :
  (∀ s, accounted base R T s → accounted base R T (f s)) → tracks base R T (λ _, T) (modify f).
Proof. intros Hf [s w]. apply Hf. Qed.

Lemma tracks_sync T a : tracks base R T (λ _, T) (call_sync a).
Proof. apply tracks_modify. intros s. apply accounted_log. Qed.

Lemma tracks_port {A} T a (op : W → W * result string A) : tracks base R T (λ _, T) (port a op).
Proof.
  intros [s w] Hs. unfold port. destruct (op w) as [w' [x|e]]; simpl.
  - by apply accounted_settle, accounted_log.
  - apply (accounted_weaken _ _ T); [set_solver|]. by apply accounted_settle, accounted_log.
Qed.

Lemma tracks_port_ans {A} T (T' : A → list string) a ans (op : W → W * result string A) :
  (∀ x s, accounted base R T s → accounted base R (T' x) (log (ans (Ok x)) s)) →
  tracks base R T T' (port_ans a ans op).
Proof.
  intros Hx [s w] Hs. unfold port_ans. apply (accounted_log _ _ _ a) in Hs.
  destruct (op w) as [w' [x|e]]; simpl; apply accounted_settle; [by apply Hx|].
  apply (accounted_weaken _ _ T); [set_solver|]. by apply accounted_log.
Qed.

Lemma tracks_ans {A} T a ans (op : W → W * result string A) : tracks base R T (λ _, T) (port_ans a ans op).
Proof. apply tracks_port_ans. intros x s. apply accounted_log. Qed.

Lemma tracks_weaken {A} T1 T1' (T2 T2' : A → list string) (m : M A) :
  T1' ⊆ T1 → (∀ a, T2' a ⊆ T2 a) → tracks base R T1' T2 m → tracks base R T1 T2' m.
Proof.
  intros H1 H2 Hm st Hst. apply (accounted_weaken _ _ T1 T1') in Hst; [|done].
  specialize (Hm st Hst). destruct (m st) as [st1 [a|e]]; simpl in *; [|done].
  eapply accounted_weaken; [apply H2|done].
Qed.

Lemma tracks_forget {A} T (m : M A) : tracks base R [] (λ _, []) m → tracks base R T (λ _, []) m.
Proof. apply tracks_weaken; set_solver. Qed.

Ltac tracks_tac :=
  repeat (first
    [ apply tracks_const | apply tracks_get | apply tracks_sync | apply tracks_port | apply tracks_ans
    | apply tracks_modify; intros; by (repeat case_match)
    | apply (tracks_bind _ (λ _, [])); [|intros ?]
    | progress case_match
    | progress unfold call_unit, call_bool, waited ]).

(** A write answered: the agent is let go when it was a release, or took the agent onto
    the call. *)
Lemma tracks_written T r op :
  tracks base R T
    (λ x, match x with
          | Some e =>
              if bool_decide (req_to r = available) || bool_decide (req_to r = unavailable) ||
                 bool_decide (req_to r = on_call) && claimed (Some e)
              then req_agentId r :: T else T
          | None => T
          end)
    (port_ans (ActTransition r) (AnsTransition r) op).
Proof.
  apply tracks_port_ans. intros [e|] s Hs; [|by apply accounted_log].
  destruct (_ || _) eqn:Hto; [|by apply accounted_log].
  apply accounted_answer; [|done]. intros l Hl.
  exists (l ++ [AnsTransition r (Ok (Some e))]). simpl. rewrite Hl, app_assoc. split; [done|].
  left. exists r, e. split_and!; [apply elem_of_app; right; apply list_elem_of_here|done|].
  apply orb_true_iff in Hto as [[Hto|Hto]%orb_true_iff|[Hto Hc]%andb_true_iff];
    apply bool_decide_eq_true in Hto; [by left|right; by left|right; right].
  by apply claimed_spec in Hc as (e' & [= <-] & ?).
Qed.

Lemma tracks_read T id op :
  tracks base R T
    (λ x, match x with
          | ReadAbsent => id :: T
          | ReadFound e _ => if isOwnedByCall e (call_callId cfg) then T else id :: T
          | ReadUnavailable => T
          end)
    (port_ans (ActReadState id) (AnsReadState id) op).
Proof.
  apply tracks_port_ans. intros x s Hs.
  assert (match x with
          | ReadAbsent => True
          | ReadFound e _ => status e ∉ [ringing; on_call; wrap_up] ∨ entry_callId e ≠ Some (call_callId cfg)
          | ReadUnavailable => False
          end → accounted base R (id :: T) (log (AnsReadState id (Ok x)) s)) as Hgo.
  { intros Hx. apply accounted_answer; [|done]. intros l Hl.
    exists (l ++ [AnsReadState id (Ok x)]). simpl. rewrite Hl, app_assoc. split; [done|].
    right. left. exists x. split; [apply elem_of_app; right; apply list_elem_of_here|done]. }
  destruct x as [e rev| |]; [|by apply Hgo|by apply accounted_log].
  unfold isOwnedByCall, call_state. destruct (_ && _) eqn:Ho; [by apply accounted_log|]. apply Hgo.
  apply andb_false_iff in Ho as [Ho|Ho]; [left|right; by apply bool_decide_eq_false in Ho].
  rewrite !orb_false_iff, !bool_decide_eq_false in Ho. clear -Ho. set_solver.
Qed.

Lemma tryOwnedTransition_tracks T r :
  req_to r = available ∨ req_to r = unavailable → req_callId r = call_callId cfg →
  tracks base R T (λ x, match x with retry => T | _ => req_agentId r :: T end) (tryOwnedTransition r).
Proof.
  intros Hto Hid. unfold tryOwnedTransition. eapply tracks_bind; [apply tracks_written|].
  intros [e|]; cbv beta iota.
  - assert (bool_decide (req_to r = available) || bool_decide (req_to r = unavailable) = true) as ->.
    { destruct Hto as [-> | ->]; by rewrite ?orb_true_r. }
    by intros st.
  - eapply tracks_bind; [apply tracks_read|]. intros x. rewrite Hid.
    destruct x as [e rev| |];
      [destruct (isOwnedByCall e (call_callId cfg))|..]; by intros st.
Qed.

Lemma releaseFor_request now c cause :
  let r := (releaseFor cfg now c cause).1 in
  req_agentId r = cand_id c ∧ req_callId r = call_callId cfg ∧
  (req_to r = available ∨ req_to r = unavailable).
Proof. unfold releaseFor. repeat case_match; simpl; auto. Qed.

Lemma releaseEach_tracks cs cause : tracks base R [] (λ _, []) (releaseEach cs cause).
Proof.
  induction cs as [|c cs IH]; cbn [releaseEach]; [apply tracks_const|].
  eapply tracks_bind; [apply tracks_get|]. intros [s w]. destruct (_ || _); [done|].
  pose proof (releaseFor_request (w_now w) c cause) as (Hid & Hcall & Hto).
  destruct (releaseFor cfg (w_now w) c cause) as [request until]. simpl in Hid, Hcall, Hto.
  apply (tracks_bind _ (λ _, [])); [apply tracks_modify; by destruct until|intros _].
  apply (tracks_bind _ (λ _, [])); [destruct (bool_decide _); tracks_tac|intros _].
  eapply tracks_bind; [by apply tryOwnedTransition_tracks|]. intros r. rewrite Hid.
  eapply (tracks_bind _ (λ _, [])); [|intros _; exact IH].
  destruct r.
  1-2: apply (tracks_weaken [cand_id c] [cand_id c] (λ _, [cand_id c])); [set_solver|set_solver|];
       apply tracks_modify; intros s'; apply accounted_remove, list_elem_of_here.
  eapply tracks_bind; [apply tracks_get|]. intros [s3 w3]. destruct (has_retry s3 _); [apply tracks_const|].
  intros [s4 w4] Hs. rewrite <- Hid. by apply accounted_retry.
Qed.

Lemma releaseAll_tracks cause : tracks base R [] (λ _, []) (releaseAll cause).
Proof.
  unfold releaseAll. eapply tracks_bind; [apply tracks_get|]. intros [s w]. apply releaseEach_tracks.
Qed.

Lemma startMusic_tracks : tracks base R [] (λ _, []) startMusic.
Proof. unfold startMusic. tracks_tac. Qed.

Lemma abandon_tracks why : tracks base R [] (λ _, []) (abandon why).
Proof. unfold abandon. tracks_tac. Qed.

Lemma answered_tracks a media : tracks base R [] (λ _, []) (answered a media).
Proof.
  unfold answered. eapply tracks_bind; [tracks_tac|]. intros wt.
  eapply tracks_bind; [apply tracks_written|]. intros oc. cbv beta.
  destruct (claimed oc) eqn:Hc; cbn [negb].
  2: { apply tracks_forget. tracks_tac. }
  destruct oc as [e|]; [|done]. rewrite Hc.
  change (tracks base R [a] (λ _, []) (take_call a media wt)).
  unfold take_call. apply (tracks_bind _ (λ _, [a])).
  { apply tracks_modify. intros s. apply accounted_remove, list_elem_of_here. }
  intros _. apply tracks_forget. apply (tracks_bind _ (λ _, [])); [apply tracks_sync|intros _].
  apply (tracks_bind _ (λ _, [])); [apply releaseAll_tracks|intros _].
  unfold report_and_bridge. tracks_tac.
Qed.

(** The rest of an offer once the agents are reserved. *)
Lemma after_reserve_tracks cs reserved :
  tracks base R [] (λ _, []) (offer_reserved cs reserved).
Proof.
  unfold offer_reserved. destruct (length reserved =? 0); [tracks_tac|].
  apply (tracks_bind _ (λ _, [])); [tracks_tac|intros _].
  apply (tracks_bind _ (λ _, [])); [apply tracks_ans|]. intros outcome.
  destruct outcome as [a media|a cause| |];
    (apply (tracks_bind _ (λ _, [])); [first [apply answered_tracks|apply releaseAll_tracks]|intros ?]);
    try apply tracks_const;
    (apply (tracks_bind _ (λ _, [])); [first [apply startMusic_tracks|apply abandon_tracks]|intros ?]);
    apply tracks_const.
Qed.
End Tracking.

(** *** What is pending when the reservations are made *)
Lemma map_set_elem p c d : c ∈ p → cand_id c ∈ cand_id <$> map_set p d.
Proof.
  intros Hc. unfold map_set. destruct (includes _ _).
  - apply list_elem_of_fmap. exists (if bool_decide (cand_id c = cand_id d) then d else c). split.
    + destruct (bool_decide (cand_id c = cand_id d)) eqn:E; [|done]. by apply bool_decide_eq_true in E.
    + apply list_elem_of_fmap. by exists c.
  - apply list_elem_of_fmap_2, elem_of_app. by left.
Qed.

Lemma map_set_self p d : cand_id d ∈ cand_id <$> map_set p d.
Proof.
  unfold map_set. destruct (includes _ _) eqn:E.
  - apply includes_spec, list_elem_of_fmap in E as (c & Hid & Hc). apply list_elem_of_fmap.
    exists d. split; [done|]. apply list_elem_of_fmap. exists c. split; [|done].
    by rewrite bool_decide_eq_true_2.
  - apply list_elem_of_fmap_2, elem_of_app. right. apply list_elem_of_here.
Qed.

(** The entry of an agent moved to [ringing] for this call. *)
Definition rung_for_call (e : AgentStateEntry) : Prop :=
  (previousStatus e = Some available ∨ previousStatus e = Some wrap_up) ∧
  entry_callId e = Some (call_callId cfg).

Lemma reserved_by_call_spec e : reserved_by_call (Some e) = true ↔ rung_for_call e.
Proof. unfold reserved_by_call, rung_for_call. by rewrite andb_true_iff, orb_true_iff, !bool_decide_eq_true. Qed.

(** The agents whose reservation was answered with such an entry are in the map. *)
Definition reservations_kept (acts : list Action) (s : Session) : Prop :=
  ∀ r e, AnsReserve r (Ok (Some e)) ∈ acts → rung_for_call e → req_agentId r ∈ cand_id <$> pending s.

(** With no retry in flight the map only grows: it holds what it held and every
    agent the loop moved to [ringing]. *)
Lemma reserveEach_pending cs st :
  transitionRetries st.1 = [] →
  let st' := (reserveEach cs st).1 in
  transitionRetries st'.1 = [] ∧
  (∃ l, trace st'.1 = trace st.1 ++ l ∧ reservations_kept l st'.1) ∧
  (∀ id, id ∈ cand_id <$> pending st.1 → id ∈ cand_id <$> pending st'.1).
Proof.
  revert st. induction cs as [|c cs IH]; intros [s w] Hr; cbn [reserveEach].
  { simpl in *. split_and!; [done|exists []; split; [by rewrite app_nil_r|by intros ? ? ?%elem_of_nil]|done]. }
  cbv zeta. unfold mbind, M_bind, get, port_ans. cbv beta iota.
  destruct (w_reserve w (reserve_request c) (w_now w)) as [w1 r].
  set (acts0 := [ActReserve (reserve_request c) (w_now w); AnsReserve (reserve_request c) r]).
  set (s1 := settle _ _).
  assert (transitionRetries s1 = [] ∧ pending s1 = pending s ∧ trace s1 = trace s ++ acts0) as (Hr1 & Hp1 & Ht1).
  { subst s1 acts0. unfold settle. simpl in *. rewrite Hr, <- app_assoc. split_and!; [done| |done].
    simpl. induction (pending s) as [|x l IHl]; simpl; [done|]. rewrite andb_false_r. simpl. by rewrite IHl. }
  clearbody s1. simpl in Hr. destruct r as [written|e]; simpl.
  2: { split_and!; [done| |by rewrite Hp1]. exists acts0. split; [done|].
       intros r' e' Hin. apply elem_of_cons in Hin as [|Hin]; [done|].
       by apply list_elem_of_singleton in Hin. }
  assert (∀ (s2 : Session) st', transitionRetries s2 = [] → trace s2 = trace s1 →
    (∀ id, id ∈ cand_id <$> pending s1 → id ∈ cand_id <$> pending s2) →
    (reserved_by_call written = true → cand_id c ∈ cand_id <$> pending s2) →
    st' = (reserveEach cs (s2, w1)).1 →
    transitionRetries st'.1 = [] ∧
    (∃ l, trace st'.1 = trace s ++ l ∧ reservations_kept l st'.1) ∧
    (∀ id, id ∈ cand_id <$> pending s → id ∈ cand_id <$> pending st'.1)) as Hnext.
  { intros s2 st' Hr2 Ht2 Hp2 Hc ->. destruct (IH (s2, w1) Hr2) as (H1 & (l & H2 & H3) & H4). simpl in *.
    split_and!; [done|exists (acts0 ++ l); split|].
    - by rewrite H2, Ht2, Ht1, app_assoc.
    - intros r' e' [Hin|Hin]%elem_of_app He; [|by eapply H3].
      subst acts0. apply elem_of_cons in Hin as [|Hin]; [done|].
      apply list_elem_of_singleton in Hin. injection Hin as -> <-. apply H4, Hc.
      by apply reserved_by_call_spec.
    - intros id Hid. apply H4, Hp2. by rewrite Hp1. }
  destruct (reserved_by_call written) eqn:Hrc.
  - apply (Hnext (set_pending (map_set (pending s1) c) s1)); simpl; try done.
    + intros id Hid. apply list_elem_of_fmap in Hid as (d & -> & Hd). by apply map_set_elem.
    + intros _. apply map_set_self.
    + unfold modify. simpl. by destruct (reserveEach cs _) as [st' [l|e]].
  - by apply (Hnext s1).
Qed.

(** C30. No reservation is forgotten: however an offer that starts with no retry in
    flight ends (an answer, nobody, a caller who left, a port that threw), as long as
    the agents' store answers, every agent a write moved to ringing for this call is in
    the offer's map, and every agent of the map is let go: a write made it available or
    unavailable, or took it onto the call from ringing, or the store, read after a
    refused write, no longer held it for this call, or a retry was scheduled. An agent
    still in the map at the end is in the hands of a retry that is still running. *)
Theorem offer_forgets_nobody (cs : list QueueCandidate) (s : Session) (w : W) :
  agents_answer → transitionRetries s = [] →
  let asked := (reserveEach cs (new_offer s, w)).1.1 in
  let s' := (offer cs (s, w)).1.1 in
  (∃ l, trace asked = trace s ++ l ∧ reservations_kept l asked) ∧
  (∀ id, id ∈ cand_id <$> pending asked → let_go (trace s) s' id) ∧
  (∀ c, c ∈ pending s' → has_retry s' (cand_id c) = true).
Proof.
  intros Ha Hr. cbv zeta.
  destruct (reserveEach_pending cs (new_offer s, w) Hr) as (Hr1 & (l & Htr & Hkept) & _).
  split; [by exists l|]. clear Hkept.
  unfold offer, mbind, M_bind, modify. cbv beta iota.
  assert (retries_mine (new_offer s)) as Hm by (unfold retries_mine; simpl; by rewrite Hr).
  pose proof (offer_body_keeps cs (new_offer s, w) Hm) as Hk.
  unfold try_finally. revert Hk. unfold offer_body, mbind, M_bind.
  set (ids := cand_id <$> pending (reserveEach cs (new_offer s, w)).1.1).
  assert (accounted (trace s) ids [] (reserveEach cs (new_offer s, w)).1.1) as Hacc.
  { split_and!; [by exists l|rewrite Hr1; by intros p Hp%elem_of_nil|by intros id Hid%elem_of_nil|by left]. }
  destruct (reserveEach cs (new_offer s, w)) as [st1 r1]. simpl in Hacc.
  set (body := match r1 with Ok l => _ | Throw e => _ end).
  assert (accounted (trace s) ids [] (body.1).1) as Hb.
  { subst body. destruct r1 as [l1|e]; [|done].
    pose proof (after_reserve_tracks (trace s) ids cs l1 st1 Hacc) as Hx.
    by destruct (offer_reserved cs l1 st1) as [st2 [x|e]]. }
  destruct body as [st2 r2]. simpl in *. intros Hk.
  pose proof (releaseAll_tracks (trace s) ids None st2 Hb) as Hrel.
  destruct (releaseAll_covered None st2 Ha Hk) as (st' & Heq & _ & Hcov). rewrite Heq in *. simpl in *.
  assert (∀ c, c ∈ pending st'.1 → has_retry st'.1 (cand_id c) = true) as Hret.
  { intros c Hc. destruct (Hcov c Hc) as [Hn|]; [by apply elem_of_nil in Hn|done]. }
  split; [|done]. intros id Hid. destruct Hrel as (_ & Hrt & _ & Hpd).
  destruct (Hpd id Hid) as [Hp|]; [|done]. apply list_elem_of_fmap in Hp as (c & -> & Hc).
  apply Hret, has_retry_spec in Hc as [n Hn]. by apply (Hrt _ Hn).
Qed.
End Session.

(** ** A caller of a small queue *)

(** A world that counts the awaited delays: the three agents of the roster are on
    a call until the second one has passed and available afterwards; every write
    succeeds and nobody answers the phone. *)
Definition busy_state (id : string) : AgentStateEntry :=
  {| entry_orgId := "org"; entry_agentId := id; status := on_call; since := "";
     previousStatus := Some ringing; availableAt := None; noAnswerCount := None;
     entry_callId := Some "other"; entry_legId := None; entry_queueId := Some "q";
     entry_reason := None; source := None |}.

Definition reserved_state (request : AgentTransitionRequest) : AgentStateEntry :=
  {| entry_orgId := req_orgId request; entry_agentId := req_agentId request;
     status := req_to request; since := ""; previousStatus := Some available; availableAt := None;
     noAnswerCount := None; entry_callId := Some (req_callId request);
     entry_legId := req_legId request; entry_queueId := Some (req_queueId request);
     entry_reason := None; source := None |}.

Definition roster_states (tick : nat) : gmap string AgentStateEntry :=
  list_to_map ((λ id, (id, if (tick <? 2) then busy_state id else demo_state id)) <$> ["a"; "b"; "c"]).

#[local] Instance demo_world : QueueWorld nat := {|
  w_now tick := (Z.of_nat tick * 1000)%Z;
  w_tearingDown _ := false;
  w_random _ _ := 0%Z;
  w_cursor _ := None;
  w_positionOf _ := 1%Z;
  w_done _ := [];
  w_unit tick a := (match a with ActDelay _ => S tick | _ => tick end, Ok tt);
  w_bool tick _ := (tick, Ok true);
  w_join tick := (tick, 1%Z);
  w_membership tick := (tick, Ok (Some demo_membership));
  w_states tick _ := (tick, Ok (roster_states tick));
  w_dial tick _ _ := (tick, Ok DialTimeout);
  w_reserve tick request _ := (tick, Ok (Some (reserved_state request)));
  w_transition tick request := (tick, Ok (Some (reserved_state request)));
  w_readState tick _ := (tick, Ok ReadAbsent);
  w_retry tick _ := (tick, Ok true) |}.

Definition demo_node (strategy : Plan.QueueStrategy) (maxWait : Z) : Plan.QueuePlanNode :=
  {| Plan.queue_queueId := "q"; Plan.queue_strategy := strategy; Plan.queue_mohClassId := None;
     Plan.queue_mohClass := None; Plan.queue_greetingPromptId := None;
     Plan.queue_announcePromptId := None; Plan.queue_maxWaitSeconds := maxWait;
     Plan.queue_maxWaitNoAgentSeconds := 0; Plan.queue_announcePositionEnabled := true;
     Plan.queue_announceFrequencySeconds := 1; Plan.queue_recordEnabled := false;
     Plan.queue_timeoutNodeId := None |}.

Definition demo_cfg (strategy : Plan.QueueStrategy) (maxWait : Z) : SessionConfig :=
  {| node := demo_node strategy maxWait; call_callId := "call"; organizationId := "org";
     callerLegId := "leg"; resolvePrompt := λ _, None; spellNumber := λ _, ["digits/1"];
     pollIntervalMs := 1000; agentRingTimeoutSeconds := 20 |}.

Definition no_date : string → option Z := λ _, None.

Lemma demo_nobody_free : nobody_free no_date demo_membership (roster_states 0) 0.
Proof.
  intros a Ha. simpl in Ha. set_unfold in Ha. destruct Ha as [-> |[-> |[-> | []]]]; vm_compute; reflexivity.
Qed.

(** Three busy agents, all free from the second tick on: the [round-robin] caller
    is offered to them, the [sequential] caller to nobody. *)
Lemma sequential_caller_witness :
  (∃ l, trace (loop no_date (demo_cfg Plan.queue_sequential 0) 5 (session_init, 0)).1.1 = [] ++ l ∧
        Forall no_ring l) ∧
  existsb (λ a, match a with ActReserve _ _ => true | _ => false end)
    (trace (loop no_date (demo_cfg Plan.round_robin 0) 5 (session_init, 0)).1.1) = true.
Proof.
  split; [|vm_compute; reflexivity].
  exact (sequential_caller_starves no_date (demo_cfg Plan.queue_sequential 0) 5 session_init 0 0 0
           demo_membership (roster_states 0) eq_refl eq_refl eq_refl eq_refl eq_refl demo_nobody_free).
Defined.

Lemma deadline_witness :
  (∃ l, trace (pass no_date (demo_cfg Plan.ring_all 30) (session_init, 60)).1.1 = [] ++ l ∧
        Forall no_ring l) ∧
  (pass no_date (demo_cfg Plan.ring_all 30) (session_init, 60)).2 =
    Ok (Some (OutTimeout abandon_timeout 60000)).
Proof.
  split; [|vm_compute; reflexivity].
  exact (proj1 (deadline_ends_wait no_date (demo_cfg Plan.ring_all 30) session_init 60 60 60
    demo_membership (roster_states 60) eq_refl eq_refl eq_refl eq_refl
    ltac:(vm_compute; discriminate))).
Defined.

Definition demo_candidates : list QueueCandidate :=
  (λ id, {| agent := demo_agent id 1 1; cand_state := demo_state id; idleMs := 0 |}) <$> ["a"; "b"].

Lemma demo_answers : agents_answer (W := nat).
Proof. split; intros w x; by eexists _, _. Qed.

Lemma offer_witness :
  (∀ id, id ∈ ["a"; "b"] →
     let_go (demo_cfg Plan.ring_all 0) []
       (offer (demo_cfg Plan.ring_all 0) demo_candidates (session_init, 2)).1.1 id) ∧
  pending (offer (demo_cfg Plan.ring_all 0) demo_candidates (session_init, 2)).1.1 = [].
Proof.
  split; [|vm_compute; reflexivity].
  exact (proj1 (proj2 (offer_forgets_nobody (demo_cfg Plan.ring_all 0) demo_candidates session_init 2
    demo_answers eq_refl))).
Defined.

(** The same queue with an agent who picks up: the second of the two rung answers. *)
Definition taken_state (request : AgentTransitionRequest) : AgentStateEntry :=
  {| entry_orgId := req_orgId request; entry_agentId := req_agentId request;
     status := req_to request; since := ""; previousStatus := Some ringing; availableAt := None;
     noAnswerCount := None; entry_callId := Some (req_callId request);
     entry_legId := req_legId request; entry_queueId := Some (req_queueId request);
     entry_reason := None; source := None |}.

Definition answering_world : QueueWorld nat := {|
  w_now tick := (Z.of_nat tick * 1000)%Z;
  w_tearingDown _ := false;
  w_random _ _ := 0%Z;
  w_cursor _ := None;
  w_positionOf _ := 1%Z;
  w_done _ := [];
  w_unit tick a := (match a with ActDelay _ => S tick | _ => tick end, Ok tt);
  w_bool tick _ := (tick, Ok true);
  w_join tick := (tick, 1%Z);
  w_membership tick := (tick, Ok (Some demo_membership));
  w_states tick _ := (tick, Ok (roster_states tick));
  w_dial tick attempts _ :=
    (S tick, Ok (match attempts with _ :: a :: _ => DialAnswered (att_agentId a) "leg-b" | _ => DialTimeout end));
  w_reserve tick request _ := (tick, Ok (Some (reserved_state request)));
  w_transition tick request := (tick, Ok (Some (taken_state request)));
  w_readState tick _ := (tick, Ok ReadAbsent);
  w_retry tick _ := (tick, Ok true) |}.

(** Two passes wait for the agents to come free, the third rings them, and the one who
    answers is put through. *)
Lemma session_reports_witness :
  let r := @run no_date nat answering_world (demo_cfg Plan.ring_all 0) 3 (session_init, 0) in
  r.2 = Ok (Some (OutAnswered "b" 3000)) ∧
  closes (demo_cfg Plan.ring_all 0) (Ok (Some (OutAnswered "b" 3000))) (trace r.1.1).
Proof.
  cbv zeta. split; [vm_compute; reflexivity|].
  exact (proj1 (@session_reports_once no_date nat answering_world (demo_cfg Plan.ring_all 0) 3 0)).
Defined.
End QueueSession.
