(* ===== verification/Trunks.v ===== *)
(** * Outbound trunks

    [apps/engine/src/routing/trunk-selection.ts] (the order a trunk chain is
    tried in) and [apps/engine/src/routing/trunk-capacity.ts] (the per-trunk
    ceiling on concurrent channels). A draw of [random] is the numerator of a
    fraction of [2^53]; sums and products are exact. *)

From S2P Require Import Prelude Plan.

Module Trunks.
Import Plan.

(** ** Selection *)
Definition RANDOM_ONE : Z := 2 ^ 53.

(** One step of the loop that fills the [Map] from order to group. *)
Fixpoint add_to_group (groups : list (Z * list TrunkAttempt)) (attempt : TrunkAttempt)
    : list (Z * list TrunkAttempt) :=
  match groups with
  | [] => [(trunk_order attempt, [attempt])]
  | (order, group) :: rest =>
      if (order =? trunk_order attempt)%Z then (order, group ++ [attempt]) :: rest
      else (order, group) :: add_to_group rest attempt
  end.

Definition groupsByOrder (attempts : list TrunkAttempt) : list (list TrunkAttempt) :=
  snd <$> js_sort (λ l r, l.1 - r.1)%Z (foldl add_to_group [] attempts).

Definition shareOf (attempt : TrunkAttempt) : Z :=
  match trunk_weight attempt with
  | None => 0
  | Some weight => if (weight <=? 0)%Z then 0 else weight
  end.

Definition total_share (l : list TrunkAttempt) : Z := foldr (λ a s, shareOf a + s)%Z 0%Z l.

(** The [for] loop over [remaining]: [target] is scaled by [2^53]. The index is
    the last one when no member takes the target below zero. *)
Fixpoint pick_index (remaining : list TrunkAttempt) (target : Z) : nat :=
  match remaining with
  | [] => 0
  | [_] => 0
  | attempt :: rest =>
      let target := (target - RANDOM_ONE * shareOf attempt)%Z in
      if (target <? 0)%Z then 0 else S (pick_index rest target)
  end.

(** The [while] loop: each iteration moves one member to [sampled] with one draw,
    so the length of [remaining] bounds the iterations. *)
Fixpoint sample (fuel : nat) (remaining sampled : list TrunkAttempt) (draws : list Z)
    : list TrunkAttempt * list Z :=
  match fuel with
  | O => (sampled ++ remaining, draws)
  | S fuel =>
      if 1 <? length remaining then
        let draw := default 0%Z (head draws) in
        let index := pick_index remaining (draw * total_share remaining) in
        match remaining !! index with
        | None => (sampled ++ remaining, draws)
        | Some chosen =>
            sample fuel (take index remaining ++ drop (S index) remaining)
              (sampled ++ [chosen]) (tail draws)
        end
      else (sampled ++ remaining, draws)
  end.

Definition weightedSample (group : list TrunkAttempt) (draws : list Z)
    : list TrunkAttempt * list Z :=
  if length group <? 2 then (group, draws)
  else
    let weighted := List.filter (λ a, (0 <? shareOf a)%Z) group in
    let unweighted := List.filter (λ a, (shareOf a =? 0)%Z) group in
    if length weighted <? 2 then (group, draws)
    else
      let '(sampled, draws) := sample (length weighted) weighted [] draws in
      (sampled ++ unweighted, draws).

Fixpoint sample_groups (groups : list (list TrunkAttempt)) (draws : list Z)
    : list TrunkAttempt :=
  match groups with
  | [] => []
  | group :: rest =>
      let '(sampled, draws) := weightedSample group draws in
      sampled ++ sample_groups rest draws
  end.

(** [draws] is what [random] returns, call after call. *)
Definition orderTrunkAttempts (attempts : list TrunkAttempt) (draws : list Z)
    : list TrunkAttempt :=
  if length attempts <? 2 then attempts else sample_groups (groupsByOrder attempts) draws.

(** ** Capacity *)

(** What the closures of one reservation share: its trunk and [held]. *)
Record Reservation := { res_key : string; held : bool }.

Record TrunkCapacityRegistry := {
  counts : gmap string Z;
  holders : gmap string string;
  reservations : gmap nat Reservation;
  issued : nat }.

Definition capacity_init : TrunkCapacityRegistry :=
  {| counts := ∅; holders := ∅; reservations := ∅; issued := 0 |}.

(** A reservation object: [UNCAPPED], or one that counts. *)
Inductive TrunkReservation := Uncapped | Reserved (id : nat).

Definition keyFor (organizationId trunkId : string) : string :=
  organizationId +:+ "/" +:+ trunkId.

Definition reserve (r : TrunkCapacityRegistry) (organizationId trunkId : string)
    (maxChannels : option Z) : TrunkCapacityRegistry * option TrunkReservation :=
  match maxChannels with
  | None => (r, Some Uncapped)
  | Some max =>
      if (max <=? 0)%Z then (r, Some Uncapped)
      else
        let key := keyFor organizationId trunkId in
        let inUse := default 0%Z (counts r !! key) in
        if (max <=? inUse)%Z then (r, None)
        else
          ({| counts := <[key := (inUse + 1)%Z]> (counts r); holders := holders r;
              reservations := <[issued r := {| res_key := key; held := true |}]> (reservations r);
              issued := S (issued r) |}, Some (Reserved (issued r)))
  end.

(** The count of a trunk after one channel is handed back. *)
Definition give_back (counts : gmap string Z) (key : string) : gmap string Z :=
  let current := default 0%Z (counts !! key) in
  if (current <=? 1)%Z then delete key counts else <[key := (current - 1)%Z]> counts.

Definition release (r : TrunkCapacityRegistry) (reservation : TrunkReservation)
    : TrunkCapacityRegistry :=
  match reservation with
  | Uncapped => r
  | Reserved id =>
      match reservations r !! id with
      | Some {| res_key := key; held := true |} =>
          {| counts := give_back (counts r) key; holders := holders r;
             reservations := <[id := {| res_key := key; held := false |}]> (reservations r);
             issued := issued r |}
      | _ => r
      end
  end.

Definition bindTo (r : TrunkCapacityRegistry) (reservation : TrunkReservation)
    (mediaChannelId : string) : TrunkCapacityRegistry :=
  match reservation with
  | Uncapped => r
  | Reserved id =>
      match reservations r !! id with
      | Some {| res_key := key; held := true |} =>
          {| counts := counts r; holders := <[mediaChannelId := key]> (holders r);
             reservations := <[id := {| res_key := key; held := false |}]> (reservations r);
             issued := issued r |}
      | _ => r
      end
  end.

Definition releaseLeg (r : TrunkCapacityRegistry) (mediaChannelId : string)
    : TrunkCapacityRegistry :=
  match holders r !! mediaChannelId with
  | None => r
  | Some key =>
      {| counts := give_back (counts r) key; holders := delete mediaChannelId (holders r);
         reservations := reservations r; issued := issued r |}
  end.

Definition inUse (r : TrunkCapacityRegistry) (organizationId trunkId : string) : Z :=
  default 0%Z (counts r !! keyFor organizationId trunkId).

Inductive capacity_op :=
| CapReserve (organizationId trunkId : string) (maxChannels : option Z)
| CapBind (reservation : TrunkReservation) (mediaChannelId : string)
| CapRelease (reservation : TrunkReservation)
| CapReleaseLeg (mediaChannelId : string).

Definition capacity_apply (r : TrunkCapacityRegistry) (op : capacity_op) : TrunkCapacityRegistry :=
  match op with
  | CapReserve o t m => (reserve r o t m).1
  | CapBind s m => bindTo r s m
  | CapRelease s => release r s
  | CapReleaseLeg m => releaseLeg r m
  end.

Definition capacity_run (ops : list capacity_op) : TrunkCapacityRegistry := foldl capacity_apply capacity_init ops.

(** *** What the registry is to do
    A ledger of channels by organization and trunk, without keys or counts: the
    channels dial attempts still hold, by reservation; those bound to a leg that has not
    ended; and those nobody can hand back, because another reservation was bound to
    their leg while it had not ended. *)
Record Ledger := {
  on_dials : gmap nat (string * string);
  on_legs : gmap string (string * string);
  unowned : list (string * string);
  given : nat }.

Definition ledger_init : Ledger := {| on_dials := ∅; on_legs := ∅; unowned := []; given := 0 |}.

Definition channels (l : Ledger) (trunk : string * string) : Z :=
  Z.of_nat (size (filter (λ x : nat * (string * string), x.2 = trunk) (on_dials l)) +
            size (filter (λ x : string * (string * string), x.2 = trunk) (on_legs l)) +
            length (filter (λ x, x = trunk) (unowned l))).

(** What a reservation is answered. *)
Definition ledger_answer (l : Ledger) (trunk : string * string) (maxChannels : option Z) : option TrunkReservation :=
  match maxChannels with
  | None => Some Uncapped
  | Some max =>
      if (max <=? 0)%Z then Some Uncapped
      else if (channels l trunk <? max)%Z then Some (Reserved (given l)) else None
  end.

Definition ledger_apply (l : Ledger) (op : capacity_op) : Ledger :=
  match op with
  | CapReserve o t m =>
      match ledger_answer l (o, t) m with
      | Some (Reserved id) =>
          {| on_dials := <[id := (o, t)]> (on_dials l); on_legs := on_legs l; unowned := unowned l; given := S (given l) |}
      | _ => l
      end
  | CapRelease (Reserved id) =>
      {| on_dials := delete id (on_dials l); on_legs := on_legs l; unowned := unowned l; given := given l |}
  | CapBind (Reserved id) m =>
      match on_dials l !! id with
      | None => l
      | Some trunk =>
          {| on_dials := delete id (on_dials l); on_legs := <[m := trunk]> (on_legs l);
             unowned := option_list (on_legs l !! m) ++ unowned l; given := given l |}
      end
  | CapReleaseLeg m =>
      {| on_dials := on_dials l; on_legs := delete m (on_legs l); unowned := unowned l; given := given l |}
  | CapRelease Uncapped | CapBind Uncapped _ => l
  end.

Definition ledger_run (ops : list capacity_op) : Ledger := foldl ledger_apply ledger_init ops.

(** Organization ids have no slash. *)
Definition no_slash (organizationId : string) : Prop := ∀ a b, organizationId ≠ a +:+ "/" +:+ b.

Definition op_plain (op : capacity_op) : Prop :=
  match op with CapReserve o _ _ => no_slash o | _ => True end.

(** Every reservation is bound to a leg that holds none. *)
Definition binds_fresh (ops : list capacity_op) : Prop :=
  ∀ before id m after, ops = before ++ CapBind (Reserved id) m :: after →
    is_Some (on_dials (ledger_run before) !! id) → on_legs (ledger_run before) !! m = None.

(** ** The order of a chain *)
Definition tier (k : Z) (l : list TrunkAttempt) : list TrunkAttempt :=
  List.filter (λ a, trunk_order a =? k)%Z l.

Definition weighted_of (l : list TrunkAttempt) : list TrunkAttempt :=
  List.filter (λ a, (0 <? shareOf a)%Z) l.

Definition unweighted_of (l : list TrunkAttempt) : list TrunkAttempt :=
  List.filter (λ a, (shareOf a =? 0)%Z) l.

Lemma shareOf_nonneg a : (0 <= shareOf a)%Z.
Proof. unfold shareOf. destruct (trunk_weight a) as [w|]; [|lia]. destruct (Z.leb_spec w 0); lia. Qed.

Lemma weighted_split l : weighted_of l ++ unweighted_of l ≡ₚ l.
Proof.
  unfold weighted_of, unweighted_of. induction l as [|a l IH]; simpl; [done|].
  pose proof (shareOf_nonneg a). destruct (Z.ltb_spec 0 (shareOf a)), (Z.eqb_spec (shareOf a) 0);
    try lia; simpl; [by rewrite IH|]. by rewrite <- Permutation_middle, IH.
Qed.

Lemma pick_index_lt l target : l ≠ [] → pick_index l target < length l.
Proof.
  revert target. induction l as [|a [|b l] IH]; intros target Hl; [done|simpl; lia|].
  change (pick_index (a :: b :: l) target) with
    (let target := (target - RANDOM_ONE * shareOf a)%Z in
     if (target <? 0)%Z then 0 else S (pick_index (b :: l) target)).
  cbv zeta. destruct (_ <? 0)%Z; [simpl; lia|].
  specialize (IH (target - RANDOM_ONE * shareOf a)%Z ltac:(done)). simpl in *. lia.
Qed.

Lemma sample_Permutation fuel remaining sampled draws :
  (sample fuel remaining sampled draws).1 ≡ₚ sampled ++ remaining.
Proof.
  revert remaining sampled draws. induction fuel as [|fuel IH]; intros remaining sampled draws; [done|].
  cbn [sample]. destruct (1 <? length remaining); [|done].
  destruct (remaining !! _) as [c|] eqn:Hc; [|done]. rewrite IH, <- app_assoc. f_equiv. simpl.
  etrans; [apply Permutation_middle|]. by rewrite take_drop_middle.
Qed.

Lemma weightedSample_spec group draws :
  (length (weighted_of group) < 2 → (weightedSample group draws).1 = group) ∧
  (2 <= length (weighted_of group) →
     ∃ s, s ≡ₚ weighted_of group ∧ (weightedSample group draws).1 = s ++ unweighted_of group).
Proof.
  unfold weightedSample. fold (weighted_of group) (unweighted_of group). split.
  - intros Hl. destruct (length group <? 2); [done|].
    by destruct (Nat.ltb_spec (length (weighted_of group)) 2); [|lia].
  - intros Hl. assert (length (weighted_of group) <= length group).
    { rewrite <- (weighted_split group) at 2. rewrite length_app. lia. }
    destruct (Nat.ltb_spec (length group) 2); [lia|].
    destruct (Nat.ltb_spec (length (weighted_of group)) 2); [lia|].
    pose proof (sample_Permutation (length (weighted_of group)) (weighted_of group) [] draws) as Hp.
    destruct (sample _ _ _ _) as [s d]. exists s. done.
Qed.

Lemma weightedSample_Permutation group draws : (weightedSample group draws).1 ≡ₚ group.
Proof.
  destruct (weightedSample_spec group draws) as [H1 H2].
  destruct (decide (length (weighted_of group) < 2)) as [Hl|Hl]; [by rewrite H1|].
  destruct H2 as (s & Hs & ->); [lia|]. rewrite Hs. apply weighted_split.
Qed.

(** *** Groups *)
Lemma add_to_group_keys groups a :
  fst <$> add_to_group groups a =
  if includes (fst <$> groups) (trunk_order a) then fst <$> groups
  else (fst <$> groups) ++ [trunk_order a].
Proof.
  induction groups as [|[k g] groups IH]; [done|]. cbn [add_to_group].
  destruct (Z.eqb_spec k (trunk_order a)) as [->|Hne]; csimpl.
  - replace (includes _ _) with true; [done|]. symmetry. apply includes_spec, list_elem_of_here.
  - rewrite IH. destruct (includes (fst <$> groups) (trunk_order a)) eqn:E.
    + replace (includes _ _) with true; [done|]. symmetry.
      apply includes_spec, list_elem_of_further. by apply includes_spec.
    + replace (includes _ _) with false; [done|]. symmetry. apply includes_false.
      apply includes_false in E. intros [?|?]%elem_of_cons; congruence.
Qed.

Lemma tier_snoc k l a :
  tier k (l ++ [a]) = tier k l ++ (if (trunk_order a =? k)%Z then [a] else []).
Proof. unfold tier. rewrite List.filter_app. simpl. by destruct (_ =? _)%Z. Qed.

Lemma add_to_group_tiers groups a l :
  NoDup (fst <$> groups) → Forall (λ p, p.2 = tier p.1 l) groups →
  tier (trunk_order a) l = [] ∨ trunk_order a ∈ fst <$> groups →
  Forall (λ p, p.2 = tier p.1 (l ++ [a])) (add_to_group groups a).
Proof.
  induction groups as [|[k g] groups IH]; intros Hnd Hf Hin; cbn [add_to_group].
  - constructor; [|constructor]. simpl. rewrite tier_snoc, Z.eqb_refl.
    destruct Hin as [->|Hin]; [done|]. by apply elem_of_nil in Hin.
  - apply NoDup_cons in Hnd as [Hk Hnd]. apply Forall_cons in Hf as [Hg Hf]. simpl in Hg, Hk.
    destruct (Z.eqb_spec k (trunk_order a)) as [->|Hne].
    + constructor; simpl; [by rewrite tier_snoc, Z.eqb_refl, Hg|].
      rewrite Forall_forall in *. intros [k' g'] Hp. specialize (Hf _ Hp). simpl in *.
      rewrite tier_snoc. destruct (Z.eqb_spec (trunk_order a) k') as [<-|]; [|by rewrite app_nil_r].
      destruct Hk. by apply (list_elem_of_fmap_2 fst _ _ Hp).
    + constructor; simpl; [rewrite tier_snoc; destruct (Z.eqb_spec (trunk_order a) k); [done|]; by rewrite app_nil_r|].
      apply IH; [done|done|]. destruct Hin as [|Hin]; [by left|right].
      csimpl in Hin. apply elem_of_cons in Hin as [|]; [congruence|done].
Qed.

Lemma tier_nil k l : (∀ a, a ∈ l → trunk_order a ≠ k) → tier k l = [].
Proof.
  unfold tier. induction l as [|a l IH]; intros Hl; simpl; [done|].
  destruct (Z.eqb_spec (trunk_order a) k) as [He|]; [by destruct (Hl a (list_elem_of_here _ _))|].
  apply IH. intros b Hb. apply Hl. by apply list_elem_of_further.
Qed.

(** The [Map]: one group per order, each the attempts of that order in their
    incoming sequence. *)
Lemma groups_spec attempts :
  let groups := foldl add_to_group [] attempts in
  NoDup (fst <$> groups) ∧ Forall (λ p, p.2 = tier p.1 attempts) groups ∧
  ∀ k, k ∈ fst <$> groups ↔ ∃ a, a ∈ attempts ∧ trunk_order a = k.
Proof.
  induction attempts as [|a l (Hnd & Hf & Hk)] using rev_ind; simpl.
  { split_and!; [constructor|constructor|]. intros k. split; [by intros ?%elem_of_nil|].
    by intros (b & Hb%elem_of_nil & _). }
  rewrite foldl_app. simpl. set (groups := foldl add_to_group [] l) in *.
  split_and!.
  - rewrite add_to_group_keys. destruct (includes _ _) eqn:E; [done|]. apply includes_false in E.
    apply NoDup_app. split_and!; [done|by intros x Hx ->%list_elem_of_singleton|apply NoDup_singleton].
  - apply add_to_group_tiers; [done|done|].
    destruct (decide (trunk_order a ∈ fst <$> groups)) as [|Hn]; [by right|left].
    apply tier_nil. intros b Hb He. destruct Hn. apply Hk. eauto.
  - intros k. rewrite add_to_group_keys. setoid_rewrite elem_of_app.
    setoid_rewrite list_elem_of_singleton.
    destruct (includes _ _) eqn:E; [apply includes_spec in E; apply Hk in E as (b & Hb & He)|];
      rewrite ?elem_of_app, ?list_elem_of_singleton, Hk; naive_solver.
Qed.

Definition key_lt (p q : Z * list TrunkAttempt) : Prop := (p.1 < q.1)%Z.

Lemma sorted_groups attempts :
  let groups := js_sort (λ l r, l.1 - r.1)%Z (foldl add_to_group [] attempts) in
  StronglySorted key_lt groups ∧ Forall (λ p, p.2 = tier p.1 attempts) groups ∧
  ∀ k, k ∈ fst <$> groups ↔ ∃ a, a ∈ attempts ∧ trunk_order a = k.
Proof.
  destruct (groups_spec attempts) as (Hnd & Hf & Hk). simpl. split_and!.
  - apply js_sort_by.
    + intros x y z. unfold key_lt. lia.
    + by eapply NoDup_fmap_1.
    + intros x y Hx Hy Hne. unfold key_lt.
      assert (x.1 ≠ y.1) by (intros He; destruct Hne; by eapply (NoDup_fmap_inj_on fst)).
      split; lia.
  - by rewrite js_sort_Permutation.
  - intros k. by rewrite js_sort_Permutation.
Qed.

Lemma add_to_group_Permutation groups a :
  mjoin (snd <$> add_to_group groups a) ≡ₚ mjoin (snd <$> groups) ++ [a].
Proof.
  induction groups as [|[k g] groups IH]; [done|]. cbn [add_to_group].
  destruct (_ =? _)%Z; csimpl.
  - rewrite <- !app_assoc. f_equiv. by rewrite Permutation_app_comm.
  - by rewrite IH, app_assoc.
Qed.

Lemma groups_Permutation attempts : mjoin (groupsByOrder attempts) ≡ₚ attempts.
Proof.
  unfold groupsByOrder.
  rewrite (js_sort_Permutation (λ l r : Z * list TrunkAttempt, l.1 - r.1)%Z).
  induction attempts as [|a l IH] using rev_ind; [done|].
  rewrite foldl_app. simpl. by rewrite add_to_group_Permutation, IH.
Qed.

Lemma sample_groups_Permutation groups draws : sample_groups groups draws ≡ₚ mjoin groups.
Proof.
  revert draws. induction groups as [|g groups IH]; intros draws; [done|]. simpl.
  pose proof (weightedSample_Permutation g draws) as Hp. destruct (weightedSample g draws) as [s d].
  simpl in Hp. by rewrite IH, Hp.
Qed.

Definition order_le (a b : TrunkAttempt) : Prop := (trunk_order a <= trunk_order b)%Z.

Lemma tier_all k l : Forall (λ a, trunk_order a = k) l → tier k l = l.
Proof.
  unfold tier. induction 1 as [|a l Ha Hl IH]; simpl; [done|].
  rewrite (proj2 (Z.eqb_eq _ _) Ha). by rewrite IH.
Qed.

Lemma tier_app k l1 l2 : tier k (l1 ++ l2) = tier k l1 ++ tier k l2.
Proof. apply List.filter_app. Qed.

Lemma tier_Forall k l : Forall (λ a, trunk_order a = k) (tier k l).
Proof.
  unfold tier. apply Forall_forall. intros a Ha. apply list_elem_of_In, List.filter_In in Ha as [_ Ha].
  by apply Z.eqb_eq.
Qed.

Lemma StronglySorted_app_2 {A} (R : relation A) l1 l2 :
  StronglySorted R l1 → StronglySorted R l2 → (∀ x y, x ∈ l1 → y ∈ l2 → R x y) →
  StronglySorted R (l1 ++ l2).
Proof.
  intros H1 H2 H12. induction H1 as [|x l1 H1 IH Hx]; simpl; [done|]. constructor.
  - apply IH. intros y z Hy. apply H12. by apply list_elem_of_further.
  - apply Forall_app. split; [done|]. apply Forall_forall. intros y Hy. apply H12; [|done].
    apply list_elem_of_here.
Qed.

(** Each tier of the result is the sampled group of that order, the tiers in
    ascending order. *)
Lemma sample_groups_tiers (gs : list (Z * list TrunkAttempt)) draws :
  StronglySorted key_lt gs → Forall (λ p, Forall (λ a, trunk_order a = p.1) p.2) gs →
  let out := sample_groups (snd <$> gs) draws in
  StronglySorted order_le out ∧
  (∀ k grp, (k, grp) ∈ gs → ∃ d, tier k out = (weightedSample grp d).1) ∧
  (∀ a, a ∈ out → trunk_order a ∈ fst <$> gs).
Proof.
  intros Hs. revert draws. induction Hs as [|[k g] gs Hs IH Hk]; intros draws Hf; simpl.
  { split_and!; [constructor|by intros k g ?%elem_of_nil|by intros a ?%elem_of_nil]. }
  apply Forall_cons in Hf as [Hg Hf]. simpl in Hg.
  pose proof (weightedSample_Permutation g draws) as Hp.
  assert ((weightedSample g draws).1 = (weightedSample g draws).1) as Hw by done. revert Hp Hw.
  destruct (weightedSample g draws) as [s d] eqn:Es; simpl. intros Hp _.
  destruct (IH d Hf) as (I1 & I2 & I3).
  assert (Forall (λ a, trunk_order a = k) s) as Hsk by (by rewrite Hp).
  assert (∀ k', k' ∈ fst <$> gs → (k < k')%Z) as Hlt.
  { intros k' (q & -> & Hq)%list_elem_of_fmap. rewrite Forall_forall in Hk. by apply (Hk q). }
  split_and!.
  - apply StronglySorted_app_2; [|done|].
    + clear -Hsk. induction Hsk as [|a l Ha Hl IH]; constructor; [done|].
      eapply Forall_impl; [exact Hl|]. intros b Hb. unfold order_le. simpl in Hb. lia.
    + intros x y Hx Hy. rewrite Forall_forall in Hsk. apply Hsk in Hx. apply I3, Hlt in Hy.
      unfold order_le. lia.
  - intros k' g' [Heq|Hin]%elem_of_cons; rewrite tier_app.
    + injection Heq as -> ->. exists draws. rewrite Es, (tier_all k s Hsk), tier_nil, app_nil_r; [done|].
      intros a Ha He. apply I3, Hlt in Ha. lia.
    + destruct (I2 k' g' Hin) as [d' Hd']. exists d'.
      change (list_fmap _ _ snd gs) with (snd <$> gs). rewrite Hd', (tier_nil k' s); [done|]. intros a Ha He. rewrite Forall_forall in Hsk.
      rewrite <- He, (Hsk a Ha) in Hin. apply (list_elem_of_fmap_2 fst), Hlt in Hin. simpl in Hin. lia.
  - intros a [Ha|Ha]%elem_of_app; csimpl; apply elem_of_cons.
    + left. rewrite Forall_forall in Hsk. auto.
    + right. auto.
Qed.

Lemma orderTrunkAttempts_Permutation attempts draws : orderTrunkAttempts attempts draws ≡ₚ attempts.
Proof.
  unfold orderTrunkAttempts. destruct (length attempts <? 2); [done|].
  rewrite sample_groups_Permutation. apply groups_Permutation.
Qed.

Lemma small_tier k l : length l < 2 → length (weighted_of (tier k l)) < 2.
Proof. destruct l as [|a [|b l]]; simpl; [lia| |lia]. intros _. unfold tier, weighted_of. simpl.
  destruct (_ =? _)%Z; simpl; [|lia]. destruct (0 <? _)%Z; simpl; lia. Qed.

(** Failover is never reordered and nothing is dropped: whatever the draws,
    the chain that is dialled has exactly the configured attempts, lower orders
    first; inside one order, a tier in which fewer than two attempts carry a weight
    keeps the compiler's sequence, and otherwise the weighted attempts come first,
    in a sampled order, followed by the unweighted ones in their own sequence. *)
Theorem orderTrunkAttempts_spec (attempts : list TrunkAttempt) (draws : list Z) :
  let out := orderTrunkAttempts attempts draws in
  out ≡ₚ attempts ∧
  (2 <= length attempts → StronglySorted order_le out) ∧
  ∀ k, (length (weighted_of (tier k attempts)) < 2 → tier k out = tier k attempts) ∧
       (2 <= length (weighted_of (tier k attempts)) →
        ∃ s, s ≡ₚ weighted_of (tier k attempts) ∧
             tier k out = s ++ unweighted_of (tier k attempts)).
Proof.
  intros out. subst out. unfold orderTrunkAttempts.
  destruct (Nat.ltb_spec (length attempts) 2) as [Hl|Hl].
  { split_and!; [done|lia|]. intros k. pose proof (small_tier k attempts Hl). split; [done|lia]. }
  destruct (sorted_groups attempts) as (Hs & Hf & Hk). cbv zeta in Hs, Hf, Hk.
  pose proof (groups_Permutation attempts) as Hperm. unfold groupsByOrder in *.
  set (gs := js_sort _ _) in *.
  destruct (sample_groups_tiers gs draws Hs) as (S1 & S2 & S3).
  { eapply Forall_impl; [exact Hf|]. intros p Hp. simpl in Hp. rewrite Hp. apply tier_Forall. }
  split_and!; [by rewrite sample_groups_Permutation|done|]. intros k.
  destruct (decide (k ∈ fst <$> gs)) as [Hin|Hn].
  - apply list_elem_of_fmap in Hin as ([k' g] & -> & Hin). destruct (S2 k' g Hin) as [d Hd].
    rewrite Forall_forall in Hf. specialize (Hf _ Hin). simpl in *. subst g.
    rewrite Hd. apply weightedSample_spec.
  - assert (tier k attempts = []) as ->.
    { apply tier_nil. intros a Ha He. destruct Hn. apply Hk. eauto. }
    split; [|simpl; lia]. intros _. apply tier_nil. intros a Ha He. destruct Hn. rewrite <- He. auto.
Qed.

Lemma total_share_app l1 l2 : total_share (l1 ++ l2) = (total_share l1 + total_share l2)%Z.
Proof. unfold total_share. induction l1; simpl; lia. Qed.

(** Where a scaled target lands. *)
Lemma pick_index_interval l target i :
  (0 <= target < RANDOM_ONE * total_share l)%Z →
  pick_index l target = i ↔
  i < length l ∧
  (RANDOM_ONE * total_share (take i l) <= target < RANDOM_ONE * total_share (take (S i) l))%Z.
Proof.
  revert target i. induction l as [|a [|b l] IH]; intros target i Ht.
  - unfold total_share in Ht. simpl in Ht. lia.
  - unfold total_share in *. simpl in *. destruct i; [|split; [done|lia]].
    rewrite take_0 in *. simpl. split; [|done]. intros _. split; [lia|]. lia.
  - change (pick_index (a :: b :: l) target) with
      (let target := (target - RANDOM_ONE * shareOf a)%Z in
       if (target <? 0)%Z then 0 else S (pick_index (b :: l) target)). cbv zeta.
    assert (total_share (a :: b :: l) = (shareOf a + total_share (b :: l))%Z) as Htot by done.
    rewrite Htot in Ht. pose proof (shareOf_nonneg a) as Ha. assert (0 < RANDOM_ONE)%Z by done.
    assert (∀ j, total_share (take (S j) (a :: b :: l)) =
                 (shareOf a + total_share (take j (b :: l)))%Z) as Htk by done.
    assert (∀ j, 0 <= total_share (take j (b :: l)))%Z as Hnn.
    { intros j. generalize (take j (b :: l)). intros m. unfold total_share.
      induction m as [|x m IHm]; simpl; [lia|]. pose proof (shareOf_nonneg x). lia. }
    destruct (Z.ltb_spec (target - RANDOM_ONE * shareOf a) 0) as [Hlt|Hge].
    + split.
      * intros <-. rewrite Htk, !take_0. simpl. split; [lia|]. unfold total_share; simpl. lia.
      * intros [Hi [H1 H2]]. destruct i as [|i]; [done|]. rewrite Htk in H1.
        specialize (Hnn i). nia.
    + destruct i as [|i].
      * split; [done|]. intros [_ [_ H2]]. rewrite Htk, take_0 in H2. unfold total_share in H2. simpl in H2. lia.
      * rewrite !Htk. cbn [length]. specialize (IH (target - RANDOM_ONE * shareOf a)%Z i ltac:(lia)).
        cbn [length] in IH. split.
        { intros [= Hp]. apply IH in Hp as [? ?]. split; [lia|]. lia. }
        { intros [? ?]. f_equal. apply IH. split; [lia|]. lia. }
Qed.

(** A weight is a share: among the attempts still unassigned, the one taken
    next is the [i]-th exactly when the draw falls in the [i]-th interval of a
    partition of [0, 1) whose intervals are as long as the attempts' shares of the
    total weight, so an attempt with weight [w] of a total [W] is first for the
    fraction [w / W] of the draws. *)
Theorem weighted_pick_share (remaining : list TrunkAttempt) (draw : Z) (i : nat) :
  (0 <= draw < RANDOM_ONE)%Z → (0 < total_share remaining)%Z →
  pick_index remaining (draw * total_share remaining) = i ↔
  i < length remaining ∧
  (RANDOM_ONE * total_share (take i remaining) <= draw * total_share remaining <
   RANDOM_ONE * total_share (take i remaining) +
   RANDOM_ONE * default 0 (shareOf <$> remaining !! i))%Z.
Proof.
  intros Hd Ht. rewrite pick_index_interval by nia.
  destruct (remaining !! i) as [a|] eqn:Ha.
  - rewrite (take_S_r _ _ _ Ha), total_share_app, Z.mul_add_distr_l.
    replace (total_share [a]) with (shareOf a) by (unfold total_share; simpl; lia). done.
  - apply lookup_ge_None in Ha. split; intros [? ?]; lia.
Qed.

Definition demo_attempt (id : string) (ord : Z) (w : option Z) : TrunkAttempt :=
  {| trunkId := id; trunk_name := id; trunk_kind := trunk_register; trunk_sipDomain := id;
     trunk_sipProxy := id; trunk_outboundProxy := None; trunk_transport := udp;
     trunk_codecPrefs := None; trunk_maxChannels := None; trunk_callerIdNumberOverride := None;
     trunk_order := ord; trunk_weight := w |}.

Definition demo_chain : list TrunkAttempt :=
  [demo_attempt "backup" 2 None; demo_attempt "a" 1 (Some 70%Z); demo_attempt "b" 1 (Some 30%Z);
   demo_attempt "c" 1 None].

Example demo_chain_order :
  trunkId <$> orderTrunkAttempts demo_chain [(RANDOM_ONE * 8 / 10)%Z] = ["b"; "a"; "c"; "backup"].
Proof. vm_compute. reflexivity. Qed.

Definition demo_tier : list TrunkAttempt :=
  [demo_attempt "a" 1 (Some 70%Z); demo_attempt "b" 1 (Some 30%Z)].

Definition demo_draw : Z := (RANDOM_ONE * 8 / 10)%Z.

Lemma demo_draw_ok : (0 <= demo_draw < RANDOM_ONE)%Z.
Proof. split; [vm_compute; discriminate|vm_compute; reflexivity]. Qed.

Lemma demo_tier_total : (0 < total_share demo_tier)%Z.
Proof. vm_compute. reflexivity. Qed.

Lemma weighted_pick_witness : pick_index demo_tier (demo_draw * total_share demo_tier) = 1.
Proof.
  apply (proj2 (weighted_pick_share demo_tier demo_draw 1 demo_draw_ok demo_tier_total)).
  split; [simpl; lia|]. split; [vm_compute; discriminate|vm_compute; reflexivity].
Defined.

(** ** Counting *)
Section Count.
Context {K V : Type} `{Countable K} (P : K * V → Prop) `{∀ x, Decision (P x)}.
Implicit Types m : gmap K V.

Definition one (x : K * V) : nat := if decide (P x) then 1 else 0.

Lemma size_filter_insert m i x :
  m !! i = None → size (filter P (<[i := x]> m)) = one (i, x) + size (filter P m).
Proof.
  intros Hi. unfold one. destruct (decide (P (i, x))) as [HP|HP].
  - rewrite map_filter_insert_True by done. rewrite map_size_insert_None; [done|].
    apply map_lookup_filter_None. by left.
  - rewrite map_filter_insert_False by done. by rewrite delete_id by done.
Qed.

Lemma size_filter_delete m i y :
  m !! i = Some y → size (filter P m) = one (i, y) + size (filter P (delete i m)).
Proof.
  intros Hi. rewrite <- (insert_delete_id m i y Hi) at 1.
  apply size_filter_insert. apply lookup_delete_eq.
Qed.

Lemma size_filter_update m i x y :
  m !! i = Some y →
  size (filter P (<[i := x]> m)) + one (i, y) = size (filter P m) + one (i, x).
Proof.
  intros Hi. rewrite (size_filter_delete m i y Hi), <- (insert_delete_eq m i x).
  rewrite size_filter_insert by apply lookup_delete_eq. lia.
Qed.
End Count.

Lemma keyFor_inj o t o' t' :
  no_slash o → no_slash o' → keyFor o t = keyFor o' t' → (o, t) = (o', t').
Proof.
  assert (Hc : ∀ c s u, String c s +:+ u = String c (s +:+ u)) by done. assert (He : ∀ u, "" +:+ u = u) by done.
  unfold keyFor. revert o'. induction o as [|c o IH]; intros [|c' o'] H H' E; rewrite ?Hc, ?He in E.
  - by injection E as ->.
  - injection E as <- _. by destruct (H' "" o').
  - injection E as -> _. by destruct (H "" o).
  - injection E as <- E. assert (Hi : (o, t) = (o', t')); [|by injection Hi as -> ->].
    apply IH; [..|exact E].
    + intros a b ->. by apply (H (String c a) b).
    + intros a b ->. by apply (H' (String c a) b).
Qed.

(** The key a pair is held under. *)
Definition key_of (trunk : string * string) : string := keyFor trunk.1 trunk.2.

(** The registry keeps the ledger. *)
Record keeps (r : TrunkCapacityRegistry) (l : Ledger) : Prop := {
  k_counts : ∀ p, no_slash p.1 → default 0%Z (counts r !! key_of p) = channels l p;
  k_attempts : ∀ id key, reservations r !! id = Some {| res_key := key; held := true |} ↔
    ∃ p, on_dials l !! id = Some p ∧ key = key_of p;
  k_legs : holders r = key_of <$> on_legs l;
  k_issued : issued r = given l;
  k_fresh : ∀ id, given l <= id → on_dials l !! id = None;
  k_plain : (∀ id p, on_dials l !! id = Some p → no_slash p.1) ∧ (∀ m p, on_legs l !! m = Some p → no_slash p.1) }.

Lemma give_back_lookup cs key key' :
  (0 <= default 0%Z (cs !! key))%Z →
  default 0%Z (give_back cs key !! key') =
  if decide (key = key') then Z.max 0 (default 0%Z (cs !! key) - 1) else default 0%Z (cs !! key').
Proof.
  intros H0. unfold give_back. destruct (decide (key = key')) as [<-|Hne].
  - destruct (Z.leb_spec (default 0%Z (cs !! key)) 1); [rewrite lookup_delete_eq|rewrite lookup_insert_eq];
      simpl; lia.
  - destruct (Z.leb_spec (default 0%Z (cs !! key)) 1); [by rewrite lookup_delete_ne|by rewrite lookup_insert_ne].
Qed.

Lemma channels_nonneg l p : (0 <= channels l p)%Z.
Proof. unfold channels. lia. Qed.

Lemma one_pair {K} (i : K) (q p : string * string) :
  one (λ x : K * (string * string), x.2 = p) (i, q) = if decide (q = p) then 1 else 0.
Proof. done. Qed.

(** How each move changes the channels of a trunk. *)
Lemma channels_reserve l p q :
  on_dials l !! given l = None →
  channels {| on_dials := <[given l := q]> (on_dials l); on_legs := on_legs l; unowned := unowned l; given := S (given l) |} p =
  ((if decide (q = p) then 1 else 0) + channels l p)%Z.
Proof.
  intros Hf. unfold channels. cbn [on_dials on_legs unowned]. rewrite size_filter_insert, one_pair by done.
  case_decide; lia.
Qed.

Lemma channels_release l p q id :
  on_dials l !! id = Some q →
  channels l p =
  ((if decide (q = p) then 1 else 0) +
   channels {| on_dials := delete id (on_dials l); on_legs := on_legs l; unowned := unowned l; given := given l |} p)%Z.
Proof.
  intros Hf. unfold channels. cbn [on_dials on_legs unowned].
  rewrite (size_filter_delete _ (on_dials l) id q), one_pair by done. case_decide; lia.
Qed.

Lemma channels_releaseLeg l p q m :
  on_legs l !! m = Some q →
  channels l p =
  ((if decide (q = p) then 1 else 0) +
   channels {| on_dials := on_dials l; on_legs := delete m (on_legs l); unowned := unowned l; given := given l |} p)%Z.
Proof.
  intros Hf. unfold channels. cbn [on_dials on_legs unowned].
  rewrite (size_filter_delete _ (on_legs l) m q), one_pair by done. case_decide; lia.
Qed.

Lemma channels_bind l p q id m :
  on_dials l !! id = Some q →
  channels {| on_dials := delete id (on_dials l); on_legs := <[m := q]> (on_legs l);
              unowned := option_list (on_legs l !! m) ++ unowned l; given := given l |} p = channels l p.
Proof.
  intros Hf. unfold channels. cbn [on_dials on_legs unowned].
  rewrite (size_filter_delete _ (on_dials l) id q), one_pair, filter_app, length_app by done.
  destruct (on_legs l !! m) as [q'|] eqn:Hm.
  - pose proof (size_filter_update (λ x : string * (string * string), x.2 = p) (on_legs l) m q q' Hm) as Hs.
    rewrite !one_pair in Hs. change (option_list (Some q')) with [q']. rewrite filter_cons, filter_nil. repeat case_decide; simpl; lia.
  - rewrite size_filter_insert, one_pair by done. change (option_list (@None (string * string))) with (@nil (string * string)).
    rewrite filter_nil. simpl. lia.
Qed.

(** A channel that goes back, on both sides. *)
Lemma give_back_counts cs l l' q :
  no_slash q.1 → (∀ p, no_slash p.1 → default 0%Z (cs !! key_of p) = channels l p) →
  (∀ p, channels l p = (if decide (q = p) then 1 else 0) + channels l' p)%Z →
  ∀ p, no_slash p.1 → default 0%Z (give_back cs (key_of q) !! key_of p) = channels l' p.
Proof.
  intros Hq Hc Hl p Hp. rewrite give_back_lookup.
  - rewrite !Hc, !(Hl q), !(Hl p) by done. rewrite (decide_True (P := q = q)) by done. pose proof (channels_nonneg l' q).
    case_decide as Hk.
    + destruct q as [o t], p as [o' t']. injection (keyFor_inj o t o' t' Hq Hp Hk) as <- <-. lia.
    + rewrite decide_False by (by intros ->). lia.
  - rewrite Hc by done. apply channels_nonneg.
Qed.

(** A reservation that no longer belongs to its attempt. *)
Lemma settle_attempts r l id key :
  (∀ id key, reservations r !! id = Some {| res_key := key; held := true |} ↔
     ∃ p, on_dials l !! id = Some p ∧ key = key_of p) →
  ∀ id' key', <[id := {| res_key := key; held := false |}]> (reservations r) !! id' =
                Some {| res_key := key'; held := true |} ↔
              ∃ p, delete id (on_dials l) !! id' = Some p ∧ key' = key_of p.
Proof.
  intros Ha id' key'. destruct (decide (id = id')) as [<-|Hne].
  - rewrite lookup_insert_eq, lookup_delete_eq. naive_solver.
  - rewrite lookup_insert_ne, lookup_delete_ne by done. apply Ha.
Qed.

Lemma delete_fresh l id : (∀ id, given l <= id → on_dials l !! id = None) →
  ∀ id', given l <= id' → delete id (on_dials l) !! id' = None.
Proof. intros Hf id' Hle. apply lookup_delete_None. right. auto. Qed.

Lemma reserve_answer r l o t m : no_slash o → keeps r l → (reserve r o t m).2 = ledger_answer l (o, t) m.
Proof.
  intros Ho K. unfold reserve, ledger_answer. destruct m as [max|]; [|done].
  destruct (max <=? 0)%Z; [done|]. pose proof (k_counts _ _ K (o, t) Ho) as Hc.
  unfold key_of in Hc. cbn [fst snd] in Hc. rewrite Hc, (k_issued _ _ K).
  destruct (Z.leb_spec max (channels l (o, t))), (Z.ltb_spec (channels l (o, t)) max); (lia || done).
Qed.

Lemma reserve_keeps r l o t m : no_slash o → keeps r l → keeps (reserve r o t m).1 (ledger_apply l (CapReserve o t m)).
Proof.
  intros Ho K. cbn [ledger_apply]. rewrite <- (reserve_answer r l) by done.
  destruct K as [Hc Ha Hh Hi Hf [Hp1 Hp2]]. unfold reserve. destruct m as [max|]; [|by split].
  destruct (max <=? 0)%Z; [by split|]. destruct (Z.leb_spec max (default 0%Z (counts r !! keyFor o t))); [by split|].
  rewrite Hi. cbn [fst snd]. split; cbn [counts reservations holders issued on_dials on_legs unowned given]; [|..|done|done| |].
  - intros [o' t'] Hp. rewrite channels_reserve by auto. pose proof (Hc (o, t) Ho) as Hk.
    pose proof (Hc (o', t') Hp) as Hk'. unfold key_of in *. cbn [fst snd] in *. case_decide as E.
    + injection E as <- <-. rewrite lookup_insert_eq. simpl. lia.
    + rewrite lookup_insert_ne; [lia|]. intros He. by apply keyFor_inj in He.
  - intros id key. destruct (decide (id = given l)) as [->|Hne].
    + rewrite !lookup_insert_eq. unfold key_of. naive_solver.
    + rewrite !lookup_insert_ne by done. apply Ha.
  - intros id Hle. rewrite lookup_insert_ne by lia. apply Hf. lia.
  - split; [|done]. intros id p. rewrite lookup_insert_Some. naive_solver.
Qed.

Lemma release_keeps r l s : keeps r l → keeps (release r s) (ledger_apply l (CapRelease s)).
Proof.
  intros [Hc Ha Hh Hi Hf [Hp1 Hp2]]. destruct s as [|id]; [by split|]. simpl.
  destruct (reservations r !! id) as [[key []]|] eqn:Hid.
  2-3: assert (Hn : on_dials l !! id = None) by (destruct (on_dials l !! id) eqn:E; [|done];
         assert (reservations r !! id = Some {| res_key := key_of p; held := true |}) by (apply Ha; eauto); congruence);
       rewrite delete_id by done; by split.
  destruct (proj1 (Ha id key) Hid) as (q & Hq & ->).
  split; cbn [counts reservations holders issued on_dials on_legs unowned given]; [|by apply settle_attempts|done|done|by apply delete_fresh|].
  - apply (give_back_counts _ l); [by eapply Hp1|done|]. intros p. by apply channels_release.
  - split; [|done]. intros id' p [_ H]%lookup_delete_Some. by eapply Hp1.
Qed.

Lemma bindTo_keeps r l s m : keeps r l → keeps (bindTo r s m) (ledger_apply l (CapBind s m)).
Proof.
  intros [Hc Ha Hh Hi Hf [Hp1 Hp2]]. destruct s as [|id]; [by split|]. simpl.
  destruct (reservations r !! id) as [[key []]|] eqn:Hid.
  2-3: assert (Hn : on_dials l !! id = None) by (destruct (on_dials l !! id) eqn:E; [|done];
         assert (reservations r !! id = Some {| res_key := key_of p; held := true |}) by (apply Ha; eauto); congruence);
       rewrite Hn; by split.
  destruct (proj1 (Ha id key) Hid) as (q & Hq & ->). rewrite Hq.
  split; cbn [counts reservations holders issued on_dials on_legs unowned given]; [|by apply settle_attempts| |done|by apply delete_fresh|].
  - intros p Hp. by rewrite channels_bind, Hc.
  - by rewrite fmap_insert, Hh.
  - split.
    + intros id' p [_ H]%lookup_delete_Some. by eapply Hp1.
    + intros m' p. rewrite lookup_insert_Some. intros [[_ <-]|[_ H]]; eauto.
Qed.

Lemma releaseLeg_keeps r l m : keeps r l → keeps (releaseLeg r m) (ledger_apply l (CapReleaseLeg m)).
Proof.
  intros [Hc Ha Hh Hi Hf [Hp1 Hp2]]. unfold releaseLeg. cbn [ledger_apply]. rewrite Hh, lookup_fmap.
  destruct (on_legs l !! m) as [q|] eqn:Hm; cbn [fmap option_fmap option_map].
  - split; cbn [counts reservations holders issued on_dials on_legs unowned given]; [|done| |done|done|].
    + apply (give_back_counts _ l); [by eapply Hp2|done|]. intros p. by apply channels_releaseLeg.
    + by rewrite fmap_delete.
    + split; [done|]. intros m' p [_ H]%lookup_delete_Some. by eapply Hp2.
  - rewrite delete_id by done. by split.
Qed.

Lemma capacity_keeps ops : Forall op_plain ops → keeps (capacity_run ops) (ledger_run ops).
Proof.
  induction ops as [|op ops IH] using rev_ind; intros Hops.
  - split; [done|..]; [|done|done|done|by split]. intros id key. simpl. rewrite !lookup_empty. naive_solver.
  - apply Forall_app in Hops as [Hops Hop]. apply Forall_cons in Hop as [Hop _]. specialize (IH Hops).
    unfold capacity_run, ledger_run in *. rewrite !foldl_app. cbn [foldl]. destruct op; cbn [capacity_apply].
    + by apply reserve_keeps.
    + by apply bindTo_keeps.
    + by apply release_keeps.
    + by apply releaseLeg_keeps.
Qed.

Lemma binds_fresh_lost ops : binds_fresh ops → unowned (ledger_run ops) = [].
Proof.
  induction ops as [|op ops IH] using rev_ind; intros Hb; [done|].
  assert (Hrest : unowned (ledger_run ops) = []).
  { apply IH. intros before id m rest ->. apply (Hb before id m (rest ++ [op])). by rewrite <- app_assoc. }
  unfold ledger_run. rewrite foldl_app. fold (ledger_run ops). cbn [foldl].
  destruct op as [o t mx|[|id] m|[|id]|m]; cbn [ledger_apply]; [|done| |done|done|done].
  - by case_match; [case_match|].
  - destruct (on_dials (ledger_run ops) !! id) eqn:E; [|done]. cbn [unowned].
    by rewrite Hrest, (Hb ops id m [] eq_refl) by eauto.
Qed.

(** C29. The ceiling of a trunk is exact: over any history of reservations, bindings,
    releases (repeated ones included) and ended legs, for organizations whose ids have
    no slash, the channels reported in use on a trunk of an organization are those its
    dial attempts hold, those bound to a leg that has not ended, and those that were
    bound to a leg when another reservation was bound to it, which are never handed
    back; there are none of the last kind when reservations are only bound to legs that
    hold none. A reservation without a positive ceiling costs nothing; a capped one
    succeeds, as one more channel, exactly when fewer than the ceiling are in use. *)
Theorem trunk_capacity_exact (ops : list capacity_op) (o t : string) :
  Forall op_plain ops → no_slash o →
  let r := capacity_run ops in let l := ledger_run ops in
  inUse r o t = channels l (o, t) ∧
  (binds_fresh ops → unowned l = []) ∧
  (∀ m, (reserve r o t m).2 = ledger_answer l (o, t) m) ∧
  (∀ max, (0 < max)%Z →
     (is_Some (reserve r o t (Some max)).2 ↔ (inUse r o t < max)%Z) ∧
     (is_Some (reserve r o t (Some max)).2 → inUse (reserve r o t (Some max)).1 o t = (inUse r o t + 1)%Z)).
Proof.
  intros Hops Ho r l. pose proof (capacity_keeps ops Hops) as K. fold r l in K.
  pose proof (k_counts _ _ K (o, t) Ho) as Hc. change (inUse r o t = channels l (o, t)) in Hc.
  split_and!; [done|apply binds_fresh_lost|intros m; by apply reserve_answer|]. intros max Hmax.
  rewrite (reserve_answer r l o t (Some max)), Hc by done. unfold ledger_answer. destruct (Z.leb_spec max 0); [lia|].
  destruct (Z.ltb_spec (channels l (o, t)) max) as [Hlt|Hge].
  - split; [by split; [lia|eauto]|]. intros _. unfold inUse, reserve in *. destruct (Z.leb_spec max 0); [lia|].
    destruct (Z.leb_spec max (default 0%Z (counts r !! keyFor o t))); [lia|]. cbn [fst counts].
    rewrite lookup_insert_eq. simpl. lia.
  - split; [split; [by intros []|lia]|by intros []].
Qed.

Definition demo_ops : list capacity_op :=
  [CapReserve "org" "t" (Some 2%Z); CapReserve "other" "t" (Some 1%Z); CapBind (Reserved 0) "chan-1";
   CapReserve "org" "t" (Some 2%Z); CapRelease (Reserved 1); CapRelease (Reserved 1); CapReleaseLeg "chan-1"].

Lemma demo_plain : no_slash "org" ∧ no_slash "other".
Proof. split; intros a b E; repeat (destruct a as [|? a]; try done; simplify_eq/=). Qed.

Lemma trunk_capacity_witness :
  inUse (capacity_run demo_ops) "org" "t" = channels (ledger_run demo_ops) ("org", "t") ∧
  inUse (capacity_run demo_ops) "org" "t" = 1%Z ∧ unowned (ledger_run demo_ops) = [] ∧
  (reserve (capacity_run demo_ops) "org" "t" (Some 1%Z)).2 = None ∧
  (reserve (capacity_run demo_ops) "other" "t" (Some 1%Z)).2 = Some (Reserved 3).
Proof.
  assert (Hops : Forall op_plain demo_ops).
  { unfold demo_ops. rewrite !Forall_cons. pose proof demo_plain as [H1 H2]. done. }
  destruct (trunk_capacity_exact demo_ops "org" "t" Hops) as (Hu & Hl & Hr & _).
  { apply demo_plain. }
  split_and!; [exact Hu|vm_compute; reflexivity| |rewrite Hr; vm_compute; reflexivity|vm_compute; reflexivity].
  apply Hl. intros before id m after E _. unfold demo_ops in E.
  do 7 (destruct before as [|b before]; [first [discriminate E|injection E as <- <- <-; vm_compute; reflexivity]
                                        |injection E as <- E]). by destruct before.
Defined.

(** Two reservations bound to one leg: the leg's end hands back one channel. *)
Example rebinding_loses_channel :
  let ops := [CapReserve "org" "t" (Some 2%Z); CapReserve "org" "t" (Some 2%Z); CapBind (Reserved 0) "chan-1";
              CapBind (Reserved 1) "chan-1"; CapReleaseLeg "chan-1"] in
  inUse (capacity_run ops) "org" "t" = 1%Z ∧ unowned (ledger_run ops) = [("org", "t")].
Proof. vm_compute. split; reflexivity. Qed.
End Trunks.
