(* ===== verification/Resolve.v ===== *)
(** * The compiled artifact and the three resolvers

    [packages/routing/src/artifact.ts] (the match tables of one organization) and
    [packages/routing/src/resolve.ts] (one call's facts to the plan the engine
    executes), with [apps/engine/src/calls/originate-plan.ts] (click-to-call on top
    of them). Regular expressions and zone data are the parameters of [Patterns]
    and [TimeConditions]; the expression cache those resolvers share is left out,
    being invisible by [Patterns.matchPattern_pure]. The prose of a diagnostic is
    not modelled, its severity, code and subject are. [compactRoute] only drops
    absent fields, which an [option] field already is. *)

From stdpp Require Import pretty.
From S2P Require Import Prelude HangupCauses Patterns TimeConditions FeatureCodes Plan.

Module Resolve.
Import Plan.

Definition ROUTING_ARTIFACT_VERSION : Z := 1.

Inductive RoutingContext : Set := ctx_inbound | ctx_internal | ctx_outbound.

Definition contextReachesTrunks (c : RoutingContext) : bool :=
  match c with ctx_outbound => true | _ => false end.

(** ** The artifact *)
Record RouteTimeGate := { gate_timeConditionId : string; closedNodeId : option PlanNodeId }.

Record InboundRule := {
  in_id : string;
  in_name : string;
  in_priority : Z;
  in_phoneNumberId : option string;
  in_e164 : option string;
  in_pattern : Patterns.CompiledPattern;
  in_callerPattern : option Patterns.CompiledPattern;
  in_timeGate : option RouteTimeGate;
  in_recordEnabled : bool;
  in_destinationNodeId : PlanNodeId;
  in_failoverNodeId : option PlanNodeId;
  in_callerIdNamePrefix : option string }.

Record InboundDidDefault := {
  did_phoneNumberId : string;
  did_e164 : string;
  did_enabled : bool;
  did_recordEnabled : bool;
  did_callerIdNamePrefix : option string;
  did_destinationNodeId : PlanNodeId }.

Record InboundMatchTable := {
  inbound_rules : list InboundRule;
  didDefaults : gmap string InboundDidDefault;
  inbound_noMatchNodeId : PlanNodeId }.

Inductive InternalNumberKind : Set :=
| num_extension | num_ring_group | num_ivr_menu | num_queue | num_conference | num_voicemail.

Definition number_kind_name (k : InternalNumberKind) : string :=
  match k with
  | num_extension => "extension"
  | num_ring_group => "ring-group"
  | num_ivr_menu => "ivr-menu"
  | num_queue => "queue"
  | num_conference => "conference"
  | num_voicemail => "voicemail"
  end.

Record InternalNumberEntry := {
  num_number : string;
  num_kind : InternalNumberKind;
  num_entityId : string;
  num_nodeId : PlanNodeId }.

Record ParkSlotRange := {
  slot_parkLotId : string;
  slotStart : Z;
  slotEnd : Z;
  slot_nodeId : PlanNodeId }.

Record VoicemailPrefixEntry := { vp_prefix : string; vp_mode : VoicemailMode }.

Record MailboxEntry := {
  mb_voicemailBoxId : string;
  mb_mailboxNumber : string;
  mb_leaveNodeId : PlanNodeId;
  mb_checkNodeId : PlanNodeId }.

Record EmergencyRule := {
  em_dialed : string;
  em_number : string;
  em_destinationNodeId : PlanNodeId }.

Abbreviation EmergencyMatchTable := (gmap string EmergencyRule).

Record InternalMatchTable := {
  internal_emergency : option EmergencyMatchTable;
  featureCodes : list FeatureCodes.CompiledFeatureCode;
  voicemailPrefixes : list VoicemailPrefixEntry;
  mailboxes : gmap string MailboxEntry;
  numbers : gmap string InternalNumberEntry;
  parkSlots : list ParkSlotRange;
  internal_noMatchNodeId : PlanNodeId }.

Record OutboundRule := {
  out_id : string;
  out_name : string;
  out_priority : Z;
  out_patterns : list Patterns.CompiledPattern;
  out_tollClass : TollClass;
  out_stripDigits : Z;
  out_prependDigits : option string;
  out_timeGate : option RouteTimeGate;
  out_recordEnabled : bool;
  out_callerIdNumberOverride : option string;
  out_destinationNodeId : PlanNodeId }.

Record OutboundMatchTable := {
  outbound_rules : list OutboundRule;
  outbound_emergency : option EmergencyMatchTable;
  outbound_enabled : bool;
  outbound_noMatchNodeId : PlanNodeId;
  deniedNodeId : PlanNodeId }.

Record CompiledCallBlockRule := {
  cb_id : string;
  cb_pattern : Patterns.CompiledPattern;
  cb_direction : CallBlockDirection;
  cb_action : CallBlockAction;
  cb_label : option string;
  cb_nodeId : option PlanNodeId }.

Record ExtensionIndexEntry := {
  ix_extensionId : string;
  ix_number : string;
  ix_tollClass : TollClass;
  ix_enabled : bool;
  ix_outboundCallerIdNumber : option string;
  ix_outboundCallerIdName : option string;
  ix_emergencyCallerIdNumber : option string;
  ix_pickupGroup : option string;
  ix_nodeId : PlanNodeId }.

Record CompiledRoutingSettings := {
  defaultTimezone : string;
  outboundEnabled : bool;
  set_outboundCallerIdNumber : option string;
  set_outboundCallerIdName : option string }.

Inductive Severity : Set := sev_info | sev_warning | sev_error.

Record Subject := { subject_kind : string; subject_id : string; subject_name : option string }.

Record Diagnostic := {
  severity : Severity; diag_code : string; subject : option Subject; diag_path : option string }.

Record RoutingArtifact := {
  artifactVersion : Z;
  art_organizationId : string;
  snapshotHash : string;
  compiledAt : string;
  settings : CompiledRoutingSettings;
  nodes : PlanNodeTable;
  timeConditions : gmap string TimeConditions.CompiledTimeCondition;
  inbound : InboundMatchTable;
  internal : InternalMatchTable;
  outbound : OutboundMatchTable;
  callBlock : list CompiledCallBlockRule;
  extensionsByNumber : gmap string ExtensionIndexEntry;
  art_diagnostics : list Diagnostic }.

(** ** Resolver inputs and outputs *)
Definition MAX_GATE_DEPTH : nat := 16.

Record ResolveInboundInput := {
  ri_did : string;
  ri_callerNumber : option string;
  ri_callerName : option string;
  ri_now : Z }.

Record ResolveInternalInput := { ii_from : string; ii_dialed : string; ii_now : Z }.

Record ResolveOutboundInput := {
  oi_from : string;
  oi_dialed : string;
  oi_now : Z;
  oi_tollClass : option TollClass }.

Record BlockOutcome := {
  bo_ruleId : string;
  bo_action : CallBlockAction;
  bo_label : option string }.

Record ResolvedRoute := {
  matched : bool;
  context : RoutingContext;
  plan : option ExecutionPlan;
  matchedRuleId : option string;
  matchedRuleName : option string;
  dialedNumber : option string;
  featureArgument : option string;
  callerIdName : option string;
  callerIdNumber : option string;
  captures : option (list string);
  recordEnabled : option bool;
  blocked : option BlockOutcome;
  reason : option string;
  diagnostics : list Diagnostic }.

(** What a resolver can throw: a stored pattern that does not compile, a zone the
    platform does not know, a node that is not in the table. *)
Inductive routing_error :=
| PatternError (e : Patterns.InvalidPatternError)
| ZoneError (message : string)
| PlanNodeNotFoundError (id : PlanNodeId).

Definition planNode (a : RoutingArtifact) (id : PlanNodeId) : result routing_error PlanNode :=
  match nodes a !! id with
  | None => Throw (PlanNodeNotFoundError id)
  | Some node => Ok node
  end.

Definition planFrom (a : RoutingArtifact) (entry : PlanNodeId) : ExecutionPlan :=
  {| entryNodeId := entry; plan_nodes := nodes a |}.

Definition diag (s : Severity) (c : string) (sub : option Subject) : Diagnostic :=
  {| severity := s; diag_code := c; subject := sub; diag_path := None |}.

Definition compactOutcome (rule : CompiledCallBlockRule) : BlockOutcome :=
  {| bo_ruleId := cb_id rule; bo_action := cb_action rule; bo_label := cb_label rule |}.

Definition blockTerminalNodeId (action : CallBlockAction) : option PlanNodeId :=
  match action with
  | act_block => Some "hangup:CALL_REJECTED"
  | act_reject => Some "hangup:USER_BUSY"
  | _ => None
  end.

Definition prefixedCallerName (prefix name : option string) : option string :=
  match prefix with
  | None => name
  | Some p => Some (p +:+ default "" name)
  end.

(** A name between double quotes, as the reasons print it. *)
Definition quoted (s : string) : string :=
  let q := String (Ascii.ascii_of_nat 34) "" in q +:+ s +:+ q.

(** [a ?? b] *)
Definition nullish {A} (a b : option A) : option A :=
  match a with Some x => Some x | None => b end.

Definition emergency_lookup (t : option EmergencyMatchTable) (dialed : string)
    : option EmergencyRule :=
  match t with None => None | Some t => t !! dialed end.

Definition resolveEmergency (a : RoutingArtifact) (rule : EmergencyRule) (ctx : RoutingContext)
    (from : string) : ResolvedRoute :=
  let caller := extensionsByNumber a !! from in
  let elin :=
    match nodes a !! em_destinationNodeId rule with
    | Some node => match node_body node with TrunkDialNode n => td_elin n | _ => None end
    | None => None
    end in
  {| matched := true;
     context := ctx;
     plan := Some (planFrom a (em_destinationNodeId rule));
     matchedRuleId := Some "emergency";
     matchedRuleName := Some (em_dialed rule);
     dialedNumber := Some (em_number rule);
     featureArgument := None;
     callerIdName := nullish (caller ≫= ix_outboundCallerIdName)
                             (set_outboundCallerIdName (settings a));
     callerIdNumber := nullish (nullish (caller ≫= ix_emergencyCallerIdNumber) elin)
                               (set_outboundCallerIdNumber (settings a));
     captures := None;
     recordEnabled := None;
     blocked := None;
     reason := Some ("emergency call to " +:+ em_dialed rule);
     diagnostics := [diag sev_info "emergency-call" None] |}.

Local Open Scope js_scope.

Section Resolvers.
Context (RegExp : string → result string Patterns.exec_fun).
Context (formatToParts :
  string → Z → result string (list (TimeConditions.part_type * string))).

Definition matchPattern (p : Patterns.CompiledPattern) (input : string)
    : result routing_error (option (list string)) :=
  match Patterns.match_pure RegExp p input with
  | Ok r => Ok r
  | Throw e => Throw (PatternError e)
  end.

Definition evaluate (c : TimeConditions.CompiledTimeCondition) (now : Z)
    : result routing_error TimeConditions.TimeConditionEvaluation :=
  match TimeConditions.evaluateTimeCondition formatToParts c now with
  | Ok e => Ok e
  | Throw m => Throw (ZoneError m)
  end.

Fixpoint checkCallBlock_loop (rules : list CompiledCallBlockRule) (value : string)
    (direction : CallBlockDirection) : result routing_error (option CompiledCallBlockRule) :=
  match rules with
  | [] => Ok None
  | rule :: rest =>
      if negb (bool_decide (cb_direction rule = direction)) &&
         negb (bool_decide (cb_direction rule = block_both))
      then checkCallBlock_loop rest value direction
      else
        let! m := matchPattern (cb_pattern rule) value in
        match m with
        | Some _ => Ok (Some rule)
        | None => checkCallBlock_loop rest value direction
        end
  end.

Definition checkCallBlock (rules : list CompiledCallBlockRule) (value : option string)
    (direction : CallBlockDirection) : result routing_error (option CompiledCallBlockRule) :=
  match value with
  | None => Ok None
  | Some v => if String.length v =? 0 then Ok None else checkCallBlock_loop rules v direction
  end.

(** The outcome of screening: the rule that screens, when one does, with its
    diagnostic and the terminal it sends the call to. *)
Definition screen (rule : option CompiledCallBlockRule)
    : option (CompiledCallBlockRule * option PlanNodeId) * list Diagnostic :=
  match rule with
  | Some rule =>
      if negb (bool_decide (cb_action rule = act_allow)) then
        (Some (rule, blockTerminalNodeId (cb_action rule)),
         [diag sev_info "call-blocked"
            (Some {| subject_kind := "call-block-rule"; subject_id := cb_id rule;
                     subject_name := None |})])
      else (None, [])
  | None => (None, [])
  end.

Definition blocked_route (a : RoutingArtifact) (ctx : RoutingContext)
    (rule : CompiledCallBlockRule) (terminal : PlanNodeId) (ds : list Diagnostic)
    : ResolvedRoute :=
  {| matched := true; context := ctx; plan := Some (planFrom a terminal);
     matchedRuleId := None; matchedRuleName := None; dialedNumber := None;
     featureArgument := None; callerIdName := None; callerIdNumber := None; captures := None;
     recordEnabled := None; blocked := Some (compactOutcome rule);
     reason := Some ("blocked by call-block rule " +:+ cb_id rule); diagnostics := ds |}.

Definition evaluation_diag (c : TimeConditions.CompiledTimeCondition) (open : bool) : Diagnostic :=
  diag sev_info (if open then "time-condition-open" else "time-condition-closed")
    (Some {| subject_kind := "time-condition"; subject_id := TimeConditions.cond_id c;
             subject_name := Some (TimeConditions.cond_name c) |}).

(** The loop of [followGates], [fuel] iterations left. *)
Fixpoint followGates_loop (fuel : nat) (a : RoutingArtifact) (id : PlanNodeId) (now : Z)
    (ds : list Diagnostic) : result routing_error (PlanNodeId * list Diagnostic) :=
  match fuel with
  | O => Ok (id, ds ++ [diag sev_warning "plan-depth-exceeded" None])
  | S fuel =>
      match nodes a !! id with
      | None => Ok (id, ds)
      | Some node =>
          match node_body node with
          | TimeConditionNode n =>
              match timeConditions a !! tc_timeConditionId n with
              | None =>
                  followGates_loop fuel a (tc_matchNodeId n) now
                    (ds ++ [diag sev_warning "missing-time-condition" None])
              | Some condition =>
                  let! e := evaluate condition now in
                  let ds := ds ++ [evaluation_diag condition (TimeConditions.matched e)] in
                  match (if TimeConditions.matched e then Some (tc_matchNodeId n)
                         else tc_noMatchNodeId n) with
                  | None => Ok ("hangup:NORMAL_CLEARING", ds)
                  | Some next => followGates_loop fuel a next now ds
                  end
              end
          | _ => Ok (id, ds)
          end
      end
  end.

Definition followGates (a : RoutingArtifact) (entry : PlanNodeId) (now : Z)
    : result routing_error (PlanNodeId * list Diagnostic) :=
  followGates_loop MAX_GATE_DEPTH a entry now [].

Record Gate := { gate_open : bool; gate_closedNodeId : option PlanNodeId }.

Definition gateOutcome (a : RoutingArtifact) (gate : option RouteTimeGate) (now : Z)
    : result routing_error (Gate * list Diagnostic) :=
  match gate with
  | None => Ok ({| gate_open := true; gate_closedNodeId := None |}, [])
  | Some g =>
      match timeConditions a !! gate_timeConditionId g with
      | None =>
          Ok ({| gate_open := true; gate_closedNodeId := None |},
              [diag sev_warning "missing-time-condition" None])
      | Some condition =>
          let! e := evaluate condition now in
          Ok (if TimeConditions.matched e
              then {| gate_open := true; gate_closedNodeId := None |}
              else {| gate_open := false; gate_closedNodeId := closedNodeId g |},
              [evaluation_diag condition (TimeConditions.matched e)])
      end
  end.

(** ** Inbound *)
Definition matchInboundRule (rule : InboundRule) (input : ResolveInboundInput)
    : result routing_error (option (list string)) :=
  if match in_e164 rule with
     | Some e => negb (bool_decide (e = ri_did input))
     | None => false
     end then Ok None
  else
    let! m := matchPattern (in_pattern rule) (ri_did input) in
    match m with
    | None => Ok None
    | Some caps =>
        match in_callerPattern rule with
        | None => Ok (Some caps)
        | Some cp =>
            match ri_callerNumber input with
            | None => Ok None
            | Some caller =>
                let! cm := matchPattern cp caller in
                match cm with None => Ok None | Some _ => Ok (Some caps) end
            end
        end
    end.

(** [captures.length > 0 ? captures : undefined] *)
Definition nonempty {A} (l : list A) : option (list A) :=
  match l with [] => None | _ => Some l end.

Definition finishInbound (a : RoutingArtifact) (rule : InboundRule) (entry : PlanNodeId)
    (caps : list string) (input : ResolveInboundInput) (ds : list Diagnostic)
    (blk : option BlockOutcome) (why : option string) : result routing_error ResolvedRoute :=
  let! (id, ds') := followGates a entry (ri_now input) in
  Ok {| matched := true; context := ctx_inbound; plan := Some (planFrom a id);
        matchedRuleId := Some (in_id rule); matchedRuleName := Some (in_name rule);
        dialedNumber := None; featureArgument := None;
        callerIdName := prefixedCallerName (in_callerIdNamePrefix rule) (ri_callerName input);
        callerIdNumber := ri_callerNumber input; captures := nonempty caps;
        recordEnabled := Some (in_recordEnabled rule); blocked := blk;
        reason := Some (default ("matched inbound route " +:+ quoted (in_name rule)) why);
        diagnostics := ds ++ ds' |}.

(** A route with nothing but a node, a reason and what was diagnosed. *)
Definition terminal_route (a : RoutingArtifact) (m : bool) (ctx : RoutingContext)
    (id : PlanNodeId) (blk : option BlockOutcome) (why : string) (ds : list Diagnostic)
    : ResolvedRoute :=
  {| matched := m; context := ctx; plan := Some (planFrom a id); matchedRuleId := None;
     matchedRuleName := None; dialedNumber := None; featureArgument := None;
     callerIdName := None; callerIdNumber := None; captures := None; recordEnabled := None;
     blocked := blk; reason := Some why; diagnostics := ds |}.

Definition no_match_diag : Diagnostic := diag sev_info "no-match" None.

(** The rule loop of [resolveInbound]: [inl] is the route that ended it, [inr] the
    diagnostics of a walk no rule ended. *)
Fixpoint inbound_loop (a : RoutingArtifact) (rules : list InboundRule)
    (input : ResolveInboundInput) (ds : list Diagnostic) (blk : option BlockOutcome)
    : result routing_error (ResolvedRoute + list Diagnostic) :=
  match rules with
  | [] => Ok (inr ds)
  | rule :: rest =>
      let! m := matchInboundRule rule input in
      match m with
      | None => inbound_loop a rest input ds blk
      | Some caps =>
          let! (gate, ds') := gateOutcome a (in_timeGate rule) (ri_now input) in
          let ds := ds ++ ds' in
          if negb (gate_open gate) then
            match gate_closedNodeId gate with
            | None => inbound_loop a rest input ds blk
            | Some closed =>
                let! r := finishInbound a rule closed caps input ds blk
                            (Some "time condition closed") in
                Ok (inl r)
            end
          else
            let! r := finishInbound a rule (in_destinationNodeId rule) caps input ds blk None in
            Ok (inl r)
      end
  end.

(** [resolveInbound] after the screening. *)
Definition inbound_after (a : RoutingArtifact) (input : ResolveInboundInput)
    (ds : list Diagnostic) (blk : option BlockOutcome) : result routing_error ResolvedRoute :=
  let! walked := inbound_loop a (inbound_rules (inbound a)) input ds blk in
  match walked with
  | inl r => Ok r
  | inr ds =>
      match didDefaults (inbound a) !! ri_did input with
      | Some did =>
          let! (id, ds') := followGates a (did_destinationNodeId did) (ri_now input) in
          Ok {| matched := true; context := ctx_inbound; plan := Some (planFrom a id);
                matchedRuleId := Some (did_phoneNumberId did);
                matchedRuleName := Some (did_e164 did); dialedNumber := None;
                featureArgument := None;
                callerIdName := prefixedCallerName (did_callerIdNamePrefix did)
                                                   (ri_callerName input);
                callerIdNumber := ri_callerNumber input; captures := None;
                recordEnabled := Some (did_recordEnabled did); blocked := blk;
                reason := Some "matched the DID's own destination"; diagnostics := ds ++ ds' |}
      | None =>
          Ok (terminal_route a false ctx_inbound (inbound_noMatchNodeId (inbound a)) blk
                ("no inbound route matched " +:+ ri_did input) (ds ++ [no_match_diag]))
      end
  end.

Definition resolveInbound (a : RoutingArtifact) (input : ResolveInboundInput)
    : result routing_error ResolvedRoute :=
  let! rule := checkCallBlock (callBlock a) (ri_callerNumber input) block_inbound in
  match screen rule with
  | (Some (rule, Some terminal), ds) => Ok (blocked_route a ctx_inbound rule terminal ds)
  | (Some (rule, None), ds) => inbound_after a input ds (Some (compactOutcome rule))
  | (None, ds) => inbound_after a input ds None
  end.

(** ** Internal *)

(** A route to a node of the internal tables. *)
Definition internal_route (a : RoutingArtifact) (id : PlanNodeId) (ruleId ruleName : string)
    (arg caller : option string) (why : string) (ds : list Diagnostic) : ResolvedRoute :=
  {| matched := true; context := ctx_internal; plan := Some (planFrom a id);
     matchedRuleId := Some ruleId; matchedRuleName := Some ruleName; dialedNumber := None;
     featureArgument := arg; callerIdName := None; callerIdNumber := caller; captures := None;
     recordEnabled := None; blocked := None; reason := Some why; diagnostics := ds |}.

(** The voicemail prefix loop: the mailbox and the prefix that reached it. *)
Fixpoint voicemail_loop (a : RoutingArtifact) (prefixes : list VoicemailPrefixEntry)
    (dialed : string) : option (VoicemailPrefixEntry * MailboxEntry * string) :=
  match prefixes with
  | [] => None
  | entry :: rest =>
      if negb (startsWith dialed (vp_prefix entry)) then voicemail_loop a rest dialed
      else
        let mailboxNumber := slice (Z.of_nat (String.length (vp_prefix entry))) dialed in
        if String.length mailboxNumber =? 0 then voicemail_loop a rest dialed
        else
          match mailboxes (internal a) !! mailboxNumber with
          | None => voicemail_loop a rest dialed
          | Some mailbox => Some (entry, mailbox, mailboxNumber)
          end
  end.

(** The park slot a dialled string names, when it is a plain decimal number in one
    of the ranges. *)
Definition park_slot (a : RoutingArtifact) (dialed : string) : option (ParkSlotRange * Z) :=
  match TimeConditions.parseInt dialed with
  | None => None
  | Some slot =>
      if bool_decide (TimeConditions.number_string (Some slot) = dialed) then
        (λ range, (range, slot)) <$>
          find_first (λ range, (slotStart range <=? slot) && (slot <=? slotEnd range))%Z
            (parkSlots (internal a))
      else None
  end.

(** [resolveInternal] after the screening. *)
Definition internal_after (a : RoutingArtifact) (input : ResolveInternalInput)
    (ds : list Diagnostic) : result routing_error ResolvedRoute :=
  let dialed := ii_dialed input in
  match FeatureCodes.matchFeatureCode (featureCodes (internal a)) dialed with
  | Some m =>
      let fc := FeatureCodes.featureCode m in
      Ok (internal_route a (FeatureCodes.fc_nodeId fc) (FeatureCodes.fc_id fc)
            (FeatureCodes.fc_code fc)
            (if String.length (FeatureCodes.fc_argument m) =? 0 then None
             else Some (FeatureCodes.fc_argument m))
            None ("matched feature code " +:+ FeatureCodes.fc_code fc) ds)
  | None =>
      match voicemail_loop a (voicemailPrefixes (internal a)) dialed with
      | Some (entry, mailbox, mailboxNumber) =>
          Ok (internal_route a
                (match vp_mode entry with
                 | vm_check => mb_checkNodeId mailbox
                 | vm_leave => mb_leaveNodeId mailbox
                 end)
                (mb_voicemailBoxId mailbox) (vp_prefix entry +:+ mailboxNumber) None None
                ("matched voicemail prefix " +:+ vp_prefix entry) ds)
      | None =>
          match numbers (internal a) !! dialed with
          | Some entry =>
              let! (id, ds') := followGates a (num_nodeId entry) (ii_now input) in
              Ok (internal_route a id (num_entityId entry) (num_number entry) None
                    (Some (ii_from input))
                    ("matched " +:+ number_kind_name (num_kind entry) +:+ " " +:+
                     num_number entry) (ds ++ ds'))
          | None =>
              match park_slot a dialed with
              | Some (range, slot) =>
                  Ok (internal_route a (slot_nodeId range) (slot_parkLotId range) (pretty slot)
                        None None ("matched park slot " +:+ pretty slot) ds)
              | None =>
                  Ok (terminal_route a false ctx_internal (internal_noMatchNodeId (internal a))
                        None ("no internal destination matched " +:+ dialed +:+
                              "; try outbound routing") (ds ++ [no_match_diag]))
              end
          end
      end
  end.

Definition resolveInternal (a : RoutingArtifact) (input : ResolveInternalInput)
    : result routing_error ResolvedRoute :=
  match emergency_lookup (internal_emergency (internal a)) (ii_dialed input) with
  | Some rule => Ok (resolveEmergency a rule ctx_internal (ii_from input))
  | None =>
      let! rule := checkCallBlock (callBlock a) (Some (ii_dialed input)) block_both in
      match screen rule with
      | (Some (rule, Some terminal), ds) => Ok (blocked_route a ctx_internal rule terminal ds)
      | (_, ds) => internal_after a input ds
      end
  end.

(** ** Outbound *)
Fixpoint matchOutboundRule_loop (patterns : list Patterns.CompiledPattern) (dialed : string)
    : result routing_error (option (list string)) :=
  match patterns with
  | [] => Ok None
  | p :: rest =>
      let! m := matchPattern p dialed in
      match m with
      | Some caps => Ok (Some caps)
      | None => matchOutboundRule_loop rest dialed
      end
  end.

Definition matchOutboundRule (rule : OutboundRule) (dialed : string)
    : result routing_error (option (list string)) :=
  matchOutboundRule_loop (out_patterns rule) dialed.

Definition route_subject (rule : OutboundRule) : option Subject :=
  Some {| subject_kind := "outbound-route"; subject_id := out_id rule;
          subject_name := Some (out_name rule) |}.

Definition manipulation (rule : OutboundRule) : Patterns.DigitManipulation :=
  {| Patterns.stripDigits := out_stripDigits rule;
     Patterns.prependDigits := out_prependDigits rule |}.

(** The rule loop of [resolveOutbound]: [inr] carries its diagnostics and whether
    a matching route was refused. *)
Fixpoint outbound_loop (a : RoutingArtifact) (rules : list OutboundRule)
    (input : ResolveOutboundInput) (caller : option ExtensionIndexEntry) (tollClass : TollClass)
    (denied : bool) (ds : list Diagnostic)
    : result routing_error (ResolvedRoute + bool * list Diagnostic) :=
  match rules with
  | [] => Ok (inr (denied, ds))
  | rule :: rest =>
      let! m := matchOutboundRule rule (oi_dialed input) in
      match m with
      | None => outbound_loop a rest input caller tollClass denied ds
      | Some caps =>
          if negb (tollClassCovers tollClass (out_tollClass rule)) then
            outbound_loop a rest input caller tollClass true
              (ds ++ [diag sev_info "toll-class-denied" (route_subject rule)])
          else
            let! (gate, ds') := gateOutcome a (out_timeGate rule) (oi_now input) in
            let ds := ds ++ ds' in
            if negb (gate_open gate) then
              match gate_closedNodeId gate with
              | None => outbound_loop a rest input caller tollClass denied ds
              | Some closed =>
                  let! (id, ds') := followGates a closed (oi_now input) in
                  Ok (inl {| matched := true; context := ctx_outbound;
                             plan := Some (planFrom a id); matchedRuleId := Some (out_id rule);
                             matchedRuleName := Some (out_name rule); dialedNumber := None;
                             featureArgument := None; callerIdName := None;
                             callerIdNumber := None; captures := None; recordEnabled := None;
                             blocked := None;
                             reason := Some ("route " +:+ quoted (out_name rule) +:+
                                             " is closed by its time condition");
                             diagnostics := ds ++ ds' |})
              end
            else
              match Patterns.applyDigitManipulation (manipulation rule) (oi_dialed input) with
              | None =>
                  outbound_loop a rest input caller tollClass denied
                    (ds ++ [diag sev_warning "digit-manipulation-underflow" (route_subject rule)])
              | Some number =>
                  Ok (inl {| matched := true; context := ctx_outbound;
                             plan := Some (planFrom a (out_destinationNodeId rule));
                             matchedRuleId := Some (out_id rule);
                             matchedRuleName := Some (out_name rule);
                             dialedNumber := Some number; featureArgument := None;
                             callerIdName :=
                               nullish (caller ≫= ix_outboundCallerIdName)
                                       (set_outboundCallerIdName (settings a));
                             callerIdNumber :=
                               nullish (nullish (out_callerIdNumberOverride rule)
                                                (caller ≫= ix_outboundCallerIdNumber))
                                       (set_outboundCallerIdNumber (settings a));
                             captures := nonempty caps;
                             recordEnabled := Some (out_recordEnabled rule); blocked := None;
                             reason := Some ("matched outbound route " +:+ quoted (out_name rule));
                             diagnostics := ds |})
              end
      end
  end.

(** The class the caller dials with: an extension's own, else the one supplied. *)
Definition effective_toll_class (a : RoutingArtifact) (input : ResolveOutboundInput)
    : option TollClass :=
  nullish (ix_tollClass <$> extensionsByNumber a !! oi_from input) (oi_tollClass input).

(** [resolveOutbound] after the screening. *)
Definition outbound_after (a : RoutingArtifact) (input : ResolveOutboundInput)
    (tollClass : TollClass) (ds : list Diagnostic) : result routing_error ResolvedRoute :=
  let! walked := outbound_loop a (outbound_rules (outbound a)) input
                   (extensionsByNumber a !! oi_from input) tollClass false ds in
  match walked with
  | inl r => Ok r
  | inr (true, ds) =>
      Ok (terminal_route a false ctx_outbound (deniedNodeId (outbound a)) None
            ("caller " +:+ oi_from input +:+ " (" +:+ toll_class_name tollClass +:+
             ") may not take any route matching " +:+ oi_dialed input) ds)
  | inr (false, ds) =>
      Ok (terminal_route a false ctx_outbound (outbound_noMatchNodeId (outbound a)) None
            ("no outbound route matched " +:+ oi_dialed input) (ds ++ [no_match_diag]))
  end.

Definition resolveOutbound (a : RoutingArtifact) (input : ResolveOutboundInput)
    : result routing_error ResolvedRoute :=
  match emergency_lookup (outbound_emergency (outbound a)) (oi_dialed input) with
  | Some rule => Ok (resolveEmergency a rule ctx_outbound (oi_from input))
  | None =>
      if negb (outbound_enabled (outbound a)) then
        Ok (terminal_route a false ctx_outbound (deniedNodeId (outbound a)) None
              "outbound calling is disabled for this organization"
              [diag sev_info "toll-class-denied" None])
      else
        match effective_toll_class a input with
        | None =>
            Ok (terminal_route a false ctx_outbound (deniedNodeId (outbound a)) None
                  ("caller " +:+ oi_from input +:+ " is not entitled to dial out")
                  [diag sev_warning "caller-not-internal" None])
        | Some tollClass =>
            let! rule := checkCallBlock (callBlock a) (Some (oi_dialed input)) block_outbound in
            match screen rule with
            | (Some (rule, Some terminal), ds) =>
                Ok (blocked_route a ctx_outbound rule terminal ds)
            | (_, ds) => outbound_after a input tollClass ds
            end
        end
  end.

(** ** Click-to-call *)
Inductive OriginateRefusalReason : Set :=
| bad_request | unknown_extension | extension_offline | invalid_target
| no_capacity | not_supported | shutting_down | internal_error.

Record OriginatePlanInput := {
  op_fromExtension : string;
  op_to : string;
  op_extensionDialTemplate : string;
  op_now : Z }.

Inductive OriginatePlan :=
| OriginateOk (endpoint : string) (number name : option string)
| OriginateRefused (why : OriginateRefusalReason) (error : string).

(** [template.replaceAll("{number}", value)]: the template is scanned left to
    right, and what was put in is not scanned again; [fuel] is its length. *)
Fixpoint replaceAll (fuel : nat) (s pattern value : string) : string :=
  match fuel with
  | O => s
  | S fuel =>
      match s with
      | EmptyString => EmptyString
      | String c rest =>
          if startsWith s pattern
          then value +:+ replaceAll fuel (sdrop (String.length pattern) s) pattern value
          else String c (replaceAll fuel rest pattern value)
      end
  end.

Definition planOriginate (a : RoutingArtifact) (input : OriginatePlanInput)
    : result routing_error OriginatePlan :=
  let from := trim (op_fromExtension input) in
  let to := trim (op_to input) in
  match extensionsByNumber a !! from with
  | None =>
      Ok (OriginateRefused unknown_extension
            ("no extension " +:+ from +:+ " in this organization"))
  | Some extension =>
      if negb (ix_enabled extension) then
        Ok (OriginateRefused unknown_extension ("extension " +:+ from +:+ " is disabled"))
      else
        let accepted :=
          Ok (OriginateOk
                (replaceAll (String.length (op_extensionDialTemplate input))
                   (op_extensionDialTemplate input) "{number}" from)
                (ix_outboundCallerIdNumber extension) (ix_outboundCallerIdName extension)) in
        let! int := resolveInternal a {| ii_from := from; ii_dialed := to; ii_now := op_now input |} in
        if matched int then accepted
        else
          let! out := resolveOutbound a {| oi_from := from; oi_dialed := to;
                                           oi_now := op_now input; oi_tollClass := None |} in
          if matched out then accepted
          else
            Ok (OriginateRefused invalid_target
                  (default ("nothing in this organization's plan matches " +:+ to) (reason out)))
  end.
End Resolvers.

(** Opens a [let!] that succeeded. *)
Ltac open_bind H :=
  apply result_bind_Ok in H; destruct H as (? & ? & H).

Section Facts.
Context (RegExp : string → result string Patterns.exec_fun).
Context (formatToParts :
  string → Z → result string (list (TimeConditions.part_type * string))).
Implicit Types (a : RoutingArtifact).

(** ** The outbound walk *)

(** Why the walk goes past a rule: it does not match, the caller's class does not
    cover it, it is closed with nowhere to go, or it strips the whole number. *)
Definition passed_over a (input : ResolveOutboundInput) (tc : TollClass) (rule : OutboundRule)
    : Prop :=
  matchOutboundRule RegExp rule (oi_dialed input) = Ok None ∨
  ∃ caps, matchOutboundRule RegExp rule (oi_dialed input) = Ok (Some caps) ∧
    (tollClassCovers tc (out_tollClass rule) = false ∨
     (∃ g ds, gateOutcome formatToParts a (out_timeGate rule) (oi_now input) = Ok (g, ds) ∧
              gate_open g = false ∧ gate_closedNodeId g = None) ∨
     Patterns.applyDigitManipulation (manipulation rule) (oi_dialed input) = None).

(** A rule that matches and that the caller may not take. *)
Definition refused_by (input : ResolveOutboundInput) (tc : TollClass) (rule : OutboundRule)
    : Prop :=
  (∃ caps, matchOutboundRule RegExp rule (oi_dialed input) = Ok (Some caps)) ∧
  tollClassCovers tc (out_tollClass rule) = false.

(** The rule that ends the walk: it matches, the class covers it, and either it is
    open and dials a number through its own node, or it is closed and names where
    to go instead. *)
Definition decided_by a (input : ResolveOutboundInput) (tc : TollClass) (rule : OutboundRule)
    (r : ResolvedRoute) : Prop :=
  (∃ caps, matchOutboundRule RegExp rule (oi_dialed input) = Ok (Some caps)) ∧
  tollClassCovers tc (out_tollClass rule) = true ∧
  matched r = true ∧ matchedRuleId r = Some (out_id rule) ∧ blocked r = None ∧
  ∃ g ds, gateOutcome formatToParts a (out_timeGate rule) (oi_now input) = Ok (g, ds) ∧
    ((gate_open g = true ∧ plan r = Some (planFrom a (out_destinationNodeId rule)) ∧
      is_Some (dialedNumber r) ∧
      dialedNumber r =
        Patterns.applyDigitManipulation (manipulation rule) (oi_dialed input)) ∨
     (gate_open g = false ∧ dialedNumber r = None ∧
      ∃ closed id ds', gate_closedNodeId g = Some closed ∧
        followGates formatToParts a closed (oi_now input) = Ok (id, ds') ∧
        plan r = Some (planFrom a id))).

Lemma outbound_loop_spec a rules input caller tc denied ds out :
  outbound_loop RegExp formatToParts a rules input caller tc denied ds = Ok out →
  match out with
  | inl r => ∃ before rule after, rules = before ++ rule :: after ∧
      Forall (passed_over a input tc) before ∧ decided_by a input tc rule r
  | inr (d, _) => Forall (passed_over a input tc) rules ∧
      (d = true ↔ denied = true ∨ ∃ rule, rule ∈ rules ∧ refused_by input tc rule)
  end.
Proof.
  revert denied ds. induction rules as [|rule rules IH]; intros denied ds Hl.
  { injection Hl as <-. split; [constructor|]. split; [auto|].
    intros [?|(rule & Hr & _)]; [done|by apply elem_of_nil in Hr]. }
  assert (∀ denied' ds', passed_over a input tc rule →
    (denied' = true ↔ denied = true ∨ refused_by input tc rule) →
    outbound_loop RegExp formatToParts a rules input caller tc denied' ds' = Ok out →
    match out with
    | inl r => ∃ before rule' after, rule :: rules = before ++ rule' :: after ∧
        Forall (passed_over a input tc) before ∧ decided_by a input tc rule' r
    | inr (d, _) => Forall (passed_over a input tc) (rule :: rules) ∧
        (d = true ↔ denied = true ∨ ∃ rule', rule' ∈ rule :: rules ∧ refused_by input tc rule')
    end) as Hskip.
  { intros denied' ds' Hp Hd Ho. specialize (IH denied' ds' Ho). destruct out as [r|[d ds'']].
    - destruct IH as (before & rule' & after & -> & Hb & Hr).
      exists (rule :: before), rule', after. split_and!; auto.
    - destruct IH as [Hall Hden]. split; [by constructor|]. rewrite Hden, Hd.
      setoid_rewrite elem_of_cons. naive_solver. }
  cbn [outbound_loop] in Hl. open_bind Hl. rename x into m. destruct m as [caps|].
  2:{ eapply (Hskip denied ds); [by left| |exact Hl].
      split; [auto|]. intros [?|[[caps Hc] _]]; [done|congruence]. }
  destruct (tollClassCovers tc (out_tollClass rule)) eqn:Hcov; cbn [negb] in Hl.
  2:{ eapply (Hskip true); [right; eauto| |exact Hl].
      split; [|done]. intros _. right. split; eauto. }
  assert (denied = true ↔ denied = true ∨ refused_by input tc rule) as Hsame.
  { split; [auto|]. intros [?|[_ Hr]]; [done|congruence]. }
  open_bind Hl. destruct x as [g gds]. cbv zeta in Hl.
  destruct (gate_open g) eqn:Hopen; cbn [negb] in Hl.
  - destruct (Patterns.applyDigitManipulation _ _) as [n|] eqn:Hn.
    + injection Hl as <-. exists [], rule, rules. split_and!; [done|constructor|].
      unfold decided_by. simpl. split_and!; eauto. exists g, gds. split; [done|]. left.
      rewrite Hn. split_and!; eauto.
    + eapply (Hskip denied); [right; eauto 6|exact Hsame|exact Hl].
  - destruct (gate_closedNodeId g) as [closed|] eqn:Hc.
    + open_bind Hl. destruct x as [id fds]. injection Hl as <-.
      exists [], rule, rules. split_and!; [done|constructor|].
      unfold decided_by. simpl. split_and!; eauto. exists g, gds. split; [done|]. right.
      split_and!; eauto 8.
    + eapply (Hskip denied); [right; eauto 10|exact Hsame|exact Hl].
Qed.

(** ** Gates *)
Definition is_gate a (id : PlanNodeId) : bool :=
  match nodes a !! id with
  | Some node => match node_body node with TimeConditionNode _ => true | _ => false end
  | None => false
  end.

Lemma followGates_loop_spec a fuel id now ds id' ds' :
  followGates_loop formatToParts fuel a id now ds = Ok (id', ds') →
  (rtc (branch (nodes a)) id id' ∨ id' = "hangup:NORMAL_CLEARING") ∧
  (is_gate a id' = false ∨ id' = "hangup:NORMAL_CLEARING" ∨
   diag sev_warning "plan-depth-exceeded" None ∈ ds').
Proof.
  revert id ds. induction fuel as [|fuel IH]; intros id ds Hf; cbn [followGates_loop] in Hf.
  { injection Hf as <- <-. split; [left; constructor|]. right. right.
    apply elem_of_app. right. apply list_elem_of_here. }
  destruct (nodes a !! id) as [node|] eqn:Hn.
  2:{ injection Hf as <- <-. split; [left; constructor|]. left. unfold is_gate. by rewrite Hn. }
  destruct (node_body node) eqn:Hb;
    try (injection Hf as <- <-; split; [left; constructor|]; left;
         unfold is_gate; by rewrite Hn, Hb).
  assert (∀ next, next = tc_matchNodeId n ∨ tc_noMatchNodeId n = Some next →
    branch (nodes a) id next) as Hbr.
  { intros next Hnext. exists node. split; [done|]. unfold planNodeReferences, compact.
    rewrite Hb. destruct Hnext as [->|Hnext].
    - simpl. apply list_elem_of_here.
    - simpl. rewrite Hnext. simpl. apply list_elem_of_further, list_elem_of_here. }
  assert (∀ next ds0, next = tc_matchNodeId n ∨ tc_noMatchNodeId n = Some next →
    followGates_loop formatToParts fuel a next now ds0 = Ok (id', ds') →
    (rtc (branch (nodes a)) id id' ∨ id' = "hangup:NORMAL_CLEARING") ∧
    (is_gate a id' = false ∨ id' = "hangup:NORMAL_CLEARING" ∨
     diag sev_warning "plan-depth-exceeded" None ∈ ds')) as Hstep.
  { intros next ds0 Hnext Hr. destruct (IH _ _ Hr) as [[Hrtc|He] Hg]; split; auto.
    left. eapply rtc_l; [by apply Hbr|done]. }
  destruct (timeConditions a !! tc_timeConditionId n) as [c|]; [|by eapply Hstep; eauto].
  open_bind Hf. cbv zeta in Hf. destruct (TimeConditions.matched x); [by eapply Hstep; eauto|].
  destruct (tc_noMatchNodeId n) as [next|] eqn:Hnm; [by eapply Hstep; eauto|].
  injection Hf as <- <-. auto.
Qed.

Lemma followGates_spec a id now id' ds' :
  followGates formatToParts a id now = Ok (id', ds') →
  (rtc (branch (nodes a)) id id' ∨ id' = "hangup:NORMAL_CLEARING") ∧
  (is_gate a id' = false ∨ id' = "hangup:NORMAL_CLEARING" ∨
   diag sev_warning "plan-depth-exceeded" None ∈ ds').
Proof. unfold followGates. apply followGates_loop_spec. Qed.

(** From here on the sixteen unrollings of the loop are never computed. *)
#[local] Opaque followGates.

(** ** Closed artifacts *)

(** The id is in the node table. *)
Definition known a (id : PlanNodeId) : Prop := is_Some (nodes a !! id).

Definition gate_known a (g : option RouteTimeGate) : Prop :=
  ∀ gate id, g = Some gate → closedNodeId gate = Some id → known a id.

(** What the compiler promises of an artifact: every id the tables and the nodes
    mention is in the table, and so are the three terminals the resolvers name. *)
Record closed_artifact a : Prop := {
  cl_nodes : ∀ x y, branch (nodes a) x y → known a y;
  cl_rejected : known a "hangup:CALL_REJECTED";
  cl_busy : known a "hangup:USER_BUSY";
  cl_clearing : known a "hangup:NORMAL_CLEARING";
  cl_inbound : ∀ rule, rule ∈ inbound_rules (inbound a) →
    known a (in_destinationNodeId rule) ∧ gate_known a (in_timeGate rule);
  cl_did : ∀ k did, didDefaults (inbound a) !! k = Some did → known a (did_destinationNodeId did);
  cl_inboundNoMatch : known a (inbound_noMatchNodeId (inbound a));
  cl_features : ∀ fc, fc ∈ featureCodes (internal a) → known a (FeatureCodes.fc_nodeId fc);
  cl_mailboxes : ∀ k m, mailboxes (internal a) !! k = Some m →
    known a (mb_leaveNodeId m) ∧ known a (mb_checkNodeId m);
  cl_numbers : ∀ k n, numbers (internal a) !! k = Some n → known a (num_nodeId n);
  cl_slots : ∀ s, s ∈ parkSlots (internal a) → known a (slot_nodeId s);
  cl_internalNoMatch : known a (internal_noMatchNodeId (internal a));
  cl_outbound : ∀ rule, rule ∈ outbound_rules (outbound a) →
    known a (out_destinationNodeId rule) ∧ gate_known a (out_timeGate rule);
  cl_denied : known a (deniedNodeId (outbound a));
  cl_outboundNoMatch : known a (outbound_noMatchNodeId (outbound a));
  cl_emergency : ∀ k rule,
    emergency_lookup (internal_emergency (internal a)) k = Some rule ∨
    emergency_lookup (outbound_emergency (outbound a)) k = Some rule →
    known a (em_destinationNodeId rule) }.

(** A route enters the plan at a node of the table. *)
Definition enters_known a (r : ResolvedRoute) : Prop :=
  ∃ id, plan r = Some (planFrom a id) ∧ known a id.

Section Closed.
Context a (Hclosed : closed_artifact a).

Lemma known_rtc x y : known a x → rtc (branch (nodes a)) x y → known a y.
Proof. intros Hx Hr. induction Hr as [|x y z Hxy _ IH]; [done|]. apply IH. by eapply cl_nodes. Qed.

Lemma followGates_known id now id' ds :
  known a id → followGates formatToParts a id now = Ok (id', ds) → known a id'.
Proof.
  intros Hk Hf. apply followGates_spec in Hf as [[Hr| ->] _].
  - by eapply known_rtc.
  - by apply cl_clearing.
Qed.

Lemma gateOutcome_known g now gate ds id :
  gate_known a g → gateOutcome formatToParts a g now = Ok (gate, ds) →
  gate_closedNodeId gate = Some id → known a id.
Proof.
  intros Hg Ho Hc. destruct g as [g|]; simpl in Ho; [|by simplify_eq].
  destruct (timeConditions a !! _); [|by simplify_eq].
  open_bind Ho. injection Ho as <- _. destruct (TimeConditions.matched _); [done|]. by eapply Hg.
Qed.

Lemma screen_known rule rule' terminal ds :
  screen rule = (Some (rule', Some terminal), ds) → known a terminal.
Proof.
  destruct rule as [rule|]; simpl; [|done]. destruct (negb _); [|done]. intros [= <- Ht _].
  destruct (cb_action rule); simplify_eq/=; [by apply cl_rejected|by apply cl_busy].
Qed.

Lemma inbound_loop_known rules input ds blk out :
  (∀ rule, rule ∈ rules → known a (in_destinationNodeId rule) ∧ gate_known a (in_timeGate rule)) →
  inbound_loop RegExp formatToParts a rules input ds blk = Ok out →
  match out with inl r => enters_known a r | inr _ => True end.
Proof.
  revert ds. induction rules as [|rule rules IH]; intros ds Hrules Hl; [by injection Hl as <-|].
  assert (∀ rule', rule' ∈ rules → known a (in_destinationNodeId rule') ∧
    gate_known a (in_timeGate rule')) as Hrules' by (intros; by apply Hrules, list_elem_of_further).
  destruct (Hrules rule (list_elem_of_here _ _)) as [Hdest Hgate].
  assert (∀ entry caps ds' why r, known a entry →
    finishInbound formatToParts a rule entry caps input ds' blk why = Ok r → enters_known a r)
    as Hfinish.
  { intros entry caps ds' why r Hk Hf. unfold finishInbound in Hf. open_bind Hf.
    destruct x as [id ds'']. injection Hf as <-. exists id. split; [done|].
    by eapply followGates_known. }
  cbn [inbound_loop] in Hl. open_bind Hl. rename x into m. destruct m as [caps|]; [|by eapply IH].
  open_bind Hl. destruct x as [g gds]. cbv zeta in Hl.
  destruct (gate_open g); cbn [negb] in Hl.
  - open_bind Hl. injection Hl as <-. by eapply Hfinish.
  - destruct (gate_closedNodeId g) as [closed|] eqn:Hc; [|by eapply IH].
    open_bind Hl. injection Hl as <-. eapply Hfinish; [|done]. by eapply gateOutcome_known.
Qed.

Lemma inbound_after_known input ds blk r :
  inbound_after RegExp formatToParts a input ds blk = Ok r → enters_known a r.
Proof.
  unfold inbound_after. intros H. open_bind H.
  match goal with Hl : inbound_loop _ _ _ _ _ _ _ = Ok _ |- _ =>
    apply inbound_loop_known in Hl; [|apply (cl_inbound a Hclosed)] end.
  destruct x as [r'|ds']; [by injection H as <-|].
  destruct (didDefaults (inbound a) !! ri_did input) as [did|] eqn:Hdid.
  - open_bind H. destruct x as [id ds'']. injection H as <-. exists id. split; [done|].
    eapply followGates_known; [|done]. by eapply cl_did.
  - injection H as <-. eexists. split; [done|]. by apply cl_inboundNoMatch.
Qed.

Lemma resolveInbound_known input r :
  resolveInbound RegExp formatToParts a input = Ok r → enters_known a r.
Proof.
  unfold resolveInbound. intros H. open_bind H. destruct (screen x) as [[[rule [t|]]|] ds] eqn:Hs.
  - injection H as <-. exists t. split; [done|]. by eapply screen_known.
  - by eapply inbound_after_known.
  - by eapply inbound_after_known.
Qed.

Lemma voicemail_loop_mailbox prefixes dialed entry m k :
  voicemail_loop a prefixes dialed = Some (entry, m, k) → mailboxes (internal a) !! k = Some m.
Proof.
  induction prefixes as [|p prefixes IH]; simpl; [done|].
  destruct (negb _); [done|]. destruct (_ =? 0); [done|].
  destruct (mailboxes (internal a) !! slice _ dialed) eqn:Hm; [|exact IH]. by intros [= <- <- <-].
Qed.

Lemma internal_after_known input ds r :
  internal_after formatToParts a input ds = Ok r → enters_known a r.
Proof.
  unfold internal_after. cbv zeta.
  destruct (FeatureCodes.matchFeatureCode _ _) as [m|] eqn:Hfc.
  { intros [= <-]. eexists. split; [done|]. apply (cl_features a Hclosed).
    rewrite FeatureCodes.matchFeatureCode_find in Hfc.
    destruct (find_first _ _) as [e|] eqn:Hf in Hfc; [|done]. injection Hfc as <-.
    by apply find_first_Some in Hf as [? _]. }
  destruct (voicemail_loop a _ _) as [[[entry mailbox] k]|] eqn:Hvm.
  { intros [= <-]. eexists. split; [done|].
    destruct (cl_mailboxes a Hclosed _ _ (voicemail_loop_mailbox _ _ _ _ _ Hvm)).
    by destruct (vp_mode entry). }
  destruct (numbers (internal a) !! ii_dialed input) as [n|] eqn:Hn.
  { intros H. open_bind H. destruct x as [id ds']. injection H as <-. exists id. split; [done|].
    eapply followGates_known; [|done]. by eapply cl_numbers. }
  destruct (park_slot a (ii_dialed input)) as [[range slot]|] eqn:Hp; intros [= <-];
    (eexists; split; [done|]); [|by apply cl_internalNoMatch].
  apply (cl_slots a Hclosed). unfold park_slot in Hp.
  destruct (TimeConditions.parseInt _); [|done]. destruct (bool_decide _); [|done].
  destruct (find_first _ _) eqn:Hf in Hp; [|done]. injection Hp as -> _.
  by apply find_first_Some in Hf as [? _].
Qed.

Lemma resolveInternal_known input r :
  resolveInternal RegExp formatToParts a input = Ok r → enters_known a r.
Proof.
  unfold resolveInternal. destruct (emergency_lookup _ _) as [rule|] eqn:He.
  { intros [= <-]. eexists. split; [done|]. eapply cl_emergency; eauto. }
  intros H. open_bind H. destruct (screen x) as [[[rule [t|]]|] ds] eqn:Hs.
  - injection H as <-. exists t. split; [done|]. by eapply screen_known.
  - by eapply internal_after_known.
  - by eapply internal_after_known.
Qed.

Lemma outbound_after_known input tc ds r :
  outbound_after RegExp formatToParts a input tc ds = Ok r → enters_known a r.
Proof.
  unfold outbound_after. intros H. open_bind H.
  match goal with Hl : outbound_loop _ _ _ _ _ _ _ _ _ = Ok _ |- _ =>
    apply outbound_loop_spec in Hl as Ho end.
  destruct x as [r'|[[|] ds']].
  - injection H as <-.
    destruct Ho as (before & rule & after & Hrules & _ & _ & _ & _ & _ & _ & g & gds & Hg & Hd).
    destruct (cl_outbound a Hclosed rule) as [Hdest Hgate].
    { rewrite Hrules. apply elem_of_app. right. apply list_elem_of_here. }
    destruct Hd as [(_ & Hp & _)|(_ & _ & closed & id & ds' & Hc & Hf & Hp)].
    + eexists. split; [done|]. done.
    + exists id. split; [done|]. eapply followGates_known; [|done]. by eapply gateOutcome_known.
  - injection H as <-. eexists. split; [done|]. by apply cl_denied.
  - injection H as <-. eexists. split; [done|]. by apply cl_outboundNoMatch.
Qed.

Lemma resolveOutbound_known input r :
  resolveOutbound RegExp formatToParts a input = Ok r → enters_known a r.
Proof.
  unfold resolveOutbound. destruct (emergency_lookup _ _) as [rule|] eqn:He.
  { intros [= <-]. eexists. split; [done|]. eapply cl_emergency; eauto. }
  destruct (outbound_enabled _); cbn [negb].
  2:{ intros [= <-]. eexists. split; [done|]. by apply cl_denied. }
  destruct (effective_toll_class a input) as [tc|].
  2:{ intros [= <-]. eexists. split; [done|]. by apply cl_denied. }
  intros H. open_bind H. destruct (screen x) as [[[rule [t|]]|] ds] eqn:Hs.
  - injection H as <-. exists t. split; [done|]. by eapply screen_known.
  - by eapply outbound_after_known.
  - by eapply outbound_after_known.
Qed.
End Closed.

(** The caller id an emergency call presents: the desk's own registered number,
    else the organization's ELIN, else the ordinary outbound number. *)
Definition emergency_caller_id a (from : string) (rule : EmergencyRule) : option string :=
  match extensionsByNumber a !! from ≫= ix_emergencyCallerIdNumber with
  | Some own => Some own
  | None =>
      match nodes a !! em_destinationNodeId rule with
      | Some {| node_body := TrunkDialNode {| td_elin := Some elin |} |} => Some elin
      | _ => set_outboundCallerIdNumber (settings a)
      end
  end.

(** C1. Nothing a tenant configures stands in front of an emergency call:
    whenever the dialled string is in the emergency tables, both resolvers answer
    (no stored pattern and no zone can make them fail) with a match that dials the
    table's number through the table's node, unblocked, presenting the desk's own
    emergency number, else the ELIN, else the ordinary caller id, whatever the
    kill switch, the toll class, the call-block rules and the time conditions say. *)
Theorem emergency_bypasses_every_gate a (from dialed : string) (now : Z)
    (tc : option TollClass) (rule : EmergencyRule) :
  emergency_lookup (internal_emergency (internal a)) dialed = Some rule →
  emergency_lookup (outbound_emergency (outbound a)) dialed = Some rule →
  ∃ r1 r2,
    resolveInternal RegExp formatToParts a
      {| ii_from := from; ii_dialed := dialed; ii_now := now |} = Ok r1 ∧
    resolveOutbound RegExp formatToParts a
      {| oi_from := from; oi_dialed := dialed; oi_now := now; oi_tollClass := tc |} = Ok r2 ∧
    Forall (λ r, matched r = true ∧ dialedNumber r = Some (em_number rule) ∧
      plan r = Some (planFrom a (em_destinationNodeId rule)) ∧ blocked r = None ∧
      callerIdNumber r = emergency_caller_id a from rule) [r1; r2].
Proof.
  intros Hi Ho. unfold resolveInternal, resolveOutbound; cbn [ii_dialed oi_dialed].
  rewrite Hi, Ho. eexists _, _. split_and!; [done|done|].
  assert (∀ ctx, callerIdNumber (resolveEmergency a rule ctx from) =
                 emergency_caller_id a from rule) as Hid.
  { intros ctx. unfold emergency_caller_id; simpl.
    destruct (extensionsByNumber a !! from ≫= ix_emergencyCallerIdNumber); simpl; [done|].
    destruct (nodes a !! _) as [[? ? []]|]; simpl; try done.
    by destruct n as [? ? ? ? ? ? ? ? ? []]. }
  rewrite !Forall_cons. by split_and!; rewrite ?Hid.
Qed.

(** C2. The toll-fraud boundary: whenever an outbound resolution hands back a
    number to dial, either the dialled string is an emergency number, or outbound
    calling is enabled, the caller holds a toll class (an extension's own, which a
    supplied one never overrides) that covers the route taken, no blocking rule
    screened the number, and the number is the dialled string under that route's
    digit manipulation, dialled through that route's node. *)
Theorem outbound_toll_boundary a (input : ResolveOutboundInput) (r : ResolvedRoute) (n : string) :
  resolveOutbound RegExp formatToParts a input = Ok r → dialedNumber r = Some n →
  (∃ rule, emergency_lookup (outbound_emergency (outbound a)) (oi_dialed input) = Some rule ∧
           n = em_number rule) ∨
  outbound_enabled (outbound a) = true ∧
  ∃ tc rule,
    match extensionsByNumber a !! oi_from input with
    | Some ext => tc = ix_tollClass ext
    | None => oi_tollClass input = Some tc
    end ∧
    rule ∈ outbound_rules (outbound a) ∧ tollClassCovers tc (out_tollClass rule) = true ∧
    matchedRuleId r = Some (out_id rule) ∧
    plan r = Some (planFrom a (out_destinationNodeId rule)) ∧
    Patterns.applyDigitManipulation (manipulation rule) (oi_dialed input) = Some n ∧
    ∀ b, checkCallBlock RegExp (callBlock a) (Some (oi_dialed input)) block_outbound = Ok (Some b) →
         blockTerminalNodeId (cb_action b) = None.
Proof.
  unfold resolveOutbound. destruct (emergency_lookup _ _) as [rule|] eqn:He.
  { intros [= <-] [= <-]. left. eauto. }
  destruct (outbound_enabled _); cbn [negb]; [|by intros [= <-]].
  destruct (effective_toll_class a input) as [tc|] eqn:Htc; [|by intros [= <-]].
  intros H Hn. right. split; [done|]. open_bind H. rename x into blk.
  assert (∃ ds, outbound_after RegExp formatToParts a input tc ds = Ok r ∧
    ∀ b, blk = Some b → blockTerminalNodeId (cb_action b) = None) as (ds & Hafter & Hblk).
  { destruct blk as [b|]; simpl in H; [|by eexists; split; [exact H|]].
    destruct (bool_decide (cb_action b = act_allow)) eqn:Hact; simpl in H; bool_simpl.
    - eexists. split; [done|]. intros b' [= <-]. by rewrite Hact.
    - destruct (blockTerminalNodeId (cb_action b)) eqn:Ht; [by injection H as <-|].
      eexists. split; [done|]. by intros b' [= <-]. }
  unfold outbound_after in Hafter. open_bind Hafter.
  match goal with Hl : outbound_loop _ _ _ _ _ _ _ _ _ = Ok _ |- _ =>
    apply outbound_loop_spec in Hl as Ho end.
  destruct x as [r'|[[|] ds']]; [|by injection Hafter as <-..]. injection Hafter as <-.
  destruct Ho as (before & rule & after & Hrules & _ & _ & Hcov & _ & Hid & _ & g & gds & _ & Hd).
  destruct Hd as [(_ & Hp & _ & Hnum)|(_ & Hno & _)]; [|congruence].
  exists tc, rule. split_and!; auto; [| |congruence|].
  - unfold effective_toll_class in Htc.
    destruct (extensionsByNumber a !! oi_from input); simpl in Htc; congruence.
  - rewrite Hrules. apply elem_of_app. right. apply list_elem_of_here.
  - intros b Hb. apply Hblk. congruence.
Qed.

(** C40. Why an outbound call is refused: an unmatched resolution of a string
    that is not an emergency number goes to the denial node exactly when outbound
    calling is off, the caller has no toll class, or some route matched and its
    class was not covered; otherwise to the no-match node, and then every route
    failed to match, was closed with nowhere to go, or stripped the whole number. *)
Theorem outbound_refusal a (input : ResolveOutboundInput) (r : ResolvedRoute) :
  resolveOutbound RegExp formatToParts a input = Ok r → matched r = false →
  (plan r = Some (planFrom a (deniedNodeId (outbound a))) ∧
   (outbound_enabled (outbound a) = false ∨ effective_toll_class a input = None ∨
    ∃ tc rule, effective_toll_class a input = Some tc ∧
      rule ∈ outbound_rules (outbound a) ∧ refused_by input tc rule)) ∨
  (plan r = Some (planFrom a (outbound_noMatchNodeId (outbound a))) ∧
   outbound_enabled (outbound a) = true ∧
   ∃ tc, effective_toll_class a input = Some tc ∧
     Forall (λ rule, passed_over a input tc rule ∧ ¬ refused_by input tc rule)
       (outbound_rules (outbound a))).
Proof.
  unfold resolveOutbound. destruct (emergency_lookup _ _); [by intros [= <-]|].
  destruct (outbound_enabled _); cbn [negb]; [|intros [= <-]; auto].
  destruct (effective_toll_class a input) as [tc|]; [|intros [= <-]; auto].
  intros H Hm. open_bind H.
  assert (∃ ds, outbound_after RegExp formatToParts a input tc ds = Ok r) as [ds Hafter].
  { destruct (screen x) as [[[rule [t|]]|] ds]; [by injection H as <-|eauto..]. }
  unfold outbound_after in Hafter. open_bind Hafter.
  match goal with Hl : outbound_loop _ _ _ _ _ _ _ _ _ = Ok _ |- _ =>
    apply outbound_loop_spec in Hl as Ho end.
  destruct x0 as [r'|[[|] ds']]; injection Hafter as <-.
  - destruct Ho as (before & rule & after & _ & _ & _ & _ & Hmt & _). congruence.
  - left. split; [done|]. right. right. destruct Ho as [_ [[|(rule & Hin & Hr)] _]]; [done|done|].
    exists tc, rule. by split_and!.
  - right. split_and!; [done|done|]. exists tc. split; [done|]. destruct Ho as [Hall Hden].
    rewrite Forall_forall in *. intros rule Hin. split; [by apply Hall|].
    intros Hr. assert (false = true); [|done]. apply Hden. eauto.
Qed.

(** An artifact the compiler closed never sends a call nowhere: whatever
    the call, each of the three resolvers that answers hands over a plan whose entry
    node is in the artifact's table, so reading it cannot fail. *)
Theorem closed_artifact_resolves a (r : ResolvedRoute)
    (in1 : ResolveInboundInput) (in2 : ResolveInternalInput) (in3 : ResolveOutboundInput) :
  closed_artifact a →
  resolveInbound RegExp formatToParts a in1 = Ok r ∨
  resolveInternal RegExp formatToParts a in2 = Ok r ∨
  resolveOutbound RegExp formatToParts a in3 = Ok r →
  ∃ p node, plan r = Some p ∧ plan_nodes p = nodes a ∧ planNode a (entryNodeId p) = Ok node.
Proof.
  intros Hcl H. assert (enters_known a r) as (id & Hp & [node Hnode]).
  { destruct H as [H|[H|H]]; eauto using resolveInbound_known, resolveInternal_known,
      resolveOutbound_known. }
  exists (planFrom a id), node. split_and!; [done|done|]. unfold planNode. simpl. by rewrite Hnode.
Qed.

(** Click-to-call cannot out-dial its extension: an originate is accepted
    only for an enabled extension of the organization, and only when the target
    resolves for that extension; and when the outbound tables give it a number to
    dial, that is an emergency number or one whose route the extension's own toll
    class covers. *)
Theorem planOriginate_respects_toll_class a (input : OriginatePlanInput) endpoint number name :
  planOriginate RegExp formatToParts a input = Ok (OriginateOk endpoint number name) →
  let from := trim (op_fromExtension input) in
  let to := trim (op_to input) in
  ∃ ext, extensionsByNumber a !! from = Some ext ∧ ix_enabled ext = true ∧
    ∃ r, matched r = true ∧
      (resolveInternal RegExp formatToParts a
         {| ii_from := from; ii_dialed := to; ii_now := op_now input |} = Ok r ∨
       resolveOutbound RegExp formatToParts a
         {| oi_from := from; oi_dialed := to; oi_now := op_now input; oi_tollClass := None |} = Ok r ∧
       (blocked r = None → is_Some (matchedRuleId r)) ∧
       ∀ n, dialedNumber r = Some n →
         is_Some (emergency_lookup (outbound_emergency (outbound a)) to) ∨
         ∃ rule, rule ∈ outbound_rules (outbound a) ∧
           tollClassCovers (ix_tollClass ext) (out_tollClass rule) = true ∧
           matchedRuleId r = Some (out_id rule)).
Proof.
  intros H from to. unfold planOriginate in H. fold from to in H.
  destruct (extensionsByNumber a !! from) as [ext|] eqn:Hext; [|done].
  destruct (ix_enabled ext) eqn:Hen; cbn [negb] in H; [|done].
  exists ext. split_and!; [done|done|]. cbv zeta in H. open_bind H.
  destruct (matched x) eqn:Hm; [eauto|]. open_bind H.
  destruct (matched x0) eqn:Hm0; [|done]. exists x0. split; [done|]. right. split; [done|].
  match goal with Ho : resolveOutbound _ _ _ _ = Ok x0 |- _ => revert Ho end.
  unfold resolveOutbound; cbn [oi_dialed].
  destruct (emergency_lookup _ to) as [rule|] eqn:He.
  { intros [= <-]. split; [simpl; eauto|]. intros n _. left. eauto. }
  destruct (outbound_enabled _); cbn [negb]; [|intros [= <-]; done].
  assert (effective_toll_class a {| oi_from := from; oi_dialed := to; oi_now := op_now input;
    oi_tollClass := None |} = Some (ix_tollClass ext)) as ->.
  { unfold effective_toll_class. simpl. by rewrite Hext. }
  intros Ho. open_bind Ho.
  assert ((is_Some (blocked x0) ∧ dialedNumber x0 = None) ∨
    ∃ ds, outbound_after RegExp formatToParts a {| oi_from := from; oi_dialed := to;
      oi_now := op_now input; oi_tollClass := None |} (ix_tollClass ext) ds = Ok x0)
    as [[[b Hb] Hnone]|[ds Hafter]].
  { destruct (screen x1) as [[[rule [t|]]|] ds]; [injection Ho as <-; left; simpl; eauto|eauto..]. }
  { rewrite Hb, Hnone. split; done. }
  unfold outbound_after in Hafter. open_bind Hafter.
  match goal with Hl : outbound_loop _ _ _ _ _ _ _ _ _ = Ok _ |- _ =>
    apply outbound_loop_spec in Hl as Hlp end.
  destruct x2 as [r'|[[|] ds']]; injection Hafter as <-; [|done|done].
  destruct Hlp as (before & rule & after & Hrules & _ & _ & Hcov & _ & Hid & _).
  rewrite Hid. split; [eauto|]. intros n _. right. exists rule. split_and!; auto.
  rewrite Hrules. apply elem_of_app. right. apply list_elem_of_here.
Qed.

(** Inside the organization and outbound, a route is flagged as screened only when
    the screening ends the call: a rule that asks for voicemail leaves no mark on
    the route it lets through. *)
Lemma internal_after_unflagged a input ds r :
  internal_after formatToParts a input ds = Ok r → blocked r = None.
Proof.
  unfold internal_after. cbv zeta. destruct (FeatureCodes.matchFeatureCode _ _); [by intros [= <-]|].
  destruct (voicemail_loop a _ _) as [[[] ?]|]; [by intros [= <-]|].
  destruct (numbers (internal a) !! _).
  { intros H. open_bind H. destruct x. by injection H as <-. }
  by destruct (park_slot a _) as [[]|]; intros [= <-].
Qed.

Lemma internal_flags_only_terminated a input r b :
  resolveInternal RegExp formatToParts a input = Ok r → blocked r = Some b →
  bo_action b = act_block ∨ bo_action b = act_reject.
Proof.
  unfold resolveInternal. destruct (emergency_lookup _ _); [by intros [= <-]|].
  intros H Hb. open_bind H. destruct (screen x) as [[[rule [t|]]|] ds] eqn:Hs.
  - injection H as <-. injection Hb as <-. simpl. destruct x as [rule'|]; [|done]. simpl in Hs.
    destruct (negb _); [|done]. injection Hs as <- Ht _. destruct (cb_action rule'); auto; done.
  - apply internal_after_unflagged in H. congruence.
  - apply internal_after_unflagged in H. congruence.
Qed.
End Facts.

(** ** Witnesses: one extension, one trunk route and the emergency table *)
Definition demo_hangup (id : PlanNodeId) (c : HangupCause) : PlanNode :=
  {| node_id := id; node_label := None; node_body := HangupNode {| hu_cause := c |} |}.

Definition demo_trunk (id routeId : string) (elin : option string) : PlanNode :=
  {| node_id := id; node_label := None;
     node_body := TrunkDialNode
       {| td_outboundRouteId := routeId; td_tollClass := toll_local; td_attempts := [];
          td_continueOnCauses := []; td_recordEnabled := false;
          td_callerIdNumberOverride := None; td_failoverNodeId := Some "hangup:NORMAL_CLEARING";
          td_emergency := None; td_emergencyAddressId := None; td_elin := elin |} |}.

Definition demo_emergency : EmergencyRule :=
  {| em_dialed := "9911"; em_number := "911";
     em_destinationNodeId := Emergency.EMERGENCY_NODE_ID |}.

Definition demo_rule : OutboundRule :=
  {| out_id := "route-1"; out_name := "North America"; out_priority := 1;
     out_patterns := [Patterns.PPrefix "1"]; out_tollClass := toll_local; out_stripDigits := 0;
     out_prependDigits := Some "+"; out_timeGate := None; out_recordEnabled := false;
     out_callerIdNumberOverride := None; out_destinationNodeId := "trunk-dial:route-1" |}.

Definition demo_artifact : RoutingArtifact :=
  {| artifactVersion := ROUTING_ARTIFACT_VERSION; art_organizationId := "org";
     snapshotHash := "hash"; compiledAt := "2026-01-01T00:00:00.000Z";
     settings := {| defaultTimezone := "UTC"; outboundEnabled := true;
                    set_outboundCallerIdNumber := Some "+15550100";
                    set_outboundCallerIdName := None |};
     nodes := list_to_map
       [("hangup:CALL_REJECTED", demo_hangup "hangup:CALL_REJECTED" CALL_REJECTED);
        ("hangup:USER_BUSY", demo_hangup "hangup:USER_BUSY" USER_BUSY);
        ("hangup:NORMAL_CLEARING", demo_hangup "hangup:NORMAL_CLEARING" NORMAL_CLEARING);
        ("trunk-dial:route-1", demo_trunk "trunk-dial:route-1" "route-1" None);
        (Emergency.EMERGENCY_NODE_ID,
         demo_trunk Emergency.EMERGENCY_NODE_ID Emergency.EMERGENCY_ROUTE_ID (Some "+15550911"))];
     timeConditions := ∅;
     inbound := {| inbound_rules := []; didDefaults := ∅;
                   inbound_noMatchNodeId := "hangup:CALL_REJECTED" |};
     internal := {| internal_emergency := Some {["9911" := demo_emergency]}; featureCodes := [];
                    voicemailPrefixes := []; mailboxes := ∅; numbers := ∅; parkSlots := [];
                    internal_noMatchNodeId := "hangup:CALL_REJECTED" |};
     outbound := {| outbound_rules := [demo_rule];
                    outbound_emergency := Some {["9911" := demo_emergency]};
                    outbound_enabled := true;
                    outbound_noMatchNodeId := "hangup:NORMAL_CLEARING";
                    deniedNodeId := "hangup:CALL_REJECTED" |};
     callBlock := [];
     extensionsByNumber :=
       {["1001" := {| ix_extensionId := "ext-1"; ix_number := "1001";
                      ix_tollClass := toll_national; ix_enabled := true;
                      ix_outboundCallerIdNumber := None; ix_outboundCallerIdName := None;
                      ix_emergencyCallerIdNumber := None; ix_pickupGroup := None;
                      ix_nodeId := "hangup:USER_BUSY" |}]};
     art_diagnostics := [] |}.

(** A platform without regular expressions and without zones. *)
Definition no_regex : string → result string Patterns.exec_fun := λ _, Throw "unsupported".
Definition no_zones : string → Z → result string (list (TimeConditions.part_type * string)) :=
  λ _ _, Throw "unknown zone".

Definition demo_call (dialed : string) : ResolveOutboundInput :=
  {| oi_from := "1001"; oi_dialed := dialed; oi_now := 0; oi_tollClass := Some toll_premium |}.

Lemma emergency_bypasses_witness :
  ∃ r, resolveOutbound no_regex no_zones demo_artifact (demo_call "9911") = Ok r ∧
       dialedNumber r = Some "911" ∧ callerIdNumber r = Some "+15550911".
Proof.
  assert (emergency_lookup (internal_emergency (internal demo_artifact)) "9911" =
    Some demo_emergency) as H1 by reflexivity.
  assert (emergency_lookup (outbound_emergency (outbound demo_artifact)) "9911" =
    Some demo_emergency) as H2 by reflexivity.
  destruct (emergency_bypasses_every_gate no_regex no_zones demo_artifact "1001" "9911" 0
    (Some toll_premium) demo_emergency H1 H2) as (r1 & r2 & _ & Hr2 & Hall).
  exists r2. split; [exact Hr2|].
  apply Forall_cons in Hall as [_ Hall]. apply Forall_cons in Hall as [(_ & Hn & _ & _ & Hid) _].
  split; [exact Hn|]. rewrite Hid. vm_compute. reflexivity.
Defined.

Lemma outbound_toll_boundary_witness :
  ∃ r, resolveOutbound no_regex no_zones demo_artifact (demo_call "15550123") = Ok r ∧
       dialedNumber r = Some "+15550123" ∧ outbound_enabled (outbound demo_artifact) = true.
Proof.
  eexists. split; [vm_compute; reflexivity|]. split; [reflexivity|].
  destruct (outbound_toll_boundary no_regex no_zones demo_artifact (demo_call "15550123") _
    "+15550123" ltac:(vm_compute; reflexivity) eq_refl) as [(rule & Hr & _)|[He _]];
    [by vm_compute in Hr|exact He].
Defined.

Lemma outbound_refusal_witness :
  ∃ r, resolveOutbound no_regex no_zones demo_artifact (demo_call "0049301234") = Ok r ∧
       matched r = false ∧
       (plan r = Some (planFrom demo_artifact "hangup:CALL_REJECTED") ∨
        plan r = Some (planFrom demo_artifact "hangup:NORMAL_CLEARING")).
Proof.
  eexists. split; [vm_compute; reflexivity|]. split; [reflexivity|].
  destruct (outbound_refusal no_regex no_zones demo_artifact (demo_call "0049301234") _
    ltac:(vm_compute; reflexivity) eq_refl) as [[Hp _]|[Hp _]]; [by left|by right].
Defined.

(** The node table's references, checked by evaluation. *)
Lemma demo_branches x y :
  branch (nodes demo_artifact) x y → known demo_artifact y.
Proof.
  assert (forallb (λ kv : PlanNodeId * PlanNode,
    forallb (λ id, bool_decide (is_Some (nodes demo_artifact !! id))) (planNodeReferences kv.2))
    (map_to_list (nodes demo_artifact)) = true) as Hall by (vm_compute; reflexivity).
  intros (node & Hx & Hy). rewrite forallb_forall in Hall.
  apply elem_of_map_to_list, list_elem_of_In, Hall in Hx. rewrite forallb_forall in Hx.
  apply list_elem_of_In, Hx in Hy. by apply bool_decide_eq_true in Hy.
Qed.

Lemma demo_closed : closed_artifact demo_artifact.
Proof.
  split; simpl; unfold known, gate_known; try (eexists; vm_compute; reflexivity);
    try (intros ? Hin; by apply elem_of_nil in Hin); try (intros ? ? Hl; by rewrite lookup_empty in Hl).
  - apply demo_branches.
  - intros rule ->%list_elem_of_singleton. split; [eexists; vm_compute; reflexivity|done].
  - intros k rule [[_ <-]%lookup_singleton_Some|[_ <-]%lookup_singleton_Some];
      eexists; vm_compute; reflexivity.
Qed.

Lemma closed_artifact_witness :
  ∃ r p node, resolveOutbound no_regex no_zones demo_artifact (demo_call "15550123") = Ok r ∧
    plan r = Some p ∧ plan_nodes p = nodes demo_artifact ∧
    planNode demo_artifact (entryNodeId p) = Ok node.
Proof.
  destruct (resolveOutbound no_regex no_zones demo_artifact (demo_call "15550123")) as [r|] eqn:Hr;
    [|by vm_compute in Hr].
  exists r. destruct (closed_artifact_resolves no_regex no_zones demo_artifact r
    {| ri_did := ""; ri_callerNumber := None; ri_callerName := None; ri_now := 0 |}
    {| ii_from := ""; ii_dialed := ""; ii_now := 0 |} (demo_call "15550123") demo_closed
    (or_intror (or_intror Hr))) as (p & node & H). exists p, node. split; [reflexivity|exact H].
Defined.

Lemma planOriginate_witness :
  planOriginate no_regex no_zones demo_artifact
    {| op_fromExtension := " 1001"; op_to := "15550123"; op_extensionDialTemplate := "PJSIP/{number}";
       op_now := 0 |} = Ok (OriginateOk "PJSIP/1001" None None) ∧
  is_Some (extensionsByNumber demo_artifact !! "1001").
Proof.
  assert (planOriginate no_regex no_zones demo_artifact
    {| op_fromExtension := " 1001"; op_to := "15550123"; op_extensionDialTemplate := "PJSIP/{number}";
       op_now := 0 |} = Ok (OriginateOk "PJSIP/1001" None None)) as H by (vm_compute; reflexivity).
  split; [exact H|].
  destruct (planOriginate_respects_toll_class no_regex no_zones demo_artifact _ _ _ _ H)
    as (ext & He & _). exists ext. exact He.
Defined.
End Resolve.
