(* ===== verification/Compile.v ===== *)
(** * The routing compiler

    [packages/routing/src/compile.ts]: from the rows of one organization to the
    artifact the resolvers of [Resolve] read. The private state of the class
    [Compiler] that changes is [CState]; the indexes it builds first are [Env]. The
    destination graph may be cyclic, so building a node recurses until it meets an
    id that is already claimed: the recursion carries fuel, and running out of it is
    a fault no theorem allows. *)

From stdpp Require Import pretty.
From Stdlib Require QArith_base.
From S2P Require Import Prelude Effects HangupCauses Patterns TimeConditions FeatureCodes Plan.
From S2P Require Import Snapshot PinHash Resolve.

Module Compile.
Import Plan Snapshot Resolve.

(** ** State *)
Inductive fault := OutOfFuel | Thrown (e : routing_error).

Record CState := {
  bag : list Diagnostic;
  cnodes : PlanNodeTable;
  claimed : gset PlanNodeId;
  internalNumbers : list (string * InternalNumberEntry) }.

Definition cstate_init : CState :=
  {| bag := []; cnodes := ∅; claimed := ∅; internalNumbers := [] |}.

Definition M : Type → Type := method CState fault.

Record Env := {
  extensionsById : gmap string ExtensionInput;
  env_extensionsByNumber : gmap string ExtensionInput;
  ivrMenusById : gmap string IvrMenuInput;
  ringGroupsById : gmap string RingGroupInput;
  queuesById : gmap string QueueInput;
  voicemailById : gmap string VoicemailBoxInput;
  voicemailByExtension : gmap string VoicemailBoxInput;
  conferencesById : gmap string ConferenceInput;
  parkLotsById : gmap string ParkLotInput;
  phoneNumbersById : gmap string PhoneNumberInput;
  trunksById : gmap string TrunkInput;
  timeConditionInputsById : gmap string TimeConditionInput;
  mohClassesById : gmap string MohClassInput;
  emergencyAddressesById : gmap string EmergencyAddressInput;
  activeGreetings : gmap string VoicemailGreetingInput;
  ivrOptionsByMenu : gmap string (list IvrMenuOptionInput);
  ringMembersByGroup : gmap string (list RingGroupDestinationInput);
  timeRulesByCondition : gmap string (list TimeConditionRuleInput) }.

(** ** Causes and helpers *)
Definition DISABLED_TARGET_CAUSE : HangupCause := SERVICE_UNAVAILABLE.
Definition NO_MATCH_CAUSE : HangupCause := UNALLOCATED_NUMBER.
Definition TOLL_DENIED_CAUSE : HangupCause := OUTGOING_CALL_BARRED.

Definition WELL_KNOWN_TERMINAL_CAUSES : list HangupCause :=
  [NORMAL_CLEARING; UNALLOCATED_NUMBER; CALL_REJECTED; USER_BUSY; NO_ANSWER; USER_NOT_REGISTERED;
   OUTGOING_CALL_BARRED; SERVICE_UNAVAILABLE].

Definition callBlockHangupCause (action : CallBlockAction) : option HangupCause :=
  match action with
  | act_block => Some CALL_REJECTED
  | act_reject => Some USER_BUSY
  | _ => None
  end.

(** [isHangupCause(value)], with the cause it narrows to. *)
Definition hangup_cause_of (value : string) : option HangupCause :=
  find_first (λ c, bool_decide (hangup_cause_name c = value)) HANGUP_CAUSES.

(** [a || b] on numbers. *)
Definition num_or (a b : Z) : Z := if (a =? 0)%Z then b else a.

Definition sortById {A} (id : A → string) (rows : list A) : list A :=
  js_sort (λ l r, compare_strings (id l) (id r)) rows.

Definition sortByOrdinal {A} (id : A → string) (ordinal : A → Z) (rows : list A) : list A :=
  js_sort (λ l r, num_or (ordinal l - ordinal r) (compare_strings (id l) (id r))) rows.

Definition pushInto {A} (m : gmap string (list A)) (key : string) (value : A) : gmap string (list A) :=
  <[key := default [] (m !! key) ++ [value]]> m.

(** [for (const row of rows) { map.set(row.id, row) }] *)
Definition index_by {A} (key : A → string) (rows : list A) : gmap string A :=
  foldl (λ m row, <[key row := row]> m) ∅ rows.

Definition inboundSpecificity (rule : InboundRule) : Z :=
  (match in_e164 rule with None => 0 | Some _ => 10000000 end) +
  Patterns.patternSpecificity (in_pattern rule).

Definition outboundSpecificity (rule : OutboundRule) : Z :=
  foldl (λ best p, Z.max best (Patterns.patternSpecificity p)) 0%Z (out_patterns rule).

Definition allowFirst (action : CallBlockAction) : Z :=
  if bool_decide (action = act_allow) then 0 else 1.

(** [Math.trunc] of a finite number. *)
Definition trunc (q : Qc) : Z := Z.quot (QArith_base.Qnum (this q)) (Zpos (QArith_base.Qden (this q))).

Definition wholeSeconds (value : option Qc) : Z :=
  match value with Some q => Z.max 0 (trunc q) | None => 0 end.

Definition greetingKey (box : string) (kind : VoicemailGreetingKind) : string :=
  box +:+ ":" +:+ greeting_kind_name kind.

Definition nonblank (s : option string) : option string :=
  match s with
  | Some v => if String.length v =? 0 then None else Some v
  | None => None
  end.

Definition pickupGroupOf (e : ExtensionInput) : option string :=
  nonblank (Some (trim (default "" (opt (exi_pickupGroup e))))).

(** [s.replace(/^\/+/, "")] *)
Fixpoint strip_slashes (s : string) : string :=
  match s with
  | String c s' => if Ascii.eqb c (Ascii.ascii_of_nat 47) then strip_slashes s' else s
  | EmptyString => ""
  end.

Definition objectMediaRef (objectKey : string) : string :=
  "object://" +:+ strip_slashes (trim objectKey).

Definition subj (kind id : string) (name : option string) : Subject :=
  {| subject_kind := kind; subject_id := id; subject_name := name |}.

Definition empty_settings : RoutingSettingsInput :=
  {| rsi_defaultTimezone := None; rsi_voicemailPrefix := Undefined;
     rsi_voicemailCheckPrefix := Undefined; rsi_outboundCallerIdNumber := Undefined;
     rsi_outboundCallerIdName := Undefined; rsi_trunkContinueOnCauses := None;
     rsi_outboundEnabled := None; rsi_emergencyNumbers := None |}.

(** ** Diagnostics, claims and nodes *)
Definition report (sev : Severity) (code : string) (sub : option Subject) (path : option string)
    : M unit :=
  modify (λ s, {| bag := bag s ++ [ {| severity := sev; diag_code := code; subject := sub;
                                       diag_path := path |} ];
                  cnodes := cnodes s; claimed := claimed s; internalNumbers := internalNumbers s |}).

Definition bag_error := report sev_error.
Definition bag_warning := report sev_warning.

Definition hasErrors (ds : list Diagnostic) : bool :=
  existsb (λ d, match severity d with sev_error => true | _ => false end) ds.

Definition claim (id : PlanNodeId) : M unit :=
  modify (λ s, {| bag := bag s; cnodes := cnodes s; claimed := {[ id ]} ∪ claimed s;
                  internalNumbers := internalNumbers s |}).

Definition set_node (id : PlanNodeId) (label : option string) (body : PlanNodeBody) : M unit :=
  modify (λ s, {| bag := bag s;
                  cnodes := <[id := {| node_id := id; node_label := label; node_body := body |}]>
                              (cnodes s);
                  claimed := claimed s; internalNumbers := internalNumbers s |}).

Definition is_claimed (id : PlanNodeId) : M bool := gets (λ s, bool_decide (id ∈ claimed s)).

(** The guard every node builder starts with: an id already claimed is answered
    as it is, possibly still under construction. *)
Definition once (id : PlanNodeId) (build : M unit) : M PlanNodeId :=
  seen ← is_claimed id;
  if (seen : bool) then mret id
  else _ ← claim id; _ ← build; mret id.

Definition hangupNode (cause : HangupCause) : M PlanNodeId :=
  let id := "hangup:" +:+ hangup_cause_name cause in
  once id (set_node id None (HangupNode {| hu_cause := cause |})).

Definition externalNode (value : string) (viaOutboundRouting : bool) : M PlanNodeId :=
  let destination := trim value in
  let id := "external:" +:+ destination in
  once id (set_node id (Some destination)
    (ExternalNode {| external_destination := destination;
                     external_viaOutboundRouting := viaOutboundRouting;
                     external_callerIdNumber := None; external_callerIdName := None |})).

Definition applicationNode (name : string) (args : option (gmap string FeatureCodes.ParamValue))
    : M PlanNodeId :=
  let id := "application:" +:+ name +:+ args_key args in
  once id (set_node id (Some name) (ApplicationNode {| app_application := name; app_args := args |})).

Definition missingTarget (sub : Subject) (path : string) : M (option PlanNodeId) :=
  _ ← bag_error "dangling-destination" (Some sub) (Some path);
  mret None.

Definition disabledTarget (sub : Subject) (path : string) : M PlanNodeId :=
  _ ← bag_warning "disabled-entity" (Some sub) (Some path);
  hangupNode DISABLED_TARGET_CAUSE.

(** The three outcomes of looking an entity up by its reference. *)
Definition by_reference {A} (table : gmap string A) (enabled : A → bool) (ref : string)
    (sub : Subject) (path : string) (build : A → M PlanNodeId) : M (option PlanNodeId) :=
  match table !! ref with
  | None => missingTarget sub path
  | Some row =>
      if negb (enabled row) then id ← disabledTarget sub path; mret (Some id)
      else id ← build row; mret (Some id)
  end.

(** [a ?? b] where [b] is evaluated only when [a] is absent. *)
Definition or_else {A} (a : option A) (b : M (option A)) : M (option A) :=
  match a with Some x => mret (Some x) | None => b end.

Section Compiler.
Context (RegExp : string → result string Patterns.exec_fun).
Context (localeCompare : string → string → Z).
Context (isKnownTimezone : string → bool).
Context (snap : OrgRoutingSnapshot).

(** ** Indexing *)
Definition greeting_step (boxes : gmap string VoicemailBoxInput)
    (acc : gmap string VoicemailGreetingInput * list Diagnostic) (g : VoicemailGreetingInput)
    : gmap string VoicemailGreetingInput * list Diagnostic :=
  let '(active, ds) := acc in
  if negb (vgi_active g) then acc
  else
    match boxes !! vgi_voicemailBoxId g with
    | None =>
        (active, ds ++ [ {| severity := sev_warning; diag_code := "dangling-voicemail-greeting";
                            subject := Some (subj "voicemail-greeting" (vgi_id g) None);
                            diag_path := Some "voicemailBoxId" |} ])
    | Some _ =>
        let key := greetingKey (vgi_voicemailBoxId g) (vgi_kind g) in
        match active !! key with
        | Some _ => acc
        | None => (<[key := g]> active, ds)
        end
    end.

Definition indexVoicemailGreetings (boxes : gmap string VoicemailBoxInput)
    : gmap string VoicemailGreetingInput * list Diagnostic :=
  foldl (greeting_step boxes) (∅, []) (sortById vgi_id (default [] (voicemailGreetings snap))).

Definition boxes_by_id : gmap string VoicemailBoxInput :=
  index_by vbi_id (sortById vbi_id (voicemailBoxes snap)).

Definition index_by_extension (rows : list VoicemailBoxInput) : gmap string VoicemailBoxInput :=
  foldl (λ m box,
    match opt (vbi_extensionId box) with
    | Some e => if vbi_enabled box then <[e := box]> m else m
    | None => m
    end) ∅ rows.

Definition index : Env :=
  {| extensionsById := index_by exi_id (sortById exi_id (extensions snap));
     env_extensionsByNumber :=
       index_by exi_number (List.filter exi_enabled (sortById exi_id (extensions snap)));
     ivrMenusById := index_by ivi_id (sortById ivi_id (ivrMenus snap));
     ringGroupsById := index_by rgi_id (sortById rgi_id (ringGroups snap));
     queuesById := index_by qui_id (sortById qui_id (queues snap));
     voicemailById := boxes_by_id;
     voicemailByExtension := index_by_extension (sortById vbi_id (voicemailBoxes snap));
     conferencesById := index_by cfi_id (sortById cfi_id (conferences snap));
     parkLotsById := index_by pli_id (sortById pli_id (parkLots snap));
     phoneNumbersById := index_by pni_id (sortById pni_id (phoneNumbers snap));
     trunksById := index_by tki_id (sortById tki_id (trunks snap));
     timeConditionInputsById := index_by tci_id (sortById tci_id (snap_timeConditions snap));
     mohClassesById := index_by mci_id (sortById mci_id (default [] (mohClasses snap)));
     emergencyAddressesById :=
       index_by eai_id (sortById eai_id (default [] (emergencyAddresses snap)));
     activeGreetings := fst (indexVoicemailGreetings boxes_by_id);
     ivrOptionsByMenu :=
       foldl (λ m o, pushInto m (ivo_ivrMenuId o) o) ∅
         (sortByOrdinal ivo_id ivo_ordinal (ivrMenuOptions snap));
     ringMembersByGroup :=
       foldl (λ m o, pushInto m (rgd_ringGroupId o) o) ∅
         (sortByOrdinal rgd_id rgd_ordinal (ringGroupDestinations snap));
     timeRulesByCondition :=
       foldl (λ m o, pushInto m (tri_timeConditionId o) o) ∅
         (sortByOrdinal tri_id tri_ordinal (timeConditionRules snap)) |}.

Definition settings_input : RoutingSettingsInput := default empty_settings (snap_settings snap).

Context (env : Env).

(** ** Settings *)
Definition compileSettings : M CompiledRoutingSettings :=
  let input := settings_input in
  let timezone := default "UTC" (rsi_defaultTimezone input) in
  _ ← (if negb (isKnownTimezone timezone)
       then bag_error "unknown-timezone" None (Some "settings.defaultTimezone") else mret tt);
  mret {| defaultTimezone := timezone;
          outboundEnabled := default true (rsi_outboundEnabled input);
          set_outboundCallerIdNumber := opt (rsi_outboundCallerIdNumber input);
          set_outboundCallerIdName := opt (rsi_outboundCallerIdName input) |}.

Definition trunkContinueOnCauses : M (list HangupCause) :=
  match rsi_trunkContinueOnCauses settings_input with
  | None => mret RETRYABLE_HANGUP_CAUSES
  | Some configured =>
      accepted ← collect (λ cause,
        match hangup_cause_of cause with
        | Some c => mret (Some c)
        | None =>
            _ ← bag_warning "invalid-pattern" None (Some "settings.trunkContinueOnCauses");
            mret None
        end) configured;
      mret (js_sort (λ l r, compare_strings (hangup_cause_name l) (hangup_cause_name r))
              (js_set accepted))
  end.

(** ** Time conditions *)
Fixpoint compile_predicates (rule : TimeConditionRuleInput) (index : nat)
    (ps : list TimeConditions.TimePredicate) : M (bool * list TimeConditions.TimePredicate) :=
  match ps with
  | [] => mret (true, [])
  | p :: rest =>
      let issues := TimeConditions.validateTimePredicate p in
      _ ← for_each (λ _, bag_error "invalid-time-rule"
                           (Some (subj "time-condition-rule" (tri_id rule) None))
                           (Some ("predicates[" +:+ pretty index +:+ "]"))) issues;
      '(valid, compiled) ← compile_predicates rule (S index) rest;
      mret ((length issues =? 0) && valid, TimeConditions.compileTimePredicate p :: compiled)
  end.

Definition compile_time_rule (rule : TimeConditionRuleInput)
    : M (option TimeConditions.CompiledTimeRule) :=
  if negb (tri_enabled rule) then mret None
  else
    '(valid, predicates) ← compile_predicates rule 0 (tri_predicates rule);
    mret (if (valid : bool) then
            Some {| TimeConditions.rule_id := tri_id rule;
                    TimeConditions.ordinal := tri_ordinal rule;
                    TimeConditions.rule_label := opt (tri_label rule);
                    TimeConditions.predicates := predicates |}
          else None).

Definition compile_time_condition (condition : TimeConditionInput)
    : M (option (string * TimeConditions.CompiledTimeCondition)) :=
  let sub := subj "time-condition" (tci_id condition) (Some (tci_name condition)) in
  let timezone := if String.length (tci_timezone condition) =? 0 then "UTC"
                  else tci_timezone condition in
  if negb (isKnownTimezone timezone) then
    _ ← bag_error "unknown-timezone" (Some sub) (Some "timezone");
    mret None
  else
    rules ← collect compile_time_rule (default [] (timeRulesByCondition env !! tci_id condition));
    _ ← (if length rules =? 0 then bag_warning "empty-time-condition" (Some sub) None else mret tt);
    mret (Some (tci_id condition,
                {| TimeConditions.cond_id := tci_id condition;
                   TimeConditions.cond_name := tci_name condition;
                   TimeConditions.timezone := timezone;
                   TimeConditions.rules := rules |})).

Definition compileTimeConditions : M (gmap string TimeConditions.CompiledTimeCondition) :=
  compiled ← collect compile_time_condition (sortById tci_id (snap_timeConditions snap));
  mret (foldl (λ m kv, <[kv.1 := kv.2]> m) ∅ compiled).

(** ** Leaves: mailboxes, rooms, music *)
Definition mohClassName (mohClassId : nullable string) (sub : Subject) (path : string)
    : M (option string) :=
  match opt mohClassId with
  | None => mret None
  | Some id =>
      if bool_decide (trim id = "") then mret None
      else
        match mohClasses snap with
        | None => mret None
        | Some _ =>
            match mohClassesById env !! id with
            | None => _ ← bag_warning "dangling-moh-class" (Some sub) (Some path); mret None
            | Some moh =>
                if negb (mci_enabled moh)
                then _ ← bag_warning "dangling-moh-class" (Some sub) (Some path); mret None
                else mret (Some (mci_name moh))
            end
        end
  end.

Definition activeLeaveGreeting (box : string) : option VoicemailGreetingInput :=
  let usable kind :=
    match activeGreetings env !! greetingKey box kind with
    | Some g => if 0 <? String.length (trim (vgi_objectKey g)) then Some g else None
    | None => None
    end in
  head (omap usable VOICEMAIL_LEAVE_GREETING_PRECEDENCE).

(** [voicemailPinHash] and [conferencePinHash]: the same steps, on different
    columns. *)
Definition pin_hash (raw : nullable string) (sub : Subject) (path : string) : M (option string) :=
  match opt raw with
  | None => mret None
  | Some value =>
      if bool_decide (trim value = "") then mret None
      else
        match PinHash.voicemailPinHashIssue (Some value) with
        | Some _ => _ ← bag_warning "invalid-pin-hash" (Some sub) (Some path); mret None
        | None => mret (Some (trim value))
        end
  end.

Definition mode_name (mode : VoicemailMode) : string :=
  match mode with vm_leave => "leave" | vm_check => "check" end.

Definition voicemailNode (box : VoicemailBoxInput) (mode : VoicemailMode) : M PlanNodeId :=
  let id := "voicemail:" +:+ vbi_id box +:+ ":" +:+ mode_name mode in
  once id
    (let sub := subj "voicemail-box" (vbi_id box) (Some (vbi_mailboxNumber box)) in
     let greeting := match mode with
                     | vm_leave => activeLeaveGreeting (vbi_id box)
                     | vm_check => None
                     end in
     pin ← pin_hash (vbi_pinHash box) sub "pinHash";
     set_node id (Some (default (vbi_mailboxNumber box) (opt (vbi_label box))))
       (VoicemailNode {| vm_voicemailBoxId := vbi_id box; vm_mailboxNumber := vbi_mailboxNumber box;
                         vm_mode := mode; vm_maxMessageSeconds := vbi_maxMessageSeconds box;
                         vm_mwiEnabled := vbi_mwiEnabled box;
                         vm_greetingMedia := objectMediaRef ∘ vgi_objectKey <$> greeting;
                         vm_greetingKind := vgi_kind <$> greeting;
                         vm_pinHash := pin |})).

Definition conference_node_id (room : ConferenceInput) : PlanNodeId := "conference:" +:+ cfi_id room.

Definition conferenceNode (room : ConferenceInput) : M PlanNodeId :=
  let id := conference_node_id room in
  once id
    (let sub := subj "conference" (cfi_id room) (Some (cfi_name room)) in
     moh ← mohClassName (cfi_mohClassId room) sub "mohClassId";
     pin ← pin_hash (cfi_pinHash room) sub "pinHash";
     moderator ← pin_hash (cfi_moderatorPinHash room) sub "moderatorPinHash";
     let requires :=
       default (bool_decide (is_Some (opt (cfi_moderatorPinHash room))))
         (cfi_requiresModeratorPin room) in
     set_node id (Some (cfi_name room))
       (ConferenceNode {| conf_conferenceId := cfi_id room; conf_roomNumber := cfi_roomNumber room;
                          conf_requiresPin := cfi_requiresPin room;
                          conf_maxMembers := cfi_maxMembers room;
                          conf_waitForModerator := cfi_waitForModerator room;
                          conf_recordEnabled := cfi_recordEnabled room;
                          conf_mohClassId := opt (cfi_mohClassId room); conf_mohClass := moh;
                          conf_pinHash := pin; conf_moderatorPinHash := moderator;
                          conf_requiresModeratorPin := if requires then Some true else None |})).

(** ** Extensions *)
Definition extensionVoicemailNode (e : ExtensionInput) (sub : Subject) : M (option PlanNodeId) :=
  if negb (exi_voicemailEnabled e) then mret None
  else
    match voicemailByExtension env !! exi_id e with
    | None =>
        _ ← bag_warning "missing-voicemail-box" (Some sub) (Some "voicemailEnabled");
        mret None
    | Some box => id ← voicemailNode box vm_leave; mret (Some id)
    end.

Section Forwards.
(** [this.extensionNode], one level down. *)
Context (rec : ExtensionInput → M PlanNodeId).

Definition forwardNode (destination : nullable string) (sub : Subject) (path : string)
    : M (option PlanNodeId) :=
  let target := trim (default "" (opt destination)) in
  if String.length target =? 0 then
    _ ← bag_warning "unresolvable-forward" (Some sub) (Some path);
    mret None
  else
    match env_extensionsByNumber env !! target with
    | Some internal => id ← rec internal; mret (Some id)
    | None => id ← externalNode target true; mret (Some id)
    end.

(** [enabled ? this.forwardNode(...) : undefined] *)
Definition forward_if (enabled : bool) (destination : nullable string) (sub : Subject)
    (path : string) : M (option PlanNodeId) :=
  if enabled then forwardNode destination sub path else mret None.

(** [forward ?? voicemailNodeId ?? this.hangupNode(cause)] *)
Definition forward_or (forward : M (option PlanNodeId)) (voicemail : option PlanNodeId)
    (cause : HangupCause) : M PlanNodeId :=
  f ← forward;
  match f, voicemail with
  | Some id, _ | None, Some id => mret id
  | None, None => hangupNode cause
  end.

Definition extension_build (e : ExtensionInput) (id : PlanNodeId) : M unit :=
  let sub := subj "extension" (exi_id e) (Some (exi_number e)) in
  voicemail ← extensionVoicemailNode e sub;
  moh ← mohClassName (exi_mohClassId e) sub "mohClassId";
  forwardAll ← forward_if (exi_forwardAllEnabled e) (exi_forwardAllDestination e) sub
                 "forwardAllDestination";
  busy ← forward_or (forward_if (exi_forwardBusyEnabled e) (exi_forwardBusyDestination e) sub
                       "forwardBusyDestination") voicemail USER_BUSY;
  noAnswer ← forward_or (forward_if (exi_forwardNoAnswerEnabled e) (exi_forwardNoAnswerDestination e)
                           sub "forwardNoAnswerDestination") voicemail NO_ANSWER;
  notRegistered ← forward_or (forward_if (exi_forwardUnregisteredEnabled e)
                                (exi_forwardUnregisteredDestination e) sub
                                "forwardUnregisteredDestination") voicemail USER_NOT_REGISTERED;
  set_node id (Some (exi_label e))
    (ExtensionNode {| ext_extensionId := exi_id e; ext_number := exi_number e;
                      ext_callerIdName := opt (exi_callerIdName e);
                      ext_callerIdNumber := opt (exi_callerIdNumber e);
                      ext_tollClass := exi_tollClass e; ext_recordPolicy := exi_recordPolicy e;
                      ext_timeoutSeconds := exi_callTimeoutSeconds e;
                      ext_doNotDisturb := exi_doNotDisturb e; ext_pickupGroup := pickupGroupOf e;
                      ext_mohClassId := opt (exi_mohClassId e); ext_mohClass := moh;
                      ext_forwardAllNodeId := forwardAll; ext_busyNodeId := Some busy;
                      ext_noAnswerNodeId := Some noAnswer;
                      ext_notRegisteredNodeId := Some notRegistered; ext_followMe := None |}).
End Forwards.

Definition extension_node_id (e : ExtensionInput) : PlanNodeId := "extension:" +:+ exi_id e.

Fixpoint extensionNode_fuel (fuel : nat) (e : ExtensionInput) : M PlanNodeId :=
  match fuel with
  | O => throw OutOfFuel
  | S fuel =>
      once (extension_node_id e)
        (extension_build (extensionNode_fuel fuel) e (extension_node_id e))
  end.

Definition extensionNode : ExtensionInput → M PlanNodeId :=
  extensionNode_fuel (S (length (extensions snap))).

(** ** Entities that point at destinations *)
Section Destinations.
(** [this.destinationNode], one level down. *)
Context (rec : Destination → Subject → string → M (option PlanNodeId)).

Definition named_destination (row : NamedDestination) : option Destination :=
  match opt (named_type row) with
  | None => None
  | Some t => Some {| destinationType := t; destinationRef := named_ref row;
                      destinationData := named_data row |}
  end.

Definition namedDestinationNode (row : NamedDestination) (prefix : string) (sub : Subject)
    : M (option PlanNodeId) :=
  match named_destination row with
  | None => mret None
  | Some d => rec d sub (prefix +:+ "Destination")
  end.

(** The loop over the issues of a pattern: whether it is still usable. *)
Fixpoint pattern_issues (issues : list Patterns.PatternIssue) (sub : Subject) (path : string)
    : M bool :=
  match issues with
  | [] => mret true
  | Patterns.UnanchoredRegex :: rest =>
      _ ← bag_warning "unanchored-regex" (Some sub) (Some path);
      pattern_issues rest sub path
  | issue :: rest =>
      _ ← bag_error (match issue with
                     | Patterns.InvalidRegex _ => "invalid-regex"
                     | _ => "invalid-pattern"
                     end) (Some sub) (Some path);
      _ ← pattern_issues rest sub path;
      mret false
  end.

Definition ivr_option (id : PlanNodeId) (o : IvrMenuOptionInput) : M (option IvrOption) :=
  if negb (ivo_enabled o) then mret None
  else
    let sub := subj "ivr-menu-option" (ivo_id o) (Some (ivo_matchValue o)) in
    let '(pattern, issues) :=
      Patterns.compilePattern RegExp
        (match ivo_matchKind o with ivr_digit => Patterns.match_exact | ivr_regex => Patterns.match_regex end)
        (Some (ivo_matchValue o)) in
    usable ← pattern_issues issues sub "matchValue";
    if negb usable then mret None
    else
      target ← rec (ivo_destination o) sub "destination";
      match target with
      | None => mret None
      | Some t =>
          if bool_decide (t = id) then
            _ ← bag_error "self-referencing-ivr" (Some sub) (Some "destination");
            mret None
          else
            mret (Some {| option_ordinal := ivo_ordinal o; option_pattern := pattern;
                          option_matchValue := ivo_matchValue o; option_label := opt (ivo_label o);
                          option_targetNodeId := t |})
      end.

Definition self_branch (id : PlanNodeId) (target : option PlanNodeId) (sub : Subject)
    (path : string) : M unit :=
  if bool_decide (target = Some id)
  then bag_error "self-referencing-ivr" (Some sub) (Some path) else mret tt.

(** [nodeId === id ? undefined : nodeId ?? undefined] *)
Definition unless_self (id : PlanNodeId) (target : option PlanNodeId) : option PlanNodeId :=
  if bool_decide (target = Some id) then None else target.

Definition ivr_node_id (menu : IvrMenuInput) : PlanNodeId := "ivr-menu:" +:+ ivi_id menu.

Definition ivr_build (menu : IvrMenuInput) : M unit :=
  let id := ivr_node_id menu in
  let sub := subj "ivr-menu" (ivi_id menu) (Some (ivi_name menu)) in
  options ← collect (ivr_option id) (default [] (ivrOptionsByMenu env !! ivi_id menu));
  timeout ← namedDestinationNode (ivi_timeout menu) "timeout" sub;
  invalid ← namedDestinationNode (ivi_invalid menu) "invalid" sub;
  _ ← self_branch id timeout sub "timeoutDestination";
  _ ← self_branch id invalid sub "invalidDestination";
  set_node id (Some (ivi_name menu))
    (IvrMenuNode {| ivr_ivrMenuId := ivi_id menu;
                    ivr_greetingPromptId := opt (ivi_greetingPromptId menu);
                    ivr_shortGreetingPromptId := opt (ivi_shortGreetingPromptId menu);
                    ivr_invalidPromptId := opt (ivi_invalidPromptId menu);
                    ivr_timeoutPromptId := opt (ivi_timeoutPromptId menu);
                    ivr_digitTimeoutMs := ivi_digitTimeoutMs menu;
                    ivr_interDigitTimeoutMs := ivi_interDigitTimeoutMs menu;
                    ivr_maxDigits := ivi_maxDigits menu; ivr_maxFailures := ivi_maxFailures menu;
                    ivr_maxTimeouts := ivi_maxTimeouts menu;
                    ivr_directDialEnabled := ivi_directDialEnabled menu; ivr_options := options;
                    ivr_timeoutNodeId := unless_self id timeout;
                    ivr_invalidNodeId := unless_self id invalid |}).

Definition ivrNode (menu : IvrMenuInput) : M PlanNodeId :=
  once (ivr_node_id menu) (ivr_build menu).

Definition ring_member (group : RingGroupInput) (m : RingGroupDestinationInput)
    : M (option RingGroupMember) :=
  if negb (rgd_enabled m) then mret None
  else
    target ← rec (rgd_destination m) (subj "ring-group-destination" (rgd_id m) None) "destination";
    mret (match target with
          | None => None
          | Some t =>
              Some {| member_ordinal := rgd_ordinal m;
                      member_delaySeconds := match rgi_strategy group with
                                             | simultaneous => 0%Z
                                             | sequential => rgd_delaySeconds m
                                             end;
                      member_timeoutSeconds := rgd_timeoutSeconds m;
                      member_confirmRequired := rgd_confirmRequired m || rgi_confirmEnabled group;
                      member_targetNodeId := t |}
          end).

Definition ring_group_node_id (group : RingGroupInput) : PlanNodeId := "ring-group:" +:+ rgi_id group.

Definition ring_group_build (group : RingGroupInput) : M unit :=
  let id := ring_group_node_id group in
  let sub := subj "ring-group" (rgi_id group) (Some (rgi_name group)) in
  members ← collect (ring_member group) (default [] (ringMembersByGroup env !! rgi_id group));
  _ ← (if length members =? 0 then bag_warning "empty-ring-group" (Some sub) None else mret tt);
  moh ← mohClassName (rgi_mohClassId group) sub "mohClassId";
  timeout ← namedDestinationNode (rgi_timeout group) "timeout" sub;
  set_node id (Some (rgi_name group))
    (RingGroupNode {| rg_ringGroupId := rgi_id group; rg_strategy := rgi_strategy group;
                      rg_ringTimeoutSeconds := rgi_ringTimeoutSeconds group;
                      rg_ignoreBusy := rgi_ignoreBusy group;
                      rg_confirmEnabled := rgi_confirmEnabled group;
                      rg_confirmPromptId := opt (rgi_confirmPromptId group);
                      rg_callerIdNamePrefix := opt (rgi_callerIdNamePrefix group);
                      rg_mohClassId := opt (rgi_mohClassId group); rg_mohClass := moh;
                      rg_ringbackPromptId := opt (rgi_ringbackPromptId group);
                      rg_members := members; rg_timeoutNodeId := timeout |}).

Definition ringGroupNode (group : RingGroupInput) : M PlanNodeId :=
  once (ring_group_node_id group) (ring_group_build group).

Definition queue_node_id (q : QueueInput) : PlanNodeId := "queue:" +:+ qui_id q.

Definition queue_build (q : QueueInput) : M unit :=
  let id := queue_node_id q in
  let sub := subj "queue" (qui_id q) (Some (qui_name q)) in
  moh ← mohClassName (qui_mohClassId q) sub "mohClassId";
  timeout ← namedDestinationNode (qui_timeout q) "timeout" sub;
  set_node id (Some (qui_name q))
    (QueueNode {| queue_queueId := qui_id q; queue_strategy := qui_strategy q;
                  queue_mohClassId := opt (qui_mohClassId q); queue_mohClass := moh;
                  queue_greetingPromptId := opt (qui_greetingPromptId q);
                  queue_announcePromptId := opt (qui_announcePromptId q);
                  queue_maxWaitSeconds := qui_maxWaitSeconds q;
                  queue_maxWaitNoAgentSeconds := qui_maxWaitNoAgentSeconds q;
                  queue_announcePositionEnabled := qui_announcePositionEnabled q;
                  queue_announceFrequencySeconds := qui_announceFrequencySeconds q;
                  queue_recordEnabled := qui_recordEnabled q; queue_timeoutNodeId := timeout |}).

Definition queueNode (q : QueueInput) : M PlanNodeId :=
  once (queue_node_id q) (queue_build q).

Definition park_node_id (lot : ParkLotInput) : PlanNodeId := "park:" +:+ pli_id lot.

Definition park_build (lot : ParkLotInput) : M unit :=
  let id := park_node_id lot in
  let sub := subj "park-lot" (pli_id lot) (Some (pli_name lot)) in
  moh ← mohClassName (pli_mohClassId lot) sub "mohClassId";
  timeout ← namedDestinationNode (pli_timeout lot) "timeout" sub;
  set_node id (Some (pli_name lot))
    (ParkNode {| park_parkLotId := pli_id lot; park_slotStart := pli_slotStart lot;
                 park_slotEnd := pli_slotEnd lot; park_timeoutSeconds := pli_timeoutSeconds lot;
                 park_mohClassId := opt (pli_mohClassId lot); park_mohClass := moh;
                 park_timeoutNodeId := timeout |}).

Definition parkNode (lot : ParkLotInput) : M PlanNodeId :=
  once (park_node_id lot) (park_build lot).

Definition time_condition_node_id (c : TimeConditionInput) : PlanNodeId :=
  "time-condition:" +:+ tci_id c.

(** [timeConditionNodeById] once the row is found and enabled. *)
Definition time_condition_build (c : TimeConditionInput) : M unit :=
  let id := time_condition_node_id c in
  let sub := subj "time-condition" (tci_id c) (Some (tci_name c)) in
  matched ← rec (tci_destination c) sub "destination";
  noMatch ← namedDestinationNode (tci_nomatch c) "nomatch" sub;
  matchNode ← match matched with Some m => mret m | None => hangupNode NORMAL_CLEARING end;
  set_node id (Some (tci_name c))
    (TimeConditionNode {| tc_timeConditionId := tci_id c; tc_matchNodeId := matchNode;
                          tc_noMatchNodeId := noMatch |}).

Definition time_condition_node (c : TimeConditionInput) : M PlanNodeId :=
  once (time_condition_node_id c) (time_condition_build c).

(** The body of [destinationNode] once the type is known and the shape is right. *)
Definition destination_target (t : DestinationType) (d : Destination) (sub : Subject)
    (path : string) : M (option PlanNodeId) :=
  let ref := default "" (opt (destinationRef d)) in
  let data := opt (destinationData d) in
  match t with
  | dest_extension => by_reference (extensionsById env) exi_enabled ref sub path extensionNode
  | dest_ivr => by_reference (ivrMenusById env) ivi_enabled ref sub path ivrNode
  | dest_ring_group => by_reference (ringGroupsById env) rgi_enabled ref sub path ringGroupNode
  | dest_queue => by_reference (queuesById env) qui_enabled ref sub path queueNode
  | dest_voicemail =>
      by_reference (voicemailById env) vbi_enabled ref sub path (λ box, voicemailNode box vm_leave)
  | dest_conference => by_reference (conferencesById env) cfi_enabled ref sub path conferenceNode
  | dest_park => by_reference (parkLotsById env) pli_enabled ref sub path parkNode
  | dest_time_condition =>
      by_reference (timeConditionInputsById env) tci_enabled ref sub path time_condition_node
  | dest_external =>
      id ← externalNode (default "" (data ≫= data_value)) true; mret (Some id)
  | dest_application =>
      id ← applicationNode (default "" (data ≫= data_value)) (data ≫= data_args); mret (Some id)
  | dest_hangup =>
      match data ≫= data_cause with
      | None => id ← hangupNode NORMAL_CLEARING; mret (Some id)
      | Some cause =>
          match hangup_cause_of cause with
          | None =>
              _ ← bag_error "invalid-destination-shape" (Some sub) (Some path);
              mret None
          | Some c => id ← hangupNode c; mret (Some id)
          end
      end
  end.
End Destinations.

Fixpoint destinationNode_fuel (fuel : nat) (d : Destination) (sub : Subject) (path : string)
    : M (option PlanNodeId) :=
  match fuel with
  | O => throw OutOfFuel
  | S fuel =>
      match isDestinationType (destinationType d) with
      | None =>
          _ ← bag_error "unknown-destination-type" (Some sub) (Some path);
          mret None
      | Some t =>
          if negb (length (destinationShapeIssues d) =? 0) then
            _ ← bag_error "invalid-destination-shape" (Some sub) (Some path);
            mret None
          else destination_target (destinationNode_fuel fuel) t d sub path
      end
  end.

(** Every nested call has claimed one more menu, group, queue, lot or condition. *)
Definition destination_fuel : nat :=
  2 + (length (ivrMenus snap) + length (ringGroups snap) + length (queues snap) +
       length (parkLots snap) + length (snap_timeConditions snap)).

Definition destinationNode : Destination → Subject → string → M (option PlanNodeId) :=
  destinationNode_fuel destination_fuel.

(** [namedDestinationNode(row, prefix, subject)] at the top level. *)
Definition namedNode (row : NamedDestination) (prefix : string) (sub : Subject)
    : M (option PlanNodeId) := namedDestinationNode destinationNode row prefix sub.
End Compiler.
End Compile.
