(* ===== verification/CompileTables.v ===== *)
(** * The routing compiler: tables, checks and the run

    The second half of [packages/routing/src/compile.ts]: the emergency, internal,
    inbound and outbound tables, call blocking, the extension index, follow-me, the
    checks over the whole graph, and [tryCompileRoutingArtifact]. *)

From stdpp Require Import pretty.
From S2P Require Import Prelude Effects HangupCauses Patterns TimeConditions FeatureCodes Plan.
From S2P Require Import Snapshot Cache Resolve Compile.

Module Tables.
Import Plan Snapshot Resolve Compile.

Section Tables.
Context (RegExp : string → result string Patterns.exec_fun).
Context (localeCompare : string → string → Z).
Context (snap : OrgRoutingSnapshot) (env : Env).

Local Abbreviation ext_node := (extensionNode snap env).
Local Abbreviation dest_node := (destinationNode RegExp snap env).
Local Abbreviation named_node := (namedNode RegExp snap env).

Definition ensureWellKnownTerminals : M unit :=
  for_each (λ cause, _ ← hangupNode cause; mret tt) WELL_KNOWN_TERMINAL_CAUSES.

(** [for (const row of sortById(rows)) { if (row.enabled) { build(row) } }] *)
Definition materialise {A} (id : A → string) (enabled : A → bool) (rows : list A)
    (build : A → M unit) : M unit :=
  for_each (λ row, if enabled row then build row else mret tt) (sortById id rows).

Definition materialiseEntities : M unit :=
  _ ← materialise exi_id exi_enabled (extensions snap) (λ e, _ ← ext_node e; mret tt);
  _ ← materialise vbi_id vbi_enabled (voicemailBoxes snap)
        (λ box, _ ← voicemailNode env box vm_leave; _ ← voicemailNode env box vm_check; mret tt);
  _ ← materialise rgi_id rgi_enabled (ringGroups snap)
        (λ g, _ ← ringGroupNode snap env dest_node g; mret tt);
  _ ← materialise ivi_id ivi_enabled (ivrMenus snap)
        (λ m, _ ← ivrNode RegExp env dest_node m; mret tt);
  _ ← materialise qui_id qui_enabled (queues snap) (λ q, _ ← queueNode snap env dest_node q; mret tt);
  _ ← materialise cfi_id cfi_enabled (conferences snap) (λ r, _ ← conferenceNode snap env r; mret tt);
  _ ← materialise pli_id pli_enabled (parkLots snap) (λ l, _ ← parkNode snap env dest_node l; mret tt);
  materialise tci_id tci_enabled (snap_timeConditions snap)
    (λ c, _ ← by_reference (timeConditionInputsById env) tci_enabled (tci_id c)
                (subj "time-condition" (tci_id c) (Some (tci_name c))) "destination"
                (time_condition_node dest_node);
          mret tt).

(** ** Emergency dialing *)
Definition reportInvalidEmergencyNumbers : M unit :=
  for_each (λ _, bag_warning "invalid-emergency-number" None (Some "settings.emergencyNumbers"))
    (Emergency.invalidEmergencyNumbers (rsi_emergencyNumbers (settings_input snap))).

(** [elin] and [emergencyAddressId] *)
Record EmergencyLocation := { elin : option string; loc_emergencyAddressId : option string }.

Fixpoint emergency_location_loop (dids : list PhoneNumberInput) (chosen : option (string * string))
    (unassigned : list Subject) : M (option (string * string) * list Subject) :=
  match dids with
  | [] => mret (chosen, unassigned)
  | did :: rest =>
      if negb (pni_enabled did) || negb (pni_voiceEnabled did)
      then emergency_location_loop rest chosen unassigned
      else
        let sub := subj "phone-number" (pni_id did) (Some (pni_e164 did)) in
        let choose address := Some (default (pni_e164 did, address) chosen) in
        match opt (pni_emergencyAddressId did) with
        | None => emergency_location_loop rest chosen (unassigned ++ [sub])
        | Some address =>
            if bool_decide (trim address = "")
            then emergency_location_loop rest chosen (unassigned ++ [sub])
            else
              match emergencyAddresses snap with
              | None => emergency_location_loop rest (choose address) unassigned
              | Some _ =>
                  match emergencyAddressesById env !! address with
                  | None =>
                      _ ← bag_warning "dangling-emergency-address" (Some sub)
                            (Some "emergencyAddressId");
                      emergency_location_loop rest chosen unassigned
                  | Some row =>
                      if negb (eai_validated row) then
                        _ ← bag_warning "dangling-emergency-address" (Some sub)
                              (Some "emergencyAddressId");
                        emergency_location_loop rest chosen unassigned
                      else emergency_location_loop rest (choose address) unassigned
                  end
              end
        end
  end.

Definition emergencyLocation : M EmergencyLocation :=
  '(chosen, unassigned) ← emergency_location_loop
    (js_sort (λ l r, compare_strings (pni_e164 l) (pni_e164 r)) (phoneNumbers snap)) None [];
  _ ← for_each (λ sub, bag_warning "missing-emergency-address" (Some sub) (Some "emergencyAddressId"))
        unassigned;
  mret {| elin := fst <$> chosen; loc_emergencyAddressId := snd <$> chosen |}.

(** [if (!seen.has(id)) { seen.add(id); ordered.push(id) }] *)
Definition push_once (ordered : list string) (id : string) : list string :=
  if includes ordered id then ordered else ordered ++ [id].

Definition emergency_trunk_order : list string :=
  let routes :=
    js_sort (λ l r, num_or (ori_priority l - ori_priority r) (compare_strings (ori_id l) (ori_id r)))
      (List.filter ori_enabled (outboundRoutes snap)) in
  let from_routes :=
    foldl (λ ordered route,
      foldl (λ ordered entry,
        if bool_decide (is_Some (trunksById env !! tpi_trunkId entry))
        then push_once ordered (tpi_trunkId entry) else ordered)
        ordered (js_sort (λ l r, tpi_order l - tpi_order r)%Z (ori_trunkPriority route)))
      [] routes in
  foldl (λ ordered trunk, push_once ordered (tki_id trunk)) from_routes
    (js_sort (λ l r, compare_strings (tki_name l) (tki_name r)) (trunks snap)).

Definition trunk_attempt (trunk : TrunkInput) (callerId : option string) (order : Z)
    (weight : option Z) : TrunkAttempt :=
  {| trunkId := tki_id trunk; trunk_name := tki_name trunk; trunk_kind := tki_kind trunk;
     trunk_sipDomain := tki_sipDomain trunk; trunk_sipProxy := tki_sipProxy trunk;
     trunk_outboundProxy := opt (tki_outboundProxy trunk); trunk_transport := tki_transport trunk;
     trunk_codecPrefs := opt (tki_codecPrefs trunk); trunk_maxChannels := opt (tki_maxChannels trunk);
     trunk_callerIdNumberOverride := callerId; trunk_order := order; trunk_weight := weight |}.

(** The cast [this.trunksById.get(trunkId) as Trunk] always succeeds: every id in
    the order is an id of the map. *)
Definition emergencyTrunkAttempts : list TrunkAttempt :=
  omap id (imap (λ i trunkId,
    (λ trunk, trunk_attempt trunk None (Z.of_nat i) None) <$> trunksById env !! trunkId)
    emergency_trunk_order).

Definition reportEmergencyReachability (attemptCount : nat) : M unit :=
  if 0 <? attemptCount then mret tt
  else if length (List.filter exi_enabled (extensions snap)) =? 0 then mret tt
  else bag_warning "no-emergency-route" None (Some "trunks").

Definition compileEmergency : M EmergencyMatchTable :=
  _ ← reportInvalidEmergencyNumbers;
  location ← emergencyLocation;
  let attempts := emergencyTrunkAttempts in
  _ ← reportEmergencyReachability (length attempts);
  _ ← once Emergency.EMERGENCY_NODE_ID
        (set_node Emergency.EMERGENCY_NODE_ID (Some "Emergency")
           (TrunkDialNode {| td_outboundRouteId := Emergency.EMERGENCY_ROUTE_ID;
                             td_tollClass := toll_internal; td_attempts := attempts;
                             td_continueOnCauses := Emergency.EMERGENCY_CONTINUE_ON_CAUSES;
                             td_recordEnabled := false; td_callerIdNumberOverride := None;
                             td_failoverNodeId := None; td_emergency := Some true;
                             td_emergencyAddressId := loc_emergencyAddressId location;
                             td_elin := elin location |}));
  mret (foldl (λ (m : EmergencyMatchTable) seed,
    <[Emergency.dialed seed :=
        {| em_dialed := Emergency.dialed seed; em_number := Emergency.number seed;
           em_destinationNodeId := Emergency.EMERGENCY_NODE_ID |}]> m) ∅
    (Emergency.emergencyNumbers (rsi_emergencyNumbers (settings_input snap)))).

(** ** Internal context *)
Definition compile_mailbox (acc : gmap string MailboxEntry) (box : VoicemailBoxInput)
    : M (gmap string MailboxEntry) :=
  if negb (vbi_enabled box) then mret acc
  else
    match acc !! vbi_mailboxNumber box with
    | Some _ =>
        _ ← bag_error "duplicate-internal-number"
              (Some (subj "voicemail-box" (vbi_id box) (Some (vbi_mailboxNumber box))))
              (Some "mailboxNumber");
        mret acc
    | None =>
        leave ← voicemailNode env box vm_leave;
        check ← voicemailNode env box vm_check;
        mret (<[vbi_mailboxNumber box :=
                  {| mb_voicemailBoxId := vbi_id box; mb_mailboxNumber := vbi_mailboxNumber box;
                     mb_leaveNodeId := leave; mb_checkNodeId := check |}]> acc)
    end.

(** [for (const x of l) { acc = step(acc, x) }] *)
Fixpoint fold_method {A B} (step : B → A → M B) (acc : B) (l : list A) : M B :=
  match l with
  | [] => mret acc
  | x :: rest => acc' ← step acc x; fold_method step acc' rest
  end.

Definition compileMailboxes : M (gmap string MailboxEntry) :=
  fold_method compile_mailbox ∅ (sortById vbi_id (voicemailBoxes snap)).

Definition featureCodeTarget (entry : FeatureCodeInput) : M (option PlanNodeId) :=
  match fci_action entry, opt (fci_params entry) ≫= (λ ps, ps !! "lotId") with
  | FeatureCodes.call_park, Some (FeatureCodes.ParamString lotId) =>
      if 0 <? String.length lotId then
        by_reference (parkLotsById env) pli_enabled lotId
          (subj "feature-code" (fci_id entry) (Some (fci_code entry))) "params.lotId"
          (parkNode snap env dest_node)
      else mret None
  | _, _ => mret None
  end.

Definition compile_feature_code (entry : FeatureCodeInput)
    : M (option FeatureCodes.CompiledFeatureCode) :=
  if negb (FeatureCodes.isWellFormedFeatureCode (fci_code entry)) then mret None
  else
    let id := "feature-code:" +:+ fci_id entry in
    target ← featureCodeTarget entry;
    _ ← once id
          (set_node id (Some (default (fci_code entry) (opt (fci_label entry))))
             (FeatureCodeNode {| fcn_featureCodeId := fci_id entry; fcn_code := fci_code entry;
                                 fcn_action := fci_action entry; fcn_params := opt (fci_params entry);
                                 fcn_targetNodeId := target |}));
    mret (Some {| FeatureCodes.fc_id := fci_id entry; FeatureCodes.fc_code := fci_code entry;
                  FeatureCodes.fc_action := fci_action entry;
                  FeatureCodes.fc_argumentMode :=
                    FeatureCodes.FEATURE_CODE_ARGUMENT_MODE (fci_action entry);
                  FeatureCodes.fc_params := opt (fci_params entry);
                  FeatureCodes.fc_label := opt (fci_label entry); FeatureCodes.fc_nodeId := id |}).

Definition issue_code (issue : FeatureCodes.FeatureCodeIssue) : string :=
  match issue with
  | FeatureCodes.MalformedCode v | FeatureCodes.DuplicateCode v | FeatureCodes.PrefixCollision v _ => v
  end.

Definition compare_feature_codes (l r : FeatureCodes.CompiledFeatureCode) : Z :=
  num_or (Z.of_nat (String.length (FeatureCodes.fc_code r)) -
          Z.of_nat (String.length (FeatureCodes.fc_code l)))
         (compare_strings (FeatureCodes.fc_code l) (FeatureCodes.fc_code r)).

Definition compileFeatureCodes : M (list FeatureCodes.CompiledFeatureCode) :=
  let enabled := List.filter fci_enabled (sortById fci_id (snap_featureCodes snap)) in
  _ ← for_each (λ issue,
        let entry := find_first (λ e, bool_decide (fci_code e = issue_code issue)) enabled in
        bag_error "conflicting-feature-code"
          ((λ e, subj "feature-code" (fci_id e) (Some (fci_code e))) <$> entry) (Some "code"))
        (FeatureCodes.featureCodeIssues localeCompare ((λ e, (fci_code e, fci_action e)) <$> enabled));
  compiled ← collect compile_feature_code enabled;
  mret (js_sort compare_feature_codes compiled).

Definition compileVoicemailPrefixes (featureCodes : list FeatureCodes.CompiledFeatureCode)
    : M (list VoicemailPrefixEntry) :=
  let prefix p mode := match nonblank (opt p) with
                       | Some v => [ {| vp_prefix := v; vp_mode := mode |} ]
                       | None => []
                       end in
  let configured := prefix (rsi_voicemailPrefix (settings_input snap)) vm_leave ++
                    prefix (rsi_voicemailCheckPrefix (settings_input snap)) vm_check in
  _ ← for_each (λ entry,
        match find_first (λ code, bool_decide (FeatureCodes.fc_code code = vp_prefix entry) ||
                                  startsWith (vp_prefix entry) (FeatureCodes.fc_code code))
                featureCodes with
        | Some clash =>
            bag_warning "conflicting-feature-code"
              (Some (subj "feature-code" (FeatureCodes.fc_id clash) (Some (FeatureCodes.fc_code clash))))
              (Some "settings.voicemailPrefix")
        | None => mret tt
        end) configured;
  mret (js_sort (λ l r, (Z.of_nat (String.length (vp_prefix r)) -
                         Z.of_nat (String.length (vp_prefix l)))%Z) configured).

Definition lookup_number (l : list (string * InternalNumberEntry)) (n : string)
    : option InternalNumberEntry :=
  snd <$> find_first (λ kv, bool_decide (kv.1 = n)) l.

Definition claimNumber (n : string) (kind : InternalNumberKind) (entityId : string)
    (nodeId : PlanNodeId) (name : string) : M unit :=
  existing ← gets (λ s, lookup_number (internalNumbers s) n);
  match existing with
  | Some _ =>
      bag_error "duplicate-internal-number" (Some (subj (number_kind_name kind) entityId (Some name)))
        (Some "extensionNumber")
  | None =>
      modify (λ s, {| bag := bag s; cnodes := cnodes s; claimed := claimed s;
                      internalNumbers := internalNumbers s ++
                        [(n, {| num_number := n; num_kind := kind; num_entityId := entityId;
                                num_nodeId := nodeId |})] |})
  end.

(** One entity that answers to an internal number. *)
Definition claim_entity (number : option string) (kind : InternalNumberKind) (entityId name : string)
    (build : M PlanNodeId) : M unit :=
  match number with
  | None => mret tt
  | Some n => nodeId ← build; claimNumber n kind entityId nodeId name
  end.

Definition claimInternalNumbers : M unit :=
  _ ← materialise exi_id exi_enabled (extensions snap)
        (λ e, claim_entity (Some (exi_number e)) num_extension (exi_id e) (exi_number e) (ext_node e));
  _ ← materialise rgi_id rgi_enabled (ringGroups snap)
        (λ g, claim_entity (nonblank (opt (rgi_extensionNumber g))) num_ring_group (rgi_id g)
                (rgi_name g) (ringGroupNode snap env dest_node g));
  _ ← materialise ivi_id ivi_enabled (ivrMenus snap)
        (λ m, claim_entity (nonblank (opt (ivi_extensionNumber m))) num_ivr_menu (ivi_id m)
                (ivi_name m) (ivrNode RegExp env dest_node m));
  _ ← materialise qui_id qui_enabled (queues snap)
        (λ q, claim_entity (nonblank (opt (qui_extensionNumber q))) num_queue (qui_id q)
                (qui_name q) (queueNode snap env dest_node q));
  materialise cfi_id cfi_enabled (conferences snap)
    (λ r, claim_entity (Some (cfi_roomNumber r)) num_conference (cfi_id r) (cfi_name r)
            (conferenceNode snap env r)).

Definition reportEmergencyShadowing (emergency : EmergencyMatchTable) : M unit :=
  for_each (λ dialed,
    existing ← gets (λ s, lookup_number (internalNumbers s) dialed);
    match existing with
    | None => mret tt
    | Some e =>
        bag_warning "emergency-number-shadowed"
          (Some (subj (number_kind_name (num_kind e)) (num_entityId e) (Some (num_number e))))
          (Some "extensionNumber")
    end) (sort_strings (map_to_list emergency).*1).

(** Whether an internal number is the text of a slot of the lot. *)
Definition covers_slot (lot : ParkLotInput) (n : string) : bool :=
  match TimeConditions.parseInt n with
  | None => false
  | Some v => bool_decide (pretty v = n) && (pli_slotStart lot <=? v)%Z && (v <=? pli_slotEnd lot)%Z
  end.

Definition compile_park_lot (ranges : list ParkSlotRange) (lot : ParkLotInput)
    : M (list ParkSlotRange) :=
  if negb (pli_enabled lot) then mret ranges
  else
    let sub := subj "park-lot" (pli_id lot) (Some (pli_name lot)) in
    if (pli_slotEnd lot <? pli_slotStart lot)%Z then
      _ ← bag_error "invalid-pattern" (Some sub) (Some "slotEnd"); mret ranges
    else
      match find_first (λ range, (pli_slotStart lot <=? slotEnd range)%Z &&
                                 (slotStart range <=? pli_slotEnd lot)%Z) ranges with
      | Some _ =>
          _ ← bag_error "duplicate-internal-number" (Some sub) (Some "slotStart"); mret ranges
      | None =>
          numbers ← gets internalNumbers;
          _ ← for_each (λ kv : string * InternalNumberEntry,
                if covers_slot lot kv.1
                then bag_warning "duplicate-internal-number" (Some sub) (Some "slotStart")
                else mret tt) numbers;
          nodeId ← parkNode snap env dest_node lot;
          mret (ranges ++ [ {| slot_parkLotId := pli_id lot; slotStart := pli_slotStart lot;
                               slotEnd := pli_slotEnd lot; slot_nodeId := nodeId |} ])
      end.

Definition compileParkSlots : M (list ParkSlotRange) :=
  ranges ← fold_method compile_park_lot [] (sortById pli_id (parkLots snap));
  mret (js_sort (λ l r, slotStart l - slotStart r)%Z ranges).

(** [Object.keys(emergency).length === 0 ? {} : { emergency }] *)
Definition nonempty_table (t : EmergencyMatchTable) : option EmergencyMatchTable :=
  if bool_decide (t = ∅) then None else Some t.

Definition compileInternal (emergency : EmergencyMatchTable) : M InternalMatchTable :=
  codes ← compileFeatureCodes;
  prefixes ← compileVoicemailPrefixes codes;
  _ ← claimInternalNumbers;
  _ ← reportEmergencyShadowing emergency;
  slots ← compileParkSlots;
  boxes ← compileMailboxes;
  claims ← gets internalNumbers;
  noMatch ← hangupNode NO_MATCH_CAUSE;
  mret {| internal_emergency := nonempty_table emergency; featureCodes := codes;
          voicemailPrefixes := prefixes; mailboxes := boxes;
          numbers := list_to_map claims; parkSlots := slots; internal_noMatchNodeId := noMatch |}.

(** ** Patterns and gates *)
Definition routePattern (kind : Patterns.RouteMatchKind) (raw : option string) (sub : Subject)
    (path : string) : M (option Patterns.CompiledPattern) :=
  let '(pattern, issues) := Patterns.compilePattern RegExp kind raw in
  usable ← pattern_issues issues sub path;
  mret (if (usable : bool) then Some pattern else None).

Definition routeTimeGate (timeConditionId : nullable string) (failover : option PlanNodeId)
    (sub : Subject) : M (option RouteTimeGate) :=
  match nonblank (opt timeConditionId) with
  | None => mret None
  | Some id =>
      match timeConditionInputsById env !! id with
      | None => _ ← bag_error "missing-time-condition" (Some sub) (Some "timeConditionId"); mret None
      | Some condition =>
          if negb (tci_enabled condition) then
            _ ← bag_warning "disabled-entity" (Some sub) (Some "timeConditionId"); mret None
          else
            closed ← named_node (tci_nomatch condition) "nomatch"
                       (subj "time-condition" (tci_id condition) (Some (tci_name condition)));
            mret (Some {| gate_timeConditionId := tci_id condition;
                          closedNodeId := nullish closed failover |})
      end
  end.

(** ** Inbound context *)

(** The DID a route is bound to: [None] is a dangling binding. *)
Definition bound_did (route : InboundRouteInput) : option (option PhoneNumberInput) :=
  match nonblank (opt (iri_phoneNumberId route)) with
  | None => Some None
  | Some id => Some <$> phoneNumbersById env !! id
  end.

Definition compile_inbound_route (route : InboundRouteInput) : M (option InboundRule) :=
  if negb (iri_enabled route) then mret None
  else
    let sub := subj "inbound-route" (iri_id route) (Some (iri_name route)) in
    match bound_did route with
    | None => _ ← bag_error "dangling-destination" (Some sub) (Some "phoneNumberId"); mret None
    | Some bound =>
        pattern ← routePattern (iri_matchKind route) (opt (iri_matchPattern route)) sub "matchPattern";
        match pattern with
        | None => mret None
        | Some pattern =>
            callerPattern ←
              match nonblank (opt (iri_callerIdPattern route)) with
              | None => mret None
              | Some raw =>
                  routePattern (match iri_matchKind route with
                                | Patterns.match_any => Patterns.match_prefix
                                | k => k
                                end) (Some raw) sub "callerIdPattern"
              end;
            failover ← named_node (iri_failover route) "failover" sub;
            destination ← dest_node (iri_destination route) sub "destination";
            match destination with
            | None => mret None
            | Some destination =>
                gate ← routeTimeGate (iri_timeConditionId route) failover sub;
                let did := opt (iri_phoneNumberId route) ≫= (λ id, phoneNumbersById env !! id) in
                mret (Some {| in_id := iri_id route; in_name := iri_name route;
                              in_priority := iri_priority route;
                              in_phoneNumberId := opt (iri_phoneNumberId route);
                              in_e164 := pni_e164 <$> bound; in_pattern := pattern;
                              in_callerPattern := callerPattern; in_timeGate := gate;
                              in_recordEnabled := iri_recordEnabled route;
                              in_destinationNodeId := destination; in_failoverNodeId := failover;
                              in_callerIdNamePrefix :=
                                did ≫= (λ d, opt (pni_callerIdNamePrefix d)) |})
            end
        end
    end.

Definition compare_inbound (l r : InboundRule) : Z :=
  num_or (in_priority l - in_priority r)
    (num_or (inboundSpecificity r - inboundSpecificity l) (compare_strings (in_id l) (in_id r))).

(** Whether [earlier] takes every call [rule] would. *)
Definition shadows (earlier rule : InboundRule) : bool :=
  match in_callerPattern earlier with None => true | Some _ => false end &&
  match in_timeGate earlier with None => true | Some _ => false end &&
  match in_e164 earlier with
  | None => Patterns.patternSubsumes (in_pattern earlier) (in_pattern rule)
  | Some _ => bool_decide (in_e164 earlier = in_e164 rule) &&
              Patterns.patternSubsumes (in_pattern earlier) (in_pattern rule)
  end.

Definition identical (earlier rule : InboundRule) : bool :=
  bool_decide (in_e164 earlier = in_e164 rule) &&
  Patterns.patternSubsumes (in_pattern rule) (in_pattern earlier) &&
  Patterns.patternSubsumes (in_pattern earlier) (in_pattern rule).

Fixpoint inbound_shadowing (before rules : list InboundRule) : M unit :=
  match rules with
  | [] => mret tt
  | rule :: rest =>
      _ ← match find_first (λ earlier, shadows earlier rule) before with
          | None => mret tt
          | Some earlier =>
              bag_warning (if identical earlier rule then "overlapping-did-pattern"
                           else "unreachable-route")
                (Some (subj "inbound-route" (in_id rule) (Some (in_name rule)))) None
          end;
      inbound_shadowing (before ++ [rule]) rest
  end.

Definition reportInboundShadowing (rules : list InboundRule) : M unit := inbound_shadowing [] rules.

Definition compile_did_default (acc : gmap string InboundDidDefault) (did : PhoneNumberInput)
    : M (gmap string InboundDidDefault) :=
  if negb (pni_enabled did) || negb (pni_voiceEnabled did) then mret acc
  else
    destination ← dest_node (pni_destination did)
                    (subj "phone-number" (pni_id did) (Some (pni_e164 did))) "destination";
    mret (match destination with
          | None => acc
          | Some id =>
              <[pni_e164 did :=
                  {| did_phoneNumberId := pni_id did; did_e164 := pni_e164 did;
                     did_enabled := pni_enabled did; did_recordEnabled := pni_recordEnabled did;
                     did_callerIdNamePrefix := opt (pni_callerIdNamePrefix did);
                     did_destinationNodeId := id |}]> acc
          end).

Definition compileInbound : M InboundMatchTable :=
  rules ← collect compile_inbound_route (sortById iri_id (inboundRoutes snap));
  let ordered := js_sort compare_inbound rules in
  _ ← reportInboundShadowing ordered;
  defaults ← fold_method compile_did_default ∅ (sortById pni_id (phoneNumbers snap));
  noMatch ← hangupNode NO_MATCH_CAUSE;
  mret {| inbound_rules := ordered; didDefaults := defaults; inbound_noMatchNodeId := noMatch |}.

(** ** Outbound context *)
Definition compare_trunk_entries (l r : TrunkPriorityInput) : Z :=
  num_or (tpi_order l - tpi_order r)
    (num_or (default 0%Z (tpi_weight r) - default 0%Z (tpi_weight l))
       (compare_strings (tpi_trunkId l) (tpi_trunkId r))).

Definition compileTrunkPlan (route : OutboundRouteInput) (sub : Subject) : M (list TrunkAttempt) :=
  attempts ← collect (λ entry,
    match trunksById env !! tpi_trunkId entry with
    | None => _ ← bag_warning "unknown-trunk" (Some sub) (Some "trunkPriority"); mret None
    | Some trunk =>
        if negb (tki_enabled trunk) then
          _ ← bag_warning "disabled-trunk" (Some sub) (Some "trunkPriority"); mret None
        else
          mret (Some (trunk_attempt trunk (opt (tki_callerIdNumberOverride trunk)) (tpi_order entry)
                        (tpi_weight entry)))
    end) (js_sort compare_trunk_entries (ori_trunkPriority route));
  _ ← (if length attempts =? 0
       then bag_warning "empty-trunk-list" (Some sub) (Some "trunkPriority") else mret tt);
  mret attempts.

(** The loop over [dialPatterns]: the patterns, and whether all were usable. *)
Fixpoint dial_patterns (kind : Patterns.RouteMatchKind) (sub : Subject) (index : nat)
    (raws : list string) : M (bool * list Patterns.CompiledPattern) :=
  match raws with
  | [] => mret (true, [])
  | raw :: rest =>
      pattern ← routePattern kind (Some raw) sub ("dialPatterns[" +:+ pretty index +:+ "]");
      '(usable, patterns) ← dial_patterns kind sub (S index) rest;
      mret (match pattern with
            | None => (false, patterns)
            | Some p => (usable, p :: patterns)
            end)
  end.

(** The patterns of a route, [None] when one of them is not usable. *)
Definition outbound_patterns (route : OutboundRouteInput) (sub : Subject)
    : M (option (list Patterns.CompiledPattern)) :=
  let any := match ori_matchKind route with Patterns.match_any => true | _ => false end in
  let none := (length (ori_dialPatterns route) =? 0) && negb any in
  _ ← (if none then bag_error "invalid-pattern" (Some sub) (Some "dialPatterns") else mret tt);
  '(usable, patterns) ← dial_patterns (ori_matchKind route) sub 0 (ori_dialPatterns route);
  let patterns := if any && (length patterns =? 0) then [Patterns.PAny] else patterns in
  mret (if negb none && usable then Some patterns else None).

Definition outbound_node_id (route : OutboundRouteInput) : PlanNodeId := "trunk-dial:" +:+ ori_id route.

Definition outbound_rule (route : OutboundRouteInput) (patterns : list Patterns.CompiledPattern)
    (causes : list HangupCause) (sub : Subject) : M OutboundRule :=
  failover ← named_node (ori_failover route) "failover" sub;
  attempts ← compileTrunkPlan route sub;
  let nodeId := outbound_node_id route in
  _ ← once nodeId
        (set_node nodeId (Some (ori_name route))
           (TrunkDialNode {| td_outboundRouteId := ori_id route; td_tollClass := ori_tollClass route;
                             td_attempts := attempts; td_continueOnCauses := causes;
                             td_recordEnabled := ori_recordEnabled route;
                             td_callerIdNumberOverride := opt (ori_callerIdNumberOverride route);
                             td_failoverNodeId := failover; td_emergency := None;
                             td_emergencyAddressId := None; td_elin := None |}));
  gate ← routeTimeGate (ori_timeConditionId route) failover sub;
  mret {| out_id := ori_id route; out_name := ori_name route; out_priority := ori_priority route;
          out_patterns := patterns; out_tollClass := ori_tollClass route;
          out_stripDigits := ori_stripDigits route;
          out_prependDigits := opt (ori_prependDigits route); out_timeGate := gate;
          out_recordEnabled := ori_recordEnabled route;
          out_callerIdNumberOverride := opt (ori_callerIdNumberOverride route);
          out_destinationNodeId := nodeId |}.

Definition compile_outbound_route (causes : list HangupCause) (route : OutboundRouteInput)
    : M (option OutboundRule) :=
  if negb (ori_enabled route) then mret None
  else
    let sub := subj "outbound-route" (ori_id route) (Some (ori_name route)) in
    patterns ← outbound_patterns route sub;
    match patterns with
    | None => mret None
    | Some patterns =>
        let issues :=
          Patterns.validateDigitManipulation
            {| Patterns.stripDigits := ori_stripDigits route;
               Patterns.prependDigits := opt (ori_prependDigits route) |} in
        _ ← for_each (λ issue,
              bag_error "invalid-digit-manipulation" (Some sub)
                (Some (match issue with
                       | Patterns.InvalidPrepend _ => "prependDigits"
                       | _ => "stripDigits"
                       end))) issues;
        if negb (length issues =? 0) then mret None
        else rule ← outbound_rule route patterns causes sub; mret (Some rule)
    end.

Definition compare_outbound (l r : OutboundRule) : Z :=
  num_or (out_priority l - out_priority r)
    (num_or (outboundSpecificity r - outboundSpecificity l) (compare_strings (out_id l) (out_id r))).

Definition compileOutbound (settings : CompiledRoutingSettings) (emergency : EmergencyMatchTable)
    : M OutboundMatchTable :=
  causes ← trunkContinueOnCauses snap;
  rules ← collect (compile_outbound_route causes) (sortById ori_id (outboundRoutes snap));
  noMatch ← hangupNode NO_MATCH_CAUSE;
  denied ← hangupNode TOLL_DENIED_CAUSE;
  mret {| outbound_rules := js_sort compare_outbound rules;
          outbound_emergency := nonempty_table emergency;
          outbound_enabled := outboundEnabled settings; outbound_noMatchNodeId := noMatch;
          deniedNodeId := denied |}.

(** ** Call blocking and the extension index *)
Definition block_kind (k : CallBlockMatchKind) : Patterns.RouteMatchKind :=
  match k with
  | block_exact => Patterns.match_exact
  | block_prefix => Patterns.match_prefix
  | block_regex => Patterns.match_regex
  end.

Definition compile_block_rule (rule : CallBlockRuleInput) : M (option CompiledCallBlockRule) :=
  if negb (cbi_enabled rule) then mret None
  else
    pattern ← routePattern (block_kind (cbi_matchKind rule)) (Some (cbi_pattern rule))
                (subj "call-block-rule" (cbi_id rule) (Some (cbi_pattern rule))) "pattern";
    mret ((λ p, {| cb_id := cbi_id rule; cb_pattern := p; cb_direction := cbi_direction rule;
                   cb_action := cbi_action rule; cb_label := opt (cbi_label rule);
                   cb_nodeId := None |}) <$> pattern).

Definition compare_block (l r : CompiledCallBlockRule) : Z :=
  num_or (Patterns.patternSpecificity (cb_pattern r) - Patterns.patternSpecificity (cb_pattern l))
    (num_or (allowFirst (cb_action l) - allowFirst (cb_action r))
       (compare_strings (cb_id l) (cb_id r))).

Definition compileCallBlock : M (list CompiledCallBlockRule) :=
  compiled ← collect compile_block_rule (sortById cbi_id (callBlockRules snap));
  mret (js_sort compare_block compiled).

Definition index_extension (acc : gmap string ExtensionIndexEntry) (e : ExtensionInput)
    : M (gmap string ExtensionIndexEntry) :=
  if negb (exi_enabled e) then mret acc
  else
    nodeId ← ext_node e;
    mret (<[exi_number e :=
              {| ix_extensionId := exi_id e; ix_number := exi_number e;
                 ix_tollClass := exi_tollClass e; ix_enabled := exi_enabled e;
                 ix_outboundCallerIdNumber := opt (exi_outboundCallerIdNumber e);
                 ix_outboundCallerIdName := opt (exi_outboundCallerIdName e);
                 ix_emergencyCallerIdNumber := opt (exi_emergencyCallerIdNumber e);
                 ix_pickupGroup := pickupGroupOf e; ix_nodeId := nodeId |}]> acc).

Definition compileExtensionIndex : M (gmap string ExtensionIndexEntry) :=
  fold_method index_extension ∅ (sortById exi_id (extensions snap)).

(** ** Follow-me *)
Section FollowMe.
Context (table : OutboundMatchTable) (blocks : list CompiledCallBlockRule).

Definition lift_routing {A} (r : result routing_error A) : M A :=
  lift (match r with Ok a => Ok a | Throw e => Throw (Thrown e) end).

(** [patterns.some((pattern) => matchPattern(pattern, dialString) !== null)] *)
Fixpoint some_pattern (patterns : list Patterns.CompiledPattern) (dialString : string)
    : result routing_error bool :=
  match patterns with
  | [] => Ok false
  | p :: rest =>
      match matchPattern RegExp p dialString with
      | Throw e => Throw e
      | Ok (Some _) => Ok true
      | Ok None => some_pattern rest dialString
      end
  end.

(** The loop over the outbound rules: a node and the number to dial, or whether a
    route was refused for its toll class. *)
Fixpoint follow_me_rules (rules : list OutboundRule) (tollClass : TollClass) (dialString : string)
    (denied : bool) : result routing_error (PlanNodeId * string + bool) :=
  match rules with
  | [] => Ok (inr denied)
  | rule :: rest =>
      match some_pattern (out_patterns rule) dialString with
      | Throw e => Throw e
      | Ok false => follow_me_rules rest tollClass dialString denied
      | Ok true =>
          if negb (tollClassCovers tollClass (out_tollClass rule))
          then follow_me_rules rest tollClass dialString true
          else
            match Patterns.applyDigitManipulation (manipulation rule) dialString with
            | None => follow_me_rules rest tollClass dialString denied
            | Some dialedNumber => Ok (inl (out_destinationNodeId rule, dialedNumber))
            end
      end
  end.

Definition followMeTrunkTarget (e : ExtensionInput) (dialString : string) (sub : Subject)
    (path : string) : M (option (PlanNodeId * string)) :=
  let unresolvable := _ ← bag_warning "unresolvable-follow-me" (Some sub) (Some path); mret None in
  if negb (outbound_enabled table) then unresolvable
  else
    blocked ← lift_routing (checkCallBlock RegExp blocks (Some dialString) block_outbound);
    if match blocked with
       | Some rule => negb (bool_decide (cb_action rule = act_allow))
       | None => false
       end
    then unresolvable
    else
      found ← lift_routing (follow_me_rules (outbound_rules table) (exi_tollClass e) dialString false);
      match found with
      | inl target => mret (Some target)
      | inr _ => unresolvable
      end.

Definition followMeDestination (e : ExtensionInput) (index : nat) (target : FollowMeTargetInput)
    (sub : Subject) : M (option FollowMeDestination) :=
  let path := "followMe.targets[" +:+ pretty index +:+ "]" in
  let dialString := trim (default "" (fmt_destination target)) in
  if String.length dialString =? 0 then
    _ ← bag_warning "unresolvable-follow-me" (Some sub) (Some path); mret None
  else
    let hop nodeId dialed :=
      {| hop_ordinal := Z.of_nat index; hop_destination := dialString;
         hop_delaySeconds := wholeSeconds (fmt_delaySeconds target);
         hop_timeoutSeconds := wholeSeconds (fmt_timeoutSeconds target);
         hop_confirmRequired := bool_decide (fmt_confirm target = Some true);
         hop_targetNodeId := nodeId; hop_dialedNumber := dialed |} in
    match env_extensionsByNumber env !! dialString with
    | Some internal => id ← ext_node internal; mret (Some (hop (Some id) None))
    | None =>
        external ← followMeTrunkTarget e dialString sub path;
        mret (Some (match external with
                    | None => hop None None
                    | Some (nodeId, dialed) => hop (Some nodeId) (Some dialed)
                    end))
    end.

Fixpoint follow_me_hops (e : ExtensionInput) (sub : Subject) (index : nat)
    (targets : list FollowMeTargetInput) : M (list FollowMeDestination) :=
  match targets with
  | [] => mret []
  | target :: rest =>
      hop ← followMeDestination e index target sub;
      hops ← follow_me_hops e sub (S index) rest;
      mret (match hop with Some h => h :: hops | None => hops end)
  end.

Definition follow_me_plan (config : FollowMeInput) (destinations : list FollowMeDestination)
    : FollowMePlan :=
  {| fm_strategy := if forallb (λ h, (hop_delaySeconds h =? 0)%Z) destinations
                    then simultaneous else sequential;
     fm_ignoreBusy := bool_decide (fmi_ignoreBusy config = Some true);
     fm_destinations := destinations |}.

Definition with_follow_me (n : ExtensionPlanNode) (plan : FollowMePlan) : ExtensionPlanNode :=
  {| ext_extensionId := ext_extensionId n; ext_number := ext_number n;
     ext_callerIdName := ext_callerIdName n; ext_callerIdNumber := ext_callerIdNumber n;
     ext_tollClass := ext_tollClass n; ext_recordPolicy := ext_recordPolicy n;
     ext_timeoutSeconds := ext_timeoutSeconds n; ext_doNotDisturb := ext_doNotDisturb n;
     ext_pickupGroup := ext_pickupGroup n; ext_mohClassId := ext_mohClassId n;
     ext_mohClass := ext_mohClass n; ext_forwardAllNodeId := ext_forwardAllNodeId n;
     ext_busyNodeId := ext_busyNodeId n; ext_noAnswerNodeId := ext_noAnswerNodeId n;
     ext_notRegisteredNodeId := ext_notRegisteredNodeId n; ext_followMe := Some plan |}.

Definition follow_me_extension (e : ExtensionInput) : M unit :=
  if negb (exi_enabled e) then mret tt
  else
    match opt (exi_followMe e) with
    | None => mret tt
    | Some config =>
        if negb (fmi_enabled config) then mret tt
        else
          node ← gets (λ s, cnodes s !! extension_node_id e);
          match node with
          | None => mret tt
          | Some node =>
              match node_body node with
              | ExtensionNode n =>
                  let sub := subj "extension" (exi_id e) (Some (exi_number e)) in
                  destinations ← follow_me_hops e sub 0 (default [] (fmi_targets config));
                  if negb (existsb (λ h, bool_decide (is_Some (hop_targetNodeId h))) destinations) then
                    bag_warning "empty-follow-me" (Some sub) (Some "followMe.targets")
                  else
                    set_node (node_id node) (node_label node)
                      (ExtensionNode (with_follow_me n (follow_me_plan config destinations)))
              | _ => mret tt
              end
          end
    end.

Definition compileFollowMe : M unit :=
  for_each follow_me_extension (sortById exi_id (extensions snap)).
End FollowMe.

(** ** Whole-graph checks *)
Inductive visit_mark : Set := visiting | done_visiting.

Record VisitState := {
  marks : gmap PlanNodeId visit_mark;
  reported : list string;
  cycles : list Diagnostic }.

Definition is_ivr (nodes : PlanNodeTable) (id : PlanNodeId) : bool :=
  match nodes !! id with
  | Some node => match node_body node with IvrMenuNode _ => true | _ => false end
  | None => false
  end.

(** [stack.slice(stack.indexOf(id))], the whole stack when it is not on it. *)
Fixpoint slice_from (stack : list PlanNodeId) (id : PlanNodeId) : option (list PlanNodeId) :=
  match stack with
  | [] => None
  | x :: rest => if bool_decide (x = id) then Some stack else slice_from rest id
  end.

Definition mark (id : PlanNodeId) (m : visit_mark) : method VisitState fault unit :=
  modify (λ s, {| marks := <[id := m]> (marks s); reported := reported s; cycles := cycles s |}).

Definition report_cycle (nodes : PlanNodeTable) (id : PlanNodeId) (stack : list PlanNodeId)
    : method VisitState fault unit :=
  modify (λ s,
    let cycle := default stack (slice_from stack id) in
    let key := join_strings ">" (sort_strings cycle) in
    if includes (reported s) key then s
    else
      {| marks := marks s; reported := reported s ++ [key];
         cycles := cycles s ++
           [ {| severity := sev_warning; diag_code := "ivr-cycle";
                subject := Some (subj "ivr-menu" id
                  (Some (default id (nodes !! id ≫= node_label)))); diag_path := None |} ] |}).

Fixpoint visit (fuel : nat) (nodes : PlanNodeTable) (id : PlanNodeId) (stack : list PlanNodeId)
    : method VisitState fault unit :=
  match fuel with
  | O => throw OutOfFuel
  | S fuel =>
      current ← gets (λ s, marks s !! id);
      match current with
      | Some done_visiting => mret tt
      | Some visiting => report_cycle nodes id stack
      | None =>
          _ ← mark id visiting;
          _ ← for_each (λ reference,
                if is_ivr nodes reference then visit fuel nodes reference (stack ++ [id]) else mret tt)
                (match nodes !! id with Some n => planNodeReferences n | None => [] end);
          mark id done_visiting
      end
  end.

Definition menu_ids (nodes : PlanNodeTable) : list PlanNodeId :=
  sort_strings (List.filter (is_ivr nodes) (map_to_list nodes).*1).

Definition ivr_cycles (nodes : PlanNodeTable) : VisitState * result fault unit :=
  for_each (λ id, visit (2 + length (menu_ids nodes)) nodes id []) (menu_ids nodes)
    {| marks := ∅; reported := []; cycles := [] |}.

Definition add_diagnostics (ds : list Diagnostic) : M unit :=
  modify (λ s, {| bag := bag s ++ ds; cnodes := cnodes s; claimed := claimed s;
                  internalNumbers := internalNumbers s |}).

Definition detectIvrCycles : M unit :=
  nodes ← gets cnodes;
  let '(visited, r) := ivr_cycles nodes in
  _ ← add_diagnostics (cycles visited);
  lift r.

Definition node_kind (n : PlanNode) : string :=
  match node_body n with
  | ExtensionNode _ => "extension"
  | RingGroupNode _ => "ring-group"
  | IvrMenuNode _ => "ivr-menu"
  | QueueNode _ => "queue"
  | VoicemailNode _ => "voicemail"
  | ConferenceNode _ => "conference"
  | ParkNode _ => "park"
  | ExternalNode _ => "external"
  | TrunkDialNode _ => "trunk-dial"
  | ApplicationNode _ => "application"
  | PlaybackNode _ => "playback"
  | FeatureCodeNode _ => "feature-code"
  | TimeConditionNode _ => "time-condition"
  | HangupNode _ => "hangup"
  end.

Definition assertNodeClosure : M unit :=
  nodes ← gets cnodes;
  for_each (λ id,
    match nodes !! id with
    | None => mret tt
    | Some node =>
        for_each (λ reference,
          match nodes !! reference with
          | Some _ => mret tt
          | None => bag_error "dangling-destination" (Some (subj (node_kind node) id None)) None
          end) (planNodeReferences node)
    end) (sort_strings (map_to_list nodes).*1).
End Tables.

(** ** The run *)
Record CompiledTables := {
  ct_settings : CompiledRoutingSettings;
  ct_timeConditions : gmap string TimeConditions.CompiledTimeCondition;
  ct_inbound : InboundMatchTable;
  ct_internal : InternalMatchTable;
  ct_outbound : OutboundMatchTable;
  ct_callBlock : list CompiledCallBlockRule;
  ct_extensions : gmap string ExtensionIndexEntry }.

Inductive CompileResult :=
| Compiled (artifact : RoutingArtifact) (diagnostics : list Diagnostic)
| Refused (diagnostics : list Diagnostic).

(** [RoutingSnapshotError(path, _)], [RoutingCompileError(organizationId,
    diagnostics)], or a fault of the run. *)
Inductive compile_error :=
| SnapshotError (path : string)
| CompileError (organizationId : string) (diagnostics : list Diagnostic)
| CompilerFault (f : fault).

Section Run.
Context (RegExp : string → result string Patterns.exec_fun).
Context (localeCompare : string → string → Z).
Context (isKnownTimezone : string → bool).
Context (number_text : Qc → string).
Context (dateParse : string → option Z) (toISOString : Z → string).

(** [run] up to the decision whether an artifact is made. *)
Definition compile_tables (snap : OrgRoutingSnapshot) : M CompiledTables :=
  let env := index snap in
  _ ← add_diagnostics (snd (indexVoicemailGreetings snap (boxes_by_id snap)));
  _ ← ensureWellKnownTerminals;
  settings ← compileSettings isKnownTimezone snap;
  conditions ← compileTimeConditions isKnownTimezone snap env;
  _ ← materialiseEntities RegExp snap env;
  emergency ← compileEmergency snap env;
  internal ← compileInternal RegExp localeCompare snap env emergency;
  inbound ← compileInbound RegExp snap env;
  outbound ← compileOutbound RegExp snap env settings emergency;
  callBlock ← compileCallBlock RegExp snap;
  extensionIndex ← compileExtensionIndex snap env;
  _ ← compileFollowMe RegExp snap env outbound callBlock;
  _ ← detectIvrCycles;
  _ ← assertNodeClosure;
  mret {| ct_settings := settings; ct_timeConditions := conditions; ct_inbound := inbound;
          ct_internal := internal; ct_outbound := outbound; ct_callBlock := callBlock;
          ct_extensions := extensionIndex |}.

Definition artifact_of (snap : OrgRoutingSnapshot) (hash compiledAt : string) (t : CompiledTables)
    (s : CState) : RoutingArtifact :=
  {| artifactVersion := ROUTING_ARTIFACT_VERSION; art_organizationId := organizationId snap;
     Resolve.snapshotHash := hash; Resolve.compiledAt := compiledAt;
     settings := ct_settings t; nodes := cnodes s; timeConditions := ct_timeConditions t;
     inbound := ct_inbound t; internal := ct_internal t; outbound := ct_outbound t;
     callBlock := ct_callBlock t; extensionsByNumber := ct_extensions t;
     art_diagnostics := bag s |}.

Definition run (snap : OrgRoutingSnapshot) (compiledAt : string) : result compile_error CompileResult :=
  match compile_tables snap cstate_init with
  | (_, Throw f) => Throw (CompilerFault f)
  | (s, Ok t) =>
      if hasErrors (bag s) then Ok (Refused (bag s))
      else
        match Cache.snapshotHash number_text snap with
        | Throw path => Throw (SnapshotError path)
        | Ok hash => Ok (Compiled (artifact_of snap hash compiledAt t s) (bag s))
        end
  end.

Definition normaliseCompiledAt (compiledAt : string) : result compile_error string :=
  match dateParse compiledAt with
  | None => Throw (SnapshotError "compiledAt")
  | Some t => Ok (toISOString t)
  end.

(** [assertSnapshotShape]: that every collection is an array is in the types. *)
Definition assertSnapshotShape (snap : OrgRoutingSnapshot) : result compile_error unit :=
  if String.length (organizationId snap) =? 0 then Throw (SnapshotError "organizationId") else Ok tt.

Definition tryCompileRoutingArtifact (snap : OrgRoutingSnapshot) (compiledAt : string)
    : result compile_error CompileResult :=
  match assertSnapshotShape snap, normaliseCompiledAt compiledAt with
  | Throw e, _ | Ok _, Throw e => Throw e
  | Ok _, Ok at_ => run snap at_
  end.

Definition compileRoutingArtifact (snap : OrgRoutingSnapshot) (compiledAt : string)
    : result compile_error RoutingArtifact :=
  match tryCompileRoutingArtifact snap compiledAt with
  | Throw e => Throw e
  | Ok (Refused ds) => Throw (CompileError (organizationId snap) ds)
  | Ok (Compiled artifact _) => Ok artifact
  end.
End Run.
End Tables.
