(* ===== verification/CompileLogic.v ===== *)
(** * A logic for the methods of the routing compiler

    Every method of the compiler only adds claims; an id left without a node after
    it was without a node before; and every node refers to claimed ids only. The
    judgement [builds] states this together with the fact that the method returns.
    Its rules follow the way the code is composed: sequencing, the loops, the guard
    [once], and the room that is left for the recursion. *)

From stdpp Require Import pretty propset.
From S2P Require Import Prelude Effects HangupCauses Patterns TimeConditions FeatureCodes Plan.
From S2P Require Import Snapshot PinHash Resolve Compile CompileTables.

Module Logic.
Import Plan Snapshot Resolve Compile Tables.
#[local] Open Scope nat_scope.

Abbreviation ids := (propset PlanNodeId).

Lemma elem_of_compact {A} (l : list (option A)) x : x ∈ Plan.compact l ↔ Some x ∈ l.
Proof. unfold Plan.compact. rewrite list_elem_of_omap. naive_solver. Qed.

#[export] Instance set_unfold_compact {A} (l : list (option A)) x P :
  SetUnfoldElemOf (Some x) l P → SetUnfoldElemOf x (Plan.compact l) P.
Proof. constructor. rewrite elem_of_compact. by apply set_unfold_elem_of. Qed.

#[export] Instance set_unfold_js_sort {A} (c : A → A → Z) (l : list A) x P :
  SetUnfoldElemOf x l P → SetUnfoldElemOf x (js_sort c l) P.
Proof. constructor. rewrite elem_of_js_sort. by apply set_unfold_elem_of. Qed.

(** The rows behind an index are rows of the collection. *)
Lemma index_by_elem {A} (key : A → string) rows k x :
  index_by key rows !! k = Some x → x ∈ rows ∧ key x = k.
Proof.
  unfold index_by. induction rows as [|r rows IH] using rev_ind; simpl; [done|].
  rewrite foldl_app. simpl. intros H.
  destruct (decide (key r = k)) as [<-|Hne].
  - rewrite lookup_insert_eq in H. injection H as <-. split; [|done]. set_solver.
  - rewrite lookup_insert_ne in H by done. destruct (IH H). set_solver.
Qed.

Lemma index_by_some {A} (key : A → string) rows x :
  x ∈ rows → is_Some (index_by key rows !! key x).
Proof.
  unfold index_by. induction rows as [|r rows IH] using rev_ind; intros Hx; [by apply elem_of_nil in Hx|].
  rewrite foldl_app. simpl. destruct (decide (key r = key x)) as [->|Hne]; [rewrite lookup_insert_eq; eauto|].
  rewrite lookup_insert_ne by done. apply IH. set_solver.
Qed.

Lemma size_list_to_set_le (l : list string) : size (list_to_set l : gset string) ≤ length l.
Proof.
  induction l as [|x l IH]; [done|]. cbn [list_to_set length].
  assert (size ({[x]} ∪ list_to_set l : gset string) ≤ size ({[x]} : gset string) +
          size (list_to_set l : gset string)) as H.
  { rewrite size_union_alt. apply Nat.add_le_mono_l, subseteq_size. set_solver. }
  rewrite size_singleton in H. lia.
Qed.

Lemma elem_of_sortById {A} (id : A → string) rows x : x ∈ sortById id rows ↔ x ∈ rows.
Proof. apply elem_of_js_sort. Qed.

(** ** Sound states *)
Section Closure.
Context (snap : OrgRoutingSnapshot).
(** What is known of an extension node with a follow-me ladder. *)
Context (follow_ok : ExtensionPlanNode → Prop).

Definition row_of (e : ExtensionInput) (id : PlanNodeId) (n : ExtensionPlanNode) : Prop :=
  e ∈ extensions snap ∧ id = extension_node_id e ∧ ext_extensionId n = exi_id e ∧
  ext_number n = exi_number e ∧ ext_tollClass n = exi_tollClass e.

(** The node every emergency number leads to: it tries every trunk there is, in
    the order of the routes, goes on to the next on the causes of
    [EMERGENCY_CONTINUE_ON_CAUSES], records nothing and has nowhere else to go. *)
Definition emergency_node (n : PlanNode) : Prop :=
  ∃ d, node_body n = TrunkDialNode d ∧ td_attempts d = emergencyTrunkAttempts snap (index snap) ∧
    td_continueOnCauses d = Emergency.EMERGENCY_CONTINUE_ON_CAUSES ∧
    td_emergency d = Some true ∧ td_recordEnabled d = false ∧ td_failoverNodeId d = None.

(** A node carries the id it is stored under; no other node takes the place of the
    emergency node; an extension's node comes from a row; a menu never points at
    itself. *)
Definition fresh_node (id : PlanNodeId) (n : PlanNode) : Prop :=
  node_id n = id ∧ (id = Emergency.EMERGENCY_NODE_ID → emergency_node n) ∧
  match node_body n with
  | ExtensionNode x => (∃ e, row_of e id x) ∧ follow_ok x
  | IvrMenuNode _ => id ∉ planNodeReferences n
  | _ => True
  end.

Record sound (st : CState) : Prop := {
  sound_nodes : ∀ id n, cnodes st !! id = Some n →
    fresh_node id n ∧ ∀ r, r ∈ planNodeReferences n → r ∈ claimed st;
  sound_numbers : ∀ p, p ∈ internalNumbers st → num_nodeId p.2 ∈ claimed st;
  sound_distinct : NoDup (internalNumbers st).*1 }.

Record grows (st st' : CState) : Prop := {
  grows_claimed : claimed st ⊆ claimed st';
  grows_nodes : ∀ id, is_Some (cnodes st !! id) → is_Some (cnodes st' !! id);
  grows_dangling : ∀ id, id ∈ claimed st' → cnodes st' !! id = None →
    id ∈ claimed st ∧ cnodes st !! id = None;
  grows_bag : bag st `prefix_of` bag st';
  grows_numbers : internalNumbers st `prefix_of` internalNumbers st' }.

Lemma grows_refl st : grows st st.
Proof. by constructor. Qed.

Lemma grows_trans st1 st2 st3 : grows st1 st2 → grows st2 st3 → grows st1 st3.
Proof.
  intros [H1 H2 H3 H4 H5] [K1 K2 K3 K4 K5]. constructor; [set_solver|auto| |by etrans..].
  intros id Hc Hn. destruct (K3 id Hc Hn). auto.
Qed.

(** ** A logic for the methods of the compiler

    [room] is a set of ids with a bound on how many of them are still unclaimed:
    what the recursion consumes. [builds r pre m post]: from a sound state with
    that room, in which the ids [pre] are claimed, [m] returns (it neither throws
    nor runs out of fuel) a value [a] in a sound state that has grown and in which
    the ids [post a] are claimed. *)
Definition room : Type := gset PlanNodeId * nat.

Definition fits (r : room) (st : CState) : Prop := size (r.1 ∖ claimed st) ≤ r.2.

Definition runs {A} (r : room) (pre : ids) (m : M A) (Q : A → CState → Prop) : Prop :=
  ∀ st, sound st → fits r st → (∀ i, i ∈ pre → i ∈ claimed st) →
    ∃ st' a, m st = (st', Ok a) ∧ sound st' ∧ grows st st' ∧ Q a st'.

Definition builds {A} (r : room) (pre : ids) (m : M A) (post : A → ids) : Prop :=
  runs r pre m (λ a st', ∀ i, i ∈ post a → i ∈ claimed st').

(** [m] puts a node under [id]. *)
Definition finishes {A} (r : room) (pre : ids) (id : PlanNodeId) (m : M A) : Prop :=
  runs r pre m (λ _ st', is_Some (cnodes st' !! id)).

(** [a] is an answer of [m]. *)
Definition possible {A} (m : M A) (a : A) : Prop := ∃ st st', m st = (st', Ok a).

Lemma fits_grows r st st' : grows st st' → fits r st → fits r st'.
Proof.
  unfold fits. intros [Hc _ _ _ _] Hf. etrans; [|exact Hf]. apply subseteq_size. set_solver.
Qed.

Lemma runs_bind {A B} r pre (m : M A) (f : A → ids) (k : A → M B) Q :
  builds r pre m f → (∀ a, possible m a → runs r (pre ∪ f a) (k a) Q) → runs r pre (m ≫= k) Q.
Proof.
  intros Hm Hk st Hs Hf Hpre. destruct (Hm st Hs Hf Hpre) as (st1 & a & Ha & Hs1 & Hg1 & Hp1).
  destruct (Hk a (ex_intro _ st (ex_intro _ st1 Ha)) st1 Hs1) as (st2 & b & Hb & Hs2 & Hg2 & HQ).
  { by eapply fits_grows. }
  { pose proof (grows_claimed _ _ Hg1). set_solver. }
  exists st2, b. split_and!; [apply bind_Ok; eauto|done|by eapply grows_trans|done].
Qed.

Lemma builds_bind {A B} r pre (m : M A) (f : A → ids) (k : A → M B) (g : B → ids) :
  builds r pre m f → (∀ a, possible m a → builds r (pre ∪ f a) (k a) g) → builds r pre (m ≫= k) g.
Proof. apply runs_bind. Qed.

Lemma finishes_bind {A B} r pre id (m : M A) (f : A → ids) (k : A → M B) :
  builds r pre m f → (∀ a, possible m a → finishes r (pre ∪ f a) id (k a)) →
  finishes r pre id (m ≫= k).
Proof. apply runs_bind. Qed.

(** ** The answers of a method *)
Lemma possible_bind {A B} (m : M A) (k : A → M B) b :
  possible (m ≫= k) b → ∃ a, possible m a ∧ possible (k a) b.
Proof.
  intros (st & st' & Hb). apply bind_Ok in Hb as (st1 & a & Ha & Hk).
  exists a. split; [by exists st, st1|by exists st1, st'].
Qed.

Lemma possible_ret {A} (a b : A) : possible (mret a) b → b = a.
Proof. by intros (st & st' & [= _ <-]). Qed.

Lemma possible_collect {A B} (f : A → M (option B)) l ys y :
  possible (collect f l) ys → y ∈ ys → ∃ x, x ∈ l ∧ possible (f x) (Some y).
Proof.
  revert ys. induction l as [|x l IH]; intros ys Hp Hy; cbn [collect] in Hp.
  { apply possible_ret in Hp as ->. by apply elem_of_nil in Hy. }
  apply possible_bind in Hp as (o & Ho & Hp). apply possible_bind in Hp as (ys' & Hys & Hp).
  apply possible_ret in Hp as ->. destruct o as [z|]; [apply elem_of_cons in Hy as [->|Hy]|].
  1: by exists x; split; [apply list_elem_of_here|].
  all: destruct (IH ys' Hys Hy) as (x' & Hx & Hf); exists x'; split; [by apply list_elem_of_further|done].
Qed.

(** An answered claim is the id that was claimed. *)
Lemma once_answer id build i : possible (once id build) i → i = id.
Proof.
  unfold once. intros (seen & _ & Hp)%possible_bind.
  destruct seen; [by apply possible_ret in Hp|].
  do 2 (apply possible_bind in Hp as (? & _ & Hp)). by apply possible_ret in Hp.
Qed.

(** Fewer claims are enough, and what was claimed stays claimed. *)
Lemma builds_weaken {A} r (pre pre' : ids) (m : M A) (post post' : A → ids) :
  builds r pre m post → (∀ i, i ∈ pre → i ∈ pre') →
  (∀ a i, possible m a → i ∈ post' a → i ∈ pre' ∨ i ∈ post a) → builds r pre' m post'.
Proof.
  intros Hm H1 H2 st Hs Hf Hpre. destruct (Hm st Hs Hf) as (st' & a & Ha & Hs' & Hg & Hp); [auto|].
  exists st', a. split_and!; [done..|]. intros i Hi.
  destruct (H2 a i) as [Hi'|Hi']; [by exists st, st'|done| |auto].
  apply (grows_claimed _ _ Hg). auto.
Qed.

Lemma builds_frame {A} r (pre pre' : ids) (m : M A) (post : A → ids) :
  builds r pre m post → (∀ i, i ∈ pre → i ∈ pre') → builds r pre' m post.
Proof. intros Hm Hp. eapply builds_weaken; [exact Hm|exact Hp|]. auto. Qed.

(** A bound that every state meets. *)
Lemma builds_any_room {A} U r pre (m : M A) post :
  builds (U, size U) pre m post → builds r pre m post.
Proof.
  intros Hm st Hs _ Hpre. apply Hm; [done| |done]. apply subseteq_size. set_solver.
Qed.

Lemma builds_ret {A} r pre (a : A) (post : A → ids) :
  (∀ i, i ∈ post a → i ∈ pre) → builds r pre (mret a) post.
Proof. intros Hp st Hs _ Hpre. exists st, a. split_and!; [done|done|apply grows_refl|auto]. Qed.

(** A write that touches neither nodes, claims nor numbers. *)
Lemma builds_same r pre (f : CState → CState) (post : unit → ids) :
  (∀ s, cnodes (f s) = cnodes s ∧ claimed (f s) = claimed s ∧
        internalNumbers (f s) = internalNumbers s ∧ bag s `prefix_of` bag (f s)) →
  (∀ i, i ∈ post tt → i ∈ pre) → builds r pre (modify f) post.
Proof.
  intros Hf Hp st Hs _ Hpre. destruct (Hf st) as (Hn & Hc & Hi & Hb). destruct Hs.
  exists (f st), tt. split_and!; [done|by constructor; rewrite ?Hn, ?Hc, ?Hi| |].
  - by constructor; rewrite ?Hn, ?Hc, ?Hi.
  - rewrite Hc. auto.
Qed.

Lemma builds_report r pre sev code sub path : builds r pre (report sev code sub path) (λ _, ∅).
Proof. apply builds_same; [|set_solver]. intros s. split_and!; [done..|by eexists]. Qed.

Lemma builds_gets {A} r pre (f : CState → A) (post : A → ids) :
  (∀ s, sound s → ∀ i, i ∈ post (f s) → i ∈ claimed s ∨ i ∈ pre) → builds r pre (gets f) post.
Proof.
  intros Hf st Hs _ Hpre. exists st, (f st). split_and!; [done|done|apply grows_refl|].
  intros i [Hi|Hi]%(Hf st Hs); auto.
Qed.

(** What a sound state holds is known of what is read from it. *)
Lemma runs_read {A B} r pre (f : CState → A) (g : A → ids) (k : A → M B) Q :
  (∀ s, sound s → ∀ i, i ∈ g (f s) → i ∈ claimed s) →
  (∀ s, sound s → runs r (pre ∪ g (f s)) (k (f s)) Q) → runs r pre (gets f ≫= k) Q.
Proof.
  intros Hg Hk st Hs Hf Hpre. apply (Hk st Hs st Hs Hf).
  intros i [Hi|Hi]%elem_of_union; [auto|by eapply Hg].
Qed.

Lemma builds_lift {A} r pre (a : A) (post : A → ids) :
  (∀ i, i ∈ post a → i ∈ pre) → builds r pre (lift (Ok a)) post.
Proof. apply builds_ret. Qed.

Lemma builds_for_each {A} r pre (f : A → M unit) (g : A → ids) l :
  (∀ x, x ∈ l → builds r pre (f x) (λ _, g x)) →
  builds r pre (for_each f l) (λ _, {[ i | ∃ x, x ∈ l ∧ i ∈ g x ]}).
Proof.
  induction l as [|x l IH]; intros Hf; cbn [for_each]; [apply builds_ret; set_solver|].
  eapply builds_bind; [apply Hf, list_elem_of_here|]. intros [] _.
  eapply builds_weaken; [apply IH; intros y Hy; apply Hf; by apply list_elem_of_further|set_solver..].
Qed.

Lemma builds_loop {A} r pre (f : A → M unit) l :
  (∀ x, x ∈ l → builds r pre (f x) (λ _, ∅)) → builds r pre (for_each f l) (λ _, ∅).
Proof.
  intros Hf. eapply builds_weaken; [by apply (builds_for_each _ _ _ (λ _, ∅))|set_solver..].
Qed.

(** A loop establishes for every element what its body does, when growing keeps it. *)
Lemma runs_for_each {A} r pre (f : A → M unit) (Q : A → CState → Prop) l :
  (∀ x st st', x ∈ l → Q x st → grows st st' → Q x st') →
  (∀ x, x ∈ l → runs r pre (f x) (λ _, Q x)) →
  runs r pre (for_each f l) (λ _ st', ∀ x, x ∈ l → Q x st').
Proof.
  induction l as [|x l IH]; intros Hst Hf st Hs Hfit Hpre; cbn [for_each].
  { exists st, tt. split_and!; [done|done|apply grows_refl|]. intros x Hx. by apply elem_of_nil in Hx. }
  destruct (Hf x (list_elem_of_here _ _) st Hs Hfit Hpre) as (st1 & [] & E1 & S1 & G1 & Q1).
  destruct (IH (λ y a b Hy, Hst y a b (list_elem_of_further _ _ _ Hy))
               (λ y Hy, Hf y (list_elem_of_further _ _ _ Hy)) st1 S1)
    as (st2 & [] & E2 & S2 & G2 & Q2).
  { by eapply fits_grows. }
  { intros i Hi. by apply (grows_claimed _ _ G1), Hpre. }
  exists st2, tt. split_and!; [apply bind_Ok; eauto|done|by eapply grows_trans|].
  intros y [->|Hy]%elem_of_cons; [|by apply Q2].
  eapply Hst; [apply list_elem_of_here|exact Q1|exact G2].
Qed.

Lemma builds_collect {A B} r pre (f : A → M (option B)) (g : B → ids) l :
  (∀ x, x ∈ l → builds r pre (f x) (λ o, {[ i | ∃ y, o = Some y ∧ i ∈ g y ]})) →
  builds r pre (collect f l) (λ ys, {[ i | ∃ y, y ∈ ys ∧ i ∈ g y ]}).
Proof.
  induction l as [|x l IH]; intros Hf; cbn [collect]; [apply builds_ret; set_solver|].
  eapply builds_bind; [apply Hf, list_elem_of_here|]. intros o _. eapply builds_bind.
  { eapply builds_frame; [apply IH; intros y Hy; apply Hf; by apply list_elem_of_further|set_solver]. }
  intros ys _. apply builds_ret. destruct o as [y|]; set_solver.
Qed.

Lemma builds_fold {A B} r pre (step : B → A → M B) (g : B → ids) l :
  (∀ acc x, x ∈ l → builds r (pre ∪ g acc) (step acc x) g) →
  ∀ acc, builds r (pre ∪ g acc) (fold_method step acc l) g.
Proof.
  induction l as [|x l IH]; intros Hs acc; cbn [fold_method]; [apply builds_ret; set_solver|].
  eapply builds_bind; [apply Hs, list_elem_of_here|]. intros acc' _.
  eapply builds_frame; [apply IH; intros a y Hy; apply Hs; by apply list_elem_of_further|set_solver].
Qed.

Lemma finishes_set r pre id label body :
  (∀ n, n = {| node_id := id; node_label := label; node_body := body |} →
        fresh_node id n ∧ ∀ i, i ∈ planNodeReferences n → i ∈ pre) →
  finishes r pre id (set_node id label body).
Proof.
  intros Hb st Hs _ Hpre. destruct (Hb _ eq_refl) as [Hfresh Hrefs]. destruct Hs as [Hn Hnum Hnd].
  eexists _, tt. split_and!; [reflexivity|..].
  - constructor; [|done..]. simpl. intros i n. rewrite lookup_insert_Some.
    intros [[<- <-]|[_ Hi]]; [auto|by apply Hn].
  - constructor; simpl; [done| | |done..].
    + intros i [n Hi]. destruct (decide (id = i)) as [->|];
        rewrite ?lookup_insert_eq, ?lookup_insert_ne; by eauto.
    + intros i Hc [Hi ?]%lookup_insert_None. done.
  - simpl. rewrite lookup_insert_eq. eauto.
Qed.

Lemma finishes_builds {A} r pre id (m : M A) : finishes r pre id m → builds r pre m (λ _, ∅).
Proof.
  intros Hm st Hs Hf Hpre. destruct (Hm st Hs Hf Hpre) as (st' & a & ? & ? & ? & _).
  exists st', a. split_and!; [done..|set_solver].
Qed.

(** Claiming an id, then finishing its node. *)
Lemma runs_once U k (pre : ids) id build :
  (∀ st, fits (U, k) st → id ∉ claimed st → id ∉ pre →
     ∃ r, fits r {| bag := bag st; cnodes := cnodes st; claimed := {[id]} ∪ claimed st;
                    internalNumbers := internalNumbers st |} ∧
          finishes r (pre ∪ {[ id ]}) id build) →
  builds (U, k) pre (once id build) (λ i, {[ i; id ]}).
Proof.
  intros Hb st Hs Hf Hpre. destruct (decide (id ∈ claimed st)) as [Hseen|Hseen].
  { exists st, id. unfold once, is_claimed, gets, mbind, method_bind. rewrite bool_decide_true by done.
    split_and!; [done|done|apply grows_refl|set_solver]. }
  destruct (Hb st Hf Hseen) as (r & Hf1 & Hfin); [by intros ?%Hpre|].
  set (st1 := {| bag := bag st; cnodes := cnodes st; claimed := {[id]} ∪ claimed st;
                 internalNumbers := internalNumbers st |}) in *.
  destruct (Hfin st1) as (st3 & [] & Hm & Hs3 & Hg3 & Hn3); [|done| |].
  { destruct Hs as [Hn Hnum Hnd]. constructor; simpl; [..|done].
    - intros i n Hi. destruct (Hn i n Hi) as [? Hr]. split; [done|].
      intros j Hj. apply elem_of_union_r. auto.
    - intros p Hp. apply elem_of_union_r. auto. }
  { simpl. set_solver. }
  exists st3, id. destruct Hg3 as [Hc3 Hd3 Hdang Hb3 Hi3]. simpl in *. split_and!; [|done| |set_solver].
  - unfold once, is_claimed, gets, mbind, method_bind. rewrite bool_decide_false by done.
    unfold claim, modify. cbv beta iota. fold st1. by rewrite Hm.
  - constructor; [set_solver|done| |done..]. intros j Hj Hnone. destruct (Hdang j Hj Hnone) as [Hc Hn].
    split; [|done]. apply elem_of_union in Hc as [Hc|Hc]; [|done].
    apply elem_of_singleton in Hc as ->. rewrite Hnone in Hn3. by destruct Hn3.
Qed.

(** What is claimed already is not built again. *)
Lemma builds_once_new r (pre : ids) id build :
  (id ∉ pre → finishes r (pre ∪ {[ id ]}) id build) → builds r pre (once id build) (λ i, {[ i; id ]}).
Proof.
  destruct r as [U k]. intros Hb. apply runs_once. intros st Hf _ Hnew. exists (U, k).
  split; [|by apply Hb].
  unfold fits in *. simpl in *. etrans; [|exact Hf]. apply subseteq_size. set_solver.
Qed.

Lemma builds_once r pre id build :
  finishes r (pre ∪ {[ id ]}) id build → builds r pre (once id build) (λ i, {[ i; id ]}).
Proof. intros Hb. by apply builds_once_new. Qed.

(** An id of the counted set uses up one unit of room. *)
Lemma builds_once_counted U k pre id build :
  id ∈ U → (∀ k', k = S k' → finishes (U, k') (pre ∪ {[ id ]}) id build) →
  builds (U, k) pre (once id build) (λ i, {[ i; id ]}).
Proof.
  intros HU Hb. apply runs_once. intros st Hf Hseen _. unfold fits in *. simpl in *.
  assert (size (U ∖ claimed st) = S (size (U ∖ ({[id]} ∪ claimed st)))) as Hsize.
  { assert (U ∖ claimed st = {[id]} ∪ (U ∖ ({[id]} ∪ claimed st))) as ->.
    { apply set_eq. intros x. destruct (decide (x = id)); set_solver. }
    rewrite size_union, size_singleton by set_solver. lia. }
  destruct k as [|k']; [lia|]. exists (U, k'). split; [simpl; lia|]. by apply Hb.
Qed.
End Closure.
End Logic.
