(* ===== verification/CompileFacts.v ===== *)
(** * The node builders of the routing compiler

    Each builder of [Compile] returns an id that is claimed, from any sound state
    with room for its recursion. The room is counted by the rows that can still be
    claimed, which is why the fuel of [extensionNode] and [destinationNode] is
    enough whatever cycles the rows form. *)

From stdpp Require Import pretty propset.
From S2P Require Import Prelude Effects HangupCauses Patterns TimeConditions FeatureCodes Plan.
From S2P Require Import Snapshot PinHash Resolve Compile CompileTables CompileLogic.

Module CompileFacts.
Import Plan Snapshot Resolve Compile Tables Logic.
#[local] Open Scope nat_scope.

(** The ids of an optional answer. *)
Abbreviation the := (λ o, {[ i | o = Some i ]}).

Create HintDb builds.

(** One binding of a method: the builder on the left is a known one. *)
Ltac bstep :=
  first [eapply builds_bind | eapply finishes_bind]; [solve [eauto 3 with builds] | intros ? _].

(** The last line of a builder writes a node whose references were all claimed, under
    an id that is not the emergency node's. *)
Ltac bfresh := split; [done|split; [done|]].
Ltac bnode := apply finishes_set; intros ? ->; split; [by bfresh | set_solver].

Section Builders.
Context (snap : OrgRoutingSnapshot).
Context (follow_ok : ExtensionPlanNode → Prop).

Local Abbreviation env := (index snap).
Local Abbreviation builds := (Logic.builds snap follow_ok).
Local Abbreviation finishes := (Logic.finishes snap follow_ok).

#[local] Hint Resolve builds_report : builds.
#[local] Hint Extern 1 (Logic.builds _ _ _ _ (bag_warning _ _ _) _) => apply builds_report : builds.
#[local] Hint Extern 1 (Logic.builds _ _ _ _ (bag_error _ _ _) _) => apply builds_report : builds.

(** ** Leaves *)
Lemma hangupNode_builds r pre c : builds r pre (hangupNode c) (λ i, {[ i ]}).
Proof.
  eapply builds_weaken; [apply builds_once with (pre := pre); bnode|set_solver..].
Qed.

Lemma externalNode_builds r pre v b : builds r pre (externalNode v b) (λ i, {[ i ]}).
Proof. eapply builds_weaken; [apply builds_once with (pre := pre); bnode|set_solver..]. Qed.

Lemma applicationNode_builds r pre v b : builds r pre (applicationNode v b) (λ i, {[ i ]}).
Proof. eapply builds_weaken; [apply builds_once with (pre := pre); bnode|set_solver..]. Qed.
#[local] Hint Resolve hangupNode_builds externalNode_builds applicationNode_builds : builds.

Lemma builds_fst r pre (m : M PlanNodeId) id :
  builds r pre m (λ i, {[ i; id ]}) → builds r pre m (λ i, {[ i ]}).
Proof. intros Hm. eapply builds_weaken; [exact Hm|set_solver..]. Qed.

Lemma builds_some r pre (m : M PlanNodeId) :
  builds r pre m (λ i, {[ i ]}) → builds r pre (id ← m; mret (Some id)) the.
Proof. intros Hm. eapply builds_bind; [exact Hm|]. intros a _. apply builds_ret. set_solver. Qed.
#[local] Hint Resolve builds_some : builds.

Lemma builds_none {A} r pre (m : M unit) (g : option A → ids) :
  builds r pre m (λ _, ∅) → (∀ i, i ∉ g None) → builds r pre (_ ← m; mret None) g.
Proof. intros Hm Hg. eapply builds_bind; [exact Hm|]. intros a _. apply builds_ret. set_solver. Qed.

Lemma by_reference_builds {A} r pre (table : gmap string A) enabled ref sub path build :
  (∀ row, table !! ref = Some row → builds r pre (build row) (λ i, {[ i ]})) →
  builds r pre (by_reference table enabled ref sub path build) the.
Proof.
  intros Hb. unfold by_reference, missingTarget, disabledTarget.
  destruct (table !! ref) as [row|]; [|apply builds_none; [auto with builds|set_solver]].
  destruct (negb _); [|by auto with builds]. apply builds_some. bstep. 
  eapply builds_frame; [auto with builds|set_solver].
Qed.

(** Methods that build nothing. *)
Lemma pin_hash_builds r pre raw sub path : builds r pre (pin_hash raw sub path) (λ _, ∅).
Proof.
  unfold pin_hash. repeat case_match; try (apply builds_ret; set_solver).
  apply builds_none; [auto with builds|set_solver].
Qed.

Lemma mohClassName_builds r pre c sub path :
  builds r pre (mohClassName snap env c sub path) (λ _, ∅).
Proof.
  unfold mohClassName. repeat case_match; try (apply builds_ret; set_solver);
    (apply builds_none; [auto with builds|set_solver]).
Qed.

Lemma builds_when r pre (b : bool) (m : M unit) :
  builds r pre m (λ _, ∅) → builds r pre (if b then m else mret tt) (λ _, ∅).
Proof. destruct b; [done|]. intros _. apply builds_ret. set_solver. Qed.
#[local] Hint Resolve pin_hash_builds mohClassName_builds builds_when : builds.

Lemma voicemailNode_builds r pre box mode : builds r pre (voicemailNode env box mode) (λ i, {[ i ]}).
Proof.
  eapply builds_weaken; [apply builds_once with (pre := pre)|set_solver..]. bstep. bnode.
Qed.

Lemma conferenceNode_builds r pre room : builds r pre (conferenceNode snap env room) (λ i, {[ i ]}).
Proof.
  eapply builds_weaken; [apply builds_once with (pre := pre)|set_solver..]. do 3 bstep. bnode.
Qed.
#[local] Hint Resolve voicemailNode_builds conferenceNode_builds : builds.

(** ** Extensions *)
Context (follow_ok_none : ∀ n, ext_followMe n = None → follow_ok n).
Definition extension_ids : gset PlanNodeId := list_to_set (extension_node_id <$> extensions snap).

Lemma extension_ids_size : size extension_ids ≤ length (extensions snap).
Proof. unfold extension_ids. etrans; [apply size_list_to_set_le|]. by rewrite length_fmap. Qed.

Lemma extensionVoicemailNode_builds r pre e sub :
  builds r pre (extensionVoicemailNode env e sub) the.
Proof.
  unfold extensionVoicemailNode. destruct (negb _); [apply builds_ret; set_solver|].
  destruct (voicemailByExtension _ !! _); [by auto with builds|].
  apply builds_none; [auto with builds|set_solver].
Qed.
#[local] Hint Resolve extensionVoicemailNode_builds : builds.

Lemma row_of_number n e : env_extensionsByNumber env !! n = Some e → e ∈ extensions snap.
Proof.
  intros [Hin _]%index_by_elem. apply list_elem_of_In, List.filter_In in Hin as [Hin _].
  by apply list_elem_of_In, elem_of_sortById in Hin.
Qed.

Section Forwards.
Context (r : room) (rec : ExtensionInput → M PlanNodeId).
Context (rec_builds : ∀ pre e, e ∈ extensions snap → builds r pre (rec e) (λ i, {[ i ]})).

Lemma forward_if_builds pre b d sub path : builds r pre (forward_if env rec b d sub path) the.
Proof.
  unfold forward_if, forwardNode. destruct b; [|apply builds_ret; set_solver].
  destruct (_ =? _); [apply builds_none; [auto with builds|set_solver]|].
  destruct (env_extensionsByNumber env !! _) as [e|] eqn:He; [|by auto with builds].
  apply builds_some, rec_builds. by eapply row_of_number.
Qed.

Lemma forward_or_builds pre f vm cause :
  (∀ pre, builds r pre f the) →
  builds r (pre ∪ the vm) (forward_or f vm cause) (λ i, {[ i ]}).
Proof.
  intros Hf. unfold forward_or. eapply builds_bind; [apply Hf|]. intros [id|] _.
  - apply builds_ret. set_solver.
  - destruct vm; [apply builds_ret; set_solver|auto with builds].
Qed.

Lemma extension_build_finishes pre e :
  e ∈ extensions snap →
  finishes r pre (extension_node_id e) (extension_build snap env rec e (extension_node_id e)).
Proof.
  intros He. unfold extension_build. eapply finishes_bind; [by auto with builds|]. intros vm _.
  bstep. eapply finishes_bind; [apply forward_if_builds|]. intros forwardAll _.
  do 3 (eapply finishes_bind;
    [eapply builds_frame; [apply (forward_or_builds ∅); intros; apply forward_if_builds|set_solver]|];
    intros ? _).
  apply finishes_set; intros n ->; split; [|set_solver].
  bfresh. simpl. split; [by exists e|]. by apply follow_ok_none.
Qed.
End Forwards.

Lemma extensionNode_fuel_builds fuel k pre e :
  e ∈ extensions snap → k < fuel →
  builds (extension_ids, k) pre (extensionNode_fuel snap env fuel e) (λ i, {[ i; extension_node_id e ]}).
Proof.
  revert k pre e. induction fuel as [|fuel IH]; intros k pre e He Hk; [lia|]. cbn [extensionNode_fuel].
  apply builds_once_counted.
  { apply elem_of_list_to_set, list_elem_of_fmap_2, He. }
  intros k' ->. apply extension_build_finishes; [|done]. intros pre' e' He'.
  eapply builds_weaken; [apply (IH k' pre'); [done|lia]|set_solver..].
Qed.

Lemma extensionNode_builds r pre e :
  e ∈ extensions snap → builds r pre (extensionNode snap env e) (λ i, {[ i; extension_node_id e ]}).
Proof.
  intros He. apply (builds_any_room _ _ extension_ids), extensionNode_fuel_builds; [done|].
  pose proof extension_ids_size. lia.
Qed.
#[local] Hint Extern 2 (Logic.builds _ _ _ _ (extensionNode _ _ _) _) =>
  eapply builds_weaken; [apply extensionNode_builds|set_solver..] : builds.

(** ** Destinations *)
Context (RegExp : string → result string Patterns.exec_fun).
Definition destination_rows : list PlanNodeId :=
  (ivr_node_id <$> ivrMenus snap) ++ (ring_group_node_id <$> ringGroups snap) ++
  (queue_node_id <$> queues snap) ++ (park_node_id <$> parkLots snap) ++
  (time_condition_node_id <$> snap_timeConditions snap).

Definition destination_ids : gset PlanNodeId := list_to_set destination_rows.

Lemma destination_ids_size : size destination_ids < destination_fuel snap.
Proof.
  unfold destination_ids, destination_fuel. pose proof (size_list_to_set_le destination_rows) as H.
  unfold destination_rows in *. rewrite !length_app, !length_fmap in H. lia.
Qed.

Lemma index_row {A} (key : A → string) rows k x :
  index_by key (sortById key rows) !! k = Some x → x ∈ rows.
Proof. intros [Hin _]%index_by_elem. by apply elem_of_sortById in Hin. Qed.

Lemma pattern_issues_builds r pre issues sub path :
  builds r pre (pattern_issues issues sub path) (λ _, ∅).
Proof.
  revert pre. induction issues as [|i issues IH]; intros pre;
    [apply builds_ret; set_solver|].
  destruct i; cbn [pattern_issues]; bstep; [..|by apply IH];
    (eapply builds_bind; [apply IH|]; intros ? _; apply builds_ret; set_solver).
Qed.
#[local] Hint Resolve pattern_issues_builds : builds.

Lemma ivr_references id label b x :
  x ∈ planNodeReferences {| node_id := id; node_label := label; node_body := IvrMenuNode b |} ↔
  (∃ o, o ∈ ivr_options b ∧ x = option_targetNodeId o) ∨
  ivr_timeoutNodeId b = Some x ∨ ivr_invalidNodeId b = Some x.
Proof. unfold planNodeReferences. simpl. set_solver. Qed.

Lemma unless_self_Some id t x : unless_self id t = Some x ↔ t = Some x ∧ x ≠ id.
Proof. unfold unless_self. case_bool_decide; naive_solver. Qed.

Section Destinations.
Context (k : nat) (rec : Destination → Subject → string → M (option PlanNodeId)).
Context (rec_builds : ∀ pre d sub path, builds (destination_ids, k) pre (rec d sub path) the).

Lemma namedDestinationNode_builds pre row prefix sub :
  builds (destination_ids, k) pre (namedDestinationNode rec row prefix sub) the.
Proof.
  unfold namedDestinationNode. destruct (named_destination row); [done|]. apply builds_ret. set_solver.
Qed.
#[local] Hint Resolve namedDestinationNode_builds : builds.

Lemma ivr_option_builds pre id o :
  builds (destination_ids, k) pre (ivr_option RegExp rec id o)
    (λ o, {[ i | ∃ y, o = Some y ∧ i ∈ ({[ option_targetNodeId y ]} : ids) ]}).
Proof.
  unfold ivr_option. destruct (negb _); [apply builds_ret; set_solver|].
  destruct (Patterns.compilePattern _ _ _) as [pattern issues]. bstep.
  destruct (negb _); [apply builds_ret; set_solver|]. bstep.
  destruct a0 as [t|]; [|apply builds_ret; set_solver].
  destruct (bool_decide _); [apply builds_none; [auto with builds|set_solver]|].
  apply builds_ret. set_solver.
Qed.

Lemma ivr_option_not_self id o y :
  possible (ivr_option RegExp rec id o) (Some y) → option_targetNodeId y ≠ id.
Proof.
  unfold ivr_option. destruct (negb _); [by intros [=]%possible_ret|].
  destruct (Patterns.compilePattern _ _ _) as [pattern issues].
  intros (usable & _ & Hp)%possible_bind. destruct (negb _); [by apply possible_ret in Hp|].
  apply possible_bind in Hp as (t & _ & Hp). destruct t as [t|]; [|by apply possible_ret in Hp].
  case_bool_decide as Ht.
  - by apply possible_bind in Hp as (? & _ & [=]%possible_ret).
  - apply possible_ret in Hp. injection Hp as ->. done.
Qed.

Lemma ring_member_builds pre group m :
  builds (destination_ids, k) pre (ring_member rec group m)
    (λ o, {[ i | ∃ y, o = Some y ∧ i ∈ ({[ member_targetNodeId y ]} : ids) ]}).
Proof.
  unfold ring_member. destruct (negb _); [apply builds_ret; set_solver|]. bstep.
  apply builds_ret. destruct a; set_solver.
Qed.

Lemma self_branch_builds pre id t sub path :
  builds (destination_ids, k) pre (self_branch id t sub path) (λ _, ∅).
Proof. apply builds_when. auto with builds. Qed.
#[local] Hint Resolve self_branch_builds : builds.

Lemma ivr_finishes pre menu :
  finishes (destination_ids, k) pre (ivr_node_id menu) (ivr_build RegExp env rec menu).
Proof.
  unfold ivr_build. eapply finishes_bind.
  { apply (builds_collect _ _ _ _ _ (λ y, {[ option_targetNodeId y ]})).
    intros. apply ivr_option_builds. }
  intros options Hopts. do 4 bstep. apply finishes_set. intros n ->.
  split; [bfresh|].
  - cbn [node_body]. rewrite ivr_references. simpl. rewrite !unless_self_Some.
    intros [(o & Ho & He)|[[]|[]]]; [|done..].
    apply (possible_collect _ _ _ _ Hopts) in Ho as (x & _ & Ho).
    by apply ivr_option_not_self in Ho.
  - intros i. rewrite ivr_references. simpl. rewrite !unless_self_Some. set_solver.
Qed.

Lemma ring_group_finishes pre g :
  finishes (destination_ids, k) pre (ring_group_node_id g) (ring_group_build snap env rec g).
Proof.
  unfold ring_group_build. eapply finishes_bind.
  { apply (builds_collect _ _ _ _ _ (λ y, {[ member_targetNodeId y ]})).
    intros. apply ring_member_builds. }
  intros members _. do 3 bstep. bnode.
Qed.

Lemma queue_finishes pre q :
  finishes (destination_ids, k) pre (queue_node_id q) (queue_build snap env rec q).
Proof. unfold queue_build. do 2 bstep. bnode. Qed.

Lemma park_finishes pre lot :
  finishes (destination_ids, k) pre (park_node_id lot) (park_build snap env rec lot).
Proof. unfold park_build. do 2 bstep. bnode. Qed.

Lemma time_condition_finishes pre c :
  finishes (destination_ids, k) pre (time_condition_node_id c) (time_condition_build rec c).
Proof.
  unfold time_condition_build. do 2 bstep. eapply (finishes_bind _ _ _ _ _ _ (λ i, {[ i ]})).
  { destruct a; [apply builds_ret; set_solver|auto with builds]. }
  intros m _. bnode.
Qed.
End Destinations.

(** The entities with destinations, each one level above what [rec] can do. *)
Section Entities.
Context (k : nat) (rec : Destination → Subject → string → M (option PlanNodeId)).
Context (rec_builds : ∀ k', k = S k' → ∀ pre d sub path,
  builds (destination_ids, k') pre (rec d sub path) the).

(** A builder guarded by the claim of the id of a row. *)
Lemma entity_builds pre id build :
  id ∈ destination_rows →
  (∀ k', k = S k' → finishes (destination_ids, k') (pre ∪ {[ id ]}) id build) →
  builds (destination_ids, k) pre (once id build) (λ i, {[ i; id ]}).
Proof. intros Hid. apply builds_once_counted. by apply elem_of_list_to_set. Qed.

Lemma row_id {A} (key : A → PlanNodeId) (rows : list A) x : x ∈ rows → key x ∈ key <$> rows.
Proof. apply list_elem_of_fmap_2. Qed.

Lemma ivrNode_builds pre m : m ∈ ivrMenus snap →
  builds (destination_ids, k) pre (ivrNode RegExp env rec m) (λ i, {[ i; ivr_node_id m ]}).
Proof.
  intros Hm. apply entity_builds; [pose proof (row_id ivr_node_id _ _ Hm); set_solver|].
  intros. apply ivr_finishes. auto.
Qed.

Lemma ringGroupNode_builds pre g : g ∈ ringGroups snap →
  builds (destination_ids, k) pre (ringGroupNode snap env rec g) (λ i, {[ i; ring_group_node_id g ]}).
Proof.
  intros Hm. apply entity_builds; [pose proof (row_id ring_group_node_id _ _ Hm); set_solver|].
  intros. apply ring_group_finishes. auto.
Qed.

Lemma queueNode_builds pre q : q ∈ queues snap →
  builds (destination_ids, k) pre (queueNode snap env rec q) (λ i, {[ i; queue_node_id q ]}).
Proof.
  intros Hm. apply entity_builds; [pose proof (row_id queue_node_id _ _ Hm); set_solver|].
  intros. apply queue_finishes. auto.
Qed.

Lemma parkNode_builds pre lot : lot ∈ parkLots snap →
  builds (destination_ids, k) pre (parkNode snap env rec lot) (λ i, {[ i; park_node_id lot ]}).
Proof.
  intros Hm. apply entity_builds; [pose proof (row_id park_node_id _ _ Hm); set_solver|].
  intros. apply park_finishes. auto.
Qed.

Lemma time_condition_node_builds pre c : c ∈ snap_timeConditions snap →
  builds (destination_ids, k) pre (time_condition_node rec c) (λ i, {[ i; time_condition_node_id c ]}).
Proof.
  intros Hm. apply entity_builds; [pose proof (row_id time_condition_node_id _ _ Hm); set_solver|].
  intros. apply time_condition_finishes. auto.
Qed.

Lemma destination_target_builds pre t d sub path :
  builds (destination_ids, k) pre (destination_target RegExp snap env rec t d sub path) the.
Proof.
  unfold destination_target. destruct t; try (by auto with builds);
    try (apply by_reference_builds; intros row Hrow%index_row; solve [auto with builds |
         eapply builds_fst; eauto using extensionNode_builds, ivrNode_builds, ringGroupNode_builds,
           queueNode_builds, parkNode_builds, time_condition_node_builds]).
  destruct (opt (destinationData d) ≫= data_cause); [|auto with builds].
  destruct (hangup_cause_of _); [auto with builds|].
  apply builds_none; [auto with builds|set_solver].
Qed.
End Entities.

Lemma destinationNode_fuel_builds fuel k pre d sub path :
  k < fuel → builds (destination_ids, k) pre (destinationNode_fuel RegExp snap env fuel d sub path) the.
Proof.
  revert k pre d sub path. induction fuel as [|fuel IH]; intros k pre d sub path Hk; [lia|].
  cbn [destinationNode_fuel]. destruct (isDestinationType _);
    [|apply builds_none; [auto with builds|set_solver]].
  destruct (negb _); [apply builds_none; [auto with builds|set_solver]|].
  apply destination_target_builds. intros k' -> pre' d' sub' path'. apply IH. lia.
Qed.

Lemma destinationNode_builds r pre d sub path :
  builds r pre (destinationNode RegExp snap env d sub path) the.
Proof.
  apply (builds_any_room _ _ destination_ids), destinationNode_fuel_builds, destination_ids_size.
Qed.
End Builders.
End CompileFacts.
