(* ===== verification/TableFacts.v ===== *)
(** * The tables of the routing compiler

    Each table of [CompileTables] refers to claimed ids only, and its patterns and
    zones are ones the platform accepts. At the end of the run nothing claimed is
    left without a node, which closes the artifact. *)

From stdpp Require Import pretty propset.
From S2P Require Import Prelude Effects HangupCauses Patterns TimeConditions FeatureCodes Plan.
From S2P Require Import Snapshot PinHash Resolve Compile CompileTables CompileLogic CompileFacts.

Module TableFacts.
Import Plan Snapshot Resolve Compile Tables Logic CompileFacts.
#[local] Open Scope nat_scope.

(** Membership in a union whose last members were added last. *)
Ltac find_claim :=
  first [apply elem_of_union_r; solve [set_solver] | apply elem_of_union_l; find_claim |
         solve [set_solver]].

(** The values of a map. *)
Abbreviation entries t f := {[ i | ∃ k v, t !! k = Some v ∧ f v i ]}.

Section TablesFacts.
Context (RegExp : string → result string Patterns.exec_fun).
Context (localeCompare : string → string → Z).
Context (isKnownTimezone : string → bool).
Context (snap : OrgRoutingSnapshot).
Context (follow_ok : ExtensionPlanNode → Prop).
Context (follow_ok_none : ∀ n, ext_followMe n = None → follow_ok n).

Local Abbreviation env := (index snap).
Local Abbreviation builds := (Logic.builds snap follow_ok).

#[local] Hint Extern 1 (Logic.builds _ _ _ _ (bag_warning _ _ _) _) => apply builds_report : builds.
#[local] Hint Extern 1 (Logic.builds _ _ _ _ (bag_error _ _ _) _) => apply builds_report : builds.
#[local] Hint Resolve builds_when pattern_issues_builds : builds.

(** A method whose answer is not used. *)
Lemma builds_ignore {A} r pre (m : M A) (f : A → ids) :
  builds r pre m f → builds r pre (_ ← m; mret tt) (λ _, ∅).
Proof. intros Hm. eapply builds_bind; [exact Hm|]. intros a _. apply builds_ret. set_solver. Qed.

Definition hangup_node_id (c : HangupCause) : PlanNodeId := "hangup:" +:+ hangup_cause_name c.

Lemma ensureWellKnownTerminals_builds r pre :
  builds r pre ensureWellKnownTerminals
    (λ _, {[ i | ∃ c, c ∈ WELL_KNOWN_TERMINAL_CAUSES ∧ i ∈ ({[ hangup_node_id c ]} : ids) ]}).
Proof.
  apply builds_for_each. intros c _. eapply builds_bind.
  { apply builds_once. bnode. }
  intros i _. apply builds_ret. set_solver.
Qed.

(** ** Entities *)
Lemma materialise_builds {A} r pre (id : A → string) enabled rows build :
  (∀ x, x ∈ rows → enabled x = true → builds r pre (build x) (λ _, ∅)) →
  builds r pre (materialise id enabled rows build) (λ _, ∅).
Proof.
  intros Hb. apply builds_loop. intros x Hx%elem_of_sortById.
  destruct (enabled x) eqn:He; [auto|]. apply builds_ret. set_solver.
Qed.

Local Abbreviation dest_node := (destinationNode RegExp snap env).
Local Abbreviation named_node := (namedNode RegExp snap env).

Lemma top_ext r pre e : e ∈ extensions snap →
  builds r pre (extensionNode snap env e) (λ i, {[ i; extension_node_id e ]}).
Proof. by apply extensionNode_builds. Qed.

Lemma top_voicemail r pre box mode : builds r pre (voicemailNode env box mode) (λ i, {[ i ]}).
Proof. by apply voicemailNode_builds. Qed.

Lemma top_conference r pre room : builds r pre (conferenceNode snap env room) (λ i, {[ i ]}).
Proof. by apply conferenceNode_builds. Qed.

Lemma top_hangup r pre c : builds r pre (hangupNode c) (λ i, {[ i ]}).
Proof. by apply hangupNode_builds. Qed.

Lemma top_dest r pre d sub path : builds r pre (dest_node d sub path) the.
Proof. by apply destinationNode_builds. Qed.

Lemma top_named r pre row prefix sub : builds r pre (named_node row prefix sub) the.
Proof.
  unfold namedNode, namedDestinationNode. destruct (named_destination row); [apply top_dest|].
  apply builds_ret. set_solver.
Qed.

(** Entities built from the top level, in any state. *)
Ltac top_entity L :=
  apply (builds_any_room _ _ (destination_ids snap)); eapply L; try done; intros; apply top_dest.

Lemma top_ivr r pre m : m ∈ ivrMenus snap →
  builds r pre (ivrNode RegExp env dest_node m) (λ i, {[ i; ivr_node_id m ]}).
Proof. intros. top_entity ivrNode_builds. Qed.

Lemma top_ring_group r pre g : g ∈ ringGroups snap →
  builds r pre (ringGroupNode snap env dest_node g) (λ i, {[ i; ring_group_node_id g ]}).
Proof. intros. top_entity ringGroupNode_builds. Qed.

Lemma top_queue r pre q : q ∈ queues snap →
  builds r pre (queueNode snap env dest_node q) (λ i, {[ i; queue_node_id q ]}).
Proof. intros. top_entity queueNode_builds. Qed.

Lemma top_park r pre l : l ∈ parkLots snap →
  builds r pre (parkNode snap env dest_node l) (λ i, {[ i; park_node_id l ]}).
Proof. intros. top_entity parkNode_builds. Qed.

Lemma top_condition r pre c : c ∈ snap_timeConditions snap →
  builds r pre (time_condition_node dest_node c) (λ i, {[ i; time_condition_node_id c ]}).
Proof. intros. top_entity time_condition_node_builds. Qed.

Lemma materialiseEntities_builds r pre : builds r pre (materialiseEntities RegExp snap env) (λ _, ∅).
Proof.
  unfold materialiseEntities.
  repeat (first [eapply builds_bind; [apply materialise_builds; intros|intros ? _]
                |apply materialise_builds; intros]);
    eauto using builds_ignore, top_ext, top_ring_group, top_ivr, top_queue,
      top_conference, top_park.
  - eapply builds_bind; [apply top_voicemail|]. intros ? _.
    eapply builds_ignore, top_voicemail.
  - eapply builds_ignore, by_reference_builds. intros row Hrow%index_row.
    eapply builds_fst. by apply top_condition.
Qed.

(** ** Emergency dialing *)
Lemma emergency_location_loop_builds r pre dids chosen un :
  builds r pre (emergency_location_loop snap env dids chosen un) (λ _, ∅).
Proof.
  revert pre chosen un. induction dids as [|did dids IH]; intros pre chosen un;
    cbn [emergency_location_loop]; [apply builds_ret; set_solver|].
  repeat case_match; try apply IH;
    (eapply builds_bind; [by auto with builds|intros ? _; apply IH]).
Qed.

Lemma emergency_fold {A} (f : A → string) (g : A → EmergencyRule) (l : list A)
    (t : EmergencyMatchTable) k rule :
  foldl (λ m x, <[f x := g x]> m) t l !! k = Some rule →
  t !! k = Some rule ∨ ∃ x, x ∈ l ∧ k = f x ∧ rule = g x.
Proof.
  revert t. induction l as [|x l IH]; intros t; simpl; [auto|]. intros [H|H]%IH.
  - apply lookup_insert_Some in H as [[<- <-]|[_ H]]; [right; exists x|by left].
    split; [apply list_elem_of_here|done].
  - destruct H as (y & Hy & ?). right. exists y. split; [by apply list_elem_of_further|done].
Qed.

Definition emergency_ids (t : EmergencyMatchTable) : ids :=
  {[ Emergency.EMERGENCY_NODE_ID ]} ∪ entries t (λ v i, i = em_destinationNodeId v).

Lemma compileEmergency_builds r pre : builds r pre (compileEmergency snap env) emergency_ids.
Proof.
  unfold compileEmergency. eapply builds_bind.
  { apply builds_loop. auto with builds. }
  intros ? _. eapply (builds_bind _ _ _ _ _ (λ _, ∅)).
  { eapply builds_bind; [apply emergency_location_loop_builds|]. intros [chosen un] _.
    eapply builds_bind; [apply builds_loop; auto with builds|]. intros ? _. apply builds_ret. set_solver. }
  intros location _. eapply builds_bind.
  { unfold reportEmergencyReachability. repeat case_match; try apply builds_report;
      (apply builds_ret; set_solver). }
  intros ? _. eapply builds_bind.
  { apply builds_once, finishes_set. intros ? ->. split; [|set_solver].
    split; [done|]. split; [intros _; by eexists|done]. }
  intros ? _. apply builds_ret. unfold emergency_ids.
  intros i [Hi|(k & rule & Hl & ->)]%elem_of_union; [set_solver|].
  apply emergency_fold in Hl as [Hl|(seed & _ & _ & ->)]; [by rewrite lookup_empty in Hl|set_solver].
Qed.

(** ** Internal context *)
Lemma compile_feature_code_builds r pre entry :
  builds r pre (compile_feature_code RegExp snap env entry)
    (λ o, {[ i | ∃ y, o = Some y ∧ i ∈ ({[ FeatureCodes.fc_nodeId y ]} : ids) ]}).
Proof.
  unfold compile_feature_code. destruct (negb _); [apply builds_ret; set_solver|].
  eapply (builds_bind _ _ _ _ _ the).
  { unfold featureCodeTarget. repeat case_match; try (apply builds_ret; set_solver).
    apply by_reference_builds. intros row Hrow%index_row. eapply builds_fst. by apply top_park. }
  intros target _. eapply builds_bind.
  { apply builds_once. bnode. }
  intros ? _. apply builds_ret. set_solver.
Qed.

Lemma compileFeatureCodes_builds r pre :
  builds r pre (compileFeatureCodes RegExp localeCompare snap env)
    (λ l, {[ i | ∃ y, y ∈ l ∧ i ∈ ({[ FeatureCodes.fc_nodeId y ]} : ids) ]}).
Proof.
  unfold compileFeatureCodes. eapply builds_bind.
  { apply builds_loop. auto with builds. }
  intros ? _. eapply builds_bind.
  { apply builds_collect. intros. apply compile_feature_code_builds. }
  intros codes _. apply builds_ret. set_solver.
Qed.

Lemma compileVoicemailPrefixes_builds r pre codes :
  builds r pre (compileVoicemailPrefixes snap codes) (λ _, ∅).
Proof.
  unfold compileVoicemailPrefixes. eapply builds_bind; [apply builds_loop|].
  - intros entry _. destruct (find_first _ codes); [auto with builds|apply builds_ret; set_solver].
  - intros ? _. apply builds_ret. set_solver.
Qed.

(** An entity is listed at its number, unless the compilation has failed. *)
Definition listed (n : string) (kind : InternalNumberKind) (entity : string) (nodeId : PlanNodeId)
    (st : CState) : Prop :=
  hasErrors (bag st) = true ∨
  (n, {| num_number := n; num_kind := kind; num_entityId := entity; num_nodeId := nodeId |})
    ∈ internalNumbers st.

Lemma listed_grows n kind entity nodeId st st' :
  listed n kind entity nodeId st → grows st st' → listed n kind entity nodeId st'.
Proof.
  intros Hl [_ _ _ [ds Hb] [ns Hi]]. unfold listed, hasErrors in *. rewrite Hb, Hi.
  destruct Hl as [Hl|Hl]; [left; by rewrite existsb_app, Hl|right; by apply elem_of_app; left].
Qed.

Lemma lookup_number_None l n : lookup_number l n = None → n ∉ l.*1.
Proof.
  unfold lookup_number. intros Hl ([k v] & -> & Hin)%list_elem_of_fmap.
  destruct (find_first _ l) eqn:Hf; [done|]. eapply find_first_None in Hf; [|exact Hin].
  by apply bool_decide_eq_false in Hf.
Qed.

Lemma claimNumber_runs r (pre : ids) n kind entity nodeId name :
  nodeId ∈ pre →
  runs snap follow_ok r pre (claimNumber n kind entity nodeId name) (λ _, listed n kind entity nodeId).
Proof.
  intros Hid st Hs _ Hpre. unfold claimNumber, mbind, method_bind, gets.
  destruct (lookup_number (internalNumbers st) n) eqn:Hl; (eexists _, tt; split; [reflexivity|]).
  - split_and!; [by destruct Hs| |].
    + constructor; simpl; [done..|by eexists|done].
    + left. simpl. unfold hasErrors. rewrite existsb_app. simpl. by rewrite orb_true_r.
  - destruct Hs as [Hn Hnum Hnd]. split_and!.
    + constructor; simpl; [done| |].
      * intros p [Hp|Hp]%elem_of_app; [by apply Hnum|].
        apply list_elem_of_singleton in Hp as ->. by apply Hpre.
      * rewrite fmap_app. apply NoDup_app. split_and!; [done| |apply NoDup_singleton].
        intros x Hx Hx'%list_elem_of_singleton. subst. by apply lookup_number_None in Hl.
    + constructor; simpl; [done..|by eexists].
    + right. simpl. apply elem_of_app. right. by apply list_elem_of_singleton.
Qed.

Lemma runs_builds {A} r pre (m : M A) Q : runs snap follow_ok r pre m Q → builds r pre m (λ _, ∅).
Proof.
  intros Hm st Hs Hf Hpre. destruct (Hm st Hs Hf Hpre) as (st' & a & ? & ? & ? & _).
  exists st', a. split_and!; [done..|set_solver +].
Qed.

(** The claim of one entity: its node is the one the builder always answers with. *)
Lemma claim_entity_runs r pre number kind entity name build nodeId :
  builds r pre build (λ i, {[ i ]}) → (∀ i, possible build i → i = nodeId) →
  runs snap follow_ok r pre (claim_entity number kind entity name build)
    (λ _ st', ∀ n, number = Some n → listed n kind entity nodeId st').
Proof.
  intros Hb Hid. destruct number as [n|]; cbn [claim_entity].
  - eapply runs_bind; [exact Hb|]. intros i Hi st Hs Hf Hpre. rewrite (Hid i Hi) in *.
    destruct (claimNumber_runs r (pre ∪ {[nodeId]}) n kind entity nodeId name) with (st := st)
      as (st' & a & ? & ? & ? & HQ); [set_solver +|done..|].
    exists st', a. split_and!; [done..|]. by intros ? [= <-].
  - intros st Hs _ _. exists st, tt. split_and!; [done|done|apply grows_refl|done].
Qed.

Lemma materialise_runs {A} r pre (id : A → string) enabled rows build (Q : A → CState → Prop) :
  (∀ x st st', Q x st → grows st st' → Q x st') →
  (∀ x, x ∈ rows → enabled x = true → runs snap follow_ok r pre (build x) (λ _, Q x)) →
  runs snap follow_ok r pre (materialise id enabled rows build)
    (λ _ st', ∀ x, x ∈ rows → enabled x = true → Q x st').
Proof.
  intros Hst Hb st Hs Hf Hpre. unfold materialise.
  edestruct (runs_for_each snap follow_ok r pre (λ x, if enabled x then build x else mret tt)
    (λ x st', enabled x = true → Q x st') (sortById id rows)) as (st' & a & ? & ? & ? & HQ);
    [| |exact Hs|exact Hf|exact Hpre|].
  - intros x s s' _ HQ Hg He. eauto.
  - intros x Hx%elem_of_sortById. destruct (enabled x) eqn:He.
    + intros s Hs' Hf' Hp'. destruct (Hb x Hx He s Hs' Hf' Hp') as (s' & b & ? & ? & ? & ?).
      by exists s', b.
    + intros s Hs' _ _. exists s, tt. split_and!; [done|done|apply grows_refl|done].
  - exists st', a. split_and!; [done..|]. intros x Hx. by apply HQ, elem_of_sortById.
Qed.

Lemma runs_seq {A B} r pre (m : M A) (k : M B) Q1 Q2 :
  runs snap follow_ok r pre m (λ _, Q1) → (∀ st st', Q1 st → grows st st' → Q1 st') →
  runs snap follow_ok r pre k (λ _, Q2) →
  runs snap follow_ok r pre (_ ← m; k) (λ _ st', Q1 st' ∧ Q2 st').
Proof.
  intros Hm Hst Hk st Hs Hf Hpre. destruct (Hm st Hs Hf Hpre) as (s1 & a & E1 & S1 & G1 & H1).
  destruct (Hk s1 S1) as (s2 & b & E2 & S2 & G2 & H2).
  { by eapply fits_grows. }
  { intros i Hi. by apply (grows_claimed _ _ G1), Hpre. }
  exists s2, b. split_and!; [apply bind_Ok; eauto|done|by eapply grows_trans|by eapply Hst|done].
Qed.

(** Every enabled entity with a number is listed at it. *)
Definition rows_listed {A} (rows : list A) (enabled : A → bool) (number : A → option string)
    (kind : InternalNumberKind) (id : A → string) (nodeId : A → PlanNodeId) (st : CState) : Prop :=
  ∀ x, x ∈ rows → enabled x = true → ∀ n, number x = Some n → listed n kind (id x) (nodeId x) st.

Definition entities_listed (st : CState) : Prop :=
  rows_listed (extensions snap) exi_enabled (λ e, Some (exi_number e)) num_extension exi_id
    extension_node_id st ∧
  rows_listed (ringGroups snap) rgi_enabled (λ g, nonblank (opt (rgi_extensionNumber g)))
    num_ring_group rgi_id ring_group_node_id st ∧
  rows_listed (ivrMenus snap) ivi_enabled (λ m, nonblank (opt (ivi_extensionNumber m)))
    num_ivr_menu ivi_id ivr_node_id st ∧
  rows_listed (queues snap) qui_enabled (λ q, nonblank (opt (qui_extensionNumber q)))
    num_queue qui_id queue_node_id st ∧
  rows_listed (conferences snap) cfi_enabled (λ c, Some (cfi_roomNumber c)) num_conference cfi_id
    conference_node_id st.

Lemma rows_listed_grows {A} (rows : list A) enabled number kind id nodeId st st' :
  rows_listed rows enabled number kind id nodeId st → grows st st' →
  rows_listed rows enabled number kind id nodeId st'.
Proof. intros Hl Hg x Hx He n Hn. eapply listed_grows; [by apply Hl|done]. Qed.

Lemma entities_listed_grows st st' : entities_listed st → grows st st' → entities_listed st'.
Proof. intros (? & ? & ? & ? & ?) Hg. repeat split; by eapply rows_listed_grows. Qed.

Lemma claimInternalNumbers_runs r pre :
  runs snap follow_ok r pre (claimInternalNumbers RegExp snap env) (λ _, entities_listed).
Proof.
  unfold claimInternalNumbers.
  repeat (apply runs_seq; [|intros; by eapply rows_listed_grows|]);
    (apply materialise_runs; [intros x st st' Hl Hg n Hn; eapply listed_grows; [by apply Hl|done]|]);
    intros x Hx He; apply claim_entity_runs;
    eauto using builds_fst, top_ext, top_ring_group, top_ivr, top_queue, top_conference, once_answer.
Qed.

Lemma claimInternalNumbers_builds r pre : builds r pre (claimInternalNumbers RegExp snap env) (λ _, ∅).
Proof. eapply runs_builds, claimInternalNumbers_runs. Qed.

Definition mailbox_ids (t : gmap string MailboxEntry) : ids :=
  entries t (λ m i, i = mb_leaveNodeId m ∨ i = mb_checkNodeId m).

Definition slot_ids (l : list ParkSlotRange) : ids := {[ i | ∃ s, s ∈ l ∧ i = slot_nodeId s ]}.

Lemma compile_mailbox_builds r pre acc box :
  builds r (pre ∪ mailbox_ids acc) (compile_mailbox env acc box) mailbox_ids.
Proof.
  unfold compile_mailbox. destruct (negb _); [apply builds_ret; set_solver|].
  destruct (acc !! _).
  { eapply builds_bind; [by auto with builds|]. intros ? _. apply builds_ret. set_solver. }
  eapply builds_bind; [apply top_voicemail|]. intros leave _.
  eapply builds_bind; [apply top_voicemail|]. intros check _. apply builds_ret.
  intros i (k & m & [[_ <-]|[_ Hl]]%lookup_insert_Some & Hi); simpl in *; [set_solver|].
  apply elem_of_union_l, elem_of_union_l, elem_of_union_r. by exists k, m.
Qed.

Lemma compile_park_lot_builds r pre ranges lot :
  lot ∈ parkLots snap →
  builds r (pre ∪ slot_ids ranges) (compile_park_lot RegExp snap env ranges lot) slot_ids.
Proof.
  intros Hlot. unfold compile_park_lot, slot_ids. destruct (negb _); [apply builds_ret; set_solver|].
  destruct (_ <? _)%Z; [|destruct (find_first _ _)].
  1, 2: eapply builds_bind; [by auto with builds|]; intros ? _; apply builds_ret; set_solver.
  eapply (builds_bind _ _ _ _ _ (λ _, ∅)); [apply builds_gets; set_solver|]. intros numbers _.
  eapply builds_bind; [apply builds_loop; auto with builds|]. intros ? _.
  eapply builds_bind; [by apply top_park|]. intros nodeId _. apply builds_ret. set_solver.
Qed.

Definition internal_ids (t : InternalMatchTable) : ids :=
  {[ i | (∃ fc, fc ∈ featureCodes t ∧ i = FeatureCodes.fc_nodeId fc) ∨
         (∃ k m, mailboxes t !! k = Some m ∧ (i = mb_leaveNodeId m ∨ i = mb_checkNodeId m)) ∨
         (∃ k n, numbers t !! k = Some n ∧ i = num_nodeId n) ∨
         (∃ s, s ∈ parkSlots t ∧ i = slot_nodeId s) ∨ i = internal_noMatchNodeId t ∨
         (∃ k rule, emergency_lookup (internal_emergency t) k = Some rule ∧
                    i = em_destinationNodeId rule) ]}.

Lemma nonempty_table_lookup t k : emergency_lookup (nonempty_table t) k = t !! k.
Proof. unfold nonempty_table. case_bool_decide; subst; done. Qed.

Lemma nonempty_table_ids t i :
  (∃ k rule, emergency_lookup (nonempty_table t) k = Some rule ∧ i = em_destinationNodeId rule) →
  i ∈ emergency_ids t.
Proof. intros (k & rule & Hk & ->). rewrite nonempty_table_lookup in Hk.
  apply elem_of_union_r. by exists k, rule.
Qed.

Lemma reportEmergencyShadowing_builds r pre t : builds r pre (reportEmergencyShadowing t) (λ _, ∅).
Proof.
  apply builds_loop. intros. apply (runs_read _ _ _ _ _ (λ _, ∅)); [set_solver|]. intros s _.
  case_match; [apply builds_report|apply builds_ret; set_solver].
Qed.

Lemma compileParkSlots_builds r pre : builds r pre (compileParkSlots RegExp snap env) slot_ids.
Proof.
  unfold compileParkSlots. eapply builds_bind.
  { eapply builds_frame; [apply (builds_fold _ _ _ pre _ slot_ids)|unfold slot_ids; set_solver].
    intros. apply compile_park_lot_builds. by eapply elem_of_sortById. }
  intros l _. apply builds_ret. unfold slot_ids. set_solver.
Qed.

Lemma compileMailboxes_builds r pre : builds r pre (compileMailboxes snap env) mailbox_ids.
Proof.
  eapply builds_frame; [apply (builds_fold _ _ _ pre _ mailbox_ids); intros; apply compile_mailbox_builds|].
  intros i [Hi|(k & v & Hl & _)]%elem_of_union; [set_solver|by rewrite lookup_empty in Hl].
Qed.

Lemma compileInternal_builds r pre t :
  builds r (pre ∪ emergency_ids t) (compileInternal RegExp localeCompare snap env t) internal_ids.
Proof.
  unfold compileInternal. eapply builds_bind; [apply compileFeatureCodes_builds|]. intros codes _.
  eapply builds_bind; [apply compileVoicemailPrefixes_builds|]. intros prefixes _.
  eapply builds_bind; [apply claimInternalNumbers_builds|]. intros ? _.
  eapply builds_bind; [apply reportEmergencyShadowing_builds|]. intros ? _.
  eapply builds_bind; [apply compileParkSlots_builds|]. intros slots _.
  eapply builds_bind; [apply compileMailboxes_builds|]. intros boxes _.
  eapply (builds_bind _ _ _ _ _ (λ l, {[ i | ∃ p, p ∈ l ∧ i = num_nodeId p.2 ]})).
  { apply builds_gets. intros s [_ Hnum _] i (p & Hp & ->). left. by apply Hnum. }
  intros claims _. eapply builds_bind; [apply top_hangup|]. intros noMatch _. apply builds_ret.
  intros i Hi. unfold internal_ids in Hi. rewrite elem_of_PropSet in Hi.
  cbn [featureCodes mailboxes numbers parkSlots internal_noMatchNodeId internal_emergency] in Hi.
  destruct Hi as [Hi|[Hi|[(k & n & Hn & ->)|[Hi|[->|Hi]]]]].
  - find_claim.
  - find_claim.
  - apply elem_of_list_to_map_2 in Hn. apply elem_of_union_l, elem_of_union_r. by exists (k, n).
  - find_claim.
  - apply elem_of_union_r. set_solver.
  - apply nonempty_table_ids in Hi. find_claim.
Qed.

(** ** Inbound and outbound contexts *)
Lemma routePattern_builds r pre kind raw sub path :
  builds r pre (routePattern RegExp kind raw sub path) (λ _, ∅).
Proof.
  unfold routePattern. destruct (Patterns.compilePattern _ _ _). eapply builds_bind.
  - by apply pattern_issues_builds.
  - intros ? _. apply builds_ret. set_solver.
Qed.

Definition gate_ids (g : option RouteTimeGate) : ids :=
  {[ i | ∃ gate, g = Some gate ∧ closedNodeId gate = Some i ]}.

Lemma routeTimeGate_builds r pre id failover sub :
  builds r (pre ∪ the failover) (routeTimeGate RegExp snap env id failover sub) gate_ids.
Proof.
  unfold routeTimeGate, gate_ids. destruct (nonblank _); [|apply builds_ret; set_solver].
  destruct (timeConditionInputsById _ !! _); [|apply builds_none; [auto with builds|set_solver]].
  destruct (negb _); [apply builds_none; [auto with builds|set_solver]|].
  eapply builds_bind; [apply top_named|]. intros closed _. apply builds_ret.
  intros i (gate & [= <-] & Hi). simpl in Hi. destruct closed; simpl in Hi; set_solver.
Qed.

Definition inbound_rule_ids (rule : InboundRule) : ids :=
  {[ in_destinationNodeId rule ]} ∪ gate_ids (in_timeGate rule).

Lemma compile_inbound_route_builds r pre route :
  builds r pre (compile_inbound_route RegExp snap env route)
    (λ o, {[ i | ∃ y, o = Some y ∧ i ∈ inbound_rule_ids y ]}).
Proof.
  unfold compile_inbound_route. destruct (negb _); [apply builds_ret; set_solver|].
  destruct (bound_did _ _) as [bound|]; [|apply builds_none; [auto with builds|set_solver]].
  eapply builds_bind; [apply routePattern_builds|]. intros [pattern|] _; [|apply builds_ret; set_solver].
  eapply (builds_bind _ _ _ _ _ (λ _, ∅)).
  { case_match; [apply routePattern_builds|apply builds_ret; set_solver]. }
  intros caller _. eapply builds_bind; [apply top_named|]. intros failover _.
  eapply builds_bind; [apply top_dest|]. intros [dest|] _; [|apply builds_ret; set_solver].
  eapply builds_bind.
  { eapply builds_frame; [apply (routeTimeGate_builds _ ∅)|]. intros i Hi. find_claim. }
  intros gate _. apply builds_ret. unfold inbound_rule_ids.
  intros i (y & [= <-] & [Hi|Hi]%elem_of_union); simpl in Hi.
  - find_claim.
  - by apply elem_of_union_r.
Qed.

Definition did_ids (t : gmap string InboundDidDefault) : ids :=
  entries t (λ d i, i = did_destinationNodeId d).

Lemma compile_did_default_builds r pre acc did :
  builds r (pre ∪ did_ids acc) (compile_did_default RegExp snap env acc did) did_ids.
Proof.
  unfold compile_did_default. destruct (_ || _); [apply builds_ret; set_solver|].
  eapply builds_bind; [apply top_dest|]. intros [id|] _; apply builds_ret; [|set_solver].
  intros i (k & d & [[_ <-]|[_ Hl]]%lookup_insert_Some & ->); [find_claim|].
  apply elem_of_union_l, elem_of_union_r. by exists k, d.
Qed.

Definition inbound_ids (t : InboundMatchTable) : ids :=
  {[ i | (∃ rule, rule ∈ inbound_rules t ∧ i ∈ inbound_rule_ids rule) ∨ i ∈ did_ids (didDefaults t) ∨
         i = inbound_noMatchNodeId t ]}.

Lemma inbound_shadowing_builds r pre before rules :
  builds r pre (inbound_shadowing before rules) (λ _, ∅).
Proof.
  revert pre before. induction rules as [|rule rules IH]; intros; cbn [inbound_shadowing];
    [apply builds_ret; set_solver|]. eapply (builds_bind _ _ _ _ _ (λ _, ∅)); [|intros; apply IH].
  case_match; [apply builds_report|apply builds_ret; set_solver].
Qed.

Lemma compileInbound_builds r pre : builds r pre (compileInbound RegExp snap env) inbound_ids.
Proof.
  unfold compileInbound. eapply builds_bind.
  { apply builds_collect. intros. apply compile_inbound_route_builds. }
  intros rules _. eapply builds_bind; [apply inbound_shadowing_builds|]. intros ? _.
  eapply builds_bind.
  { eapply builds_frame; [apply (builds_fold _ _ _ ∅ _ did_ids)|].
    - intros. apply compile_did_default_builds.
    - intros i [Hi|(k & v & Hl & _)]%elem_of_union; [set_solver|by rewrite lookup_empty in Hl]. }
  intros defaults _. eapply builds_bind; [apply top_hangup|]. intros noMatch _. apply builds_ret.
  intros i [(rule & Hr & Hi)|[Hi|Hi]]; simpl in *; [|find_claim..].
  apply elem_of_js_sort in Hr. find_claim.
Qed.

Definition outbound_rule_ids (rule : OutboundRule) : ids :=
  {[ out_destinationNodeId rule ]} ∪ gate_ids (out_timeGate rule).

Lemma compileTrunkPlan_builds r pre route sub : builds r pre (compileTrunkPlan env route sub) (λ _, ∅).
Proof.
  unfold compileTrunkPlan. eapply builds_bind.
  { apply (builds_collect _ _ _ _ _ (λ _, ∅)). intros.
    repeat case_match; try (apply builds_none; [auto with builds|set_solver]). apply builds_ret. set_solver. }
  intros attempts _. eapply builds_bind; [apply builds_when, builds_report|]. intros ? _.
  apply builds_ret. set_solver.
Qed.

Lemma dial_patterns_builds r pre kind sub n raws :
  builds r pre (dial_patterns RegExp kind sub n raws) (λ _, ∅).
Proof.
  revert pre n. induction raws as [|raw raws IH]; intros; cbn [dial_patterns];
    [apply builds_ret; set_solver|].
  eapply builds_bind; [apply routePattern_builds|]. intros p _.
  eapply builds_bind; [apply IH|]. intros [usable ps] _. apply builds_ret. set_solver.
Qed.

Lemma outbound_rule_builds r (pre : ids) route patterns causes sub :
  Emergency.EMERGENCY_NODE_ID ∈ pre →
  builds r pre (outbound_rule RegExp snap env route patterns causes sub) outbound_rule_ids.
Proof.
  intros Hem. unfold outbound_rule. eapply builds_bind; [apply top_named|]. intros failover _.
  eapply builds_bind; [apply compileTrunkPlan_builds|]. intros attempts _. eapply builds_bind.
  { apply builds_once_new. intros Hnew. apply finishes_set. intros ? ->. split; [|set_solver].
    split; [done|]. split; [|done]. intros Hid. destruct Hnew. rewrite Hid.
    by apply elem_of_union_l, elem_of_union_l. }
  intros ? _. eapply builds_bind.
  { eapply builds_frame; [apply (routeTimeGate_builds _ ∅)|]. intros i Hi. find_claim. }
  intros gate _. apply builds_ret. unfold outbound_rule_ids.
  intros i [Hi|Hi]%elem_of_union; simpl in Hi; find_claim.
Qed.

Lemma compile_outbound_route_builds r (pre : ids) causes route :
  Emergency.EMERGENCY_NODE_ID ∈ pre →
  builds r pre (compile_outbound_route RegExp snap env causes route)
    (λ o, {[ i | ∃ y, o = Some y ∧ i ∈ outbound_rule_ids y ]}).
Proof.
  intros Hem. unfold compile_outbound_route. destruct (negb _); [apply builds_ret; set_solver|].
  eapply (builds_bind _ _ _ _ _ (λ _, ∅)).
  { unfold outbound_patterns. eapply builds_bind; [apply builds_when, builds_report|]. intros ? _.
    eapply builds_bind; [apply dial_patterns_builds|]. intros [usable ps] _. apply builds_ret. set_solver. }
  intros [patterns|] _; [|apply builds_ret; set_solver].
  eapply builds_bind; [apply builds_loop; auto with builds|]. intros ? _.
  destruct (negb _); [apply builds_ret; set_solver|].
  eapply builds_bind; [by apply outbound_rule_builds; find_claim|]. intros rule _. apply builds_ret. set_solver.
Qed.

Definition outbound_ids (t : OutboundMatchTable) : ids :=
  {[ i | (∃ rule, rule ∈ outbound_rules t ∧ i ∈ outbound_rule_ids rule) ∨
         i = outbound_noMatchNodeId t ∨ i = deniedNodeId t ∨
         (∃ k rule, emergency_lookup (outbound_emergency t) k = Some rule ∧
                    i = em_destinationNodeId rule) ]}.

Lemma trunkContinueOnCauses_builds r pre : builds r pre (trunkContinueOnCauses snap) (λ _, ∅).
Proof.
  unfold trunkContinueOnCauses. destruct (rsi_trunkContinueOnCauses _); [|apply builds_ret; set_solver].
  eapply builds_bind.
  { apply (builds_collect _ _ _ _ _ (λ _, ∅)). intros. case_match; [apply builds_ret; set_solver|].
    apply builds_none; [auto with builds|set_solver]. }
  intros ? _. apply builds_ret. set_solver.
Qed.

Lemma compileOutbound_builds r pre st t :
  builds r (pre ∪ emergency_ids t) (compileOutbound RegExp snap env st t) outbound_ids.
Proof.
  unfold compileOutbound. eapply builds_bind; [apply trunkContinueOnCauses_builds|]. intros causes _.
  eapply builds_bind.
  { apply builds_collect. intros. apply compile_outbound_route_builds.
    apply elem_of_union_l, elem_of_union_r, elem_of_union_l. by apply elem_of_singleton. }
  intros rules _. eapply builds_bind; [apply top_hangup|]. intros noMatch _.
  eapply builds_bind; [apply top_hangup|]. intros denied _. apply builds_ret.
  intros i [(rule & Hr & Hi)|[Hi|[Hi|Hi]]]; simpl in *; [apply elem_of_js_sort in Hr|..].
  4: apply nonempty_table_ids in Hi.
  all: find_claim.
Qed.

(** ** Call blocking and the extension index *)
Lemma compileCallBlock_builds r pre : builds r pre (compileCallBlock RegExp snap) (λ _, ∅).
Proof.
  unfold compileCallBlock. eapply builds_bind.
  { apply (builds_collect _ _ _ _ _ (λ _, ∅)). intros. unfold compile_block_rule.
    destruct (negb _); [apply builds_ret; set_solver|].
    eapply builds_bind; [apply routePattern_builds|]. intros p _. apply builds_ret. set_solver. }
  intros ? _. apply builds_ret. set_solver.
Qed.

Definition index_ids (t : gmap string ExtensionIndexEntry) : ids := entries t (λ e i, i = ix_nodeId e).

Lemma compileExtensionIndex_builds r pre : builds r pre (compileExtensionIndex snap env) index_ids.
Proof.
  eapply builds_frame; [apply (builds_fold _ _ _ ∅ _ index_ids)|].
  - intros acc e He%elem_of_sortById. unfold index_extension.
    destruct (negb _); [apply builds_ret; set_solver|].
    eapply builds_bind; [by apply top_ext|]. intros id _. apply builds_ret.
    intros i (k & d & [[_ <-]|[_ Hl]]%lookup_insert_Some & ->); [find_claim|].
    apply elem_of_union_l, elem_of_union_r. by exists k, d.
  - intros i [Hi|(k & v & Hl & _)]%elem_of_union; [set_solver|by rewrite lookup_empty in Hl].
Qed.

(** ** Settings and time conditions *)
Lemma compileSettings_builds r pre : builds r pre (compileSettings isKnownTimezone snap) (λ _, ∅).
Proof.
  unfold compileSettings. eapply builds_bind; [apply builds_when, builds_report|]. intros ? _.
  apply builds_ret. set_solver.
Qed.

Lemma compile_predicates_builds r pre rule n ps :
  builds r pre (compile_predicates rule n ps) (λ _, ∅).
Proof.
  revert pre n. induction ps as [|p ps IH]; intros; cbn [compile_predicates];
    [apply builds_ret; set_solver|].
  eapply builds_bind; [apply builds_loop; auto with builds|]. intros ? _.
  eapply builds_bind; [apply IH|]. intros [valid compiled] _. apply builds_ret. set_solver.
Qed.

Lemma compile_time_rule_builds r pre rule : builds r pre (compile_time_rule rule) (λ _, ∅).
Proof.
  unfold compile_time_rule. destruct (negb _); [apply builds_ret; set_solver|].
  eapply builds_bind; [apply compile_predicates_builds|]. intros [valid ps] _. apply builds_ret. set_solver.
Qed.

Lemma compileTimeConditions_builds r pre :
  builds r pre (compileTimeConditions isKnownTimezone snap env) (λ _, ∅).
Proof.
  unfold compileTimeConditions. eapply builds_bind.
  { apply (builds_collect _ _ _ _ _ (λ _, ∅)). intros c _. unfold compile_time_condition.
    destruct (negb _); [apply builds_none; [auto with builds|set_solver]|]. eapply builds_bind.
    { apply (builds_collect _ _ _ _ _ (λ _, ∅)). intros rule _.
      eapply builds_weaken; [apply compile_time_rule_builds|set_solver..]. }
    intros rules _. eapply builds_bind; [apply builds_when, builds_report|]. intros ? _.
    apply builds_ret. set_solver. }
  intros ? _. apply builds_ret. set_solver.
Qed.
End TablesFacts.

(** ** What the platform is asked about a compiled table

    Patterns the platform compiles, and zones it knows. *)
Section Values.
Context (RegExp : string → result string Patterns.exec_fun).
Context (isKnownTimezone : string → bool).
Context (snap : OrgRoutingSnapshot) (env : Env).

Definition good_pattern (p : Patterns.CompiledPattern) : Prop :=
  ∀ x, ∃ captures, matchPattern RegExp p x = Ok captures.

Lemma pattern_issues_usable issues sub path :
  possible (pattern_issues issues sub path) true → ∀ i, i ∈ issues → i = Patterns.UnanchoredRegex.
Proof.
  induction issues as [|issue issues IH]; [set_solver|].
  destruct issue; cbn [pattern_issues]; intros (? & _ & Hp)%possible_bind;
    [by apply possible_bind in Hp as (? & _ & [=]%possible_ret)..|].
  intros i [->|Hi]%elem_of_cons; auto.
Qed.

Lemma compilePattern_good kind raw p issues :
  Patterns.compilePattern RegExp kind raw = (p, issues) →
  (∀ i, i ∈ issues → i = Patterns.UnanchoredRegex) → good_pattern p.
Proof.
  intros Hc Hi x. unfold matchPattern. destruct kind; simpl in Hc; injection Hc as <- <-; simpl; eauto.
  unfold Patterns.regexCompileError in Hi. destruct (RegExp _) as [f|detail]; [eauto|].
  discriminate (Hi (Patterns.InvalidRegex detail)).
  apply elem_of_app. right. apply list_elem_of_here.
Qed.

Lemma routePattern_good kind raw sub path p :
  possible (routePattern RegExp kind raw sub path) (Some p) → good_pattern p.
Proof.
  unfold routePattern. destruct (Patterns.compilePattern _ _ _) as [q issues] eqn:Hc.
  intros (usable & Hu & Hp)%possible_bind. apply possible_ret in Hp.
  destruct usable; [injection Hp as ->|done]. eapply compilePattern_good; [exact Hc|].
  by eapply pattern_issues_usable.
Qed.

Lemma dial_patterns_good kind sub n raws usable ps p :
  possible (dial_patterns RegExp kind sub n raws) (usable, ps) → p ∈ ps → good_pattern p.
Proof.
  revert n usable ps. induction raws as [|raw raws IH]; intros n usable ps Hp Hin;
    cbn [dial_patterns] in Hp.
  { apply possible_ret in Hp. simplify_eq. by apply elem_of_nil in Hin. }
  apply possible_bind in Hp as (o & Ho & Hp).
  apply possible_bind in Hp as ([usable' ps'] & Hps & Hp). apply possible_ret in Hp.
  destruct o as [q|]; simplify_eq; [apply elem_of_cons in Hin as [->|Hin]|];
    eauto using routePattern_good.
Qed.

Lemma any_good : good_pattern Patterns.PAny.
Proof. intros x. by exists (Some []). Qed.

Lemma outbound_patterns_good route sub ps p :
  possible (outbound_patterns RegExp route sub) (Some ps) → p ∈ ps → good_pattern p.
Proof.
  unfold outbound_patterns. intros (? & _ & Hp)%possible_bind.
  apply possible_bind in Hp as ([usable ps'] & Hps & Hp). apply possible_ret in Hp.
  destruct (_ && usable); [injection Hp as ->|done]. destruct (_ && _).
  - intros ->%list_elem_of_singleton. apply any_good.
  - by eapply dial_patterns_good.
Qed.

Lemma compileOutbound_good st em t rule p :
  possible (compileOutbound RegExp snap env st em) t →
  rule ∈ outbound_rules t → p ∈ out_patterns rule → good_pattern p.
Proof.
  unfold compileOutbound. intros (causes & _ & Hp)%possible_bind Hr Hin.
  apply possible_bind in Hp as (rules & Hrules & Hp).
  apply possible_bind in Hp as (? & _ & Hp). apply possible_bind in Hp as (? & _ & Hp).
  apply possible_ret in Hp as ->. simpl in Hr. apply elem_of_js_sort in Hr.
  apply (possible_collect _ _ _ _ Hrules) in Hr as (route & _ & Hr).
  unfold compile_outbound_route in Hr. destruct (negb _); [by apply possible_ret in Hr|].
  apply possible_bind in Hr as ([ps|] & Hps & Hr); [|by apply possible_ret in Hr].
  apply possible_bind in Hr as (? & _ & Hr). destruct (negb _); [by apply possible_ret in Hr|].
  apply possible_bind in Hr as (rule' & Hr' & [= ->]%possible_ret).
  unfold outbound_rule in Hr'. do 4 (apply possible_bind in Hr' as (? & _ & Hr')).
  apply possible_ret in Hr' as ->. by eapply outbound_patterns_good.
Qed.

Lemma compileCallBlock_good l rule :
  possible (compileCallBlock RegExp snap) l → rule ∈ l → good_pattern (cb_pattern rule).
Proof.
  unfold compileCallBlock. intros (rules & Hrules & ->%possible_ret)%possible_bind Hr.
  apply elem_of_js_sort in Hr. apply (possible_collect _ _ _ _ Hrules) in Hr as (row & _ & Hr).
  unfold compile_block_rule in Hr. destruct (negb _); [by apply possible_ret in Hr|].
  apply possible_bind in Hr as ([p|] & Hp & Hr); apply possible_ret in Hr; [|done].
  injection Hr as ->. by eapply routePattern_good.
Qed.

Lemma compileInbound_good t rule :
  possible (compileInbound RegExp snap env) t → rule ∈ inbound_rules t →
  good_pattern (in_pattern rule) ∧ ∀ p, in_callerPattern rule = Some p → good_pattern p.
Proof.
  unfold compileInbound. intros (rules & Hrules & Hp)%possible_bind Hr.
  do 3 (apply possible_bind in Hp as (? & _ & Hp)). apply possible_ret in Hp as ->.
  simpl in Hr. apply elem_of_js_sort in Hr.
  apply (possible_collect _ _ _ _ Hrules) in Hr as (route & _ & Hr). unfold compile_inbound_route in Hr.
  destruct (negb _); [by apply possible_ret in Hr|].
  destruct (bound_did _ _); [|by apply possible_bind in Hr as (? & _ & [=]%possible_ret)].
  apply possible_bind in Hr as ([p|] & Hpat & Hr); [|by apply possible_ret in Hr].
  apply possible_bind in Hr as (caller & Hcaller & Hr). apply possible_bind in Hr as (? & _ & Hr).
  apply possible_bind in Hr as ([dest|] & _ & Hr); [|by apply possible_ret in Hr].
  apply possible_bind in Hr as (? & _ & [= ->]%possible_ret). simpl. split; [by eapply routePattern_good|].
  intros q ->. destruct (nonblank _); [by eapply routePattern_good|by apply possible_ret in Hcaller].
Qed.

Lemma compileTimeConditions_zones t k c :
  possible (compileTimeConditions isKnownTimezone snap env) t → t !! k = Some c →
  isKnownTimezone (TimeConditions.timezone c) = true.
Proof.
  unfold compileTimeConditions. intros (compiled & Hc & ->%possible_ret)%possible_bind.
  assert (∀ kv, kv ∈ compiled → isKnownTimezone (TimeConditions.timezone kv.2) = true) as Hall.
  { intros kv Hkv. apply (possible_collect _ _ _ _ Hc) in Hkv as (row & _ & Hkv).
    unfold compile_time_condition in Hkv.
    destruct (isKnownTimezone _) eqn:Hz; simpl in Hkv;
      [|by apply possible_bind in Hkv as (? & _ & [=]%possible_ret)].
    do 2 (apply possible_bind in Hkv as (? & _ & Hkv)). apply possible_ret in Hkv.
    by injection Hkv as ->. }
  clear Hc. rewrite <- (rev_involutive compiled) in Hall |- *. 
  revert Hall. generalize (rev compiled). intros l Hall Hl.
  induction l as [|kv l IH]; [done|]. cbn [rev] in *. rewrite foldl_app in Hl. cbn [foldl] in Hl.
  apply lookup_insert_Some in Hl as [[_ <-]|[_ Hl]]; [apply Hall; set_solver|].
  apply IH; [|done]. intros kv' Hkv'. apply Hall. set_solver.
Qed.
End Values.
End TableFacts.
