(* ===== verification/IvrCycles.v ===== *)
(** * The search for menu cycles

    [detectIvrCycles] walks the menus depth first, with the nodes in progress on a
    stack. The search always ends, and it warns exactly when the menus form a
    cycle: a menu is only finished once every menu it leads to is, so with no
    warning every menu leads nowhere forever. *)

From S2P Require Import Prelude Effects Patterns TimeConditions FeatureCodes Plan Snapshot.
From S2P Require Import Resolve Compile CompileTables CompileLogic.

Module IvrCycles.
Import Plan Snapshot Resolve Compile Tables.
#[local] Open Scope nat_scope.

(** Going once around a cycle starts anywhere on it. *)
Lemma tc_cycle_step {A} (R : relation A) x : tc R x x → ∃ y, R x y ∧ tc R y y.
Proof.
  intros Hx. assert (∀ z, tc R x z → ∃ y, R x y ∧ rtc R y z) as Hsplit.
  { intros z [?? H|? y ? H1 H2]; [by eexists|]. exists y. split; [done|by apply tc_rtc]. }
  destruct (Hsplit x Hx) as (y & Hxy & Hyx). exists y. split; [done|].
  eapply tc_rtc_l; [exact Hyx|]. by apply tc_once.
Qed.

Section Search.
Context (nodes : PlanNodeTable).

(** One menu leads to another without leaving the menus. *)
Definition menu_edge (x y : PlanNodeId) : Prop :=
  branch nodes x y ∧ is_ivr nodes x = true ∧ is_ivr nodes y = true.

Lemma elem_of_menu_ids x : x ∈ menu_ids nodes ↔ is_ivr nodes x = true.
Proof.
  unfold menu_ids, sort_strings. rewrite elem_of_js_sort, list_elem_of_In, List.filter_In, <- list_elem_of_In.
  rewrite list_elem_of_fmap. split; [by intros [_ ?]|]. intros Hx. split; [|done].
  unfold is_ivr in Hx. destruct (nodes !! x) as [n|] eqn:Hl; [|done].
  exists (x, n). split; [done|]. by apply elem_of_map_to_list.
Qed.

(** Menus not marked yet: each nested visit marks one. *)
Definition unmarked (s : VisitState) : gset PlanNodeId := list_to_set (menu_ids nodes) ∖ dom (marks s).

Record search_inv (stack : list PlanNodeId) (s : VisitState) : Prop := {
  si_stack : ∀ x, marks s !! x = Some visiting → x ∈ stack;
  si_done : cycles s = [] → ∀ x, marks s !! x = Some done_visiting → Acc (flip menu_edge) x;
  si_cycle : cycles s ≠ [] → ∃ x, tc menu_edge x x;
  si_reported : cycles s = [] → reported s = [] }.

(** What a visit leaves: marks are kept, nothing new is in progress, and with no
    warning so far the menu visited is finished. *)
Record visited (s s' : VisitState) : Prop := {
  vi_marks : ∀ x m, marks s !! x = Some m → marks s' !! x = Some m;
  vi_visiting : ∀ x, marks s' !! x = Some visiting → marks s !! x = Some visiting;
  vi_cycles : cycles s' = [] → cycles s = [] }.

Lemma visited_refl s : visited s s.
Proof. by constructor. Qed.

Lemma visited_trans s1 s2 s3 : visited s1 s2 → visited s2 s3 → visited s1 s3.
Proof. intros [] []. constructor; eauto. Qed.

Lemma unmarked_visited s s' : visited s s' → size (unmarked s') ≤ size (unmarked s).
Proof.
  intros [Hm _ _]. apply subseteq_size. unfold unmarked.
  assert (dom (marks s) ⊆ dom (marks s')) as Hd; [|set_solver].
  intros x [m Hx]%elem_of_dom. apply elem_of_dom. eauto.
Qed.

Lemma report_cycle_spec id stack s :
  search_inv stack s → (∀ x, x ∈ stack → tc menu_edge x id) → marks s !! id = Some visiting →
  ∃ s', report_cycle nodes id stack s = (s', Ok tt) ∧ search_inv stack s' ∧ visited s s' ∧ cycles s' ≠ [].
Proof.
  intros [H1 H2 H3 H4] Hpath Hid. unfold report_cycle, modify.
  assert (∃ x, tc menu_edge x x) as Hcycle by (exists id; by apply Hpath, H1).
  set (key := join_strings _ _). destruct (includes (reported s) key) eqn:Hk.
  - assert (cycles s ≠ []) as Hne.
    { intros He. rewrite (H4 He) in Hk. apply includes_spec in Hk. by apply elem_of_nil in Hk. }
    exists s. split_and!; [done|by constructor|apply visited_refl|done].
  - eexists. split_and!; [reflexivity| | |simpl; by intros [_ ?]%app_nil].
    + constructor; simpl; [exact H1|by intros [_ ?]%app_nil|intros _; exact Hcycle|by intros [_ ?]%app_nil].
    + constructor; simpl; [auto|auto|by intros [_ ?]%app_nil].
Qed.

Lemma mark_visiting_spec id stack s :
  search_inv stack s → marks s !! id = None → is_ivr nodes id = true →
  ∃ s', mark id visiting s = (s', Ok tt) ∧ search_inv (stack ++ [id]) s' ∧ cycles s' = cycles s ∧
        marks s' = <[id := visiting]> (marks s) ∧ size (unmarked s) = S (size (unmarked s')).
Proof.
  intros [H1 H2 H3 H4] Hid Hm. eexists. split_and!; [done| |done|done|].
  - constructor; simpl; [|intros He x|done..].
    + intros x [[<- _]|[_ Hx]]%lookup_insert_Some; set_solver.
    + intros [[_ ?]|[_ Hx]]%lookup_insert_Some; [done|auto].
  - unfold unmarked. simpl. rewrite dom_insert_L. apply elem_of_menu_ids in Hm.
    apply not_elem_of_dom in Hid.
    set (U := list_to_set (menu_ids nodes) : gset PlanNodeId).
    assert (id ∈ U) by (by apply elem_of_list_to_set).
    assert (U ∖ dom (marks s) = {[id]} ∪ U ∖ ({[id]} ∪ dom (marks s))) as ->.
    { apply set_eq. intros x. destruct (decide (x = id)); set_solver. }
    rewrite size_union, size_singleton by set_solver. done.
Qed.

(** A visit of [id] from a state where at most [n] menus are unmarked. *)
Definition visit_ok (step : method VisitState fault unit) (n : nat) (id : PlanNodeId)
    (stack : list PlanNodeId) : Prop :=
  ∀ s, size (unmarked s) ≤ n → search_inv stack s →
    ∃ s', step s = (s', Ok tt) ∧ search_inv stack s' ∧ visited s s' ∧
          (cycles s' = [] → marks s' !! id = Some done_visiting).

Lemma visit_references_spec step n stack refs s :
  (∀ y, y ∈ refs → is_ivr nodes y = true → visit_ok (step y) n y stack) →
  size (unmarked s) ≤ n → search_inv stack s →
  ∃ s', for_each (λ y, if is_ivr nodes y then step y else mret tt) refs s = (s', Ok tt) ∧
    search_inv stack s' ∧ visited s s' ∧
    (cycles s' = [] → ∀ y, y ∈ refs → is_ivr nodes y = true → marks s' !! y = Some done_visiting).
Proof.
  revert s. induction refs as [|y refs IH]; intros s Hstep Hn Hinv.
  { exists s. split_and!; [done|done|apply visited_refl|]. intros _ y Hy. by apply elem_of_nil in Hy. }
  assert (∃ s1, (if is_ivr nodes y then step y else mret tt) s = (s1, Ok tt) ∧ search_inv stack s1 ∧
    visited s s1 ∧ (cycles s1 = [] → is_ivr nodes y = true → marks s1 !! y = Some done_visiting))
    as (s1 & Hs1 & Hinv1 & Hv1 & Hd1).
  { destruct (is_ivr nodes y) eqn:Hy; [|exists s; split_and!; [done|done|apply visited_refl|done]].
    destruct (Hstep y (list_elem_of_here _ _) Hy s Hn Hinv) as (s1 & ? & ? & ? & ?). exists s1.
    split_and!; auto. }
  destruct (IH s1) as (s2 & Hs2 & Hinv2 & Hv2 & Hd2).
  { intros z Hz. apply Hstep. by apply list_elem_of_further. }
  { pose proof (unmarked_visited _ _ Hv1). lia. }
  { done. }
  exists s2. split_and!; [|done|by eapply visited_trans|].
  - cbn [for_each]. unfold mbind, method_bind. by rewrite Hs1.
  - intros Hc z [->|Hz]%elem_of_cons Hivr; [|auto]. apply (vi_marks _ _ Hv2), Hd1; [|done].
    by apply (vi_cycles _ _ Hv2).
Qed.

Lemma mark_done_spec id stack s s1 s2 :
  search_inv stack s → marks s !! id = None → marks s1 = <[id := visiting]> (marks s) →
  cycles s1 = cycles s → visited s1 s2 → search_inv (stack ++ [id]) s2 →
  (cycles s2 = [] → ∀ y, menu_edge id y → marks s2 !! y = Some done_visiting) →
  ∃ s3, mark id done_visiting s2 = (s3, Ok tt) ∧ search_inv stack s3 ∧ visited s s3 ∧
        marks s3 !! id = Some done_visiting.
Proof.
  intros [H1 _ _ _] Hid Hm1 Hc1 [V1 V2 V3] [I1 I2 I3 I4] Hdone.
  assert (∀ x, x ≠ id → marks s2 !! x = Some visiting → marks s !! x = Some visiting) as Hback.
  { intros x Hx Hv. apply V2 in Hv. by rewrite Hm1, lookup_insert_ne in Hv. }
  eexists. split_and!; [reflexivity| | |simpl; by rewrite lookup_insert_eq].
  - constructor; simpl; [| |done|done].
    + intros x [[_ ?]|[Hx Hv]]%lookup_insert_Some; [done|]. by apply H1, Hback.
    + intros Hc x [[<- _]|[Hx Hv]]%lookup_insert_Some; [|by apply I2].
      constructor. intros y Hy. apply I2; [done|]. by apply Hdone.
  - constructor; simpl; [| |by rewrite <- Hc1].
    + intros x m Hx. destruct (decide (x = id)) as [->|Hne]; [by rewrite Hid in Hx|].
      rewrite lookup_insert_ne by done. apply V1. by rewrite Hm1, lookup_insert_ne.
    + intros x [[_ ?]|[Hx Hv]]%lookup_insert_Some; [done|]. by apply Hback.
Qed.

Lemma visit_spec fuel n id stack :
  n < fuel → is_ivr nodes id = true → (∀ x, x ∈ stack → tc menu_edge x id) →
  visit_ok (visit fuel nodes id stack) n id stack.
Proof.
  revert n id stack. induction fuel as [|fuel IH]; intros n id stack Hn Hivr Hpath s Hs Hinv; [lia|].
  cbn [visit]. unfold mbind, method_bind, gets. destruct (marks s !! id) as [[]|] eqn:Hid.
  - destruct (report_cycle_spec id stack s Hinv Hpath Hid) as (s' & ? & ? & ? & ?). exists s'.
    split_and!; auto. done.
  - exists s. split_and!; [done|done|apply visited_refl|auto].
  - destruct (mark_visiting_spec id stack s Hinv Hid Hivr) as (s1 & -> & Hinv1 & Hc1 & Hm1 & Hsize).
    set (refs := match nodes !! id with Some node => planNodeReferences node | None => [] end).
    destruct (visit_references_spec (λ y, visit fuel nodes y (stack ++ [id])) (pred n) (stack ++ [id])
                refs s1) as (s2 & Hs2 & Hinv2 & Hv2 & Hd2); [|lia|done|].
    { intros y Hy Hivry. assert (menu_edge id y) as Hedge.
      { split; [|done]. unfold refs in Hy. destruct (nodes !! id) as [node|] eqn:Hl;
          [by exists node|by apply elem_of_nil in Hy]. }
      apply IH; [lia|done|].
      intros x [Hx|Hx]%elem_of_app; [eapply tc_r; [by apply Hpath|done]|].
      apply list_elem_of_singleton in Hx as ->. by apply tc_once. }
    rewrite Hs2. destruct (mark_done_spec id stack s s1 s2) as (s3 & -> & Hinv3 & Hv3 & Hd3); try done.
    { intros Hc y (Hb & _ & Hivry). apply Hd2; [done| |done].
      destruct Hb as (node & Hl & Hy). unfold refs. by rewrite Hl. }
    exists s3. split_and!; auto.
Qed.

(** The search over all menus. *)
Lemma ivr_cycles_spec : ∃ s, ivr_cycles nodes = (s, Ok tt) ∧ (cycles s ≠ [] ↔ ∃ x, tc menu_edge x x).
Proof.
  unfold ivr_cycles. set (s0 := {| marks := ∅; reported := []; cycles := [] |}).
  assert (search_inv [] s0) as Hinv0.
  { constructor; simpl; [|intros _|done..]; intros x Hx; by rewrite lookup_empty in Hx. }
  assert (size (unmarked s0) ≤ length (menu_ids nodes)) as Hsize.
  { etrans; [apply subseteq_size|apply Logic.size_list_to_set_le]. unfold unmarked. set_solver. }
  destruct (visit_references_spec (λ y, visit (2 + length (menu_ids nodes)) nodes y [])
    (length (menu_ids nodes)) [] (menu_ids nodes) s0) as (s & Hs & Hinv & _ & Hd); [|done|done|].
  { intros y _ Hy. apply visit_spec; [lia|done|]. intros x Hx. by apply elem_of_nil in Hx. }
  exists s. split; [|split; [apply (si_cycle _ _ Hinv)|]].
  - rewrite <- Hs. assert (∀ l s', (∀ y, y ∈ l → is_ivr nodes y = true) →
      for_each (λ y, visit (2 + length (menu_ids nodes)) nodes y []) l s' =
      for_each (λ y, if is_ivr nodes y then visit (2 + length (menu_ids nodes)) nodes y []
                     else mret tt) l s') as Heq.
    { induction l as [|y l IH]; intros s' Hl; [done|]. cbn [for_each]. unfold mbind, method_bind.
      rewrite (Hl y (list_elem_of_here _ _)). case_match. case_match; [|done].
      apply IH. intros z Hz. apply Hl. by apply list_elem_of_further. }
    apply Heq. intros y. by apply elem_of_menu_ids.
  - intros [x Hx] Hc. assert (∀ y, is_ivr nodes y = true → Acc (flip menu_edge) y) as Hacc.
    { intros y Hy. apply (si_done _ _ Hinv Hc), Hd; [done| |done]. by apply elem_of_menu_ids. }
    destruct (tc_cycle_step _ _ Hx) as (z & (_ & Hivr & _) & _).
    specialize (Hacc x Hivr). induction Hacc as [x _ IH].
    apply tc_cycle_step in Hx as (y & Hxy & Hy). apply (IH y Hxy Hy). by destruct Hxy as (_ & _ & ?).
Qed.
End Search.
End IvrCycles.
