(* ===== verification/RunFacts.v ===== *)
(** * The whole run of the routing compiler

    Follow-me ladders, the search for menu cycles and the closure check, then the
    run itself: it always returns, the artifact it makes is closed, its patterns and
    zones are usable, and a follow-me hop that leaves the organization obeys the
    toll class of its owner. *)

From stdpp Require Import pretty propset.
From S2P Require Import Prelude Effects HangupCauses Patterns TimeConditions FeatureCodes Plan.
From S2P Require Import Snapshot PinHash Resolve Compile CompileTables CompileLogic CompileFacts.
From S2P Require Import TableFacts IvrCycles.

Module RunFacts.
Import Plan Snapshot Resolve Compile Tables Logic CompileFacts TableFacts.
#[local] Open Scope nat_scope.

Lemma extension_references id label n x :
  x ∈ planNodeReferences {| node_id := id; node_label := label; node_body := ExtensionNode n |} ↔
  ext_forwardAllNodeId n = Some x ∨ ext_busyNodeId n = Some x ∨ ext_noAnswerNodeId n = Some x ∨
  ext_notRegisteredNodeId n = Some x ∨
  ∃ fm h, ext_followMe n = Some fm ∧ h ∈ fm_destinations fm ∧ hop_targetNodeId h = Some x.
Proof.
  unfold planNodeReferences. cbn [node_body].
  rewrite elem_of_compact, elem_of_app, list_elem_of_fmap, !elem_of_cons, elem_of_nil.
  destruct (ext_followMe n) as [fm|]; [|setoid_rewrite elem_of_nil]; naive_solver.
Qed.

Lemma surjective_node n :
  n = {| node_id := node_id n; node_label := node_label n; node_body := node_body n |}.
Proof. by destruct n. Qed.

(** ** Follow-me *)
Section FollowMe.
Context (RegExp : string → result string Patterns.exec_fun).
Context (snap : OrgRoutingSnapshot).
Context (table : OutboundMatchTable) (blocks : list CompiledCallBlockRule).
Context (table_good : ∀ rule p, rule ∈ outbound_rules table → p ∈ out_patterns rule → good_pattern RegExp p).
Context (blocks_good : ∀ rule, rule ∈ blocks → good_pattern RegExp (cb_pattern rule)).

Local Abbreviation env := (index snap).

(** Whether the organization screens the number out. *)
Definition not_blocked (number : string) : Prop :=
  ∃ b, checkCallBlock RegExp blocks (Some number) block_outbound = Ok b ∧
       ∀ rule, b = Some rule → cb_action rule = act_allow.

(** A hop that rings somewhere rings an enabled extension at its own number, or
    leaves through an outbound rule the owner of the ladder may use itself. *)
Definition hop_reaches (e : ExtensionInput) (h : FollowMeDestination) : Prop :=
  ∀ id, hop_targetNodeId h = Some id →
    (∃ internal, env_extensionsByNumber env !! hop_destination h = Some internal ∧
       id = extension_node_id internal ∧ hop_dialedNumber h = None) ∨
    outbound_enabled table = true ∧ not_blocked (hop_destination h) ∧
    ∃ rule p, rule ∈ outbound_rules table ∧ id = out_destinationNodeId rule ∧
      tollClassCovers (exi_tollClass e) (out_tollClass rule) = true ∧
      p ∈ out_patterns rule ∧ Patterns.matches RegExp p (hop_destination h) ∧
      is_Some (hop_dialedNumber h) ∧
      hop_dialedNumber h = Patterns.applyDigitManipulation (manipulation rule) (hop_destination h).

Lemma some_pattern_spec ps x :
  (∀ p, p ∈ ps → good_pattern RegExp p) →
  ∃ b, some_pattern RegExp ps x = Ok b ∧ (b = true → ∃ p, p ∈ ps ∧ Patterns.matches RegExp p x).
Proof.
  induction ps as [|p ps IH]; intros Hg; cbn [some_pattern]; [by exists false|].
  destruct (Hg p (list_elem_of_here _ _) x) as [[captures|] Hm]; rewrite Hm.
  - exists true. split; [done|]. intros _. exists p. split; [apply list_elem_of_here|].
    exists captures. unfold matchPattern in Hm. destruct (Patterns.match_pure _ _ _); by simplify_eq.
  - destruct IH as (b & -> & Hb); [intros; by apply Hg, list_elem_of_further|]. exists b.
    split; [done|]. intros H. destruct (Hb H) as (q & ? & ?). exists q.
    split; [by apply list_elem_of_further|done].
Qed.

Lemma follow_me_rules_spec rules tc x denied :
  (∀ rule p, rule ∈ rules → p ∈ out_patterns rule → good_pattern RegExp p) →
  ∃ out, follow_me_rules RegExp rules tc x denied = Ok out ∧
    ∀ id n, out = inl (id, n) → ∃ rule p, rule ∈ rules ∧ id = out_destinationNodeId rule ∧
      tollClassCovers tc (out_tollClass rule) = true ∧ p ∈ out_patterns rule ∧
      Patterns.matches RegExp p x ∧ Patterns.applyDigitManipulation (manipulation rule) x = Some n.
Proof.
  revert denied. induction rules as [|rule rules IH]; intros denied Hg; cbn [follow_me_rules]; [by eexists|].
  assert (∀ d, ∃ out, follow_me_rules RegExp rules tc x d = Ok out ∧
    ∀ id n, out = inl (id, n) → ∃ rule' p, rule' ∈ rule :: rules ∧ id = out_destinationNodeId rule' ∧
      tollClassCovers tc (out_tollClass rule') = true ∧ p ∈ out_patterns rule' ∧
      Patterns.matches RegExp p x ∧ Patterns.applyDigitManipulation (manipulation rule') x = Some n) as IH'.
  { intros d. destruct (IH d) as (out & Ho & Hs); [intros ???; by apply Hg, list_elem_of_further|].
    exists out. split; [done|]. intros id n Hin. destruct (Hs id n Hin) as (r' & p & Hr & H).
    exists r', p. split; [by apply list_elem_of_further|done]. }
  destruct (some_pattern_spec (out_patterns rule) x) as (b & -> & Hb).
  { intros p. apply Hg, list_elem_of_here. }
  destruct b; [|apply IH']. destruct (Hb eq_refl) as (p & Hp & Hm).
  destruct (tollClassCovers _ _) eqn:Ht; simpl; [|apply IH'].
  destruct (Patterns.applyDigitManipulation _ _) as [n|] eqn:Hd; [|apply IH'].
  eexists. split; [done|]. intros ? ? [= <- <-]. exists rule, p. by split; [apply list_elem_of_here|].
Qed.

Lemma checkCallBlock_total v d : ∃ b, checkCallBlock RegExp blocks v d = Ok b.
Proof.
  unfold checkCallBlock. destruct v as [v|]; [|eauto]. destruct (_ =? _); [eauto|].
  clear table_good. induction blocks as [|rule rules IH]; [by eexists|]. cbn [checkCallBlock_loop].
  destruct (_ && _); [apply IH; intros; by apply blocks_good, list_elem_of_further|].
  destruct (blocks_good rule (list_elem_of_here _ _) v) as [[c|] ->]; [by eexists|].
  apply IH. intros. by apply blocks_good, list_elem_of_further.
Qed.

Context (follow_ok : ExtensionPlanNode → Prop).
Context (follow_ok_none : ∀ n, ext_followMe n = None → follow_ok n).
Context (follow_ok_set : ∀ n plan e,
  e ∈ extensions snap → exi_enabled e = true → ext_extensionId n = exi_id e →
  (∀ h, h ∈ fm_destinations plan → hop_reaches e h) → follow_ok (with_follow_me n plan)).

Local Abbreviation builds := (Logic.builds snap follow_ok).

#[local] Hint Extern 1 (Logic.builds _ _ _ _ (bag_warning _ _ _) _) => apply builds_report : builds.

Lemma followMeTrunkTarget_builds r pre e x sub path :
  builds r (pre ∪ outbound_ids table) (followMeTrunkTarget RegExp table blocks e x sub path)
    (λ o, {[ i | ∃ n, o = Some (i, n) ]}).
Proof.
  unfold followMeTrunkTarget.
  destruct (negb _); [apply builds_none; [auto with builds|set_solver +]|].
  destruct (checkCallBlock_total (Some x) block_outbound) as [b Hb]. rewrite Hb.
  eapply (builds_bind _ _ _ _ _ (λ _, ∅)); [apply builds_lift; set_solver +|]. intros b' _.
  destruct (match b' with Some _ => _ | None => _ end); [apply builds_none; [auto with builds|set_solver +]|].
  destruct (follow_me_rules_spec (outbound_rules table) (exi_tollClass e) x false table_good)
    as (out & Ho & Hs). rewrite Ho.
  eapply (builds_bind _ _ _ _ _ (λ o, {[ i | ∃ n, o = inl (i, n) ]})).
  { apply builds_lift. intros i (n & Hi). destruct (Hs i n Hi) as (rule & p & Hr & -> & _).
    apply elem_of_union_l, elem_of_union_r. left. exists rule. split; [done|]. apply elem_of_union_l.
    set_solver +. }
  intros [target|d] _; [apply builds_ret; set_solver +|].
  apply builds_none; [auto with builds|set_solver +].
Qed.

Lemma followMeTrunkTarget_spec e x sub path id n :
  possible (followMeTrunkTarget RegExp table blocks e x sub path) (Some (id, n)) →
  outbound_enabled table = true ∧ not_blocked x ∧
  ∃ rule p, rule ∈ outbound_rules table ∧ id = out_destinationNodeId rule ∧
    tollClassCovers (exi_tollClass e) (out_tollClass rule) = true ∧
    p ∈ out_patterns rule ∧ Patterns.matches RegExp p x ∧
    Patterns.applyDigitManipulation (manipulation rule) x = Some n.
Proof.
  unfold followMeTrunkTarget. destruct (outbound_enabled table); cbn [negb];
    [|by intros (? & _ & [=]%possible_ret)%possible_bind].
  destruct (checkCallBlock_total (Some x) block_outbound) as [b Hb]. rewrite Hb.
  intros (b' & (? & ? & [= _ <-]) & Hp)%possible_bind. split; [done|].
  destruct (match b with Some _ => _ | None => _ end) eqn:Hblk;
    [by apply possible_bind in Hp as (? & _ & [=]%possible_ret)|].
  destruct (follow_me_rules_spec (outbound_rules table) (exi_tollClass e) x false table_good)
    as (out & Ho & Hs). rewrite Ho in Hp.
  apply possible_bind in Hp as (out' & (? & ? & [= _ <-]) & Hp).
  destruct out as [target|d]; [|by apply possible_bind in Hp as (? & _ & [=]%possible_ret)].
  apply possible_ret in Hp. simplify_eq. split.
  - exists b. split; [done|]. intros rule ->. by apply negb_false_iff, bool_decide_eq_true in Hblk.
  - by apply Hs.
Qed.

Definition hop_ids (h : FollowMeDestination) : ids := the (hop_targetNodeId h).

Lemma followMeDestination_builds r pre e n target sub :
  builds r (pre ∪ outbound_ids table) (followMeDestination RegExp snap env table blocks e n target sub)
    (λ o, {[ i | ∃ h, o = Some h ∧ i ∈ hop_ids h ]}).
Proof.
  unfold followMeDestination. destruct (_ =? _); [apply builds_none; [auto with builds|set_solver +]|].
  destruct (env_extensionsByNumber env !! _) as [internal|] eqn:Hi.
  - eapply builds_bind; [apply top_ext; [done|by eapply row_of_number]|]. intros id _.
    apply builds_ret. unfold hop_ids. set_solver +.
  - eapply builds_bind; [apply followMeTrunkTarget_builds|]. intros ext _. apply builds_ret.
    unfold hop_ids. destruct ext as [[nodeId dialed]|]; set_solver +.
Qed.

Lemma followMeDestination_reaches e n target sub h :
  possible (followMeDestination RegExp snap env table blocks e n target sub) (Some h) → hop_reaches e h.
Proof.
  unfold followMeDestination.
  destruct (_ =? _); [by intros (? & _ & [=]%possible_ret)%possible_bind|].
  destruct (env_extensionsByNumber env !! _) as [internal|] eqn:Hi.
  - intros (id & Hid & [= ->]%possible_ret)%possible_bind id' [= <-]. left. exists internal.
    split_and!; [done| |done]. unfold extensionNode in Hid. by apply once_answer in Hid.
  - intros (ext & Hext & [= ->]%possible_ret)%possible_bind id'.
    destruct ext as [[nodeId dialed]|]; [|done]. intros [= <-]. right.
    apply followMeTrunkTarget_spec in Hext as (? & ? & rule & p & Hr & ? & ? & ? & ? & Hd).
    split_and!; [done..|]. exists rule, p. simpl. split_and!; [done..|by eexists|done].
Qed.

Lemma follow_me_hops_builds r pre e sub n targets :
  builds r (pre ∪ outbound_ids table) (follow_me_hops RegExp snap env table blocks e sub n targets)
    (λ l, {[ i | ∃ h, h ∈ l ∧ i ∈ hop_ids h ]}).
Proof.
  revert pre n. induction targets as [|t targets IH]; intros pre n; cbn [follow_me_hops];
    [apply builds_ret; set_solver +|].
  eapply builds_bind; [apply followMeDestination_builds|]. intros hop _.
  eapply builds_bind; [eapply builds_frame; [apply (IH pre)|intros i Hi; by apply elem_of_union_l]|]. intros hops _.
  apply builds_ret. destruct hop; set_solver +.
Qed.

Lemma follow_me_hops_reach e sub n targets l h :
  possible (follow_me_hops RegExp snap env table blocks e sub n targets) l → h ∈ l → hop_reaches e h.
Proof.
  revert n l. induction targets as [|t targets IH]; intros n l Hp Hin; cbn [follow_me_hops] in Hp.
  { apply possible_ret in Hp as ->. by apply elem_of_nil in Hin. }
  apply possible_bind in Hp as (hop & Hhop & Hp). apply possible_bind in Hp as (hops & Hhops & Hp).
  apply possible_ret in Hp as ->. destruct hop as [h'|]; [apply elem_of_cons in Hin as [->|Hin]|];
    eauto using followMeDestination_reaches.
Qed.

Lemma follow_me_extension_builds r pre e :
  e ∈ extensions snap →
  builds r (pre ∪ outbound_ids table) (follow_me_extension RegExp snap env table blocks e) (λ _, ∅).
Proof.
  intros He. unfold follow_me_extension.
  destruct (exi_enabled e) eqn:Hen; cbn [negb]; [|apply builds_ret; set_solver +].
  destruct (opt (exi_followMe e)) as [config|]; [|apply builds_ret; set_solver +].
  destruct (negb _); [apply builds_ret; set_solver +|].
  apply (runs_read _ _ _ _ _ (λ o, {[ i | ∃ n, o = Some n ∧ i ∈ planNodeReferences n ]})).
  { intros s [Hn _] i (n & Hl & Hi). by eapply Hn. }
  intros s [Hn _]. destruct (cnodes s !! extension_node_id e) as [node|] eqn:Hl;
    [|apply builds_ret; set_solver +].
  destruct (Hn _ _ Hl) as [(Hid & _ & Hfresh) _]. destruct (node_body node) as [n| | | | | | | | | | | | |] eqn:Hbody;
    try (apply builds_ret; set_solver +). destruct Hfresh as [(e' & Hrow) _].
  eapply builds_bind.
  { eapply builds_frame; [apply (follow_me_hops_builds _ ∅)|]. set_solver +. }
  intros hops Hhops. destruct (negb _); [eapply builds_frame; [apply builds_report|set_solver +]|].
  rewrite Hid. eapply finishes_builds, finishes_set. intros ? ->.
  destruct Hrow as (He' & Heq & Hex & Hnum & Htoll).
  assert (exi_id e = exi_id e') as Hids by (by apply (inj (String.append "extension:"))).
  split; [split; [done|split; [|split]]|].
  - by rewrite Heq.
  - exists e'. split_and!; done.
  - apply (follow_ok_set _ _ e); [done|done|by rewrite Hex|].
    intros h Hh. by eapply follow_me_hops_reach.
  - intros i Hi. apply extension_references in Hi. simpl in Hi.
    assert (i ∈ planNodeReferences node ∨ ∃ h, h ∈ hops ∧ i ∈ hop_ids h) as [Hi'|Hi'].
    { rewrite (surjective_node node), Hbody, extension_references.
      destruct Hi as [Hi|[Hi|[Hi|[Hi|(fm & h & [= <-] & Hh & Hi)]]]]; [tauto..|]. right. by exists h. }
    + apply elem_of_union_l, elem_of_union_r. by exists node.
    + by apply elem_of_union_r.
Qed.

Lemma compileFollowMe_builds r pre :
  builds r (pre ∪ outbound_ids table) (compileFollowMe RegExp snap env table blocks) (λ _, ∅).
Proof.
  apply builds_loop. intros e He%elem_of_sortById. by apply follow_me_extension_builds.
Qed.
End FollowMe.

(** ** Whole-graph checks *)
Section Checks.
Context (snap : OrgRoutingSnapshot) (follow_ok : ExtensionPlanNode → Prop).
Local Abbreviation builds := (Logic.builds snap follow_ok).

Lemma add_diagnostics_builds r pre ds : builds r pre (add_diagnostics ds) (λ _, ∅).
Proof. apply builds_same; [|set_solver]. intros s. split_and!; [done..|by eexists]. Qed.

Lemma detectIvrCycles_builds r pre : builds r pre detectIvrCycles (λ _, ∅).
Proof.
  unfold detectIvrCycles. apply (runs_read _ _ _ _ _ (λ _, ∅)); [set_solver|]. intros s _.
  destruct (IvrCycles.ivr_cycles_spec (cnodes s)) as (v & -> & _).
  eapply builds_bind; [apply add_diagnostics_builds|]. intros ? _. apply builds_lift. set_solver.
Qed.

Lemma assertNodeClosure_builds r pre : builds r pre assertNodeClosure (λ _, ∅).
Proof.
  unfold assertNodeClosure. apply (runs_read _ _ _ _ _ (λ _, ∅)); [set_solver|]. intros s _.
  apply builds_loop. intros id _. destruct (cnodes s !! id); [|apply builds_ret; set_solver].
  apply builds_loop. intros ref _. destruct (cnodes s !! ref); [apply builds_ret; set_solver|].
  apply builds_report.
Qed.

(** A claimed id without a node: what the run leaves none of. *)
Definition complete (st : CState) : Prop := ∀ id, id ∈ claimed st → is_Some (cnodes st !! id).

Lemma sound_init : sound snap follow_ok cstate_init.
Proof. constructor; simpl; [intros id n Hl; by rewrite lookup_empty in Hl|set_solver|constructor]. Qed.

Lemma complete_grows st : grows cstate_init st → complete st.
Proof.
  intros [_ _ Hd _ _] id Hc. destruct (cnodes st !! id) as [n|] eqn:Hn; [by eexists|].
  destruct (Hd id Hc Hn) as [Hin _]. set_solver.
Qed.

(** In a complete state the closure check has nothing to report. *)
Lemma assertNodeClosure_silent st :
  sound snap follow_ok st → complete st → assertNodeClosure st = (st, Ok tt).
Proof.
  intros [Hn _ _] Hc. unfold assertNodeClosure, mbind, method_bind, gets.
  assert (∀ {A} (f : A → M unit) l, (∀ x, x ∈ l → f x st = (st, Ok tt)) → for_each f l st = (st, Ok tt))
    as Hloop.
  { intros A f l. induction l as [|x l IH]; intros Hf; [done|]. cbn [for_each]. unfold mbind, method_bind.
    rewrite Hf by apply list_elem_of_here. apply IH. intros y Hy. by apply Hf, list_elem_of_further. }
  apply Hloop. intros id _. destruct (cnodes st !! id) as [node|] eqn:Hl; [|done].
  apply Hloop. intros ref Href. destruct (Hn _ _ Hl) as [_ Hrefs].
  by destruct (Hc ref (Hrefs ref Href)) as [? ->].
Qed.
End Checks.

(** ** The run *)
Section Run.
Context (RegExp : string → result string Patterns.exec_fun).
Context (localeCompare : string → string → Z).
Context (isKnownTimezone : string → bool).
Context (snap : OrgRoutingSnapshot).

Local Abbreviation env := (index snap).
Local Abbreviation tables := (compile_tables RegExp localeCompare isKnownTimezone snap).

(** The tables are made whatever the rows say. *)
Lemma compile_tables_builds :
  Logic.builds snap (λ _, True) (∅, 0) ∅ tables (λ _, ∅).
Proof.
  unfold compile_tables. eapply builds_bind; [by apply add_diagnostics_builds|]. intros ? _.
  eapply builds_bind; [by apply ensureWellKnownTerminals_builds|]. intros ? _.
  eapply builds_bind; [by apply compileSettings_builds|]. intros st _.
  eapply builds_bind; [by apply compileTimeConditions_builds|]. intros conditions _.
  eapply builds_bind; [by apply materialiseEntities_builds|]. intros ? _.
  eapply builds_bind; [by apply compileEmergency_builds|]. intros emergency _.
  eapply builds_bind; [by apply compileInternal_builds|]. intros internal _.
  eapply builds_bind; [by apply compileInbound_builds|]. intros inbound _.
  eapply builds_bind.
  { eapply builds_frame; [by apply compileOutbound_builds with (pre := ∅)|].
    intros i [Hi|Hi]%elem_of_union; [set_solver|]. by apply elem_of_union_l, elem_of_union_l, elem_of_union_r. }
  intros outbound Hout. eapply builds_bind; [by apply compileCallBlock_builds|]. intros blocks Hblocks.
  eapply builds_bind; [by apply compileExtensionIndex_builds|]. intros extensionIndex _.
  eapply builds_bind.
  { eapply builds_frame; [apply (compileFollowMe_builds RegExp snap outbound blocks) with (pre := ∅);
      [by eauto using compileOutbound_good|by eauto using compileCallBlock_good|done|done]|].
    intros i [Hi|Hi]%elem_of_union; [set_solver|]. by apply elem_of_union_l, elem_of_union_l, elem_of_union_r. }
  intros ? _. eapply builds_bind; [by apply detectIvrCycles_builds|]. intros ? _.
  eapply builds_bind; [by apply assertNodeClosure_builds|]. intros ? _. apply builds_ret. set_solver.
Qed.

(** What is known of the node of an extension with a ladder. *)
Definition ladder_ok (table : OutboundMatchTable) (blocks : list CompiledCallBlockRule)
    (n : ExtensionPlanNode) : Prop :=
  ∀ fm, ext_followMe n = Some fm → ∃ e, e ∈ extensions snap ∧ exi_enabled e = true ∧
    ext_extensionId n = exi_id e ∧
    ∀ h, h ∈ fm_destinations fm → hop_reaches RegExp snap table blocks e h.

(** Every enabled entity with a number is in the table at that number. *)
Definition rows_in {A} (t : gmap string InternalNumberEntry) (rows : list A) (enabled : A → bool)
    (number : A → option string) (kind : InternalNumberKind) (id : A → string)
    (nodeId : A → PlanNodeId) : Prop :=
  ∀ x n, x ∈ rows → enabled x = true → number x = Some n →
    t !! n = Some {| num_number := n; num_kind := kind; num_entityId := id x; num_nodeId := nodeId x |}.

Record entities_in (t : gmap string InternalNumberEntry) : Prop := {
  in_extensions : rows_in t (extensions snap) exi_enabled (λ e, Some (exi_number e)) num_extension
    exi_id extension_node_id;
  in_ring_groups : rows_in t (ringGroups snap) rgi_enabled (λ g, nonblank (opt (rgi_extensionNumber g)))
    num_ring_group rgi_id ring_group_node_id;
  in_menus : rows_in t (ivrMenus snap) ivi_enabled (λ m, nonblank (opt (ivi_extensionNumber m)))
    num_ivr_menu ivi_id ivr_node_id;
  in_queues : rows_in t (queues snap) qui_enabled (λ q, nonblank (opt (qui_extensionNumber q)))
    num_queue qui_id queue_node_id;
  in_conferences : rows_in t (conferences snap) cfi_enabled (λ c, Some (cfi_roomNumber c))
    num_conference cfi_id conference_node_id }.

Record tables_ok (t : CompiledTables) (s : CState) : Prop := {
  tk_sound : sound snap (ladder_ok (ct_outbound t) (ct_callBlock t)) s;
  tk_complete : complete s;
  tk_terminals : ∀ c, c ∈ WELL_KNOWN_TERMINAL_CAUSES → hangup_node_id c ∈ claimed s;
  tk_inbound : ∀ i, i ∈ inbound_ids (ct_inbound t) → i ∈ claimed s;
  tk_internal : ∀ i, i ∈ internal_ids (ct_internal t) → i ∈ claimed s;
  tk_outbound : ∀ i, i ∈ outbound_ids (ct_outbound t) → i ∈ claimed s;
  tk_index : ∀ i, i ∈ index_ids (ct_extensions t) → i ∈ claimed s;
  tk_inbound_good : ∀ rule, rule ∈ inbound_rules (ct_inbound t) →
    good_pattern RegExp (in_pattern rule) ∧
    ∀ p, in_callerPattern rule = Some p → good_pattern RegExp p;
  tk_outbound_good : ∀ rule p, rule ∈ outbound_rules (ct_outbound t) → p ∈ out_patterns rule →
    good_pattern RegExp p;
  tk_blocks_good : ∀ rule, rule ∈ ct_callBlock t → good_pattern RegExp (cb_pattern rule);
  tk_zones : ∀ k c, ct_timeConditions t !! k = Some c →
    isKnownTimezone (TimeConditions.timezone c) = true;
  tk_emergency : Emergency.EMERGENCY_NODE_ID ∈ claimed s ∧ ∃ em,
    possible (compileEmergency snap env) em ∧ internal_emergency (ct_internal t) = nonempty_table em ∧
    outbound_emergency (ct_outbound t) = nonempty_table em;
  tk_numbers : hasErrors (bag s) = true ∨ entities_in (numbers (ct_internal t)) }.

Lemma fits_empty st : fits (∅, 0) st.
Proof. unfold fits. simpl. by assert ((∅ : gset PlanNodeId) ∖ claimed st = ∅) as -> by set_solver. Qed.

(** A builder applied to the state a run is in. *)
Lemma builds_at {A} follow_ok (X : ids) (m : M A) (post : A → ids) st st' a :
  m st = (st', Ok a) → sound snap follow_ok st →
  (∀ r pre, Logic.builds snap follow_ok r (pre ∪ X) m post) → (∀ i, i ∈ X → i ∈ claimed st) →
  sound snap follow_ok st' ∧ grows st st' ∧ ∀ i, i ∈ post a → i ∈ claimed st'.
Proof.
  intros Heq Hs Hb HX. destruct (Hb (∅, 0) {[ i | i ∈ claimed st ]} st Hs)
    as (st2 & a2 & Heq2 & ? & ? & ?).
  - apply fits_empty.
  - set_solver.
  - rewrite Heq in Heq2. by simplify_eq.
Qed.

(** One method of the run: [L] describes it, [E] is its step from the state whose
    soundness is [S0], in which the ids [X] are claimed. *)
Ltac run_step f X L E S0 S G P :=
  eapply (builds_at f X) in E as (S & G & P);
    [|exact S0|intros ? ?; by apply L|try (intros ? []; done)].

Lemma hasErrors_grows st st' : hasErrors (bag st) = true → grows st st' → hasErrors (bag st') = true.
Proof.
  intros He Hg. destruct (grows_bag _ _ Hg) as [ds Hb]. rewrite Hb. unfold hasErrors in *.
  by rewrite existsb_app, He.
Qed.

Lemma rows_listed_in {A} (st : CState) (rows : list A) enabled number kind id nodeId :
  NoDup (internalNumbers st).*1 → hasErrors (bag st) = false →
  rows_listed rows enabled number kind id nodeId st →
  rows_in (list_to_map (internalNumbers st)) rows enabled number kind id nodeId.
Proof.
  intros Hnd He Hl x n Hx Hen Hn. apply elem_of_list_to_map_1; [done|].
  destruct (Hl x Hx Hen n Hn) as [Hb|Hin]; [by rewrite Hb in He|done].
Qed.

(** The table of internal numbers is complete, or the compilation has failed. *)
Lemma compileInternal_numbers follow_ok em st st' t :
  (∀ n, ext_followMe n = None → follow_ok n) →
  compileInternal RegExp localeCompare snap env em st = (st', Ok t) → sound snap follow_ok st →
  hasErrors (bag st') = true ∨ entities_in (numbers t).
Proof.
  intros Hnone Hrun S0. unfold compileInternal in Hrun.
  apply bind_Ok in Hrun as (s1 & codes & E1 & Hrun). apply bind_Ok in Hrun as (s2 & prefixes & E2 & Hrun).
  apply bind_Ok in Hrun as (s3 & [] & E3 & Hrun). apply bind_Ok in Hrun as (s4 & [] & E4 & Hrun).
  apply bind_Ok in Hrun as (s5 & slots & E5 & Hrun). apply bind_Ok in Hrun as (s6 & boxes & E6 & Hrun).
  apply bind_Ok in Hrun as (s7 & claims & [= <- <-] & Hrun).
  apply bind_Ok in Hrun as (s8 & noMatch & E8 & [= <- <-]).
  run_step follow_ok (∅ : ids) compileFeatureCodes_builds E1 S0 S1 G1 P1.
  run_step follow_ok (∅ : ids) compileVoicemailPrefixes_builds E2 S1 S2 G2 P2.
  destruct (claimInternalNumbers_runs RegExp snap follow_ok Hnone (∅, 0) ∅ s2 S2)
    as (s3' & [] & E3' & S3 & G3 & Q3); [apply fits_empty|set_solver +|].
  rewrite E3 in E3'. injection E3' as <-.
  run_step follow_ok (∅ : ids) reportEmergencyShadowing_builds E4 S3 S4 G4 P4.
  run_step follow_ok (∅ : ids) compileParkSlots_builds E5 S4 S5 G5 P5.
  run_step follow_ok (∅ : ids) compileMailboxes_builds E6 S5 S6 G6 P6.
  run_step follow_ok (∅ : ids) top_hangup E8 S6 S8 G8 P8.
  assert (grows s3 s6) as G by eauto using grows_trans.
  destruct (hasErrors (bag s6)) eqn:He.
  { left. by eapply hasErrors_grows. }
  right. destruct (entities_listed_grows snap s3 s6 Q3 G) as (L1 & L2 & L3 & L4 & L5).
  constructor; eapply rows_listed_in; eauto using sound_distinct.
Qed.

(** Both tables of emergency numbers are the one table. *)
Lemma compileInternal_emergency em t :
  possible (compileInternal RegExp localeCompare snap env em) t → internal_emergency t = nonempty_table em.
Proof.
  unfold compileInternal. intros Hp. do 8 (apply possible_bind in Hp as (? & _ & Hp)).
  by apply possible_ret in Hp as ->.
Qed.

Lemma compileOutbound_emergency st em t :
  possible (compileOutbound RegExp snap env st em) t → outbound_emergency t = nonempty_table em.
Proof.
  unfold compileOutbound. intros Hp. do 4 (apply possible_bind in Hp as (? & _ & Hp)).
  by apply possible_ret in Hp as ->.
Qed.

Lemma compile_tables_ok s t : tables cstate_init = (s, Ok t) → tables_ok t s.
Proof.
  intros Hrun. unfold compile_tables in Hrun.
  apply bind_Ok in Hrun as (s1 & [] & E1 & Hrun). apply bind_Ok in Hrun as (s2 & [] & E2 & Hrun).
  apply bind_Ok in Hrun as (s3 & settings & E3 & Hrun).
  apply bind_Ok in Hrun as (s4 & conditions & E4 & Hrun).
  apply bind_Ok in Hrun as (s5 & [] & E5 & Hrun). apply bind_Ok in Hrun as (s6 & emergency & E6 & Hrun).
  apply bind_Ok in Hrun as (s7 & internal & E7 & Hrun).
  apply bind_Ok in Hrun as (s8 & inbound & E8 & Hrun).
  apply bind_Ok in Hrun as (s9 & outbound & E9 & Hrun).
  apply bind_Ok in Hrun as (s10 & blocks & E10 & Hrun).
  apply bind_Ok in Hrun as (s11 & extensionIndex & E11 & Hrun).
  apply bind_Ok in Hrun as (s12 & [] & E12 & Hrun). apply bind_Ok in Hrun as (s13 & [] & E13 & Hrun).
  apply bind_Ok in Hrun as (s14 & [] & E14 & [= <- <-]).
  set (ok := ladder_ok outbound blocks).
  assert (possible (compileInbound RegExp snap env) inbound) as Pin by (by exists s7, s8).
  assert (possible (compileTimeConditions isKnownTimezone snap env) conditions) as Pcond
    by (by exists s3, s4).
  assert (∀ n, ext_followMe n = None → ok n) as Hnone by (intros n Hn fm Hfm; by rewrite Hn in Hfm).
  assert (possible (compileOutbound RegExp snap env settings emergency) outbound) as Pout by (by exists s8, s9).
  assert (possible (compileCallBlock RegExp snap) blocks) as Pblk by (by exists s9, s10).
  assert (∀ n plan e, e ∈ extensions snap → exi_enabled e = true → ext_extensionId n = exi_id e →
    (∀ h, h ∈ fm_destinations plan → hop_reaches RegExp snap outbound blocks e h) →
    ok (with_follow_me n plan)) as Hset.
  { intros n plan e ???? fm [= <-]. by exists e. }
  pose proof (sound_init snap ok) as S0.
  run_step ok (∅ : ids) add_diagnostics_builds E1 S0 S1 G1 P1.
  run_step ok (∅ : ids) ensureWellKnownTerminals_builds E2 S1 S2 G2 P2.
  run_step ok (∅ : ids) compileSettings_builds E3 S2 S3 G3 P3.
  run_step ok (∅ : ids) compileTimeConditions_builds E4 S3 S4 G4 P4.
  run_step ok (∅ : ids) materialiseEntities_builds E5 S4 S5 G5 P5.
  assert (possible (compileEmergency snap env) emergency) as Pem by (by exists s5, s6).
  pose proof (compileInternal_emergency _ _ (ex_intro _ s6 (ex_intro _ s7 E7))) as Hin.
  pose proof (compileOutbound_emergency _ _ _ Pout) as Hout.
  run_step ok (∅ : ids) compileEmergency_builds E6 S5 S6 G6 P6.
  pose proof (compileInternal_numbers ok _ _ _ _ Hnone E7 S6) as Hnum.
  run_step ok (emergency_ids emergency) compileInternal_builds E7 S6 S7 G7 P7; [|exact P6].
  run_step ok (∅ : ids) compileInbound_builds E8 S7 S8 G8 P8.
  assert (∀ i, i ∈ emergency_ids emergency → i ∈ claimed s8) as P6'.
  { intros i Hi. apply (grows_claimed _ _ G8), (grows_claimed _ _ G7). by apply P6. }
  run_step ok (emergency_ids emergency) compileOutbound_builds E9 S8 S9 G9 P9; [|exact P6'].
  run_step ok (∅ : ids) compileCallBlock_builds E10 S9 S10 G10 P10.
  run_step ok (∅ : ids) compileExtensionIndex_builds E11 S10 S11 G11 P11.
  assert (∀ i, i ∈ outbound_ids outbound → i ∈ claimed s11) as P9'.
  { intros i Hi. apply (grows_claimed _ _ G11), (grows_claimed _ _ G10). by apply P9. }
  eapply (builds_at ok (outbound_ids outbound)) in E12 as (S12 & G12 & _); [|exact S11| |exact P9'].
  2: { intros. apply (compileFollowMe_builds RegExp snap outbound blocks);
      [by eauto using compileOutbound_good|by eauto using compileCallBlock_good|done|done]. }
  run_step ok (∅ : ids) detectIvrCycles_builds E13 S12 S13 G13 P13.
  run_step ok (∅ : ids) assertNodeClosure_builds E14 S13 S14 G14 P14.
  assert (grows s11 s14) as G11_14 by eauto using grows_trans.
  assert (grows s9 s14) as G9_14 by eauto using grows_trans.
  assert (grows s7 s14) as G7_14 by eauto using grows_trans.
  assert (grows s2 s14) as G2_14 by eauto 10 using grows_trans.
  constructor; simpl.
  - exact S14.
  - apply complete_grows. eauto using grows_trans.
  - intros c Hc. apply (grows_claimed _ _ G2_14), P2. exists c. set_solver.
  - intros i Hi. apply (grows_claimed _ _ G9_14), (grows_claimed _ _ G9). by apply P8.
  - intros i Hi. apply (grows_claimed _ _ G7_14). by apply P7.
  - intros i Hi. apply (grows_claimed _ _ G9_14). by apply P9.
  - intros i Hi. apply (grows_claimed _ _ G11_14). by apply P11.
  - intros rule. by eapply compileInbound_good.
  - intros rule p. by eapply compileOutbound_good.
  - intros rule. by eapply compileCallBlock_good.
  - intros k c. by eapply compileTimeConditions_zones.
  - split; [|by exists emergency]. apply (grows_claimed _ _ G9_14), (grows_claimed _ _ G9), P6'.
    by apply elem_of_union_l, elem_of_singleton.
  - destruct Hnum as [He|Hnum]; [left; by eapply hasErrors_grows|by right].
Qed.
End Run.
End RunFacts.
