(* ===== verification/Compiled.v ===== *)
(** * What a compiled artifact promises

    The compiler against the resolvers: compiling always returns; the artifact it
    makes is one the resolvers cannot go wrong on; a follow-me ladder never dials
    what its owner could not; emergency numbers always get out; every enabled
    entity is found at its number; and the content hash does not always tell two
    artifacts apart. *)

From stdpp Require Import pretty propset.
From S2P Require Import Prelude Effects HangupCauses Patterns TimeConditions FeatureCodes Plan.
From S2P Require Import Snapshot Json SnapshotValue Cache PinHash Resolve Compile CompileTables.
From S2P Require Import CompileLogic CompileFacts TableFacts IvrCycles RunFacts.

Module Compiled.
Import Plan Snapshot Resolve Compile Tables Logic CompileFacts TableFacts RunFacts.
#[local] Open Scope nat_scope.
#[local] Open Scope js_scope.

(** ** Resolvers that cannot go wrong *)
Section Total.
Context (RegExp : string → result string Patterns.exec_fun).
Context (formatToParts : string → Z → result string (list (TimeConditions.part_type * string))).
Context (a : RoutingArtifact).

Definition good_condition (c : TimeConditions.CompiledTimeCondition) : Prop :=
  ∀ now, ∃ parts, formatToParts (TimeConditions.timezone c) now = Ok parts.

(** Every pattern compiles and every zone is known. *)
Record good_artifact : Prop := {
  ga_inbound : ∀ rule, rule ∈ inbound_rules (inbound a) → good_pattern RegExp (in_pattern rule) ∧
    ∀ p, in_callerPattern rule = Some p → good_pattern RegExp p;
  ga_outbound : ∀ rule p, rule ∈ outbound_rules (outbound a) → p ∈ out_patterns rule →
    good_pattern RegExp p;
  ga_blocks : ∀ rule, rule ∈ callBlock a → good_pattern RegExp (cb_pattern rule);
  ga_zones : ∀ k c, timeConditions a !! k = Some c → good_condition c }.

Context (Hgood : good_artifact).

Lemma bind_total {E A B} (m : result E A) (k : A → result E B) :
  (∃ x, m = Ok x) → (∀ x, ∃ b, k x = Ok b) → ∃ b, result_bind m k = Ok b.
Proof. intros [x ->] Hk. apply Hk. Qed.

Ltac total :=
  repeat first
    [ match goal with |- ∃ _, Ok _ = Ok _ => eexists; reflexivity end
    | match goal with |- ∃ _, result_bind _ _ = Ok _ => apply bind_total; [|intros] end
    | match goal with |- ∃ _, (match ?x with _ => _ end) = Ok _ => destruct x eqn:? end
    | progress cbv beta iota zeta ];
  eauto.

Lemma evaluate_total k c now :
  timeConditions a !! k = Some c → ∃ e, evaluate formatToParts c now = Ok e.
Proof.
  intros Hc. destruct (ga_zones Hgood k c Hc now) as [parts Hp].
  unfold evaluate, TimeConditions.evaluateTimeCondition, TimeConditions.zonedInstant. rewrite Hp. eauto.
Qed.

Lemma followGates_loop_total fuel id now ds : ∃ r, followGates_loop formatToParts fuel a id now ds = Ok r.
Proof.
  revert id ds. induction fuel as [|fuel IH]; intros id ds; cbn [followGates_loop]; [eauto|].
  total. eauto using evaluate_total.
Qed.

Lemma gateOutcome_total g now : ∃ r, gateOutcome formatToParts a g now = Ok r.
Proof. unfold gateOutcome. total. eauto using evaluate_total. Qed.

Lemma checkBlock_total v d : ∃ r, checkCallBlock RegExp (callBlock a) v d = Ok r.
Proof. apply checkCallBlock_total, (ga_blocks Hgood). Qed.

Lemma matchInboundRule_total rule input :
  rule ∈ inbound_rules (inbound a) → ∃ r, matchInboundRule RegExp rule input = Ok r.
Proof.
  intros Hr. destruct (ga_inbound Hgood rule Hr) as [H1 H2]. unfold matchInboundRule. total.
  by apply H2.
Qed.

Lemma finishInbound_total rule entry caps input ds blk why :
  ∃ r, finishInbound formatToParts a rule entry caps input ds blk why = Ok r.
Proof. unfold finishInbound. total. apply followGates_loop_total. Qed.

Lemma inbound_loop_total rules input ds blk :
  (∀ rule, rule ∈ rules → rule ∈ inbound_rules (inbound a)) →
  ∃ r, inbound_loop RegExp formatToParts a rules input ds blk = Ok r.
Proof.
  revert ds. induction rules as [|rule rules IH]; intros ds Hsub; cbn [inbound_loop]; [eauto|].
  assert (∀ ds, ∃ r, inbound_loop RegExp formatToParts a rules input ds blk = Ok r) as IH'.
  { intros ds'. apply IH. intros. by apply Hsub, list_elem_of_further. }
  total; eauto using matchInboundRule_total, gateOutcome_total, finishInbound_total, list_elem_of_here.
Qed.

Lemma resolveInbound_total input : ∃ r, resolveInbound RegExp formatToParts a input = Ok r.
Proof.
  unfold resolveInbound, inbound_after. total; try apply checkBlock_total;
    eauto using inbound_loop_total; apply followGates_loop_total.
Qed.

Lemma resolveInternal_total input : ∃ r, resolveInternal RegExp formatToParts a input = Ok r.
Proof.
  unfold resolveInternal, internal_after. total; try apply checkBlock_total; apply followGates_loop_total.
Qed.

Lemma matchOutbound_total ps x :
  (∀ p, p ∈ ps → good_pattern RegExp p) → ∃ r, matchOutboundRule_loop RegExp ps x = Ok r.
Proof.
  induction ps as [|p ps IH]; intros Hg; cbn [matchOutboundRule_loop]; [eauto|]. total.
  - apply Hg, list_elem_of_here.
  - apply IH. intros. by apply Hg, list_elem_of_further.
Qed.

Lemma outbound_loop_total rules input caller tc denied ds :
  (∀ rule, rule ∈ rules → rule ∈ outbound_rules (outbound a)) →
  ∃ r, outbound_loop RegExp formatToParts a rules input caller tc denied ds = Ok r.
Proof.
  revert denied ds. induction rules as [|rule rules IH]; intros denied ds Hsub; cbn [outbound_loop]; [eauto|].
  assert (∀ denied ds, ∃ r, outbound_loop RegExp formatToParts a rules input caller tc denied ds = Ok r)
    as IH' by (intros; apply IH; intros; by apply Hsub, list_elem_of_further).
  total; eauto using gateOutcome_total; [|apply followGates_loop_total].
  apply matchOutbound_total. intros p. apply (ga_outbound Hgood). apply Hsub, list_elem_of_here.
Qed.

Lemma resolveOutbound_total input : ∃ r, resolveOutbound RegExp formatToParts a input = Ok r.
Proof.
  unfold resolveOutbound, outbound_after. total; try apply checkBlock_total;
    eauto using outbound_loop_total.
Qed.
End Total.

(** ** Emergency numbers and trunks *)
Section Emergency.
Context (snap : OrgRoutingSnapshot).

Lemma emergency_fold_lookup {A} (f : A → string) (g : A → EmergencyRule) (l : list A) t x :
  NoDup (f <$> l) → x ∈ l → foldl (λ (m : EmergencyMatchTable) y, <[f y := g y]> m) t l !! f x = Some (g x).
Proof.
  revert t. induction l as [|y l IH]; intros t Hnd Hx; [by apply elem_of_nil in Hx|].
  rewrite fmap_cons in Hnd. apply NoDup_cons in Hnd as [Hy Hnd].
  apply elem_of_cons in Hx as [->|Hx]; [|by apply IH]. simpl.
  clear IH Hnd. revert t Hy. induction l as [|z l IH] using rev_ind; intros t Hy; simpl.
  { by rewrite lookup_insert_eq. }
  rewrite foldl_app. simpl. rewrite fmap_app, elem_of_app in Hy. rewrite lookup_insert_ne.
  - apply IH. tauto.
  - intros Heq. apply Hy. right. rewrite <- Heq. by apply list_elem_of_singleton.
Qed.

Lemma compileEmergency_lookup em seed :
  possible (compileEmergency snap (index snap)) em →
  seed ∈ Emergency.emergencyNumbers (rsi_emergencyNumbers (settings_input snap)) →
  ∃ rule, em !! Emergency.dialed seed = Some rule ∧ em_number rule = Emergency.number seed ∧
    em_destinationNodeId rule = Emergency.EMERGENCY_NODE_ID.
Proof.
  unfold compileEmergency. intros Hp Hs. do 4 (apply possible_bind in Hp as (? & _ & Hp)).
  apply possible_ret in Hp as ->. eexists. split; [|split].
  - apply (emergency_fold_lookup Emergency.dialed (λ seed,
      {| em_dialed := Emergency.dialed seed; em_number := Emergency.number seed;
         em_destinationNodeId := Emergency.EMERGENCY_NODE_ID |})); [|exact Hs].
    by apply Emergency.emergencyNumbers_NoDup.
  - done.
  - done.
Qed.

Lemma elem_of_push_once l x y : y ∈ push_once l x ↔ y ∈ l ∨ y = x.
Proof.
  unfold push_once. destruct (includes l x) eqn:E; bool_simpl; [naive_solver|].
  rewrite elem_of_app, list_elem_of_singleton. done.
Qed.

Lemma push_once_NoDup l x : NoDup l → NoDup (push_once l x).
Proof.
  unfold push_once. destruct (includes l x) eqn:E; bool_simpl; [done|]. intros Hnd.
  apply NoDup_app. split_and!; [done| |apply NoDup_singleton].
  intros y Hy ->%list_elem_of_singleton. done.
Qed.

(** What a loop of pushes keeps. *)
Lemma foldl_keeps {A B} (P : B → Prop) (step : B → A → B) l acc :
  P acc → (∀ b x, P b → P (step b x)) → P (foldl step acc l).
Proof. intros Ha Hs. revert acc Ha. induction l; simpl; auto. Qed.

Lemma foldl_push_all {A} (f : A → string) l acc y :
  y ∈ foldl (λ o x, push_once o (f x)) acc l ↔ y ∈ acc ∨ y ∈ f <$> l.
Proof.
  revert acc. induction l as [|x l IH]; intros acc; simpl; [set_solver|].
  rewrite IH, elem_of_push_once. set_solver.
Qed.

Lemma trunk_by_id id : id ∈ tki_id <$> trunks snap ↔ is_Some (trunksById (index snap) !! id).
Proof.
  simpl. split.
  - intros (k & -> & Hk)%list_elem_of_fmap. by apply index_by_some, elem_of_sortById.
  - intros [k [Hk%elem_of_sortById <-]%index_by_elem]. by apply list_elem_of_fmap_2.
Qed.

Lemma emergency_trunk_order_spec :
  NoDup (emergency_trunk_order snap (index snap)) ∧
  ∀ id, id ∈ emergency_trunk_order snap (index snap) ↔ id ∈ tki_id <$> trunks snap.
Proof.
  unfold emergency_trunk_order. set (from := foldl _ [] _).
  assert (NoDup from ∧ ∀ id, id ∈ from → id ∈ tki_id <$> trunks snap) as [Hnd Hin].
  { unfold from. apply foldl_keeps; [split; [constructor|set_solver]|].
    intros b route Hb. apply foldl_keeps; [exact Hb|]. intros o entry [Hnd Hin].
    case_bool_decide as Ht; [|done]. split; [by apply push_once_NoDup|].
    intros id [Hi| ->]%elem_of_push_once; [auto|by apply trunk_by_id]. }
  split.
  - apply foldl_keeps; [done|]. intros. by apply push_once_NoDup.
  - intros id. rewrite foldl_push_all, !list_elem_of_fmap. setoid_rewrite elem_of_js_sort.
    split; [|by right]. intros [Hi|Hi]; [by apply list_elem_of_fmap, Hin|done].
Qed.

Lemma attempts_ids (m : gmap string TrunkInput) (g : nat → TrunkInput → TrunkAttempt) l :
  (∀ i k, trunkId (g i k) = tki_id k) →
  (∀ id, id ∈ l → ∃ k, m !! id = Some k ∧ tki_id k = id) →
  trunkId <$> omap id (imap (λ i id, g i <$> m !! id) l) = l.
Proof.
  revert g. induction l as [|x l IH]; intros g Hg Hall; [done|].
  destruct (Hall x (list_elem_of_here _ _)) as (k & Hk & Hid). simpl. rewrite Hk. simpl. rewrite Hg, Hid.
  f_equal. apply (IH (λ i, g (S i))); [by intros|]. intros y Hy. by apply Hall, list_elem_of_further.
Qed.

Lemma emergency_trunks_order :
  trunkId <$> emergencyTrunkAttempts snap (index snap) = emergency_trunk_order snap (index snap).
Proof.
  assert (∀ id, id ∈ emergency_trunk_order snap (index snap) →
    ∃ k, trunksById (index snap) !! id = Some k ∧ tki_id k = id) as Hall.
  { intros id Hi. apply emergency_trunk_order_spec, trunk_by_id in Hi as [k Hk]. exists k.
    split; [done|]. by apply index_by_elem in Hk as [_ ?]. }
  unfold emergencyTrunkAttempts. by apply attempts_ids.
Qed.

Lemma emergency_trunks :
  NoDup (trunkId <$> emergencyTrunkAttempts snap (index snap)) ∧
  ∀ id, id ∈ trunkId <$> emergencyTrunkAttempts snap (index snap) ↔ id ∈ tki_id <$> trunks snap.
Proof. rewrite emergency_trunks_order. apply emergency_trunk_order_spec. Qed.
End Emergency.

(** ** The run *)
Section Run.
Context (RegExp : string → result string Patterns.exec_fun).
Context (localeCompare : string → string → Z).
Context (isKnownTimezone : string → bool).
Context (number_text : Qc → string).
Context (dateParse : string → option Z) (toISOString : Z → string).

Local Abbreviation tables := (compile_tables RegExp localeCompare isKnownTimezone).
Local Abbreviation compile := (run RegExp localeCompare isKnownTimezone number_text).
Local Abbreviation tryCompile :=
  (tryCompileRoutingArtifact RegExp localeCompare isKnownTimezone number_text dateParse toISOString).

Lemma tables_run snap : ∃ s t, tables snap cstate_init = (s, Ok t) ∧ tables_ok RegExp isKnownTimezone snap t s.
Proof.
  destruct (compile_tables_builds RegExp localeCompare isKnownTimezone snap cstate_init)
    as (s & t & Heq & _); [apply sound_init| |set_solver|].
  - unfold fits. done.
  - exists s, t. split; [done|]. by eapply compile_tables_ok.
Qed.

Lemma hash_total snap : ∃ h, Cache.snapshotHash number_text snap = Ok h.
Proof. destruct (Cache.snapshotHash_total number_text snap) as (? & _ & ?). eauto. Qed.

(** What a run that makes an artifact did. *)
Lemma run_Compiled snap at_ art ds :
  compile snap at_ = Ok (Compiled art ds) →
  ∃ s t h, tables snap cstate_init = (s, Ok t) ∧ tables_ok RegExp isKnownTimezone snap t s ∧
    Cache.snapshotHash number_text snap = Ok h ∧
    hasErrors (bag s) = false ∧ art = artifact_of snap h at_ t s ∧ ds = bag s.
Proof.
  destruct (tables_run snap) as (s & t & Heq & Hok), (hash_total snap) as [h Hh].
  unfold run. intros Hc. rewrite Heq, Hh in Hc. destruct (hasErrors (bag s)) eqn:He; [done|].
  injection Hc as <- <-. exists s, t, h. refine (conj Heq (conj Hok (conj Hh (conj He (conj eq_refl eq_refl))))).
Qed.

(** Rows without errors compile. *)
Lemma run_tables snap at_ s t :
  tables snap cstate_init = (s, Ok t) → hasErrors (bag s) = false →
  ∃ h, Cache.snapshotHash number_text snap = Ok h ∧
    compile snap at_ = Ok (Compiled (artifact_of snap h at_ t s) (bag s)).
Proof.
  intros Heq He. destruct (hash_total snap) as [h Hh]. exists h. split; [exact Hh|].
  unfold run. rewrite Heq, He, Hh. reflexivity.
Qed.

(** C4. Compiling always returns: whatever cycles the rows form, the compiler ends
    with an artifact or with diagnostics, never with a fault of its own (its
    recursion is bounded by the rows, and nothing it looks up is missing); the only
    exceptions are for an empty organization id and an instant that does not
    parse. *)
Theorem tryCompile_total (snap : OrgRoutingSnapshot) (compiledAt : string) :
  match tryCompile snap compiledAt with
  | Ok _ => organizationId snap ≠ "" ∧ is_Some (dateParse compiledAt)
  | Throw e => e = SnapshotError "organizationId" ∧ organizationId snap = "" ∨
               e = SnapshotError "compiledAt" ∧ dateParse compiledAt = None
  end.
Proof.
  unfold tryCompileRoutingArtifact, assertSnapshotShape, normaliseCompiledAt.
  destruct (organizationId snap) as [|c o] eqn:Ho; [by left|]. simpl.
  destruct (dateParse compiledAt) as [t|]; [|by right].
  destruct (tables_run snap) as (s & tb & Heq & _), (hash_total snap) as [h Hh].
  unfold run. rewrite Heq, Hh. destruct (hasErrors _); (split; [done|by eexists]).
Qed.

(** ** The artifact *)
Lemma compiled_known snap at_ art t s h i :
  art = artifact_of snap h at_ t s → tables_ok RegExp isKnownTimezone snap t s →
  i ∈ claimed s → known art i.
Proof. intros -> Hok. apply (tk_complete _ _ _ _ _ Hok). Qed.

Lemma gate_ids_known x g : (∀ i, i ∈ gate_ids g → known x i) → gate_known x g.
Proof. intros H g' id Hg Hid. apply H. by exists g'. Qed.

Section Artifact.
Context (snap : OrgRoutingSnapshot) (at_ : string) (art : RoutingArtifact) (ds : list Diagnostic).
Context (Hrun : compile snap at_ = Ok (Compiled art ds)).

Lemma compiled_closed : closed_artifact art.
Proof.
  destruct (run_Compiled _ _ _ _ Hrun) as (s & t & h & _ & Hok & _ & _ & Hart & _).
  clear Hrun.
  assert (∀ i, i ∈ claimed s → known art i) as Hk by (intros; by eapply compiled_known).
  destruct Hok as [Hsound _ Hterm Hin Hint Hout Hidx _ _ _ _ _ _]. rewrite Hart in *.
  constructor; simpl.
  - intros x y (n & Hx & Hy). destruct (sound_nodes _ _ _ Hsound x n Hx) as [_ Hr]. by apply Hk, Hr.
  - apply Hk, (Hterm CALL_REJECTED), includes_spec. by vm_compute.
  - apply Hk, (Hterm USER_BUSY), includes_spec. by vm_compute.
  - apply Hk, (Hterm NORMAL_CLEARING), includes_spec. by vm_compute.
  - intros rule Hr. split; [|apply gate_ids_known; intros i Hi]; apply Hk, Hin; left; exists rule;
      (split; [done|]); [apply elem_of_union_l, elem_of_singleton_2|apply elem_of_union_r]; done.
  - intros k did Hl. apply Hk, Hin. right; left. by exists k, did.
  - apply Hk, Hin. by right; right.
  - intros fc Hf. apply Hk, Hint. left. by exists fc.
  - intros k m Hm. split; apply Hk, Hint; right; left; exists k, m; auto.
  - intros k n Hn. apply Hk, Hint. do 2 right; left. by exists k, n.
  - intros sl Hs. apply Hk, Hint. do 3 right; left. by exists sl.
  - apply Hk, Hint. do 4 right; by left.
  - intros rule Hr. split; [|apply gate_ids_known; intros i Hi]; apply Hk, Hout; left; exists rule;
      (split; [done|]); [apply elem_of_union_l, elem_of_singleton_2|apply elem_of_union_r]; done.
  - apply Hk, Hout. do 2 right; by left.
  - apply Hk, Hout. by right; left.
  - intros k rule [Hl|Hl]; apply Hk.
    + apply Hint. do 5 right. by exists k, rule.
    + apply Hout. do 3 right. by exists k, rule.
Qed.

Lemma compiled_node_sound id n :
  nodes art !! id = Some n → ∃ t h s, tables_ok RegExp isKnownTimezone snap t s ∧
    art = artifact_of snap h at_ t s ∧
    fresh_node snap (ladder_ok RegExp snap (outbound art) (callBlock art)) id n.
Proof.
  intros Hn. destruct (run_Compiled _ _ _ _ Hrun) as (s & t & h & _ & Hok & _ & _ & Hart & _).
  clear Hrun. exists t, h, s. split_and!; [done|done|]. rewrite Hart in *.
  by apply (sound_nodes _ _ _ (tk_sound _ _ _ _ _ Hok)).
Qed.
End Artifact.

Lemma compiled_good formatToParts snap at_ art ds :
  (∀ zone now, isKnownTimezone zone = true → ∃ parts, formatToParts zone now = Ok parts) →
  compile snap at_ = Ok (Compiled art ds) → good_artifact RegExp formatToParts art.
Proof.
  intros Hzones Hrun. destruct (run_Compiled _ _ _ _ Hrun) as (s & t & h & _ & Hok & _ & _ & -> & _).
  clear Hrun. destruct Hok. constructor; [done..|]. intros k c Hc now. by eapply Hzones, tk_zones0.
Qed.

(** C3. A compiled artifact is one the resolvers cannot go wrong on: when the
    platform can format an instant in every zone it knows, then whatever number is
    dialled in whichever context, resolving returns a route with a plan over the
    nodes of the artifact, whose entry is one of them. No pattern fails to compile,
    no zone is unknown, no reference dangles. *)
Theorem compiled_resolves
    (formatToParts : string → Z → result string (list (TimeConditions.part_type * string)))
    (snap : OrgRoutingSnapshot) (at_ : string) (art : RoutingArtifact) (ds : list Diagnostic)
    (in1 : ResolveInboundInput) (in2 : ResolveInternalInput) (in3 : ResolveOutboundInput) :
  (∀ zone now, isKnownTimezone zone = true → ∃ parts, formatToParts zone now = Ok parts) →
  compile snap at_ = Ok (Compiled art ds) →
  ∃ r1 r2 r3, resolveInbound RegExp formatToParts art in1 = Ok r1 ∧
    resolveInternal RegExp formatToParts art in2 = Ok r2 ∧
    resolveOutbound RegExp formatToParts art in3 = Ok r3 ∧
    ∀ r, r ∈ [r1; r2; r3] → ∃ p node,
      plan r = Some p ∧ plan_nodes p = nodes art ∧ planNode art (entryNodeId p) = Ok node.
Proof.
  intros Hzones Hrun. pose proof (compiled_closed _ _ _ _ Hrun) as Hclosed.
  pose proof (compiled_good _ _ _ _ _ Hzones Hrun) as Hgood.
  destruct (resolveInbound_total _ _ _ Hgood in1) as [r1 H1].
  destruct (resolveInternal_total _ _ _ Hgood in2) as [r2 H2].
  destruct (resolveOutbound_total _ _ _ Hgood in3) as [r3 H3].
  exists r1, r2, r3. split_and!; [exact H1|exact H2|exact H3|]. clear Hrun. intros r Hr.
  assert (enters_known art r) as (id & Hp & [node Hnode]).
  { rewrite !elem_of_cons, elem_of_nil in Hr. destruct Hr as [->|[->|[->|[]]]];
      eauto using resolveInbound_known, resolveInternal_known, resolveOutbound_known. }
  exists (planFrom art id), node. split_and!; [exact Hp|done|]. unfold planNode. simpl. by rewrite Hnode.
Qed.

(** C7. The node table of the compiler is closed, whatever the rows say and even
    when they are refused: every node carries the id it is stored under, everything
    it refers to is in the table, and no menu refers to itself. The final check of
    the compiler therefore never has anything to report. *)
Theorem node_table_closed (snap : OrgRoutingSnapshot) :
  ∃ s t, tables snap cstate_init = (s, Ok t) ∧ assertNodeClosure s = (s, Ok tt) ∧
    ∀ id n, cnodes s !! id = Some n → node_id n = id ∧
      (∀ r, r ∈ planNodeReferences n → is_Some (cnodes s !! r)) ∧
      (is_ivr (cnodes s) id = true → id ∉ planNodeReferences n).
Proof.
  destruct (tables_run snap) as (s & t & Heq & Hok). exists s, t. split; [exact Heq|]. clear Heq.
  destruct Hok as [Hs Hc _ _ _ _ _ _ _ _ _ _ _]. split; [by eapply assertNodeClosure_silent|].
  intros id n Hn. destruct (sound_nodes _ _ _ Hs id n Hn) as [(Hid & _ & Hk) Hr]. split_and!; [done|auto|].
  unfold is_ivr. rewrite Hn. by destruct (node_body n).
Qed.

(** C6. Follow-me is not a way around the toll class: every hop of a ladder that
    rings anywhere rings an enabled extension of the organization at its own number,
    or leaves through a route that its owner's own toll class covers, on a number
    that matches the route and that outbound screening lets through, while outbound
    calling is enabled; and it then dials what the route makes of that number. *)
Theorem follow_me_within_toll_class (snap : OrgRoutingSnapshot) (at_ : string)
    (art : RoutingArtifact) (ds : list Diagnostic) (id : PlanNodeId) (node : PlanNode)
    (n : ExtensionPlanNode) (fm : FollowMePlan) :
  compile snap at_ = Ok (Compiled art ds) →
  nodes art !! id = Some node → node_body node = ExtensionNode n → ext_followMe n = Some fm →
  ∃ e, e ∈ extensions snap ∧ exi_enabled e = true ∧ ext_extensionId n = exi_id e ∧
    ∀ h, h ∈ fm_destinations fm → hop_reaches RegExp snap (outbound art) (callBlock art) e h.
Proof.
  intros Hrun Hn Hb Hfm. destruct (compiled_node_sound _ _ _ _ Hrun id node Hn) as (? & ? & ? & _ & _ & Hf).
  clear Hrun. destruct Hf as (_ & _ & Hk). rewrite Hb in Hk. by apply Hk.
Qed.

(** C5. Emergency numbers always get out: in a compiled artifact every recognised
    emergency number resolves, for every caller, from inside and through the
    outbound context alike, before any screening, toll class or switch of outbound
    calling, to the one emergency node; and that node is there, tries every trunk
    of the organization exactly once and is not recorded. It goes on to the next trunk
    on exactly the causes of [EMERGENCY_CONTINUE_ON_CAUSES]: every cause an ordinary
    call is retried on, with the one exception of [INTERWORKING], and also on a busy or
    a rejecting trunk; not when the call ended normally or the caller gave up. *)
Theorem emergency_always_routed
    (formatToParts : string → Z → result string (list (TimeConditions.part_type * string)))
    (snap : OrgRoutingSnapshot) (at_ : string) (art : RoutingArtifact) (ds : list Diagnostic)
    (seed : Emergency.EmergencyNumberSeed) :
  compile snap at_ = Ok (Compiled art ds) →
  seed ∈ Emergency.emergencyNumbers (rsi_emergencyNumbers (settings_input snap)) →
  (∃ rule, em_number rule = Emergency.number seed ∧
     em_destinationNodeId rule = Emergency.EMERGENCY_NODE_ID ∧
     (∀ from now, resolveInternal RegExp formatToParts art
        {| ii_from := from; ii_dialed := Emergency.dialed seed; ii_now := now |} =
        Ok (resolveEmergency art rule ctx_internal from)) ∧
     (∀ from now tc, resolveOutbound RegExp formatToParts art
        {| oi_from := from; oi_dialed := Emergency.dialed seed; oi_now := now; oi_tollClass := tc |} =
        Ok (resolveEmergency art rule ctx_outbound from))) ∧
  (∃ node, nodes art !! Emergency.EMERGENCY_NODE_ID = Some node ∧ emergency_node snap node) ∧
  NoDup (trunkId <$> emergencyTrunkAttempts snap (index snap)) ∧
  (∀ id, id ∈ trunkId <$> emergencyTrunkAttempts snap (index snap) ↔ id ∈ tki_id <$> trunks snap) ∧
  (∀ cause, isRetryableCause cause = true → cause ≠ INTERWORKING →
     includes Emergency.EMERGENCY_CONTINUE_ON_CAUSES cause = true) ∧
  (includes Emergency.EMERGENCY_CONTINUE_ON_CAUSES <$>
     [USER_BUSY; CALL_REJECTED; INTERWORKING; NORMAL_CLEARING; ORIGINATOR_CANCEL]) =
    [true; true; false; false; false].
Proof.
  intros Hrun Hseed. split_and!; [| |apply emergency_trunks|apply emergency_trunks| |done].
  3: { intros cause Hc Hi. destruct (includes _ cause) eqn:E; [done|].
       by destruct Hi; apply Emergency.emergency_continues_on_retryable. }
  - destruct (run_Compiled _ _ _ _ Hrun) as (s & t & h & _ & Hok & _ & _ & -> & _). clear Hrun.
    destruct (tk_emergency _ _ _ _ _ Hok) as (_ & em & Hem & Hin & Hout).
    destruct (compileEmergency_lookup snap em seed Hem Hseed) as (rule & Hl & Hn & Hd).
    exists rule. split_and!; [done|done|..]; intros; unfold resolveInternal, resolveOutbound; simpl;
      rewrite ?Hin, ?Hout, nonempty_table_lookup, Hl; done.
  - pose proof (compiled_closed _ _ _ _ Hrun) as Hclosed.
    destruct (run_Compiled _ _ _ _ Hrun) as (s & t & h & _ & Hok & _ & _ & Hart & _).
    destruct (tk_emergency _ _ _ _ _ Hok) as [Hc _].
    destruct (tk_complete _ _ _ _ _ Hok _ Hc) as [node Hn]. exists node.
    assert (nodes art !! Emergency.EMERGENCY_NODE_ID = Some node) as Hn' by (by rewrite Hart).
    split; [exact Hn'|]. destruct (compiled_node_sound _ _ _ _ Hrun _ _ Hn') as (? & ? & ? & _ & _ & Hf).
    clear Hrun. destruct Hf as (_ & Hf & _). by apply Hf.
Qed.

(** Nobody loses their number: when the rows compile, every enabled extension,
    ring group, menu, queue and conference that has an internal number is what the
    internal table answers at that number, and with the node the entity was compiled
    to. Two entities with one number are therefore never accepted. *)
Theorem internal_numbers_complete (snap : OrgRoutingSnapshot) (at_ : string)
    (art : RoutingArtifact) (ds : list Diagnostic) :
  compile snap at_ = Ok (Compiled art ds) → entities_in snap (numbers (internal art)).
Proof.
  intros Hrun. destruct (run_Compiled _ _ _ _ Hrun) as (s & t & h & _ & Hok & _ & He & -> & _). clear Hrun.
  destruct (tk_numbers _ _ _ _ _ Hok) as [He'|Hin]; [by rewrite He in He'|done].
Qed.
End Run.

(** C35. The search for menus that lead back to themselves ends on every node table,
    and the compiler warns exactly when some menu can reach itself through menus. *)
Theorem detectIvrCycles_exact (st : CState) :
  ∃ ds, detectIvrCycles st =
    ({| bag := bag st ++ ds; cnodes := cnodes st; claimed := claimed st;
        internalNumbers := internalNumbers st |}, Ok tt) ∧
    (ds ≠ [] ↔ ∃ x, tc (IvrCycles.menu_edge (cnodes st)) x x).
Proof.
  destruct (IvrCycles.ivr_cycles_spec (cnodes st)) as (v & Hv & Hc). exists (cycles v).
  split; [|exact Hc]. unfold detectIvrCycles, mbind, method_bind, gets. by rewrite Hv.
Qed.
(** ** An organization *)
Definition no_destination : NamedDestination :=
  {| named_type := Null; named_ref := Null; named_data := Null |}.

Definition demo_extension (id number : string) (follow : nullable FollowMeInput) : ExtensionInput :=
  {| exi_id := id; exi_enabled := true; exi_number := number; exi_label := "desk " +:+ number;
     exi_callerIdName := Null; exi_callerIdNumber := Null; exi_outboundCallerIdName := Null;
     exi_outboundCallerIdNumber := Null; exi_emergencyCallerIdNumber := Null;
     exi_voicemailEnabled := false; exi_doNotDisturb := false; exi_forwardAllEnabled := false;
     exi_forwardAllDestination := Null; exi_forwardBusyEnabled := true;
     exi_forwardBusyDestination := Value "1002"; exi_forwardNoAnswerEnabled := false;
     exi_forwardNoAnswerDestination := Null; exi_forwardUnregisteredEnabled := false;
     exi_forwardUnregisteredDestination := Null; exi_followMe := follow; exi_pickupGroup := Null;
     exi_recordPolicy := rec_none; exi_mohClassId := Null; exi_tollClass := toll_national;
     exi_callTimeoutSeconds := 20%Z |}.

Definition demo_hop (number : string) : FollowMeTargetInput :=
  {| fmt_destination := Some number; fmt_delaySeconds := None; fmt_timeoutSeconds := None;
     fmt_confirm := None |}.

Definition demo_route : OutboundRouteInput :=
  {| ori_id := "route-1"; ori_enabled := true; ori_name := "national"; ori_priority := 10%Z;
     ori_matchKind := Patterns.match_prefix; ori_dialPatterns := ["1555"]; ori_stripDigits := 1%Z;
     ori_prependDigits := Value "9"; ori_tollClass := toll_national;
     ori_trunkPriority := [ {| tpi_trunkId := "b"; tpi_order := 1%Z; tpi_weight := None |} ];
     ori_timeConditionId := Null; ori_failover := no_destination;
     ori_callerIdNumberOverride := Null; ori_recordEnabled := false |}.

Definition demo_did : PhoneNumberInput :=
  {| pni_id := "did-1"; pni_enabled := true;
     pni_destination := {| destinationType := "extension"; destinationRef := Value "e1";
                           destinationData := Null |};
     pni_e164 := "+15550100"; pni_label := Null; pni_callerIdNamePrefix := Null;
     pni_recordEnabled := false; pni_voiceEnabled := true; pni_emergencyAddressId := Value "addr-1" |}.

(** Two extensions, one of which follows its owner to the other and to a mobile; a
    number whose emergency address is one of [addresses]. *)
Definition demo_rows (addresses : option (list EmergencyAddressInput)) : OrgRoutingSnapshot :=
  {| organizationId := "org-1"; snap_settings := None;
     extensions :=
       [ demo_extension "e1" "1001" (Value {| fmi_enabled := true; fmi_ignoreBusy := None;
           fmi_targets := Some [demo_hop "1002"; demo_hop "15550199"] |});
         demo_extension "e2" "1002" Null ];
     phoneNumbers := [demo_did]; trunks := Cache.demo_trunk <$> ["b"; "a"]; inboundRoutes := [];
     outboundRoutes := [demo_route]; snap_timeConditions := []; timeConditionRules := [];
     ivrMenus := []; ivrMenuOptions := []; ringGroups := []; ringGroupDestinations := [];
     queues := []; voicemailBoxes := []; voicemailGreetings := None; mohClasses := None;
     conferences := []; parkLots := []; snap_featureCodes := []; callBlockRules := [];
     emergencyAddresses := addresses |}.

Definition demo_time : string := "2026-01-01T00:00:00.000Z".

Definition demo_compile (addresses : option (list EmergencyAddressInput)) :=
  run no_regex (λ _ _, 0%Z) (λ _, true) Json.rational_text (demo_rows addresses) demo_time.

Definition demo_tables (addresses : option (list EmergencyAddressInput)) :=
  compile_tables no_regex (λ _ _, 0%Z) (λ _, true) (demo_rows addresses) cstate_init.

Lemma demo_compiled addresses :
  match demo_tables addresses with (s, Ok _) => negb (hasErrors (bag s)) | _ => false end = true →
  ∃ t h, Cache.snapshotHash Json.rational_text (demo_rows addresses) = Ok h ∧
    demo_compile addresses =
      Ok (Compiled (artifact_of (demo_rows addresses) h demo_time t (demo_tables addresses).1)
            (bag (demo_tables addresses).1)).
Proof.
  intros Hok. destruct (demo_tables addresses) as [s [t|f]] eqn:Ht; [|done].
  apply negb_true_iff in Hok.
  destruct (run_tables no_regex (λ _ _, 0%Z) (λ _, true) Json.rational_text _ demo_time s t Ht Hok)
    as (h & Hh & Hc). exists t, h. split; [exact Hh|exact Hc].
Qed.

Lemma demo_None : ∃ t h, Cache.snapshotHash Json.rational_text (demo_rows None) = Ok h ∧
  demo_compile None = Ok (Compiled (artifact_of (demo_rows None) h demo_time t (demo_tables None).1)
    (bag (demo_tables None).1)).
Proof. apply demo_compiled. vm_compute. reflexivity. Qed.

Lemma artifact_fresh number_text snap h :
  Cache.snapshotHash number_text snap = Ok h →
  Cache.isArtifactFresh number_text (organizationId snap) h snap = Ok true.
Proof.
  intros Hh. unfold Cache.isArtifactFresh. rewrite Hh. by rewrite !bool_decide_true by reflexivity.
Qed.

(** The hash of a snapshot does not determine its artifact: a snapshot that
    leaves out its emergency addresses and one that lists none have the same content
    hash, and each is fresh for the other's artifact, but the compiler trusts the
    address of a number in the first and drops it in the second, so that emergency
    calls carry a location in one artifact and none in the other. *)
Theorem same_hash_different_artifact :
  ∃ snap1 snap2 art1 art2 ds1 ds2 n1 n2,
    let compile snap := run no_regex (λ _ _, 0%Z) (λ _, true) Json.rational_text snap demo_time in
    compile snap1 = Ok (Compiled art1 ds1) ∧ compile snap2 = Ok (Compiled art2 ds2) ∧
    Resolve.snapshotHash art1 = Resolve.snapshotHash art2 ∧
    Cache.isArtifactFresh Json.rational_text (art_organizationId art1) (Resolve.snapshotHash art1) snap2
      = Ok true ∧
    nodes art1 !! Emergency.EMERGENCY_NODE_ID = Some n1 ∧
    nodes art2 !! Emergency.EMERGENCY_NODE_ID = Some n2 ∧
    (∃ d, node_body n1 = TrunkDialNode d ∧ td_elin d = Some "+15550100") ∧
    (∃ d, node_body n2 = TrunkDialNode d ∧ td_elin d = None).
Proof.
  destruct demo_None as (t1 & h1 & Hh1 & H1).
  destruct (demo_compiled (Some [])) as (t2 & h2 & Hh2 & H2); [vm_compute; reflexivity|].
  assert (Cache.snapshotHash Json.rational_text (demo_rows None) =
          Cache.snapshotHash Json.rational_text (demo_rows (Some []))) as Hsame by reflexivity.
  assert (h1 = h2) as <- by (rewrite Hh1, Hh2 in Hsame; by injection Hsame).
  eexists _, _, _, _, _, _, _, _. cbv zeta.
  split; [exact H1|]. split; [exact H2|]. split; [exact (eq_refl h1)|].
  split; [exact (artifact_fresh _ _ _ Hh2)|].
  split; [vm_compute; reflexivity|]. split; [vm_compute; reflexivity|].
  split; eexists; split; reflexivity.
Qed.

(** ** Witnesses *)
Lemma compiled_resolves_witness :
  ∃ art ds, demo_compile None = Ok (Compiled art ds) ∧
    ∃ r, resolveInternal no_regex (λ _ _, Ok []) art
           {| ii_from := "1002"; ii_dialed := "1001"; ii_now := 0 |} = Ok r ∧ is_Some (plan r).
Proof.
  destruct demo_None as (t & h & _ & Hc). eexists _, _. split; [exact Hc|].
  destruct (compiled_resolves no_regex (λ _ _, 0%Z) (λ _, true) Json.rational_text (λ _ _, Ok []) _ _ _ _
    {| ri_did := "+15550100"; ri_callerNumber := None; ri_callerName := None; ri_now := 0 |}
    {| ii_from := "1002"; ii_dialed := "1001"; ii_now := 0 |}
    {| oi_from := "1001"; oi_dialed := "15550199"; oi_now := 0; oi_tollClass := None |}
    (λ zone now _, ex_intro _ [] eq_refl) Hc) as (r1 & r2 & r3 & _ & H2 & _ & Hr).
  exists r2. split; [exact H2|].
  destruct (Hr r2 (list_elem_of_further _ _ _ (list_elem_of_here _ _))) as (p & node & Hp & _).
  exists p. exact Hp.
Defined.

Lemma demo_ladder : ∃ node n fm, cnodes (demo_tables None).1 !! "extension:e1" = Some node ∧
  node_body node = ExtensionNode n ∧ ext_followMe n = Some fm ∧
  hop_targetNodeId <$> fm_destinations fm = [Some "extension:e2"; Some "trunk-dial:route-1"].
Proof. eexists _, _, _. split; [vm_compute; reflexivity|]. split_and!; reflexivity. Qed.

Lemma follow_me_witness :
  ∃ art ds fm e, demo_compile None = Ok (Compiled art ds) ∧
    hop_targetNodeId <$> fm_destinations fm = [Some "extension:e2"; Some "trunk-dial:route-1"] ∧
    ∀ h, h ∈ fm_destinations fm →
      hop_reaches no_regex (demo_rows None) (outbound art) (callBlock art) e h.
Proof.
  destruct demo_None as (t & h & _ & Hc). destruct demo_ladder as (node & n & fm & Hn & Hb & Hfm & Hh).
  destruct (follow_me_within_toll_class no_regex (λ _ _, 0%Z) (λ _, true) Json.rational_text _ _ _ _
    "extension:e1" node n fm Hc Hn Hb Hfm) as (e & _ & _ & _ & He).
  eexists _, _, fm, e. split; [exact Hc|]. split; [exact Hh|]. exact He.
Defined.

Lemma emergency_always_witness :
  ∃ art ds, demo_compile None = Ok (Compiled art ds) ∧
    trunkId <$> emergencyTrunkAttempts (demo_rows None) (index (demo_rows None)) = ["b"; "a"] ∧
    ∃ rule, resolveInternal no_regex no_zones art
      {| ii_from := "1001"; ii_dialed := "9911"; ii_now := 0 |} =
      Ok (resolveEmergency art rule ctx_internal "1001").
Proof.
  destruct demo_None as (t & h & _ & Hc). eexists _, _. split; [exact Hc|].
  split; [vm_compute; reflexivity|].
  destruct (emergency_always_routed no_regex (λ _ _, 0%Z) (λ _, true) Json.rational_text no_zones _ _ _ _
    {| Emergency.dialed := "9911"; Emergency.number := "911" |} Hc) as [(rule & _ & _ & Hr & _) _].
  { apply elem_of_js_sort. vm_compute. apply list_elem_of_further, list_elem_of_further, list_elem_of_here. }
  exists rule. apply Hr.
Defined.

Lemma internal_numbers_witness :
  ∃ art ds, demo_compile None = Ok (Compiled art ds) ∧
    num_nodeId <$> numbers (internal art) !! "1002" = Some "extension:e2".
Proof.
  destruct demo_None as (t & h & _ & Hc). eexists _, _. split; [exact Hc|].
  pose proof (internal_numbers_complete no_regex (λ _ _, 0%Z) (λ _, true) Json.rational_text _ _ _ _ Hc)
    as [Hx _ _ _ _].
  rewrite (Hx (demo_extension "e2" "1002" Null) "1002");
    [reflexivity|apply list_elem_of_further, list_elem_of_here|reflexivity|reflexivity].
Defined.
End Compiled.
