(* ===== verification/PlanWalker.v ===== *)
(** * The plan walker

    [apps/engine/src/routing/plan-walker.ts]: the execution of a plan on one live
    call. The walker talks to the media server, the call's channel, the registries
    and the backbone through ports; the class [WalkerWorld] is those ports over an
    arbitrary world, so that the theorems hold for whatever they answer, and an
    awaited port may throw. What the walk does is appended to [trace]; the lines it
    notes are values of [Note]. A wait is a schedule of events that the world
    supplies: for a dial, the schedule of the machines of Dial.v. *)

From S2P Require Import Prelude HangupCauses ChannelState Dtmf Patterns TimeConditions FeatureCodes.
From S2P Require Import Plan Resolve Trunks Agents Queue QueueSession ConferenceRegistry MediaRefs Dial.

Module PlanWalker.
Import MediaRefs Dial Plan FeatureCodes.

(** ** Data *)
Record PlanWalkerSettings := {
  application : string;
  extensionDialTemplate : string;
  trunkDialTemplate : string;
  defaultRingTimeoutSeconds : Z;
  progressTimeoutSeconds : Z;
  answerTimeoutMs : Z;
  maxPlanSteps : nat;
  recordingFormat : string;
  voicemailGreeting : string;
  unavailableAnnouncement : string;
  voicemailPinPrompt : string;
  voicemailPinInvalidPrompt : string;
  voicemailPinAttempts : nat;
  voicemailPinMaxDigits : Z;
  voicemailPinTimeoutMs : Z;
  voicemailPinInterDigitTimeoutMs : Z;
  voicemailMenuTimeoutMs : Z;
  voicemailMaxReplays : nat;
  conferencePinPrompt : string;
  conferencePinInvalidPrompt : string;
  conferencePinAttempts : nat;
  conferencePinMaxDigits : Z;
  conferencePinTimeoutMs : Z;
  conferencePinInterDigitTimeoutMs : Z;
  conferenceFullAnnouncement : string;
  conferenceModeratorWaitMs : Z;
  conferenceClaimPollMs : Z;
  confirmPrompt : string;
  confirmAcceptDigit : string;
  confirmAttempts : Z;
  confirmTimeoutMs : Z;
  mediaRefs : MediaRefSettings }.

Definition DEFAULT_PLAN_WALKER_SETTINGS : PlanWalkerSettings := {|
  application := "optimiq-engine";
  extensionDialTemplate := "PJSIP/{number}";
  trunkDialTemplate := "PJSIP/{number}@{trunk}";
  defaultRingTimeoutSeconds := 30;
  progressTimeoutSeconds := 0;
  answerTimeoutMs := 10000;
  maxPlanSteps := 64;
  recordingFormat := "wav";
  voicemailGreeting := "sound:unavailable";
  unavailableAnnouncement := "sound:unavailable";
  voicemailPinPrompt := "sound:vm-password";
  voicemailPinInvalidPrompt := "sound:vm-incorrect";
  voicemailPinAttempts := 3;
  voicemailPinMaxDigits := 10;
  voicemailPinTimeoutMs := 10000;
  voicemailPinInterDigitTimeoutMs := 3000;
  voicemailMenuTimeoutMs := 5000;
  voicemailMaxReplays := 3;
  conferencePinPrompt := "sound:conf-getpin";
  conferencePinInvalidPrompt := "sound:conf-invalidpin";
  conferencePinAttempts := 3;
  conferencePinMaxDigits := 10;
  conferencePinTimeoutMs := 10000;
  conferencePinInterDigitTimeoutMs := 3000;
  conferenceFullAnnouncement := "sound:conf-locked";
  conferenceModeratorWaitMs := 600000;
  conferenceClaimPollMs := 2000;
  confirmPrompt := "sound:screen-callee-options";
  confirmAcceptDigit := "1";
  confirmAttempts := 2;
  confirmTimeoutMs := 15000;
  mediaRefs := DEFAULT_MEDIA_REF_SETTINGS |}.

(** The verbs a walk executes. *)
Inductive Verb :=
| VAnswer
| VRinging
| VPlay (media : string)
| VGather (maxDigits : Z) (terminators : list string) (timeoutMs interDigitTimeoutMs : Z)
    (media : option string)
| VHangup (cause : HangupCause).

Inductive VerbResult :=
| GatherResult (collection : Dtmf.DtmfCollection)
| OtherResult.

Record VoicemailMessage := {
  vmsg_voicemailBoxId : string;
  vmsg_mailboxNumber : string;
  vmsg_messageId : string;
  vmsg_recordingId : string;
  vmsg_objectKey : string;
  vmsg_durationMs : Z;
  vmsg_mwiEnabled : bool;
  vmsg_callerIdNumber : option string;
  vmsg_callerIdName : option string }.

Record VoicemailListingRequest := {
  vreq_organizationId : string;
  vreq_voicemailBoxId : string;
  vreq_mailboxNumber : string;
  vreq_callId : option string }.

Record VoicemailListingMessage := {
  vlist_messageId : string;
  vlist_media : string;
  vlist_durationMs : Z;
  vlist_receivedAt : string }.

Record VoicemailListing := {
  vl_found : bool;
  vl_messages : list VoicemailListingMessage;
  vl_reason : option string }.

Inductive PickupKind := pickup_directed | pickup_group.

(** The answer of the call-control runtime. *)
Record ControlOutcome := { co_ok : bool; co_slot : option Z; co_reason : option string }.

Inductive RecordingReason := rec_completed | rec_cancelled | rec_failed.

#[global] Instance RecordingReason_eq_dec : EqDecision RecordingReason.
Proof. solve_decision. Defined.

Inductive RecordingSignal :=
| RecordingStarted
| RecordingFinished (durationMs : Z)
| RecordingFailed (reason : string).

(** The events a walk publishes. *)
Inductive WalkEvent :=
| EvBridged (legId peerLegId bridgeId : string)
| EvUnbridged (legId peerLegId bridgeId : string)
| EvEmergencyDialed (legId dialed number : string) (callerNumber callerName elin emergencyAddressId trunkName : option string)
| EvConferenceJoined (legId conferenceId roomNumber bridgeId : string) (moderator : bool) (memberCount : Z)
| EvConferenceLeft (legId conferenceId roomNumber bridgeId : string) (moderator : bool) (memberCount durationMs : Z)
| EvRecordStarted (legId recordingId objectKey : string)
| EvRecordStopped (legId recordingId objectKey : string) (durationMs : Z) (why : RecordingReason).

(** What a walk does to the world. *)
Inductive Action :=
| ActLeg (a : LegAction)
| ActVerb (v : Verb)
| ActPublish (e : WalkEvent)
| ActMoveTo (state : ChannelState)
| ActSetBridge (bridgeId : option string)
| ActDestination (d : PlanDestination)
| ActBeforeBridge (bridgeId : string)
| ActCreateBridge (bridgeId name : string)
| ActAddToBridge (bridgeId : string) (mediaChannelIds : list string)
| ActDestroyBridge (bridgeId : string)
| ActLegBridged (mediaChannelId bridgeId : string)
| ActWatchPeer (mediaChannelId bridgeId : string) (agentId : option string)
| ActWatchMember (conferenceId bridgeId : string) (joinedAtMs : Z) (moderator : bool)
| ActStartMusic (mohClass : option string)
| ActStopMusic
| ActRecord (name format : string) (maxDurationSeconds maxSilenceSeconds : Z)
| ActMessageLeft (message : VoicemailMessage)
| ActListMailbox (request : VoicemailListingRequest)
| ActPark (parkLotId : string) (orbit : option string) (timeoutMs : option Z) (mohClass : option string)
| ActUnpark (parkLotId orbit : string)
| ActPickup (kind : PickupKind) (extension : string)
| ActReserve (trunkId : string) (maxChannels : option Z) (answer : option Trunks.TrunkReservation)
| ActBindTo (reservation : Trunks.TrunkReservation) (mediaChannelId : string)
| ActRelease (reservation : Trunks.TrunkReservation)
| ActJoin (conferenceId : string) (moderator : bool)
    (answer : result string ConferenceRegistry.ConferenceJoinResult)
| ActLeave (conferenceId : string)
| ActHold (conferenceId : string)
| ActRefresh (conferenceId : string)
| ActDelay (ms : Z)
| ActQueue (a : QueueSession.Action).

(** The lines a walk notes. *)
Inductive Note :=
| NoteMissingNode (nodeId : string)
| NoteNodeFailed (nodeId error : string)
| NoteExhausted (steps : nat)
| NoteNotImplemented
| NoteNothingToPlay (nodeId : string)
| NoteTimeConditionMissing (timeConditionId : string)
| NoteFeatureCode (code : string) (action : FeatureCodeAction)
| NoteNoControl
| NoteNeedsExtension (code : string)
| NotePickedUp (kind : PickupKind) (extension : string)
| NotePickupRefused (why : option string)
| NoteParked (slot : option Z) (parkLotId : string)
| NoteParkRefused (why : option string)
| NoteRetrieved (orbit : string)
| NoteRetrieveRefused (orbit : string) (why : option string)
| NoteDirectDial (ivrMenuId digits : string)
| NoteNoHop (number : string)
| NoteHopSkipped (destination number : string)
| NoteMemberSkipped (ringGroupId targetNodeId : string)
| NoteNoMembers (ringGroupId : string)
| NoteDial (n : DialNote)
| NoteNoNumber (nodeId : string)
| NoteNoTrunks (nodeId : string)
| NoteTrunkFull (name : string)
| NoteEmergency (number : string) (elin emergencyAddressId : option string)
| NoteEmergencyUnpublished (number : string)
| NoteOutboundRouting (nodeId : string)
| NoteNoConferences
| NoteConferenceFull (roomNumber : string)
| NoteConferenceUnclaimed (roomNumber : string)
| NoteConferenceFailed (roomNumber error : string)
| NoteConferenceRecording (roomNumber : string)
| NoteConferencePin (roomNumber : string)
| NoteConferenceDigest (roomNumber : string) (failure : VoicemailPinFailure)
| NoteHeld (roomNumber : string)
| NoteNoModerator (roomNumber : string)
| NoteRecordRefused (error : string)
| NoteRecordingFailed (name why : string)
| NoteNoAudio (recordingId : string)
| NoteGreetingUnplayable (mailboxNumber : string)
| NoteNotFiled (recordingId : string)
| NoteFileFailed (recordingId error : string)
| NoteNoMailbox
| NoteMailboxDigest (mailbox : string) (failure : VoicemailPinFailure)
| NoteMailboxPin (mailbox : string)
| NoteNoMailboxSource (mailbox : string)
| NoteListingFailed (mailbox error : string)
| NoteMailboxUnreadable (mailbox : string) (why : option string)
| NoteMailboxEmpty (mailbox : string)
| NoteMessageSkipped (messageId : string)
| NoteMailboxPlayed (mailbox : string)
| NoteNoQueue (queueId : string)
| NoteMusicFailed (error : string)
| NoteBridgingFailed (error : string).

Record WalkInput := {
  plan : ExecutionPlan;
  in_timeConditions : gmap string TimeConditions.CompiledTimeCondition;
  in_now : option Z;
  dialedNumber : option string;
  originalDialedNumber : option string;
  in_callerIdNumber : option string;
  in_callerIdName : option string;
  featureArgument : option string;
  in_mailboxes : gmap string Resolve.MailboxEntry }.

Inductive WalkStatus := walk_bridged | walk_hangup | walk_aborted | walk_exhausted.

Record Walker := {
  notes : list Note;
  visited : list PlanNodeId;
  destination : option PlanDestination;
  trace : list Action }.

Definition walker_init : Walker :=
  {| notes := []; visited := []; destination := None; trace := [] |}.

Record WalkOutcome := {
  status : WalkStatus;
  hangupCause : option HangupCause;
  out_destination : option PlanDestination;
  out_visited : list PlanNodeId;
  out_notes : list Note }.

Inductive StepResult :=
| Goto (nodeId : PlanNodeId)
| Hangup (cause : HangupCause)
| Bridged
| StepAborted.

(** ** The ports

    [ww_unit] answers an awaited call with no result and [ww_sync] is a call that is
    not awaited. [ww_answerSignals] are the signals of the caller's leg until the
    answer timer, [ww_recording] those of a recording until its timer, [ww_hold]
    whether the caller hung up while held; [ww_one] and [ww_race] the events of a
    dial with the moment its last timer fires. [ww_queue...] are the ports of a
    queue session that are not the walker's own. *)
Class WalkerWorld (W : Type) := {
  ww_now : W → Z;
  ww_tearingDown : W → bool;
  ww_answered : W → bool;
  ww_detached : W → bool;
  ww_callerIdNumber : W → option string;
  ww_callerIdName : W → option string;
  ww_random : W → W * list Z;
  ww_newId : W → W * string;
  ww_sync : W → Action → W;
  ww_unit : W → Action → W * result string unit;
  ww_verb : W → Verb → W * result string (option VerbResult);
  ww_answerSignals : W → W * list LegSignal;
  ww_recording : W → W * list RecordingSignal;
  ww_hold : W → W * bool;
  ww_one : W → DialAttempt → string → W * (list (Moment * OneEvent) * Moment);
  ww_race : W → list (DialAttempt * string) → W * (list (Moment * RaceEvent) * Moment);
  ww_control : W → Action → W * result string ControlOutcome;
  ww_reserve : W → string → option Z → W * option Trunks.TrunkReservation;
  ww_join : W → string → ConferenceRegistry.ConferenceMember → string → Z →
    W * result string ConferenceRegistry.ConferenceJoinResult;
  ww_leave : W → string → W * result string ConferenceRegistry.ConferenceDeparture;
  ww_room : W → string → option ConferenceRegistry.ConferenceRoom;
  ww_refresh : W → string → W * result string bool;
  ww_list : W → VoicemailListingRequest → W * result string VoicemailListing;
  ww_queueRandom : W → nat → Z;
  ww_queueCursor : W → option string;
  ww_queuePosition : W → Z;
  ww_queueDone : W → list string;
  ww_queueUnit : W → QueueSession.Action → W * result string unit;
  ww_queueJoin : W → W * Z;
  ww_queueMembership : W → W * result string (option Queue.QueueMembership);
  ww_queueStates : W → list string → W * result string (gmap string Agents.AgentStateEntry);
  ww_queueReserve : W → Agents.AgentTransitionRequest → Z → W * result string (option Agents.AgentStateEntry);
  ww_queueTransition : W → Agents.AgentTransitionRequest → W * result string (option Agents.AgentStateEntry);
  ww_queueReadState : W → string → W * result string Agents.VersionedAgentStateRead;
  ww_queueRetry : W → Agents.AgentTransitionRequest → W * result string bool }.

(** What does not change during a walk: the settings, the call, and which of the
    optional collaborators there are. *)
Record WalkerConfig := {
  settings : PlanWalkerSettings;
  mediaChannelId : string;
  channelId : string;
  callId : string;
  organizationId : string;
  peerLegId : string → option string;
  has_voicemail : bool;
  has_mailbox : bool;
  has_queue : bool;
  has_conferences : bool;
  has_control : bool;
  has_trunkCapacity : bool;
  queue_pollIntervalMs : Z;
  queue_agentRingTimeoutSeconds : option Z }.

(** ** Text *)

(** [s.replaceAll(pattern, value)] *)
Definition replace_all (s pattern value : string) : string :=
  Resolve.replaceAll (String.length s) s pattern value.

Definition quote_char : string := String (Ascii.ascii_of_nat 34) EmptyString.

Definition blank (s : option string) : bool :=
  match s with None => true | Some s => bool_decide (s = "") end.

(** The name in quotes, then the number in angle brackets. *)
Definition composeCallerId (name number : option string) : option string :=
  let trimmedName := trim <$> name in
  let trimmedNumber := trim <$> number in
  if blank trimmedNumber then
    if blank trimmedName then None
    else Some (quote_char +:+ default "" trimmedName +:+ quote_char)
  else if blank trimmedName then trimmedNumber
  else Some (quote_char +:+ default "" trimmedName +:+ quote_char +:+ " <" +:+ default "" trimmedNumber +:+ ">").

Definition collectionOf (r : VerbResult) : option Dtmf.DtmfCollection :=
  match r with GatherResult c => Some c | OtherResult => None end.

(** [collection?.digits.join("") ?? ""] *)
Definition digits_of (r : VerbResult) : string :=
  match collectionOf r with Some c => Dtmf.formatDtmfDigits (Dtmf.coll_digits c) | None => "" end.

Definition ended_by_hangup (r : VerbResult) : bool :=
  match collectionOf r with
  | Some c => bool_decide (Dtmf.endReason c = Dtmf.hung_up)
  | None => false
  end.

(** [a || b || c] of seconds. *)
Definition or_else (a b : Z) : Z := if (a =? 0)%Z then b else a.

Definition followMeOverallTimeout (attempts : list DialAttempt) : Z :=
  foldl (λ longest a, Z.max longest (delaySeconds a + timeoutSeconds a))%Z 1%Z attempts.

Definition branch (nodeId : option PlanNodeId) (cause : HangupCause) : StepResult :=
  match nodeId with None => Hangup cause | Some n => Goto n end.

Section Walker.
Context (RegExp : string → result string Patterns.exec_fun).
Context (formatToParts : string → Z → result string (list (TimeConditions.part_type * string))).
Context (kdf : Kdf) (dateParse : string → option Z).
Context {W : Type} `{!WalkerWorld W} (cfg : WalkerConfig).

(** ** Effects *)
Definition M (A : Type) : Type := Walker * W → (Walker * W) * result string A.

#[global] Instance M_ret : MRet M := λ A a st, (st, Ok a).

#[global] Instance M_bind : MBind M := λ A B k m st,
  match m st with
  | (st', Ok a) => k a st'
  | (st', Throw e) => (st', Throw e)
  end.

Definition throw {A} (e : string) : M A := λ st, (st, Throw e).

Definition try_catch {A} (body : M A) (handler : string → M A) : M A := λ st,
  match body st with
  | (st', Ok a) => (st', Ok a)
  | (st', Throw e) => handler e st'
  end.

(** The result of a body, thrown or not. *)
Definition attempting {A} (body : M A) : M (result string A) := λ st,
  let '(st', r) := body st in (st', Ok r).

Definition log (acts : list Action) (s : Walker) : Walker :=
  {| notes := notes s; visited := visited s; destination := destination s; trace := trace s ++ acts |}.

(** A getter of the world. *)
Definition reads {A} (f : W → A) : M A := λ '(s, w), ((s, w), Ok (f w)).

Definition get_destination : M (option PlanDestination) := λ '(s, w), ((s, w), Ok (destination s)).

(** An awaited call. *)
Definition port {A} (a : Action) (op : W → W * result string A) : M A := λ '(s, w),
  let '(w', r) := op w in ((log [a] s, w'), r).

(** An awaited call that is logged with its answer. *)
Definition port_ans {A} (a : result string A → Action) (op : W → W * result string A) : M A := λ '(s, w),
  let '(w', r) := op w in ((log [a r] s, w'), r).

Definition call (a : Action) : M unit := port a (λ w, ww_unit w a).

(** A call that is not awaited. *)
Definition act (a : Action) : M unit := λ '(s, w), ((log [a] s, ww_sync w a), Ok tt).

(** A question to the world that is not a call. *)
Definition ask {A} (op : W → W * A) : M A := λ '(s, w), let '(w', a) := op w in ((s, w'), Ok a).

Definition note (n : Note) : M unit := λ '(s, w),
  (({| notes := notes s ++ [n]; visited := visited s; destination := destination s; trace := trace s |}, w), Ok tt).

Definition visit (nodeId : PlanNodeId) : M unit := λ '(s, w),
  (({| notes := notes s; visited := visited s ++ [nodeId]; destination := destination s; trace := trace s |}, w), Ok tt).

Definition set_destination (d : PlanDestination) : M unit := λ '(s, w),
  (({| notes := notes s; visited := visited s; destination := Some d; trace := trace s |}, w), Ok tt).

Definition newId : M string := ask ww_newId.
Definition isTearingDown : M bool := reads ww_tearingDown.

(** [abandoned] *)
Definition abandoned : M bool := reads (λ w, ww_tearingDown w || ww_detached w).

Definition execute (v : Verb) : M (option VerbResult) := port (ActVerb v) (λ w, ww_verb w v).

(** An executed verb whose result is not read. *)
Definition execute_ (v : Verb) : M unit := _ ← execute v; mret tt.

Notation set := (settings cfg).

(** ** Helpers *)
Definition resolving (signal : LegSignal) : bool :=
  match signal with SigAnswered | SigEnded _ _ => true | _ => false end.

(** The first signal that resolves the wait, else the state when the timer fires. *)
Definition answered_of (signals : list LegSignal) : option bool :=
  match find_first resolving signals with
  | None => None
  | Some SigAnswered => Some true
  | Some _ => Some false
  end.

Definition ensureAnswered : M bool :=
  answered ← reads ww_answered;
  if (answered : bool) then mret true
  else
    tearing ← isTearingDown;
    if (tearing : bool) then mret false
    else
      _ ← act (ActLeg (ActArm AnswerTimer (answerTimeoutMs set)));
      result ← execute VAnswer;
      match (result : option VerbResult) with
      | None => mret false
      | Some _ =>
          signals ← ask ww_answerSignals;
          up ← reads ww_answered;
          tearing ← isTearingDown;
          mret (default up (answered_of signals) && negb tearing)
      end.

Definition announceAndHangup (media : string) (cause : HangupCause) : M StepResult :=
  ok ← ensureAnswered;
  _ ← (if (ok : bool) then execute_ (VPlay media) else mret tt);
  mret (Hangup cause).

(** The unavailable announcement, then the hangup. *)
Definition unavailable (cause : HangupCause) : M StepResult :=
  announceAndHangup (unavailableAnnouncement set) cause.

Definition hangupQuietly (id : string) (cause : HangupCause) : M unit :=
  _ ← act (ActLeg (ActHangingUp id cause));
  try_catch (call (ActLeg (ActHangup id cause))) (λ _, mret tt).

Definition endpointForExtension (number : string) : string :=
  replace_all (extensionDialTemplate set) "{number}" number.

Definition trunk_endpoint (number trunk : string) : string :=
  replace_all (replace_all (trunkDialTemplate set) "{number}" number) "{trunk}" trunk.

(** [a ?? b] *)
Definition coalesce {A} (a b : option A) : option A :=
  match a with Some _ => a | None => b end.

Definition callerIdFor (input : WalkInput) (namePrefix : option string) : M (option string) :=
  name ← reads ww_callerIdName;
  number ← reads ww_callerIdNumber;
  let name := coalesce (in_callerIdName input) name in
  mret (composeCallerId
    (match namePrefix with None => name | Some prefix => Some (prefix +:+ default "" name) end)
    (coalesce (in_callerIdNumber input) number)).

Definition peerLegIdOf (id : string) : M string :=
  match peerLegId cfg id with Some leg => mret leg | None => newId end.

Definition resolve_prompt (promptId : option string) : option string :=
  resolveMediaRef promptId None (mediaRefs set).

(** The digits of [value], one sound each. *)
Definition spellNumber (value : string) : list string :=
  (λ c, promptPrefix (mediaRefs set) +:+ "digits/" +:+ String c EmptyString) <$>
  List.filter is_digit (String.list_ascii_of_string value).

Definition confirmRequest (promptId : option string) : ConfirmRequest :=
  {| confirm_media := default (confirmPrompt set) (resolve_prompt promptId);
     acceptDigit := confirmAcceptDigit set;
     confirm_attempts := Z.to_nat (Z.max 1 (confirmAttempts set));
     confirm_timeoutMs := Z.max 1 (confirmTimeoutMs set) |}.

(** ** Dialling *)
Definition dial_context (d : option PlanDestination) : DialContext :=
  {| Dial.application := application set;
     Dial.progressTimeoutSeconds := progressTimeoutSeconds set;
     ctx_organizationId := organizationId cfg;
     ctx_mediaChannelId := mediaChannelId cfg;
     ctx_channelId := channelId cfg;
     ctx_destination := d |}.

(** What a dial did and noted. *)
Definition dialled (acts : list LegAction) (ns : list DialNote) : M unit := λ '(s, w),
  (({| notes := notes s ++ (NoteDial <$> ns); visited := visited s; destination := destination s;
       trace := trace s ++ (ActLeg <$> acts) |}, w), Ok tt).

(** The dial of one leg, run over the world's schedule. *)
Definition dial_one (attempt : DialAttempt) (index : nat) (abortOnCallerHangup : bool) : M DialOutcome :=
  id ← newId;
  d ← get_destination;
  schedule ← ask (λ w, ww_one w attempt id);
  let s := dialOne (dial_context d) attempt id index abortOnCallerHangup schedule.2 schedule.1 in
  _ ← dialled (o_trace s) (o_notes s);
  mret (default TimedOut (one_outcome s)).

(** [attempts.map(() => this.newId())] *)
Fixpoint with_ids (attempts : list DialAttempt) : M (list (DialAttempt * string)) :=
  match attempts with
  | [] => mret []
  | a :: rest => id ← newId; others ← with_ids rest; mret ((a, id) :: others)
  end.

(** The race of every leg, run over the world's schedule. *)
Definition dial_simultaneous (attempts : list DialAttempt) (overallTimeoutSeconds : Z)
    (abortOnCallerHangup : bool) : M DialOutcome :=
  legs ← with_ids attempts;
  d ← get_destination;
  schedule ← ask (λ w, ww_race w legs);
  let r := dialSimultaneous (dial_context d) legs overallTimeoutSeconds abortOnCallerHangup
             schedule.2 schedule.1 in
  _ ← dialled (r_trace r) (r_notes r);
  mret (default TimedOut (race_outcome r)).

Fixpoint dial_sequential (attempts : list DialAttempt) (index : nat) (stop : list HangupCause)
    (last : DialOutcome) : M DialOutcome :=
  match attempts with
  | [] => mret last
  | attempt :: rest =>
      gone ← abandoned;
      if (gone : bool) then mret Aborted
      else
        _ ← (if (0 <? delaySeconds attempt)%Z
             then call (ActDelay (delaySeconds attempt * MILLIS_PER_SECOND)) else mret tt);
        outcome ← dial_one attempt index false;
        match outcome with
        | Answered _ _ | Aborted => mret outcome
        | Failed cause _ =>
            if includes stop cause then mret outcome
            else dial_sequential rest (S index) stop outcome
        | TimedOut => dial_sequential rest (S index) stop outcome
        end
  end.

Definition dialSequential (attempts : list DialAttempt) (stop : list HangupCause) : M DialOutcome :=
  dial_sequential attempts 0 stop TimedOut.

(** ** Bridging *)

(** The error of a body, if it threw. *)
Definition caught (body : M unit) : M (option string) :=
  try_catch (_ ← body; mret None) (λ e, mret (Some e)).

(** What runs when the peer's leg ends. *)
Definition onPeerEnded (bridgeId peer : string) : M unit :=
  try_catch
    (leg ← peerLegIdOf peer;
     _ ← call (ActPublish (EvUnbridged (channelId cfg) leg bridgeId));
     _ ← act (ActSetBridge None);
     _ ← call (ActDestroyBridge bridgeId);
     tearing ← isTearingDown;
     if (tearing : bool) then mret tt
     else hangupQuietly (mediaChannelId cfg) NORMAL_CLEARING)
    (λ _, mret tt).

(** The bridge of the A-leg and [peer]; [agent] is who the wrap-up hook is for. *)
Definition bridgeWith (peer : string) (agent : option string) : M StepResult :=
  ok ← ensureAnswered;
  if negb ok then
    _ ← hangupQuietly peer ORIGINATOR_CANCEL;
    mret StepAborted
  else
    bridgeId ← newId;
    _ ← try_catch (call (ActBeforeBridge bridgeId)) (λ _, mret tt);
    failed ← caught (
      _ ← call (ActCreateBridge bridgeId ("call-" +:+ callId cfg));
      call (ActAddToBridge bridgeId [mediaChannelId cfg; peer]));
    match (failed : option string) with
    | Some e =>
        _ ← note (NoteBridgingFailed e);
        _ ← hangupQuietly peer NORMAL_TEMPORARY_FAILURE;
        mret (Hangup NORMAL_TEMPORARY_FAILURE)
    | None =>
        _ ← act (ActSetBridge (Some bridgeId));
        _ ← act (ActMoveTo exchanging_media);
        _ ← act (ActLegBridged peer bridgeId);
        leg ← peerLegIdOf peer;
        _ ← call (ActPublish (EvBridged (channelId cfg) leg bridgeId));
        _ ← act (ActWatchPeer peer bridgeId agent);
        mret Bridged
    end.

Definition settleDial (outcome : DialOutcome) (busy noAnswer notRegistered : option PlanNodeId)
    : M StepResult :=
  match outcome with
  | Answered id _ => bridgeWith id None
  | Aborted => mret StepAborted
  | TimedOut => mret (branch noAnswer NO_ANSWER)
  | Failed USER_BUSY _ => mret (branch (coalesce busy noAnswer) USER_BUSY)
  | Failed USER_NOT_REGISTERED _ => mret (branch (coalesce notRegistered noAnswer) USER_NOT_REGISTERED)
  | Failed SUBSCRIBER_ABSENT _ => mret (branch (coalesce notRegistered noAnswer) SUBSCRIBER_ABSENT)
  | Failed cause _ => mret (branch noAnswer cause)
  end.

(** ** Simple nodes *)
Definition playbackNode (id : PlanNodeId) (node : PlaybackPlanNode) : M StepResult :=
  let next := branch (pb_thenNodeId node) NORMAL_CLEARING in
  match resolveMediaRef (pb_promptId node) (pb_media node) (mediaRefs set) with
  | None => _ ← note (NoteNothingToPlay id); mret next
  | Some media =>
      ok ← ensureAnswered;
      if negb ok then mret StepAborted
      else
        played ← execute (VPlay media);
        mret (match (played : option VerbResult) with
              | None => Hangup NORMAL_TEMPORARY_FAILURE
              | Some _ => next
              end)
  end.

Definition timeConditionNode (node : TimeConditionPlanNode) (input : WalkInput) : M StepResult :=
  match in_timeConditions input !! tc_timeConditionId node with
  | None =>
      _ ← note (NoteTimeConditionMissing (tc_timeConditionId node));
      mret (Goto (tc_matchNodeId node))
  | Some condition =>
      now ← reads ww_now;
      match TimeConditions.evaluateTimeCondition formatToParts condition (default now (in_now input)) with
      | Throw e => throw e
      | Ok evaluation =>
          mret (branch (if TimeConditions.matched evaluation then Some (tc_matchNodeId node)
                        else tc_noMatchNodeId node) NORMAL_CLEARING)
      end
  end.

(** ** Call control *)
Definition control (a : Action) : M ControlOutcome := port a (λ w, ww_control w a).

Definition pickupCode (node : FeatureCodePlanNode) (input : WalkInput) : M StepResult :=
  if negb (has_control cfg) then _ ← note NoteNoControl; unavailable FACILITY_NOT_IMPLEMENTED
  else
    let kind := if bool_decide (fcn_action node = group_pickup) then pickup_group else pickup_directed in
    let extension := default "" (trim <$> featureArgument input) in
    if match kind with pickup_directed => bool_decide (extension = "") | pickup_group => false end
    then _ ← note (NoteNeedsExtension (fcn_code node)); unavailable INVALID_NUMBER_FORMAT
    else
      outcome ← control (ActPickup kind extension);
      if co_ok outcome then _ ← note (NotePickedUp kind extension); mret Bridged
      else _ ← note (NotePickupRefused (co_reason outcome)); unavailable NO_PICKUP.

Definition featureCodeNode (node : FeatureCodePlanNode) (input : WalkInput) : M StepResult :=
  match fcn_targetNodeId node with
  | Some target => mret (Goto target)
  | None =>
      match fcn_action node with
      | call_pickup | group_pickup => pickupCode node input
      | voicemail_check | voicemail_direct =>
          _ ← note (NoteFeatureCode (fcn_code node) (fcn_action node));
          unavailable INVALID_NUMBER_FORMAT
      | _ =>
          _ ← note (NoteFeatureCode (fcn_code node) (fcn_action node));
          unavailable FACILITY_NOT_IMPLEMENTED
      end
  end.

(** The first candidate whose digits are a slot of the lot. *)
Definition orbit_of (node : ParkPlanNode) (candidate : option string) : option string :=
  match trim <$> candidate with
  | None => None
  | Some digits =>
      if bool_decide (digits = "") then None
      else
        match TimeConditions.parseInt digits with
        | None => None
        | Some slot =>
            if bool_decide (TimeConditions.number_string (Some slot) = digits) &&
               (park_slotStart node <=? slot)%Z && (slot <=? park_slotEnd node)%Z
            then Some digits else None
        end
  end.

Definition orbitDialedFor (node : ParkPlanNode) (input : WalkInput) : option string :=
  coalesce (orbit_of node (featureArgument input)) (orbit_of node (originalDialedNumber input)).

Definition parkIntoLot (node : ParkPlanNode) (input : WalkInput) : M StepResult :=
  let requested := trim <$> featureArgument input in
  outcome ← control (ActPark (park_parkLotId node)
    (if blank requested then None else requested)
    (if (0 <? park_timeoutSeconds node)%Z then Some (park_timeoutSeconds node * MILLIS_PER_SECOND)%Z else None)
    (park_mohClass node));
  if co_ok outcome then _ ← note (NoteParked (co_slot outcome) (park_parkLotId node)); mret Bridged
  else
    _ ← note (NoteParkRefused (co_reason outcome));
    match park_timeoutNodeId node with
    | Some next => mret (Goto next)
    | None => unavailable USER_BUSY
    end.

Definition retrieveFromLot (node : ParkPlanNode) (orbit : string) : M StepResult :=
  outcome ← control (ActUnpark (park_parkLotId node) orbit);
  if co_ok outcome then _ ← note (NoteRetrieved orbit); mret Bridged
  else _ ← note (NoteRetrieveRefused orbit (co_reason outcome)); unavailable NO_PICKUP.

Definition parkNode (node : ParkPlanNode) (input : WalkInput) : M StepResult :=
  if negb (has_control cfg) then _ ← note NoteNoControl; unavailable FACILITY_NOT_IMPLEMENTED
  else
    ok ← ensureAnswered;
    if negb ok then mret StepAborted
    else
      match orbitDialedFor node input with
      | None => parkIntoLot node input
      | Some orbit => retrieveFromLot node orbit
      end.

(** ** Menus *)
Definition playPrompt (promptId : option string) : M unit :=
  match resolve_prompt promptId with
  | None => mret tt
  | Some media => execute_ (VPlay media)
  end.

(** [options.find(...)]: a pattern that does not compile throws. *)
Fixpoint find_option (options : list IvrOption) (digits : string) : M (option IvrOption) :=
  match options with
  | [] => mret None
  | o :: rest =>
      match Patterns.match_pure RegExp (option_pattern o) digits with
      | Throw e => throw (Patterns.err_detail e)
      | Ok None => find_option rest digits
      | Ok (Some _) => mret (Some o)
      end
  end.

(** Which budget ran out decides the branch. *)
Definition ivr_exit (node : IvrMenuPlanNode) (timeouts : Z) : StepResult :=
  if (ivr_maxTimeouts node <? timeouts)%Z then branch (ivr_timeoutNodeId node) NO_USER_RESPONSE
  else branch (ivr_invalidNodeId node) INVALID_NUMBER_FORMAT.

Definition ivr_greeting (node : IvrMenuPlanNode) (attempt : nat) : option string :=
  resolve_prompt (if attempt =? 0 then ivr_greetingPromptId node
                  else coalesce (ivr_shortGreetingPromptId node) (ivr_greetingPromptId node)).

(** The [while] loop; each turn that does not leave it spends one of the budgets,
    which are the fuel. *)
Fixpoint ivr_loop (fuel : nat) (node : IvrMenuPlanNode) (failures timeouts : Z) (attempt : nat)
    : M StepResult :=
  match fuel with
  | O => mret (ivr_exit node timeouts)
  | S fuel =>
      if negb ((failures <=? ivr_maxFailures node)%Z && (timeouts <=? ivr_maxTimeouts node)%Z)
      then mret (ivr_exit node timeouts)
      else
        tearing ← isTearingDown;
        if (tearing : bool) then mret StepAborted
        else
          result ← execute (VGather (ivr_maxDigits node) ["#"] (ivr_digitTimeoutMs node)
                              (ivr_interDigitTimeoutMs node) (ivr_greeting node attempt));
          match (result : option VerbResult) with
          | None => mret (Hangup NORMAL_TEMPORARY_FAILURE)
          | Some result =>
              if ended_by_hangup result then mret StepAborted
              else
                let digits := digits_of result in
                if bool_decide (digits = "") then
                  if (ivr_maxTimeouts node <? timeouts + 1)%Z then mret (ivr_exit node (timeouts + 1))
                  else
                    _ ← playPrompt (ivr_timeoutPromptId node);
                    ivr_loop fuel node failures (timeouts + 1) (S attempt)
                else
                  found ← find_option (ivr_options node) digits;
                  match (found : option IvrOption) with
                  | Some o => mret (Goto (option_targetNodeId o))
                  | None =>
                      _ ← (if ivr_directDialEnabled node
                           then note (NoteDirectDial (ivr_ivrMenuId node) digits) else mret tt);
                      if (ivr_maxFailures node <? failures + 1)%Z then mret (ivr_exit node timeouts)
                      else
                        _ ← playPrompt (ivr_invalidPromptId node);
                        ivr_loop fuel node (failures + 1) timeouts (S attempt)
                  end
          end
  end.

Definition ivr_fuel (node : IvrMenuPlanNode) : nat :=
  Z.to_nat (ivr_maxFailures node + 1) + Z.to_nat (ivr_maxTimeouts node + 1).

Definition ivrMenuNode (node : IvrMenuPlanNode) : M StepResult :=
  ok ← ensureAnswered;
  if negb ok then mret StepAborted else ivr_loop (ivr_fuel node) node 0 0 0.

(** ** Extensions and ring groups *)

(** The caller hears ringing before the first leg is dialled. *)
Definition ring : M unit :=
  _ ← execute_ VRinging;
  act (ActMoveTo executing).

Definition plain_attempt (destination label number : string) (timeout delay : Z)
    (caller : option string) (confirm : option ConfirmRequest) : DialAttempt :=
  {| Dial.endpoint := destination; Dial.label := label; destinationNumber := number;
     timeoutSeconds := timeout; delaySeconds := delay; callerId := caller; variables := [];
     Dial.confirm := confirm |}.

(** One hop as a leg to dial. *)
Definition followMeAttempt (node : ExtensionPlanNode) (hop : FollowMeDestination) (input : WalkInput)
    : M (option DialAttempt) :=
  let skipped := _ ← note (NoteHopSkipped (hop_destination hop) (ext_number node)); mret None in
  match hop_targetNodeId hop ≫= λ id, plan_nodes (plan input) !! id with
  | None => skipped
  | Some target =>
      let timeout := or_else (hop_timeoutSeconds hop)
                       (or_else (ext_timeoutSeconds node) (defaultRingTimeoutSeconds set)) in
      let confirm := if hop_confirmRequired hop then Some (confirmRequest None) else None in
      match node_body target with
      | ExtensionNode x =>
          caller ← callerIdFor input None;
          mret (Some (plain_attempt (endpointForExtension (ext_number x))
            ("extension " +:+ ext_number x) (ext_number x) timeout (hop_delaySeconds hop) caller confirm))
      | TrunkDialNode t =>
          draws ← ask ww_random;
          match head (Trunks.orderTrunkAttempts (td_attempts t) draws) with
          | None => skipped
          | Some trunk =>
              name ← reads ww_callerIdName;
              own ← reads ww_callerIdNumber;
              let number := default (hop_destination hop) (hop_dialedNumber hop) in
              mret (Some (plain_attempt (trunk_endpoint number (trunk_name trunk))
                ("follow-me " +:+ hop_destination hop) number timeout (hop_delaySeconds hop)
                (composeCallerId (coalesce (in_callerIdName input) name)
                  (coalesce (trunk_callerIdNumberOverride trunk)
                    (coalesce (td_callerIdNumberOverride t) (coalesce (in_callerIdNumber input) own))))
                confirm))
          end
      | _ => skipped
      end
  end.

(** The hops that can be dialled, in their order. *)
Fixpoint follow_me_attempts (node : ExtensionPlanNode) (hops : list FollowMeDestination)
    (input : WalkInput) : M (list DialAttempt) :=
  match hops with
  | [] => mret []
  | hop :: rest =>
      attempt ← followMeAttempt node hop input;
      others ← follow_me_attempts node rest input;
      mret (option_list attempt ++ others)
  end.

Definition busy_stops (ignoreBusy : bool) : list HangupCause := if ignoreBusy then [] else [USER_BUSY].

Definition dial_ladder (strategy : RingGroupStrategy) (attempts : list DialAttempt) (ignoreBusy : bool)
    (overall : Z) : M DialOutcome :=
  match strategy with
  | sequential => dialSequential attempts (busy_stops ignoreBusy)
  | simultaneous => dial_simultaneous attempts overall false
  end.

Definition followMeNode (node : ExtensionPlanNode) (followMe : FollowMePlan) (input : WalkInput)
    : M StepResult :=
  attempts ← follow_me_attempts node
               (js_sort (λ a b, hop_ordinal a - hop_ordinal b)%Z (fm_destinations followMe)) input;
  match (attempts : list DialAttempt) with
  | [] =>
      _ ← note (NoteNoHop (ext_number node));
      mret (branch (ext_noAnswerNodeId node) NO_ANSWER)
  | _ =>
      gone ← abandoned;
      if (gone : bool) then mret StepAborted
      else
        _ ← ring;
        outcome ← dial_ladder (fm_strategy followMe) attempts (fm_ignoreBusy followMe)
                    (followMeOverallTimeout attempts);
        settleDial outcome (ext_busyNodeId node) (ext_noAnswerNodeId node) (ext_notRegisteredNodeId node)
  end.

Definition extensionNode (node : ExtensionPlanNode) (input : WalkInput) : M StepResult :=
  match ext_forwardAllNodeId node with
  | Some target => mret (Goto target)
  | None =>
      if ext_doNotDisturb node then mret (branch (ext_busyNodeId node) USER_BUSY)
      else
        match ext_followMe node with
        | Some followMe => followMeNode node followMe input
        | None =>
            _ ← ring;
            caller ← callerIdFor input None;
            outcome ← dialSequential
              [plain_attempt (endpointForExtension (ext_number node)) ("extension " +:+ ext_number node)
                 (ext_number node) (or_else (ext_timeoutSeconds node) (defaultRingTimeoutSeconds set)) 0
                 caller None] [];
            settleDial outcome (ext_busyNodeId node) (ext_noAnswerNodeId node) (ext_notRegisteredNodeId node)
        end
  end.

Fixpoint ring_group_attempts (node : RingGroupPlanNode) (members : list RingGroupMember)
    (input : WalkInput) : M (list DialAttempt) :=
  match members with
  | [] => mret []
  | m :: rest =>
      match node_body <$> plan_nodes (plan input) !! member_targetNodeId m with
      | Some (ExtensionNode x) =>
          caller ← callerIdFor input (rg_callerIdNamePrefix node);
          others ← ring_group_attempts node rest input;
          mret (plain_attempt (endpointForExtension (ext_number x)) ("extension " +:+ ext_number x)
                  (ext_number x)
                  (or_else (member_timeoutSeconds m)
                    (or_else (rg_ringTimeoutSeconds node) (defaultRingTimeoutSeconds set)))
                  (member_delaySeconds m) caller
                  (if member_confirmRequired m || rg_confirmEnabled node
                   then Some (confirmRequest (rg_confirmPromptId node)) else None) :: others)
      | _ =>
          _ ← note (NoteMemberSkipped (rg_ringGroupId node) (member_targetNodeId m));
          ring_group_attempts node rest input
      end
  end.

Definition ringGroupNode (node : RingGroupPlanNode) (input : WalkInput) : M StepResult :=
  attempts ← ring_group_attempts node
               (js_sort (λ a b, member_ordinal a - member_ordinal b)%Z (rg_members node)) input;
  match (attempts : list DialAttempt) with
  | [] =>
      _ ← note (NoteNoMembers (rg_ringGroupId node));
      mret (branch (rg_timeoutNodeId node) NO_ANSWER)
  | _ =>
      _ ← ring;
      outcome ← dial_ladder (rg_strategy node) attempts (rg_ignoreBusy node)
                  (or_else (rg_ringTimeoutSeconds node) (defaultRingTimeoutSeconds set));
      settleDial outcome None (rg_timeoutNodeId node) None
  end.

(** ** Trunks *)
Definition notifyEmergency (node : TrunkDialPlanNode) (input : WalkInput) (number : string)
    (trunk elin : option string) : M unit :=
  callerNumber ← reads ww_callerIdNumber;
  callerName ← reads ww_callerIdName;
  _ ← note (NoteEmergency number elin (td_emergencyAddressId node));
  try_catch
    (call (ActPublish (EvEmergencyDialed (channelId cfg) (default number (originalDialedNumber input))
       number callerNumber (coalesce (in_callerIdName input) callerName) elin
       (td_emergencyAddressId node) trunk)))
    (λ _, note (NoteEmergencyUnpublished number)).

Definition continue_on (node : TrunkDialPlanNode) : list HangupCause :=
  match td_continueOnCauses node with [] => RETRYABLE_HANGUP_CAUSES | causes => causes end.

(** [this.deps.trunkCapacity?.reserve(...)] *)
Definition reserve (attempt : TrunkAttempt) : M (option Trunks.TrunkReservation) := λ '(s, w),
  if has_trunkCapacity cfg then
    let '(w', r) := ww_reserve w (trunkId attempt) (trunk_maxChannels attempt) in
    ((log [ActReserve (trunkId attempt) (trunk_maxChannels attempt) r] s, w'), Ok r)
  else ((s, w), Ok None).

Definition with_reservation (r : option Trunks.TrunkReservation)
    (op : Trunks.TrunkReservation → Action) : M unit :=
  match r with Some r => act (op r) | None => mret tt end.

(** The number a trunk is shown: the ELIN alone on an emergency call. *)
Definition presented (emergency : bool) (elin : option string) (node : TrunkDialPlanNode)
    (attempt : TrunkAttempt) (input : WalkInput) : option string :=
  if emergency then elin
  else coalesce (trunk_callerIdNumberOverride attempt)
         (coalesce (td_callerIdNumberOverride node) (in_callerIdNumber input)).

Definition trunk_attempt (number : string) (emergency : bool) (elin : option string)
    (node : TrunkDialPlanNode) (attempt : TrunkAttempt) (input : WalkInput) : DialAttempt :=
  plain_attempt (trunk_endpoint number (trunk_name attempt)) ("trunk " +:+ trunk_name attempt) number
    (defaultRingTimeoutSeconds set) 0
    (composeCallerId (in_callerIdName input) (presented emergency elin node attempt input)) None.

(** The loop over the chain. *)
Fixpoint trunk_loop (number : string) (emergency : bool) (elin : option string)
    (node : TrunkDialPlanNode) (input : WalkInput) (attempts : list TrunkAttempt)
    (lastCause : HangupCause) : M StepResult :=
  match attempts with
  | [] => mret (branch (td_failoverNodeId node) lastCause)
  | attempt :: rest =>
      tearing ← isTearingDown;
      if (tearing : bool) then mret StepAborted
      else
        reservation ← reserve attempt;
        if has_trunkCapacity cfg && bool_decide (reservation = None) then
          _ ← note (NoteTrunkFull (trunk_name attempt));
          trunk_loop number emergency elin node input rest SWITCH_CONGESTION
        else
          outcome ← dial_one (trunk_attempt number emergency elin node attempt input) 0 false;
          match outcome with
          | Answered id _ =>
              _ ← with_reservation reservation (λ r, ActBindTo r id);
              bridgeWith id None
          | _ =>
              _ ← with_reservation reservation ActRelease;
              match outcome with
              | Aborted => mret StepAborted
              | _ =>
                  let cause := match outcome with Failed cause _ => cause | _ => NO_ANSWER end in
                  if includes (continue_on node) cause
                  then trunk_loop number emergency elin node input rest cause
                  else mret (branch (td_failoverNodeId node) cause)
              end
          end
  end.

Definition trunkDialNode (id : PlanNodeId) (node : TrunkDialPlanNode) (input : WalkInput) : M StepResult :=
  match dialedNumber input with
  | None | Some "" =>
      _ ← note (NoteNoNumber id);
      mret (branch (td_failoverNodeId node) INVALID_NUMBER_FORMAT)
  | Some number =>
      draws ← ask ww_random;
      match Trunks.orderTrunkAttempts (td_attempts node) draws with
      | [] =>
          _ ← note (NoteNoTrunks id);
          mret (branch (td_failoverNodeId node) NETWORK_OUT_OF_ORDER)
      | (first :: _) as attempts =>
          _ ← ring;
          let emergency := default false (td_emergency node) in
          let elin := if emergency then coalesce (in_callerIdNumber input) (td_elin node) else None in
          _ ← (if emergency then notifyEmergency node input number (Some (trunk_name first)) elin
               else mret tt);
          trunk_loop number emergency elin node input attempts NORMAL_TEMPORARY_FAILURE
      end
  end.

Definition externalNode (id : PlanNodeId) (node : ExternalPlanNode) (input : WalkInput) : M StepResult :=
  if external_viaOutboundRouting node then
    _ ← note (NoteOutboundRouting id);
    mret (Hangup OUTGOING_CALL_BARRED)
  else
    _ ← ring;
    outcome ← dial_one
      (plain_attempt (trunk_endpoint (external_destination node) "external")
         ("external " +:+ external_destination node) (external_destination node)
         (defaultRingTimeoutSeconds set) 0
         (composeCallerId (coalesce (external_callerIdName node) (in_callerIdName input))
            (coalesce (external_callerIdNumber node) (in_callerIdNumber input))) None) 0 false;
    settleDial outcome None None None.

(** ** Conferences *)
Definition gather_pin (maxDigits timeoutMs interDigitTimeoutMs : Z) (prompt : string) : M (option VerbResult) :=
  execute (VGather maxDigits ["#"] timeoutMs interDigitTimeoutMs (Some prompt)).

(** AdmittedAs, as a moderator or not, or denied with the step that follows. *)
Inductive Admission := AdmittedAs (moderator : bool) | Denied (result : StepResult).

Definition refuseConference (node : ConferencePlanNode) (failure : VoicemailPinFailure) : M StepResult :=
  _ ← note (NoteConferenceDigest (conf_roomNumber node) failure);
  unavailable NORMAL_TEMPORARY_FAILURE.

(** A digest that cannot be verified ends the challenge, a wrong PIN does not. *)
Definition defect (failure : VoicemailPinFailure) : bool :=
  match failure with malformed_hash | kdf_error => true | _ => false end.

(** The digits against one digest: the admission it gives, or the next check. *)
Definition check_digest (node : ConferencePlanNode) (digits : string) (digest : option string)
    (moderator : bool) (next : M (option Admission)) : M (option Admission) :=
  match digest with
  | None => next
  | Some pinHash =>
      match verifyPinDigest kdf digits pinHash with
      | PinOk => mret (Some (AdmittedAs moderator))
      | PinFailed failure =>
          if defect failure then r ← refuseConference node failure; mret (Some (Denied r))
          else next
      end
  end.

Fixpoint conference_attempts (n : nat) (node : ConferencePlanNode) : M Admission :=
  match n with
  | O =>
      _ ← note (NoteConferencePin (conf_roomNumber node));
      mret (Denied (Hangup CALL_REJECTED))
  | S n =>
      tearing ← isTearingDown;
      if (tearing : bool) then mret (Denied StepAborted)
      else
        result ← gather_pin (conferencePinMaxDigits set) (conferencePinTimeoutMs set)
                   (conferencePinInterDigitTimeoutMs set) (conferencePinPrompt set);
        match (result : option VerbResult) with
        | None => mret (Denied (Hangup NORMAL_TEMPORARY_FAILURE))
        | Some result =>
            if ended_by_hangup result then mret (Denied StepAborted)
            else
              let digits := digits_of result in
              if bool_decide (trim digits = "") && bool_decide (conf_pinHash node = None)
              then mret (AdmittedAs false)
              else
                admission ← check_digest node digits (conf_moderatorPinHash node) true
                  (check_digest node digits (conf_pinHash node) false (mret None));
                match (admission : option Admission) with
                | Some a => mret a
                | None =>
                    _ ← execute_ (VPlay (conferencePinInvalidPrompt set));
                    conference_attempts n node
                end
        end
  end.

Definition challengeConferencePin (node : ConferencePlanNode) : M Admission :=
  if conf_requiresPin node && bool_decide (conf_pinHash node = None) then
    _ ← note (NoteConferencePin (conf_roomNumber node));
    r ← unavailable NORMAL_TEMPORARY_FAILURE;
    mret (Denied r)
  else
    match conf_pinHash node, conf_moderatorPinHash node with
    | None, None => mret (AdmittedAs false)
    | _, _ => conference_attempts (conferencePinAttempts set) node
    end.

Definition leave (conferenceId : string) : M ConferenceRegistry.ConferenceDeparture :=
  port (ActLeave conferenceId) (λ w, ww_leave w conferenceId).

(** Whether the caller may join now. What happens while the caller is held, the
    polls of a shared registry included, is the world's. *)
Definition holdForModerator (node : ConferencePlanNode) : M bool :=
  let conference := conf_conferenceId node in
  _ ← note (NoteHeld (conf_roomNumber node));
  _ ← call (ActStartMusic (conf_mohClass node));
  _ ← act (ActHold conference);
  _ ← act (ActLeg (ActArm HoldTimer (conferenceModeratorWaitMs set)));
  hungUp ← ask ww_hold;
  _ ← try_catch (call ActStopMusic) (λ _, mret tt);
  tearing ← isTearingDown;
  if (hungUp : bool) || (tearing : bool) then mret false
  else
    room ← reads (λ w, ww_room w conference);
    if default false (ConferenceRegistry.cr_moderatorPresent <$> (room : option ConferenceRegistry.ConferenceRoom))
    then mret true
    else
      arrived ← port (ActRefresh conference) (λ w, ww_refresh w conference);
      if (arrived : bool) then mret true
      else _ ← note (NoteNoModerator (conf_roomNumber node)); mret false.

(** What runs when a member's leg ends. *)
Definition leaveConference (node : ConferencePlanNode) (bridgeId : string) (joinedAtMs : Z)
    (moderator : bool) : M unit :=
  if negb (has_conferences cfg) then mret tt
  else
    departure ← leave (conf_conferenceId node);
    now ← reads ww_now;
    try_catch
      (_ ← call (ActPublish (EvConferenceLeft (channelId cfg) (conf_conferenceId node)
             (conf_roomNumber node) bridgeId moderator (ConferenceRegistry.d_memberCount departure)
             (Z.max 0 (now - joinedAtMs))));
       _ ← act (ActSetBridge None);
       if ConferenceRegistry.emptied departure then call (ActDestroyBridge bridgeId) else mret tt)
      (λ _, mret tt).

(** A member of the room: held if a moderator has to arrive first, then bridged. *)
Definition enterRoom (node : ConferencePlanNode) (moderator : bool) (joinedAtMs : Z)
    (room : ConferenceRegistry.ConferenceRoom) : M StepResult :=
  let conference := conf_conferenceId node in
  may ← (if conf_waitForModerator node && negb moderator &&
            negb (ConferenceRegistry.cr_moderatorPresent room)
         then holdForModerator node else mret true);
  if negb may then _ ← leave conference; mret StepAborted
  else
    let bridgeId := ConferenceRegistry.cr_bridgeId room in
    failed ← caught (
      _ ← call (ActCreateBridge bridgeId ("conference-" +:+ conference));
      call (ActAddToBridge bridgeId [mediaChannelId cfg]));
    match (failed : option string) with
    | Some e =>
        _ ← leave conference;
        _ ← note (NoteConferenceFailed (conf_roomNumber node) e);
        mret (Hangup NORMAL_TEMPORARY_FAILURE)
    | None =>
        _ ← act (ActSetBridge (Some bridgeId));
        _ ← act (ActMoveTo exchanging_media);
        now ← reads (λ w, ww_room w conference);
        _ ← call (ActPublish (EvConferenceJoined (channelId cfg) conference (conf_roomNumber node)
              bridgeId moderator
              (ConferenceRegistry.cr_memberCount
                 (default room (now : option ConferenceRegistry.ConferenceRoom)))));
        _ ← (if conf_recordEnabled node
             then note (NoteConferenceRecording (conf_roomNumber node)) else mret tt);
        _ ← act (ActWatchMember conference bridgeId joinedAtMs moderator);
        mret Bridged
    end.

Definition conferenceNode (node : ConferencePlanNode) : M StepResult :=
  if negb (has_conferences cfg) then _ ← note NoteNoConferences; unavailable FACILITY_NOT_IMPLEMENTED
  else
    ok ← ensureAnswered;
    if negb ok then mret StepAborted
    else
      admission ← challengeConferencePin node;
      match (admission : Admission) with
      | Denied result => mret result
      | AdmittedAs moderator =>
          joinedAtMs ← reads ww_now;
          bridge ← newId;
          joined ← port_ans (ActJoin (conf_conferenceId node) moderator)
            (λ w, ww_join w (conf_conferenceId node)
               {| ConferenceRegistry.mediaChannelId := mediaChannelId cfg;
                  ConferenceRegistry.legId := channelId cfg;
                  ConferenceRegistry.moderator := moderator;
                  ConferenceRegistry.joinedAtMs := joinedAtMs |} bridge (conf_maxMembers node));
          match (joined : ConferenceRegistry.ConferenceJoinResult) with
          | ConferenceRegistry.Full _ =>
              _ ← note (NoteConferenceFull (conf_roomNumber node));
              announceAndHangup (conferenceFullAnnouncement set) USER_BUSY
          | ConferenceRegistry.ClaimsUnavailable =>
              _ ← note (NoteConferenceUnclaimed (conf_roomNumber node));
              unavailable NORMAL_TEMPORARY_FAILURE
          | ConferenceRegistry.Joined room _ => enterRoom node moderator joinedAtMs room
          end
      end.

(** ** Voicemail *)
Definition leaveGreetingFor (node : VoicemailPlanNode) : M string :=
  match vm_greetingMedia node with
  | None => mret (voicemailGreeting set)
  | Some ref =>
      match translateMediaRef ref (mediaRefs set) with
      | None => _ ← note (NoteGreetingUnplayable (vm_mailboxNumber node)); mret (voicemailGreeting set)
      | Some media => mret media
      end
  end.

Definition finishes (signal : RecordingSignal) : bool :=
  match signal with RecordingStarted => false | _ => true end.

(** The first signal that finishes the recording, else the timer. *)
Definition waitForRecording (name : string) (timeoutMs : Z) : M (Z * RecordingReason) :=
  signals ← ask ww_recording;
  match find_first finishes signals with
  | Some (RecordingFinished durationMs) => mret (durationMs, rec_completed)
  | Some (RecordingFailed why) => _ ← note (NoteRecordingFailed name why); mret (0%Z, rec_failed)
  | _ => mret (timeoutMs, rec_cancelled)
  end.

Definition fileVoicemailMessage (node : VoicemailPlanNode) (recordingId objectKey : string)
    (durationMs : Z) : M unit :=
  if negb (has_voicemail cfg) then note (NoteNotFiled recordingId)
  else
    messageId ← newId;
    number ← reads ww_callerIdNumber;
    name ← reads ww_callerIdName;
    try_catch
      (call (ActMessageLeft
         {| vmsg_voicemailBoxId := vm_voicemailBoxId node; vmsg_mailboxNumber := vm_mailboxNumber node;
            vmsg_messageId := messageId; vmsg_recordingId := recordingId; vmsg_objectKey := objectKey;
            vmsg_durationMs := durationMs; vmsg_mwiEnabled := vm_mwiEnabled node;
            vmsg_callerIdNumber := number; vmsg_callerIdName := name |}))
      (λ e, note (NoteFileFailed recordingId e)).

(** [challengeVoicemailPin]: the step that refuses the caller, if any. *)
Fixpoint voicemail_attempts (n : nat) (mailbox pinHash : string) : M (option StepResult) :=
  match n with
  | O =>
      _ ← note (NoteMailboxPin mailbox);
      mret (Some (Hangup CALL_REJECTED))
  | S n =>
      tearing ← isTearingDown;
      if (tearing : bool) then mret (Some StepAborted)
      else
        result ← gather_pin (voicemailPinMaxDigits set) (voicemailPinTimeoutMs set)
                   (voicemailPinInterDigitTimeoutMs set) (voicemailPinPrompt set);
        match (result : option VerbResult) with
        | None => mret (Some (Hangup NORMAL_TEMPORARY_FAILURE))
        | Some result =>
            if ended_by_hangup result then mret (Some StepAborted)
            else
              match verifyVoicemailPin kdf (digits_of result) pinHash with
              | PinOk => mret None
              | PinFailed failure =>
                  if defect failure then
                    _ ← note (NoteMailboxDigest mailbox failure);
                    r ← unavailable NORMAL_TEMPORARY_FAILURE;
                    mret (Some r)
                  else
                    _ ← execute_ (VPlay (voicemailPinInvalidPrompt set));
                    voicemail_attempts n mailbox pinHash
              end
        end
  end.

Definition challengeVoicemailPin (node : VoicemailPlanNode) (mailbox : string) : M (option StepResult) :=
  match vm_pinHash node with
  | None => mret None
  | Some pinHash => voicemail_attempts (voicemailPinAttempts set) mailbox pinHash
  end.

(** The sounds of a number: whether they were all played. *)
Fixpoint playSpelled (sounds : list string) : M bool :=
  match sounds with
  | [] => mret true
  | media :: rest =>
      tearing ← isTearingDown;
      if (tearing : bool) then mret false
      else _ ← execute_ (VPlay media); playSpelled rest
  end.

(** The [while] loop: a turn replays the message or leaves it behind. *)
Fixpoint playVoicemailMessages (fuel : nat) (mailbox : string) (messages : list VoicemailListingMessage)
    (replays : nat) : M StepResult :=
  match fuel, messages with
  | O, _ | _, [] => _ ← note (NoteMailboxPlayed mailbox); mret (Hangup NORMAL_CLEARING)
  | S fuel, message :: rest =>
      tearing ← isTearingDown;
      if (tearing : bool) then mret StepAborted
      else
        match translateMediaRef (vlist_media message) (mediaRefs set) with
        | None =>
            _ ← note (NoteMessageSkipped (vlist_messageId message));
            playVoicemailMessages fuel mailbox rest replays
        | Some media =>
            result ← execute (VGather 1 ["#"] (voicemailMenuTimeoutMs set) (voicemailMenuTimeoutMs set) (Some media));
            match (result : option VerbResult) with
            | None => mret (Hangup NORMAL_TEMPORARY_FAILURE)
            | Some result =>
                if ended_by_hangup result then mret StepAborted
                else
                  let digit := digits_of result in
                  if bool_decide (digit = "*") then mret (Hangup NORMAL_CLEARING)
                  else if bool_decide (digit = "2") && (replays <? voicemailMaxReplays set)%nat
                  then playVoicemailMessages fuel mailbox messages (S replays)
                  else playVoicemailMessages fuel mailbox rest 0
            end
        end
  end.

(** Each message is played once and replayed at most the number of times allowed. *)
Definition messages_fuel (messages : list VoicemailListingMessage) : nat :=
  length messages * S (voicemailMaxReplays set).

Definition voicemailMenu (node : VoicemailPlanNode) (mailbox : string) : M StepResult :=
  if negb (has_mailbox cfg) then _ ← note (NoteNoMailboxSource mailbox); unavailable NORMAL_CLEARING
  else
    let request :=
      {| vreq_organizationId := organizationId cfg; vreq_voicemailBoxId := vm_voicemailBoxId node;
         vreq_mailboxNumber := mailbox; vreq_callId := Some (callId cfg) |} in
    listing ← try_catch
      (l ← port (ActListMailbox request) (λ w, ww_list w request); mret (Some l))
      (λ e, _ ← note (NoteListingFailed mailbox e); mret None);
    match (listing : option VoicemailListing) with
    | Some {| vl_found := true; vl_messages := messages |} =>
        finished ← playSpelled (spellNumber (TimeConditions.number_string (Some (Z.of_nat (length messages)))));
        if negb finished then mret StepAborted
        else if (length messages =? 0)%nat
        then _ ← note (NoteMailboxEmpty mailbox); mret (Hangup NORMAL_CLEARING)
        else playVoicemailMessages (messages_fuel messages) mailbox messages 0
    | _ =>
        _ ← note (NoteMailboxUnreadable mailbox (listing ≫= vl_reason));
        unavailable NORMAL_CLEARING
    end.

(** The mailbox a check may open. *)
Definition mailboxFor (node : VoicemailPlanNode) (caller : option string) (input : WalkInput)
    : option string :=
  match trim <$> caller with
  | None | Some "" => None
  | Some number =>
      if bool_decide (vm_mailboxNumber node = number) then Some (vm_mailboxNumber node)
      else Resolve.mb_mailboxNumber <$> in_mailboxes input !! number
  end.

Definition voicemailCheck (node : VoicemailPlanNode) (input : WalkInput) : M StepResult :=
  own ← reads ww_callerIdNumber;
  match mailboxFor node (coalesce (in_callerIdNumber input) own) input with
  | None => _ ← note NoteNoMailbox; unavailable INVALID_NUMBER_FORMAT
  | Some mailbox =>
      denied ← challengeVoicemailPin node mailbox;
      match (denied : option StepResult) with
      | Some result => mret result
      | None =>
          finished ← playSpelled (spellNumber mailbox);
          if negb finished then mret StepAborted else voicemailMenu node mailbox
      end
  end.

(** The recording of a message, after the greeting. *)
Definition leaveMessage (node : VoicemailPlanNode) : M StepResult :=
  recordingId ← newId;
  let format := recordingFormat set in
  let objectKey := organizationId cfg +:+ "/" +:+ callId cfg +:+ "/" +:+ recordingId +:+ "." +:+ format in
  let maxSeconds := or_else (vm_maxMessageSeconds node) 120 in
  let timeoutMs := ((maxSeconds + 5) * MILLIS_PER_SECOND)%Z in
  _ ← act (ActLeg (ActArm RecordTimer timeoutMs));
  failed ← caught (call (ActRecord recordingId format maxSeconds 5));
  match (failed : option string) with
  | Some e => _ ← note (NoteRecordRefused e); mret (Hangup NORMAL_TEMPORARY_FAILURE)
  | None =>
      _ ← call (ActPublish (EvRecordStarted (channelId cfg) recordingId objectKey));
      result ← waitForRecording recordingId timeoutMs;
      let '(durationMs, why) := result in
      _ ← call (ActPublish (EvRecordStopped (channelId cfg) recordingId objectKey durationMs why));
      if bool_decide (why = rec_failed) || (durationMs <=? 0)%Z then
        _ ← note (NoteNoAudio recordingId);
        mret (Hangup NORMAL_CLEARING)
      else
        _ ← fileVoicemailMessage node recordingId objectKey durationMs;
        mret (Hangup NORMAL_CLEARING)
  end.

Definition voicemailNode (node : VoicemailPlanNode) (input : WalkInput) : M StepResult :=
  ok ← ensureAnswered;
  if negb ok then mret StepAborted
  else
    match vm_mode node with
    | vm_check => voicemailCheck node input
    | vm_leave =>
        greeting ← leaveGreetingFor node;
        _ ← execute_ (VPlay greeting);
        leaveMessage node
    end.

(** ** Queues *)
Definition callerIdForQueue : M (option string) :=
  name ← reads ww_callerIdName;
  number ← reads ww_callerIdNumber;
  mret (composeCallerId name number).

Definition queue_attempt (a : QueueSession.QueueDialAttempt) (ringTimeoutSeconds : Z)
    (caller : option string) : DialAttempt :=
  plain_attempt (QueueSession.att_endpoint a) (QueueSession.att_label a)
    (QueueSession.att_destinationNumber a)
    (or_else (QueueSession.att_timeoutSeconds a) ringTimeoutSeconds) 0 caller None.

(** [attempts[index] ?? attempts[0]] *)
Definition agent_at (first : QueueSession.QueueDialAttempt) (attempts : list QueueSession.QueueDialAttempt)
    (index : nat) : string :=
  QueueSession.att_agentId (default first (attempts !! index)).

Definition dialQueueAgents (attempts : list QueueSession.QueueDialAttempt) (fan : Queue.FanOut)
    (ringTimeoutSeconds : Z) : M QueueSession.QueueDialOutcome :=
  match attempts with
  | [] => mret QueueSession.DialTimeout
  | first :: _ =>
      caller ← callerIdForQueue;
      outcome ← match fan with
        | Queue.fan_all =>
            dial_simultaneous ((λ a, queue_attempt a ringTimeoutSeconds caller) <$> attempts)
              ringTimeoutSeconds true
        | Queue.fan_one => dial_one (queue_attempt first ringTimeoutSeconds caller) 0 true
        end;
      mret (match (outcome : DialOutcome) with
            | Answered id index => QueueSession.DialAnswered (agent_at first attempts index) id
            | Failed cause index => QueueSession.DialFailed (agent_at first attempts index) cause
            | Aborted => QueueSession.DialAborted
            | TimedOut => QueueSession.DialTimeout
            end)
  end.

(** A port of the session that is not the walker's. *)
Definition queue_port {A} (a : QueueSession.Action) (op : W → W * result string A) : M A :=
  port (ActQueue a) op.

(** [queueCallPort]: what the session asks of the call. *)
Definition queue_unit (a : QueueSession.Action) : M unit :=
  match a with
  | QueueSession.ActStartMusic mohClass =>
      try_catch (call (ActStartMusic mohClass)) (λ e, note (NoteMusicFailed e))
  | QueueSession.ActStopMusic => try_catch (call ActStopMusic) (λ _, mret tt)
  | QueueSession.ActHangupAgent id => hangupQuietly id NORMAL_TEMPORARY_FAILURE
  | QueueSession.ActDelay ms => call (ActDelay ms)
  | _ => queue_port a (λ w, ww_queueUnit w a)
  end.

Definition queue_bool (a : QueueSession.Action) : M bool :=
  match a with
  | QueueSession.ActEnsureAnswered => ensureAnswered
  | QueueSession.ActPlay media =>
      played ← execute (VPlay media);
      mret (bool_decide (is_Some (played : option VerbResult)))
  | QueueSession.ActBridge id agent =>
      result ← bridgeWith id (Some agent);
      mret (match (result : StepResult) with Bridged => true | _ => false end)
  | _ => mret false
  end.

(** The settings a session is given: the deployment's win over the walker's. *)
Definition queue_ring_seconds : Z :=
  default (defaultRingTimeoutSeconds set) (queue_agentRingTimeoutSeconds cfg).

Definition queue_config (node : QueuePlanNode) : QueueSession.SessionConfig := {|
  QueueSession.node := node;
  QueueSession.call_callId := callId cfg;
  QueueSession.organizationId := organizationId cfg;
  QueueSession.callerLegId := channelId cfg;
  QueueSession.resolvePrompt := resolve_prompt;
  QueueSession.spellNumber := λ n, spellNumber (TimeConditions.number_string (Some n));
  QueueSession.pollIntervalMs := queue_pollIntervalMs cfg;
  QueueSession.agentRingTimeoutSeconds := queue_ring_seconds |}.

(** The world of a session is the walker and its world. *)
#[local] Instance queue_world : QueueSession.QueueWorld (Walker * W) := {
  QueueSession.w_now := λ st, ww_now st.2;
  QueueSession.w_tearingDown := λ st, ww_tearingDown st.2;
  QueueSession.w_random := λ st, ww_queueRandom st.2;
  QueueSession.w_cursor := λ st, ww_queueCursor st.2;
  QueueSession.w_positionOf := λ st, ww_queuePosition st.2;
  QueueSession.w_done := λ st, ww_queueDone st.2;
  QueueSession.w_unit := λ st a, queue_unit a st;
  QueueSession.w_bool := λ st a, queue_bool a st;
  QueueSession.w_join := λ '(s, w), let '(w', n) := ww_queueJoin w in ((s, w'), n);
  QueueSession.w_membership := λ st, queue_port QueueSession.ActMembership ww_queueMembership st;
  QueueSession.w_states := λ st ids,
    queue_port (QueueSession.ActReadStates ids) (λ w, ww_queueStates w ids) st;
  QueueSession.w_dial := λ st attempts fan, dialQueueAgents attempts fan queue_ring_seconds st;
  QueueSession.w_reserve := λ st request now,
    queue_port (QueueSession.ActReserve request now) (λ w, ww_queueReserve w request now) st;
  QueueSession.w_transition := λ st request,
    queue_port (QueueSession.ActTransition request) (λ w, ww_queueTransition w request) st;
  QueueSession.w_readState := λ st agent,
    queue_port (QueueSession.ActReadState agent) (λ w, ww_queueReadState w agent) st;
  QueueSession.w_retry := λ st request,
    queue_port (QueueSession.ActScheduleRetry request QueueSession.RELEASE_RETRY_INITIAL_MS)
      (λ w, ww_queueRetry w request) st }.

(** A session observed for at most [passes] passes; its own trace is not kept. *)
Definition run_session (node : QueuePlanNode) (passes : nat) : M (option QueueSession.QueueOutcome) := λ st,
  match QueueSession.run dateParse (queue_config node) passes (QueueSession.session_init, st) with
  | ((_, st'), r) => (st', r)
  end.

(** [queueNode]: [None] while the caller still waits. *)
Definition queueNode (node : QueuePlanNode) (passes : nat) : M (option StepResult) :=
  if negb (has_queue cfg) then
    _ ← note (NoteNoQueue (queue_queueId node));
    r ← unavailable FACILITY_NOT_IMPLEMENTED; mret (Some r)
  else
    outcome ← run_session node passes;
    mret ((λ o, match o with
                | QueueSession.OutAnswered _ _ => Bridged
                | QueueSession.OutTimeout _ _ => branch (queue_timeoutNodeId node) ALLOTTED_TIMEOUT
                | QueueSession.OutAbandoned _ | QueueSession.OutAborted => StepAborted
                | QueueSession.OutFailed _ => Hangup NORMAL_TEMPORARY_FAILURE
                end) <$> (outcome : option QueueSession.QueueOutcome)).

(** ** The walk *)
Definition settled (body : M StepResult) : M (option StepResult) := r ← body; mret (Some r).

Definition step (passes : nat) (node : PlanNode) (input : WalkInput) : M (option StepResult) :=
  let id := node_id node in
  match node_body node with
  | HangupNode n => mret (Some (Hangup (hu_cause n)))
  | PlaybackNode n => settled (playbackNode id n)
  | TimeConditionNode n => settled (timeConditionNode n input)
  | ExtensionNode n => settled (extensionNode n input)
  | RingGroupNode n => settled (ringGroupNode n input)
  | IvrMenuNode n => settled (ivrMenuNode n)
  | VoicemailNode n => settled (voicemailNode n input)
  | TrunkDialNode n => settled (trunkDialNode id n input)
  | ExternalNode n => settled (externalNode id n input)
  | FeatureCodeNode n => settled (featureCodeNode n input)
  | QueueNode n => queueNode n passes
  | ConferenceNode n => settled (conferenceNode n)
  | ParkNode n => settled (parkNode n input)
  | ApplicationNode _ => settled (_ ← note NoteNotImplemented; unavailable FACILITY_NOT_IMPLEMENTED)
  end.

Definition outcome (status : WalkStatus) (cause : option HangupCause) : M WalkOutcome := λ '(s, w),
  ((s, w), Ok {| status := status; hangupCause := cause; out_destination := destination s;
                 out_visited := visited s; out_notes := notes s |}).

Definition terminate (cause : HangupCause) (status : WalkStatus) : M WalkOutcome :=
  tearing ← isTearingDown;
  _ ← (if (tearing : bool) then mret tt else execute_ (VHangup cause));
  outcome status (Some cause).

(** The destination of a node is reported when it changes. *)
Definition report_destination (node : PlanNode) : M unit :=
  match planDestinationOf node with
  | None => mret tt
  | Some d =>
      current ← get_destination;
      if sameDestination current (Some d) then mret tt
      else _ ← set_destination d; call (ActDestination d)
  end.

(** What follows a step. *)
Inductive Turn := TurnGoto (nodeId : PlanNodeId) | TurnDone (out : option WalkOutcome).

Definition turn_of (result : option StepResult) : M Turn :=
  match result with
  | None => mret (TurnDone None)
  | Some (Goto next) => mret (TurnGoto next)
  | Some (Hangup cause) => out ← terminate cause walk_hangup; mret (TurnDone (Some out))
  | Some Bridged => out ← outcome walk_bridged None; mret (TurnDone (Some out))
  | Some StepAborted => out ← outcome walk_aborted None; mret (TurnDone (Some out))
  end.

(** The body of the loop. A step that throws ends the call; what follows the
    [try] block is outside it. *)
Definition turn (passes : nat) (input : WalkInput) (nodeId : PlanNodeId) : M Turn :=
  gone ← abandoned;
  if (gone : bool) then out ← outcome walk_aborted None; mret (TurnDone (Some out))
  else
    match plan_nodes (plan input) !! nodeId with
    | None =>
        _ ← note (NoteMissingNode nodeId);
        out ← terminate NORMAL_TEMPORARY_FAILURE walk_hangup; mret (TurnDone (Some out))
    | Some node =>
        _ ← visit nodeId;
        _ ← report_destination node;
        stepped ← attempting (step passes node input);
        match (stepped : result string (option StepResult)) with
        | Ok r => turn_of r
        | Throw e =>
            _ ← note (NoteNodeFailed nodeId e);
            out ← terminate NORMAL_TEMPORARY_FAILURE walk_hangup; mret (TurnDone (Some out))
        end
    end.

(** The loop, with the steps that are left. *)
Fixpoint walk_loop (passes : nat) (input : WalkInput) (steps : nat) (nodeId : PlanNodeId)
    : M (option WalkOutcome) :=
  match steps with
  | O =>
      _ ← note (NoteExhausted (maxPlanSteps set));
      out ← terminate EXCHANGE_ROUTING_ERROR walk_exhausted; mret (Some out)
  | S steps =>
      t ← turn passes input nodeId;
      match (t : Turn) with
      | TurnGoto next => walk_loop passes input steps next
      | TurnDone out => mret out
      end
  end.

(** [walk], observed for at most [passes] passes of each queue: [None] while the
    caller waits in one. *)
Definition walk (passes : nat) (input : WalkInput) : M (option WalkOutcome) :=
  walk_loop passes input (maxPlanSteps set) (entryNodeId (plan input)).

End Walker.
End PlanWalker.
