(* ===== verification/WalkDemo.v ===== *)
(** * A scripted world

    A world for the walker that answers from a script, on which the witnesses run: the
    results of the verbs, the schedules of the dials and the signals of a recording
    are taken from lists, the ids are numbered, the actions of [sc_fails]
    throw and everything else succeeds. *)

From stdpp Require Import pretty.
From S2P Require Import Prelude HangupCauses Agents Queue QueueSession Trunks ConferenceRegistry Plan.
From S2P Require Import MediaRefs Dial PlanWalker.

Module WalkDemo.
Import MediaRefs Dial PlanWalker.

Record Script := {
  sc_ids : nat;
  sc_answered : bool;
  sc_verbs : list (result string (option VerbResult));
  sc_ones : list (list (Moment * OneEvent));
  sc_races : list (list (Moment * RaceEvent));
  sc_recording : list RecordingSignal;
  sc_fails : Action → bool;
  sc_trunks : Trunks.TrunkCapacityRegistry }.

Definition script_init : Script :=
  {| sc_ids := 0; sc_answered := true; sc_verbs := []; sc_ones := []; sc_races := [];
     sc_recording := []; sc_fails := λ _, false; sc_trunks := Trunks.capacity_init |}.

Definition set_ids n (w : Script) : Script :=
  {| sc_ids := n; sc_answered := sc_answered w; sc_verbs := sc_verbs w; sc_ones := sc_ones w;
     sc_races := sc_races w; sc_recording := sc_recording w; sc_fails := sc_fails w; sc_trunks := sc_trunks w |}.

Definition set_verbs l (w : Script) : Script :=
  {| sc_ids := sc_ids w; sc_answered := sc_answered w; sc_verbs := l; sc_ones := sc_ones w;
     sc_races := sc_races w; sc_recording := sc_recording w; sc_fails := sc_fails w; sc_trunks := sc_trunks w |}.

Definition set_ones l (w : Script) : Script :=
  {| sc_ids := sc_ids w; sc_answered := sc_answered w; sc_verbs := sc_verbs w; sc_ones := l;
     sc_races := sc_races w; sc_recording := sc_recording w; sc_fails := sc_fails w; sc_trunks := sc_trunks w |}.

Definition set_races l (w : Script) : Script :=
  {| sc_ids := sc_ids w; sc_answered := sc_answered w; sc_verbs := sc_verbs w; sc_ones := sc_ones w;
     sc_races := l; sc_recording := sc_recording w; sc_fails := sc_fails w; sc_trunks := sc_trunks w |}.

Definition set_recording l (w : Script) : Script :=
  {| sc_ids := sc_ids w; sc_answered := sc_answered w; sc_verbs := sc_verbs w; sc_ones := sc_ones w;
     sc_races := sc_races w; sc_recording := l; sc_fails := sc_fails w; sc_trunks := sc_trunks w |}.

Definition set_trunks t (w : Script) : Script :=
  {| sc_ids := sc_ids w; sc_answered := sc_answered w; sc_verbs := sc_verbs w; sc_ones := sc_ones w;
     sc_races := sc_races w; sc_recording := sc_recording w; sc_fails := sc_fails w; sc_trunks := t |}.

Definition set_fails f (w : Script) : Script :=
  {| sc_ids := sc_ids w; sc_answered := sc_answered w; sc_verbs := sc_verbs w; sc_ones := sc_ones w;
     sc_races := sc_races w; sc_recording := sc_recording w; sc_fails := f; sc_trunks := sc_trunks w |}.

Definition quiet_moment : Moment := {| m_abandoned := false; m_newId := "id" |}.

Definition fine {A} (a : A) (w : Script) : Script * result string A := (w, Ok a).

(** Reservations and releases reach the registry of the script. *)
Definition script_sync (a : Action) (w : Script) : Script :=
  match a with
  | ActRelease r => set_trunks (Trunks.release (sc_trunks w) r) w
  | ActBindTo r id => set_trunks (Trunks.bindTo (sc_trunks w) r id) w
  | _ => w
  end.

Definition script_world : WalkerWorld Script := {|
  ww_now := λ _, 0%Z;
  ww_tearingDown := λ _, false;
  ww_answered := sc_answered;
  ww_detached := λ _, false;
  ww_callerIdNumber := λ _, Some "1001";
  ww_callerIdName := λ _, None;
  ww_random := λ w, (w, []);
  ww_newId := λ w, (set_ids (S (sc_ids w)) w, "id-" +:+ pretty (sc_ids w));
  ww_sync := λ w a, script_sync a w;
  ww_unit := λ w a, if sc_fails w a then (w, Throw "failed") else fine tt w;
  ww_verb := λ w _,
    match sc_verbs w with [] => fine (Some OtherResult) w | r :: rest => (set_verbs rest w, r) end;
  ww_answerSignals := λ w, (w, []);
  ww_recording := λ w, (w, sc_recording w);
  ww_hold := λ w, (w, false);
  ww_one := λ w _ _,
    match sc_ones w with [] => (w, ([], quiet_moment)) | l :: rest => (set_ones rest w, (l, quiet_moment)) end;
  ww_race := λ w _,
    match sc_races w with [] => (w, ([], quiet_moment)) | l :: rest => (set_races rest w, (l, quiet_moment)) end;
  ww_control := λ w _, fine {| co_ok := true; co_slot := None; co_reason := None |} w;
  ww_reserve := λ w id max, let '(t, r) := Trunks.reserve (sc_trunks w) "org" id max in (set_trunks t w, r);
  ww_join := λ w _ m bridge _,
    fine (ConferenceRegistry.Joined
      {| ConferenceRegistry.cr_conferenceId := "room"; ConferenceRegistry.cr_bridgeId := bridge;
         ConferenceRegistry.cr_members := [m]; ConferenceRegistry.cr_moderatorPresent := false;
         ConferenceRegistry.cr_memberCount := 1 |} true) w;
  ww_leave := λ w _,
    fine {| ConferenceRegistry.departed := None; ConferenceRegistry.d_memberCount := 0;
            ConferenceRegistry.emptied := true |} w;
  ww_room := λ _ _, None;
  ww_refresh := λ w _, fine false w;
  ww_list := λ w _, fine {| vl_found := true; vl_messages := []; vl_reason := None |} w;
  ww_queueRandom := λ _ _, 0%Z;
  ww_queueCursor := λ _, None;
  ww_queuePosition := λ _, 1%Z;
  ww_queueDone := λ _, [];
  ww_queueUnit := λ w _, fine tt w;
  ww_queueJoin := λ w, (w, 1%Z);
  ww_queueMembership := fine None;
  ww_queueStates := λ w _, fine ∅ w;
  ww_queueReserve := λ w _ _, fine None w;
  ww_queueTransition := λ w _, fine None w;
  ww_queueReadState := λ w _, fine Agents.ReadAbsent w;
  ww_queueRetry := λ w _, fine false w |}.

Definition demo_config : WalkerConfig := {|
  settings := DEFAULT_PLAN_WALKER_SETTINGS;
  mediaChannelId := "a-leg";
  channelId := "chan-a";
  callId := "call-1";
  organizationId := "org";
  peerLegId := λ _, None;
  has_voicemail := true;
  has_mailbox := true;
  has_queue := true;
  has_conferences := true;
  has_control := true;
  has_trunkCapacity := true;
  queue_pollIntervalMs := 1000;
  queue_agentRingTimeoutSeconds := None |}.

Definition demo_input (p : Plan.ExecutionPlan) : WalkInput := {|
  plan := p;
  in_timeConditions := ∅;
  in_now := None;
  dialedNumber := Some "911";
  originalDialedNumber := Some "9911";
  in_callerIdNumber := None;
  in_callerIdName := None;
  featureArgument := None;
  in_mailboxes := ∅ |}.

Definition no_plan : Plan.ExecutionPlan := {| Plan.entryNodeId := ""; Plan.plan_nodes := ∅ |}.

(** A key function that knows one PIN. *)
Definition demo_kdf : Kdf := {|
  decode := λ s, s;
  scrypt := λ pin _ _ _, if bool_decide (pin = "1234") then Some "AAAAAAAAAAAAAAAAAAAAAAAAAAAAAAAAAAAAAAAAAAA=" else None |}.

Definition demo_pinHash : string :=
  "scrypt$N=16384,r=8,p=1$AAAAAAAAAAAAAAAAAAAAAA==$AAAAAAAAAAAAAAAAAAAAAAAAAAAAAAAAAAAAAAAAAAA=".

Lemma demo_pin : verifyPinDigest demo_kdf "1234" demo_pinHash = PinOk.
Proof. vm_compute. reflexivity. Qed.
End WalkDemo.
