(* ===== verification/WalkLogic.v ===== *)
(** * Reasoning about a walk

    What the operations of PlanWalker.v and of a queue session do to the state they
    thread. A relation on worlds that every port keeps is kept by a whole session;
    an operation of the walker [writes] actions of a class when it only appends
    such actions to the trace. *)

From S2P Require Import Prelude HangupCauses Patterns TimeConditions Agents Queue QueueSession Plan ConferenceRegistry MediaRefs Dial PlanWalker.

Module WalkLogic.

(** ** Sessions *)
Create HintDb respects.

Section Session.
Context {W : Type} `{!QueueSession.QueueWorld W} (R : relation W) `{!PreOrder R}.

Definition respects {A} (m : QueueSession.M A (W := W)) : Prop := ∀ st, R st.2 (m st).1.2.

(** Every port of the world keeps [R]. *)
Record ports_respect : Prop := {
  pr_unit : ∀ w a, R w (QueueSession.w_unit w a).1;
  pr_bool : ∀ w a, R w (QueueSession.w_bool w a).1;
  pr_join : ∀ w, R w (QueueSession.w_join w).1;
  pr_membership : ∀ w, R w (QueueSession.w_membership w).1;
  pr_states : ∀ w ids, R w (QueueSession.w_states w ids).1;
  pr_dial : ∀ w l f, R w (QueueSession.w_dial w l f).1;
  pr_reserve : ∀ w q n, R w (QueueSession.w_reserve w q n).1;
  pr_transition : ∀ w q, R w (QueueSession.w_transition w q).1;
  pr_readState : ∀ w a, R w (QueueSession.w_readState w a).1;
  pr_retry : ∀ w q, R w (QueueSession.w_retry w q).1 }.

Context (ports : ports_respect).

Lemma respects_ret {A} (a : A) : respects (mret a).
Proof. intros st. reflexivity. Qed.

Lemma respects_bind {A B} (m : QueueSession.M A) (k : A → QueueSession.M B) :
  respects m → (∀ a, respects (k a)) → respects (m ≫= k).
Proof.
  intros Hm Hk st. unfold mbind, QueueSession.M_bind. specialize (Hm st).
  destruct (m st) as [st' [a|e]]; simpl in *; [|done]. etrans; [done|apply Hk].
Qed.

Lemma respects_get : respects QueueSession.get.
Proof. intros st. reflexivity. Qed.

Lemma respects_modify f : respects (QueueSession.modify f).
Proof. intros [s w]. simpl. reflexivity. Qed.

Lemma respects_port {A} a (op : W → W * result string A) :
  (∀ w, R w (op w).1) → respects (QueueSession.port a op).
Proof.
  intros Hop [s w]. specialize (Hop w). unfold QueueSession.port.
  destruct (op w) as [w' r]. done.
Qed.

Lemma respects_port_ans {A} a ans (op : W → W * result string A) :
  (∀ w, R w (op w).1) → respects (QueueSession.port_ans a ans op).
Proof.
  intros Hop [s w]. specialize (Hop w). unfold QueueSession.port_ans.
  destruct (op w) as [w' r]. done.
Qed.

Lemma respects_try_finally {A} (m : QueueSession.M A) f :
  respects m → respects f → respects (QueueSession.try_finally m f).
Proof.
  intros Hm Hf st. unfold QueueSession.try_finally. specialize (Hm st).
  destruct (m st) as [st1 r]. simpl in *. specialize (Hf st1).
  destruct (f st1) as [st2 []]; simpl in *; by etrans.
Qed.

Lemma respects_try_catch {A} (m : QueueSession.M A) h :
  respects m → (∀ e, respects (h e)) → respects (QueueSession.try_catch m h).
Proof.
  intros Hm Hh st. unfold QueueSession.try_catch. specialize (Hm st).
  destruct (m st) as [st1 [a|e]]; simpl in *; [done|]. etrans; [done|apply Hh].
Qed.

Ltac respects_tac :=
  repeat (first
    [ done
    | solve [auto 1 with respects nocore]
    | apply respects_bind; [|intros ?]
    | apply respects_ret | apply respects_get | apply respects_modify
    | apply respects_port; intros ?; by apply ports
    | apply respects_port_ans; intros ?; by apply ports
    | apply respects_try_finally | apply respects_try_catch; [|intros ?]
    | progress case_match
    | progress unfold QueueSession.call_unit, QueueSession.call_bool, QueueSession.call_sync,
        QueueSession.waited ]).

Lemma respects_releaseEach cfg cs cause : respects (QueueSession.releaseEach cfg cs cause).
Proof.
  induction cs as [|c cs IH]; cbn [QueueSession.releaseEach]; unfold QueueSession.tryOwnedTransition;
    respects_tac.
Qed.

Hint Resolve respects_releaseEach : respects.

Lemma respects_startMusic cfg : respects (QueueSession.startMusic cfg).
Proof. unfold QueueSession.startMusic. respects_tac. Qed.

Hint Resolve respects_startMusic : respects.

Lemma respects_announce cfg : respects (QueueSession.announceIfDue cfg).
Proof.
  assert (∀ l, respects (QueueSession.playDigits l)) as Hd.
  { induction l; cbn [QueueSession.playDigits]; respects_tac. }
  unfold QueueSession.announceIfDue. respects_tac.
Qed.

Lemma respects_offer cfg candidates : respects (QueueSession.offer cfg candidates).
Proof.
  assert (∀ l, respects (QueueSession.reserveEach cfg l)) as Hd.
  { induction l; cbn [QueueSession.reserveEach]; respects_tac. }
  unfold QueueSession.offer, QueueSession.offer_body, QueueSession.offer_reserved,
    QueueSession.answered, QueueSession.take_call, QueueSession.report_and_bridge, QueueSession.abandon.
  unfold QueueSession.releaseAll. respects_tac.
Qed.
Hint Resolve respects_announce respects_offer : respects.

(** A session keeps what every port keeps. *)
Lemma respects_run dateParse cfg n : respects (QueueSession.run dateParse cfg n).
Proof.
  assert (respects (QueueSession.pass dateParse cfg)) as Hp.
  { unfold QueueSession.pass, QueueSession.timeOut, QueueSession.abandon.
    respects_tac. }
  assert (∀ n, respects (QueueSession.loop dateParse cfg n)) as Hl.
  { clear n. induction n; cbn [QueueSession.loop]; respects_tac. }
  unfold QueueSession.run, QueueSession.wait, QueueSession.playGreeting.
  respects_tac.
  intros [s' w']. pose proof (pr_join ports w') as Hj. simpl in *.
  destruct (QueueSession.w_join w'). done.
Qed.
End Session.

(** ** Walks *)
Create HintDb writes.
Create HintDb goes discriminated.
#[local] Hint Constants Opaque : goes.

Import Plan MediaRefs Dial PlanWalker.

Section Walk.
Context (RegExp : string → result string Patterns.exec_fun).
Context (formatToParts : string → Z → result string (list (TimeConditions.part_type * string))).
Context (kdf : Kdf) (dateParse : string → option Z).
Context {W : Type} `{!WalkerWorld W} (cfg : WalkerConfig).
Notation M := (@PlanWalker.M W).

(** The notes of a step: those of the loop are not among them. *)
Definition inner_note (n : Note) : Prop :=
  match n with NoteMissingNode _ | NoteNodeFailed _ _ | NoteExhausted _ => False | _ => True end.

(** What an operation of the walk keeps, and the actions of [P] it appends. *)
Definition wrote (P : Action → Prop) (st st' : Walker * W) : Prop :=
  (∃ l, trace st'.1 = trace st.1 ++ l ∧ Forall P l) ∧
  (∃ l, notes st'.1 = notes st.1 ++ l ∧ Forall inner_note l) ∧
  visited st'.1 = visited st.1 ∧ destination st'.1 = destination st.1.

Lemma wrote_intro P s s' w w' l ns :
  trace s' = trace s ++ l → notes s' = notes s ++ ns → Forall P l → Forall inner_note ns →
  visited s' = visited s → destination s' = destination s → wrote P (s, w) (s', w').
Proof. intros. split_and!; [by exists l|by exists ns|done|done]. Qed.

#[local] Instance wrote_preorder P : PreOrder (wrote P).
Proof.
  split.
  - intros [s w]. apply (wrote_intro P s s w w [] []); by rewrite ?app_nil_r.
  - intros st st' st'' ((l & Ht & Hl) & (n & Hn & Hf) & Hv & Hd)
      ((l' & Ht' & Hl') & (n' & Hn' & Hf') & Hv' & Hd').
    split_and!; [exists (l ++ l')|exists (n ++ n')|congruence|congruence].
    + rewrite Ht', Ht, app_assoc. split; [done|by apply Forall_app].
    + rewrite Hn', Hn, app_assoc. split; [done|by apply Forall_app].
Qed.

Definition writes {A} (P : Action → Prop) (m : M A) : Prop := ∀ st, wrote P st (m st).1.

Lemma wrote_weaken (P Q : Action → Prop) st st' :
  (∀ a, P a → Q a) → wrote P st st' → wrote Q st st'.
Proof.
  intros HPQ ((l & Ht & Hl) & H). split; [|done]. exists l. split; [done|].
  eapply Forall_impl; [exact Hl|auto].
Qed.

Lemma writes_weaken {A} (P Q : Action → Prop) (m : M A) :
  (∀ a, P a → Q a) → writes P m → writes Q m.
Proof. intros HPQ Hm st. by eapply wrote_weaken. Qed.

Lemma wrote_log P acts s w w' : Forall P acts → wrote P (s, w) (log acts s, w').
Proof. intros H. apply (wrote_intro P _ _ _ _ acts []); by rewrite ?app_nil_r. Qed.

Lemma wrote_world P s w w' : wrote P (s, w) (s, w').
Proof. apply (wrote_intro P s s w w' [] []); by rewrite ?app_nil_r. Qed.

Lemma writes_ret {A} P (a : A) : writes P (mret a).
Proof. intros st. reflexivity. Qed.

Lemma writes_throw {A} P e : writes P (throw e : M A).
Proof. intros st. simpl. reflexivity. Qed.

Lemma writes_bind {A B} P (m : M A) (k : A → M B) :
  writes P m → (∀ a, writes P (k a)) → writes P (m ≫= k).
Proof.
  intros Hm Hk st. unfold mbind, M_bind. specialize (Hm st).
  destruct (m st) as [st' [a|e]]; simpl in *; [|done]. etrans; [exact Hm|apply Hk].
Qed.

Lemma writes_try {A} P (m : M A) h :
  writes P m → (∀ e, writes P (h e)) → writes P (try_catch m h).
Proof.
  intros Hm Hh st. unfold try_catch. specialize (Hm st).
  destruct (m st) as [st' [a|e]]; simpl in *; [done|]. etrans; [exact Hm|apply Hh].
Qed.

Lemma writes_attempting {A} P (m : M A) : writes P m → writes P (attempting m).
Proof. intros Hm st. unfold attempting. specialize (Hm st). by destruct (m st). Qed.

Lemma writes_reads {A} P (f : W → A) : writes P (reads f).
Proof. intros [s w]. simpl. reflexivity. Qed.

Lemma writes_get_destination P : writes P get_destination.
Proof. intros [s w]. simpl. reflexivity. Qed.

Lemma writes_port {A} (P : Action → Prop) a (op : W → W * result string A) : P a → writes P (port a op).
Proof. intros Ha [s w]. unfold port. destruct (op w). apply wrote_log. by constructor. Qed.

Lemma writes_port_ans {A} (P : Action → Prop) a (op : W → W * result string A) :
  (∀ r, P (a r)) → writes P (port_ans a op).
Proof. intros Ha [s w]. unfold port_ans. destruct (op w). apply wrote_log. by constructor. Qed.

Lemma writes_act (P : Action → Prop) a : P a → writes P (act a).
Proof. intros Ha [s w]. apply wrote_log. by constructor. Qed.

Lemma writes_ask {A} P (op : W → W * A) : writes P (ask op).
Proof. intros [s w]. unfold ask. destruct (op w). apply wrote_world. Qed.

Lemma writes_note P n : inner_note n → writes P (note n).
Proof. intros Hn [s w]. apply (wrote_intro P _ _ _ _ [] [n]); by rewrite ?app_nil_r; try constructor. Qed.

Lemma writes_dialled (P : Action → Prop) acts ns :
  (∀ a, P (ActLeg a)) → writes P (dialled acts ns).
Proof.
  intros HP [s w]. apply (wrote_intro P _ _ _ _ (ActLeg <$> acts) (NoteDial <$> ns)); try done;
    by apply Forall_fmap, Forall_true.
Qed.

Lemma writes_reserve (P : Action → Prop) a :
  (∀ r, P (ActReserve (trunkId a) (trunk_maxChannels a) r)) → writes P (reserve cfg a).
Proof.
  intros Ha [s w]. unfold reserve. destruct (has_trunkCapacity cfg); [|reflexivity].
  destruct (ww_reserve _ _ _). apply wrote_log. by constructor.
Qed.
(** *** What an operation emits *)

(** [m] appends actions that are related to its result by [Φ]. *)
Definition emits {A} (Φ : list Action → result string A → Prop) (m : M A) : Prop :=
  ∀ st, ∃ l, trace (m st).1.1 = trace st.1 ++ l ∧ Φ l (m st).2.

Lemma emits_bind {A B} (Φ : list Action → result string A → Prop) Θ (m : M A) (k : A → M B) :
  emits Φ m → (∀ l e, Φ l (Throw e) → Θ l (Throw e)) →
  (∀ l a, Φ l (Ok a) → emits (λ l2 r, Θ (l ++ l2) r) (k a)) → emits Θ (m ≫= k).
Proof.
  intros Hm Ht Hk st. unfold mbind, M_bind. destruct (Hm st) as (l & Hl & HΦ).
  destruct (m st) as [st1 [a|e]]; simpl in *; [|by exists l; auto].
  destruct (Hk l a HΦ st1) as (l2 & Hl2 & HΨ). exists (l ++ l2). by rewrite Hl2, Hl, app_assoc.
Qed.

Lemma emits_weaken {A} (Φ Ψ : list Action → result string A → Prop) (m : M A) :
  (∀ l r, Φ l r → Ψ l r) → emits Φ m → emits Ψ m.
Proof. intros H Hm st. destruct (Hm st) as (l & ? & ?). eauto. Qed.

Lemma emits_and {A} (Φ Ψ : list Action → result string A → Prop) (m : M A) :
  emits Φ m → emits Ψ m → emits (λ l r, Φ l r ∧ Ψ l r) m.
Proof.
  intros H1 H2 st. destruct (H1 st) as (l & Ht & ?), (H2 st) as (l' & Ht' & ?).
  rewrite Ht in Ht'. apply app_inv_head in Ht' as ->. eauto.
Qed.

Lemma emits_ret {A} (Φ : list Action → result string A → Prop) (a : A) : Φ [] (Ok a) → emits Φ (mret a).
Proof. intros H st. exists []. by rewrite app_nil_r. Qed.

Lemma emits_port {A} (Φ : list Action → result string A → Prop) a (op : W → W * result string A) :
  (∀ r, Φ [a] r) → emits Φ (port a op).
Proof. intros H [s w]. exists [a]. unfold port. by destruct (op w). Qed.

Lemma emits_act (Φ : list Action → result string unit → Prop) a : Φ [a] (Ok tt) → emits Φ (act a).
Proof. intros H [s w]. by exists [a]. Qed.

(** An operation that appends nothing and cannot throw. *)
Definition silent {A} (m : M A) : Prop := ∀ st, ∃ st' a, m st = (st', Ok a) ∧ trace st'.1 = trace st.1.

Lemma emits_silent {A B} Φ (m : M A) (k : A → M B) :
  silent m → (∀ a, emits Φ (k a)) → emits Φ (m ≫= k).
Proof.
  intros Hm Hk st. unfold mbind, M_bind. destruct (Hm st) as (st' & a & -> & Ht).
  destruct (Hk a st') as (l & Hl & H). exists l. by rewrite Hl, Ht.
Qed.

Lemma silent_reads {A} (f : W → A) : silent (reads f).
Proof. intros [s w]. by eexists _, _. Qed.

Lemma silent_get_destination : silent get_destination.
Proof. intros [s w]. by eexists _, _. Qed.

Lemma silent_ask {A} (op : W → W * A) : silent (ask op).
Proof. intros [s w]. unfold ask. destruct (op w). by eexists _, _. Qed.

Lemma silent_note n : silent (note n).
Proof. intros [s w]. by eexists _, _. Qed.

Lemma silent_ret {A} (a : A) : silent (mret a).
Proof. intros st. by eexists _, _. Qed.

Lemma emits_port_bind {A B} (Θ : list Action → result string B → Prop) a (op : W → W * result string A) k :
  (∀ e, Θ [a] (Throw e)) → (∀ x, emits (λ l r, Θ (a :: l) r) (k x)) → emits Θ (port a op ≫= k).
Proof.
  intros Ht Hk [s w]. unfold mbind, M_bind, port. destruct (op w) as [w' [x|e]]; [|by exists [a]; split; [done|apply Ht]].
  destruct (Hk x (log [a] s, w')) as (l & Hl & H). exists (a :: l). simpl in *. by rewrite Hl, <- app_assoc.
Qed.

(** The same, with what is known of the answer. *)
Lemma emits_answer {A B} (Θ : list Action → result string B → Prop) a (op : W → W * result string A) k :
  (∀ e, Θ [a] (Throw e)) →
  (∀ w x, (op w).2 = Ok x → emits (λ l r, Θ (a :: l) r) (k x)) → emits Θ (port a op ≫= k).
Proof.
  intros Ht Hk [s w]. specialize (Hk w). unfold mbind, M_bind, port.
  destruct (op w) as [w' [x|e]]; [|by exists [a]; split; [done|apply Ht]].
  destruct (Hk x eq_refl (log [a] s, w')) as (l & Hl & H). exists (a :: l). simpl in *. by rewrite Hl, <- app_assoc.
Qed.

Lemma emits_port_ans_bind {A B} (Θ : list Action → result string B → Prop) a (op : W → W * result string A) k :
  (∀ e, Θ [a (Throw e)] (Throw e)) → (∀ x, emits (λ l r, Θ (a (Ok x) :: l) r) (k x)) → emits Θ (port_ans a op ≫= k).
Proof.
  intros Ht Hk [s w]. unfold mbind, M_bind, port_ans.
  destruct (op w) as [w' [x|e]]; [|by exists [a (Throw e)]; split; [done|apply Ht]].
  destruct (Hk x (log [a (Ok x)] s, w')) as (l & Hl & H). exists (a (Ok x) :: l). simpl in *. by rewrite Hl, <- app_assoc.
Qed.

Lemma emits_act_bind {B} (Θ : list Action → result string B → Prop) a (k : unit → M B) :
  emits (λ l r, Θ (a :: l) r) (k tt) → emits Θ (act a ≫= k).
Proof.
  intros Hk [s w]. unfold mbind, M_bind, act.
  destruct (Hk (log [a] s, ww_sync w a)) as (l & Hl & H). exists (a :: l).
  simpl in *. by rewrite Hl, <- app_assoc.
Qed.

Lemma emits_try {A} (Φ Θ : list Action → result string A → Prop) (m : M A) h :
  emits Φ m → (∀ l a, Φ l (Ok a) → Θ l (Ok a)) →
  (∀ l e, Φ l (Throw e) → emits (λ l2 r, Θ (l ++ l2) r) (h e)) → emits Θ (try_catch m h).
Proof.
  intros Hm Ho Hh st. unfold try_catch. destruct (Hm st) as (l & Hl & HΦ).
  destruct (m st) as [st1 [a|e]]; simpl in *; [by exists l; auto|].
  destruct (Hh l e HΦ st1) as (l2 & Hl2 & HΨ). exists (l ++ l2). by rewrite Hl2, Hl, app_assoc.
Qed.

Lemma writes_emits {A} P (m : M A) : writes P m → emits (λ l _, Forall P l) m.
Proof. intros Hm st. destruct (Hm st) as [H _]. exact H. Qed.

Lemma emits_any {A} (m : M A) : writes (λ _, True) m → emits (λ _ _, True) m.
Proof. intros Hm. eapply emits_weaken; [done|by apply writes_emits]. Qed.

(** *** Where a step goes *)
Definition yields {A} (Q : A → Prop) (m : M A) : Prop :=
  ∀ st, match (m st).2 with Ok a => Q a | Throw _ => True end.

Lemma yields_ret {A} (Q : A → Prop) (a : A) : Q a → yields Q (mret a).
Proof. by intros ? ?. Qed.

Lemma yields_throw {A} (Q : A → Prop) e : yields Q (throw e : M A).
Proof. done. Qed.

Lemma yields_bind {A B} (Q : B → Prop) (m : M A) (k : A → M B) :
  (∀ a, yields Q (k a)) → yields Q (m ≫= k).
Proof.
  intros Hk st. unfold mbind, M_bind. destruct (m st) as [st' [a|e]]; [apply Hk|done].
Qed.

Lemma yields_use {A B} (P : A → Prop) (Q : B → Prop) (m : M A) (k : A → M B) :
  yields P m → (∀ a, P a → yields Q (k a)) → yields Q (m ≫= k).
Proof.
  intros Hm Hk st. unfold mbind, M_bind. specialize (Hm st).
  destruct (m st) as [st' [a|e]]; [by apply Hk|done].
Qed.

Lemma yields_weaken {A} (P Q : A → Prop) (m : M A) : (∀ a, P a → Q a) → yields P m → yields Q m.
Proof. intros HPQ Hm st. specialize (Hm st). destruct (m st).2; auto. Qed.

(** A branch is one of the targets. *)
Definition goes (targets : list (option PlanNodeId)) (r : StepResult) : Prop :=
  match r with Goto n => Some n ∈ targets | _ => True end.

Lemma goes_branch targets n c : n ∈ targets → goes targets (branch n c).
Proof. by destruct n. Qed.

End Walk.

#[export] Existing Instance wrote_preorder.

(** *** Automation *)
Ltac writes_tac :=
  repeat (first
    [ exact I
    | done
    | solve [auto 2 with writes nocore]
    | apply writes_bind; [|intros ?]
    | apply writes_ret | apply writes_throw | apply writes_reads | apply writes_get_destination
    | apply writes_ask | apply writes_note
    | apply writes_act | apply writes_port | apply writes_port_ans; intros ? | apply writes_reserve; intros ? | apply writes_dialled; intros ?
    | apply writes_try; [|intros ?]
    | progress case_match ]).

Ltac goes_step :=
  match goal with
  | |- yields _ (_ ≫= _) => apply yields_bind; intros ?
  | |- yields _ (mret _) => apply yields_ret
  | |- yields _ (throw _) => apply yields_throw
  | |- yields _ _ => solve [auto 8 with goes nocore]
  | |- goes _ (branch _ _) => solve [auto 8 with goes nocore]
  | |- goes _ (Goto _) => solve [unfold goes; auto 8 with goes nocore]
  | |- goes _ _ => exact I
  | _ => progress case_match
  end.

Ltac goes_tac := repeat goes_step.

(** One operation at a time, from the first on. *)
Ltac emits_step :=
  lazymatch goal with
  | |- emits _ (reads _ ≫= _) => apply emits_silent; [apply silent_reads|intros ?]
  | |- emits _ (isTearingDown ≫= _) => apply emits_silent; [apply silent_reads|intros ?]
  | |- emits _ (abandoned ≫= _) => apply emits_silent; [apply silent_reads|intros ?]
  | |- emits _ (get_destination ≫= _) => apply emits_silent; [apply silent_get_destination|intros ?]
  | |- emits _ (ask _ ≫= _) => apply emits_silent; [apply silent_ask|intros ?]
  | |- emits _ (newId ≫= _) => apply emits_silent; [apply silent_ask|intros ?]
  | |- emits _ (note _ ≫= _) => apply emits_silent; [apply silent_note|intros ?]
  | |- emits _ (mret _ ≫= _) => apply emits_silent; [apply silent_ret|intros ?]
  | |- emits _ (act _ ≫= _) => apply emits_act_bind
  | |- emits _ (port _ _ ≫= _) => apply emits_port_bind; [intros ?|intros ?]
  | |- emits _ (port_ans _ _ ≫= _) => apply emits_port_ans_bind; [intros ?|intros ?]
  | |- emits _ (call _ ≫= _) => apply emits_port_bind; [intros ?|intros ?]
  | |- emits _ (execute _ ≫= _) => apply emits_port_bind; [intros ?|intros ?]
  | |- emits _ (mret _) => apply emits_ret
  end.

(** *** The helpers *)
Section Helpers.
Context {W : Type} `{!WalkerWorld W} (cfg : WalkerConfig).
Notation M := (@PlanWalker.M W).

#[local] Hint Extern 3 => exact I : writes.

Lemma writes_execute (P : Action → Prop) v : P (ActVerb v) → writes P (execute v).
Proof. apply writes_port. Qed.

Lemma writes_execute_ (P : Action → Prop) v : P (ActVerb v) → writes P (execute_ v).
Proof. intros. unfold execute_, execute. writes_tac. Qed.

Lemma writes_call (P : Action → Prop) a : P a → writes P (call a).
Proof. apply writes_port. Qed.

Lemma writes_caught (P : Action → Prop) (m : M unit) : writes P m → writes P (caught m).
Proof. intros. unfold caught. writes_tac. Qed.

Lemma writes_abandoned P : writes P abandoned.
Proof. apply writes_reads. Qed.

Lemma writes_tearing P : writes P isTearingDown.
Proof. apply writes_reads. Qed.

Lemma writes_newId P : writes P newId.
Proof. apply writes_ask. Qed.
#[local] Hint Resolve writes_execute writes_execute_ writes_call writes_caught writes_abandoned
  writes_tearing writes_newId : writes.

Lemma writes_ensureAnswered (P : Action → Prop) :
  P (ActVerb VAnswer) → (∀ a, P (ActLeg a)) → writes P (ensureAnswered cfg).
Proof. intros. unfold ensureAnswered. writes_tac. Qed.
#[local] Hint Resolve writes_ensureAnswered : writes.

Lemma writes_announce (P : Action → Prop) media cause :
  P (ActVerb VAnswer) → (∀ a, P (ActLeg a)) → P (ActVerb (VPlay media)) →
  writes P (announceAndHangup cfg media cause).
Proof. intros. unfold announceAndHangup. writes_tac. Qed.

Lemma writes_hangupQuietly (P : Action → Prop) id cause :
  (∀ a, P (ActLeg a)) → writes P (hangupQuietly id cause).
Proof. intros. unfold hangupQuietly. writes_tac. Qed.
#[local] Hint Resolve writes_announce writes_hangupQuietly : writes.

Lemma writes_dial_one (P : Action → Prop) a i b : (∀ a, P (ActLeg a)) → writes P (dial_one cfg a i b).
Proof. intros. unfold dial_one. writes_tac. Qed.

Lemma writes_with_ids P l : writes P (with_ids l).
Proof. induction l as [|a l IH]; cbn [with_ids]; writes_tac. Qed.

Lemma writes_dial_simultaneous (P : Action → Prop) l o b :
  (∀ a, P (ActLeg a)) → writes P (dial_simultaneous cfg l o b).
Proof. intros. unfold dial_simultaneous. writes_tac. apply writes_with_ids. Qed.
#[local] Hint Resolve writes_dial_one writes_dial_simultaneous : writes.

Lemma writes_dialSequential (P : Action → Prop) l stop :
  (∀ a, P (ActLeg a)) → (∀ ms, P (ActDelay ms)) → writes P (dialSequential cfg l stop).
Proof.
  intros. unfold dialSequential. generalize 0 TimedOut. induction l as [|a l IH]; intros;
    cbn [dial_sequential]; writes_tac.
Qed.
#[local] Hint Resolve writes_dialSequential : writes.
End Helpers.

#[export] Hint Extern 3 => exact I : writes.
#[export] Hint Resolve writes_execute writes_execute_ writes_call writes_caught writes_abandoned
  writes_tearing writes_newId writes_ensureAnswered writes_announce writes_hangupQuietly
  writes_dial_one writes_dial_simultaneous writes_dialSequential : writes.
End WalkLogic.
