(* ===== verification/WalkSteps.v ===== *)
(** * The steps of a walk

    What every node of PlanWalker.v keeps: no step hangs the caller up, reports a
    destination or writes one of the notes of the loop, and a step goes only to a node
    its own node refers to. *)

From S2P Require Import Prelude HangupCauses Patterns TimeConditions Agents Queue QueueSession Plan ConferenceRegistry MediaRefs Dial PlanWalker WalkLogic.

Module WalkSteps.
Import Plan MediaRefs Dial PlanWalker WalkLogic.

Section Walk.
Context (RegExp : string → result string Patterns.exec_fun).
Context (formatToParts : string → Z → result string (list (TimeConditions.part_type * string))).
Context (kdf : Kdf) (dateParse : string → option Z).
Context {W : Type} `{!WalkerWorld W} (cfg : WalkerConfig).
Notation M := (@PlanWalker.M W).
Notation writes := (WalkLogic.writes (W:=W)).
Notation yields := (WalkLogic.yields (W:=W)).

(** *** The nodes hang no caller up *)
Definition spares_caller (a : Action) : Prop :=
  match a with ActVerb (VHangup _) | ActDestination _ => False | _ => True end.

Notation spares := (writes spares_caller).

Lemma spares_bridgeWith id agent : spares (bridgeWith cfg id agent).
Proof. unfold bridgeWith, peerLegIdOf. writes_tac. Qed.
#[local] Hint Resolve spares_bridgeWith : writes.

Lemma spares_settleDial o b n r : spares (settleDial cfg o b n r).
Proof. unfold settleDial. writes_tac. Qed.
#[local] Hint Resolve spares_settleDial : writes.

Lemma spares_unavailable cause : spares (unavailable cfg cause).
Proof. unfold unavailable. writes_tac. Qed.
#[local] Hint Resolve spares_unavailable : writes.

Lemma spares_playback id n : spares (playbackNode cfg id n).
Proof. unfold playbackNode. writes_tac. Qed.

Lemma spares_timeCondition n input : spares (timeConditionNode formatToParts n input).
Proof. unfold timeConditionNode. writes_tac. Qed.

Lemma spares_featureCode n input : spares (featureCodeNode cfg n input).
Proof. unfold featureCodeNode, pickupCode, control. writes_tac. Qed.

Lemma spares_park n input : spares (parkNode cfg n input).
Proof. unfold parkNode, parkIntoLot, retrieveFromLot, control. writes_tac. Qed.

Lemma spares_playPrompt p : spares (playPrompt cfg p).
Proof. unfold playPrompt. writes_tac. Qed.
#[local] Hint Resolve spares_playPrompt : writes.

Lemma spares_find_option l d : spares (find_option RegExp l d).
Proof. induction l as [|o l IH]; cbn [find_option]; writes_tac. Qed.
#[local] Hint Resolve spares_find_option : writes.

Lemma spares_ivr n : spares (ivrMenuNode RegExp cfg n).
Proof.
  assert (∀ fuel f t k, spares (ivr_loop RegExp cfg fuel n f t k)) as Hl.
  { induction fuel as [|fuel IH]; intros; cbn [ivr_loop]; writes_tac. }
  unfold ivrMenuNode. writes_tac.
Qed.

Lemma spares_ring : spares ring.
Proof. unfold ring. writes_tac. Qed.

Lemma spares_callerIdFor input p : spares (callerIdFor input p).
Proof. unfold callerIdFor. writes_tac. Qed.

Lemma spares_dial_ladder st l b o : spares (dial_ladder cfg st l b o).
Proof. unfold dial_ladder. writes_tac. Qed.
#[local] Hint Resolve spares_ring spares_callerIdFor spares_dial_ladder : writes.

Lemma spares_followMeAttempt n h input : spares (followMeAttempt cfg n h input).
Proof. unfold followMeAttempt. writes_tac. Qed.
#[local] Hint Resolve spares_followMeAttempt : writes.

Lemma spares_follow_me_attempts n l input : spares (follow_me_attempts cfg n l input).
Proof. induction l as [|h l IH]; cbn [follow_me_attempts]; writes_tac. Qed.
#[local] Hint Resolve spares_follow_me_attempts : writes.

Lemma spares_extension n input : spares (extensionNode cfg n input).
Proof. unfold extensionNode, followMeNode. writes_tac. Qed.

Lemma spares_ring_group_attempts n l input : spares (ring_group_attempts cfg n l input).
Proof. induction l as [|h l IH]; cbn [ring_group_attempts]; writes_tac. Qed.
#[local] Hint Resolve spares_ring_group_attempts : writes.

Lemma spares_ringGroup n input : spares (ringGroupNode cfg n input).
Proof. unfold ringGroupNode. writes_tac. Qed.

Lemma spares_trunk_loop number e elin n input l c : spares (trunk_loop cfg number e elin n input l c).
Proof.
  revert c. induction l as [|a l IH]; intros c; cbn [trunk_loop]; unfold with_reservation; writes_tac.
Qed.
#[local] Hint Resolve spares_trunk_loop : writes.

Lemma spares_trunkDial id n input : spares (trunkDialNode cfg id n input).
Proof. unfold trunkDialNode, notifyEmergency. writes_tac. Qed.

Lemma spares_external id n input : spares (externalNode cfg id n input).
Proof. unfold externalNode. writes_tac. Qed.

Lemma spares_challengeConferencePin n : spares (challengeConferencePin kdf cfg n).
Proof.
  assert (∀ k, spares (conference_attempts kdf cfg k n)) as Hl.
  { induction k as [|k IH]; cbn [conference_attempts];
      unfold check_digest, refuseConference, gather_pin; writes_tac. }
  unfold challengeConferencePin. writes_tac.
Qed.

Lemma spares_hold n : spares (holdForModerator cfg n).
Proof. unfold holdForModerator. writes_tac. Qed.
#[local] Hint Resolve spares_challengeConferencePin spares_hold : writes.

Lemma spares_conference n : spares (conferenceNode kdf cfg n).
Proof. unfold conferenceNode, enterRoom, leave. writes_tac. Qed.

Lemma spares_challengeVoicemailPin n m : spares (challengeVoicemailPin kdf cfg n m).
Proof.
  assert (∀ k h, spares (voicemail_attempts kdf cfg k m h)) as Hl.
  { induction k as [|k IH]; intros; cbn [voicemail_attempts]; unfold gather_pin; writes_tac. }
  unfold challengeVoicemailPin. writes_tac.
Qed.

Lemma spares_playSpelled l : spares (playSpelled l).
Proof. induction l; cbn [playSpelled]; writes_tac. Qed.
#[local] Hint Resolve spares_challengeVoicemailPin spares_playSpelled : writes.

Lemma spares_messages k m l r : spares (playVoicemailMessages cfg k m l r).
Proof. revert l r. induction k; intros l r; destruct l; cbn [playVoicemailMessages]; writes_tac. Qed.
#[local] Hint Resolve spares_messages : writes.

Lemma spares_menu n m : spares (voicemailMenu cfg n m).
Proof. unfold voicemailMenu. writes_tac. Qed.
#[local] Hint Resolve spares_menu : writes.

Lemma spares_voicemail n input : spares (voicemailNode kdf cfg n input).
Proof.
  unfold voicemailNode, voicemailCheck, leaveMessage, leaveGreetingFor, waitForRecording,
    fileVoicemailMessage. writes_tac.
Qed.

(** A queue session, over the walker's own ports. *)
Lemma wrote_queue_port {A} a (op : W → W * result string A) st :
  wrote spares_caller st (queue_port a op st).1.
Proof. by apply writes_port. Qed.

Lemma queue_ports :
  ports_respect (H := PlanWalker.queue_world cfg) (wrote spares_caller).
Proof.
  split; intros st; intros; try apply wrote_queue_port.
  - change (wrote spares_caller st (queue_unit a st).1).
    assert (spares (queue_unit a)) as Hu; [|apply Hu]. unfold queue_unit, queue_port. writes_tac.
  - change (wrote spares_caller st (queue_bool cfg a st).1).
    assert (spares (queue_bool cfg a)) as Hu; [|apply Hu]. unfold queue_bool. writes_tac.
  - destruct st as [s w]. simpl. destruct (ww_queueJoin w). simpl.
    apply wrote_world.
  - change (wrote spares_caller st (dialQueueAgents cfg l f (queue_ring_seconds cfg) st).1).
    assert (spares (dialQueueAgents cfg l f (queue_ring_seconds cfg))) as Hu; [|apply Hu].
    unfold dialQueueAgents, callerIdForQueue. writes_tac.
Qed.

Lemma spares_queue n passes : spares (queueNode dateParse cfg n passes).
Proof.
  unfold queueNode. destruct (negb (has_queue cfg)); [writes_tac|]. apply writes_bind; [|intros; apply writes_ret].
  intros st. unfold run_session.
  pose proof (respects_run (wrote spares_caller) queue_ports dateParse (queue_config cfg n) passes
                (QueueSession.session_init, st)) as Hr.
  destruct (QueueSession.run _ _ _ _) as [[s st'] r]. exact Hr.
Qed.
#[local] Hint Resolve spares_playback spares_timeCondition spares_featureCode spares_park spares_ivr
  spares_extension spares_ringGroup spares_trunkDial spares_external spares_conference
  spares_voicemail spares_queue : writes.

(** No step hangs the caller up: only [terminate] does. *)
Lemma spares_step passes node input : spares (step RegExp formatToParts kdf dateParse cfg passes node input).
Proof. unfold step, settled. writes_tac. Qed.

(** *** Where a step goes *)
Lemma goes_unavailable l c : yields (goes l) (unavailable cfg c).
Proof. unfold unavailable, announceAndHangup. goes_tac. Qed.
#[local] Hint Resolve goes_unavailable goes_branch list_elem_of_here list_elem_of_further : goes.

Lemma goes_bridgeWith l id agent : yields (goes l) (bridgeWith cfg id agent).
Proof. unfold bridgeWith. goes_tac. Qed.
#[local] Hint Resolve goes_bridgeWith : goes.

Lemma goes_coalesce l a b c : a ∈ l → b ∈ l → goes l (branch (coalesce a b) c).
Proof. intros. apply goes_branch. by destruct a. Qed.
#[local] Hint Resolve goes_coalesce : goes.

Lemma goes_settleDial l o b n r :
  b ∈ l → n ∈ l → r ∈ l → yields (goes l) (settleDial cfg o b n r).
Proof. intros. unfold settleDial. goes_tac. Qed.

Lemma goes_trunk_loop l number e elin n input as' c :
  td_failoverNodeId n ∈ l → yields (goes l) (trunk_loop cfg number e elin n input as' c).
Proof.
  intros. revert c. induction as' as [|a as' IH]; intros c; cbn [trunk_loop]; goes_tac.
Qed.

#[local] Hint Resolve goes_settleDial goes_trunk_loop : goes.

Lemma goes_extension n input :
  yields (goes [ext_forwardAllNodeId n; ext_busyNodeId n; ext_noAnswerNodeId n; ext_notRegisteredNodeId n])
    (extensionNode cfg n input).
Proof. unfold extensionNode, followMeNode. goes_tac. Qed.

Lemma goes_ringGroup n input : yields (goes [None; rg_timeoutNodeId n]) (ringGroupNode cfg n input).
Proof. unfold ringGroupNode. goes_tac. Qed.

Lemma goes_trunkDial id n input : yields (goes [td_failoverNodeId n]) (trunkDialNode cfg id n input).
Proof. unfold trunkDialNode. goes_tac. Qed.

Lemma goes_external id n input : yields (goes [None]) (externalNode cfg id n input).
Proof. unfold externalNode. goes_tac. Qed.

Lemma goes_playback id n : yields (goes [pb_thenNodeId n]) (playbackNode cfg id n).
Proof. unfold playbackNode. goes_tac. Qed.

Lemma goes_timeCondition n input :
  yields (goes [Some (tc_matchNodeId n); tc_noMatchNodeId n]) (timeConditionNode formatToParts n input).
Proof. unfold timeConditionNode. goes_tac. Qed.

Lemma goes_featureCode n input : yields (goes [fcn_targetNodeId n]) (featureCodeNode cfg n input).
Proof.
  unfold featureCodeNode, pickupCode. destruct (fcn_targetNodeId n); goes_tac.
Qed.

Lemma goes_park n input : yields (goes [park_timeoutNodeId n]) (parkNode cfg n input).
Proof.
  unfold parkNode, parkIntoLot, retrieveFromLot. destruct (park_timeoutNodeId n) eqn:E; goes_tac.
Qed.

(** The options of a menu: the one found is one of them. *)
Lemma yields_find_option l d :
  yields (λ o, match o with Some o => o ∈ l | None => True end) (find_option RegExp l d).
Proof.
  induction l as [|o l IH]; cbn [find_option]; [by apply yields_ret|].
  destruct (Patterns.match_pure _ _ _) as [[|]|]; [apply yields_ret; apply list_elem_of_here| |done].
  eapply yields_weaken; [|exact IH]. intros [x|] Hx; [by apply list_elem_of_further|done].
Qed.

Lemma goes_ivr_exit n t l :
  ivr_timeoutNodeId n ∈ l → ivr_invalidNodeId n ∈ l → goes l (ivr_exit n t).
Proof. intros. unfold ivr_exit. case_match; by apply goes_branch. Qed.

Lemma goes_ivr n :
  yields (goes ((Some ∘ option_targetNodeId <$> ivr_options n) ++ [ivr_timeoutNodeId n; ivr_invalidNodeId n]))
    (ivrMenuNode RegExp cfg n).
Proof.
  set (l := _ ++ _).
  assert (∀ t, goes l (ivr_exit n t)) as He.
  { intros t. apply goes_ivr_exit; apply elem_of_app; right; set_solver. }
  assert (∀ fuel f t k, yields (goes l) (ivr_loop RegExp cfg fuel n f t k)) as Hl.
  { induction fuel as [|fuel IH]; intros; cbn [ivr_loop]; [by apply yields_ret|].
    repeat match goal with
      | |- yields _ (find_option _ _ _ ≫= _) =>
          eapply yields_use; [apply yields_find_option|intros [o|] Ho]
      | |- yields _ (ivr_loop _ _ _ _ _ _ _) => apply IH
      | |- goes _ (ivr_exit _ _) => apply He
      | |- goes _ (Goto _) =>
          apply elem_of_app; left; by apply (list_elem_of_fmap_2 (Some ∘ option_targetNodeId))
      | _ => goes_step
      end. }
  unfold ivrMenuNode. goes_tac.
Qed.

(** What a challenge denies with goes nowhere. *)
Definition denies (a : Admission) : Prop :=
  match a with Denied r => goes [] r | AdmittedAs _ => True end.

Definition denies_opt (a : option Admission) : Prop :=
  match a with Some a => denies a | None => True end.

Lemma goes_check_digest n digits digest b next :
  yields denies_opt next → yields denies_opt (check_digest kdf cfg n digits digest b next).
Proof.
  intros Hn. unfold check_digest. destruct digest as [h|]; [|done].
  destruct (verifyPinDigest kdf digits h) as [|f]; [by apply yields_ret|].
  destruct (defect f); [|done]. eapply (yields_use (goes [])); [|intros r Hr; by apply yields_ret].
  unfold refuseConference. goes_tac.
Qed.

Lemma goes_conference_attempts k n : yields denies (conference_attempts kdf cfg k n).
Proof.
  induction k as [|k IH]; cbn [conference_attempts].
  { apply yields_bind. intros _. by apply yields_ret. }
  apply yields_bind. intros [|]; [by apply yields_ret|].
  apply yields_bind. intros [r|]; [|by apply yields_ret].
  destruct (ended_by_hangup r); [by apply yields_ret|]. destruct (_ && _); [by apply yields_ret|].
  eapply (yields_use denies_opt).
  - do 2 apply goes_check_digest. by apply yields_ret.
  - intros [a|] Ha; [by apply yields_ret|]. apply yields_bind. intros _. apply IH.
Qed.

Lemma goes_challengeConferencePin n : yields denies (challengeConferencePin kdf cfg n).
Proof.
  unfold challengeConferencePin. destruct (_ && _).
  - apply yields_bind. intros _. eapply (yields_use (goes [])); [apply goes_unavailable|].
    intros r Hr. by apply yields_ret.
  - destruct (conf_pinHash n); [apply goes_conference_attempts|].
    destruct (conf_moderatorPinHash n); [apply goes_conference_attempts|by apply yields_ret].
Qed.

Lemma goes_conference n : yields (goes []) (conferenceNode kdf cfg n).
Proof.
  unfold conferenceNode, enterRoom. goes_step; [goes_tac|]. goes_step.
  goes_step; [goes_tac|]. eapply yields_use; [apply goes_challengeConferencePin|].
  intros [m|r] Hr; [goes_tac|by apply yields_ret].
  unfold announceAndHangup. goes_tac.
Qed.

Lemma goes_voicemail_attempts k m h :
  yields (λ o, match o with Some r => goes [] r | None => True end) (voicemail_attempts kdf cfg k m h).
Proof.
  induction k as [|k IH]; cbn [voicemail_attempts].
  { apply yields_bind. intros _. by apply yields_ret. }
  apply yields_bind. intros [|]; [by apply yields_ret|].
  apply yields_bind. intros [r|]; [|by apply yields_ret].
  destruct (ended_by_hangup r); [by apply yields_ret|].
  destruct (verifyVoicemailPin _ _ _) as [|f]; [by apply yields_ret|].
  destruct (defect f); [|apply yields_bind; intros _; apply IH].
  apply yields_bind. intros _. eapply (yields_use (goes [])); [apply goes_unavailable|].
  intros x Hx. by apply yields_ret.
Qed.

Lemma goes_messages k m l r : yields (goes []) (playVoicemailMessages cfg k m l r).
Proof.
  revert l r. induction k as [|k IH]; intros l r; destruct l; cbn [playVoicemailMessages]; goes_tac; apply IH.
Qed.
#[local] Hint Resolve goes_messages : goes.

Lemma goes_voicemail n input : yields (goes []) (voicemailNode kdf cfg n input).
Proof.
  unfold voicemailNode, voicemailCheck, leaveMessage, voicemailMenu.
  repeat match goal with
    | |- yields _ (challengeVoicemailPin _ _ _ _ ≫= _) =>
        apply (yields_use (λ o, match o with Some r => goes [] r | None => True end));
          [unfold challengeVoicemailPin; destruct (vm_pinHash n);
             [apply goes_voicemail_attempts|by apply yields_ret]
          |intros [r|] Hr; [by apply yields_ret|]]
    | _ => goes_step
    end.
Qed.

Lemma goes_queue n passes :
  yields (λ o, match o with Some r => goes [queue_timeoutNodeId n] r | None => True end)
    (queueNode dateParse cfg n passes).
Proof.
  unfold queueNode. destruct (negb _).
  - apply yields_bind. intros _. eapply yields_use; [apply (goes_unavailable [queue_timeoutNodeId n])|].
    intros r Hr. by apply yields_ret.
  - apply yields_bind. intros [[]|]; apply yields_ret; simpl; try done. apply goes_branch, list_elem_of_here.
Qed.

Lemma goes_settled l m :
  yields (goes l) m → yields (λ o, match o with Some r => goes l r | None => True end) (settled m).
Proof. intros Hm. eapply yields_use; [exact Hm|]. intros r Hr. by apply yields_ret. Qed.

Lemma compact_spec {A} (l : list (option A)) x : x ∈ compact l ↔ Some x ∈ l.
Proof. unfold compact. rewrite list_elem_of_omap. naive_solver. Qed.

(** A step goes to a node its own node refers to. *)
Lemma goes_step_references passes node input :
  yields (λ o, match o with Some (Goto n) => n ∈ planNodeReferences node | _ => True end)
    (step RegExp formatToParts kdf dateParse cfg passes node input).
Proof.
  assert (∀ l m, (∀ n, Some n ∈ l → n ∈ planNodeReferences node) → yields (goes l) m →
    yields (λ o, match o with Some (Goto n) => n ∈ planNodeReferences node | _ => True end) (settled m)) as Hs.
  { intros l m Hl Hm. eapply yields_weaken; [|by apply goes_settled].
    intros [[n| | |]|] Hg; try done. by apply Hl. }
  unfold step. destruct node as [id label body]. unfold planNodeReferences in *.
  cbn [node_body node_id] in *. destruct body; cbn [node_body node_id] in *.
  - eapply Hs; [|apply goes_extension]. intros x Hx. apply compact_spec, elem_of_app. by left.
  - eapply Hs; [|apply goes_ringGroup]. intros x Hx. apply compact_spec, elem_of_app. right.
    by apply elem_of_cons in Hx as [|].
  - eapply Hs; [|apply goes_ivr]. intros x Hx. by apply compact_spec.
  - eapply yields_weaken; [|apply goes_queue]. intros [[x| | |]|] Hg; try done.
    simpl in Hg. apply (compact_spec [queue_timeoutNodeId n]). done.
  - eapply Hs; [|apply goes_voicemail]. by intros x Hx%elem_of_nil.
  - eapply Hs; [|apply goes_conference]. by intros x Hx%elem_of_nil.
  - eapply Hs; [|apply goes_park]. intros x Hx. by apply (compact_spec [park_timeoutNodeId n]).
  - eapply Hs; [|apply goes_external]. by intros x [|Hx%elem_of_nil]%elem_of_cons.
  - eapply Hs; [|apply goes_trunkDial]. intros x Hx. by apply (compact_spec [td_failoverNodeId n]).
  - apply (Hs []); [by intros x Hx%elem_of_nil|]. goes_tac.
  - eapply Hs; [|apply goes_playback]. intros x Hx. by apply (compact_spec [pb_thenNodeId n]).
  - eapply Hs; [|apply goes_featureCode]. intros x Hx. by apply (compact_spec [fcn_targetNodeId n]).
  - eapply Hs; [|apply goes_timeCondition]. intros x Hx.
    by apply (compact_spec [Some (tc_matchNodeId n); tc_noMatchNodeId n]).
  - by apply yields_ret.
Qed.
End Walk.
End WalkSteps.
