(* ===== verification/PlanWalks.v ===== *)
(** * What a walk guarantees

    The theorems of the walk of PlanWalker.v: it ends within its budget of steps and
    hangs the caller up at most once, and it stays in its plan. *)

From S2P Require Import Prelude HangupCauses Patterns TimeConditions Agents Queue QueueSession Plan.
From S2P Require Import ConferenceRegistry MediaRefs Dial PlanWalker WalkLogic WalkSteps.

Module PlanWalks.
Import MediaRefs Dial PlanWalker WalkLogic WalkSteps.
#[local] Open Scope nat_scope.

Section Walk.
Context (RegExp : string → result string Patterns.exec_fun).
Context (formatToParts : string → Z → result string (list (TimeConditions.part_type * string))).
Context (kdf : Kdf) (dateParse : string → option Z).
Context {W : Type} `{!WalkerWorld W} (cfg : WalkerConfig).
Notation walk := (walk RegExp formatToParts kdf dateParse cfg).

(** ** The end of a walk *)

(** Every action but the hangup of the caller. *)
Definition calm (a : Action) : Prop := match a with ActVerb (VHangup _) => False | _ => True end.

(** The calls a walk does not shield. *)
Definition unshielded (a : Action) : Prop :=
  match a with ActVerb (VHangup _) | ActDestination _ => True | _ => False end.

(** How the actions of a walk and its result go together. *)
Definition ends (l : list Action) (st' : Walker * W) (r : result string (option WalkOutcome)) : Prop :=
  match r with
  | Ok None => Forall calm l
  | Ok (Some out) =>
      out_visited out = visited st'.1 ∧ out_destination out = destination st'.1 ∧
      match status out, hangupCause out with
      | walk_hangup, Some c | walk_exhausted, Some c =>
          Forall calm l ∧ ww_tearingDown st'.2 = true ∨
          ∃ l1, l = l1 ++ [ActVerb (VHangup c)] ∧ Forall calm l1
      | walk_bridged, None | walk_aborted, None => Forall calm l
      | _, _ => False
      end
  | Throw _ => ∃ l1 a, l = l1 ++ [a] ∧ Forall calm l1 ∧ unshielded a
  end.

(** [v] is a path of the plan from [x]. *)
Fixpoint follows (nodes : Plan.PlanNodeTable) (x : Plan.PlanNodeId) (v : list Plan.PlanNodeId) : Prop :=
  match v with
  | [] => True
  | y :: v => y = x ∧ is_Some (nodes !! y) ∧
      match v with [] => True | z :: _ => Plan.branch nodes y z ∧ follows nodes z v end
  end.

(** A walk of at most [n] steps from [x]. *)
Definition walked (nodes : Plan.PlanNodeTable) (n : nat) (x : Plan.PlanNodeId) (st st' : Walker * W)
    (r : result string (option WalkOutcome)) : Prop :=
  ∃ l v ns,
    trace st'.1 = trace st.1 ++ l ∧ visited st'.1 = visited st.1 ++ v ∧ notes st'.1 = notes st.1 ++ ns ∧
    ends l st' r ∧ follows nodes x v ∧ length v <= n ∧
    (∀ out, r = Ok (Some out) → status out = walk_exhausted → length v = n) ∧
    (∀ id, NoteMissingNode id ∈ ns → nodes !! id = None ∧ (id = x ∨ ∃ y, y ∈ v ∧ Plan.branch nodes y id)).

Lemma calm_spares l : Forall spares_caller l → Forall calm l.
Proof.
  intros H. eapply Forall_impl; [exact H|]. intros a. unfold spares_caller, calm. by repeat case_match.
Qed.

Lemma inner_not_missing ns id : Forall inner_note ns → NoteMissingNode id ∉ ns.
Proof. rewrite Forall_forall. intros H Hin. by apply H in Hin. Qed.

(** The end by [outcome] and by [terminate]. *)
Lemma outcome_ends s w how :
  how = walk_bridged ∨ how = walk_aborted →
  ∃ out, @outcome W how None (s, w) = ((s, w), Ok out) ∧ status out = how ∧
         ends [] (s, w) (Ok (Some out)).
Proof.
  intros [-> | ->]; eexists; (split; [reflexivity|]; split; [done|]; repeat split; constructor).
Qed.

Lemma terminate_ends st cause how :
  how = walk_hangup ∨ how = walk_exhausted →
  ∃ l st' r, terminate cause how st = (st', r) ∧ trace st'.1 = trace st.1 ++ l ∧
    visited st'.1 = visited st.1 ∧ notes st'.1 = notes st.1 ∧
    (∀ out, r = Ok out → status out = how) ∧
    ∀ l0, Forall calm l0 →
      ends (l0 ++ l) st' (match r with Ok out => Ok (Some out) | Throw e => Throw e end).
Proof.
  intros Hs. destruct st as [s w]. unfold terminate, isTearingDown, reads, mbind, M_bind.
  destruct (ww_tearingDown w) eqn:Ht.
  - exists []. do 2 eexists. split; [reflexivity|]. simpl. rewrite app_nil_r. split_and!; [done|done|done| |].
    + by intros out [= <-].
    + intros l0 Hl0. rewrite app_nil_r. split_and!; [done|done|]. destruct Hs as [-> | ->]; by left.
  - exists [ActVerb (VHangup cause)]. unfold execute_, execute, port, mbind, M_bind.
    destruct (ww_verb w (VHangup cause)) as [w' [v|e]]; do 2 eexists; (split; [reflexivity|]); simpl;
      (split_and!; [done|done|done|..]).
    + by intros out [= <-].
    + intros l0 Hl0. split_and!; [done|done|]. destruct Hs as [-> | ->]; right; by exists l0.
    + done.
    + intros l0 Hl0. by exists l0, (ActVerb (VHangup cause)).
Qed.

Lemma report_ends node st :
  ∃ l st' r, report_destination node st = (st', r) ∧ trace st'.1 = trace st.1 ++ l ∧
    visited st'.1 = visited st.1 ∧ notes st'.1 = notes st.1 ∧ Forall calm l ∧
    match r with Ok _ => True | Throw _ => ∃ a, l = [a] ∧ unshielded a end.
Proof.
  destruct st as [s w]. unfold report_destination.
  assert (∀ st : Walker * W, trace st.1 = trace st.1 ++ []) as Hnil by (intros; by rewrite app_nil_r).
  destruct (planDestinationOf node) as [d|];
    [|by exists [], (s, w), (Ok tt); split_and!].
  unfold get_destination, mbind, M_bind.
  destruct (sameDestination (destination s) (Some d)); [by exists [], (s, w), (Ok tt); split_and!|].
  unfold set_destination, call, port. simpl. destruct (ww_unit w (ActDestination d)) as [w' r] eqn:E.
  exists [ActDestination d]. do 2 eexists. split; [reflexivity|]. split_and!; try done; [by repeat constructor|].
  destruct r; [done|by exists (ActDestination d)].
Qed.

(** One turn of the loop: it goes on to a node its own refers to, or it ends. *)
Definition turned (nodes : Plan.PlanNodeTable) (x : Plan.PlanNodeId) (st st' : Walker * W)
    (r : result string Turn) : Prop :=
  match r with
  | Ok (TurnGoto next) =>
      ∃ l ns, trace st'.1 = trace st.1 ++ l ∧ Forall calm l ∧ visited st'.1 = visited st.1 ++ [x] ∧
        notes st'.1 = notes st.1 ++ ns ∧ (∀ id, NoteMissingNode id ∉ ns) ∧
        is_Some (nodes !! x) ∧ Plan.branch nodes x next
  | Ok (TurnDone out) =>
      walked nodes 1 x st st' (Ok out) ∧ ∀ o, out = Some o → status o ≠ walk_exhausted
  | Throw e => walked nodes 1 x st st' (Throw e)
  end.

(** The end of a turn by [terminate], after the actions [l] and the notes [ns]. *)
Lemma terminate_turns nodes x st st1 cause l v ns :
  trace st1.1 = trace st.1 ++ l → visited st1.1 = visited st.1 ++ v → notes st1.1 = notes st.1 ++ ns →
  Forall calm l → follows nodes x v → length v <= 1 →
  (∀ id, NoteMissingNode id ∈ ns → nodes !! id = None ∧ id = x) →
  let '(st', r) := (out ← terminate cause walk_hangup; mret (TurnDone (Some out))) st1 in
  turned nodes x st st' r.
Proof.
  intros Ht Hv Hn Hl Hf Hlen Hm.
  destruct (terminate_ends st1 cause walk_hangup) as (l' & st' & r & E & Ht' & Hv' & Hn' & Ho & He); [by left|].
  specialize (He l Hl). unfold mbind, M_bind. rewrite E.
  assert (walked nodes 1 x st st' (match r with Ok out => Ok (Some out) | Throw e => Throw e end)) as Hw.
  { exists (l ++ l'), v, ns. rewrite Ht', Hv', Hn', Ht, Hv, Hn, app_assoc. split_and!; try done.
    - intros out Hr Hx. destruct r as [o|]; [|done]. injection Hr as <-. by rewrite Ho in Hx.
    - intros id Hid. destruct (Hm id Hid). auto. }
  destruct r as [out|e]; simpl; [|done]. split; [done|]. intros o [= <-]. by rewrite (Ho out).
Qed.

Lemma turn_turns passes input x st :
  let '(st', r) := turn RegExp formatToParts kdf dateParse cfg passes input x st in
  turned (Plan.plan_nodes (plan input)) x st st' r.
Proof.
  set (nodes := Plan.plan_nodes (plan input)). unfold turn, abandoned, reads. destruct st as [s w].
  unfold mbind at 1, M_bind at 1. destruct (ww_tearingDown w || ww_detached w).
  { simpl. split; [|by intros o [= <-]]. exists [], [], []. simpl. rewrite !app_nil_r. split_and!; try done.
    - lia.
    - by intros out [= <-].
    - by intros id Hid%elem_of_nil. }
  fold nodes. destruct (nodes !! x) as [node|] eqn:Hx.
  - unfold visit. unfold mbind at 1, M_bind at 1.
    set (st1 := (_, w)).
    unfold mbind at 1, M_bind at 1.
    destruct (report_ends node st1) as (l & st2 & r & -> & Ht & Hv & Hn & Hl & Hr).
    assert (follows nodes x [x]) as Hf by (simpl; eauto).
    destruct r as [[]|e].
    2: { destruct Hr as (a & -> & Ha). exists [a], [x], []. rewrite Ht, Hv, Hn, app_nil_r.
      split_and!; try done; [by exists [], a|by intros id Hid%elem_of_nil]. }
    unfold mbind at 1, M_bind at 1, attempting.
    pose proof (spares_step RegExp formatToParts kdf dateParse cfg passes node input st2)
      as ((l2 & Ht2 & Hl2) & (ns & Hn2 & Hns) & Hv2 & Hd2).
    pose proof (goes_step_references RegExp formatToParts kdf dateParse cfg passes node input st2) as Hg.
    destruct (step _ _ _ _ _ _ _ _ st2) as [st3 r]. cbn [fst snd] in *.
    apply calm_spares in Hl2.
    assert (trace st3.1 = trace s ++ (l ++ l2)) as Ht3 by (by rewrite Ht2, Ht, app_assoc).
    assert (visited st3.1 = visited s ++ [x]) as Hv3 by (by rewrite Hv2, Hv).
    assert (notes st3.1 = notes s ++ ns) as Hn3 by (by rewrite Hn2, Hn).
    assert (Forall calm (l ++ l2)) as Hc by (by apply Forall_app).
    assert (∀ out : option WalkOutcome,
      (match out with Some o => status o ≠ walk_exhausted ∧ ends (l ++ l2) st3 (Ok (Some o)) | None => True end) →
      walked nodes 1 x (s, w) st3 (Ok out)) as Hdone.
    { intros out Ho. exists (l ++ l2), [x], ns. split_and!; try done; [by destruct out as [o|]; [apply Ho|]|].
      intros id Hid. by apply inner_not_missing in Hid. }
    destruct r as [[[next|cause| |]|]|e]; cbn [turn_of].
    + exists (l ++ l2), ns. split_and!; try done; first [by eexists|intros id; by apply inner_not_missing].
    + apply (terminate_turns nodes x (s, w) st3 cause (l ++ l2) [x] ns Ht3 Hv3 Hn3 Hc Hf); [done|].
      by intros id Hid%inner_not_missing.
    + destruct st3 as [s3 w3]. split; [|by intros o [= <-]]. by apply Hdone.
    + destruct st3 as [s3 w3]. split; [|by intros o [= <-]]. by apply Hdone.
    + split; [by apply Hdone|done].
    + unfold note. unfold mbind at 1, M_bind at 1. destruct st3 as [s3 w3]. simpl in Hn3.
      apply (terminate_turns nodes x (s, w) _ NORMAL_TEMPORARY_FAILURE (l ++ l2) [x] (ns ++ [NoteNodeFailed x e]));
        try done; [by simpl; rewrite Hn3, app_assoc|].
      intros id [Hid|Hid]%elem_of_app; [by apply inner_not_missing in Hid|set_solver].
  - unfold note. unfold mbind at 1, M_bind at 1.
    apply (terminate_turns nodes x (s, w) _ NORMAL_TEMPORARY_FAILURE [] [] [NoteMissingNode x]);
      simpl; rewrite ?app_nil_r; try done; [lia|].
    intros id Hid%list_elem_of_singleton. injection Hid as ->. done.
Qed.


Lemma walked_more nodes n x st st' r :
  (∀ out, r = Ok (Some out) → status out ≠ walk_exhausted) →
  walked nodes 1 x st st' r → walked nodes (S n) x st st' r.
Proof.
  intros Hx (l & v & ns & Ht & Hv & Hn & He & Hf & Hlen & _ & Hm). exists l, v, ns.
  split_and!; try done; [lia|]. intros out Hr Hs. by destruct (Hx out).
Qed.

Lemma ends_after l0 l st' r : Forall calm l0 → ends l st' r → ends (l0 ++ l) st' r.
Proof.
  intros H0 He. destruct r as [[out|]|e]; simpl in *.
  - destruct He as (Hv & Hd & He). split_and!; [done|done|].
    destruct (status out), (hangupCause out); try done; try (by apply Forall_app);
      (destruct He as [[Hl Ht]|(l1 & -> & Hl)]; [left; split; [by apply Forall_app|done]|right]);
      (exists (l0 ++ l1); rewrite app_assoc; split; [done|by apply Forall_app]).
  - by apply Forall_app.
  - destruct He as (l1 & a & -> & Hl & Ha). exists (l0 ++ l1), a. rewrite app_assoc.
    split_and!; [done|by apply Forall_app|done].
Qed.

Lemma walked_step nodes n x y st st1 st' r :
  turned nodes x st st1 (Ok (TurnGoto y)) → walked nodes n y st1 st' r → walked nodes (S n) x st st' r.
Proof.
  intros (l & ns & Ht & Hl & Hv & Hn & Hm & Hx & Hb) (l' & v' & ns' & Ht' & Hv' & Hn' & He & Hf & Hlen & Hex & Hm').
  exists (l ++ l'), (x :: v'), (ns ++ ns'). rewrite Ht', Hv', Hn', Ht, Hv, Hn, <- !app_assoc.
  split_and!; try done.
  - by apply ends_after.
  - destruct v' as [|z v']; [done|]. destruct Hf as (-> & Hf). by split.
  - simpl. lia.
  - intros out Hr Hs. simpl. f_equal. eauto.
  - intros id [Hid|Hid]%elem_of_app; [by apply Hm in Hid|]. destruct (Hm' id Hid) as [Hnone [->|(z & Hz & Hb')]].
    + split; [done|right]. exists x. split; [apply list_elem_of_here|done].
    + split; [done|right]. exists z. split; [by apply list_elem_of_further|done].
Qed.

Lemma walk_loop_walks passes input n x st :
  let '(st', r) := walk_loop RegExp formatToParts kdf dateParse cfg passes input n x st in
  walked (Plan.plan_nodes (plan input)) n x st st' r.
Proof.
  revert x st. induction n as [|n IH]; intros x st; cbn [walk_loop].
  - unfold note. unfold mbind at 1, M_bind at 1. destruct st as [s w]. set (st1 := (_, w)).
    destruct (terminate_ends st1 EXCHANGE_ROUTING_ERROR walk_exhausted)
      as (l' & st' & r & E & Ht' & Hv' & Hn' & Ho & He); [by right|].
    specialize (He [] (Forall_nil_2 _)). unfold mbind, M_bind. rewrite E.
    assert (walked (Plan.plan_nodes (plan input)) 0 x (s, w) st'
              (match r with Ok out => Ok (Some out) | Throw e => Throw e end)) as Hw; [|by destruct r].
    exists l', [], [NoteExhausted (maxPlanSteps (settings cfg))].
    rewrite Ht', Hv', Hn', app_nil_r. split_and!; try done.
    by intros id Hid%list_elem_of_singleton.
  - unfold mbind, M_bind. pose proof (turn_turns passes input x st) as Ht.
    destruct (turn RegExp formatToParts kdf dateParse cfg passes input x st) as [st1 [[y|out]|e]].
    + specialize (IH y st1). destruct (walk_loop _ _ _ _ _ _ _ _ _ _) as [st' r]. by eapply walked_step.
    + destruct Ht as [Hw Hx]. apply walked_more; [|done]. intros o [= ->]. by apply Hx.
    + by apply walked_more.
Qed.

Lemma follows_reach nodes x v : follows nodes x v → ∀ y, y ∈ v → rtc (Plan.branch nodes) x y.
Proof.
  revert x. induction v as [|z v IH]; intros x Hf y Hy; [by apply elem_of_nil in Hy|].
  destruct Hf as (-> & _ & Hf). apply elem_of_cons in Hy as [->|Hy]; [constructor|].
  destruct v as [|z' v]; [by apply elem_of_nil in Hy|]. destruct Hf as [Hb Hf].
  eapply rtc_l; [exact Hb|]. by apply IH.
Qed.

(** ** The budget and the queues *)
Notation turn := (turn RegExp formatToParts kdf dateParse cfg).
Notation walk_loop := (walk_loop RegExp formatToParts kdf dateParse cfg).

(** [n] turns from [x] went on, each to the next, and the last to [y]. *)
Fixpoint went_on (passes : nat) (input : WalkInput) (n : nat) (x : Plan.PlanNodeId) (st : Walker * W)
    (y : Plan.PlanNodeId) (st' : Walker * W) : Prop :=
  match n with
  | O => y = x ∧ st' = st
  | S n => ∃ z st1, turn passes input x st = (st1, Ok (TurnGoto z)) ∧ went_on passes input n z st1 y st'
  end.

(** The end of a walk whose budget is spent. *)
Definition exhausted (st' : Walker * W) (r : result string (option WalkOutcome)) : Prop :=
  last (notes st'.1) = Some (NoteExhausted (maxPlanSteps (settings cfg))) ∧
  match r with
  | Ok (Some out) => status out = walk_exhausted ∧ hangupCause out = Some EXCHANGE_ROUTING_ERROR
  | Ok None => False
  | Throw _ => True
  end.

(** The caller of [st'] waits in the queue of node [x]: each of the [passes] passes found
    the caller there and gave no outcome. *)
Definition waiting_in (passes : nat) (nodes : Plan.PlanNodeTable) (x : Plan.PlanNodeId)
    (st' : Walker * W) : Prop :=
  ∃ node q s1 st1 s2, nodes !! x = Some node ∧ Plan.node_body node = Plan.QueueNode q ∧
    @QueueSession.waits dateParse _ (queue_world cfg) (queue_config cfg q) passes (s1, st1) (s2, st').

Lemma walk_loop_exhausts passes input n x st y st1 :
  went_on passes input n x st y st1 →
  exhausted (walk_loop passes input n x st).1 (walk_loop passes input n x st).2.
Proof.
  revert x st. induction n as [|n IH]; intros x st; cbn [went_on PlanWalker.walk_loop].
  - intros _. unfold note. unfold mbind at 1 3, M_bind at 1 3. destruct st as [s w]. set (st2 := (_, w)).
    unfold mbind, M_bind, terminate, isTearingDown, reads, mbind, M_bind. subst st2. cbn [fst snd].
    assert (∀ l : list Note, last (l ++ [NoteExhausted (maxPlanSteps (settings cfg))]) =
      Some (NoteExhausted (maxPlanSteps (settings cfg)))) as Hlast by (intros l; apply last_snoc).
    destruct (ww_tearingDown w); [by split; [apply Hlast|]|].
    unfold execute_, execute, port, mbind, M_bind. cbn [fst snd].
    by destruct (ww_verb w _) as [w' [v|e]]; (split; [apply Hlast|]).
  - intros (z & st2 & Ht & Hw). unfold mbind, M_bind. rewrite Ht. by apply IH.
Qed.

Lemma walk_loop_exhausted passes input n x st out :
  (walk_loop passes input n x st).2 = Ok (Some out) → status out = walk_exhausted →
  ∃ y st1, went_on passes input n x st y st1.
Proof.
  revert x st. induction n as [|n IH]; intros x st; cbn [went_on PlanWalker.walk_loop]; [by intros _ _; eexists _, _|].
  unfold mbind, M_bind. pose proof (turn_turns passes input x st) as Ht.
  destruct (turn passes input x st) as [st1 [[z|o]|e]]; [|intros [= ->] Hs; by apply Ht in Hs|done].
  intros Hr Hs. destruct (IH z st1 Hr Hs) as (y & st2 & Hw). by exists y, st2, z, st1.
Qed.

Lemma settled_some (m : PlanWalker.M StepResult) (st st' : Walker * W) : settled m st ≠ (st', Ok None).
Proof. unfold settled, mbind, M_bind. by destruct (m st) as [st1 [r|e]]. Qed.

(** Only a queue node leaves a step without a result. *)
Lemma step_waits passes node input st st' :
  step RegExp formatToParts kdf dateParse cfg passes node input st = (st', Ok None) →
  ∃ q s1 st1 s2, Plan.node_body node = Plan.QueueNode q ∧
    @QueueSession.waits dateParse _ (queue_world cfg) (queue_config cfg q) passes (s1, st1) (s2, st').
Proof.
  unfold step. destruct (Plan.node_body node) as [| | |q| | | | | | | | | |] eqn:Hb;
    try (by intros H%settled_some); [|by intros H; discriminate H].
  unfold queueNode. destruct (negb (has_queue cfg)).
  - unfold mbind, M_bind. destruct (note _ st) as [st1 [[]|e]]; [|done].
    by destruct (unavailable cfg _ st1) as [st2 [r|e]].
  - unfold mbind, M_bind, run_session.
    destruct (@QueueSession.run dateParse _ (queue_world cfg) (queue_config cfg q) passes (QueueSession.session_init, st)) as [[s2 st2] r] eqn:Er.
    destruct r as [[o|]|e]; [by intros H; discriminate H| |done]. intros [= <-].
    apply QueueSession.run_waits in Er as ([s1 st1] & Hw). by exists q, s1, st1, s2.
Qed.

Lemma turn_waits passes input x st st' :
  turn passes input x st = (st', Ok (TurnDone None)) →
  last (visited st'.1) = Some x ∧ waiting_in passes (Plan.plan_nodes (plan input)) x st'.
Proof.
  assert (∀ (m : PlanWalker.M WalkOutcome) st, (out ← m; mret (TurnDone (Some out))) st ≠ (st', Ok (TurnDone None)))
    as Hsome.
  { intros m st1. unfold mbind, M_bind. by destruct (m st1) as [? [|]]. }
  unfold turn. unfold mbind at 1, M_bind at 1, abandoned, reads. destruct st as [s w].
  destruct (_ || _); [by intros H%Hsome|].
  destruct (Plan.plan_nodes (plan input) !! x) as [node|] eqn:Hx.
  2: { unfold note. unfold mbind at 1, M_bind at 1. by intros H%Hsome. }
  unfold visit. unfold mbind at 1, M_bind at 1. set (st1 := (_, w)).
  unfold mbind at 1, M_bind at 1.
  destruct (report_ends node st1) as (l & st2 & r & -> & _ & Hv & _). destruct r as [[]|e]; [|done].
  unfold mbind at 1, M_bind at 1, attempting.
  destruct (step _ _ _ _ _ passes node input st2) as [st3 r] eqn:Es.
  pose proof (spares_step RegExp formatToParts kdf dateParse cfg passes node input st2) as (_ & _ & Hv2 & _).
  rewrite Es in Hv2. cbn [fst] in Hv2.
  destruct r as [[[next|cause| |]|]|e]; cbn [turn_of]; try (by intros H%Hsome); [by intros H; discriminate H| |].
  - intros [= <-]. split; [rewrite Hv2, Hv; apply last_snoc|].
    destruct (step_waits _ _ _ _ _ Es) as (q & s1 & st4 & s2 & Hb & Hw). by exists node, q, s1, st4, s2.
  - unfold note. unfold mbind at 1, M_bind at 1. destruct st3. by intros H%Hsome.
Qed.

Lemma walk_loop_waits passes input n x st st' :
  walk_loop passes input n x st = (st', Ok None) →
  ∃ y, last (visited st'.1) = Some y ∧ waiting_in passes (Plan.plan_nodes (plan input)) y st'.
Proof.
  revert x st. induction n as [|n IH]; intros x st; cbn [PlanWalker.walk_loop].
  - unfold mbind, M_bind. destruct (note _ st) as [st1 [[]|e]]; [|done].
    by destruct (terminate _ _ st1) as [st2 [o|e]].
  - unfold mbind, M_bind. destruct (turn passes input x st) as [st1 [[z|[o|]]|e]] eqn:Et; try done; [apply IH|].
    intros [= <-]. exists x. by apply (turn_waits passes input x st).
Qed.

(** A step, a turn and a walk watched longer. *)
Lemma step_longer passes longer node input st :
  passes <= longer → (step RegExp formatToParts kdf dateParse cfg passes node input st).2 ≠ Ok None →
  step RegExp formatToParts kdf dateParse cfg longer node input st =
  step RegExp formatToParts kdf dateParse cfg passes node input st.
Proof.
  intros Hle. unfold step. destruct (Plan.node_body node) as [| | |q| | | | | | | | | |]; try done.
  unfold queueNode. destruct (negb (has_queue cfg)); [done|].
  unfold mbind, M_bind, run_session. intros Hr.
  rewrite (QueueSession.run_longer dateParse (queue_config cfg q) passes longer) by
    (first [done|intros H; destruct (QueueSession.run _ _ _ _) as [[? ?] ?]; simpl in H; by rewrite H in Hr]).
  done.
Qed.

Lemma turn_longer passes longer input x st :
  passes <= longer → (turn passes input x st).2 ≠ Ok (TurnDone None) →
  turn longer input x st = turn passes input x st.
Proof.
  intros Hle. unfold turn. unfold abandoned, reads, mbind, M_bind. destruct st as [s w].
  cbv beta iota. destruct (ww_tearingDown w || ww_detached w); [done|]. set (st1 := (s, w)).
  destruct (Plan.plan_nodes (plan input) !! x) as [node|]; [|done]. unfold attempting.
  destruct (visit x st1) as [st2 [[]|e]]; [|done]. destruct (report_destination node st2) as [st3 [[]|e]]; [|done].
  intros Hr. rewrite (step_longer passes longer); [done|done|].
  intros Hn. destruct (step _ _ _ _ _ passes node input st3) as [st4 r]. simpl in Hn. subst r. by apply Hr.
Qed.

Lemma walk_loop_longer passes longer input n x st :
  passes <= longer → (walk_loop passes input n x st).2 ≠ Ok None →
  walk_loop longer input n x st = walk_loop passes input n x st.
Proof.
  intros Hle. revert x st. induction n as [|n IH]; intros x st; cbn [PlanWalker.walk_loop]; [done|].
  unfold mbind, M_bind. intros Hr. rewrite (turn_longer passes longer); [|done|].
  - destruct (turn passes input x st) as [st1 [[z|o]|e]]; [by apply IH|done|done].
  - intros Hn. destruct (turn passes input x st) as [st1 r]. simpl in Hn. subst r. by apply Hr.
Qed.

(** C8. A walk ends, unless its caller waits in a queue, however the media server, the
    broker, the registries and the caller behave. It takes at most the configured number
    of steps; a walk that took them all without an end, and only such a walk, is reported
    as exhausted, with that cause. A walk that has not ended is in a queue node, every
    pass of which found the caller there and gave no outcome; one that has ended is not
    changed by watching longer. The caller is hung up at most once and after everything
    else, with the cause reported, and only by a walk that ends in a hangup: never when
    the call was bridged or had gone. What is thrown is what the last hangup or a report
    of the destination threw: a node that fails never escapes. *)
Theorem walk_ends (passes : nat) (input : WalkInput) (st : Walker * W) :
  let '(st', r) := walk passes input st in
  let max := maxPlanSteps (settings cfg) in
  let all := ∃ y st1, went_on passes input max (Plan.entryNodeId (plan input)) st y st1 in
  (∃ l v, trace st'.1 = trace st.1 ++ l ∧ visited st'.1 = visited st.1 ++ v ∧ length v <= max ∧
     (∀ out, r = Ok (Some out) → status out = walk_exhausted → length v = max) ∧ ends l st' r) ∧
  (all → exhausted st' r) ∧
  (∀ out, r = Ok (Some out) → status out = walk_exhausted → all) ∧
  (r = Ok None → ∃ x, last (visited st'.1) = Some x ∧ waiting_in passes (Plan.plan_nodes (plan input)) x st') ∧
  (r ≠ Ok None → ∀ longer, passes <= longer → walk longer input st = (st', r)).
Proof.
  set (max := maxPlanSteps (settings cfg)). set (entry := Plan.entryNodeId (plan input)).
  pose proof (walk_loop_walks passes input max entry st) as Hw.
  pose proof (walk_loop_exhausts passes input max entry st) as He.
  pose proof (walk_loop_exhausted passes input max entry st) as Hx.
  pose proof (walk_loop_waits passes input max entry st) as Hq.
  pose proof (λ longer, walk_loop_longer passes longer input max entry st) as Hl.
  unfold walk in *. destruct (PlanWalker.walk_loop _ _ _ _ _ passes _ _ _ _) as [st' r].
  destruct Hw as (l & v & ns & ? & ? & _ & ? & _ & ? & ? & _). simpl in *.
  split_and!; [by exists l, v|intros (y & st1 & H'); by eapply He|by apply Hx|by intros ->; apply Hq|auto].
Qed.

(** On a closed plan no node is missing. *)
Lemma closed_not_missing (nodes : Plan.PlanNodeTable) (x : Plan.PlanNodeId) (v : list Plan.PlanNodeId) id :
  (∀ y z, Plan.branch nodes y z → is_Some (nodes !! z)) → is_Some (nodes !! x) →
  id = x ∨ (∃ y, y ∈ v ∧ Plan.branch nodes y id) → is_Some (nodes !! id).
Proof. intros Hc Hx [->|(y & _ & Hb)]; eauto. Qed.

(** What a walk of [p] does that stays in its plan. *)
Definition stays_in_plan (p : Plan.ExecutionPlan) (st st' : Walker * W) : Prop :=
  ∃ v ns, visited st'.1 = visited st.1 ++ v ∧ notes st'.1 = notes st.1 ++ ns ∧
    follows (Plan.plan_nodes p) (Plan.entryNodeId p) v ∧
    (∀ y, y ∈ v → rtc (Plan.branch (Plan.plan_nodes p)) (Plan.entryNodeId p) y) ∧
    ∀ id, NoteMissingNode id ∉ ns.

Lemma closed_walk_stays passes input st :
  (∀ y z, Plan.branch (Plan.plan_nodes (plan input)) y z → is_Some (Plan.plan_nodes (plan input) !! z)) →
  is_Some (Plan.plan_nodes (plan input) !! Plan.entryNodeId (plan input)) →
  stays_in_plan (plan input) st (walk passes input st).1.
Proof.
  intros Hc He.
  pose proof (walk_loop_walks passes input (maxPlanSteps (settings cfg)) (Plan.entryNodeId (plan input)) st) as Hw.
  unfold walk. destruct (walk_loop _ _ _ _ _) as [st' r].
  destruct Hw as (l & v & ns & _ & Hv & Hn & _ & Hf & _ & _ & Hm). exists v, ns.
  split_and!; [done|done|done|by apply follows_reach|].
  intros id Hid. destruct (Hm id Hid) as [Hnone Hw].
  destruct (closed_not_missing _ _ _ _ Hc He Hw). congruence.
Qed.

End Walk.
End PlanWalks.
