(* ===== verification/WalkDials.v ===== *)
(** * The legs a walk dials

    What the dialling nodes of PlanWalker.v leave behind: every leg dialled is put in
    a bridge with the caller or hung up, every channel reserved on a trunk is handed
    to a leg or given back, and an emergency call is announced before it is dialled
    and presents the number of its location alone. *)

From S2P Require Import Prelude HangupCauses Plan Trunks MediaRefs Dial DialFacts PlanWalker WalkDemo WalkLogic.

Module WalkDials.
Import Plan MediaRefs Dial PlanWalker WalkLogic.

Section Walk.
Context {W : Type} `{!WalkerWorld W} (cfg : WalkerConfig).
Notation M := (@PlanWalker.M W).
Notation emits := (WalkLogic.emits (W:=W)).

(** ** One leg *)

(** The leg is put in a bridge with the caller, or hung up. *)
Definition accounted (id : string) (l : list Action) : Prop :=
  (∃ cause, ActLeg (ActHangup id cause) ∈ l) ∨
  ∃ bridge, ActAddToBridge bridge [mediaChannelId cfg; id] ∈ l.

Definition originated (l : list Action) (request : OriginateRequest) : Prop :=
  ActLeg (ActOriginate request) ∈ l.

(** Every leg dialled is accounted for. *)
Definition all_accounted (l : list Action) : Prop :=
  ∀ request, originated l request → accounted (or_channelId request) l.

(** The answer of the caller's leg threw. *)
Definition answer_threw {A} (l : list Action) (r : result string A) : Prop :=
  ∃ e l1, r = Throw e ∧ l = l1 ++ [ActVerb VAnswer].

Lemma accounted_l id l l' : accounted id l → accounted id (l ++ l').
Proof. intros [[c H]|[b H]]; [left; exists c|right; exists b]; set_solver. Qed.

Lemma accounted_r id l l' : accounted id l' → accounted id (l ++ l').
Proof. intros [[c H]|[b H]]; [left; exists c|right; exists b]; set_solver. Qed.

Lemma all_accounted_app l l' : all_accounted l → all_accounted l' → all_accounted (l ++ l').
Proof.
  intros H H' q [Hq|Hq]%elem_of_app; [by apply accounted_l, H|by apply accounted_r, H'].
Qed.

(** No leg is dialled. *)
Definition dials_nothing (a : Action) : Prop :=
  match a with ActLeg (ActOriginate _) => False | _ => True end.

Lemma dials_nothing_accounted l : Forall dials_nothing l → all_accounted l.
Proof. rewrite Forall_forall. intros H q Hq. by apply H in Hq. Qed.

Lemma emits_ensureAnswered :
  emits (λ l r, match r with Throw _ => ∃ l1, l = l1 ++ [ActVerb VAnswer] | Ok _ => True end)
    (ensureAnswered cfg).
Proof.
  unfold ensureAnswered. emits_step. case_match; [by emits_step|].
  emits_step. case_match; [by emits_step|]. emits_step. emits_step.
  { by exists [ActLeg (ActArm AnswerTimer (answerTimeoutMs (settings cfg)))]. }
  destruct x; repeat emits_step; done.
Qed.

Lemma emits_hangupQuietly id cause :
  emits (λ l r, r = Ok tt ∧ accounted id l) (hangupQuietly id cause).
Proof.
  unfold hangupQuietly. emits_step.
  eapply (emits_try (λ l r, l = [ActLeg (ActHangup id cause)])); [by apply emits_port|..].
  - intros l [] ->. split; [done|]. left. exists cause. set_solver.
  - intros l e ->. emits_step. split; [done|]. left. exists cause. set_solver.
Qed.

(** A body that is caught. *)
Lemma emits_caught Φ (m : M unit) :
  emits Φ m → emits (λ l r, (r = Ok None ∧ Φ l (Ok tt)) ∨ ∃ e, r = Ok (Some e)) (caught m).
Proof.
  intros Hm. unfold caught. eapply (emits_try (λ l r, match r with Ok o => o = None ∧ Φ l (Ok tt) | _ => True end)).
  - eapply emits_bind; [exact Hm|done|]. intros l [] H. emits_step. by rewrite app_nil_r.
  - intros l a [-> H]. by left.
  - intros l e _. emits_step. right. by exists e.
Qed.

(** The peer of [bridgeWith] is bridged or hung up, unless answering threw. *)
Lemma emits_bridgeWith id agent :
  emits (λ l r, Forall dials_nothing l ∧ (accounted id l ∨ answer_threw l r)) (bridgeWith cfg id agent).
Proof.
  apply emits_and.
  { apply writes_emits. unfold bridgeWith, peerLegIdOf. writes_tac. }
  unfold bridgeWith. eapply emits_bind; [apply emits_ensureAnswered|..].
  { intros l e [l1 ->]. right. by exists e, l1. }
  intros l ok _. apply emits_weaken with (Φ := λ l2 _, accounted id l2).
  { intros l2 r H. left. by apply accounted_r. }
  assert (∀ A cause (k : unit → M A), writes (λ _, True) (k tt) →
    emits (λ l2 _, accounted id l2) (hangupQuietly id cause ≫= k)) as Hdrop.
  { intros A cause k Hk. eapply emits_bind; [apply emits_hangupQuietly|by intros l2 e [? _]|].
    intros l2 [] [_ H]. eapply emits_weaken; [|by apply emits_any]. intros. by apply accounted_l. }
  destruct (negb ok); [apply Hdrop; writes_tac|]. emits_step.
  eapply (emits_bind (λ _ r, r = Ok tt)); [| done|].
  { eapply (emits_try (λ _ _, True)); [by apply emits_any, writes_port|by intros ? []|].
    intros. by emits_step. }
  intros l2 _ _. eapply emits_bind.
  - apply (emits_caught (λ l r, r = Ok tt → ∃ bridge, ActAddToBridge bridge [mediaChannelId cfg; id] ∈ l)).
    emits_step; [done|]. apply emits_port. intros _ _. exists a. set_solver.
  - by intros l3 e [[? _]|[? ?]].
  - intros l3 o Ho.
    assert (emits (λ l4 _, accounted id (l3 ++ l4)) (match o with
      | Some e => _ ← note (NoteBridgingFailed e); _ ← hangupQuietly id NORMAL_TEMPORARY_FAILURE;
                  mret (Hangup NORMAL_TEMPORARY_FAILURE)
      | None => _ ← act (ActSetBridge (Some a)); _ ← act (ActMoveTo ChannelState.exchanging_media);
                _ ← act (ActLegBridged id a); leg ← peerLegIdOf cfg id;
                _ ← call (ActPublish (EvBridged (channelId cfg) leg a)); _ ← act (ActWatchPeer id a agent);
                mret Bridged end)) as H; [|eapply emits_weaken; [|exact H]; intros; by apply accounted_r].
    destruct o as [e|].
    + emits_step. eapply emits_weaken; [|apply Hdrop; writes_tac]. intros. by apply accounted_r.
    + destruct Ho as [[_ Hb]|[e ?]]; [|done]. eapply emits_weaken; [|apply emits_any].
      * intros l4 r _. apply accounted_l. right. by apply Hb.
      * unfold peerLegIdOf. writes_tac.
Qed.

(** ** One dial *)
Definition dials (l : list Action) : list OriginateRequest :=
  omap (λ a, match a with ActLeg (ActOriginate q) => Some q | _ => None end) l.

Lemma dials_app l l' : dials (l ++ l') = dials l ++ dials l'.
Proof. apply omap_app. Qed.

Lemma dials_none l : Forall dials_nothing l → dials l = [].
Proof. unfold dials. induction 1 as [|a l Ha _ IH]; [done|]. by destruct a as [[]| | | | | | | | | | | | | | | | | | | | | | | | | | | | |]. Qed.

(** The actions of a dial concern the one leg [id], which is dialled at most once, as
    [attempt] says. *)
Definition one_leg (attempt : DialAttempt) (id : string) (acts : list LegAction) : Prop :=
  Forall (λ a, match a with ActHangup i _ | ActHangingUp i _ | ActAsk i _ _ => i = id | _ => True end) acts ∧
  (dials (ActLeg <$> acts) = [] ∨
   ∃ q, dials (ActLeg <$> acts) = [q] ∧ or_channelId q = id ∧
     or_endpoint q = endpoint attempt ∧ or_callerId q = callerId attempt).

(** The leg a dial leaves: up when it is handed to the caller of the dial, hung up
    otherwise. *)
Definition left_behind (id : string) (acts : list LegAction) (o : DialOutcome) : Prop :=
  match o with
  | Answered j _ => j = id ∧ ¬ DialFacts.hung_up id acts
  | _ => ActHangup id ORIGINATOR_CANCEL ∈ acts
  end.

Lemma dials_legs acts :
  dials (ActLeg <$> acts) =
  omap (λ a, match a with ActOriginate q => Some q | _ => None end) (List.filter DialFacts.is_originate acts).
Proof.
  unfold dials. induction acts as [|a acts IH]; [done|].
  destruct a; cbn; [exact IH|exact IH|by f_equal|exact IH..].
Qed.

Lemma emits_dial_one attempt index abort :
  emits (λ l r, ∃ id acts o, l = ActLeg <$> acts ∧ r = Ok o ∧ one_leg attempt id acts ∧ left_behind id acts o)
    (dial_one cfg attempt index abort).
Proof.
  unfold dial_one. do 3 emits_step. set (ctx := dial_context cfg _).
  set (d := dialOne _ _ _ _ _ _ _).
  destruct (DialFacts.dialOne_outcome ctx attempt a index abort a1.2 a1.1) as (o & Ho & Hout).
  pose proof (DialFacts.dialOne_speaks ctx attempt a index abort a1.2 a1.1) as Hsp.
  pose proof (DialFacts.dialOne_originates ctx attempt a index abort a1.2 a1.1) as Hor.
  fold d in Ho, Hout, Hsp, Hor.
  assert (one_leg attempt a (o_trace d)) as Hone.
  { split; [eapply Forall_impl; [exact Hsp|by intros []]|]. rewrite dials_legs.
    cbv zeta in Hor. destruct Hor as [-> | ->]; [by left|right]. by exists (originate_request ctx attempt a). }
  intros [s w]. exists (ActLeg <$> o_trace d). split; [done|].
  exists a, (o_trace d), o. simpl. rewrite Ho. split_and!; try done.
  destruct o as [j n| | |]; [destruct Hout as (? & ? & ? & _); by split|done..].
Qed.

Lemma hung_up_accounted id acts : ActHangup id ORIGINATOR_CANCEL ∈ acts → accounted id (ActLeg <$> acts).
Proof. intros H. left. exists ORIGINATOR_CANCEL. by apply list_elem_of_fmap_2. Qed.

Lemma elem_of_dials q l : originated l q ↔ q ∈ dials l.
Proof.
  unfold originated, dials. rewrite list_elem_of_omap. split.
  - intros H. by exists (ActLeg (ActOriginate q)).
  - intros (a & Ha & Heq). destruct a as [[]| | | | | | | | | | | | | | | | | | | | | | | | | | | | |]; simplify_eq. done.
Qed.

Lemma one_leg_accounted attempt id acts l :
  one_leg attempt id acts → accounted id ((ActLeg <$> acts) ++ l) →
  Forall dials_nothing l → all_accounted ((ActLeg <$> acts) ++ l).
Proof.
  intros [_ Hd] Hid Hl q Hq%elem_of_dials. rewrite dials_app, (dials_none l Hl), app_nil_r in Hq.
  destruct Hd as [Hd|(q' & Hd & <- & _)]; rewrite Hd in Hq; [by apply elem_of_nil in Hq|].
  by apply list_elem_of_singleton in Hq as ->.
Qed.

(** ** Trunks *)

(** The reservations granted and the reservations handed to a leg or given back. *)
Definition granted (l : list Action) : list Trunks.TrunkReservation :=
  omap (λ a, match a with ActReserve _ _ r => r | _ => None end) l.

Definition returned (l : list Action) : list Trunks.TrunkReservation :=
  omap (λ a, match a with ActBindTo r _ | ActRelease r => Some r | _ => None end) l.

Definition no_capacity (a : Action) : Prop :=
  match a with ActReserve _ _ _ | ActBindTo _ _ | ActRelease _ => False | _ => True end.

Lemma no_capacity_none l : Forall no_capacity l → granted l = [] ∧ returned l = [].
Proof.
  unfold granted, returned. induction 1 as [|a l Ha _ [IH1 IH2]]; [done|]. by destruct a; simplify_eq/=.
Qed.

Lemma granted_app l l' : granted (l ++ l') = granted l ++ granted l'.
Proof. apply omap_app. Qed.

Lemma returned_app l l' : returned (l ++ l') = returned l ++ returned l'.
Proof. apply omap_app. Qed.

Lemma legs_no_capacity acts : Forall no_capacity (ActLeg <$> acts).
Proof. apply Forall_fmap, Forall_true. done. Qed.

Definition announces (a : Action) : bool :=
  match a with ActPublish (EvEmergencyDialed _ _ _ _ _ _ _ _) => true | _ => false end.

(** No leg, no channel and no announcement. *)
Definition aside (a : Action) : Prop :=
  dials_nothing a ∧ no_capacity a ∧ announces a = false.

Lemma aside_none l :
  Forall aside l → Forall dials_nothing l ∧ Forall no_capacity l ∧ Forall (λ a, announces a = false) l.
Proof. intros H. split_and!; (eapply Forall_impl; [exact H|by intros a (? & ? & ?)]). Qed.

(** The request of a channel of [t], where there is a registry. *)
Definition reserving (t : TrunkAttempt) (res : option Trunks.TrunkReservation) : list Action :=
  if has_trunkCapacity cfg then [ActReserve (trunkId t) (trunk_maxChannels t) res] else [].

Definition releasing (res : option Trunks.TrunkReservation) : list Action := ActRelease <$> option_list res.

Section Chain.
Context (number : string) (caller : TrunkAttempt → option string) (node : TrunkDialPlanNode).

(** A dial of trunk [t], with the channel [res] of it where there is a registry: the leg
    [id] is sent to that trunk and shows [caller t]. *)
Definition dialled (t : TrunkAttempt) (res : option Trunks.TrunkReservation) (id : string)
    (acts : list LegAction) : Prop :=
  (has_trunkCapacity cfg = true ↔ is_Some res) ∧
  ∃ attempt, one_leg attempt id acts ∧
    endpoint attempt = trunk_endpoint cfg number (trunk_name t) ∧ callerId attempt = caller t.

(** The calls of a chain of trunks and its result. A trunk whose channels are taken is
    passed over. A leg that did not answer was hung up, and the channel it was dialled
    on, and no other, is given back; the next trunk is tried on the causes of the node
    and on no other. The channel of a leg that answered is bound to that leg, which is
    bridged with the caller or hung up. *)
Inductive chain : list TrunkAttempt → HangupCause → list Action → result string StepResult → Prop :=
| chain_spent cause :
    chain [] cause [] (Ok (PlanWalker.branch (td_failoverNodeId node) cause))
| chain_gone t rest cause :
    chain (t :: rest) cause [] (Ok StepAborted)
| chain_full t rest cause l r :
    has_trunkCapacity cfg = true → chain rest SWITCH_CONGESTION l r →
    chain (t :: rest) cause (reserving t None ++ l) r
| chain_aborted t rest cause res id acts :
    dialled t res id acts → ActHangup id ORIGINATOR_CANCEL ∈ acts →
    chain (t :: rest) cause (reserving t res ++ (ActLeg <$> acts) ++ releasing res) (Ok StepAborted)
| chain_stopped t rest cause res id acts last :
    dialled t res id acts → ActHangup id ORIGINATOR_CANCEL ∈ acts → last ∉ continue_on node →
    chain (t :: rest) cause (reserving t res ++ (ActLeg <$> acts) ++ releasing res)
      (Ok (PlanWalker.branch (td_failoverNodeId node) last))
| chain_next t rest cause res id acts last l r :
    dialled t res id acts → ActHangup id ORIGINATOR_CANCEL ∈ acts → last ∈ continue_on node →
    chain rest last l r →
    chain (t :: rest) cause (reserving t res ++ (ActLeg <$> acts) ++ releasing res ++ l) r
| chain_answered t rest cause res id acts l r :
    dialled t res id acts → ¬ DialFacts.hung_up id acts →
    accounted id l ∨ answer_threw l r → Forall aside l →
    chain (t :: rest) cause
      (reserving t res ++ (ActLeg <$> acts) ++ ((λ r, ActBindTo r id) <$> option_list res) ++ l) r.

Lemma reserving_capacity t res :
  (has_trunkCapacity cfg = true ↔ is_Some res) →
  granted (reserving t res) = option_list res ∧ returned (reserving t res) = [].
Proof. unfold reserving. destruct (has_trunkCapacity cfg), res as [r|]; naive_solver. Qed.

Lemma reserving_dials t res : Forall dials_nothing (reserving t res).
Proof. unfold reserving. destruct (has_trunkCapacity cfg); by repeat constructor. Qed.

Lemma releasing_capacity res :
  granted (releasing res) = [] ∧ returned (releasing res) = option_list res ∧ Forall dials_nothing (releasing res).
Proof. destruct res; split_and!; by repeat constructor. Qed.

Lemma binding_capacity id res :
  let l := (λ r, ActBindTo r id) <$> option_list res in
  granted l = [] ∧ returned l = option_list res ∧ Forall dials_nothing l.
Proof. destruct res; split_and!; by repeat constructor. Qed.

(** A chain of trunks leaves nothing reserved and nothing ringing. *)
Definition trunks_settled (l : list Action) (r : result string StepResult) : Prop :=
  granted l = returned l ∧ (all_accounted l ∨ answer_threw l r).

Lemma trunks_settled_app l l' r :
  granted l = returned l → all_accounted l → trunks_settled l' r → trunks_settled (l ++ l') r.
Proof.
  intros Hg Ha [Hg' [Ha'|(e & l1 & -> & ->)]].
  - split; [by rewrite granted_app, returned_app, Hg, Hg'|]. left. by apply all_accounted_app.
  - split; [by rewrite granted_app, returned_app, Hg, Hg'|]. right. exists e, (l ++ l1). by rewrite app_assoc.
Qed.

Lemma quiet_settled l r : Forall no_capacity l → Forall dials_nothing l → trunks_settled l r.
Proof.
  intros Hc Hd. unfold trunks_settled. destruct (no_capacity_none l Hc) as [-> ->]. split; [done|].
  left. by apply dials_nothing_accounted.
Qed.

(** One dial and what becomes of its channel. *)
Lemma dialled_returned t res id acts l3 :
  dialled t res id acts → granted l3 = [] ∧ returned l3 = option_list res ∧ Forall dials_nothing l3 →
  let l := reserving t res ++ (ActLeg <$> acts) ++ l3 in granted l = returned l.
Proof.
  intros (Hres & _) (Hg3 & Hr3 & _) l. destruct (reserving_capacity t res Hres) as [Hg1 Hr1].
  destruct (no_capacity_none _ (legs_no_capacity acts)) as [Hg2 Hr2]. subst l.
  by rewrite !granted_app, !returned_app, Hg1, Hg2, Hg3, Hr1, Hr2, Hr3, app_nil_r.
Qed.

Lemma chain_failed_settled t res id acts l r :
  dialled t res id acts → ActHangup id ORIGINATOR_CANCEL ∈ acts → trunks_settled l r →
  trunks_settled (reserving t res ++ (ActLeg <$> acts) ++ releasing res ++ l) r.
Proof.
  intros Hd Hup Hl. rewrite !app_assoc, <- (app_assoc _ _ (releasing res)). apply trunks_settled_app; [| |done].
  - eapply dialled_returned; [done|apply releasing_capacity].
  - destruct Hd as (_ & attempt & Hone & _). apply all_accounted_app; [apply dials_nothing_accounted, reserving_dials|].
    eapply one_leg_accounted; [done|by apply accounted_l, hung_up_accounted|apply releasing_capacity].
Qed.

Lemma chain_settled attempts cause l r : chain attempts cause l r → trunks_settled l r.
Proof.
  assert (∀ r, trunks_settled [] r) as Hnil by (intros; by apply quiet_settled).
  induction 1 as [| |t rest cause l r Hcap _ IH|t rest cause res id acts Hd Hup|t rest cause res id acts c Hd Hup _
    |t rest cause res id acts c l r Hd Hup _ _ IH|t rest cause res id acts l r Hd Hup Hl [Hdn [Hc _]]%aside_none]; try apply Hnil.
  - apply trunks_settled_app; [|apply dials_nothing_accounted, reserving_dials|done].
    unfold reserving. by rewrite Hcap.
  - rewrite <- (app_nil_r (releasing res)). by eapply chain_failed_settled.
  - rewrite <- (app_nil_r (releasing res)). by eapply chain_failed_settled.
  - by eapply chain_failed_settled.
  - destruct (no_capacity_none l Hc) as [Hg Hr]. pose proof (binding_capacity id res) as Hb. cbv zeta in Hb.
    set (bind := (λ r, ActBindTo r id) <$> option_list res) in *.
    pose proof (dialled_returned _ _ _ _ _ Hd Hb) as Hret. cbv zeta in Hret. split.
    { rewrite !app_assoc, <- (app_assoc _ _ bind), granted_app, returned_app, Hret, Hg, Hr. done. }
    destruct Hd as (_ & attempt & Hone & _). destruct Hl as [Hl|(e & l1 & -> & ->)].
    + left. apply all_accounted_app; [apply dials_nothing_accounted, reserving_dials|].
      eapply one_leg_accounted; [done|by do 2 apply accounted_r|]. apply Forall_app. by split; [apply Hb|].
    + right. exists e. eexists. split; [done|]. by rewrite !app_assoc.
Qed.

(** The trunks are dialled in order, each at most once, and shown its own number. *)
Definition dialled_in_order (attempts : list TrunkAttempt) (l : list Action) : Prop :=
  ((λ q, (or_endpoint q, or_callerId q)) <$> dials l) `sublist_of`
  ((λ t, (trunk_endpoint cfg number (trunk_name t), caller t)) <$> attempts).

Lemma dialled_one t rest res id acts l3 l :
  dialled t res id acts → Forall dials_nothing l3 → dialled_in_order rest l →
  dialled_in_order (t :: rest) (reserving t res ++ (ActLeg <$> acts) ++ l3 ++ l).
Proof.
  intros (_ & attempt & [_ Hone] & He & Hc) H3 Hl. unfold dialled_in_order.
  rewrite !dials_app, (dials_none _ (reserving_dials t res)), (dials_none l3 H3), fmap_app. simpl.
  destruct Hone as [->|(q & -> & _ & Hq1 & Hq2)]; simpl; [by apply sublist_cons|].
  rewrite Hq1, Hq2, He, Hc. by apply sublist_skip.
Qed.

Lemma chain_in_order attempts cause l r : chain attempts cause l r → dialled_in_order attempts l.
Proof.
  assert (∀ ts, dialled_in_order ts []) as Hnil by (intros; apply sublist_nil_l).
  induction 1 as [| |t rest cause l r Hcap _ IH|t rest cause res id acts Hd Hup|t rest cause res id acts c Hd Hup _
    |t rest cause res id acts c l r Hd Hup _ _ IH|t rest cause res id acts l r Hd Hup Hl [Hdn [Hc _]]%aside_none]; try apply Hnil.
  - unfold dialled_in_order. rewrite dials_app, (dials_none _ (reserving_dials t None)). by apply sublist_cons.
  - rewrite <- (app_nil_r (releasing res)). eapply dialled_one; [done|apply releasing_capacity|done].
  - rewrite <- (app_nil_r (releasing res)). eapply dialled_one; [done|apply releasing_capacity|done].
  - eapply dialled_one; [done|apply releasing_capacity|done].
  - eapply dialled_one; [done|apply binding_capacity|]. unfold dialled_in_order. rewrite (dials_none l Hdn).
    apply sublist_nil_l.
Qed.
End Chain.

(** The trunk is dialled, and so is the number it shows. *)
Definition caller_shown (emergency : bool) (elin : option string) (node : TrunkDialPlanNode)
    (input : WalkInput) (t : TrunkAttempt) : option string :=
  composeCallerId (in_callerIdName input) (presented emergency elin node t input).

Lemma emits_reserve t :
  emits (λ l r, ∃ res, r = Ok res ∧ l = reserving t res ∧ (has_trunkCapacity cfg = false → res = None))
    (reserve cfg t).
Proof.
  intros [s w]. unfold reserve, reserving. destruct (has_trunkCapacity cfg).
  - destruct (ww_reserve _ _ _) as [w' r]. eexists. split; [reflexivity|]. by exists r.
  - exists []. rewrite app_nil_r. split; [done|]. by exists None.
Qed.

Lemma emits_with_reservation res op :
  emits (λ l r, r = Ok tt ∧ l = op <$> option_list res) (with_reservation res op).
Proof. intros [s w]. destruct res as [r|]; simpl; [by exists [op r]|exists []; by rewrite app_nil_r]. Qed.

Lemma emits_bridging id :
  emits (λ l r, Forall aside l ∧ (accounted id l ∨ answer_threw l r)) (bridgeWith cfg id None).
Proof.
  eapply emits_weaken; [|apply emits_and; [apply emits_bridgeWith|]].
  2: { apply writes_emits. assert (writes aside (bridgeWith cfg id None)) as Hw; [|exact Hw].
    unfold bridgeWith, peerLegIdOf. writes_tac; by split_and!. }
  by intros l r [[? ?] ?].
Qed.

Lemma emits_trunk_loop number emergency elin node input attempts cause :
  emits (chain number (caller_shown emergency elin node input) node attempts cause)
    (trunk_loop cfg number emergency elin node input attempts cause).
Proof.
  revert cause. induction attempts as [|t rest IH]; intros cause; cbn [trunk_loop].
  { emits_step. constructor. }
  emits_step. case_match; [emits_step; constructor|].
  eapply emits_bind; [apply emits_reserve|by intros l e (? & ? & _)|].
  intros l1 res (res' & Heq & -> & Hnone). injection Heq as <-.
  destruct (_ && _) eqn:Hfull.
  { apply andb_true_iff in Hfull as [Hcap Hn]. apply bool_decide_eq_true in Hn as ->.
    emits_step. eapply emits_weaken; [|apply IH]. intros l r. by apply chain_full. }
  assert (has_trunkCapacity cfg = true ↔ is_Some res) as Hcap.
  { destruct (has_trunkCapacity cfg), res as [x|]; simpl in *;
      (split; [by intros ?|intros [? ?]; done]) || (rewrite Hnone by done; by split; [|intros [? ?]]). }
  eapply emits_bind; [apply emits_dial_one|by intros l e (? & ? & ? & ? & ? & _)|].
  intros l2 outcome (id & acts & o & -> & Heq & Hone & Hleft). injection Heq as <-.
  assert (dialled number (caller_shown emergency elin node input) t res id acts) as Hd.
  { split; [done|]. eexists. by split_and!. }
  assert (∀ k, (ActHangup id ORIGINATOR_CANCEL ∈ acts →
      emits (λ l r, chain number (caller_shown emergency elin node input) node (t :: rest) cause
                      (reserving t res ++ (ActLeg <$> acts) ++ releasing res ++ l) r) k) →
    ActHangup id ORIGINATOR_CANCEL ∈ acts →
    emits (λ l r, chain number (caller_shown emergency elin node input) node (t :: rest) cause
                    (reserving t res ++ (ActLeg <$> acts) ++ l) r)
      (_ ← with_reservation res ActRelease; k)) as Hrelease.
  { intros k Hk Hup. eapply emits_bind; [by apply emits_with_reservation|by intros ? ? [? _]|].
    intros l3 [] [_ ->]. by apply Hk. }
  assert (∀ last, ActHangup id ORIGINATOR_CANCEL ∈ acts →
      emits (λ l r, chain number (caller_shown emergency elin node input) node (t :: rest) cause
                      (reserving t res ++ (ActLeg <$> acts) ++ releasing res ++ l) r)
        (if includes (continue_on node) last then trunk_loop cfg number emergency elin node input rest last
         else mret (PlanWalker.branch (td_failoverNodeId node) last))) as Hlast.
  { intros last Hup. destruct (includes (continue_on node) last) eqn:Hin.
    - eapply emits_weaken; [|apply IH]. intros l r.
      apply (chain_next _ _ _ t rest cause res id acts last); [done|done|]. by apply includes_spec.
    - emits_step. rewrite app_nil_r. apply (chain_stopped _ _ _ t rest cause res id acts last); [done|done|].
      by apply includes_false. }
  destruct outcome as [j n|c n| |]; simpl in Hleft.
  - destruct Hleft as [-> Hup]. eapply emits_bind; [by apply emits_with_reservation|by intros ? ? [? _]|].
    intros l3 [] [_ ->]. eapply emits_weaken; [|apply emits_bridging].
    intros l r (? & ?). by apply chain_answered.
  - apply Hrelease; [|done]. apply Hlast.
  - apply Hrelease; [|done]. apply Hlast.
  - apply Hrelease; [|done]. intros _. emits_step. rewrite app_nil_r.
    by apply (chain_aborted _ _ _ t rest cause res id acts).
Qed.

(** ** A trunk node *)
(** The announcement of an emergency call. *)
Definition announcement (node : TrunkDialPlanNode) (input : WalkInput) (number : string) (a : Action) : Prop :=
  ∃ dialed callerNumber callerName trunk,
    a = ActPublish (EvEmergencyDialed (channelId cfg) dialed number callerNumber callerName
          (coalesce (in_callerIdNumber input) (td_elin node)) (td_emergencyAddressId node) trunk).

(** The number every trunk is shown. *)
Definition node_caller (node : TrunkDialPlanNode) (input : WalkInput) (t : TrunkAttempt) : option string :=
  composeCallerId (in_callerIdName input)
    (if default false (td_emergency node) then coalesce (in_callerIdNumber input) (td_elin node)
     else coalesce (trunk_callerIdNumberOverride t)
            (coalesce (td_callerIdNumberOverride node) (in_callerIdNumber input))).

(** The calls of a trunk node: none that dial, or the chain of its trunks after the
    announcement of an emergency call. *)
Definition trunk_trace (node : TrunkDialPlanNode) (input : WalkInput) (l : list Action)
    (r : result string StepResult) : Prop :=
  Forall aside l ∨
  ∃ pre said number draws l',
    l = pre ++ said ++ l' ∧ dialedNumber input = Some number ∧ Forall aside pre ∧
    (if default false (td_emergency node) then ∃ a, said = [a] ∧ announcement node input number a else said = []) ∧
    chain number (node_caller node input) node (Trunks.orderTrunkAttempts (td_attempts node) draws)
      NORMAL_TEMPORARY_FAILURE l' r.

Lemma emits_notifyEmergency node input number trunk :
  emits (λ l r, r = Ok tt ∧ ∃ a, l = [a] ∧ announcement node input number a)
    (notifyEmergency cfg node input number trunk (coalesce (in_callerIdNumber input) (td_elin node))).
Proof.
  unfold notifyEmergency. do 3 emits_step.
  eapply (emits_try (λ l _, l = [_])); [by apply emits_port| |].
  - intros l [] ->. split; [done|]. eexists. split; [done|]. by do 4 eexists.
  - intros l e ->. intros [s w]. exists []. rewrite app_nil_r. simpl.
    split; [done|]. split; [done|]. eexists. split; [done|]. by do 4 eexists.
Qed.

Lemma chain_caller number c c' node attempts cause l r :
  (∀ t, c t = c' t) → chain number c node attempts cause l r → chain number c' node attempts cause l r.
Proof.
  intros Hc. assert (∀ t res id acts, dialled number c t res id acts → dialled number c' t res id acts) as Hd.
  { intros t res id acts (? & attempt & ? & ? & Ha). split; [done|]. exists attempt. by rewrite <- Hc. }
  induction 1; econstructor; eauto.
Qed.

Lemma emits_trunkDialNode id node input : emits (trunk_trace node input) (trunkDialNode cfg id node input).
Proof.
  assert (∀ r, emits (trunk_trace node input) (mret r)) as Hret.
  { intros. emits_step. by left. }
  unfold trunkDialNode. destruct (dialedNumber input) as [[|c s]|] eqn:Hnum; [by emits_step| |by emits_step].
  emits_step. set (number := String c s) in *.
  destruct (Trunks.orderTrunkAttempts (td_attempts node) a) as [|t attempts] eqn:Ho; [by emits_step|].
  eapply emits_bind.
  { apply (writes_emits aside). unfold ring. writes_tac; by split_and!. }
  { intros l e Hl. by left. }
  intros pre [] Hpre. cbv zeta.
  assert (∀ said caller l r,
    (if default false (td_emergency node) then ∃ a, said = [a] ∧ announcement node input number a else said = []) →
    (∀ t, caller t = node_caller node input t) →
    chain number caller node (t :: attempts) NORMAL_TEMPORARY_FAILURE l r →
    trunk_trace node input (pre ++ said ++ l) r) as Hchain.
  { intros said caller l r Hsaid Hc Hl. right. exists pre, said, number, a, l.
    rewrite Ho. split_and!; try done. by eapply chain_caller. }
  unfold node_caller in Hchain. destruct (default false (td_emergency node)).
  - eapply emits_bind; [apply emits_notifyEmergency|by intros ? ? [? _]|]. intros said [] [_ Hsaid].
    eapply emits_weaken; [|apply emits_trunk_loop]. intros l r Hl. by eapply Hchain.
  - emits_step. eapply emits_weaken; [|apply emits_trunk_loop]. intros l r Hl. by eapply (Hchain []).
Qed.


(** ** Emergency calls *)
Notation quiet l := (Forall (λ a, announces a = false) l).

Lemma chain_quiet number c node attempts cause l r : chain number c node attempts cause l r → quiet l.
Proof.
  assert (∀ t res, quiet (reserving t res)) as H1.
  { intros. unfold reserving. destruct (has_trunkCapacity cfg); by repeat constructor. }
  assert (∀ acts, quiet (ActLeg <$> acts)) as H2 by (intros; by apply Forall_fmap, Forall_true).
  assert (∀ f res, (∀ r, announces (f r) = false) → quiet (f <$> option_list (A := Trunks.TrunkReservation) res)) as H3.
  { intros f res Hf. destruct res; by repeat constructor. }
  induction 1 as [| | | | | |t rest cause res id acts l r Hd Hup Hl [_ [_ Hq]]%aside_none];
    rewrite ?Forall_app; unfold releasing; auto.
Qed.

(** The calls of a trunk node on an emergency call, and on any other. *)
Definition emergency_trace (node : TrunkDialPlanNode) (input : WalkInput) (l : list Action) : Prop :=
  let name := in_callerIdName input in
  let elin := coalesce (in_callerIdNumber input) (td_elin node) in
  let trunks draws := Trunks.orderTrunkAttempts (td_attempts node) draws in
  if default false (td_emergency node) then
    (dials l = [] ∧ quiet l) ∨
    ∃ pre a rest number draws,
      l = pre ++ a :: rest ∧ dialedNumber input = Some number ∧ announcement node input number a ∧
      dials pre = [] ∧ quiet pre ∧ quiet rest ∧
      dialled_in_order number (λ _, composeCallerId name elin) (trunks draws) rest
  else
    quiet l ∧
    (dials l = [] ∨
     ∃ number draws, dialedNumber input = Some number ∧
       dialled_in_order number
         (λ t, composeCallerId name
                 (coalesce (trunk_callerIdNumberOverride t)
                    (coalesce (td_callerIdNumberOverride node) (in_callerIdNumber input))))
         (trunks draws) l).

End Walk.
End WalkDials.
