(* ===== verification/WalkGates.v ===== *)
(** * What a caller has to pass

    The gates of PlanWalker.v: a conference room is joined only by a caller who was
    admitted, a mailbox is read only for its owner and after its PIN, a message is
    filed only when something was recorded, and a menu lets a caller try only so
    often. *)

From S2P Require Import Prelude HangupCauses Dtmf Patterns TimeConditions Plan Resolve ConferenceRegistry MediaRefs Dial PlanWalker WalkDemo WalkLogic WalkSteps.

Module WalkGates.
Import Plan MediaRefs Dial PlanWalker WalkLogic.
#[local] Open Scope nat_scope.

(** ** Challenges *)
Definition is_gather (a : Action) : bool :=
  match a with ActVerb (VGather _ _ _ _ _) => true | _ => false end.

(** How often the caller was asked for digits. *)
Definition gathers (l : list Action) : nat := length (List.filter is_gather l).

Lemma gathers_app l l' : gathers (l ++ l') = gathers l + gathers l'.
Proof. unfold gathers. by rewrite List.filter_app, length_app. Qed.

Definition no_gather (a : Action) : Prop := is_gather a = false.

Lemma no_gathers l : Forall no_gather l → gathers l = 0.
Proof. unfold gathers. induction 1 as [|a l Ha _ IH]; [done|]. simpl. by rewrite Ha. Qed.

Section Gates.
Context (RegExp : string → result string Patterns.exec_fun).
Context (kdf : Kdf) {W : Type} `{!WalkerWorld W} (cfg : WalkerConfig).
Notation M := (@PlanWalker.M W).
Notation emits := (WalkLogic.emits (W:=W)).
Notation writes := (WalkLogic.writes (W:=W)).

(** The digits are what the caller keyed when a verb asked for them. *)
Definition keyed (digits : string) : Prop :=
  ∃ w v r, (ww_verb w v).2 = Ok (Some r) ∧ digits_of r = digits.

(** The caller keyed the PIN of the digest. *)
Definition knows_pin (digest : option string) : Prop :=
  ∃ digits h, keyed digits ∧ digest = Some h ∧ verifyPinDigest kdf digits h = PinOk.

(** ** Conferences *)

(** What a caller may join a room as. *)
Definition admitted_as (node : ConferencePlanNode) (moderator : bool) : Prop :=
  if moderator then knows_pin (conf_moderatorPinHash node)
  else knows_pin (conf_pinHash node) ∨ (conf_pinHash node = None ∧ conf_requiresPin node = false).

(** Nothing of a room or of a bridge is touched. *)
Definition outside_room (a : Action) : Prop :=
  match a with
  | ActJoin _ _ _ | ActLeave _ | ActHold _ | ActRefresh _ | ActCreateBridge _ _ | ActAddToBridge _ _
  | ActDestroyBridge _ | ActSetBridge _ | ActWatchMember _ _ _ _
  | ActPublish (EvConferenceJoined _ _ _ _ _ _) | ActPublish (EvConferenceLeft _ _ _ _ _ _ _) => False
  | _ => True
  end.

Definition aside (a : Action) : Prop := outside_room a ∧ no_gather a.

(** What a challenge of at most [n] questions gives. *)
Definition challenged (node : ConferencePlanNode) (n : nat) (l : list Action) (r : result string Admission) : Prop :=
  Forall outside_room l ∧ gathers l <= n ∧
  match r with Ok (AdmittedAs m) => admitted_as node m | _ => True end.

Lemma writes_unavailable (P : Action → Prop) c :
  P (ActVerb VAnswer) → (∀ a, P (ActLeg a)) → (∀ m, P (ActVerb (VPlay m))) → writes P (unavailable cfg c).
Proof. intros. unfold unavailable. by apply writes_announce. Qed.

Lemma writes_unavailable_aside c : writes aside (unavailable cfg c).
Proof. by apply writes_unavailable. Qed.

Lemma emits_check_digest node digits digest b next :
  (∀ h, digest = Some h → verifyPinDigest kdf digits h = PinOk → admitted_as node b) →
  emits (λ l r, Forall aside l ∧ match r with Ok (Some (AdmittedAs m)) => admitted_as node m | _ => True end) next →
  emits (λ l r, Forall aside l ∧ match r with Ok (Some (AdmittedAs m)) => admitted_as node m | _ => True end)
    (check_digest kdf cfg node digits digest b next).
Proof.
  intros Hb Hn. unfold check_digest. destruct digest as [h|]; [|done].
  destruct (verifyPinDigest kdf digits h) eqn:Hv; [emits_step; split; [done|eauto]|].
  destruct (defect failure); [|done].
  eapply emits_bind; [apply (writes_emits aside); unfold refuseConference| |].
  - apply writes_bind; [by apply writes_note|intros _; apply writes_unavailable_aside].
  - by intros.
  - intros l x Hl. emits_step. by rewrite app_nil_r.
Qed.

Lemma emits_conference_attempts n node :
  (conf_pinHash node = None → conf_requiresPin node = false) →
  emits (challenged node n) (conference_attempts kdf cfg n node).
Proof.
  intros Hreq. induction n as [|n IH]; cbn [conference_attempts].
  { emits_step. emits_step. split_and!; [done|done|done]. }
  emits_step. destruct a; [emits_step; split_and!; [done|unfold gathers; simpl; lia|done]|].
  unfold gather_pin, execute. set (gather := ActVerb _).
  assert (∀ r, challenged node (S n) [gather] r ↔ match r with Ok (AdmittedAs m) => admitted_as node m | _ => True end) as Hone.
  { intros r. unfold challenged. split; [by intros (_ & _ & ?)|]. intros. split_and!; [by repeat constructor|unfold gathers; simpl; lia|done]. }
  apply emits_answer; [intros e; by apply Hone|]. intros w [v|] Hv; [|emits_step; by apply Hone].
  destruct (ended_by_hangup v); [emits_step; by apply Hone|].
  assert (keyed (digits_of v)) as Hk by (eexists _, _, _; split; [exact Hv|done]).
  destruct (_ && _) eqn:Hblank.
  { emits_step. apply Hone. apply andb_true_iff in Hblank as [_ Hnone]. apply bool_decide_eq_true in Hnone. right. auto. }
  eapply emits_bind.
  { apply (emits_check_digest node (digits_of v) (conf_moderatorPinHash node) true).
    - intros h Hh Hok. by exists (digits_of v), h.
    - apply (emits_check_digest node (digits_of v) (conf_pinHash node) false).
      + intros h Hh Hok. left. by exists (digits_of v), h.
      + emits_step. done. }
  { intros l e [Hl _]. apply Forall_and in Hl as [Ho Hg]. split_and!; [by constructor| |done].
    change (gather :: l) with ([gather] ++ l). rewrite gathers_app, (no_gathers l Hg). unfold gathers. simpl. lia. }
  intros l adm [Hl Hadm]. apply Forall_and in Hl as [Ho Hg].
  assert (gathers (gather :: l) = 1) as H1.
  { change (gather :: l) with ([gather] ++ l). by rewrite gathers_app, (no_gathers l Hg). }
  destruct adm as [m|].
  { emits_step. rewrite app_nil_r. split_and!; [by constructor|lia|done]. }
  unfold execute_. eapply emits_bind; [apply (writes_emits aside); by apply writes_execute_| |].
  { intros l2 e [Ho2 Hg2]%Forall_and. split_and!; [|rewrite app_comm_cons, gathers_app, (no_gathers l2 Hg2); lia|done].
    constructor; [done|]. by apply Forall_app. }
  intros l2 [] [Ho2 Hg2]%Forall_and. eapply emits_weaken; [|exact IH]. intros l3 r (Ho3 & Hg3 & Hr).
  split_and!; [|rewrite app_comm_cons, !gathers_app, (no_gathers l2 Hg2); lia|done].
  constructor; [done|]. by repeat (apply Forall_app; split).
Qed.

Lemma emits_challengeConferencePin node :
  emits (challenged node (conferencePinAttempts (settings cfg))) (challengeConferencePin kdf cfg node).
Proof.
  unfold challengeConferencePin. destruct (conf_requiresPin node && _) eqn:Hreq.
  - emits_step. eapply emits_bind; [apply (writes_emits aside), writes_unavailable_aside| |].
    + intros l e [Ho Hg]%Forall_and. split_and!; [done|rewrite (no_gathers l Hg); lia|done].
    + intros l r [Ho Hg]%Forall_and. emits_step. rewrite app_nil_r.
      split_and!; [done|rewrite (no_gathers l Hg); lia|done].
  - assert (conf_pinHash node = None → conf_requiresPin node = false) as Hr.
    { intros Hn. rewrite Hn, bool_decide_true, andb_true_r in Hreq by done. done. }
    destruct (conf_pinHash node) eqn:Hp; [by apply emits_conference_attempts; intros; congruence|].
    destruct (conf_moderatorPinHash node); [by apply emits_conference_attempts; auto|].
    emits_step. split_and!; [done|unfold gathers; simpl; lia|]. right. auto.
Qed.

(** A member of the room touches nothing but that room and its bridge, and puts nobody
    but the caller there. *)
Definition of_room (node : ConferencePlanNode) (room : ConferenceRegistry.ConferenceRoom) (a : Action) : Prop :=
  let conference := conf_conferenceId node in
  let bridge := ConferenceRegistry.cr_bridgeId room in
  match a with
  | ActJoin _ _ _ | ActDestroyBridge _ | ActPublish (EvConferenceLeft _ _ _ _ _ _ _) => False
  | ActLeave c | ActHold c | ActRefresh c => c = conference
  | ActCreateBridge b _ => b = bridge
  | ActAddToBridge b legs => b = bridge ∧ legs = [mediaChannelId cfg]
  | ActSetBridge b => b = Some bridge
  | ActWatchMember c b _ _ | ActPublish (EvConferenceJoined _ c _ b _ _) => c = conference ∧ b = bridge
  | _ => True
  end.

Definition off_bridge (a : Action) : Prop :=
  match a with
  | ActCreateBridge _ _ | ActAddToBridge _ _ | ActSetBridge _ | ActWatchMember _ _ _ _
  | ActPublish (EvConferenceJoined _ _ _ _ _ _) => False
  | _ => True
  end.

(** What a member of the room did: a member who has to wait for a moderator is held
    before the bridge is touched. *)
Definition in_room (node : ConferencePlanNode) (moderator : bool) (room : ConferenceRegistry.ConferenceRoom)
    (l : list Action) : Prop :=
  Forall (of_room node room) l ∧
  (conf_waitForModerator node = true → moderator = false →
   ConferenceRegistry.cr_moderatorPresent room = false →
   Forall off_bridge l ∨
   ∃ l1 l2, l = l1 ++ ActHold (conf_conferenceId node) :: l2 ∧ Forall off_bridge l1).

Lemma emits_enterRoom node m joinedAt room :
  emits (λ l _, in_room node m room l ∧ Forall no_gather l) (enterRoom cfg node m joinedAt room).
Proof.
  apply (emits_weaken (λ l r, (Forall (λ a, of_room node room a ∧ no_gather a) l) ∧
    (conf_waitForModerator node = true → m = false → ConferenceRegistry.cr_moderatorPresent room = false →
     Forall off_bridge l ∨ ∃ l1 l2, l = l1 ++ ActHold (conf_conferenceId node) :: l2 ∧ Forall off_bridge l1))).
  { by intros l r [[? ?]%Forall_and ?]. }
  apply emits_and.
  - apply writes_emits. unfold enterRoom, holdForModerator, leave. writes_tac; by split_and!.
  - destruct (conf_waitForModerator node && negb m && negb (ConferenceRegistry.cr_moderatorPresent room)) eqn:Hw.
    2: { eapply emits_weaken; [|apply (emits_any (enterRoom cfg node m joinedAt room))].
         - intros l r _ H1 H2 H3. by rewrite H1, H2, H3 in Hw.
         - unfold enterRoom, holdForModerator, leave. writes_tac. }
    apply (emits_weaken (λ l _, Forall off_bridge l ∨
      ∃ l1 l2, l = l1 ++ ActHold (conf_conferenceId node) :: l2 ∧ Forall off_bridge l1)); [done|].
    unfold enterRoom. rewrite Hw. eapply (emits_bind (λ l r, match r with
      | Throw _ => Forall off_bridge l ∨ ∃ l1 l2, l = l1 ++ ActHold (conf_conferenceId node) :: l2 ∧ Forall off_bridge l1
      | Ok _ => ∃ l1 l2, l = l1 ++ ActHold (conf_conferenceId node) :: l2 ∧ Forall off_bridge l1
      end)).
    + unfold holdForModerator. emits_step. emits_step; [left; by repeat constructor|]. emits_step.
      eapply emits_weaken; [|apply emits_any; writes_tac]. intros l r _.
      assert (∃ l1 l2, ActStartMusic (conf_mohClass node) :: ActHold (conf_conferenceId node) :: l =
        l1 ++ ActHold (conf_conferenceId node) :: l2 ∧ Forall off_bridge l1) as H.
      { exists [ActStartMusic (conf_mohClass node)], l. by repeat constructor. }
      destruct r; [exact H|by right].
    + done.
    + intros l may (l1 & l2 & -> & H1). eapply emits_weaken; [|apply emits_any; unfold leave; writes_tac].
      intros l3 r _. right. exists l1, (l2 ++ l3). by rewrite <- app_assoc.
Qed.

(** What follows the answer of the registry. *)
Definition after_join (node : ConferencePlanNode) (moderator : bool)
    (answer : result string ConferenceRegistry.ConferenceJoinResult) (l : list Action) : Prop :=
  match answer with
  | Ok (ConferenceRegistry.Joined room _) => in_room node moderator room l
  | _ => Forall outside_room l
  end.

(** What a conference node did: the room was not touched, or the caller was admitted
    first and asked to join it, once; unless the registry made the caller a member,
    nothing more of a room was touched. *)
Definition conference_trace (node : ConferencePlanNode) (l : list Action) : Prop :=
  gathers l <= conferencePinAttempts (settings cfg) ∧
  (Forall outside_room l ∨
   ∃ pre moderator answer rest,
     l = pre ++ ActJoin (conf_conferenceId node) moderator answer :: rest ∧ Forall outside_room pre ∧
     admitted_as node moderator ∧ after_join node moderator answer rest).

(** C14. Nobody enters a conference room unadmitted, however the verbs, the registry and
    the media server behave. Until the registry has answered that the caller is a member
    of the room, nothing of a room or of a bridge is touched but by the one request to
    join; when it answers that the room is full, or not at all, nothing ever is. A
    member touches that room and the bridge of its answer alone, puts nobody but the
    caller there, and is held before the bridge is touched where a moderator has to come
    first. The caller asks to join as a moderator only after keying the moderator's PIN,
    and as a participant only after keying the room's PIN or when the room neither has
    nor requires one; and is asked for a PIN at most the configured number of times. *)
Theorem conference_gate (node : ConferencePlanNode) (st : Walker * W) :
  ∃ l, trace (conferenceNode kdf cfg node st).1.1 = trace st.1 ++ l ∧ conference_trace node l.
Proof.
  assert (emits (λ l _, conference_trace node l) (conferenceNode kdf cfg node)) as H; [|apply H].
  assert (∀ l, Forall aside l → conference_trace node l) as Haside.
  { intros l [Ho Hg]%Forall_and. split; [rewrite (no_gathers l Hg); lia|by left]. }
  unfold conferenceNode. destruct (negb (has_conferences cfg)).
  { emits_step. eapply emits_weaken; [|apply (writes_emits aside), writes_unavailable_aside]. auto. }
  eapply emits_bind; [apply (writes_emits aside); by apply writes_ensureAnswered|auto|].
  intros l0 ok H0. pose proof H0 as [Ho0 Hg0]%Forall_and.
  destruct (negb ok); [emits_step; rewrite app_nil_r; auto|].
  eapply emits_bind; [apply emits_challengeConferencePin| |].
  { intros l e (Ho & Hg & _). split; [rewrite gathers_app, (no_gathers l0 Hg0); lia|].
    left. by apply Forall_app. }
  intros l1 adm (Ho1 & Hg1 & Hadm).
  assert (Forall outside_room (l0 ++ l1)) as Hpre by (by apply Forall_app).
  assert (gathers (l0 ++ l1) <= conferencePinAttempts (settings cfg)) as Hg.
  { rewrite gathers_app, (no_gathers l0 Hg0). lia. }
  destruct adm as [m|r]; [|emits_step; rewrite app_nil_r; by split; [|left]].
  (* the caller is admitted *)
  eapply (emits_weaken (λ l _, ∃ answer rest, l = ActJoin (conf_conferenceId node) m answer :: rest ∧
    Forall no_gather rest ∧ after_join node m answer rest)).
  { intros l r (answer & rest & -> & Hgr & Hr). rewrite app_assoc. split.
    - rewrite gathers_app. change (ActJoin ?c m answer :: rest) with ([ActJoin c m answer] ++ rest).
      rewrite (gathers_app [_] rest), (no_gathers rest Hgr). unfold gathers at 2. simpl. lia.
    - right. by exists (l0 ++ l1), m, answer, rest. }
  do 2 emits_step. emits_step; [eexists _, []; split_and!; [reflexivity|constructor|constructor]|].
  apply (emits_weaken (λ l _, Forall no_gather l ∧ after_join node m (Ok x) l)); [intros l r [? ?]; by eexists _, l|].
  destruct x as [room c|n|]; simpl.
  - eapply emits_weaken; [|apply emits_enterRoom]. by intros l r [? ?].
  - eapply emits_weaken; [|apply (writes_emits aside), writes_bind; [by apply writes_note|intros _; by apply writes_announce]].
    by intros l r [? ?]%Forall_and.
  - eapply emits_weaken; [|apply (writes_emits aside), writes_bind; [by apply writes_note|intros _; apply writes_unavailable_aside]].
    by intros l r [? ?]%Forall_and.
Qed.

(** ** Mailboxes *)
Definition unread (a : Action) : Prop := match a with ActListMailbox _ => False | _ => True end.

Definition unread_aside (a : Action) : Prop := unread a ∧ no_gather a.

(** What a challenge of at most [n] questions gives: nothing refuses the caller only
    when the PIN was keyed. *)
Definition questioned (h : string) (n : nat) (l : list Action) (r : result string (option StepResult)) : Prop :=
  Forall unread l ∧ gathers l <= n ∧ match r with Ok None => knows_pin (Some h) | _ => True end.

Lemma emits_voicemail_attempts n mailbox h :
  emits (questioned h n) (voicemail_attempts kdf cfg n mailbox h).
Proof.
  induction n as [|n IH]; cbn [voicemail_attempts].
  { emits_step. by emits_step. }
  emits_step. destruct a; [emits_step; split_and!; [done|unfold gathers; simpl; lia|done]|].
  unfold gather_pin, execute. set (gather := ActVerb _).
  assert (∀ r, questioned h (S n) [gather] r ↔ match r with Ok None => knows_pin (Some h) | _ => True end) as Hone.
  { intros r. unfold questioned. split; [by intros (_ & _ & ?)|]. intros.
    split_and!; [by repeat constructor|unfold gathers; simpl; lia|done]. }
  apply emits_answer; [intros e; by apply Hone|]. intros w [v|] Hv; [|emits_step; by apply Hone].
  destruct (ended_by_hangup v); [emits_step; by apply Hone|].
  destruct (verifyVoicemailPin kdf (digits_of v) h) as [|f] eqn:Hpin.
  { emits_step. apply Hone. exists (digits_of v), h. split_and!; [|done|done]. by eexists _, _, _. }
  assert (∀ A (m : M A) k, writes unread_aside m →
    (∀ a, emits (questioned h n) (k a)) →
    emits (λ l r, questioned h (S n) (gather :: l) r) (m ≫= k)) as Hthen.
  { intros A m k Hm Hk. eapply emits_bind; [by apply writes_emits| |].
    - intros l e [Hu Hg]%Forall_and. unfold questioned. change (gather :: l) with ([gather] ++ l).
      rewrite gathers_app, (no_gathers l Hg). split_and!; [by constructor|unfold gathers; simpl; lia|done].
    - intros l a [Hu Hg]%Forall_and. eapply emits_weaken; [|apply Hk]. intros l2 r (Hu2 & Hg2 & Hr).
      unfold questioned. change (gather :: l ++ l2) with ([gather] ++ l ++ l2). rewrite !gathers_app, (no_gathers l Hg).
      split_and!; [constructor; [done|by apply Forall_app]|unfold gathers at 1; simpl; lia|done]. }
  destruct (defect f).
  - apply Hthen; [by apply writes_note|]. intros _.
    eapply emits_bind; [apply (writes_emits unread_aside); by apply writes_unavailable| |].
    + intros l e [Hu Hg]%Forall_and. split_and!; [done|rewrite (no_gathers l Hg); lia|done].
    + intros l r [Hu Hg]%Forall_and. emits_step. rewrite app_nil_r.
      split_and!; [done|rewrite (no_gathers l Hg); lia|done].
  - apply Hthen; [by apply writes_execute_|]. intros _. exact IH.
Qed.

(** The mailbox of [caller]'s own number: the node's when it carries that number, else
    the one the artifact has under it. *)
Definition owns_mailbox (node : VoicemailPlanNode) (input : WalkInput) (caller : option string)
    (mailbox : string) : Prop :=
  ∃ number, trim <$> caller = Some number ∧ number ≠ "" ∧
    (vm_mailboxNumber node = number ∧ mailbox = number ∨
     vm_mailboxNumber node ≠ number ∧
     ∃ e, in_mailboxes input !! number = Some e ∧ mailbox = Resolve.mb_mailboxNumber e).

Lemma mailboxFor_own node caller input mailbox :
  mailboxFor node caller input = Some mailbox → owns_mailbox node input caller mailbox.
Proof.
  unfold mailboxFor, owns_mailbox. destruct (trim <$> caller) as [[|c s]|]; try done.
  case_bool_decide as He; intros H; exists (String c s); (split; [done|]); (split; [done|]).
  - left. split; congruence.
  - right. split; [done|]. destruct (in_mailboxes input !! String c s) as [e|]; simplify_eq/=. by exists e.
Qed.

(** What a voicemail node did for [caller]: no mailbox was read, or its owner's was, once. *)
Definition mailbox_trace (node : VoicemailPlanNode) (input : WalkInput) (caller : option string)
    (l : list Action) : Prop :=
  Forall unread l ∨
  ∃ pre request rest,
    l = pre ++ ActListMailbox request :: rest ∧ Forall unread pre ∧ Forall unread rest ∧
    gathers pre <= voicemailPinAttempts (settings cfg) ∧ vm_mode node = vm_check ∧
    vreq_organizationId request = organizationId cfg ∧
    vreq_voicemailBoxId request = vm_voicemailBoxId node ∧
    owns_mailbox node input caller (vreq_mailboxNumber request) ∧
    (vm_pinHash node = None ∨ knows_pin (vm_pinHash node)).

(** The messages of a mailbox are listed once the caller may hear them. *)
Lemma emits_menu node mailbox :
  emits (λ l _, Forall unread l ∨ ∃ rest, l = ActListMailbox
      {| vreq_organizationId := organizationId cfg; vreq_voicemailBoxId := vm_voicemailBoxId node;
         vreq_mailboxNumber := mailbox; vreq_callId := Some (callId cfg) |} :: rest ∧ Forall unread rest)
    (voicemailMenu cfg node mailbox).
Proof.
  unfold voicemailMenu. destruct (negb (has_mailbox cfg)).
  { emits_step. eapply emits_weaken; [|apply (writes_emits unread); by apply writes_unavailable]. by left. }
  set (request := {| vreq_organizationId := _ |}).
  assert (∀ fuel l k, writes unread (playVoicemailMessages cfg fuel mailbox l k)) as Hplay.
  { induction fuel as [|fuel IH]; intros [|x l] k; cbn [playVoicemailMessages]; writes_tac. }
  assert (∀ l, writes unread (playSpelled l)) as Hspell by (induction l; cbn [playSpelled]; writes_tac).
  eapply (emits_bind (λ l r, l = [ActListMailbox request] ∧ ∃ o, r = Ok o)).
  - eapply (emits_try (λ l r, l = [ActListMailbox request])).
    + emits_step; [done|]. by emits_step.
    + intros l a ->. eauto.
    + intros l e ->. emits_step. emits_step. eauto.
  - by intros l e [_ [? ?]].
  - intros l o [-> _]. eapply (emits_weaken (λ l _, Forall unread l)).
    { intros rest r Hr. right. by exists rest. }
    apply writes_emits. unfold unavailable. writes_tac.
Qed.

(** The check, once the number of the caller is known. *)
Lemma emits_check node input caller k :
  vm_mode node = vm_check →
  k = match mailboxFor node caller input with
      | None => _ ← note NoteNoMailbox; unavailable cfg INVALID_NUMBER_FORMAT
      | Some mailbox =>
          denied ← challengeVoicemailPin kdf cfg node mailbox;
          match (denied : option StepResult) with
          | Some result => mret result
          | None =>
              finished ← playSpelled (spellNumber cfg mailbox);
              if negb finished then mret StepAborted else voicemailMenu cfg node mailbox
          end
      end →
  emits (λ l _, mailbox_trace node input caller l) k.
Proof.
  intros Hmode ->. destruct (mailboxFor node caller input) as [mailbox|] eqn:Hbox.
  2: { emits_step. eapply emits_weaken; [|apply (writes_emits unread); by apply writes_unavailable]. by left. }
  apply mailboxFor_own in Hbox. set (attempts := voicemailPinAttempts (settings cfg)).
  eapply (emits_bind (λ l r, Forall unread l ∧ gathers l <= attempts ∧
    match r with Ok None => vm_pinHash node = None ∨ knows_pin (vm_pinHash node) | _ => True end)).
  { unfold challengeVoicemailPin. destruct (vm_pinHash node) as [h|] eqn:Hpin.
    - eapply emits_weaken; [|apply emits_voicemail_attempts]. intros l r (Hu & Hg & Hr).
      split_and!; [done|done|]. destruct r as [[|]|]; auto.
    - emits_step. split_and!; [done|unfold gathers; simpl; lia|by left]. }
  { intros l e (Hu & _). by left. }
  intros l1 [r|] (Hu1 & Hg1 & Hpin); [emits_step; rewrite app_nil_r; by left|].
  assert (∀ l, writes unread_aside (playSpelled l)) as Hspell by (induction l; cbn [playSpelled]; writes_tac; done).
  eapply emits_bind; [apply (writes_emits unread_aside), Hspell| |].
  { intros l2 e [Hu2 _]%Forall_and. left. by apply Forall_app. }
  intros l2 fin [Hu2 Hg2]%Forall_and. destruct (negb fin).
  { emits_step. rewrite app_nil_r. left. by apply Forall_app. }
  eapply emits_weaken; [|apply emits_menu]. intros l3 r [Hu3|(rest & -> & Hu3)].
  - left. by repeat (apply Forall_app; split).
  - right. eexists (l1 ++ l2), _, rest. rewrite <- !app_assoc.
    split; [reflexivity|]. split_and!; try done; [by apply Forall_app|].
    rewrite gathers_app, (no_gathers l2 Hg2). lia.
Qed.

Lemma mailbox_trace_after node input caller l0 l :
  Forall unread_aside l0 → mailbox_trace node input caller l → mailbox_trace node input caller (l0 ++ l).
Proof.
  intros [Hu0 Hg0]%Forall_and [Hl|(pre & request & rest & -> & Hp & Hr & Hg & H)]; [left; by apply Forall_app|right].
  exists (l0 ++ pre), request, rest. rewrite <- app_assoc, gathers_app, (no_gathers l0 Hg0).
  split; [done|]. split; [by apply Forall_app|]. split; [done|]. by split; [simpl; lia|].
Qed.

(** C15. A mailbox is read only for its owner, however the verbs and the mailbox source
    behave: its messages are asked for at most once, by a node in check mode, in the
    caller's organization, for the mailbox of the caller's own number: the number of the
    walk's input, else the one the channel shows once the call is answered. The node's
    own mailbox is opened only when it carries that number. They are asked for only
    after the caller keyed the PIN the node carries, in at most the configured number of
    tries, if it carries one. *)
Theorem mailbox_gate (node : VoicemailPlanNode) (input : WalkInput) (st : Walker * W) :
  let answered := (ensureAnswered cfg st).1.2 in
  let caller := coalesce (in_callerIdNumber input) (ww_callerIdNumber answered) in
  ∃ l, trace (voicemailNode kdf cfg node input st).1.1 = trace st.1 ++ l ∧ mailbox_trace node input caller l.
Proof.
  cbv zeta.
  assert (emits (λ l _, Forall unread_aside l) (ensureAnswered cfg)) as He.
  { apply (writes_emits unread_aside). by apply writes_ensureAnswered. }
  destruct (He st) as (l0 & Hl0 & H0). unfold voicemailNode, mbind, M_bind.
  destruct (ensureAnswered cfg st) as [[s1 w1] r]. cbn [fst snd] in *.
  set (caller := coalesce _ _).
  assert (∀ m : M StepResult, (emits (λ l _, mailbox_trace node input caller l) m) →
    ∃ l, trace (m (s1, w1)).1.1 = trace st.1 ++ l ∧ mailbox_trace node input caller l) as Hnext.
  { intros m Hm. destruct (Hm (s1, w1)) as (l & Hl & Ht). exists (l0 ++ l). simpl in Hl.
    rewrite Hl, Hl0, <- app_assoc. split; [done|]. by apply mailbox_trace_after. }
  assert (mailbox_trace node input caller l0) as Hnone by (apply Forall_and in H0 as [? _]; by left).
  destruct r as [ok|e]; [|by exists l0].
  destruct (negb ok); [by exists l0|]. destruct (vm_mode node) eqn:Hmode.
  - refine (Hnext (greeting ← leaveGreetingFor cfg node; _ ← execute_ (VPlay greeting); leaveMessage cfg node) _).
    eapply (emits_weaken (λ l _, Forall unread l)); [by left|].
    apply writes_emits. unfold leaveMessage, leaveGreetingFor, waitForRecording, fileVoicemailMessage. writes_tac.
  - exact (Hnext _ (emits_check node input caller _ Hmode eq_refl)).
Qed.

(** ** Messages *)
Definition unfiled (a : Action) : Prop := match a with ActMessageLeft _ => False | _ => True end.

(** What a voicemail node did: nothing was filed, or the last thing done was to file
    the message that was recorded, after its recording was reported. *)
Definition message_trace (node : VoicemailPlanNode) (l : list Action) : Prop :=
  Forall unfiled l ∨
  ∃ pre m why, let recorded := vmsg_recordingId m in
    l = pre ++ [ActRecord recorded (recordingFormat (settings cfg)) (or_else (vm_maxMessageSeconds node) 120) 5;
                ActPublish (EvRecordStarted (channelId cfg) recorded (vmsg_objectKey m));
                ActPublish (EvRecordStopped (channelId cfg) recorded (vmsg_objectKey m) (vmsg_durationMs m) why);
                ActMessageLeft m] ∧
    Forall unfiled pre ∧ vm_mode node = vm_leave ∧ why ≠ rec_failed ∧ (0 < vmsg_durationMs m)%Z ∧
    vmsg_voicemailBoxId m = vm_voicemailBoxId node ∧ vmsg_mailboxNumber m = vm_mailboxNumber node ∧
    vmsg_mwiEnabled m = vm_mwiEnabled node ∧
    vmsg_objectKey m = organizationId cfg +:+ "/" +:+ callId cfg +:+ "/" +:+ recorded +:+ "." +:+
                       recordingFormat (settings cfg).

Lemma message_trace_after node l0 l :
  Forall unfiled l0 → message_trace node l → message_trace node (l0 ++ l).
Proof.
  intros H0 [Hl|(pre & m & why & -> & Hp & H)]; [left; by apply Forall_app|right].
  exists (l0 ++ pre), m, why. split; [by rewrite <- app_assoc|]. split; [by apply Forall_app|done].
Qed.

Lemma silent_waitForRecording name timeoutMs : silent (waitForRecording (W:=W) name timeoutMs).
Proof.
  intros st. unfold waitForRecording, mbind, M_bind.
  destruct (silent_ask ww_recording st) as ([s w] & a & -> & Ht). simpl in Ht.
  destruct (find_first finishes a) as [[|d|e]|]; (eexists _, _; split; [reflexivity|exact Ht]).
Qed.

Lemma emits_leaveMessage node :
  vm_mode node = vm_leave → emits (λ l _, message_trace node l) (leaveMessage cfg node).
Proof.
  intros Hmode. unfold leaveMessage. emits_step. rename a into recorded.
  set (key := organizationId cfg +:+ _). emits_step.
  match goal with |- emits (λ l r, message_trace node (?arm :: l)) _ => set (arming := arm) end.
  assert (∀ l, message_trace node l → message_trace node (arming :: l)) as Harm.
  { intros l. apply (message_trace_after node [arming]). by repeat constructor. }
  eapply (emits_weaken (λ l _, message_trace node l)); [auto|]. clear Harm.
  set (record := ActRecord _ _ _ _).
  eapply (emits_bind (λ l r, l = [record] ∧ ∃ o, r = Ok o)).
  { unfold caught. eapply (emits_try (λ l r, l = [record])).
    - emits_step; [done|]. by emits_step.
    - intros l a ->. eauto.
    - intros l e ->. emits_step. eauto. }
  { by intros l e [_ [? ?]]. }
  intros l [e|] [-> _].
  { emits_step. emits_step. left. by repeat constructor. }
  set (started := ActPublish (EvRecordStarted _ _ _)).
  emits_step; [left; by repeat constructor|].
  apply emits_silent; [apply silent_waitForRecording|]. intros [duration why].
  set (stopped := ActPublish (EvRecordStopped _ _ _ _ _)).
  emits_step; [left; by repeat constructor|].
  destruct (bool_decide (why = rec_failed) || (duration <=? 0)%Z) eqn:Hempty.
  { emits_step. emits_step. left. by repeat constructor. }
  apply orb_false_iff in Hempty as [Hwhy Hdur]. apply bool_decide_eq_false in Hwhy. apply Z.leb_gt in Hdur.
  unfold fileVoicemailMessage. destruct (negb (has_voicemail cfg)).
  { emits_step. emits_step. left. by repeat constructor. }
  eapply (emits_bind (λ l r, message_trace node ([record; started; stopped] ++ l) ∧ ∃ o, r = Ok o)).
  - do 3 emits_step.
    match goal with |- emits _ (try_catch (call ?a) _) => set (filed := a) end.
    assert (message_trace node ([record; started; stopped] ++ [filed])) as Hfiled.
    { right. exists [], {| vmsg_voicemailBoxId := vm_voicemailBoxId node;
        vmsg_mailboxNumber := vm_mailboxNumber node; vmsg_messageId := a; vmsg_recordingId := recorded;
        vmsg_objectKey := key; vmsg_durationMs := duration; vmsg_mwiEnabled := vm_mwiEnabled node;
        vmsg_callerIdNumber := a0; vmsg_callerIdName := a1 |}, why. simpl. by split_and!. }
    eapply (emits_try (λ l _, l = [filed])); [by apply emits_port|intros l [] ->; eauto|].
    intros l e ->. intros [s w]. exists []. rewrite app_nil_r. simpl. eauto.
  - by intros l e [_ [? ?]].
  - intros l [] [H _]. emits_step. rewrite app_nil_r. exact H.
Qed.

(** A message is filed only when something was recorded, however the verbs, the
    recording and the broker behave: at most one message is filed, in leave mode, as
    the last thing the node does; it is the recording that was started under its id
    and object key, whose end was reported first with the duration it is filed with;
    its duration is positive and the recording did not fail. *)
Theorem message_filed_when_recorded (node : VoicemailPlanNode) (input : WalkInput) (st : Walker * W) :
  ∃ l, trace (voicemailNode kdf cfg node input st).1.1 = trace st.1 ++ l ∧ message_trace node l.
Proof.
  assert (emits (λ l _, message_trace node l) (voicemailNode kdf cfg node input)) as H; [|apply H].
  unfold voicemailNode. eapply emits_bind; [apply (writes_emits unfiled); by apply writes_ensureAnswered|by left|].
  intros l0 ok H0. eapply (emits_weaken (λ l _, message_trace node l)); [intros; by apply message_trace_after|].
  destruct (negb ok); [emits_step; by left|]. destruct (vm_mode node) eqn:Hmode.
  - unfold leaveGreetingFor. eapply (emits_bind (λ l _, Forall unfiled l)).
    { apply writes_emits. writes_tac. }
    { by left. }
    intros l1 greeting H1. eapply (emits_weaken (λ l _, message_trace node l)); [intros; by apply message_trace_after|].
    eapply (emits_bind (λ l _, Forall unfiled l)); [apply writes_emits; by apply writes_execute_|by left|].
    intros l2 [] H2. eapply (emits_weaken (λ l _, message_trace node l)); [intros; by apply message_trace_after|].
    by apply emits_leaveMessage.
  - eapply (emits_weaken (λ l _, Forall unfiled l)); [by left|]. apply writes_emits.
    assert (∀ k mailbox h, writes unfiled (voicemail_attempts kdf cfg k mailbox h)) as Hpin.
    { induction k as [|k IH]; intros; cbn [voicemail_attempts]; unfold gather_pin, unavailable; writes_tac. }
    assert (∀ fuel mailbox l k, writes unfiled (playVoicemailMessages cfg fuel mailbox l k)) as Hplay.
    { induction fuel as [|fuel IH]; intros mailbox [|x l] k; cbn [playVoicemailMessages]; writes_tac. }
    assert (∀ l, writes unfiled (playSpelled l)) as Hspell by (induction l; cbn [playSpelled]; writes_tac).
    unfold voicemailCheck, challengeVoicemailPin, voicemailMenu, unavailable. writes_tac.
Qed.

(** ** Menus *)

(** The turns a menu has left: one after which both budgets are spent is the last. *)
Definition turns_left (node : IvrMenuPlanNode) (failures timeouts : Z) : nat :=
  if (failures <=? ivr_maxFailures node)%Z && (timeouts <=? ivr_maxTimeouts node)%Z
  then S (Z.to_nat (ivr_maxFailures node - failures) + Z.to_nat (ivr_maxTimeouts node - timeouts)) else 0.

Lemma turns_left_timeout node f t :
  (f <= ivr_maxFailures node)%Z → (t <= ivr_maxTimeouts node)%Z → (ivr_maxTimeouts node <? t + 1)%Z = false →
  turns_left node f t = S (turns_left node f (t + 1)).
Proof.
  intros Hf Ht H. apply Z.ltb_ge in H. unfold turns_left.
  rewrite !(proj2 (Z.leb_le _ _)) by lia. simpl. lia.
Qed.

Lemma turns_left_failure node f t :
  (f <= ivr_maxFailures node)%Z → (t <= ivr_maxTimeouts node)%Z → (ivr_maxFailures node <? f + 1)%Z = false →
  turns_left node f t = S (turns_left node (f + 1) t).
Proof.
  intros Hf Ht H. apply Z.ltb_ge in H. unfold turns_left.
  rewrite !(proj2 (Z.leb_le _ _)) by lia. simpl. lia.
Qed.

Lemma turns_left_start node : turns_left node 0 0 <= ivr_fuel node.
Proof.
  unfold turns_left, ivr_fuel. destruct (_ && _) eqn:H; [|lia].
  apply andb_true_iff in H as [H1%Z.leb_le H2%Z.leb_le]. lia.
Qed.

Lemma bind_ext {A B} (m : M A) (k k' : A → M B) st :
  (∀ a st', k a st' = k' a st') → (m ≫= k) st = (m ≫= k') st.
Proof. intros Hk. unfold mbind, M_bind. by destruct (m st) as [st' [a|e]]. Qed.

(** More fuel changes nothing. *)
Lemma ivr_loop_fuel node fuel more f t k st :
  turns_left node f t <= fuel →
  ivr_loop RegExp cfg (fuel + more) node f t k st = ivr_loop RegExp cfg fuel node f t k st.
Proof.
  revert f t k st. induction fuel as [|fuel IH]; intros f t k st Hfuel.
  - destruct more as [|more]; [done|]. cbn [Nat.add ivr_loop]. unfold turns_left in Hfuel.
    destruct (_ && _); [lia|done].
  - cbn [Nat.add ivr_loop]. destruct (_ && _) eqn:Hb; [|done].
    pose proof Hb as [Hf%Z.leb_le Ht%Z.leb_le]%andb_true_iff. cbv [negb].
    apply bind_ext. intros [|] st1; [done|]. apply bind_ext. intros [v|] st2; [|done].
    destruct (ended_by_hangup v); [done|]. destruct (bool_decide (digits_of v = "")).
    + destruct (ivr_maxTimeouts node <? t + 1)%Z eqn:Hex; [done|].
      rewrite (turns_left_timeout node f t Hf Ht Hex) in Hfuel.
      apply bind_ext. intros _ st3. apply IH. lia.
    + apply bind_ext. intros [o|] st3; [done|]. apply bind_ext. intros _ st4.
      destruct (ivr_maxFailures node <? f + 1)%Z eqn:Hex; [done|].
      rewrite (turns_left_failure node f t Hf Ht Hex) in Hfuel.
      apply bind_ext. intros _ st5. apply IH. lia.
Qed.

(** A menu asks once per turn. *)
Lemma emits_ivr_loop node fuel f t k :
  emits (λ l _, gathers l <= turns_left node f t) (ivr_loop RegExp cfg fuel node f t k).
Proof.
  revert f t k. induction fuel as [|fuel IH]; intros f t k; cbn [ivr_loop]; [emits_step; unfold gathers; simpl; lia|].
  destruct (_ && _) eqn:Hb; cbv [negb]; [|emits_step; unfold gathers; simpl; lia].
  pose proof Hb as [Hf%Z.leb_le Ht%Z.leb_le]%andb_true_iff.
  assert (1 <= turns_left node f t) as Hone by (unfold turns_left; rewrite Hb; lia).
  emits_step. destruct a; [emits_step; unfold gathers; simpl; lia|].
  emits_step; [done|]. set (gather := ActVerb _).
  destruct x as [v|]; [|emits_step; exact Hone].
  destruct (ended_by_hangup v); [emits_step; exact Hone|].
  assert (∀ A (m : M A) k', writes no_gather m →
    (∀ a, emits (λ l _, S (gathers l) <= turns_left node f t) (k' a)) →
    emits (λ l (_ : result string StepResult), gathers (gather :: l) <= turns_left node f t) (m ≫= k')) as Hthen.
  { intros A m k' Hm Hk. eapply emits_bind; [by apply writes_emits| |].
    - intros l e Hl. change (gather :: l) with ([gather] ++ l). rewrite gathers_app, (no_gathers l Hl). exact Hone.
    - intros l a Hl. eapply emits_weaken; [|apply Hk]. intros l2 r H.
      change (gather :: l ++ l2) with ([gather] ++ l ++ l2). rewrite !gathers_app, (no_gathers l Hl). exact H. }
  assert (∀ p, writes no_gather (playPrompt cfg p)) as Hplay.
  { intros p. unfold playPrompt. destruct (resolve_prompt cfg p); [by apply writes_execute_|apply writes_ret]. }
  destruct (bool_decide (digits_of v = "")).
  - destruct (ivr_maxTimeouts node <? t + 1)%Z eqn:Hex; [emits_step; exact Hone|].
    apply Hthen; [apply Hplay|]. intros _. eapply emits_weaken; [|apply IH]. intros l r Hl. cbv beta in Hl.
    rewrite (turns_left_timeout node f t Hf Ht Hex). lia.
  - assert (∀ l, writes no_gather (find_option RegExp l (digits_of v))) as Hfind.
    { induction l as [|o l IHl]; cbn [find_option]; [apply writes_ret|]. repeat case_match; try done;
        first [apply writes_throw|apply writes_ret]. }
    apply Hthen; [apply Hfind|]. intros [o|]; [emits_step; exact Hone|].
    assert (∀ c : bool, writes no_gather (if c then note (NoteDirectDial (ivr_ivrMenuId node) (digits_of v)) else mret tt)) as Hnote.
    { intros [|]; [by apply writes_note|apply writes_ret]. }
    eapply emits_bind; [apply writes_emits, Hnote| |].
    { intros l e Hl. rewrite (no_gathers l Hl). exact Hone. }
    intros l [] Hl. destruct (ivr_maxFailures node <? f + 1)%Z eqn:Hex.
    { emits_step. rewrite app_nil_r, (no_gathers l Hl). exact Hone. }
    eapply emits_bind; [apply writes_emits, Hplay| |].
    { intros l2 e Hl2. rewrite gathers_app, (no_gathers l Hl), (no_gathers l2 Hl2). exact Hone. }
    intros l2 [] Hl2. eapply emits_weaken; [|apply IH]. intros l3 r Hl3. cbv beta in Hl3.
    rewrite !gathers_app, (no_gathers l Hl), (no_gathers l2 Hl2), (turns_left_failure node f t Hf Ht Hex). lia.
Qed.

(** C16. A menu ends, however the caller keys: its loop needs no more turns than the
    fuel it is given, the caller is asked at most once for every failure and every
    timeout allowed and once more, and the menu then goes to the target of an option,
    takes its timeout or its invalid branch, or ends the call. *)
Theorem ivr_menu_ends (node : IvrMenuPlanNode) (st : Walker * W) :
  (∀ more st', ivr_loop RegExp cfg (ivr_fuel node + more) node 0 0 0 st' =
               ivr_loop RegExp cfg (ivr_fuel node) node 0 0 0 st') ∧
  (∃ l, trace (ivrMenuNode RegExp cfg node st).1.1 = trace st.1 ++ l ∧
        (Z.of_nat (gathers l) <= Z.max 0 (ivr_maxFailures node + ivr_maxTimeouts node + 1))%Z) ∧
  match (ivrMenuNode RegExp cfg node st).2 with
  | Ok (Goto n) => (∃ o, o ∈ ivr_options node ∧ n = option_targetNodeId o) ∨
                   ivr_timeoutNodeId node = Some n ∨ ivr_invalidNodeId node = Some n
  | _ => True
  end.
Proof.
  split_and!.
  - intros more st'. apply ivr_loop_fuel, turns_left_start.
  - assert (emits (λ l _, gathers l <= turns_left node 0 0) (ivrMenuNode RegExp cfg node)) as H.
    { unfold ivrMenuNode. eapply emits_bind; [apply (writes_emits no_gather); by apply writes_ensureAnswered| |].
      - intros l e Hl. rewrite (no_gathers l Hl). lia.
      - intros l ok Hl. destruct (negb ok); [emits_step; rewrite app_nil_r, (no_gathers l Hl); lia|].
        eapply emits_weaken; [|apply emits_ivr_loop]. intros l2 r H. by rewrite gathers_app, (no_gathers l Hl). }
    destruct (H st) as (l & Hl & Hg). exists l. split; [done|]. unfold turns_left in Hg.
    destruct (_ && _) eqn:Hb; [|lia]. apply andb_true_iff in Hb as [H1%Z.leb_le H2%Z.leb_le]. lia.
  - pose proof (WalkSteps.goes_ivr RegExp cfg node st) as Hg.
    destruct (ivrMenuNode RegExp cfg node st).2 as [[n| | |]|e]; try done.
    apply elem_of_app in Hg as [(o & Ho & Hin)%list_elem_of_fmap|Hg]; [left; exists o; naive_solver|right].
    rewrite !elem_of_cons, elem_of_nil in Hg. naive_solver.
Qed.

(** The turns a mailbox has left. *)
Definition plays_left (messages : list VoicemailListingMessage) (replays : nat) : nat :=
  length messages * S (voicemailMaxReplays (settings cfg)) - replays.

Lemma messages_fuel_enough fuel more mailbox messages replays st :
  replays <= voicemailMaxReplays (settings cfg) → plays_left messages replays <= fuel →
  playVoicemailMessages cfg (fuel + more) mailbox messages replays st =
  playVoicemailMessages cfg fuel mailbox messages replays st.
Proof.
  revert messages replays st. induction fuel as [|fuel IH]; intros messages replays st Hr Hfuel.
  - destruct messages as [|x messages]; [by destruct more|]. unfold plays_left in Hfuel. simpl in Hfuel. lia.
  - destruct messages as [|x messages]; [done|]. cbn [Nat.add playVoicemailMessages].
    assert (∀ st', playVoicemailMessages cfg (fuel + more) mailbox messages 0 st' =
                   playVoicemailMessages cfg fuel mailbox messages 0 st') as Hnext.
    { intros st'. apply IH; [lia|]. unfold plays_left in *. simpl in Hfuel. lia. }
    apply bind_ext. intros [|] st1; [done|]. destruct (translateMediaRef _ _).
    + apply bind_ext. intros [v|] st2; [|done]. destruct (ended_by_hangup v); [done|].
      cbv zeta. destruct (bool_decide _); [done|]. destruct (_ && _) eqn:Hreplay; [|apply Hnext].
      apply andb_true_iff in Hreplay as [_ Hlt%Nat.ltb_lt]. apply IH; [lia|]. unfold plays_left in *. lia.
    + apply bind_ext. intros _ st2. apply IH; [lia|]. unfold plays_left in *. simpl in Hfuel. lia.
Qed.
End Gates.

(** ** A recording that never ends *)

(** When no end of the recording is seen before its timer, the message is filed, with
    the duration of the timer, which is five seconds more than a message may last. *)
Lemma unfinished_recording_is_filed :
  let node := {| vm_voicemailBoxId := "box"; vm_mailboxNumber := "1001"; vm_mode := vm_leave;
                 vm_maxMessageSeconds := 60; vm_mwiEnabled := true; vm_greetingMedia := None;
                 vm_greetingKind := None; vm_pinHash := None |} in
  let st := leaveMessage (WalkerWorld0 := WalkDemo.script_world) WalkDemo.demo_config node
              (walker_init, WalkDemo.script_init) in
  ∃ m, last (trace st.1.1) = Some (ActMessageLeft m) ∧ vmsg_durationMs m = 65000%Z.
Proof. eexists. split; reflexivity. Qed.

(** ** A member nobody removes *)
Definition demo_room (wait : bool) : ConferencePlanNode :=
  {| conf_conferenceId := "room"; conf_roomNumber := "800"; conf_requiresPin := false;
     conf_maxMembers := 10; conf_waitForModerator := wait; conf_recordEnabled := false;
     conf_mohClassId := None; conf_mohClass := None; conf_pinHash := None;
     conf_moderatorPinHash := None; conf_requiresModeratorPin := None |}.

(** The caller became a member. *)
Definition is_join (a : Action) : bool :=
  match a with ActJoin _ _ (Ok (ConferenceRegistry.Joined _ _)) => true | _ => false end.

Definition enters_and_throws (wait : bool) (fails : Action → bool) : Prop :=
  let st := conferenceNode (WalkerWorld0 := WalkDemo.script_world) WalkDemo.demo_kdf WalkDemo.demo_config
              (demo_room wait) (walker_init, WalkDemo.set_fails fails WalkDemo.script_init) in
  st.2 = Throw "failed" ∧ existsb is_join (trace st.1.1) = true ∧
  Forall (λ a, match a with ActLeave _ | ActWatchMember _ _ _ _ => False | _ => True end) (trace st.1.1).

(** A member whose hold music cannot be started, or whose arrival cannot be published,
    stays a member: the walk ends without leaving the room and without watching the
    leg, which is what would have removed it. *)
Lemma member_is_leaked :
  enters_and_throws true (λ a, match a with ActStartMusic _ => true | _ => false end) ∧
  enters_and_throws false (λ a, match a with ActPublish _ => true | _ => false end).
Proof. split; (split; [reflexivity|]; split; [reflexivity|repeat constructor]). Qed.
End WalkGates.
