(* ===== verification/CompiledWalks.v ===== *)
(** * Compiling, resolving and walking

    The composition of the compiler, the resolvers and the walker: a call of an
    organization whose rows compile never leaves the plan the resolver gives it. *)

From S2P Require Import Prelude Patterns TimeConditions Plan MediaRefs Dial PlanWalker WalkDemo WalkLogic WalkSteps PlanWalks.
From S2P Require Import Snapshot Json Resolve CompileFacts CompileTables RunFacts Compile Compiled.

Module CompiledWalks.
Import PlanWalks.

Section Walk.
Context (RegExp : string → result string Patterns.exec_fun).
Context (formatToParts : string → Z → result string (list (TimeConditions.part_type * string))).
Context (kdf : MediaRefs.Kdf) (dateParse : string → option Z).
Context {W : Type} `{!PlanWalker.WalkerWorld W} (cfg : PlanWalker.WalkerConfig).

(** C9. A call never leaves its plan: when the rows of an organization compile, then
    whatever number is dialled, and whatever happens during the walk of the plan the
    resolver gives for it, every node visited is in the artifact and is reached from
    the entry of the plan by the branches of the nodes visited before it; and the walk
    never has to refuse the call because a node is missing. *)
Theorem compiled_walk_stays_in_plan
    (localeCompare : string → string → Z) (isKnownTimezone : string → bool) (number_text : Qc → string)
    (snap : Snapshot.OrgRoutingSnapshot) (at_ : string) (art : Resolve.RoutingArtifact)
    (ds : list Resolve.Diagnostic) (r : Resolve.ResolvedRoute) (p : Plan.ExecutionPlan)
    (passes : nat) (input : PlanWalker.WalkInput)
    (st : PlanWalker.Walker * W) :
  Tables.run RegExp localeCompare isKnownTimezone number_text snap at_ = Ok (Tables.Compiled art ds) →
  (∃ i, Resolve.resolveInbound RegExp formatToParts art i = Ok r) ∨
  (∃ i, Resolve.resolveInternal RegExp formatToParts art i = Ok r) ∨
  (∃ i, Resolve.resolveOutbound RegExp formatToParts art i = Ok r) →
  Resolve.plan r = Some p → PlanWalker.plan input = p →
  stays_in_plan p st
    (PlanWalker.walk RegExp formatToParts kdf dateParse cfg passes input st).1.
Proof.
  intros Hc Hr Hp <-. pose proof (Compiled.compiled_closed _ _ _ _ _ _ _ _ Hc) as Hcl.
  assert (Resolve.enters_known art r) as (id & Hid & Hknown).
  { destruct Hr as [[i Hi]|[[i Hi]|[i Hi]]];
      eauto using Resolve.resolveInbound_known, Resolve.resolveInternal_known, Resolve.resolveOutbound_known. }
  rewrite Hp in Hid. injection Hid as Hid. apply closed_walk_stays; rewrite Hid; [|exact Hknown].
  intros y z Hb. by eapply Resolve.cl_nodes.
Qed.

End Walk.

Lemma compiled_walk_witness :
  ∃ art ds r p, Compiled.demo_compile None = Ok (Tables.Compiled art ds) ∧
    Resolve.resolveInternal Resolve.no_regex (λ _ _, Ok []) art
      {| Resolve.ii_from := "1002"; Resolve.ii_dialed := "1001"; Resolve.ii_now := 0 |} = Ok r ∧
    Resolve.plan r = Some p ∧
    let st := (PlanWalker.walker_init, WalkDemo.script_init) in
    stays_in_plan p st
      (PlanWalker.walk (WalkerWorld0 := WalkDemo.script_world) Resolve.no_regex (λ _ _, Ok []) WalkDemo.demo_kdf
         (λ _, None) WalkDemo.demo_config 0 (WalkDemo.demo_input p) st).1.
Proof.
  destruct Compiled.demo_None as (t & h & _ & Hc).
  assert (Compiled.good_artifact Resolve.no_regex (λ _ _, Ok [])
    (Tables.artifact_of (Compiled.demo_rows None) h Compiled.demo_time t (Compiled.demo_tables None).1)) as Hgood.
  { eapply Compiled.compiled_good; [|exact Hc]. by eexists. }
  destruct (Compiled.resolveInternal_total _ _ _ Hgood
    {| Resolve.ii_from := "1002"; Resolve.ii_dialed := "1001"; Resolve.ii_now := 0 |}) as [r Hr].
  destruct (Resolve.resolveInternal_known _ _ _ (Compiled.compiled_closed _ _ _ _ _ _ _ _ Hc) _ _ Hr)
    as (id & Hp & _).
  eexists _, _, r, _. split; [exact Hc|]. split; [exact Hr|]. split; [exact Hp|].
  cbv zeta. eapply (compiled_walk_stays_in_plan _ _ _ _ _ _ _ _ _ _ _ _ r); [exact Hc| |exact Hp|reflexivity].
  right; left. eexists. exact Hr.
Defined.
End CompiledWalks.
