(* ===== verification/CallControl.v ===== *)
(** * Call control

    [apps/engine/src/calls/call-control.ts]: hold, park, transfer, pickup and recording
    on a call that is up, and the release of all of it when a leg ends. Each method is a
    program of [Async.v] that waits where the source awaits, over one state: the maps of
    the class, the live legs of the instance (aggregates of Channel.v behind the
    registry), the park registry of the instance, whose methods run here as they are,
    and the cancel keys that are armed. A consultation and a timer are objects that
    outlive their place in a map, so they live in heaps. What the media server, the
    routing walk, the broker and another instance answer is a value of [Answer]; an
    awaited call may throw. Reasons are values of [Reason], their prose is left out. *)

From S2P Require Import Prelude HangupCauses ChannelState CallState Bridge Kv Async Claims.
From S2P Require Channel Park Transfer ParkRegistry TimeConditions Resolve.

Module CallControl.
Import Channel.Channel.
Import (coercions) ParkRegistry.ParkRegistry.

(** ** Data *)
Abbreviation ParkedCall := ParkRegistry.ParkRegistry.ParkedCall.
Abbreviation Parking := ParkRegistry.ParkRegistry.Parking.

Record ParkLot := {
  lot_parkLotId : string;
  lot_slotStart : Z;
  lot_slotEnd : Z;
  lot_timeoutSeconds : option Z;
  lot_mohClass : option string }.

Definition lot_range (l : ParkLot) : Park.Park.ParkSlotRangeBounds :=
  {| Park.Park.slotStart := lot_slotStart l; Park.Park.slotEnd := lot_slotEnd l |}.

Record RouteRequest := {
  route_destination : string;
  route_context : string;
  route_callerIdNumber : option string;
  route_callerIdName : option string }.

Inductive RouteStatus := route_bridged | route_hangup | route_aborted | route_exhausted | route_unresolved.

#[global] Instance RouteStatus_eq_dec : EqDecision RouteStatus.
Proof. solve_decision. Defined.

Record PickupCandidate := { ringingLeg : Leg; callerLeg : Leg; ringingSinceMs : Z }.

Record CallControlSettings := {
  application : string;
  recordingFormat : string;
  snoopTimeoutMs : Z;
  recordingStopTimeoutMs : Z;
  defaultParkTimeoutSeconds : Z;
  transferContext : string }.

Definition DEFAULT_CALL_CONTROL_SETTINGS : CallControlSettings := {|
  application := "optimiq-engine";
  recordingFormat := "wav";
  snoopTimeoutMs := 5000;
  recordingStopTimeoutMs := 5000;
  defaultParkTimeoutSeconds := 120;
  transferContext := "internal" |}.

Inductive PickupKind := pickup_directed | pickup_group.

Inductive ParkHandoffRefusalReason :=
| bad_request | not_parked | claim_superseded | channel_gone | unreachable_channel
| media_failed | shutting_down | internal.

Record ParkHandoffRequest := {
  ho_orgId : string;
  ho_parkLotId : string;
  ho_slot : Z;
  ho_mediaChannelId : string;
  ho_retrieverInstanceId : string;
  ho_retrieverMediaChannelId : string;
  ho_retrieverLegId : string;
  ho_bridgeId : string }.

Record ParkHandoffResponse := {
  hr_ok : bool;
  hr_parkLotId : string;
  hr_slot : Z;
  hr_instanceId : string;
  hr_bridgeId : option string;
  hr_legId : option string;
  hr_callId : option string;
  hr_parkedAtMs : option Z;
  hr_reason : option ParkHandoffRefusalReason }.

(** Why an operation was refused, one constructor for each text. *)
Inductive Reason :=
| leg_tearing_down | leg_not_answered | already_on_hold | not_on_hold | not_removed | not_returned
| already_parked | no_park_lot | unknown_park_lot | bad_orbit | lot_full | slot_taken | no_claims
| not_moved | orbit_required | unknown_orbit | nothing_parked | call_gone | not_connected
| parked_elsewhere | owner_silent | owner_refused (reason : option ParkHandoffRefusalReason)
| owner_gone | no_destination | transfer_in_progress | nobody_to_transfer | transferee_not_held
| transfer_abandoned | consultation_failed (returned : bool) | no_transfer
| not_waiting | transferee_gone | consultation_gone (returned : bool) | not_joined
| not_restored | not_routed | fallback_failed | extension_required | nothing_ringing
| cannot_record | already_recording | no_tap | tap_lost | not_recorded | not_recording.

(** [ok] with its detail left out, or [refuse]. *)
Inductive CallControlResult := ok | refuse (reason : Reason).

Definition is_ok (r : CallControlResult) : bool := match r with ok => true | refuse _ => false end.

Record ParkOutcome := {
  po_result : CallControlResult;
  po_slot : option Z;
  po_parkLotId : option string }.

Record RecordingOutcome := {
  ro_result : CallControlResult;
  ro_recordingId : option string;
  ro_objectKey : option string }.

Record ParkRequest := {
  req_lot : option string;
  req_orbit : option string;
  req_timeoutMs : option Z;
  req_musicOnHold : option string;
  req_parkedBy : option Leg }.

Record TransferRequest := {
  req_kind : Transfer.Transfer.TransferKind;
  req_destination : string;
  req_context : option string;
  req_fallbackDestination : option string;
  req_cancelKey : option string }.

Record StartRecordingRequest := {
  maxDurationMs : option Z;
  silenceStopMs : option Z;
  beep : option bool;
  rec_format : option string }.

Record HeldLeg := {
  held_mediaChannelId : string;
  held_bridgeId : option string;
  held_peerMediaChannelId : option string;
  held_peerLegId : option string;
  signalled : bool;
  heldAtMs : Z }.

(** The state of a consultation is in the heap, at [cons_ref]. *)
Record Consultation := {
  cons_ref : nat;
  cons_kind : Transfer.Transfer.TransferKind;
  transferorMediaChannelId : string;
  transfereeMediaChannelId : string;
  cons_destination : string;
  cons_context : string;
  cons_fallbackDestination : option string;
  startedAtMs : Z }.

Record RecordingSession := {
  recordingId : string;
  objectKey : string;
  snoopChannelId : string;
  session_format : string;
  session_startedAtMs : Z }.

(** The events it publishes. *)
Inductive ControlEvent :=
| EvHeld (mohClass : option string)
| EvUnheld
| EvParked (parkLotId : string) (slot : Z) (timeoutMs : option Z) (parkedByLegId mohClass : option string)
| EvUnparked (parkLotId : string) (slot : Z) (reason : Park.Park.ParkEndReason)
    (retrievedByLegId : option string) (durationMs : Z)
| EvBridged (peerLegId : option string) (bridgeId : string)
| EvTransferred (kind : Transfer.Transfer.TransferKind) (destination routingContext transferorLegId : string)
    (targetLegId : option string)
| EvPickedUp (pickedUpLegId : string) (kind : PickupKind) (extension abandonedLegId : string)
| EvRecordStarted (recordingId objectKey : string)
| EvRecordStopped (recordingId objectKey : string) (durationMs : Z) (reason : string).

(** The calls on the media server. *)
Inductive MediaCall :=
| MAnswer (channelId : string)
| MHangup (channelId : string) (cause : HangupCause)
| MHold (channelId : string)
| MUnhold (channelId : string)
| MStartMusic (channelId : string) (mohClass : option string)
| MStopMusic (channelId : string)
| MCreateBridge (bridgeId name : string)
| MAddToBridge (bridgeId : string) (channelIds : list string)
| MRemoveFromBridge (bridgeId : string) (channelIds : list string)
| MSnoop (channelId snoopChannelId application : string)
| MRecord (channelId name format : string) (maxDurationSeconds maxSilenceSeconds : option Z) (beep : option bool)
| MStopRecording (name : string).

(** What is awaited: the claims of the park registry, and everything else. *)
Inductive Query :=
| QClaims (q : Claims.request ParkRegistry.ParkRegistry.ParkClaim)
| QMedia (m : MediaCall)
| QChannelExists (channelId : string)
| QPublish (leg : Leg) (e : ControlEvent)
| QRoute (leg : Leg) (request : RouteRequest)
| QRouteRest (leg : Leg)
| QRinging (leg : Leg) (extension : string)
| QParkLotFor (leg : Leg) (lot : option string)
| QParkLotForSlot (leg : Leg) (slot : option Z)
| QHandoff (owner : string) (request : ParkHandoffRequest)
| QEntered (channelId : string) (timeoutMs : Z)
| QFinished (name : string) (timeoutMs : Z)
| QTurn.

(** One field for each kind of question; a question reads its own. A route answers how
    often it reaches a bridge, and in the end its outcome. *)
Record Answer := {
  a_claims : Claims.answer ParkRegistry.ParkRegistry.ParkClaim;
  a_done : result string unit;
  a_exists : result string bool;
  a_bridgings : nat;
  a_route : result string RouteStatus;
  a_ringing : result string (list PickupCandidate);
  a_lot : result string (option ParkLot);
  a_handoff : result string ParkHandoffResponse;
  a_entered : bool;
  a_finished : Z * string }.

(** ** State *)
Record Control := {
  holds : gmap string HeldLeg;
  consultations : gmap string Consultation;
  recordings : gmap string RecordingSession;
  parkTimers : gmap string nat;
  parkStates : gmap string Park.Park.ParkState;
  (* the heaps: the state of each consultation, the armed timers, the live watchers *)
  transferStates : gmap nat Transfer.Transfer.TransferState;
  timers : gmap nat ParkedCall;
  watchers : gmap nat (string * string);
  (* what the ports keep: the cancel keys, the legs and their registry, the parks *)
  cancelKeys : gmap string string;
  legs : gmap nat ChannelAggregate;
  registry : ChannelRegistry;
  parks : ParkRegistry.ParkRegistry.Registry;
  minted : nat }.

Definition fresh_control (instance : string) : Control := {|
  holds := ∅; consultations := ∅; recordings := ∅; parkTimers := ∅; parkStates := ∅;
  transferStates := ∅; timers := ∅; watchers := ∅; cancelKeys := ∅;
  legs := ∅; registry := registry_init;
  parks := ParkRegistry.ParkRegistry.boot_instance instance; minted := 0 |}.

Definition set_holds (f : gmap string HeldLeg → gmap string HeldLeg) (s : Control) : Control :=
  {| holds := f (holds s); consultations := consultations s; recordings := recordings s;
     parkTimers := parkTimers s; parkStates := parkStates s; transferStates := transferStates s;
     timers := timers s; watchers := watchers s; cancelKeys := cancelKeys s; legs := legs s;
     registry := registry s; parks := parks s; minted := minted s |}.

Definition set_recordings (f : gmap string RecordingSession → gmap string RecordingSession) (s : Control)
    : Control :=
  {| holds := holds s; consultations := consultations s; recordings := f (recordings s);
     parkTimers := parkTimers s; parkStates := parkStates s; transferStates := transferStates s;
     timers := timers s; watchers := watchers s; cancelKeys := cancelKeys s; legs := legs s;
     registry := registry s; parks := parks s; minted := minted s |}.

Definition set_parkStates (f : gmap string Park.Park.ParkState → gmap string Park.Park.ParkState)
    (s : Control) : Control :=
  {| holds := holds s; consultations := consultations s; recordings := recordings s;
     parkTimers := parkTimers s; parkStates := f (parkStates s); transferStates := transferStates s;
     timers := timers s; watchers := watchers s; cancelKeys := cancelKeys s; legs := legs s;
     registry := registry s; parks := parks s; minted := minted s |}.

Definition set_timers (named : gmap string nat) (heap : gmap nat ParkedCall) (s : Control) : Control :=
  {| holds := holds s; consultations := consultations s; recordings := recordings s;
     parkTimers := named; parkStates := parkStates s; transferStates := transferStates s;
     timers := heap; watchers := watchers s; cancelKeys := cancelKeys s; legs := legs s;
     registry := registry s; parks := parks s; minted := minted s |}.

Definition set_consultations (cs : gmap string Consultation)
    (states : gmap nat Transfer.Transfer.TransferState) (ws : gmap nat (string * string))
    (keys : gmap string string) (s : Control) : Control :=
  {| holds := holds s; consultations := cs; recordings := recordings s;
     parkTimers := parkTimers s; parkStates := parkStates s; transferStates := states;
     timers := timers s; watchers := ws; cancelKeys := keys; legs := legs s;
     registry := registry s; parks := parks s; minted := minted s |}.

Definition set_legs (ls : gmap nat ChannelAggregate) (r : ChannelRegistry) (s : Control) : Control :=
  {| holds := holds s; consultations := consultations s; recordings := recordings s;
     parkTimers := parkTimers s; parkStates := parkStates s; transferStates := transferStates s;
     timers := timers s; watchers := watchers s; cancelKeys := cancelKeys s; legs := ls;
     registry := r; parks := parks s; minted := minted s |}.

Definition set_parks (p : ParkRegistry.ParkRegistry.Registry) (s : Control) : Control :=
  {| holds := holds s; consultations := consultations s; recordings := recordings s;
     parkTimers := parkTimers s; parkStates := parkStates s; transferStates := transferStates s;
     timers := timers s; watchers := watchers s; cancelKeys := cancelKeys s; legs := legs s;
     registry := registry s; parks := p; minted := minted s |}.

Definition set_minted (n : nat) (s : Control) : Control :=
  {| holds := holds s; consultations := consultations s; recordings := recordings s;
     parkTimers := parkTimers s; parkStates := parkStates s; transferStates := transferStates s;
     timers := timers s; watchers := watchers s; cancelKeys := cancelKeys s; legs := legs s;
     registry := registry s; parks := parks s; minted := n |}.

Definition hasPendingTransfer (s : Control) (channel : string) : bool :=
  bool_decide (is_Some (consultations s !! channel)).

Definition isHeld (s : Control) (channel : string) : bool := bool_decide (is_Some (holds s !! channel)).

Definition recordingFor (s : Control) (channel : string) : option string :=
  recordingId <$> recordings s !! channel.

Definition activeOperationCount (s : Control) : nat :=
  size (holds s) + size (consultations s) + size (recordings s) + size (parkTimers s).

(** ** The legs

    A leg is a reference to an aggregate; [legFor] finds the ones that are registered. *)
Definition BRIDGE_PEER_VARIABLE : string := "OPTIMIQ_BRIDGE_PEER_LEG_ID".

Definition nobody : ChannelAggregate :=
  create {| in_ariChannelId := ""; in_channelId := ""; in_callId := ""; in_organizationId := "";
    in_direction := call_internal;
    in_profile := {| callerIdName := None; callerIdNumber := None; ani := None; rdnis := None;
      destinationNumber := ""; context := ""; networkAddr := None; profile_source := None; channelName := None |};
    in_variables := ∅; in_createdAt := 0 |}.

Definition the (s : Control) (leg : Leg) : ChannelAggregate := default nobody (legs s !! leg_ref leg).
Definition snap (s : Control) (leg : Leg) : ChannelSnapshot := snapshotValue (the s leg).

Definition leg_isTearingDown (s : Control) (leg : Leg) : bool := isTearingDown (the s leg).
Definition leg_isAnswered (s : Control) (leg : Leg) : bool := isAnswered (the s leg).
Definition leg_bridgeId (s : Control) (leg : Leg) : option string := bridgeId (snap s leg).

Definition legFor (s : Control) (channel : string) : option Leg := byAriChannelId (registry s) channel.

Definition leg_peerMediaChannelId (s : Control) (leg : Leg) : option string :=
  peer ← variables (snap s leg) !! BRIDGE_PEER_VARIABLE;
  leg_ari <$> byDomainChannelId (registry s) peer.

(** The leg on the other side, when this process is handling it. *)
Definition peerOf (s : Control) (leg : Leg) : option Leg :=
  channel ← leg_peerMediaChannelId s leg; legFor s channel.

(** One call on a leg. *)
Definition apply_leg (leg : Leg) (op : channel_op) (s : Control) : Control :=
  set_legs (alter (λ a, channel_next a op) (leg_ref leg) (legs s)) (registry s) s.

(** What the rest of the engine does: a leg is created or removed, or its aggregate is
    told something. *)
Inductive EngineStep :=
| EngineLeg (leg : Leg) (aggregate : ChannelAggregate)
| EngineRemove (leg : Leg)
| EngineCall (leg : Leg) (op : channel_op).

Definition apply_engine (step : EngineStep) (s : Control) : Control :=
  match step with
  | EngineLeg leg a => set_legs (<[leg_ref leg := a]> (legs s)) (add (registry s) leg) s
  | EngineRemove leg => set_legs (legs s) (remove (registry s) leg) s
  | EngineCall leg op => apply_leg leg op s
  end.

(** ** Effects *)
Definition M (X : Type) : Type := prog Control Query Answer (result string X).

#[global] Instance M_ret : MRet M := λ X x, Done (Ok x).

#[global] Instance M_bind : MBind M := λ X Y k m,
  prog_bind (λ r, match r with Ok x => k x | Throw e => Done (Throw e) end) m.

Definition throw {X} (e : string) : M X := Done (Throw e).

(** The result of a body, thrown or not. *)
Definition attempting {X} (m : M X) : M (result string X) := prog_bind (λ r, Done (Ok r)) m.

Definition reads {X} (f : Control → X) : M X := Local (λ _ s, (s, Done (Ok (f s)))).
Definition writes (f : Control → Control) : M unit := Local (λ _ s, (f s, Done (Ok tt))).
Definition now_ : M Z := Local (λ now s, (s, Done (Ok now))).
Definition await {X} (q : Query) (f : Answer → result string X) : M X := Ask q (λ a, Done (f a)).

(** [await] of a method: its caller goes on in a later turn of the event loop. *)
Definition awaiting {X} (m : M X) : M X := prog_bind (λ r, Ask QTurn (λ _, Done r)) m.

(** A method of the park registry, run on the registry of the instance. *)
Fixpoint on_parks {X}
    (p : prog ParkRegistry.ParkRegistry.Registry (Claims.request ParkRegistry.ParkRegistry.ParkClaim)
           (Claims.answer ParkRegistry.ParkRegistry.ParkClaim) X) : M X :=
  match p with
  | Done x => Done (Ok x)
  | Local f => Local (λ now s, let '(r, p') := f now (parks s) in (set_parks r s, on_parks p'))
  | Ask q k => Ask (QClaims q) (λ a, on_parks (k (a_claims a)))
  end.

Definition leg_do (leg : Leg) (op : channel_op) : M unit := writes (apply_leg leg op).

Definition moveTo (leg : Leg) (next : ChannelState) : M unit := leg_do leg (OpTryTransitionTo next).
Definition moveCallStateTo (leg : Leg) (next : CallState.CallState) : M unit := leg_do leg (OpTryCallStateTo next).
Definition setBridge (leg : Leg) (b : option string) : M unit := leg_do leg (OpSetBridge b).

Definition setBridgePeer (leg : Leg) (peerLegId : option string) : M unit :=
  leg_do leg (match peerLegId with
              | None => OpClearVariable BRIDGE_PEER_VARIABLE
              | Some peer => OpSetVariable BRIDGE_PEER_VARIABLE peer
              end).

Definition markHangup (leg : Leg) (cause : HangupCause) : M unit :=
  at_ ← now_; leg_do leg (OpMarkHangup cause at_ true).

Definition media (m : MediaCall) : M unit := await (QMedia m) a_done.

(** A call that may be ignored when it throws. *)
Definition quietly (m : M unit) : M unit := _ ← attempting m; mret tt.

Definition hangupQuietly (channel : string) (cause : HangupCause) : M unit :=
  quietly (media (MHangup channel cause)).

Definition publishQuietly (leg : Leg) (e : ControlEvent) : M unit :=
  quietly (await (QPublish leg e) a_done).

(** The guards of the machines. *)
Definition assert_park (from to : Park.Park.ParkState) : M unit :=
  match Park.Park.assertParkTransition from to with
  | Ok _ => mret tt
  | Throw _ => throw "InvalidParkTransitionError"
  end.

Definition assert_transfer (from to : Transfer.Transfer.TransferState) : M unit :=
  match Transfer.Transfer.assertTransferTransition from to with
  | Ok _ => mret tt
  | Throw _ => throw "InvalidTransferTransitionError"
  end.

(** [void f()] *)
Definition whenever (b : bool) (m : M unit) : M unit := if b then m else mret tt.

(** ** Operations *)
Section CallControl.
Context (newId : nat → string) (set : CallControlSettings) (bridgeMode : Bridge.BridgeMode).
Context (has_parkHandoff has_consultationKeys : bool).

Definition mint : M string :=
  Local (λ _ s, (set_minted (S (minted s)) s, Done (Ok (newId (minted s))))).

(** The guard every operation runs first. *)
Definition refuseIfUnusable (leg : Leg) : M (option Reason) :=
  reads (λ s, if leg_isTearingDown s leg then Some leg_tearing_down
              else if negb (leg_isAnswered s leg) then Some leg_not_answered else None).

(** *** Hold *)
Definition hold (leg : Leg) (musicOnHold : option string) (soft : bool) : M CallControlResult :=
  refusal ← refuseIfUnusable leg;
  match (refusal : option Reason) with
  | Some r => mret (refuse r)
  | None =>
      held ← reads (λ s, isHeld s (leg_ari leg));
      if (held : bool) then mret (refuse already_on_hold)
      else
        bridge ← reads (λ s, leg_bridgeId s leg);
        peer ← reads (λ s, leg_peerMediaChannelId s leg);
        removed ← attempting (match (bridge : option string) with
                              | Some b => media (MRemoveFromBridge b [leg_ari leg])
                              | None => mret tt
                              end);
        match (removed : result string unit) with
        | Throw _ => mret (refuse not_removed)
        | Ok _ =>
            _ ← quietly (_ ← whenever (negb soft) (media (MHold (leg_ari leg)));
                         media (MStartMusic (leg_ari leg) musicOnHold));
            now ← now_;
            _ ← writes (λ s, set_holds (insert (leg_ari leg)
                   {| held_mediaChannelId := leg_ari leg; held_bridgeId := bridge;
                      held_peerMediaChannelId := peer;
                      held_peerLegId := leg_channelId <$> legFor s (default "" peer);
                      signalled := negb soft; heldAtMs := now |}) s);
            _ ← leg_do leg (OpAddFlag flag_hold);
            _ ← moveCallStateTo leg CallState.held;
            _ ← publishQuietly leg (EvHeld musicOnHold);
            mret ok
        end
  end.

Definition unhold (leg : Leg) : M CallControlResult :=
  held ← reads (λ s, holds s !! leg_ari leg);
  match (held : option HeldLeg) with
  | None => mret (refuse not_on_hold)
  | Some held =>
      _ ← writes (set_holds (delete (leg_ari leg)));
      _ ← quietly (media (MStopMusic (leg_ari leg)));
      _ ← whenever (signalled held) (quietly (media (MUnhold (leg_ari leg))));
      _ ← leg_do leg (OpRemoveFlag flag_hold);
      _ ← moveCallStateTo leg CallState.unheld;
      _ ← publishQuietly leg EvUnheld;
      match held_bridgeId held with
      | None => _ ← moveCallStateTo leg CallState.active; mret ok
      | Some b =>
          returned ← attempting (media (MAddToBridge b [leg_ari leg]));
          match (returned : result string unit) with
          | Throw _ => mret (refuse not_returned)
          | Ok _ =>
              _ ← setBridge leg (Some b);
              _ ← moveCallStateTo leg CallState.active;
              _ ← moveTo leg exchanging_media;
              mret ok
          end
      end
  end.

(** *** Park timers and states *)
Definition arm_timer (entry : ParkedCall) (s : Control) : Control :=
  set_timers (<[ParkRegistry.ParkRegistry.mediaChannelId entry := minted s]> (parkTimers s))
    (<[minted s := entry]> (timers s)) (set_minted (S (minted s)) s).

Definition armParkTimeout (entry : ParkedCall) : M unit := writes (arm_timer entry).

Definition cancel_timer (channel : string) (s : Control) : Control :=
  set_timers (delete channel (parkTimers s))
    (match parkTimers s !! channel with Some n => delete n (timers s) | None => timers s end) s.

Definition cancelParkTimeout (channel : string) : M unit := writes (cancel_timer channel).

Definition transitionPark (channel : string) (to : Park.Park.ParkState) : M unit :=
  from ← reads (λ s, parkStates s !! channel);
  match (from : option Park.Park.ParkState) with
  | None => mret tt
  | Some from => _ ← assert_park from to; writes (set_parkStates (insert channel to))
  end.

Definition forget_park (channel : string) : M unit := writes (set_parkStates (delete channel)).

Definition parkTimeoutMs (lot : ParkLot) (override : option Z) : Z :=
  match override with
  | Some ms => Z.max 0 ms
  | None => Z.max 0 (default (defaultParkTimeoutSeconds set) (lot_timeoutSeconds lot)) * 1000
  end.

(** *** Park *)
Definition park_refusal (r : ParkRegistry.ParkRegistry.ParkResult) : Reason :=
  match r with
  | ParkRegistry.ParkRegistry.LotFull _ => lot_full
  | ParkRegistry.ParkRegistry.SlotUnavailable _ => slot_taken
  | _ => no_claims
  end.

Definition parked_not (r : Reason) : ParkOutcome :=
  {| po_result := refuse r; po_slot := None; po_parkLotId := None |}.

Definition parking_of (leg : Leg) (lot : ParkLot) (parker : option Leg) (mohClass : option string)
    (now : Z) (s : Control) : Parking := {|
  ParkRegistry.ParkRegistry.parkLotId := lot_parkLotId lot;
  ParkRegistry.ParkRegistry.mediaChannelId := leg_ari leg;
  ParkRegistry.ParkRegistry.legId := leg_channelId leg;
  ParkRegistry.ParkRegistry.callId := callId (snap s leg);
  ParkRegistry.ParkRegistry.organizationId := organizationId (snap s leg);
  ParkRegistry.ParkRegistry.parkedByLegId := leg_channelId <$> parker;
  ParkRegistry.ParkRegistry.parkedByNumber := (p ← parker; callerIdNumber (profile (snap s p)));
  ParkRegistry.ParkRegistry.parkedAtMs := now;
  ParkRegistry.ParkRegistry.mohClass := mohClass |}.

(** [a ?? b] *)
Definition coalesce {X} (a b : option X) : option X := match a with Some _ => a | None => b end.

(** What follows a claimed slot. *)
Definition moveIntoLot (leg : Leg) (lot : ParkLot) (parker : option Leg) (request : ParkRequest)
    (entry : ParkedCall) : M ParkOutcome :=
  bridge ← reads (λ s, leg_bridgeId s leg);
  let mohClass := ParkRegistry.ParkRegistry.mohClass entry in
  moved ← attempting (
    _ ← (match (bridge : option string) with
         | Some b => media (MRemoveFromBridge b [leg_ari leg])
         | None => mret tt
         end);
    media (MStartMusic (leg_ari leg) mohClass));
  match (moved : result string unit) with
  | Throw _ =>
      _ ← awaiting $ on_parks (ParkRegistry.ParkRegistry.release (leg_ari leg));
      _ ← assert_park Park.Park.INITIAL_PARK_STATE Park.Park.failed;
      mret (parked_not not_moved)
  | Ok _ =>
      _ ← assert_park Park.Park.INITIAL_PARK_STATE Park.Park.parked;
      _ ← writes (set_parkStates (insert (leg_ari leg) Park.Park.parked));
      _ ← setBridge leg None;
      _ ← setBridgePeer leg None;
      _ ← (match parker with Some p => setBridgePeer p None | None => mret tt end);
      _ ← leg_do leg (OpAddFlag flag_park);
      _ ← moveTo leg parked;
      _ ← moveCallStateTo leg CallState.held;
      let timeoutMs := parkTimeoutMs lot (req_timeoutMs request) in
      _ ← whenever (0 <? timeoutMs)%Z (armParkTimeout entry);
      _ ← publishQuietly leg (EvParked (lot_parkLotId lot) (ParkRegistry.ParkRegistry.slot entry)
             (if (0 <? timeoutMs)%Z then Some timeoutMs else None)
             (ParkRegistry.ParkRegistry.parkedByLegId entry) mohClass);
      mret {| po_result := ok; po_slot := Some (ParkRegistry.ParkRegistry.slot entry);
              po_parkLotId := Some (lot_parkLotId lot) |}
  end.

Definition park (leg : Leg) (request : ParkRequest) : M ParkOutcome :=
  refusal ← refuseIfUnusable leg;
  match (refusal : option Reason) with
  | Some r => mret (parked_not r)
  | None =>
      here ← reads (λ s, ParkRegistry.ParkRegistry.forChannel (parks s) (leg_ari leg));
      match (here : option ParkedCall) with
      | Some _ => mret (parked_not already_parked)
      | None =>
          lot ← await (QParkLotFor leg (req_lot request)) a_lot;
          match (lot : option ParkLot) with
          | None => mret (parked_not (match req_lot request with None => no_park_lot | Some _ => unknown_park_lot end))
          | Some lot =>
              let preferred := o ← req_orbit request; ParkRegistry.ParkRegistry.parkSlotFor (lot_range lot) (trim o) in
              if bool_decide (is_Some (req_orbit request)) && bool_decide (preferred = None)
              then mret (parked_not bad_orbit)
              else
                parker ← reads (λ s, coalesce (req_parkedBy request) (peerOf s leg));
                now ← now_;
                parking ← reads (parking_of leg lot parker (coalesce (req_musicOnHold request) (lot_mohClass lot)) now);
                claim ← awaiting $ on_parks (ParkRegistry.ParkRegistry.park (lot_range lot) parking preferred);
                match (claim : ParkRegistry.ParkRegistry.ParkResult) with
                | ParkRegistry.ParkRegistry.Parked entry => moveIntoLot leg lot parker request entry
                | other =>
                    _ ← assert_park Park.Park.INITIAL_PARK_STATE Park.Park.failed;
                    mret (parked_not (park_refusal other))
                end
          end
      end
  end.

(** *** Retrieval *)
Abbreviation channel_of := ParkRegistry.ParkRegistry.mediaChannelId.
Abbreviation org_of := ParkRegistry.ParkRegistry.organizationId.
Abbreviation lot_of := ParkRegistry.ParkRegistry.parkLotId.

(** The parked call is taken from its music into a new bridge. *)
Definition connect (parked : ParkedCall) (bridge : string) (channels : list string) : M unit :=
  _ ← media (MStopMusic (channel_of parked));
  _ ← media (MCreateBridge bridge ("unpark-" +:+ ParkRegistry.ParkRegistry.callId parked));
  media (MAddToBridge bridge channels).

(** Back in the orbit, music on, still collectable. *)
Definition put_back (parked : ParkedCall) : M unit :=
  restored ← awaiting $ on_parks (ParkRegistry.ParkRegistry.restore parked);
  whenever restored
    (_ ← transitionPark (channel_of parked) Park.Park.parked;
     quietly (media (MStartMusic (channel_of parked) (ParkRegistry.ParkRegistry.mohClass parked)))).

(** The parked leg's side of a retrieval. *)
Definition leave_lot (parkedLeg : Leg) (bridge : string) : M unit :=
  _ ← leg_do parkedLeg (OpRemoveFlag flag_park);
  _ ← setBridge parkedLeg (Some bridge);
  _ ← moveTo parkedLeg exchanging_media;
  _ ← moveCallStateTo parkedLeg CallState.unheld;
  moveCallStateTo parkedLeg CallState.active.

Definition publish_unparked (leg : Leg) (parked : ParkedCall) (reason : Park.Park.ParkEndReason)
    (retriever : option string) : M unit :=
  now ← now_;
  publishQuietly leg (EvUnparked (lot_of parked) (ParkRegistry.ParkRegistry.slot parked) reason retriever
    (Z.max 0 (now - ParkRegistry.ParkRegistry.parkedAtMs parked))).

Definition adoptHandedOffCall (leg : Leg) (bridge : string) (peerLegId : option string) : M unit :=
  _ ← setBridge leg (Some bridge);
  _ ← moveTo leg exchanging_media;
  match peerLegId with Some _ => setBridgePeer leg peerLegId | None => mret tt end.

Definition unparkFromOwner (leg : Leg) (slot : Z) (owner : string) (parked : ParkedCall) : M CallControlResult :=
  if negb has_parkHandoff then mret (refuse parked_elsewhere)
  else
    bridge ← mint;
    request ← reads (λ s, {|
      ho_orgId := organizationId (snap s leg); ho_parkLotId := lot_of parked; ho_slot := slot;
      ho_mediaChannelId := channel_of parked;
      ho_retrieverInstanceId := ParkRegistry.ParkRegistry.instance (parks s);
      ho_retrieverMediaChannelId := leg_ari leg; ho_retrieverLegId := leg_channelId leg;
      ho_bridgeId := bridge |});
    response ← attempting (await (QHandoff owner request) a_handoff);
    match (response : result string ParkHandoffResponse) with
    | Throw _ => mret (refuse owner_silent)
    | Ok response =>
        if negb (hr_ok response) then mret (refuse (owner_refused (hr_reason response)))
        else
          let bridge := default bridge (hr_bridgeId response) in
          _ ← adoptHandedOffCall leg bridge (hr_legId response);
          _ ← publishQuietly leg (EvBridged (hr_legId response) bridge);
          mret ok
    end.

Definition unparkFromDeadOwner (leg : Leg) (slot : Z) (parked : ParkedCall) : M CallControlResult :=
  won ← awaiting $ on_parks (ParkRegistry.ParkRegistry.takeOverStale parked);
  if negb won then mret (refuse nothing_parked)
  else
    reachable ← attempting (await (QChannelExists (channel_of parked)) a_exists);
    if negb (match (reachable : result string bool) with Ok b => b | Throw _ => false end) then
      _ ← awaiting $ on_parks (ParkRegistry.ParkRegistry.discard (org_of parked) (lot_of parked) slot);
      mret (refuse owner_gone)
    else
      bridge ← mint;
      connected ← attempting (connect parked bridge [leg_ari leg; channel_of parked]);
      _ ← awaiting $ on_parks (ParkRegistry.ParkRegistry.discard (org_of parked) (lot_of parked) slot);
      match (connected : result string unit) with
      | Throw _ => mret (refuse not_connected)
      | Ok _ =>
          let peer := Some (ParkRegistry.ParkRegistry.legId parked) in
          _ ← adoptHandedOffCall leg bridge peer;
          _ ← publishQuietly leg (EvBridged peer bridge);
          mret ok
      end.

(** A retrieval on the instance that holds the call, after its claim. *)
Definition retrieve (leg : Leg) (parked : ParkedCall) : M CallControlResult :=
  _ ← transitionPark (channel_of parked) Park.Park.retrieving;
  _ ← cancelParkTimeout (channel_of parked);
  found ← reads (λ s, match legFor s (channel_of parked) with
                      | Some l => if leg_isTearingDown s l then None else Some l
                      | None => None
                      end);
  match (found : option Leg) with
  | None =>
      _ ← transitionPark (channel_of parked) Park.Park.abandoned;
      _ ← forget_park (channel_of parked);
      mret (refuse call_gone)
  | Some parkedLeg =>
      bridge ← mint;
      connected ← attempting (connect parked bridge [leg_ari leg; channel_of parked]);
      match (connected : result string unit) with
      | Throw _ => _ ← put_back parked; mret (refuse not_connected)
      | Ok _ =>
          _ ← transitionPark (channel_of parked) Park.Park.retrieved;
          _ ← forget_park (channel_of parked);
          _ ← leave_lot parkedLeg bridge;
          _ ← setBridge leg (Some bridge);
          _ ← moveTo leg exchanging_media;
          _ ← setBridgePeer leg (Some (leg_channelId parkedLeg));
          _ ← setBridgePeer parkedLeg (Some (leg_channelId leg));
          _ ← publish_unparked parkedLeg parked Park.Park.end_retrieved (Some (leg_channelId leg));
          _ ← publishQuietly leg (EvBridged (Some (leg_channelId parkedLeg)) bridge);
          mret ok
      end
  end.

Definition unpark (leg : Leg) (lot orbit : option string) : M CallControlResult :=
  refusal ← refuseIfUnusable leg;
  match (refusal : option Reason), trim <$> orbit with
  | Some r, _ => mret (refuse r)
  | None, None | None, Some "" => mret (refuse orbit_required)
  | None, Some dialed =>
      let slot := TimeConditions.TimeConditions.parseInt dialed in
      found ← match lot with
              | None => await (QParkLotForSlot leg slot) a_lot
              | Some _ => await (QParkLotFor leg lot) a_lot
              end;
      match (found : option ParkLot), slot with
      | Some found, Some slot =>
          if bool_decide (ParkRegistry.ParkRegistry.parkSlotFor (lot_range found) dialed = None)
          then mret (refuse unknown_orbit)
          else
            org ← reads (λ s, organizationId (snap s leg));
            claimed ← awaiting $ on_parks (ParkRegistry.ParkRegistry.claim (lot_parkLotId found) slot (Some org));
            match (claimed : ParkRegistry.ParkRegistry.ParkClaimResult) with
            | ParkRegistry.ParkRegistry.Elsewhere owner entry => unparkFromOwner leg slot owner entry
            | ParkRegistry.ParkRegistry.Stale _ entry => unparkFromDeadOwner leg slot entry
            | ParkRegistry.ParkRegistry.ClaimUnavailable => mret (refuse no_claims)
            | ParkRegistry.ParkRegistry.Absent => mret (refuse nothing_parked)
            | ParkRegistry.ParkRegistry.Claimed entry => retrieve leg entry
            end
      | _, _ => mret (refuse unknown_orbit)
      end
  end.

(** *** A retrieval asked for by another instance *)
Definition deny (request : ParkHandoffRequest) (reason : ParkHandoffRefusalReason) : M ParkHandoffResponse :=
  reads (λ s, {| hr_ok := false; hr_parkLotId := ho_parkLotId request; hr_slot := ho_slot request;
                 hr_instanceId := ParkRegistry.ParkRegistry.instance (parks s);
                 hr_bridgeId := None; hr_legId := None; hr_callId := None; hr_parkedAtMs := None;
                 hr_reason := Some reason |}).

(** What follows the claim. *)
Definition hand_over (request : ParkHandoffRequest) (parkedLeg : Leg) (entry : ParkedCall)
    : M ParkHandoffResponse :=
  let bridge := ho_bridgeId request in
  _ ← transitionPark (channel_of entry) Park.Park.retrieving;
  _ ← cancelParkTimeout (channel_of entry);
  connected ← attempting (connect entry bridge [channel_of entry; ho_retrieverMediaChannelId request]);
  match (connected : result string unit) with
  | Throw _ => _ ← put_back entry; deny request media_failed
  | Ok _ =>
      _ ← transitionPark (channel_of entry) Park.Park.retrieved;
      _ ← forget_park (channel_of entry);
      _ ← leave_lot parkedLeg bridge;
      _ ← setBridgePeer parkedLeg (Some (ho_retrieverLegId request));
      _ ← publish_unparked parkedLeg entry Park.Park.end_retrieved (Some (ho_retrieverLegId request));
      reads (λ s, {| hr_ok := true; hr_parkLotId := ho_parkLotId request; hr_slot := ho_slot request;
                     hr_instanceId := ParkRegistry.ParkRegistry.instance (parks s);
                     hr_bridgeId := Some bridge; hr_legId := Some (leg_channelId parkedLeg);
                     hr_callId := Some (ParkRegistry.ParkRegistry.callId entry);
                     hr_parkedAtMs := Some (ParkRegistry.ParkRegistry.parkedAtMs entry); hr_reason := None |})
  end.

Definition acceptParkHandoff (request : ParkHandoffRequest) : M ParkHandoffResponse :=
  answer ← attempting (
    occupant ← reads (λ s, ParkRegistry.ParkRegistry.at_ (parks s) (ho_parkLotId request) (ho_slot request)
                             (Some (ho_orgId request)));
    match (occupant : option ParkedCall) with
    | None => deny request not_parked
    | Some occupant =>
        if bool_decide (org_of occupant ≠ ho_orgId request) then deny request not_parked
        else if bool_decide (channel_of occupant ≠ ho_mediaChannelId request) then deny request claim_superseded
        else
          found ← reads (λ s, match legFor s (channel_of occupant) with
                              | Some l => if leg_isTearingDown s l then None else Some l
                              | None => None
                              end);
          match (found : option Leg) with
          | None => deny request channel_gone
          | Some parkedLeg =>
              reachable ← attempting (await (QChannelExists (ho_retrieverMediaChannelId request)) a_exists);
              match (reachable : result string bool) with
              | Throw _ => deny request internal
              | Ok false => deny request unreachable_channel
              | Ok true =>
                  claimed ← awaiting $ on_parks (ParkRegistry.ParkRegistry.claim (ho_parkLotId request) (ho_slot request)
                                        (Some (ho_orgId request)));
                  match (claimed : ParkRegistry.ParkRegistry.ParkClaimResult) with
                  | ParkRegistry.ParkRegistry.Claimed entry => hand_over request parkedLeg entry
                  | ParkRegistry.ParkRegistry.ClaimUnavailable => deny request internal
                  | _ => deny request not_parked
                  end
              end
          end
    end);
  match (answer : result string ParkHandoffResponse) with
  | Ok response => mret response
  | Throw _ => deny request internal
  end.

(** *** Consultations *)
Definition state_of (c : Consultation) (s : Control) : option Transfer.Transfer.TransferState :=
  transferStates s !! cons_ref c.

Definition mark_state (c : Consultation) (to : Transfer.Transfer.TransferState) (s : Control) : Control :=
  set_consultations (consultations s) (<[cons_ref c := to]> (transferStates s)) (watchers s) (cancelKeys s) s.

Definition set_state_of (c : Consultation) (to : Transfer.Transfer.TransferState) : M unit :=
  writes (mark_state c to).

(** The consultation is watched, its flag set and its key armed in one go. *)
Definition open_consultation (leg transferee : Leg) (destination context : string) (request : TransferRequest)
    (now : Z) (s : Control) : Control :=
  let n := minted s in
  let c := {| cons_ref := n; cons_kind := Transfer.Transfer.attended;
              transferorMediaChannelId := leg_ari leg; transfereeMediaChannelId := leg_ari transferee;
              cons_destination := destination; cons_context := context;
              cons_fallbackDestination := req_fallbackDestination request; startedAtMs := now |} in
  set_minted (S n)
    (set_consultations (<[leg_ari leg := c]> (consultations s)) (<[n := Transfer.Transfer.held]> (transferStates s))
       (<[n := (leg_ari transferee, leg_ari leg)]> (watchers s))
       (match req_cancelKey request with
        | Some digit => if has_consultationKeys then <[leg_ari leg := digit]> (cancelKeys s) else cancelKeys s
        | None => cancelKeys s
        end) s).

Definition close_consultation (channel : string) (s : Control) : Control :=
  match consultations s !! channel with
  | None => s
  | Some c =>
      set_consultations (delete channel (consultations s)) (transferStates s)
        (delete (cons_ref c) (watchers s)) (delete channel (cancelKeys s)) s
  end.

Definition dropConsultation (channel : string) : M unit :=
  _ ← writes (close_consultation channel);
  await QTurn (λ _, Ok tt).

Definition abandonConsultation (channel : string) : M unit :=
  c ← reads (λ s, consultations s !! channel);
  match (c : option Consultation) with
  | None => mret tt
  | Some c =>
      _ ← set_state_of c Transfer.Transfer.failed;
      _ ← dropConsultation channel;
      writes (set_holds (delete (transfereeMediaChannelId c)))
  end.

(** *** Routing *)

(** A walk that runs [hook] each time it is about to join the leg to something. *)
Fixpoint bridgings (leg : Leg) (hook : M unit) (n : nat) : M unit :=
  match n with
  | O => mret tt
  | S n => _ ← hook; _ ← await (QRouteRest leg) (λ _, Ok tt); bridgings leg hook n
  end.

Definition route (leg : Leg) (request : RouteRequest) (hook : M unit) : M RouteStatus :=
  n ← await (QRoute leg request) (λ a, Ok (a_bridgings a));
  _ ← bridgings leg hook n;
  await (QRouteRest leg) a_route.

Definition route_request (leg : Leg) (destination context : string) (s : Control) : RouteRequest :=
  {| route_destination := destination; route_context := context;
     route_callerIdNumber := callerIdNumber (profile (snap s leg));
     route_callerIdName := callerIdName (profile (snap s leg)) |}.

Definition beforeBridge (transferee : Leg) : M unit :=
  _ ← writes (set_holds (delete (leg_ari transferee)));
  _ ← leg_do transferee (OpRemoveFlag flag_hold);
  _ ← moveCallStateTo transferee CallState.unheld;
  _ ← moveCallStateTo transferee CallState.active;
  quietly (media (MStopMusic (leg_ari transferee))).

Definition routeTransferee (transferee : Leg) (destination context : string) : M RouteStatus :=
  request ← reads (route_request transferee destination context);
  route transferee request (beforeBridge transferee).

(** A fallback that is given and not blank. *)
Definition fallback_of (fallback : option string) : option string :=
  match trim <$> fallback with None | Some "" => None | Some f => Some f end.

(** *** Transfer *)
Definition transferred (transferee : Leg) (kind : Transfer.Transfer.TransferKind)
    (destination context : string) (transferor : Leg) (target : option string) : M unit :=
  publishQuietly transferee (EvTransferred kind destination context (leg_channelId transferor) target).

Definition completeBlindTransfer (transferor transferee : Leg) (destination context : string)
    (fallback : option string) : M CallControlResult :=
  held ← awaiting (hold transferee None true);
  if negb (is_ok held) then mret (refuse transferee_not_held)
  else
    _ ← setBridgePeer transferee None;
    _ ← setBridgePeer transferor None;
    _ ← leg_do transferee (OpAddFlag flag_transfer);
    _ ← moveTo transferee routing;
    let cause := Transfer.Transfer.hangupCauseForTransfer Transfer.Transfer.blind in
    _ ← markHangup transferor cause;
    _ ← hangupQuietly (leg_ari transferor) cause;
    first ← awaiting (routeTransferee transferee destination context);
    if bool_decide (first = route_bridged) then
      _ ← transferred transferee Transfer.Transfer.blind destination context transferor None;
      mret ok
    else
      gone ← reads (λ s, leg_isTearingDown s transferee);
      match fallback_of fallback, gone with
      | Some f, false =>
          second ← awaiting (routeTransferee transferee f context);
          if bool_decide (second = route_bridged) then
            _ ← transferred transferee Transfer.Transfer.blind f context transferor None;
            mret ok
          else mret (refuse not_routed)
      | _, _ => mret (refuse not_routed)
      end.

(** What becomes of the consultation once its walk is over. *)
Definition settle_consult (leg transferee : Leg) (status : RouteStatus) : M CallControlResult :=
  pending ← reads (λ s, consultations s !! leg_ari leg);
  match (pending : option Consultation) with
  | None => mret (refuse transfer_abandoned)
  | Some pending =>
      if negb (bool_decide (status = route_bridged)) then
        _ ← set_state_of pending Transfer.Transfer.failed;
        _ ← assert_transfer Transfer.Transfer.held Transfer.Transfer.failed;
        _ ← dropConsultation (leg_ari leg);
        returned ← awaiting (unhold transferee);
        mret (refuse (consultation_failed (is_ok returned)))
      else
        _ ← set_state_of pending Transfer.Transfer.consulting;
        _ ← assert_transfer Transfer.Transfer.held Transfer.Transfer.consulting;
        mret ok
  end.

(** The consultation half of an attended transfer, after the transferee is held. *)
Definition consult (leg transferee : Leg) (destination context : string) (request : TransferRequest)
    : M CallControlResult :=
  _ ← moveTo transferee hibernating;
  now ← now_;
  _ ← writes (open_consultation leg transferee destination context request now);
  _ ← leg_do leg (OpAddFlag flag_attended_transfer);
  asked ← reads (route_request leg destination context);
  status ← route leg asked (mret tt);
  settle_consult leg transferee status.

Definition transfer (leg : Leg) (request : TransferRequest) : M CallControlResult :=
  refusal ← refuseIfUnusable leg;
  pending ← reads (λ s, hasPendingTransfer s (leg_ari leg));
  transferee ← reads (λ s, peerOf s leg);
  let destination := trim (req_destination request) in
  match (refusal : option Reason), (transferee : option Leg) with
  | Some r, _ => mret (refuse r)
  | None, transferee =>
      if bool_decide (destination = "") then mret (refuse no_destination)
      else if (pending : bool) then mret (refuse transfer_in_progress)
      else
        match transferee with
        | None => mret (refuse nobody_to_transfer)
        | Some transferee =>
            let context := default (transferContext set) (req_context request) in
            match req_kind request with
            | Transfer.Transfer.blind =>
                _ ← assert_transfer Transfer.Transfer.INITIAL_TRANSFER_STATE Transfer.Transfer.completing;
                completeBlindTransfer leg transferee destination context (req_fallbackDestination request)
            | Transfer.Transfer.attended =>
                _ ← assert_transfer Transfer.Transfer.INITIAL_TRANSFER_STATE Transfer.Transfer.held;
                held ← awaiting (hold transferee None true);
                if negb (is_ok held) then mret (refuse transferee_not_held)
                else consult leg transferee destination context request
            end
        end
  end.

(** The last resort of a transferee whose transferor is gone; [None]: not tried. *)
Definition rescueTransferee (transferor transferee : Leg) (c : Consultation) : M (option CallControlResult) :=
  gone ← reads (λ s, leg_isTearingDown s transferee);
  match fallback_of (cons_fallbackDestination c), gone with
  | Some fallback, false =>
      _ ← setBridgePeer transferee None;
      _ ← leg_do transferee (OpAddFlag flag_transfer);
      _ ← moveTo transferee routing;
      status ← awaiting (routeTransferee transferee fallback (cons_context c));
      if negb (bool_decide (status = route_bridged)) then mret (Some (refuse fallback_failed))
      else
        _ ← transferred transferee (cons_kind c) fallback (cons_context c) transferor None;
        mret (Some ok)
  | _, _ => mret None
  end.

(** The joining of the transferee to the consultation's bridge. *)
Definition join_target (leg transferee target : Leg) (bridge : string) (c : Consultation) : M CallControlResult :=
  _ ← set_state_of c Transfer.Transfer.completing;
  _ ← assert_transfer Transfer.Transfer.consulting Transfer.Transfer.completing;
  _ ← writes (set_holds (delete (leg_ari transferee)));
  joined ← attempting (_ ← media (MStopMusic (leg_ari transferee));
                       media (MAddToBridge bridge [leg_ari transferee]));
  match (joined : result string unit) with
  | Throw _ =>
      _ ← set_state_of c Transfer.Transfer.failed;
      _ ← assert_transfer Transfer.Transfer.completing Transfer.Transfer.failed;
      _ ← dropConsultation (leg_ari leg);
      rescued ← awaiting (rescueTransferee leg transferee c);
      mret (default (refuse not_joined) rescued)
  | Ok _ =>
      _ ← leg_do transferee (OpRemoveFlag flag_hold);
      _ ← setBridge transferee (Some bridge);
      _ ← moveTo transferee exchanging_media;
      _ ← moveCallStateTo transferee CallState.unheld;
      _ ← moveCallStateTo transferee CallState.active;
      _ ← setBridgePeer transferee (Some (leg_channelId target));
      _ ← setBridgePeer target (Some (leg_channelId transferee));
      _ ← setBridgePeer leg None;
      _ ← setBridge leg None;
      _ ← markHangup leg (Transfer.Transfer.hangupCauseForTransfer (cons_kind c));
      _ ← set_state_of c Transfer.Transfer.completed;
      _ ← assert_transfer Transfer.Transfer.completing Transfer.Transfer.completed;
      _ ← dropConsultation (leg_ari leg);
      _ ← transferred transferee (cons_kind c) (cons_destination c) (cons_context c) leg
            (Some (leg_channelId target));
      mret ok
  end.

Definition completeTransfer (leg : Leg) : M CallControlResult :=
  pending ← reads (λ s, consultations s !! leg_ari leg);
  match (pending : option Consultation) with
  | None => mret (refuse no_transfer)
  | Some c =>
      state ← reads (state_of c);
      if negb (includes [Some Transfer.Transfer.consulting; Some Transfer.Transfer.held] state)
      then mret (refuse not_waiting)
      else
        transferee ← reads (λ s, match legFor s (transfereeMediaChannelId c) with
                                 | Some l => if leg_isTearingDown s l then None else Some l
                                 | None => None
                                 end);
        target ← reads (λ s, peerOf s leg);
        bridge ← reads (λ s, leg_bridgeId s leg);
        match (transferee : option Leg), (target : option Leg), (bridge : option string) with
        | None, _, _ =>
            _ ← set_state_of c Transfer.Transfer.failed;
            _ ← dropConsultation (leg_ari leg);
            mret (refuse transferee_gone)
        | Some transferee, Some target, Some bridge => join_target leg transferee target bridge c
        | Some transferee, _, _ =>
            _ ← set_state_of c Transfer.Transfer.failed;
            _ ← assert_transfer Transfer.Transfer.consulting Transfer.Transfer.failed;
            _ ← dropConsultation (leg_ari leg);
            rescued ← awaiting (rescueTransferee leg transferee c);
            match (rescued : option CallControlResult) with
            | Some r => mret r
            | None => returned ← awaiting (unhold transferee); mret (refuse (consultation_gone (is_ok returned)))
            end
        end
  end.

Definition cancelTransfer (leg : Leg) : M CallControlResult :=
  pending ← reads (λ s, consultations s !! leg_ari leg);
  match (pending : option Consultation) with
  | None => mret (refuse no_transfer)
  | Some c =>
      from ← reads (state_of c);
      _ ← set_state_of c Transfer.Transfer.cancelled;
      _ ← assert_transfer (default Transfer.Transfer.held from) Transfer.Transfer.cancelled;
      _ ← dropConsultation (leg_ari leg);
      target ← reads (λ s, peerOf s leg);
      _ ← match (target : option Leg) with
          | Some target =>
              _ ← markHangup target ORIGINATOR_CANCEL;
              hangupQuietly (leg_ari target) ORIGINATOR_CANCEL
          | None => mret tt
          end;
      transferee ← reads (λ s, legFor s (transfereeMediaChannelId c));
      match (transferee : option Leg) with
      | None => mret ok
      | Some transferee =>
          returned ← awaiting (unhold transferee);
          mret (if is_ok returned then ok else refuse not_restored)
      end
  end.

(** *** Pickup *)

(** Which ringing phones a caller may answer; [None]: no extension has a group. *)
Definition pickupGroupFilter (extensionsByNumber : gmap string (option string)) (callerNumber : option string)
    : option (option string → bool) :=
  if negb (existsb (λ entry, bool_decide (is_Some entry.2)) (map_to_list extensionsByNumber)) then None
  else
    let callerGroup := mjoin (extensionsByNumber !! default "" (trim <$> callerNumber)) in
    Some (λ ringing,
      let targetGroup := n ← ringing; mjoin (extensionsByNumber !! n) in
      match targetGroup with
      | None => true
      | Some _ => bool_decide (targetGroup = callerGroup)
      end).

Definition pickup (leg : Leg) (kind : PickupKind) (asked : string) : M CallControlResult :=
  tearing ← reads (λ s, leg_isTearingDown s leg);
  let extension := trim asked in
  if (tearing : bool) then mret (refuse leg_tearing_down)
  else if (match kind with pickup_directed => bool_decide (extension = "") | pickup_group => false end)
  then mret (refuse extension_required)
  else
    candidates ← await (QRinging leg extension) a_ringing;
    found ← reads (λ s, find_first (λ c, negb (leg_isTearingDown s (ringingLeg c)) &&
                                          negb (leg_isTearingDown s (callerLeg c))) candidates);
    match (found : option PickupCandidate) with
    | None => mret (refuse nothing_ringing)
    | Some c =>
        let caller := callerLeg c in
        _ ← leg_do caller OpDetach;
        _ ← markHangup (ringingLeg c) PICKED_OFF;
        _ ← hangupQuietly (leg_ari (ringingLeg c)) PICKED_OFF;
        bridge ← mint;
        name ← reads (λ s, "pickup-" +:+ callId (snap s caller));
        connected ← attempting (
          _ ← media (MAnswer (leg_ari leg));
          _ ← media (MCreateBridge bridge name);
          media (MAddToBridge bridge [leg_ari leg; leg_ari caller]));
        match (connected : result string unit) with
        | Throw _ => mret (refuse not_connected)
        | Ok _ =>
            _ ← setBridge leg (Some bridge);
            _ ← moveTo leg exchanging_media;
            _ ← setBridge caller (Some bridge);
            _ ← moveTo caller exchanging_media;
            _ ← setBridgePeer leg (Some (leg_channelId caller));
            _ ← setBridgePeer caller (Some (leg_channelId leg));
            dialed ← reads (λ s, destinationNumber (profile (snap s (ringingLeg c))));
            _ ← publishQuietly leg (EvPickedUp (leg_channelId caller) kind
                  (if bool_decide (extension = "") then dialed else extension) (leg_channelId (ringingLeg c)));
            _ ← publishQuietly leg (EvBridged (Some (leg_channelId caller)) bridge);
            mret ok
        end
    end.

(** *** Recording *)
Definition recorded_not (r : Reason) : RecordingOutcome :=
  {| ro_result := refuse r; ro_recordingId := None; ro_objectKey := None |}.

(** [Math.ceil(ms / 1000)] *)
Definition ceil_seconds (ms : Z) : Z := (- (- ms / 1000))%Z.

Definition startRecording (leg : Leg) (request : StartRecordingRequest) : M RecordingOutcome :=
  refusal ← refuseIfUnusable leg;
  already ← reads (λ s, bool_decide (is_Some (recordings s !! leg_ari leg)));
  match (refusal : option Reason) with
  | Some r => mret (recorded_not r)
  | None =>
      if negb (Bridge.supportsRecording bridgeMode) then mret (recorded_not cannot_record)
      else if (already : bool) then mret (recorded_not already_recording)
      else
        id ← mint;
        let format := default (recordingFormat set) (rec_format request) in
        key ← reads (λ s, organizationId (snap s leg) +:+ "/" +:+ callId (snap s leg) +:+ "/" +:+ id +:+ "." +:+ format);
        tap ← mint;
        tapped ← attempting (media (MSnoop (leg_ari leg) tap (application set)));
        match (tapped : result string unit) with
        | Throw _ => mret (recorded_not no_tap)
        | Ok _ =>
            entered ← await (QEntered tap (snoopTimeoutMs set)) (λ a, Ok (a_entered a));
            if negb entered then
              _ ← hangupQuietly tap NORMAL_TEMPORARY_FAILURE;
              mret (recorded_not tap_lost)
            else
              started ← attempting (media (MRecord tap id format (ceil_seconds <$> maxDurationMs request)
                                             (ceil_seconds <$> silenceStopMs request) (beep request)));
              match (started : result string unit) with
              | Throw _ =>
                  _ ← hangupQuietly tap NORMAL_TEMPORARY_FAILURE;
                  mret (recorded_not not_recorded)
              | Ok _ =>
                  now ← now_;
                  _ ← writes (set_recordings (insert (leg_ari leg)
                        {| recordingId := id; objectKey := key; snoopChannelId := tap; session_format := format;
                           session_startedAtMs := now |}));
                  _ ← publishQuietly leg (EvRecordStarted id key);
                  mret {| ro_result := ok; ro_recordingId := Some id; ro_objectKey := Some key |}
              end
        end
  end.

Definition stopRecording (leg : Leg) : M CallControlResult :=
  session ← reads (λ s, recordings s !! leg_ari leg);
  match (session : option RecordingSession) with
  | None => mret (refuse not_recording)
  | Some session =>
      _ ← writes (set_recordings (delete (leg_ari leg)));
      stopped ← attempting (media (MStopRecording (recordingId session)));
      (* a stop that is refused waits no longer *)
      let timeoutMs := match (stopped : result string unit) with Ok _ => recordingStopTimeoutMs set | Throw _ => 0%Z end in
      outcome ← await (QFinished (recordingId session) timeoutMs) (λ a, Ok (a_finished a));
      _ ← hangupQuietly (snoopChannelId session) NORMAL_CLEARING;
      now ← now_;
      let durationMs := if (0 <? outcome.1)%Z then outcome.1 else Z.max 0 (now - session_startedAtMs session) in
      _ ← publishQuietly leg (EvRecordStopped (recordingId session) (objectKey session) durationMs outcome.2);
      mret ok
  end.

(** *** Teardown *)
Definition onLegEnded (channel : string) : M unit :=
  leg ← reads (λ s, legFor s channel);
  recording ← reads (λ s, bool_decide (is_Some (recordings s !! channel)));
  _ ← match (leg : option Leg), (recording : bool) with
      | Some leg, true => _ ← awaiting (stopRecording leg); mret tt
      | _, _ => mret tt
      end;
  pending ← reads (λ s, hasPendingTransfer s channel);
  _ ← match (leg : option Leg), (pending : bool) with
      | Some leg, true =>
          completed ← awaiting (completeTransfer leg);
          whenever (negb (is_ok completed)) (dropConsultation channel)
      | _, _ => mret tt
      end;
  _ ← writes (set_holds (delete channel));
  entry ← reads (λ s, ParkRegistry.ParkRegistry.forChannel (parks s) channel);
  match (entry : option ParkedCall) with
  | None => mret tt
  | Some entry =>
      _ ← awaiting $ on_parks (ParkRegistry.ParkRegistry.release channel);
      _ ← on_parks (ParkRegistry.ParkRegistry.forgetEnded channel);
      _ ← cancelParkTimeout channel;
      _ ← transitionPark channel Park.Park.abandoned;
      _ ← forget_park channel;
      match (leg : option Leg) with
      | Some leg => publish_unparked leg entry Park.Park.end_abandoned None
      | None => mret tt
      end
  end.

(** Every operation is dropped; a drain has dropped the cancel keys before. *)
Definition clear (s : Control) : Control :=
  set_holds (λ _, ∅) (set_recordings (λ _, ∅) (set_parkStates (λ _, ∅) (set_timers ∅ ∅
    (set_consultations ∅ (transferStates s) ∅ ∅ s)))).

(** The timeout of a lot: the call goes back to whoever parked it. *)
Definition returnParkedCall (entry : ParkedCall) : M unit :=
  let channel := channel_of entry in
  _ ← writes (λ s, set_timers (delete channel (parkTimers s)) (timers s) s);
  claimed ← awaiting $ on_parks (ParkRegistry.ParkRegistry.claim (lot_of entry) (ParkRegistry.ParkRegistry.slot entry)
                        (Some (org_of entry)));
  match (claimed : ParkRegistry.ParkRegistry.ParkClaimResult) with
  | ParkRegistry.ParkRegistry.Claimed claimed =>
      found ← reads (λ s, match legFor s channel with
                          | Some l => if leg_isTearingDown s l then None else Some l
                          | None => None
                          end);
      match (found : option Leg), ParkRegistry.ParkRegistry.parkedByNumber entry with
      | None, _ => forget_park channel
      | Some _, None | Some _, Some "" =>
          restored ← awaiting $ on_parks (ParkRegistry.ParkRegistry.restore claimed);
          whenever restored (armParkTimeout claimed)
      | Some leg, Some number =>
          _ ← transitionPark channel Park.Park.timed_out;
          _ ← forget_park channel;
          _ ← leg_do leg (OpRemoveFlag flag_park);
          _ ← moveTo leg routing;
          _ ← publish_unparked leg entry Park.Park.end_timeout None;
          _ ← awaiting (routeTransferee leg number (transferContext set));
          mret tt
      end
  | _ => mret tt
  end.

(** ** The instance as a whole

    What starts a method: a verb or a feature code, the media server's end of a leg, a
    request of another instance, a timer, a watcher's signal, the heartbeat of the
    parks, a drain; and what the rest of the engine does to the legs. *)
Inductive Op :=
| OHold (leg : Leg) (musicOnHold : option string) (soft : bool)
| OUnhold (leg : Leg)
| OPark (leg : Leg) (request : ParkRequest)
| OUnpark (leg : Leg) (lot orbit : option string)
| OHandoff (request : ParkHandoffRequest)
| OTransfer (leg : Leg) (request : TransferRequest)
| OCompleteTransfer (leg : Leg)
| OCancelTransfer (leg : Leg)
| OPickup (leg : Leg) (kind : PickupKind) (extension : string)
| OStartRecording (leg : Leg) (request : StartRecordingRequest)
| OStopRecording (leg : Leg)
| OLegEnded (channel : string)
| OTimer (timer : nat)
| OWatcher (watcher : nat)
| OHeartbeat
| ODrain
| OEngine (step : EngineStep).

Inductive Reply :=
| RControl (r : CallControlResult)
| RPark (r : ParkOutcome)
| RHandoff (r : ParkHandoffResponse)
| RRecording (r : RecordingOutcome)
| RVoid.

Definition body (op : Op) : M Reply :=
  match op with
  | OHold leg moh soft => r ← hold leg moh soft; mret (RControl r)
  | OUnhold leg => r ← unhold leg; mret (RControl r)
  | OPark leg request => r ← park leg request; mret (RPark r)
  | OUnpark leg lot orbit => r ← unpark leg lot orbit; mret (RControl r)
  | OHandoff request => r ← acceptParkHandoff request; mret (RHandoff r)
  | OTransfer leg request => r ← transfer leg request; mret (RControl r)
  | OCompleteTransfer leg => r ← completeTransfer leg; mret (RControl r)
  | OCancelTransfer leg => r ← cancelTransfer leg; mret (RControl r)
  | OPickup leg kind extension => r ← pickup leg kind extension; mret (RControl r)
  | OStartRecording leg request => r ← startRecording leg request; mret (RRecording r)
  | OStopRecording leg => r ← stopRecording leg; mret (RControl r)
  | OLegEnded channel => _ ← onLegEnded channel; mret RVoid
  | OTimer n =>
      entry ← reads (λ s, timers s !! n);
      match (entry : option ParkedCall) with
      | None => mret RVoid
      | Some entry =>
          _ ← writes (λ s, set_timers (parkTimers s) (delete n (timers s)) s);
          _ ← returnParkedCall entry;
          mret RVoid
      end
  | OWatcher n =>
      watched ← reads (λ s, watchers s !! n);
      match (watched : option (string * string)) with
      | None => mret RVoid
      | Some (_, transferor) => _ ← abandonConsultation transferor; mret RVoid
      end
  | OHeartbeat => _ ← on_parks ParkRegistry.ParkRegistry.heartbeat; mret RVoid
  | ODrain => _ ← writes clear; mret RVoid
  | OEngine step => _ ← writes (apply_engine step); mret RVoid
  end.
End CallControl.

Arguments body _ _ _ _ _ _ : simpl never.

(** ** Instances that share a bucket *)
Section Cluster.
Context {B : Type} `{!KvBucket B ParkRegistry.ParkRegistry.ParkClaim}.

(** The bucket answers the claims, the schedule everything else. *)
Definition serve (b : B) (q : Query) (f : Claims.fault * Answer) : B * Answer :=
  match q with
  | QClaims q =>
      let '(b', a) := Claims.serve b q f.1 in
      (b', {| a_claims := a; a_done := a_done f.2; a_exists := a_exists f.2; a_bridgings := a_bridgings f.2;
              a_route := a_route f.2; a_ringing := a_ringing f.2; a_lot := a_lot f.2;
              a_handoff := a_handoff f.2; a_entered := a_entered f.2; a_finished := a_finished f.2 |})
  | _ => (b, f.2)
  end.
End Cluster.
End CallControl.
