(* ===== verification/CallControlFacts.v ===== *)
(** * What call control keeps

    In every interleaving of the methods of CallControl.v, on any number of instances
    that crash and share a bucket, and whatever the media server, the walks and the
    broker answer, a consultation is watched and its key is armed for no longer than it
    lasts. [keeps] is the logic of Async.v for an invariant of one instance. *)

From S2P Require Import Prelude HangupCauses ChannelState CallState Bridge Kv Async Claims CallControl.
From S2P Require Channel Park Transfer ParkRegistry TimeConditions.

Module CallControlFacts.
Import Channel.Channel CallControl.

(** ** Methods that keep an invariant

    The invariant [I] of one instance, wherever its methods wait. *)
Section Keeps.
Context (I : Control → Prop).

Abbreviation history := (list (string * Z)).
Definition known : history → history → Prop := subseteq.
Definition shown_at (w : history) (i : string) (now : Z) : Prop := (i, now) ∈ w.

Definition keeps {X} (m : M X) : Prop :=
  ∀ i w, Async.ok known shown_at (λ _ _ s, I s) (λ _ _ _, True) (λ _ _ _, True) i w m (λ _ _, True).

#[global] Instance known_preorder : PreOrder known.
Proof. split; unfold known; [intros x|intros x y z]; set_solver. Qed.

Lemma keeps_ok {X} i w (m : M X) post :
  keeps m → (∀ w' r, post w' r) →
  Async.ok known shown_at (λ _ _ s, I s) (λ _ _ _, True) (λ _ _ _, True) i w m post.
Proof. intros H Hp. eapply ok_weaken; [exact _|apply H|]. intros w' r _ _. apply Hp. Qed.

Lemma keeps_after {X Y} (m : prog Control Query Answer X) (g : X → prog Control Query Answer Y) i w :
  (∀ i w, Async.ok known shown_at (λ _ _ s, I s) (λ _ _ _, True) (λ _ _ _, True) i w m (λ _ _, True)) →
  (∀ i w x, Async.ok known shown_at (λ _ _ s, I s) (λ _ _ _, True) (λ _ _ _, True) i w (g x) (λ _ _, True)) →
  Async.ok known shown_at (λ _ _ s, I s) (λ _ _ _, True) (λ _ _ _, True) i w (prog_bind g m) (λ _ _, True).
Proof.
  intros Hm Hg. apply (ok_bind known). eapply ok_weaken; [exact _|apply Hm|]. intros w' x _ _. apply Hg.
Qed.

Lemma keep_ret {X} (x : X) : keeps (mret x).
Proof. done. Qed.

Lemma keeps_throw {X} e : keeps (throw (X := X) e).
Proof. done. Qed.

Lemma keep_bind {X Y} (m : M X) (k : X → M Y) :
  keeps m → (∀ x, keeps (k x)) → keeps (m ≫= k).
Proof.
  intros Hm Hk i w. unfold mbind, M_bind. apply keeps_after; [apply Hm|]. intros i' w' [x|e]; [apply Hk|done].
Qed.

Lemma keeps_attempting {X} (m : M X) : keeps m → keeps (attempting m).
Proof. intros Hm i w. unfold attempting. apply keeps_after; [apply Hm|done]. Qed.

Lemma keeps_awaiting {X} (m : M X) : keeps m → keeps (awaiting m).
Proof. intros Hm i w. unfold awaiting. apply keeps_after; [apply Hm|done]. Qed.

Lemma keeps_reads {X} (f : Control → X) : keeps (reads f).
Proof. intros i w w' now s _ _ Hs. by split. Qed.

Lemma keeps_now : keeps now_.
Proof. intros i w w' now s _ _ Hs. by split. Qed.

Lemma keeps_writes f : (∀ s, I s → I (f s)) → keeps (writes f).
Proof. intros Hf i w w' now s _ _ Hs. split; [by apply Hf|done]. Qed.

Lemma keep_await {X} q (f : Answer → result string X) : keeps (await q f).
Proof. by intros i w. Qed.

Lemma keeps_on_parks {X} (p : prog _ _ _ X) :
  (∀ r s, I s → I (set_parks r s)) → keeps (on_parks p).
Proof.
  intros Hr. induction p as [x|f IH|q k IH] using prog_ind'; intros i w; simpl.
  - done.
  - intros w' now s _ _ Hs. specialize (IH now (parks s)). destruct (f now (parks s)) as [r p'].
    split; [by apply Hr|apply IH].
  - split; [done|]. intros w' a _ _. apply IH.
Qed.

Lemma keeps_mint newId : (∀ n s, I s → minted s < n → I (set_minted n s)) → keeps (mint newId).
Proof. intros Hn i w w' now s _ _ Hs. split; [apply Hn; [done|lia]|done]. Qed.
End Keeps.

(** ** Consultations in order *)
Record in_order (s : Control) : Prop := {
  (* a key is armed on a leg only while the leg has a consultation *)
  io_keys : ∀ c d, cancelKeys s !! c = Some d → is_Some (consultations s !! c);
  (* the end of the transferee always finds the consultation *)
  io_watched : ∀ c k, consultations s !! c = Some k →
    transferorMediaChannelId k = c ∧ watchers s !! cons_ref k = Some (transfereeMediaChannelId k, c);
  io_minted : ∀ n x, watchers s !! n = Some x → n < minted s }.

Lemma in_order_ext s s' :
  consultations s' = consultations s → watchers s' = watchers s → cancelKeys s' = cancelKeys s →
  minted s ≤ minted s' → in_order s → in_order s'.
Proof.
  intros Hc Hw Hk Hm [H1 H2 H3]. split; rewrite ?Hc, ?Hw, ?Hk; [done|done|].
  intros n x Hn. specialize (H3 n x Hn). lia.
Qed.

Lemma in_order_fresh i : in_order (fresh_control i).
Proof. split; intros ?? H; cbn in H; by rewrite lookup_empty in H. Qed.

Lemma in_order_open keys leg transferee destination context request now s :
  in_order s → in_order (open_consultation keys leg transferee destination context request now s).
Proof.
  intros [H1 H2 H3]. split; simpl.
  - intros c d Hd. destruct (decide (c = leg_ari leg)) as [->|Hne]; [by rewrite lookup_insert_eq; eauto|].
    rewrite lookup_insert_ne by done. apply (H1 c d). destruct (req_cancelKey request), keys; try done.
    by rewrite lookup_insert_ne in Hd by done.
  - intros c k. destruct (decide (c = leg_ari leg)) as [->|Hne].
    + rewrite lookup_insert_eq. intros [= <-]. simpl. by rewrite lookup_insert_eq.
    + rewrite lookup_insert_ne by done. intros Hk. destruct (H2 c k Hk) as [Ht Hw]. split; [done|].
      pose proof (H3 _ _ Hw). rewrite lookup_insert_ne by lia. done.
  - intros n x. destruct (decide (n = minted s)) as [->|Hne]; [lia|].
    rewrite lookup_insert_ne by done. intros Hn. specialize (H3 n x Hn). lia.
Qed.

Lemma in_order_close channel s : in_order s → in_order (close_consultation channel s).
Proof.
  intros [H1 H2 H3]. unfold close_consultation. destruct (consultations s !! channel) as [k|] eqn:Hk; [|done].
  destruct (H2 _ _ Hk) as [Hs Hw]. split; simpl.
  - intros c d Hd. apply lookup_delete_Some in Hd as [Hne Hd]. rewrite lookup_delete_ne by done. by eapply H1.
  - intros c k' Hk'. apply lookup_delete_Some in Hk' as [Hne Hk']. destruct (H2 _ _ Hk') as [Hs' Hw'].
    split; [done|]. rewrite lookup_delete_ne; [done|]. intros He. rewrite He, Hw' in Hw. by injection Hw as _ <-.
  - intros n x Hn. apply lookup_delete_Some in Hn as [_ Hn]. by eapply H3.
Qed.

Lemma in_order_clear s : in_order s → in_order (clear s).
Proof. intros _. split; intros ?? H; cbn in H; by rewrite lookup_empty in H. Qed.

Lemma in_order_engine step s : in_order s → in_order (apply_engine step s).
Proof. destruct step; by apply in_order_ext. Qed.

(** Every method keeps it. *)
Create HintDb keeps discriminated.

Ltac keeps_tac :=
  repeat first
    [ solve [auto 2 with keeps nocore] | apply keep_ret | apply keeps_throw | apply keeps_reads | apply keeps_now | apply keep_await
    | apply keep_bind; [|intros ?] | apply keeps_attempting | apply keeps_awaiting
    | apply keeps_on_parks; intros ? ?; by apply in_order_ext
    | apply keeps_mint; intros ?? ? ?; eapply in_order_ext; [..|eassumption]; simpl; (done || lia)
    | apply keeps_writes; intros ? ?; by (first [apply in_order_close | apply in_order_clear | apply in_order_open
        | apply in_order_engine])
    | apply keeps_writes; intros ? ?; eapply in_order_ext; [..|eassumption]; simpl; (done || lia)
    | progress unfold quietly, media, hangupQuietly, publishQuietly, moveTo, moveCallStateTo, setBridge,
        setBridgePeer, markHangup, leg_do, assert_park, assert_transfer, whenever, refuseIfUnusable
    | case_match ].

Section InOrder.
Context (newId : nat → string) (set : CallControlSettings) (bridgeMode : Bridge.BridgeMode).
Context (has_parkHandoff has_consultationKeys : bool).

Abbreviation keeps_order := (keeps in_order).

Lemma keeps_hold leg moh soft : keeps_order (hold leg moh soft).
Proof. unfold hold. keeps_tac. Qed.

Lemma keeps_unhold leg : keeps_order (unhold leg).
Proof. unfold unhold. keeps_tac. Qed.
#[local] Hint Resolve keeps_hold keeps_unhold : keeps.

Lemma keeps_transitionPark channel to : keeps_order (transitionPark channel to).
Proof. unfold transitionPark. keeps_tac. Qed.

Lemma keeps_cancelParkTimeout channel : keeps_order (cancelParkTimeout channel).
Proof. unfold cancelParkTimeout. keeps_tac. Qed.

Lemma keeps_armParkTimeout entry : keeps_order (armParkTimeout entry).
Proof. unfold armParkTimeout. keeps_tac. Qed.

Lemma keeps_set_state_of c to : keeps_order (set_state_of c to).
Proof. unfold set_state_of, mark_state. keeps_tac. Qed.
#[local] Hint Resolve keeps_transitionPark keeps_cancelParkTimeout keeps_armParkTimeout keeps_set_state_of : keeps.

Lemma keeps_park leg request : keeps_order (park set leg request).
Proof. unfold park, moveIntoLot. keeps_tac. Qed.

Lemma keeps_publish_unparked leg entry reason retriever :
  keeps_order (publish_unparked leg entry reason retriever).
Proof. unfold publish_unparked. keeps_tac. Qed.

Lemma keeps_put_back entry : keeps_order (put_back entry).
Proof. unfold put_back. keeps_tac. Qed.
#[local] Hint Resolve keeps_publish_unparked keeps_put_back : keeps.

Lemma keeps_unpark leg lot orbit : keeps_order (unpark newId has_parkHandoff leg lot orbit).
Proof.
  unfold unpark, unparkFromOwner, unparkFromDeadOwner, retrieve, connect, adoptHandedOffCall, leave_lot, forget_park.
  keeps_tac.
Qed.

Lemma keeps_acceptParkHandoff request : keeps_order (acceptParkHandoff request).
Proof.
  unfold acceptParkHandoff, hand_over, connect, deny, leave_lot, forget_park.
  keeps_tac.
Qed.

Lemma keeps_dropConsultation channel : keeps_order (dropConsultation channel).
Proof. unfold dropConsultation. keeps_tac. Qed.
#[local] Hint Resolve keeps_dropConsultation : keeps.

Lemma keeps_abandonConsultation channel : keeps_order (abandonConsultation channel).
Proof.
  unfold abandonConsultation. keeps_tac.
Qed.

Lemma keeps_route leg request hook : keeps_order hook → keeps_order (route leg request hook).
Proof.
  intros Hh. unfold route. assert (∀ n, keeps_order (bridgings leg hook n)) as Hb.
  { induction n as [|n IH]; cbn [bridgings]; keeps_tac; done. }
  keeps_tac.
Qed.

Lemma keeps_routeTransferee leg destination context : keeps_order (routeTransferee leg destination context).
Proof.
  unfold routeTransferee, beforeBridge. apply keep_bind; [apply keeps_reads|]. intros. apply keeps_route. keeps_tac.
Qed.
#[local] Hint Resolve keep_ret keeps_route keeps_routeTransferee : keeps.

Lemma keeps_transfer leg request : keeps_order (transfer set has_consultationKeys leg request).
Proof.
  unfold transfer, completeBlindTransfer, consult, settle_consult, transferred.
  keeps_tac.
Qed.

Lemma keeps_rescueTransferee transferor transferee c : keeps_order (rescueTransferee transferor transferee c).
Proof. unfold rescueTransferee, transferred. keeps_tac. Qed.
#[local] Hint Resolve keeps_rescueTransferee : keeps.

Lemma keeps_completeTransfer leg : keeps_order (completeTransfer leg).
Proof.
  unfold completeTransfer, join_target, transferred.
  keeps_tac.
Qed.
#[local] Hint Resolve keeps_completeTransfer : keeps.

Lemma keeps_cancelTransfer leg : keeps_order (cancelTransfer leg).
Proof.
  unfold cancelTransfer.
  keeps_tac.
Qed.

Lemma keeps_pickup leg kind extension : keeps_order (pickup newId leg kind extension).
Proof. unfold pickup. keeps_tac. Qed.

Lemma keeps_startRecording leg request : keeps_order (startRecording newId set bridgeMode leg request).
Proof. unfold startRecording. keeps_tac. Qed.

Lemma keeps_stopRecording leg : keeps_order (stopRecording set leg).
Proof. unfold stopRecording. keeps_tac. Qed.
#[local] Hint Resolve keeps_stopRecording : keeps.

Lemma keeps_onLegEnded channel : keeps_order (onLegEnded set channel).
Proof.
  unfold onLegEnded, forget_park.
  keeps_tac.
Qed.

Lemma keeps_returnParkedCall entry : keeps_order (returnParkedCall set entry).
Proof.
  unfold returnParkedCall, forget_park.
  keeps_tac.
Qed.

#[local] Hint Resolve keeps_park keeps_unpark keeps_acceptParkHandoff keeps_transfer keeps_cancelTransfer
  keeps_pickup keeps_startRecording keeps_onLegEnded keeps_returnParkedCall keeps_abandonConsultation : keeps.

Lemma keeps_body op : keeps_order (body newId set bridgeMode has_parkHandoff has_consultationKeys op).
Proof. unfold body. destruct op; keeps_tac. Qed.

(** *** Any number of instances *)
Context {B : Type} `{!KvBucket B ParkRegistry.ParkRegistry.ParkClaim}.

Abbreviation bodies := (body newId set bridgeMode has_parkHandoff has_consultationKeys).
Definition cluster_run := run (B := B) serve bodies fresh_control.

(** C17. A transfer under consultation is never forgotten: on any number of instances
    that share the claims, whatever is asked of them, whatever the media server, the
    walks, the broker and the other instances answer, and in whatever order methods
    interleave, timers fire and instances crash, every consultation is watched, so
    that the end of the party on hold abandons it, and a cancel key is armed on a leg
    only while the leg has a consultation, so that no digit is swallowed after it. *)
Theorem consultations_in_order (b : B) (ls : list label) sys i s :
  cluster_run (boot b) ls = Some sys → states sys !! i = Some s →
  (∀ c d, cancelKeys s !! c = Some d → is_Some (consultations s !! c)) ∧
  (∀ c k, consultations s !! c = Some k →
     transferorMediaChannelId k = c ∧ watchers s !! cons_ref k = Some (transfereeMediaChannelId k, c)).
Proof.
  intros Hr Hi.
  apply (run_inv serve bodies fresh_control known shown_at (λ _ _ s, in_order s) (λ _ _, True)
    (λ _ _ _, True) (λ _ _ _, True) (λ _ _ _ _ _ H, H) (λ _ _ _ _ _ H, H) (λ _ _ _ _, True)
    (λ _ _ _ _ _ _ H, H)) with (w := []) in Hr as (w & _ & Hv).
  - destruct (valid_states _ _ _ _ _ _ _ _ _ Hv i s Hi) as [H1 H2 _]. by split.
  - intros w b0 i0 q f b' a Hs _ _. exists w. by split_and!.
  - intros w b0 i0 now _. exists ((i0, now) :: w). unfold known, shown_at. set_solver.
  - intros w i0. apply in_order_fresh.
  - intros w i0 op. apply keeps_body.
  - apply boot_valid; [done|]. intros i0 now. apply not_elem_of_nil.
Qed.
End InOrder.
End CallControlFacts.
