(* ===== verification/HandoverFacts.v ===== *)
(** * Hold and transfer, undisturbed

    What a hold and its end, a completed transfer and one that does not connect leave
    behind when no other method runs between their waits, on a media server that
    accepts what it is asked. [leaves] says what a method tells the media server and the
    broker, in order, what it makes of a state and what it answers, whatever the server's
    own state. *)

From S2P Require Import Prelude HangupCauses ChannelState CallState Bridge Kv Async Claims CallControl CallControlFacts.
From S2P Require Channel Park Transfer ParkRegistry.

Module HandoverFacts.
Import Channel.Channel CallControl CallControlFacts.

(** ** Runs of methods *)
Section Exec.
Context {B : Type} (serve : B → Query → B * Answer) (now : Z).

Abbreviation runs := (exec serve now).

Lemma runs_then {X Y} (m : M X) (k : X → M Y) b s :
  runs (m ≫= k) b s =
  match runs m b s with
  | (b', s', Ok x) => runs (k x) b' s'
  | (b', s', Throw e) => (b', s', Throw e)
  end.
Proof.
  unfold mbind, M_bind. pose proof (exec_bind serve now m
    (λ r, match r with Ok x => k x | Throw e => Done (Throw e) end) b s) as H.
  unfold mbind, prog_mbind in H. rewrite H. by destruct (runs m b s) as [[b' s'] [x|e]].
Qed.

Lemma runs_attempting {X} (m : M X) b s :
  runs (attempting m) b s = let '(b', s', r) := runs m b s in (b', s', Ok r).
Proof. apply (exec_bind serve now m (λ r, Done (Ok r)) b s). Qed.

Lemma runs_awaiting {X} (m : M X) b s :
  runs (awaiting m) b s = let '(b', s', r) := runs m b s in ((serve b' QTurn).1, s', r).
Proof.
  unfold awaiting. pose proof (exec_bind serve now m (λ r, Ask QTurn (λ _, Done r)) b s) as H.
  unfold mbind, prog_mbind in H. rewrite H. destruct (runs m b s) as [[b' s'] r]. simpl.
  by destruct (serve b' QTurn).
Qed.

Lemma runs_ret {X} (x : X) b s : runs (mret x : M X) b s = (b, s, Ok x).
Proof. done. Qed.

Lemma runs_reads {X} (f : Control → X) b s : runs (reads f) b s = (b, s, Ok (f s)).
Proof. done. Qed.

Lemma runs_writes f b s : runs (writes f) b s = (b, f s, Ok tt).
Proof. done. Qed.

Lemma runs_now b s : runs now_ b s = (b, s, Ok now).
Proof. done. Qed.

Lemma runs_await {X} q (f : Answer → result string X) b s :
  runs (await q f) b s = ((serve b q).1, s, f (serve b q).2).
Proof. unfold await. simpl. by destruct (serve b q). Qed.

Lemma runs_quietly m b s :
  runs (quietly m) b s = let '(b', s', _) := runs m b s in (b', s', Ok tt).
Proof. unfold quietly. rewrite runs_then, runs_attempting. by destruct (runs m b s) as [[b' s'] r]. Qed.

(** The media server accepts what it is asked. *)
Definition accepts : Prop := ∀ b m, a_done (serve b (QMedia m)).2 = Ok tt.

Lemma runs_media m b s : accepts → runs (media m) b s = ((serve b (QMedia m)).1, s, Ok tt).
Proof. intros H. unfold media. by rewrite runs_await, H. Qed.
End Exec.

Section Runs.
Context {B : Type} (serve : B → Query → B * Answer) (now : Z).

(** The server, and what it was asked so far. *)
Definition hears (w : B * list Query) (q : Query) : B * list Query * Answer :=
  let '(b, a) := serve w.1 q in (b, w.2 ++ [q], a).

Abbreviation runs := (exec hears now).

Lemma hears_accepts : accepts serve → accepts hears.
Proof. intros H [b l] m. unfold hears. simpl. specialize (H b m). by destruct (serve b (QMedia m)). Qed.

Lemma heard b l q : ∃ b', hears (b, l) q = (b', l ++ [q], (serve b q).2).
Proof. unfold hears. simpl. destruct (serve b q) as [b' a]. by exists b'. Qed.

(** What was done in the network: the calls of the media server and the events. *)
Definition outward (q : Query) : bool :=
  match q with QMedia _ | QPublish _ _ => true | _ => false end.

Definition deeds (qs : list Query) : list Query := filter outward qs.

(** A run is described by its deeds, what it leaves and what it answers. *)
Definition leaves {X} (m : M X) (s : Control) (ds : list Query) (s' : Control) (r : result string X) : Prop :=
  ∀ b l, ∃ b' l', runs m (b, l) s = ((b', l ++ l'), s', r) ∧ deeds l' = ds.

Lemma leaves_said {X} (m : M X) s ds ds' s' r : leaves m s ds s' r → ds = ds' → leaves m s ds' s' r.
Proof. by intros H <-. Qed.

Lemma leaves_still {X} (m : M X) s s' r :
  (∀ b l, runs m (b, l) s = ((b, l), s', r)) → leaves m s [] s' r.
Proof. intros H b l. exists b, []. by rewrite app_nil_r. Qed.

Lemma leaves_ret {X} (x : X) s : leaves (mret x) s [] s (Ok x).
Proof. by apply leaves_still. Qed.

Lemma leaves_bind {X Y} (m : M X) (k : X → M Y) s ds1 s1 x ds2 s2 r :
  leaves m s ds1 s1 (Ok x) → leaves (k x) s1 ds2 s2 r → leaves (m ≫= k) s (ds1 ++ ds2) s2 r.
Proof.
  intros Hm Hk b l. destruct (Hm b l) as (b1 & l1 & H1 & <-).
  destruct (Hk b1 (l ++ l1)) as (b2 & l2 & H2 & <-). exists b2, (l1 ++ l2).
  rewrite runs_then, H1, H2, app_assoc. split; [done|]. apply filter_app.
Qed.

Lemma leaves_reads {X} (f : Control → X) s : leaves (reads f) s [] s (Ok (f s)).
Proof. by apply leaves_still. Qed.

Lemma leaves_writes f s : leaves (writes f) s [] (f s) (Ok tt).
Proof. by apply leaves_still. Qed.

Lemma leaves_now s : leaves now_ s [] s (Ok now).
Proof. by apply leaves_still. Qed.

Lemma leaves_await {X} q (f : Answer → result string X) s r :
  (∀ b, f (serve b q).2 = r) → leaves (await q f) s (deeds [q]) s r.
Proof.
  intros H b l. destruct (heard b l q) as [b' Hb]. exists b', [q]. rewrite runs_await, Hb. simpl. by rewrite H.
Qed.

Lemma leaves_media m s : accepts serve → leaves (media m) s [QMedia m] s (Ok tt).
Proof. intros H. by apply (leaves_await (QMedia m)). Qed.

Lemma leaves_quietly m s ds s' r : leaves m s ds s' r → leaves (quietly m) s ds s' (Ok tt).
Proof. intros H b l. destruct (H b l) as (b' & l' & Hb & Hl). exists b', l'. by rewrite runs_quietly, Hb. Qed.

Lemma leaves_published leg e s : leaves (publishQuietly leg e) s [QPublish leg e] s (Ok tt).
Proof.
  intros b l. unfold publishQuietly. rewrite runs_quietly, runs_await.
  destruct (heard b l (QPublish leg e)) as [b' Hb]. exists b', [QPublish leg e]. by rewrite Hb.
Qed.

Lemma leaves_whenever (c : bool) m s ds :
  leaves m s ds s (Ok tt) → leaves (whenever c m) s (if c then ds else []) s (Ok tt).
Proof. intros H. destruct c; [done|apply leaves_ret]. Qed.

Lemma leaves_attempting {X} (m : M X) s ds s' r : leaves m s ds s' r → leaves (attempting m) s ds s' (Ok r).
Proof. intros H b l. destruct (H b l) as (b' & l' & Hb & Hl). exists b', l'. by rewrite runs_attempting, Hb. Qed.

Lemma leaves_turn s : leaves (await QTurn (λ _, Ok tt)) s [] s (Ok tt).
Proof. by apply (leaves_await QTurn). Qed.

Lemma leaves_awaiting {X} (m : M X) s ds s' r : leaves m s ds s' r → leaves (awaiting m) s ds s' r.
Proof.
  intros H b l. destruct (H b l) as (b1 & l1 & Hb & <-). rewrite runs_awaiting, Hb.
  destruct (heard b1 (l ++ l1) QTurn) as [b2 H2]. exists b2, (l1 ++ [QTurn]). rewrite H2. simpl.
  rewrite app_assoc. split; [done|]. unfold deeds. by rewrite filter_app, app_nil_r.
Qed.

(** ** Legs *)
Definition live (s : Control) (leg : Leg) : Prop := is_Some (legs s !! leg_ref leg).

Definition bridge_peer (s : Control) (leg : Leg) : option string :=
  variables (snap s leg) !! BRIDGE_PEER_VARIABLE.

Definition usable (s : Control) (leg : Leg) : Prop :=
  live s leg ∧ leg_isTearingDown s leg = false ∧ leg_isAnswered s leg = true.

Lemma leaves_usable leg s : usable s leg → leaves (refuseIfUnusable leg) s [] s (Ok None).
Proof. intros (_ & Ht & Ha). apply leaves_still. intros b l. unfold refuseIfUnusable. by rewrite runs_reads, Ht, Ha. Qed.

Lemma the_apply leg op s : live s leg → the (apply_leg leg op s) leg = channel_next (the s leg) op.
Proof. intros [a Ha]. unfold the, apply_leg. cbn. by rewrite lookup_alter, decide_True, Ha. Qed.

Lemma the_apply_other leg leg' op s :
  leg_ref leg ≠ leg_ref leg' → the (apply_leg leg op s) leg' = the s leg'.
Proof. intros Hne. unfold the, apply_leg. cbn. by rewrite lookup_alter_ne. Qed.

Lemma live_apply leg leg' op s : live (apply_leg leg op s) leg' ↔ live s leg'.
Proof. unfold live, apply_leg. cbn. by rewrite lookup_alter_is_Some. Qed.

(** What one call does to the fields that matter here. *)
Definition bridge_after (op : channel_op) (b : option string) : option string :=
  match op with OpSetBridge b' => b' | _ => b end.

Definition peer_after (op : channel_op) (p : option string) : option string :=
  match op with
  | OpSetVariable n v => if bool_decide (n = BRIDGE_PEER_VARIABLE) then Some v else p
  | OpClearVariable n => if bool_decide (n = BRIDGE_PEER_VARIABLE) then None else p
  | _ => p
  end.

Definition cause_after (op : channel_op) (c : option HangupCause) : option HangupCause :=
  match op, c with OpMarkHangup cause _ _, None => Some cause | _, _ => c end.

Definition callState_after (op : channel_op) (c : CallState.CallState) : CallState.CallState :=
  match op with
  | OpForceCallState n | OpTryCallStateTo n => if CallState.isValidCallStateTransition c n then n else c
  | _ => c
  end.

Definition held_after (op : channel_op) (h : bool) : bool :=
  match op with
  | OpAddFlag f => bool_decide (f = flag_hold) || h
  | OpRemoveFlag f => negb (bool_decide (f = flag_hold)) && h
  | _ => h
  end.

Lemma addFlag_kept a f :
  bridgeId (snapshotValue (addFlag a f)) = bridgeId (snapshotValue a) ∧
  hangupCause (snapshotValue (addFlag a f)) = hangupCause (snapshotValue a) ∧
  callState (snapshotValue (addFlag a f)) = callState (snapshotValue a) ∧
  variables (snapshotValue (addFlag a f)) = variables (snapshotValue a).
Proof. unfold addFlag. by case_match. Qed.

Ltac next_cases op :=
  channel_op_cases op; unfold markAnswered, Channel.Channel.markHangup; cbn [bridge_after cause_after callState_after];
  repeat case_match; try done;
  try match goal with |- context [addFlag ?a ?f] => destruct (addFlag_kept a f) as (E1 & E2 & E3 & E4) end.

Lemma next_bridge a op : bridgeId (snapshotValue (channel_next a op)) = bridge_after op (bridgeId (snapshotValue a)).
Proof. next_cases op; exact E1. Qed.

Lemma next_cause a op : hangupCause (snapshotValue (channel_next a op)) = cause_after op (hangupCause (snapshotValue a)).
Proof. next_cases op; try (etrans; [exact E2|]); simpl; by repeat case_match. Qed.

Lemma next_callState_after a op :
  callState (snapshotValue (channel_next a op)) = callState_after op (callState (snapshotValue a)).
Proof. next_cases op; exact E3. Qed.

Lemma next_peer a op :
  variables (snapshotValue (channel_next a op)) !! BRIDGE_PEER_VARIABLE =
  peer_after op (variables (snapshotValue a) !! BRIDGE_PEER_VARIABLE).
Proof.
  next_cases op; try (by etrans; [by apply (f_equal (λ m, m !! BRIDGE_PEER_VARIABLE)); exact E4|]); simpl.
  - by rewrite lookup_insert_ne.
  - case_bool_decide as Hn; [rewrite Hn; apply lookup_insert_eq|by apply lookup_insert_ne].
  - bool_simpl. case_bool_decide as Hn; [|done]. subst name. by apply eq_None_not_Some.
  - bool_simpl. case_bool_decide as Hn; [rewrite Hn; apply lookup_delete_eq|by apply lookup_delete_ne].
Qed.

(** ** Hold and its end *)
Definition held_of (s : Control) (leg : Leg) (soft : bool) : HeldLeg := {|
  held_mediaChannelId := leg_ari leg; held_bridgeId := leg_bridgeId s leg;
  held_peerMediaChannelId := leg_peerMediaChannelId s leg;
  held_peerLegId := leg_channelId <$> legFor s (default "" (leg_peerMediaChannelId s leg));
  signalled := negb soft; heldAtMs := now |}.

Definition after_hold (leg : Leg) (soft : bool) (s : Control) : Control :=
  apply_leg leg (OpTryCallStateTo CallState.held) (apply_leg leg (OpAddFlag flag_hold)
    (set_holds (insert (leg_ari leg) (held_of s leg soft)) s)).

Definition after_unhold (leg : Leg) (bridge : string) (s : Control) : Control :=
  apply_leg leg (OpTryTransitionTo exchanging_media) (apply_leg leg (OpTryCallStateTo CallState.active)
    (apply_leg leg (OpSetBridge (Some bridge)) (apply_leg leg (OpTryCallStateTo CallState.unheld)
      (apply_leg leg (OpRemoveFlag flag_hold) (set_holds (delete (leg_ari leg)) s))))).

(** What a hold and its end tell the media server and the far end. *)
Definition holding (leg : Leg) (bridge : string) (moh : option string) (soft : bool) : list Query :=
  [QMedia (MRemoveFromBridge bridge [leg_ari leg])] ++ (if soft then [] else [QMedia (MHold (leg_ari leg))]) ++
  [QMedia (MStartMusic (leg_ari leg) moh); QPublish leg (EvHeld moh)].

Definition unholding (leg : Leg) (bridge : string) (soft : bool) : list Query :=
  [QMedia (MStopMusic (leg_ari leg))] ++ (if soft then [] else [QMedia (MUnhold (leg_ari leg))]) ++
  [QPublish leg EvUnheld; QMedia (MAddToBridge bridge [leg_ari leg])].

Lemma leaves_hold leg moh soft bridge s :
  accepts serve → usable s leg → isHeld s (leg_ari leg) = false → leg_bridgeId s leg = Some bridge →
  leaves (hold leg moh soft) s (holding leg bridge moh soft) (after_hold leg soft s) (Ok ok).
Proof.
  intros Hm Hu Hh Hb. eapply leaves_said.
  { unfold hold. eapply leaves_bind; [by apply leaves_usable|]. cbv beta iota.
    eapply leaves_bind; [apply leaves_reads|]. cbv beta. rewrite Hh.
    eapply leaves_bind; [apply leaves_reads|]. eapply leaves_bind; [apply leaves_reads|]. cbv beta. rewrite Hb at 1.
    eapply leaves_bind; [by eapply leaves_attempting, leaves_media|].
    cbv beta iota. eapply leaves_bind.
    { eapply leaves_quietly, leaves_bind; [by apply leaves_whenever, leaves_media|by apply leaves_media]. }
    eapply leaves_bind; [apply leaves_now|]. eapply leaves_bind; [apply leaves_writes|].
    eapply leaves_bind; [apply leaves_writes|]. eapply leaves_bind; [apply leaves_writes|].
    eapply leaves_bind; [apply leaves_published|]. apply leaves_ret. }
  by destruct soft.
Qed.

Lemma leaves_unhold leg h bridge s :
  accepts serve → holds s !! leg_ari leg = Some h → held_bridgeId h = Some bridge →
  leaves (unhold leg) s (unholding leg bridge (negb (signalled h))) (after_unhold leg bridge s) (Ok ok).
Proof.
  intros Hm Hh Hb. eapply leaves_said.
  { unfold unhold. eapply leaves_bind; [apply leaves_reads|]. cbv beta. rewrite Hh.
    eapply leaves_bind; [apply leaves_writes|].
    eapply leaves_bind; [by eapply leaves_quietly, leaves_media|].
    eapply leaves_bind; [by eapply leaves_whenever, leaves_quietly, leaves_media|].
    eapply leaves_bind; [apply leaves_writes|]. eapply leaves_bind; [apply leaves_writes|].
    eapply leaves_bind; [apply leaves_published|]. rewrite Hb.
    eapply leaves_bind; [by eapply leaves_attempting, leaves_media|]. cbv beta iota.
    eapply leaves_bind; [apply leaves_writes|]. eapply leaves_bind; [apply leaves_writes|].
    eapply leaves_bind; [apply leaves_writes|]. apply leaves_ret. }
  by destruct (signalled h).
Qed.

(** A leg in conversation. *)
Record talking (s : Control) (leg : Leg) (bridge : string) : Prop := {
  ta_usable : usable s leg;
  ta_bridge : leg_bridgeId s leg = Some bridge;
  ta_state : state (snap s leg) = exchanging_media;
  ta_call : callState (snap s leg) = CallState.active;
  ta_flags : flag_hold ∉ flags (snap s leg) }.

Lemma filter_fresh {A} (P : A → Prop) `{∀ x, Decision (P x)} l x :
  (∀ y, y ∈ l → P y) → ¬ P x → filter P (l ++ [x]) = l.
Proof.
  intros Hl Hx. rewrite filter_app, filter_cons_False, filter_nil, app_nil_r by done.
  induction l as [|y l IH]; [done|]. rewrite filter_cons_True by (apply Hl; set_solver).
  f_equal. apply IH. set_solver.
Qed.

(** An aggregate by the four fields a hold moves. *)
Definition dressed (st : ChannelState) (cs : CallState.CallState) (fs : list ChannelFlag) (br : option string)
    (a : ChannelAggregate) : ChannelAggregate :=
  with_snapshot (λ s, set_state st (set_callState cs (set_flags fs (set_bridgeId br s)))) a.

Lemma dressed_self a :
  a = dressed (state (snapshotValue a)) (callState (snapshotValue a)) (flags (snapshotValue a))
        (bridgeId (snapshotValue a)) a.
Proof. by destruct a as [? []]. Qed.

Lemma dressed_state st cs fs br a n :
  channel_next (dressed st cs fs br a) (OpTryTransitionTo n) =
  dressed (if isValidChannelTransition st n then n else st) cs fs br a.
Proof. rewrite (next_transition _ n) by eauto. simpl. by case_match. Qed.

Lemma dressed_call st cs fs br a n :
  channel_next (dressed st cs fs br a) (OpTryCallStateTo n) =
  dressed st (if CallState.isValidCallStateTransition cs n then n else cs) fs br a.
Proof. rewrite (next_callState _ n) by eauto. simpl. by case_match. Qed.

Lemma dressed_bridge st cs fs br a b :
  channel_next (dressed st cs fs br a) (OpSetBridge b) = dressed st cs fs b a.
Proof. done. Qed.

Lemma dressed_add st cs fs br a f :
  f ∉ fs → channel_next (dressed st cs fs br a) (OpAddFlag f) = dressed st cs (fs ++ [f]) br a.
Proof.
  intros Hf. unfold channel_next. cbn [channel_apply]. unfold addFlag. simpl.
  by rewrite (proj2 (includes_false _ _) Hf).
Qed.

Lemma dressed_remove st cs fs br a f :
  f ∉ fs → channel_next (dressed st cs (fs ++ [f]) br a) (OpRemoveFlag f) = dressed st cs fs br a.
Proof.
  intros Hf. unfold channel_next. cbn [channel_apply]. unfold removeFlag. simpl.
  rewrite (proj2 (includes_spec _ _)) by set_solver. unfold dressed, with_snapshot, set_state, set_flags. simpl.
  rewrite filter_fresh; [done|by intros y Hy ->|by intros H].
Qed.

(** What the moves of a hold, of what [mid] does to a held leg and of its end come to. *)
Definition hold_and_back (bridge : string) (mid : list channel_op) : list channel_op :=
  [OpAddFlag flag_hold; OpTryCallStateTo CallState.held] ++ mid ++
  [OpRemoveFlag flag_hold; OpTryCallStateTo CallState.unheld; OpSetBridge (Some bridge);
   OpTryCallStateTo CallState.active; OpTryTransitionTo exchanging_media].

Lemma hold_and_back_same s leg bridge mid :
  mid = [] ∨ mid = [OpTryTransitionTo hibernating] →
  talking s leg bridge → channel_run (the s leg) (hold_and_back bridge mid) = the s leg.
Proof.
  intros Hmid [_ Hb Hs Hc Hf]. unfold leg_bridgeId, snap in *.
  rewrite (dressed_self (the s leg)) at 1. rewrite Hs, Hc, Hb. unfold channel_run, hold_and_back.
  etrans; [|symmetry; apply dressed_self]. rewrite Hs, Hc, Hb.
  destruct Hmid as [->| ->]; cbn [foldl app];
    by repeat first [rewrite dressed_add by done | rewrite dressed_remove by done | rewrite dressed_call
                    | rewrite dressed_state | rewrite dressed_bridge].
Qed.

(** The moves made one after the other. *)
Definition alters (n : nat) (ops : list channel_op) (m : gmap nat ChannelAggregate) : gmap nat ChannelAggregate :=
  foldl (λ m op, alter (λ a, channel_next a op) n m) m ops.

Lemma alters_run n ops m : alters n ops m = alter (λ a, channel_run a ops) n m.
Proof.
  revert m. induction ops as [|op ops IH]; intros m; cbn [alters foldl channel_run].
  - symmetry. by apply alter_id.
  - etrans; [apply IH|]. apply map_eq; intros k.
    destruct (decide (n = k)) as [->|Hne]; [|by rewrite !lookup_alter_ne].
    rewrite !lookup_alter_eq. by destruct (m !! k).
Qed.

Definition apply_all (leg : Leg) (ops : list channel_op) (s : Control) : Control :=
  foldl (λ s op, apply_leg leg op s) s ops.

Lemma apply_all_run leg ops s :
  apply_all leg ops s = set_legs (alter (λ a, channel_run a ops) (leg_ref leg) (legs s)) (registry s) s.
Proof.
  rewrite <- alters_run. revert s. induction ops as [|op ops IH]; intros s; cbn [apply_all foldl alters].
  - by destruct s.
  - etrans; [apply IH|]. done.
Qed.

Lemma apply_all_same leg ops s : channel_run (the s leg) ops = the s leg → apply_all leg ops s = s.
Proof.
  intros H. rewrite apply_all_run. unfold the in H.
  assert (alter (λ a, channel_run a ops) (leg_ref leg) (legs s) = legs s) as ->; [|by destruct s].
  apply alter_id. intros a Ha. by rewrite Ha in H.
Qed.

(** A held leg that is taken off hold is in no map. *)
Lemma off_hold s leg h ops :
  isHeld s (leg_ari leg) = false →
  set_holds (delete (leg_ari leg)) (apply_all leg ops (set_holds (insert (leg_ari leg) h) s)) = apply_all leg ops s.
Proof.
  intros Hh%bool_decide_eq_false%eq_None_not_Some. rewrite !apply_all_run. unfold set_holds, set_legs. cbn.
  by rewrite delete_insert_id.
Qed.

(** C20. A hold, and its end with nothing in between, on a media server that accepts what
    it is asked: the hold takes the leg out of its bridge, signals the far end unless it
    is a soft one, starts the music and publishes it; the end stops the music, signals
    the far end if the hold did, publishes it and puts the leg back into that bridge;
    nothing else is asked of the media server or published. In between the leg is held;
    at the end it, its flags, its states and the whole state are exactly as they were. *)
Theorem hold_then_unhold leg moh soft bridge s b :
  accepts serve → talking s leg bridge → isHeld s (leg_ari leg) = false →
  ∃ b1 l1 s1 b2 l2,
    runs (hold leg moh soft) (b, []) s = ((b1, l1), s1, Ok ok) ∧
    deeds l1 =
      [QMedia (MRemoveFromBridge bridge [leg_ari leg])] ++
      (if soft then [] else [QMedia (MHold (leg_ari leg))]) ++
      [QMedia (MStartMusic (leg_ari leg) moh); QPublish leg (EvHeld moh)] ∧
    isHeld s1 (leg_ari leg) = true ∧ callState (snap s1 leg) = CallState.held ∧
    runs (unhold leg) (b1, []) s1 = ((b2, l2), s, Ok ok) ∧
    deeds l2 =
      [QMedia (MStopMusic (leg_ari leg))] ++
      (if soft then [] else [QMedia (MUnhold (leg_ari leg))]) ++
      [QPublish leg EvUnheld; QMedia (MAddToBridge bridge [leg_ari leg])].
Proof.
  intros Hm Ht Hh.
  destruct (leaves_hold leg moh soft bridge s Hm (ta_usable _ _ _ Ht) Hh (ta_bridge _ _ _ Ht) b []) as (b1 & l1 & H1 & Hd1).
  destruct (leaves_unhold leg (held_of s leg soft) bridge (after_hold leg soft s) Hm) with (b := b1) (l := @nil Query)
    as (b2 & l2 & H2 & Hd2).
  { apply lookup_insert_eq. }
  { apply (ta_bridge _ _ _ Ht). }
  exists b1, l1, (after_hold leg soft s), b2, l2. split_and!; [done|done|..].
  - unfold isHeld. apply bool_decide_eq_true. simpl. by rewrite lookup_insert_eq.
  - unfold snap, after_hold.
    rewrite !the_apply by (rewrite ?live_apply; apply (ta_usable _ _ _ Ht)).
    rewrite next_callState_after, next_callState_after.
    change (the _ leg) with (the s leg). fold (snap s leg). by rewrite (ta_call _ _ _ Ht).
  - rewrite H2. f_equal. f_equal. etrans; [|exact (apply_all_same leg _ s (hold_and_back_same s leg bridge [] (or_introl eq_refl) Ht))].
    unfold after_unhold, after_hold, apply_all, hold_and_back. cbn [foldl app]. do 5 f_equal.
    by apply (off_hold s leg _ [OpAddFlag flag_hold; OpTryCallStateTo CallState.held]).
  - rewrite Hd2. by destruct soft.
Qed.

(** ** A consultation that does not connect *)

(** Every walk for [leg] ends in [status], whatever is asked of it. *)
Definition walks_end (leg : Leg) (status : RouteStatus) : Prop :=
  ∀ b, a_route (serve b (QRouteRest leg)).2 = Ok status.

Lemma leaves_rest leg {X} (f : Answer → result string X) s r :
  (∀ b, f (serve b (QRouteRest leg)).2 = r) → leaves (await (QRouteRest leg) f) s [] s r.
Proof. apply (leaves_await (QRouteRest leg)). Qed.

Lemma leaves_bridgings leg n s : leaves (bridgings leg (mret tt) n) s [] s (Ok tt).
Proof.
  induction n as [|n IH]; [apply leaves_ret|]. eapply leaves_said.
  - eapply leaves_bind; [apply leaves_ret|]. eapply leaves_bind; [by apply leaves_rest|apply IH].
  - done.
Qed.

Lemma leaves_route leg request status s :
  walks_end leg status → leaves (route leg request (mret tt)) s [] s (Ok status).
Proof.
  intros Hw b l. unfold route. destruct (heard b l (QRoute leg request)) as [b1 H1].
  destruct (leaves_bind (bridgings leg (mret tt) (a_bridgings (serve b (QRoute leg request)).2))
    (λ _, await (QRouteRest leg) a_route) s [] s tt [] s (Ok status)
    (leaves_bridgings leg _ s) (leaves_rest leg _ s _ Hw) b1 (l ++ [QRoute leg request])) as (b2 & l2 & H2 & Hd).
  exists b2, (QRoute leg request :: l2). rewrite runs_then, runs_await, H1. cbn [fst snd].
  rewrite H2. split; [|done]. by rewrite <- app_assoc.
Qed.

Context (set : CallControlSettings) (has_consultationKeys : bool).

(** What is left of a consultation that ended in [st]: its record, and the flag. *)
Definition after_consultation (leg : Leg) (st : Transfer.Transfer.TransferState) (s : Control) : Control :=
  apply_leg leg (OpAddFlag flag_attended_transfer)
    (set_minted (S (minted s))
       (set_consultations (consultations s) (<[minted s := st]> (transferStates s)) (watchers s) (cancelKeys s) s)).

Record can_consult (s : Control) (leg transferee : Leg) (bridge : string) (request : TransferRequest) : Prop := {
  cc_leg : usable s leg;
  cc_peer : peerOf s leg = Some transferee;
  cc_transferee : talking s transferee bridge;
  cc_apart : leg_ref leg ≠ leg_ref transferee;
  cc_free : isHeld s (leg_ari transferee) = false;
  cc_none : hasPendingTransfer s (leg_ari leg) = false;
  cc_kind : req_kind request = Transfer.Transfer.attended;
  cc_destination : trim (req_destination request) ≠ "" }.

(** The states an attended transfer goes through up to its walk. *)
Definition consulted (leg transferee : Leg) (request : TransferRequest) (s : Control) : Control :=
  apply_leg leg (OpAddFlag flag_attended_transfer)
    (open_consultation has_consultationKeys leg transferee (trim (req_destination request))
       (default (transferContext set) (req_context request)) request now
       (apply_leg transferee (OpTryTransitionTo hibernating) (after_hold transferee true s))).

Definition opened (leg transferee : Leg) (request : TransferRequest) (s : Control) : Consultation := {|
  cons_ref := minted s; cons_kind := Transfer.Transfer.attended;
  transferorMediaChannelId := leg_ari leg; transfereeMediaChannelId := leg_ari transferee;
  cons_destination := trim (req_destination request);
  cons_context := default (transferContext set) (req_context request);
  cons_fallbackDestination := req_fallbackDestination request; startedAtMs := now |}.

Lemma consulted_pending leg transferee request s :
  consultations (consulted leg transferee request s) !! leg_ari leg = Some (opened leg transferee request s).
Proof. simpl. by rewrite lookup_insert_eq. Qed.

(** Up to its walk, a transfer does what [consulted] says. *)
Lemma leaves_consult leg transferee bridge request s status r ds s' :
  accepts serve → can_consult s leg transferee bridge request → walks_end leg status →
  leaves (settle_consult leg transferee status) (consulted leg transferee request s) ds s' r →
  leaves (transfer set has_consultationKeys leg request) s (holding transferee bridge None true ++ ds) s' r.
Proof.
  intros Hm [Hu Hp Ht Ha Hf Hn Hk Hd] Hw Hrest. apply (leaves_said _ _ ([] ++ [] ++ [] ++ [] ++
    holding transferee bridge None true ++ [] ++ [] ++ [] ++ [] ++ [] ++ [] ++ ds)); [|done].
  unfold transfer. eapply leaves_bind; [by apply leaves_usable|].
  eapply leaves_bind; [apply leaves_reads|]. eapply leaves_bind; [apply leaves_reads|]. cbv beta zeta iota.
  rewrite Hp, Hn, Hk, bool_decide_false by done. cbv beta iota.
  eapply leaves_bind; [apply leaves_ret|].
  eapply leaves_bind; [by apply leaves_awaiting, leaves_hold; [|apply (ta_usable _ _ _ Ht)| |apply (ta_bridge _ _ _ Ht)]|]. cbv [is_ok negb].
  unfold consult. eapply leaves_bind; [apply leaves_writes|]. eapply leaves_bind; [apply leaves_now|].
  eapply leaves_bind; [apply leaves_writes|]. eapply leaves_bind; [apply leaves_writes|].
  eapply leaves_bind; [apply leaves_reads|]. by eapply leaves_bind; [apply leaves_route|].
Qed.

Lemma alter_both {K} `{Countable K} {A} (f f' g : A → A) (k l : K) (m : gmap K A) :
  k ≠ l → (∀ x, m !! k = Some x → f' (f x) = x) → alter f' k (alter g l (alter f k m)) = alter g l m.
Proof.
  intros Hkl Hf. apply map_eq; intros n. destruct (decide (n = k)) as [->|Hn].
  - rewrite lookup_alter_eq, lookup_alter_ne, lookup_alter_eq, lookup_alter_ne by done.
    destruct (m !! k) eqn:E; [|done]. simpl. f_equal. by apply Hf.
  - rewrite lookup_alter_ne by done. destruct (decide (n = l)) as [->|Hl].
    + by rewrite !lookup_alter_eq, lookup_alter_ne.
    + by rewrite !lookup_alter_ne by done.
Qed.

Lemma control_eq s s' :
  holds s = holds s' → consultations s = consultations s' → recordings s = recordings s' →
  parkTimers s = parkTimers s' → parkStates s = parkStates s' → transferStates s = transferStates s' →
  timers s = timers s' → watchers s = watchers s' → cancelKeys s = cancelKeys s' → legs s = legs s' →
  registry s = registry s' → parks s = parks s' → minted s = minted s' → s = s'.
Proof. destruct s, s'; simpl. by intros -> -> -> -> -> -> -> -> -> -> -> -> ->. Qed.

Lemma close_found channel c s :
  consultations s !! channel = Some c →
  close_consultation channel s =
  set_consultations (delete channel (consultations s)) (transferStates s)
    (delete (cons_ref c) (watchers s)) (delete channel (cancelKeys s)) s.
Proof. intros H. unfold close_consultation. by rewrite H. Qed.

Lemma failed_pending leg transferee request s c to :
  consultations (mark_state c to (consulted leg transferee request s)) !! leg_ari leg =
  Some (opened leg transferee request s).
Proof. simpl. by rewrite lookup_insert_eq. Qed.

(** Once the consultation is closed and the transferee back, only its record is left. *)
Lemma consulted_and_back leg transferee bridge request s c :
  in_order s → can_consult s leg transferee bridge request → cons_ref c = minted s →
  after_unhold transferee bridge (close_consultation (leg_ari leg)
    (mark_state c Transfer.Transfer.failed (consulted leg transferee request s))) =
  after_consultation leg Transfer.Transfer.failed s.
Proof.
  intros [Hkeys _ Hmint] [Hu Hp Ht Ha Hf Hn Hk Hd] Hc.
  apply bool_decide_eq_false, eq_None_not_Some in Hf. apply bool_decide_eq_false, eq_None_not_Some in Hn.
  assert (Hw : watchers s !! minted s = None).
  { destruct (watchers s !! minted s) eqn:E; [|done]. apply Hmint in E. lia. }
  assert (Hck : cancelKeys s !! leg_ari leg = None).
  { destruct (cancelKeys s !! leg_ari leg) eqn:E; [|done]. apply Hkeys in E. rewrite Hn in E. by destruct E. }
  rewrite (close_found _ _ _ (failed_pending leg transferee request s c _)).
  apply control_eq.
  - exact (delete_insert_id _ _ _ Hf).
  - exact (delete_insert_id _ _ _ Hn).
  - done.
  - done.
  - done.
  - cbn. rewrite Hc. apply insert_insert_eq.
  - done.
  - exact (delete_insert_id _ _ _ Hw).
  - cbn. destruct (req_cancelKey request), has_consultationKeys; by rewrite ?delete_insert_id, ?delete_id.
  - assert (Hsame := hold_and_back_same s transferee bridge [OpTryTransitionTo hibernating] (or_intror eq_refl) Ht).
    etrans; [|apply (alter_both (λ a, channel_run a [OpAddFlag flag_hold; OpTryCallStateTo CallState.held;
        OpTryTransitionTo hibernating]) (λ a, channel_run a [OpRemoveFlag flag_hold; OpTryCallStateTo CallState.unheld;
        OpSetBridge (Some bridge); OpTryCallStateTo CallState.active; OpTryTransitionTo exchanging_media])
        _ (leg_ref transferee))].
    + rewrite <- !alters_run. done.
    + done.
    + intros a Hl. change (legs s !! leg_ref transferee = Some a) in Hl.
      assert (the s transferee = a) as Hthe by (unfold the; by rewrite Hl).
      rewrite Hthe in Hsame. etrans; [|exact Hsame]. unfold channel_run, hold_and_back.
      by rewrite <- foldl_app.
  - done.
  - done.
  - done.
Qed.

Lemma leaves_drop channel s : leaves (dropConsultation channel) s [] (close_consultation channel s) (Ok tt).
Proof. apply (leaves_bind _ _ _ [] (close_consultation channel s) tt []); [apply leaves_writes|apply leaves_turn]. Qed.


(** ** A transfer that completes *)

(** Where a leg stands: its bridge, its peer, its hangup cause and its call state. *)
Definition standing (s : Control) (leg : Leg)
    : option string * option string * option HangupCause * CallState.CallState :=
  (leg_bridgeId s leg, bridge_peer s leg, hangupCause (snap s leg), callState (snap s leg)).

Abbreviation Standing := (option string * option string * option HangupCause * CallState.CallState)%type.

Definition stand_after (op : channel_op) (st : Standing) : Standing :=
  let '(bridge, peer, cause, call) := st in
  (bridge_after op bridge, peer_after op peer, cause_after op cause, callState_after op call).

Lemma standing_apply leg op s :
  live s leg → standing (apply_leg leg op s) leg = stand_after op (standing s leg).
Proof.
  intros Hl. unfold standing, leg_bridgeId, bridge_peer, snap. rewrite the_apply by done.
  simpl. by rewrite next_bridge, next_peer, next_cause, next_callState_after.
Qed.

Lemma standing_apply_other leg leg' op s :
  leg_ref leg ≠ leg_ref leg' → standing (apply_leg leg op s) leg' = standing s leg'.
Proof. intros H. unfold standing, leg_bridgeId, bridge_peer, snap. by rewrite the_apply_other. Qed.

(** The joining, move by move. *)
Definition join_moves (leg transferee target : Leg) (bridge : string) (cause : HangupCause)
    : list (Leg * channel_op) :=
  [(transferee, OpRemoveFlag flag_hold); (transferee, OpSetBridge (Some bridge));
   (transferee, OpTryTransitionTo exchanging_media); (transferee, OpTryCallStateTo CallState.unheld);
   (transferee, OpTryCallStateTo CallState.active);
   (transferee, OpSetVariable BRIDGE_PEER_VARIABLE (leg_channelId target));
   (target, OpSetVariable BRIDGE_PEER_VARIABLE (leg_channelId transferee));
   (leg, OpClearVariable BRIDGE_PEER_VARIABLE); (leg, OpSetBridge None); (leg, OpMarkHangup cause now true)].

Definition moves (ms : list (Leg * channel_op)) (s : Control) : Control :=
  foldl (λ s m, apply_leg m.1 m.2 s) s ms.

Definition joined (leg transferee target : Leg) (bridge : string) (c : Consultation) (s : Control) : Control :=
  close_consultation (leg_ari leg) (mark_state c Transfer.Transfer.completed
    (moves (join_moves leg transferee target bridge (Transfer.Transfer.hangupCauseForTransfer (cons_kind c)))
       (set_holds (delete (leg_ari transferee)) (mark_state c Transfer.Transfer.completing s)))).

(** What the joining tells the media server and the far end. *)
Definition joining (leg transferee target : Leg) (bridge : string) (c : Consultation) : list Query :=
  [QMedia (MStopMusic (leg_ari transferee)); QMedia (MAddToBridge bridge [leg_ari transferee]);
   QPublish transferee (EvTransferred (cons_kind c) (cons_destination c) (cons_context c)
     (leg_channelId leg) (Some (leg_channelId target)))].

Lemma leaves_join leg transferee target bridge c s :
  accepts serve →
  leaves (join_target leg transferee target bridge c) s (joining leg transferee target bridge c)
    (joined leg transferee target bridge c s) (Ok ok).
Proof.
  intros Hm. eapply leaves_said.
  { unfold join_target, joined, moves, join_moves. cbn [foldl fst snd]. eapply leaves_bind; [apply leaves_writes|].
    eapply leaves_bind; [apply leaves_ret|]. eapply leaves_bind; [apply leaves_writes|]. eapply leaves_bind.
    { eapply leaves_attempting, leaves_bind; [by apply leaves_media|by apply leaves_media]. }
    cbv beta iota. do 9 (eapply leaves_bind; [apply leaves_writes|]).
    eapply leaves_bind. { eapply leaves_bind; [apply leaves_now|apply leaves_writes]. }
    eapply leaves_bind; [apply leaves_writes|]. eapply leaves_bind; [apply leaves_ret|].
    eapply leaves_bind; [apply leaves_drop|]. eapply leaves_bind; [apply leaves_published|]. apply leaves_ret. }
  done.
Qed.

(** The moves of one leg among those of all. *)
Definition own (leg : Leg) (ms : list (Leg * channel_op)) (st : Standing) : Standing :=
  foldl (λ st m, if decide (leg_ref m.1 = leg_ref leg) then stand_after m.2 st else st) st ms.

Lemma moves_standing ms leg s : live s leg → standing (moves ms s) leg = own leg ms (standing s leg).
Proof.
  revert s. induction ms as [|m ms IH]; intros s Hl; [done|]. cbn [moves own foldl].
  etrans; [apply IH; by apply live_apply|]. unfold own. f_equal. case_decide as He.
  - rewrite <- standing_apply by done. unfold standing, leg_bridgeId, bridge_peer, snap, the, apply_leg. cbn.
    by rewrite He.
  - by apply standing_apply_other.
Qed.

Lemma moves_other ms leg s : Forall (λ m, leg_ref m.1 ≠ leg_ref leg) ms → the (moves ms s) leg = the s leg.
Proof.
  revert s. induction ms as [|m ms IH]; intros s Hm; [done|]. inversion Hm; subst. cbn [moves foldl].
  etrans; [by apply IH|]. by apply the_apply_other.
Qed.

Lemma moves_legs ms s :
  legs (moves ms s) = foldl (λ ls m, alter (λ a, channel_next a m.2) (leg_ref m.1) ls) (legs s) ms.
Proof. revert s. induction ms as [|m ms IH]; intros s; [done|]. cbn [moves foldl]. apply (IH (apply_leg m.1 m.2 s)). Qed.

(** The consultation of a transferor, ready to be handed over. *)
Record handing_over (s : Control) (leg transferee target : Leg) (bridge : string) (c : Consultation) : Prop := {
  ho_pending : consultations s !! leg_ari leg = Some c;
  ho_state : state_of c s = Some Transfer.Transfer.consulting ∨ state_of c s = Some Transfer.Transfer.held;
  ho_transferee : legFor s (transfereeMediaChannelId c) = Some transferee;
  ho_up : leg_isTearingDown s transferee = false;
  ho_held : callState (snap s transferee) = CallState.held;
  ho_target : peerOf s leg = Some target;
  ho_bridge : leg_bridgeId s leg = Some bridge;
  ho_together : leg_bridgeId s target = Some bridge;
  ho_live : live s leg ∧ live s transferee ∧ live s target }.

Lemma leaves_completeTransfer leg transferee target bridge c s :
  accepts serve → handing_over s leg transferee target bridge c →
  leaves (completeTransfer leg) s (joining leg transferee target bridge c)
    (joined leg transferee target bridge c s) (Ok ok).
Proof.
  intros Hm [Hp Hs Hee Hup _ Ht Hb _ _]. apply (leaves_said _ _ ([] ++ [] ++ [] ++ [] ++ [] ++
    joining leg transferee target bridge c)); [|done]. unfold completeTransfer.
  eapply leaves_bind; [apply leaves_reads|]. cbv beta. rewrite Hp.
  eapply leaves_bind; [apply leaves_reads|]. cbv beta.
  assert (includes [Some Transfer.Transfer.consulting; Some Transfer.Transfer.held] (state_of c s) = true) as ->
    by (by destruct Hs as [->| ->]). cbv [negb].
  eapply leaves_bind; [apply leaves_reads|]. cbv beta. rewrite Hee, Hup.
  eapply leaves_bind; [apply leaves_reads|]. cbv beta. rewrite Ht.
  eapply leaves_bind; [apply leaves_reads|]. cbv beta. rewrite Hb. by apply leaves_join.
Qed.

Lemma joined_legs leg transferee target bridge c s other :
  consultations s !! leg_ari leg = Some c →
  the (joined leg transferee target bridge c s) other =
  the (moves (join_moves leg transferee target bridge (Transfer.Transfer.hangupCauseForTransfer (cons_kind c))) s) other.
Proof.
  intros Hp. unfold joined. rewrite (close_found _ c).
  - unfold the. cbn [legs set_consultations mark_state]. by rewrite !moves_legs.
  - exact Hp.
Qed.

Lemma joined_standing leg transferee target bridge c s other :
  consultations s !! leg_ari leg = Some c →
  standing (joined leg transferee target bridge c s) other =
  standing (moves (join_moves leg transferee target bridge (Transfer.Transfer.hangupCauseForTransfer (cons_kind c))) s) other.
Proof. intros Hp. unfold standing, leg_bridgeId, bridge_peer, snap. by rewrite joined_legs. Qed.

Lemma joined_maps leg transferee target bridge c s :
  consultations s !! leg_ari leg = Some c →
  let s' := joined leg transferee target bridge c s in
  consultations s' = delete (leg_ari leg) (consultations s) ∧ cancelKeys s' = delete (leg_ari leg) (cancelKeys s) ∧
  watchers s' = delete (cons_ref c) (watchers s) ∧ holds s' = delete (leg_ari transferee) (holds s).
Proof.
  intros Hp. cbv zeta. unfold joined. rewrite (close_found _ c) by exact Hp. done.
Qed.


(** A transferor that leaves while the target still rings: its peer is the party on hold
    itself, which is joined alone to the bridge it was taken from, as its own peer, and
    the transfer is reported as done. *)
Theorem early_completion_joins_itself leg transferee bridge c s b :
  accepts serve → handing_over s leg transferee transferee bridge c → leg_ref leg ≠ leg_ref transferee →
  ∃ b' s', runs (completeTransfer leg) (b, []) s = (b', s', Ok ok) ∧
    standing s' transferee =
      (Some bridge, Some (leg_channelId transferee), hangupCause (snap s transferee), CallState.active).
Proof.
  intros Hm Hh Hne. destruct (leaves_completeTransfer _ _ _ _ _ _ Hm Hh b []) as (b' & l & Hr & _).
  exists (b', l), (joined leg transferee transferee bridge c s). split; [done|].
  destruct Hh as [Hp _ _ _ Hc _ _ _ (Hl1 & Hl2 & _)].
  rewrite joined_standing, moves_standing by done. unfold own, join_moves. cbn [foldl fst snd].
  rewrite !(decide_True (P := leg_ref transferee = _)), !decide_False by congruence.
  unfold standing. by rewrite Hc.
Qed.
End Runs.
End HandoverFacts.
