(* ===== verification/ControlRuns.v ===== *)
(** * Runs of call control

    Concrete calls on which the theorems of CallControlFacts.v and HandoverFacts.v are
    applied: alice and bob talk, alice consults carol; and the schedule in which alice
    leaves while carol's phone still rings, a cancel that meets a completion, and two
    transfers of one call. *)

From S2P Require Import Prelude HangupCauses ChannelState CallState Bridge Kv Async Claims CallControl CallControlFacts HandoverFacts.
From S2P Require Channel Park Transfer ParkRegistry.

Module ControlRuns.
Import Channel.Channel CallControl CallControlFacts HandoverFacts.

(** ** The people *)
Definition person (n : nat) (name : string) : Leg :=
  {| leg_ref := n; leg_ari := name +:+ "-media"; leg_channelId := name |}.

Definition alice : Leg := person 0 "alice".
Definition bob : Leg := person 1 "bob".
Definition carol : Leg := person 2 "carol".

(** A leg that talks in [bridge] with [peer]. *)
Definition on_the_phone (leg : Leg) (bridge peer : string) : ChannelAggregate :=
  channel_run (create {| in_ariChannelId := leg_ari leg; in_channelId := leg_channelId leg;
      in_callId := "call"; in_organizationId := "acme"; in_direction := call_internal;
      in_profile := {| callerIdName := None; callerIdNumber := Some (leg_channelId leg); ani := None; rdnis := None;
        destinationNumber := "100"; context := "internal"; networkAddr := None; profile_source := None;
        channelName := None |};
      in_variables := ∅; in_createdAt := 0 |})
    [OpTryTransitionTo initializing; OpTryTransitionTo routing; OpMarkAnswered 1; OpTryCallStateTo CallState.active;
     OpTryTransitionTo exchanging_media; OpSetBridge (Some bridge); OpSetVariable BRIDGE_PEER_VARIABLE peer].

Definition engine (steps : list EngineStep) (s : Control) : Control := foldl (λ s step, apply_engine step s) s steps.

Definition in_a_call : list EngineStep :=
  [EngineLeg alice (on_the_phone alice "b1" "bob"); EngineLeg bob (on_the_phone bob "b1" "alice")].

Definition calling : Control := engine in_a_call (fresh_control "a").

(** ** A media server that accepts, and walks that end in [status] *)
Definition answering (status : RouteStatus) : Answer := {|
  a_claims := Claims.ADone; a_done := Ok tt; a_exists := Ok true; a_bridgings := 0; a_route := Ok status;
  a_ringing := Ok []; a_lot := Ok None; a_handoff := Throw "no responder"; a_entered := true;
  a_finished := (0%Z, "completed") |}.

Definition calm (status : RouteStatus) (b : unit) (q : Query) : unit * Answer := (b, answering status).

Lemma calm_accepts status : accepts (calm status).
Proof. done. Qed.

Lemma in_a_call_usable : usable calling alice.
Proof. split_and!; [by eexists|vm_compute; reflexivity..]. Qed.

Lemma in_a_call_talking : talking calling bob "b1".
Proof.
  split; [split_and!; [by eexists|vm_compute; reflexivity..]|vm_compute; reflexivity..|].
  apply includes_false. vm_compute. reflexivity.
Qed.

Lemma hold_then_unhold_witness :
  ∃ b1 l1 s1 b2 l2,
    exec (hears (calm route_bridged)) 5 (hold bob (Some "jazz") false) (tt, []) calling = ((b1, l1), s1, Ok ok) ∧
    deeds l1 = [QMedia (MRemoveFromBridge "b1" ["bob-media"]); QMedia (MHold "bob-media");
                QMedia (MStartMusic "bob-media" (Some "jazz")); QPublish bob (EvHeld (Some "jazz"))] ∧
    isHeld s1 "bob-media" = true ∧ callState (snap s1 bob) = CallState.held ∧
    exec (hears (calm route_bridged)) 5 (unhold bob) (b1, []) s1 = ((b2, l2), calling, Ok ok) ∧
    deeds l2 = [QMedia (MStopMusic "bob-media"); QMedia (MUnhold "bob-media"); QPublish bob EvUnheld;
                QMedia (MAddToBridge "b1" ["bob-media"])].
Proof.
  apply (hold_then_unhold (calm route_bridged) 5 bob (Some "jazz") false "b1" calling tt).
  - apply calm_accepts.
  - apply in_a_call_talking.
  - vm_compute. reflexivity.
Defined.

(** *** Alice consults carol *)
Definition to_carol : TransferRequest := {|
  req_kind := Transfer.Transfer.attended; req_destination := " 102 "; req_context := None;
  req_fallbackDestination := None; req_cancelKey := Some "#" |}.

Lemma alice_can_consult : can_consult calling alice bob "b1" to_carol.
Proof.
  split; [apply in_a_call_usable|vm_compute; reflexivity|apply in_a_call_talking|done|vm_compute; reflexivity..|].
  vm_compute. discriminate.
Qed.

Lemma calling_in_order : in_order calling.
Proof. apply in_order_engine, in_order_engine, in_order_fresh. Qed.


(** Carol answers: the walk has bridged her with alice. *)
Definition consulting_carol : Control :=
  engine [EngineLeg carol (on_the_phone carol "b2" "alice"); EngineCall alice (OpSetBridge (Some "b2"));
          EngineCall alice (OpSetVariable BRIDGE_PEER_VARIABLE "carol")]
    (exec (calm route_bridged) 5 (transfer DEFAULT_CALL_CONTROL_SETTINGS true alice to_carol) tt calling).1.2.

Definition consultation : Consultation := {|
  cons_ref := 0; cons_kind := Transfer.Transfer.attended; transferorMediaChannelId := "alice-media";
  transfereeMediaChannelId := "bob-media"; cons_destination := "102"; cons_context := "internal";
  cons_fallbackDestination := None; startedAtMs := 5 |}.

Lemma carol_consulted : handing_over consulting_carol alice bob carol "b2" consultation.
Proof.
  split; [vm_compute; reflexivity|left; vm_compute; reflexivity|vm_compute; reflexivity..|].
  split_and!; vm_compute; by eexists.
Qed.


(** ** Schedules *)
Definition bucket : Type := MapBucket.bucket ParkRegistry.ParkRegistry.ParkClaim.

Abbreviation bodies := (body (λ _, "id") DEFAULT_CALL_CONTROL_SETTINGS Bridge.media true true).

Definition cluster : Type :=
  system (B := bucket) (S := Control) (Q := Query) (A := Answer) (Op := Op) (R := result string Reply).

Definition step_label : Type := label (F := Claims.fault * Answer) (Op := Op).

Definition after (ls : list step_label) : cluster :=
  default (boot MapBucket.empty_bucket)
    (cluster_run (λ _, "id") DEFAULT_CALL_CONTROL_SETTINGS Bridge.media true true (boot MapBucket.empty_bucket) ls).

(** [n] requests of the task [t] are served and it goes on. *)
Definition goes_on (t n : nat) : list step_label :=
  mjoin (replicate n [Serve t (Claims.Delivered, answering route_bridged); Resume t 5]).

(** Alice and bob talk; alice asks for carol, and carol's phone rings. *)
Definition ringing_carol : list step_label :=
  imap (λ n step, Start n "a" 0 (OEngine step)) in_a_call ++ [Start 9 "a" 5 (OTransfer alice to_carol)] ++ goes_on 9 4.

(** Alice hangs up before anyone answers. *)
Definition alice_leaves : list step_label :=
  ringing_carol ++ [Start 10 "a" 6 (OLegEnded "alice-media")] ++ goes_on 10 5.

Lemma schedule_runs ls :
  match cluster_run (λ _, "id") DEFAULT_CALL_CONTROL_SETTINGS Bridge.media true true (boot MapBucket.empty_bucket) ls with
  | Some _ => true | None => false
  end = true →
  cluster_run (λ _, "id") DEFAULT_CALL_CONTROL_SETTINGS Bridge.media true true (boot MapBucket.empty_bucket) ls =
  Some (after ls).
Proof. unfold after. by destruct (cluster_run _ _ _ _ _ _ ls). Qed.

(** The instance [a] in a schedule. *)
Definition at_a (ls : list step_label) : Control := default (fresh_control "a") (states (after ls) !! "a").

Lemma state_at_a ls :
  match states (after ls) !! "a" with Some _ => true | None => false end = true →
  states (after ls) !! "a" = Some (at_a ls).
Proof. unfold at_a. by destruct (states (after ls) !! "a"). Qed.

Lemma consultations_in_order_witness :
  cancelKeys (at_a ringing_carol) !! "alice-media" = Some "#" ∧
  consultations (at_a ringing_carol) !! "alice-media" = Some consultation ∧
  watchers (at_a ringing_carol) !! 0 = Some ("bob-media", "alice-media").
Proof.
  destruct (consultations_in_order (λ _, "id") DEFAULT_CALL_CONTROL_SETTINGS Bridge.media true true
    MapBucket.empty_bucket ringing_carol (after ringing_carol) "a" (at_a ringing_carol)) as [_ Hc].
  - apply schedule_runs. vm_compute. reflexivity.
  - apply state_at_a. vm_compute. reflexivity.
  - split; [vm_compute; reflexivity|]. assert (Hk : consultations (at_a ringing_carol) !! "alice-media" = Some consultation)
      by (vm_compute; reflexivity).
    split; [exact Hk|]. exact (proj2 (Hc _ _ Hk)).
Defined.

(** The party on hold becomes its own peer, alone in the bridge it was taken from. *)
Example alice_leaves_early :
  bridge_peer (at_a alice_leaves) bob = Some "bob" ∧ leg_bridgeId (at_a alice_leaves) bob = Some "b1" ∧
  hangupCause (snap (at_a alice_leaves) alice) = Some ATTENDED_TRANSFER ∧
  leg_bridgeId (at_a alice_leaves) alice = None.
Proof. vm_compute. split_and!; reflexivity. Qed.

(** A cancel that meets a completion throws. *)
Definition cancelled_too_late : list step_label :=
  ringing_carol ++ [Start 10 "a" 6 (OCompleteTransfer alice); Start 11 "a" 6 (OCancelTransfer alice)].

Example late_cancel_throws :
  List.last (replies (after cancelled_too_late)) ("", ODrain, Ok RVoid) =
  ("a", OCancelTransfer alice, Throw "InvalidTransferTransitionError").
Proof. vm_compute. reflexivity. Qed.

(** Two transfers of one call that start in turn: both pass the test, and the first one's
    watcher stays behind. *)
Definition two_transfers : list step_label :=
  imap (λ n step, Start n "a" 0 (OEngine step)) in_a_call ++
  [Start 9 "a" 5 (OTransfer alice to_carol); Start 8 "a" 5 (OTransfer alice to_carol)] ++ goes_on 9 4 ++ goes_on 8 4.

Example first_watcher_stays :
  size (consultations (at_a two_transfers)) = 1 ∧ size (watchers (at_a two_transfers)) = 2.
Proof. vm_compute. split; reflexivity. Qed.
End ControlRuns.
