(* ===== verification/MidCallRuntime.v ===== *)
(** * The mid-call runtime

    [apps/engine/src/calls/mid-call-features.ts]: the clock, the captures of the legs and
    the digits in flight around the machine of MidCall.v. The class is a machine over
    events: a digit is offered, an offer whose predecessor on the leg is done begins,
    the organization's artifact arrives, an offer is decided, a timer fires, an
    operation settles, a key is armed or disarmed, a leg is released, the instance
    drains; and a leg changes. An offer, a capture, a timer and a running operation are
    objects that outlive their place in a map, so each has a number. What a step calls
    is in its list of actions, in order. *)

From S2P Require Import Prelude Machines Dtmf MidCall.
From S2P Require FeatureCodes.

Module MidCallRuntime.
Import MidCall.

(** ** Data *)

(** The part of a [ControlledLeg] the runtime reads. *)
Record LegView := {
  lv_organizationId : string;
  lv_isTearingDown : bool;
  lv_isAnswered : bool;
  lv_bridged : bool }.

Record LegCapture := {
  machine : Capture;
  cap_table : list MidCallFeatureCode;
  timer : option nat;
  cap_cancelKey : option string }.

(** Where an offered digit is: behind its predecessor, waiting for the artifact, or with
    what [captureFor] answered. *)
Inductive Stage :=
| queued
| looking (cancelKey : option string)
| found (capture : option nat).

Record Offer := {
  of_leg : string;
  of_digit : string;
  of_lifecycle : nat;
  of_previous : option nat;
  of_stage : Stage }.

(** An armed timer, and what its callback closes over. *)
Record Wake := { wk_leg : string; wk_capture : nat; wk_at : Z; wk_lifecycle : nat }.

(** A [run] whose operation has not settled. *)
Record Running := { run_leg : string; run_capture : nat; run_lifecycle : nat }.

Inductive MidCallDigitOutcome := out_pass_through | out_consumed.

#[global] Instance MidCallDigitOutcome_eq_dec : EqDecision MidCallDigitOutcome.
Proof. solve_decision. Defined.

Record MidCallFeatureRuntime := {
  captures : gmap string nat;
  cancelKeys : gmap string string;
  chains : gmap string nat;
  lifecycles : gmap string nat;
  stopped : bool;
  (* the objects *)
  heap : gmap nat LegCapture;
  offers : gmap nat Offer;
  wakes : gmap nat Wake;
  running : gmap nat Running;
  legs : gmap string LegView;
  minted : nat }.

Definition runtime_init : MidCallFeatureRuntime := {|
  captures := ∅; cancelKeys := ∅; chains := ∅; lifecycles := ∅; stopped := false;
  heap := ∅; offers := ∅; wakes := ∅; running := ∅; legs := ∅; minted := 0 |}.

(** What a step calls, and what it answers. *)
Inductive Action :=
| AskArtifact (offer : nat) (organizationId : string)
| PushDigit (leg : string) (offer : nat) (digit : string)
| DoTransfer (leg argument : string)
| DoStartRecording (leg : string)
| DoStopRecording (leg : string)
| DoPark (leg : string) (orbit : option string)
| DoCancelTransfer (leg : string)
| Answered (offer : nat) (outcome : MidCallDigitOutcome)
| Rejected (offer : nat)
(* a transition guard of the machine threw where nothing catches *)
| Uncaught.

#[global] Instance Stage_eq_dec : EqDecision Stage.
Proof. solve_decision. Defined.

(** ** Fields *)
Definition set_captures (cs : gmap string nat) (h : gmap nat LegCapture) (w : gmap nat Wake)
    (s : MidCallFeatureRuntime) : MidCallFeatureRuntime :=
  {| captures := cs; cancelKeys := cancelKeys s; chains := chains s; lifecycles := lifecycles s;
     stopped := stopped s; heap := h; offers := offers s; wakes := w; running := running s;
     legs := legs s; minted := minted s |}.

Definition set_keys (k : gmap string string) (s : MidCallFeatureRuntime) : MidCallFeatureRuntime :=
  {| captures := captures s; cancelKeys := k; chains := chains s; lifecycles := lifecycles s;
     stopped := stopped s; heap := heap s; offers := offers s; wakes := wakes s; running := running s;
     legs := legs s; minted := minted s |}.

Definition set_chains (c : gmap string nat) (l : gmap string nat) (s : MidCallFeatureRuntime)
    : MidCallFeatureRuntime :=
  {| captures := captures s; cancelKeys := cancelKeys s; chains := c; lifecycles := l;
     stopped := stopped s; heap := heap s; offers := offers s; wakes := wakes s; running := running s;
     legs := legs s; minted := minted s |}.

Definition set_offers (o : gmap nat Offer) (s : MidCallFeatureRuntime) : MidCallFeatureRuntime :=
  {| captures := captures s; cancelKeys := cancelKeys s; chains := chains s; lifecycles := lifecycles s;
     stopped := stopped s; heap := heap s; offers := o; wakes := wakes s; running := running s;
     legs := legs s; minted := minted s |}.

Definition set_running (r : gmap nat Running) (s : MidCallFeatureRuntime) : MidCallFeatureRuntime :=
  {| captures := captures s; cancelKeys := cancelKeys s; chains := chains s; lifecycles := lifecycles s;
     stopped := stopped s; heap := heap s; offers := offers s; wakes := wakes s; running := r;
     legs := legs s; minted := minted s |}.

Definition set_legs (l : gmap string LegView) (s : MidCallFeatureRuntime) : MidCallFeatureRuntime :=
  {| captures := captures s; cancelKeys := cancelKeys s; chains := chains s; lifecycles := lifecycles s;
     stopped := stopped s; heap := heap s; offers := offers s; wakes := wakes s; running := running s;
     legs := l; minted := minted s |}.

Definition set_stopped (s : MidCallFeatureRuntime) : MidCallFeatureRuntime :=
  {| captures := captures s; cancelKeys := cancelKeys s; chains := chains s; lifecycles := lifecycles s;
     stopped := true; heap := heap s; offers := offers s; wakes := wakes s; running := running s;
     legs := legs s; minted := minted s |}.

(** A number for a new object. *)
Definition mint (s : MidCallFeatureRuntime) : nat * MidCallFeatureRuntime :=
  (minted s,
   {| captures := captures s; cancelKeys := cancelKeys s; chains := chains s; lifecycles := lifecycles s;
      stopped := stopped s; heap := heap s; offers := offers s; wakes := wakes s; running := running s;
      legs := legs s; minted := S (minted s) |}).

(** The object of a capture, updated. *)
Definition set_capture (c : nat) (x : LegCapture) (s : MidCallFeatureRuntime) : MidCallFeatureRuntime :=
  set_captures (captures s) (<[c := x]> (heap s)) (wakes s) s.

Definition with_machine (m : Capture) (x : LegCapture) : LegCapture :=
  {| machine := m; cap_table := cap_table x; timer := timer x; cap_cancelKey := cap_cancelKey x |}.

(** ** Reading *)
Definition capturing (s : MidCallFeatureRuntime) (entry : string * nat) : bool :=
  match heap s !! entry.2 with Some c => isCapturing (machine c) | None => false end.

Definition activeCaptureCount (s : MidCallFeatureRuntime) : nat :=
  length (filter (λ entry, capturing s entry = true) (map_to_list (captures s))).

(** A bridged leg, in the life it had. *)
Definition isCurrent (s : MidCallFeatureRuntime) (leg : string) (lifecycle : nat) : bool :=
  negb (stopped s) && bool_decide (lifecycles s !! leg = Some lifecycle) &&
  match legs s !! leg with
  | Some v => negb (lv_isTearingDown v) && lv_isAnswered v && lv_bridged v
  | None => false
  end.

Definition MID_CALL_ACTION_BY_COMPILED_ACTION (a : FeatureCodes.FeatureCodes.FeatureCodeAction)
    : option MidCallFeatureAction :=
  match a with
  | FeatureCodes.FeatureCodes.transfer => Some blind_transfer
  | FeatureCodes.FeatureCodes.record_toggle => Some record_toggle
  | FeatureCodes.FeatureCodes.call_park => Some act_park
  | _ => None
  end.

(** The table of a leg: the artifact's codes that have a runtime, and the cancel key. *)
Definition tableFor (featureCodes : option (list FeatureCodes.FeatureCodes.CompiledFeatureCode))
    (cancelKey : option string) : list MidCallFeatureCode :=
  omap (λ entry,
      (λ a, {| code := FeatureCodes.FeatureCodes.fc_code entry; action := a; argumentMode := None |}) <$>
      MID_CALL_ACTION_BY_COMPILED_ACTION (FeatureCodes.FeatureCodes.fc_action entry)) (default [] featureCodes) ++
  match cancelKey with
  | Some key => [{| code := key; action := act_cancel; argumentMode := None |}]
  | None => []
  end.

(** The operation of an execution, given whether the leg is being recorded and has a
    transfer pending; [None]: refused without a call. *)
Definition perform (leg : string) (e : MidCallFeatureExecution) (recording pending : bool) : option Action :=
  match exec_action e with
  | blind_transfer => Some (DoTransfer leg (exec_argument e))
  | record_toggle => Some (if recording then DoStopRecording leg else DoStartRecording leg)
  | act_park => Some (DoPark leg (if bool_decide (exec_argument e = "") then None else Some (exec_argument e)))
  | act_cancel => if pending then Some (DoCancelTransfer leg) else None
  end.

(** ** Operations *)
Section MidCallFeatureRuntime.
Context (localeCompare : string → string → Z) (settings : MidCallFeatureSettings).

Abbreviation outcome_of := (MidCallFeatureRuntime * list Action)%type.

(** *** Captures *)
Definition stop_timer (t : option nat) (w : gmap nat Wake) : gmap nat Wake :=
  match t with Some n => delete n w | None => w end.

(** [true]: the machine threw. *)
Definition dropCapture (leg : string) (s : MidCallFeatureRuntime) : MidCallFeatureRuntime * bool :=
  match captures s !! leg with
  | None => (s, false)
  | Some c =>
      match heap s !! c with
      | None => (s, false)
      | Some x =>
          let wakes' := stop_timer (timer x) (wakes s) in
          match cancel (machine x) with
          | Throw _ => (set_captures (captures s) (heap s) wakes' s, true)
          | Ok (m, _) => (set_captures (delete leg (captures s)) (<[c := with_machine m x]> (heap s)) wakes' s, false)
          end
      end
  end.

Definition thrown (threw : bool) : list Action := if threw then [Uncaught] else [].

Definition rearm (leg : string) (c : nat) (wakeAtMs : option Z) (lifecycle : nat) (s : MidCallFeatureRuntime)
    : MidCallFeatureRuntime :=
  match heap s !! c with
  | None => s
  | Some x =>
      let disarmed := {| machine := machine x; cap_table := cap_table x; timer := None; cap_cancelKey := cap_cancelKey x |} in
      let s := set_captures (captures s) (<[c := disarmed]> (heap s)) (stop_timer (timer x) (wakes s)) s in
      match wakeAtMs with
      | None => s
      | Some at_ =>
          if negb (isCurrent s leg lifecycle) then s
          else
            let '(n, s) := mint s in
            set_captures (captures s)
              (<[c := {| machine := machine x; cap_table := cap_table x; timer := Some n;
                         cap_cancelKey := cap_cancelKey x |}]> (heap s))
              (<[n := {| wk_leg := leg; wk_capture := c; wk_at := at_; wk_lifecycle := lifecycle |}]> (wakes s)) s
      end
  end.

(** The synchronous start of [run]: up to the operation it awaits. *)
Definition begin_run (leg : string) (c : nat) (e : option MidCallFeatureExecution) (lifecycle : nat)
    (recording pending : bool) (s : MidCallFeatureRuntime) : outcome_of :=
  match e with
  | None => (s, [])
  | Some e =>
      if negb (isCurrent s leg lifecycle) then (s, [])
      else
        let '(n, s) := mint s in
        (set_running (<[n := {| run_leg := leg; run_capture := c; run_lifecycle := lifecycle |}]> (running s)) s,
         option_list (perform leg e recording pending))
  end.

(** *** The handlers *)
Definition armCancelKey (leg digit : string) (s : MidCallFeatureRuntime) : outcome_of :=
  if stopped s then (s, [])
  else
    let '(s, threw) := dropCapture leg (set_keys (<[leg := digit]> (cancelKeys s)) s) in
    (s, thrown threw).

Definition disarmCancelKey (leg : string) (s : MidCallFeatureRuntime) : outcome_of :=
  match cancelKeys s !! leg with
  | None => (s, [])
  | Some _ =>
      let '(s, threw) := dropCapture leg (set_keys (delete leg (cancelKeys s)) s) in
      (s, thrown threw)
  end.

Definition release (leg : string) (s : MidCallFeatureRuntime) : outcome_of :=
  let '(s, threw) := dropCapture leg
    (set_keys (delete leg (cancelKeys s)) (set_chains (delete leg (chains s)) (delete leg (lifecycles s)) s)) in
  (s, thrown threw).

(** The loop of [clear], which a throw would leave. *)
Definition drop_all (keys : list string) (s : MidCallFeatureRuntime) : MidCallFeatureRuntime * bool :=
  foldl (λ acc leg, if acc.2 : bool then acc else dropCapture leg acc.1) (s, false) keys.

Definition clear (s : MidCallFeatureRuntime) : outcome_of :=
  let '(s, threw) := drop_all ((map_to_list (captures s)).*1) (set_chains (chains s) ∅ (set_stopped s)) in
  if threw then (s, [Uncaught]) else (set_keys ∅ (set_chains ∅ (lifecycles s) s), []).

(** [offer], up to the promise it hangs on the chain of the leg. *)
Definition offer (leg digit : string) (s : MidCallFeatureRuntime) : outcome_of :=
  let '(id, s) := mint s in
  if stopped s then (s, [Answered id out_pass_through])
  else
    let '(lifecycle, s) := match lifecycles s !! leg with Some l => (l, s) | None => mint s end in
    (set_offers (<[id := {| of_leg := leg; of_digit := digit; of_lifecycle := lifecycle;
                            of_previous := chains s !! leg; of_stage := queued |}]> (offers s))
       (set_chains (<[leg := id]> (chains s)) (<[leg := lifecycle]> (lifecycles s)) s), []).

Definition at_stage (stage : Stage) (o : Offer) : Offer :=
  {| of_leg := of_leg o; of_digit := of_digit o; of_lifecycle := of_lifecycle o;
     of_previous := of_previous o; of_stage := stage |}.

(** The predecessor of an offer is done. *)
Definition next_in_line (s : MidCallFeatureRuntime) (o : Offer) : bool :=
  match of_previous o with Some p => bool_decide (offers s !! p = None) | None => true end.

(** The turn of an offer: [captureFor], up to the artifact. *)
Definition begin_offer (id : nat) (o : Offer) (s : MidCallFeatureRuntime) : outcome_of :=
  if negb (isCurrent s (of_leg o) (of_lifecycle o))
  then (set_offers (delete id (offers s)) s, [Answered id out_pass_through])
  else
    let cancelKey := cancelKeys s !! of_leg o in
    let existing := c ← captures s !! of_leg o; x ← heap s !! c;
                    if bool_decide (cap_cancelKey x = cancelKey) then Some c else None in
    match existing with
    | Some c => (set_offers (<[id := at_stage (found (Some c)) o]> (offers s)) s, [])
    | None =>
        (set_offers (<[id := at_stage (looking cancelKey) o]> (offers s)) s,
         [AskArtifact id (match legs s !! of_leg o with Some v => lv_organizationId v | None => "" end)])
    end.

(** The rest of [captureFor], once the artifact is here. *)
Definition build_capture (id : nat) (o : Offer) (cancelKey : option string)
    (answer : result string (option (list FeatureCodes.FeatureCodes.CompiledFeatureCode)))
    (s : MidCallFeatureRuntime) : outcome_of :=
  match answer with
  | Throw _ => (set_offers (delete id (offers s)) s, [Rejected id])
  | Ok featureCodes =>
      let table := tableFor featureCodes cancelKey in
      if (length table =? 0) || negb (isCurrent s (of_leg o) (of_lifecycle o))
      then (set_offers (<[id := at_stage (found None) o]> (offers s)) s, [])
      else
        let '(c, s) := mint s in
        (set_offers (<[id := at_stage (found (Some c)) o]> (offers s))
           (set_captures (<[of_leg o := c]> (captures s))
              (<[c := {| machine := capture_init; cap_table := orderMidCallFeatureCodes localeCompare table;
                         timer := None; cap_cancelKey := cancelKey |}]> (heap s)) (wakes s) s), [])
  end.

(** What follows a step of the machine. *)
Definition after_step (leg : string) (c : nat) (lifecycle : nat) (x : LegCapture) (m : Capture)
    (st : MidCallFeatureStep) (recording pending : bool) (s : MidCallFeatureRuntime) : outcome_of :=
  let s := rearm leg c (wakeAtMs st) lifecycle (set_capture c (with_machine m x) s) in
  match kind st with
  | execute => begin_run leg c (execution st) lifecycle recording pending s
  | _ => (s, [])
  end.

Definition decide_offer (id : nat) (o : Offer) (capture : option nat) (now : Z) (recording pending : bool)
    (s : MidCallFeatureRuntime) : outcome_of :=
  let current := isCurrent s (of_leg o) (of_lifecycle o) in
  let s := set_offers (delete id (offers s)) s in
  match c ← capture; x ← heap s !! c; Some (c, x), current with
  | Some (c, x), true =>
      let pushed := PushDigit (of_leg o) id (of_digit o) in
      match push (cap_table x) settings (machine x) (of_digit o) now with
      | Throw _ => (s, [pushed; Rejected id])
      | Ok (m, st) =>
          let '(s, calls) := after_step (of_leg o) c (of_lifecycle o) x m st recording pending s in
          (s, pushed :: calls ++
              [Answered id (match kind st with pass_through => out_pass_through | _ => out_consumed end)])
      end
  | _, _ => (s, [Answered id out_pass_through])
  end.

(** The callback of a timer. *)
Definition fire (n : nat) (w : Wake) (recording pending : bool) (s : MidCallFeatureRuntime) : outcome_of :=
  let s := set_captures (captures s) (heap s) (delete n (wakes s)) s in
  if negb (isCurrent s (wk_leg w) (wk_lifecycle w)) then (s, [])
  else
    match heap s !! wk_capture w with
    | None => (s, [])
    | Some x =>
        let x := {| machine := machine x; cap_table := cap_table x; timer := None; cap_cancelKey := cap_cancelKey x |} in
        match expire (cap_table x) (machine x) (wk_at w) with
        | Throw _ => (set_capture (wk_capture w) x s, [Uncaught])
        | Ok (m, st) => after_step (wk_leg w) (wk_capture w) (wk_lifecycle w) x m st recording pending s
        end
    end.

(** The [finally] of [run]. *)
Definition settle_run (n : nat) (r : Running) (s : MidCallFeatureRuntime) : outcome_of :=
  let s := set_running (delete n (running s)) s in
  if negb (isCurrent s (run_leg r) (run_lifecycle r)) then (s, [])
  else
    match heap s !! run_capture r with
    | None => (s, [])
    | Some x =>
        match settle (machine x) with
        | Throw _ => (s, [Uncaught])
        | Ok (m, _) => (set_capture (run_capture r) (with_machine m x) s, [])
        end
    end.

(** ** Events *)
Inductive Event :=
| EvOffer (leg digit : string)
| EvBegin (offer : nat)
| EvArtifact (offer : nat) (answer : result string (option (list FeatureCodes.FeatureCodes.CompiledFeatureCode)))
| EvDecide (offer : nat) (now : Z) (recording pending : bool)
| EvTimer (timer : nat) (recording pending : bool)
| EvSettled (run : nat)
| EvArm (leg digit : string)
| EvDisarm (leg : string)
| EvRelease (leg : string)
| EvClear
| EvLeg (leg : string) (view : option LegView).

(** [None]: the event cannot happen here. *)
Definition handle (s : MidCallFeatureRuntime) (e : Event) : option outcome_of :=
  match e with
  | EvOffer leg digit => Some (offer leg digit s)
  | EvBegin id =>
      o ← offers s !! id;
      match of_stage o with
      | queued => if next_in_line s o then Some (begin_offer id o s) else None
      | _ => None
      end
  | EvArtifact id answer =>
      o ← offers s !! id;
      match of_stage o with looking key => Some (build_capture id o key answer s) | _ => None end
  | EvDecide id now recording pending =>
      o ← offers s !! id;
      match of_stage o with found c => Some (decide_offer id o c now recording pending s) | _ => None end
  | EvTimer n recording pending => w ← wakes s !! n; Some (fire n w recording pending s)
  | EvSettled n => r ← running s !! n; Some (settle_run n r s)
  | EvArm leg digit => Some (armCancelKey leg digit s)
  | EvDisarm leg => Some (disarmCancelKey leg s)
  | EvRelease leg => Some (release leg s)
  | EvClear => Some (clear s)
  | EvLeg leg view => Some (set_legs (partial_alter (λ _, view) leg (legs s)) s, [])
  end.

(** The events one after the other, with everything that was called and answered. *)
Fixpoint run_events (s : MidCallFeatureRuntime) (es : list Event) : option outcome_of :=
  match es with
  | [] => Some (s, [])
  | e :: es =>
      match handle s e with
      | None => None
      | Some (s, out) =>
          match run_events s es with Some (s', out') => Some (s', out ++ out') | None => None end
      end
  end.
End MidCallFeatureRuntime.
End MidCallRuntime.
