(* ===== verification/MidCallRuntimeFacts.v ===== *)
(** * What the mid-call runtime guarantees

    Theorems about MidCallRuntime.v, for every sequence of events: digits reach the
    machine of a leg in the order they were pressed and nothing the machine does is
    thrown away; an operation is performed only for a leg that is up and bridged, on an
    instance that is not draining, and only because the organization's catalogue or an
    armed cancel key says so. *)

From S2P Require Import Prelude Machines Dtmf MidCall MidCallRuntime.
From S2P Require FeatureCodes.

Module MidCallRuntimeFacts.
Import MidCall MidCallRuntime.

(** ** The line of digits

    The runtime as a line of digits for each leg: an offer joins the line of its leg,
    moves when its predecessor is done, and leaves it, pushed to the machine or not. *)
Definition pushes (out : list Action) : list (string * nat) :=
  omap (λ a, match a with PushDigit leg id _ => Some (leg, id) | _ => None end) out.

Inductive line_step (s s' : MidCallFeatureRuntime) : list (string * nat) → Prop :=
| line_same :
    offers s' = offers s → chains s' = chains s → lifecycles s' = lifecycles s → minted s ≤ minted s' →
    line_step s s' []
| line_moved id o stage :
    offers s !! id = Some o → of_stage o ≠ queued ∨ next_in_line s o = true →
    offers s' = <[id := at_stage stage o]> (offers s) → chains s' = chains s → lifecycles s' = lifecycles s →
    minted s ≤ minted s' → line_step s s' []
| line_done id o pushed :
    offers s !! id = Some o → of_stage o ≠ queued ∨ next_in_line s o = true →
    offers s' = delete id (offers s) → chains s' = chains s → lifecycles s' = lifecycles s →
    minted s ≤ minted s' →
    pushed = [] ∨ (pushed = [(of_leg o, id)] ∧ lifecycles s !! of_leg o = Some (of_lifecycle o)) →
    line_step s s' pushed
| line_joined leg digit life :
    lifecycles s !! leg = Some life ∨ (lifecycles s !! leg = None ∧ minted s < life) →
    life < minted s' ∨ lifecycles s !! leg = Some life →
    offers s' = <[minted s := {| of_leg := leg; of_digit := digit; of_lifecycle := life;
                                 of_previous := chains s !! leg; of_stage := queued |}]> (offers s) →
    chains s' = <[leg := minted s]> (chains s) → lifecycles s' = <[leg := life]> (lifecycles s) →
    minted s < minted s' → line_step s s' []
| line_forgotten leg :
    offers s' = offers s → chains s' = delete leg (chains s) → lifecycles s' = delete leg (lifecycles s) →
    minted s ≤ minted s' → line_step s s' []
| line_cleared :
    offers s' = offers s → chains s' = chains s ∨ chains s' = ∅ → lifecycles s' = ∅ → minted s ≤ minted s' →
    line_step s s' [].

Definition log_of (leg : string) (log : list (string * nat)) : list nat :=
  omap (λ x : string * nat, if decide (x.1 = leg) then Some x.2 else None) log.

Record in_line (log : list (string * nat)) (s : MidCallFeatureRuntime) : Prop := {
  li_offers : ∀ id o, offers s !! id = Some o → id < minted s ∧ of_lifecycle o < minted s;
  li_lives : ∀ leg l, lifecycles s !! leg = Some l → l < minted s;
  li_before : ∀ id o p, offers s !! id = Some o → of_previous o = Some p → p < id;
  li_chains : ∀ leg p, chains s !! leg = Some p → p < minted s;
  (* whoever has somebody before them waits for somebody *)
  li_previous : ∀ id1 o1 id2 o2, offers s !! id1 = Some o1 → offers s !! id2 = Some o2 → id1 < id2 →
    of_leg o1 = of_leg o2 → of_lifecycle o1 = of_lifecycle o2 →
    ∃ p o, of_previous o2 = Some p ∧ id1 ≤ p ∧ offers s !! p = Some o ∧ of_leg o = of_leg o2 ∧ of_lifecycle o = of_lifecycle o2;
  (* whoever has moved waits for nobody *)
  li_moved : ∀ id o, offers s !! id = Some o → of_stage o ≠ queued → next_in_line s o = true;
  li_last : ∀ id o, offers s !! id = Some o → lifecycles s !! of_leg o = Some (of_lifecycle o) →
    ∃ p o', chains s !! of_leg o = Some p ∧ id ≤ p ∧ offers s !! p = Some o' ∧
      of_leg o' = of_leg o ∧ of_lifecycle o' = of_lifecycle o;
  li_log : ∀ leg id, (leg, id) ∈ log → id < minted s ∧
    ∀ id' o, offers s !! id' = Some o → of_leg o = leg → lifecycles s !! leg = Some (of_lifecycle o) → id < id';
  li_sorted : ∀ leg, StronglySorted lt (log_of leg log) }.

Lemma in_line_init : in_line [] runtime_init.
Proof.
  split; simpl; try (intros *; by rewrite lookup_empty); [..|intros; constructor].
  intros leg id H. by apply elem_of_nil in H.
Qed.

(** Whoever may leave is the first. *)
Lemma first_in_line log s id o id1 o1 :
  in_line log s → offers s !! id = Some o → of_stage o ≠ queued ∨ next_in_line s o = true →
  offers s !! id1 = Some o1 → of_leg o1 = of_leg o → of_lifecycle o1 = of_lifecycle o → id ≤ id1.
Proof.
  intros Hl Ho Hm Ho1 Hleg Hlife. assert (Hn : next_in_line s o = true) by (destruct Hm; [by eapply li_moved|done]).
  destruct (decide (id ≤ id1)) as [|Hlt]; [done|].
  destruct (li_previous _ _ Hl id1 o1 id o) as (p & op & Hp & _ & Hop & _); try done; [lia|].
  unfold next_in_line in Hn. rewrite Hp in Hn. apply bool_decide_eq_true in Hn. by rewrite Hop in Hn.
Qed.

Lemma next_in_line_ext s s' o : offers s' = offers s → next_in_line s' o = next_in_line s o.
Proof. intros H. unfold next_in_line. by rewrite H. Qed.

Lemma in_line_same log s s' :
  offers s' = offers s → chains s' = chains s → lifecycles s' = lifecycles s → minted s ≤ minted s' →
  in_line log s → in_line log s'.
Proof.
  intros Ho Hc Hl Hm [H1 H2 Hb Hch H3 H4 H5 H6 H7]. split; rewrite ?Ho, ?Hc, ?Hl; try done.
  - intros id o H. destruct (H1 id o H). lia.
  - intros leg l H. specialize (H2 leg l H). lia.
  - intros leg p H. specialize (Hch leg p H). lia.
  - intros id o H Hs. rewrite (next_in_line_ext s s') by done. by eapply H4.
  - intros leg id H. destruct (H6 leg id H) as [Hid H']. split; [lia|done].
Qed.

(** An offer that moves stays where it is. *)
Lemma in_line_moved log s s' id o stage :
  offers s !! id = Some o → of_stage o ≠ queued ∨ next_in_line s o = true →
  offers s' = <[id := at_stage stage o]> (offers s) → chains s' = chains s → lifecycles s' = lifecycles s →
  minted s ≤ minted s' → in_line log s → in_line log s'.
Proof.
  intros Ho Hm Hos Hc Hl Hmin Hline. destruct Hline as [H1 H2 Hb Hch H3 H4 H5 H6 H7].
  assert (Hat : ∀ i x, offers s' !! i = Some x → ∃ y, offers s !! i = Some y ∧ of_leg y = of_leg x ∧
    of_lifecycle y = of_lifecycle x ∧ of_previous y = of_previous x ∧ (of_stage y = of_stage x ∨ i = id ∧ y = o)).
  { intros i x. rewrite Hos. intros [(<- & <-)|(Hne & Hx)]%lookup_insert_Some; [exists o|exists x]; naive_solver. }
  assert (Hta : ∀ i y, offers s !! i = Some y → ∃ x, offers s' !! i = Some x ∧ of_leg x = of_leg y ∧
    of_lifecycle x = of_lifecycle y).
  { intros i y Hy. rewrite Hos. destruct (decide (id = i)) as [<-|Hne].
    - rewrite Ho in Hy. injection Hy as <-. exists (at_stage stage o). by rewrite lookup_insert_eq.
    - exists y. by rewrite lookup_insert_ne. }
  assert (Hnil : ∀ x y, of_previous x = of_previous y → next_in_line s y = true → next_in_line s' x = true).
  { intros x y Hp. unfold next_in_line. rewrite Hp. destruct (of_previous y) as [p|]; [|done].
    rewrite !bool_decide_eq_true. intros Hn. rewrite Hos. apply lookup_insert_None. split; [done|]. intros <-.
    by rewrite Ho in Hn. }
  split; rewrite ?Hc, ?Hl; try done.
  - intros i x Hx. destruct (Hat i x Hx) as (y & Hy & _ & <- & _). destruct (H1 i y Hy). lia.
  - intros leg l H. specialize (H2 leg l H). lia.
  - intros i x p Hx Hp. destruct (Hat i x Hx) as (y & Hy & _ & _ & Hp' & _). eapply Hb; [done|congruence].
  - intros leg p H. specialize (Hch leg p H). lia.
  - intros i1 x1 i2 x2 Hx1 Hx2 Hlt Hleg Hlife.
    destruct (Hat i1 x1 Hx1) as (y1 & Hy1 & Hl1 & Hf1 & _). destruct (Hat i2 x2 Hx2) as (y2 & Hy2 & Hl2 & Hf2 & Hp2 & _).
    destruct (H3 i1 y1 i2 y2 Hy1 Hy2 Hlt) as (p & op & Hp & Hle & Hop & Hopl & Hopf); [congruence..|].
    destruct (Hta p op Hop) as (op' & Hop' & E1 & E2). exists p, op'. split_and!; congruence.
  - intros i x Hx Hs. destruct (Hat i x Hx) as (y & Hy & _ & _ & Hp & [Hst|[-> ->]]).
    + apply (Hnil x y); [done|]. eapply H4; [done|]. congruence.
    + apply (Hnil x o); [done|]. destruct Hm as [Hq|Hq]; [by eapply H4|done].
  - intros i x Hx Hlive. destruct (Hat i x Hx) as (y & Hy & Hl1 & Hf1 & _). rewrite <- Hl1, <- Hf1 in *.
    destruct (H5 i y Hy Hlive) as (p & op & Hp & Hle & Hop & E1 & E2). destruct (Hta p op Hop) as (op' & Hop' & E3 & E4).
    exists p, op'. split_and!; congruence.
  - intros leg i Hin. destruct (H6 leg i Hin) as [Hid H']. split; [lia|]. intros i' x Hx Hleg Hlive.
    destruct (Hat i' x Hx) as (y & Hy & Hl1 & Hf1 & _). apply (H' i' y Hy); congruence.
Qed.

Lemma log_of_app leg log1 log2 : log_of leg (log1 ++ log2) = log_of leg log1 ++ log_of leg log2.
Proof. apply omap_app. Qed.

Lemma elem_of_log_of leg log id : id ∈ log_of leg log ↔ (leg, id) ∈ log.
Proof.
  unfold log_of. rewrite list_elem_of_omap. split.
  - intros ([l n] & Hin & Hd). simpl in Hd. case_decide; [|done]. by simplify_eq.
  - intros Hin. exists (leg, id). split; [done|]. simpl. by rewrite decide_True.
Qed.

(** The first of a line leaves it. *)
Lemma in_line_done log s s' id o pushed :
  offers s !! id = Some o → of_stage o ≠ queued ∨ next_in_line s o = true →
  offers s' = delete id (offers s) → chains s' = chains s → lifecycles s' = lifecycles s →
  minted s ≤ minted s' →
  pushed = [] ∨ (pushed = [(of_leg o, id)] ∧ lifecycles s !! of_leg o = Some (of_lifecycle o)) →
  in_line log s → in_line (log ++ pushed) s'.
Proof.
  intros Ho Hm Hos Hc Hl Hmin Hpu Hline.
  pose proof (λ i1 o1 H1, first_in_line log s id o i1 o1 Hline Ho Hm H1) as Hfirst.
  destruct Hline as [H1 H2 Hb Hch H3 H4 H5 H6 H7].
  assert (Hat : ∀ i x, offers s' !! i = Some x → i ≠ id ∧ offers s !! i = Some x).
  { intros i x. rewrite Hos. intros [Hne Hx]%lookup_delete_Some. done. }
  assert (Hta : ∀ i x, i ≠ id → offers s !! i = Some x → offers s' !! i = Some x).
  { intros i x Hne Hx. rewrite Hos. by rewrite lookup_delete_ne by done. }
  split; rewrite ?Hc, ?Hl.
  - intros i x [_ Hx]%Hat. destruct (H1 i x Hx). lia.
  - intros leg l H. specialize (H2 leg l H). lia.
  - intros i x p [_ Hx]%Hat. by apply Hb.
  - intros leg p H. specialize (Hch leg p H). lia.
  - intros i1 x1 i2 x2 [Hn1 Hx1]%Hat [Hn2 Hx2]%Hat Hlt Hleg Hlife.
    destruct (H3 i1 x1 i2 x2 Hx1 Hx2 Hlt Hleg Hlife) as (p & op & Hp & Hle & Hop & E1 & E2).
    exists p, op. split_and!; try done. apply Hta; [|done]. intros ->. rewrite Ho in Hop. injection Hop as <-.
    assert (id ≤ i1) by (eapply Hfirst; [done|congruence..]). lia.
  - intros i x [Hne Hx]%Hat Hs. specialize (H4 i x Hx Hs). unfold next_in_line in *. destruct (of_previous x) as [p|]; [|done].
    rewrite bool_decide_eq_true in *. rewrite Hos. apply lookup_delete_None. by right.
  - intros i x [Hne Hx]%Hat Hlive. destruct (H5 i x Hx Hlive) as (p & op & Hp & Hle & Hop & E1 & E2).
    exists p, op. split_and!; try done. apply Hta; [|done]. intros ->. rewrite Ho in Hop. injection Hop as <-.
    assert (id ≤ i) by (eapply Hfirst; [done|congruence..]). lia.
  - intros leg i [Hin|Hin]%elem_of_app.
    + destruct (H6 leg i Hin) as [Hid H']. split; [lia|]. intros i' x [_ Hx]%Hat. by apply H'.
    + destruct Hpu as [->|[-> Hlive]]; [by apply elem_of_nil in Hin|].
      apply list_elem_of_singleton in Hin as [= -> ->]. destruct (H1 id o Ho). split; [lia|].
      intros i' x [Hne Hx]%Hat Hleg Hlive'. assert (id ≤ i') by (eapply Hfirst; [done|congruence..]). lia.
  - intros leg. rewrite log_of_app. destruct Hpu as [->|[-> Hlive]]; [by rewrite app_nil_r|].
    unfold log_of at 2. simpl. case_decide as Hd; [|by rewrite app_nil_r].
    apply StronglySorted_app. split_and!; [|done|by repeat constructor].
    intros x y Hx ->%list_elem_of_singleton. apply elem_of_log_of in Hx.
    destruct (H6 leg x Hx) as [_ H']. apply (H' id o Ho Hd). congruence.
Qed.
(** A digit joins the line of its leg. *)
Lemma in_line_joined log s s' leg digit life :
  lifecycles s !! leg = Some life ∨ (lifecycles s !! leg = None ∧ minted s < life) →
  life < minted s' ∨ lifecycles s !! leg = Some life →
  offers s' = <[minted s := {| of_leg := leg; of_digit := digit; of_lifecycle := life;
                               of_previous := chains s !! leg; of_stage := queued |}]> (offers s) →
  chains s' = <[leg := minted s]> (chains s) → lifecycles s' = <[leg := life]> (lifecycles s) →
  minted s < minted s' → in_line log s → in_line log s'.
Proof.
  intros Hlife Hlt Hos Hc Hl Hm [H1 H2 Hb Hch H3 H4 H5 H6 H7].
  assert (Hnew : offers s !! minted s = None).
  { destruct (offers s !! minted s) eqn:E; [|done]. destruct (H1 _ _ E). lia. }
  assert (Hold : ∀ i x, offers s !! i = Some x → offers s' !! i = Some x).
  { intros i x Hx. rewrite Hos, lookup_insert_ne; [done|]. intros <-. by rewrite Hnew in Hx. }
  (* the offers of this life were here before, and so was the life *)
  assert (Hsame : ∀ i x, offers s !! i = Some x → of_leg x = leg → of_lifecycle x = life → lifecycles s !! leg = Some life).
  { intros i x Hx _ Hf. destruct (H1 i x Hx) as [_ Hf']. destruct Hlife as [?|[_ Hgt]]; [done|lia]. }
  assert (Hl' : life < minted s') by (destruct Hlt as [?|Hl0]; [done|specialize (H2 _ _ Hl0); lia]).
  split; rewrite ?Hc, ?Hl.
  - intros i x. rewrite Hos. intros [(<- & <-)|(_ & Hx)]%lookup_insert_Some; simpl; [lia|]. destruct (H1 i x Hx). lia.
  - intros leg' l [(<- & <-)|(_ & H)]%lookup_insert_Some; [done|]. specialize (H2 _ _ H). lia.
  - intros i x p. rewrite Hos. intros [(<- & <-)|(_ & Hx)]%lookup_insert_Some; simpl; [apply Hch|by apply Hb].
  - intros leg' p [(<- & <-)|(_ & H)]%lookup_insert_Some; [done|]. specialize (Hch _ _ H). lia.
  - intros i1 x1 i2 x2. rewrite Hos.
    intros [(<- & <-)|(Hn1 & Hx1)]%lookup_insert_Some [(<- & <-)|(Hn2 & Hx2)]%lookup_insert_Some Hi; simpl.
    + lia.
    + destruct (H1 i2 x2 Hx2). lia.
    + intros Hleg Hf. destruct (H5 i1 x1 Hx1) as (p & op & Hp & Hle & Hop & E1 & E2).
      { rewrite Hleg, Hf. eapply Hsame; [exact Hx1|done|done]. }
      rewrite Hleg in Hp. exists p, op. split_and!; [done|done|rewrite <- Hos; by apply Hold|congruence|congruence].
    + intros Hleg Hf. destruct (H3 i1 x1 i2 x2 Hx1 Hx2 Hi Hleg Hf) as (p & op & Hp & Hle & Hop & E).
      exists p, op. split_and!; try done; [|naive_solver..]. rewrite <- Hos. by apply Hold.
  - intros i x. rewrite Hos. intros [(<- & <-)|(Hn & Hx)]%lookup_insert_Some Hs; [done|].
    specialize (H4 i x Hx Hs). unfold next_in_line in *. destruct (of_previous x) as [p|] eqn:Hp; [|done].
    rewrite bool_decide_eq_true in *. rewrite Hos, lookup_insert_ne; [done|]. intros <-.
    specialize (Hb i x (minted s) Hx Hp). destruct (H1 i x Hx). lia.
  - intros i x. rewrite Hos. intros [(<- & <-)|(Hn & Hx)]%lookup_insert_Some; simpl.
    + intros _. exists (minted s), {| of_leg := leg; of_digit := digit; of_lifecycle := life;
        of_previous := chains s !! leg; of_stage := queued |}. by rewrite !lookup_insert_eq.
    + destruct (H1 i x Hx). destruct (decide (of_leg x = leg)) as [Hleg|Hleg].
      * rewrite Hleg, lookup_insert_eq. intros [= Hf]. exists (minted s), {| of_leg := leg; of_digit := digit;
          of_lifecycle := life; of_previous := chains s !! leg; of_stage := queued |}.
        rewrite !lookup_insert_eq. split_and!; try done. lia.
      * rewrite !(lookup_insert_ne _ leg) by done. intros Hlive.
        destruct (H5 i x Hx Hlive) as (p & op & Hp & Hle & Hop & E). exists p, op. rewrite <- Hos. split_and!; naive_solver.
  - intros leg' i Hin. destruct (H6 leg' i Hin) as [Hid H']. split; [lia|]. intros i' x. rewrite Hos.
    intros [(<- & <-)|(Hn & Hx)]%lookup_insert_Some; simpl; [done|]. intros Hleg.
    destruct (decide (leg' = leg)) as [->|Hne].
    + rewrite lookup_insert_eq. intros [= Hf]. apply (H' i' x Hx Hleg). rewrite <- Hf. by eapply Hsame.
    + rewrite lookup_insert_ne by done. by apply H'.
  - done.
Qed.

Lemma in_line_forgotten log s s' leg :
  offers s' = offers s → chains s' = delete leg (chains s) → lifecycles s' = delete leg (lifecycles s) →
  minted s ≤ minted s' → in_line log s → in_line log s'.
Proof.
  intros Ho Hc Hl Hm [H1 H2 Hb Hch H3 H4 H5 H6 H7]. split; rewrite ?Ho, ?Hc, ?Hl; try done.
  - intros id o H. destruct (H1 id o H). lia.
  - intros leg' l [_ H]%lookup_delete_Some. specialize (H2 leg' l H). lia.
  - intros leg' p [_ H]%lookup_delete_Some. specialize (Hch leg' p H). lia.
  - intros id o H Hs. rewrite (next_in_line_ext s s') by done. by eapply H4.
  - intros id o H [Hne Hlive]%lookup_delete_Some. rewrite lookup_delete_ne by done. by apply H5.
  - intros leg' id H. destruct (H6 leg' id H) as [Hid H']. split; [lia|]. intros id' o Ho' Hleg [_ Hlive]%lookup_delete_Some.
    by eapply H'.
Qed.

Lemma in_line_cleared log s s' :
  offers s' = offers s → chains s' = chains s ∨ chains s' = ∅ → lifecycles s' = ∅ → minted s ≤ minted s' →
  in_line log s → in_line log s'.
Proof.
  intros Ho Hc Hl Hm [H1 H2 Hb Hch H3 H4 H5 H6 H7]. split; rewrite ?Ho, ?Hl; try done.
  - intros id o H. destruct (H1 id o H). lia.
  - intros leg' p. destruct Hc as [->| ->]; [|done]. intros H. specialize (Hch leg' p H). lia.
  - intros id o H Hs. rewrite (next_in_line_ext s s') by done. by eapply H4.
  - intros leg' id H. destruct (H6 leg' id H) as [Hid H']. split; [lia|]. by intros id' o Ho' Hleg.
Qed.

(** Every step keeps the lines, and what it pushes is the first of a line. *)
Lemma in_line_step log s s' pushed : line_step s s' pushed → in_line log s → in_line (log ++ pushed) s'.
Proof.
  intros Hs Hl. destruct Hs; rewrite ?app_nil_r.
  - by eapply in_line_same.
  - by eapply in_line_moved.
  - by eapply in_line_done.
  - by eapply in_line_joined.
  - by eapply in_line_forgotten.
  - by eapply in_line_cleared.
Qed.

Section Facts.
Context (localeCompare : string → string → Z) (settings : MidCallFeatureSettings).

Abbreviation handled := (handle localeCompare settings).
Abbreviation happens := (run_events localeCompare settings).

(** ** Captures and operations *)
Section Sound.
(** The events of a run. *)
Context (seen : Event → Prop).

Definition armed_key (k : string) : Prop := ∃ leg, seen (EvArm leg k).

(** Where a table comes from. *)
Definition origin (table : list MidCallFeatureCode) : Prop :=
  ∃ featureCodes key, table = orderMidCallFeatureCodes localeCompare (tableFor featureCodes key) ∧
    (∃ id, seen (EvArtifact id (Ok featureCodes))) ∧ ∀ k, key = Some k → armed_key k.

Definition good_capture (x : LegCapture) : Prop :=
  capture_inv (cap_table x) settings (machine x) ∧ origin (cap_table x).

Record sound (s : MidCallFeatureRuntime) : Prop := {
  so_heap : ∀ c x, heap s !! c = Some x → good_capture x;
  so_keys : ∀ leg k, cancelKeys s !! leg = Some k → armed_key k;
  so_looking : ∀ id o k, offers s !! id = Some o → of_stage o = looking (Some k) → armed_key k }.

Lemma sound_fresh : sound runtime_init.
Proof. split; intros *; simpl; by rewrite lookup_empty. Qed.

Lemma sound_ext s s' :
  heap s' = heap s → cancelKeys s' = cancelKeys s → offers s' = offers s → sound s → sound s'.
Proof. intros Hh Hk Ho [H1 H2 H3]. split; rewrite ?Hh, ?Hk, ?Ho; done. Qed.

Lemma sound_heap s s' c x :
  heap s' = <[c := x]> (heap s) → cancelKeys s' = cancelKeys s → offers s' = offers s →
  good_capture x → sound s → sound s'.
Proof.
  intros Hh Hk Ho Hx [H1 H2 H3]. split; rewrite ?Hh, ?Hk, ?Ho; [|done..].
  intros c' x' [(<- & <-)|(_ & H)]%lookup_insert_Some; [done|by eapply H1].
Qed.

(** What may be called because of [x]. *)
Definition asked_for (a : FeatureCodes.FeatureCodes.FeatureCodeAction) : Prop :=
  ∃ id featureCodes fc, seen (EvArtifact id (Ok (Some featureCodes))) ∧ fc ∈ featureCodes ∧
    FeatureCodes.FeatureCodes.fc_action fc = a.

Definition warranted (a : Action) : Prop :=
  match a with
  | DoTransfer _ argument => argument ≠ "" ∧ asked_for FeatureCodes.FeatureCodes.transfer
  | DoStartRecording _ | DoStopRecording _ => asked_for FeatureCodes.FeatureCodes.record_toggle
  | DoPark _ orbit => orbit ≠ Some "" ∧ asked_for FeatureCodes.FeatureCodes.call_park
  | DoCancelTransfer _ => ∃ k, armed_key k
  | _ => True
  end.

Definition operates_on (a : Action) : option string :=
  match a with
  | DoTransfer leg _ | DoStartRecording leg | DoStopRecording leg | DoPark leg _ | DoCancelTransfer leg => Some leg
  | _ => None
  end.

(** The leg is up and bridged on an instance that is not draining. *)
Definition in_conversation (s : MidCallFeatureRuntime) (leg : string) : Prop :=
  stopped s = false ∧
  ∃ v, legs s !! leg = Some v ∧ lv_isTearingDown v = false ∧ lv_isAnswered v = true ∧ lv_bridged v = true.

Definition fine (s : MidCallFeatureRuntime) (a : Action) : Prop :=
  a ≠ Uncaught ∧ (∀ id, a = Rejected id → ∃ e, seen (EvArtifact id (Throw e))) ∧
  ∀ leg, operates_on a = Some leg → in_conversation s leg ∧ warranted a.

Lemma fine_other s a :
  a ≠ Uncaught → (∀ id, a ≠ Rejected id) → operates_on a = None → fine s a.
Proof. intros H1 H2 H3. split_and!; [done|by intros id ->; destruct (H2 id)|by rewrite H3]. Qed.

Lemma isCurrent_true s leg life :
  isCurrent s leg life = true → in_conversation s leg ∧ lifecycles s !! leg = Some life.
Proof.
  unfold isCurrent, in_conversation. intros [[Hs Hl]%andb_prop Hv]%andb_prop.
  apply negb_true_iff in Hs. apply bool_decide_eq_true in Hl. split; [|done]. split; [done|].
  destruct (legs s !! leg) as [v|]; [|done]. apply andb_prop in Hv as [[Ht Ha]%andb_prop Hb].
  apply negb_true_iff in Ht. by exists v.
Qed.

(** The rows of a table. *)
Lemma elem_of_tableFor featureCodes key e :
  e ∈ tableFor featureCodes key →
  (action e = act_cancel ∧ is_Some key) ∨
  (∃ l fc, featureCodes = Some l ∧ fc ∈ l ∧
     MID_CALL_ACTION_BY_COMPILED_ACTION (FeatureCodes.FeatureCodes.fc_action fc) = Some (action e) ∧
     argumentMode e = None).
Proof.
  unfold tableFor. intros [Hin|Hin]%elem_of_app.
  - right. destruct featureCodes as [l|]; [|by apply elem_of_nil in Hin]. simpl in Hin.
    apply list_elem_of_omap in Hin as (fc & Hfc & He). exists l, fc. split_and!; [done|done|..].
    + by destruct (MID_CALL_ACTION_BY_COMPILED_ACTION _) eqn:Ha; simplify_eq/=.
    + by destruct (MID_CALL_ACTION_BY_COMPILED_ACTION _) eqn:Ha; simplify_eq/=.
  - left. destruct key as [k|]; [|by apply elem_of_nil in Hin]. apply list_elem_of_singleton in Hin as ->. by eauto.
Qed.

(** What an execution of a good capture calls is warranted. *)
Lemma perform_warranted x e leg recording pending a :
  origin (cap_table x) → execution_ok (cap_table x) settings e →
  perform leg e recording pending = Some a → operates_on a = Some leg ∧ warranted a.
Proof.
  intros (fcs & key & Ht & (id & Hid) & Hkey) (_ & r & Hin & Hc & Ha & _ & Hreq & _) Hp.
  rewrite Ht in Hin. apply elem_of_order in Hin as [_ Hin]. apply elem_of_tableFor in Hin as [[Hr [k Hk]]|(l & fc & -> & Hfc & Hact & Hmode)].
  - unfold perform in Hp. rewrite <- Ha, Hr in Hp. destruct pending; [|done]. injection Hp as <-. split; [done|].
    exists k. by apply Hkey.
  - assert (asked_for (FeatureCodes.FeatureCodes.fc_action fc)) as Hasked by (by exists id, l, fc).
    unfold perform in Hp. rewrite <- Ha in Hp.
    destruct (FeatureCodes.FeatureCodes.fc_action fc); try done; simpl in Hact;
      injection Hact as Hact; rewrite <- Hact in Hp; injection Hp as <-; (split; [by repeat case_match|]).
    + split; [|done]. case_bool_decide; [done|]. by intros [= ].
    + by destruct recording.
    + split; [|done]. apply Hreq. unfold argumentModeOf. by rewrite Hmode, <- Hact.
Qed.

(** *** The helpers keep what is good *)
Lemma dropCapture_spec leg s :
  sound s → ∃ s', dropCapture leg s = (s', false) ∧ sound s' ∧
    offers s' = offers s ∧ chains s' = chains s ∧ lifecycles s' = lifecycles s ∧ minted s' = minted s ∧
    cancelKeys s' = cancelKeys s ∧ stopped s' = stopped s ∧ legs s' = legs s.
Proof.
  intros Hs. unfold dropCapture. destruct (captures s !! leg) as [c|]; [|by exists s].
  destruct (heap s !! c) as [x|] eqn:Hx; [|by exists s]. destruct (so_heap s Hs c x Hx) as [Hi Ho].
  destruct (mc_apply_answers (cap_table x) settings (machine x) McCancel Hi) as (m & st & Hc & Hm & _).
  cbn [mc_apply] in Hc. rewrite Hc. eexists. split; [done|]. split; [|done].
  by eapply (sound_heap s _ c (with_machine m x)).
Qed.

Lemma rearm_spec leg c wake life s :
  sound s → sound (rearm leg c wake life s) ∧ offers (rearm leg c wake life s) = offers s ∧
    chains (rearm leg c wake life s) = chains s ∧ lifecycles (rearm leg c wake life s) = lifecycles s ∧
    minted s ≤ minted (rearm leg c wake life s) ∧ stopped (rearm leg c wake life s) = stopped s ∧
    legs (rearm leg c wake life s) = legs s.
Proof.
  intros Hs. unfold rearm. destruct (heap s !! c) as [x|] eqn:Hx; [|by split_and!].
  pose proof (so_heap s Hs c x Hx) as Hg.
  assert (H1 : ∀ w t, sound (set_captures (captures s) (<[c := {| machine := machine x; cap_table := cap_table x;
     timer := t; cap_cancelKey := cap_cancelKey x |}]> (heap s)) w s)) by (intros; by eapply (sound_heap s _ c _)).
  cbv zeta. destruct wake as [at_|]; [|split_and!; simpl; done || apply H1].
  destruct (isCurrent _ leg life); [|split_and!; simpl; done || apply H1].
  simpl. split_and!; try done; [|lia]. eapply (sound_heap s _ c); [..|done]; [|done..|]; simpl; [apply insert_insert_eq|done].
Qed.

Lemma begin_run_spec leg x c e life recording pending s :
  sound s → origin (cap_table x) → (∀ e', e = Some e' → execution_ok (cap_table x) settings e') →
  let '(s', out) := begin_run leg c e life recording pending s in
  sound s' ∧ Forall (fine s) out ∧ offers s' = offers s ∧ chains s' = chains s ∧ lifecycles s' = lifecycles s ∧
  minted s ≤ minted s' ∧ (∀ l id d, PushDigit l id d ∉ out).
Proof.
  intros Hs Ho He. unfold begin_run. destruct e as [e|]; [|split_and!; try done; intros *; apply not_elem_of_nil].
  destruct (isCurrent s leg life) eqn:Hc; cbn [negb]; [|split_and!; try done; intros *; apply not_elem_of_nil].
  simpl. split_and!; try done; [by apply (sound_ext s)|..|lia|].
  - destruct (perform leg e recording pending) as [a|] eqn:Hp; [|done]. constructor; [|done].
    destruct (perform_warranted x e leg recording pending a Ho (He e eq_refl) Hp) as [Hop Hw].
    apply isCurrent_true in Hc as [Hc _]. split_and!; [by intros ->|by intros ? ->|].
    intros leg' Hl. rewrite Hop in Hl. injection Hl as <-. done.
  - intros l id d Hin. destruct (perform leg e recording pending) as [a|] eqn:Hp; [|by apply elem_of_nil in Hin].
    apply list_elem_of_singleton in Hin as <-. destruct (perform_warranted x e leg recording pending _ Ho (He e eq_refl) Hp) as [Hop _].
    done.
Qed.

(** *** The handlers *)
Definition kept (s : MidCallFeatureRuntime) (r : MidCallFeatureRuntime * list Action) : Prop :=
  sound r.1 ∧ Forall (fine s) r.2 ∧ line_step s r.1 (pushes r.2).

Lemma kept_same s s' :
  sound s' → offers s' = offers s → chains s' = chains s → lifecycles s' = lifecycles s → minted s ≤ minted s' →
  kept s (s', []).
Proof. intros. split_and!; [done|done|by apply line_same]. Qed.

Lemma kept_refl s : sound s → kept s (s, []).
Proof. intros. by apply kept_same. Qed.

Lemma sound_keys s s' :
  heap s' = heap s → offers s' = offers s → (∀ leg k, cancelKeys s' !! leg = Some k → armed_key k) → sound s → sound s'.
Proof. intros Hh Ho Hk [H1 H2 H3]. split; rewrite ?Hh, ?Ho; done. Qed.

Lemma armCancelKey_kept leg digit s : sound s → seen (EvArm leg digit) → kept s (armCancelKey leg digit s).
Proof.
  intros Hs He. unfold armCancelKey. destruct (stopped s); [by apply kept_refl|].
  destruct (dropCapture_spec leg (set_keys (<[leg := digit]> (cancelKeys s)) s))
    as (s' & -> & Hs' & Ho & Hc & Hl & Hm & _).
  - apply (sound_keys s); try done. simpl. intros l k [(<- & <-)|(_ & H)]%lookup_insert_Some; [by exists leg|].
    by eapply so_keys.
  - apply kept_same; try done. rewrite Hm. simpl. lia.
Qed.

Lemma disarmCancelKey_kept leg s : sound s → kept s (disarmCancelKey leg s).
Proof.
  intros Hs. unfold disarmCancelKey. destruct (cancelKeys s !! leg); [|by apply kept_refl].
  destruct (dropCapture_spec leg (set_keys (delete leg (cancelKeys s)) s)) as (s' & -> & Hs' & Ho & Hc & Hl & Hm & _).
  - apply (sound_keys s); try done. simpl. intros l k' [_ H]%lookup_delete_Some. by eapply so_keys.
  - apply kept_same; try done. rewrite Hm. simpl. lia.
Qed.

Lemma release_kept leg s : sound s → kept s (release leg s).
Proof.
  intros Hs. unfold release.
  destruct (dropCapture_spec leg (set_keys (delete leg (cancelKeys s))
    (set_chains (delete leg (chains s)) (delete leg (lifecycles s)) s))) as (s' & -> & Hs' & Ho & Hc & Hl & Hm & _).
  - apply (sound_keys s); try done. simpl. intros l k' [_ H]%lookup_delete_Some. by eapply so_keys.
  - split_and!; [done|done|]. apply (line_forgotten _ _ leg); try done. simpl. rewrite Hm. simpl. lia.
Qed.

Lemma drop_all_spec keys s :
  sound s → ∃ s', drop_all keys s = (s', false) ∧ sound s' ∧ offers s' = offers s ∧ chains s' = chains s ∧
    lifecycles s' = lifecycles s ∧ minted s' = minted s.
Proof.
  unfold drop_all. revert s. induction keys as [|leg keys IH]; intros s Hs; [by exists s|]. cbn [foldl fst snd].
  destruct (dropCapture_spec leg s Hs) as (s1 & -> & Hs1 & Ho & Hc & Hl & Hm & _).
  destruct (IH s1 Hs1) as (s2 & -> & Hs2 & Ho2 & Hc2 & Hl2 & Hm2). exists s2. split_and!; congruence.
Qed.

Lemma clear_kept s : sound s → kept s (clear s).
Proof.
  intros Hs. unfold clear.
  destruct (drop_all_spec ((map_to_list (captures s)).*1) (set_chains (chains s) ∅ (set_stopped s)))
    as (s' & -> & Hs' & Ho & Hc & Hl & Hm); [by apply (sound_ext s)|].
  split_and!; [apply (sound_keys s'); done|done|].
  apply line_cleared; simpl; [done|by right|done|rewrite Hm; simpl; lia].
Qed.

Lemma offer_kept leg digit s : sound s → kept s (offer leg digit s).
Proof.
  intros Hs. unfold offer. simpl. destruct (stopped s).
  - split_and!; [by apply (sound_ext s)|constructor; [by apply fine_other|done]|]. apply line_same; simpl; done || lia.
  - destruct (lifecycles s !! leg) as [life|] eqn:Hlife; simpl.
    + split_and!; [|done|].
      * split; simpl; [apply (so_heap s Hs)|apply (so_keys s Hs)|].
        intros id o k [(<- & <-)|(_ & H)]%lookup_insert_Some; [done|by eapply so_looking].
      * eapply (line_joined _ _ leg digit life); simpl; try done; [by left|by right|lia].
    + split_and!; [|done|].
      * split; simpl; [apply (so_heap s Hs)|apply (so_keys s Hs)|].
        intros id o k [(<- & <-)|(_ & H)]%lookup_insert_Some; [done|by eapply so_looking].
      * eapply (line_joined _ _ leg digit (S (minted s))); simpl; try done; [right; split; [done|lia]|left; lia|lia].
Qed.

Lemma sound_offers s s' :
  heap s' = heap s → cancelKeys s' = cancelKeys s →
  (∀ id o k, offers s' !! id = Some o → of_stage o = looking (Some k) → armed_key k) → sound s → sound s'.
Proof. intros Hh Hk Ho [H1 H2 H3]. split; rewrite ?Hh, ?Hk; done. Qed.

Lemma sound_stage s id o stage :
  sound s → (∀ k, stage = looking (Some k) → armed_key k) →
  sound (set_offers (<[id := at_stage stage o]> (offers s)) s).
Proof.
  intros Hs Hst. apply (sound_offers s); try done. simpl.
  intros i x k [(<- & <-)|(_ & H)]%lookup_insert_Some; simpl; [apply Hst|by apply (so_looking s Hs i x)].
Qed.

Lemma sound_done s id : sound s → sound (set_offers (delete id (offers s)) s).
Proof.
  intros Hs. apply (sound_offers s); try done. simpl.
  intros i x k [_ H]%lookup_delete_Some. by apply (so_looking s Hs i x).
Qed.

Lemma begin_offer_kept id o s :
  sound s → offers s !! id = Some o → next_in_line s o = true → kept s (begin_offer id o s).
Proof.
  intros Hs Ho Hn. unfold begin_offer. destruct (isCurrent _ _ _); cbn [negb].
  - destruct (c ← captures s !! of_leg o; _) as [c|].
    + split_and!; [by apply sound_stage|done|]. by eapply line_moved; eauto.
    + split_and!; [|constructor; [by apply fine_other|done]|by eapply line_moved; eauto].
      apply sound_stage; [done|]. intros k [= Hk]. by eapply so_keys.
  - split_and!; [by apply sound_done|constructor; [by apply fine_other|done]|]. eapply line_done; eauto.
Qed.

Lemma build_capture_kept id o key answer s :
  sound s → offers s !! id = Some o → of_stage o = looking key → seen (EvArtifact id answer) →
  kept s (build_capture localeCompare id o key answer s).
Proof.
  intros Hs Ho Hst He. unfold build_capture. assert (Hq : of_stage o ≠ queued) by (by rewrite Hst).
  destruct answer as [fcs|e].
  - destruct (_ || _); [split_and!; [by apply sound_stage|done|by eapply line_moved; eauto]|].
    simpl. split_and!; [|done|by eapply (line_moved _ _ id o); eauto; simpl; lia].
    split; simpl; [|apply (so_keys s Hs)|].
    + intros c x [(<- & <-)|(_ & H)]%lookup_insert_Some; [|by eapply so_heap]. split; [apply capture_init_inv|].
      exists fcs, key. split_and!; [done|by eexists|]. intros k ->. by eapply so_looking.
    + intros i x k [(<- & <-)|(_ & H)]%lookup_insert_Some; [done|by apply (so_looking s Hs i x)].
  - split_and!; [by apply sound_done| |by eapply line_done; eauto].
    constructor; [|done]. split_and!; [done| |done]. intros i [= <-]. by exists e.
Qed.

Lemma fine_ext s s' a : stopped s' = stopped s → legs s' = legs s → fine s a → fine s' a.
Proof. intros H1 H2. unfold fine, in_conversation. by rewrite H1, H2. Qed.

Lemma after_step_spec leg c life x m st recording pending s :
  sound s → origin (cap_table x) → capture_inv (cap_table x) settings m → step_ok (cap_table x) settings m st →
  let '(s', out) := after_step leg c life x m st recording pending s in
  sound s' ∧ Forall (fine s) out ∧ offers s' = offers s ∧ chains s' = chains s ∧ lifecycles s' = lifecycles s ∧
  minted s ≤ minted s' ∧ pushes out = [].
Proof.
  intros Hs Ho Hm (_ & _ & _ & _ & _ & Hex). unfold after_step. cbv zeta.
  assert (H1 : sound (set_capture c (with_machine m x) s)) by (by eapply (sound_heap s _ c (with_machine m x))).
  destruct (rearm_spec leg c (wakeAtMs st) life _ H1) as (H2 & E1 & E2 & E3 & E4 & E5 & E6).
  remember (rearm leg c (wakeAtMs st) life (set_capture c (with_machine m x) s)) as s1 eqn:Heq.
  assert (Hdone : sound s1 ∧ Forall (fine s) [] ∧ offers s1 = offers s ∧ chains s1 = chains s ∧
    lifecycles s1 = lifecycles s ∧ minted s ≤ minted s1 ∧ pushes [] = []) by (split_and!; done).
  destruct (kind st); try exact Hdone.
  pose proof (begin_run_spec leg x c (execution st) life recording pending s1 H2 Ho) as Hr.
  destruct (begin_run leg c (execution st) life recording pending s1) as [s2 out].
  destruct Hr as (R1 & R2 & R3 & R4 & R5 & R6 & R7); [intros e He; by apply Hex|].
  split_and!; [done| |exact (eq_trans R3 E1)|exact (eq_trans R4 E2)|exact (eq_trans R5 E3)|simpl in E4; lia|].
  - eapply Forall_impl; [exact R2|]. intros a. by apply fine_ext.
  - clear -R7. induction out as [|a out IH]; [done|].
    assert (pushes out = []) as Ht by (apply IH; intros l id d Hin; by apply (R7 l id d), list_elem_of_further).
    destruct a; simpl; try done. exfalso. by eapply R7, list_elem_of_here.
Qed.

Lemma pushes_app out1 out2 : pushes (out1 ++ out2) = pushes out1 ++ pushes out2.
Proof. apply omap_app. Qed.

Lemma decide_offer_kept id o c now recording pending s :
  sound s → offers s !! id = Some o → of_stage o = found c →
  kept s (decide_offer settings id o c now recording pending s).
Proof.
  intros Hs Ho Hst. assert (Hq : of_stage o ≠ queued) by (by rewrite Hst).
  pose proof (sound_done s id Hs) as Hd.
  assert (Hpass : ∀ a, a = Answered id out_pass_through → kept s (set_offers (delete id (offers s)) s, [a])).
  { intros a ->. split_and!; [done|constructor; [by apply fine_other|done]|by eapply line_done; eauto]. }
  unfold decide_offer. cbv zeta. destruct c as [c|]; [|by apply Hpass]. simpl.
  destruct (heap s !! c) as [x|] eqn:Hx; [|by apply Hpass]. simpl.
  destruct (isCurrent s (of_leg o) (of_lifecycle o)) eqn:Hc; [|by apply Hpass].
  destruct (so_heap _ Hd c x Hx) as [Hi Hor]. apply isCurrent_true in Hc as [_ Hlive].
  destruct (push_answers (cap_table x) settings (machine x) (of_digit o) now Hi) as (m & st & -> & Hm & Hok).
  pose proof (after_step_spec (of_leg o) c (of_lifecycle o) x m st recording pending _ Hd Hor Hm Hok) as Hr.
  destruct (after_step _ _ _ _ _ _ _ _ _) as [s2 out]. destruct Hr as (R1 & R2 & R3 & R4 & R5 & R6 & R7).
  split_and!; simpl; [done|..].
  - constructor; [by apply fine_other|]. apply Forall_app. split; [|by repeat (constructor; [by apply fine_other|])].
    eapply Forall_impl; [exact R2|]. intros a. by apply fine_ext.
  - rewrite pushes_app, R7. eapply line_done; eauto.
Qed.

Lemma fire_kept n w recording pending s : sound s → kept s (fire n w recording pending s).
Proof.
  intros Hs. unfold fire. cbv zeta. destruct (isCurrent _ _ _); cbn [negb]; [|by apply kept_same; [apply (sound_ext s)|..]].
  destruct (heap _ !! wk_capture w) as [x|] eqn:Hx; [|by apply kept_same; [apply (sound_ext s)|..]].
  destruct (so_heap s Hs (wk_capture w) x Hx) as [Hi Hor].
  destruct (expire_answers (cap_table x) settings (machine x) (wk_at w) Hi) as (m & st & He & Hm & Hok).
  cbn [machine cap_table]. rewrite He.
  pose proof (after_step_spec (wk_leg w) (wk_capture w) (wk_lifecycle w)
    {| machine := machine x; cap_table := cap_table x; timer := None; cap_cancelKey := cap_cancelKey x |} m st
    recording pending (set_captures (captures s) (heap s) (delete n (wakes s)) s)) as Hr.
  destruct (after_step _ _ _ _ _ _ _ _ _) as [s2 out].
  destruct Hr as (R1 & R2 & R3 & R4 & R5 & R6 & R7); [by apply (sound_ext s)|done..|].
  split_and!; simpl; [done| |rewrite R7; by apply line_same].
  eapply Forall_impl; [exact R2|]. intros a. by apply fine_ext.
Qed.

Lemma settle_run_kept n r s : sound s → kept s (settle_run n r s).
Proof.
  intros Hs. unfold settle_run. cbv zeta. destruct (isCurrent _ _ _); cbn [negb]; [|by apply kept_same; [apply (sound_ext s)|..]].
  destruct (heap _ !! run_capture r) as [x|] eqn:Hx; [|by apply kept_same; [apply (sound_ext s)|..]].
  destruct (so_heap s Hs (run_capture r) x Hx) as [Hi Hor].
  destruct (mc_apply_answers (cap_table x) settings (machine x) McSettle Hi) as (m & st & He & Hm & _).
  cbn [mc_apply] in He. rewrite He. apply kept_same; try done.
  by eapply (sound_heap s _ (run_capture r) (with_machine m x)).
Qed.

(** Every event. *)
Lemma handle_kept s e r : sound s → seen e → handled s e = Some r → kept s r.
Proof.
  intros Hs He. destruct e; simpl; intros Hr.
  - injection Hr as <-. by apply offer_kept.
  - destruct (offers s !! offer0) as [o|] eqn:Ho; [|done]. simpl in Hr. destruct (of_stage o) eqn:Hst; try done.
    destruct (next_in_line s o) eqn:Hn; [|done]. injection Hr as <-. by apply begin_offer_kept.
  - destruct (offers s !! offer0) as [o|] eqn:Ho; [|done]. simpl in Hr. destruct (of_stage o) eqn:Hst; try done.
    injection Hr as <-. by apply build_capture_kept.
  - destruct (offers s !! offer0) as [o|] eqn:Ho; [|done]. simpl in Hr. destruct (of_stage o) eqn:Hst; try done.
    injection Hr as <-. by apply decide_offer_kept.
  - destruct (wakes s !! timer0) as [w|]; [|done]. injection Hr as <-. by apply fire_kept.
  - destruct (running s !! run) as [w|]; [|done]. injection Hr as <-. by apply settle_run_kept.
  - injection Hr as <-. by apply armCancelKey_kept.
  - injection Hr as <-. by apply disarmCancelKey_kept.
  - injection Hr as <-. by apply release_kept.
  - injection Hr as <-. by apply clear_kept.
  - injection Hr as <-. apply kept_same; try done. by apply (sound_ext s).
Qed.

Lemma run_kept es s s' out log :
  (∀ e, e ∈ es → seen e) → sound s → in_line log s → happens s es = Some (s', out) →
  sound s' ∧ in_line (log ++ pushes out) s' ∧ (Uncaught ∉ out) ∧
  ∀ id, Rejected id ∈ out → ∃ e, seen (EvArtifact id (Throw e)).
Proof.
  revert s log out. induction es as [|e es IH]; intros s log out He Hs Hl; simpl.
  - intros [= <- <-]. rewrite app_nil_r. split_and!; [done|done|apply not_elem_of_nil|].
    intros id H. by apply elem_of_nil in H.
  - destruct (handled s e) as [[s1 out1]|] eqn:Hr; [|done]. destruct (happens s1 es) as [[s2 out2]|] eqn:Hrest; [|done].
    intros [= <- <-]. destruct (handle_kept s e (s1, out1) Hs) as (K1 & K2 & K3); [apply He, list_elem_of_here|done|].
    simpl in *. apply in_line_step with (log := log) in K3; [|done].
    destruct (IH s1 (log ++ pushes out1) out2) as (J1 & J2 & J3 & J4);
      [by intros e' He'; apply He, list_elem_of_further|done..|].
    rewrite pushes_app, app_assoc. rewrite Forall_forall in K2. split_and!; [done|done|..].
    + intros [H|H]%elem_of_app; [|done]. by apply K2 in H as [H _].
    + intros id [H|H]%elem_of_app; [|by apply J4]. apply K2 in H as (_ & H & _). by apply H.
Qed.
End Sound.

(** ** What holds of every run *)

(** C38. Digits are decided in the order they were pressed: whatever else happens on the
    instance, to the other legs, the artifacts, the timers, the keys, the operations and
    the leg itself, the digits of a leg reach its machine in the order in which they
    were offered, each at most once; the machine never throws, and a digit is refused
    only when the artifact could not be read. *)
Theorem digits_in_order (es : list Event) s out leg :
  happens runtime_init es = Some (s, out) →
  StronglySorted lt (log_of leg (pushes out)) ∧ (Uncaught ∉ out) ∧
  ∀ id, Rejected id ∈ out → ∃ e, EvArtifact id (Throw e) ∈ es.
Proof.
  intros Hr. destruct (run_kept (λ e, e ∈ es) es runtime_init s out [] (λ e H, H) (sound_fresh _) in_line_init Hr)
    as (_ & Hl & Hu & Hrej). split_and!; [apply (li_sorted _ _ Hl)|done|done].
Qed.

(** C37. A key performs an operation only in a conversation and only on request: whatever
    happened before, an operation is started only while the instance is not draining and
    the leg is up, answered and bridged; a transfer, a recording or a park because an
    artifact that was read lists a code of that action, with a destination where one is
    required, and a cancellation because a cancel key was armed. *)
Theorem operations_are_asked_for (es : list Event) s out e s' acts a leg :
  happens runtime_init es = Some (s, out) → handled s e = Some (s', acts) → a ∈ acts → operates_on a = Some leg →
  in_conversation s leg ∧ warranted (λ e', e' ∈ es ∨ e' = e) a.
Proof.
  intros Hr He Ha Hop.
  destruct (run_kept (λ e', e' ∈ es ∨ e' = e) es runtime_init s out [] (λ e' H, or_introl H) (sound_fresh _) in_line_init Hr)
    as (Hs & _). destruct (handle_kept _ s e (s', acts) Hs (or_intror eq_refl) He) as (_ & Hf & _).
  rewrite Forall_forall in Hf. apply Hf in Ha as (_ & _ & H). by apply H.
Qed.
End Facts.
End MidCallRuntimeFacts.
