(* ===== verification/MidCallRuns.v ===== *)
(** * Runs of the mid-call runtime

    A party that presses star five hash and parks its own leg; and what the digits of
    that leg come to when the call is collected. *)

From S2P Require Import Prelude Machines Dtmf MidCall MidCallRuntime MidCallRuntimeFacts.
From S2P Require FeatureCodes.

Module MidCallRuns.
Import MidCall MidCallRuntime MidCallRuntimeFacts.

Definition collation (a b : string) : Z := 0.

Definition park_code : FeatureCodes.FeatureCodes.CompiledFeatureCode := {|
  FeatureCodes.FeatureCodes.fc_id := "park"; FeatureCodes.FeatureCodes.fc_code := "*5";
  FeatureCodes.FeatureCodes.fc_action := FeatureCodes.FeatureCodes.call_park;
  FeatureCodes.FeatureCodes.fc_argumentMode := FeatureCodes.FeatureCodes.arg_optional;
  FeatureCodes.FeatureCodes.fc_params := None; FeatureCodes.FeatureCodes.fc_label := None;
  FeatureCodes.FeatureCodes.fc_nodeId := "" |}.

Definition talking_leg : LegView :=
  {| lv_organizationId := "acme"; lv_isTearingDown := false; lv_isAnswered := true; lv_bridged := true |}.

Definition parked_leg : LegView :=
  {| lv_organizationId := "acme"; lv_isTearingDown := false; lv_isAnswered := true; lv_bridged := false |}.

Definition before_hash : list Event :=
  [EvLeg "alice" (Some talking_leg);
   EvOffer "alice" "*"; EvBegin 0; EvArtifact 0 (Ok (Some [park_code])); EvDecide 0 0 false false;
   EvOffer "alice" "5"; EvBegin 4; EvDecide 4 300 false false;
   EvOffer "alice" "#"; EvBegin 6].

Definition runs (es : list Event) : MidCallFeatureRuntime * list Action :=
  default (runtime_init, []) (run_events collation DEFAULT_MID_CALL_FEATURE_SETTINGS runtime_init es).

Lemma runs_some es :
  match run_events collation DEFAULT_MID_CALL_FEATURE_SETTINGS runtime_init es with Some _ => true | None => false end = true →
  run_events collation DEFAULT_MID_CALL_FEATURE_SETTINGS runtime_init es = Some ((runs es).1, (runs es).2).
Proof. unfold runs. by destruct (run_events _ _ _ _) as [[]|]. Qed.

Definition parks : list Event := before_hash ++ [EvDecide 6 600 false false].

Lemma digits_in_order_witness :
  log_of "alice" (pushes (runs parks).2) = [0; 4; 6] ∧
  StronglySorted lt (log_of "alice" (pushes (runs parks).2)).
Proof.
  split; [vm_compute; reflexivity|].
  apply (digits_in_order collation DEFAULT_MID_CALL_FEATURE_SETTINGS parks (runs parks).1 (runs parks).2 "alice").
  apply runs_some. vm_compute. reflexivity.
Defined.

Definition at_hash : option (MidCallFeatureRuntime * list Action) :=
  handle collation DEFAULT_MID_CALL_FEATURE_SETTINGS (runs before_hash).1 (EvDecide 6 600 false false).

Definition hash_acts : list Action := match at_hash with Some (_, acts) => acts | None => [] end.
Definition after_hash : MidCallFeatureRuntime := match at_hash with Some (s, _) => s | None => runtime_init end.

Lemma operations_are_asked_for_witness :
  DoPark "alice" None ∈ hash_acts ∧
  warranted (λ e, e ∈ before_hash ∨ e = EvDecide 6 600 false false) (DoPark "alice" None).
Proof.
  assert (Hin : DoPark "alice" None ∈ hash_acts) by (vm_compute; apply list_elem_of_further, list_elem_of_here).
  split; [exact Hin|].
  apply (operations_are_asked_for collation DEFAULT_MID_CALL_FEATURE_SETTINGS before_hash (runs before_hash).1
           (runs before_hash).2 (EvDecide 6 600 false false) after_hash hash_acts (DoPark "alice" None) "alice").
  - apply runs_some. vm_compute. reflexivity.
  - unfold after_hash, hash_acts, at_hash. destruct (handle _ _ _ _) as [[]|] eqn:E; [reflexivity|].
    vm_compute in E. discriminate.
  - exact Hin.
  - reflexivity.
Defined.

(** The park takes the leg out of its bridge, so the end of the operation settles
    nothing; when the call is collected, every digit is swallowed. *)
Definition collected : list Event :=
  parks ++ [EvLeg "alice" (Some parked_leg); EvSettled 7; EvLeg "alice" (Some talking_leg);
            EvOffer "alice" "1"; EvBegin 8; EvDecide 8 90000 false false;
            EvOffer "alice" "2"; EvBegin 9; EvDecide 9 90100 false false].

Example collected_digits_swallowed :
  (runs collected).2 =
  (runs parks).2 ++ [PushDigit "alice" 8 "1"; Answered 8 out_consumed; PushDigit "alice" 9 "2"; Answered 9 out_consumed] ∧
  running (runs collected).1 = ∅.
Proof. vm_compute. split; reflexivity. Qed.
End MidCallRuns.
